(* ===== verification/_CoqProject ===== *)
-Q . S2P
Prelude.v
Framer.v
Envelope.v
Dek.v
CryptoRuntime.v
ObjectStore.v
Lease.v
Reconciler.v
Workloads.v
Rollup.v
Dispatch.v
Calendar.v
Retention.v
RetentionDelete.v
RetentionFold.v
RetentionPass.v
Router.v
Toggle.v
ToggleSafety.v
ToggleRun.v
Provider.v
ProviderSafety.v
ProviderFair.v
Rational.v
RateLimiter.v
Admission.v
AdmissionSafety.v
AdmissionPlan.v
AdmissionRate.v
AdmissionFair.v
RangeDownload.v
ArchiveNames.v
Mbox.v
Export.v
FolderResolver.v
DbRetry.v
PolicyBinding.v
PolicyApi.v
PolicySafety.v
CopyWork.v
CopyBatch.v
CopyFlow.v
CopySafety.v
CopyWhole.v
CopyReach.v
CopySeal.v
Text.v
Tokens.v
Access.v
GuestPath.v
ExportAuthz.v
ExportJobs.v
ExportSafety.v
BackupHonesty.v
BackupCursor.v
BackupSettle.v
BackupShards.v
BackupRescue.v
BackupReach.v
