(* ===== verification/Prelude.v ===== *)
(** * TM Vault backend: a verification library

    TM Vault backs up Microsoft 365 tenants. A scheduler turns policies into jobs, workers
    read mailboxes, drives and chats from the provider under admission control, write
    encrypted blobs to an object store and rows to PostgreSQL, and pooled services settle,
    retain, export and restore what was captured. This library models the parts of that
    system that hold its own logic, in Python files under [src/], and proves what makes each
    of them correct.

    ** How the code is modelled

    A database table is a finite map from ids to records with the columns the code reads or
    writes; one transaction (or one statement, where the code commits in between) is one
    function on the tables; a function that raises returns [result]. Processes that
    interleave are step relations whose steps are those functions, with a step for what other
    services may write; invariants are proved for every reachable state. Time is integer
    microseconds, read once per operation; a server's clock does not run backwards where a
    theorem says so. Seconds, tokens and fair-queue clocks that the code keeps in floats are
    exact rationals ([Qc]), so rounding is the one thing left out of them. A Python [str] is a
    [string] or, where lengths matter, the list of its code points. Whatever is not in the
    repository (ciphers, key derivation, the KMS, hashes, the S3 service, Redis and its
    scripts' clock, casing tables) is a section variable or a class, with its documented
    behaviour as the class's laws, and every theorem that uses laws has a witness with a
    concrete instance.

    ** Files

    Shared: this file ([result] and its monad, decision tactics, bytes, generators of pieces,
    list lemmas); [Rational] (linear arithmetic and token levels on [Qc]); [Calendar] (the
    date arithmetic of [datetime]).

    Encryption and storage, [src/shared/crypto/] and [src/shared/storage/]: [Framer]
    ([framer.py]), [Envelope] ([envelope.py], [blob_cipher.py]), [Dek] ([kek.py],
    [dek_manager.py], [store.py]), [CryptoRuntime] ([runtime.py]), [ObjectStore]
    ([seaweedfs.py], [migrate.py]), [Router] ([router.py] and the two [from_config]s). The
    layers are stacked as in the code: the framer is used by the envelope, the envelope and
    the DEK manager by the runtime hook, the hook by the store. [Toggle], [ToggleSafety],
    [ToggleRun]: the move of the data plane between backends, [storage_toggle_worker/] and
    [api-gateway/routes/admin_storage.py], one statement per step.

    Leases and settlement: [Lease] ([lease.py]), [Reconciler] ([reconciler.py] and the tick
    of the scheduler that calls it; it uses the leases of [Lease] and the workload names of
    [Workloads], [sla_workloads.py]), [Rollup] ([batch_rollup.py]), [Dispatch]
    ([dispatch_policy.py] and the two callers in the scheduler's [main.py]).

    Retention, [retention_cleanup.py] with the effective inventory of [database.py]:
    [Retention] (keep sets), [RetentionDelete] (the delete transaction), [RetentionFold] (the
    fold of sparse rows), [RetentionPass] (the daily pass).

    Policies: [PolicyApi], [PolicySafety] ([sla_validation.py] and the policy endpoints of
    [resource-service/main.py]), [PolicyBinding] ([resource_group_matcher.py] and the two
    binders).

    Provider traffic: [RateLimiter] ([graph_rate_limiter.py]), [Admission] and
    [AdmissionSafety], [AdmissionPlan], [AdmissionRate], [AdmissionFair]
    ([provider_admission.py], its four Lua scripts included), [RangeDownload]
    ([range_download.py]); [Provider], [ProviderSafety], [ProviderFair] ([provider_work.py]:
    the durable continuation of a throttled backup).

    Copy work: [CopyWork] ([copy_work.py]), [CopyBatch] ([copy_executor.py],
    [copy_admission.py], [chat_presentation_work.py]), [CopyFlow] ([copy_workflow.py], the
    recovery half of [copy_runtime.py]), [CopySafety] and [CopyWhole] (what every operation
    keeps), [CopyReach] (the step relation and its theorems), [CopySeal] (the seal under lost
    acknowledgements).

    Backup runs, [workers/backup-worker/main.py]: [BackupHonesty] (the verdicts on what a run
    lost), [BackupCursor] (pending and active delta cursors), [BackupSettle] (opening and
    settling a snapshot), [BackupShards] (the lease of a shard and the finalize of a sharded
    snapshot), [BackupRescue] ([onedrive_rescue_settle.py]: the settlement of a drive whose
    lost files were fetched after all), [BackupReach] (the interleaved runs of one resource,
    with all four writers that promote a cursor).

    Access: [Text] (Python's text operations and [uuid.UUID]), [Tokens] ([security.py],
    [tenant_entitlement.py], refresh and logout of [auth-service/main.py]), [Access]
    ([auth_enforcement.py]), [GuestPath] (its confinement of guest paths), [ExportAuthz]
    ([export_authz.py]), [ExportJobs] (the export and restore endpoints of
    [job-service/main.py], [export_routing.py], the queues of [message_bus.py]),
    [ExportSafety] (what the gate guarantees).

    Exports and small libraries: [ArchiveNames] ([file_path_sanitize.py], [csv_safe.py]),
    [Mbox] ([mbox_writer.py], the mailbox half of [mail_export.py]), [Export]
    ([file_export.py], the rest of [mail_export.py], [export_manifest.py]), [FolderResolver]
    ([folder_resolver.py]), [DbRetry] ([db_retry.py]).

    ** What the theorems show

    Encryption: a blob sealed today opens after every rotation, re-wrap and restart
    ([CryptoRuntime]); the decoder accepts what the encoder writes and nothing else that it
    can tell apart ([Framer]); a failed re-wrap loses no key ([Dek]); a verified upload can be
    read back or is gone ([ObjectStore]).

    Ownership: a lease holder whose token was superseded changes no row ([Lease]); granted
    provider turns are exclusive ([ProviderSafety]); a copy claim that was taken over is
    fenced out ([CopyReach]); a leaf is sealed exactly once ([CopySeal]).

    Access: a queued job and a served artifact are covered by the caller's rights on every
    resource behind them ([ExportSafety]); a request that is forwarded names, in the spelling
    the middleware looks for, only tenants its caller may use ([Access]); a refresh token is
    exchanged once, and not at all after a logout ([Tokens]); a guest path stays under its root ([GuestPath]).

    Cursors: however the runs of a resource interleave, every change before an active cursor was
    captured by a run whose snapshot was COMPLETED at some moment ([BackupReach]), a sharded
    run earns its promotion ([BackupShards]) and a rescued drive is settled on proof
    ([BackupRescue]), a run claims COMPLETED only when nothing is known to be missing
    ([BackupHonesty], [BackupSettle]), and redeliveries open no second snapshot ([BackupSettle]).

    Nothing is lost or invented: what retention deletes is expired, and survivors and restore
    points keep their inventory (the four retention files); a leaf resumed as copied has every
    row its manifests selected, but for those another service removed ([CopyReach]);
    completed provider work is honest unless the rescue of a drive closed it
    ([ProviderSafety]); the sweep derives the statuses the parts justify ([Reconciler]); an
    export accounts for every item and, where one shard serves the blobs of all its items,
    contains what it counts as exported ([Export]), and a reader gets back the
    messages of a mailbox ([Mbox]); a download never mixes two versions ([RangeDownload]).

    Bounds and fairness: capacities, rates, cooldowns and slots are respected and backlogged
    tenants share the turns ([ProviderSafety], [ProviderFair], [AdmissionPlan],
    [AdmissionRate], [AdmissionFair]); dispatch waves ([Dispatch]); abandoned shards fail
    after a bound that depends on the shards in flight, not on the size of the table
    ([Reconciler]).

    Administration: writes stay closed while the data plane moves, and an aborted toggle never
    promotes ([ToggleSafety]); a tenant keeps one default policy, policies are valid, retries
    create nothing twice ([PolicySafety]); a sweep binds only unassigned resources
    ([PolicyBinding]); a selection is what was ticked ([FolderResolver]).

    ** Bounds and fuel

    Bounds that are the code's own are constants with its names: [RECONCILER_BATCH] 200,
    [COMMIT_EVERY] 100, [CHUNK] 1000, [PENDING_MAX] 512, [BATCH_MAX_BYTES] 32 MiB,
    [LEASE_SECONDS] 90, [COORDINATOR_ATTEMPTS] 3, the depth 25 of an exception chain, the
    drain of 900 s in steps of 5 s. Loops the kernel cannot see terminate carry fuel, and each
    has a lemma that the fuel given suffices: the number of fires for a cycle window (512,
    with the answer past it stated), the length of the input for the re-chunker and the block
    stager, the number of sparse rows plus one for the fold, the number of ids plus one for
    the retention paging, 64 rounds of a reservation, which the code also stops at.

    ** Not modelled

    The handlers of the workers that read the provider and write rows ([graph_client.py], most
    of [workers/backup-worker]) and most of the services' endpoints reshape JSON; they have no
    contract of their own beyond the parts above. SQL that only selects (the candidate rows of
    a copy, the chat catalogue, search) is a parameter where a modelled operation uses it, as are
    the carry-forward of mailbox shards and the counts of a finalize.
    Migrations, bootstrap, metrics, logging, notifications, the vendored PST writer and scripts
    are left out. Every part is listed with its reason in the manifest that accompanies this
    library. *)

From Stdlib Require Export ZArith Lia.
From Stdlib Require Import Strings.Byte.
From stdpp Require Export base tactics list gmap strings sorting.

(** ** Results of fallible code

    A Python function that raises is a function into [result E A]; [E] has one
    constructor per raise site the model distinguishes. *)
Inductive result (E A : Type) : Type :=
  | Ok (a : A)
  | Err (e : E).
Global Arguments Ok {E A} a.
Global Arguments Err {E A} e.

Global Instance result_ret {E} : MRet (result E) := λ A a, Ok a.
Global Instance result_bind {E} : MBind (result E) := λ A B f m,
  match m with Ok a => f a | Err e => Err e end.
Global Instance result_fmap {E} : FMap (result E) := λ A B f m,
  match m with Ok a => Ok (f a) | Err e => Err e end.

Global Instance result_eq_dec {E A} `{EqDecision E, EqDecision A} :
  EqDecision (result E A).
Proof. solve_decision. Defined.

(** [if c then raise e] *)
Definition raise_if {E} (c : bool) (e : E) : result E unit :=
  if c then Err e else Ok tt.

(** [except ... as e: raise F(e)] *)
Definition map_err {E F A} (f : E → F) (m : result E A) : result F A :=
  match m with Ok a => Ok a | Err e => Err (f e) end.

Definition of_option {E A} (e : E) (o : option A) : result E A :=
  match o with Some a => Ok a | None => Err e end.

(** The value of a computation that returned. *)
Definition is_ok {E A} (m : result E A) : bool :=
  match m with Ok _ => true | Err _ => false end.

Definition from_ok {E A} (d : A) (m : result E A) : A :=
  match m with Ok a => a | Err _ => d end.

(** A loop that folds a fallible body over a list, left to right. *)
Fixpoint mapR {E A B} (f : A → result E B) (l : list A) : result E (list B) :=
  match l with
  | [] => Ok []
  | x :: l => y ← f x; ys ← mapR f l; Ok (y :: ys)
  end.

Section result_lemmas.
  Context {E : Type}.

Lemma Ok_inj {A} (a b : A) : @Ok E A a = Ok b → a = b.
Proof. by intros [= ->]. Qed.

Lemma bind_Ok {A B} (m : result E A) (f : A → result E B) b :
  (m ≫= f) = Ok b ↔ ∃ a, m = Ok a ∧ f a = Ok b.
Proof. destruct m; simpl; naive_solver. Qed.

Lemma bind_Err {A B} (m : result E A) (f : A → result E B) e :
  (m ≫= f) = Err e ↔ m = Err e ∨ ∃ a, m = Ok a ∧ f a = Err e.
Proof. destruct m; simpl; naive_solver. Qed.

Lemma raise_if_Ok (c : bool) (e : E) u : raise_if c e = Ok u ↔ c = false.
Proof. destruct c, u; simpl; naive_solver. Qed.

Lemma map_err_Ok {F A} (f : E → F) (m : result E A) a :
  map_err f m = Ok a ↔ m = Ok a.
Proof. destruct m; simpl; naive_solver. Qed.

Lemma of_option_Ok {A} (e : E) (o : option A) a :
  of_option e o = Ok a ↔ o = Some a.
Proof. destruct o; simpl; naive_solver. Qed.

Lemma is_ok_from {A} (d : A) (m : result E A) : is_ok m = true → m = Ok (from_ok d m).
Proof. by destruct m. Qed.

Lemma from_ok_pair {A B} (d : A * B) (m : result E (A * B)) a :
  fst <$> m = Ok a → m = Ok (a, (from_ok d m).2).
Proof. destruct m as [[a' b]|]; simpl; [by intros [= ->]|done]. Qed.

Lemma from_ok_pair_r {A B} (d : A * B) (m : result E (A * B)) b :
  snd <$> m = Ok b → m = Ok ((from_ok d m).1, b).
Proof. destruct m as [[a b']|]; simpl; [by intros [= ->]|done]. Qed.

Lemma mapR_Ok {A B} (f : A → result E B) l ks :
  mapR f l = Ok ks ↔ Forall2 (λ x y, f x = Ok y) l ks.
Proof.
  revert ks; induction l as [|x l IH]; intros ks; simpl.
  - split; [intros [= <-]; constructor|by intros ->%Forall2_nil_inv_l].
  - rewrite bind_Ok. setoid_rewrite bind_Ok. setoid_rewrite IH. split.
    + intros (y & ? & ys & ? & [= <-]); by constructor.
    + intros (y & ys & ? & ? & ->)%Forall2_cons_inv_l; eauto 6.
Qed.

Lemma mapR_app {A B} (f : A → result E B) l k :
  mapR f (l ++ k) = (x ← mapR f l; y ← mapR f k; Ok (x ++ y)).
Proof.
  induction l as [|a l IH]; simpl; [by destruct (mapR f k)|].
  destruct (f a); simpl; [|done]. rewrite IH.
  destruct (mapR f l); simpl; [|done]. by destruct (mapR f k).
Qed.
End result_lemmas.

(** Decompose a hypothesis that says a monadic computation returned. *)
Ltac inv_ok :=
  repeat match goal with
  | H : mbind _ _ = Ok _ |- _ => apply bind_Ok in H as (? & ? & ?)
  | H : raise_if _ _ = Ok _ |- _ => apply raise_if_Ok in H
  | H : of_option _ _ = Ok _ |- _ => apply of_option_Ok in H
  | H : map_err _ _ = Ok _ |- _ => apply map_err_Ok in H
  | H : Ok _ = Ok _ |- _ => apply Ok_inj in H
  | H : Err _ = Ok _ |- _ => discriminate H
  | H : Ok _ = Err _ |- _ => discriminate H
  | u : unit |- _ => destruct u
  end.

(** Reduce the monadic plumbing and nothing else. *)
Ltac mred := cbn [mbind result_bind fmap result_fmap raise_if of_option map_err negb andb orb].

(** Case analysis on the boolean tests of the source, with the arithmetic
    facts they decide. *)
Ltac bools :=
  repeat match goal with
  | H : (_ && _) = true |- _ => apply andb_true_iff in H as [? ?]
  | H : (_ || _) = false |- _ => apply orb_false_iff in H as [? ?]
  | H : negb _ = true |- _ => apply negb_true_iff in H
  | H : negb _ = false |- _ => apply negb_false_iff in H
  | H : bool_decide _ = true |- _ => apply bool_decide_eq_true in H
  | H : bool_decide _ = false |- _ => apply bool_decide_eq_false in H
  | H : (_ <? _)%Z = true |- _ => apply Z.ltb_lt in H
  | H : (_ <? _)%Z = false |- _ => apply Z.ltb_ge in H
  | H : (_ <=? _)%Z = true |- _ => apply Z.leb_le in H
  | H : (_ <=? _)%Z = false |- _ => apply Z.leb_gt in H
  | H : (_ =? _)%Z = true |- _ => apply Z.eqb_eq in H
  | H : (_ =? _)%Z = false |- _ => apply Z.eqb_neq in H
  | H : (_ <? _) = true |- _ => apply Nat.ltb_lt in H
  | H : (_ <? _) = false |- _ => apply Nat.ltb_ge in H
  | H : (_ <=? _) = true |- _ => apply Nat.leb_le in H
  | H : (_ <=? _) = false |- _ => apply Nat.leb_gt in H
  | H : (_ =? _) = true |- _ => apply Nat.eqb_eq in H
  | H : (_ =? _) = false |- _ => apply Nat.eqb_neq in H
  end.

(** ** Bytes

    Python [bytes] are lists of [Byte.byte]; [data[a:b]] with non-negative
    bounds is [slice a b data]. *)
Abbreviation bytes := (list Byte.byte).

Global Instance byte_eq_decision : EqDecision Byte.byte := Byte.byte_eq_dec.
Global Instance byte_countable : Countable Byte.byte :=
  inj_countable Byte.to_N Byte.of_N Byte.of_to_N.

Definition slice {A} (a b : nat) (l : list A) : list A := take (b - a) (drop a l).

Definition byte_val (b : Byte.byte) : Z := Z.of_N (Byte.to_N b).

Definition byte_of_Z (z : Z) : Byte.byte :=
  default Byte.x00 (Byte.of_N (Z.to_N (z `mod` 256))).

(** [struct.pack(">I", z)]; [None] is [struct.error]. *)
Definition be32 (z : Z) : bytes :=
  [byte_of_Z (z / 2^24); byte_of_Z (z / 2^16); byte_of_Z (z / 2^8); byte_of_Z z].

Global Arguments be32 : simpl never.

Definition pack_I (z : Z) : option bytes :=
  if bool_decide (0 ≤ z < 2^32)%Z then Some (be32 z) else None.

(** [struct.unpack(">I", b)] on the four bytes of [b]. *)
Definition unpack_I (b : bytes) : Z :=
  foldl (λ acc x, acc * 256 + byte_val x)%Z 0%Z b.

Lemma byte_val_range b : (0 ≤ byte_val b < 256)%Z.
Proof.
  unfold byte_val. pose proof (Byte.to_N_bounded b). lia.
Qed.

Lemma byte_val_of_Z z : byte_val (byte_of_Z z) = (z `mod` 256)%Z.
Proof.
  unfold byte_val, byte_of_Z.
  pose proof (Z.mod_pos_bound z 256 ltac:(lia)).
  destruct (Byte.of_N _) as [b|] eqn:Hb; simpl.
  - apply Byte.to_of_N in Hb. rewrite Hb. lia.
  - apply Byte.of_N_None_iff in Hb. lia.
Qed.

Lemma byte_val_inj a b : byte_val a = byte_val b → a = b.
Proof.
  unfold byte_val; intros H%N2Z.inj.
  assert (Some a = Some b) as [= ->]; [|done].
  by rewrite <-(Byte.of_to_N a), <-(Byte.of_to_N b), H.
Qed.

Lemma unpack_be32 z : (0 ≤ z < 2^32)%Z → unpack_I (be32 z) = z.
Proof.
  intros Hz. unfold unpack_I, be32; cbn [foldl]. rewrite !byte_val_of_Z.
  Z.div_mod_to_equations. lia.
Qed.

Lemma length_be32 z : length (be32 z) = 4.
Proof. done. Qed.

Lemma be32_inj z w :
  (0 ≤ z < 2^32)%Z → (0 ≤ w < 2^32)%Z → be32 z = be32 w → z = w.
Proof.
  intros Hz Hw H. by rewrite <-(unpack_be32 z), <-(unpack_be32 w), H.
Qed.

Lemma unpack_range b : length b = 4 → (0 ≤ unpack_I b < 2^32)%Z.
Proof.
  intros. destruct b as [|b0 [|b1 [|b2 [|b3 [|]]]]]; try done.
  pose proof (byte_val_range b0); pose proof (byte_val_range b1);
  pose proof (byte_val_range b2); pose proof (byte_val_range b3).
  unfold unpack_I; simpl. lia.
Qed.

Lemma be32_unpack b : length b = 4 → be32 (unpack_I b) = b.
Proof.
  intros. destruct b as [|b0 [|b1 [|b2 [|b3 [|]]]]]; try done.
  pose proof (byte_val_range b0); pose proof (byte_val_range b1);
  pose proof (byte_val_range b2); pose proof (byte_val_range b3).
  unfold be32, unpack_I; simpl.
  repeat f_equal; apply byte_val_inj; rewrite byte_val_of_Z;
    Z.div_mod_to_equations; lia.
Qed.

Lemma pack_I_Some z b :
  pack_I z = Some b ↔ (0 ≤ z < 2^32)%Z ∧ b = be32 z.
Proof. unfold pack_I. case_bool_decide; naive_solver. Qed.

Lemma pack_I_ok z : (0 ≤ z < 2^32)%Z → pack_I z = Some (be32 z).
Proof. intros. by apply pack_I_Some. Qed.

Lemma bool_decide_iff P Q `{Decision P, Decision Q} :
  bool_decide P = bool_decide Q → (P ↔ Q).
Proof. repeat case_bool_decide; naive_solver. Qed.

(** ** Generators

    A Python generator is what it yielded, in order, and how it ended. *)
Inductive gen (E A : Type) := Gen (out : list bytes) (res : result E A).
Global Arguments Gen {E A} out res.

Global Instance gen_ret {E} : MRet (gen E) := λ A a, Gen [] (Ok a).
Global Instance gen_bind {E} : MBind (gen E) := λ A B f m,
  match m with
  | Gen out (Err e) => Gen out (Err e)
  | Gen out (Ok a) => match f a with Gen out' r => Gen (out ++ out') r end
  end.

Definition yield {E} (b : bytes) : gen E unit := Gen [b] (Ok tt).
Definition lift {E A} (r : result E A) : gen E A := Gen [] r.
Definition throw {E A} (e : E) : gen E A := Gen [] (Err e).
(** [try: ... except ... as e: raise F(e)] around a generator. *)
Definition gen_map_err {E F A} (f : E → F) (g : gen E A) : gen F A :=
  match g with Gen out r => Gen out (map_err f r) end.

Section gen_lemmas.
  Context {E : Type}.

Lemma gen_bind_assoc {A B C} (m : gen E A) (f : A → gen E B) (g : B → gen E C) :
  ((m ≫= f) ≫= g) = (m ≫= λ a, f a ≫= g).
Proof.
  destruct m as [o [a|e]]; simpl; [|done].
  destruct (f a) as [o' [b|e]]; simpl; [|done].
  destruct (g b) as [o'' r]; simpl. by rewrite (assoc_L (++)).
Qed.

Lemma gen_ret_bind {A B} (a : A) (f : A → gen E B) : (mret a ≫= f) = f a.
Proof. unfold mret, gen_ret; simpl. by destruct (f a). Qed.

Lemma lift_ok_bind {A B} (a : A) (f : A → gen E B) : (lift (Ok a) ≫= f) = f a.
Proof. simpl. by destruct (f a). Qed.

Lemma gen_bind_ext {A B} (m : gen E A) (f g : A → gen E B) :
  (∀ a, f a = g a) → (m ≫= f) = (m ≫= g).
Proof. intros Hfg. destruct m as [o [a|e]]; simpl; [by rewrite Hfg|done]. Qed.

Lemma gen_bind_ok {A B} (m : gen E A) (f : A → gen E B) out b :
  (m ≫= f) = Gen out (Ok b) ↔
  ∃ o1 o2 a, m = Gen o1 (Ok a) ∧ f a = Gen o2 (Ok b) ∧ out = o1 ++ o2.
Proof.
  destruct m as [o [a|e]]; simpl.
  - destruct (f a) as [o' r] eqn:Ha. split; [intros [= <- ->]; eauto 8|].
    intros (o1 & o2 & a' & [= <- <-] & Hb & ->). congruence.
  - split; [done|]. naive_solver.
Qed.

Lemma gen_map_err_ok {F A} (f : E → F) (g : gen E A) out a :
  gen_map_err f g = Gen out (Ok a) ↔ g = Gen out (Ok a).
Proof. destruct g as [o [?|?]]; simpl; naive_solver. Qed.
End gen_lemmas.

(** ** Lists *)

Section list_lemmas.
  Context {A : Type}.
  Implicit Types l k : list A.

Lemma slice_app_r (a b : nat) l k :
  length l ≤ a → slice a b (l ++ k) = slice (a - length l) (b - length l) k.
Proof.
  intros. unfold slice. rewrite drop_app_ge by done. f_equal. lia.
Qed.

Lemma slice_app_l (b : nat) l k : length l = b → slice 0 b (l ++ k) = l.
Proof.
  intros <-. unfold slice. by rewrite Nat.sub_0_r, drop_0, take_app_length.
Qed.

Lemma slice_mid (a b : nat) l x k :
  length l = a → b = a + length x → slice a b (l ++ x ++ k) = x.
Proof.
  intros <- ->. unfold slice. rewrite drop_app_length.
  apply take_app_length'. lia.
Qed.

Lemma slice_app_le (a b : nat) l k : b ≤ length l → slice a b (l ++ k) = slice a b l.
Proof.
  intros. unfold slice. destruct (decide (a ≤ length l)).
  - rewrite drop_app_le by done. apply take_app_le. rewrite length_drop. lia.
  - replace (b - a) with 0 by lia. by rewrite !take_0.
Qed.

Lemma slice_take_app (a b n : nat) l k :
  b ≤ n → n ≤ length l → slice a b (take n l ++ k) = slice a b l.
Proof.
  intros. rewrite slice_app_le by (rewrite length_take; lia).
  rewrite <-(take_drop n l) at 2. by rewrite slice_app_le by (rewrite length_take; lia).
Qed.

Lemma length_slice a b l : b ≤ length l → length (slice a b l) = b - a.
Proof. intros. unfold slice. rewrite length_take, length_drop. lia. Qed.

Lemma slice_skip a b n l : slice a b (drop n l) = slice (n + a) (n + b) l.
Proof. unfold slice. rewrite drop_drop. f_equal; lia. Qed.

Lemma forallb_Forall (f : A → bool) l : forallb f l = true ↔ Forall (λ x, f x = true) l.
Proof.
  induction l as [|x l IH]; simpl; [done|]. by rewrite andb_true_iff, IH, Forall_cons.
Qed.

Lemma existsb_Forall (f : A → bool) l : existsb f l = false ↔ Forall (λ x, f x = false) l.
Proof.
  induction l as [|x l IH]; simpl; [done|]. by rewrite orb_false_iff, IH, Forall_cons.
Qed.

Lemma existsb_Exists (f : A → bool) l : existsb f l = true ↔ Exists (λ x, f x = true) l.
Proof.
  induction l as [|x l IH]; simpl; [by rewrite Exists_nil|]. by rewrite orb_true_iff, IH, Exists_cons.
Qed.

Lemma app_split_at l k l' k' :
  length l = length l' → l ++ k = l' ++ k' → l = l' ∧ k = k'.
Proof. intros. by apply app_inj_1. Qed.
End list_lemmas.

(** Reachability in a step relation: the transitive closure used by the
    components that are state machines. *)
Section invariants.
  Context {S : Type} (step : S → S → Prop).

Lemma rtc_invariant (I : S → Prop) :
  (∀ s s', I s → step s s' → I s') → ∀ s s', rtc step s s' → I s → I s'.
Proof. intros Hpres s s'. induction 1; eauto. Qed.
End invariants.

Create HintDb vault.
Create Rewrite HintDb vault.
#[export] Hint Resolve byte_val_range unpack_range length_be32 : vault.
#[export] Hint Rewrite @length_app @length_take @length_drop length_be32 : vault.

Lemma is_Some_default {A} (d : A) (o : option A) :
  (if o is Some _ then true else false) = true → o = Some (default d o).
Proof. by destruct o. Qed.

Lemma pair_eta_r {A B} (p : A * B) c : p.2 = c → p = (p.1, c).
Proof. destruct p. by intros <-. Qed.

Lemma triple_eta_r {A B C} (p : A * B * C) c : p.2 = c → p = (p.1.1, p.1.2, c).
Proof. destruct p as [[? ?] ?]. by intros <-. Qed.

(** [filter] on a list whose elements all pass, or all fail, the test. *)
Lemma list_filter_all {A} (P : A → Prop) `{∀ x, Decision (P x)} (l : list A) :
  (∀ x, x ∈ l → P x) → filter P l = l.
Proof.
  induction l as [|x l IH]; intros HP; [done|]. rewrite filter_cons_True, IH; set_solver.
Qed.

Lemma list_filter_none {A} (P : A → Prop) `{∀ x, Decision (P x)} (l : list A) :
  (∀ x, x ∈ l → ¬ P x) → filter P l = [].
Proof.
  induction l as [|x l IH]; intros HP; [done|]. rewrite filter_cons_False, IH; set_solver.
Qed.

Lemma existsb_elem {A} (f : A → bool) (l : list A) : existsb f l = true ↔ ∃ x, x ∈ l ∧ f x = true.
Proof. rewrite existsb_exists. by setoid_rewrite list_elem_of_In. Qed.

Lemma NoDup_fmap_filter {A B} (f : A → B) (P : A → Prop) `{∀ x, Decision (P x)} (l : list A) :
  NoDup (f <$> l) → NoDup (f <$> filter P l).
Proof.
  induction l as [|x l IH]; [done|]. rewrite fmap_cons. intros [Hx Hl]%NoDup_cons.
  rewrite filter_cons. case_decide; [|by apply IH]. rewrite fmap_cons. constructor; [|by apply IH].
  rewrite list_elem_of_fmap. intros (y & Hy & [_ Hin]%list_elem_of_filter).
  apply Hx. rewrite Hy. by apply list_elem_of_fmap_2.
Qed.

Lemma filter_ext_in {A} (P Q : A → Prop) `{∀ x, Decision (P x), ∀ x, Decision (Q x)} (l : list A) :
  (∀ x, x ∈ l → P x ↔ Q x) → filter P l = filter Q l.
Proof.
  induction l as [|x l IH]; intros HPQ; [done|]. rewrite !filter_cons, IH by set_solver.
  destruct (HPQ x ltac:(set_solver)). by repeat case_decide; naive_solver.
Qed.
