(* ===== verification/Framer.v ===== *)
(** * The chunked AES-256-GCM frame

    Model of [src/shared/crypto/framer.py]: the self-describing TMV1 frame that
    seals every blob, in its single-shot ([encrypt], [decrypt]) and streaming
    ([encrypt_stream], [decrypt_stream]) forms.

    AES-GCM itself ([cryptography]'s [AESGCM]) is outside the repository: it is
    the class [Aead], and [AeadLaws] states its documented behaviour. An
    asynchronous byte iterator is the list of the pieces it yields; a generator
    is the list of what it yielded and how it ended ([gen]). [os.urandom] is the
    argument [nonce_pfx]. *)

From S2P Require Import Prelude.
Local Open Scope nat_scope.

(** ** AES-GCM, as the library documents it *)
Class Aead := {
  (** [AESGCM(key).encrypt(nonce, data, aad)]; [None] is [OverflowError]. *)
  aead_encrypt : bytes → bytes → bytes → bytes → option bytes;
  (** [AESGCM(key).decrypt(nonce, data, aad)]; [None] is [InvalidTag]. *)
  aead_decrypt : bytes → bytes → bytes → bytes → option bytes;
}.

Class AeadLaws `{Aead} := {
  (** Plaintexts below 2^31 bytes are accepted. *)
  aead_total k n p a :
    (Z.of_nat (length p) < 2^31)%Z → is_Some (aead_encrypt k n p a);
  (** Opening what was sealed under the same key, nonce and aad. *)
  aead_open_seal k n p a c :
    aead_encrypt k n p a = Some c → aead_decrypt k n c a = Some p;
  (** GCM is deterministic: what opens is the sealing of what it opens to. *)
  aead_seal_open k n p a c :
    aead_decrypt k n c a = Some p → aead_encrypt k n p a = Some c;
  (** The ciphertext carries a 16-byte tag. *)
  aead_length k n p a c :
    aead_encrypt k n p a = Some c → length c = length p + 16;
}.

(** ** Errors *)
Inductive dec_reason :=
  | NotTMV1 | TruncatedLengthPrefix | TruncatedOrInvalidChunk | NoChunks
  | TruncatedHeader | InvalidChunkLength | TruncatedChunk
  | AuthFailed (index : nat).

Inductive frame_err :=
  | ValueError (msg : string)
  | StructError
  | OverflowError
  | DecryptError (r : dec_reason)
  | OutOfFuel.

(** ** Constants *)
Definition MAGIC : bytes := String.list_byte_of_string "TMV1".
Definition VERSION : Byte.byte := Byte.x01.
Definition HEADER_LEN : nat := 18.
Definition TAG_LEN : Z := 16.
Definition MAX_CHUNKS : Z := 2^32.

Definition is_encrypted (data : bytes) : bool :=
  (HEADER_LEN <=? length data)
  && bool_decide (take 4 data = MAGIC)
  && bool_decide (data !! 4 = Some VERSION).

Definition header_of (chunk_size : Z) (nonce_pfx : bytes) : result frame_err bytes :=
  cs ← of_option StructError (pack_I chunk_size);
  Ok (MAGIC ++ [VERSION; Byte.x00] ++ cs ++ nonce_pfx).

Definition nonce_of (nonce_pfx : bytes) (index : nat) : result frame_err bytes :=
  i ← of_option StructError (pack_I (Z.of_nat index));
  Ok (nonce_pfx ++ i).

Definition aad_of (header : bytes) (index : nat) (final : bool) : result frame_err bytes :=
  i ← of_option StructError (pack_I (Z.of_nat index));
  Ok (header ++ i ++ [if final then Byte.x01 else Byte.x00]).

Section framer.
  Context `{Aead}.

(** The body of [encrypt]'s loop, which [_seal_chunk] repeats. *)
Definition seal_chunk (key nonce_pfx header : bytes) (index : nat)
    (chunk : bytes) (final : bool) : result frame_err bytes :=
  nonce ← nonce_of nonce_pfx index;
  aad ← aad_of header index final;
  ct ← of_option OverflowError (aead_encrypt key nonce chunk aad);
  n ← of_option StructError (pack_I (Z.of_nat (length ct)));
  Ok (n ++ ct).

Definition open_chunk (key nonce_pfx header : bytes) (index : nat)
    (ct : bytes) (final : bool) : result frame_err bytes :=
  nonce ← nonce_of nonce_pfx index;
  aad ← aad_of header index final;
  of_option (DecryptError (AuthFailed index)) (aead_decrypt key nonce ct aad).

(** [[plaintext[i:i+n] for i in range(0, len(plaintext), n)] or [b""]] *)
Definition chunks_of (n : nat) (p : bytes) : list bytes :=
  let count := (length p + n - 1) / n in
  match map (λ i, slice (i * n) (i * n + n) p) (seq 0 count) with
  | [] => [[]]
  | cs => cs
  end.

(** [for i, chunk in enumerate(chunks)] with [final = (i == last)]. *)
Fixpoint seal_all (key nonce_pfx header : bytes) (index : nat) (chunks : list bytes)
    : result frame_err (list bytes) :=
  match chunks with
  | [] => Ok []
  | c :: cs =>
    s ← seal_chunk key nonce_pfx header index c (bool_decide (cs = []));
    ss ← seal_all key nonce_pfx header (S index) cs;
    Ok (s :: ss)
  end.

Definition check_key (key : bytes) : result frame_err unit :=
  raise_if (negb (length key =? 32)) (ValueError "key must be 32 bytes (AES-256)").

Definition encrypt (nonce_pfx plaintext key : bytes) (chunk_size : Z)
    : result frame_err bytes :=
  _ ← check_key key;
  _ ← raise_if (chunk_size <=? 0)%Z (ValueError "chunk_size must be positive");
  header ← header_of chunk_size nonce_pfx;
  let chunks := chunks_of (Z.to_nat chunk_size) plaintext in
  _ ← raise_if (MAX_CHUNKS <=? Z.of_nat (length chunks))%Z
        (ValueError "plaintext too large for the 32-bit chunk counter");
  body ← seal_all key nonce_pfx header 0 chunks;
  Ok (header ++ concat body).

(** The pre-scan of the chunk boundaries: [(ct_start, ct_end)] per chunk. *)
Fixpoint scan (fuel : nat) (frame : bytes) (pos : nat)
    : result frame_err (list (nat * nat)) :=
  match fuel with
  | O => Err OutOfFuel
  | S fuel =>
    if pos <? length frame then
      _ ← raise_if (length frame <? pos + 4) (DecryptError TruncatedLengthPrefix);
      let ct_len := unpack_I (slice pos (pos + 4) frame) in
      let pos := pos + 4 in
      _ ← raise_if ((ct_len <? TAG_LEN)%Z || (length frame <? pos + Z.to_nat ct_len))
            (DecryptError TruncatedOrInvalidChunk);
      spans ← scan fuel frame (pos + Z.to_nat ct_len);
      Ok ((pos, pos + Z.to_nat ct_len) :: spans)
    else Ok []
  end.

Fixpoint open_all (key nonce_pfx header : bytes) (index : nat) (cts : list bytes)
    : result frame_err (list bytes) :=
  match cts with
  | [] => Ok []
  | c :: cs =>
    p ← open_chunk key nonce_pfx header index c (bool_decide (cs = []));
    ps ← open_all key nonce_pfx header (S index) cs;
    Ok (p :: ps)
  end.

Definition decrypt (frame key : bytes) : result frame_err bytes :=
  _ ← check_key key;
  _ ← raise_if (negb (is_encrypted frame)) (DecryptError NotTMV1);
  let header := slice 0 HEADER_LEN frame in
  let nonce_pfx := slice 10 18 header in
  spans ← scan (S (length frame)) frame HEADER_LEN;
  _ ← raise_if (bool_decide (spans = [])) (DecryptError NoChunks);
  parts ← open_all key nonce_pfx header 0 (map (λ '(a, b), slice a b frame) spans);
  Ok (concat parts).

(** *** Streaming encryption *)
Record enc_state := EncState { es_buf : bytes; es_index : nat; es_held : option bytes }.

(** [if held is not None: yield _seal_chunk(...); index += 1] *)
Definition emit_held (key nonce_pfx header : bytes) (st : enc_state) : gen frame_err nat :=
  match es_held st with
  | None => mret (es_index st)
  | Some h =>
    s ← lift (seal_chunk key nonce_pfx header (es_index st) h false);
    _ ← yield s;
    mret (S (es_index st))
  end.

(** [while len(buf) > chunk_size: ...]; each turn removes [chunk_size >= 1]
    bytes, so [length buf] turns are enough. *)
Fixpoint drain_buf (fuel : nat) (key nonce_pfx header : bytes) (cs : nat)
    (st : enc_state) : gen frame_err enc_state :=
  match fuel with
  | O => mret st
  | S fuel =>
    if cs <? length (es_buf st) then
      i ← emit_held key nonce_pfx header st;
      drain_buf fuel key nonce_pfx header cs
        (EncState (drop cs (es_buf st)) i (Some (take cs (es_buf st))))
    else mret st
  end.

(** [async for piece in plaintext] and the flush after it. *)
Fixpoint enc_loop (key nonce_pfx header : bytes) (cs : nat) (pieces : list bytes)
    (st : enc_state) : gen frame_err unit :=
  match pieces with
  | [] =>
    i ← emit_held key nonce_pfx header st;
    s ← lift (seal_chunk key nonce_pfx header i (es_buf st) true);
    yield s
  | p :: pieces =>
    let buf := es_buf st ++ p in
    st ← drain_buf (length buf) key nonce_pfx header cs
           (EncState buf (es_index st) (es_held st));
    enc_loop key nonce_pfx header cs pieces st
  end.

Definition encrypt_stream (nonce_pfx : bytes) (plaintext : list bytes) (key : bytes)
    (chunk_size : Z) : gen frame_err unit :=
  _ ← lift (check_key key);
  _ ← lift (raise_if (chunk_size <=? 0)%Z (ValueError "chunk_size must be positive"));
  header ← lift (header_of chunk_size nonce_pfx);
  _ ← yield header;
  enc_loop key nonce_pfx header (Z.to_nat chunk_size) plaintext (EncState [] 0 None).

(** *** Streaming decryption *)

(** [_fill(n)]: pull pieces until [n] bytes are buffered or the input ends. *)
Fixpoint fill (n : nat) (buf : bytes) (rest : list bytes) : bool * bytes * list bytes :=
  if n <=? length buf then (true, buf, rest)
  else match rest with
       | [] => (false, buf, [])
       | p :: rest => fill n (buf ++ p) rest
       end.

Fixpoint dec_loop (fuel : nat) (key nonce_pfx header buf : bytes) (rest : list bytes)
    (index : nat) (held : option (nat * bytes)) : gen frame_err (option (nat * bytes)) :=
  match fuel with
  | O => throw OutOfFuel
  | S fuel =>
    let '(ok, buf, rest) := fill 4 buf rest in
    if negb ok then mret held
    else
      let ct_len := unpack_I (take 4 buf) in
      if (ct_len <? TAG_LEN)%Z then throw (DecryptError InvalidChunkLength)
      else
        let n := 4 + Z.to_nat ct_len in
        let '(ok, buf, rest) := fill n buf rest in
        if negb ok then throw (DecryptError TruncatedChunk)
        else
          _ ← match held with
              | Some (i, ct) =>
                p ← lift (open_chunk key nonce_pfx header i ct false); yield p
              | None => mret tt
              end;
          dec_loop fuel key nonce_pfx header (drop n buf) rest (S index)
            (Some (index, slice 4 n buf))
  end.

(** After the loop: the held chunk is the final one. *)
Definition finish (key nonce_pfx header : bytes) (held : option (nat * bytes)) : gen frame_err unit :=
  match held with
  | None => throw (DecryptError NoChunks)
  | Some (i, ct) =>
    p ← lift (open_chunk key nonce_pfx header i ct true);
    yield p
  end.

Definition decrypt_stream (cipher : list bytes) (key : bytes) : gen frame_err unit :=
  _ ← lift (check_key key);
  let '(ok, buf, rest) := fill HEADER_LEN [] cipher in
  if negb ok then throw (DecryptError TruncatedHeader)
  else
    let header := take HEADER_LEN buf in
    if negb (bool_decide (take 4 header = MAGIC) && bool_decide (header !! 4 = Some VERSION))
    then throw (DecryptError NotTMV1)
    else
      let nonce_pfx := slice 10 18 header in
      held ← dec_loop (S (length (concat cipher))) key nonce_pfx header
               (drop HEADER_LEN buf) rest 0 None;
      finish key nonce_pfx header held.

End framer.

(** ** Chunking *)
Lemma chunks_of_small n p : 0 < n → length p ≤ n → chunks_of n p = [p].
Proof.
  intros Hn Hp. unfold chunks_of. destruct p as [|b p].
  { rewrite Nat.div_small; [done|simpl; lia]. }
  replace ((_ + n - 1) / n) with 1.
  - simpl. unfold slice. rewrite take_ge; [done|]. simpl in *. lia.
  - simpl in *. apply (Nat.div_unique _ _ _ (length p)); lia.
Qed.

Lemma chunks_of_step n c r :
  length c = n → 0 < n → 0 < length r → chunks_of n (c ++ r) = c :: chunks_of n r.
Proof.
  intros Hc Hn Hr. unfold chunks_of.
  rewrite length_app, Hc.
  replace ((n + length r + n - 1) / n) with (S ((length r + n - 1) / n)).
  2:{ replace (n + length r + n - 1) with (1 * n + (length r + n - 1)) by lia.
      rewrite Nat.div_add_l; lia. }
  assert (0 < (length r + n - 1) / n) as Hpos.
  { apply Nat.div_str_pos. lia. }
  destruct ((length r + n - 1) / n) as [|m] eqn:Hm; [lia|].
  cbn [seq map]. f_equal.
  { unfold slice. rewrite drop_0. replace (0 * n + n - 0 * n) with n by lia.
    by rewrite take_app_length'. }
  assert (∀ i, slice (S i * n) (S i * n + n) (c ++ r) = slice (i * n) (i * n + n) r) as Hsl.
  { intros i. rewrite slice_app_r by lia. f_equal; lia. }
  f_equal; [by rewrite (Hsl 0)|].
  rewrite <-seq_shift, map_map. apply map_ext. intros. by rewrite Hsl.
Qed.

Lemma chunks_of_concat n p : 0 < n → concat (chunks_of n p) = p.
Proof.
  intros Hn. remember (length p) as k eqn:Hk. revert p Hk.
  induction (lt_wf k) as [k _ IH]. intros p ->.
  destruct (decide (length p ≤ n)) as [Hle|Hgt].
  { rewrite chunks_of_small by done. simpl. by rewrite app_nil_r. }
  rewrite <-(take_drop n p) at 1.
  rewrite chunks_of_step; [|rewrite ?length_take, ?length_drop; lia..].
  simpl. rewrite (IH (length (drop n p))); [by rewrite take_drop| |done].
  rewrite length_drop; lia.
Qed.

Lemma chunks_of_nonempty n p : chunks_of n p ≠ [].
Proof. unfold chunks_of. by destruct (map _ _). Qed.

Lemma chunks_of_bound n p : 0 < n → Forall (λ c, length c ≤ n) (chunks_of n p).
Proof.
  intros Hn. unfold chunks_of. destruct (map _ _) as [|c cs] eqn:E.
  { constructor; [simpl; lia|constructor]. }
  rewrite <-E. apply Forall_forall. intros x.
  rewrite list_elem_of_In, in_map_iff. intros (i & <- & _).
  unfold slice. rewrite length_take. lia.
Qed.

(** ** Chunk bodies: what the scan reads back *)
Definition chunk_bytes (ct : bytes) : bytes := be32 (Z.of_nat (length ct)) ++ ct.
Definition body_of (cts : list bytes) : bytes := concat (map chunk_bytes cts).
Definition ct_ok (ct : bytes) : Prop :=
  (TAG_LEN ≤ Z.of_nat (length ct) < 2^32)%Z.

#[export] Instance ct_ok_dec ct : Decision (ct_ok ct).
Proof. unfold ct_ok. apply _. Defined.

Lemma length_chunk_bytes ct : length (chunk_bytes ct) = 4 + length ct.
Proof. unfold chunk_bytes. by rewrite length_app, length_be32. Qed.

(** Reading the length prefix at [pos] when a chunk starts there. *)
Lemma prefix_read pre ct post :
  (Z.of_nat (length ct) < 2^32)%Z →
  unpack_I (slice (length pre) (length pre + 4) (pre ++ chunk_bytes ct ++ post))
  = Z.of_nat (length ct).
Proof.
  intros Hct. unfold chunk_bytes. rewrite <-(assoc_L (++)), slice_mid by done.
  apply unpack_be32. lia.
Qed.

Lemma scan_body fuel pre cts :
  Forall ct_ok cts → length (body_of cts) < fuel →
  ∃ spans, scan fuel (pre ++ body_of cts) (length pre) = Ok spans ∧
    map (λ '(a, b), slice a b (pre ++ body_of cts)) spans = cts.
Proof.
  intros Hcts. revert fuel pre. induction Hcts as [|ct cts Hct Hcts IH]; intros fuel pre Hf.
  - exists []. split; [|done]. unfold body_of; simpl. rewrite app_nil_r.
    destruct fuel; [simpl in Hf; lia|]. simpl.
    by rewrite (proj2 (Nat.ltb_ge _ _)).
  - destruct fuel as [|fuel]; [lia|].
    unfold ct_ok, TAG_LEN in Hct. pose proof (prefix_read pre ct (body_of cts)) as Hpre.
    assert (body_of (ct :: cts) = chunk_bytes ct ++ body_of cts) as Hb by done.
    rewrite Hb in *. rewrite length_app, length_chunk_bytes in Hf.
    destruct (IH fuel (pre ++ chunk_bytes ct)) as (spans & Hscan & Hmap); [lia|].
    rewrite <-(assoc_L (++)) in Hscan, Hmap.
    rewrite length_app, length_chunk_bytes in Hscan.
    exists ((length pre + 4, length pre + 4 + length ct) :: spans). split.
    + cbn [scan]. rewrite Hpre by lia.
      rewrite !length_app, length_chunk_bytes.
      rewrite (proj2 (Nat.ltb_lt _ _)) by lia.
      rewrite (proj2 (Nat.ltb_ge _ _)) by lia. mred.
      rewrite Nat2Z.id, (proj2 (Z.ltb_ge _ _)) by (unfold TAG_LEN; lia).
      rewrite (proj2 (Nat.ltb_ge _ _)) by lia. mred.
      replace (length pre + 4 + length ct) with (length pre + (4 + length ct)) by lia.
      by rewrite Hscan.
    + cbn [map]. f_equal; [|done]. unfold chunk_bytes.
      rewrite <-(assoc_L (++)), (assoc_L (++) pre).
      apply slice_mid; [by rewrite length_app, length_be32|done].
Qed.

Lemma scan_sound fuel frame pos spans :
  pos ≤ length frame → scan fuel frame pos = Ok spans →
  drop pos frame = body_of (map (λ '(a, b), slice a b frame) spans) ∧
  Forall ct_ok (map (λ '(a, b), slice a b frame) spans).
Proof.
  revert pos spans. induction fuel as [|fuel IH]; intros pos spans Hpos; simpl; [done|].
  destruct (pos <? length frame) eqn:Hlt.
  2:{ intros [= <-]. bools. rewrite drop_ge by lia. done. }
  intros Hscan. inv_ok. bools. subst spans.
  assert (length (slice pos (pos + 4) frame) = 4) as Hl4 by (rewrite length_slice; lia).
  pose proof (unpack_range _ Hl4) as Hrange. pose proof (be32_unpack _ Hl4) as Hbe.
  set (n := unpack_I (slice pos (pos + 4) frame)) in *. unfold TAG_LEN in *.
  match goal with H : scan _ _ _ = Ok ?sp |- _ =>
    rename H into Hrec; rename sp into spans end.
  apply IH in Hrec as [Hdrop Hok]; [|lia].
  assert (length (slice (pos + 4) (pos + 4 + Z.to_nat n) frame) = Z.to_nat n) as Hct.
  { rewrite length_slice by lia. lia. }
  cbn [map]. split.
  - unfold body_of. cbn [map concat]. fold (body_of (map (λ '(a, b), slice a b frame) spans)).
    rewrite <-Hdrop. unfold chunk_bytes. rewrite Hct, Z2Nat.id, Hbe by lia.
    unfold slice. replace (pos + 4 - pos) with 4 by lia.
    replace (pos + 4 + Z.to_nat n - (pos + 4)) with (Z.to_nat n) by lia.
    rewrite <-(drop_drop _ (Z.to_nat n) (pos + 4)), <-(assoc_L (++)), take_drop.
    by rewrite <-(drop_drop _ 4 pos), take_drop.
  - constructor; [|done]. unfold ct_ok, TAG_LEN. rewrite Hct. lia.
Qed.

Lemma scan_fuel fuel frame pos :
  length frame - pos < fuel → scan fuel frame pos ≠ Err OutOfFuel.
Proof.
  revert pos. induction fuel as [|fuel IH]; intros pos Hf; simpl; [lia|].
  destruct (pos <? length frame) eqn:Hlt; [|done]. bools.
  destruct (length frame <? pos + 4); simpl; [done|].
  destruct (_ || _) eqn:Ho; simpl; [done|]. bools.
  specialize (IH (pos + 4 + Z.to_nat (unpack_I (slice pos (pos + 4) frame)))).
  destruct (scan fuel frame _); simpl; [done|].
  intros [= ->]. apply IH; [|done]. unfold TAG_LEN in *. lia.
Qed.

(** ** Sealing and opening are inverse *)
Section sealing.
  Context `{AeadLaws}.
  Implicit Types key pfx hdr : bytes.

Lemma seal_open_chunk key pfx hdr i c f s :
  seal_chunk key pfx hdr i c f = Ok s ↔
  ∃ ct, open_chunk key pfx hdr i ct f = Ok c ∧ s = chunk_bytes ct ∧ ct_ok ct.
Proof.
  unfold seal_chunk, open_chunk, ct_ok, TAG_LEN, chunk_bytes.
  destruct (nonce_of pfx i) as [n|e]; simpl; [|naive_solver].
  destruct (aad_of hdr i f) as [a|e]; simpl; [|naive_solver]. split.
  - intros Hs. inv_ok. subst s.
    match goal with Ha : aead_encrypt _ _ _ _ = Some ?ct, Hp : pack_I _ = Some _ |- _ =>
      pose proof (aead_length _ _ _ _ _ Ha); apply pack_I_Some in Hp as [? ->];
      exists ct; rewrite (aead_open_seal _ _ _ _ _ Ha) end.
    simpl. split; [done|]. split; [done|]. lia.
  - intros (ct & Ho & -> & Hct). inv_ok.
    rewrite (aead_seal_open _ _ _ _ _ Ho). simpl. by rewrite pack_I_ok by lia.
Qed.

Lemma open_all_length key pfx hdr i cts ps :
  open_all key pfx hdr i cts = Ok ps → length ps = length cts.
Proof.
  revert i ps. induction cts as [|ct cts IH]; intros i ps; simpl; intros Ho;
    inv_ok; subst; simpl; eauto.
Qed.

Lemma seal_all_length key pfx hdr i cs ss :
  seal_all key pfx hdr i cs = Ok ss → length ss = length cs.
Proof.
  revert i ss. induction cs as [|c cs IH]; intros i ss; simpl; intros Ho;
    inv_ok; subst; simpl; eauto.
Qed.

Lemma nil_iff_length {A B} (l : list A) (k : list B) :
  length l = length k → bool_decide (l = []) = bool_decide (k = []).
Proof. intros. by destruct l, k. Qed.

Lemma seal_open_all key pfx hdr i chunks body :
  seal_all key pfx hdr i chunks = Ok body ↔
  ∃ cts, open_all key pfx hdr i cts = Ok chunks ∧ body = map chunk_bytes cts ∧
         Forall ct_ok cts.
Proof.
  revert i body. induction chunks as [|c cs IH]; intros i body; simpl.
  - split; [intros [= <-]; by exists []|].
    intros (cts & Ho%open_all_length & -> & _). by destruct cts.
  - split.
    + intros Hs. inv_ok. subst.
      match goal with Ha : seal_chunk _ _ _ _ _ _ = _, Hb : seal_all _ _ _ _ _ = _ |- _ =>
        apply seal_open_chunk in Ha as (ct & Hct & -> & ?);
        apply IH in Hb as (cts & Hcts & -> & ?) end.
      exists (ct :: cts). simpl.
      rewrite <-(nil_iff_length cs cts) by by apply open_all_length in Hcts.
      rewrite Hct. simpl. rewrite Hcts. simpl. split_and!; [done..|by constructor].
    + intros (cts & Ho & -> & Hok). destruct cts as [|ct cts]; simpl in Ho; [done|].
      inv_ok. simplify_eq. inversion Hok; subst.
      rewrite (nil_iff_length cs cts) by by eapply open_all_length.
      rewrite (proj2 (seal_open_chunk _ _ _ _ _ _ (chunk_bytes ct))) by by exists ct.
      simpl. by rewrite (proj2 (IH _ (map chunk_bytes cts))) by by exists cts.
Qed.
End sealing.

(** ** What [decrypt] accepts *)
Definition well_headed (h : bytes) : Prop :=
  length h = HEADER_LEN ∧ take 4 h = MAGIC ∧ h !! 4 = Some VERSION.

Lemma is_encrypted_split data :
  is_encrypted data = true ↔ ∃ h r, data = h ++ r ∧ well_headed h.
Proof.
  unfold is_encrypted, well_headed, HEADER_LEN. split.
  - intros. bools. exists (take 18 data), (drop 18 data).
    rewrite take_drop, length_take, take_take, lookup_take_lt by lia.
    split_and!; [done|lia|done|done].
  - intros (h & r & -> & Hl & Hm & Hv).
    rewrite length_app, take_app_le, lookup_app_l by lia.
    rewrite !bool_decide_eq_true_2 by done.
    by rewrite (proj2 (Nat.leb_le _ _)) by lia.
Qed.

Lemma header_of_ok cs pfx h :
  length pfx = 8 → header_of cs pfx = Ok h → well_headed h ∧ slice 10 18 h = pfx.
Proof.
  unfold header_of. intros Hp Hh. inv_ok. subst h.
  match goal with H : pack_I _ = Some _ |- _ => apply pack_I_Some in H as [_ ->] end.
  unfold well_headed, HEADER_LEN. split_and!.
  - rewrite !length_app, length_be32, Hp. done.
  - done.
  - done.
  - replace (MAGIC ++ _) with ((MAGIC ++ [VERSION; Byte.x00] ++ be32 cs) ++ pfx ++ [])
      by by rewrite app_nil_r, <-!(assoc_L (++)).
    apply slice_mid; [done|by rewrite Hp].
Qed.

Section accept.
  Context `{Aead}.

Lemma decrypt_parse frame key p :
  decrypt frame key = Ok p ↔
  length key = 32 ∧ ∃ h cts ps, well_headed h ∧ Forall ct_ok cts ∧ cts ≠ [] ∧
    frame = h ++ body_of cts ∧ open_all key (slice 10 18 h) h 0 cts = Ok ps ∧ p = concat ps.
Proof.
  unfold decrypt, check_key. split.
  - intros Hd. inv_ok. bools. split; [done|].
    match goal with H : is_encrypted _ = true |- _ =>
      apply is_encrypted_split in H as (h & r & -> & Hh) end.
    pose proof Hh as (Hl & _ & _). rewrite slice_app_l in * by done.
    match goal with H : scan _ _ _ = Ok _ |- _ =>
      apply scan_sound in H as [Hb Hok]; [|rewrite length_app, Hl; lia] end.
    rewrite drop_app_length' in Hb by done.
    eexists h, _, _. split; [exact Hh|]. split; [exact Hok|].
    split_and!; [by intros ?%map_eq_nil|by f_equal|done|done].
  - intros [Hk (h & cts & ps & Hh & Hok & Hne & -> & Ho & ->)].
    assert (is_encrypted (h ++ body_of cts) = true) as ->
      by (apply is_encrypted_split; eauto).
    rewrite Hk. mred.
    destruct Hh as (Hl & _ & _). rewrite slice_app_l by done.
    destruct (scan_body (S (length (h ++ body_of cts))) h cts)
      as (spans & Hs & Hm); [done|rewrite length_app; lia|].
    rewrite Hl in Hs. rewrite Hs. cbn [mbind result_bind]. rewrite Hm.
    rewrite bool_decide_eq_false_2 by (by intros ->; simpl in Hm; subst).
    mred. by rewrite Ho.
Qed.

(** The scan's fuel is enough: [decrypt] always returns or raises. *)
Lemma decrypt_total frame key : decrypt frame key ≠ Err OutOfFuel.
Proof.
  assert (∀ cts i, open_all key (slice 10 18 (slice 0 HEADER_LEN frame))
            (slice 0 HEADER_LEN frame) i cts ≠ Err OutOfFuel) as Hopen.
  { induction cts as [|ct cts IH]; intros i; simpl; [done|].
    unfold open_chunk at 1, nonce_of, aad_of.
    destruct (pack_I _); simpl; [|done].
    destruct (aead_decrypt _ _ _ _); simpl; [|done].
    specialize (IH (S i)). by destruct (open_all _ _ _ _ _). }
  unfold decrypt, check_key.
  destruct (negb (length key =? 32)); mred; [done|].
  destruct (negb (is_encrypted frame)); mred; [done|].
  pose proof (scan_fuel (S (length frame)) frame HEADER_LEN ltac:(lia)).
  destruct (scan _ _ _) as [spans|e]; mred; [|congruence].
  destruct (bool_decide _); mred; [done|].
  specialize (Hopen (map (λ '(a, b), slice a b frame) spans) 0).
  destruct (open_all _ _ _ _ _); mred; congruence.
Qed.
End accept.

(** What a frame means: a well-formed header and a non-empty sequence of
    chunks, each sealed at its own index, the last one and only the last one
    marked final. *)
Definition sealed_frame `{Aead} (key frame p : bytes) : Prop :=
  length key = 32 ∧ ∃ h chunks body, well_headed h ∧ chunks ≠ [] ∧
    seal_all key (slice 10 18 h) h 0 chunks = Ok body ∧
    frame = h ++ concat body ∧ p = concat chunks.

Section frames.
  Context `{AeadLaws}.

Lemma sealed_frame_decrypts frame key p :
  sealed_frame key frame p → decrypt frame key = Ok p.
Proof.
  unfold sealed_frame. intros [Hk (h & ps & body & Hh & Hne & Hs & -> & ->)].
  apply seal_open_all in Hs as (cts & Ho & -> & Hok). apply decrypt_parse.
  split; [done|]. exists h, cts, ps. split_and!; [exact Hh|done| |done|done|done].
  intros ->. apply Hne, length_zero_iff_nil. by apply open_all_length in Ho.
Qed.

(** C14: [decrypt] accepts exactly the sealed frames: a frame decrypts to [p] if
    and only if it is a TMV1 header followed by a non-empty sequence of chunks,
    each sealed under the key at its own index with only the last one marked
    final, and [p] is the concatenation of their plaintexts. Nothing malformed,
    truncated inside a chunk, or unauthenticated is ever returned. *)
Theorem decrypt_accepts_sealed_frames frame key p :
  decrypt frame key = Ok p ↔ sealed_frame key frame p.
Proof.
  split; [|apply sealed_frame_decrypts]. rewrite decrypt_parse.
  intros [Hk (h & cts & ps & Hh & Hok & Hne & -> & Ho & ->)]. split; [done|].
  exists h, ps, (map chunk_bytes cts). rewrite seal_open_all.
  split_and!; [exact Hh| |by exists cts|done|done].
  intros ->. apply Hne, length_zero_iff_nil. by apply open_all_length in Ho.
Qed.

Lemma seal_chunk_total key pfx hdr i c f :
  (Z.of_nat i < 2^32)%Z → (Z.of_nat (length c) < 2^31)%Z →
  is_Some (match seal_chunk key pfx hdr i c f with Ok s => Some s | Err _ => None end).
Proof.
  intros Hi Hc. unfold seal_chunk, nonce_of, aad_of.
  rewrite pack_I_ok by lia. mred.
  destruct (aead_total key (pfx ++ be32 (Z.of_nat i)) c
    (hdr ++ be32 (Z.of_nat i) ++ [if f then Byte.x01 else Byte.x00]) Hc) as [ct Hct].
  rewrite Hct. mred. pose proof (aead_length _ _ _ _ _ Hct).
  rewrite pack_I_ok by lia. by eexists.
Qed.

Lemma seal_all_total key pfx hdr i chunks :
  (Z.of_nat (i + length chunks) ≤ 2^32)%Z →
  Forall (λ c, (Z.of_nat (length c) < 2^31)%Z) chunks →
  ∃ body, seal_all key pfx hdr i chunks = Ok body.
Proof.
  intros Hi Hc. revert i Hi. induction Hc as [|c cs Hc Hcs IH]; intros i Hi; simpl; [eauto|].
  simpl in Hi. destruct (seal_chunk_total key pfx hdr i c (bool_decide (cs = [])))
    as [s Hs]; [lia|done|].
  destruct (seal_chunk _ _ _ _ _ _); [|done]. simpl.
  destruct (IH (S i)) as [body ->]; [lia|]. simpl. eauto.
Qed.

(** A frame [encrypt] returned opens to its plaintext. *)
Lemma encrypt_opens pfx p key cs frame :
  length pfx = 8 → encrypt pfx p key cs = Ok frame → decrypt frame key = Ok p.
Proof.
  intros Hp He. unfold encrypt, check_key in He. inv_ok. bools. subst frame.
  match goal with Hh : header_of _ _ = Ok ?x, Hb : seal_all _ _ _ _ _ = Ok ?b |- _ =>
    rename Hb into Hbody; rename x into h;
    destruct (header_of_ok _ _ _ Hp Hh) as [Hw Hpfx] end.
  apply sealed_frame_decrypts. split; [done|].
  eexists h, (chunks_of (Z.to_nat cs) p), _. rewrite Hpfx.
  split_and!; [exact Hw|apply chunks_of_nonempty|exact Hbody|done|].
  by rewrite chunks_of_concat by lia.
Qed.

(** Sealing succeeds within the documented bounds, and opening undoes it. *)
Lemma encrypt_roundtrip pfx p key cs :
  length key = 32 → length pfx = 8 → (0 < cs < 2^31)%Z →
  (Z.of_nat (length (chunks_of (Z.to_nat cs) p)) < MAX_CHUNKS)%Z →
  ∃ frame, encrypt pfx p key cs = Ok frame ∧ decrypt frame key = Ok p.
Proof.
  intros Hk Hp Hcs Hn.
  assert (∃ frame, encrypt pfx p key cs = Ok frame) as [frame He].
  2:{ exists frame. split; [done|]. by eapply encrypt_opens. }
  unfold encrypt, check_key. rewrite Hk. simpl.
  rewrite (proj2 (Z.leb_gt _ _)) by lia. simpl.
  destruct (header_of cs pfx) as [h|] eqn:Hh.
  2:{ unfold header_of in Hh. by rewrite pack_I_ok in Hh by lia. }
  simpl. rewrite (proj2 (Z.leb_gt _ _)) by lia. simpl.
  destruct (seal_all_total key pfx h 0 (chunks_of (Z.to_nat cs) p)) as [body ->].
  { unfold MAX_CHUNKS in Hn. simpl. lia. }
  { eapply Forall_impl; [apply chunks_of_bound; lia|]. simpl. lia. }
  simpl. eauto.
Qed.
End frames.

(** ** Splicing: dropping, duplicating or reordering chunks *)
Section splice.
  Context `{Aead}.

(** A body and a tail shorter than a length prefix parse in one way only. *)
Lemma body_of_inj l k t u :
  Forall ct_ok l → Forall ct_ok k → length t < 4 → length u < 4 →
  body_of l ++ t = body_of k ++ u → l = k ∧ t = u.
Proof.
  intros Hl Hk Ht Hu. revert k Hk. induction Hl as [|c l Hc Hl IH]; intros [|d k] Hk;
    unfold body_of; cbn [map concat app]; [done|..]; unfold ct_ok in *.
  1,2: intros ?%(f_equal length);
       rewrite !length_app, length_chunk_bytes in *; lia.
  inversion Hk as [|? ? Hd Hk']; subst. unfold TAG_LEN in *.
  unfold chunk_bytes at 1 3. rewrite <-!(assoc_L (++)). intros Heq.
  apply app_inj_1 in Heq as [Hlen Heq]; [|done].
  apply be32_inj in Hlen; [|lia..].
  apply app_inj_1 in Heq as [-> Hrest]; [|lia].
  apply IH in Hrest as [-> ->]; done.
Qed.

Lemma decrypt_parsed key h cts p :
  well_headed h → Forall ct_ok cts →
  decrypt (h ++ body_of cts) key = Ok p ↔
  length key = 32 ∧ cts ≠ [] ∧
  ∃ ps, open_all key (slice 10 18 h) h 0 cts = Ok ps ∧ p = concat ps.
Proof.
  intros Hh Hok. rewrite decrypt_parse. split.
  - intros [? (h' & cts' & ps & Hh' & Hok' & ? & Heq & ? & ->)].
    apply app_inj_1 in Heq as [-> Heq]; [|by destruct Hh as [-> _], Hh' as [-> _]].
    apply (f_equal (.++ [])) in Heq.
    apply body_of_inj in Heq as [-> _]; [eauto|done|done|simpl; lia..].
  - intros (? & ? & ps & ? & ->). split; [done|]. by exists h, cts, ps.
Qed.

(** No ciphertext of [cts] opens at two different positions: the chunk index
    and the final flag are in its nonce and additional data. *)
Definition position_bound (key pfx hdr : bytes) (cts : list bytes) : Prop :=
  ∀ ct i j fi fj p q, ct ∈ cts →
    open_chunk key pfx hdr i ct fi = Ok p → open_chunk key pfx hdr j ct fj = Ok q →
    i = j ∧ fi = fj.

Lemma open_all_lookup key pfx hdr i cts ps k ct :
  open_all key pfx hdr i cts = Ok ps → cts !! k = Some ct →
  ∃ p, open_chunk key pfx hdr (i + k) ct (bool_decide (S k = length cts)) = Ok p.
Proof.
  revert i ps k. induction cts as [|c cs IH]; intros i ps k; simpl; [done|].
  intros Ho Hk. inv_ok. destruct k as [|k]; simpl in Hk; simplify_eq.
  - rewrite Nat.add_0_r. exists x.
    replace (bool_decide (1 = S (length cs))) with (bool_decide (cs = [])); [done|].
    apply bool_decide_ext. destruct cs; naive_solver.
  - destruct (IH (S i) x0 k) as [p Hp]; [done..|]. exists p.
    replace (i + S k) with (S i + k) by lia.
    replace (bool_decide (S (S k) = S (length cs))) with (bool_decide (S k = length cs)); [done|].
    apply bool_decide_ext. lia.
Qed.

(** Dropping, duplicating or reordering the chunks of a frame is detected:
    any frame assembled from the ciphertexts of a valid frame under the same
    header that decrypts at all has exactly the original sequence of chunks. The
    hypothesis [position_bound] is GCM's authentication of the chunk index and
    final flag, for the ciphertexts of this frame. *)
Theorem splicing_is_detected key h cts cts' p p' :
  well_headed h → Forall ct_ok cts →
  position_bound key (slice 10 18 h) h cts →
  decrypt (h ++ body_of cts) key = Ok p →
  Forall (.∈ cts) cts' →
  decrypt (h ++ body_of cts') key = Ok p' →
  cts' = cts.
Proof.
  intros Hh Hok Hbind Hd Hin Hd'.
  assert (Forall ct_ok cts') as Hok'.
  { eapply Forall_impl; [exact Hin|]. intros ct. by apply Forall_forall. }
  apply decrypt_parsed in Hd as (_ & _ & ps & Ho & _); [|done..].
  apply decrypt_parsed in Hd' as (_ & Hne & ps' & Ho' & _); [|done..].
  assert (∀ k ct, cts' !! k = Some ct → cts !! k = Some ct ∧
    (S k = length cts' ↔ S k = length cts)) as Hpos.
  { intros k ct Hk.
    assert (ct ∈ cts) as Hct by (eapply Forall_lookup_1 in Hin; eauto).
    pose proof Hct as [j Hj]%list_elem_of_lookup.
    destruct (open_all_lookup _ _ _ _ _ _ _ _ Ho' Hk) as [q Hq].
    destruct (open_all_lookup _ _ _ _ _ _ _ _ Ho Hj) as [r Hr].
    destruct (Hbind _ _ _ _ _ _ _ Hct Hq Hr) as [Hkj Hf]. simpl in Hkj. subst j.
    split; [done|]. exact (bool_decide_iff _ _ Hf). }
  assert (length cts' = length cts) as Hlen.
  { destruct (last cts') as [ct|] eqn:Hlast; [|by apply last_None in Hlast].
    rewrite last_lookup in Hlast. apply Hpos in Hlast as [_ Hiff].
    destruct cts'; [done|]. simpl in *. by apply Hiff. }
  apply (list_eq_same_length _ _ (length cts)); [done..|].
  intros i x y Hi Hx Hy. apply Hpos in Hx as [Hx _]. congruence.
Qed.
(** Stray bytes after the last chunk are rejected. *)
Lemma decrypt_rejects_tail key frame tail p p' :
  decrypt frame key = Ok p → 0 < length tail < 4 →
  decrypt (frame ++ tail) key ≠ Ok p'.
Proof.
  rewrite !decrypt_parse.
  intros [_ (h & cts & ps & Hh & Hok & _ & -> & _)] Ht
         [_ (h' & cts' & ps' & Hh' & Hok' & _ & Heq & _)].
  rewrite <-(assoc_L (++)) in Heq.
  apply app_inj_1 in Heq as [-> Heq]; [|by destruct Hh as [-> _], Hh' as [-> _]].
  rewrite <-(app_nil_r (body_of cts')) in Heq.
  apply body_of_inj in Heq as [_ ->]; [simpl in Ht; lia|done|done|lia|simpl; lia].
Qed.
End splice.

(** ** Streaming encryption yields the single-shot frame *)
Section streaming.
  Context `{Aead}.
  Variables key pfx hdr : bytes.

Fixpoint seal_gen (i : nat) (chunks : list bytes) : gen frame_err unit :=
  match chunks with
  | [] => mret tt
  | c :: cs =>
    s ← lift (seal_chunk key pfx hdr i c (bool_decide (cs = [])));
    _ ← yield s;
    seal_gen (S i) cs
  end.

Lemma seal_gen_all i chunks body :
  seal_all key pfx hdr i chunks = Ok body → seal_gen i chunks = Gen body (Ok tt).
Proof.
  revert i body. induction chunks as [|c cs IH]; intros i body; simpl; intros Hs.
  - by inv_ok; subst.
  - inv_ok; subst. rewrite (IH _ _ H1), H0. done.
Qed.

  (** Between two pieces: at most one full chunk held back, then a non-empty
      buffer of at most one chunk. *)
Definition enc_inv (n : nat) (st : enc_state) : Prop :=
  (∀ h, es_held st = Some h → length h = n ∧ 0 < length (es_buf st)).

Definition held_list (o : option bytes) : list bytes :=
  match o with Some h => [h] | None => [] end.

Definition owed (n : nat) (st : enc_state) (r : bytes) : list bytes :=
  held_list (es_held st) ++ chunks_of n (es_buf st ++ r).

Lemma drain_buf_spec n fuel st r (k : enc_state → gen frame_err unit) :
  0 < n → length (es_buf st) ≤ fuel → enc_inv n st →
  (∀ st', enc_inv n st' → length (es_buf st') ≤ n →
          k st' = seal_gen (es_index st') (owed n st' r)) →
  (drain_buf fuel key pfx hdr n st ≫= k) = seal_gen (es_index st) (owed n st r).
Proof.
  intros Hn. revert st. induction fuel as [|fuel IH]; intros st Hf Hinv Hk.
  { cbn [drain_buf]. rewrite gen_ret_bind. apply Hk; [done|lia]. }
  cbn [drain_buf]. destruct (n <? length (es_buf st)) eqn:Hlt; bools.
  2:{ rewrite gen_ret_bind. by apply Hk. }
  set (st' i := EncState (drop n (es_buf st)) i (Some (take n (es_buf st)))).
  assert (∀ i, (drain_buf fuel key pfx hdr n (st' i) ≫= k) =
            seal_gen i (chunks_of n (es_buf st ++ r))) as Hrec.
  { intros i. rewrite IH; [|simpl; rewrite length_drop; lia| |done].
    - unfold owed, st'; cbn [es_held es_buf es_index held_list app].
      assert (es_buf st ++ r = take n (es_buf st) ++ drop n (es_buf st) ++ r) as ->
        by by rewrite (assoc_L (++)), take_drop.
      rewrite (chunks_of_step n (take n _)); [done|rewrite length_take; lia|done|].
      rewrite length_app, length_drop. lia.
    - intros h [= <-]. simpl. rewrite length_take, length_drop. lia. }
  rewrite gen_bind_assoc. unfold emit_held, owed.
  destruct (es_held st) as [h|]; cbn [held_list app].
  - rewrite !gen_bind_assoc. cbn [seal_gen].
    rewrite bool_decide_eq_false_2 by apply chunks_of_nonempty.
    apply gen_bind_ext; intros s. rewrite gen_bind_assoc. apply gen_bind_ext; intros _.
    rewrite gen_ret_bind. apply Hrec.
  - rewrite gen_ret_bind. apply Hrec.
Qed.

Lemma enc_loop_spec n pieces st :
  0 < n → length (es_buf st) ≤ n → enc_inv n st →
  enc_loop key pfx hdr n pieces st = seal_gen (es_index st) (owed n st (concat pieces)).
Proof.
  intros Hn. revert st. induction pieces as [|p pieces IH]; intros st Hb Hinv.
  - cbn [enc_loop concat]. unfold emit_held, owed. rewrite app_nil_r, chunks_of_small by done.
    destruct (es_held st) as [h|]; cbn [held_list app seal_gen].
    + rewrite !gen_bind_assoc. apply gen_bind_ext; intros s.
      rewrite gen_bind_assoc. apply gen_bind_ext; intros _. rewrite gen_ret_bind.
      apply gen_bind_ext; intros s'. done.
    + rewrite gen_ret_bind. apply gen_bind_ext; intros s'. done.
  - cbn [enc_loop concat].
    rewrite (drain_buf_spec n _ _ (concat pieces)); [|done|done| |].
    + unfold owed; simpl. by rewrite (assoc_L (++)).
    + intros h Hh. simpl in *. destruct (Hinv h Hh). rewrite length_app. lia.
    + intros st' Hinv' Hb'. by apply IH.
Qed.
End streaming.

(** The streaming form yields the bytes of the single-shot form. *)
Lemma encrypt_stream_spec `{Aead} pfx pieces key cs frame :
  encrypt pfx (concat pieces) key cs = Ok frame →
  ∃ out, encrypt_stream pfx pieces key cs = Gen out (Ok tt) ∧ concat out = frame.
Proof.
  unfold encrypt, encrypt_stream. intros He. inv_ok. subst frame. bools.
  match goal with Hk : check_key _ = _, Hh : header_of _ _ = Ok ?h, Hb : seal_all _ _ _ _ _ = _ |- _ =>
    rewrite Hk, Hh; apply seal_gen_all in Hb; rewrite (proj2 (Z.leb_gt _ _)) by lia end.
  unfold raise_if. rewrite !lift_ok_bind.
  rewrite (enc_loop_spec _ _ _ (Z.to_nat cs)); [|lia|simpl; lia|done].
  unfold owed. cbn [es_held es_buf es_index held_list app].
  match goal with Hb : seal_gen _ _ _ _ _ = _ |- _ => rewrite Hb end.
  by eexists.
Qed.

(** ** Streaming decryption *)
Lemma fill_spec n buf rest ok buf' rest' :
  fill n buf rest = (ok, buf', rest') →
  buf' ++ concat rest' = buf ++ concat rest ∧
  (if ok then n ≤ length buf' else rest' = [] ∧ length buf' < n).
Proof.
  revert buf. induction rest as [|p rest IH]; intros buf; simpl;
    destruct (n <=? length buf) eqn:Hn; bools.
  - intros [= <- <- <-]. done.
  - intros [= <- <- <-]. split; [done|]. split; [done|lia].
  - intros [= <- <- <-]. done.
  - intros Hf. apply IH in Hf. by rewrite (assoc_L (++)).
Qed.

(** [fill n] on an input that has [n] bytes left succeeds, and fails otherwise. *)
Lemma fill_true n buf rest :
  n ≤ length (buf ++ concat rest) →
  ∃ buf' rest', fill n buf rest = (true, buf', rest') ∧
    buf' ++ concat rest' = buf ++ concat rest ∧ n ≤ length buf'.
Proof.
  intros Hn. destruct (fill n buf rest) as [[ok buf'] rest'] eqn:Hf.
  apply fill_spec in Hf as [Heq Hok]. destruct ok; [eauto|].
  destruct Hok as [-> ?]. simpl in Heq. rewrite app_nil_r in Heq. subst. lia.
Qed.

Lemma fill_false n buf rest :
  length (buf ++ concat rest) < n →
  fill n buf rest = (false, buf ++ concat rest, []).
Proof.
  intros Hn. destruct (fill n buf rest) as [[ok buf'] rest'] eqn:Hf.
  apply fill_spec in Hf as [Heq Hok]. rewrite <-Heq in *. rewrite length_app in Hn.
  destruct ok; [lia|]. destruct Hok as [-> _]. simpl. by rewrite app_nil_r.
Qed.

Section dec_streaming.
  Context `{Aead}.
  Variables key pfx hdr : bytes.

Fixpoint open_gen (i : nat) (cts : list bytes) : gen frame_err unit :=
  match cts with
  | [] => mret tt
  | c :: cs =>
    p ← lift (open_chunk key pfx hdr i c (bool_decide (cs = [])));
    _ ← yield p;
    open_gen (S i) cs
  end.

Lemma open_gen_all i cts out :
  open_gen i cts = Gen out (Ok tt) ↔ open_all key pfx hdr i cts = Ok out.
Proof.
  revert i out. induction cts as [|c cs IH]; intros i out; simpl.
  - split; [intros [= <-]|intros [= <-]]; done.
  - destruct (open_chunk _ _ _ _ _ _) as [p|e]; simpl; [|done].
    specialize (IH (S i)). destruct (open_gen (S i) cs) as [o r] eqn:Ho; simpl.
    split.
    + intros [= <- ->]. by rewrite (proj1 (IH o)).
    + intros Ha. inv_ok. subst. apply IH in H0. injection H0 as -> ->. done.
Qed.

(** What the loop owes once the stream is exhausted. *)
Definition pending (i : nat) (cts : list bytes) : gen frame_err unit :=
  match cts with [] => throw (DecryptError NoChunks) | _ => open_gen i cts end.

Lemma dec_loop_end fuel buf rest index held :
  length (buf ++ concat rest) < 4 → 0 < fuel →
  dec_loop fuel key pfx hdr buf rest index held = mret held.
Proof. intros Hl Hf. destruct fuel; [lia|]. cbn [dec_loop]. by rewrite fill_false. Qed.

Lemma dec_loop_chunk fuel buf rest index held ct post :
  ct_ok ct → buf ++ concat rest = chunk_bytes ct ++ post →
  ∃ buf' rest', buf' ++ concat rest' = post ∧
    dec_loop (S fuel) key pfx hdr buf rest index held =
    (_ ← match held with
         | Some (i, c) => p ← lift (open_chunk key pfx hdr i c false); yield p
         | None => mret tt
         end;
     dec_loop fuel key pfx hdr buf' rest' (S index) (Some (index, ct))).
Proof.
  intros Hct Hall. unfold ct_ok, TAG_LEN in Hct.
  assert (length (buf ++ concat rest) = 4 + length ct + length post) as Hlen.
  { by rewrite Hall, length_app, length_chunk_bytes. }
  destruct (fill_true 4 buf rest) as (b1 & r1 & Hf1 & He1 & Hl1); [lia|].
  destruct (fill_true (4 + length ct) b1 r1) as (b2 & r2 & Hf2 & He2 & Hl2);
    [rewrite He1; lia|].
  assert (take 4 b1 = be32 (Z.of_nat (length ct))) as Hpre.
  { rewrite <-(take_app_le b1 (concat r1)), He1, Hall by lia.
    unfold chunk_bytes. by rewrite <-(assoc_L (++)), take_app_length'. }
  assert (b2 = chunk_bytes ct ++ drop (4 + length ct) b2) as Hb2.
  { rewrite <-(take_drop (4 + length ct) b2) at 1. f_equal.
    rewrite <-(take_app_le b2 (concat r2)), He2, He1, Hall by lia.
    by rewrite take_app_length' by by rewrite length_chunk_bytes. }
  exists (drop (4 + length ct) b2), r2. split.
  { apply (app_inv_head (chunk_bytes ct)). rewrite (assoc_L (++)), <-Hb2. congruence. }
  cbn [dec_loop]. rewrite Hf1. cbn [negb]. rewrite Hpre, unpack_be32 by lia.
  rewrite (proj2 (Z.ltb_ge _ _)) by (unfold TAG_LEN; lia).
  rewrite Nat2Z.id, Hf2. cbn [negb].
  replace (slice 4 (4 + length ct) b2) with ct; [done|].
  rewrite Hb2. unfold chunk_bytes. rewrite <-(assoc_L (++)).
  symmetry. by apply slice_mid.
Qed.

(** The loop followed by the final chunk, on a well-formed body. *)
Lemma dec_loop_body fuel cts tail buf rest i held :
  Forall ct_ok cts → length tail < 4 → buf ++ concat rest = body_of cts ++ tail →
  length (buf ++ concat rest) < fuel →
  (dec_loop fuel key pfx hdr buf rest (i + length (held_list held))
     ((λ h, (i, h)) <$> held) ≫= finish key pfx hdr) = pending i (held_list held ++ cts).
Proof.
  intros Hok Ht. revert fuel buf rest i held.
  induction Hok as [|ct cts Hct Hok IH]; intros fuel buf rest i held Hall Hf.
  { unfold body_of in Hall; simpl in Hall. rewrite dec_loop_end by (rewrite ?Hall; lia).
    rewrite gen_ret_bind, app_nil_r. destruct held as [h|]; [|done]. simpl.
    destruct (open_chunk _ _ _ _ _ _); done. }
  destruct fuel as [|fuel]; [lia|].
  destruct (dec_loop_chunk fuel buf rest (i + length (held_list held))
     ((λ h, (i, h)) <$> held) ct (body_of cts ++ tail)) as (b' & r' & Hpost & ->);
    [done|by rewrite Hall, (assoc_L (++))|].
  assert (length (b' ++ concat r') < fuel) as Hfuel.
  { rewrite Hpost. rewrite Hall in Hf. unfold body_of in *. cbn [map concat] in Hf.
    rewrite !length_app, length_chunk_bytes in *. lia. }
  specialize (IH fuel b' r' (i + length (held_list held)) (Some ct) Hpost Hfuel).
  cbn [held_list length app fmap option_fmap option_map] in IH.
  rewrite gen_bind_assoc. destruct held as [h|]; cbn [held_list length app fmap option_fmap option_map] in *.
  - cbn [pending open_gen app]. rewrite (bool_decide_eq_false_2 (ct :: cts = [])) by done.
    rewrite gen_bind_assoc. apply gen_bind_ext; intros p. apply gen_bind_ext; intros _.
    rewrite !Nat.add_1_r in *. exact IH.
  - rewrite gen_ret_bind. rewrite Nat.add_0_r, Nat.add_1_r in *. exact IH.
Qed.

Lemma dec_loop_start fuel cts tail buf rest :
  Forall ct_ok cts → length tail < 4 → buf ++ concat rest = body_of cts ++ tail →
  length (buf ++ concat rest) < fuel →
  (dec_loop fuel key pfx hdr buf rest 0 None ≫= finish key pfx hdr) = pending 0 cts.
Proof. intros ????. by apply (dec_loop_body fuel cts tail buf rest 0 None). Qed.

(** If the loop ends without raising, its input was a body and a short tail. *)
Lemma dec_loop_shape fuel buf rest index held out held' :
  dec_loop fuel key pfx hdr buf rest index held = Gen out (Ok held') →
  ∃ cts tail, Forall ct_ok cts ∧ length tail < 4 ∧
    buf ++ concat rest = body_of cts ++ tail.
Proof.
  revert buf rest index held out. induction fuel as [|fuel IH];
    intros buf rest index held out; cbn [dec_loop]; [done|].
  destruct (fill 4 buf rest) as [[ok b1] r1] eqn:Hf1.
  apply fill_spec in Hf1 as [He1 Hok1]. destruct ok; cbn [negb].
  2:{ intros _. destruct Hok1 as [-> Hl]. exists [], b1.
      simpl in He1. rewrite app_nil_r in He1. by rewrite <-He1. }
  destruct (_ <? TAG_LEN)%Z eqn:Htag; [done|]. bools.
  assert (length (take 4 b1) = 4) as Hl4 by (rewrite length_take; lia).
  pose proof (unpack_range _ Hl4). pose proof (be32_unpack _ Hl4) as Hbe.
  set (n := unpack_I (take 4 b1)) in *. unfold TAG_LEN in *.
  destruct (fill (4 + Z.to_nat n) b1 r1) as [[ok b2] r2] eqn:Hf2.
  apply fill_spec in Hf2 as [He2 Hok2]. destruct ok; cbn [negb]; [|done].
  rewrite gen_bind_ok. intros (o1 & o2 & u & _ & Hrec & _).
  apply IH in Hrec as (cts & tail & Hcts & Ht & Heq).
  exists (slice 4 (4 + Z.to_nat n) b2 :: cts), tail.
  assert (length (slice 4 (4 + Z.to_nat n) b2) = Z.to_nat n) as Hsl
    by (rewrite length_slice by lia; lia).
  split_and!; [|done|].
  - constructor; [|done]. unfold ct_ok, TAG_LEN. rewrite Hsl. lia.
  - unfold body_of. cbn [map concat]. fold (body_of cts).
    rewrite <-(assoc_L (++)), <-Heq. unfold chunk_bytes. rewrite Hsl, Z2Nat.id, Hbe by lia.
    rewrite <-He1, <-He2, (assoc_L (++)). f_equal.
    rewrite <-(take_app_le b1 (concat r1)), <-He2, take_app_le by lia.
    unfold slice. replace (4 + Z.to_nat n - 4) with (Z.to_nat n) by lia.
    by rewrite <-(drop_drop _ (Z.to_nat n) 4), <-(assoc_L (++)), take_drop, take_drop.
Qed.
End dec_streaming.

(** What the streaming form accepts: a frame the single-shot form accepts,
    followed by at most three stray bytes. *)
Lemma decrypt_stream_spec `{Aead} pieces key p :
  (∃ out, decrypt_stream pieces key = Gen out (Ok tt) ∧ concat out = p) ↔
  (∃ frame tail, concat pieces = frame ++ tail ∧ length tail < 4 ∧
     decrypt frame key = Ok p).
Proof.
  setoid_rewrite decrypt_parse. unfold decrypt_stream, check_key. split.
  - intros (out & Hs & <-).
    destruct (negb (length key =? 32)) eqn:Hk; [done|]. bools.
    unfold raise_if in Hs. rewrite lift_ok_bind in Hs.
    destruct (fill HEADER_LEN [] pieces) as [[ok buf] rest] eqn:Hf.
    apply fill_spec in Hf as [Heq Hok]. simpl in Heq.
    destruct ok; cbn [negb] in Hs; [|done].
    destruct (bool_decide _ && bool_decide _) eqn:Hm; cbn [negb] in Hs; [|done]. bools.
    assert (well_headed (take HEADER_LEN buf)) as Hh.
    { split_and!; [rewrite length_take; lia|done|done]. }
    pose proof Hs as (o1 & o2 & held & Hl & _ & _)%gen_bind_ok.
    apply dec_loop_shape in Hl as (cts & tail & Hcts & Ht & Hbody).
    rewrite (dec_loop_start _ _ _ _ cts tail) in Hs;
      [|done..|rewrite <-Heq, !length_app, length_drop; lia].
    exists (take HEADER_LEN buf ++ body_of cts), tail. split_and!; [|done|done|].
    { rewrite <-Heq, <-(assoc_L (++)), <-Hbody, (assoc_L (++)). by rewrite take_drop. }
    destruct cts as [|ct cts]; [done|]. cbn [pending] in Hs.
    apply open_gen_all in Hs. by exists (take HEADER_LEN buf), (ct :: cts), out.
  - intros (frame & tail & Heq & Ht & Hk & h & cts & ps & Hh & Hok & Hne & -> & Ho & ->).
    rewrite Hk. cbn [negb raise_if Nat.eqb]. rewrite lift_ok_bind.
    pose proof Hh as (Hl & Hm & Hv).
    destruct (fill_true HEADER_LEN [] pieces) as (buf & rest & Hf & Hb & Hlb).
    { simpl. rewrite Heq, !length_app. lia. }
    rewrite Hf. cbn [negb]. simpl in Hb.
    assert (buf = h ++ drop HEADER_LEN buf) as Hbuf.
    { rewrite <-(take_drop HEADER_LEN buf) at 1. f_equal.
      rewrite <-(take_app_le buf (concat rest)), Hb, Heq, <-(assoc_L (++)) by lia.
      by apply take_app_length'. }
    assert (take HEADER_LEN buf = h) as -> by (rewrite Hbuf; by apply take_app_length').
    rewrite !bool_decide_eq_true_2 by done. cbn [andb negb].
    rewrite (dec_loop_start _ _ _ _ cts tail).
    + exists ps. split; [|done]. destruct cts; [done|]. by apply open_gen_all.
    + done.
    + done.
    + apply (app_inv_head h). rewrite !(assoc_L (++)), <-Hbuf. congruence.
    + rewrite <-Hb, !length_app, length_drop. lia.
Qed.

(** ** An executable instance

    A stand-in for AES-GCM that satisfies [AeadLaws]: the ciphertext is the
    plaintext followed by the last 16 bytes of the additional data. It hides
    nothing; it makes the theorems above evaluate on concrete frames. *)
Module ToyAead.

Definition tag (a : bytes) : bytes := take 16 (rev a ++ replicate 16 Byte.x00).

Definition small (p : bytes) : bool := (Z.of_nat (length p) <? 2^31)%Z.

#[export] Instance toy : Aead := {
  aead_encrypt k n p a := if small p then Some (p ++ tag a) else None;
  aead_decrypt k n c a :=
    let p := take (length c - 16) c in
    if bool_decide (p ++ tag a = c) && small p then Some p else None;
}.

Lemma length_tag a : length (tag a) = 16.
Proof. unfold tag. rewrite length_take, length_app, length_replicate. lia. Qed.

#[export] Instance toy_laws : AeadLaws.
Proof.
  split; intros k n p a; simpl; unfold small.
  - intros Hp. by rewrite (proj2 (Z.ltb_lt _ _) Hp).
  - intros c. destruct (_ <? _)%Z eqn:Hs; [|done]. intros [= <-].
    rewrite length_app, length_tag, take_app_length' by lia.
    by rewrite bool_decide_eq_true_2, Hs.
  - intros c. destruct (bool_decide _ && _) eqn:Hb; [|done]. bools.
    intros [= <-]. rewrite (proj2 (Z.ltb_lt _ _)) by done. by f_equal.
  - intros c. destruct (_ <? _)%Z; [|done]. intros [= <-].
    by rewrite length_app, length_tag.
Qed.

Definition key0 : bytes := replicate 32 Byte.x2a.
Definition pfx0 : bytes := replicate 8 Byte.x07.
Definition msg0 : bytes := String.list_byte_of_string "backup blob".
Definition hdr0 : bytes :=
  match header_of 4 pfx0 with Ok h => h | Err _ => [] end.
Definition frame0 : bytes :=
  match encrypt pfx0 msg0 key0 4 with Ok f => f | Err _ => [] end.
(** The three ciphertexts of [frame0]. *)
Definition cts0 : list bytes :=
  match scan 100 frame0 HEADER_LEN with
  | Ok spans => map (λ '(a, b), slice a b frame0) spans
  | Err _ => []
  end.

Lemma open_chunk_tag i f ct p :
  open_chunk key0 pfx0 hdr0 i ct f = Ok p →
  (Z.of_nat i < 2^32)%Z ∧
  drop (length ct - 16) ct = tag (hdr0 ++ be32 (Z.of_nat i) ++ [if f then Byte.x01 else Byte.x00]).
Proof.
  unfold open_chunk, nonce_of, aad_of. intros Ho. inv_ok.
  repeat match goal with H : pack_I _ = Some _ |- _ => apply pack_I_Some in H as [? ->] end.
  subst. split; [lia|].
  match goal with H : aead_decrypt _ _ _ _ = _ |- _ => simpl in H end.
  destruct (bool_decide _ && _) eqn:Hb; [|done]. bools.
  match goal with H : take _ ct ++ _ = ct |- _ => rename H into Hct end.
  assert (length (take (length ct - 16) ct) = length ct - 16) as Hl
    by (rewrite length_take; lia).
  rewrite <-Hct at 2. by rewrite drop_app_length'.
Qed.

Lemma position_bound0 cts : position_bound key0 pfx0 hdr0 cts.
Proof.
  intros ct i j fi fj p q _ Hi Hj.
  apply open_chunk_tag in Hi as [Hi Hti]. apply open_chunk_tag in Hj as [Hj Htj].
  rewrite Hti in Htj. unfold tag in Htj.
  rewrite !rev_app_distr, <-!(assoc_L (++)) in Htj.
  generalize (rev hdr0 ++ replicate 16 Byte.x00), Htj. clear Htj. intros r Htj.
  assert (be32 (Z.of_nat i) = be32 (Z.of_nat j) ∧ fi = fj) as [Hbe ->].
  { unfold be32 in *. simpl in Htj. split; [congruence|by destruct fi, fj]. }
  apply be32_inj in Hbe; [split; [lia|done]|lia..].
Qed.

End ToyAead.

Section framer_witnesses.
  Import ToyAead.

Lemma splicing_is_detected_witness :
  decrypt (hdr0 ++ body_of (reverse cts0)) key0 ≠ Ok msg0.
Proof.
  assert (well_headed hdr0) as Hh by (repeat split; vm_compute; reflexivity).
  assert (Forall ct_ok cts0) as Hok.
  { apply (bool_decide_unpack (Forall ct_ok cts0)). vm_compute. exact I. }
  assert (decrypt (hdr0 ++ body_of cts0) key0 = Ok msg0) as Hd0 by (vm_compute; reflexivity).
  assert (Forall (.∈ cts0) (reverse cts0)) as Hin.
  { apply Forall_forall. intros ct. by rewrite elem_of_reverse. }
  intros Hd. pose proof (splicing_is_detected key0 hdr0 cts0 (reverse cts0) msg0 msg0
    Hh Hok (position_bound0 cts0) Hd0 Hin Hd) as Heq.
  vm_compute in Heq. discriminate Heq.
Defined.

Lemma decrypt_accepts_sealed_frames_witness :
  sealed_frame key0 frame0 msg0.
Proof. apply decrypt_accepts_sealed_frames. vm_compute. reflexivity. Defined.
End framer_witnesses.
