(* ===== verification/Envelope.v ===== *)
(** * Blob envelopes

    Model of [src/shared/crypto/envelope.py] (the TMVE envelope: a DEK id, a
    random salt and a TMV1 frame sealed under a key derived from the tenant's
    DEK) and of [src/shared/crypto/blob_cipher.py] (the seam the storage layer
    calls: seal, open with legacy passthrough, and the read-back check).

    HKDF-SHA256 is the class [Kdf]; the random salt and nonce prefix are
    arguments. *)

From S2P Require Import Prelude.
From S2P Require Import Framer.
Local Open Scope nat_scope.

(** [HKDF(SHA256, length=32, salt, info).derive(dek)] *)
Class Kdf := hkdf : bytes → bytes → bytes → bytes.
Class KdfLaws `{Kdf} := hkdf_length dek salt info : length (hkdf dek salt info) = 32.

Inductive env_err :=
  | NotTMVE
  | FrameRejected (r : dec_reason)   (** [EnvelopeError(str(e))] *)
  | EnvValueError (msg : string)
  | FrameRaised (e : frame_err)      (** not a [DecryptError]: propagates *)
  | ResolveError.                    (** what the [resolve] callable raised *)

(** [except framer.DecryptError as e: raise EnvelopeError(str(e))] *)
Definition env_of_frame (e : frame_err) : env_err :=
  match e with DecryptError r => FrameRejected r | e => FrameRaised e end.

Definition ENV_MAGIC : bytes := String.list_byte_of_string "TMVE".
Definition ENV_VERSION : Byte.byte := Byte.x01.
Definition KEY_ID_LEN : nat := 16.
Definition SALT_LEN : nat := 16.
Definition ENV_HEADER_LEN : nat := 4 + 1 + KEY_ID_LEN + SALT_LEN.
Definition INFO : bytes := String.list_byte_of_string "tmvault-blob-v1".
Definition DEFAULT_CHUNK : Z := 2^20.

Definition env_is_encrypted (data : bytes) : bool :=
  (ENV_HEADER_LEN <=? length data)
  && bool_decide (take 4 data = ENV_MAGIC)
  && bool_decide (data !! 4 = Some ENV_VERSION).

Definition read_key_id (data : bytes) : result env_err bytes :=
  _ ← raise_if (negb (env_is_encrypted data)) NotTMVE;
  Ok (slice 5 (5 + KEY_ID_LEN) data).

Section envelope.
  Context `{Aead} `{Kdf}.

Definition derive (dek salt : bytes) : result env_err bytes :=
  _ ← raise_if (negb (length dek =? 32)) (EnvValueError "dek must be 32 bytes");
  Ok (hkdf dek salt INFO).

Definition env_header (key_id salt : bytes) : bytes :=
  ENV_MAGIC ++ [ENV_VERSION] ++ key_id ++ salt.

Definition encrypt_blob (salt pfx plaintext dek key_id : bytes) (chunk_size : Z)
    : result env_err bytes :=
  _ ← raise_if (negb (length key_id =? KEY_ID_LEN)) (EnvValueError "key_id must be 16 bytes");
  blob_key ← derive dek salt;
  frame ← map_err FrameRaised (encrypt pfx plaintext blob_key chunk_size);
  Ok (env_header key_id salt ++ frame).

Definition decrypt_blob (data dek : bytes) : result env_err bytes :=
  _ ← raise_if (negb (env_is_encrypted data)) NotTMVE;
  let salt := slice (5 + KEY_ID_LEN) ENV_HEADER_LEN data in
  blob_key ← derive dek salt;
  map_err env_of_frame (decrypt (drop ENV_HEADER_LEN data) blob_key).

Definition env_encrypt_stream (salt pfx : bytes) (plaintext : list bytes)
    (dek key_id : bytes) (chunk_size : Z) : gen env_err unit :=
  _ ← lift (raise_if (negb (length key_id =? KEY_ID_LEN))
              (EnvValueError "key_id must be 16 bytes"));
  blob_key ← lift (derive dek salt);
  _ ← yield (env_header key_id salt);
  gen_map_err FrameRaised (encrypt_stream pfx plaintext blob_key chunk_size).

(** [_frame_bytes()]: what is left of the buffered header, then the rest. *)
Definition frame_pieces (rest : bytes) (pieces : list bytes) : list bytes :=
  match rest with [] => pieces | _ => rest :: pieces end.

Definition env_decrypt_stream (cipher : list bytes) (resolve : bytes → option bytes)
    : gen env_err unit :=
  let '(_, buf, rest) := fill ENV_HEADER_LEN [] cipher in
  if negb (env_is_encrypted buf) then throw NotTMVE
  else
    let key_id := slice 5 (5 + KEY_ID_LEN) buf in
    let salt := slice (5 + KEY_ID_LEN) ENV_HEADER_LEN buf in
    dek ← lift (of_option ResolveError (resolve key_id));
    blob_key ← lift (derive dek salt);
    gen_map_err env_of_frame
      (decrypt_stream (frame_pieces (drop ENV_HEADER_LEN buf) rest) blob_key).

(** ** blob_cipher.py *)
Inductive cipher_err :=
  | NoDek
  | Cipher (e : env_err)
  | ReadbackFailed (e : env_err)
  | ReadbackMismatch.

Definition seal (salt pfx plaintext dek key_id : bytes) : result env_err bytes :=
  encrypt_blob salt pfx plaintext dek key_id DEFAULT_CHUNK.

Definition open_blob (data : bytes) (dek : option bytes) : result cipher_err bytes :=
  if negb (env_is_encrypted data) then Ok data
  else match dek with
       | None => Err NoDek
       | Some dek => map_err Cipher (decrypt_blob data dek)
       end.

Definition verify_readback (downloaded expected dek : bytes) : result cipher_err unit :=
  recovered ← map_err ReadbackFailed (decrypt_blob downloaded dek);
  raise_if (negb (bool_decide (recovered = expected))) ReadbackMismatch.

End envelope.

(** ** Shape of an envelope *)
Lemma env_header_shape key_id salt r :
  length key_id = KEY_ID_LEN → length salt = SALT_LEN →
  env_is_encrypted (env_header key_id salt ++ r) = true ∧
  slice 5 (5 + KEY_ID_LEN) (env_header key_id salt ++ r) = key_id ∧
  slice (5 + KEY_ID_LEN) ENV_HEADER_LEN (env_header key_id salt ++ r) = salt ∧
  drop ENV_HEADER_LEN (env_header key_id salt ++ r) = r.
Proof.
  unfold KEY_ID_LEN, SALT_LEN. intros Hk Hs. unfold env_header.
  assert (length (ENV_MAGIC ++ [ENV_VERSION] ++ key_id ++ salt) = ENV_HEADER_LEN) as Hl.
  { rewrite !length_app, Hk, Hs. done. }
  split_and!.
  - unfold env_is_encrypted. rewrite length_app, Hl.
    rewrite (proj2 (Nat.leb_le _ _)) by lia. done.
  - rewrite (assoc_L (++)), <-!(assoc_L (++)).
    replace (ENV_MAGIC ++ _) with ((ENV_MAGIC ++ [ENV_VERSION]) ++ key_id ++ salt ++ r)
      by by rewrite <-!(assoc_L (++)).
    apply slice_mid; [done|by rewrite Hk].
  - replace ((ENV_MAGIC ++ _) ++ r)
      with ((ENV_MAGIC ++ [ENV_VERSION] ++ key_id) ++ salt ++ r)
      by by rewrite <-!(assoc_L (++)).
    apply slice_mid; [by rewrite !length_app, Hk|by rewrite Hs].
  - by apply drop_app_length'.
Qed.

Lemma env_is_encrypted_app buf r :
  ENV_HEADER_LEN ≤ length buf → env_is_encrypted (buf ++ r) = env_is_encrypted buf.
Proof.
  intros Hl. unfold env_is_encrypted. unfold ENV_HEADER_LEN, KEY_ID_LEN, SALT_LEN in *.
  rewrite length_app, take_app_le, lookup_app_l by lia.
  by rewrite !(proj2 (Nat.leb_le _ _)) by lia.
Qed.

Lemma env_is_encrypted_long data :
  env_is_encrypted data = true → ENV_HEADER_LEN ≤ length data.
Proof. unfold env_is_encrypted. intros. by bools. Qed.

Lemma concat_frame_pieces rest pieces :
  concat (frame_pieces rest pieces) = rest ++ concat pieces.
Proof. by destruct rest. Qed.

Section envelope_theorems.
  Context `{AeadLaws} `{KdfLaws}.

(** An envelope [encrypt_blob] returned names its DEK and opens with it. *)
Lemma encrypt_blob_opens salt pfx p dek key_id cs data :
  length salt = SALT_LEN → length pfx = 8 →
  encrypt_blob salt pfx p dek key_id cs = Ok data →
  env_is_encrypted data = true ∧ read_key_id data = Ok key_id ∧ decrypt_blob data dek = Ok p.
Proof.
  intros Hs Hp He. unfold encrypt_blob in He. inv_ok. bools. subst data.
  match goal with Hf : encrypt _ _ _ _ = Ok ?f, Hd : derive _ _ = Ok _ |- _ =>
    apply encrypt_opens in Hf as Hdec; [|done]; rename Hd into Hder; rename f into frame end.
  destruct (env_header_shape key_id salt frame) as (Henc & Hkid & Hsalt & Hdrop); [done..|].
  unfold read_key_id, decrypt_blob. rewrite Henc, Hkid, Hsalt, Hdrop. mred.
  by rewrite Hder; mred; rewrite Hdec.
Qed.

(** Sealing a blob under a tenant DEK succeeds within the format's bounds
    (32-byte DEK, chunk size below 2^31, fewer than 2^32 chunks), the envelope
    carries the id of its DEK, and opening it with that DEK returns the
    plaintext, empty input included. *)
Theorem envelope_roundtrip salt pfx p dek key_id cs :
  length dek = 32 → length key_id = KEY_ID_LEN → length salt = SALT_LEN →
  length pfx = 8 → (0 < cs < 2^31)%Z →
  (Z.of_nat (length (chunks_of (Z.to_nat cs) p)) < MAX_CHUNKS)%Z →
  ∃ data, encrypt_blob salt pfx p dek key_id cs = Ok data ∧
    read_key_id data = Ok key_id ∧ decrypt_blob data dek = Ok p.
Proof.
  intros Hd Hk Hs Hp Hcs Hn.
  destruct (encrypt_roundtrip pfx p (hkdf dek salt INFO) cs)
    as (frame & He & _); [apply hkdf_length|done..|].
  assert (encrypt_blob salt pfx p dek key_id cs = Ok (env_header key_id salt ++ frame)) as Hblob.
  { unfold encrypt_blob, derive. rewrite Hk, Hd, !Nat.eqb_refl. mred. by rewrite He. }
  eexists. split; [exact Hblob|].
  by apply encrypt_blob_opens in Hblob as (_ & ? & ?).
Qed.

(** The streaming seal yields, over any split of the plaintext into pieces
    (empty ones included), exactly the bytes of the single-shot seal with the
    same salt and nonce prefix. *)
Theorem stream_seal_equals_seal salt pfx pieces dek key_id cs data :
  encrypt_blob salt pfx (concat pieces) dek key_id cs = Ok data →
  ∃ out, env_encrypt_stream salt pfx pieces dek key_id cs = Gen out (Ok tt) ∧
         concat out = data.
Proof.
  unfold encrypt_blob, env_encrypt_stream. intros He. inv_ok. subst data. bools.
  match goal with Hk : length key_id = _, Hd : derive _ _ = Ok _, Hf : encrypt _ _ _ _ = Ok _ |- _ =>
    rewrite Hk, Nat.eqb_refl, Hd; apply encrypt_stream_spec in Hf as (out & Hf & <-) end.
  cbn [negb raise_if]. rewrite !lift_ok_bind.
  match goal with Hf : encrypt_stream _ _ _ _ = _ |- _ => rewrite Hf end.
  by eexists.
Qed.

(** The streaming form accepts what the single-shot form accepts, followed by at
    most three stray bytes. *)
Lemma env_decrypt_stream_spec pieces resolve p :
  (∃ out, env_decrypt_stream pieces resolve = Gen out (Ok tt) ∧ concat out = p) ↔
  (∃ data tail key_id dek, concat pieces = data ++ tail ∧ length tail < 4 ∧
     read_key_id data = Ok key_id ∧ resolve key_id = Some dek ∧
     decrypt_blob data dek = Ok p).
Proof.
  unfold env_decrypt_stream, read_key_id, decrypt_blob. split.
  - intros (out & Hs & <-).
    destruct (fill ENV_HEADER_LEN [] pieces) as [[ok buf] rest] eqn:Hf.
    apply fill_spec in Hf as [Heq _]. simpl in Heq.
    destruct (env_is_encrypted buf) eqn:Henc; cbn [negb] in Hs; [|done].
    pose proof (env_is_encrypted_long _ Henc) as Hlen.
    destruct (resolve _) as [dek|] eqn:Hr; [|done]. cbn [of_option] in Hs.
    rewrite lift_ok_bind in Hs.
    destruct (derive dek _) as [blob_key|] eqn:Hd; [|done].
    rewrite lift_ok_bind, gen_map_err_ok in Hs.
    destruct (proj1 (decrypt_stream_spec _ blob_key (concat out)) ltac:(by eexists))
      as (frame & tail & Hcat & Ht & Hdec).
    rewrite concat_frame_pieces in Hcat.
    exists (take ENV_HEADER_LEN buf ++ frame), tail. eexists _, dek.
    assert (length (take ENV_HEADER_LEN buf) = ENV_HEADER_LEN) as Hl
      by (rewrite length_take; lia).
    assert (env_is_encrypted (take ENV_HEADER_LEN buf ++ frame) = true) as Henc'.
    { rewrite env_is_encrypted_app by lia.
      rewrite <-(env_is_encrypted_app _ (drop ENV_HEADER_LEN buf)), take_drop by lia. done. }
    rewrite Henc'. cbn [negb raise_if]. mred.
    rewrite !slice_take_app by (rewrite ?length_take; unfold ENV_HEADER_LEN, KEY_ID_LEN, SALT_LEN in *; lia).
    split_and!; [|done|done|done|].
    { by rewrite <-(assoc_L (++)), <-Hcat, (assoc_L (++)), take_drop. }
    rewrite Hd. mred. rewrite drop_app_length' by done. by rewrite Hdec.
  - intros (data & tail & key_id & dek & Hcat & Ht & Hkid & Hr & Hdec). inv_ok. bools.
    match goal with H : env_is_encrypted data = true |- _ => rename H into Henc end.
    pose proof (env_is_encrypted_long _ Henc) as Hlen.
    destruct (fill_true ENV_HEADER_LEN [] pieces) as (buf & rest & -> & Hb & Hlb).
    { simpl. rewrite Hcat, length_app. lia. }
    simpl in Hb.
    assert (∀ a b, b ≤ ENV_HEADER_LEN → slice a b buf = slice a b data) as Hsl.
    { intros a b Hle. rewrite <-(slice_app_le a b buf (concat rest)) by lia.
      rewrite Hb, Hcat. by apply slice_app_le; lia. }
    assert (env_is_encrypted buf = true) as ->.
    { by rewrite <-(env_is_encrypted_app _ (concat rest)), Hb, Hcat, env_is_encrypted_app by lia. }
    cbn [negb]. subst key_id.
    rewrite !Hsl by (unfold ENV_HEADER_LEN, KEY_ID_LEN, SALT_LEN; lia).
    rewrite Hr. cbn [of_option]. rewrite lift_ok_bind.
    match goal with H : derive _ _ = Ok ?k |- _ => rewrite H; rename k into blob_key end.
    rewrite lift_ok_bind.
    destruct (proj2 (decrypt_stream_spec (frame_pieces (drop ENV_HEADER_LEN buf) rest) blob_key p))
      as (out & Ho & <-).
    { exists (drop ENV_HEADER_LEN data), tail. split_and!; [|done|done].
      rewrite concat_frame_pieces, <-drop_app_le, Hb, Hcat by lia. by apply drop_app_le. }
    exists out. by rewrite Ho.
Qed.

(** The read-back check passes if and only if the downloaded bytes are an
    envelope that decrypts, under the DEK, to the expected plaintext. *)
Theorem verify_readback_sound downloaded expected dek :
  verify_readback downloaded expected dek = Ok tt ↔
  decrypt_blob downloaded dek = Ok expected.
Proof.
  unfold verify_readback. destruct (decrypt_blob downloaded dek) as [r|e]; mred; [|done].
  case_bool_decide; mred; naive_solver.
Qed.

(** The streaming open accepts an envelope followed by one to three stray
    bytes and returns its plaintext, where the single-shot open rejects the same
    bytes: the two read paths disagree on a blob with a truncated length prefix
    at its end. *)
Theorem stream_open_accepts_stray_bytes data kid dek p tail :
  read_key_id data = Ok kid → decrypt_blob data dek = Ok p → 0 < length tail < 4 →
  (∃ out, env_decrypt_stream [data ++ tail] (λ k, if decide (k = kid) then Some dek else None)
            = Gen out (Ok tt) ∧ concat out = p) ∧
  (∀ p', decrypt_blob (data ++ tail) dek ≠ Ok p').
Proof.
  intros Hk Hd Ht. split.
  - apply env_decrypt_stream_spec. exists data, tail, kid, dek.
    rewrite decide_True by done. simpl. rewrite app_nil_r. split_and!; [done|lia|done..].
  - intros p' Hd'. unfold decrypt_blob in *. inv_ok. bools.
    match goal with H : env_is_encrypted data = true |- _ =>
      pose proof (env_is_encrypted_long _ H) as Hlong end.
    rewrite slice_app_le in * by lia.
    rewrite drop_app_le in * by lia.
    match goal with H1 : derive _ _ = Ok ?k1, H2 : derive _ _ = Ok ?k2 |- _ =>
      assert (k1 = k2) as -> by congruence end.
    match goal with Ha : decrypt (drop _ data) _ = _, Hb : decrypt (_ ++ _) _ = _ |- _ =>
      exact (decrypt_rejects_tail _ _ _ _ _ Ha Ht Hb) end.
Qed.

(** Opening a stored blob returns the bytes unchanged exactly when they are
    not an envelope, and otherwise returns plaintext that decrypted under the
    given DEK; it never returns the bytes of an envelope. *)
Theorem open_blob_never_leaks_ciphertext data dek r :
  open_blob data dek = Ok r ↔
  (env_is_encrypted data = false ∧ r = data) ∨
  (env_is_encrypted data = true ∧ ∃ d, dek = Some d ∧ decrypt_blob data d = Ok r).
Proof.
  unfold open_blob. destruct (env_is_encrypted data); cbn [negb].
  - destruct dek as [d|]; [rewrite map_err_Ok|].
    + split; [eauto|]. by intros [[? _]|(_ & ? & [= <-] & ?)].
    + split; [done|]. by intros [[? _]|(_ & ? & ? & _)].
  - split; [intros [= <-]; by left|]. by intros [[_ ->]|[? _]].
Qed.
End envelope_theorems.

(** ** Examples *)
Module ToyKdf.
Import ToyAead.

(** A stand-in for HKDF: 32 bytes of the salted input. *)
#[export] Instance toy_kdf : Kdf := λ dek salt info, take 32 (salt ++ dek ++ replicate 32 Byte.x00).

#[export] Instance toy_kdf_laws : KdfLaws.
Proof.
  intros dek salt info. unfold hkdf, toy_kdf.
  rewrite length_take, !length_app, length_replicate. lia.
Qed.

Definition dek0 : bytes := replicate 32 Byte.x11.
Definition kid0 : bytes := replicate 16 Byte.x22.
Definition salt0 : bytes := replicate 16 Byte.x33.
Definition data0 : bytes :=
  match encrypt_blob salt0 pfx0 msg0 dek0 kid0 4 with Ok d => d | Err _ => [] end.
End ToyKdf.

Section envelope_witnesses.
  Import ToyAead ToyKdf.

Lemma envelope_roundtrip_witness :
  ∃ data, encrypt_blob salt0 pfx0 msg0 dek0 kid0 4 = Ok data ∧
    read_key_id data = Ok kid0 ∧ decrypt_blob data dek0 = Ok msg0.
Proof. apply envelope_roundtrip; try reflexivity; split; reflexivity. Defined.

Lemma stream_seal_equals_seal_witness :
  ∃ out, env_encrypt_stream salt0 pfx0 [take 3 msg0; []; drop 3 msg0] dek0 kid0 4
           = Gen out (Ok tt) ∧ concat out = data0.
Proof. apply stream_seal_equals_seal. vm_compute. reflexivity. Defined.
Lemma stream_open_accepts_stray_bytes_witness :
  ∃ out, env_decrypt_stream [data0 ++ [Byte.x00]]
           (λ k, if decide (k = kid0) then Some dek0 else None) = Gen out (Ok tt) ∧
         concat out = msg0.
Proof.
  apply (stream_open_accepts_stray_bytes data0 kid0 dek0 msg0 [Byte.x00]);
    [vm_compute; reflexivity|vm_compute; reflexivity|simpl; lia].
Defined.
End envelope_witnesses.
