(* ===== verification/Dek.v ===== *)
(** * Data-encryption keys

    Model of [src/shared/crypto/kek.py] (the KEK provider contract),
    [src/shared/crypto/dek_manager.py] (the per-tenant DEK life cycle) and
    [src/shared/crypto/store.py] (the [tenant_dek] table behind it).

    The abstract class [DekStore] of the source is the class [DekStore] here,
    with the laws the manager relies on in [DekStoreLaws]; the manager's
    theorems are proved against the laws, and [SqlDekStore] discharges them. The
    KMS, Key Vault and AES key-wrap calls are the fields of [KekProvider].
    [os.urandom] and [uuid4] are arguments. *)

From Stdlib Require Strings.Byte.
From S2P Require Import Prelude.
Local Open Scope nat_scope.

Abbreviation tenant := string.

(** ** KEK providers *)
Record KekProvider := Kek {
  kek_id : string;
  provider_name : string;
  (** [None] is an exception of the provider. *)
  wrap_dek : bytes → option bytes;
  unwrap_dek : bytes → option bytes;
}.

(** The provider contract: a DEK wrapped now unwraps to the same bytes later. *)
Definition kek_faithful (k : KekProvider) : Prop :=
  ∀ d w, wrap_dek k d = Some w → unwrap_dek k w = Some d.

(** ** Records and store *)
Inductive dek_state := Active | Retired.
Global Instance dek_state_eq_dec : EqDecision dek_state.
Proof. solve_decision. Defined.

Record DekRecord := Rec {
  r_tenant : tenant;
  r_key_id : bytes;
  r_wrapped : bytes;
  r_kek_id : string;
  r_provider : string;
  r_state : dek_state;
}.

Inductive dek_err :=
  | KeyError            (** no DEK for key_id *)
  | KekError            (** the provider raised *)
  | IntegrityError.     (** a unique index of [tenant_dek] was violated *)

Definition retire (t : tenant) (r : DekRecord) : DekRecord :=
  if bool_decide (r_tenant r = t ∧ r_state r = Active)
  then Rec (r_tenant r) (r_key_id r) (r_wrapped r) (r_kek_id r) (r_provider r) Retired
  else r.

Definition set_wrapping (w : bytes) (kid prov : string) (r : DekRecord) : DekRecord :=
  Rec (r_tenant r) (r_key_id r) w kid prov (r_state r).

Class DekStore (S : Type) := {
  get_active : S → tenant → option DekRecord;
  get_by_key_id : S → bytes → option DekRecord;
  insert_rec : S → DekRecord → result dek_err S;
  rotate : S → tenant → DekRecord → result dek_err S;
  all_records : S → list DekRecord;
  update_wrapping : S → bytes → bytes → string → string → S;
}.

(** What the manager relies on, through the table [view] of records by key id. *)
Class DekStoreLaws (S : Type) `{DekStore S} := {
  view : S → gmap bytes DekRecord;
  view_keyed s k r : view s !! k = Some r → r_key_id r = k;
  get_by_key_id_spec s k : get_by_key_id s k = view s !! k;
  get_active_Some s t r :
    get_active s t = Some r →
    view s !! r_key_id r = Some r ∧ r_tenant r = t ∧ r_state r = Active;
  insert_spec s r s' :
    insert_rec s r = Ok s' →
    view s !! r_key_id r = None ∧ view s' = <[r_key_id r := r]> (view s);
  rotate_spec s t r s' :
    rotate s t r = Ok s' →
    view s !! r_key_id r = None ∧ view s' = <[r_key_id r := r]> (retire t <$> view s);
  all_records_spec s r : r ∈ all_records s ↔ view s !! r_key_id r = Some r;
  update_wrapping_spec s k w kid prov :
    view (update_wrapping s k w kid prov) = alter (set_wrapping w kid prov) k (view s);
}.

(** ** The manager *)
Record DekManager (S : Type) := Manager {
  m_kek : KekProvider;
  m_store : S;
  m_by_kid : gmap bytes bytes;
  m_active_kid : gmap tenant bytes;
}.
Global Arguments Manager {S}.
Global Arguments m_kek {S}.
Global Arguments m_store {S}.
Global Arguments m_by_kid {S}.
Global Arguments m_active_kid {S}.

Section manager.
  Context {S : Type} `{DekStore S}.
  Implicit Types m : DekManager S.

(** [self._by_kid[kid] = dek; self._active_kid[tenant] = kid] *)
Definition remember_active m (store : S) (t : tenant) (kid dek : bytes) : DekManager S :=
  Manager (m_kek m) store (<[kid := dek]> (m_by_kid m)) (<[t := kid]> (m_active_kid m)).

Definition mint (k : KekProvider) (t : tenant) (dek kid : bytes) : result dek_err DekRecord :=
  w ← of_option KekError (wrap_dek k dek);
  Ok (Rec t kid w (kek_id k) (provider_name k) Active).

Definition active_dek m (t : tenant) (new_dek new_kid : bytes)
    : result dek_err (bytes * bytes * DekManager S) :=
  match m_active_kid m !! t with
  | Some cached =>
    dek ← of_option KeyError (m_by_kid m !! cached);
    Ok (cached, dek, m)
  | None =>
    match get_active (m_store m) t with
    | None =>
      rec ← mint (m_kek m) t new_dek new_kid;
      s ← insert_rec (m_store m) rec;
      Ok (r_key_id rec, new_dek, remember_active m s t (r_key_id rec) new_dek)
    | Some rec =>
      dek ← of_option KekError (unwrap_dek (m_kek m) (r_wrapped rec));
      Ok (r_key_id rec, dek, remember_active m (m_store m) t (r_key_id rec) dek)
    end
  end.

Definition dek_for_key_id m (kid : bytes) : result dek_err (bytes * DekManager S) :=
  match m_by_kid m !! kid with
  | Some dek => Ok (dek, m)
  | None =>
    match get_by_key_id (m_store m) kid with
    | None => Err KeyError
    | Some rec =>
      dek ← of_option KekError (unwrap_dek (m_kek m) (r_wrapped rec));
      Ok (dek, Manager (m_kek m) (m_store m) (<[kid := dek]> (m_by_kid m)) (m_active_kid m))
    end
  end.

Definition rotate_dek m (t : tenant) (new_dek new_kid : bytes)
    : result dek_err (bytes * DekManager S) :=
  rec ← mint (m_kek m) t new_dek new_kid;
  s ← rotate (m_store m) t rec;
  Ok (r_key_id rec, remember_active m s t (r_key_id rec) new_dek).

(** [self._by_kid.get(kid) or self._kek.unwrap_dek(rec.wrapped_dek)] *)
Definition plain_dek m (rec : DekRecord) : option bytes :=
  match m_by_kid m !! r_key_id rec with
  | Some (b :: d) => Some (b :: d)
  | _ => unwrap_dek (m_kek m) (r_wrapped rec)
  end.

(** The loop of [rewrap_all]: the manager is mutated as it goes, so what a
    failure leaves behind is part of the result. *)
Fixpoint rewrap_loop m (new_kek : KekProvider) (recs : list DekRecord) (n : nat)
    : DekManager S * result dek_err nat :=
  match recs with
  | [] => (m, Ok n)
  | rec :: recs =>
    match plain_dek m rec with
    | None => (m, Err KekError)
    | Some dek =>
      match wrap_dek new_kek dek with
      | None => (m, Err KekError)
      | Some w =>
        let s := update_wrapping (m_store m) (r_key_id rec) w (kek_id new_kek)
                   (provider_name new_kek) in
        let m := Manager (m_kek m) s (<[r_key_id rec := dek]> (m_by_kid m)) (m_active_kid m) in
        rewrap_loop m new_kek recs (1 + n)
      end
    end
  end.

Definition rewrap_all m (new_kek : KekProvider) : DekManager S * result dek_err nat :=
  match rewrap_loop m new_kek (all_records (m_store m)) 0 with
  | (m, Ok n) => (Manager new_kek (m_store m) (m_by_kid m) (m_active_kid m), Ok n)
  | (m, Err e) => (m, Err e)
  end.

(** [DekManager(kek, store)]: a fresh process over the same store. *)
Definition restart (k : KekProvider) (s : S) : DekManager S := Manager k s ∅ ∅.

End manager.

(** ** The [tenant_dek] table

    Rows by their unique [key_id]; [_to_record] adds the key back. *)
Record TenantDek := Row {
  t_tenant : tenant;
  t_wrapped : bytes;
  t_kek_id : string;
  t_provider : string;
  t_state : dek_state;
}.

Abbreviation SqlDekStore := (gmap bytes TenantDek).

Definition to_record (kid : bytes) (row : TenantDek) : DekRecord :=
  Rec (t_tenant row) kid (t_wrapped row) (t_kek_id row) (t_provider row) (t_state row).

Definition to_row (r : DekRecord) : TenantDek :=
  Row (r_tenant r) (r_wrapped r) (r_kek_id r) (r_provider r) (r_state r).

Definition sql_all_records (s : SqlDekStore) : list DekRecord :=
  (λ p, to_record p.1 p.2) <$> map_to_list s.

Definition is_active_for (t : tenant) (r : DekRecord) : Prop :=
  r_tenant r = t ∧ r_state r = Active.

Global Instance is_active_for_dec t r : Decision (is_active_for t r).
Proof. unfold is_active_for. apply _. Defined.

(** [select ... where tenant_id and state = 'active' limit 1] *)
Definition sql_get_active (s : SqlDekStore) (t : tenant) : option DekRecord :=
  head (filter (is_active_for t) (sql_all_records s)).

Definition sql_get_by_key_id (s : SqlDekStore) (kid : bytes) : option DekRecord :=
  to_record kid <$> s !! kid.

(** [key_id] is unique, and so is the tenant among the active rows
    ([uq_tenant_dek_active]). *)
Definition sql_insert (s : SqlDekStore) (r : DekRecord) : result dek_err SqlDekStore :=
  _ ← raise_if (bool_decide (is_Some (s !! r_key_id r))) IntegrityError;
  _ ← raise_if (bool_decide (r_state r = Active ∧ sql_get_active s (r_tenant r) ≠ None))
        IntegrityError;
  Ok (<[r_key_id r := to_row r]> s).

Definition retire_row (t : tenant) (row : TenantDek) : TenantDek :=
  if bool_decide (t_tenant row = t ∧ t_state row = Active)
  then Row (t_tenant row) (t_wrapped row) (t_kek_id row) (t_provider row) Retired
  else row.

Definition sql_rotate (s : SqlDekStore) (t : tenant) (r : DekRecord)
    : result dek_err SqlDekStore :=
  sql_insert (retire_row t <$> s) r.

Definition sql_update_wrapping (s : SqlDekStore) (kid w : bytes) (kek prov : string)
    : SqlDekStore :=
  alter (λ row, Row (t_tenant row) w kek prov (t_state row)) kid s.

#[export] Instance sql_dek_store : DekStore SqlDekStore := {
  get_active := sql_get_active;
  get_by_key_id := sql_get_by_key_id;
  insert_rec := sql_insert;
  rotate := sql_rotate;
  all_records := sql_all_records;
  update_wrapping := sql_update_wrapping;
}.

Definition sql_view (s : SqlDekStore) : gmap bytes DekRecord :=
  map_imap (λ kid row, Some (to_record kid row)) s.

Lemma lookup_sql_view s k : sql_view s !! k = to_record k <$> s !! k.
Proof. unfold sql_view. rewrite map_lookup_imap. by destruct (s !! k). Qed.

Lemma elem_of_sql_all_records s r :
  r ∈ sql_all_records s ↔ sql_view s !! r_key_id r = Some r.
Proof.
  unfold sql_all_records. rewrite list_elem_of_fmap, lookup_sql_view, fmap_Some. split.
  - intros ([k row] & -> & Hin%elem_of_map_to_list). simpl. eauto.
  - intros (row & Hrow & ->). exists (r_key_id r, row). simpl in *.
    split; [done|by apply elem_of_map_to_list].
Qed.

Lemma sql_insert_view s r s' :
  sql_insert s r = Ok s' →
  sql_view s !! r_key_id r = None ∧ sql_view s' = <[r_key_id r := r]> (sql_view s).
Proof.
  unfold sql_insert. intros Hi. inv_ok. subst s'. bools.
  assert (s !! r_key_id r = None) as Hn by (by apply eq_None_not_Some).
  split; [by rewrite lookup_sql_view, Hn|].
  apply map_eq. intros k. rewrite lookup_sql_view.
  destruct (decide (r_key_id r = k)) as [<-|Hne].
  - rewrite !lookup_insert_eq. by destruct r.
  - by rewrite !lookup_insert_ne, lookup_sql_view by done.
Qed.

Lemma sql_get_active_Some s t r :
  sql_get_active s t = Some r →
  sql_view s !! r_key_id r = Some r ∧ r_tenant r = t ∧ r_state r = Active.
Proof.
  intros Hr%head_Some_elem_of.
  by apply list_elem_of_filter in Hr as [[? ?] Hin%elem_of_sql_all_records].
Qed.

Lemma retire_row_view s t : sql_view (retire_row t <$> s) = retire t <$> sql_view s.
Proof.
  apply map_eq. intros k. rewrite lookup_sql_view, !lookup_fmap, lookup_sql_view.
  destruct (s !! k) as [row|]; [|done]. simpl. f_equal.
  unfold retire_row, retire. simpl. by case_bool_decide.
Qed.

#[export] Instance sql_dek_store_laws : DekStoreLaws SqlDekStore.
Proof.
  refine {| view := sql_view |}.
  - intros s k r. rewrite lookup_sql_view, fmap_Some. by intros (row & _ & ->).
  - intros s k. by rewrite lookup_sql_view.
  - apply sql_get_active_Some.
  - apply sql_insert_view.
  - intros s t r s' Hr%sql_insert_view. rewrite retire_row_view in Hr.
    destruct Hr as [Hn Heq]. split; [|done].
    rewrite lookup_fmap in Hn. by apply fmap_None in Hn.
  - apply elem_of_sql_all_records.
  - intros s k w kid prov. apply map_eq. intros j. simpl. unfold sql_update_wrapping.
    rewrite lookup_sql_view. destruct (decide (k = j)) as [<-|Hne].
    + rewrite !lookup_alter_eq, lookup_sql_view. by destruct (s !! k).
    + by rewrite !lookup_alter_ne, lookup_sql_view by done.
Defined.

(** ** Coherence of the manager

    [T] is the ghost table of the plaintext DEK behind every key id ever minted. *)
Section coherence.
  Context {S : Type} `{DekStoreLaws S}.
  Implicit Types (m : DekManager S) (T : gmap bytes bytes).

Record cache_sound T m : Prop := {
  cs_kid : ∀ kid d, m_by_kid m !! kid = Some d → T !! kid = Some d;
  cs_active : ∀ t kid, m_active_kid m !! t = Some kid → is_Some (m_by_kid m !! kid);
  cs_nonempty : ∀ kid d, T !! kid = Some d → d ≠ [];
  cs_dom : ∀ kid, is_Some (T !! kid) ↔ is_Some (view (m_store m) !! kid);
}.

(** A record whose DEK this manager can produce. *)
Definition resolvable T m (r : DekRecord) : Prop :=
  ∃ d, T !! r_key_id r = Some d ∧
    (m_by_kid m !! r_key_id r = Some d ∨
     m_by_kid m !! r_key_id r = None ∧ unwrap_dek (m_kek m) (r_wrapped r) = Some d).

Definition wrapped_under T (k : KekProvider) (v : gmap bytes DekRecord) : Prop :=
  ∀ kid r, v !! kid = Some r →
    ∃ d, T !! kid = Some d ∧ unwrap_dek k (r_wrapped r) = Some d.

Definition coherent T m : Prop :=
  cache_sound T m ∧ kek_faithful (m_kek m) ∧ wrapped_under T (m_kek m) (view (m_store m)).

Lemma plain_dek_resolvable T m r d :
  cache_sound T m → resolvable T m r → T !! r_key_id r = Some d → plain_dek m r = Some d.
Proof.
  intros Hc (d' & Hd' & Hr) Hd. assert (d' = d) as -> by congruence.
  pose proof (cs_nonempty _ _ Hc _ _ Hd). unfold plain_dek.
  destruct Hr as [->|[-> ?]]; [by destruct d|done].
Qed.

Lemma coherent_resolvable T m r :
  coherent T m → view (m_store m) !! r_key_id r = Some r → resolvable T m r.
Proof.
  intros (Hc & _ & Hw) Hr. destruct (Hw _ _ Hr) as (d & Hd & Hu). exists d. split; [done|].
  destruct (m_by_kid m !! r_key_id r) as [d'|] eqn:Hk; [|by right].
  left. apply (cs_kid _ _ Hc) in Hk. congruence.
Qed.

(** Caching a DEK the ghost table vouches for. *)
Lemma cache_insert T m kid d k s act :
  cache_sound T m → T !! kid = Some d →
  (∀ j, is_Some (view s !! j) ↔ is_Some (view (m_store m) !! j)) →
  (∀ t j, act !! t = Some j → j = kid ∨ m_active_kid m !! t = Some j) →
  cache_sound T (Manager k s (<[kid := d]> (m_by_kid m)) act).
Proof.
  intros Hc HT Hdom Hact. split; simpl.
  - intros j d'. destruct (decide (kid = j)) as [<-|].
    + rewrite lookup_insert_eq. congruence.
    + rewrite lookup_insert_ne by done. apply (cs_kid _ _ Hc).
  - intros t j Hj. destruct (decide (kid = j)) as [<-|]; [rewrite lookup_insert_eq; eauto|].
    rewrite lookup_insert_ne by done. apply (cs_active _ _ Hc t).
    by destruct (Hact _ _ Hj).
  - apply (cs_nonempty _ _ Hc).
  - intros j. by rewrite Hdom, (cs_dom _ _ Hc).
Qed.

Lemma remembered_active m t kid t' j :
  <[t := kid]> (m_active_kid m) !! t' = Some j → j = kid ∨ m_active_kid m !! t' = Some j.
Proof.
  destruct (decide (t = t')) as [<-|]; [rewrite lookup_insert_eq; intros [= ->]; by left|].
  rewrite lookup_insert_ne by done. by right.
Qed.

Lemma mint_key k t d kid rec : mint k t d kid = Ok rec → kid = r_key_id rec.
Proof. unfold mint. intros Hm. inv_ok. by subst rec. Qed.

(** Minting a record under a fresh key id. *)
Lemma remember_coherent T m t rec dek s v0 :
  coherent T m → dek ≠ [] →
  mint (m_kek m) t dek (r_key_id rec) = Ok rec →
  v0 !! r_key_id rec = None →
  (∀ kid, v0 !! kid = None ↔ view (m_store m) !! kid = None) →
  wrapped_under T (m_kek m) v0 →
  view s = <[r_key_id rec := rec]> v0 →
  coherent (<[r_key_id rec := dek]> T) (remember_active m s t (r_key_id rec) dek) ∧
  T ⊆ <[r_key_id rec := dek]> T.
Proof.
  intros (Hc & Hf & Hw) Hne Hmint Hfresh Hdom Hw0 Hv.
  unfold mint in Hmint. inv_ok.
  match goal with H : wrap_dek _ _ = Some ?w |- _ => rename H into Hwrap; rename w into w0 end.
  assert (r_wrapped rec = w0) as Hwr
    by (match goal with H : Rec _ _ _ _ _ _ = rec |- _ => by rewrite <-H end).
  set (kid := r_key_id rec) in *.
  assert (T !! kid = None) as HT.
  { apply eq_None_not_Some. rewrite (cs_dom _ _ Hc). apply Hdom in Hfresh.
    rewrite Hfresh. by intros [??]. }
  split; [|by apply insert_subseteq]. split_and!; simpl.
  - split; simpl.
    + intros k d. destruct (decide (kid = k)) as [<-|]; [by rewrite !lookup_insert_eq|].
      rewrite !lookup_insert_ne by done. apply (cs_kid _ _ Hc).
    + intros t' k Hk. destruct (decide (kid = k)) as [<-|]; [rewrite lookup_insert_eq; eauto|].
      rewrite lookup_insert_ne by done. apply (cs_active _ _ Hc t').
      destruct (decide (t = t')) as [<-|]; [|by rewrite lookup_insert_ne in Hk].
      rewrite lookup_insert_eq in Hk. congruence.
    + intros k d. destruct (decide (kid = k)) as [<-|].
      * rewrite lookup_insert_eq. by intros [= <-].
      * rewrite lookup_insert_ne by done. apply (cs_nonempty _ _ Hc).
    + intros k. rewrite Hv. destruct (decide (kid = k)) as [<-|].
      * rewrite !lookup_insert_eq. split; eauto.
      * rewrite !lookup_insert_ne by done. rewrite (cs_dom _ _ Hc).
        specialize (Hdom k). rewrite <-!not_eq_None_Some. tauto.
  - done.
  - intros k r. rewrite Hv. destruct (decide (kid = k)) as [<-|].
    + rewrite !lookup_insert_eq. intros [= <-]. exists dek. split; [done|].
      rewrite Hwr. by apply Hf.
    + rewrite !lookup_insert_ne by done. apply Hw0.
Qed.

Lemma retire_wrapped T k v t : wrapped_under T k v → wrapped_under T k (retire t <$> v).
Proof.
  intros Hw kid r. rewrite lookup_fmap, fmap_Some.
  intros (r0 & Hr0 & ->). destruct (Hw _ _ Hr0) as (d & ? & Hu). exists d. split; [done|].
  unfold retire. by case_bool_decide.
Qed.

Lemma active_dek_coherent T m t d0 k0 kid dek m' :
  coherent T m → d0 ≠ [] → active_dek m t d0 k0 = Ok (kid, dek, m') →
  ∃ T', T ⊆ T' ∧ coherent T' m' ∧ T' !! kid = Some dek.
Proof.
  intros Hco Hne. pose proof Hco as (Hc & Hf & Hw). unfold active_dek.
  destruct (m_active_kid m !! t) as [c|] eqn:Hcached.
  { intros Ha. inv_ok. simplify_eq. exists T. split_and!; [done|done|].
    by apply (cs_kid _ _ Hc). }
  destruct (get_active (m_store m) t) as [rec|] eqn:Hact.
  - intros Ha. inv_ok. simplify_eq. apply get_active_Some in Hact as (Hv & _ & _).
    destruct (Hw _ _ Hv) as (d & HT & Hu). simplify_eq.
    exists T. split_and!; [done| |done]. split_and!; simpl; [|done|done].
    apply cache_insert; [done..|apply remembered_active].
  - intros Ha. inv_ok. simplify_eq.
    match goal with Hm : mint _ _ _ _ = Ok ?r, Hi : insert_rec _ _ = Ok _ |- _ =>
      rename Hm into Hmint; apply insert_spec in Hi as [Hfresh Hv]; rename r into rec end.
    pose proof (mint_key _ _ _ _ _ Hmint) as ->.
    destruct (remember_coherent T m t rec dek x0 (view (m_store m)))
      as [Hco' Hsub]; [done..|].
    eexists. split_and!; [exact Hsub|exact Hco'|apply lookup_insert_eq].
Qed.

Lemma dek_for_key_id_coherent T m kid dek m' :
  coherent T m → dek_for_key_id m kid = Ok (dek, m') →
  coherent T m' ∧ T !! kid = Some dek.
Proof.
  intros (Hc & Hf & Hw). unfold dek_for_key_id.
  destruct (m_by_kid m !! kid) as [d|] eqn:Hk.
  { intros [= <- <-]. split; [done|]. by apply (cs_kid _ _ Hc). }
  rewrite get_by_key_id_spec. destruct (view (m_store m) !! kid) as [r|] eqn:Hv; [|done].
  intros Hd. inv_ok. simplify_eq. destruct (Hw _ _ Hv) as (d & HT & Hu). simplify_eq.
  split; [|done]. split_and!; simpl; [|done|done].
  apply cache_insert; naive_solver.
Qed.

(** Every minted key id resolves, from the cache or from the store. *)
Lemma dek_for_key_id_total T m kid d :
  coherent T m → T !! kid = Some d → ∃ m', dek_for_key_id m kid = Ok (d, m').
Proof.
  intros (Hc & Hf & Hw) HT. unfold dek_for_key_id.
  destruct (m_by_kid m !! kid) as [d'|] eqn:Hk.
  { apply (cs_kid _ _ Hc) in Hk. simplify_eq. eauto. }
  rewrite get_by_key_id_spec.
  destruct (proj1 (cs_dom _ _ Hc kid)) as [r Hr]; [eauto|]. rewrite Hr.
  destruct (Hw _ _ Hr) as (d' & ? & Hu). simplify_eq. rewrite Hu. mred. eauto.
Qed.

Lemma rotate_dek_coherent T m t d0 k0 kid m' :
  coherent T m → d0 ≠ [] → rotate_dek m t d0 k0 = Ok (kid, m') →
  ∃ T', T ⊆ T' ∧ coherent T' m' ∧ T' !! kid = Some d0.
Proof.
  intros Hco Hne Hr. pose proof Hco as (Hc & Hf & Hw). unfold rotate_dek in Hr.
  inv_ok. simplify_eq.
  match goal with Hm : mint _ _ _ _ = Ok ?r, Hi : rotate _ _ _ = Ok _ |- _ =>
    rename Hm into Hmint; apply rotate_spec in Hi as [Hfresh Hv]; rename r into rec end.
  pose proof (mint_key _ _ _ _ _ Hmint) as ->.
  destruct (remember_coherent T m t rec d0 x0 (retire t <$> view (m_store m)))
    as [Hco' Hsub]; [done..| | |by apply retire_wrapped|done|].
  - by rewrite lookup_fmap, Hfresh.
  - intros kid. rewrite lookup_fmap. by destruct (view _ !! kid).
  - eexists. split_and!; [exact Hsub|exact Hco'|apply lookup_insert_eq].
Qed.

(** ** Re-wrapping under a new KEK *)
Lemma rewrap_loop_spec T k' recs m n m' res :
  kek_faithful k' → cache_sound T m → Forall (resolvable T m) recs →
  rewrap_loop m k' recs n = (m', res) →
  cache_sound T m' ∧ m_kek m' = m_kek m ∧
  (∀ kid d, m_by_kid m !! kid = Some d → m_by_kid m' !! kid = Some d) ∧
  (∀ kid r', view (m_store m') !! kid = Some r' →
     view (m_store m) !! kid = Some r' ∨
     ∃ d, T !! kid = Some d ∧ m_by_kid m' !! kid = Some d ∧
          unwrap_dek k' (r_wrapped r') = Some d) ∧
  (∀ n', res = Ok n' → n' = n + length recs ∧
     ∀ rec r', rec ∈ recs → view (m_store m') !! r_key_id rec = Some r' →
       ∃ d, T !! r_key_id rec = Some d ∧ unwrap_dek k' (r_wrapped r') = Some d).
Proof.
  intros Hk'. revert m n. induction recs as [|rec recs IH]; intros m n Hc Hres Hloop.
  { simpl in Hloop. simplify_eq. split_and!; [done..|eauto|].
    intros n' [= <-]. simpl. split; [lia|]. by intros rec r' ?%not_elem_of_nil. }
  inversion Hres as [|? ? Hrec Hrecs]; subst. cbn [rewrap_loop] in Hloop.
  pose proof Hrec as (d & HT & _). rewrite (plain_dek_resolvable T m rec d) in Hloop by done.
  destruct (wrap_dek k' d) as [w|] eqn:Hwrap; [|simplify_eq; split_and!; eauto; done].
  set (m1 := Manager _ _ _ _) in Hloop.
  assert (view (m_store m1) = alter (set_wrapping w (kek_id k') (provider_name k'))
            (r_key_id rec) (view (m_store m))) as Hv1 by apply update_wrapping_spec.
  assert (cache_sound T m1) as Hc1.
  { apply cache_insert; [done..| |by right]. intros j. simpl in Hv1. rewrite Hv1.
    destruct (decide (r_key_id rec = j)) as [<-|];
      [rewrite lookup_alter_eq; apply fmap_is_Some|by rewrite lookup_alter_ne]. }
  assert (∀ kid e, m_by_kid m !! kid = Some e → m_by_kid m1 !! kid = Some e) as Hmono.
  { intros kid e He. simpl. destruct (decide (r_key_id rec = kid)) as [<-|];
      [|by rewrite lookup_insert_ne]. rewrite lookup_insert_eq.
    apply (cs_kid _ _ Hc) in He. congruence. }
  apply IH in Hloop as (Hc' & Hkek & Hby & Hview & Hok); [|done|].
  2:{ eapply Forall_impl; [exact Hrecs|]. intros r (e & He & Hr). exists e. split; [done|].
      destruct Hr as [Hr|[Hr Hu]]; [left; by apply Hmono|]. simpl.
      destruct (decide (r_key_id rec = r_key_id r)) as [Heq|];
        [|right; by rewrite lookup_insert_ne].
      left. rewrite Heq, lookup_insert_eq in *. congruence. }
  assert (m_by_kid m' !! r_key_id rec = Some d) as Hd'
    by (apply Hby; simpl; apply lookup_insert_eq).
  assert (∀ r', view (m_store m') !! r_key_id rec = Some r' →
            unwrap_dek k' (r_wrapped r') = Some d) as Hrec'.
  { intros r' Hr'. destruct (Hview _ _ Hr') as [Hr1|(e & He & _ & Hu)]; [|congruence].
    rewrite Hv1, lookup_alter_eq in Hr1. apply fmap_Some in Hr1 as (r0 & _ & ->).
    simpl. by apply Hk'. }
  split_and!; [done|done|eauto| |].
  - intros kid r' Hr'. destruct (decide (r_key_id rec = kid)) as [<-|Hne].
    + right. exists d. eauto.
    + destruct (Hview _ _ Hr') as [Hr1|?]; [|eauto]. left.
      by rewrite Hv1, lookup_alter_ne in Hr1.
  - intros n' ->. destruct (Hok n' eq_refl) as [-> Hall]. split; [simpl; lia|].
    intros r r' [->|Hin]%elem_of_cons Hr'; [eauto|by eapply Hall].
Qed.

Lemma all_records_resolvable T m :
  coherent T m → Forall (resolvable T m) (all_records (m_store m)).
Proof.
  intros Hco. apply Forall_forall. intros r Hr%all_records_spec.
  by apply coherent_resolvable.
Qed.

Lemma view_dom_of_cache T m m' kid :
  cache_sound T m → cache_sound T m' →
  is_Some (view (m_store m') !! kid) → is_Some (view (m_store m) !! kid).
Proof. intros Hc Hc'. by rewrite <-(cs_dom _ _ Hc), (cs_dom _ _ Hc'). Qed.

(** A loop that ends re-wraps every record. *)
Lemma rewrap_done T k' m m1 n :
  kek_faithful k' → cache_sound T m → Forall (resolvable T m) (all_records (m_store m)) →
  rewrap_loop m k' (all_records (m_store m)) 0 = (m1, Ok n) →
  cache_sound T m1 ∧ wrapped_under T k' (view (m_store m1)).
Proof.
  intros Hk' Hc Hres Hloop.
  apply (rewrap_loop_spec T) in Hloop as (Hc1 & _ & _ & _ & Hok); [|done..].
  split; [done|]. destruct (Hok n eq_refl) as [_ Hall]. intros kid r' Hr'.
  assert (is_Some (view (m_store m) !! kid)) as [r Hr]
    by (apply (view_dom_of_cache T m m1); eauto).
  pose proof (view_keyed _ _ _ Hr) as <-. apply (Hall r); [|done].
  by apply all_records_spec.
Qed.

Lemma rewrap_all_coherent T m k' m' n :
  coherent T m → kek_faithful k' → rewrap_all m k' = (m', Ok n) → coherent T m'.
Proof.
  intros Hco Hk'. pose proof Hco as (Hc & _ & _). unfold rewrap_all.
  destruct (rewrap_loop _ _ _ _) as [m1 [n1|e]] eqn:Hloop; [|done]. intros [= <- <-].
  apply (rewrap_done T) in Hloop as [[? ? ? ?] Hw]; [|done|done|by apply all_records_resolvable].
  by split_and!.
Qed.

(** C15: If re-wrapping the DEKs under a new KEK fails part-way (the provider
    raises), no key is lost: the same process still resolves every key id to its
    DEK, and a later re-wrap that completes leaves every record readable. *)
Theorem failed_rewrap_is_recoverable T m k' m1 e :
  coherent T m → kek_faithful k' → rewrap_all m k' = (m1, Err e) →
  (∀ kid d, T !! kid = Some d → ∃ m2, dek_for_key_id m1 kid = Ok (d, m2)) ∧
  (∀ k2 m2 n, kek_faithful k2 → rewrap_all m1 k2 = (m2, Ok n) → coherent T m2).
Proof.
  intros Hco Hk'. pose proof Hco as (Hc & _ & Hw). unfold rewrap_all at 1.
  destruct (rewrap_loop _ _ _ _) as [m0 [n1|e1]] eqn:Hloop; [done|]. intros [= <- <-].
  apply (rewrap_loop_spec T) in Hloop as (Hc1 & Hkek & Hby & Hview & _);
    [|done|done|by apply all_records_resolvable].
  assert (∀ kid r, view (m_store m0) !! kid = Some r → resolvable T m0 r) as Hres.
  { intros kid r Hr. pose proof (view_keyed _ _ _ Hr) as <-.
    destruct (Hview _ _ Hr) as [Hr0|(d & HT & Hd & _)]; [|exists d; auto].
    destruct (Hw _ _ Hr0) as (d & HT & Hu). exists d. split; [done|]. rewrite Hkek.
    destruct (m_by_kid m0 !! r_key_id r) as [d'|] eqn:Hd; [|by right].
    left. apply (cs_kid _ _ Hc1) in Hd. congruence. }
  split.
  - intros kid d HT. unfold dek_for_key_id.
    destruct (m_by_kid m0 !! kid) as [d'|] eqn:Hd.
    { apply (cs_kid _ _ Hc1) in Hd. simplify_eq. eauto. }
    rewrite get_by_key_id_spec.
    destruct (proj1 (cs_dom _ _ Hc1 kid)) as [r Hr]; [eauto|]. rewrite Hr.
    destruct (Hres _ _ Hr) as (d' & HT' & Hu). rewrite (view_keyed _ _ _ Hr) in *. simplify_eq.
    destruct Hu as [Hu|[_ Hu]]; [congruence|]. rewrite Hu. mred. eauto.
  - intros k2 m2 n Hk2. unfold rewrap_all.
    destruct (rewrap_loop _ _ _ _) as [m3 [n3|e3]] eqn:Hloop2; [|done]. intros [= <- <-].
    apply (rewrap_done T) in Hloop2 as [[? ? ? ?] Hw2]; [by split_and!|done|done|].
    apply Forall_forall. intros r Hr%all_records_spec. by eapply Hres.
Qed.

(** ** Histories of one manager *)
Inductive mstep : DekManager S → DekManager S → Prop :=
  | mstep_active m t d k kid dek m' :
      length d = 32 → active_dek m t d k = Ok (kid, dek, m') → mstep m m'
  | mstep_lookup m kid dek m' : dek_for_key_id m kid = Ok (dek, m') → mstep m m'
  | mstep_rotate m t d k kid m' :
      length d = 32 → rotate_dek m t d k = Ok (kid, m') → mstep m m'
  | mstep_rewrap m k m' n : kek_faithful k → rewrap_all m k = (m', Ok n) → mstep m m'
  | mstep_restart m : mstep m (restart (m_kek m) (m_store m)).

Lemma length_nonempty {A} (l : list A) n : length l = Datatypes.S n → l ≠ [].
Proof. by intros ? ->. Qed.

Lemma mstep_coherent T m m' :
  coherent T m → mstep m m' → ∃ T', T ⊆ T' ∧ coherent T' m'.
Proof.
  intros Hco Hstep. destruct Hstep as [m t d k kid dek m' Hl Ha|m kid dek m' Hl|
    m t d k kid m' Hl Hr|m k m' n Hk Hr|m].
  - destruct (active_dek_coherent T m t d k kid dek m') as (T' & ? & ? & _); eauto.
    by eapply length_nonempty.
  - apply (dek_for_key_id_coherent T) in Hl as [? _]; eauto.
  - destruct (rotate_dek_coherent T m t d k kid m') as (T' & ? & ? & _); eauto.
    by eapply length_nonempty.
  - exists T. split; [done|]. by eapply rewrap_all_coherent.
  - exists T. split; [done|]. destruct Hco as ([? ? ? ?] & ? & ?). by split_and!.
Qed.

Lemma msteps_coherent T m m' :
  rtc mstep m m' → coherent T m → ∃ T', T ⊆ T' ∧ coherent T' m'.
Proof.
  intros Hs. revert T. induction Hs as [m|m m1 m2 Hstep _ IH]; intros T Hco; [eauto|].
  destruct (mstep_coherent _ _ _ Hco Hstep) as (T1 & ? & Hco1).
  destruct (IH _ Hco1) as (T2 & ? & ?). exists T2. split; [by etrans|done].
Qed.

(** Whatever happens afterwards, a DEK once handed out resolves again. *)
Lemma dek_stable T m t d k kid dek m1 m2 :
  coherent T m → length d = 32 → active_dek m t d k = Ok (kid, dek, m1) →
  rtc mstep m1 m2 → ∃ m3, dek_for_key_id m2 kid = Ok (dek, m3).
Proof.
  intros Hco Hl Ha Hs.
  destruct (active_dek_coherent T m t d k kid dek m1) as (T1 & ? & Hco1 & HT); eauto.
  { by eapply length_nonempty. }
  destruct (msteps_coherent _ _ _ Hs Hco1) as (T2 & Hsub & Hco2).
  apply (dek_for_key_id_total T2); [done|]. by eapply lookup_weaken.
Qed.
End coherence.

Lemma coherent_fresh (k : KekProvider) :
  kek_faithful k → coherent ∅ (restart k (∅ : SqlDekStore)).
Proof.
  intros Hk. split_and!; [|done|].
  - split; simpl.
    + intros kid d. by rewrite lookup_empty.
    + intros t kid. by rewrite lookup_empty.
    + intros kid d. by rewrite lookup_empty.
    + intros kid. rewrite lookup_sql_view, !lookup_empty. by split; intros [? ?].
  - intros kid r. simpl. by rewrite lookup_sql_view, lookup_empty.
Qed.


(** ** One active DEK per tenant *)
Definition unique_active (s : SqlDekStore) : Prop :=
  ∀ k1 k2 r1 r2, s !! k1 = Some r1 → s !! k2 = Some r2 →
    t_state r1 = Active → t_state r2 = Active → t_tenant r1 = t_tenant r2 → k1 = k2.

Lemma sql_get_active_None s t :
  sql_get_active s t = None ↔
  ∀ k row, s !! k = Some row → t_tenant row = t → t_state row ≠ Active.
Proof.
  unfold sql_get_active. rewrite head_None. split.
  - intros Hf k row Hk Ht Ha.
    assert (to_record k row ∈ filter (is_active_for t) (sql_all_records s)) as Hin.
    { apply list_elem_of_filter. split; [done|]. apply elem_of_sql_all_records.
      by rewrite lookup_sql_view; simpl; rewrite Hk. }
    rewrite Hf in Hin. by apply not_elem_of_nil in Hin.
  - intros Hno. apply elem_of_nil_inv.
    intros r [[Ht Ha] Hr%elem_of_sql_all_records]%list_elem_of_filter.
    rewrite lookup_sql_view in Hr. apply fmap_Some in Hr as (row & Hrow & Heq).
    rewrite Heq in Ht, Ha. by eapply Hno.
Qed.

Lemma sql_insert_unique s r s' :
  unique_active s → sql_insert s r = Ok s' → unique_active s'.
Proof.
  intros Hu Hi. unfold sql_insert in Hi. inv_ok. subst s'. bools.
  assert (∀ k row, s !! k = Some row → r_state r = Active → t_state row = Active →
            t_tenant row = r_tenant r → False) as Hno.
  { intros k row Hk Hr Ha Ht.
    assert (sql_get_active s (r_tenant r) = None) as Hn
      by (apply dec_stable; tauto).
    by eapply sql_get_active_None in Hn. }
  intros k1 k2 r1 r2 H1 H2 A1 A2 Ht.
  destruct (decide (r_key_id r = k1)) as [<-|N1], (decide (r_key_id r = k2)) as [<-|N2];
    rewrite ?lookup_insert_eq, ?lookup_insert_ne in H1 by done;
    rewrite ?lookup_insert_eq, ?lookup_insert_ne in H2 by done; simplify_eq; try done.
  - by destruct (Hno k2 r2).
  - by destruct (Hno k1 r1).
  - by eapply Hu.
Qed.

Lemma sql_retire_unique s t : unique_active s → unique_active (retire_row t <$> s).
Proof.
  intros Hu k1 k2 r1 r2. rewrite !lookup_fmap, !fmap_Some.
  intros (q1 & H1 & ->) (q2 & H2 & ->). unfold retire_row.
  repeat case_bool_decide; simpl; try done. by apply Hu.
Qed.

(** Rotation keeps at most one active DEK per tenant and makes the new one
    the active one: the tenant's previous active row is retired in the same
    transaction, its wrapped key untouched, and no row is lost. *)
Theorem rotation_swaps_the_active_dek s t r s' :
  unique_active s → r_tenant r = t → r_state r = Active → sql_rotate s t r = Ok s' →
  unique_active s' ∧ sql_get_active s' t = Some r ∧
  (∀ k row, s !! k = Some row →
     ∃ row', s' !! k = Some row' ∧ t_wrapped row' = t_wrapped row ∧
       t_tenant row' = t_tenant row ∧ (t_tenant row = t → t_state row' = Retired)).
Proof.
  intros Hu Ht Ha Hr. pose proof Hr as Hu'. unfold sql_rotate in Hr, Hu'.
  apply sql_insert_unique in Hu'; [|by apply sql_retire_unique].
  pose proof (sql_insert_view _ _ _ Hr) as [Hfresh Hv].
  split; [done|]. split.
  - destruct (sql_get_active s' t) as [r'|] eqn:Hg.
    + apply sql_get_active_Some in Hg as (Hr' & Ht' & Ha'). rewrite lookup_sql_view in Hr'. apply fmap_Some in Hr' as (row' & Hrow' & Heq').
      assert (sql_view s' !! r_key_id r = Some r) as Hnew by (rewrite Hv; apply lookup_insert_eq).
      rewrite lookup_sql_view in Hnew. apply fmap_Some in Hnew as (row & Hrow & Heq).
      assert (r_key_id r' = r_key_id r) as Hk.
      { apply (Hu' _ _ row' row); [done..| | |].
        - rewrite Heq' in Ha'. done.
        - rewrite Heq in Ha. done.
        - rewrite Heq' in Ht'. rewrite Heq in Ht. simpl in *. congruence. }
      rewrite Hk in *. congruence.
    + rewrite sql_get_active_None in Hg.
      assert (sql_view s' !! r_key_id r = Some r) as Hnew by (rewrite Hv; apply lookup_insert_eq).
      rewrite lookup_sql_view in Hnew. apply fmap_Some in Hnew as (row & Hrow & Heq).
      rewrite Heq in Ht, Ha. by destruct (Hg _ _ Hrow).
  - intros k row Hk. unfold sql_insert in Hr. inv_ok. subst s'. bools.
    assert (r_key_id r ≠ k) as Hne.
    { intros <-. rewrite lookup_sql_view, lookup_fmap, Hk in Hfresh. done. }
    exists (retire_row t row). rewrite lookup_insert_ne, lookup_fmap, Hk by done.
    split; [done|]. unfold retire_row. case_bool_decide as Hc; simpl; [done|].
    split_and!; [done..|]. intros <-. destruct (t_state row); [|done]. by destruct Hc.
Qed.

(** ** Examples *)
Module ToyKek.

(** A key wrap that tags the DEK with a byte; unwrapping checks the tag. *)
Definition tag_kek (name : string) (tag : Byte.byte) : KekProvider :=
  Kek name "local" (λ d, Some (tag :: d))
    (λ w, match w with t :: d => if Byte.eqb t tag then Some d else None | [] => None end).

(** The same, refusing to wrap one particular DEK. *)
Definition failing_kek (name : string) (tag : Byte.byte) (bad : bytes) : KekProvider :=
  Kek name "local" (λ d, if bool_decide (d = bad) then None else Some (tag :: d))
    (unwrap_dek (tag_kek name tag)).

Lemma tag_kek_faithful name tag : kek_faithful (tag_kek name tag).
Proof. intros d w [= <-]. simpl. by rewrite (Byte.byte_dec_lb eq_refl). Qed.

Lemma failing_kek_faithful name tag bad : kek_faithful (failing_kek name tag bad).
Proof. intros d w. simpl. case_bool_decide; [done|]. intros [= <-]. simpl. by rewrite (Byte.byte_dec_lb eq_refl). Qed.

Definition dekA : bytes := replicate 32 Byte.x0a.
Definition dekB : bytes := replicate 32 Byte.x0b.
Definition kidA : bytes := replicate 16 Byte.xa0.
Definition kidB : bytes := replicate 16 Byte.xb0.

Definition kek1 := tag_kek "kek-1" Byte.x01.
Definition kek2 := tag_kek "kek-2" Byte.x02.
Definition kek_bad := failing_kek "kek-bad" Byte.x03 dekB.

Definition fresh : DekManager SqlDekStore := restart kek1 ∅.

Definition after_active (m : DekManager SqlDekStore) (t : tenant) (d k : bytes)
    : DekManager SqlDekStore :=
  (from_ok ([], [], m) (active_dek m t d k)).2.

Definition manA := after_active fresh "tenant-a" dekA kidA.
Definition manAB := after_active manA "tenant-b" dekB kidB.

Lemma manAB_coherent :
  ∃ T, coherent T manAB ∧ T !! kidA = Some dekA ∧ T !! kidB = Some dekB.
Proof.
  destruct (active_dek_coherent ∅ fresh "tenant-a" dekA kidA kidA dekA manA)
    as (T1 & _ & Hco1 & HA);
    [apply coherent_fresh, tag_kek_faithful|discriminate|apply from_ok_pair; vm_compute; reflexivity|].
  destruct (active_dek_coherent T1 manA "tenant-b" dekB kidB kidB dekB manAB)
    as (T2 & Hsub & Hco2 & HB);
    [exact Hco1|discriminate|apply from_ok_pair; vm_compute; reflexivity|].
  exists T2. split; [exact Hco2|]. split; [exact (lookup_weaken _ _ _ _ HA Hsub)|exact HB].
Qed.

Lemma failed_rewrap_is_recoverable_witness :
  ∃ m2, dek_for_key_id (rewrap_all manAB kek_bad).1 kidB = Ok (dekB, m2).
Proof.
  destruct manAB_coherent as (T & Hco & _ & HB).
  refine (proj1 (failed_rewrap_is_recoverable T manAB kek_bad (rewrap_all manAB kek_bad).1 KekError
    Hco (failing_kek_faithful _ _ _) _) kidB dekB HB).
  apply pair_eta_r. vm_compute. reflexivity.
Defined.

Definition rotated_record : DekRecord :=
  Rec "tenant-a" (replicate 16 Byte.xa1) (Byte.x01 :: dekB) "kek-1" "local" Active.

Definition rotated_store : SqlDekStore :=
  from_ok ∅ (sql_rotate (m_store manAB) "tenant-a" rotated_record).

Lemma rotation_swaps_the_active_dek_witness :
  sql_get_active rotated_store "tenant-a" = Some rotated_record.
Proof.
  refine (proj1 (proj2 (rotation_swaps_the_active_dek (m_store manAB) "tenant-a" rotated_record
    rotated_store _ eq_refl eq_refl _))).
  - intros k1 k2 r1 r2. rewrite <-!elem_of_map_to_list.
    assert (map_to_list (m_store manAB) =
      [(kidB, Row "tenant-b" (Byte.x01 :: dekB) "kek-1" "local" Active);
       (kidA, Row "tenant-a" (Byte.x01 :: dekA) "kek-1" "local" Active)]) as ->
      by (vm_compute; reflexivity).
    rewrite !elem_of_cons, !elem_of_nil. intros H1 H2 _ _ Ht.
    destruct H1 as [[= -> ->]|[[= -> ->]|[]]], H2 as [[= -> ->]|[[= -> ->]|[]]];
      (reflexivity || discriminate Ht).
  - apply is_ok_from. vm_compute. reflexivity.
Defined.
End ToyKek.
