(* ===== verification/CryptoRuntime.v ===== *)
(** * The encryption hook of the storage layer

    Model of [src/shared/crypto/runtime.py], the process-global hook every
    object-store read and write goes through. It composes the envelope ([Envelope.v]) with
    the DEK manager ([Dek.v]); the end-to-end guarantee, that a blob sealed today
    opens after any later rotation, re-wrap or restart, is proved here against
    the store interface. *)

From S2P Require Import Prelude.
From S2P Require Import Framer.
From S2P Require Import Envelope.
From S2P Require Import Dek.
Local Open Scope nat_scope.

Inductive runtime_err :=
  | NoManager
  | DekFailed (e : dek_err)
  | SealFailed (e : env_err)
  | OpenFailed (e : cipher_err).

(** The random draws of one write: a DEK and key id should one be minted, the
    envelope's salt and the frame's nonce prefix. *)
Record draws := Draws {
  d_dek : bytes; d_kid : bytes; d_salt : bytes; d_pfx : bytes;
}.

Definition draws_ok (r : draws) : Prop :=
  length (d_dek r) = 32 ∧ length (d_kid r) = KEY_ID_LEN ∧
  length (d_salt r) = SALT_LEN ∧ length (d_pfx r) = 8.

Record runtime (S : Type) := Runtime {
  rt_manager : option (DekManager S);
  rt_write_enabled : bool;
  rt_verify_readback : bool;
}.
Global Arguments Runtime {S}.
Global Arguments rt_manager {S}.
Global Arguments rt_write_enabled {S}.
Global Arguments rt_verify_readback {S}.

(** [_rechunk]: [while len(buf) >= chunk_size: yield ...] on the buffer. *)
Fixpoint rechunk_buf {E} (fuel cs : nat) (buf : bytes) : gen E bytes :=
  match fuel with
  | O => mret buf
  | S fuel =>
    if cs <=? length buf then
      _ ← yield (take cs buf);
      rechunk_buf fuel cs (drop cs buf)
    else mret buf
  end.

(** The re-chunker over the output of another generator: it forwards what that
    generator yields and, when it ends, flushes the tail; if it raises, so does
    the re-chunker, and the buffered tail is lost. *)
Fixpoint rechunk_pieces {E} (cs : nat) (pieces : list bytes) (buf : bytes) : gen E bytes :=
  match pieces with
  | [] => mret buf
  | p :: pieces =>
    buf ← rechunk_buf (length (buf ++ p)) cs (buf ++ p);
    rechunk_pieces cs pieces buf
  end.

Definition rechunk {E} (cs : nat) (src : gen E unit) : gen E unit :=
  match src with
  | Gen pieces r =>
    buf ← rechunk_pieces cs pieces [];
    _ ← lift r;
    match buf with [] => mret tt | _ => yield buf end
  end.

Section runtime_ops.
  Context `{Aead} `{Kdf} {S : Type} `{DekStore S}.
  Implicit Types rt : runtime S.

Definition configure (m : option (DekManager S)) (write_enabled verify : bool) : runtime S :=
  Runtime m write_enabled verify.

Definition is_write_enabled rt : bool :=
  rt_write_enabled rt && bool_decide (is_Some (rt_manager rt)).

Definition with_manager rt (m : DekManager S) : runtime S :=
  Runtime (Some m) (rt_write_enabled rt) (rt_verify_readback rt).

Definition maybe_encrypt rt (content : bytes) (tenant_id : option tenant) (r : draws)
    : result runtime_err (bytes * bool * runtime S) :=
  match is_write_enabled rt, rt_manager rt, tenant_id with
  | true, Some m, Some t =>
    '(kid, dek, m') ← map_err DekFailed (active_dek m t (d_dek r) (d_kid r));
    data ← map_err SealFailed (seal (d_salt r) (d_pfx r) content dek kid);
    Ok (data, true, with_manager rt m')
  | _, _, _ => Ok (content, false, rt)
  end.

Definition maybe_decrypt rt (data : option bytes)
    : result runtime_err (option bytes * runtime S) :=
  match data with
  | None => Ok (None, rt)
  | Some data =>
    if negb (env_is_encrypted data) then Ok (Some data, rt)
    else match rt_manager rt with
         | None => Err NoManager
         | Some m =>
           kid ← map_err (OpenFailed ∘ Cipher) (read_key_id data);
           '(dek, m') ← map_err DekFailed (dek_for_key_id m kid);
           p ← map_err OpenFailed (open_blob data (Some dek));
           Ok (Some p, with_manager rt m')
         end
  end.

(** [maybe_encrypt_stream]: the stream to store and whether it is sealed. *)
Definition maybe_encrypt_stream rt (plaintext : list bytes) (tenant_id : option tenant)
    (r : draws) (chunk_size : Z) : result runtime_err (gen env_err unit * bool * runtime S) :=
  match is_write_enabled rt, rt_manager rt, tenant_id with
  | true, Some m, Some t =>
    '(kid, dek, m') ← map_err DekFailed (active_dek m t (d_dek r) (d_kid r));
    Ok (env_encrypt_stream (d_salt r) (d_pfx r) plaintext dek kid chunk_size, true,
        with_manager rt m')
  | _, _, _ => Ok (Gen plaintext (Ok tt), false, rt)
  end.

(** The DEK lookup the envelope's [resolve] callback performs, and the cache it
    leaves behind. *)
Definition resolve_with (m : DekManager S) (kid : bytes) : option bytes :=
  match dek_for_key_id m kid with Ok (dek, _) => Some dek | Err _ => None end.

Definition after_resolve (m : DekManager S) (kid : bytes) : DekManager S :=
  match dek_for_key_id m kid with Ok (_, m') => m' | Err _ => m end.

Definition runtime_decrypt_stream rt (raw : list bytes) (chunk_size : nat)
    : gen runtime_err unit * runtime S :=
  let '(_, head, rest) := fill ENV_HEADER_LEN [] raw in
  let restream := frame_pieces head rest in
  if negb (env_is_encrypted head) then (rechunk chunk_size (Gen restream (Ok tt)), rt)
  else match rt_manager rt with
       | None => (throw NoManager, rt)
       | Some m =>
         (rechunk chunk_size
            (gen_map_err SealFailed (env_decrypt_stream restream (resolve_with m))),
          with_manager rt (after_resolve m (slice 5 (5 + KEY_ID_LEN) head)))
       end.

End runtime_ops.

(** ** Re-chunking *)
Lemma rechunk_buf_spec {E} fuel cs buf (out : list bytes) r :
  0 < cs → length buf ≤ fuel → @rechunk_buf E fuel cs buf = Gen out r →
  ∃ rest, r = Ok rest ∧ concat out ++ rest = buf ∧ length rest < cs ∧
          Forall (λ c, length c = cs) out.
Proof.
  intros Hcs. revert buf out r. induction fuel as [|fuel IH]; intros buf out r Hl; simpl.
  { intros [= <- <-]. exists buf. destruct buf; simpl in *; [|lia]. split_and!; done. }
  destruct (cs <=? length buf) eqn:Hle; bools.
  2:{ intros [= <- <-]. exists buf. split_and!; [done..|constructor]. }
  destruct (rechunk_buf fuel cs (drop cs buf)) as [o r'] eqn:Hrec. simpl. intros [= <- <-].
  apply IH in Hrec as (rest & -> & Hcat & Hlt & Hall); [|rewrite length_drop; lia].
  exists rest. split_and!; [done| |done|].
  - simpl. by rewrite <-(assoc_L (++)), Hcat, take_drop.
  - constructor; [rewrite length_take; lia|done].
Qed.

Lemma rechunk_pieces_spec {E} cs pieces buf (out : list bytes) r :
  0 < cs → length buf < cs → @rechunk_pieces E cs pieces buf = Gen out r →
  ∃ rest, r = Ok rest ∧ concat out ++ rest = buf ++ concat pieces ∧ length rest < cs ∧
          Forall (λ c, length c = cs) out.
Proof.
  intros Hcs. revert buf out r. induction pieces as [|p pieces IH]; intros buf out r Hl; simpl.
  { intros [= <- <-]. exists buf. rewrite app_nil_r. split_and!; [done..|constructor]. }
  destruct (rechunk_buf _ _ _) as [o1 r1] eqn:H1.
  apply rechunk_buf_spec in H1 as (b & -> & Hcat & Hlt & Hall); [|done..]. simpl.
  destruct (rechunk_pieces cs pieces b) as [o2 r2] eqn:H2. intros [= <- <-].
  apply IH in H2 as (rest & -> & Hcat2 & Hlt2 & Hall2); [|done].
  exists rest. rewrite concat_app, <-(assoc_L (++)), Hcat2, (assoc_L (++)), Hcat, <-(assoc_L (++)).
  split_and!; [done..|by apply Forall_app].
Qed.

(** Re-chunking a generator that ends keeps its bytes and bounds the pieces. *)
Lemma rechunk_ok {E} cs (pieces : list bytes) :
  0 < cs → ∃ out, rechunk cs (Gen pieces (@Ok E unit tt)) = Gen out (Ok tt) ∧
    concat out = concat pieces ∧ Forall (λ c, 0 < length c ≤ cs) out.
Proof.
  intros Hcs. unfold rechunk. destruct (rechunk_pieces cs pieces []) as [o r] eqn:Hr.
  apply rechunk_pieces_spec in Hr as (rest & -> & Hcat & Hlt & Hall); [|done|simpl; lia].
  assert (Forall (λ c : bytes, 0 < length c ≤ cs) o) as Ho
    by (eapply Forall_impl; [exact Hall|simpl; lia]).
  simpl in *. destruct rest as [|b rest]; simpl.
  - exists o. rewrite app_nil_r in *. done.
  - exists (o ++ [b :: rest]). rewrite concat_app; simpl. rewrite app_nil_r.
    split_and!; [done|done|]. apply Forall_app. split; [done|]. constructor; [simpl in *; lia|done].
Qed.

(** ** End to end *)
Section end_to_end.
  Context `{AeadLaws} `{KdfLaws} {S : Type} `{DekStoreLaws S}.
  Implicit Types rt : runtime S.

Lemma maybe_encrypt_inv rt content t r data rt1 :
  maybe_encrypt rt content t r = Ok (data, true, rt1) →
  ∃ m tn kid dek m1, rt_manager rt = Some m ∧ t = Some tn ∧
    active_dek m tn (d_dek r) (d_kid r) = Ok (kid, dek, m1) ∧
    seal (d_salt r) (d_pfx r) content dek kid = Ok data ∧ rt1 = with_manager rt m1.
Proof.
  unfold maybe_encrypt. destruct (is_write_enabled rt), (rt_manager rt) as [m|], t as [tn|];
    try done. intros He. inv_ok. destruct x as [[kid dek] m1]. inv_ok. simplify_eq. eauto 12.
Qed.

(** Reading, in any later state of the manager, what the hook sealed. *)
Lemma sealed_reads_later T rt m content t r data rt1 m1 rt2 m2 :
  rt_manager rt = Some m → coherent T m → draws_ok r →
  maybe_encrypt rt content t r = Ok (data, true, rt1) →
  rt_manager rt1 = Some m1 → rtc mstep m1 m2 → rt_manager rt2 = Some m2 →
  env_is_encrypted data = true ∧
  ∃ rt3, maybe_decrypt rt2 (Some data) = Ok (Some content, rt3).
Proof.
  intros Hm Hco (Hd & Hk & Hs & Hp) He Hm1 Hsteps Hm2.
  apply maybe_encrypt_inv in He as (m0 & tn & kid & dek & m1' & Hm' & -> & Ha & Hseal & ->).
  simplify_eq. simpl in Hm1. simplify_eq.
  destruct (dek_stable T m tn (d_dek r) (d_kid r) kid dek m1 m2) as [m3 Hdek]; [done..|].
  destruct (encrypt_blob_opens _ _ _ _ _ _ _ Hs Hp Hseal) as (Henc & Hkid & Hdec).
  split; [done|]. unfold maybe_decrypt, open_blob. rewrite Henc, Hkid, Hm2. mred.
  rewrite Hdek. mred. rewrite Hdec. mred. eauto.
Qed.

(** C13: A blob sealed through the write hook opens to its content through the
    read hook after any later history of the DEK manager: first uses by other
    tenants, key lookups, DEK rotations, completed KEK re-wraps and process
    restarts, whether or not encryption of new writes has been switched off. *)
Theorem sealed_blob_opens_forever T rt m content t r data rt1 m1 m2 write verify :
  rt_manager rt = Some m → coherent T m → draws_ok r →
  maybe_encrypt rt content t r = Ok (data, true, rt1) →
  rt_manager rt1 = Some m1 → rtc mstep m1 m2 →
  ∃ rt3, maybe_decrypt (configure (Some m2) write verify) (Some data)
         = Ok (Some content, rt3).
Proof.
  intros Hm Hco Hr He Hm1 Hs.
  apply (sealed_reads_later T rt m content t r data rt1 m1
    (configure (Some m2) write verify) m2 Hm Hco Hr He Hm1 Hs eq_refl).
Qed.

(** What the write hook sealed, the streaming read hook returns in non-empty
    pieces of at most the requested size, whatever the pieces the object store
    delivers it in, after any later history of the DEK manager. *)
Theorem streaming_read_returns_content T rt m content t r data rt1 m1 m2 write verify raw cs :
  rt_manager rt = Some m → coherent T m → draws_ok r →
  maybe_encrypt rt content t r = Ok (data, true, rt1) →
  rt_manager rt1 = Some m1 → rtc mstep m1 m2 → concat raw = data → 0 < cs →
  ∃ out, (runtime_decrypt_stream (configure (Some m2) write verify) raw cs).1 = Gen out (Ok tt) ∧
    concat out = content ∧ Forall (λ c, 0 < length c ≤ cs) out.
Proof.
  intros Hm Hco (Hd & Hk & Hs & Hp) He Hm1 Hsteps Hraw Hcs.
  apply maybe_encrypt_inv in He as (m0 & tn & kid & dek & m1' & Hm' & -> & Ha & Hseal & ->).
  simplify_eq. simpl in Hm1. simplify_eq.
  destruct (dek_stable T m tn (d_dek r) (d_kid r) kid dek m1 m2) as [m3 Hdek]; [done..|].
  destruct (encrypt_blob_opens _ _ _ _ _ _ _ Hs Hp Hseal) as (Henc & Hkid & Hdec).
  pose proof (env_is_encrypted_long _ Henc) as Hlong.
  unfold runtime_decrypt_stream.
  destruct (fill_true ENV_HEADER_LEN [] raw) as (head & rest & Hf & Hcat & Hlh);
    [simpl; by subst|]. rewrite Hf. simpl in Hcat.
  assert (env_is_encrypted head = true) as Hh
    by (by rewrite <-(env_is_encrypted_app _ (concat rest)), Hcat by lia).
  rewrite Hh. cbn [negb]. unfold configure at 1. cbn [rt_manager fst].
  destruct (env_decrypt_stream_spec (frame_pieces head rest) (resolve_with m2) content)
    as [_ [out [Hout Hcontent]]].
  { exists (concat raw), [], kid, dek. rewrite concat_frame_pieces, Hcat, app_nil_r.
    split_and!; [done|simpl; lia|done| |done]. unfold resolve_with. by rewrite Hdek. }
  rewrite Hout. simpl gen_map_err.
  destruct (rechunk_ok (E:=runtime_err) cs out Hcs) as (out' & Hre & Hcat' & Hall).
  exists out'. rewrite Hre, Hcat'. done.
Qed.
End end_to_end.

(** ** Examples *)
Module ToyRuntime.
Import ToyAead ToyKdf ToyKek.

Definition rt0 : runtime SqlDekStore := configure (Some fresh) true true.
Definition draws0 : draws := Draws dekA kidA salt0 pfx0.

Lemma draws0_ok : draws_ok draws0.
Proof. repeat split. Qed.

Definition written : result runtime_err (bytes * bool * runtime SqlDekStore) :=
  maybe_encrypt rt0 msg0 (Some "tenant-a") draws0.
Definition stored0 : bytes := (from_ok ([], false, rt0) written).1.1.
Definition rt1 : runtime SqlDekStore := (from_ok ([], false, rt0) written).2.
Definition m1 : DekManager SqlDekStore := default fresh (rt_manager rt1).
(** A later state: the tenant's DEK rotated, the KEK re-wrapped, the process restarted. *)
Definition m2 : DekManager SqlDekStore :=
  (from_ok ([], m1) (rotate_dek m1 "tenant-a" dekB kidB)).2.
Definition m3 : DekManager SqlDekStore := (rewrap_all m2 kek2).1.
Definition m4 : DekManager SqlDekStore := restart (m_kek m3) (m_store m3).

Lemma written_ok : maybe_encrypt rt0 msg0 (Some "tenant-a") draws0 = Ok (stored0, true, rt1).
Proof. apply from_ok_pair. vm_compute. reflexivity. Qed.

Lemma rt1_manager : rt_manager rt1 = Some m1.
Proof. apply is_Some_default. vm_compute. reflexivity. Qed.

Lemma history : rtc mstep m1 m4.
Proof.
  apply (rtc_l _ _ m2).
  { apply (mstep_rotate m1 "tenant-a" dekB kidB kidB); [reflexivity|].
    apply from_ok_pair. vm_compute. reflexivity. }
  apply (rtc_l _ _ m3).
  { apply (mstep_rewrap m2 kek2 m3 2); [apply tag_kek_faithful|].
    apply pair_eta_r. vm_compute. reflexivity. }
  apply rtc_once, mstep_restart.
Qed.

Lemma sealed_blob_opens_forever_witness :
  ∃ rt3, maybe_decrypt (configure (Some m4) false true) (Some stored0) = Ok (Some msg0, rt3).
Proof.
  exact (sealed_blob_opens_forever ∅ rt0 fresh msg0 (Some "tenant-a") draws0 stored0 rt1 m1 m4
    false true eq_refl (coherent_fresh _ (tag_kek_faithful _ _)) draws0_ok written_ok rt1_manager
    history).
Defined.

Lemma streaming_read_returns_content_witness :
  ∃ out, (runtime_decrypt_stream (configure (Some m4) false true)
            [take 7 stored0; []; drop 7 stored0] 3).1 = Gen out (Ok tt) ∧
    concat out = msg0 ∧ Forall (λ c, 0 < length c ≤ 3) out.
Proof.
  refine (streaming_read_returns_content ∅ rt0 fresh msg0 (Some "tenant-a") draws0 stored0 rt1 m1
    m4 false true _ 3 eq_refl (coherent_fresh _ (tag_kek_faithful _ _)) draws0_ok written_ok
    rt1_manager history _ _).
  - cbn [concat app]. rewrite app_nil_r. apply take_drop.
  - repeat constructor.
Defined.
End ToyRuntime.
