(* ===== verification/ObjectStore.v ===== *)
(** * The encrypting object store

    Model of the single-shot paths of [src/shared/storage/seaweedfs.py]
    ([shard_for], [_bucket], [_key], [upload], [download], [head_is_encrypted],
    [delete]) and of the plaintext backfill of [src/shared/crypto/migrate.py].

    The S3 service is a map from bucket and key to bytes. [answers] says how it behaves while a
    request of the store is served: what it really keeps of a body, which of the requests it
    answers and which raise a [ClientError], and whether the delete takes effect, so that a faulty
    backend is part of the model. [md5] is the digest [shard_for] shards by. *)

From S2P Require Import Prelude.
From S2P Require Import Framer.
From S2P Require Import Envelope.
From S2P Require Import Dek.
From S2P Require Import CryptoRuntime.
Local Open Scope nat_scope.

Inductive store_err :=
  | CryptoFailed (e : runtime_err)
  | VerifyFailed                     (** [BackendUnreachableError(... verify failed)] *)
  | Unreachable                      (** [BackendUnreachableError] of a [ClientError] *)
  | NoBuckets.

Record SeaweedStore := Seaweed {
  sw_buckets : list string;
  sw_forced : option string;
  sw_tenant : option tenant;
}.

(** How the service serves one upload. *)
Record answers := Answers {
  a_kept : bytes → option bytes;     (** what it keeps of the body put; [None]: the object stays as it was *)
  a_put : bool;                      (** [put_object] returns *)
  a_head : bool;                     (** [head_object] returns *)
  a_get : bool;                      (** the [get_object] of the read-back returns *)
  a_deleted : bool;                  (** the best-effort delete takes effect; its exceptions are swallowed *)
}.
Definition honest_service : answers := Answers Some true true true true.

Abbreviation objects := (gmap (string * string) bytes).

(** Python's [x or y] on an optional string. *)
Definition or_str (x : option string) (y : string) : string :=
  match x with Some s => if bool_decide (s = "") then y else s | None => y end.

Definition is_catalogue (container : string) : bool :=
  String.prefix "chat-catalogue-" container.

Definition bucket_of (st : SeaweedStore) (container : string) : string :=
  if is_catalogue container then container
  else or_str (sw_forced st) (match sw_buckets st with b :: _ => b | [] => container end).

Definition key_of (st : SeaweedStore) (container path : string) : string :=
  if bool_decide (or_str (sw_forced st) "" ≠ "") && bool_decide (container ≠ "")
     && negb (is_catalogue container)
  then container +:+ "/" +:+ path else path.

Definition loc (st : SeaweedStore) (container path : string) : string * string :=
  (bucket_of st container, key_of st container path).

Definition shard_for (md5 : string → N) (st : SeaweedStore) (t resource : string)
    : result store_err SeaweedStore :=
  match sw_buckets st with
  | [] => Err NoBuckets
  | b :: _ =>
    let h := md5 (t +:+ ":" +:+ resource) in
    let chosen := default b (sw_buckets st !! N.to_nat (h `mod` N.of_nat (length (sw_buckets st)))) in
    Ok (Seaweed [chosen] (Some chosen) (Some t))
  end.

Section store_ops.
  Context `{Aead} `{Kdf} {S : Type} `{DekStore S}.
  Implicit Types (rt : runtime S) (o : objects).

Definition head_is_encrypted (st : SeaweedStore) o (container path : string) : bool :=
  match o !! loc st container path with
  | None => false
  | Some data => bool_decide (take 4 data = ENV_MAGIC)
  end.

(** [download]; [ok]: the service answers, a missing object included. *)
Definition download (ok : bool) rt (st : SeaweedStore) o (container path : string)
    : result store_err (option bytes * runtime S) :=
  if ok then map_err CryptoFailed (maybe_decrypt rt (o !! loc st container path)) else Err Unreachable.

(** [tenant_id or self._tenant_id] *)
Definition tenant_for (st : SeaweedStore) (tenant_id : option tenant) : option tenant :=
  match tenant_id with
  | Some t => if bool_decide (t = "") then sw_tenant st else Some t
  | None => sw_tenant st
  end.

(** [upload]: the objects and hook afterwards, whatever the outcome. *)
Definition upload (a : answers) rt (st : SeaweedStore) o (container path : string)
    (content : bytes) (tenant_id : option tenant) (r : draws)
    : objects * runtime S * result store_err unit :=
  match maybe_encrypt rt content (tenant_for st tenant_id) r with
  | Err e => (o, rt, Err (CryptoFailed e))
  | Ok (stored, encrypted, rt1) =>
    let o1 := match a_kept a stored with Some data => <[loc st container path := data]> o | None => o end in
    if negb (a_put a && a_head a) then (o1, rt1, Err Unreachable)
    else if encrypted && rt_verify_readback rt1 then
      match download (a_get a) rt1 st o1 container path with
      | Err e => (o1, rt1, Err e)
      | Ok (readback, rt2) =>
        if bool_decide (readback = Some content) then (o1, rt2, Ok tt)
        else (if a_deleted a then delete (loc st container path) o1 else o1, rt2, Err VerifyFailed)
      end
    else (o1, rt1, Ok tt)
  end.

(** ** migrate.py *)
Inductive reencrypt_result := Skipped | Missing | Encrypted | UploadFailed (e : store_err).

(** [probe] and [first]: the service answers the ranged read and the download before the upload. *)
Definition reencrypt_blob (probe first : bool) (a : answers) rt (st : SeaweedStore) o
    (container path : string) (t : tenant) (r : draws)
    : objects * runtime S * reencrypt_result :=
  if negb probe then (o, rt, UploadFailed Unreachable)
  else if head_is_encrypted st o container path then (o, rt, Skipped)
  else match download first rt st o container path with
       | Err e => (o, rt, UploadFailed e)
       | Ok (None, rt1) => (o, rt1, Missing)
       | Ok (Some plaintext, rt1) =>
         match upload a rt1 st o container path plaintext (Some t) r with
         | (o2, rt2, Ok _) => (o2, rt2, Encrypted)
         | (o2, rt2, Err e) => (o2, rt2, UploadFailed e)
         end
       end.

End store_ops.

(** ** Theorems *)
Section store_theorems.
  Context `{Aead} `{Kdf} {S : Type} `{DekStore S}.
  Implicit Types (rt : runtime S) (o : objects).

(** A manager that has just resolved a key id resolves it again, to the same
    DEK, without a store access. *)
Lemma dek_for_key_id_again (m : DekManager S) kid dek m' :
  dek_for_key_id m kid = Ok (dek, m') → dek_for_key_id m' kid = Ok (dek, m').
Proof.
  unfold dek_for_key_id. destruct (m_by_kid m !! kid) as [d|] eqn:Hk.
  - intros [= -> ->]. by rewrite Hk.
  - destruct (get_by_key_id (m_store m) kid) as [rec|]; [|done].
    intros Hu. inv_ok. simplify_eq. simpl. by rewrite lookup_insert_eq.
Qed.

(** Reading is repeatable. *)
Lemma maybe_decrypt_again rt data p rt' :
  maybe_decrypt rt data = Ok (p, rt') → maybe_decrypt rt' data = Ok (p, rt').
Proof.
  unfold maybe_decrypt. destruct data as [data|]; [|by intros [= <- <-]].
  destruct (env_is_encrypted data); cbn [negb]; [|by intros [= <- <-]].
  destruct (rt_manager rt) as [m|]; [|done]. intros Hd. inv_ok.
  destruct x0 as [dek m']. inv_ok. simplify_eq. cbn [with_manager rt_manager].
  match goal with H : read_key_id data = _ |- _ => rewrite H end. mred.
  match goal with H : dek_for_key_id m _ = _ |- _ =>
    rewrite (dek_for_key_id_again _ _ _ _ H) end. mred.
  match goal with H : open_blob data _ = _ |- _ => rewrite H end. done.
Qed.

(** The hook seals exactly when writes are enabled and a tenant is known. *)
Lemma maybe_encrypt_flag rt content t r stored enc rt' :
  maybe_encrypt rt content t r = Ok (stored, enc, rt') →
  enc = is_write_enabled rt && bool_decide (is_Some t) ∧
  rt_verify_readback rt' = rt_verify_readback rt ∧ rt_write_enabled rt' = rt_write_enabled rt.
Proof.
  unfold maybe_encrypt, is_write_enabled.
  destruct (rt_write_enabled rt) eqn:Hw, (rt_manager rt) as [m|] eqn:Hm, t as [t|]; simpl;
    intros He; try (injection He as <- <- <-; rewrite ?Hw; done).
  inv_ok. destruct x as [[kid dek] m']. inv_ok. simplify_eq. simpl. by rewrite Hw.
Qed.

(** C16: Write-then-verify: whatever the object service really keeps of a body, and whichever of its
    requests fail, an upload that returns with encryption on and read-back
    verification on left an object that downloads to the very content. When the read-back differs
    from the content the upload fails, and leaves no object when the delete that follows takes effect (it is
    best effort); on every failure the object there is the one before the call or what the service kept of
    the sealed body. Other objects are untouched. *)
Theorem verified_upload_is_recoverable a rt st o container path content tenant_id r o' rt' res :
  upload a rt st o container path content tenant_id r = (o', rt', res) →
  is_write_enabled rt = true → is_Some (tenant_for st tenant_id) →
  rt_verify_readback rt = true →
  (res = Ok tt → a_put a = true ∧ a_get a = true ∧ download true rt' st o' container path = Ok (Some content, rt')) ∧
  (res = Err VerifyFailed → a_deleted a = true → o' !! loc st container path = None) ∧
  (∀ data, o' !! loc st container path = Some data → o !! loc st container path = Some data ∨
     ∃ stored rt1, maybe_encrypt rt content (tenant_for st tenant_id) r = Ok (stored, true, rt1) ∧ a_kept a stored = Some data) ∧
  (∀ l, l ≠ loc st container path → o' !! l = o !! l).
Proof.
  unfold upload. intros Hup Hw Ht Hv.
  destruct (maybe_encrypt rt content _ r) as [[[stored enc] rt1]|e] eqn:He;
    [|simplify_eq; split_and!; naive_solver].
  apply maybe_encrypt_flag in He as (-> & Hv1 & _).
  assert (is_write_enabled rt && bool_decide (is_Some (tenant_for st tenant_id)) = true) as Henc
    by by rewrite Hw, bool_decide_eq_true_2.
  rewrite Henc, Hv1, Hv in Hup. rewrite Henc. cbn [andb] in Hup.
  set (l0 := loc st container path) in *.
  set (o1 := match a_kept a stored with Some data => <[l0 := data]> o | None => o end) in *.
  assert (∀ l, l ≠ l0 → o1 !! l = o !! l) as Hframe.
  { intros l Hl. unfold o1. destruct (a_kept a stored); [by rewrite lookup_insert_ne|done]. }
  assert (∀ data, o1 !! l0 = Some data → o !! l0 = Some data ∨ a_kept a stored = Some data) as Hkept.
  { intros data. unfold o1. destruct (a_kept a stored) eqn:Ek; [|auto]. rewrite lookup_insert_eq. auto. }
  assert (∀ data, o1 !! l0 = Some data → o !! l0 = Some data ∨
     ∃ stored' rt1', (Ok (stored, true, rt1) : result runtime_err _) = Ok (stored', true, rt1') ∧ a_kept a stored' = Some data) as Hleft.
  { intros data [?|?]%Hkept; [by left|right; eauto]. }
  clearbody o1. destruct (negb _) eqn:Eput; [simplify_eq; by split_and!|]. bools.
  destruct (download (a_get a) rt1 st o1 container path) as [[rb rt2]|e] eqn:Hd.
  - destruct (a_get a); [|done]. case_bool_decide as Hrb; simplify_eq.
    + split_and!; [|done|done|done]. intros _. unfold download in *. inv_ok. by rewrite (maybe_decrypt_again _ _ _ _ Hd).
    + split_and!; [done| | |].
      * intros _ ->. apply lookup_delete_eq.
      * intros data. destruct (a_deleted a); [by rewrite lookup_delete_eq|apply Hleft].
      * intros l Hl. destruct (a_deleted a); [rewrite lookup_delete_ne by done|]; by apply Hframe.
  - simplify_eq. split_and!; [done| |done|done].
    intros [= ->]. unfold download in Hd. destruct (a_get a); [|done]. by destruct (maybe_decrypt _ _).
Qed.

(** The backfill's failure mode: [reencrypt_blob] uploads over the plaintext
    it is encrypting, so when the read-back of the new ciphertext does not match,
    the verification's clean-up deletes the object and the plaintext, readable
    before the call, is gone. *)
Theorem failed_reencrypt_destroys_plaintext a rt st o container path t r o' rt' plain rt0 :
  download true rt st o container path = Ok (Some plain, rt0) → a_deleted a = true →
  reencrypt_blob true true a rt st o container path t r = (o', rt', UploadFailed VerifyFailed) →
  o' !! loc st container path = None ∧
  download true rt' st o' container path = Ok (None, rt').
Proof.
  intros Hd Hdel. unfold reencrypt_blob. cbn [negb]. destruct (head_is_encrypted _ _ _ _); [done|].
  rewrite Hd. destruct (upload _ _ _ _ _ _ _ _ _) as [[o2 rt2] [?|e]] eqn:Hup; [done|].
  intros [= <- <- ->].
  assert (o2 !! loc st container path = None) as Hn.
  { unfold upload in Hup. destruct (maybe_encrypt _ _ _ _) as [[[stored enc] rt1]|e]; [|done].
    set (o1 := match a_kept a stored with Some data => _ | None => o end) in *. clearbody o1.
    destruct (negb _); [done|]. destruct (enc && _); [|done].
    destruct (download _ rt1 st _ container path) as [[rb rt3]|e] eqn:Hd2.
    - case_bool_decide; [done|]. rewrite Hdel in Hup. simplify_eq. apply lookup_delete_eq.
    - exfalso. simplify_eq. unfold download in Hd2. destruct (a_get a); [|done]. by destruct (maybe_decrypt _ _). }
  split; [done|]. unfold download. by rewrite Hn.
Qed.

(** The backfill's skip test looks at four bytes, the read path at the whole
    header. *)
Lemma head_test_is_weaker st o container path data :
  o !! loc st container path = Some data → env_is_encrypted data = true →
  head_is_encrypted st o container path = true.
Proof.
  intros Ho He. unfold head_is_encrypted. rewrite Ho. unfold env_is_encrypted in He. bools.
  by apply bool_decide_eq_true_2.
Qed.
End store_theorems.

Section honest_store.
  Context `{AeadLaws} `{KdfLaws} {S : Type} `{DekStoreLaws S}.
  Implicit Types (rt : runtime S) (o : objects).

(** Over a service that keeps what it is given, the backfill encrypts a
    plaintext blob in place without changing what it reads as: afterwards the
    stored bytes are an envelope, they download to the same content, and running
    the backfill again skips the blob and changes nothing. *)
Theorem reencrypt_preserves_content T rt m st o container path t r o' rt' plain rt0 :
  rt_manager rt = Some m → coherent T m → draws_ok r → t ≠ "" →
  is_write_enabled rt = true →
  download true rt st o container path = Ok (Some plain, rt0) →
  reencrypt_blob true true honest_service rt st o container path t r = (o', rt', Encrypted) →
  (∃ data, o' !! loc st container path = Some data ∧ env_is_encrypted data = true) ∧
  (∃ rt2, download true rt' st o' container path = Ok (Some plain, rt2)) ∧
  reencrypt_blob true true honest_service rt' st o' container path t r = (o', rt', Skipped).
Proof.
  intros Hm Hco Hr Ht Hw Hd Hre. unfold reencrypt_blob in Hre. cbn [negb] in Hre.
  destruct (head_is_encrypted st o container path) eqn:Hhead; [done|].
  rewrite Hd in Hre.
  assert (rt0 = rt) as ->.
  { unfold download in Hd. inv_ok. destruct (o !! _) as [d|] eqn:Ho; [|done].
    simpl in Hd. destruct (env_is_encrypted d) eqn:He; [|by simplify_eq/=].
    by rewrite (head_test_is_weaker _ _ _ _ d) in Hhead. }
  destruct (upload _ _ _ _ _ _ _ _ _) as [[o2 rt2] [[]|e]] eqn:Hup; [|done].
  simplify_eq. unfold upload in Hup. simpl tenant_for in Hup.
  rewrite (bool_decide_eq_false_2 _ Ht) in Hup.
  destruct (maybe_encrypt rt plain (Some t) r) as [[[data enc] rt1]|e] eqn:He; [|done].
  pose proof (maybe_encrypt_flag _ _ _ _ _ _ _ He) as (Henc & _).
  rewrite Hw, (bool_decide_eq_true_2 _ (mk_is_Some _ _ eq_refl)) in Henc. cbn [andb] in Henc.
  subst enc. cbn [a_kept a_put a_head a_get honest_service andb negb] in Hup.
  pose proof (maybe_encrypt_inv _ _ _ _ _ _ He) as (_ & _ & _ & _ & m1 & _ & _ & _ & _ & Hrt1).
  destruct (sealed_reads_later T rt m plain (Some t) r data rt1 m1 rt1 m1) as [Hsealed [rt3 Hread]];
    [done..|by subst|done|by subst|].
  assert (o' = <[loc st container path:=data]> o ∧ (rt' = rt1 ∨ rt' = rt3)) as [-> Hrt'].
  { destruct (rt_verify_readback rt1); [|simplify_eq; auto].
    unfold download in Hup. rewrite lookup_insert_eq, Hread in Hup. cbn [map_err] in Hup.
    case_bool_decide; simplify_eq; auto. }
  assert (head_is_encrypted st (<[loc st container path:=data]> o) container path = true) as Hh2
    by (eapply head_test_is_weaker; [apply lookup_insert_eq|done]).
  split_and!; [exists data; by rewrite lookup_insert_eq| |by unfold reencrypt_blob; rewrite Hh2].
  unfold download. rewrite lookup_insert_eq.
  destruct Hrt' as [->| ->]; [rewrite Hread|rewrite (maybe_decrypt_again _ _ _ _ Hread)]; mred; eauto.
Qed.
End honest_store.

(** ** Examples *)
Module ToyStore.
Import ToyAead ToyKdf ToyKek ToyRuntime.

Definition st0 : SeaweedStore := Seaweed ["shard-1"] (Some "shard-1") (Some "tenant-a").
Definition legacy : objects := <[loc st0 "mail" "m1" := msg0]> ∅.

(** A service that acknowledges the body and keeps an empty object. *)
Definition lossy : answers := Answers (λ _, Some []) true true true true.

Definition up0 := upload honest_service rt0 st0 legacy "mail" "m2" msg0 None draws0.
Definition re_ok := reencrypt_blob true true honest_service rt0 st0 legacy "mail" "m1" "tenant-a" draws0.
Definition re_bad := reencrypt_blob true true lossy rt0 st0 legacy "mail" "m1" "tenant-a" draws0.

Lemma verified_upload_is_recoverable_witness :
  download true up0.1.2 st0 up0.1.1 "mail" "m2" = Ok (Some msg0, up0.1.2).
Proof.
  refine (proj2 (proj2 (proj1 (verified_upload_is_recoverable honest_service rt0 st0 legacy "mail" "m2" msg0 None draws0
    up0.1.1 up0.1.2 up0.2 _ eq_refl _ eq_refl) _))).
  - by apply triple_eta_r.
  - by eexists.
  - vm_compute. reflexivity.
Defined.

Lemma failed_reencrypt_destroys_plaintext_witness :
  legacy !! loc st0 "mail" "m1" = Some msg0 ∧ re_bad.1.1 !! loc st0 "mail" "m1" = None.
Proof.
  split; [vm_compute; reflexivity|].
  refine (proj1 (failed_reencrypt_destroys_plaintext lossy rt0 st0 legacy "mail" "m1" "tenant-a"
    draws0 re_bad.1.1 re_bad.1.2 msg0 rt0 _ eq_refl _)).
  - vm_compute. reflexivity.
  - apply triple_eta_r. vm_compute. reflexivity.
Defined.

Lemma reencrypt_preserves_content_witness :
  ∃ rt2, download true re_ok.1.2 st0 re_ok.1.1 "mail" "m1" = Ok (Some msg0, rt2).
Proof.
  refine (proj1 (proj2 (reencrypt_preserves_content ∅ rt0 fresh st0 legacy "mail" "m1" "tenant-a"
    draws0 re_ok.1.1 re_ok.1.2 msg0 rt0 eq_refl (coherent_fresh _ (tag_kek_faithful _ _))
    draws0_ok _ eq_refl _ _))).
  - discriminate.
  - vm_compute. reflexivity.
  - apply triple_eta_r. vm_compute. reflexivity.
Defined.
End ToyStore.
