(* ===== verification/Lease.v ===== *)
(** * Work-row leases

    Model of [src/shared/lease.py]: the lease columns every work row carries
    ([jobs], [snapshots], [snapshot_partitions]), the claim / renew / release
    statements with their fence token, the per-process registry of rows a live
    handler is working on, and the background [LeaseExtender].

    One [UPDATE ... WHERE ... RETURNING] is one atomic function on the table.
    Instants are microseconds; [NOW()] is the argument [now]. The copy-workflow
    guard that [claim] splices into its statement is the argument [copy_guard].
    Rows are any type with lease columns and a status (class [Leased]), so the
    reconciler's partitions, snapshots and jobs share the lemmas. *)

From S2P Require Import Prelude.
Local Open Scope Z_scope.

(** Microseconds in a second. *)
Definition SEC : Z := 1000000.

Record lease_cols := Cols {
  lc_owner : option string;
  lc_expires : option Z;
  lc_token : Z;
}.

Class Leased (R : Type) := {
  lease_of : R → lease_cols;
  set_lease : lease_cols → R → R;
  status_of : R → string;
  set_status : string → R → R;
}.

Class LeasedLaws (R : Type) `{Leased R} := {
  lease_of_set c r : lease_of (set_lease c r) = c;
  status_of_set_lease c r : status_of (set_lease c r) = status_of r;
  lease_of_set_status s r : lease_of (set_status s r) = lease_of r;
  status_of_set s r : status_of (set_status s r) = s;
  set_lease_same r : set_lease (lease_of r) r = r;
}.

Inductive lease_err := UnsupportedTable.

Definition LEASED_TABLES : gset string :=
  {["jobs"; "snapshots"; "snapshot_partitions"]}.

Definition LEASE_TTL_S : Z := 600.
Definition LEASE_RENEW_S : Z := 120.
Definition LEASE_EXTENDER_RESET_AFTER : Z := 6.

Definition check_table (table : string) : result lease_err unit :=
  raise_if (negb (bool_decide (table ∈ LEASED_TABLES))) UnsupportedTable.

(** A held lease; [ls_token] is the fence of every later write. *)
Record Lease := MkLease {
  ls_table : string;
  ls_work_id : string;
  ls_owner : string;
  ls_token : Z;
}.
Global Instance Lease_eq_dec : EqDecision Lease.
Proof. solve_decision. Defined.

(** [lease_expires_at IS NULL OR lease_expires_at < NOW()] *)
Definition lapsed (now : Z) (c : lease_cols) : bool :=
  match lc_expires c with None => true | Some e => e <? now end.

(** In seconds, as a real number in the source; here in microseconds. *)
Definition bounded_timeout_s (interval : Z) : Z := Z.max (2 * interval) (10 * SEC).

Section rows.
  Context {R : Type} `{Leased R}.
  Implicit Types (tbl : gmap (string * string) R) (r : R).

(** The row [claim] would write, when its [WHERE] holds. *)
Definition claim_row (now : Z) (guard : bool) (owner in_prog : string) (ttl : Z) (r : R)
    : option R :=
  let c := lease_of r in
  if bool_decide (status_of r = in_prog) && guard && lapsed now c
  then Some (set_lease (Cols (Some owner) (Some (now + ttl * SEC)) (lc_token c + 1)) r)
  else None.

Definition claim (copy_guard : string → string → bool) (now : Z) tbl
    (table work_id owner in_prog : string) (ttl : Z)
    : result lease_err (gmap (string * string) R * option Lease) :=
  _ ← check_table table;
  Ok match tbl !! (table, work_id) with
     | None => (tbl, None)
     | Some r =>
       match claim_row now (copy_guard table work_id) owner in_prog ttl r with
       | None => (tbl, None)
       | Some r' =>
         (<[(table, work_id) := r']> tbl,
          Some (MkLease table work_id owner (lc_token (lease_of r'))))
       end
     end.

(** [WHERE id = :wid AND lease_token = :tok] *)
Definition fenced (l : Lease) tbl : option R :=
  match tbl !! (ls_table l, ls_work_id l) with
  | Some r => if lc_token (lease_of r) =? ls_token l then Some r else None
  | None => None
  end.

Definition renew (now : Z) tbl (l : Lease) (ttl : Z)
    : result lease_err (gmap (string * string) R * bool) :=
  _ ← check_table (ls_table l);
  Ok match fenced l tbl with
     | Some r =>
       let c := lease_of r in
       if bool_decide (lc_owner c = Some (ls_owner l))
       then (<[(ls_table l, ls_work_id l) :=
                 set_lease (Cols (lc_owner c) (Some (now + ttl * SEC)) (lc_token c)) r]> tbl, true)
       else (tbl, false)
     | None => (tbl, false)
     end.

Definition release tbl (l : Lease) : result lease_err (gmap (string * string) R) :=
  _ ← check_table (ls_table l);
  Ok match fenced l tbl with
     | Some r =>
       <[(ls_table l, ls_work_id l) := set_lease (Cols None None (lc_token (lease_of r))) r]> tbl
     | None => tbl
     end.

(** A terminal write that carries [fence_clause()]: the rows it changed. *)
Definition fenced_status_write tbl (l : Lease) (status : string)
    : gmap (string * string) R * nat :=
  match fenced l tbl with
  | Some r => (<[(ls_table l, ls_work_id l) := set_status status r]> tbl, 1%nat)
  | None => (tbl, 0%nat)
  end.
End rows.

(** ** The per-process registry

    [canon] is [_row_key]: the canonical form of a row id. *)
Record registry := Registry {
  rg_ids : gmap string (gset string);
  rg_used : bool;
}.

Definition reset_registry : registry := Registry ∅ false.

Definition ids_of (g : registry) (table : string) : gset string :=
  default ∅ (rg_ids g !! table).

Section registry_ops.
  Context (canon : string → string).

Definition register (g : registry) (table row_id : string) : result lease_err registry :=
  _ ← check_table table;
  Ok (Registry (<[table := {[canon row_id]} ∪ ids_of g table]> (rg_ids g)) true).

Definition unregister (g : registry) (table row_id : string) : result lease_err registry :=
  _ ← check_table table;
  Ok (Registry (<[table := ids_of g table ∖ {[canon row_id]}]> (rg_ids g)) (rg_used g)).
End registry_ops.

Definition registry_active (g : registry) : bool := rg_used g.

(** ** The extender *)
Section extender.
  Context {R : Type} `{Leased R} (canon : string → string).
  Implicit Types (tbl : gmap (string * string) R) (r : R).

Definition extend_row (now ttl : Z) (r : R) : R :=
  set_lease (Cols (lc_owner (lease_of r)) (Some (now + ttl * SEC)) (lc_token (lease_of r))) r.

(** [lease_owner_id = :owner AND status = :sts] *)
Definition owned (owner in_prog : string) (r : R) : bool :=
  bool_decide (lc_owner (lease_of r) = Some owner) && bool_decide (status_of r = in_prog).

Definition bump_where (now ttl : Z) (owner table in_prog : string) (pick : string → bool) tbl
    : gmap (string * string) R :=
  map_imap (λ k r, Some (if bool_decide (k.1 = table) && pick k.2 && owned owner in_prog r
                         then extend_row now ttl r else r)) tbl.

(** The ids of [table] the statement renewed. *)
Definition kept (owner table in_prog : string) tbl (rid : string) : bool :=
  match tbl !! (table, rid) with Some r => owned owner in_prog r | None => false end.

Definition prune (owner table in_prog : string) tbl (g : registry) (ids : gset string) : registry :=
  Registry (<[table := ids_of g table ∖
                         set_map canon (filter (λ rid, kept owner table in_prog tbl rid = false) ids)]>
              (rg_ids g)) (rg_used g).

Definition bump_table (now ttl : Z) (owner : string) (scoped : bool) (tp : string * string)
    (st : gmap (string * string) R * registry) : gmap (string * string) R * registry :=
  let '(table, in_prog) := tp in
  let '(tbl, g) := st in
  if negb scoped then (bump_where now ttl owner table in_prog (λ _, true) tbl, g)
  else
    let ids := ids_of g table in
    if bool_decide (ids = ∅) then (tbl, g)
    else (bump_where now ttl owner table in_prog (λ rid, bool_decide (rid ∈ ids)) tbl,
          prune owner table in_prog tbl g ids).

Definition bump_tables : list (string * string) :=
  [("snapshots", "IN_PROGRESS"); ("snapshot_partitions", "IN_PROGRESS"); ("jobs", "RUNNING")].

Definition bump_once (now ttl : Z) (owner : string) (st : gmap (string * string) R * registry)
    : gmap (string * string) R * registry :=
  let scoped := registry_active st.2 in
  foldl (λ st tp, bump_table now ttl owner scoped tp st) st bump_tables.
End extender.

(** One pass of the extender's loop after the round-trip succeeded or failed:
    the failure counter, and whether the engine was reset. *)
Definition extender_tick (reset_after failures : Z) (ok : bool) : Z * bool :=
  if ok then (0, false)
  else let n := failures + 1 in
       (n, (0 <? reset_after) && (n `mod` reset_after =? 0)).

(** [LeaseRenewer._loop]: the outcomes of the successive renewals ([None] is an
    exception); whether the lease was declared stolen, and the renewals left
    unused when the loop returned. *)
Fixpoint renewer_loop (outcomes : list (option bool)) : bool * list (option bool) :=
  match outcomes with
  | [] => (false, [])
  | Some false :: rest => (true, rest)
  | _ :: rest => renewer_loop rest
  end.

(** ** The fence

    Tokens only grow: [tbl ⊑ₜ tbl'] when every row of [tbl] is still in [tbl']
    with a token at least as large. *)
Section fence.
  Context {R : Type} `{LeasedLaws R}.
  Implicit Types (tbl : gmap (string * string) R) (r : R).

Definition token r : Z := lc_token (lease_of r).

Definition tokens_grow tbl tbl' : Prop :=
  ∀ k r, tbl !! k = Some r → ∃ r', tbl' !! k = Some r' ∧ token r ≤ token r'.

Global Instance tokens_grow_preorder : PreOrder tokens_grow.
Proof.
  split.
  - intros tbl k r Hr. eauto with lia.
  - intros t1 t2 t3 H12 H23 k r Hr. destruct (H12 _ _ Hr) as (r2 & Hr2 & ?).
    destruct (H23 _ _ Hr2) as (r3 & ? & ?). eauto with lia.
Qed.

Lemma insert_grows tbl k r r' :
  tbl !! k = Some r → token r ≤ token r' → tokens_grow tbl (<[k := r']> tbl).
Proof.
  intros Hr Hle j q Hq. destruct (decide (k = j)) as [<-|Hne].
  - exists r'. rewrite lookup_insert_eq. simplify_eq. eauto.
  - exists q. rewrite lookup_insert_ne by done. eauto with lia.
Qed.

Lemma fenced_Some l tbl r :
  fenced l tbl = Some r ↔
  tbl !! (ls_table l, ls_work_id l) = Some r ∧ token r = ls_token l.
Proof.
  unfold fenced, token. destruct (tbl !! _) as [q|]; [|naive_solver].
  destruct (Z.eqb_spec (lc_token (lease_of q)) (ls_token l)); naive_solver.
Qed.

Lemma claim_Some guard now tbl table wid owner sts ttl tbl' l :
  claim guard now tbl table wid owner sts ttl = Ok (tbl', Some l) →
  ∃ r r', tbl !! (table, wid) = Some r ∧
    claim_row now (guard table wid) owner sts ttl r = Some r' ∧
    tbl' = <[(table, wid) := r']> tbl ∧ l = MkLease table wid owner (token r') ∧
    token r' = token r + 1.
Proof.
  unfold claim. intros Hc. inv_ok. destruct (tbl !! (table, wid)) as [r|] eqn:Hr; [|by simplify_eq].
  destruct (claim_row _ _ _ _ _ r) as [r'|] eqn:Hcr; simplify_eq.
  exists r, r'. split_and!; [done..|]. unfold claim_row in Hcr. unfold token.
  destruct (_ && _ && _); simplify_eq. by rewrite lease_of_set.
Qed.

Lemma claim_None guard now tbl table wid owner sts ttl tbl' :
  claim guard now tbl table wid owner sts ttl = Ok (tbl', None) → tbl' = tbl.
Proof.
  unfold claim. intros Hc. inv_ok. destruct (tbl !! (table, wid)); [|by simplify_eq].
  destruct (claim_row _ _ _ _ _ _); by simplify_eq.
Qed.

Lemma claim_grows guard now tbl table wid owner sts ttl tbl' o :
  claim guard now tbl table wid owner sts ttl = Ok (tbl', o) → tokens_grow tbl tbl'.
Proof.
  destruct o as [l|]; [|by intros ->%claim_None].
  intros (r & r' & Hr & _ & -> & _ & Ht)%claim_Some. eapply insert_grows; [done|lia].
Qed.

Lemma renew_grows now tbl l ttl tbl' b :
  renew now tbl l ttl = Ok (tbl', b) → tokens_grow tbl tbl'.
Proof.
  unfold renew. intros Hr. inv_ok. destruct (fenced l tbl) as [r|] eqn:Hf; [|by simplify_eq].
  apply fenced_Some in Hf as [Hk _]. case_bool_decide; simplify_eq; [|done].
  eapply insert_grows; [done|]. unfold token. rewrite lease_of_set. simpl. lia.
Qed.

Lemma release_grows tbl l tbl' : release tbl l = Ok tbl' → tokens_grow tbl tbl'.
Proof.
  unfold release. intros Hr. inv_ok. destruct (fenced l tbl) as [r|] eqn:Hf; simplify_eq; [|done].
  apply fenced_Some in Hf as [Hk _].
  eapply insert_grows; [done|]. unfold token. rewrite lease_of_set. simpl. lia.
Qed.

Lemma fenced_write_grows tbl l s : tokens_grow tbl (fenced_status_write tbl l s).1.
Proof.
  unfold fenced_status_write. destruct (fenced l tbl) as [r|] eqn:Hf; [|done].
  apply fenced_Some in Hf as [Hk _].
  eapply insert_grows; [done|]. unfold token. rewrite lease_of_set_status. lia.
Qed.

Lemma lookup_bump_where now ttl owner table sts pick tbl k :
  bump_where now ttl owner table sts pick tbl !! k =
  (λ r, if bool_decide (k.1 = table) && pick k.2 && owned owner sts r
        then extend_row now ttl r else r) <$> tbl !! k.
Proof. unfold bump_where. rewrite map_lookup_imap. by destruct (tbl !! k). Qed.

Lemma bump_where_grows now ttl owner table sts pick tbl :
  tokens_grow tbl (bump_where now ttl owner table sts pick tbl).
Proof.
  intros k r Hr. rewrite lookup_bump_where, Hr. simpl. eexists. split; [done|].
  destruct (_ && _); [|lia]. unfold token, extend_row. rewrite lease_of_set. simpl. lia.
Qed.

Lemma bump_table_grows canon now ttl owner scoped tp st :
  tokens_grow st.1 (bump_table canon now ttl owner scoped tp st).1.
Proof.
  destruct tp as [table sts], st as [tbl g]. unfold bump_table. destruct scoped; simpl.
  - case_bool_decide; [done|apply bump_where_grows].
  - apply bump_where_grows.
Qed.

Lemma bump_once_grows canon now ttl owner st : tokens_grow st.1 (bump_once canon now ttl owner st).1.
Proof.
  unfold bump_once. generalize (registry_active st.2) as sc. intros sc. revert st.
  induction bump_tables as [|tp tps IH]; intros st; simpl; [done|].
  etrans; [apply bump_table_grows|apply IH].
Qed.

(** The history of the lease columns: every operation of this module, by any
    process at any time, and any other statement that keeps the row and does not
    lower its token (the reconciler's sweeps, handlers' status writes, inserts). *)
Inductive lstep : gmap (string * string) R → gmap (string * string) R → Prop :=
  | lstep_claim guard now tbl table wid owner sts ttl tbl' o :
      claim guard now tbl table wid owner sts ttl = Ok (tbl', o) → lstep tbl tbl'
  | lstep_renew now tbl l ttl tbl' b : renew now tbl l ttl = Ok (tbl', b) → lstep tbl tbl'
  | lstep_release tbl l tbl' : release tbl l = Ok tbl' → lstep tbl tbl'
  | lstep_write tbl l s : lstep tbl (fenced_status_write tbl l s).1
  | lstep_bump canon now ttl owner tbl g :
      lstep tbl (bump_once canon now ttl owner (tbl, g)).1
  | lstep_env tbl tbl' : tokens_grow tbl tbl' → lstep tbl tbl'.

Lemma lsteps_grow tbl tbl' : rtc lstep tbl tbl' → tokens_grow tbl tbl'.
Proof.
  induction 1 as [tbl|t1 t2 t3 Hs _ IH]; [done|]. etrans; [|exact IH].
  destruct Hs; eauto using claim_grows, renew_grows, release_grows, fenced_write_grows.
  exact (bump_once_grows canon now ttl owner (tbl, g)).
Qed.

Lemma stale_fence tbl l r :
  tbl !! (ls_table l, ls_work_id l) = Some r → ls_token l < token r → fenced l tbl = None.
Proof.
  intros Hr Hlt. destruct (fenced l tbl) eqn:Hf; [|done].
  apply fenced_Some in Hf as [? ?]. simplify_eq. lia.
Qed.

(** C17: The fence: once a row has been claimed a second time, whatever happened
    before, in between and since, the first lease's token is smaller than the
    second's and the first holder can no longer touch the row: its fenced status
    write changes no row, its renewal reports the lease stolen, and its release
    is a no-op. *)
Theorem stale_holder_is_fenced_out g1 n1 t0 tb wid o1 s1 ttl1 t1 l1 t2 g2 n2 o2 s2 ttl2 t3 l2 t4 :
  claim g1 n1 t0 tb wid o1 s1 ttl1 = Ok (t1, Some l1) → rtc lstep t1 t2 →
  claim g2 n2 t2 tb wid o2 s2 ttl2 = Ok (t3, Some l2) → rtc lstep t3 t4 →
  ls_token l1 < ls_token l2 ∧
  (∀ s, fenced_status_write t4 l1 s = (t4, 0%nat)) ∧
  (∀ now ttl, renew now t4 l1 ttl = Ok (t4, false)) ∧
  release t4 l1 = Ok t4.
Proof.
  intros Hc1 Hs12 Hc2 Hs34.
  assert (check_table tb = Ok tt) as Htb.
  { unfold claim in Hc1. inv_ok. done. }
  apply claim_Some in Hc1 as (r0 & r1 & _ & _ & -> & -> & _).
  apply claim_Some in Hc2 as (r2 & r3 & Hr2 & _ & -> & -> & Ht3).
  destruct (lsteps_grow _ _ Hs12 (tb, wid) r1) as (r2' & Hr2' & Hle12); [apply lookup_insert_eq|].
  simplify_eq.
  destruct (lsteps_grow _ _ Hs34 (tb, wid) r3) as (r4 & Hr4 & Hle34); [apply lookup_insert_eq|].
  assert (fenced (MkLease tb wid o1 (token r1)) t4 = None) as Hf
    by (eapply stale_fence; [exact Hr4|simpl; lia]).
  split_and!.
  - simpl. lia.
  - intros s. unfold fenced_status_write. by rewrite Hf.
  - intros now ttl. unfold renew. rewrite Hf. cbn [ls_table]. by rewrite Htb.
  - unfold release. rewrite Hf. cbn [ls_table]. by rewrite Htb.
Qed.

Lemma claim_live_None guard now tbl table wid owner sts ttl r e :
  check_table table = Ok tt → tbl !! (table, wid) = Some r →
  lc_expires (lease_of r) = Some e → now ≤ e →
  claim guard now tbl table wid owner sts ttl = Ok (tbl, None).
Proof.
  intros Ht Hr He Hle. unfold claim. rewrite Ht. mred. rewrite Hr.
  unfold claim_row, lapsed. rewrite He. rewrite (proj2 (Z.ltb_ge _ _)) by lia.
  by rewrite andb_false_r.
Qed.

(** Mutual exclusion: when a claim succeeds, every claim of the same row by
    anyone until its time-to-live is over is refused and changes nothing. *)
Theorem claim_excludes_others g now tbl tb wid owner sts ttl tbl' l g2 now2 o2 sts2 ttl2 :
  claim g now tbl tb wid owner sts ttl = Ok (tbl', Some l) →
  now2 ≤ now + ttl * SEC →
  claim g2 now2 tbl' tb wid o2 sts2 ttl2 = Ok (tbl', None).
Proof.
  intros Hc Hle. assert (check_table tb = Ok tt) as Htb by (unfold claim in Hc; inv_ok; done).
  apply claim_Some in Hc as (r & r' & _ & Hcr & -> & _ & _).
  unfold claim_row in Hcr. destruct (_ && _ && _); simplify_eq.
  eapply claim_live_None; [done|apply lookup_insert_eq| |exact Hle]. by rewrite lease_of_set.
Qed.
End fence.

(** ** The extender and the registry *)
Section extender_theorems.
  Context {R : Type} `{LeasedLaws R} (canon : string → string).
  Implicit Types (tbl : gmap (string * string) R) (r : R) (g : registry).

Lemma ids_of_insert g t t' X u :
  ids_of (Registry (<[t := X]> (rg_ids g)) u) t' = if decide (t = t') then X else ids_of g t'.
Proof.
  unfold ids_of. simpl. case_decide; subst; [by rewrite lookup_insert_eq|by rewrite lookup_insert_ne].
Qed.

(** A pass over one table leaves the rows and registry of the others alone. *)
Lemma bump_table_other now ttl owner sc table sts tbl g tb wid :
  table ≠ tb →
  let st' := bump_table canon now ttl owner sc (table, sts) (tbl, g) in
  st'.1 !! (tb, wid) = tbl !! (tb, wid) ∧ ids_of st'.2 tb = ids_of g tb.
Proof.
  intros Hne. simpl. destruct sc; simpl; [case_bool_decide; [done|]|]; simpl.
  - rewrite lookup_bump_where. simpl. rewrite bool_decide_eq_false_2 by done. simpl.
    rewrite option_fmap_id. unfold prune. by rewrite ids_of_insert, decide_False.
  - rewrite lookup_bump_where. simpl. rewrite bool_decide_eq_false_2 by done. simpl.
    by rewrite option_fmap_id.
Qed.

(** With the registry in use, a row that is not registered is not renewed. *)
Lemma bump_table_unregistered now ttl owner tp tbl g tb wid :
  wid ∉ ids_of g tb →
  let st' := bump_table canon now ttl owner true tp (tbl, g) in
  st'.1 !! (tb, wid) = tbl !! (tb, wid) ∧ wid ∉ ids_of st'.2 tb.
Proof.
  intros Hni. destruct tp as [table sts]. destruct (decide (table = tb)) as [->|Hne].
  - simpl. case_bool_decide; [by split|]. simpl. rewrite lookup_bump_where. simpl.
    rewrite (bool_decide_eq_false_2 (wid ∈ _)) by done. rewrite andb_false_r. simpl.
    rewrite option_fmap_id. unfold prune. rewrite ids_of_insert, decide_True by done. set_solver.
  - pose proof (bump_table_other now ttl owner true table sts tbl g tb wid Hne) as [H1 H2].
    cbv zeta in *. by rewrite H1, H2.
Qed.

Lemma bump_once_unregistered now ttl owner tbl g tb wid :
  registry_active g = true → wid ∉ ids_of g tb →
  let st' := bump_once canon now ttl owner (tbl, g) in
  st'.1 !! (tb, wid) = tbl !! (tb, wid) ∧ (wid ∉ ids_of st'.2 tb) ∧ registry_active st'.2 = true.
Proof.
  unfold bump_once. cbn [snd]. intros Ha Hni. rewrite Ha. revert tbl g Ha Hni.
  induction bump_tables as [|tp tps IH]; intros tbl g Ha Hni; [by split_and!|].
  cbn [foldl]. pose proof (bump_table_unregistered now ttl owner tp tbl g tb wid Hni) as [Hl Hn].
  assert (registry_active (bump_table canon now ttl owner true tp (tbl, g)).2 = true) as Hact.
  { destruct tp. simpl. by case_bool_decide. }
  destruct (bump_table _ _ _ _ _ tp _) as [tbl1 g1]. simpl in *. rewrite <-Hl. by apply IH.
Qed.

(** What this process may do while no handler of it works on row [wid] of [tb]. *)
Inductive idle_step (owner tb wid : string) :
    gmap (string * string) R * registry → gmap (string * string) R * registry → Prop :=
  | idle_bump now ttl st : idle_step owner tb wid st (bump_once canon now ttl owner st)
  | idle_register tbl g t i g' :
      (t, canon i) ≠ (tb, wid) → register canon g t i = Ok g' →
      idle_step owner tb wid (tbl, g) (tbl, g')
  | idle_unregister tbl g t i g' :
      unregister canon g t i = Ok g' → idle_step owner tb wid (tbl, g) (tbl, g').

Lemma idle_steps_frame owner tb wid st st' :
  rtc (idle_step owner tb wid) st st' →
  registry_active st.2 = true → wid ∉ ids_of st.2 tb → st'.1 !! (tb, wid) = st.1 !! (tb, wid).
Proof.
  induction 1 as [st|s1 s2 s3 Hs _ IH]; [done|]. intros Ha Hn.
  assert (s2.1 !! (tb, wid) = s1.1 !! (tb, wid) ∧ (wid ∉ ids_of s2.2 tb) ∧
          registry_active s2.2 = true) as (Hl & Hn2 & Ha2); [|by rewrite IH].
  destruct Hs as [now ttl [tbl g]|tbl g t i g' Hne Hr|tbl g t i g' Hr].
  - by apply bump_once_unregistered.
  - unfold register in Hr. inv_ok. simplify_eq. split_and!; [done| |done].
    cbn [snd]. rewrite ids_of_insert. case_decide; [|done]. simplify_eq/=. set_solver.
  - unfold unregister in Hr. inv_ok. simplify_eq. split_and!; [done| |done].
    cbn [snd]. rewrite ids_of_insert. case_decide; [|done]. simplify_eq/=. set_solver.
Qed.

(** A row no handler of its owning process works on lapses: once the process
    has used the registry, no number of extender passes and registrations of
    other rows prolongs the row's lease, and the first claim after its expiry
    succeeds. *)
Theorem dead_handler_row_lapses owner tb wid tbl g st' r e guard now o2 sts ttl :
  registry_active g = true → wid ∉ ids_of g tb →
  tbl !! (tb, wid) = Some r → lc_expires (lease_of r) = Some e → status_of r = sts →
  rtc (idle_step owner tb wid) (tbl, g) st' →
  check_table tb = Ok tt → guard tb wid = true → e < now →
  ∃ tbl2 l, claim guard now st'.1 tb wid o2 sts ttl = Ok (tbl2, Some l) ∧ ls_owner l = o2.
Proof.
  intros Ha Hn Hr He Hsts Hs Htb Hg Hlt. pose proof (idle_steps_frame _ _ _ _ _ Hs Ha Hn) as Hf.
  simpl in Hf. unfold claim. rewrite Htb. mred. rewrite Hf, Hr. unfold claim_row, lapsed.
  rewrite Hg, He, (bool_decide_eq_true_2 _ Hsts), (proj2 (Z.ltb_lt _ _) Hlt). simpl.
  do 2 eexists. split; [done|done].
Qed.

(** The row of a live handler: the pass over its table renews it and keeps it
    registered. *)
Lemma bump_table_live now ttl owner sc tb sts tbl g wid r :
  (∀ i, i ∈ ids_of g tb → canon i = i) →
  tbl !! (tb, wid) = Some r → owned owner sts r = true → (sc = true → wid ∈ ids_of g tb) →
  let st' := bump_table canon now ttl owner sc (tb, sts) (tbl, g) in
  st'.1 !! (tb, wid) = Some (extend_row now ttl r) ∧ (wid ∈ ids_of g tb → wid ∈ ids_of st'.2 tb).
Proof.
  intros Hcan Hr Ho Hreg. simpl. destruct sc; simpl.
  - specialize (Hreg eq_refl). rewrite bool_decide_eq_false_2 by set_solver. simpl.
    rewrite lookup_bump_where, Hr. simpl.
    rewrite (bool_decide_eq_true_2 (tb = tb)), (bool_decide_eq_true_2 _ Hreg), Ho by done. simpl.
    split; [done|]. intros _. unfold prune. rewrite ids_of_insert, decide_True by done.
    apply elem_of_difference. split; [done|]. intros (i & -> & Hi)%elem_of_map.
    apply elem_of_filter in Hi as [Hk Hi]. rewrite (Hcan i Hi) in Hr. unfold kept in Hk.
    rewrite Hr in Hk. congruence.
  - rewrite lookup_bump_where, Hr. simpl. rewrite (bool_decide_eq_true_2 (tb = tb)), Ho by done. done.
Qed.

Lemma bump_fold_other now ttl owner sc tps st tb wid :
  tb ∉ tps.*1 →
  let st' := foldl (λ st tp, bump_table canon now ttl owner sc tp st) st tps in
  st'.1 !! (tb, wid) = st.1 !! (tb, wid) ∧ ids_of st'.2 tb = ids_of st.2 tb.
Proof.
  revert st. induction tps as [|[t s] tps IH]; intros [tbl g]; [done|].
  cbn [foldl fmap list_fmap fst]. intros [Hne Hni]%not_elem_of_cons.
  pose proof (bump_table_other now ttl owner sc t s tbl g tb wid (not_eq_sym Hne)) as [H1 H2].
  destruct (IH (bump_table canon now ttl owner sc (t, s) (tbl, g)) Hni) as [H3 H4].
  cbv zeta in *. rewrite H3, H4. done.
Qed.

Lemma bump_fold_live now ttl owner sc tps tbl g tb sts wid r :
  NoDup tps.*1 → (tb, sts) ∈ tps → (∀ i, i ∈ ids_of g tb → canon i = i) →
  tbl !! (tb, wid) = Some r → owned owner sts r = true → (sc = true → wid ∈ ids_of g tb) →
  let st' := foldl (λ st tp, bump_table canon now ttl owner sc tp st) (tbl, g) tps in
  st'.1 !! (tb, wid) = Some (extend_row now ttl r) ∧ (wid ∈ ids_of g tb → wid ∈ ids_of st'.2 tb).
Proof.
  intros Hnd (l1 & l2 & ->)%list_elem_of_split Hcan Hr Ho Hreg.
  rewrite fmap_app, fmap_cons in Hnd. cbn [fst] in Hnd.
  apply NoDup_app in Hnd as (_ & Hd & [Hn2 _]%NoDup_cons).
  assert (tb ∉ l1.*1) as Hn1 by (intros Hin; by destruct (Hd _ Hin); left).
  rewrite foldl_app. cbn [foldl].
  pose proof (bump_fold_other now ttl owner sc l1 (tbl, g) tb wid Hn1) as [H1 H2].
  destruct (foldl _ (tbl, g) l1) as [tbl1 g1]. cbn [fst snd] in H1, H2.
  destruct (bump_table_live now ttl owner sc tb sts tbl1 g1 wid r) as [H3 H4];
    [by rewrite H2|by rewrite H1|done|by rewrite H2|].
  destruct (bump_fold_other now ttl owner sc l2
    (bump_table canon now ttl owner sc (tb, sts) (tbl1, g1)) tb wid Hn2) as [H5 H6].
  cbv zeta in *. rewrite H5, H6, H3. rewrite H2 in H4. done.
Qed.

(** A pass of the extender keeps a live handler's row alive: a row of this
    owner, in its table's in-progress status and (once the registry is in use)
    registered, has its expiry moved to a full time-to-live from now with its
    token unchanged, stays registered, and cannot be claimed by anyone until
    then. *)
Theorem extender_keeps_live_rows now ttl owner tbl g tb sts wid r :
  (tb, sts) ∈ bump_tables → (∀ i, i ∈ ids_of g tb → canon i = i) →
  tbl !! (tb, wid) = Some r → owned owner sts r = true →
  (registry_active g = true → wid ∈ ids_of g tb) →
  let st' := bump_once canon now ttl owner (tbl, g) in
  st'.1 !! (tb, wid) = Some (extend_row now ttl r) ∧
  (wid ∈ ids_of g tb → wid ∈ ids_of st'.2 tb) ∧
  ∀ guard now2 o2 sts2 ttl2, now2 ≤ now + ttl * SEC →
    claim guard now2 st'.1 tb wid o2 sts2 ttl2 = Ok (st'.1, None).
Proof.
  intros Hin Hcan Hr Ho Hreg.
  destruct (bump_fold_live now ttl owner (registry_active g) bump_tables tbl g tb sts wid r)
    as [Hl Hids]; [|done..|].
  { refine (bool_decide_unpack _ _). vm_compute. exact I. }
  split_and!; [done..|]. intros guard now2 o2 sts2 ttl2 Hle.
  eapply claim_live_None; [|exact Hl| |exact Hle].
  - assert (Forall (λ tp, check_table tp.1 = Ok tt) bump_tables) as Hall by (repeat constructor).
    rewrite Forall_forall in Hall. exact (Hall _ Hin).
  - unfold extend_row. by rewrite lease_of_set.
Qed.
End extender_theorems.

(** ** The engine reset *)

(** [k] consecutive failed round-trips from a healthy state: the counter, and how
    many times the engine was reset. *)
Fixpoint failed_run (reset_after : Z) (k : nat) : Z * Z :=
  match k with
  | O => (0, 0)
  | S k =>
    let '(n, resets) := failed_run reset_after k in
    let '(n', reset) := extender_tick reset_after n false in
    (n', if reset then resets + 1 else resets)
  end.

(** The extender's self-healing: after [k] consecutive failed round-trips the
    engine has been reset exactly [k / reset_after] times (never, when resets are
    disabled), and one success clears the count. *)
Theorem engine_reset_every_nth_failure reset_after k :
  failed_run reset_after k =
    (Z.of_nat k, if 0 <? reset_after then Z.of_nat k / reset_after else 0) ∧
  extender_tick reset_after (Z.of_nat k) true = (0, false).
Proof.
  split; [|done]. induction k as [|k IH]; cbn [failed_run].
  - by destruct (0 <? reset_after).
  - rewrite IH. unfold extender_tick. rewrite Nat2Z.inj_succ. unfold Z.succ.
    destruct (0 <? reset_after) eqn:Hp; bools; cbn [andb]; [|done]. f_equal.
    destruct (Z.eqb_spec ((Z.of_nat k + 1) `mod` reset_after) 0) as [Hm|Hm];
      Z.div_mod_to_equations; nia.
Qed.

(** ** Examples *)
Module LeaseExamples.

(** The least a work row has. *)
Record work_row := Work { w_status : string; w_lease : lease_cols }.

#[export] Instance work_row_leased : Leased work_row := {
  lease_of := w_lease;
  set_lease c r := Work (w_status r) c;
  status_of := w_status;
  set_status s r := Work s (w_lease r);
}.

#[export] Instance work_row_laws : LeasedLaws work_row.
Proof. split; intros; try reflexivity. by destruct r. Qed.

Definition always (_ _ : string) : bool := true.
Definition key : string * string := ("snapshots", "s1").
Definition t0 : gmap (string * string) work_row :=
  {[ key := Work "IN_PROGRESS" (Cols None None 0) ]}.
Definition claim_at (now : Z) (t : gmap (string * string) work_row) (owner : string) :=
  claim always now t "snapshots" "s1" owner "IN_PROGRESS" LEASE_TTL_S.
Definition t1 := (from_ok (t0, None) (claim_at 0 t0 "w1")).1.
Definition t2 := (from_ok (t1, None) (claim_at (601 * SEC) t1 "w2")).1.
Definition lease1 := MkLease "snapshots" "s1" "w1" 1.
Definition lease2 := MkLease "snapshots" "s1" "w2" 2.
Definition live : registry := Registry {[ "snapshots" := {["s1"]} ]} true.
Definition idle : registry := Registry {[ "snapshots" := {["s2"]} ]} true.

Lemma stale_holder_is_fenced_out_witness :
  fenced_status_write t2 lease1 "COMPLETED" = (t2, 0%nat).
Proof.
  refine (proj1 (proj2 (stale_holder_is_fenced_out always 0 t0 "snapshots" "s1" "w1" "IN_PROGRESS"
    LEASE_TTL_S t1 lease1 t1 always (601 * SEC) "w2" "IN_PROGRESS" LEASE_TTL_S t2 lease2 t2
    _ _ _ _)) "COMPLETED").
  - apply from_ok_pair_r. vm_compute. reflexivity.
  - apply rtc_refl.
  - apply from_ok_pair_r. vm_compute. reflexivity.
  - apply rtc_refl.
Defined.

Lemma claim_excludes_others_witness : claim_at (599 * SEC) t1 "w2" = Ok (t1, None).
Proof.
  refine (claim_excludes_others always 0 t0 "snapshots" "s1" "w1" "IN_PROGRESS" LEASE_TTL_S t1 lease1
    always (599 * SEC) "w2" "IN_PROGRESS" LEASE_TTL_S _ _).
  - apply from_ok_pair_r. vm_compute. reflexivity.
  - vm_compute. discriminate.
Defined.

Lemma dead_handler_row_lapses_witness :
  ∃ tbl2 l, claim always (601 * SEC) (bump_once id (300 * SEC) LEASE_TTL_S "w1" (t1, idle)).1
              "snapshots" "s1" "w2" "IN_PROGRESS" LEASE_TTL_S = Ok (tbl2, Some l) ∧ ls_owner l = "w2".
Proof.
  refine (dead_handler_row_lapses id "w1" "snapshots" "s1" t1 idle
    (bump_once id (300 * SEC) LEASE_TTL_S "w1" (t1, idle))
    (Work "IN_PROGRESS" (Cols (Some "w1") (Some (600 * SEC)) 1)) (600 * SEC)
    always (601 * SEC) "w2" "IN_PROGRESS" LEASE_TTL_S _ _ _ _ _ _ _ _ _); try reflexivity.
  - refine (bool_decide_unpack _ _). vm_compute. exact I.
  - apply rtc_once, idle_bump.
Defined.

Lemma extender_keeps_live_rows_witness :
  claim_at (800 * SEC) (bump_once id (300 * SEC) LEASE_TTL_S "w1" (t1, live)).1 "w2" =
    Ok ((bump_once id (300 * SEC) LEASE_TTL_S "w1" (t1, live)).1, None).
Proof.
  refine (proj2 (proj2 (extender_keeps_live_rows id (300 * SEC) LEASE_TTL_S "w1" t1 live "snapshots"
    "IN_PROGRESS" "s1" (Work "IN_PROGRESS" (Cols (Some "w1") (Some (600 * SEC)) 1)) _ _ _ _ _))
    always (800 * SEC) "w2" "IN_PROGRESS" LEASE_TTL_S _); try reflexivity.
  - left.
  - vm_compute. discriminate.
Defined.
End LeaseExamples.
