(* ===== verification/Reconciler.v ===== *)
(** * The orphan reconciler

    Model of [src/shared/reconciler.py]: one tick of [sweep_orphans] (STEP A
    partitions, STEP B snapshots, STEP C jobs, STEP D integrity) over the three
    work tables, the dead-letter table and the payloads it hands to
    [republish_partition_messages], and the tick of the scheduler's sweeper loop
    that composes the two.

    Each SQL statement is a row function with the statement's [WHERE], mapped over
    its table; correlated subqueries are boolean functions of the other tables.
    [NULL] comparisons are false, as in a [WHERE] or a [CASE]. The copy-workflow
    guards ([pending_copy_sql]) are the arguments [*_guard]; [locked] says which
    rows another transaction holds ([FOR UPDATE SKIP LOCKED]). The JSON column
    [failure_state] is the three keys the sweep reads. *)

From S2P Require Import Prelude.
From S2P Require Import Lease.
Local Open Scope Z_scope.

Definition RECONCILER_BATCH : nat := 200.
Definition RECONCILER_MAX_REQUEUE : Z := 3.
Definition HEARTBEAT_STALE_S : Z := 60.
Definition RECONCILER_PART_STALE_MIN : Z := 15.
Definition RECONCILER_PART_UNCLAIMED_STALE_MIN : Z := 60.
Definition RECONCILER_PART_UNCLAIMED_MAX_REPUBLISH : Z := 5.
Definition RECONCILER_DLQ_REPLAY_MAX : Z := 1.
Definition SNAP_LEGACY_AGE_S : Z := 900.
Definition SNAP_REAP_LEASE_GRACE_S : Z := 900.
Definition SNAP_REAP_PROGRESS_GRACE_S : Z := 9000.

Definition MIN : Z := 60 * SEC.

(** ** The work tables *)

(** The keys of [failure_state] the sweep reads; a counter that is not a
    sequence of digits reads as 0. *)
Record failure_state := FailureState {
  fs_unclaimed : Z;               (** [unclaimed_republish_count] *)
  fs_replays : Z;                 (** [dlq_replay_count] *)
  fs_files_failed : option Z;     (** [files_failed], when it is a number *)
}.

Record partition := Part {
  p_snapshot : string;
  p_type : string;
  p_index : Z;
  p_payload : string;             (** [drive_id], [file_ids] and [payload], opaque here *)
  p_status : string;
  p_worker : option string;
  p_started : option Z;
  p_retry : Z;
  p_enqueued : Z;
  p_requeue : Z;
  p_failure : failure_state;
  p_lease : lease_cols;
}.

Inductive snapshot_status := SInProgress | SCompleted | SFailed | SPartial | SPendingDeletion | SSkipped.
Inductive job_status :=
  JQueued | JPending | JRunning | JCompleted | JPartial | JFailed | JCancelled | JCancelling | JRetrying.

Global Instance snapshot_status_eq_dec : EqDecision snapshot_status.
Proof. solve_decision. Defined.
Global Instance job_status_eq_dec : EqDecision job_status.
Proof. solve_decision. Defined.

Record snapshot := Snap {
  s_job : string;
  s_status : snapshot_status;
  s_started : option Z;
  s_completed : option Z;
  s_duration : option Z;
  s_degraded : string;            (** [coalesce(extra_data ->> 'degraded_reason', '')] *)
  s_failure_reason : option string;
  s_settled : bool;               (** [extra_data.reconciler_settled] *)
  s_item_count : option Z;
  s_bytes_total : option Z;
  s_lease : lease_cols;
}.

Record job := Job {
  j_status : job_status;
  j_completed : option Z;
  j_lease : lease_cols;
}.

Record item := Item { i_created : Z; i_size : Z }.

Record work_db := WorkDb {
  d_parts : gmap string partition;
  d_snaps : gmap string snapshot;
  d_jobs : gmap string job;
  d_heartbeats : gmap string Z;
  d_items : gmap string (list item);
}.

Record envelope := MkEnvelope {
  e_id : string; e_snapshot : string; e_type : string; e_index : Z; e_payload : string;
}.

Definition partition_envelope (id : string) (p : partition) : envelope :=
  MkEnvelope id (p_snapshot p) (p_type p) (p_index p) (p_payload p).

Inductive dlq_reason := PoisonPill | UnclaimedExpired.

Record SweepStats := Stats {
  partitions_requeued : nat;
  partitions_dlq : nat;
  snapshots_finalized : nat;
  jobs_finalized : nat;
  requeue_payloads : list envelope;
  partitions_unclaimed_requeued : nat;
  partitions_unclaimed_expired : nat;
}.

Definition stats_total (st : SweepStats) : nat :=
  (partitions_requeued st + partitions_dlq st + snapshots_finalized st + jobs_finalized st)%nat.

(** The lease columns every settling statement leaves behind. *)
Definition fence_off (c : lease_cols) : lease_cols := Cols None None (lc_token c + 1).

(** A worker whose heartbeat is recent. *)
Definition heartbeat_live (hb : gmap string Z) (now : Z) (owner : option string) : bool :=
  match owner with
  | None => false
  | Some w => match hb !! w with
              | Some seen => now - HEARTBEAT_STALE_S * SEC <? seen
              | None => false
              end
  end.

Definition in_flight (p : partition) : bool :=
  bool_decide (p_status p = "QUEUED") || bool_decide (p_status p = "IN_PROGRESS").

Definition is_some {A} (o : option A) : bool := match o with Some _ => true | None => false end.

(** "A worker really took this shard." *)
Definition claim_evidence (p : partition) : bool :=
  bool_decide (p_status p = "IN_PROGRESS") || is_some (p_worker p) || is_some (p_started p)
  || is_some (lc_owner (p_lease p)) || (0 <? p_retry p).

(** [_NEVER_CLAIMED] *)
Definition never_claimed (p : partition) : bool :=
  bool_decide (p_status p = "QUEUED") && negb (is_some (p_worker p)) && negb (is_some (p_started p))
  && negb (is_some (lc_owner (p_lease p))) && (p_retry p =? 0).

(** ** STEP A: partitions *)
Section step_a.
  Context (part_guard locked : string → bool) (hb : gmap string Z) (now : Z).

Definition requeue_where (kp : string * partition) : bool :=
  let '(id, p) := kp in
  in_flight p && part_guard id && negb (heartbeat_live hb now (lc_owner (p_lease p)))
  && lapsed now (p_lease p) && claim_evidence p
  && (p_enqueued p <? now - RECONCILER_PART_STALE_MIN * MIN)
  && (p_requeue p <? RECONCILER_MAX_REQUEUE).

Definition requeue_set (p : partition) : partition :=
  Part (p_snapshot p) (p_type p) (p_index p) (p_payload p) "QUEUED" (p_worker p) (p_started p)
    (p_retry p) now (p_requeue p + 1) (p_failure p) (fence_off (p_lease p)).

Definition unclaimed_where (kp : string * partition) : bool :=
  let '(id, p) := kp in
  never_claimed p && part_guard id && negb (heartbeat_live hb now (lc_owner (p_lease p)))
  && negb (is_some (lc_expires (p_lease p)))
  && (p_enqueued p <? now - RECONCILER_PART_UNCLAIMED_STALE_MIN * MIN)
  && (fs_unclaimed (p_failure p) <? RECONCILER_PART_UNCLAIMED_MAX_REPUBLISH).

Definition unclaimed_set (p : partition) : partition :=
  Part (p_snapshot p) (p_type p) (p_index p) (p_payload p) (p_status p) (p_worker p) (p_started p)
    (p_retry p) now (p_requeue p)
    (FailureState (fs_unclaimed (p_failure p) + 1) (fs_replays (p_failure p))
                  (fs_files_failed (p_failure p)))
    (Cols (lc_owner (p_lease p)) (lc_expires (p_lease p)) (lc_token (p_lease p) + 1)).

(** [_poison_sql] *)
Definition poison_where (kp : string * partition) : bool :=
  let '(id, p) := kp in
  in_flight p && part_guard id && (RECONCILER_MAX_REQUEUE <=? p_requeue p)
  && lapsed now (p_lease p) && claim_evidence p.

Definition replay_where (kp : string * partition) : bool :=
  poison_where kp && (fs_replays (p_failure kp.2) <? RECONCILER_DLQ_REPLAY_MAX).

Definition replay_set (p : partition) : partition :=
  Part (p_snapshot p) (p_type p) (p_index p) (p_payload p) "QUEUED" (p_worker p) (p_started p)
    (p_retry p) now 0
    (FailureState (fs_unclaimed (p_failure p)) (fs_replays (p_failure p) + 1)
                  (fs_files_failed (p_failure p)))
    (fence_off (p_lease p)).

Definition fail_where (kp : string * partition) : bool :=
  poison_where kp && (RECONCILER_DLQ_REPLAY_MAX <=? fs_replays (p_failure kp.2)).

Definition fail_set (p : partition) : partition :=
  Part (p_snapshot p) (p_type p) (p_index p) (p_payload p) "FAILED" (p_worker p) (p_started p)
    (p_retry p) (p_enqueued p) (p_requeue p) (p_failure p) (fence_off (p_lease p)).

Definition expired_where (kp : string * partition) : bool :=
  let '(id, p) := kp in
  never_claimed p && part_guard id && negb (is_some (lc_expires (p_lease p)))
  && (p_enqueued p <? now - RECONCILER_PART_UNCLAIMED_STALE_MIN * MIN)
  && (RECONCILER_PART_UNCLAIMED_MAX_REPUBLISH <=? fs_unclaimed (p_failure p)).

(** [UPDATE ... SET set WHERE where]: the table afterwards. *)
Definition update_where {V} (where_ : string * V → bool) (set_ : V → V) (t : gmap string V)
    : gmap string V :=
  map_imap (λ k v, Some (if where_ (k, v) then set_ v else v)) t.

Definition matching {V} (where_ : string * V → bool) (t : gmap string V) : list (string * V) :=
  filter (λ kv, where_ kv = true) (map_to_list t).

Definition older (a b : string * partition) : Prop := p_enqueued a.2 ≤ p_enqueued b.2.
Global Instance older_dec a b : Decision (older a b).
Proof. unfold older. apply _. Defined.

(** [ORDER BY enqueued_at LIMIT :batch FOR UPDATE SKIP LOCKED] *)
Definition oldest (where_ : string * partition → bool) (t : gmap string partition) : list string :=
  (take RECONCILER_BATCH
    (merge_sort older
      (filter (λ kp, locked kp.1 = false) (matching where_ t)))).*1.

(** The two statements with a batch limit; the envelopes are of the updated rows. *)
Definition batched (where_ : string * partition → bool) (set_ : partition → partition)
    (t : gmap string partition) : gmap string partition * list envelope :=
  let ids := oldest where_ t in
  let t' := update_where (λ kp, bool_decide (kp.1 ∈ ids)) set_ t in
  (t', omap (λ id, partition_envelope id <$> t' !! id) ids).

Definition unbatched (where_ : string * partition → bool) (set_ : partition → partition)
    (t : gmap string partition) : gmap string partition * list envelope :=
  (update_where where_ set_ t,
   (λ kp, partition_envelope kp.1 (set_ kp.2)) <$> matching where_ t).

Definition step_a (t : gmap string partition)
    : gmap string partition * list (envelope * dlq_reason) * SweepStats :=
  let '(t1, requeued) := batched requeue_where requeue_set t in
  let '(t2, unclaimed) := batched unclaimed_where unclaimed_set t1 in
  let '(t3, _) := unbatched replay_where replay_set t2 in
  let '(t4, poison) := unbatched fail_where fail_set t3 in
  let '(t5, expired) := unbatched expired_where fail_set t4 in
  (t5, ((λ e, (e, PoisonPill)) <$> poison) ++ ((λ e, (e, UnclaimedExpired)) <$> expired),
   Stats (length requeued + length unclaimed) (length poison + length expired) 0 0
     (requeued ++ unclaimed) (length unclaimed) (length expired)).
End step_a.

(** ** STEP B: snapshots *)
Definition parts_of (parts : gmap string partition) (sid : string) : list partition :=
  filter (λ p, p_snapshot p = sid) (map_to_list parts).*2.

(** [failure_state.files_failed] is a number above zero. *)
Definition lossy (p : partition) : bool :=
  match fs_files_failed (p_failure p) with Some n => 0 <? n | None => false end.

Definition has_status (s : string) (p : partition) : bool := bool_decide (p_status p = s).

(** The [CASE] of STEP B. *)
Definition settle_status (parts : list partition) (degraded : string) : snapshot_status :=
  if bool_decide (parts = []) then SFailed
  else if existsb lossy parts then SPartial
  else if negb (bool_decide (degraded = "")) then SPartial
  else if forallb (has_status "COMPLETED") parts then SCompleted
  else if forallb (has_status "FAILED") parts then SFailed
  else if existsb (has_status "FAILED") parts then SPartial
  else SFailed.

Definition sum_sizes (l : list item) : Z := foldr (λ i acc, i_size i + acc) 0 l.

Definition settle_reason (parts : list partition) : string :=
  if bool_decide (parts = []) then
    "reconciler: orphaned non-partitioned snapshot — lease expired with no live worker heartbeat and no handler ever finalized it"
  else "reconciler: status derived from partition outcomes (no shard left in flight)".

Section step_b.
  Context (snap_guard : string → bool) (now : Z) (db : work_db).

Definition items_of (sid : string) : list item := default [] (d_items db !! sid).

(** The slow path: a non-partitioned snapshot whose lease has been dead for the
    grace window, with no live heartbeat and no recently committed item. *)
Definition stale_owner (sid : string) (s : snapshot) : bool :=
  (match lc_expires (s_lease s) with
   | Some e => e <? now - SNAP_REAP_LEASE_GRACE_S * SEC
   | None => false
   end
   || (negb (is_some (lc_owner (s_lease s))) &&
       match s_started s with Some t => t <? now - SNAP_LEGACY_AGE_S * SEC | None => false end))
  && negb (heartbeat_live (d_heartbeats db) now (lc_owner (s_lease s)))
  && negb (existsb (λ i, now - SNAP_REAP_PROGRESS_GRACE_S * SEC <? i_created i) (items_of sid)).

Definition settle_where (ks : string * snapshot) : bool :=
  let '(sid, s) := ks in
  let parts := parts_of (d_parts db) sid in
  bool_decide (s_status s = SInProgress) && snap_guard sid
  && negb (existsb in_flight parts)
  && (negb (bool_decide (parts = [])) || stale_owner sid s).

Definition restated (sid : string) (s : snapshot) : option Z * option Z :=
  (Some (Z.max (default 0 (s_item_count s)) (Z.of_nat (length (items_of sid)))),
   Some (Z.max (default 0 (s_bytes_total s)) (sum_sizes (items_of sid)))).

Definition settle_set (sid : string) (s : snapshot) : snapshot :=
  let parts := parts_of (d_parts db) sid in
  let '(n, b) := restated sid s in
  Snap (s_job s) (settle_status parts (s_degraded s)) (s_started s) (Some now)
    (match s_started s with Some t => Some ((now - t) / SEC) | None => s_duration s end)
    (s_degraded s)
    (Some (default (settle_reason parts) (s_failure_reason s))) true n b
    (fence_off (s_lease s)).

Definition step_b : gmap string snapshot * nat :=
  (map_imap (λ sid s, Some (if settle_where (sid, s) then settle_set sid s else s)) (d_snaps db),
   length (matching settle_where (d_snaps db))).
End step_b.

(** ** STEP C: jobs *)
Definition snaps_of (snaps : gmap string snapshot) (jid : string) : list snapshot :=
  filter (λ s, s_job s = jid) (map_to_list snaps).*2.

Definition snap_has (ss : list snapshot_status) (s : snapshot) : bool :=
  bool_decide (s_status s ∈ ss).

(** [job_partial_sql] *)
Definition job_partial (snaps : list snapshot) : bool :=
  existsb (snap_has [SPartial; SFailed]) snaps.

Definition rollup_status (snaps : list snapshot) : job_status :=
  if negb (existsb (snap_has [SCompleted; SPartial; SSkipped]) snaps) then JFailed
  else if job_partial snaps then JPartial
  else JCompleted.

Section step_c.
  Context (job_guard : string → bool) (now : Z) (snaps : gmap string snapshot).

Definition finish_where (kj : string * job) : bool :=
  let '(jid, j) := kj in
  let ss := snaps_of snaps jid in
  bool_decide (j_status j = JRunning) && job_guard jid
  && negb (existsb (snap_has [SInProgress]) ss) && negb (bool_decide (ss = [])).

Definition step_c (jobs : gmap string job) : gmap string job * nat :=
  (map_imap (λ jid j, Some (if finish_where (jid, j)
     then Job (rollup_status (snaps_of snaps jid)) (Some now) (fence_off (j_lease j)) else j)) jobs,
   length (matching finish_where jobs)).
End step_c.

(** ** STEP D: integrity of terminal snapshots *)

(** The [CASE] of STEP D, which the statement's guard repeats. *)
Definition derived_status (parts : list partition) (s : snapshot) : snapshot_status :=
  if forallb (has_status "FAILED") parts then SFailed
  else if existsb (has_status "FAILED") parts || existsb lossy parts
          || negb (bool_decide (s_degraded s = "")) then SPartial
  else if forallb (has_status "COMPLETED") parts then SCompleted
  else s_status s.

Section step_d.
  Context (snap_guard : string → bool) (db : work_db).

Definition integrity_where (ks : string * snapshot) : bool :=
  let '(sid, s) := ks in
  let parts := parts_of (d_parts db) sid in
  snap_guard sid && negb (bool_decide (parts = [])) && negb (existsb in_flight parts)
  && snap_has [SCompleted; SPartial; SFailed] s
  && negb (bool_decide (s_status s = derived_status parts s)).

Definition integrity_set (sid : string) (s : snapshot) : snapshot :=
  let parts := parts_of (d_parts db) sid in
  let '(n, b) := restated db sid s in
  Snap (s_job s) (derived_status parts s) (s_started s) (s_completed s) (s_duration s)
    (s_degraded s) (s_failure_reason s) (s_settled s) n b (fence_off (s_lease s)).

Definition step_d : gmap string snapshot :=
  map_imap (λ sid s, Some (if integrity_where (sid, s) then integrity_set sid s else s)) (d_snaps db).
End step_d.

(** ** The sweep *)
Record sweep_env := SweepEnv {
  se_part_guard : string → bool;
  se_snap_guard : string → bool;
  se_job_guard : string → bool;
  se_locked : string → bool;
  se_dry_run : bool;
}.

Definition with_parts (db : work_db) t := WorkDb t (d_snaps db) (d_jobs db) (d_heartbeats db) (d_items db).
Definition with_snaps (db : work_db) t := WorkDb (d_parts db) t (d_jobs db) (d_heartbeats db) (d_items db).
Definition with_jobs (db : work_db) t := WorkDb (d_parts db) (d_snaps db) t (d_heartbeats db) (d_items db).

(** What the four steps compute, before the commit or rollback. *)
Definition sweep_body (env : sweep_env) (now : Z) (db : work_db)
    : work_db * list (envelope * dlq_reason) * SweepStats :=
  let '(parts, dlq, st) :=
    step_a (se_part_guard env) (se_locked env) (d_heartbeats db) now (d_parts db) in
  let db1 := with_parts db parts in
  let '(snaps, nb) := step_b (se_snap_guard env) now db1 in
  let db2 := with_snaps db1 snaps in
  let '(jobs, nc) := step_c (se_job_guard env) now snaps (d_jobs db2) in
  let db3 := with_jobs db2 jobs in
  (with_snaps db3 (step_d (se_snap_guard env) db3), dlq,
   Stats (partitions_requeued st) (partitions_dlq st) nb nc (requeue_payloads st)
     (partitions_unclaimed_requeued st) (partitions_unclaimed_expired st)).

(** [sweep_orphans]: the committed tables and dead letters, and the stats. *)
Definition sweep_orphans (env : sweep_env) (now : Z) (db : work_db)
    : work_db * list (envelope * dlq_reason) * SweepStats :=
  let '(db', dlq, st) := sweep_body env now db in
  if se_dry_run env then (db, [], st) else (db', dlq, st).

(** ** Republishing *)
Definition PARTITION_QUEUE_BY_TYPE : gmap string string :=
  list_to_map [("ONEDRIVE_FILES", "backup.onedrive_partition"); ("CHATS", "backup.chats_partition");
    ("MAIL_FOLDERS", "backup.mail_partition"); ("SHAREPOINT_DRIVES", "backup.sharepoint_partition");
    ("GROUPS_CHANNELS", "backup.groups_partition"); ("ENTRA_CATEGORIES", "backup.entra_partition")].

Definition MESSAGE_TYPE_BY_PARTITION_TYPE : gmap string string :=
  list_to_map [("ONEDRIVE_FILES", "BACKUP_ONEDRIVE_PARTITION"); ("CHATS", "BACKUP_CHATS_PARTITION");
    ("MAIL_FOLDERS", "BACKUP_MAIL_PARTITION"); ("SHAREPOINT_DRIVES", "BACKUP_SHAREPOINT_PARTITION");
    ("GROUPS_CHANNELS", "BACKUP_GROUPS_PARTITION"); ("ENTRA_CATEGORIES", "BACKUP_ENTRA_PARTITION")].

Definition queue_for_partition_type (ptype : string) : option string :=
  if bool_decide (ptype = "") then None else PARTITION_QUEUE_BY_TYPE !! ptype.

Definition message_type_for_partition_type (ptype : string) : option string :=
  if bool_decide (ptype = "") then None else MESSAGE_TYPE_BY_PARTITION_TYPE !! ptype.

Record message := Message { m_queue : string; m_type : string; m_body : envelope }.

(** [accepts] says which publishes the broker takes; the others raise and are
    counted out. *)
Definition republish_partition_messages (accepts : message → bool) (st : SweepStats)
    : list message * nat :=
  let sent := filter (λ m, accepts m = true)
    (omap (λ e, q ← queue_for_partition_type (e_type e);
                t ← message_type_for_partition_type (e_type e);
                Some (Message q t e)) (requeue_payloads st)) in
  (sent, length sent).

(** The sweep and the republish of one tick of [start_orphan_sweeper_loop]. *)
Definition sweep_tick (env : sweep_env) (accepts : message → bool) (now : Z) (db : work_db)
    : work_db * list (envelope * dlq_reason) * list message :=
  let '(db', dlq, st) := sweep_orphans env now db in
  (db', dlq,
   match requeue_payloads st with
   | [] => []
   | _ => (republish_partition_messages accepts st).1
   end).

(** ** Partitions under sweeps *)
Global Instance failure_state_eq_dec : EqDecision failure_state.
Proof. solve_decision. Defined.
Global Instance lease_cols_eq_dec : EqDecision lease_cols.
Proof. solve_decision. Defined.
Global Instance partition_eq_dec : EqDecision partition.
Proof. solve_decision. Defined.

Lemma lookup_update_where {V} (w : string * V → bool) set_ (t : gmap string V) k :
  update_where w set_ t !! k = (λ v, if w (k, v) then set_ v else v) <$> t !! k.
Proof. unfold update_where. rewrite map_lookup_imap. by destruct (t !! k). Qed.

Lemma size_update_where {V} (w : string * V → bool) set_ (t : gmap string V) :
  size (update_where w set_ t) = size t.
Proof.
  rewrite <-!size_dom. f_equal. apply set_eq. intros k.
  rewrite !elem_of_dom, lookup_update_where. by rewrite fmap_is_Some.
Qed.

Lemma elem_of_matching {V} (w : string * V → bool) (t : gmap string V) k v :
  (k, v) ∈ matching w t ↔ t !! k = Some v ∧ w (k, v) = true.
Proof. unfold matching. rewrite list_elem_of_filter, elem_of_map_to_list. tauto. Qed.

Lemma elem_of_oldest locked w t id :
  id ∈ oldest locked w t → ∃ p, t !! id = Some p ∧ w (id, p) = true ∧ locked id = false.
Proof.
  unfold oldest. rewrite list_elem_of_fmap. intros ([k p] & -> & Hin). simpl.
  apply elem_of_take in Hin as (i & Hi & _). apply list_elem_of_lookup_2 in Hi.
  rewrite merge_sort_Permutation, list_elem_of_filter, elem_of_matching in Hi. naive_solver.
Qed.

Lemma oldest_complete locked w t id p :
  (size t ≤ RECONCILER_BATCH)%nat →
  t !! id = Some p → w (id, p) = true → locked id = false → id ∈ oldest locked w t.
Proof.
  intros Hsz Hp Hw Hl. unfold oldest. rewrite list_elem_of_fmap. exists (id, p). split; [done|].
  rewrite take_ge; [rewrite merge_sort_Permutation, list_elem_of_filter, elem_of_matching; done|].
  rewrite merge_sort_Permutation. etrans; [apply length_filter|].
  unfold matching. etrans; [apply length_filter|]. by rewrite length_map_to_list.
Qed.

#[global] Instance older_total : Total older.
Proof. intros x y. unfold older. lia. Qed.
#[global] Instance older_trans : Transitive older.
Proof. intros x y z. unfold older. lia. Qed.

(** A row that is left out of a batch: the batch is full of rows before it. *)
Lemma oldest_full locked w t id p :
  t !! id = Some p → w (id, p) = true → locked id = false → id ∉ oldest locked w t →
  length (oldest locked w t) = RECONCILER_BATCH ∧ NoDup (oldest locked w t) ∧
  ∀ k, k ∈ oldest locked w t → ∃ q, t !! k = Some q ∧ w (k, q) = true ∧ p_enqueued q ≤ p_enqueued p.
Proof.
  intros Hp Hw Hl Hn. unfold oldest in *. set (l := merge_sort older _) in *.
  assert (Hin : (id, p) ∈ l) by (unfold l; rewrite merge_sort_Permutation, list_elem_of_filter, elem_of_matching; done).
  assert (Hnd : NoDup l.*1).
  { unfold l. rewrite (merge_sort_Permutation older _). apply NoDup_fmap_filter. unfold matching.
    apply NoDup_fmap_filter, NoDup_fst_map_to_list. }
  assert (Hsort : StronglySorted older l) by (apply Sorted_StronglySorted; [apply _|apply (Sorted_merge_sort older)]).
  assert (Hdrop : (id, p) ∈ drop RECONCILER_BATCH l).
  { rewrite <- (take_drop RECONCILER_BATCH l) in Hin. apply elem_of_app in Hin as [Hin|Hin]; [|done].
    exfalso. apply Hn, list_elem_of_fmap. by exists (id, p). }
  split; [|split].
  - rewrite length_fmap, length_take. assert (drop RECONCILER_BATCH l ≠ []) as Hd by (intros E; rewrite E in Hdrop; by apply not_elem_of_nil in Hdrop).
    destruct (decide (RECONCILER_BATCH ≤ length l)%nat); [lia|]. destruct Hd. apply drop_ge. lia.
  - rewrite fmap_take. rewrite <- (take_drop RECONCILER_BATCH l.*1) in Hnd. by apply NoDup_app in Hnd as [? _].
  - intros k (kq & -> & Hk)%list_elem_of_fmap. destruct kq as [k q].
    assert (Hkl : (k, q) ∈ l) by (by eapply elem_of_take in Hk as (i & Hi & _); eapply list_elem_of_lookup_2).
    unfold l in Hkl. rewrite merge_sort_Permutation, list_elem_of_filter, elem_of_matching in Hkl.
    exists q. split_and!; [tauto..|]. rewrite <- (take_drop RECONCILER_BATCH l) in Hsort.
    apply (StronglySorted_app_1_elem_of older _ _ (k, q) (id, p) Hsort Hk Hdrop).
Qed.

(** What the five statements of STEP A do to one row; [sel1] and [sel2] say
    whether the two batched statements picked it. *)
Definition row_tail guard now (id : string) (p : partition) : partition :=
  let p3 := if replay_where guard now (id, p) then replay_set now p else p in
  let p4 := if fail_where guard now (id, p3) then fail_set p3 else p3 in
  if expired_where guard now (id, p4) then fail_set p4 else p4.

Definition row_sweep guard now (id : string) (sel1 sel2 : bool) (p : partition) : partition :=
  let p1 := if sel1 then requeue_set now p else p in
  let p2 := if sel2 then unclaimed_set now p1 else p1 in
  row_tail guard now id p2.

Section step_a_rows.
  Context (guard locked : string → bool) (hb : gmap string Z) (now : Z).
  Implicit Types (t : gmap string partition) (p : partition).

Definition requeued_table t : gmap string partition :=
  (batched locked (requeue_where guard hb now) (requeue_set now) t).1.

Definition sel1 t id : bool := bool_decide (id ∈ oldest locked (requeue_where guard hb now) t).
Definition sel2 t id : bool :=
  bool_decide (id ∈ oldest locked (unclaimed_where guard hb now) (requeued_table t)).

Lemma lookup_requeued_table t id :
  requeued_table t !! id = (λ p, if sel1 t id then requeue_set now p else p) <$> t !! id.
Proof. unfold requeued_table, batched. simpl. by rewrite lookup_update_where. Qed.

Lemma lookup_step_a t id :
  (step_a guard locked hb now t).1.1 !! id =
  row_sweep guard now id (sel1 t id) (sel2 t id) <$> t !! id.
Proof.
  unfold step_a, unbatched. unfold sel2, requeued_table.
  destruct (batched _ (requeue_where _ _ _) _ t) as [t1 rq] eqn:H1.
  destruct (batched _ (unclaimed_where _ _ _) _ t1) as [t2 un] eqn:H2. cbn [fst].
  rewrite !lookup_update_where.
  assert (t2 !! id = (λ p, if bool_decide (id ∈ oldest locked (unclaimed_where guard hb now) t1)
            then unclaimed_set now p else p) <$> t1 !! id) as ->.
  { unfold batched in H2. injection H2 as <- _. by rewrite lookup_update_where. }
  assert (t1 !! id = (λ p, if sel1 t id then requeue_set now p else p) <$> t !! id) as ->.
  { rewrite <-lookup_requeued_table. unfold requeued_table. by rewrite H1. }
  unfold row_sweep, row_tail. destruct (t !! id) as [p|]; reflexivity.
Qed.

Lemma sel1_where t id p : t !! id = Some p → sel1 t id = true →
  requeue_where guard hb now (id, p) = true.
Proof.
  intros Hp Hs. unfold sel1 in Hs. bools. apply elem_of_oldest in Hs as (? & ? & ? & _). congruence.
Qed.

Lemma sel2_where t id p : t !! id = Some p → sel2 t id = true →
  unclaimed_where guard hb now (id, if sel1 t id then requeue_set now p else p) = true.
Proof.
  intros Hp Hs. unfold sel2 in Hs. bools. apply elem_of_oldest in Hs as (q & Hq & ? & _).
  rewrite lookup_requeued_table, Hp in Hq. simpl in Hq. congruence.
Qed.

(** ** The budget of a partition *)

(** How many more times the reconciler will put the row back in its queue. *)
Definition budget p : Z :=
  Z.max 0 (RECONCILER_DLQ_REPLAY_MAX - fs_replays (p_failure p)) * (RECONCILER_MAX_REQUEUE + 1)
  + Z.max 0 (RECONCILER_MAX_REQUEUE - p_requeue p)
  + Z.max 0 (RECONCILER_PART_UNCLAIMED_MAX_REPUBLISH - fs_unclaimed (p_failure p)).

Lemma budget_nonneg p : 0 ≤ budget p.
Proof.
  unfold budget, RECONCILER_DLQ_REPLAY_MAX, RECONCILER_MAX_REQUEUE,
    RECONCILER_PART_UNCLAIMED_MAX_REPUBLISH. lia.
Qed.

(** Unchanged, or put back with a smaller budget, or failed; and then fenced. *)
Definition descends p p' : Prop :=
  p' = p ∨
  in_flight p = true ∧ lc_token (p_lease p) < lc_token (p_lease p') ∧
  (in_flight p' = true ∧ budget p' < budget p ∨ p_status p' = "FAILED").

Lemma failed_not_in_flight p : p_status p = "FAILED" → in_flight p = false.
Proof. unfold in_flight. by intros ->. Qed.

Lemma descends_trans p1 p2 p3 : descends p1 p2 → descends p2 p3 → descends p1 p3.
Proof.
  intros [->|(Hf1 & Ht1 & H1)] H2; [done|]. destruct H2 as [->|(Hf2 & Ht2 & H2)]; [by right|].
  right. split_and!; [done|lia|].
  destruct H1 as [[? ?]|Hfail%failed_not_in_flight]; [|congruence].
  destruct H2 as [[? ?]|?]; [left; split; [done|lia]|by right].
Qed.

Lemma descends_if (b : bool) p p' : (b = true → descends p p') → descends p (if b then p' else p).
Proof. destruct b; [auto|by left]. Qed.

Lemma requeue_descends id p : requeue_where guard hb now (id, p) = true → descends p (requeue_set now p).
Proof.
  intros Hw. simpl in Hw. bools. right. split_and!; [done|simpl; lia|]. left. split; [done|].
  unfold budget; simpl. lia.
Qed.

Lemma never_claimed_in_flight p : never_claimed p = true → in_flight p = true.
Proof. unfold never_claimed, in_flight. intros Hn. bools. by rewrite bool_decide_eq_true_2. Qed.

Lemma unclaimed_descends id p :
  unclaimed_where guard hb now (id, p) = true → descends p (unclaimed_set now p).
Proof.
  intros Hw. simpl in Hw. bools. right.
  assert (in_flight p = true) by (by apply never_claimed_in_flight).
  split_and!; [done|simpl; lia|]. left. split; [done|]. unfold budget; simpl. lia.
Qed.

Lemma replay_descends id p : replay_where guard now (id, p) = true → descends p (replay_set now p).
Proof.
  intros Hw. unfold replay_where in Hw. simpl in Hw. bools. right. split_and!; [done|simpl; lia|].
  left. split; [done|]. unfold budget, RECONCILER_DLQ_REPLAY_MAX, RECONCILER_MAX_REQUEUE in *. simpl. lia.
Qed.

Lemma fail_descends id p : fail_where guard now (id, p) = true → descends p (fail_set p).
Proof.
  intros Hw. unfold fail_where in Hw. simpl in Hw. bools. right.
  split_and!; [done|simpl; lia|by right].
Qed.

Lemma expired_descends id p : expired_where guard now (id, p) = true → descends p (fail_set p).
Proof.
  intros Hw. simpl in Hw. bools. right. split_and!; [by apply never_claimed_in_flight|simpl; lia|by right].
Qed.

Lemma row_tail_descends id p : descends p (row_tail guard now id p).
Proof.
  eapply descends_trans; [apply descends_if, (replay_descends id)|].
  eapply descends_trans; [apply descends_if, (fail_descends id)|].
  apply descends_if, (expired_descends id).
Qed.

Lemma row_sweep_descends id b1 b2 p :
  (b1 = true → requeue_where guard hb now (id, p) = true) →
  (b2 = true → unclaimed_where guard hb now (id, if b1 then requeue_set now p else p) = true) →
  descends p (row_sweep guard now id b1 b2 p).
Proof.
  intros H1 H2. unfold row_sweep.
  eapply descends_trans; [apply (descends_if b1); eauto using requeue_descends|].
  eapply descends_trans; [apply (descends_if b2); eauto using unclaimed_descends|].
  apply row_tail_descends.
Qed.

Lemma step_a_descends t id p :
  t !! id = Some p → ∃ p', (step_a guard locked hb now t).1.1 !! id = Some p' ∧ descends p p'.
Proof.
  intros Hp. rewrite lookup_step_a, Hp. eexists. split; [done|].
  apply row_sweep_descends; eauto using sel1_where, sel2_where.
Qed.

(** A row under an unexpired lease is in no statement's [WHERE]. *)
Lemma leased_row_sweep id b1 b2 p e :
  lc_expires (p_lease p) = Some e → now ≤ e →
  (b1 = true → requeue_where guard hb now (id, p) = true) →
  (b2 = true → unclaimed_where guard hb now (id, if b1 then requeue_set now p else p) = true) →
  row_sweep guard now id b1 b2 p = p.
Proof.
  intros He Hle H1 H2.
  assert (lapsed now (p_lease p) = false) as Hl by (unfold lapsed; rewrite He; apply Z.ltb_ge; lia).
  assert (b1 = false) as ->.
  { destruct b1; [|done]. specialize (H1 eq_refl). simpl in H1. bools. congruence. }
  assert (b2 = false) as ->.
  { destruct b2; [|done]. specialize (H2 eq_refl). simpl in H2. rewrite He in H2. bools. done. }
  assert (poison_where guard now (id, p) = false) as Hp
    by (unfold poison_where; by rewrite Hl, andb_false_r).
  unfold row_sweep, row_tail, replay_where, fail_where. rewrite !Hp. cbn [andb]. rewrite Hp. cbn [andb].
  unfold expired_where. rewrite He. cbn [is_some negb]. by rewrite !andb_false_r.
Qed.
End step_a_rows.

(** ** Histories of sweeps *)
Lemma sweep_parts env now db :
  d_parts (sweep_orphans env now db).1.1 =
  if se_dry_run env then d_parts db
  else (step_a (se_part_guard env) (se_locked env) (d_heartbeats db) now (d_parts db)).1.1.
Proof.
  unfold sweep_orphans, sweep_body.
  destruct (step_a _ _ _ _ _) as [[parts dlq] st], (step_b _ _ _) as [snaps nb], (step_c _ _ _ _) as [jobs nc].
  by destruct (se_dry_run env).
Qed.

Lemma sweep_heartbeats env now db :
  d_heartbeats (sweep_orphans env now db).1.1 = d_heartbeats db.
Proof.
  unfold sweep_orphans, sweep_body.
  destruct (step_a _ _ _ _ _) as [[parts dlq] st], (step_b _ _ _) as [snaps nb], (step_c _ _ _ _) as [jobs nc].
  by destruct (se_dry_run env).
Qed.

Lemma sweep_descends env now db id p :
  d_parts db !! id = Some p →
  ∃ p', d_parts (sweep_orphans env now db).1.1 !! id = Some p' ∧ descends p p'.
Proof.
  intros Hp. rewrite sweep_parts. destruct (se_dry_run env); [|by apply step_a_descends].
  exists p. split; [done|by left].
Qed.

Abbreviation schedule := (list (sweep_env * Z)).

Fixpoint run_sweeps (runs : schedule) (db : work_db) : work_db :=
  match runs with
  | [] => db
  | (env, now) :: runs => run_sweeps runs (sweep_orphans env now db).1.1
  end.

(** How many of the sweeps changed the row. *)
Fixpoint touches (id : string) (runs : schedule) (db : work_db) : nat :=
  match runs with
  | [] => 0
  | (env, now) :: runs =>
    let db' := (sweep_orphans env now db).1.1 in
    ((if bool_decide (d_parts db' !! id = d_parts db !! id) then 0 else 1) + touches id runs db')%nat
  end.

Lemma terminal_untouched id runs db p :
  d_parts db !! id = Some p → in_flight p = false →
  touches id runs db = 0%nat ∧ d_parts (run_sweeps runs db) !! id = Some p.
Proof.
  revert db. induction runs as [|[env now] runs IH]; intros db Hp Hf; [done|].
  destruct (sweep_descends env now db id p Hp) as (p' & Hp' & [->|[? _]]); [|congruence].
  cbn [touches run_sweeps]. rewrite Hp, Hp', bool_decide_eq_true_2 by done. by apply IH.
Qed.

(** Requeueing is bounded: whatever the sweeps' times, guards, locks and
    batches, the reconciler changes one partition at most its remaining budget of
    requeues, replays and republishes plus once (to fail it); it cannot requeue a
    shard for ever. *)
Theorem partition_sweeps_are_bounded id runs db p :
  d_parts db !! id = Some p → Z.of_nat (touches id runs db) ≤ budget p + 1.
Proof.
  revert db p. induction runs as [|[env now] runs IH]; intros db p Hp; cbn [touches].
  { pose proof (budget_nonneg p). lia. }
  destruct (sweep_descends env now db id p Hp) as (p' & Hp' & Hd). rewrite Hp, Hp'.
  destruct Hd as [->|(_ & _ & [[_ Hb]|Hfail])].
  - rewrite bool_decide_eq_true_2 by done. by apply IH.
  - specialize (IH _ _ Hp'). case_bool_decide; lia.
  - destruct (terminal_untouched id runs (sweep_orphans env now db).1.1 p') as [-> _];
      [done|by apply failed_not_in_flight|]. pose proof (budget_nonneg p). case_bool_decide; lia.
Qed.

(** A live worker is left alone: the sweep does not touch a partition whose
    lease has not expired, whatever its age and counters. *)
Theorem sweep_spares_leased_partitions env now db id p e :
  d_parts db !! id = Some p → lc_expires (p_lease p) = Some e → now ≤ e →
  d_parts (sweep_orphans env now db).1.1 !! id = Some p.
Proof.
  intros Hp He Hle. rewrite sweep_parts. destruct (se_dry_run env); [done|].
  rewrite lookup_step_a, Hp. simpl. f_equal.
  eapply leased_row_sweep; [done..|by apply sel1_where|by apply sel2_where].
Qed.

(** ** An abandoned partition ends *)

(** No worker has held or heard of the row since [from]. *)
Record abandoned_since (from : Z) (hb : gmap string Z) (p : partition) : Prop := {
  ab_flight : in_flight p = true;
  ab_enqueued : p_enqueued p ≤ from;
  ab_retry : 0 ≤ p_retry p;
  ab_wf : lc_owner (p_lease p) = None → lc_expires (p_lease p) = None;
  ab_expired : ∀ e, lc_expires (p_lease p) = Some e → e ≤ from;
  ab_silent : ∀ w seen, lc_owner (p_lease p) = Some w → hb !! w = Some seen → seen ≤ from;
}.

(** Back in its queue, unowned, since [now]. *)
Definition parked (now : Z) (p : partition) : Prop :=
  in_flight p = true ∧ p_enqueued p = now ∧ 0 ≤ p_retry p ∧
  lc_owner (p_lease p) = None ∧ lc_expires (p_lease p) = None.

Lemma parked_abandoned now hb p : parked now p → abandoned_since now hb p.
Proof. intros (? & ? & ? & Ho & He). split; rewrite ?Ho, ?He; (done || lia). Qed.

Definition token_of (p : partition) : Z := lc_token (p_lease p).

Lemma descends_token p p' : descends p p' → token_of p ≤ token_of p'.
Proof. unfold token_of. intros [->|(_ & ? & _)]; lia. Qed.

Section abandoned.
  Context (guard locked : string → bool) (hb : gmap string Z) (now : Z) (id : string).
  Context (Hguard : guard id = true).
  Implicit Types p : partition.

Lemma row_sweep_parks (b1 b2 : bool) p :
  0 ≤ p_retry p →
  (b2 = true → unclaimed_where guard hb now (id, if b1 then requeue_set now p else p) = true) →
  let p' := row_sweep guard now id b1 b2 p in
  p' = p ∨ parked now p' ∨ p_status p' = "FAILED".
Proof using.
  clear locked.
  intros Hr H2. unfold row_sweep, row_tail.
  set (p1 := if b1 then requeue_set now p else p) in *. assert (p1 = p ∨ parked now p1) as H1.
  { unfold p1. destruct b1; [right|by left]. by split_and!. }
  set (p2 := if b2 then unclaimed_set now p1 else p1). assert (p2 = p ∨ parked now p2) as H2'.
  { unfold p2. destruct b2; [|done]. specialize (H2 eq_refl). simpl in H2. bools. right.
    assert (0 ≤ p_retry p1) by (unfold p1; by destruct b1).
    unfold never_claimed in *. bools. unfold is_some in *.
    split_and!; simpl; try done.
    - unfold in_flight. simpl. by rewrite bool_decide_eq_true_2.
    - by destruct (lc_owner (p_lease p1)).
    - by destruct (lc_expires (p_lease p1)). }
  assert (0 ≤ p_retry p2) by (unfold p2, p1; by destruct b2, b1).
  clearbody p2. clear p1 H1 H2.
  set (p3 := if replay_where guard now (id, p2) then replay_set now p2 else p2). assert (p3 = p ∨ parked now p3) as H3.
  { unfold p3. destruct (replay_where _ _ _); [right; by split_and!|done]. }
  clearbody p3. set (p4 := if fail_where guard now (id, p3) then fail_set p3 else p3).
  assert (p4 = p ∨ parked now p4 ∨ p_status p4 = "FAILED") as H4.
  { unfold p4. destruct (fail_where _ _ _); [by right; right|naive_solver]. }
  clearbody p4. destruct (expired_where _ _ _); [by right; right|done].
Qed.

Lemma never_or_claimed p :
  in_flight p = true → 0 ≤ p_retry p → claim_evidence p = false → never_claimed p = true.
Proof.
  unfold in_flight, claim_evidence, never_claimed. intros Hf Hr Hc. bools.
  assert (p_status p = "QUEUED") as Hq.
  { apply orb_true_iff in Hf as [Hf|Hf]; bools; done. }
  rewrite bool_decide_eq_true_2 by done. repeat match goal with H : is_some _ = false |- _ => rewrite H; clear H end.
  simpl. apply Z.eqb_eq. lia.
Qed.

Lemma tail_moves_poison p :
  poison_where guard now (id, p) = true → token_of p < token_of (row_tail guard now id p).
Proof.
  intros Hp. unfold row_tail.
  set (p3 := if replay_where guard now (id, p) then replay_set now p else p).
  set (p4 := if fail_where guard now (id, p3) then fail_set p3 else p3).
  assert (token_of p4 ≤ token_of (if expired_where guard now (id, p4) then fail_set p4 else p4)) as Hle.
  { apply descends_token, descends_if, (expired_descends guard now id). }
  enough (token_of p < token_of p4) by lia. clear Hle. subst p4 p3.
  destruct (replay_where guard now (id, p)) eqn:Hr.
  - eapply Z.lt_le_trans; [|apply descends_token, descends_if, (fail_descends guard now id)].
    unfold token_of; simpl; lia.
  - assert (fail_where guard now (id, p) = true) as ->; [|unfold token_of; simpl; lia].
    unfold replay_where, fail_where in *. rewrite Hp in *. simpl in *. bools. by apply Z.leb_le.
Qed.

Lemma tail_moves_expired p :
  expired_where guard now (id, p) = true → token_of p < token_of (row_tail guard now id p).
Proof.
  intros He. destruct (poison_where guard now (id, p)) eqn:Hp; [by apply tail_moves_poison|].
  unfold row_tail, replay_where, fail_where. rewrite Hp. cbn [andb]. rewrite Hp. cbn [andb].
  rewrite He. unfold token_of; simpl; lia.
Qed.

Lemma sweep_moves (b1 b2 : bool) p :
  (b1 = true → requeue_where guard hb now (id, p) = true) →
  (b2 = true → unclaimed_where guard hb now (id, if b1 then requeue_set now p else p) = true) →
  b1 = true ∨ b2 = true → token_of p < token_of (row_sweep guard now id b1 b2 p).
Proof.
  intros H1 H2 Hb. unfold row_sweep.
  eapply Z.lt_le_trans; [|apply descends_token, (row_tail_descends guard now id)].
  assert (token_of p ≤ token_of (if b1 then requeue_set now p else p)).
  { apply descends_token, descends_if. eauto using requeue_descends. }
  destruct b1, b2; unfold token_of in *; simpl in *; try lia.
Qed.

(** The statement that should take the row left it out of its batch. *)
Definition passed_over t p : Prop :=
  (requeue_where guard hb now (id, p) = true ∧ id ∉ oldest locked (requeue_where guard hb now) t) ∨
  (unclaimed_where guard hb now (id, p) = true ∧ sel1 guard locked hb now t id = false ∧
   id ∉ oldest locked (unclaimed_where guard hb now) (requeued_table guard locked hb now t)).

Lemma abandoned_row_moves t from p :
  t !! id = Some p → abandoned_since from hb p → from + 60 * MIN < now →
  token_of p < token_of (row_sweep guard now id (sel1 guard locked hb now t id)
                           (sel2 guard locked hb now t id) p) ∨ passed_over t p.
Proof.
  intros Hp [Hf He Hr Hwf Hex Hsil] Hnow.
  assert (lapsed now (p_lease p) = true) as Hl.
  { unfold lapsed. destruct (lc_expires (p_lease p)) as [e|] eqn:Hx; [|done].
    apply Z.ltb_lt. specialize (Hex e eq_refl). unfold MIN, SEC in *. lia. }
  assert (heartbeat_live hb now (lc_owner (p_lease p)) = false) as Hhb.
  { unfold heartbeat_live. destruct (lc_owner (p_lease p)) as [w|] eqn:Ho; [|done].
    destruct (hb !! w) as [seen|] eqn:Hw; [|done]. apply Z.ltb_ge.
    specialize (Hsil w seen eq_refl Hw). unfold HEARTBEAT_STALE_S, MIN, SEC in *. lia. }
  assert ((p_enqueued p <? now - RECONCILER_PART_UNCLAIMED_STALE_MIN * MIN) = true) as Hage.
  { apply Z.ltb_lt. unfold RECONCILER_PART_UNCLAIMED_STALE_MIN, MIN, SEC in *. lia. }
  pose proof (sel1_where guard locked hb now t id p Hp) as H1.
  pose proof (sel2_where guard locked hb now t id p Hp) as H2. unfold passed_over.
  destruct (sel1 guard locked hb now t id) eqn:Hs1; [left; apply sweep_moves; eauto|].
  destruct (sel2 guard locked hb now t id) eqn:Hs2; [left; apply sweep_moves; eauto|].
  unfold row_sweep. destruct (claim_evidence p) eqn:Hc.
  - destruct (decide (RECONCILER_MAX_REQUEUE ≤ p_requeue p)) as [Hrq|Hrq].
    + left. apply tail_moves_poison. unfold poison_where. rewrite Hf, Hguard, Hl, Hc, !andb_true_r. by apply Z.leb_le.
    + right. left. unfold sel1 in Hs1. apply bool_decide_eq_false in Hs1. split; [|done]. unfold requeue_where.
      rewrite Hf, Hguard, Hhb, Hl, Hc. assert ((p_requeue p <? RECONCILER_MAX_REQUEUE) = true) as -> by (apply Z.ltb_lt; lia).
      simpl. rewrite andb_true_r. apply Z.ltb_lt. bools.
      unfold RECONCILER_PART_STALE_MIN, RECONCILER_PART_UNCLAIMED_STALE_MIN, MIN, SEC in *. lia.
  - assert (never_claimed p = true) as Hn by (by apply never_or_claimed).
    assert (lc_expires (p_lease p) = None) as Hxn.
    { apply Hwf. unfold never_claimed in Hn. bools. by destruct (lc_owner (p_lease p)). }
    destruct (decide (RECONCILER_PART_UNCLAIMED_MAX_REPUBLISH ≤ fs_unclaimed (p_failure p))) as [Hu|Hu].
    + left. apply tail_moves_expired. unfold expired_where. rewrite Hn, Hguard, Hage, Hxn. simpl. by apply Z.leb_le.
    + right. right. unfold sel2 in Hs2. apply bool_decide_eq_false in Hs2. split; [|done].
      unfold unclaimed_where. rewrite Hn, Hguard, Hhb, Hage, Hxn. simpl. apply Z.ltb_lt. lia.
Qed.
End abandoned.

(** *** The queue of the batched statements *)

(** The shards in flight, and those of them that were queued no later than [e]. *)
Definition flying (t : gmap string partition) : gset string := dom (filter (λ kp, in_flight kp.2 = true) t).
Definition ahead (e : Z) (t : gmap string partition) : gset string :=
  dom (filter (λ kp, in_flight kp.2 = true ∧ p_enqueued kp.2 ≤ e) t).

Lemma elem_of_flying t id : id ∈ flying t ↔ ∃ p, t !! id = Some p ∧ in_flight p = true.
Proof.
  unfold flying. rewrite elem_of_dom. split.
  - intros [p [Hp Hf]%map_lookup_filter_Some]. by exists p.
  - intros (p & Hp & Hf). exists p. by apply map_lookup_filter_Some.
Qed.

Lemma elem_of_ahead e t id : id ∈ ahead e t ↔ ∃ p, t !! id = Some p ∧ in_flight p = true ∧ p_enqueued p ≤ e.
Proof.
  unfold ahead. rewrite elem_of_dom. split.
  - intros [p [Hp Hf]%map_lookup_filter_Some]. by exists p.
  - intros (p & Hp & Hf). exists p. by apply map_lookup_filter_Some.
Qed.

Lemma ahead_flying e t : (size (ahead e t) ≤ size (flying t))%nat.
Proof. apply subseteq_size. intros id (p & Hp & Hf & _)%elem_of_ahead. apply elem_of_flying. by exists p. Qed.

Section queue.
  Context (guard locked : string → bool) (hb : gmap string Z) (now : Z).
  Implicit Types (t : gmap string partition) (p : partition).

(** At the end of the queue, or out of it. *)
Definition behind p : Prop := p_enqueued p = now ∨ in_flight p = false.

Lemma behind_tail id p : behind p → behind (row_tail guard now id p).
Proof.
  intros H. unfold row_tail.
  assert (∀ (b : bool) q, behind q → behind (if b then fail_set q else q)) as Hf by (intros []; [by right|done]).
  apply Hf, Hf. destruct (replay_where _ _ _); [by left|done].
Qed.

Lemma tail_behind id p : row_tail guard now id p = p ∨ behind (row_tail guard now id p).
Proof.
  unfold row_tail. destruct (replay_where _ _ _).
  - right. assert (∀ (b : bool) q, behind q → behind (if b then fail_set q else q)) as Hf by (intros []; [by right|done]).
    apply Hf, Hf. by left.
  - destruct (fail_where _ _ _); [right; destruct (expired_where _ _ _); by right|].
    destruct (expired_where _ _ _); [right; by right|by left].
Qed.

Lemma sweep_behind id b1 b2 p :
  row_sweep guard now id b1 b2 p = p ∧ b1 = false ∧ b2 = false ∨ behind (row_sweep guard now id b1 b2 p).
Proof.
  unfold row_sweep. destruct b2; [right; apply behind_tail; by left|]. destruct b1; [right; apply behind_tail; by left|].
  destruct (tail_behind id p) as [->|?]; [by left|by right].
Qed.

(** What is still ahead of [e < now] after a sweep was ahead before, and not in a batch. *)
Lemma step_a_ahead e t id :
  e < now → id ∈ ahead e (step_a guard locked hb now t).1.1 →
  id ∈ ahead e t ∧ sel1 guard locked hb now t id = false ∧ sel2 guard locked hb now t id = false.
Proof.
  intros He (p' & Hp' & Hf & Hq)%elem_of_ahead. rewrite lookup_step_a in Hp'.
  destruct (t !! id) as [p|] eqn:Hp; [|done]. simpl in Hp'. apply (inj Some) in Hp'.
  destruct (sweep_behind id (sel1 guard locked hb now t id) (sel2 guard locked hb now t id) p) as [(Hs & ? & ?)|[Hb|Hb]];
    [rewrite Hp' in Hs|rewrite Hp' in Hb; lia|congruence].
  rewrite Hs in Hf, Hq. split_and!; [apply elem_of_ahead; by exists p|done..].
Qed.

Lemma flying_step_a t : (size (flying (step_a guard locked hb now t).1.1) ≤ size (flying t))%nat.
Proof.
  apply subseteq_size. intros id (p' & Hp' & Hf)%elem_of_flying. apply elem_of_flying.
  destruct (t !! id) as [p|] eqn:Hp; [|by rewrite lookup_step_a, Hp in Hp'].
  destruct (step_a_descends guard locked hb now t id p Hp) as (q & Hq & Hd). rewrite Hp' in Hq. injection Hq as <-.
  exists p. split; [done|]. destruct Hd as [->|[? _]]; done.
Qed.

(** A batch that passes the row over moves a full batch of rows behind it. *)
Lemma passed_over_shrinks t id p :
  t !! id = Some p → locked id = false → p_enqueued p < now → passed_over guard locked hb now id t p →
  (size (ahead (p_enqueued p) (step_a guard locked hb now t).1.1) + RECONCILER_BATCH ≤ size (ahead (p_enqueued p) t))%nat.
Proof.
  intros Hp Hl He Hpass. set (e := p_enqueued p) in *.
  assert (∃ B, length B = RECONCILER_BATCH ∧ NoDup B ∧ ∀ k, k ∈ B → k ∈ ahead e t ∧
    (sel1 guard locked hb now t k = true ∨ sel2 guard locked hb now t k = true)) as (B & Hlen & Hnd & HB).
  { destruct Hpass as [[Hw Hn]|(Hw & Hs1 & Hn)].
    - destruct (oldest_full _ _ _ _ _ Hp Hw Hl Hn) as (? & ? & HB). eexists. split_and!; [done..|].
      intros k Hk. destruct (HB _ Hk) as (q & Hq & Hwq & Hle). split; [|left; by apply bool_decide_eq_true].
      apply elem_of_ahead. exists q. simpl in Hwq. bools. by split_and!.
    - assert (requeued_table guard locked hb now t !! id = Some p) as Hp1 by (by rewrite lookup_requeued_table, Hp; simpl; rewrite Hs1).
      destruct (oldest_full _ _ _ _ _ Hp1 Hw Hl Hn) as (? & ? & HB). eexists. split_and!; [done..|].
      intros k Hk. destruct (HB _ Hk) as (q & Hq & Hwq & Hle). split; [|right; by apply bool_decide_eq_true].
      rewrite lookup_requeued_table in Hq. destruct (t !! k) as [q0|] eqn:Hq0; [|done]. simpl in Hq. injection Hq as <-.
      simpl in Hwq. bools. destruct (sel1 guard locked hb now t k); [simpl in *; unfold e in *; lia|].
      apply elem_of_ahead. exists q0. split_and!; [done|by apply never_claimed_in_flight|done]. }
  assert (size (list_to_set B : gset string) = RECONCILER_BATCH) as Hsz by (by rewrite size_list_to_set).
  rewrite <- Hsz, <- size_union.
  - apply subseteq_size. intros k [Hk|Hk]%elem_of_union; [by apply step_a_ahead in Hk as [? _]|].
    apply elem_of_list_to_set in Hk. by apply HB.
  - intros k Hk1 Hk2%elem_of_list_to_set. apply step_a_ahead in Hk1 as (_ & H1 & H2); [|done].
    destruct (HB _ Hk2) as [_ [?|?]]; congruence.
Qed.
End queue.

(** *** Hourly sweeps, and what happens between them *)

(** What the other services may do since [from] while no worker takes the shard [id]:
    anything but write its row, report its last owner as alive, or bring a shard in
    flight in front of it; at most [crowd] shards are in flight. *)
Record meanwhile (id : string) (crowd : nat) (from : Z) (db db' : work_db) : Prop := {
  mw_row : d_parts db' !! id = d_parts db !! id;
  mw_silent : ∀ p w seen, d_parts db !! id = Some p → lc_owner (p_lease p) = Some w →
    d_heartbeats db' !! w = Some seen → d_heartbeats db !! w = Some seen;
  mw_queue : ∀ k q', d_parts db' !! k = Some q' → in_flight q' = true → p_enqueued q' ≤ from →
    ∃ q, d_parts db !! k = Some q ∧ in_flight q = true ∧ p_enqueued q ≤ p_enqueued q';
  mw_crowd : (size (flying (d_parts db')) ≤ crowd)%nat;
}.

(** [n] sweeps that can see the row, each more than an hour after the last. *)
Inductive hourly (id : string) (crowd : nat) : Z → work_db → nat → work_db → Prop :=
  | ho_done from db : hourly id crowd from db 0 db
  | ho_sweep from db db1 env now n db' :
      meanwhile id crowd from db db1 → from + 60 * MIN < now → se_dry_run env = false → se_part_guard env id = true →
      se_locked env id = false → hourly id crowd now (sweep_orphans env now db1).1.1 n db' →
      hourly id crowd from db (S n) db'.

Lemma meanwhile_ahead id crowd from db db' e :
  meanwhile id crowd from db db' → e ≤ from → ahead e (d_parts db') ⊆ ahead e (d_parts db).
Proof.
  intros M He k (q' & Hq' & Hf & Hle)%elem_of_ahead. apply elem_of_ahead.
  destruct (mw_queue _ _ _ _ _ M k q' Hq' Hf) as (q & ? & ? & ?); [lia|]. exists q. split_and!; [done|done|lia].
Qed.

Lemma abandoned_later from from' hb hb' p :
  (∀ w seen, lc_owner (p_lease p) = Some w → hb' !! w = Some seen → hb !! w = Some seen) →
  from ≤ from' → abandoned_since from hb p → abandoned_since from' hb' p.
Proof.
  intros Hh Hle [Hf He Hr Hwf Hex Hsil]. split; [done|lia|done|done| |].
  - intros e Hx. specialize (Hex e Hx). lia.
  - intros w seen Ho Hw. specialize (Hsil w seen Ho (Hh _ _ Ho Hw)). lia.
Qed.

Lemma failed_stays id crowd from db n db' p :
  hourly id crowd from db n db' → d_parts db !! id = Some p → in_flight p = false → d_parts db' !! id = Some p.
Proof.
  induction 1 as [|from db db1 env now n db' M _ _ _ _ _ IH]; intros Hp Hf; [done|].
  rewrite <- (mw_row _ _ _ _ _ M) in Hp. apply IH; [|done].
  by destruct (sweep_descends env now db1 id p Hp) as (p' & Hp' & [->|[? _]]); [|congruence].
Qed.

(** The sweeps that the row may still have to wait for: one for every batch of shards
    ahead of it, and as many as fit the crowd for every unit of its budget. *)
Definition batches (n : nat) : nat := (n / RECONCILER_BATCH + 1)%nat.

Lemma batches_mono m n : (m ≤ n)%nat → (batches m ≤ batches n)%nat.
Proof. intros H. unfold batches. pose proof (Nat.Div0.div_le_mono m n RECONCILER_BATCH H). lia. Qed.

Lemma batches_less m n : (m + RECONCILER_BATCH ≤ n)%nat → (batches m < batches n)%nat.
Proof.
  intros H. unfold batches. assert (m / RECONCILER_BATCH + 1 ≤ n / RECONCILER_BATCH)%nat; [|lia].
  rewrite <- Nat.div_add with (b := 1%nat) by done. apply Nat.Div0.div_le_mono. lia.
Qed.

Lemma abandoned_waits id crowd from db n db' p :
  hourly id crowd from db n db' → d_parts db !! id = Some p → abandoned_since from (d_heartbeats db) p →
  budget p * Z.of_nat (batches crowd) + Z.of_nat (batches (size (ahead (p_enqueued p) (d_parts db)))) ≤ Z.of_nat n →
  ∃ p', d_parts db' !! id = Some p' ∧ p_status p' = "FAILED".
Proof.
  intros H. revert p. induction H as [from db|from db db1 env now n db' M Hnow Hdry Hg Hl Hrun IH]; intros p Hp Hab Hn.
  { pose proof (budget_nonneg p). unfold batches in Hn. lia. }
  assert (Hp1 : d_parts db1 !! id = Some p) by (by rewrite (mw_row _ _ _ _ _ M)).
  assert (Hab1 : abandoned_since from (d_heartbeats db1) p).
  { eapply abandoned_later; [|done|exact Hab]. intros w seen. by apply (mw_silent _ _ _ _ _ M). }
  pose proof (batches_mono _ _ (subseteq_size _ _ (meanwhile_ahead _ _ _ _ _ _ M (ab_enqueued _ _ _ Hab)))) as Hahead.
  destruct (sweep_descends env now db1 id p Hp1) as (p' & Hp' & Hd).
  pose proof Hp' as Heq. rewrite sweep_parts, Hdry, lookup_step_a, Hp1 in Heq. simpl in Heq. apply (inj Some) in Heq.
  pose proof (abandoned_row_moves _ (se_locked env) _ now id Hg _ from p Hp1 Hab1 Hnow) as Hmv. rewrite Heq in Hmv.
  destruct (decide (p' = p)) as [->|Hne].
  - destruct Hmv as [Hmv|Hpass]; [lia|]. apply (IH p Hp').
    + rewrite sweep_heartbeats. eapply abandoned_later; [|unfold MIN, SEC in *|exact Hab1]; [done|lia].
    + assert (p_enqueued p < now) as He by (pose proof (ab_enqueued _ _ _ Hab); unfold MIN, SEC in *; lia).
      pose proof (batches_less _ _ (passed_over_shrinks _ _ _ _ _ _ _ Hp1 Hl He Hpass)).
      rewrite sweep_parts, Hdry. lia.
  - destruct Hd as [->|(_ & _ & [[Hf Hlt]|Hfail])]; [done| |].
    2: { exists p'. split; [|done]. eapply failed_stays; [exact Hrun|done|by apply failed_not_in_flight]. }
    destruct (row_sweep_parks (se_part_guard env) (d_heartbeats db1) now id
      (sel1 (se_part_guard env) (se_locked env) (d_heartbeats db1) now (d_parts db1) id)
      (sel2 (se_part_guard env) (se_locked env) (d_heartbeats db1) now (d_parts db1) id) p (ab_retry _ _ _ Hab))
      as [Hsame|[Hpark|Hfail]]; [by apply sel2_where|congruence| |].
    2: { rewrite Heq in Hfail. apply failed_not_in_flight in Hfail. congruence. }
    rewrite Heq in Hpark. apply (IH p' Hp').
    + by apply parked_abandoned.
    + assert (batches (size (ahead (p_enqueued p') (d_parts (sweep_orphans env now db1).1.1))) ≤ batches crowd)%nat as Hb.
      { apply batches_mono. etrans; [apply ahead_flying|]. rewrite sweep_parts, Hdry.
        etrans; [apply flying_step_a|apply (mw_crowd _ _ _ _ _ M)]. }
      assert ((budget p' + 1) * Z.of_nat (batches crowd) ≤ budget p * Z.of_nat (batches crowd)) by (apply Z.mul_le_mono_nonneg_r; lia).
      unfold batches at 2 in Hn. lia.
Qed.

(** C36: An abandoned shard always ends: a partition that no worker holds any more is
    FAILED after enough hourly sweeps that can see it (it is neither locked nor held back by
    the provider guard when they run), so it cannot pin its snapshot and job in progress for
    ever. Enough is its remaining budget of requeues, replays and republishes plus one, times
    the number of batches of 200 that all the shards in flight fill: a batch limit delays it,
    but cannot starve it, however large the table is. Between the sweeps other services may
    write anything but this row, as long as no worker takes the shard up, its last owner
    stays silent and no other shard is queued in front of it. *)
Theorem abandoned_partition_fails id crowd n db db' p from :
  d_parts db !! id = Some p → (size (flying (d_parts db)) ≤ crowd)%nat →
  abandoned_since from (d_heartbeats db) p → hourly id crowd from db n db' →
  (budget p + 1) * Z.of_nat (batches crowd) ≤ Z.of_nat n →
  ∃ p', d_parts db' !! id = Some p' ∧ p_status p' = "FAILED".
Proof.
  intros Hp Hsz Hab Hh Hb. eapply abandoned_waits; [exact Hh|exact Hp|exact Hab|].
  pose proof (batches_mono _ _ (Nat.le_trans _ _ _ (ahead_flying (p_enqueued p) (d_parts db)) Hsz)). lia.
Qed.

(** ** Dead letters and payloads of STEP A *)
Section step_a_outputs.
  Context (guard locked : string → bool) (hb : gmap string Z) (now : Z).
  Implicit Types (t : gmap string partition) (p : partition).

(** One row after the requeue, republish and replay statements. *)
Definition row_head (id : string) (b1 b2 : bool) p : partition :=
  let p1 := if b1 then requeue_set now p else p in
  let p2 := if b2 then unclaimed_set now p1 else p1 in
  if replay_where guard now (id, p2) then replay_set now p2 else p2.

Definition replayed_table t : gmap string partition :=
  update_where (replay_where guard now) (replay_set now)
    (batched locked (unclaimed_where guard hb now) (unclaimed_set now)
       (requeued_table guard locked hb now t)).1.

Definition failed_table t : gmap string partition :=
  update_where (fail_where guard now) fail_set (replayed_table t).

Lemma step_a_tables t :
  (step_a guard locked hb now t).1 =
  (update_where (expired_where guard now) fail_set (failed_table t),
   ((λ kp, (partition_envelope kp.1 (fail_set kp.2), PoisonPill)) <$>
      matching (fail_where guard now) (replayed_table t)) ++
   ((λ kp, (partition_envelope kp.1 (fail_set kp.2), UnclaimedExpired)) <$>
      matching (expired_where guard now) (failed_table t))).
Proof.
  unfold step_a, unbatched, failed_table, replayed_table, requeued_table.
  destruct (batched _ (requeue_where _ _ _) _ t) as [t1 rq].
  cbn [fst]. destruct (batched _ (unclaimed_where _ _ _) _ t1) as [t2 un]. cbn [fst].
  by rewrite <-!list_fmap_compose.
Qed.

Lemma lookup_replayed_table t id :
  replayed_table t !! id =
  row_head id (sel1 guard locked hb now t id) (sel2 guard locked hb now t id) <$> t !! id.
Proof.
  unfold replayed_table. rewrite lookup_update_where. unfold batched. cbn [fst].
  rewrite lookup_update_where, lookup_requeued_table. unfold row_head, sel2.
  destruct (t !! id) as [p|]; reflexivity.
Qed.

Lemma lookup_failed_table t id :
  failed_table t !! id =
  (λ p, if fail_where guard now (id, p) then fail_set p else p) <$> replayed_table t !! id.
Proof. apply lookup_update_where. Qed.

Lemma row_head_in_flight id b1 b2 p : in_flight p = true → in_flight (row_head id b1 b2 p) = true.
Proof. intros Hf. unfold row_head. destruct (replay_where _ _ _), b2, b1; done. Qed.

Lemma row_head_in_flight_inv id t p :
  t !! id = Some p →
  in_flight (row_head id (sel1 guard locked hb now t id) (sel2 guard locked hb now t id) p) = true →
  in_flight p = true.
Proof.
  intros Hp Hf. destruct (in_flight p) eqn:Hn; [done|]. rewrite <-Hf. symmetry.
  pose proof (sel1_where guard locked hb now t id p Hp) as H1.
  pose proof (sel2_where guard locked hb now t id p Hp) as H2. unfold row_head.
  destruct (sel1 _ _ _ _ _ _).
  { specialize (H1 eq_refl). simpl in H1. rewrite Hn in H1. done. }
  destruct (sel2 _ _ _ _ _ _).
  { specialize (H2 eq_refl). simpl in H2. bools.
    assert (in_flight p = true) by (by apply never_claimed_in_flight). congruence. }
  unfold replay_where, poison_where. rewrite Hn. done.
Qed.

Lemma expired_not_failed id p : p_status p = "FAILED" → expired_where guard now (id, p) = false.
Proof. intros Hs. simpl. unfold never_claimed. by rewrite Hs. Qed.

Lemma fail_in_flight id p : fail_where guard now (id, p) = true → in_flight p = true.
Proof. unfold fail_where, poison_where. intros Hw. simpl in Hw. by bools. Qed.

(** The dead letters of a sweep are the shards it failed. *)
Lemma step_a_dead_letters t e :
  (∃ r, (e, r) ∈ (step_a guard locked hb now t).1.2) ↔
  ∃ p p', t !! e_id e = Some p ∧ in_flight p = true ∧
    (step_a guard locked hb now t).1.1 !! e_id e = Some p' ∧ p_status p' = "FAILED" ∧
    e = partition_envelope (e_id e) p'.
Proof.
  rewrite step_a_tables. cbn [fst snd]. setoid_rewrite elem_of_app. setoid_rewrite list_elem_of_fmap.
  rewrite lookup_update_where, lookup_failed_table. split.
  - intros (r & [([k q] & Heq & Hm)|([k q] & Heq & Hm)]); injection Heq as -> ->;
      apply elem_of_matching in Hm as [Hq Hw]; cbn [e_id partition_envelope].
    + pose proof Hq as Hq'. rewrite lookup_replayed_table in Hq'.
      apply fmap_Some in Hq' as (p & Hp & Hq'). exists p, (fail_set q). rewrite Hq. cbn [fmap option_fmap option_map].
      rewrite Hw, (expired_not_failed k (fail_set q)) by done.
      split_and!; [done| |done..]. apply (row_head_in_flight_inv k t p Hp). rewrite <-Hq'.
      by apply fail_in_flight in Hw.
    + rewrite lookup_failed_table in Hq. destruct (replayed_table t !! k) as [q3|] eqn:H3; [|done].
      pose proof H3 as Hq'. rewrite lookup_replayed_table in Hq'.
      apply fmap_Some in Hq' as (p & Hp & Hq'). exists p, (fail_set q). cbn [fmap option_fmap option_map] in Hq.
      apply (inj Some) in Hq. subst q. cbn [fmap option_fmap option_map].
      destruct (fail_where guard now (k, _)) eqn:Hf.
      { by rewrite expired_not_failed in Hw. }
      rewrite Hw. split_and!; [done| |done..].
      apply (row_head_in_flight_inv k t p Hp). rewrite <-Hq'. unfold expired_where in Hw. bools.
      by apply never_claimed_in_flight.
  - intros (p & p' & Hp & Hfl & Hp' & Hfail & He).
    destruct (replayed_table t !! e_id e) as [q|] eqn:Hq; [|done]. cbn [fmap option_fmap option_map] in Hp'.
    pose proof Hq as Hq'. rewrite lookup_replayed_table, Hp in Hq'. cbn [fmap option_fmap option_map] in Hq'.
    assert (in_flight q = true) as Hqf.
    { apply (inj Some) in Hq'. rewrite <-Hq'. by apply row_head_in_flight. }
    destruct (fail_where guard now (e_id e, q)) eqn:Hw.
    + rewrite (expired_not_failed _ (fail_set q)) in Hp' by done. apply (inj Some) in Hp'. subst p'.
      exists PoisonPill. left. exists (e_id e, q). split; [|by apply elem_of_matching].
      cbn [fst snd]. f_equal. exact He.
    + destruct (expired_where guard now (e_id e, q)) eqn:Hx; apply (inj Some) in Hp'; subst p'.
      * exists UnclaimedExpired. right. exists (e_id e, q). cbn [fst snd]. split; [f_equal; exact He|].
        apply elem_of_matching. rewrite lookup_failed_table, Hq. cbn [fmap option_fmap option_map]. by rewrite Hw.
      * apply failed_not_in_flight in Hfail. congruence.
Qed.
End step_a_outputs.

Lemma sweep_dead_letters env now db :
  se_dry_run env = false →
  (sweep_orphans env now db).1.2 =
  (step_a (se_part_guard env) (se_locked env) (d_heartbeats db) now (d_parts db)).1.2.
Proof.
  intros Hd. unfold sweep_orphans, sweep_body. rewrite Hd.
  by destruct (step_a _ _ _ _ _) as [[parts dlq] st], (step_b _ _ _) as [snaps nb], (step_c _ _ _ _) as [jobs nc].
Qed.

(** Nothing is given up silently: the dead letters a sweep writes are exactly
    the envelopes of the shards it moved from in flight to FAILED, each equal to
    what a republish of that shard would carry. *)
Theorem dead_letters_are_exact env now db e :
  se_dry_run env = false →
  (∃ r, (e, r) ∈ (sweep_orphans env now db).1.2) ↔
  ∃ p p', d_parts db !! e_id e = Some p ∧ in_flight p = true ∧
    d_parts (sweep_orphans env now db).1.1 !! e_id e = Some p' ∧ p_status p' = "FAILED" ∧
    e = partition_envelope (e_id e) p'.
Proof.
  intros Hd. rewrite sweep_parts, Hd, (sweep_dead_letters _ _ _ Hd). apply step_a_dead_letters.
Qed.

(** ** The last requeue *)
Lemma batched_payload locked w set_ t id p :
  (∀ q, partition_envelope id (set_ q) = partition_envelope id q) →
  id ∈ oldest locked w t → t !! id = Some p → partition_envelope id p ∈ (batched locked w set_ t).2.
Proof.
  intros Hset Hin Hp. unfold batched. cbn [snd]. apply list_elem_of_omap. exists id. split; [done|].
  rewrite lookup_update_where, Hp. cbn [fmap option_fmap option_map fst].
  rewrite bool_decide_eq_true_2 by done. by rewrite Hset.
Qed.

Lemma sweep_requeue_payloads env now db :
  requeue_payloads (sweep_orphans env now db).2 =
  (batched (se_locked env) (requeue_where (se_part_guard env) (d_heartbeats db) now)
     (requeue_set now) (d_parts db)).2 ++
  (batched (se_locked env) (unclaimed_where (se_part_guard env) (d_heartbeats db) now)
     (unclaimed_set now)
     (requeued_table (se_part_guard env) (se_locked env) (d_heartbeats db) now (d_parts db))).2.
Proof.
  unfold sweep_orphans, sweep_body, step_a, requeued_table.
  destruct (batched _ (requeue_where _ _ _) _ _) as [t1 rq]. cbn [fst snd].
  destruct (batched _ (unclaimed_where _ _ _) _ _) as [t2 un]. cbn [fst snd].
  destruct (unbatched (replay_where _ _) _ _) as [t3 re].
  destruct (unbatched (fail_where _ _) _ _) as [t4 po].
  destruct (unbatched (expired_where _ _) _ _) as [t5 ex].
  destruct (step_b _ _ _) as [snaps nb], (step_c _ _ _ _) as [jobs nc].
  by destruct (se_dry_run env).
Qed.

(** The last requeue of a shard is dead on arrival: when the sweep requeues a
    claimed shard for the last time and no replay is left, the poison statement
    of the same sweep already matches the row, so the shard is FAILED and
    dead-lettered in the transaction that also hands its message to be
    republished. A shard gets [RECONCILER_MAX_REQUEUE - 1] usable requeues, not
    [RECONCILER_MAX_REQUEUE]. *)
Theorem last_requeue_is_dead_on_arrival env now db id p :
  se_dry_run env = false → d_parts db !! id = Some p →
  (size (d_parts db) ≤ RECONCILER_BATCH)%nat → se_locked env id = false →
  requeue_where (se_part_guard env) (d_heartbeats db) now (id, p) = true →
  p_requeue p = RECONCILER_MAX_REQUEUE - 1 →
  RECONCILER_DLQ_REPLAY_MAX ≤ fs_replays (p_failure p) →
  is_some (p_worker p) = true →
  (∃ p', d_parts (sweep_orphans env now db).1.1 !! id = Some p' ∧ p_status p' = "FAILED") ∧
  (∃ r, (partition_envelope id p, r) ∈ (sweep_orphans env now db).1.2) ∧
  partition_envelope id p ∈ requeue_payloads (sweep_orphans env now db).2.
Proof.
  intros Hdry Hp Hsz Hl Hw Hrq Hre Hwk.
  assert (id ∈ oldest (se_locked env) (requeue_where (se_part_guard env) (d_heartbeats db) now)
            (d_parts db)) as Hold by (by eapply oldest_complete).
  assert (d_parts (sweep_orphans env now db).1.1 !! id = Some (fail_set (requeue_set now p))) as Hp'.
  { rewrite sweep_parts, Hdry, lookup_step_a, Hp. cbn [fmap option_fmap option_map]. f_equal.
    unfold row_sweep. set (b2 := sel2 _ _ _ _ _ _).
    assert (b2 = false) as ->.
    { destruct b2 eqn:Hb2; [|done]. apply (sel2_where _ _ _ _ _ _ p Hp) in Hb2.
      unfold sel1 in Hb2. rewrite bool_decide_eq_true_2 in Hb2 by done.
      unfold unclaimed_where, never_claimed in Hb2. bools. simpl in *. congruence. }
    unfold sel1. rewrite bool_decide_eq_true_2 by done.
    assert (poison_where (se_part_guard env) now (id, requeue_set now p) = true) as Hpo.
    { unfold poison_where, claim_evidence. simpl in Hw. bools.
      replace (se_part_guard env id) with true by done. simpl. rewrite Hwk. simpl.
      rewrite !andb_true_r. apply Z.leb_le. lia. }
    unfold row_tail, replay_where, fail_where. rewrite Hpo. cbn [andb snd].
    rewrite (proj2 (Z.ltb_ge _ _)) by (simpl; lia). rewrite Hpo. cbn [andb].
    rewrite (proj2 (Z.leb_le _ _)) by (simpl; lia). by rewrite expired_not_failed. }
  split_and!.
  - eexists. split; [exact Hp'|done].
  - rewrite (sweep_dead_letters _ _ _ Hdry). apply step_a_dead_letters.
    exists p, (fail_set (requeue_set now p)). rewrite sweep_parts, Hdry in Hp'.
    cbn [e_id partition_envelope]. split_and!; [done| |done..]. simpl in Hw. by bools.
  - rewrite sweep_requeue_payloads. apply elem_of_app. left. by apply batched_payload.
Qed.

(** A dry run still publishes: with [RECONCILER_DRY_RUN] on, the tables are
    rolled back but the sweeper's tick publishes the same requeue messages as a
    real sweep would (and, nothing having been recorded, again on the next tick). *)
Theorem dry_run_still_publishes env accepts now db :
  se_dry_run env = true →
  let wet := SweepEnv (se_part_guard env) (se_snap_guard env) (se_job_guard env) (se_locked env) false in
  (sweep_tick env accepts now db).1 = (db, []) ∧
  (sweep_tick env accepts now db).2 = (sweep_tick wet accepts now db).2.
Proof.
  intros Hd. unfold sweep_tick, sweep_orphans. rewrite Hd.
  change (sweep_body (SweepEnv _ _ _ _ false) now db) with (sweep_body env now db). cbn [se_dry_run].
  by destruct (sweep_body env now db) as [[db' dlq] st].
Qed.

(** ** Snapshots and jobs *)
Section settle.
  Context (env : sweep_env) (now : Z) (db : work_db) (Hdry : se_dry_run env = false).

Definition swept : work_db := (sweep_orphans env now db).1.1.

(** The tables between the steps. *)
Definition after_a : work_db :=
  with_parts db (step_a (se_part_guard env) (se_locked env) (d_heartbeats db) now (d_parts db)).1.1.
Definition after_b : work_db := with_snaps after_a (step_b (se_snap_guard env) now after_a).1.
Definition after_c : work_db :=
  with_jobs after_b (step_c (se_job_guard env) now (d_snaps after_b) (d_jobs db)).1.

Lemma swept_eq : swept = with_snaps after_c (step_d (se_snap_guard env) after_c).
Proof.
  unfold swept, sweep_orphans, sweep_body, after_c, after_b, after_a. rewrite Hdry.
  destruct (step_a _ _ _ _ _) as [[parts dlq] st]. cbn [fst].
  destruct (step_b _ _ _) as [snaps nb]. cbn [fst].
  change (d_jobs (with_snaps (with_parts db parts) snaps)) with (d_jobs db).
  by destruct (step_c _ _ _ _) as [jobs nc].
Qed.

Lemma swept_parts : d_parts swept = d_parts after_a.
Proof. by rewrite swept_eq. Qed.

Lemma lookup_after_b sid :
  d_snaps after_b !! sid =
  (λ s, if settle_where (se_snap_guard env) now after_a (sid, s) then settle_set now after_a sid s else s)
    <$> d_snaps db !! sid.
Proof.
  change (d_snaps db) with (d_snaps after_a). unfold after_b, step_b. cbn [d_snaps with_snaps fst].
  rewrite map_lookup_imap. by destruct (d_snaps after_a !! sid).
Qed.

Lemma lookup_swept_snaps sid :
  d_snaps swept !! sid =
  (λ s, if integrity_where (se_snap_guard env) after_c (sid, s) then integrity_set after_c sid s else s)
    <$> d_snaps after_b !! sid.
Proof.
  rewrite swept_eq. unfold step_d. cbn [d_snaps with_snaps].
  change (d_snaps after_c) with (d_snaps after_b).
  rewrite map_lookup_imap. by destruct (d_snaps after_b !! sid).
Qed.

Lemma lookup_swept_jobs jid :
  d_jobs swept !! jid =
  (λ j, if finish_where (se_job_guard env) (d_snaps after_b) (jid, j)
        then Job (rollup_status (snaps_of (d_snaps after_b) jid)) (Some now) (fence_off (j_lease j)) else j)
    <$> d_jobs db !! jid.
Proof.
  rewrite swept_eq. unfold after_c, step_c. cbn [d_jobs with_snaps with_jobs fst].
  rewrite map_lookup_imap. by destruct (d_jobs db !! jid).
Qed.

(** What a settling or correcting statement may not undo. *)
Definition keeps (s s' : snapshot) : Prop :=
  default 0 (s_item_count s) ≤ default 0 (s_item_count s') ∧
  default 0 (s_bytes_total s) ≤ default 0 (s_bytes_total s') ∧
  lc_token (s_lease s) ≤ lc_token (s_lease s') ∧
  s_degraded s' = s_degraded s ∧ s_job s' = s_job s ∧
  (s_failure_reason s ≠ None → s_failure_reason s' = s_failure_reason s) ∧
  (s_status s ≠ SInProgress → s_status s' ≠ SInProgress).

Lemma settle_status_terminal parts d : settle_status parts d ≠ SInProgress.
Proof. unfold settle_status. repeat case_match; done. Qed.

Lemma derived_status_terminal parts s :
  s_status s ≠ SInProgress → derived_status parts s ≠ SInProgress.
Proof. unfold derived_status. repeat case_match; done. Qed.

Lemma settle_keeps d sid s : keeps s (settle_set now d sid s).
Proof.
  unfold keeps, settle_set, restated. cbn. split_and!; try lia; try done.
  - by destruct (s_failure_reason s).
  - intros _. apply settle_status_terminal.
Qed.

Lemma integrity_keeps d sid s : keeps s (integrity_set d sid s).
Proof.
  unfold keeps, integrity_set, restated. cbn. split_and!; try lia; try done.
  apply derived_status_terminal.
Qed.

Lemma keeps_refl s : keeps s s.
Proof. unfold keeps. split_and!; (done || lia). Qed.

Lemma keeps_trans s1 s2 s3 : keeps s1 s2 → keeps s2 s3 → keeps s1 s3.
Proof.
  intros (A1 & A2 & A3 & A4 & A5 & A6 & A7) (B1 & B2 & B3 & B4 & B5 & B6 & B7).
  unfold keeps. split_and!; try lia; try congruence.
  - intros Hr. rewrite <-(A6 Hr). apply B6. by rewrite (A6 Hr).
  - auto.
Qed.

Lemma swept_keeps sid s :
  d_snaps db !! sid = Some s → ∃ s', d_snaps swept !! sid = Some s' ∧ keeps s s'.
Proof.
  intros Hs. rewrite lookup_swept_snaps, lookup_after_b, Hs. cbn [fmap option_fmap option_map].
  eexists. split; [done|]. eapply (keeps_trans _
    (if settle_where (se_snap_guard env) now after_a (sid, s) then settle_set now after_a sid s else s)).
  - destruct (settle_where _ _ _ _); [apply settle_keeps|apply keeps_refl].
  - destruct (integrity_where _ _ _); [apply integrity_keeps|apply keeps_refl].
Qed.

(** After the sweep a terminal partitioned snapshot has the status its shards
    and its own degradation marker derive. *)
Lemma swept_agrees sid s' :
  se_snap_guard env sid = true → d_snaps swept !! sid = Some s' →
  parts_of (d_parts swept) sid ≠ [] → existsb in_flight (parts_of (d_parts swept) sid) = false →
  s_status s' ∈ [SCompleted; SPartial; SFailed] →
  s_status s' = derived_status (parts_of (d_parts swept) sid) s'.
Proof.
  intros Hg Hs' Hne Hfl Hst. rewrite swept_parts in *. rewrite lookup_swept_snaps in Hs'.
  apply fmap_Some in Hs' as (s & _ & Heq).
  destruct (integrity_where (se_snap_guard env) after_c (sid, s)) eqn:Hw; subst s'.
  - unfold integrity_set. cbn [restated s_status s_degraded].
    change (d_parts after_c) with (d_parts after_a). unfold derived_status at 2. cbn [s_degraded s_status].
    unfold derived_status. by repeat case_match.
  - unfold integrity_where in Hw. change (d_parts after_c) with (d_parts after_a) in Hw.
    rewrite Hg, (bool_decide_eq_false_2 _ Hne), Hfl in Hw. unfold snap_has in Hw.
    rewrite (bool_decide_eq_true_2 _ Hst) in Hw. cbn [andb negb] in Hw. by bools.
Qed.

Lemma settled_has_no_flight sid s s' :
  d_snaps db !! sid = Some s → d_snaps swept !! sid = Some s' →
  s_status s = SInProgress → s_status s' ≠ SInProgress →
  existsb in_flight (parts_of (d_parts swept) sid) = false.
Proof.
  intros Hs Hs' Hin Hout. rewrite swept_parts. rewrite lookup_swept_snaps, lookup_after_b, Hs in Hs'.
  cbn [fmap option_fmap option_map] in Hs'.
  destruct (settle_where _ _ _ _) eqn:Hw.
  - unfold settle_where in Hw. by bools.
  - unfold integrity_where, snap_has in Hs'. rewrite Hin in Hs'.
    rewrite (bool_decide_eq_false_2 (SInProgress ∈ _)), andb_false_r in Hs' by set_solver.
    cbn [andb] in Hs'. congruence.
Qed.

Lemma elem_of_snaps_of snaps jid s :
  s ∈ snaps_of snaps jid ↔ s_job s = jid ∧ ∃ sid, snaps !! sid = Some s.
Proof.
  unfold snaps_of. rewrite list_elem_of_filter, list_elem_of_fmap. split.
  - intros [Hj ([sid q] & -> & Hin)]. apply elem_of_map_to_list in Hin. eauto.
  - intros [Hj [sid Hs]]. split; [done|]. exists (sid, s). by rewrite elem_of_map_to_list.
Qed.

Lemma finished_job_snaps jid j j' :
  d_jobs db !! jid = Some j → d_jobs swept !! jid = Some j' → j_status j = JRunning →
  j_status j' ≠ JRunning → ∀ sid s, d_snaps swept !! sid = Some s → s_job s = jid →
  s_status s ≠ SInProgress.
Proof.
  intros Hj Hj' Hrun Hdone sid s Hs Hjob. rewrite lookup_swept_jobs, Hj in Hj'.
  cbn [fmap option_fmap option_map] in Hj'.
  destruct (finish_where _ _ _) eqn:Hw; [|congruence]. unfold finish_where in Hw. bools.
  rewrite lookup_swept_snaps in Hs. apply fmap_Some in Hs as (s0 & Hs0 & ->).
  assert (s_job s0 = jid) as Hjob0 by (by destruct (integrity_where _ _ _)).
  assert (s_status s0 ≠ SInProgress) as Hne.
  { intros Hin. assert (existsb (snap_has [SInProgress]) (snaps_of (d_snaps after_b) jid) = true); [|congruence].
    apply existsb_exists. exists s0. split; [apply list_elem_of_In, elem_of_snaps_of; eauto|].
    unfold snap_has. apply bool_decide_eq_true_2. rewrite Hin. left. }
  destruct (integrity_where _ _ _); [|done]. by apply derived_status_terminal.
Qed.
End settle.

(** The sweep settles bottom-up and forgets nothing: it finishes a snapshot
    only when none of its shards is in flight, finishes a job only when none of
    its snapshots is in progress, never re-opens a finished snapshot, never
    lowers an item or byte counter or a fence token, and never overwrites a
    handler's failure or degradation reason. *)
Theorem sweep_settles_bottom_up env now db :
  se_dry_run env = false →
  let db' := (sweep_orphans env now db).1.1 in
  (∀ sid s s', d_snaps db !! sid = Some s → d_snaps db' !! sid = Some s' →
     s_status s = SInProgress → s_status s' ≠ SInProgress →
     existsb in_flight (parts_of (d_parts db') sid) = false) ∧
  (∀ jid j j', d_jobs db !! jid = Some j → d_jobs db' !! jid = Some j' →
     j_status j = JRunning → j_status j' ≠ JRunning →
     ∀ sid s, d_snaps db' !! sid = Some s → s_job s = jid → s_status s ≠ SInProgress) ∧
  (∀ sid s, d_snaps db !! sid = Some s → ∃ s', d_snaps db' !! sid = Some s' ∧ keeps s s').
Proof.
  intros Hd db'. split_and!.
  - intros. by eapply settled_has_no_flight.
  - intros jid j j' H1 H2 H3 H4. by apply (finished_job_snaps env now db Hd jid j j').
  - by apply swept_keeps.
Qed.

(** Shards are COMPLETED or FAILED once they are done. *)
Definition settled_shards (parts : list partition) : Prop :=
  Forall (λ p, p_status p = "COMPLETED" ∨ p_status p = "FAILED") parts.

Lemma all_have_status st parts :
  forallb (has_status st) parts = true ↔ Forall (λ p, p_status p = st) parts.
Proof.
  rewrite forallb_Forall. apply Forall_proper; [|done]. intros p. apply bool_decide_eq_true.
Qed.

Lemma none_have_status st parts :
  existsb (has_status st) parts = false ↔ Forall (λ p, p_status p ≠ st) parts.
Proof.
  rewrite existsb_Forall. apply Forall_proper; [|done]. intros p. apply bool_decide_eq_false.
Qed.

Lemma settled_none_failed parts :
  settled_shards parts → existsb (has_status "FAILED") parts = false →
  Forall (λ p, p_status p = "COMPLETED") parts.
Proof.
  intros Hs Hn%none_have_status. assert (Forall (λ p, (p_status p = "COMPLETED" ∨ p_status p = "FAILED") ∧ p_status p ≠ "FAILED") parts)
    as Hb by (by apply Forall_and).
  eapply Forall_impl; [exact Hb|]. naive_solver.
Qed.

Lemma derived_status_spec parts s :
  settled_shards parts → parts ≠ [] →
  (derived_status parts s = SCompleted ↔
     Forall (λ p, p_status p = "COMPLETED" ∧ lossy p = false) parts ∧ s_degraded s = "") ∧
  (derived_status parts s = SFailed ↔ Forall (λ p, p_status p = "FAILED") parts).
Proof.
  intros Hs Hne. unfold derived_status.
  destruct (forallb (has_status "FAILED") parts) eqn:Haf.
  { apply all_have_status in Haf. split; [|done]. split; [done|]. intros [Hc _]. exfalso.
    destruct parts as [|p parts]; [done|]. inversion Haf; inversion Hc; simplify_eq. naive_solver congruence. }
  assert (¬ Forall (λ p, p_status p = "FAILED") parts) as Hnf
    by (rewrite <-all_have_status, Haf; done).
  destruct (existsb (has_status "FAILED") parts) eqn:Hef; cbn [orb].
  { split; [|done]. split; [done|]. intros [Hc _]. exfalso.
    assert (existsb (has_status "FAILED") parts = false); [|congruence]. apply none_have_status.
    eapply Forall_impl; [exact Hc|]. simpl. intros p [-> _]. done. }
  pose proof (settled_none_failed _ Hs Hef) as Hc.
  rewrite (proj2 (all_have_status _ _) Hc), Forall_and.
  destruct (existsb lossy parts) eqn:Hl; cbn [orb].
  { split; [|done]. split; [done|]. intros [[_ Hnl] _]. exfalso.
    assert (existsb lossy parts = false); [|congruence]. by apply existsb_Forall. }
  apply existsb_Forall in Hl. case_bool_decide; cbn [negb]; split; naive_solver.
Qed.

(** No false success: after a sweep, a finished partitioned snapshot with no
    shard in flight is COMPLETED only if every shard completed, no shard lost a
    file and no handler declared it degraded; and it is FAILED if every shard
    failed. *)
Theorem swept_snapshot_is_honest env now db sid s :
  se_dry_run env = false → se_snap_guard env sid = true →
  let db' := (sweep_orphans env now db).1.1 in
  let parts := parts_of (d_parts db') sid in
  d_snaps db' !! sid = Some s → parts ≠ [] → existsb in_flight parts = false →
  s_status s ∈ [SCompleted; SPartial; SFailed] →
  settled_shards parts →
  (s_status s = SCompleted ↔
     Forall (λ p, p_status p = "COMPLETED" ∧ lossy p = false) parts ∧ s_degraded s = "") ∧
  (s_status s = SFailed ↔ Forall (λ p, p_status p = "FAILED") parts).
Proof.
  intros Hd Hg db' parts Hs Hne Hfl Hst Hdom.
  pose proof (swept_agrees env now db Hd sid s Hg Hs Hne Hfl Hst) as Hag.
  change (parts_of (d_parts (swept env now db)) sid) with parts in Hag.
  clearbody parts. rewrite Hag. by apply derived_status_spec.
Qed.

(** The integrity sweep is a fixpoint after one pass: repeating it changes no
    row, so it never rewrites a snapshot (and bumps its fence token) tick after
    tick. *)
Theorem integrity_sweep_is_idempotent guard db :
  step_d guard (with_snaps db (step_d guard db)) = step_d guard db.
Proof.
  apply map_eq. intros sid. unfold step_d at 1. cbn [d_snaps with_snaps]. rewrite map_lookup_imap.
  unfold step_d. rewrite map_lookup_imap. destruct (d_snaps db !! sid) as [s|]; [|done].
  cbn [mbind option_bind]. f_equal.
  destruct (integrity_where guard db (sid, s)) eqn:Hw;
    change (integrity_where guard (with_snaps db _)) with (integrity_where guard db);
    [|by rewrite Hw].
  assert (integrity_where guard db (sid, integrity_set db sid s) = false) as ->; [|done].
  unfold integrity_where. set (parts := parts_of (d_parts db) sid).
  assert (s_status (integrity_set db sid s) = derived_status parts (integrity_set db sid s)) as Heq.
  { unfold integrity_set. cbn [restated s_status]. fold parts.
    unfold derived_status. cbn [s_degraded s_status]. by repeat case_match. }
  rewrite <-Heq, (bool_decide_eq_true_2 (s_status _ = s_status _)) by done. cbn [negb].
  apply andb_false_r.
Qed.

(** STEP B and STEP D do not derive the same status: over finished shards they
    disagree exactly when every shard FAILED and a shard recorded lost files or
    the snapshot is marked degraded. STEP B then says PARTIAL, from which STEP C
    rolls the job up, and STEP D of the same sweep turns the snapshot FAILED. *)
Theorem settle_and_integrity_disagree_on_all_failed parts s :
  settled_shards parts → parts ≠ [] →
  (settle_status parts (s_degraded s) ≠ derived_status parts s ↔
   Forall (λ p, p_status p = "FAILED") parts ∧
   (Exists (λ p, lossy p = true) parts ∨ s_degraded s ≠ "")).
Proof.
  intros Hs Hne. unfold settle_status, derived_status.
  rewrite bool_decide_eq_false_2 by done. rewrite <-all_have_status, <-existsb_Exists.
  destruct (forallb (has_status "FAILED") parts) eqn:Haf.
  - assert (forallb (has_status "COMPLETED") parts = false) as ->.
    { destruct parts as [|p parts]; [done|]. simpl in *. bools. unfold has_status in *. bools.
      apply andb_false_iff. left. apply bool_decide_eq_false. congruence. }
    destruct (existsb lossy parts); [naive_solver|]. case_bool_decide; naive_solver.
  - destruct (existsb (has_status "FAILED") parts) eqn:Hef; cbn [orb].
    + assert (forallb (has_status "COMPLETED") parts = false) as ->.
      { apply not_true_iff_false. rewrite all_have_status. intros Hc.
        assert (existsb (has_status "FAILED") parts = false); [|congruence]. apply none_have_status.
        eapply Forall_impl; [exact Hc|]. by intros p ->. }
      destruct (existsb lossy parts); [naive_solver|]. case_bool_decide; naive_solver.
    + rewrite (proj2 (all_have_status _ _) (settled_none_failed _ Hs Hef)).
      destruct (existsb lossy parts); cbn [orb]; [naive_solver|]. case_bool_decide; naive_solver.
Qed.

(** ** Examples *)
Module ReconcilerExamples.

Definition yes (_ : string) : bool := true.
Definition no (_ : string) : bool := false.
Definition env0 : sweep_env := SweepEnv yes yes yes no false.
Definition env_dry : sweep_env := SweepEnv yes yes yes no true.
Definition HOUR : Z := 61 * MIN.

(** A claimed shard whose worker is gone, on its last replay. *)
Definition shard (requeue : Z) (lost : option Z) : partition :=
  Part "s1" "CHATS" 0 "chat ids" "IN_PROGRESS" (Some "w1") (Some 0) 0 0 requeue
    (FailureState 5 1 lost) (Cols (Some "w1") (Some 0) 7).
Definition snap1 : snapshot :=
  Snap "j1" SInProgress (Some 0) None None "" None false None None (Cols (Some "w1") (Some 0) 3).
Definition db_with (p : partition) : work_db :=
  WorkDb {[ "p1" := p ]} {[ "s1" := snap1 ]} {[ "j1" := Job JRunning None (Cols None None 0) ]} ∅ ∅.
Definition done_shard : partition :=
  Part "s1" "CHATS" 0 "chat ids" "COMPLETED" (Some "w1") (Some 0) 0 0 0
    (FailureState 0 0 (Some 2)) (Cols None None 8).

Definition runs3 : schedule := [(env0, HOUR); (env0, 2 * HOUR); (env0, 3 * HOUR)].

Lemma partition_sweeps_are_bounded_witness :
  Z.of_nat (touches "p1" runs3 (db_with (shard 1 None))) ≤ budget (shard 1 None) + 1.
Proof. apply partition_sweeps_are_bounded. reflexivity. Defined.

Lemma sweep_spares_leased_partitions_witness :
  d_parts (sweep_orphans env0 0 (db_with (shard 3 None))).1.1 !! "p1" = Some (shard 3 None).
Proof. refine (sweep_spares_leased_partitions env0 0 _ "p1" (shard 3 None) 0 _ _ _); done. Defined.

Lemma quiet_hours id crowd from db : (size (flying (d_parts db)) ≤ crowd)%nat → meanwhile id crowd from db db.
Proof. intros H. split; [done|done| |done]. intros k q' Hq Hf _. by exists q'. Qed.

Lemma hourly3 : hourly "p1" 1 0 (db_with (shard 1 None)) 3 (run_sweeps runs3 (db_with (shard 1 None))).
Proof.
  eapply (ho_sweep "p1" 1 0 _ _ env0 HOUR); [apply quiet_hours; vm_compute; repeat constructor|by vm_compute|done..|].
  eapply (ho_sweep "p1" 1 HOUR _ _ env0 (2 * HOUR)); [apply quiet_hours; vm_compute; repeat constructor|by vm_compute|done..|].
  eapply (ho_sweep "p1" 1 (2 * HOUR) _ _ env0 (3 * HOUR)); [apply quiet_hours; vm_compute; repeat constructor|by vm_compute|done..|].
  apply ho_done.
Qed.

Lemma abandoned_partition_fails_witness :
  ∃ p', d_parts (run_sweeps runs3 (db_with (shard 1 None))) !! "p1" = Some p' ∧ p_status p' = "FAILED".
Proof.
  refine (abandoned_partition_fails "p1" 1 3 (db_with (shard 1 None)) _ (shard 1 None) 0 _ _ _ hourly3 _).
  - reflexivity.
  - vm_compute. repeat constructor.
  - split; [reflexivity|done|done|done| |].
    + intros e [= <-]. done.
    + intros w seen _ Hs. change ((∅ : gmap string Z) !! w = Some seen) in Hs.
      by rewrite lookup_empty in Hs.
  - by vm_compute.
Defined.

Lemma last_requeue_is_dead_on_arrival_witness :
  (∃ r, (partition_envelope "p1" (shard 2 None), r) ∈ (sweep_orphans env0 HOUR (db_with (shard 2 None))).1.2) ∧
  partition_envelope "p1" (shard 2 None) ∈
    requeue_payloads (sweep_orphans env0 HOUR (db_with (shard 2 None))).2.
Proof.
  refine (proj2 (last_requeue_is_dead_on_arrival env0 HOUR (db_with (shard 2 None)) "p1" (shard 2 None)
    _ _ _ _ _ _ _ _)); try reflexivity.
  vm_compute. repeat constructor.
Defined.

Lemma dead_letters_are_exact_witness :
  ∃ r, (partition_envelope "p1" (fail_set (shard 3 None)), r) ∈
       (sweep_orphans env0 HOUR (db_with (shard 3 None))).1.2.
Proof.
  apply (dead_letters_are_exact env0 HOUR (db_with (shard 3 None))
    (partition_envelope "p1" (fail_set (shard 3 None))) eq_refl).
  exists (shard 3 None), (fail_set (shard 3 None)). repeat split.
Defined.

Lemma dry_run_still_publishes_witness :
  (sweep_tick env_dry (λ _, true) HOUR (db_with (shard 1 None))).2 =
  (sweep_tick env0 (λ _, true) HOUR (db_with (shard 1 None))).2.
Proof. exact (proj2 (dry_run_still_publishes env_dry (λ _, true) HOUR _ eq_refl)). Defined.

Lemma sweep_settles_bottom_up_witness :
  ∃ s', d_snaps (sweep_orphans env0 HOUR (db_with (shard 3 None))).1.1 !! "s1" = Some s' ∧ keeps snap1 s'.
Proof.
  exact (proj2 (proj2 (sweep_settles_bottom_up env0 HOUR (db_with (shard 3 None)) eq_refl)) "s1" snap1 eq_refl).
Defined.

Definition lossy_snap : snapshot :=
  default snap1 (d_snaps (sweep_orphans env0 HOUR (db_with done_shard)).1.1 !! "s1").

(** A shard that completed with files lost settles its snapshot PARTIAL. *)
Lemma swept_snapshot_is_honest_witness :
  s_status lossy_snap = SPartial ∧ (s_status lossy_snap = SCompleted ↔
    Forall (λ p, p_status p = "COMPLETED" ∧ lossy p = false) [done_shard] ∧ s_degraded lossy_snap = "").
Proof.
  assert (parts_of (d_parts (sweep_orphans env0 HOUR (db_with done_shard)).1.1) "s1" = [done_shard])
    as Hp by (vm_compute; reflexivity).
  split; [vm_compute; reflexivity|].
  pose proof (swept_snapshot_is_honest env0 HOUR (db_with done_shard) "s1" lossy_snap
    eq_refl eq_refl) as Hh. cbv zeta in Hh. rewrite Hp in Hh.
  refine (proj1 (Hh _ _ _ _ _)).
  - vm_compute. reflexivity.
  - discriminate.
  - vm_compute. reflexivity.
  - refine (bool_decide_unpack _ _). vm_compute. exact I.
  - apply Forall_singleton. left. reflexivity.
Defined.

Lemma settle_and_integrity_disagree_witness :
  settle_status [fail_set (shard 3 (Some 4))] (s_degraded snap1) ≠
  derived_status [fail_set (shard 3 (Some 4))] snap1.
Proof.
  apply (settle_and_integrity_disagree_on_all_failed [fail_set (shard 3 (Some 4))] snap1).
  - constructor; [by right|constructor].
  - discriminate.
  - split; [by repeat constructor|]. left. by constructor.
Defined.
End ReconcilerExamples.

(** One sweep can leave a job and its only snapshot at odds: the snapshot ends
    FAILED and the job PARTIAL, where the roll-up of the snapshots the sweep
    leaves behind would fail the job. *)
Theorem one_sweep_leaves_job_above_its_snapshot :
  ∃ db s j, let db' := (sweep_orphans ReconcilerExamples.env0 ReconcilerExamples.HOUR db).1.1 in
    d_snaps db' !! "s1" = Some s ∧ s_status s = SFailed ∧
    d_jobs db' !! "j1" = Some j ∧ j_status j = JPartial ∧
    rollup_status (snaps_of (d_snaps db') "j1") = JFailed.
Proof.
  exists (ReconcilerExamples.db_with (ReconcilerExamples.shard 3 (Some 4))).
  do 2 eexists. cbv zeta. split; [vm_compute; reflexivity|].
  split; [reflexivity|]. split; [vm_compute; reflexivity|]. split; [reflexivity|].
  vm_compute. reflexivity.
Qed.
