(* ===== verification/Workloads.v ===== *)
(** * SLA workload filtering

    Model of [src/shared/sla_workloads.py]: which resource types an SLA policy's
    checkboxes cover, and the partition of a resource map into the resources a
    dispatch keeps and the ones it skips, with the reason. A policy object is the
    map of its attributes' truth values; a missing attribute takes the default of
    the [getattr] that reads it. *)

From S2P Require Import Prelude.

Abbreviation policy := (gmap string bool).

Definition getattr (p : policy) (name : string) (d : bool) : bool := default d (p !! name).

Definition RESOURCE_TYPE_TO_SLA_FLAG : gmap string string := list_to_map [
  ("MAILBOX", "backup_exchange"); ("SHARED_MAILBOX", "backup_exchange");
  ("ROOM_MAILBOX", "backup_exchange"); ("ONEDRIVE", "backup_onedrive");
  ("SHAREPOINT_SITE", "backup_sharepoint"); ("TEAMS_CHANNEL", "backup_teams");
  ("TEAMS_CHAT", "backup_teams_chats"); ("TEAMS_CHAT_EXPORT", "backup_teams_chats");
  ("USER_MAIL", "backup_exchange"); ("USER_ARCHIVE", "backup_exchange_archive");
  ("USER_ONEDRIVE", "backup_onedrive"); ("USER_CONTACTS", "contacts");
  ("USER_CALENDAR", "calendars"); ("USER_CHATS", "backup_teams_chats");
  ("ENTRA_DIRECTORY", "backup_entra_id"); ("ENTRA_USER", "backup_entra_id");
  ("ENTRA_GROUP", "backup_entra_id"); ("ENTRA_APP", "backup_entra_id");
  ("ENTRA_SERVICE_PRINCIPAL", "backup_entra_id"); ("ENTRA_DEVICE", "backup_entra_id");
  ("ENTRA_ROLE", "backup_entra_id"); ("ENTRA_ADMIN_UNIT", "backup_entra_id");
  ("ENTRA_AUDIT_LOG", "backup_entra_id"); ("ENTRA_CONDITIONAL_ACCESS", "backup_entra_id");
  ("ENTRA_BITLOCKER_KEY", "backup_entra_id"); ("INTUNE_MANAGED_DEVICE", "backup_entra_id");
  ("POWER_BI", "backup_power_platform"); ("POWER_APPS", "backup_power_platform");
  ("POWER_AUTOMATE", "backup_power_platform"); ("POWER_DLP", "backup_power_platform");
  ("COPILOT", "backup_copilot"); ("PLANNER", "planner"); ("TODO", "tasks");
  ("ONENOTE", "backup_onedrive"); ("AZURE_VM", "backup_azure_vm");
  ("AZURE_SQL_DB", "backup_azure_sql"); ("AZURE_POSTGRESQL", "backup_azure_postgresql");
  ("AZURE_POSTGRESQL_SINGLE", "backup_azure_postgresql")].

Definition SCHEDULER_IGNORED_TYPES : gset string := {["TEAMS_CHAT"]}.

Definition resource_type_enabled (rtype : string) (p : policy) : bool :=
  if bool_decide (rtype ∈ SCHEDULER_IGNORED_TYPES) then false
  else if bool_decide (rtype = "ENTRA_USER") then
    getattr p "backup_entra_id" false || getattr p "contacts" false || getattr p "calendars" false
  else if bool_decide (rtype ∈ (["ENTRA_GROUP"; "DYNAMIC_GROUP"; "M365_GROUP"] : list string)) then
    getattr p "backup_entra_id" false || getattr p "group_mailbox" false
  else match RESOURCE_TYPE_TO_SLA_FLAG !! rtype with
       | None => false
       | Some flag => getattr p flag true
       end.

Record sla_resource := SlaResource { sr_type : string; sr_policy : option string }.

Inductive skip_reason := PolicyNotFound | WorkloadDisabled.

Record SlaWorkloadSkip := Skip {
  sk_resource : string;
  sk_type : string;
  sk_policy : option string;
  sk_flag : option string;
  sk_reason : skip_reason;
}.

(** [normalized_policies.get(policy_id or "")] *)
Definition policy_of (policies : gmap string policy) (r : sla_resource) : option policy :=
  policies !! default "" (sr_policy r).

Definition skip_of (id : string) (r : sla_resource) (why : skip_reason) : SlaWorkloadSkip :=
  Skip id (sr_type r) (sr_policy r) (RESOURCE_TYPE_TO_SLA_FLAG !! sr_type r) why.

Fixpoint filter_resource_map_by_policy_flags (policies : gmap string policy)
    (resources : list (string * sla_resource))
    : list (string * sla_resource) * list SlaWorkloadSkip :=
  match resources with
  | [] => ([], [])
  | (id, r) :: rest =>
    let '(kept, skipped) := filter_resource_map_by_policy_flags policies rest in
    match policy_of policies r with
    | None => (kept, skip_of id r PolicyNotFound :: skipped)
    | Some p =>
      if resource_type_enabled (sr_type r) p then ((id, r) :: kept, skipped)
      else (kept, skip_of id r WorkloadDisabled :: skipped)
    end
  end.

Definition covered (policies : gmap string policy) (r : sla_resource) : bool :=
  match policy_of policies r with
  | Some p => resource_type_enabled (sr_type r) p
  | None => false
  end.

Lemma filter_by_policy_flags_spec policies resources :
  filter_resource_map_by_policy_flags policies resources =
  (filter (λ ir, covered policies ir.2 = true) resources,
   omap (λ ir, match policy_of policies ir.2 with
               | None => Some (skip_of ir.1 ir.2 PolicyNotFound)
               | Some p => if resource_type_enabled (sr_type ir.2) p then None
                           else Some (skip_of ir.1 ir.2 WorkloadDisabled)
               end) resources).
Proof.
  induction resources as [|[id r] rest IH]; [done|].
  cbn [filter_resource_map_by_policy_flags]. rewrite IH.
  rewrite filter_cons. cbn [omap list_omap snd fst].
  destruct (decide (covered policies r = true)) as [Hc|Hc]; unfold covered in Hc;
    destruct (policy_of policies r) as [p|]; try done;
    by destruct (resource_type_enabled (sr_type r) p).
Qed.

(** Every resource is kept or skipped, never both and never lost. *)
Lemma filter_by_policy_flags_exact policies resources id r :
  (id, r) ∈ resources →
  let '(kept, skipped) := filter_resource_map_by_policy_flags policies resources in
  ((id, r) ∈ kept ↔ covered policies r = true) ∧
  (covered policies r = false → ∃ why, skip_of id r why ∈ skipped).
Proof.
  intros Hin. rewrite filter_by_policy_flags_spec. split.
  - rewrite list_elem_of_filter. naive_solver.
  - unfold covered. intros Hc. destruct (policy_of policies r) as [p|] eqn:Hp.
    + exists WorkloadDisabled. apply list_elem_of_omap. exists (id, r). cbn [snd fst]. by rewrite Hp, Hc.
    + exists PolicyNotFound. apply list_elem_of_omap. exists (id, r). cbn [snd fst]. by rewrite Hp.
Qed.
