(* ===== verification/Rollup.v ===== *)
(** * Batch roll-up

    Model of [src/shared/batch_rollup.py]: [derive_batch_status] and the part of
    [shape_batch_row] that does not go through floating point (status, warnings,
    phase, details, cancel button, finish time), and the strict completion gate
    [_finalize_batch_if_complete] over the tables it reads. [*_ready] arguments are
    the copy-workflow guards. *)

From S2P Require Import Prelude.
From S2P Require Import Lease.
From S2P Require Import Reconciler.
From S2P Require Import Workloads.
Local Open Scope Z_scope.

(** ** Display status *)
Record RollupCounts := Counts {
  all_jobs_terminal : bool;
  any_cancelled : bool;
  any_job_failed : bool;
  any_job_completed : bool;
  snap_total : Z;
  snap_done : Z;
  snap_partial : Z;
  snap_failed : Z;
  snap_pending : Z;
  snap_skipped : Z;
  parts_pending : Z;
  missing_t2 : Z;
  discovery_pending : bool;
  skipped_no_license : Z;
  any_tier2_jobs : bool;
  batch_recent : bool;
}.

Inductive batch_label := InProgress | Done | Failed | Canceled | Expired.
Global Instance batch_label_eq_dec : EqDecision batch_label.
Proof. solve_decision. Defined.

(** [warnings]: nothing, the chip's counts, or (deferred runs) a sentence. *)
Inductive warnings :=
  | NoWarnings
  | Chip (partial_failed : option (Z * Z)) (no_license : option Z)
  | Sentence.

(** [warnings or None] on the dictionary built by the last branch. *)
Definition chip (pf : option (Z * Z)) (nl : option Z) : warnings :=
  match pf, nl with None, None => NoWarnings | _, _ => Chip pf nl end.

Definition missing_unspawned (r : RollupCounts) : Z :=
  if (0 <? missing_t2 r) && negb (any_tier2_jobs r) then missing_t2 r else 0.

Definition still_moving (r : RollupCounts) : bool :=
  negb (all_jobs_terminal r) || (0 <? snap_pending r) || (0 <? parts_pending r)
  || ((0 <? missing_t2 r) && batch_recent r) || discovery_pending r.

Definition derive_batch_status (r : RollupCounts) : batch_label * warnings :=
  if still_moving r then (InProgress, NoWarnings)
  else
    let lost := missing_unspawned r in
    if snap_total r =? 0 then
      if (0 <? skipped_no_license r) && negb (any_job_failed r) && (lost =? 0)
      then (Done, Chip None (Some (skipped_no_license r)))
      else if any_job_completed r then (Done, NoWarnings)
      else if any_cancelled r then (Canceled, NoWarnings)
      else (if any_job_failed r then Failed else Expired, NoWarnings)
    else if (0 <? snap_skipped r) && (snap_done r =? 0) && (snap_partial r =? 0) && (snap_failed r =? 0)
    then (Done, Sentence)
    else
      let has_successes := (0 <? snap_done r) || (0 <? snap_partial r) in
      if any_cancelled r && negb has_successes then (Canceled, NoWarnings)
      else if negb has_successes then
        if (snap_total r =? 0) && negb (any_job_failed r) then
          if 0 <? skipped_no_license r then (Done, Chip None (Some (skipped_no_license r)))
          else (Expired, NoWarnings)
        else (Failed, NoWarnings)
      else
        (Done,
         chip (if (0 <? snap_partial r) || (0 <? snap_failed r) || any_cancelled r || (0 <? lost)
               then Some (snap_partial r, snap_failed r + lost) else None)
              (if 0 <? skipped_no_license r then Some (skipped_no_license r) else None)).

(** The fields of the row the label decides. *)
Record batch_row := Row {
  br_status : batch_label;
  br_warnings : warnings;
  br_finish : option Z;
  br_phase : string;
  br_details : string;
  br_cancellable : bool;
}.

Definition max_opt (l : list (option Z)) : option Z :=
  foldr (λ o acc, match o, acc with
                  | Some a, Some b => Some (Z.max a b) | Some a, None => Some a | None, acc => acc
                  end) None l.

(** [_format_details]; [size] is the rendering of the byte count by [_fmt_bytes]. *)
Definition format_details (l : batch_label) (bytes_added : Z) (size : string) : string :=
  match l with
  | Done => if 0 <? bytes_added then size +:+ " backed up" else "Completed"
  | Failed => "Failed"
  | Canceled => "Cancelled"
  | _ => if 0 <? bytes_added then size +:+ " so far" else "In progress"
  end.

Definition shape_batch_row (r : RollupCounts) (parts_max snaps_max jobs_max : option Z)
    (bytes_added : Z) (size : string) : batch_row :=
  let '(label, w) := derive_batch_status r in
  Row label w
    (if bool_decide (label = InProgress) then None else max_opt [parts_max; snaps_max; jobs_max])
    (if bool_decide (label ∈ [Done; Failed; Canceled]) then "done" else "in_progress")
    (format_details label bytes_added size)
    (negb (all_jobs_terminal r || any_cancelled r)).

(** ** The completion gate *)
Record resource_row := ResourceRow {
  rr_type : string;
  rr_parent : option string;
  rr_archived : bool;
  rr_license_missing : bool;
  rr_policy : option string;
}.

Record batch_snap := BSnap { bs_resource : string; bs_created : Z; bs_status : snapshot_status }.

Record batch := Batch {
  b_created : Z;
  b_scope : list string;
  b_status : string;
  b_completed : option Z;
}.

Record rollup_db := RollupDb {
  rd_batches : gmap string batch;
  rd_resources : gmap string resource_row;
  rd_snaps : gmap string batch_snap;
  rd_parts : list (string * string);               (** snapshot id, status *)
  rd_pending_users : gmap (string * string) string; (** batch id, user id: state *)
  rd_policies : gmap string policy;
}.

Definition set_batch (db : rollup_db) (bid : string) (b : batch) : rollup_db :=
  RollupDb (<[bid := b]> (rd_batches db)) (rd_resources db) (rd_snaps db) (rd_parts db)
    (rd_pending_users db) (rd_policies db).

Definition has_row (db : rollup_db) (rid : string) (f : resource_row → bool) : bool :=
  match rd_resources db !! rid with Some r => f r | None => false end.

(** [type = 'ENTRA_USER' AND archived_at IS NULL] *)
Definition is_entra (db : rollup_db) (rid : string) : bool :=
  has_row db rid (λ r, bool_decide (rr_type r = "ENTRA_USER") && negb (rr_archived r)).

Definition children (db : rollup_db) (uid : string) : list (string * resource_row) :=
  filter (λ kr, bool_decide (rr_parent kr.2 = Some uid) && negb (rr_archived kr.2) = true)
    (map_to_list (rd_resources db)).

(** Gate 1: no child yet, and the user is not known to be done with discovery. *)
Definition undiscovered (db : rollup_db) (bid uid : string) : bool :=
  bool_decide (children db uid = []) &&
  match rd_pending_users db !! (bid, uid) with
  | None => true
  | Some st => bool_decide (st = "WAITING_DISCOVERY")
  end.

(** The children a batch waits for. *)
Definition expected_child (archive_on : bool) (kr : string * resource_row) : bool :=
  negb (rr_license_missing kr.2) && (archive_on || negb (bool_decide (rr_type kr.2 = "USER_ARCHIVE"))).

Definition leaf_ids (archive_on : bool) (db : rollup_db) (scope : list string) : list string :=
  let entra := filter (λ r, is_entra db r = true) scope in
  remove_dups
    (entra ++ (entra ≫= λ u, (filter (λ kr, expected_child archive_on kr = true) (children db u)).*1)
     ++ filter (λ r, is_entra db r = false) scope).

(** [_dispatched_leaves] *)
Definition dispatch_disabled (db : rollup_db) (rid : string) : bool :=
  has_row db rid (λ r,
    match rr_policy r with
    | Some pid => match rd_policies db !! pid with
                  | Some p => negb (resource_type_enabled (rr_type r) p)
                  | None => false
                  end
    | None => false
    end).

Definition dispatched_leaves (db : rollup_db) (leaves : list string) : list string :=
  filter (λ r, dispatch_disabled db r = false) leaves.

Definition newer (a b : string * batch_snap) : Prop := bs_created b.2 ≤ bs_created a.2.
Global Instance newer_dec a b : Decision (newer a b).
Proof. unfold newer. apply _. Defined.

(** The snapshots of [rid] newer than the batch, newest first. *)
Definition fresh_snaps (db : rollup_db) (created : Z) (rid : string) : list (string * batch_snap) :=
  merge_sort newer
    (filter (λ ks, bool_decide (bs_resource ks.2 = rid) && (created <? bs_created ks.2) = true)
       (map_to_list (rd_snaps db))).

Definition terminal_snap (s : snapshot_status) : bool :=
  bool_decide (s ∈ [SCompleted; SPartial; SFailed; SSkipped]).

Section gate.
  Context (snap_ready : string → bool) (batch_ready : string → bool) (archive_on : bool).
  Context (now : Z) (db : rollup_db).

(** Gates 2 and 3: the newest snapshot since the batch is terminal. *)
Definition leaf_pending (created : Z) (rid : string) : bool :=
  match fresh_snaps db created rid with
  | [] => true
  | (sid, s) :: _ => negb (terminal_snap (bs_status s)) || negb (snap_ready sid)
  end.

(** Gate 4. *)
Definition leaf_in_flight (created : Z) (rid : string) : bool :=
  existsb (λ ks, existsb (λ ps, bool_decide (ps.1 = ks.1)
                               && bool_decide (ps.2 ∈ ["QUEUED"; "IN_PROGRESS"])) (rd_parts db))
    (fresh_snaps db created rid).

Definition leaf_partial (created : Z) (rid : string) : bool :=
  existsb (λ ks, bool_decide (bs_status ks.2 ∈ [SPartial; SFailed])) (fresh_snaps db created rid).

Definition close (bid : string) (b : batch) (st : string) : rollup_db :=
  set_batch db bid (Batch (b_created b) (b_scope b) st (Some now)).

Definition finalize_batch_if_complete (bid : string) : rollup_db * option string :=
  match rd_batches db !! bid with
  | None => (db, None)
  | Some b =>
    if negb (bool_decide (b_status b = "IN_PROGRESS") && batch_ready bid) then (db, None)
    else if bool_decide (b_scope b = []) then (close bid b "COMPLETED", Some "COMPLETED")
    else if existsb (undiscovered db bid) (filter (λ r, is_entra db r = true) (b_scope b)) then (db, None)
    else
      let leaves := dispatched_leaves db (leaf_ids archive_on db (b_scope b)) in
      if bool_decide (leaves = []) then (db, None)
      else if existsb (leaf_pending (b_created b)) leaves then (db, None)
      else if existsb (leaf_in_flight (b_created b)) leaves then (db, None)
      else
        let st := if existsb (leaf_partial (b_created b)) leaves then "PARTIAL" else "COMPLETED" in
        (close bid b st, Some st)
  end.
End gate.

(** ** Theorems *)

(** Counts are counts. *)
Definition counts_ok (r : RollupCounts) : Prop :=
  0 ≤ snap_done r ∧ 0 ≤ snap_partial r ∧ 0 ≤ snap_failed r ∧ 0 ≤ snap_skipped r ∧
  0 ≤ missing_t2 r ∧ 0 ≤ skipped_no_license r.

(** A clean "Done" means what it says: while snapshots of the batch remain, the
    feed shows Done without a warning exactly when nothing is moving any more, at
    least one snapshot is done, none is partial or failed, nothing was cancelled,
    no fan-out was lost and no workload was skipped for want of a licence. *)
Theorem clean_done_is_a_full_success r :
  counts_ok r → snap_total r ≠ 0 →
  derive_batch_status r = (Done, NoWarnings) ↔
  still_moving r = false ∧ 0 < snap_done r ∧ snap_partial r = 0 ∧ snap_failed r = 0 ∧
  any_cancelled r = false ∧ missing_unspawned r = 0 ∧ skipped_no_license r = 0.
Proof.
  intros (H1 & H2 & H3 & H4 & H5 & H6) Ht. unfold derive_batch_status.
  assert (0 ≤ missing_unspawned r) as Hm by (unfold missing_unspawned; case_match; lia).
  destruct (still_moving r); [naive_solver|]. rewrite (proj2 (Z.eqb_neq _ _) Ht). cbn [andb].
  set (lost := missing_unspawned r) in *. clearbody lost. unfold chip.
  destruct (Z.ltb_spec 0 (snap_done r)), (Z.ltb_spec 0 (snap_partial r)), (Z.ltb_spec 0 (snap_failed r)),
    (Z.ltb_spec 0 lost), (Z.ltb_spec 0 (skipped_no_license r)), (any_cancelled r);
    repeat match goal with |- context [?a =? 0] => destruct (Z.eqb_spec a 0); try lia end;
    destruct (0 <? snap_skipped r); cbn; split; intros Hx; try (discriminate Hx);
    try (destruct Hx as (_ & ? & ? & ? & ? & ? & ?)); try discriminate; try lia;
    first [reflexivity|repeat split; (reflexivity || lia)].
Qed.

(** A lost fan-out can still read as a clean "Done": a settled batch past the
    recency horizon whose snapshots have all been pruned, with a completed job
    and expected children for which no Tier-2 job ever spawned, is shown Done
    without a warning. *)
Theorem lost_fanout_reads_clean_done r :
  still_moving r = false → snap_total r = 0 → any_job_completed r = true →
  0 < missing_t2 r → any_tier2_jobs r = false →
  derive_batch_status r = (Done, NoWarnings) ∧ 0 < missing_unspawned r.
Proof.
  intros Hs Ht Hj Hm Ha. unfold derive_batch_status, missing_unspawned.
  rewrite Hs, Ht, Hj, Ha, (proj2 (Z.ltb_lt _ _) Hm). cbn [andb negb].
  rewrite (proj2 (Z.eqb_neq (missing_t2 r) 0)), andb_false_r by lia. split; [done|lia].
Qed.

(** An "Expired" row contradicts itself: it is terminal and carries a finish
    time, but its phase is "in_progress" and its details say it is in progress. *)
Theorem expired_row_claims_progress r pm sm jm size :
  (derive_batch_status r).1 = Expired →
  br_phase (shape_batch_row r pm sm (Some jm) 0 size) = "in_progress" ∧
  br_details (shape_batch_row r pm sm (Some jm) 0 size) = "In progress" ∧
  br_finish (shape_batch_row r pm sm (Some jm) 0 size) ≠ None.
Proof.
  unfold shape_batch_row. destruct (derive_batch_status r) as [l w]. cbn [fst]. intros ->.
  split_and!; [done..|]. cbn. by destruct pm, sm.
Qed.

(** *** The gate *)
Lemma existsb_false_In {A} (f : A → bool) l x : existsb f l = false → x ∈ l → f x = false.
Proof. rewrite existsb_Forall, Forall_forall. auto. Qed.

Lemma fresh_snaps_elem db created rid sid s :
  (sid, s) ∈ fresh_snaps db created rid ↔
  rd_snaps db !! sid = Some s ∧ bs_resource s = rid ∧ created < bs_created s.
Proof.
  unfold fresh_snaps. rewrite merge_sort_Permutation, list_elem_of_filter, elem_of_map_to_list.
  cbn [snd]. rewrite andb_true_iff, bool_decide_eq_true, Z.ltb_lt. tauto.
Qed.

Global Instance newer_total : Total newer.
Proof. intros a b. unfold newer. lia. Qed.
Global Instance newer_trans : Transitive newer.
Proof. intros a b c. unfold newer. lia. Qed.

(** The head of the list is the newest. *)
Lemma fresh_snaps_newest db created rid sid s l sid' s' :
  fresh_snaps db created rid = (sid, s) :: l → (sid', s') ∈ fresh_snaps db created rid →
  bs_created s' ≤ bs_created s.
Proof.
  intros Heq Hin. assert (StronglySorted newer (fresh_snaps db created rid)) as Hss
    by (unfold fresh_snaps; apply (StronglySorted_merge_sort newer)).
  rewrite Heq in *. apply elem_of_cons in Hin as [[= -> ->]|Hin]; [lia|].
  inversion Hss as [|? ? _ Hall]; subst. rewrite Forall_forall in Hall. exact (Hall _ Hin).
Qed.

(** The completion gate is sound: when it closes a batch with a non-empty scope,
    every leaf it waits for has a terminal newest snapshot since the click, no
    shard of any of the leaves' snapshots since then is in flight, and the batch
    is COMPLETED exactly when none of those snapshots is PARTIAL or FAILED and
    PARTIAL otherwise (never FAILED); a second call changes nothing. *)
Theorem finalize_is_sound snap_ready batch_ready archive_on now db bid b db' st :
  rd_batches db !! bid = Some b → b_scope b ≠ [] →
  finalize_batch_if_complete snap_ready batch_ready archive_on now db bid = (db', Some st) →
  let leaves := dispatched_leaves db (leaf_ids archive_on db (b_scope b)) in
  (∀ rid, rid ∈ leaves → ∃ sid s, rd_snaps db !! sid = Some s ∧ bs_resource s = rid ∧
     b_created b < bs_created s ∧ terminal_snap (bs_status s) = true ∧
     ∀ sid' s', rd_snaps db !! sid' = Some s' → bs_resource s' = rid →
       b_created b < bs_created s' → bs_created s' ≤ bs_created s) ∧
  (∀ rid sid s pst, rid ∈ leaves → rd_snaps db !! sid = Some s → bs_resource s = rid →
     b_created b < bs_created s → (sid, pst) ∈ rd_parts db → pst ∉ ["QUEUED"; "IN_PROGRESS"]) ∧
  (st = "COMPLETED" ∧ (∀ rid sid s, rid ∈ leaves → rd_snaps db !! sid = Some s →
      bs_resource s = rid → b_created b < bs_created s → bs_status s ∉ [SPartial; SFailed]) ∨
   st = "PARTIAL" ∧ ∃ rid sid s, rid ∈ leaves ∧ rd_snaps db !! sid = Some s ∧
      bs_resource s = rid ∧ b_created b < bs_created s ∧ bs_status s ∈ [SPartial; SFailed]) ∧
  finalize_batch_if_complete snap_ready batch_ready archive_on now db' bid = (db', None).
Proof.
  intros Hb Hsc Hf leaves. unfold finalize_batch_if_complete in Hf. rewrite Hb in Hf.
  destruct (negb _) eqn:Hip; [done|]. rewrite bool_decide_eq_false_2 in Hf by done.
  destruct (existsb (undiscovered _ _) _); [done|]. fold leaves in Hf.
  case_bool_decide as Hne; [done|].
  destruct (existsb (leaf_pending _ _ _) leaves) eqn:Hp; [done|].
  destruct (existsb (leaf_in_flight _ _) leaves) eqn:Hfl; [done|].
  set (st0 := if existsb _ _ then "PARTIAL" else "COMPLETED") in Hf. injection Hf as <- <-.
  split_and!.
  - intros rid Hin. pose proof (existsb_false_In _ _ _ Hp Hin) as Hl. unfold leaf_pending in Hl.
    destruct (fresh_snaps db (b_created b) rid) as [|[sid s] l] eqn:Hfs; [done|]. bools.
    assert ((sid, s) ∈ fresh_snaps db (b_created b) rid) as Hs by (rewrite Hfs; left).
    apply fresh_snaps_elem in Hs as (Hs1 & Hs2 & Hs3). exists sid, s. split_and!; [done..|].
    intros sid' s' A1 A2 A3. eapply fresh_snaps_newest; [exact Hfs|]. by apply fresh_snaps_elem.
  - intros rid sid s pst Hin H1 H2 H3 Hpart Hbad.
    pose proof (existsb_false_In _ _ _ Hfl Hin) as Hl. unfold leaf_in_flight in Hl.
    assert ((sid, s) ∈ fresh_snaps db (b_created b) rid) as Hs by (by apply fresh_snaps_elem).
    pose proof (existsb_false_In _ _ _ Hl Hs) as Hl2. cbn beta in Hl2.
    pose proof (existsb_false_In _ _ _ Hl2 Hpart) as Hl3. cbn [fst snd] in Hl3.
    by rewrite !bool_decide_eq_true_2 in Hl3.
  - unfold st0. destruct (existsb (leaf_partial _ _) leaves) eqn:Hpa.
    + right. split; [done|]. apply existsb_exists in Hpa as (rid & Hin & Hl).
      apply existsb_exists in Hl as ([sid s] & Hs & Hbad). bools.
      apply list_elem_of_In in Hin, Hs. apply fresh_snaps_elem in Hs as (? & ? & ?). eauto 10.
    + left. split; [done|]. intros rid sid s Hin H1 H2 H3 Hbad.
      pose proof (existsb_false_In _ _ _ Hpa Hin) as Hl. unfold leaf_partial in Hl.
      assert ((sid, s) ∈ fresh_snaps db (b_created b) rid) as Hs by (by apply fresh_snaps_elem).
      pose proof (existsb_false_In _ _ _ Hl Hs) as Hl2. cbn [snd] in Hl2. by bools.
  - unfold finalize_batch_if_complete, close, set_batch. cbn [rd_batches]. rewrite lookup_insert_eq.
    cbn [b_status]. assert (bool_decide (st0 = "IN_PROGRESS") = false) as ->; [|done].
    apply bool_decide_eq_false_2. unfold st0. by case_match.
Qed.

(** A batch none of whose leaves is dispatched never closes: when every leaf of a
    non-empty scope is excluded (workload disabled by its policy), the gate
    returns without closing the batch, whatever snapshots exist. *)
Theorem undispatched_batch_never_closes snap_ready batch_ready archive_on now db bid b :
  rd_batches db !! bid = Some b → b_scope b ≠ [] →
  Forall (λ r, dispatch_disabled db r = true) (leaf_ids archive_on db (b_scope b)) →
  finalize_batch_if_complete snap_ready batch_ready archive_on now db bid = (db, None).
Proof.
  intros Hb Hsc Hall. unfold finalize_batch_if_complete. rewrite Hb.
  destruct (negb _); [done|]. rewrite bool_decide_eq_false_2 by done.
  destruct (existsb _ _); [done|]. rewrite bool_decide_eq_true_2; [done|].
  unfold dispatched_leaves. apply elem_of_nil_inv. intros r [Hr Hin]%list_elem_of_filter.
  rewrite Forall_forall in Hall. specialize (Hall r Hin). congruence.
Qed.

(** ** Examples *)
Module RollupExamples.
Definition always (_ : string) : bool := true.
Definition settled_counts (total done missing : Z) (recent : bool) : RollupCounts :=
  Counts true false false true total done 0 0 0 0 0 missing false 0 false recent.

Lemma clean_done_is_a_full_success_witness :
  derive_batch_status (settled_counts 4 4 0 true) = (Done, NoWarnings).
Proof.
  apply (clean_done_is_a_full_success (settled_counts 4 4 0 true)).
  - repeat split; discriminate.
  - discriminate.
  - repeat split.
Defined.

Lemma lost_fanout_reads_clean_done_witness :
  derive_batch_status (settled_counts 0 0 7 false) = (Done, NoWarnings) ∧
  0 < missing_unspawned (settled_counts 0 0 7 false).
Proof. apply lost_fanout_reads_clean_done; reflexivity. Defined.

Definition pruned : RollupCounts :=
  Counts true false false false 0 0 0 0 0 0 0 0 false 0 true true.

Lemma expired_row_claims_progress_witness :
  br_phase (shape_batch_row pruned None None (Some 9) 0 "") = "in_progress".
Proof. exact (proj1 (expired_row_claims_progress pruned None None 9 "" eq_refl)). Defined.

(** One user with a mailbox: the mailbox's newest snapshot is partial. *)
Definition db0 (mail : snapshot_status) (flags : policy) : rollup_db :=
  RollupDb {[ "b1" := Batch 10 ["u1"] "IN_PROGRESS" None ]}
    {[ "u1" := ResourceRow "ENTRA_USER" None false false (Some "gold");
       "m1" := ResourceRow "USER_MAIL" (Some "u1") false false (Some "gold") ]}
    {[ "s1" := BSnap "u1" 11 SCompleted; "s2" := BSnap "m1" 12 mail ]}
    [("s2", "COMPLETED")] ∅ {[ "gold" := flags ]}.
Definition on : policy := {[ "backup_entra_id" := true; "backup_exchange" := true ]}.
Definition off : policy :=
  {[ "backup_entra_id" := false; "contacts" := false; "calendars" := false; "backup_exchange" := false ]}.
Definition closed0 := finalize_batch_if_complete always always true 99 (db0 SPartial on) "b1".

Lemma finalize_is_sound_witness :
  finalize_batch_if_complete always always true 99 closed0.1 "b1" = (closed0.1, None).
Proof.
  refine (proj2 (proj2 (proj2 (finalize_is_sound always always true 99 (db0 SPartial on) "b1"
    (Batch 10 ["u1"] "IN_PROGRESS" None) closed0.1 "PARTIAL" _ _ _)))).
  - reflexivity.
  - discriminate.
  - apply pair_eta_r. vm_compute. reflexivity.
Defined.

Lemma undispatched_batch_never_closes_witness :
  finalize_batch_if_complete always always true 99 (db0 SCompleted off) "b1" = (db0 SCompleted off, None).
Proof.
  refine (undispatched_batch_never_closes always always true 99 (db0 SCompleted off) "b1"
    (Batch 10 ["u1"] "IN_PROGRESS" None) _ _ _).
  - reflexivity.
  - discriminate.
  - assert (leaf_ids true (db0 SCompleted off) ["u1"] = ["u1"; "m1"]) as Hl by (vm_compute; reflexivity).
    cbn [b_scope]. rewrite Hl. constructor; [vm_compute; reflexivity|].
    constructor; [vm_compute; reflexivity|constructor].
Defined.
End RollupExamples.
