(* ===== verification/Dispatch.v ===== *)
(** * The backup scheduler's dispatch policy

    Model of [src/services/backup-scheduler/dispatch_policy.py] (overlap decision,
    concurrency budget, wave planning, cycle windows, and the queries as functions
    of the tables) and of the two places of [main.py] that compose it:
    [_dispatch_resources], which turns resources into queued jobs, and the cycle
    drain [drain_policy_cycle].

    Instants are microseconds (naive UTC). An APScheduler trigger is the function
    [next_fire] with the contract [cron] below. Hours and fractions, floats in the
    source, are exact here; the wave floor [int(n * 0.2)] is [n / 5]. *)

From S2P Require Import Prelude.
From S2P Require Import Lease.
From S2P Require Import Reconciler.
From S2P Require Import Workloads.
Local Open Scope Z_scope.

Definition HOUR : Z := 3600 * SEC.

(** ** Cadence and overlap *)
Definition FREQUENCY_INTERVAL_HOURS : gmap string Z :=
  list_to_map [("THREE_DAILY", 8); ("DAILY", 24); ("WEEKLY", 168); ("MONTHLY", 720)].
Definition DEFAULT_INTERVAL_HOURS : Z := 24.
Definition MIN_STALE_AFTER_HOURS : Z := 24.

(** The frequency is already upper-case here. *)
Definition frequency_interval_hours (frequency : option string) : Z :=
  match frequency with
  | None => DEFAULT_INTERVAL_HOURS
  | Some f => default DEFAULT_INTERVAL_HOURS (FREQUENCY_INTERVAL_HOURS !! f)
  end.

Definition overlap_stale_after_hours (frequency : option string) (multiplier : Z) : Z :=
  Z.max (frequency_interval_hours frequency * multiplier) MIN_STALE_AFTER_HOURS.

Inductive overlap_action := DISPATCH | SKIP | OVERRIDE.
Global Instance overlap_action_eq_dec : EqDecision overlap_action.
Proof. solve_decision. Defined.

Definition decide_overlap_action (inflight_jobs : Z) (oldest : option Z) (now stale_after_hours : Z)
    (guard_enabled : bool) : overlap_action :=
  if negb guard_enabled then DISPATCH
  else if inflight_jobs <=? 0 then DISPATCH
  else match oldest with
       | None => SKIP
       | Some o => if stale_after_hours * HOUR <? now - o then OVERRIDE else SKIP
       end.

(** ** Cycle windows *)
Record CycleWindow := Window { w_start : Z; w_end : Z }.

Definition DRAIN_CYCLE_GRACE_S : Z := 300.

Section window.
  Context (next_fire : Z → option Z).

(** The loop of [cycle_window_from_trigger]: the last fire it saw. *)
Fixpoint last_fire (fuel : nat) (now probe : Z) (start : option Z) : option Z :=
  match fuel with
  | O => start
  | S fuel =>
    match next_fire probe with
    | None => start
    | Some nxt => if now <? nxt then start else last_fire fuel now (nxt + SEC) (Some nxt)
    end
  end.

Definition cycle_window_from_trigger (now lookback_hours : Z) : option CycleWindow :=
  start ← last_fire 512 now (now - lookback_hours * HOUR) None;
  end_ ← next_fire (start + SEC);
  if end_ <=? start then None else Some (Window start end_).
End window.

Definition cycle_is_drainable (w : CycleWindow) (now : Z) : bool :=
  (w_start w + DRAIN_CYCLE_GRACE_S * SEC <=? now) && (now <? w_end w).

(** The minutes since midnight a window bound parses to; the inner [None] is a
    string that does not parse. *)
Definition within_backup_window (cur : Z) (window_start window_end : option (option Z)) : bool :=
  match window_end with
  | None => true
  | Some e =>
    match e, default (Some 0) window_start with
    | Some end_m, Some start_m =>
      if start_m <=? end_m then (start_m <=? cur) && (cur <? end_m)
      else (start_m <=? cur) || (cur <? end_m)
    | _, _ => true
    end
  end.

(** ** Resources, order and waves *)
Record dispatch_resource := DRes {
  dr_id : string;
  dr_type : string;
  dr_tenant : string;
  dr_policy : option string;
  dr_live : bool;                  (** status DISCOVERED or ACTIVE *)
  dr_last_backup : option Z;
  dr_license_missing : bool;
}.
Global Instance dispatch_resource_eq_dec : EqDecision dispatch_resource.
Proof. solve_decision. Defined.

(** [backup_priority_key(a) <= backup_priority_key(b)]: never backed up first, then
    the oldest backup, then the id. *)
Definition priority_le (a b : dispatch_resource) : Prop :=
  match dr_last_backup a, dr_last_backup b with
  | None, None => String.le (dr_id a) (dr_id b)
  | None, Some _ => True
  | Some _, None => False
  | Some x, Some y => x < y ∨ x = y ∧ String.le (dr_id a) (dr_id b)
  end.

Global Instance priority_le_dec a b : Decision (priority_le a b).
Proof. unfold priority_le. repeat case_match; apply _. Defined.

Definition by_priority (l : list dispatch_resource) : list dispatch_resource :=
  merge_sort priority_le l.

Definition partition_overlap_holds (resources : list dispatch_resource) (inflight : list string)
    : list dispatch_resource * list dispatch_resource :=
  (filter (λ r, dr_id r ∉ inflight) resources, filter (λ r, dr_id r ∈ inflight) resources).

Definition plan_concurrency_budget (resources : list dispatch_resource)
    (max_concurrent inflight : Z) : list dispatch_resource * list dispatch_resource :=
  if max_concurrent <=? 0 then (resources, [])
  else
    let budget := Z.max 0 (max_concurrent - Z.max 0 inflight) in
    if Z.of_nat (length resources) <=? budget then (resources, [])
    else
      let ordered := by_priority resources in
      (take (Z.to_nat budget) ordered, drop (Z.to_nat budget) ordered).

(** [full_fraction] is [DRAIN_MIN_WAVE_FRACTION = 0.2]; otherwise 0. *)
Definition plan_wave (remaining : list dispatch_resource) (budget max_concurrent : Z)
    (full_fraction : bool) : list dispatch_resource :=
  if (budget <=? 0) || bool_decide (remaining = []) then []
  else if Z.of_nat (length remaining) <=? budget then remaining
  else
    let base := Z.min (Z.of_nat (length remaining)) max_concurrent in
    let floor := Z.max 1 (if full_fraction then base / 5 else 0) in
    if budget <? floor then [] else take (Z.to_nat budget) remaining.

(** ** The tables and the queries *)
Record sched_job := SJob {
  sj_backup : bool;                (** [type = BACKUP] *)
  sj_status : job_status;
  sj_policy : option string;       (** [spec.sla_policy_id] *)
  sj_trigger : string;             (** [spec.triggered_by] *)
  sj_created : Z;
  sj_batch : option (list string); (** [batch_resource_ids] *)
  sj_resource : option string;
  sj_batch_id : option string;     (** [spec.batch_id] *)
  sj_wave : option Z;              (** [spec.wave] *)
}.

Record sched_snap := SSnap {
  ss_job : string;
  ss_resource : string;
  ss_status : snapshot_status;
  ss_placeholder : bool;           (** [extra_data.skipped_concurrent] *)
}.

Record sched_db := SchedDb {
  sd_jobs : list (string * sched_job);
  sd_snaps : list sched_snap;
  sd_resources : list dispatch_resource;
}.

(** One row of [_inflight_members]. *)
Record member := Member { mb_job : string; mb_status : job_status; mb_resource : string }.

Definition inflight_job (policy_id : option string) (j : sched_job) : bool :=
  sj_backup j && bool_decide (sj_status j ∈ [JQueued; JRunning])
  && match policy_id with None => true | Some p => bool_decide (sj_policy j = Some p) end.

Definition members_of (kj : string * sched_job) : list member :=
  (Member kj.1 (sj_status kj.2) <$> default [] (sj_batch kj.2)) ++
  match sj_resource kj.2 with Some r => [Member kj.1 (sj_status kj.2) r] | None => [] end.

Definition inflight_members (db : sched_db) (policy_id : option string) : list member :=
  filter (λ kj, inflight_job policy_id kj.2 = true) (sd_jobs db) ≫= members_of.

Definition member_in_flight (db : sched_db) (m : member) : bool :=
  let mine := filter (λ s, bool_decide (ss_job s = mb_job m) && bool_decide (ss_resource s = mb_resource m) = true)
                (sd_snaps db) in
  bool_decide (mb_status m = JQueued)
  || existsb (λ s, bool_decide (ss_status s = SInProgress) && negb (ss_placeholder s)) mine
  || negb (existsb (λ s, bool_decide (ss_status s ∈ [SCompleted; SPartial; SFailed; SSkipped])
                         || ss_placeholder s) mine).

Definition inflight_ids (db : sched_db) (policy_id : option string) : list string :=
  remove_dups (mb_resource <$> filter (λ m, member_in_flight db m = true) (inflight_members db policy_id)).

Definition inflight_resource_count (db : sched_db) (policy_id : string) : Z :=
  Z.of_nat (length (inflight_ids db (Some policy_id))).

Definition scheduled_inflight (db : sched_db) (policy_id : string) : Z * option Z :=
  let js := filter (λ kj, sj_backup kj.2 && bool_decide (sj_policy kj.2 = Some policy_id)
                          && bool_decide (sj_trigger kj.2 = "SCHEDULED")
                          && bool_decide (sj_status kj.2 ∈ [JQueued; JRunning]) = true) (sd_jobs db) in
  (Z.of_nat (length js),
   foldr (λ kj acc, Some (match acc with Some a => Z.min a (sj_created kj.2) | None => sj_created kj.2 end))
     None js).

Definition cycle_job (policy_id : string) (since : Z) (j : sched_job) : bool :=
  sj_backup j && bool_decide (sj_policy j = Some policy_id) && bool_decide (sj_trigger j = "SCHEDULED")
  && (since <=? sj_created j).

Definition cycle_jobs (db : sched_db) (policy_id : string) (since : Z) : list (string * sched_job) :=
  filter (λ kj, cycle_job policy_id since kj.2 = true) (sd_jobs db).

Definition cycle_dispatched_ids (db : sched_db) (policy_id : string) (since : Z) : list string :=
  remove_dups (cycle_jobs db policy_id since ≫= λ kj, default [] (sj_batch kj.2)).

Definition job_older (a b : string * sched_job) : Prop := sj_created a.2 ≤ sj_created b.2.
Global Instance job_older_dec a b : Decision (job_older a b).
Proof. unfold job_older. apply _. Defined.

(** [.scalar()]: the batch id of the cycle's oldest job. *)
Definition cycle_batch_id (db : sched_db) (policy_id : string) (since : Z) : option string :=
  kj ← head (merge_sort job_older (cycle_jobs db policy_id since)); sj_batch_id kj.2.

Definition cycle_max_wave (db : sched_db) (policy_id : string) (since : Z) : Z :=
  match omap (λ kj, sj_wave kj.2) (cycle_jobs db policy_id since) with
  | [] => 0
  | w :: ws => foldr Z.max w ws
  end.

Definition drain_candidates (db : sched_db) (policy_id : string) (since : Z) (flags : policy)
    : list dispatch_resource :=
  by_priority
    (filter (λ r, bool_decide (dr_policy r = Some policy_id) && dr_live r
                  && resource_type_enabled (dr_type r) flags
                  && negb (bool_decide (dr_type r = "POWER_BI")) && negb (dr_license_missing r)
                  && negb (bool_decide (dr_id r ∈ cycle_dispatched_ids db policy_id since)) = true)
       (sd_resources db)).

(** ** [_dispatch_resources] *)
Definition BATCH_SIZE : nat := 1000.

Definition group_key (r : dispatch_resource) : string * string := (dr_type r, dr_tenant r).

(** [groups.setdefault(key, []).append(r)] over an insertion-ordered dict. *)
Fixpoint group_insert (r : dispatch_resource) (gs : list (string * string * list dispatch_resource))
    : list (string * string * list dispatch_resource) :=
  match gs with
  | [] => [(group_key r, [r])]
  | (k, rs) :: gs =>
    if bool_decide (k = group_key r) then (k, rs ++ [r]) :: gs else (k, rs) :: group_insert r gs
  end.

Definition groups_of (rs : list dispatch_resource) : list (string * string * list dispatch_resource) :=
  foldl (λ gs r, group_insert r gs) [] rs.

(** [for i in range(0, len(l), n): l[i:i+n]] *)
Fixpoint chunks {A} (fuel n : nat) (l : list A) : list (list A) :=
  match fuel, l with
  | S fuel, _ :: _ => take n l :: chunks fuel n (drop n l)
  | _, _ => []
  end.

(** One job per chunk of one type and tenant; [new_id] draws the job ids. *)
Definition job_for (policy_id batch_id : string) (wave now : Z) (rs : list dispatch_resource) : sched_job :=
  SJob true JQueued (Some policy_id) "SCHEDULED" now (Some (dr_id <$> rs)) None (Some batch_id) (Some wave).

Definition batches_of (rs : list dispatch_resource) : list (list dispatch_resource) :=
  groups_of rs ≫= λ g, chunks (length g.2) BATCH_SIZE g.2.

Definition dispatch_resources (new_id : nat → string) (policy_id batch_id : string) (wave now : Z)
    (rs : list dispatch_resource) (db : sched_db) : sched_db * Z :=
  let bs := batches_of rs in
  (SchedDb (sd_jobs db ++ imap (λ i b, (new_id i, job_for policy_id batch_id wave now b)) bs)
     (sd_snaps db) (sd_resources db),
   foldr (λ b acc, Z.of_nat (length b) + acc) 0 bs).

(** ** The drain *)
Record drain_policy := DrainPolicy {
  dp_id : string;
  dp_enabled : bool;
  dp_max_concurrent : Z;
  dp_flags : policy;
  dp_any_type : bool;              (** [_enabled_type_values(policy)] is not empty *)
  dp_window_start : option (option Z);
  dp_window_end : option (option Z);
  dp_next_fire : Z → option Z;
}.

(** The per-process caches [_cycle_exhausted_until], [_cycle_incomplete_emitted]. *)
Record drain_caches := Caches {
  dc_exhausted : gmap string Z;
  dc_incomplete : gmap string Z;
}.

Record drain_result := Drained {
  dn_db : sched_db;
  dn_caches : drain_caches;
  dn_wave : list dispatch_resource;
  dn_remaining : list dispatch_resource;
  dn_held : list dispatch_resource;
  dn_reported : bool;              (** a BACKUP_CYCLE_INCOMPLETE event was emitted *)
}.

Definition drain_nothing (db : sched_db) (c : drain_caches) : drain_result := Drained db c [] [] [] false.

Definition minute_of_day (now : Z) : Z := (now `div` (60 * SEC)) `mod` 1440.

(** [_report_incomplete_if_closing] *)
Definition report_incomplete (closing : bool) (pid : string) (w_end_ : Z)
    (remaining held : list dispatch_resource) (c : drain_caches) : drain_caches * bool :=
  if closing && negb (bool_decide (remaining = []) && bool_decide (held = []))
     && negb (bool_decide (dc_incomplete c !! pid = Some w_end_))
  then (Caches (dc_exhausted c) (<[pid := w_end_]> (dc_incomplete c)), true)
  else (c, false).

Definition drain_policy_cycle (enabled : bool) (tick_s : Z) (new_batch : string) (new_id : nat → string)
    (p : drain_policy) (now : Z) (db : sched_db) (c : drain_caches) : drain_result :=
  if negb enabled || negb (dp_enabled p) || (dp_max_concurrent p <=? 0) then drain_nothing db c
  else match cycle_window_from_trigger (dp_next_fire p) now 192 with
  | None => drain_nothing db c
  | Some w =>
    if negb (cycle_is_drainable w now)
       || negb (within_backup_window (minute_of_day now) (dp_window_start p) (dp_window_end p))
       || bool_decide (dc_exhausted c !! dp_id p = Some (w_end w))
    then drain_nothing db c
    else
      let closing := w_end w - tick_s * SEC <=? now in
      let budget := dp_max_concurrent p - inflight_resource_count db (dp_id p) in
      if ((budget <=? 0) && negb closing) || negb (dp_any_type p) then drain_nothing db c
      else
        let rows := drain_candidates db (dp_id p) (w_start w) (dp_flags p) in
        if bool_decide (rows = []) then
          drain_nothing db (Caches (<[dp_id p := w_end w]> (dc_exhausted c)) (dc_incomplete c))
        else
          let '(candidates, held) := partition_overlap_holds rows (inflight_ids db None) in
          let ordered := by_priority candidates in
          let wave := plan_wave ordered (Z.max 0 budget) (dp_max_concurrent p) (negb closing) in
          let remaining := drop (length wave) ordered in
          let '(c', reported) := report_incomplete closing (dp_id p) (w_end w) remaining held c in
          if bool_decide (wave = []) then Drained db c' [] remaining held reported
          else
            let batch := cycle_batch_id db (dp_id p) (w_start w) in
            let wave_no := match batch with
                           | None => 1
                           | Some _ => Z.max (cycle_max_wave db (dp_id p) (w_start w)) 1 + 1
                           end in
            let '(db', _) := dispatch_resources new_id (dp_id p) (default new_batch batch) wave_no now wave db in
            Drained db' c' wave remaining held reported
  end.

(** ** Cycle windows are the cron's *)

(** What the scheduler relies on of an APScheduler trigger with fire times [F]. *)
Record cron (F : Z → Prop) (next_fire : Z → option Z) : Prop := {
  cron_some p t : next_fire p = Some t → F t ∧ p ≤ t ∧ ∀ f, F f → p ≤ f → t ≤ f;
  cron_none p f : next_fire p = None → F f → ¬ p ≤ f;
  cron_hourly f g : F f → F g → f < g → f + HOUR ≤ g;
}.

Lemma last_fire_spec F nf fuel now probe low start :
  cron F nf → (∀ f, F f → probe ≤ f → low ≤ f) → now - low < Z.of_nat fuel * HOUR →
  match last_fire nf fuel now probe start with
  | Some t => (start = Some t ∧ ∀ f, F f → probe ≤ f → now < f) ∨
              (F t ∧ probe ≤ t ≤ now ∧ ∀ f, F f → t < f → now < f)
  | None => start = None ∧ ∀ f, F f → probe ≤ f → now < f
  end.
Proof.
  intros Hc. revert probe low start.
  induction fuel as [|fuel IH]; intros probe low start Hlow Hfuel; cbn [last_fire].
  { assert (∀ f, F f → probe ≤ f → now < f).
    { intros f Hf Hp. specialize (Hlow f Hf Hp). lia. }
    destruct start; eauto. }
  destruct (nf probe) as [nxt|] eqn:Hn.
  2:{ assert (∀ f, F f → probe ≤ f → now < f).
      { intros f Hf Hp. by destruct (cron_none _ _ Hc _ _ Hn Hf). }
      destruct start; eauto. }
  destruct (cron_some _ _ Hc _ _ Hn) as (HF & Hle & Hmin).
  destruct (now <? nxt) eqn:Hlt; bools.
  { assert (∀ f, F f → probe ≤ f → now < f).
    { intros f Hf Hp. specialize (Hmin f Hf Hp). lia. }
    destruct start; eauto. }
  assert (∀ f, F f → nxt + SEC ≤ f → nxt + HOUR ≤ f) as Hlow'.
  { intros f Hf Hp. apply (cron_hourly _ _ Hc); [done..|]. unfold SEC in Hp. lia. }
  specialize (IH (nxt + SEC) (nxt + HOUR) (Some nxt) Hlow').
  specialize (Hlow nxt HF Hle). assert (now - (nxt + HOUR) < Z.of_nat fuel * HOUR) as Hf' by lia.
  specialize (IH Hf'). destruct (last_fire nf fuel now (nxt + SEC) (Some nxt)) as [t|]; [|naive_solver].
  assert (∀ f, F f → nxt < f → nxt + SEC ≤ f) as Hgap.
  { intros f Hf Hp. pose proof (cron_hourly _ _ Hc nxt f HF Hf Hp). unfold HOUR, SEC in *. lia. }
  right. destruct IH as [[[= <-] Hno]|(HFt & [? ?] & Hno)].
  - split_and!; [done|lia|lia|]. intros f Hf Hp. apply Hno; [done|]. by apply Hgap.
  - split_and!; [done|unfold SEC in *; lia|lia|done].
Qed.

(** The cycle window is the one the cron is in: for a trigger that fires at most
    hourly, fired in the last eight days and fires again, the window computed at
    [now] starts at the last fire at or before [now] and ends at the next fire
    after [now], with no fire in between. *)
Theorem cycle_window_is_the_current_cycle F nf now f0 f1 :
  cron F nf → F f0 → now - 192 * HOUR ≤ f0 ≤ now → F f1 → now < f1 →
  ∃ w, cycle_window_from_trigger nf now 192 = Some w ∧ F (w_start w) ∧ F (w_end w) ∧
    w_start w ≤ now < w_end w ∧ ∀ f, F f → ¬ w_start w < f < w_end w.
Proof.
  intros Hc HF0 Hf0 HF1 Hf1. unfold cycle_window_from_trigger.
  pose proof (last_fire_spec F nf 512 now (now - 192 * HOUR) (now - 192 * HOUR) None Hc
    (λ f _ Hp, Hp)) as Hl. destruct (last_fire _ _ _ _ _) as [t|].
  2:{ destruct Hl as [_ Hl]; [unfold HOUR, SEC; lia|]. specialize (Hl f0 HF0). lia. }
  destruct Hl as [[? _]|(HFt & [Hlo Hle] & Hno)]; [unfold HOUR, SEC; lia|done|]. cbn [mbind option_bind].
  assert (t + SEC ≤ f1) as Hgap.
  { pose proof (cron_hourly _ _ Hc t f1 HFt HF1 ltac:(lia)). unfold HOUR, SEC in *. lia. }
  destruct (nf (t + SEC)) as [e|] eqn:He; [|by destruct (cron_none _ _ Hc _ _ He HF1)].
  destruct (cron_some _ _ Hc _ _ He) as (HFe & Hse & Hmin).
  cbn [mbind option_bind]. rewrite (proj2 (Z.leb_gt _ _)) by (unfold SEC in *; lia).
  exists (Window t e). split; [done|]. cbn [w_start w_end]. split_and!; [done|done|done| |].
  - apply Hno; [done|]. unfold SEC in *; lia.
  - intros f Hf [H1 H2]. pose proof (cron_hourly _ _ Hc t f HFt Hf H1).
    specialize (Hmin f Hf). unfold HOUR, SEC in *. lia.
Qed.

(** ** Order *)
Global Instance priority_le_total : Total priority_le.
Proof.
  intros a b. unfold priority_le. destruct (dr_last_backup a) as [x|], (dr_last_backup b) as [y|]; auto.
  - destruct (Z.lt_trichotomy x y) as [?|[->|?]]; auto.
    destruct (total String.le (dr_id a) (dr_id b)); auto.
  - apply (total String.le).
Qed.

Global Instance priority_le_trans : Transitive priority_le.
Proof.
  intros a b c. unfold priority_le.
  destruct (dr_last_backup a) as [x|], (dr_last_backup b) as [y|], (dr_last_backup c) as [z|]; try done.
  - intros [?|[-> ?]] [?|[-> ?]]; auto with lia. right. split; [done|]. by etrans.
  - by etrans.
Qed.

Lemma by_priority_perm l : by_priority l ≡ₚ l.
Proof. apply merge_sort_Permutation. Qed.

Lemma by_priority_sorted l : StronglySorted priority_le (by_priority l).
Proof. apply (StronglySorted_merge_sort priority_le). Qed.

(** The first [n] of a sorted list come before the rest. *)
Lemma sorted_take_drop {A} (R : relation A) l n x y :
  StronglySorted R l → x ∈ take n l → y ∈ drop n l → R x y.
Proof.
  intros Hs Hx Hy. rewrite <-(take_drop n l) in Hs. clear -Hs Hx Hy.
  induction (take n l) as [|a k IH]; [by apply not_elem_of_nil in Hx|].
  inversion Hs as [|? ? Hs' Hall]; subst. apply elem_of_cons in Hx as [->|Hx]; [|auto].
  rewrite Forall_forall in Hall. apply Hall, elem_of_app. by right.
Qed.

Lemma plan_wave_prefix l b m f :
  plan_wave l b m f = take (length (plan_wave l b m f)) l ∧
  (Z.of_nat (length (plan_wave l b m f)) ≤ Z.max 0 b).
Proof.
  unfold plan_wave. destruct (_ || _) eqn:H1; [split; [done|simpl; lia]|].
  destruct (_ <=? b) eqn:H2; bools; [split; [by rewrite take_ge|lia]|].
  destruct (_ <? _); [split; [done|simpl; lia]|].
  rewrite length_take, Nat.min_l by lia. split; [done|lia].
Qed.

(** ** Batches *)
Lemma group_insert_perm r gs :
  concat (group_insert r gs).*2 ≡ₚ r :: concat gs.*2.
Proof.
  induction gs as [|[k rs] gs IH]; [done|]. cbn [group_insert]. case_bool_decide; cbn.
  - rewrite <-(assoc_L (++)). simpl. by rewrite <-Permutation_middle.
  - rewrite IH. by rewrite Permutation_middle.
Qed.

Lemma groups_perm_aux rs gs :
  concat (foldl (λ gs r, group_insert r gs) gs rs).*2 ≡ₚ concat gs.*2 ++ rs.
Proof.
  revert gs. induction rs as [|r rs IH]; intros gs; cbn [foldl]; [by rewrite app_nil_r|].
  rewrite IH, group_insert_perm. simpl. by rewrite Permutation_middle.
Qed.

Definition homogeneous (g : string * string * list dispatch_resource) : Prop :=
  Forall (λ r, group_key r = g.1) g.2.

Lemma group_insert_homogeneous r gs :
  Forall homogeneous gs → Forall homogeneous (group_insert r gs).
Proof.
  induction gs as [|[k rs] gs IH]; cbn [group_insert].
  - intros _. repeat constructor.
  - intros [Hk Hgs]%Forall_cons. case_bool_decide as Hkey; constructor; auto.
    unfold homogeneous in *. cbn [fst snd] in *. apply Forall_app. by split; [|constructor].
Qed.

Lemma groups_homogeneous rs : Forall homogeneous (groups_of rs).
Proof.
  unfold groups_of. assert (Forall homogeneous ([] : list (string * string * list dispatch_resource))) as Hgs
    by constructor. revert Hgs. generalize ([] : list (string * string * list dispatch_resource)).
  induction rs as [|r rs IH]; intros gs Hgs; cbn [foldl]; [done|]. by apply IH, group_insert_homogeneous.
Qed.

Lemma chunks_spec {A} fuel n (l : list A) :
  (0 < n)%nat → (length l ≤ fuel)%nat →
  concat (chunks fuel n l) = l ∧ Forall (λ c, 0 < length c ≤ n)%nat (chunks fuel n l).
Proof.
  intros Hn. revert l. induction fuel as [|fuel IH]; intros [|x l] Hl; cbn [chunks];
    try (split; [done|constructor]); [simpl in Hl; lia|].
  destruct (IH (drop n (x :: l))) as [Hc Hf]; [rewrite length_drop; simpl in *; lia|].
  cbn [concat]. rewrite Hc, take_drop. split; [done|]. constructor; [|done].
  rewrite length_take. simpl. lia.
Qed.

Lemma concat_bind_chunks {A B} (gs : list (A * list B)) n :
  (0 < n)%nat → concat (gs ≫= λ g, chunks (length g.2) n g.2) = concat gs.*2.
Proof.
  intros Hn. induction gs as [|[k rs] gs IH]; [done|]. cbn [mbind list_bind snd fmap list_fmap concat].
  rewrite concat_app, IH. by rewrite (proj1 (chunks_spec _ _ rs Hn (le_n _))).
Qed.

Lemma batches_of_perm rs : concat (batches_of rs) ≡ₚ rs.
Proof.
  unfold batches_of. rewrite concat_bind_chunks by (unfold BATCH_SIZE; lia).
  apply (groups_perm_aux rs []).
Qed.

(** Dispatch loses and repeats nothing: the jobs a dispatch queues carry each of
    the given resources exactly once, in non-empty batches of at most a thousand
    resources of one type and tenant. *)
Theorem dispatch_batches_are_exact rs :
  concat (batches_of rs) ≡ₚ rs ∧
  Forall (λ b, (0 < length b ≤ BATCH_SIZE)%nat ∧ ∃ k, Forall (λ r, group_key r = k) b) (batches_of rs).
Proof.
  split; [apply batches_of_perm|].
  assert (0 < BATCH_SIZE)%nat as Hn by (unfold BATCH_SIZE; lia).
  - unfold batches_of. apply Forall_bind. eapply Forall_impl; [apply groups_homogeneous|].
    intros [k g] Hg. unfold homogeneous in Hg. cbn [fst snd] in *.
    destruct (chunks_spec (length g) BATCH_SIZE g Hn (le_n _)) as [Hc Hl].
    apply Forall_forall. intros c Hin. rewrite Forall_forall in Hl. split; [by apply Hl|].
    exists k. apply Forall_forall. intros r Hr. rewrite Forall_forall in Hg. apply Hg.
    rewrite <-Hc. apply list_elem_of_In, in_concat. exists c. by rewrite <-!list_elem_of_In.
Qed.

(** ** The drain *)
Section drain.
  Context (new_batch : string) (new_id : nat → string).

(** The rows the wave is chosen from. *)
Definition free_candidates (p : drain_policy) (since : Z) (db : sched_db) : list dispatch_resource :=
  filter (λ r, dr_id r ∉ inflight_ids db None) (drain_candidates db (dp_id p) since (dp_flags p)).

(** A drain that dispatched something passed every gate. *)
Lemma drain_inv en tick p now db c :
  let res := drain_policy_cycle en tick new_batch new_id p now db c in
  dn_wave res ≠ [] →
  ∃ w batch wave_no f, cycle_window_from_trigger (dp_next_fire p) now 192 = Some w ∧
    cycle_is_drainable w now = true ∧ 0 < dp_max_concurrent p ∧
    dn_wave res = plan_wave (by_priority (free_candidates p (w_start w) db))
      (Z.max 0 (dp_max_concurrent p - inflight_resource_count db (dp_id p))) (dp_max_concurrent p) f ∧
    dn_remaining res = drop (length (dn_wave res)) (by_priority (free_candidates p (w_start w) db)) ∧
    dn_held res = filter (λ r, dr_id r ∈ inflight_ids db None)
      (drain_candidates db (dp_id p) (w_start w) (dp_flags p)) ∧
    dn_db res = (dispatch_resources new_id (dp_id p) batch wave_no now (dn_wave res) db).1.
Proof.
  intros res. unfold res, drain_policy_cycle.
  destruct (_ || (dp_max_concurrent p <=? 0)) eqn:H0; [done|].
  destruct (cycle_window_from_trigger _ _ _) as [w|]; [|done].
  destruct (_ || bool_decide (dc_exhausted c !! _ = _)) eqn:H1; [done|].
  destruct (_ || negb (dp_any_type p)); [done|].
  destruct (bool_decide (drain_candidates _ _ _ _ = [])); [done|].
  unfold partition_overlap_holds. fold (free_candidates p (w_start w) db).
  destruct (report_incomplete _ _ _ _ _ _) as [c' rep].
  destruct (bool_decide (plan_wave _ _ _ _ = [])); [done|].
  destruct (dispatch_resources _ _ _ _ _ _ _) as [db' n] eqn:Hd. cbn [dn_wave dn_remaining dn_held dn_db].
  intros _. bools. eexists w, _, _, _. split_and!; [reflexivity|done|done|reflexivity..|].
  symmetry. exact (f_equal fst Hd).
Qed.

Lemma drain_idle en tick p now db c :
  let res := drain_policy_cycle en tick new_batch new_id p now db c in
  dn_wave res = [] → dn_db res = db.
Proof.
  intros res. unfold res, drain_policy_cycle.
  destruct (_ || (dp_max_concurrent p <=? 0)); [done|].
  destruct (cycle_window_from_trigger _ _ _) as [w|]; [|done].
  destruct (_ || bool_decide (dc_exhausted c !! _ = _)); [done|].
  destruct (_ || negb (dp_any_type p)); [done|].
  destruct (bool_decide (drain_candidates _ _ _ _ = [])); [done|].
  destruct (partition_overlap_holds _ _) as [cands held].
  destruct (report_incomplete _ _ _ _ _ _) as [c' rep].
  destruct (bool_decide (plan_wave _ _ _ _ = [])) eqn:Hw; [done|]. bools.
  destruct (dispatch_resources _ _ _ _ _ _ _) as [db' n]. done.
Qed.

Lemma inflight_members_dispatch pid batch wave now rs db q :
  inflight_members (dispatch_resources new_id pid batch wave now rs db).1 q =
  inflight_members db q ++
  (filter (λ kj, inflight_job q kj.2 = true)
     (imap (λ i b, (new_id i, job_for pid batch wave now b)) (batches_of rs)) ≫= members_of).
Proof.
  unfold inflight_members, dispatch_resources. cbn [fst sd_jobs]. by rewrite filter_app, bind_app.
Qed.

Lemma new_members_resources (f : nat → list dispatch_resource → string * sched_job) bs q :
  (∀ i b, sj_batch (f i b).2 = Some (dr_id <$> b) ∧ sj_resource (f i b).2 = None) →
  (length (mb_resource <$> (filter (λ kj, inflight_job q kj.2 = true) (imap f bs) ≫= members_of))
   ≤ length (concat bs))%nat.
Proof.
  intros Hf. revert f Hf. induction bs as [|b bs IH]; intros f Hf; [done|].
  cbn [imap concat]. rewrite filter_cons. destruct (decide _).
  - cbn [mbind list_bind]. rewrite fmap_app, !length_app, length_fmap. unfold members_of at 1.
    destruct (Hf 0%nat b) as [-> ->]. cbn [default from_option]. rewrite app_nil_r, !length_fmap.
    specialize (IH (f ∘ S) (λ i, Hf (S i))). rewrite length_fmap in IH. unfold id. rewrite length_fmap. lia.
  - specialize (IH (f ∘ S) (λ i, Hf (S i))). rewrite length_app. lia.
Qed.

Lemma filter_split_perm {A} (P : A → Prop) `{∀ x, Decision (P x)} (l : list A) :
  filter (λ x, ¬ P x) l ++ filter P l ≡ₚ l.
Proof.
  induction l as [|x l IH]; [done|]. rewrite !filter_cons.
  destruct (decide (P x)) as [HP|HP].
  - rewrite decide_False by tauto. by rewrite <-Permutation_middle, IH.
  - rewrite decide_True by tauto. simpl. by rewrite IH.
Qed.

Lemma remove_dups_app_length {A} `{EqDecision A} (l k : list A) :
  (length (remove_dups (l ++ k)) ≤ length (remove_dups l) + length k)%nat.
Proof.
  rewrite <-length_app. apply submseteq_length, NoDup_submseteq; [apply NoDup_remove_dups|].
  intros x. rewrite !elem_of_remove_dups, !elem_of_app, elem_of_remove_dups. done.
Qed.

(** Dispatching [rs] puts at most [length rs] more resources in flight. *)
Lemma inflight_count_dispatch pid batch wave now rs db q :
  inflight_resource_count (dispatch_resources new_id pid batch wave now rs db).1 q
  ≤ inflight_resource_count db q + Z.of_nat (length rs).
Proof.
  unfold inflight_resource_count, inflight_ids. rewrite inflight_members_dispatch, filter_app, fmap_app.
  change (member_in_flight (dispatch_resources new_id pid batch wave now rs db).1)
    with (member_in_flight db).
  etrans; [apply inj_le, remove_dups_app_length|]. rewrite Nat2Z.inj_add.
  apply Z.add_le_mono_l, inj_le. rewrite length_fmap. etrans; [apply length_filter|].
  rewrite <-(Permutation_length (batches_of_perm rs)), <-(length_fmap mb_resource).
  by apply (new_members_resources (λ i b, (new_id i, job_for pid batch wave now b))).
Qed.

(** A dispatched resource is carried by the cycle it was dispatched in. *)
Lemma dispatched_is_carried pid batch wave now since rs db r :
  since ≤ now → r ∈ rs →
  dr_id r ∈ cycle_dispatched_ids (dispatch_resources new_id pid batch wave now rs db).1 pid since.
Proof.
  intros Hle Hr. unfold cycle_dispatched_ids. rewrite elem_of_remove_dups, list_elem_of_bind.
  rewrite <-(batches_of_perm rs) in Hr. apply list_elem_of_In, in_concat in Hr as (b & Hb & Hr).
  apply list_elem_of_In in Hb, Hr. apply list_elem_of_lookup in Hb as [i Hi].
  exists (new_id i, job_for pid batch wave now b). cbn [snd sj_batch job_for default from_option]. split.
  - by apply list_elem_of_fmap_2.
  - unfold cycle_jobs. rewrite list_elem_of_filter. cbn [snd]. split.
    + unfold cycle_job. cbn. rewrite !bool_decide_eq_true_2 by done. by apply Z.leb_le.
    + unfold dispatch_resources. cbn [fst sd_jobs]. apply elem_of_app. right.
      apply list_elem_of_lookup. exists i. by rewrite list_lookup_imap, Hi.
Qed.

Lemma elem_of_drain_candidates db pid since flags r :
  r ∈ drain_candidates db pid since flags ↔
  r ∈ sd_resources db ∧ dr_policy r = Some pid ∧ dr_live r = true ∧
  resource_type_enabled (dr_type r) flags = true ∧ dr_type r ≠ "POWER_BI" ∧
  dr_license_missing r = false ∧ dr_id r ∉ cycle_dispatched_ids db pid since.
Proof.
  unfold drain_candidates. rewrite by_priority_perm, list_elem_of_filter.
  rewrite !andb_true_iff, !negb_true_iff, !bool_decide_eq_true, !bool_decide_eq_false. tauto.
Qed.

(** The drain respects the policy's cap: a wave never has more resources than
    the cap leaves free, so draining never puts more resources of the policy in
    flight than the larger of the cap and what was already in flight. *)
Theorem drain_respects_the_cap en tick p now db c :
  let res := drain_policy_cycle en tick new_batch new_id p now db c in
  Z.of_nat (length (dn_wave res)) ≤
    Z.max 0 (dp_max_concurrent p - inflight_resource_count db (dp_id p)) ∧
  inflight_resource_count (dn_db res) (dp_id p) ≤
    Z.max (dp_max_concurrent p) (inflight_resource_count db (dp_id p)).
Proof.
  intros res. destruct (decide (dn_wave res = [])) as [He|Hne].
  - rewrite He. split; [simpl; lia|].
    pose proof (drain_idle en tick p now db c He) as Hdb. fold res in Hdb. rewrite Hdb. lia.
  - destruct (drain_inv en tick p now db c Hne) as (w & b & wn & f & _ & _ & Hmax & Hwave & _ & _ & Hdb).
    fold res in Hwave, Hdb.
    destruct (plan_wave_prefix (by_priority (free_candidates p (w_start w) db))
      (Z.max 0 (dp_max_concurrent p - inflight_resource_count db (dp_id p))) (dp_max_concurrent p) f)
      as [_ Hlen]. rewrite <-Hwave in Hlen. split; [lia|].
    rewrite Hdb. etrans; [apply inflight_count_dispatch|].
    assert (0 < Z.of_nat (length (dn_wave res))) by (destruct (dn_wave res); [done|simpl; lia]). lia.
Qed.

(** C37: A wave is fair and fresh: every resource in it is an eligible resource of the
    policy that no job in flight covers and that this cycle has not dispatched
    before; it is served no later than any resource left behind (never backed up
    first, then the oldest backup); the wave, the rest and the held resources are
    together exactly the cycle's candidates; and once dispatched a resource is
    not a candidate of the cycle again. *)
Theorem drain_wave_is_fair_and_fresh en tick p now db c :
  let res := drain_policy_cycle en tick new_batch new_id p now db c in
  dn_wave res ≠ [] →
  ∃ w, cycle_window_from_trigger (dp_next_fire p) now 192 = Some w ∧ w_start w ≤ now < w_end w ∧
  (∀ r, r ∈ dn_wave res →
     r ∈ drain_candidates db (dp_id p) (w_start w) (dp_flags p) ∧ (dr_id r ∉ inflight_ids db None) ∧
     r ∉ drain_candidates (dn_db res) (dp_id p) (w_start w) (dp_flags p)) ∧
  (∀ r r', r ∈ dn_wave res → r' ∈ dn_remaining res → priority_le r r') ∧
  dn_wave res ++ dn_remaining res ++ dn_held res ≡ₚ
    drain_candidates db (dp_id p) (w_start w) (dp_flags p).
Proof.
  intros res Hne.
  destruct (drain_inv en tick p now db c Hne)
    as (w & b & wn & f & Hwin & Hdr & Hmax & Hwave & Hrem & Hheld & Hdb).
  fold res in Hwave, Hrem, Hheld, Hdb. exists w. split; [done|].
  unfold cycle_is_drainable in Hdr. bools.
  assert (w_start w ≤ now) as Hst by (unfold DRAIN_CYCLE_GRACE_S, SEC in *; lia).
  split; [done|]. destruct (plan_wave_prefix (by_priority (free_candidates p (w_start w) db))
    (Z.max 0 (dp_max_concurrent p - inflight_resource_count db (dp_id p))) (dp_max_concurrent p) f)
    as [Hpre _]. rewrite <-Hwave in Hpre.
  assert (dn_wave res ++ dn_remaining res ≡ₚ free_candidates p (w_start w) db) as Hperm.
  { rewrite Hrem. rewrite Hpre at 1. by rewrite take_drop, by_priority_perm. }
  split_and!.
  - intros r Hr. assert (r ∈ free_candidates p (w_start w) db) as Hfree
      by (rewrite <-Hperm; apply elem_of_app; by left).
    unfold free_candidates in Hfree. apply list_elem_of_filter in Hfree as [Hni Hc].
    split_and!; [done..|]. rewrite elem_of_drain_candidates. intros (_ & _ & _ & _ & _ & _ & Hnc).
    apply Hnc. rewrite Hdb. by apply dispatched_is_carried.
  - intros r r' Hr Hr'. rewrite Hrem in Hr'. rewrite Hpre in Hr.
    eapply sorted_take_drop; [apply by_priority_sorted|exact Hr|exact Hr'].
  - rewrite (assoc_L (++)), Hperm, Hheld. unfold free_candidates. apply (filter_split_perm (λ r, dr_id r ∈ inflight_ids db None)).
Qed.

(** The drain makes progress: inside an open cycle and backup window, with a
    candidate not in flight and the cap leaving at least a fifth of a full wave
    (any slot at all in the closing tick), a drain dispatches a non-empty wave. *)
Theorem drain_makes_progress tick p now db c w :
  let free := free_candidates p (w_start w) db in
  let budget := dp_max_concurrent p - inflight_resource_count db (dp_id p) in
  dp_enabled p = true → dp_any_type p = true →
  cycle_window_from_trigger (dp_next_fire p) now 192 = Some w → cycle_is_drainable w now = true →
  within_backup_window (minute_of_day now) (dp_window_start p) (dp_window_end p) = true →
  dc_exhausted c !! dp_id p ≠ Some (w_end w) → free ≠ [] → 0 < budget →
  (w_end w - tick * SEC ≤ now ∨
   Z.min (Z.of_nat (length free)) (dp_max_concurrent p) / 5 ≤ budget) →
  dn_wave (drain_policy_cycle true tick new_batch new_id p now db c) ≠ [].
Proof.
  intros free budget Hen Hty Hwin Hdr Hin Hex Hfree Hb Hcl. unfold drain_policy_cycle.
  rewrite Hen, Hwin, Hdr, Hin, Hty. cbn [negb orb].
  assert (0 ≤ inflight_resource_count db (dp_id p)) as Hnn by (unfold inflight_resource_count; lia).
  rewrite (proj2 (Z.leb_gt (dp_max_concurrent p) 0)) by lia.
  rewrite (bool_decide_eq_false_2 (_ = Some (w_end w))) by done. fold budget.
  rewrite (proj2 (Z.leb_gt budget 0)) by lia. cbn [andb orb].
  assert (drain_candidates db (dp_id p) (w_start w) (dp_flags p) ≠ []) as Hrows.
  { intros He. apply Hfree. unfold free, free_candidates. by rewrite He. }
  rewrite (bool_decide_eq_false_2 _ Hrows). unfold partition_overlap_holds. fold free_candidates.
  change (filter (λ r, dr_id r ∉ inflight_ids db None)
    (drain_candidates db (dp_id p) (w_start w) (dp_flags p))) with free.
  set (wave := plan_wave _ _ _ _). assert (wave ≠ []) as Hw.
  { unfold wave. set (cl := w_end w - tick * SEC <=? now). pose proof (by_priority_perm free) as Hp.
    assert (by_priority free ≠ []) as Hne by (intros He; rewrite He in Hp; by apply Permutation_nil_l in Hp).
    unfold plan_wave. rewrite (proj2 (Z.leb_gt (Z.max 0 budget) 0)) by lia.
    rewrite (bool_decide_eq_false_2 _ Hne). cbn [orb].
    destruct (_ <=? Z.max 0 budget); [done|]. rewrite (Permutation_length Hp).
    rewrite (proj2 (Z.ltb_ge _ _)).
    - destruct (by_priority free) as [|x l] eqn:Hl; [done|].
      assert (Z.to_nat (Z.max 0 budget) = S (Z.to_nat (budget - 1))) as -> by lia. done.
    - destruct cl eqn:Hc; cbn [negb]; [lia|]. unfold cl in Hc. bools. lia. }
  clearbody wave. destruct (report_incomplete _ _ _ _ _ _) as [c' rep].
  rewrite (bool_decide_eq_false_2 _ Hw). by destruct (dispatch_resources _ _ _ _ _ _ _).
Qed.
End drain.

(** ** Examples *)
Module DispatchExamples.

Definition DAY : Z := 24 * HOUR.
Definition midnight (t : Z) : Prop := t `mod` DAY = 0.
Definition daily (p : Z) : option Z := Some (- (((- p) `div` DAY) * DAY)).

Lemma daily_cron : cron midnight daily.
Proof.
  unfold midnight, daily, DAY, HOUR, SEC. split.
  - intros p t [= <-]. split_and!; [|Z.div_mod_to_equations; lia|].
    + rewrite <-Z.mul_opp_l. apply Z_mod_mult.
    + intros f Hf Hp. Z.div_mod_to_equations. lia.
  - done.
  - intros f g Hf Hg Hlt. cbn beta in *.
    unfold HOUR, SEC. Z.div_mod_to_equations. lia.
Qed.

Lemma cycle_window_is_the_current_cycle_witness :
  ∃ w, cycle_window_from_trigger daily (30 * HOUR) 192 = Some w ∧ midnight (w_start w) ∧
    midnight (w_end w) ∧ w_start w ≤ 30 * HOUR < w_end w ∧
    ∀ f, midnight f → ¬ w_start w < f < w_end w.
Proof.
  apply (cycle_window_is_the_current_cycle midnight daily (30 * HOUR) DAY (2 * DAY) daily_cron);
    try reflexivity; vm_compute; split; discriminate.
Defined.

Definition mail (id : string) (last : option Z) : dispatch_resource :=
  DRes id "USER_MAIL" "t1" (Some "gold") true last false.
Definition gold (cap : Z) : drain_policy :=
  DrainPolicy "gold" true cap ∅ true None None daily.
Definition db0 : sched_db := SchedDb [] [] [mail "m3" (Some 5); mail "m1" (Some 9); mail "m2" None].
Definition ids (n : nat) : string := "job".
Definition no_caches : drain_caches := Caches ∅ ∅.
Definition drained : drain_result := drain_policy_cycle true 120 "b1" ids (gold 2) (30 * HOUR) db0 no_caches.

Lemma drain_wave_is_fair_and_fresh_witness :
  ∃ w, cycle_window_from_trigger daily (30 * HOUR) 192 = Some w ∧ w_start w ≤ 30 * HOUR < w_end w ∧
  (∀ r, r ∈ dn_wave drained →
     r ∈ drain_candidates db0 "gold" (w_start w) ∅ ∧ (dr_id r ∉ inflight_ids db0 None) ∧
     r ∉ drain_candidates (dn_db drained) "gold" (w_start w) ∅) ∧
  (∀ r r', r ∈ dn_wave drained → r' ∈ dn_remaining drained → priority_le r r') ∧
  dn_wave drained ++ dn_remaining drained ++ dn_held drained ≡ₚ drain_candidates db0 "gold" (w_start w) ∅.
Proof.
  refine (drain_wave_is_fair_and_fresh "b1" ids true 120 (gold 2) (30 * HOUR) db0 no_caches _).
  intros He. apply (f_equal length) in He. vm_compute in He. discriminate He.
Defined.

Lemma drain_makes_progress_witness : dn_wave drained ≠ [].
Proof.
  refine (drain_makes_progress "b1" ids 120 (gold 2) (30 * HOUR) db0 no_caches (Window DAY (2 * DAY))
    _ _ _ _ _ _ _ _ _); try (vm_compute; reflexivity).
  - vm_compute. discriminate.
  - intros He. apply (f_equal length) in He. vm_compute in He. discriminate He.
  - right. vm_compute. discriminate.
Defined.
End DispatchExamples.
