(* ===== verification/Calendar.v ===== *)
(** * The calendar of Python's [datetime]

    The parts of the standard library's proleptic Gregorian calendar the
    retention selectors use: the ordinal of a naive instant (microseconds since
    [datetime.min]), its year, month and day ([_ord2ymd]) and its ISO year and
    week ([isocalendar]). The lemmas show that each calendar key is monotone in
    the instant, so that the rows of one bucket are contiguous in date order. *)

From S2P Require Import Prelude.
Local Open Scope Z_scope.

Definition US_PER_DAY : Z := 86400 * 1000000.

(** [date.toordinal]: 1 is 0001-01-01. *)
Definition ordinal (ts : Z) : Z := ts / US_PER_DAY + 1.

Definition days_before_year (y : Z) : Z :=
  let y := y - 1 in y * 365 + y / 4 - y / 100 + y / 400.

Definition is_leap (y : Z) : bool :=
  (y mod 4 =? 0) && (negb (y mod 100 =? 0) || (y mod 400 =? 0)).

(** [_DAYS_BEFORE_MONTH], indexed from 1. *)
Definition days_before_month (leap : bool) (m : Z) : Z :=
  nth (Z.to_nat m) [-1; 0; 31; 59; 90; 120; 151; 181; 212; 243; 273; 304; 334] 0
  + (if (2 <? m) && leap then 1 else 0).

(** Month and day of the [n]th day of a year, from 0. *)
Definition month_day (leap : bool) (n : Z) : Z * Z :=
  let month := Z.shiftr (n + 50) 5 in
  let month := if n <? days_before_month leap month then month - 1 else month in
  (month, n - days_before_month leap month + 1).

(** [_ord2ymd] *)
Definition ord2ymd (ord : Z) : Z * Z * Z :=
  let n := ord - 1 in
  let n400 := n / 146097 in let n := n mod 146097 in
  let n100 := n / 36524 in let n := n mod 36524 in
  let n4 := n / 1461 in let n := n mod 1461 in
  let n1 := n / 365 in let n := n mod 365 in
  let year := n400 * 400 + 1 + n100 * 100 + n4 * 4 + n1 in
  if (n1 =? 4) || (n100 =? 4) then (year - 1, 12, 31)
  else
    let leapyear := (n1 =? 3) && (negb (n4 =? 24) || (n100 =? 3)) in
    let '(m, d) := month_day leapyear n in
    (year, m, d).

(** [_isoweek1monday] *)
Definition isoweek1monday (year : Z) : Z :=
  let firstday := days_before_year year + 1 in
  let firstweekday := (firstday + 6) mod 7 in
  let week1monday := firstday - firstweekday in
  if 3 <? firstweekday then week1monday + 7 else week1monday.

(** [isocalendar()[:2]] *)
Definition isocalendar (ord : Z) : Z * Z :=
  let year := (ord2ymd ord).1.1 in
  let week := (ord - isoweek1monday year) / 7 in
  if week <? 0 then (year - 1, (ord - isoweek1monday (year - 1)) / 7 + 1)
  else if (52 <=? week) && (isoweek1monday (year + 1) <=? ord) then (year + 1, 1)
  else (year, week + 1).

(** ** Years *)

Ltac divs := Z.to_euclidean_division_equations; lia.

Lemma days_before_year_mono y y' : y ≤ y' → days_before_year y ≤ days_before_year y'.
Proof. unfold days_before_year. divs. Qed.

Lemma days_before_year_succ y :
  days_before_year (y + 1) = days_before_year y + (if is_leap y then 366 else 365).
Proof.
  unfold days_before_year, is_leap.
  destruct (y mod 4 =? 0) eqn:?, (y mod 100 =? 0) eqn:?, (y mod 400 =? 0) eqn:?; bools; cbn [negb andb orb]; divs.
Qed.

(** Years by their place in the 400-, 100- and 4-year cycles. *)
Lemma days_before_year_cycles a b c d :
  0 ≤ b ≤ 3 → 0 ≤ c ≤ 24 → 0 ≤ d ≤ 3 →
  days_before_year (a * 400 + 1 + b * 100 + c * 4 + d) = 146097 * a + 36524 * b + 1461 * c + 365 * d.
Proof. intros. unfold days_before_year. divs. Qed.

Lemma is_leap_cycles a b c d :
  0 ≤ b ≤ 3 → 0 ≤ c ≤ 24 → 0 ≤ d ≤ 3 →
  is_leap (a * 400 + 1 + b * 100 + c * 4 + d) = (d =? 3) && (negb (c =? 24) || (b =? 3)).
Proof.
  intros. unfold is_leap. apply eq_true_iff_eq.
  rewrite !andb_true_iff, !orb_true_iff, !negb_true_iff, !Z.eqb_eq, !Z.eqb_neq. divs.
Qed.

(** The day of the year, from 0, and the shape of [ord2ymd]. *)
Lemma ord2ymd_spec ord :
  ∃ y, let doy := ord - 1 - days_before_year y in
    0 ≤ doy < (if is_leap y then 366 else 365) ∧
    ord2ymd ord = (y, (month_day (is_leap y) doy).1, (month_day (is_leap y) doy).2).
Proof.
  unfold ord2ymd. set (n := ord - 1).
  pose proof (Z.div_mod n 146097) as E1. pose proof (Z.mod_pos_bound n 146097) as B1.
  set (a := n / 146097) in *. set (r1 := n mod 146097) in *.
  pose proof (Z.div_mod r1 36524) as E2. pose proof (Z.mod_pos_bound r1 36524) as B2.
  set (b := r1 / 36524) in *. set (r2 := r1 mod 36524) in *.
  pose proof (Z.div_mod r2 1461) as E3. pose proof (Z.mod_pos_bound r2 1461) as B3.
  set (c := r2 / 1461) in *. set (r3 := r2 mod 1461) in *.
  pose proof (Z.div_mod r3 365) as E4. pose proof (Z.mod_pos_bound r3 365) as B4.
  set (d := r3 / 365) in *. set (r4 := r3 mod 365) in *.
  clearbody a r1 b r2 c r3 d r4.
  destruct ((d =? 4) || (b =? 4)) eqn:Hlast.
  - apply orb_true_iff in Hlast. rewrite !Z.eqb_eq in Hlast.
    assert (∃ b' c', 0 ≤ b' ≤ 3 ∧ 0 ≤ c' ≤ 24 ∧ (c' ≠ 24 ∨ b' = 3) ∧
      a * 400 + 1 + b * 100 + c * 4 + d - 1 = a * 400 + 1 + b' * 100 + c' * 4 + 3 ∧
      n = 146097 * a + 36524 * b' + 1461 * c' + 365 * 3 + 365) as (b' & c' & Hb & Hc & Hl & -> & Hn).
    { destruct Hlast as [->| ->]; [exists b, c|exists 3, 24]; lia. }
    exists (a * 400 + 1 + b' * 100 + c' * 4 + 3). cbn zeta.
    rewrite days_before_year_cycles, is_leap_cycles by lia.
    replace (_ && _) with true
      by (symmetry; rewrite andb_true_iff, orb_true_iff, negb_true_iff, !Z.eqb_eq, Z.eqb_neq; lia).
    replace (n - _) with 365 by lia. split; [lia|reflexivity].
  - bools. exists (a * 400 + 1 + b * 100 + c * 4 + d). cbn zeta.
    rewrite days_before_year_cycles, is_leap_cycles by lia.
    replace (n - _) with r4 by lia. split; [destruct (_ && _); lia|].
    by destruct (month_day ((d =? 3) && (negb (c =? 24) || (b =? 3))) r4).
Qed.

(** The days of one year, in order: month and day stay in range, and the date
    increases. *)
Lemma month_day_dates (leap : bool) doy :
  0 ≤ doy < (if leap then 366 else 365) →
  1 ≤ (month_day leap doy).1 ≤ 12 ∧ 1 ≤ (month_day leap doy).2 ≤ 31.
Proof.
  intros Hd.
  assert (Forall (λ n, let md := month_day leap (Z.of_nat n) in
      (1 <=? md.1) && (md.1 <=? 12) && (1 <=? md.2) && (md.2 <=? 31) = true)
    (seq 0 (if leap then 366 else 365))) as HF.
  { apply forallb_Forall. destruct leap; vm_compute; reflexivity. }
  rewrite Forall_forall in HF. specialize (HF (Z.to_nat doy)).
  rewrite elem_of_seq, Z2Nat.id in HF by lia. cbn zeta in HF.
  assert (Z.to_nat doy < (if leap then 366 else 365)%nat)%nat by (destruct leap; lia).
  ospecialize (HF _); [lia|]. bools. lia.
Qed.

Lemma month_day_step (leap : bool) doy :
  0 ≤ doy < (if leap then 366 else 365) - 1 →
  (month_day leap doy).1 * 100 + (month_day leap doy).2
  < (month_day leap (doy + 1)).1 * 100 + (month_day leap (doy + 1)).2.
Proof.
  intros Hd.
  assert (Forall (λ n, let f n := let md := month_day leap n in md.1 * 100 + md.2 in
      (f (Z.of_nat n) <? f (Z.of_nat n + 1)) = true)
    (seq 0 ((if leap then 366 else 365) - 1))) as HF.
  { apply forallb_Forall. destruct leap; vm_compute; reflexivity. }
  rewrite Forall_forall in HF. specialize (HF (Z.to_nat doy)).
  rewrite elem_of_seq, Z2Nat.id in HF by lia. cbn zeta in HF.
  ospecialize (HF _); [destruct leap; lia|]. by apply Z.ltb_lt in HF.
Qed.

Lemma month_day_mono (leap : bool) doy doy' :
  0 ≤ doy ≤ doy' → doy' < (if leap then 366 else 365) →
  (month_day leap doy).1 * 100 + (month_day leap doy).2
  ≤ (month_day leap doy').1 * 100 + (month_day leap doy').2.
Proof.
  intros [H0 Hle] Hlt. replace doy' with (doy + (doy' - doy)) in * by lia.
  assert (0 ≤ doy' - doy) as Hk by lia. revert Hlt. clear Hle.
  generalize dependent (doy' - doy). intros k Hk. pattern k.
  apply natlike_ind; [..|exact Hk]; clear k Hk.
  - intros _. rewrite Z.add_0_r. done.
  - intros k Hk IH Hlt. etrans; [apply IH; destruct leap; lia|].
    replace (doy + Z.succ k) with (doy + k + 1) by lia.
    apply Z.lt_le_incl, month_day_step. destruct leap; lia.
Qed.

(** ** The calendar keys are monotone *)

Definition date_code (ord : Z) : Z :=
  let '(y, m, d) := ord2ymd ord in y * 10000 + m * 100 + d.

Lemma ord2ymd_range ord :
  let '(_, m, d) := ord2ymd ord in 1 ≤ m ≤ 12 ∧ 1 ≤ d ≤ 31.
Proof.
  destruct (ord2ymd_spec ord) as (y & Hd & ->). by apply month_day_dates.
Qed.

Lemma year_bounds ord :
  days_before_year (ord2ymd ord).1.1 < ord ≤ days_before_year ((ord2ymd ord).1.1 + 1).
Proof.
  destruct (ord2ymd_spec ord) as (y & Hd & ->). cbn [fst snd].
  rewrite days_before_year_succ. destruct (is_leap y); lia.
Qed.

Lemma year_mono ord ord' : ord ≤ ord' → (ord2ymd ord).1.1 ≤ (ord2ymd ord').1.1.
Proof.
  intros Hle. pose proof (year_bounds ord). pose proof (year_bounds ord').
  destruct (Z.le_gt_cases (ord2ymd ord).1.1 (ord2ymd ord').1.1) as [|Hgt]; [done|].
  pose proof (days_before_year_mono ((ord2ymd ord').1.1 + 1) (ord2ymd ord).1.1). lia.
Qed.

Lemma date_code_mono ord ord' : ord ≤ ord' → date_code ord ≤ date_code ord'.
Proof.
  intros Hle. pose proof (year_mono _ _ Hle) as Hy. unfold date_code.
  pose proof (ord2ymd_range ord) as R. pose proof (ord2ymd_range ord') as R'.
  destruct (ord2ymd_spec ord) as (y & Hd & E), (ord2ymd_spec ord') as (y' & Hd' & E').
  rewrite E, E' in *. cbn [fst snd] in *.
  destruct (decide (y = y')) as [->|]; [|lia].
  pose proof (month_day_mono (is_leap y') (ord - 1 - days_before_year y')
    (ord' - 1 - days_before_year y')). lia.
Qed.

Lemma isoweek1monday_near y :
  isoweek1monday y - 4 ≤ days_before_year y ≤ isoweek1monday y + 2.
Proof.
  unfold isoweek1monday. destruct (3 <? _) eqn:E; bools; divs.
Qed.

Lemma isoweek1monday_monday y : ∃ k, isoweek1monday y = 7 * k + 1.
Proof.
  unfold isoweek1monday. set (f := days_before_year y + 1).
  destruct (3 <? (f + 6) mod 7) eqn:E;
    [exists ((f + 6) / 7)|exists ((f + 6) / 7 - 1)]; pose proof (Z.div_mod (f + 6) 7); lia.
Qed.

(** A year of whole weeks. *)
Lemma isoyear_length y :
  ∃ k, isoweek1monday (y + 1) = isoweek1monday y + 7 * k ∧ 52 ≤ k ≤ 53.
Proof.
  destruct (isoweek1monday_monday y) as [a Ha], (isoweek1monday_monday (y + 1)) as [b Hb].
  exists (b - a). pose proof (isoweek1monday_near y). pose proof (isoweek1monday_near (y + 1)).
  pose proof (days_before_year_succ y). destruct (is_leap y); lia.
Qed.

(** The ISO year is the one whose week 1 has begun and whose successor's has not. *)
Lemma isocalendar_spec ord :
  let '(y, w) := isocalendar ord in
  isoweek1monday y ≤ ord < isoweek1monday (y + 1) ∧ w = (ord - isoweek1monday y) / 7 + 1 ∧ 1 ≤ w ≤ 53.
Proof.
  pose proof (year_bounds ord) as Hb. unfold isocalendar. set (y := (ord2ymd ord).1.1) in *.
  pose proof (isoweek1monday_near y). pose proof (isoweek1monday_near (y + 1)).
  destruct (isoyear_length (y - 1)) as (k0 & K0 & ?), (isoyear_length y) as (k1 & K1 & ?),
    (isoyear_length (y + 1)) as (k2 & K2 & ?).
  rewrite Z.sub_add in K0. pose proof (days_before_year_succ y) as Hs.
  pose proof (Z.div_mod (ord - isoweek1monday y) 7). pose proof (Z.mod_pos_bound (ord - isoweek1monday y) 7).
  destruct (_ <? 0) eqn:E1; [|destruct (_ && _) eqn:E2]; bools.
  - rewrite Z.sub_add. pose proof (Z.div_mod (ord - isoweek1monday (y - 1)) 7).
    pose proof (Z.mod_pos_bound (ord - isoweek1monday (y - 1)) 7). destruct (is_leap y); lia.
  - rewrite (Z.div_small (ord - isoweek1monday (y + 1)) 7) by (destruct (is_leap y); lia). lia.
  - apply andb_false_iff in E2 as [E2|E2]; bools; lia.
Qed.

Definition week_code (ord : Z) : Z := let '(y, w) := isocalendar ord in y * 100 + w.

Lemma isoweek1monday_mono y y' : y ≤ y' → isoweek1monday y ≤ isoweek1monday y'.
Proof.
  intros H. destruct (decide (y = y')) as [->|]; [done|].
  pose proof (isoweek1monday_near y). pose proof (isoweek1monday_near y').
  pose proof (days_before_year_mono (y + 1) y'). pose proof (days_before_year_succ y).
  destruct (is_leap y); lia.
Qed.

Lemma week_code_mono ord ord' : ord ≤ ord' → week_code ord ≤ week_code ord'.
Proof.
  intros Hle. unfold week_code. pose proof (isocalendar_spec ord) as S.
  pose proof (isocalendar_spec ord') as S'.
  destruct (isocalendar ord) as [y w], (isocalendar ord') as [y' w'].
  destruct S as (B & -> & W), S' as (B' & -> & W').
  destruct (Z.lt_trichotomy y y') as [|[->|Hgt]]; [lia|..].
  - pose proof (Z.div_le_mono (ord - isoweek1monday y') (ord' - isoweek1monday y') 7). lia.
  - pose proof (isoweek1monday_mono (y' + 1) y). lia.
Qed.

(** ** Bucket keys

    The strings [strftime] and the ISO-week format make of an instant, by the
    numbers they print. *)

Definition ts_day (ts : Z) : list Z := let '(y, m, d) := ord2ymd (ordinal ts) in [y; m; d].
Definition ts_week (ts : Z) : list Z := let '(y, w) := isocalendar (ordinal ts) in [y; w].
Definition ts_month (ts : Z) : list Z := let '(y, m, _) := ord2ymd (ordinal ts) in [y; m].
Definition ts_year (ts : Z) : list Z := let '(y, _, _) := ord2ymd (ordinal ts) in [y].

(** The instants of one bucket are an interval. *)
Definition interval_key (key : Z → list Z) : Prop :=
  ∀ a b c, a ≤ b → b ≤ c → key a = key c → key b = key a.

Lemma ordinal_mono a b : a ≤ b → ordinal a ≤ ordinal b.
Proof. intros. unfold ordinal, US_PER_DAY. pose proof (Z.div_le_mono a b (86400 * 1000000)). lia. Qed.

Ltac interval_by mono :=
  intros a b c Hab Hbc; apply ordinal_mono in Hab, Hbc;
  pose proof (mono _ _ Hab) as M1; pose proof (mono _ _ Hbc) as M2.

Lemma ts_week_interval : interval_key ts_week.
Proof.
  interval_by week_code_mono. unfold week_code, ts_week in *.
  pose proof (isocalendar_spec (ordinal a)); pose proof (isocalendar_spec (ordinal b));
    pose proof (isocalendar_spec (ordinal c)).
  destruct (isocalendar (ordinal a)), (isocalendar (ordinal b)), (isocalendar (ordinal c)).
  intros [= <- <-]. repeat f_equal; lia.
Qed.

Lemma ts_date_interval : interval_key ts_day ∧ interval_key ts_month ∧ interval_key ts_year.
Proof.
  split_and!; interval_by date_code_mono; unfold date_code, ts_day, ts_month, ts_year in *;
    pose proof (ord2ymd_range (ordinal a)); pose proof (ord2ymd_range (ordinal b));
    pose proof (ord2ymd_range (ordinal c));
    destruct (ord2ymd (ordinal a)) as [[? ?] ?], (ord2ymd (ordinal b)) as [[? ?] ?],
      (ord2ymd (ordinal c)) as [[? ?] ?];
    intros [= <-]; subst; repeat f_equal; lia.
Qed.

Example iso_example : (ts_week (737058 * US_PER_DAY), ts_day (737058 * US_PER_DAY)) = ([2019; 1], [2018; 12; 31]).
Proof. vm_compute. reflexivity. Qed.
