(* ===== verification/Retention.v ===== *)
(** * Retention: the keep set

    Model of the selectors of [src/shared/retention_cleanup.py]: which snapshots
    of a resource a retention pass keeps, in the FLAT, GFS and ARCHIVED modes,
    with the counter restatement that runs before them.

    A [snap_row] is a row of the [snapshots] table with the columns retention
    reads or writes; an attribute that may be [None] is an [option]. Instants are
    naive UTC microseconds since [datetime.min], [now] is [datetime.utcnow()],
    read once. A [set] of ids is a [gset]. Python's [max(l, key=...)] is [py_max],
    which is [None] where [max] raises on an empty list, and [sorted] is
    [merge_sort] on the key's order, which is stable. *)

From S2P Require Import Prelude.
From S2P Require Import Calendar.
From S2P Require Import Reconciler.
Local Open Scope Z_scope.

(** ** Data *)

Inductive json := JNull | JBool (b : bool) | JNum (z : Z) | JStr (s : string).

(** Python's truth of a JSON value. *)
Definition truthy (j : json) : bool :=
  match j with
  | JNull => false
  | JBool b => b
  | JNum z => negb (z =? 0)
  | JStr s => negb (bool_decide (s = ""))
  end.

Inductive snapshot_type := TFull | TIncremental | TPreemptive | TManual.
Inductive resource_status := RDiscovered | RActive | RArchived | RSuspended | RPendingDeletion | RInaccessible.

Global Instance json_eq_dec : EqDecision json.
Proof. solve_decision. Defined.
Global Instance snapshot_type_eq_dec : EqDecision snapshot_type.
Proof. solve_decision. Defined.
Global Instance resource_status_eq_dec : EqDecision resource_status.
Proof. solve_decision. Defined.

Record snap_row := SnapRow {
  r_id : string;
  r_resource : string;
  r_type : option snapshot_type;
  r_status : option snapshot_status;
  r_started : option Z;
  r_created : option Z;
  r_item_count : option Z;
  r_bytes_total : option Z;
  r_extra : option (gmap string json);
  r_reuse_of : option string;
  r_chain_root : option string;
  r_overlay_base : option string;
  r_lease_expires : option Z;
  r_hc_drain : option string;
  r_delta_token : option string;
  r_delta_tokens : option (gmap string string);
}.

Record sla_policy := SlaPolicy {
  sp_id : string;
  sp_is_default : bool;
  sp_retention_mode : option string;
  sp_retention_days : option Z;
  sp_hot_days : option Z;
  sp_cool_days : option Z;
  sp_archive_days : option Z;
  sp_gfs_daily : option Z;
  sp_gfs_weekly : option Z;
  sp_gfs_monthly : option Z;
  sp_gfs_yearly : option Z;
  sp_archived_mode : option string;
  sp_archived_days : option Z;
  sp_legal_hold : bool;
  sp_legal_hold_until : option Z;
  sp_immutability : option string;
}.

(** ** Python built-ins *)

(** [max(l, key=...)]: the first of the maximal elements. *)
Definition py_max {A} (key : A → Z) (l : list A) : option A :=
  match l with
  | [] => None
  | x :: l => Some (foldl (λ best y, if key best <? key y then y else best) x l)
  end.

(** [a or b] on lists. *)
Definition or_else {A} (l k : list A) : list A := match l with [] => k | _ => l end.

Definition ids (l : list snap_row) : gset string := list_to_set (r_id <$> l).
Definition id_of (o : option snap_row) : gset string :=
  match o with Some s => {[r_id s]} | None => ∅ end.

Definition upper_ascii (c : Ascii.ascii) : Ascii.ascii :=
  let n := Ascii.nat_of_ascii c in
  if ((97 <=? n) && (n <=? 122))%nat then Ascii.ascii_of_nat (n - 32) else c.
Definition lower_ascii (c : Ascii.ascii) : Ascii.ascii :=
  let n := Ascii.nat_of_ascii c in
  if ((65 <=? n) && (n <=? 90))%nat then Ascii.ascii_of_nat (n + 32) else c.
Fixpoint map_string (f : Ascii.ascii → Ascii.ascii) (s : string) : string :=
  match s with
  | String.EmptyString => String.EmptyString
  | String.String c s => String.String (f c) (map_string f s)
  end.
Definition upper := map_string upper_ascii.
Definition lower := map_string lower_ascii.

(** [(mode or default).upper()] *)
Definition mode_or (mode : option string) (default : string) : string :=
  upper (match mode with Some "" | None => default | Some m => m end).

(** ** What a row holds *)

Definition TERMINAL_STATUSES : list snapshot_status :=
  [SCompleted; SFailed; SPartial; SPendingDeletion; SSkipped].
Definition RESTORABLE_STATUSES : list snapshot_status := [SCompleted; SPartial].

(** [_snap_ts]; [datetime.min] is 0. *)
Definition snap_ts (s : snap_row) : Z := default 0 (r_started s ∪ r_created s).

(** [_int] *)
Definition int0 (v : option Z) : Z := default 0 v.

Definition extra_true (k : string) (s : snap_row) : bool :=
  match default ∅ (r_extra s) !! k with Some j => truthy j | None => false end.

Definition holds_persisted_content (s : snap_row) : bool :=
  (0 <? int0 (r_item_count s)) || (0 <? int0 (r_bytes_total s)).

Definition is_rehydrated_heir (s : snap_row) : bool := extra_true "reuse_rehydrated_from" s.

Definition holds_recoverable_data (s : snap_row) : bool :=
  if extra_true "skipped_concurrent" s then false
  else if bool_decide (r_status s = Some SPendingDeletion) then false
  else if holds_persisted_content s then true
  else if is_rehydrated_heir s then true
  else if (match r_status s with Some st => negb (bool_decide (st ∈ RESTORABLE_STATUSES)) | None => false end)
  then false
  else match r_item_count s with
       | Some count =>
           if count <=? 0 then bool_decide (is_Some (r_chain_root s)) || bool_decide (is_Some (r_overlay_base s))
           else true
       | None => true
       end.

Definition is_restorable (s : snap_row) : bool :=
  match r_status s with Some st => bool_decide (st ∈ RESTORABLE_STATUSES) | None => true end.

Definition restore_rank (s : snap_row) : Z :=
  if negb (is_restorable s) then 1
  else if bool_decide (r_status s = Some SCompleted) then 3 else 2.

Definition bucket_candidates (snapshots : list snap_row) : list snap_row :=
  or_else (filter holds_recoverable_data snapshots) snapshots.

(** ** Anchors and safety nets *)

Definition latest_restorable_id (snapshots : list snap_row) : gset string :=
  id_of (py_max snap_ts
    (or_else (filter (λ s, r_status s = Some SCompleted) snapshots) snapshots)).

Definition latest_ids (snapshots : list snap_row) : gset string :=
  let candidates := bucket_candidates snapshots in
  let restorable := or_else (filter is_restorable candidates) candidates in
  id_of (py_max snap_ts snapshots) ∪ id_of (py_max snap_ts candidates)
  ∪ id_of (py_max snap_ts restorable) ∪ latest_restorable_id snapshots.

Definition full_anchor_ids (snapshots : list snap_row) : gset string :=
  id_of (py_max snap_ts
    (filter (λ s, r_type s = Some TFull) (filter holds_recoverable_data snapshots))).

Definition older_first (a b : snap_row) : Prop := snap_ts a ≤ snap_ts b.
Definition newer_first (a b : snap_row) : Prop := snap_ts b ≤ snap_ts a.
Global Instance older_first_dec a b : Decision (older_first a b).
Proof. unfold older_first. apply _. Defined.
Global Instance newer_first_dec a b : Decision (newer_first a b).
Proof. unfold newer_first. apply _. Defined.

Definition baseline_keep_ids (snapshots : list snap_row) : gset string :=
  let real := merge_sort older_first (filter holds_recoverable_data snapshots) in
  match real with
  | [] => ∅
  | _ =>
      id_of (head real) ∪ id_of (py_max (λ s, int0 (r_item_count s)) real)
      ∪ id_of (py_max (λ s, int0 (r_bytes_total s)) real)
      ∪ full_anchor_ids snapshots
  end.

(** [_with_baseline]; the [None] that passes through is [fmap]'s. *)
Definition with_baseline (keep : gset string) (snapshots : list snap_row) : gset string :=
  keep ∪ full_anchor_ids snapshots.

(** ** Flat windows *)

Definition within_days (now days : Z) (s : snap_row) : bool :=
  now - days * US_PER_DAY <=? default now (r_started s ∪ r_created s).

Definition flat_keep_ids_inner (now : Z) (snapshots : list snap_row) (policy : sla_policy) : gset string :=
  let window (keep_days : Z) :=
    if keep_days <=? 0 then ids snapshots
    else ids (filter (within_days now keep_days) snapshots) ∪ latest_ids snapshots in
  match snapshots with
  | [] => ∅
  | _ =>
      if int0 (sp_retention_days policy) =? 0 then
        match sp_archive_days policy with
        | Some archive => window (int0 (sp_hot_days policy) + int0 (sp_cool_days policy) + archive)
        | None => ids snapshots
        end
      else window (int0 (sp_retention_days policy))
  end.

Definition flat_keep_ids (now : Z) (snapshots : list snap_row) (policy : sla_policy) : gset string :=
  with_baseline (flat_keep_ids_inner now snapshots policy) snapshots.

(** ** Grandfather-father-son buckets *)

(** The loop of [_pick_bucket_winners]; [winners] is the dict in insertion
    order, which a replaced value keeps. *)
Fixpoint scan_buckets (key_of : snap_row → list Z) (limit : nat)
    (winners : list (list Z * snap_row)) (l : list snap_row) : list (list Z * snap_row) :=
  match l with
  | [] => winners
  | s :: l =>
      match list_find (λ kw, kw.1 = key_of s) winners with
      | None =>
          if (limit <=? length winners)%nat then winners
          else scan_buckets key_of limit (winners ++ [(key_of s, s)]) l
      | Some (i, (k, current)) =>
          if restore_rank current <? restore_rank s
          then scan_buckets key_of limit (<[i := (k, s)]> winners) l
          else scan_buckets key_of limit winners l
      end
  end.

Definition pick_bucket_winners (sorted_snaps : list snap_row) (key_of : snap_row → list Z) (limit : Z) : gset string :=
  if limit <=? 0 then ∅ else ids (scan_buckets key_of (Z.to_nat limit) [] sorted_snaps).*2.

Definition gfs_keep_ids_inner (snapshots : list snap_row) (policy : sla_policy) : gset string :=
  match snapshots with
  | [] => ∅
  | _ =>
      let sorted_snaps := merge_sort newer_first (bucket_candidates snapshots) in
      latest_ids snapshots
      ∪ pick_bucket_winners sorted_snaps (λ s, ts_day (snap_ts s)) (int0 (sp_gfs_daily policy))
      ∪ pick_bucket_winners sorted_snaps (λ s, ts_week (snap_ts s)) (int0 (sp_gfs_weekly policy))
      ∪ pick_bucket_winners sorted_snaps (λ s, ts_month (snap_ts s)) (int0 (sp_gfs_monthly policy))
      ∪ pick_bucket_winners sorted_snaps (λ s, ts_year (snap_ts s)) (int0 (sp_gfs_yearly policy))
  end.

Definition gfs_keep_ids (snapshots : list snap_row) (policy : sla_policy) : gset string :=
  with_baseline (gfs_keep_ids_inner snapshots policy) snapshots.

(** ** Archived resources *)

Definition is_archived (status : resource_status) : bool := bool_decide (status = RArchived).

Definition archived_keep_ids_inner (now : Z) (snapshots : list snap_row) (policy : sla_policy) : option (gset string) :=
  match snapshots with
  | [] => Some ∅
  | _ =>
      let mode := mode_or (sp_archived_mode policy) "SAME" in
      if bool_decide (mode = "KEEP_ALL") then Some (ids snapshots)
      else if bool_decide (mode = "KEEP_LAST") then Some (latest_ids snapshots)
      else if bool_decide (mode = "CUSTOM") then
        match sp_archived_days policy with
        | None => Some (ids snapshots)
        | Some days => Some (ids (filter (within_days now days) snapshots) ∪ latest_ids snapshots)
        end
      else None
  end.

Definition archived_keep_ids (now : Z) (snapshots : list snap_row) (policy : sla_policy) : option (gset string) :=
  (λ keep, keep ∪ baseline_keep_ids snapshots) <$> archived_keep_ids_inner now snapshots policy.

Definition is_on_hold (now : Z) (policy : sla_policy) : bool :=
  (sp_legal_hold policy &&
     match sp_legal_hold_until policy with None => true | Some t => now <? t end)
  || bool_decide (lower (default "" (sp_immutability policy)) = "locked").

(** The keep set of [enforce_retention_for_tenant], before the copy pins. *)
Definition keep_ids (now : Z) (archived : bool) (snaps : list snap_row) (policy : sla_policy) : gset string :=
  match (if archived then archived_keep_ids now snaps policy else None) with
  | Some keep => keep
  | None =>
      (if bool_decide (mode_or (sp_retention_mode policy) "FLAT" = "GFS")
       then gfs_keep_ids snaps policy else flat_keep_ids now snaps policy)
      ∪ baseline_keep_ids snaps
  end.

(** ** In-flight rows *)

Definition is_protected_in_flight (now : Z) (s : snap_row) : bool :=
  if (match r_status s with Some st => negb (bool_decide (st ∈ TERMINAL_STATUSES)) | None => false end) then true
  else if bool_decide (default "NOT_APPLICABLE" (r_hc_drain s) = "PENDING") then true
  else match r_lease_expires s with Some e => now <? e | None => false end.

(** ** Lemmas on the built-ins *)

Section py_max.
  Context {A : Type} (key : A → Z).

Lemma py_max_foldl l x :
  let b := foldl (λ best y, if key best <? key y then y else best) x l in
  b ∈ x :: l ∧ Forall (λ y, key y ≤ key b) (x :: l).
Proof.
  revert x. induction l as [|y l IH]; intros x; cbn [foldl]; [split; [set_solver|by constructor]|].
  destruct (IH (if key x <? key y then y else x)) as [Hin Hall].
  apply Forall_cons in Hall as [Hx Hall].
  destruct (key x <? key y) eqn:E; bools; (split; [set_solver|]);
    repeat apply Forall_cons_2; eauto using Z.le_trans, Z.lt_le_incl.
Qed.

Lemma py_max_Some l b :
  py_max key l = Some b → b ∈ l ∧ Forall (λ y, key y ≤ key b) l.
Proof. destruct l as [|x l]; [done|]. intros [= <-]. apply py_max_foldl. Qed.

Lemma py_max_is_Some l : l ≠ [] → is_Some (py_max key l).
Proof. destruct l; [done|]. by eexists. Qed.

(** One more row on the right takes over only with a strictly larger key. *)
Lemma py_max_snoc l x :
  py_max key (l ++ [x]) =
  match py_max key l with
  | None => Some x
  | Some b => Some (if key b <? key x then x else b)
  end.
Proof. destruct l as [|y l]; [done|]. cbn. by rewrite foldl_app. Qed.
End py_max.

Lemma or_else_nil {A} (l k : list A) : or_else l k = [] → l = [] ∧ k = [].
Proof. by destruct l, k. Qed.

Lemma or_else_l {A} (l k : list A) x : x ∈ l → or_else l k = l.
Proof. destruct l; [set_solver|done]. Qed.

Lemma or_else_incl {A} (l k m : list A) : l ⊆ m → k ⊆ m → or_else l k ⊆ m.
Proof. by destruct l. Qed.

Lemma elem_of_ids i l : i ∈ ids l ↔ ∃ s, r_id s = i ∧ s ∈ l.
Proof.
  unfold ids. rewrite elem_of_list_to_set, list_elem_of_fmap.
  split; intros (s & ? & ?); exists s; split; congruence || done.
Qed.

Lemma elem_of_id_of i o : i ∈ id_of o ↔ ∃ s, o = Some s ∧ r_id s = i.
Proof. destruct o as [s|]; cbn; set_solver. Qed.

Lemma size_id_of o : (size (id_of o) ≤ 1)%nat.
Proof. destruct o; cbn; [by rewrite size_singleton|by rewrite size_empty; lia]. Qed.

Lemma size_union_bound (X Y : gset string) (a b : nat) :
  (size X ≤ a → size Y ≤ b → size (X ∪ Y) ≤ a + b)%nat.
Proof.
  intros. rewrite size_union_alt.
  pose proof (subseteq_size (Y ∖ X) Y ltac:(set_solver)). lia.
Qed.

Lemma id_of_max_incl key l m : l ⊆ m → id_of (py_max key l) ⊆ ids m.
Proof.
  intros Hlm i (s & Hs & <-)%elem_of_id_of. apply py_max_Some in Hs as [Hs _].
  apply elem_of_ids. exists s. auto.
Qed.

Lemma bucket_candidates_incl l : bucket_candidates l ⊆ l.
Proof. apply or_else_incl; [apply list_subseteq_filter|done]. Qed.

Lemma bucket_candidates_real l s :
  s ∈ l → holds_recoverable_data s → bucket_candidates l = filter holds_recoverable_data l.
Proof. intros. apply (or_else_l _ _ s), list_elem_of_filter. done. Qed.

(** ** The safety nets are in every keep set *)

Lemma latest_ids_incl l : latest_ids l ⊆ ids l.
Proof.
  unfold latest_ids, latest_restorable_id.
  repeat apply union_least; apply id_of_max_incl; try done.
  - apply bucket_candidates_incl.
  - etrans; [apply or_else_incl; [apply list_subseteq_filter|done]|apply bucket_candidates_incl].
  - apply or_else_incl; [apply list_subseteq_filter|done].
Qed.

Lemma latest_in_flat now l p : l ≠ [] → latest_ids l ⊆ flat_keep_ids_inner now l p.
Proof.
  intros Hne. unfold flat_keep_ids_inner. destruct l as [|s l]; [done|].
  pose proof (latest_ids_incl (s :: l)).
  destruct (_ =? 0); [destruct (sp_archive_days p)|]; try destruct (_ <=? 0); set_solver.
Qed.

Lemma latest_in_gfs l p : l ≠ [] → latest_ids l ⊆ gfs_keep_ids_inner l p.
Proof. unfold gfs_keep_ids_inner. destruct l; [done|]. set_solver. Qed.

Lemma latest_in_archived now l p keep :
  l ≠ [] → archived_keep_ids_inner now l p = Some keep → latest_ids l ⊆ keep.
Proof.
  unfold archived_keep_ids_inner. destruct l as [|s l]; [done|]. intros _.
  pose proof (latest_ids_incl (s :: l)). repeat case_bool_decide; cbn zeta.
  - intros [= <-]. done.
  - intros [= <-]. done.
  - destruct (sp_archived_days p); intros [= <-]; set_solver.
  - done.
Qed.

Lemma nets_in_keep now archived l p :
  l ≠ [] → latest_ids l ∪ baseline_keep_ids l ⊆ keep_ids now archived l p.
Proof.
  intros Hne. unfold keep_ids. destruct (if archived then _ else _) as [keep|] eqn:Ha.
  - destruct archived; [|done]. unfold archived_keep_ids in Ha.
    destruct (archived_keep_ids_inner now l p) as [k|] eqn:Hk; [|done].
    apply (inj Some) in Ha as <-. pose proof (latest_in_archived _ _ _ _ Hne Hk). set_solver.
  - unfold gfs_keep_ids, flat_keep_ids, with_baseline.
    pose proof (latest_in_flat now l p Hne). pose proof (latest_in_gfs l p Hne).
    case_bool_decide; set_solver.
Qed.

(** A kept row with property [P] whose [key] no row with [P] exceeds. *)
Definition keeps_max (keep : gset string) (l : list snap_row) (P : snap_row → bool) (key : snap_row → Z) : Prop :=
  ∃ s, s ∈ l ∧ P s = true ∧ r_id s ∈ keep ∧ ∀ s', s' ∈ l → P s' = true → key s' ≤ key s.

Lemma keeps_max_of keep l (P : snap_row → bool) key m :
  (∀ s, s ∈ m ↔ s ∈ l ∧ P s = true) → m ≠ [] → id_of (py_max key m) ⊆ keep → keeps_max keep l P key.
Proof.
  intros Hm Hne Hk. destruct (py_max_is_Some key m Hne) as [s Hs].
  pose proof (py_max_Some _ _ _ Hs) as [Hin Hall]. rewrite Forall_forall in Hall.
  exists s. apply Hm in Hin as Hin'. destruct Hin' as [??]. split_and!; [done..| |].
  - apply Hk. rewrite Hs. set_solver.
  - intros s' ??. by apply Hall, Hm.
Qed.

Lemma filter_spec (P : snap_row → bool) (l : list snap_row) s : s ∈ filter P l ↔ s ∈ l ∧ P s = true.
Proof. rewrite list_elem_of_filter, Is_true_true. tauto. Qed.

Lemma elem_nonempty {A} (x : A) l : x ∈ l → l ≠ [].
Proof. intros H ->. set_solver. Qed.

(** The oldest row of a non-empty list sorted oldest first. *)
Lemma sorted_head (l : list snap_row) s :
  head (merge_sort older_first l) = Some s → s ∈ l ∧ ∀ s', s' ∈ l → snap_ts s ≤ snap_ts s'.
Proof.
  pose proof (merge_sort_Permutation older_first l) as Hp.
  assert (StronglySorted older_first (merge_sort older_first l)) as Hs.
  { apply StronglySorted_merge_sort; [intros a b c; unfold older_first; lia|].
    intros a b. unfold older_first. lia. }
  destruct (merge_sort older_first l) as [|t m]; [done|]. intros [= ->].
  apply StronglySorted_inv in Hs as [_ Hs]. rewrite Forall_forall in Hs.
  split; [rewrite <-Hp; set_solver|]. intros s'. rewrite <-Hp, elem_of_cons.
  intros [->|Hin]; [done|]. by apply Hs.
Qed.

Definition data_and (P : snap_row → bool) (s : snap_row) : bool := holds_recoverable_data s && P s.

Lemma filter_filter_spec (P : snap_row → bool) (l : list snap_row) s :
  s ∈ filter P (filter holds_recoverable_data l) ↔ s ∈ l ∧ data_and P s = true.
Proof. rewrite !filter_spec. unfold data_and. rewrite andb_true_iff. tauto. Qed.

(** C20: In every retention mode, archived or not, a pass over a resource that
    holds recoverable data keeps the newest row that holds data, the oldest, the
    largest by item count and the largest by bytes; if a row that holds data is
    restorable, or typed FULL, it keeps the newest of those, and if any row is
    COMPLETED it keeps the newest COMPLETED one. So no policy setting can leave
    the resource without its restore points or without the baseline its deltas
    resolve against. *)
Theorem keep_set_protects now archived l p s :
  s ∈ l → holds_recoverable_data s = true →
  let keep := keep_ids now archived l p in
  keeps_max keep l holds_recoverable_data snap_ts ∧
  keeps_max keep l holds_recoverable_data (λ x, - snap_ts x) ∧
  keeps_max keep l holds_recoverable_data (λ x, int0 (r_item_count x)) ∧
  keeps_max keep l holds_recoverable_data (λ x, int0 (r_bytes_total x)) ∧
  (∀ t, t ∈ l → data_and is_restorable t = true →
     keeps_max keep l (data_and is_restorable) snap_ts) ∧
  (∀ t, t ∈ l → data_and (λ x, bool_decide (r_type x = Some TFull)) t = true →
     keeps_max keep l (data_and (λ x, bool_decide (r_type x = Some TFull))) snap_ts) ∧
  (∀ t, t ∈ l → r_status t = Some SCompleted →
     keeps_max keep l (λ x, bool_decide (r_status x = Some SCompleted)) snap_ts).
Proof.
  intros Hs Hd keep. pose proof (nets_in_keep now archived l p (elem_nonempty _ _ Hs)) as Hk.
  fold keep in Hk. clearbody keep.
  assert (s ∈ filter holds_recoverable_data l) as Hr by (rewrite filter_spec; auto).
  unfold latest_ids in Hk. rewrite (bucket_candidates_real l s Hs) in Hk by (by rewrite Is_true_true).
  pose proof (merge_sort_Permutation older_first (filter holds_recoverable_data l)) as Hp.
  assert (∀ x, x ∈ merge_sort older_first (filter holds_recoverable_data l)
               ↔ x ∈ l ∧ holds_recoverable_data x = true) as Hm.
  { intros x. rewrite Hp. apply filter_spec. }
  assert (merge_sort older_first (filter holds_recoverable_data l) ≠ []) as Hne
    by (apply (elem_nonempty s); by rewrite Hm).
  unfold baseline_keep_ids in Hk.
  destruct (merge_sort _ (filter holds_recoverable_data l)) as [|x0 m] eqn:Hsort; [done|].
  split_and!.
  - eapply keeps_max_of; [apply filter_spec|by eapply elem_nonempty|set_solver].
  - pose proof (sorted_head (filter holds_recoverable_data l) x0) as Hh. rewrite Hsort in Hh.
    destruct (Hh eq_refl) as [Hx Hmin]. apply filter_spec in Hx as [??].
    exists x0. split_and!; [done..|set_solver|]. intros s' Hl' Hd'.
    pose proof (Hmin s' (proj2 (filter_spec _ l s') (conj Hl' Hd'))). lia.
  - eapply keeps_max_of; [exact Hm|done|set_solver].
  - eapply keeps_max_of; [exact Hm|done|set_solver].
  - intros t Ht Hrt. pose proof (proj2 (filter_filter_spec is_restorable l t) (conj Ht Hrt)) as Hf.
    rewrite (or_else_l _ (filter holds_recoverable_data l) _ Hf) in Hk.
    eapply keeps_max_of; [apply filter_filter_spec|by eapply elem_nonempty|set_solver].
  - intros t Ht Hft.
    assert (∀ x, x ∈ filter (λ s, r_type s = Some TFull) (filter holds_recoverable_data l)
      ↔ x ∈ l ∧ data_and (λ x, bool_decide (r_type x = Some TFull)) x = true) as Hf.
    { intros x. unfold data_and.
      rewrite list_elem_of_filter, filter_spec, andb_true_iff, bool_decide_eq_true. tauto. }
    unfold full_anchor_ids in Hk.
    eapply keeps_max_of; [exact Hf|apply (elem_nonempty t), Hf; done|set_solver].
  - intros t Ht Hct. unfold latest_restorable_id in Hk.
    assert (∀ x, x ∈ filter (λ s, r_status s = Some SCompleted) l
      ↔ x ∈ l ∧ bool_decide (r_status x = Some SCompleted) = true) as Hf.
    { intros x. rewrite list_elem_of_filter, bool_decide_eq_true. tauto. }
    assert (t ∈ filter (λ s, r_status s = Some SCompleted) l) as Hin by (apply list_elem_of_filter; auto).
    rewrite (or_else_l (filter (λ s, r_status s = Some SCompleted) l) l _ Hin) in Hk.
    eapply keeps_max_of; [exact Hf|by eapply elem_nonempty|set_solver].
Qed.

(** ** Buckets: the scan against a reference definition *)

(** The distinct elements of a list, in the order they first occur. *)
Fixpoint nub (l : list (list Z)) : list (list Z) :=
  match l with [] => [] | x :: l => x :: filter (λ y, y ≠ x) (nub l) end.

(** The best row of a period: of the highest rank, and the first of those. *)
Definition bucket_best (key_of : snap_row → list Z) (l : list snap_row) (k : list Z) : option snap_row :=
  py_max restore_rank (filter (λ s, key_of s = k) l).

(** The best row of each of the first [limit] periods of [l]. *)
Definition best_of_periods (key_of : snap_row → list Z) (limit : Z) (l : list snap_row) : list snap_row :=
  omap (bucket_best key_of l) (take (Z.to_nat limit) (nub (key_of <$> l))).

Lemma elem_of_nub l x : x ∈ nub l ↔ x ∈ l.
Proof.
  induction l as [|y l IH]; [done|]. cbn. rewrite !elem_of_cons, list_elem_of_filter, IH.
  destruct (decide (x = y)); naive_solver.
Qed.

Lemma nub_app l k : nub (l ++ k) = nub l ++ filter (λ y, y ∉ l) (nub k).
Proof.
  induction l as [|x l IH]; cbn.
  - symmetry. apply list_filter_all. set_solver.
  - rewrite IH, filter_app, list_filter_filter. do 2 f_equal.
    apply list_filter_iff. intros y. set_solver.
Qed.

Section buckets.
  Context (key_of : snap_row → list Z) (key : Z → list Z).
  Hypothesis key_of_ts : ∀ s, key_of s = key (snap_ts s).
  Hypothesis key_interval : interval_key key.

Definition is_best (l : list snap_row) (kw : list Z * snap_row) (k : list Z) : Prop :=
  kw.1 = k ∧ bucket_best key_of l k = Some kw.2.

Lemma bucket_best_skip l m k :
  (∀ s, s ∈ m → key_of s ≠ k) → bucket_best key_of (l ++ m) k = bucket_best key_of l k.
Proof.
  intros Hm. unfold bucket_best. rewrite filter_app, (list_filter_none _ m), app_nil_r by auto. done.
Qed.

Lemma bucket_best_snoc l s :
  bucket_best key_of (l ++ [s]) (key_of s) =
  match bucket_best key_of l (key_of s) with
  | None => Some s
  | Some b => Some (if restore_rank b <? restore_rank s then s else b)
  end.
Proof.
  unfold bucket_best. rewrite filter_app, filter_cons_True by done. apply py_max_snoc.
Qed.

Lemma is_best_skip l m kws ks :
  (∀ s k, s ∈ m → k ∈ ks → key_of s ≠ k) →
  Forall2 (is_best l) kws ks → Forall2 (is_best (l ++ m)) kws ks.
Proof.
  intros Hm HF. induction HF as [|kw k kws ks [??] HF IH]; constructor; [|apply IH; set_solver].
  split; [done|]. rewrite bucket_best_skip; [done|]. set_solver.
Qed.

(** A row of a period already open changes that period's entry only. *)
Lemma is_best_insert l s kws ks i w :
  NoDup ks → Forall2 (is_best l) kws ks → ks !! i = Some (key_of s) →
  bucket_best key_of (l ++ [s]) (key_of s) = Some w →
  Forall2 (is_best (l ++ [s])) (<[i := (key_of s, w)]> kws) ks.
Proof.
  intros Hnd HF Hi Hw. apply Forall2_same_length_lookup_2.
  { rewrite length_insert. by eapply Forall2_length. }
  intros j kw k. destruct (decide (i = j)) as [<-|Hij].
  - intros Hj Hk. rewrite Hi in Hk. apply (inj Some) in Hk as <-.
    apply list_lookup_insert_Some in Hj as [(_ & <- & _)|[? _]]; [|done]. by split.
  - rewrite list_lookup_insert_ne by done. intros Hj Hk.
    destruct (Forall2_lookup_lr _ _ _ _ _ _ HF Hj Hk) as [??]. split; [done|].
    rewrite bucket_best_skip; [done|]. intros s' ->%list_elem_of_singleton <-.
    apply Hij. eapply NoDup_lookup; eassumption.
Qed.

(** Rows are in date order, so a period that has ended never comes back. *)
Lemma later_rows_other_period x s y :
  snap_ts s ≤ snap_ts x → snap_ts y ≤ snap_ts s → key_of s ≠ key_of x → key_of y ≠ key_of x.
Proof.
  rewrite !key_of_ts. intros H1 H2 Hne Heq. apply Hne.
  rewrite (key_interval _ _ _ H2 H1 Heq). done.
Qed.

Lemma NoDup_nub l : NoDup (nub l).
Proof.
  induction l as [|x l IH]; cbn; constructor; [|by apply NoDup_filter].
  rewrite list_elem_of_filter. tauto.
Qed.

Lemma scan_buckets_spec limit l done winners :
  (∀ x y, x ∈ done → y ∈ l → snap_ts y ≤ snap_ts x) → StronglySorted newer_first l →
  Forall2 (is_best done) winners (nub (key_of <$> done)) → (length winners ≤ limit)%nat →
  Forall2 (is_best (done ++ l)) (scan_buckets key_of limit winners l)
    (take limit (nub (key_of <$> (done ++ l)))).
Proof.
  revert done winners. induction l as [|s l IH]; intros done winners Hd Hss HF Hlen; cbn [scan_buckets].
  { rewrite app_nil_r, take_ge; [done|]. by erewrite <-Forall2_length. }
  apply StronglySorted_inv in Hss as [Hss Hall]. rewrite Forall_forall in Hall.
  pose proof (Forall2_length _ _ _ HF) as Hl.
  assert (∀ x y, x ∈ done ++ [s] → y ∈ l → snap_ts y ≤ snap_ts x) as Hd'.
  { intros x y [Hx| ->%list_elem_of_singleton]%elem_of_app Hy; [set_solver|by apply Hall]. }
  rewrite (cons_middle s done l), (assoc (++)).
  destruct (list_find _ winners) as [[i [k cur]]|] eqn:Hf.
  - apply list_find_Some in Hf as (Hi & Hk & _). cbn [fst] in Hk. subst k.
    destruct (Forall2_lookup_l _ _ _ _ _ HF Hi) as (k & Hki & Hk & Hb). cbn [fst snd] in Hk, Hb. subst k.
    assert (nub (key_of <$> (done ++ [s])) = nub (key_of <$> done)) as Hn.
    { rewrite fmap_app, nub_app, (list_filter_none _ (nub _)), app_nil_r; [done|].
      intros k. rewrite elem_of_nub. cbn. intros ->%list_elem_of_singleton Hnin.
      apply Hnin. rewrite <-elem_of_nub. by eapply list_elem_of_lookup_2. }
    pose proof (bucket_best_snoc done s) as Hs. rewrite Hb in Hs.
    pose proof (is_best_insert done s winners _ i _ (NoDup_nub _) HF Hki Hs) as HF'.
    destruct (_ <? _); apply IH; try done; rewrite ?Hn, ?length_insert; try done.
    by rewrite list_insert_id in HF'.
  - apply list_find_None in Hf. rewrite Forall_forall in Hf.
    assert (key_of s ∉ nub (key_of <$> done)) as Hnew.
    { intros (i & Hi)%list_elem_of_lookup. destruct (Forall2_lookup_r _ _ _ _ _ HF Hi) as (kw & Hkw & Hk & _).
      apply (Hf kw); [by eapply list_elem_of_lookup_2|done]. }
    rewrite elem_of_nub in Hnew.
    destruct (limit <=? length winners)%nat eqn:E; bools.
    + rewrite <-(assoc (++)), fmap_app, nub_app, take_app_le, take_ge by lia.
      apply is_best_skip; [|done]. intros y k Hy Hk. rewrite elem_of_nub in Hk.
      apply list_elem_of_fmap in Hk as (x & -> & Hx).
      apply elem_of_app in Hy as [->%list_elem_of_singleton|Hy];
        [intros Heq; apply Hnew; rewrite Heq; by apply list_elem_of_fmap_2|].
      apply (later_rows_other_period x s); [apply Hd; set_solver|by apply Hall|].
      intros Heq. apply Hnew. rewrite Heq. by apply list_elem_of_fmap_2.
    + apply IH; [done..| |rewrite length_app; cbn; lia].
      rewrite fmap_app, nub_app. cbn [fmap list_fmap nub]. rewrite filter_nil, filter_cons_True, filter_nil by done.
      apply Forall2_app.
      * apply is_best_skip; [|done]. intros y k ->%list_elem_of_singleton Hk Heq. apply Hnew.
        rewrite Heq. by apply elem_of_nub.
      * constructor; [|constructor]. split; [done|]. rewrite bucket_best_snoc.
        unfold bucket_best. rewrite list_filter_none; [done|]. intros x Hx Heq. apply Hnew.
        rewrite <-Heq. by apply list_elem_of_fmap_2.
Qed.
End buckets.

Lemma ids_best (key_of : snap_row → list Z) l kws ks :
  Forall2 (is_best key_of l) kws ks → ids kws.*2 = ids (omap (bucket_best key_of l) ks).
Proof.
  induction 1 as [|kw k kws ks [_ Hb] _ IH]; [done|].
  unfold ids in *. cbn [fmap list_fmap omap list_omap list_to_set]. rewrite Hb. cbn. by f_equal.
Qed.

Lemma newest_first_sorted l : StronglySorted newer_first (merge_sort newer_first l).
Proof.
  apply StronglySorted_merge_sort; [intros a b c; unfold newer_first; lia|].
  intros a b. unfold newer_first. lia.
Qed.

Lemma pick_bucket_winners_spec key l limit :
  interval_key key →
  pick_bucket_winners (merge_sort newer_first l) (λ s, key (snap_ts s)) limit
  = ids (best_of_periods (λ s, key (snap_ts s)) limit (merge_sort newer_first l)).
Proof.
  intros Hk. unfold pick_bucket_winners, best_of_periods.
  destruct (limit <=? 0) eqn:E; bools.
  - by replace (Z.to_nat limit) with 0%nat by lia.
  - apply ids_best. eapply (scan_buckets_spec _ key (λ _, eq_refl) Hk _ _ []);
      [set_solver|apply newest_first_sorted|constructor|cbn; lia].
Qed.

(** The GFS selector keeps, of the rows that hold data in newest-first order,
    exactly the best row of each of the configured number of most recent days,
    ISO weeks, months and years that have one: the highest restore rank
    (COMPLETED over PARTIAL over a failed run with content), the newest on a tie.
    To these it adds the newest rows and the FULL-typed anchor. The one-pass scan
    with its early exit computes the same set as the definition by periods. *)
Theorem gfs_keeps_best_of_each_period l p :
  gfs_keep_ids l p =
  let rows := merge_sort newer_first (bucket_candidates l) in
  latest_ids l
  ∪ ids (best_of_periods (λ s, ts_day (snap_ts s)) (int0 (sp_gfs_daily p)) rows)
  ∪ ids (best_of_periods (λ s, ts_week (snap_ts s)) (int0 (sp_gfs_weekly p)) rows)
  ∪ ids (best_of_periods (λ s, ts_month (snap_ts s)) (int0 (sp_gfs_monthly p)) rows)
  ∪ ids (best_of_periods (λ s, ts_year (snap_ts s)) (int0 (sp_gfs_yearly p)) rows)
  ∪ full_anchor_ids l.
Proof.
  unfold gfs_keep_ids, gfs_keep_ids_inner, with_baseline. cbn zeta.
  destruct ts_date_interval as (Hd & Hm & Hy).
  rewrite <-(pick_bucket_winners_spec ts_day) by exact Hd.
  rewrite <-(pick_bucket_winners_spec ts_week) by exact ts_week_interval.
  rewrite <-(pick_bucket_winners_spec ts_month) by exact Hm.
  rewrite <-(pick_bucket_winners_spec ts_year) by exact Hy.
  destruct l as [|s l]; [|reflexivity].
  unfold latest_ids, latest_restorable_id, full_anchor_ids, pick_bucket_winners.
  cbn. repeat case_match; set_solver.
Qed.

(** ** Bounds *)

Lemma size_ids l : (size (ids l) ≤ length l)%nat.
Proof.
  unfold ids. induction l as [|s l IH]; cbn; [by rewrite size_empty|].
  change (S (length l)) with (1 + length l)%nat.
  apply size_union_bound; [by rewrite size_singleton|done].
Qed.

Lemma length_omap_le {A B} (f : A → option B) l : (length (omap f l) ≤ length l)%nat.
Proof. induction l as [|x l IH]; cbn; [done|]. destruct (f x); cbn; lia. Qed.

Lemma size_best_of_periods key_of limit l :
  (size (ids (best_of_periods key_of limit l)) ≤ Z.to_nat limit)%nat.
Proof.
  etrans; [apply size_ids|]. etrans; [apply length_omap_le|]. rewrite length_take. lia.
Qed.

Lemma size_latest_ids l : (size (latest_ids l) ≤ 4)%nat.
Proof.
  apply (size_union_bound _ _ 3 1); [|apply size_id_of].
  apply (size_union_bound _ _ 2 1); [|apply size_id_of].
  apply (size_union_bound _ _ 1 1); apply size_id_of.
Qed.

Lemma size_baseline l : (size (baseline_keep_ids l ∪ full_anchor_ids l) ≤ 4)%nat.
Proof.
  assert (baseline_keep_ids l ∪ full_anchor_ids l = baseline_keep_ids l) as ->.
  { unfold baseline_keep_ids, full_anchor_ids.
    destruct (merge_sort _ _) as [|x m] eqn:E; [|set_solver].
    apply (f_equal length) in E. rewrite merge_sort_Permutation in E.
    apply nil_length_inv in E. rewrite E. set_solver. }
  unfold baseline_keep_ids. destruct (merge_sort _ _) as [|x m]; [rewrite size_empty; lia|].
  apply (size_union_bound _ _ 3 1); [|apply size_id_of].
  apply (size_union_bound _ _ 2 1); [|apply size_id_of].
  apply (size_union_bound _ _ 1 1); apply size_id_of.
Qed.

Lemma size_pick key limit l :
  interval_key key →
  (size (pick_bucket_winners (merge_sort newer_first l) (λ s, key (snap_ts s)) limit) ≤ Z.to_nat limit)%nat.
Proof. intros Hk. rewrite pick_bucket_winners_spec by done. apply size_best_of_periods. Qed.

Lemma size_gfs_inner l p :
  (size (gfs_keep_ids_inner l p)
   ≤ 4 + Z.to_nat (int0 (sp_gfs_daily p)) + Z.to_nat (int0 (sp_gfs_weekly p))
       + Z.to_nat (int0 (sp_gfs_monthly p)) + Z.to_nat (int0 (sp_gfs_yearly p)))%nat.
Proof.
  unfold gfs_keep_ids_inner. destruct l as [|s l]; cbn zeta; [rewrite size_empty; lia|].
  destruct ts_date_interval as (Hd & Hm & Hy). pose proof ts_week_interval as Hw.
  repeat apply size_union_bound; first [apply size_latest_ids | by apply size_pick].
Qed.

(** KEEP_LAST does not become KEEP_ALL, and GFS stays within its counts: for an
    archived resource KEEP_LAST keeps at most eight rows whatever the history,
    and on an active resource GFS keeps at most eight rows beyond one per
    configured day, week, month and year. *)
Theorem keep_set_is_bounded now l p :
  (mode_or (sp_archived_mode p) "SAME" = "KEEP_LAST" →
     (size (keep_ids now true l p) ≤ 8)%nat) ∧
  (mode_or (sp_retention_mode p) "FLAT" = "GFS" →
     (size (keep_ids now false l p)
      ≤ 8 + Z.to_nat (int0 (sp_gfs_daily p)) + Z.to_nat (int0 (sp_gfs_weekly p))
          + Z.to_nat (int0 (sp_gfs_monthly p)) + Z.to_nat (int0 (sp_gfs_yearly p)))%nat).
Proof.
  pose proof (size_latest_ids l) as Hlat. pose proof (size_baseline l) as Hbase.
  assert (size (baseline_keep_ids l) ≤ 4)%nat as Hb
    by (etrans; [apply subseteq_size, union_subseteq_l|exact Hbase]).
  split; intros Hmode; unfold keep_ids.
  - unfold archived_keep_ids, archived_keep_ids_inner. rewrite Hmode.
    destruct l as [|s l]; cbn zeta; cbn [fmap option_fmap option_map];
      [apply (size_union_bound _ _ 4 4); [rewrite size_empty; lia|done]|].
    rewrite (bool_decide_eq_false_2 ("KEEP_LAST" = "KEEP_ALL")), (bool_decide_eq_true_2 _ eq_refl) by done.
    cbn [fmap option_fmap option_map]. by apply (size_union_bound _ _ 4 4).
  - rewrite bool_decide_eq_true_2 by done. unfold gfs_keep_ids, with_baseline.
    rewrite <-(assoc_L (∪)), (comm_L (∪) (full_anchor_ids l)).
    etrans; [apply (size_union_bound _ _ (4 + Z.to_nat (int0 (sp_gfs_daily p))
      + Z.to_nat (int0 (sp_gfs_weekly p)) + Z.to_nat (int0 (sp_gfs_monthly p))
      + Z.to_nat (int0 (sp_gfs_yearly p))) 4 (size_gfs_inner l p) Hbase)|lia].
Qed.

Module RetentionExamples.
Definition day (n : Z) : Z := (737000 + n) * US_PER_DAY.
Definition row (i : string) (st : snapshot_status) (ts items : Z) : snap_row :=
  SnapRow i "res" (Some TIncremental) (Some st) (Some ts) (Some ts) (Some items) (Some (items * 10))
    None None None None None (Some "NOT_APPLICABLE") None None.

(** A history whose newest row, newest row with data, newest restorable row and
    newest COMPLETED row all differ. *)
Definition history : list snap_row :=
  [row "base" SCompleted (day 0) 900; row "inc1" SCompleted (day 10) 5; row "inc2" SPartial (day 11) 7;
   row "died" SFailed (day 12) 3; row "empty" SFailed (day 13) 0; row "old" SCompleted (day 1) 2].

Definition keep_last : sla_policy :=
  SlaPolicy "p" true (Some "gfs") None (Some 7) (Some 30) None (Some 2) (Some 1) None None
    (Some "keep_last") None false None None.

(** KEEP_LAST retains four rows here beside the anchor. *)
Example keep_last_rows :
  keep_ids (day 100) true history keep_last = {["base"; "inc1"; "inc2"; "died"; "empty"]}.
Proof. refine (bool_decide_unpack _ _). vm_compute. exact I. Qed.

Example gfs_rows :
  keep_ids (day 100) false history keep_last = {["base"; "inc1"; "inc2"; "died"; "empty"]}.
Proof. refine (bool_decide_unpack _ _). vm_compute. exact I. Qed.

Lemma keep_set_protects_witness :
  row "old" SCompleted (day 1) 2 ∈ history ∧
  keeps_max (keep_ids (day 100) true history keep_last) history holds_recoverable_data snap_ts.
Proof.
  assert (row "old" SCompleted (day 1) 2 ∈ history) as H by (unfold history; set_solver).
  split; [exact H|]. exact (proj1 (keep_set_protects (day 100) true history keep_last _ H eq_refl)).
Defined.

Lemma keep_set_is_bounded_witness :
  mode_or (sp_archived_mode keep_last) "SAME" = "KEEP_LAST" ∧
  (size (keep_ids (day 100) true history keep_last) ≤ 8)%nat.
Proof.
  split; [reflexivity|]. exact (proj1 (keep_set_is_bounded (day 100) history keep_last) eq_refl).
Defined.
End RetentionExamples.
