(* ===== verification/RetentionDelete.v ===== *)
(** * Retention: the delete transaction

    Model of the state-changing half of [src/shared/retention_cleanup.py]: the
    counter restatement, the locked delete guard, the hand-over of inventories to
    the heirs of a doomed snapshot (reuse pointers and overlays), the fold of
    sparse rows, the delete itself, and the per-tenant pass that drives them. The
    inventory of a snapshot ([snapshot_items_effective]) and the two validation
    triggers are those of [src/shared/database.py].

    Tables: [rd_snaps] by id; [rd_items] with the unique index on snapshot,
    external id and item type; [rd_removals] and [rd_chats] by primary key;
    [rd_parts] the shards of a snapshot with their status. An item row keeps the
    columns the statements test, and all the other payload columns together in
    [si_rest]. Ties that SQL leaves open are broken by table order. A [BEFORE
    UPDATE] trigger is evaluated on each new row against the table as it was
    before the statement: the rows it looks up are never among those the
    statement changes. The inventory fingerprint, a digest of the sorted payloads,
    is the multiset of payloads it digests. [free] is the copy-workflow guard
    [copy_source_pinned_sql], true of a snapshot nothing pins. *)

From Stdlib Require Import Strings.Ascii.
From stdpp Require Import gmultiset.
From S2P Require Import Prelude.
From S2P Require Import Calendar.
From S2P Require Import Reconciler.
From S2P Require Import Retention.
Local Open Scope Z_scope.

(** ** Tables *)

Record snap_item := SnapItem {
  si_snap : string;
  si_type : string;
  si_ext : string;
  si_parent : option string;
  si_size : option Z;
  si_deleted : bool;
  si_created : Z;
  si_rest : string;
}.

Definition key3 : Type := string * string * string.

Record ret_db := RetDb {
  rd_snaps : gmap string snap_row;
  rd_items : list snap_item;
  rd_removals : gset key3;
  rd_chats : gmap (string * string) string;
  rd_parts : list (string * string);
  rd_audit : list string;
}.

Definition with_snaps (f : gmap string snap_row → gmap string snap_row) (db : ret_db) : ret_db :=
  RetDb (f (rd_snaps db)) (rd_items db) (rd_removals db) (rd_chats db) (rd_parts db) (rd_audit db).
Definition with_items (f : list snap_item → list snap_item) (db : ret_db) : ret_db :=
  RetDb (rd_snaps db) (f (rd_items db)) (rd_removals db) (rd_chats db) (rd_parts db) (rd_audit db).
Definition with_removals (f : gset key3 → gset key3) (db : ret_db) : ret_db :=
  RetDb (rd_snaps db) (rd_items db) (f (rd_removals db)) (rd_chats db) (rd_parts db) (rd_audit db).
Definition with_chats (f : gmap (string * string) string → gmap (string * string) string) (db : ret_db) : ret_db :=
  RetDb (rd_snaps db) (rd_items db) (rd_removals db) (f (rd_chats db)) (rd_parts db) (rd_audit db).

Inductive ret_err :=
  | ReuseColumnsMismatch | ReuseTargetInvalid | ChainRootInvalid
  | OverlayIsPointer | OverlayBaseInvalid
  | InventoryChanged | ForeignKeyRestrict.

(** Setters for the columns the statements write. *)
Definition set_reuse (parent root : option string) (s : snap_row) : snap_row :=
  SnapRow (r_id s) (r_resource s) (r_type s) (r_status s) (r_started s) (r_created s) (r_item_count s)
    (r_bytes_total s) (r_extra s) parent root (r_overlay_base s) (r_lease_expires s) (r_hc_drain s)
    (r_delta_token s) (r_delta_tokens s).
Definition set_overlay (base : option string) (s : snap_row) : snap_row :=
  SnapRow (r_id s) (r_resource s) (r_type s) (r_status s) (r_started s) (r_created s) (r_item_count s)
    (r_bytes_total s) (r_extra s) (r_reuse_of s) (r_chain_root s) base (r_lease_expires s) (r_hc_drain s)
    (r_delta_token s) (r_delta_tokens s).
Definition set_counts (items bytes : Z) (s : snap_row) : snap_row :=
  SnapRow (r_id s) (r_resource s) (r_type s) (r_status s) (r_started s) (r_created s) (Some items)
    (Some bytes) (r_extra s) (r_reuse_of s) (r_chain_root s) (r_overlay_base s) (r_lease_expires s) (r_hc_drain s)
    (r_delta_token s) (r_delta_tokens s).
Definition set_extra (k : string) (v : json) (s : snap_row) : snap_row :=
  SnapRow (r_id s) (r_resource s) (r_type s) (r_status s) (r_started s) (r_created s) (r_item_count s)
    (r_bytes_total s) (Some (<[k := v]> (default ∅ (r_extra s)))) (r_reuse_of s) (r_chain_root s) (r_overlay_base s)
    (r_lease_expires s) (r_hc_drain s) (r_delta_token s) (r_delta_tokens s).
Definition set_cursors (token : option string) (tokens : option (gmap string string)) (s : snap_row) : snap_row :=
  SnapRow (r_id s) (r_resource s) (r_type s) (r_status s) (r_started s) (r_created s) (r_item_count s)
    (r_bytes_total s) (r_extra s) (r_reuse_of s) (r_chain_root s) (r_overlay_base s) (r_lease_expires s) (r_hc_drain s)
    token tokens.

(** ** The inventory of a snapshot *)

Definition OVERLAY_TYPES : list string :=
  ["EMAIL"; "EMAIL_ATTACHMENT"; "ARCHIVE_ITEM"; "ARCHIVE_ATTACHMENT"; "TEAMS_CHAT_MESSAGE"; "CHAT_ATTACHMENT";
   "CHAT_HOSTED_CONTENT"; "SHAREPOINT_LIST"; "SHAREPOINT_FILE"; "SHAREPOINT_FOLDER"; "SHAREPOINT_LIST_ITEM"].

(** [split_part(s, '::', 1)] *)
Fixpoint before_colons (s : string) : string :=
  match s with
  | String.String ":"%char (String.String ":"%char _) => ""
  | String.String c s => String.String c (before_colons s)
  | String.EmptyString => ""
  end.

Definition is_attachment (it : snap_item) : bool :=
  bool_decide (si_type it ∈ ["EMAIL_ATTACHMENT"; "ARCHIVE_ATTACHMENT"]).
Definition parent_type (it : snap_item) : string :=
  if bool_decide (si_type it = "ARCHIVE_ATTACHMENT") then "ARCHIVE_ITEM" else "EMAIL".
Definition parent_ext (it : snap_item) : string := default (before_colons (si_ext it)) (si_parent it).

(** A row of [snap] with this type and external id. *)
Definition has_row (items : list snap_item) (snap ty ext : string) : bool :=
  existsb (λ o, bool_decide (si_snap o = snap) && bool_decide (si_type o = ty) && bool_decide (si_ext o = ext)) items.

(** The second branch of the function: base row [b] is inherited by the overlay [r]. *)
Definition inherited (db : ret_db) (r base : string) (b : snap_item) : bool :=
  bool_decide (si_snap b = base)
  && bool_decide (si_type b ∈ OVERLAY_TYPES)
  && negb (has_row (rd_items db) r (si_type b) (si_ext b))
  && bool_decide ((r, si_type b, si_ext b) ∉ rd_removals db)
  && (negb (is_attachment b)
      || has_row (rd_items db) r (parent_type b) (parent_ext b)
      || (has_row (rd_items db) base (parent_type b) (parent_ext b)
          && bool_decide ((r, parent_type b, parent_ext b) ∉ rd_removals db))).

Definition owned (db : ret_db) (r : string) : list snap_item := filter (λ it, si_snap it = r) (rd_items db).

(** The rows of a snapshot that is not a pointer. *)
Definition rows_of (db : ret_db) (r : string) : list snap_item :=
  owned db r ++
  match (rd_snaps db !! r) ≫= r_overlay_base with
  | Some base => filter (inherited db r base) (rd_items db)
  | None => []
  end.

(** [COALESCE(s.reuse_chain_root_id, s.id)] *)
Definition root_id (s : snap_row) : string := default (r_id s) (r_chain_root s).

Definition snapshot_items_effective (db : ret_db) (sid : string) : list snap_item :=
  match rd_snaps db !! sid with Some s => rows_of db (root_id s) | None => [] end.

(** [_PAYLOAD] *)
Definition payload : Type := string * string * option string * option Z * bool * string.
Definition payload_of (it : snap_item) : payload :=
  (si_type it, si_ext it, si_parent it, si_size it, si_deleted it, si_rest it).

Definition inventory_fingerprint (db : ret_db) (sid : string) : gmultiset payload :=
  list_to_set_disj (payload_of <$> snapshot_items_effective db sid).

Definition assert_inventory_kept (db : ret_db) (sid : string) (before : gmultiset payload) : result ret_err unit :=
  raise_if (negb (bool_decide (inventory_fingerprint db sid = before))) InventoryChanged.

(** ** Triggers and statements *)

(** [COALESCE(started_at, created_at)] *)
Definition run_at (s : snap_row) : option Z := r_started s ∪ r_created s.

(** SQL [<] on nullable columns: [NULL] is not true. *)
Definition sql_lt (a b : option Z) : bool :=
  match a, b with Some x, Some y => x <? y | _, _ => false end.

(** [validate_snapshot_reuse_target] *)
Definition validate_reuse (db : ret_db) (new : snap_row) : result ret_err unit :=
  match r_reuse_of new, r_chain_root new with
  | None, None => Ok tt
  | Some parent, Some root =>
      let parent_ok :=
        match rd_snaps db !! parent with
        | Some p =>
            bool_decide (r_resource p = r_resource new)
            && (bool_decide (r_status p = Some SCompleted)
                || (bool_decide (r_status p = Some SPartial)
                    && bool_decide (is_Some (default ∅ (r_extra new) !! "archive_reused_partial_prior"))))
            && sql_lt (run_at p) (run_at new)
        | None => false
        end in
      let root_ok :=
        match rd_snaps db !! root with
        | Some r => bool_decide (r_resource r = r_resource new) && bool_decide (r_reuse_of r = None)
        | None => false
        end in
      _ ← raise_if (negb parent_ok) ReuseTargetInvalid;
      raise_if (negb root_ok) ChainRootInvalid
  | _, _ => Err ReuseColumnsMismatch
  end.

(** [validate_snapshot_overlay_base] *)
Definition validate_overlay (db : ret_db) (new : snap_row) : result ret_err unit :=
  match r_overlay_base new with
  | None => Ok tt
  | Some base =>
      _ ← raise_if (bool_decide (is_Some (r_reuse_of new))) OverlayIsPointer;
      raise_if (negb
        match rd_snaps db !! base with
        | Some b =>
            bool_decide (base ≠ r_id new) && bool_decide (r_resource b = r_resource new)
            && bool_decide (r_overlay_base b = None) && bool_decide (r_reuse_of b = None)
        | None => false
        end) OverlayBaseInvalid
  end.

(** [UPDATE snapshots SET .. WHERE ..] with the row triggers of the columns it sets. *)
Definition update_snapshots (trigger : ret_db → snap_row → result ret_err unit)
    (where_ : snap_row → bool) (set : snap_row → snap_row) (db : ret_db) : result ret_err ret_db :=
  let upd s := if where_ s then set s else s in
  _ ← mapR (trigger db) (set <$> filter where_ (map_to_list (rd_snaps db)).*2);
  Ok (with_snaps (fmap upd) db).

Definition no_trigger (_ : ret_db) (_ : snap_row) : result ret_err unit := Ok tt.
Definition reuse_triggers (db : ret_db) (new : snap_row) : result ret_err unit :=
  _ ← validate_reuse db new; validate_overlay db new.

Definition has_id (i : string) (s : snap_row) : bool := bool_decide (r_id s = i).

(** [INSERT INTO snapshot_items .. ON CONFLICT DO NOTHING] *)
Definition insert_items (rows : list snap_item) (items : list snap_item) : list snap_item :=
  foldl (λ items r, if has_row items (si_snap r) (si_type r) (si_ext r) then items else items ++ [r]) items rows.

(** A copy of an item row under another snapshot, capture time kept. *)
Definition move_to (sid : string) (it : snap_item) : snap_item :=
  SnapItem sid (si_type it) (si_ext it) (si_parent it) (si_size it) (si_deleted it) (si_created it) (si_rest it).

Definition sum_sizes (l : list snap_item) : Z := foldr (λ it acc, default 0 (si_size it) + acc) 0 l.

(** [extra_data ->> 'chat_inventory_format' = '1'] *)
Definition is_catalogue (s : snap_row) : bool :=
  bool_decide (default ∅ (r_extra s) !! "chat_inventory_format" ∈ [Some (JNum 1); Some (JStr "1")]).

Definition restate_counts (sid : string) (db : ret_db) : result ret_err ret_db :=
  update_snapshots no_trigger (has_id sid)
    (λ s, let rows := snapshot_items_effective db (r_id s) in
          set_counts
            (Z.of_nat (length (filter (λ it,
              negb (is_catalogue s)
              || negb (bool_decide (si_type it ∈ ["CHAT_ATTACHMENT"; "CHAT_HOSTED_CONTENT"]))) rows)))
            (sum_sizes rows) s) db.

(** ** Reuse pointers *)

(** [ORDER BY COALESCE(started_at, created_at)]: nulls last. *)
Definition by_run_at (a b : snap_row) : Prop :=
  match run_at a, run_at b with
  | Some x, Some y => x ≤ y
  | Some _, None | None, None => True
  | None, Some _ => False
  end.
Global Instance by_run_at_dec a b : Decision (by_run_at a b).
Proof. unfold by_run_at. destruct (run_at a), (run_at b); apply _. Defined.

Definition heir_candidate (did : string) (doomed : gset string) (s : snap_row) : bool :=
  bool_decide (r_chain_root s = Some did) && bool_decide (r_id s ≠ did)
  && bool_decide (r_id s ∉ doomed) && bool_decide (r_status s = Some SCompleted).

Definition promote_heir (stamp did heir : string) (d : snap_row) (db : ret_db) (h : snap_row) : snap_row :=
  let own := owned db heir in
  set_extra "reuse_rehydrated_at" (JStr stamp)
    (set_extra "reuse_rehydrated_from" (JStr did)
      (set_cursors (r_delta_token h ∪ r_delta_token d)
        (if bool_decide (default ∅ (r_delta_tokens h) = ∅) then r_delta_tokens d else r_delta_tokens h)
        (set_counts (Z.of_nat (length own)) (sum_sizes own) (set_reuse None None h)))).

Definition rehydrate_reuse_heir (stamp did : string) (doomed : gset string) (db : ret_db)
    : result ret_err (ret_db * option string) :=
  match head (merge_sort by_run_at (filter (heir_candidate did doomed) (map_to_list (rd_snaps db)).*2)),
        rd_snaps db !! did with
  | Some h0, Some d =>
      let heir := r_id h0 in
      let db := with_items (insert_items (move_to heir <$> owned db did)) db in
      let db := with_chats (λ t, t ∪ map_fold (λ k v acc, if bool_decide (k.1 = did) then <[(heir, k.2) := v]> acc else acc) ∅ t) db in
      db ← update_snapshots no_trigger (λ s, has_id heir s && is_catalogue d)
             (set_extra "chat_inventory_format" (JNum 1)) db;
      db ← update_snapshots reuse_triggers (has_id heir) (promote_heir stamp did heir d db) db;
      db ← restate_counts heir db;
      db ← update_snapshots reuse_triggers
             (λ s, bool_decide (r_chain_root s = Some did) && negb (has_id heir s))
             (λ s, set_reuse (if bool_decide (r_reuse_of s = Some did) then Some heir else r_reuse_of s) (Some heir) s) db;
      Ok (db, Some heir)
  | _, _ => Ok (db, None)
  end.

(** ** Overlays *)

(** The same captured item: [IS NOT DISTINCT FROM] on the payload row. *)
Definition holds_same (items : list snap_item) (sid : string) (e : snap_item) : bool :=
  existsb (λ h, bool_decide (si_snap h = sid) && bool_decide (payload_of h = payload_of e)) items.

Definition copy_base_rows (overlay base : string) (differing_from : option string) (db : ret_db) : ret_db :=
  with_items (insert_items (move_to overlay <$>
    filter (λ e, bool_decide (si_snap e = base)
                 && match differing_from with Some h => negb (holds_same (rd_items db) h e) | None => true end)
      (snapshot_items_effective db overlay))) db.

Definition rebase_overlay (overlay old_base new_base : string) (db : ret_db) : result ret_err ret_db :=
  let before := inventory_fingerprint db overlay in
  let db := copy_base_rows overlay old_base (Some new_base) db in
  let shown := snapshot_items_effective db overlay in
  let hidden := filter (λ h, bool_decide (si_snap h = new_base) && bool_decide (si_type h ∈ OVERLAY_TYPES)
    && negb (existsb (λ e, bool_decide (si_type e = si_type h) && bool_decide (si_ext e = si_ext h)) shown)) (rd_items db) in
  let db := with_removals (λ t, t ∪ list_to_set ((λ h, (overlay, si_type h, si_ext h)) <$> hidden)) db in
  db ← update_snapshots validate_overlay (has_id overlay) (set_overlay (Some new_base)) db;
  _ ← assert_inventory_kept db overlay before;
  Ok db.

Definition materialise_overlay (heir base : string) (db : ret_db) : result ret_err ret_db :=
  let before := inventory_fingerprint db heir in
  let db := copy_base_rows heir base None db in
  let db := with_removals (λ t, filter (λ k, k.1.1 ≠ heir) t) db in
  db ← update_snapshots validate_overlay (has_id heir)
         (λ s, set_extra "overlay_materialised_from" (JStr base) (set_overlay None s)) db;
  _ ← assert_inventory_kept db heir before;
  restate_counts heir db.

Fixpoint rebase_all (overlays : list string) (old_base new_base : string) (db : ret_db) : result ret_err ret_db :=
  match overlays with
  | [] => Ok db
  | o :: rest => db ← rebase_overlay o old_base new_base db; rebase_all rest old_base new_base db
  end.

(** The doomed overlay's heir takes its removals and its base. *)
Definition hand_over_overlay (did heir base : string) (db : ret_db) : result ret_err ret_db :=
  let before := inventory_fingerprint db did in
  let db := with_removals (λ t, t ∪ set_map (λ k : key3, (heir, k.1.2, k.2)) (filter (λ k : key3, k.1.1 = did) t)) db in
  db ← update_snapshots validate_overlay (has_id heir) (set_overlay (Some base)) db;
  _ ← assert_inventory_kept db heir before;
  restate_counts heir db.

Definition by_run_at_id (a b : snap_row) : Prop :=
  match run_at a, run_at b with
  | Some x, Some y => x < y ∨ (x = y ∧ String.leb (r_id a) (r_id b) = true)
  | Some _, None => True
  | None, Some _ => False
  | None, None => String.leb (r_id a) (r_id b) = true
  end.
Global Instance by_run_at_id_dec a b : Decision (by_run_at_id a b).
Proof. unfold by_run_at_id. destruct (run_at a), (run_at b); apply _. Defined.

Definition surviving_overlays (did : string) (doomed : gset string) (db : ret_db) : list string :=
  r_id <$> merge_sort by_run_at_id
    (filter (λ s, bool_decide (r_overlay_base s = Some did) && bool_decide (r_id s ∉ doomed))
      (map_to_list (rd_snaps db)).*2).

Definition rehydrate_overlay_dependents (did : string) (pointer_heir : option string) (doomed : gset string)
    (db : ret_db) : result ret_err ret_db :=
  match rd_snaps db !! did with
  | None => Ok db
  | Some d =>
      match r_overlay_base d with
      | Some base =>
          match pointer_heir with Some heir => hand_over_overlay did heir base db | None => Ok db end
      | None =>
          match surviving_overlays did doomed db, pointer_heir with
          | [], _ => Ok db
          | survivors, Some heir => rebase_all survivors did heir db
          | heir :: survivors, None =>
              db ← materialise_overlay heir did db; rebase_all survivors did heir db
          end
      end
  end.

(** ** Sparse rows *)

Definition SPARSE_ITEM_TYPES : list string :=
  ["FILE"; "ONEDRIVE_FILE"; "FILE_VERSION"; "CALENDAR_EVENT"; "USER_CONTACT"; "CONTACT"].
Definition is_sparse (it : snap_item) : bool := bool_decide (si_type it ∈ SPARSE_ITEM_TYPES).

(** [status <> ALL(_NOT_IN_UNION)]; a null status is not in the union. *)
Definition in_union (s : snap_row) : bool :=
  match r_status s with Some st => negb (bool_decide (st ∈ [SFailed; SPendingDeletion])) | None => false end.

(** [ORDER BY created_at, id]; the rows it orders have a [created_at]. *)
Definition by_created_id (a b : snap_row) : Prop :=
  int0 (r_created a) < int0 (r_created b)
  ∨ (int0 (r_created a) = int0 (r_created b) ∧ String.leb (r_id a) (r_id b) = true).
Global Instance by_created_id_dec a b : Decision (by_created_id a b).
Proof. unfold by_created_id. apply _. Defined.

Inductive fold_target := NoSparse | MustKeep | FoldInto (keeper : string) (window : list string).

Definition sparse_fold_target (sid : string) (doomed : gset string) (db : ret_db) : fold_target :=
  match rd_snaps db !! sid with
  | Some d =>
      if in_union d && existsb (λ it, bool_decide (si_snap it = sid) && is_sparse it) (rd_items db) then
        let later := filter (λ s, bool_decide (r_resource s = r_resource d)
                                  && sql_lt (r_created d) (r_created s) && in_union s)
                       (map_to_list (rd_snaps db)).*2 in
        match head (merge_sort by_created_id (filter (λ s, r_id s ∉ doomed) later)) with
        | Some k =>
            if bool_decide (r_status k ∈ [Some SCompleted; Some SPartial]) then
              FoldInto (r_id k) (r_id <$> filter (λ s, negb (sql_lt (r_created k) (r_created s))) later)
            else MustKeep
        | None => MustKeep
        end
      else NoSparse
  | None => NoSparse
  end.

Definition FOLD_BATCH : nat := Z.to_nat 5000.

Definition superseded (items : list snap_item) (window : list string) (it : snap_item) : bool :=
  existsb (λ l, bool_decide (si_snap l ∈ window) && bool_decide (si_ext l = si_ext it)) items.

(** One statement of the loop: of the first [n] sparse rows of [sid], those no
    window row supersedes move to the keeper and the others go. [all] is the
    table the statement sees. *)
Fixpoint fold_batch (all : list snap_item) (sid keeper : string) (window : list string) (n : nat)
    (items : list snap_item) : list snap_item :=
  match items with
  | [] => []
  | it :: rest =>
      if bool_decide (si_snap it = sid) && is_sparse it then
        match n with
        | O => it :: rest
        | S n =>
            if superseded all window it then fold_batch all sid keeper window n rest
            else move_to keeper it :: fold_batch all sid keeper window n rest
        end
      else it :: fold_batch all sid keeper window n rest
  end.

Definition sparse_rows (sid : string) (items : list snap_item) : list snap_item :=
  filter (λ it, bool_decide (si_snap it = sid) && is_sparse it) items.

Definition moved_rows (sid : string) (window : list string) (n : nat) (items : list snap_item) : list snap_item :=
  filter (λ it, negb (superseded items window it)) (take n (sparse_rows sid items)).

(** The loop; [None] when the fuel runs out. *)
Fixpoint fold_loop (fuel batch : nat) (sid keeper : string) (window : list string)
    (items : list snap_item) (rows bytes : Z) : option (list snap_item * Z * Z) :=
  match fuel with
  | O => None
  | S fuel =>
      let seen := length (take batch (sparse_rows sid items)) in
      let moved := moved_rows sid window batch items in
      let items := fold_batch items sid keeper window batch items in
      let rows := rows + Z.of_nat (length moved) in
      let bytes := bytes + sum_sizes moved in
      if (seen <? batch)%nat then Some (items, rows, bytes)
      else fold_loop fuel batch sid keeper window items rows bytes
  end.

(** The fuel is one pass per sparse row and a last one. *)
Definition fold_sparse_rows (batch : nat) (sid keeper : string) (window : list string) (db : ret_db) : result ret_err ret_db :=
  match fold_loop (S (length (sparse_rows sid (rd_items db)))) batch sid keeper window (rd_items db) 0 0 with
  | Some (items, rows, bytes) =>
      let db := with_items (λ _, items) db in
      if rows =? 0 then Ok db
      else update_snapshots no_trigger (has_id keeper)
             (λ s, set_counts (int0 (r_item_count s) + rows) (int0 (r_bytes_total s) + bytes) s) db
  | None => Ok db
  end.

(** ** The delete *)

Section delete.
  Context (free : string → bool) (now : Z) (stamp : string).

Definition live_shard (p : string * string) (sid : string) : bool :=
  bool_decide (p.1 = sid) && bool_decide (p.2 ∈ ["QUEUED"; "CLAIMED"; "IN_PROGRESS"]).

Definition status_terminal (s : snap_row) : bool :=
  match r_status s with Some st => bool_decide (st ∈ TERMINAL_STATUSES) | None => false end.

(** [d.status::text <> ALL(:terminal)]: a null status is not listed. *)
Definition status_live (s : snap_row) : bool :=
  match r_status s with Some st => negb (bool_decide (st ∈ TERMINAL_STATUSES)) | None => false end.

(** The [WHERE] of the locked guard. *)
Definition deletable (db : ret_db) (s : snap_row) : bool :=
  free (r_id s)
  && status_terminal s
  && match r_lease_expires s with None => true | Some e => e <=? now end
  && negb (bool_decide (default "NOT_APPLICABLE" (r_hc_drain s) = "PENDING"))
  && negb (existsb (λ p, live_shard p (r_id s)) (rd_parts db))
  && negb ((int0 (r_item_count s) =? 0) && (int0 (r_bytes_total s) =? 0)
           && existsb (λ it, bool_decide (si_snap it = r_id s)) (rd_items db))
  && negb (existsb (λ d, (bool_decide (r_overlay_base d = Some (r_id s)) || bool_decide (r_chain_root d = Some (r_id s)))
                         && bool_decide (r_id d ≠ r_id s) && status_live d) (map_to_list (rd_snaps db)).*2).

(** [ORDER BY (overlay_base_id IS NULL), id] *)
Definition overlays_first (a b : snap_row) : Prop :=
  match r_overlay_base a, r_overlay_base b with
  | Some _, None => True
  | None, Some _ => False
  | _, _ => String.leb (r_id a) (r_id b) = true
  end.
Global Instance overlays_first_dec a b : Decision (overlays_first a b).
Proof. unfold overlays_first. destruct (r_overlay_base a), (r_overlay_base b); apply _. Defined.

Definition qualified (snap_ids : gset string) (db : ret_db) : list string :=
  r_id <$> merge_sort overlays_first
    (filter (λ s, bool_decide (r_id s ∈ snap_ids) && deletable db s) (map_to_list (rd_snaps db)).*2).

(** The loop that plans the folds; a snapshot with no keeper leaves the doomed set. *)
Fixpoint plan_folds (db : ret_db) (sids : list string) (doomed : gset string)
    (folds : list (string * (string * list string))) : gset string * list (string * (string * list string)) :=
  match sids with
  | [] => (doomed, folds)
  | sid :: rest =>
      match sparse_fold_target sid doomed db with
      | MustKeep => plan_folds db rest (doomed ∖ {[sid]}) folds
      | FoldInto keeper window => plan_folds db rest doomed (folds ++ [(sid, (keeper, window))])
      | NoSparse => plan_folds db rest doomed folds
      end
  end.

Fixpoint rehydrate_all (sids : list string) (doomed : gset string) (db : ret_db) : result ret_err ret_db :=
  match sids with
  | [] => Ok db
  | sid :: rest =>
      '(db, heir) ← rehydrate_reuse_heir stamp sid doomed db;
      db ← rehydrate_overlay_dependents sid heir doomed db;
      rehydrate_all rest doomed db
  end.

Fixpoint fold_all (batch : nat) (folds : list (string * (string * list string))) (db : ret_db) : result ret_err ret_db :=
  match folds with
  | [] => Ok db
  | (sid, (keeper, window)) :: rest =>
      db ← fold_sparse_rows batch sid keeper window db; fold_all batch rest db
  end.

Definition references (s : snap_row) (i : string) : bool :=
  bool_decide (r_reuse_of s = Some i) || bool_decide (r_chain_root s = Some i)
  || bool_decide (r_overlay_base s = Some i).

(** Both [DELETE]s, with the self foreign keys' [ON DELETE RESTRICT] and the
    cascades of the tables that hang off a snapshot. *)
Definition drop_snapshots (sids : list string) (db : ret_db) : result ret_err ret_db :=
  let gone i := bool_decide (i ∈ sids) in
  let snaps := filter (λ kv, negb (gone kv.1)) (rd_snaps db) in
  _ ← raise_if (existsb (λ s, existsb (references s) sids) (map_to_list snaps).*2) ForeignKeyRestrict;
  Ok (RetDb snaps (filter (λ it, negb (gone (si_snap it))) (rd_items db))
        (filter (λ k, negb (gone k.1.1)) (rd_removals db))
        (filter (λ kv, negb (gone kv.1.1)) (rd_chats db))
        (filter (λ p, negb (gone p.1)) (rd_parts db)) (rd_audit db)).

Definition add_audit (events : gset string) (sids : list string) (db : ret_db) : ret_db :=
  RetDb (rd_snaps db) (rd_items db) (rd_removals db) (rd_chats db) (rd_parts db)
    (rd_audit db ++ filter (λ i, i ∈ events) sids).

(** [_delete_snapshots]: the table after it and the ids it deleted. *)
Definition delete_snapshots (batch : nat) (snap_ids events : gset string) (db : ret_db)
    : result ret_err (ret_db * list string) :=
  if bool_decide (snap_ids = ∅) then Ok (db, [])
  else
    let found := qualified snap_ids db in
    let '(doomed, folds) := plan_folds db found (list_to_set found) [] in
    let sids := filter (λ i, i ∈ doomed) found in
    if bool_decide (sids = []) then Ok (db, [])
    else
      db ← rehydrate_all sids doomed db;
      db ← fold_all batch folds db;
      db ← drop_snapshots sids db;
      Ok (add_audit events sids db, sids).
End delete.

(** ** Inventories as relations

    With the unique index, a table of items is a relation between snapshots and
    payloads in which a snapshot holds at most one payload per key; the readers
    only depend on that relation, on the removals and on four columns of a row. *)

Definition pkey (p : payload) : string * string := let '(ty, ext, _, _, _, _) := p in (ty, ext).
Definition p_type (p : payload) : string := (pkey p).1.
Definition p_parent_key (p : payload) : string * string :=
  let '(ty, ext, par, _, _, _) := p in
  (if bool_decide (ty = "ARCHIVE_ATTACHMENT") then "ARCHIVE_ITEM" else "EMAIL", default (before_colons ext) par).
Definition p_attachment (p : payload) : bool := bool_decide (p_type p ∈ ["EMAIL_ATTACHMENT"; "ARCHIVE_ATTACHMENT"]).
Definition p_dense (p : payload) : bool := negb (bool_decide (p_type p ∈ SPARSE_ITEM_TYPES)).

Definition item_key (it : snap_item) : key3 := (si_snap it, si_type it, si_ext it).

(** [snap] owns a row with this payload. *)
Definition owns (items : list snap_item) (snap : string) (p : payload) : Prop :=
  ∃ it, it ∈ items ∧ si_snap it = snap ∧ payload_of it = p.
Definition owns_key (items : list snap_item) (snap : string) (k : string * string) : Prop :=
  ∃ p, owns items snap p ∧ pkey p = k.

Definition unique_items (items : list snap_item) : Prop := NoDup (item_key <$> items).

Lemma payload_key it : pkey (payload_of it) = (si_type it, si_ext it).
Proof. done. Qed.

Lemma has_row_spec items snap ty ext : has_row items snap ty ext = true ↔ owns_key items snap (ty, ext).
Proof.
  unfold has_row, owns_key, owns. rewrite existsb_elem. split.
  - intros (it & Hin & H). bools. exists (payload_of it). rewrite payload_key.
    split; [by exists it|congruence].
  - intros (p & (it & Hin & Hs & Hp) & Hk). exists it. rewrite <-Hp, payload_key in Hk.
    split; [done|]. rewrite !andb_true_iff, !bool_decide_eq_true. naive_solver.
Qed.

Lemma has_row_false items snap ty ext : has_row items snap ty ext = false ↔ ¬ owns_key items snap (ty, ext).
Proof. rewrite <-has_row_spec. destruct (has_row _ _ _ _); naive_solver. Qed.

Lemma owns_unique items snap p q :
  unique_items items → owns items snap p → owns items snap q → pkey p = pkey q → p = q.
Proof.
  intros Hu (a & Ha & Has & <-) (b & Hb & Hbs & <-) Hk. rewrite !payload_key in Hk.
  apply list_elem_of_lookup in Ha as [i Hi], Hb as [j Hj].
  assert (i = j) as ->; [|congruence].
  eapply (NoDup_lookup _ i j (item_key a) Hu); rewrite list_lookup_fmap.
  - by rewrite Hi.
  - rewrite Hj. cbn. unfold item_key. congruence.
Qed.

(** The condition under which an overlay [r] shows a payload of its base. *)
Definition shows_base (items : list snap_item) (removals : gset key3) (r base : string) (p : payload) : Prop :=
  owns items base p ∧ p_type p ∈ OVERLAY_TYPES ∧ ¬ owns_key items r (pkey p) ∧
  ((r, (pkey p).1, (pkey p).2) ∉ removals) ∧
  (p_attachment p = true →
     owns_key items r (p_parent_key p) ∨
     (owns_key items base (p_parent_key p) ∧ (r, (p_parent_key p).1, (p_parent_key p).2) ∉ removals)).

Definition shows (db : ret_db) (r : string) (p : payload) : Prop :=
  owns (rd_items db) r p ∨
  ∃ s base, rd_snaps db !! r = Some s ∧ r_overlay_base s = Some base ∧
            shows_base (rd_items db) (rd_removals db) r base p.

Lemma elem_of_owned db r p : p ∈ payload_of <$> owned db r ↔ owns (rd_items db) r p.
Proof.
  unfold owned, owns. rewrite list_elem_of_fmap. setoid_rewrite list_elem_of_filter. naive_solver.
Qed.

Lemma elem_of_inherited db r base p :
  p ∈ payload_of <$> filter (inherited db r base) (rd_items db)
  ↔ shows_base (rd_items db) (rd_removals db) r base p.
Proof.
  rewrite list_elem_of_fmap. setoid_rewrite list_elem_of_filter. setoid_rewrite Is_true_true.
  assert (∀ it, inherited db r base it = true ↔
    si_snap it = base ∧ si_type it ∈ OVERLAY_TYPES ∧ ¬ owns_key (rd_items db) r (si_type it, si_ext it) ∧
    ((r, si_type it, si_ext it) ∉ rd_removals db) ∧
    (is_attachment it = true → owns_key (rd_items db) r (parent_type it, parent_ext it) ∨
       (owns_key (rd_items db) base (parent_type it, parent_ext it)
        ∧ (r, parent_type it, parent_ext it) ∉ rd_removals db))) as Hinh.
  { intros it. unfold inherited.
    rewrite !andb_true_iff, !orb_true_iff, !andb_true_iff, !negb_true_iff, !bool_decide_eq_true, has_row_false, !has_row_spec.
    destruct (is_attachment it); naive_solver. }
  setoid_rewrite Hinh. unfold shows_base, owns. split.
  - intros (it & -> & (Hs & H) & Hin). split; [by exists it|]. exact H.
  - intros ((it & Hin & Hs & <-) & H). exists it.
    split; [done|]. split; [by split|done].
Qed.

Lemma elem_of_rows db r p : p ∈ payload_of <$> rows_of db r ↔ shows db r p.
Proof.
  unfold rows_of, shows. rewrite fmap_app, elem_of_app, elem_of_owned.
  destruct (rd_snaps db !! r) as [s|] eqn:Hs; cbn [mbind option_bind]; [|set_solver].
  destruct (r_overlay_base s) as [base|] eqn:Hb.
  - rewrite elem_of_inherited. naive_solver.
  - set_solver.
Qed.

(** Rows of one snapshot have distinct payloads, whatever the relation shows. *)
Lemma NoDup_owned db r : unique_items (rd_items db) → NoDup (payload_of <$> owned db r).
Proof.
  unfold unique_items, owned. induction (rd_items db) as [|it l IH]; intros Hu; [constructor|].
  apply NoDup_cons in Hu as [Hnin Hu]. rewrite filter_cons. case_decide as Hs; [|by apply IH].
  cbn. constructor; [|by apply IH]. rewrite list_elem_of_fmap. intros (o & Ho & Hin).
  apply list_elem_of_filter in Hin as [Hos Hin]. apply Hnin, list_elem_of_fmap. exists o.
  split; [|done]. unfold item_key. apply (f_equal pkey) in Ho. rewrite !payload_key in Ho. congruence.
Qed.

Lemma rows_of_NoDup db r :
  unique_items (rd_items db) →
  (∀ s, rd_snaps db !! r = Some s → r_overlay_base s ≠ Some r) →
  NoDup (payload_of <$> rows_of db r).
Proof.
  intros Hu Hne. unfold rows_of. destruct (rd_snaps db !! r ≫= r_overlay_base) as [base|] eqn:Hb;
    [|rewrite app_nil_r; by apply NoDup_owned].
  rewrite fmap_app. apply NoDup_app. split; [by apply NoDup_owned|]. split.
  - intros p Hp Hi. rewrite elem_of_owned in Hp. rewrite elem_of_inherited in Hi.
    destruct Hi as (_ & _ & Hno & _). apply Hno. by exists p.
  - pose proof (NoDup_owned db base Hu) as Hnd. unfold owned in Hnd.
    assert (filter (inherited db r base) (rd_items db)
      = filter (inherited db r base) (filter (λ it, si_snap it = base) (rd_items db))) as ->.
    { rewrite list_filter_filter. apply list_filter_iff. intros it. rewrite Is_true_true.
      unfold inherited. rewrite !andb_true_iff, bool_decide_eq_true. naive_solver. }
    by apply NoDup_fmap_filter.
Qed.

(** For a snapshot that is not a pointer the fingerprint is what it shows. *)
Lemma fingerprint_iff db db' r r' :
  NoDup (payload_of <$> rows_of db r) → NoDup (payload_of <$> rows_of db' r') →
  (list_to_set_disj (payload_of <$> rows_of db r) =@{gmultiset payload} list_to_set_disj (payload_of <$> rows_of db' r'))
  ↔ ∀ p, shows db r p ↔ shows db' r' p.
Proof.
  intros H H'. setoid_rewrite <-elem_of_rows. split.
  - intros Heq p. rewrite <-!elem_of_list_to_set_disj, Heq. done.
  - intros Heq. apply list_to_set_disj_perm. by apply NoDup_Permutation.
Qed.

Lemma insert_items_owns rows items s p :
  NoDup (item_key <$> rows) →
  owns (insert_items rows items) s p ↔
  owns items s p ∨ (¬ owns_key items s (pkey p) ∧ owns rows s p).
Proof.
  unfold insert_items. revert items. induction rows as [|r rows IH]; intros items Hnd; cbn [foldl].
  { unfold owns at 3. set_solver. }
  apply NoDup_cons in Hnd as [Hnin Hnd]. rewrite IH by done. clear IH.
  assert (∀ q, owns (r :: rows) s q ↔ (si_snap r = s ∧ payload_of r = q) ∨ owns rows s q) as Hcons.
  { intros q. unfold owns. setoid_rewrite elem_of_cons. naive_solver. }
  assert (∀ q, owns rows s q → si_snap r = s → pkey q ≠ pkey (payload_of r)) as Hdiff.
  { intros q (it & Hin & His & <-) Hrs Hk. apply Hnin, list_elem_of_fmap. exists it.
    split; [|done]. rewrite !payload_key in Hk. unfold item_key. congruence. }
  rewrite Hcons. destruct (has_row items (si_snap r) (si_type r) (si_ext r)) eqn:Hrow.
  - apply has_row_spec in Hrow. rewrite <-payload_key in Hrow.
    split; [naive_solver|]. intros [?|[Hno [[<- <-]|?]]]; [by left|done|by right].
  - apply has_row_false in Hrow. rewrite <-payload_key in Hrow.
    assert (∀ q, owns (items ++ [r]) s q ↔ owns items s q ∨ (si_snap r = s ∧ payload_of r = q)) as Hsnoc.
    { intros q. unfold owns. setoid_rewrite elem_of_app. setoid_rewrite list_elem_of_singleton. naive_solver. }
    unfold owns_key in *. setoid_rewrite Hsnoc. split.
    + intros [[?|[<- <-]]|[Hno Hr]]; [by left|by right; split; [|left]|].
      right. split; [|by right]. intros (q & ? & ?). apply Hno. exists q. auto.
    + intros [?|[Hno [[<- <-]|Hr]]]; [by left; left|by left; right|]. right. split; [|done].
      intros (q & [?|[? <-]] & Hk); [apply Hno; by exists q|]. by eapply Hdiff.
Qed.

Lemma insert_items_unique rows items : unique_items items → unique_items (insert_items rows items).
Proof.
  unfold insert_items. revert items. induction rows as [|r rows IH]; intros items Hu; cbn [foldl]; [done|].
  apply IH. destruct (has_row _ _ _ _) eqn:Hrow; [done|]. apply has_row_false in Hrow.
  unfold unique_items. rewrite fmap_app. apply NoDup_app. split; [done|]. split; [|cbn; by repeat constructor; set_solver].
  intros k. cbn. rewrite list_elem_of_singleton, list_elem_of_fmap. intros (it & -> & Hin) Hk.
  apply Hrow. exists (payload_of it). unfold item_key in Hk. split; [|rewrite payload_key; congruence].
  exists it. split_and!; [done|congruence|done].
Qed.

Lemma owns_move_to sid l s p :
  owns (move_to sid <$> l) s p ↔ s = sid ∧ p ∈ payload_of <$> l.
Proof.
  unfold owns. setoid_rewrite list_elem_of_fmap. split.
  - intros (it & (o & -> & Ho) & <- & <-). split; [done|]. by exists o.
  - intros (-> & o & -> & Ho). exists (move_to sid o). split_and!; [by exists o|done..].
Qed.

Lemma NoDup_move_to sid l :
  NoDup (payload_of <$> l) → (∀ a b, a ∈ l → b ∈ l → pkey (payload_of a) = pkey (payload_of b) → payload_of a = payload_of b) →
  NoDup (item_key <$> (move_to sid <$> l)).
Proof.
  intros Hnd Hinj. rewrite <-list_fmap_compose.
  induction l as [|a l IH]; cbn in *; [constructor|]. apply NoDup_cons in Hnd as [Hnin Hnd].
  constructor; [|apply IH; [done|]; intros; apply Hinj; set_solver].
  rewrite list_elem_of_fmap. intros (b & Hb & Hin). apply Hnin, list_elem_of_fmap. exists b.
  split; [|done]. apply Hinj; [set_solver..|]. unfold item_key in Hb. cbn in Hb |- *. congruence.
Qed.

(** ** Rebasing an overlay *)

Global Instance owns_dec items sid p : Decision (owns items sid p).
Proof.
  destruct (decide (p ∈ payload_of <$> filter (λ it, si_snap it = sid) items)) as [H|H];
    [left|right]; rewrite list_elem_of_fmap in H; setoid_rewrite list_elem_of_filter in H; unfold owns; naive_solver.
Defined.

Global Instance owns_key_dec items sid k : Decision (owns_key items sid k).
Proof.
  destruct (has_row items sid k.1 k.2) eqn:H; destruct k; cbn in H;
    [left; by apply has_row_spec|right; by apply has_row_false].
Defined.

Global Instance shows_base_dec items removals r base p : Decision (shows_base items removals r base p).
Proof. unfold shows_base. apply _. Defined.

Lemma holds_same_spec items sid e : holds_same items sid e = true ↔ owns items sid (payload_of e).
Proof.
  unfold holds_same, owns. rewrite existsb_elem. setoid_rewrite andb_true_iff.
  setoid_rewrite bool_decide_eq_true. done.
Qed.

Lemma overlay_parent p q :
  pkey q = p_parent_key p → p_type q ∈ OVERLAY_TYPES ∧ p_attachment q = false.
Proof.
  unfold p_attachment, p_type, p_parent_key. destruct p as [[[[[ty ext] par] ?] ?] ?]. intros ->. cbn [fst].
  case_bool_decide; split; try reflexivity; unfold OVERLAY_TYPES; set_solver.
Qed.

Section rebase.
  Context (I I1 : list snap_item) (R R2 : gset key3) (o base new : string).
  Hypothesis I_unique : unique_items I.
  Hypothesis o_base : base ≠ o.
  Hypothesis o_new : new ≠ o.

Definition shown_before (p : payload) : Prop := owns I o p ∨ shows_base I R o base p.
Local Instance shown_before_dec p : Decision (shown_before p).
Proof. unfold shown_before. apply _. Defined.

Hypothesis I1_owns : ∀ s p,
  owns I1 s p ↔ owns I s p ∨ (s = o ∧ shows_base I R o base p ∧ ¬ owns I new p).

Lemma I1_other s p : s ≠ o → owns I1 s p ↔ owns I s p.
Proof. rewrite I1_owns. naive_solver. Qed.

Lemma I1_shown p : owns I1 o p → shown_before p.
Proof. rewrite I1_owns. unfold shown_before. naive_solver. Qed.

Lemma I1_mono s k : owns_key I s k → owns_key I1 s k.
Proof. intros (p & ? & ?). exists p. rewrite I1_owns. auto. Qed.

(** A base row the new base holds as well is not copied, and nothing else takes its key. *)
Lemma shared_row_not_owned p :
  shows_base I R o base p → owns I new p → ¬ owns_key I1 o (pkey p).
Proof.
  intros Hp Hn (q & Hq & Hk). apply I1_owns in Hq as [Hq|(_ & Hq & Hnq)].
  - destruct Hp as (_ & _ & Hno & _). apply Hno. by exists q.
  - apply Hnq. rewrite (owns_unique I base q p I_unique); [done|apply Hq|apply Hp|done].
Qed.

(** Copying rows it shows changes nothing of what the overlay shows. *)
Lemma shown_after_copy p :
  owns I1 o p ∨ shows_base I1 R o base p ↔ shown_before p.
Proof.
  split.
  - intros [Hp|(Hb & Ht & Hno & Hr & Ha)]; [by apply I1_shown|].
    right. rewrite I1_other in Hb by done. split_and!; [done..| |done|].
    + intros Hk. by apply Hno, I1_mono.
    + intros Hat. destruct (Ha Hat) as [(q & Hq & Hk)|[(q & Hq & Hk) Hrk]].
      * apply I1_owns in Hq as [Hq|(_ & (Hqb & _ & _ & Hqr & _) & _)]; [left; by exists q|].
        right. rewrite <-Hk. split; [by exists q|]. exact Hqr.
      * rewrite I1_other in Hq by done. right. split; [by exists q|done].
  - intros [Hp|Hp]; [left; apply I1_owns; auto|].
    destruct (decide (owns I new p)) as [Hn|Hn].
    + right. pose proof (shared_row_not_owned p Hp Hn) as Hno. destruct Hp as (Hb & Ht & _ & Hr & Ha).
      split_and!; [by apply I1_other|done..|]. intros Hat. destruct (Ha Hat) as [Hk|[(q & Hq & Hk) Hrk]].
      * left. by apply I1_mono.
      * right. split; [|done]. exists q. by rewrite I1_other.
    + left. apply I1_owns. auto.
Qed.

Hypothesis R2_spec : ∀ k : string * string, (o, k.1, k.2) ∈ R2 ↔
  (o, k.1, k.2) ∈ R ∨
  ∃ h, owns I new h ∧ p_type h ∈ OVERLAY_TYPES ∧ pkey h = k ∧ ¬ ∃ e, shown_before e ∧ pkey e = k.

(** On the new base, with the rows it lacks or holds differently copied and its
    rows the overlay did not show hidden, the overlay shows what it showed. *)
Lemma shown_after_rebase p :
  owns I1 o p ∨ shows_base I1 R2 o new p ↔ shown_before p.
Proof.
  split.
  - intros [Hp|(Hn & Ht & Hno & Hr & _)]; [by apply I1_shown|]. rewrite I1_other in Hn by done.
    rewrite (R2_spec (pkey p)) in Hr. apply Decidable.not_or in Hr as [_ Hr].
    destruct (decide (owns I o p)) as [|Hop]; [by left|].
    assert (¬ ¬ shown_before p) as Hnn.
    { intros Hnp. apply Hr. exists p. split_and!; [done..|]. intros (q & [Hq|Hq] & Hk).
      - apply Hno. exists q. rewrite I1_owns. auto.
      - destruct (decide (owns I new q)) as [Hqn|Hqn].
        + apply Hnp. right. by rewrite <-(owns_unique I new q p).
        + apply Hno. exists q. rewrite I1_owns. auto. }
    destruct (decide (shown_before p)); done.
  - intros [Hp|Hp]; [left; apply I1_owns; auto|].
    destruct (decide (owns I new p)) as [Hn|Hn]; [|left; apply I1_owns; auto].
    right. pose proof (shared_row_not_owned p Hp Hn) as Hno.
    assert (shown_before p) as Hsp by (by right). destruct Hp as (Hb & Ht & _ & Hr & Ha).
    split_and!; [by apply I1_other|done..| |].
    + rewrite (R2_spec (pkey p)). intros [?|(h & _ & _ & _ & Hne)]; [done|]. apply Hne. by exists p.
    + intros Hat. destruct (Ha Hat) as [Hk|[(q & Hq & Hk) Hrk]]; [left; by apply I1_mono|].
      destruct (overlay_parent p q Hk) as [Hqt Hqa].
      destruct (decide (owns_key I o (pkey q))) as [Hqo|Hqo]; [left; rewrite <-Hk; by apply I1_mono|].
      assert (shows_base I R o base q) as Hsq.
      { rewrite <-Hk in Hrk. split_and!; [done..|]. rewrite Hqa. done. }
      destruct (decide (owns I new q)) as [Hqn|Hqn].
      * right. split; [exists q; by rewrite I1_other|]. rewrite R2_spec.
        intros [?|(h & _ & _ & _ & Hne)]; [done|]. apply Hne. exists q. split; [by right|done].
      * left. exists q. rewrite I1_owns. auto.
Qed.
End rebase.

(** ** The statements on a well-formed overlay *)

(** [o] is an overlay of [base] in [db]. *)
Definition overlay_of (db : ret_db) (o base : string) : Prop :=
  ∃ s, rd_snaps db !! o = Some s ∧ r_id s = o ∧ r_chain_root s = None ∧ r_overlay_base s = Some base ∧ base ≠ o.

Lemma overlay_effective db o base : overlay_of db o base →
  snapshot_items_effective db o = rows_of db o ∧
  (∀ p, shows db o p ↔ shown_before (rd_items db) (rd_removals db) o base p).
Proof.
  intros (s & Hs & Hid & Hc & Hb & Hne). split.
  - unfold snapshot_items_effective, root_id. by rewrite Hs, Hc, Hid.
  - intros p. unfold shows, shown_before. rewrite Hs. naive_solver.
Qed.

Lemma elem_of_base_rows db o base e :
  overlay_of db o base → e ∈ rows_of db o → si_snap e = base →
  shows_base (rd_items db) (rd_removals db) o base (payload_of e) ∧ owns (rd_items db) base (payload_of e).
Proof.
  intros (s & Hs & Hid & Hc & Hb & Hne) Hin He. unfold rows_of in Hin. rewrite Hs in Hin. cbn in Hin. rewrite Hb in Hin.
  apply elem_of_app in Hin as [Hin|Hin].
  { unfold owned in Hin. apply list_elem_of_filter in Hin. naive_solver. }
  assert (payload_of e ∈ payload_of <$> filter (inherited db o base) (rd_items db)) as Hp by (by apply list_elem_of_fmap_2).
  rewrite elem_of_inherited in Hp. split; [done|apply Hp].
Qed.

Lemma copy_base_rows_owns db o base df s p :
  unique_items (rd_items db) → overlay_of db o base →
  owns (rd_items (copy_base_rows o base df db)) s p ↔
  owns (rd_items db) s p ∨
  (s = o ∧ shows_base (rd_items db) (rd_removals db) o base p ∧
   match df with Some h => ¬ owns (rd_items db) h p | None => True end).
Proof.
  intros Hu Ho. destruct (overlay_effective db o base Ho) as [Heff _].
  unfold copy_base_rows. cbn [rd_items with_items]. rewrite Heff.
  set (C := filter _ (rows_of db o)).
  assert (∀ e, e ∈ C → e ∈ rows_of db o ∧ si_snap e = base ∧
    match df with Some h => ¬ owns (rd_items db) h (payload_of e) | None => True end) as HC.
  { intros e. unfold C. rewrite list_elem_of_filter, Is_true_true, andb_true_iff, bool_decide_eq_true.
    intros [[??] ?]. split_and!; [done..|]. destruct df; [|done].
    rewrite negb_true_iff, <-not_true_iff_false, holds_same_spec in *. done. }
  rewrite insert_items_owns.
  2:{ apply NoDup_move_to.
      - apply NoDup_fmap_filter, rows_of_NoDup; [done|].
        destruct Ho as (t & Ht & _ & _ & Hb & Hne). intros t' Ht'. naive_solver congruence.
      - intros a b Ha Hb Hk. apply HC in Ha as (Ha & Has & _), Hb as (Hb & Hbs & _).
        apply (owns_unique (rd_items db) base); [done| | |done]; by eapply elem_of_base_rows. }
  rewrite owns_move_to, list_elem_of_fmap. split.
  - intros [?|(_ & -> & e & -> & He)]; [by left|]. apply HC in He as (He & Hes & Hd). right.
    split_and!; [done| |done]. by eapply elem_of_base_rows.
  - intros [?|(-> & Hp & Hd)]; [by left|]. right. split; [apply Hp|]. split; [done|].
    destruct Ho as (t & Ht & Hid & Hc & Hb & Hne).
    apply elem_of_inherited, list_elem_of_fmap in Hp as (e & -> & He).
    exists e. split; [done|]. unfold C. rewrite list_elem_of_filter, Is_true_true, andb_true_iff, bool_decide_eq_true.
    split; [split|].
    + apply list_elem_of_filter in He as [He _]. apply Is_true_true in He. unfold inherited in He. by bools.
    + destruct df; [|done]. by rewrite negb_true_iff, <-not_true_iff_false, holds_same_spec.
    + unfold rows_of. rewrite Ht. cbn. rewrite Hb. apply elem_of_app. by right.
Qed.

Lemma elem_of_rows_where (m : gmap string snap_row) (w : snap_row → bool) s :
  s ∈ filter w (map_to_list m).*2 ↔ w s = true ∧ ∃ i, m !! i = Some s.
Proof.
  rewrite list_elem_of_filter, Is_true_true, list_elem_of_fmap. split.
  - intros [? ([i t] & -> & Hin%elem_of_map_to_list)]. eauto.
  - intros [? [i Hi]]. split; [done|]. exists (i, s). by rewrite elem_of_map_to_list.
Qed.

Lemma update_snapshots_Ok trigger where_ set db db' :
  update_snapshots trigger where_ set db = Ok db' →
  db' = with_snaps (fmap (λ s, if where_ s then set s else s)) db ∧
  ∀ i s, rd_snaps db !! i = Some s → where_ s = true → trigger db (set s) = Ok tt.
Proof.
  unfold update_snapshots. intros H. apply bind_Ok in H as (us & Hus & [= <-]). split; [done|].
  intros i s Hi Hw. apply mapR_Ok in Hus.
  assert (set s ∈ set <$> filter where_ (map_to_list (rd_snaps db)).*2) as Hin.
  { apply list_elem_of_fmap_2, elem_of_rows_where. eauto. }
  apply list_elem_of_lookup in Hin as [j Hj].
  destruct (Forall2_lookup_l _ _ _ _ _ Hus Hj) as ([] & _ & ?). done.
Qed.

Lemma update_snapshots_run trigger where_ set db :
  (∀ i s, rd_snaps db !! i = Some s → where_ s = true → trigger db (set s) = Ok tt) →
  update_snapshots trigger where_ set db = Ok (with_snaps (fmap (λ s, if where_ s then set s else s)) db).
Proof.
  intros H. unfold update_snapshots. apply bind_Ok.
  exists ((λ _, tt) <$> (set <$> filter where_ (map_to_list (rd_snaps db)).*2)). split; [|done].
  apply mapR_Ok, Forall2_fmap_r, Forall_Forall2_diag, Forall_forall. intros t (s & -> & Hs)%list_elem_of_fmap.
  apply elem_of_rows_where in Hs as [Hw [i Hi]]. by eapply H.
Qed.

(** Every row is stored under its id. *)
Definition keyed (db : ret_db) : Prop := ∀ i s, rd_snaps db !! i = Some s → r_id s = i.

Lemma update_one trigger i s set db :
  keyed db → rd_snaps db !! i = Some s → trigger db (set s) = Ok tt →
  ∃ db', update_snapshots trigger (has_id i) set db = Ok db' ∧
    rd_snaps db' !! i = Some (set s) ∧ rd_items db' = rd_items db ∧ rd_removals db' = rd_removals db.
Proof.
  intros Hk Hi Ht. eexists. split; [apply update_snapshots_run|].
  - intros j t Hj Hw. unfold has_id in Hw. bools. rewrite (Hk _ _ Hj) in Hw. naive_solver.
  - cbn. rewrite lookup_fmap, Hi. cbn. unfold has_id.
    rewrite bool_decide_eq_true_2 by eauto. done.
Qed.

(** A snapshot that can be the base of an overlay of [resource]. *)
Definition full_snapshot (db : ret_db) (i resource : string) : Prop :=
  ∃ h, rd_snaps db !! i = Some h ∧ r_resource h = resource ∧ r_overlay_base h = None ∧ r_reuse_of h = None.

Lemma rebase_fingerprints db db' o base new :
  unique_items (rd_items db) → overlay_of db o base → overlay_of db' o new →
  (∀ s p, owns (rd_items db') s p ↔ owns (rd_items db) s p ∨
     (s = o ∧ shows_base (rd_items db) (rd_removals db) o base p ∧ ¬ owns (rd_items db) new p)) →
  unique_items (rd_items db') →
  (∀ k : string * string, (o, k.1, k.2) ∈ rd_removals db' ↔ (o, k.1, k.2) ∈ rd_removals db ∨
     ∃ h, owns (rd_items db) new h ∧ p_type h ∈ OVERLAY_TYPES ∧ pkey h = k ∧
          ¬ ∃ e, shown_before (rd_items db) (rd_removals db) o base e ∧ pkey e = k) →
  inventory_fingerprint db' o = inventory_fingerprint db o.
Proof.
  intros Hu Ho Ho' Hown Hu' Hrem. unfold inventory_fingerprint.
  destruct (overlay_effective _ _ _ Ho) as [-> Hs], (overlay_effective _ _ _ Ho') as [-> Hs'].
  destruct Ho as (t & Ht & _ & _ & Hb & Hne), Ho' as (t' & Ht' & _ & _ & Hb' & Hne').
  apply fingerprint_iff; [apply rows_of_NoDup; [done|intros; naive_solver congruence]..|].
  intros p. rewrite Hs, Hs'. by eapply (shown_after_rebase (rd_items db) _ (rd_removals db)).
Qed.

Lemma copy_base_rows_frame db o base df :
  overlay_of db o base → overlay_of (copy_base_rows o base df db) o base.
Proof. done. Qed.

Lemma existsb_row_key db r k :
  existsb (λ e, bool_decide (si_type e = k.1) && bool_decide (si_ext e = k.2)) (rows_of db r) = true
  ↔ ∃ p, shows db r p ∧ pkey p = k.
Proof.
  rewrite existsb_elem. setoid_rewrite <-elem_of_rows. setoid_rewrite list_elem_of_fmap. split.
  - intros (e & He & H). bools. exists (payload_of e). split; [by exists e|].
    rewrite payload_key. destruct k; cbn in *; congruence.
  - intros (p & (e & -> & He) & Hk). exists e. split; [done|]. rewrite payload_key in Hk. subst k. cbn.
    by rewrite !bool_decide_eq_true_2.
Qed.

(** The removals [_rebase_overlay] adds, over the table with its copies. *)
Lemma rebase_hidden db o base new k :
  unique_items (rd_items db) → overlay_of db o base → new ≠ o →
  let db1 := copy_base_rows o base (Some new) db in
  k ∈ (λ h, (si_type h, si_ext h)) <$>
      filter (λ h, bool_decide (si_snap h = new) && bool_decide (si_type h ∈ OVERLAY_TYPES)
        && negb (existsb (λ e, bool_decide (si_type e = si_type h) && bool_decide (si_ext e = si_ext h))
                   (snapshot_items_effective db1 o))) (rd_items db1)
  ↔ ∃ h, owns (rd_items db) new h ∧ p_type h ∈ OVERLAY_TYPES ∧ pkey h = k ∧
         ¬ ∃ e, shown_before (rd_items db) (rd_removals db) o base e ∧ pkey e = k.
Proof.
  intros Hu Ho Hno db1.
  assert (∀ s p, owns (rd_items db1) s p ↔ owns (rd_items db) s p ∨
    (s = o ∧ shows_base (rd_items db) (rd_removals db) o base p ∧ ¬ owns (rd_items db) new p)) as Hown
    by (intros s p; by apply copy_base_rows_owns).
  destruct (overlay_effective db1 o base (copy_base_rows_frame _ _ _ _ Ho)) as [Heff Hs1].
  assert (∀ e, shows db1 o e ↔ shown_before (rd_items db) (rd_removals db) o base e) as Hshow.
  { intros e. rewrite Hs1. destruct Ho as (? & _ & _ & _ & _ & Hne).
    by apply (shown_after_copy (rd_items db) (rd_items db1) (rd_removals db) o base new). }
  rewrite list_elem_of_fmap, Heff.
  setoid_rewrite list_elem_of_filter. setoid_rewrite Is_true_true.
  setoid_rewrite andb_true_iff. setoid_rewrite andb_true_iff. setoid_rewrite bool_decide_eq_true.
  setoid_rewrite negb_true_iff. setoid_rewrite <-not_true_iff_false. split.
  - intros (h & -> & ((Hsn & Ht) & Hne) & Hin). exists (payload_of h).
    assert (owns (rd_items db1) new (payload_of h)) as Hn by (by exists h).
    rewrite Hown in Hn. split_and!; [naive_solver|done|done|].
    setoid_rewrite <-Hshow. by rewrite <-(existsb_row_key db1 o (si_type h, si_ext h)).
  - intros (p & Hp & Ht & Hk & Hne).
    assert (owns (rd_items db1) new p) as (h & Hin & Hsn & <-) by (rewrite Hown; auto).
    rewrite payload_key in Hk. subst k. exists h. split; [done|]. split; [|done]. split; [done|].
    rewrite (existsb_row_key db1 o (si_type h, si_ext h)). by setoid_rewrite Hshow.
Qed.

(** Moving an overlay snapshot to another full base never changes what it
    holds, so the inventory assertion of [_rebase_overlay] never fails: for every
    overlay whose new base is a full snapshot of the same resource the call
    succeeds, the overlay points at the new base, and its inventory, attachments
    under hidden messages included, is the same multiset of payloads. *)
Theorem rebase_keeps_inventory db o base new s :
  keyed db → unique_items (rd_items db) → overlay_of db o base →
  rd_snaps db !! o = Some s → r_reuse_of s = None → full_snapshot db new (r_resource s) → new ≠ o →
  ∃ db', rebase_overlay o base new db = Ok db' ∧ overlay_of db' o new ∧
    inventory_fingerprint db' o = inventory_fingerprint db o.
Proof.
  intros Hkey Hu Ho Hs Hre Hfull Hno. unfold rebase_overlay. cbn zeta.
  set (db1 := copy_base_rows o base (Some new) db).
  set (db2 := with_removals _ db1).
  assert (rd_snaps db2 = rd_snaps db) as Hsn by done.
  destruct (update_one validate_overlay o s (set_overlay (Some new)) db2) as (db3 & Hrun & Hs3 & Hi3 & Hr3).
  { intros i t. rewrite Hsn. apply Hkey. }
  { by rewrite Hsn. }
  { unfold validate_overlay. cbn [r_overlay_base set_overlay r_reuse_of r_id r_resource]. rewrite Hsn, Hre.
    destruct Hfull as (h & -> & -> & -> & ->). rewrite (Hkey _ _ Hs).
    rewrite !bool_decide_eq_true_2, bool_decide_eq_false_2 by (done || by intros []). done. }
  rewrite Hrun. mred.
  assert (overlay_of db3 o new) as Ho3.
  { destruct Ho as (t & Ht & Hid & Hc & _). rewrite Hs in Ht. apply (inj Some) in Ht as <-.
    exists (set_overlay (Some new) s). split_and!; done. }
  assert (inventory_fingerprint db3 o = inventory_fingerprint db o) as Hfp.
  { eapply rebase_fingerprints; try done.
    - intros t p. rewrite Hi3. by apply copy_base_rows_owns.
    - rewrite Hi3. apply insert_items_unique. done.
    - intros k. rewrite Hr3, <-rebase_hidden by done. cbn [db2 with_removals rd_removals].
      rewrite elem_of_union, elem_of_list_to_set, !list_elem_of_fmap. apply or_iff_compat_l.
      split; intros (h & Hh & Hin); exists h; split; try done; destruct k; cbn in *; congruence. }
  unfold assert_inventory_kept. rewrite bool_decide_eq_true_2 by done. cbn [negb]. mred. by exists db3.
Qed.

(** ** What a step may change

    Readers use three columns of a row: its id, its chain root and its base. *)

Definition cols (db : ret_db) (i : string) : option (string * option string * option string) :=
  (λ s, (r_id s, r_chain_root s, r_overlay_base s)) <$> rd_snaps db !! i.

(** The invariants the triggers and the writers of the tables maintain: pointers
    are one level deep and own only sparse rows that were folded into them,
    overlays are one level deep over a full snapshot. *)
Record wf_db (db : ret_db) : Prop := {
  wf_keyed : ∀ i j cr ob, cols db i = Some (j, cr, ob) → j = i;
  wf_unique : unique_items (rd_items db);
  wf_root : ∀ i r ob, cols db i = Some (i, Some r, ob) → ∃ ob', cols db r = Some (r, None, ob');
  wf_pointer : ∀ i r ob, cols db i = Some (i, Some r, ob) →
    ob = None ∧ ∀ p, owns (rd_items db) i p → p_dense p = false;
  wf_overlay : ∀ i cr b, cols db i = Some (i, cr, Some b) → b ≠ i ∧ cols db b = Some (b, None, None);
}.

(** The rows [y] holds, sparse ones aside. *)
Definition keeps (db : ret_db) (y : string) (p : payload) : Prop :=
  ∃ cr ob, cols db y = Some (y, cr, ob) ∧ shows db (default y cr) p ∧ p_dense p = true.

Lemma cols_lookup db i s : rd_snaps db !! i = Some s → cols db i = Some (r_id s, r_chain_root s, r_overlay_base s).
Proof. intros H. unfold cols. by rewrite H. Qed.

Lemma cols_Some db i j cr ob : cols db i = Some (j, cr, ob) →
  ∃ s, rd_snaps db !! i = Some s ∧ r_id s = j ∧ r_chain_root s = cr ∧ r_overlay_base s = ob.
Proof. unfold cols. destruct (rd_snaps db !! i) as [s|]; [|done]. intros [= <- <- <-]. eauto. Qed.

Lemma keeps_effective db y p :
  (∀ j cr ob, cols db y = Some (j, cr, ob) → j = y) →
  keeps db y p ↔ p ∈ payload_of <$> snapshot_items_effective db y ∧ p_dense p = true.
Proof.
  intros Hkey. unfold keeps, snapshot_items_effective, root_id. split.
  - intros (cr & ob & (s & Hs & Hid & <- & _)%cols_Some & Hp & Hd). rewrite Hs, Hid, elem_of_rows. done.
  - intros [Hp Hd]. destruct (rd_snaps db !! y) as [s|] eqn:Hs; [|set_solver].
    pose proof (cols_lookup _ _ _ Hs) as Hc. pose proof (Hkey _ _ _ Hc) as Hid.
    rewrite Hid in Hc, Hp. rewrite elem_of_rows in Hp. eauto.
Qed.

Lemma shows_cols db r p :
  shows db r p ↔ owns (rd_items db) r p ∨
  ∃ j cr base, cols db r = Some (j, cr, Some base) ∧ shows_base (rd_items db) (rd_removals db) r base p.
Proof.
  unfold shows, cols. apply or_iff_compat_l. split.
  - intros (s & base & -> & Hb & Hp). cbn. rewrite Hb. eauto.
  - intros (j & cr & base & Hc & Hp). destruct (rd_snaps db !! r) as [s|]; [|done]. cbn in Hc.
    injection Hc as <- <- Hb. eauto.
Qed.

Lemma dense_key p q : pkey p = pkey q → p_dense p = p_dense q.
Proof. unfold p_dense, p_type. by intros ->. Qed.

Lemma overlay_dense p : p_type p ∈ OVERLAY_TYPES → p_dense p = true.
Proof.
  unfold p_dense. intros H. rewrite bool_decide_eq_false_2; [done|].
  assert (Forall (λ t, bool_decide (t ∉ SPARSE_ITEM_TYPES) = true) OVERLAY_TYPES) as HF
    by (apply forallb_Forall; vm_compute; reflexivity).
  rewrite Forall_forall in HF. apply HF in H. by apply bool_decide_eq_true in H.
Qed.

Lemma owns_key_frame I I' r r' k :
  (∀ q, pkey q = k → p_dense q = true) →
  (∀ q, p_dense q = true → owns I r q ↔ owns I' r' q) →
  owns_key I r k ↔ owns_key I' r' k.
Proof.
  intros Hk Hq. unfold owns_key. split; intros (q & Ho & Hqk); exists q; (split; [|done]); by apply Hq; [apply Hk|].
Qed.

Lemma shows_base_frame I I' R R' r r' base p :
  (∀ q, p_dense q = true → owns I r q ↔ owns I' r' q) →
  (∀ q, p_dense q = true → owns I base q ↔ owns I' base q) →
  (∀ a b, (r, a, b) ∈ R ↔ (r', a, b) ∈ R') →
  shows_base I R r base p ↔ shows_base I' R' r' base p.
Proof.
  intros Hr Hb Hrem. unfold shows_base.
  assert (p_type p ∈ OVERLAY_TYPES → ∀ q, pkey q = pkey p → p_dense q = true) as Hd1.
  { intros Ht q Hq. rewrite (dense_key q p Hq). by apply overlay_dense. }
  assert (∀ q, pkey q = p_parent_key p → p_dense q = true) as Hd2.
  { intros q Hq. by apply overlay_dense, (overlay_parent p q). }
  rewrite !Hrem, (owns_key_frame I I' r r' (p_parent_key p)), (owns_key_frame I I' base base (p_parent_key p)) by done.
  split; intros (Hp & Ht & Hno & Hrest); (split; [by apply Hb; [apply overlay_dense|]|]; split; [done|]; split; [|done]);
    intros Hk; apply Hno; by apply (owns_key_frame I I' r r' (pkey p) (Hd1 Ht) Hr).
Qed.

(** Two tables that agree on the dense rows of [r] and of its base show the same. *)
Lemma shows_frame db db' r r' p :
  p_dense p = true →
  (∀ q, p_dense q = true → owns (rd_items db) r q ↔ owns (rd_items db') r' q) →
  (∀ base, (∃ j cr, cols db r = Some (j, cr, Some base)) ↔ (∃ j cr, cols db' r' = Some (j, cr, Some base))) →
  (∀ j cr base, cols db r = Some (j, cr, Some base) →
     (∀ q, p_dense q = true → owns (rd_items db) base q ↔ owns (rd_items db') base q) ∧
     (∀ a b, (r, a, b) ∈ rd_removals db ↔ (r', a, b) ∈ rd_removals db')) →
  shows db r p ↔ shows db' r' p.
Proof.
  intros Hd Hown Hcols Hrest. rewrite !shows_cols, Hown by done. apply or_iff_compat_l. split.
  - intros (j & cr & base & Hc & Hp). destruct (Hrest _ _ _ Hc) as [Hb Hrem].
    destruct (proj1 (Hcols base)) as (j' & cr' & Hc'); [eauto|]. exists j', cr', base. split; [done|].
    by apply (shows_base_frame _ _ _ _ r r' base p Hown Hb Hrem).
  - intros (j & cr & base & Hc & Hp). destruct (proj2 (Hcols base)) as (j' & cr' & Hc'); [eauto|].
    destruct (Hrest _ _ _ Hc') as [Hb Hrem]. exists j', cr', base. split; [done|].
    by apply (shows_base_frame _ _ _ _ r r' base p Hown Hb Hrem).
Qed.

(** ** Steps that touch one snapshot *)

(** [db'] differs from [db] in rows added to [o], in the removals of [o] and in
    its base, which becomes [nb]. *)
Record surgery (o : string) (nb : option string) (db db' : ret_db) : Prop := {
  sg_items : ∃ rows, rd_items db' = insert_items rows (rd_items db) ∧ ∀ r, r ∈ rows → si_snap r = o;
  sg_removals : ∀ r a b, r ≠ o → (r, a, b) ∈ rd_removals db' ↔ (r, a, b) ∈ rd_removals db;
  sg_cols : ∀ i, cols db' i =
    (λ '(j, cr, ob), (j, cr, if bool_decide (j = o) then nb else ob)) <$> cols db i;
}.

Lemma insert_items_other rows items o s p :
  (∀ r, r ∈ rows → si_snap r = o) → s ≠ o → owns (insert_items rows items) s p ↔ owns items s p.
Proof.
  intros Hrows Hne. unfold insert_items. revert items. induction rows as [|r rows IH]; intros items; cbn [foldl]; [done|].
  rewrite IH by set_solver. destruct (has_row _ _ _ _); [done|]. unfold owns.
  setoid_rewrite elem_of_app. setoid_rewrite list_elem_of_singleton. split; [|naive_solver].
  intros (it & [Hin| ->] & Hs & Hp); [by exists it|]. exfalso. apply Hne. rewrite <-Hs. apply Hrows. set_solver.
Qed.

Lemma surgery_owns o nb db db' s p :
  surgery o nb db db' → s ≠ o → owns (rd_items db') s p ↔ owns (rd_items db) s p.
Proof. intros [(rows & -> & Hrows) _ _] Hne. by apply (insert_items_other _ _ o). Qed.

Lemma surgery_cols o nb db db' i j cr ob :
  surgery o nb db db' → i ≠ o → wf_db db → cols db' i = Some (j, cr, ob) ↔ cols db i = Some (j, cr, ob).
Proof.
  intros Hsg Hne Hwf. rewrite (sg_cols _ _ _ _ Hsg). destruct (cols db i) as [[[j' cr'] ob']|] eqn:Hc; [|done].
  pose proof (wf_keyed _ Hwf _ _ _ _ Hc) as ->. cbn. by rewrite bool_decide_eq_false_2.
Qed.

Section surgery.
  Context (o : string) (nb : option string) (db db' : ret_db).
  Hypothesis Hsg : surgery o nb db db'.
  Hypothesis Hwf : wf_db db.
  Hypothesis Ho : ∃ ob, cols db o = Some (o, None, ob).
  Hypothesis Hnotbase : ∀ i j cr, cols db i ≠ Some (j, cr, Some o).
  Hypothesis Hnb : ∀ b, nb = Some b → b ≠ o ∧ cols db b = Some (b, None, None).

Lemma surgery_frame r p : r ≠ o → p_dense p = true → shows db r p ↔ shows db' r p.
Proof.
  intros Hr Hp. apply shows_frame; [done|..].
  - intros q _. symmetry. by eapply surgery_owns.
  - intros base. by setoid_rewrite (surgery_cols o nb db db' r _ _ _ Hsg Hr Hwf).
  - intros j cr base Hc. assert (base ≠ o) by (intros ->; by eapply Hnotbase). split.
    + intros q _. symmetry. by eapply surgery_owns.
    + intros a b. symmetry. by eapply sg_removals.
Qed.

Lemma surgery_cols_o : cols db' o = Some (o, None, nb).
Proof. destruct Ho as [ob Hob]. rewrite (sg_cols _ _ _ _ Hsg), Hob. cbn. by rewrite bool_decide_eq_true_2. Qed.

Lemma surgery_wf : wf_db db'.
Proof.
  destruct Ho as [ob0 Hob0].
  assert (∀ i j cr ob, cols db' i = Some (j, cr, ob) →
    (i = o ∧ j = o ∧ cr = None ∧ ob = nb) ∨ (i ≠ o ∧ cols db i = Some (j, cr, ob))) as Hinv.
  { intros i j cr ob Hc. destruct (decide (i = o)) as [->|Hi].
    - left. rewrite surgery_cols_o in Hc. naive_solver.
    - right. split; [done|]. by rewrite <-surgery_cols. }
  assert (∀ i ob, cols db i = Some (i, None, ob) → i ≠ o → cols db' i = Some (i, None, ob)) as Hfwd
    by (intros; by rewrite surgery_cols).
  split.
  - intros i j cr ob [(-> & -> & _)|[_ Hc]]%Hinv; [done|]. by eapply wf_keyed.
  - destruct (sg_items _ _ _ _ Hsg) as (rows & -> & _). apply insert_items_unique, Hwf.
  - intros i r ob [(_ & _ & [=] & _)|[Hi Hc]]%Hinv. destruct (wf_root _ Hwf _ _ _ Hc) as [ob' Hr].
    destruct (decide (r = o)) as [->|]; [exists nb; apply surgery_cols_o|eauto].
  - intros i r ob [(_ & _ & [=] & _)|[Hi Hc]]%Hinv. destruct (wf_pointer _ Hwf _ _ _ Hc) as [-> Hp].
    split; [done|]. intros p. rewrite surgery_owns by done. apply Hp.
  - intros i cr b [(-> & _ & -> & Hb)|[Hi Hc]]%Hinv.
    + destruct (Hnb b) as [Hne Hcb]; [done|]. split; [done|]. by apply Hfwd.
    + destruct (wf_overlay _ Hwf _ _ _ Hc) as [Hne Hcb]. split; [done|].
      apply Hfwd; [done|]. intros ->. by eapply Hnotbase.
Qed.

(** If it also leaves what [o] shows as it was, every snapshot keeps its rows. *)
Lemma surgery_keeps y p :
  (∀ q, shows db o q ↔ shows db' o q) → keeps db y p ↔ keeps db' y p.
Proof.
  intros Hso. unfold keeps.
  assert (∀ r, p_dense p = true → shows db r p ↔ shows db' r p) as Hall.
  { intros r Hd. destruct (decide (r = o)) as [->|]; [done|]. by apply surgery_frame. }
  destruct (decide (y = o)) as [->|Hy].
  - destruct Ho as [ob Hob]. rewrite surgery_cols_o, Hob. split.
    + intros (cr & ob' & [= <- <-] & Hs & Hd). exists None, nb. split_and!; [done|by apply Hall|done].
    + intros (cr & ob' & [= <- <-] & Hs & Hd). exists None, ob. split_and!; [done|by apply Hall|done].
  - setoid_rewrite (surgery_cols o nb db db' y _ _ _ Hsg Hy Hwf). split; intros (cr & ob & Hc & Hs & Hd); exists cr, ob;
      (split_and!; [done|by apply Hall|done]).
Qed.
End surgery.

(** ** The statements as steps *)

Definition same_rows (db db' : ret_db) : Prop :=
  rd_items db' = rd_items db ∧ rd_removals db' = rd_removals db ∧ ∀ i, cols db' i = cols db i.

Lemma update_cols trigger where_ set db db' (f : snap_row → option string * option string) :
  update_snapshots trigger where_ set db = Ok db' →
  (∀ s, r_id (if where_ s then set s else s) = r_id s ∧
        (r_chain_root (if where_ s then set s else s), r_overlay_base (if where_ s then set s else s)) = f s) →
  rd_items db' = rd_items db ∧ rd_removals db' = rd_removals db ∧
  ∀ i, cols db' i = (λ s, (r_id s, (f s).1, (f s).2)) <$> rd_snaps db !! i.
Proof.
  intros [-> _]%update_snapshots_Ok Hf. split_and!; [done..|]. intros i.
  unfold cols. cbn. rewrite lookup_fmap. destruct (rd_snaps db !! i) as [s|]; [|done]. cbn.
  destruct (Hf s) as [-> <-]. done.
Qed.

Lemma update_same_rows trigger where_ set db db' :
  update_snapshots trigger where_ set db = Ok db' →
  (∀ s, r_id (set s) = r_id s ∧ r_chain_root (set s) = r_chain_root s ∧ r_overlay_base (set s) = r_overlay_base s) →
  same_rows db db'.
Proof.
  intros Hu Hset.
  eapply (update_cols _ _ _ _ _ (λ s, (r_chain_root s, r_overlay_base s))) in Hu as (? & ? & Hc).
  - split_and!; [done..|]. intros i. rewrite Hc. done.
  - intros s. destruct (where_ s); [|done]. destruct (Hset s) as (-> & -> & ->). done.
Qed.

Lemma restate_same_rows sid db db' : restate_counts sid db = Ok db' → same_rows db db'.
Proof. intros H. eapply update_same_rows; [exact H|]. done. Qed.

Lemma same_rows_trans db1 db2 db3 : same_rows db1 db2 → same_rows db2 db3 → same_rows db1 db3.
Proof. intros (? & ? & H1) (? & ? & H2). split_and!; [congruence..|]. intros i. by rewrite H2. Qed.

Lemma same_rows_effective db db' i :
  same_rows db db' → snapshot_items_effective db' i = snapshot_items_effective db i.
Proof.
  intros (Hi & Hr & Hc).
  assert (∀ r, rd_snaps db' !! r ≫= r_overlay_base = rd_snaps db !! r ≫= r_overlay_base) as Hb.
  { intros r. specialize (Hc r). unfold cols in Hc.
    destruct (rd_snaps db' !! r), (rd_snaps db !! r); cbn in *; congruence. }
  assert (∀ r, rows_of db' r = rows_of db r) as Hrows.
  { intros r. unfold rows_of, owned, inherited. by rewrite Hb, Hi, Hr. }
  unfold snapshot_items_effective, root_id. specialize (Hc i). unfold cols in Hc.
  destruct (rd_snaps db' !! i), (rd_snaps db !! i); cbn in *; congruence.
Qed.

Lemma same_rows_fingerprint db db' i :
  same_rows db db' → inventory_fingerprint db' i = inventory_fingerprint db i.
Proof. intros H. unfold inventory_fingerprint. by rewrite (same_rows_effective db db'). Qed.

Lemma same_rows_surgery o nb db db1 db2 : surgery o nb db db1 → same_rows db1 db2 → surgery o nb db db2.
Proof.
  intros [(rows & Hi1 & Hrows) Hr1 Hc1] (Hi & Hr & Hc). split.
  - exists rows. by rewrite Hi.
  - intros. rewrite Hr. by apply Hr1.
  - intros i. rewrite Hc. apply Hc1.
Qed.

(** Setting the base of one row, after rows and removals of that row changed. *)
Lemma set_base_surgery trigger o nb (set : snap_row → snap_row) rows db db1 db2 :
  rd_snaps db1 = rd_snaps db → rd_items db1 = insert_items rows (rd_items db) →
  (∀ r, r ∈ rows → si_snap r = o) →
  (∀ r a b, r ≠ o → (r, a, b) ∈ rd_removals db1 ↔ (r, a, b) ∈ rd_removals db) →
  (∀ s, r_id (set s) = r_id s ∧ r_chain_root (set s) = r_chain_root s ∧ r_overlay_base (set s) = nb) →
  update_snapshots trigger (has_id o) set db1 = Ok db2 → surgery o nb db db2.
Proof.
  intros Hs Hi Hrows Hr Hset Hu.
  eapply (update_cols _ _ _ _ _ (λ s, (r_chain_root s, if has_id o s then nb else r_overlay_base s))) in Hu as (Hi2 & Hr2 & Hc).
  - split.
    + exists rows. by rewrite Hi2.
    + intros. rewrite Hr2. by apply Hr.
    + intros i. rewrite Hc. unfold cols. rewrite Hs. destruct (rd_snaps db !! i); done.
  - intros s. destruct (has_id o s); [|done]. destruct (Hset s) as (-> & -> & ->). done.
Qed.

Lemma assert_kept_Ok db i fp u : assert_inventory_kept db i fp = Ok u → inventory_fingerprint db i = fp.
Proof. unfold assert_inventory_kept. intros H%raise_if_Ok. by bools. Qed.

Lemma rebase_step o base new db db' :
  rebase_overlay o base new db = Ok db' →
  surgery o (Some new) db db' ∧ inventory_fingerprint db' o = inventory_fingerprint db o ∧
  (∀ j cr ob, cols db o = Some (j, cr, ob) → j = o → new ≠ o).
Proof.
  unfold rebase_overlay. cbn zeta. set (db1 := copy_base_rows _ _ _ _). set (db2 := with_removals _ _).
  intros H. inv_ok. subst. split_and!.
  - eapply (set_base_surgery _ _ _ _ _ db db2); [reflexivity|reflexivity| | | |eassumption].
    + intros r (e & -> & _)%list_elem_of_fmap. done.
    + intros r a b Hr. cbn. rewrite elem_of_union, elem_of_list_to_set, list_elem_of_fmap. naive_solver.
    + done.
  - by eapply assert_kept_Ok.
  - intros j cr ob (s & Hs & Hid & _)%cols_Some <- ->.
    match goal with H : update_snapshots _ _ _ _ = _ |- _ => apply update_snapshots_Ok in H as [_ Ht] end.
    specialize (Ht _ s Hs). unfold has_id, validate_overlay in Ht. rewrite Hid, bool_decide_eq_true_2 in Ht by done.
    specialize (Ht eq_refl). cbn in Ht. apply bind_Ok in Ht as (_ & _ & Ht%raise_if_Ok).
    rewrite Hid in Ht. destruct (rd_snaps db !! _); [|done].
    rewrite (bool_decide_eq_false_2 (_ ≠ _)) in Ht by auto. done.
Qed.

Lemma materialise_step o base db db' :
  materialise_overlay o base db = Ok db' →
  surgery o None db db' ∧ inventory_fingerprint db' o = inventory_fingerprint db o.
Proof.
  unfold materialise_overlay. cbn zeta. set (db1 := copy_base_rows _ _ _ _). set (db2 := with_removals _ _).
  intros H. inv_ok.
  match goal with H : restate_counts _ _ = _ |- _ => apply restate_same_rows in H as Hsame end. split.
  - eapply same_rows_surgery; [|exact Hsame].
    eapply (set_base_surgery _ _ _ _ _ db db2); [reflexivity|reflexivity| | | |eassumption].
    + intros r (e & -> & _)%list_elem_of_fmap. done.
    + intros r a b Hr. cbn. rewrite elem_of_filter. cbn. naive_solver.
    + done.
  - rewrite (same_rows_fingerprint _ _ _ Hsame). by eapply assert_kept_Ok.
Qed.

Lemma hand_over_step did heir base db db' :
  hand_over_overlay did heir base db = Ok db' →
  surgery heir (Some base) db db' ∧ inventory_fingerprint db' heir = inventory_fingerprint db did.
Proof.
  unfold hand_over_overlay. cbn zeta. set (db2 := with_removals _ _).
  intros H. inv_ok.
  match goal with H : restate_counts _ _ = _ |- _ => apply restate_same_rows in H as Hsame end. split.
  - eapply same_rows_surgery; [|exact Hsame].
    eapply (set_base_surgery _ _ _ _ [] db db2); [reflexivity|reflexivity|set_solver| | |eassumption].
    + intros r a b Hr. cbn. rewrite elem_of_union, elem_of_map. naive_solver.
    + done.
  - rewrite (same_rows_fingerprint _ _ _ Hsame). by eapply assert_kept_Ok.
Qed.

Lemma fingerprint_shows db db' i i' ob ob' :
  wf_db db → wf_db db' → cols db i = Some (i, None, ob) → cols db' i' = Some (i', None, ob') →
  inventory_fingerprint db' i' = inventory_fingerprint db i → ∀ q, shows db i q ↔ shows db' i' q.
Proof.
  intros Hwf Hwf' Hc Hc' Hfp.
  assert (∀ d j o, wf_db d → cols d j = Some (j, None, o) →
    snapshot_items_effective d j = rows_of d j ∧ NoDup (payload_of <$> rows_of d j)) as Hrows.
  { intros d j o Hd (s & Hs & Hid & Hcr & Hob)%cols_Some. split.
    - unfold snapshot_items_effective, root_id. by rewrite Hs, Hcr, Hid.
    - apply rows_of_NoDup; [apply Hd|]. intros t Ht Hbase. rewrite Hs in Ht. apply (inj Some) in Ht as <-.
      destruct (wf_overlay _ Hd j (r_chain_root s) j) as [? _]; [|done]. unfold cols. rewrite Hs. cbn. by rewrite Hid, Hbase. }
  destruct (Hrows _ _ _ Hwf Hc) as [He Hn], (Hrows _ _ _ Hwf' Hc') as [He' Hn'].
  unfold inventory_fingerprint in Hfp. rewrite He, He' in Hfp. by apply fingerprint_iff.
Qed.

Lemma overlay_not_base db o cr b : wf_db db → cols db o = Some (o, cr, Some b) → ∀ i j cr', cols db i ≠ Some (j, cr', Some o).
Proof.
  intros Hwf Ho i j cr' Hi. pose proof (wf_keyed _ Hwf _ _ _ _ Hi) as ->.
  destruct (wf_overlay _ Hwf _ _ _ Hi) as [_ Ho']. congruence.
Qed.

Lemma pointer_not_base db o r ob : wf_db db → cols db o = Some (o, Some r, ob) → ∀ i j cr', cols db i ≠ Some (j, cr', Some o).
Proof.
  intros Hwf Ho i j cr' Hi. pose proof (wf_keyed _ Hwf _ _ _ _ Hi) as ->.
  destruct (wf_overlay _ Hwf _ _ _ Hi) as [_ Ho']. congruence.
Qed.

(** [db'] keeps the rows of every snapshot of [db]. *)
Definition all_keep (db db' : ret_db) : Prop :=
  ∀ y p, keeps db y p ↔ keeps db' y p.

Lemma overlay_surgery o nb db db' b :
  wf_db db → cols db o = Some (o, None, Some b) → surgery o nb db db' →
  inventory_fingerprint db' o = inventory_fingerprint db o →
  (∀ b, nb = Some b → b ≠ o ∧ cols db b = Some (b, None, None)) →
  wf_db db' ∧ all_keep db db'.
Proof.
  intros Hwf Ho Hsg Hfp Hnb. pose proof (overlay_not_base _ _ _ _ Hwf Ho) as Hno.
  assert (wf_db db') as Hwf' by (eapply surgery_wf; eauto).
  split; [done|]. intros y p. eapply surgery_keeps; eauto.
  eapply fingerprint_shows; [done..|exact Ho| |done]. eapply surgery_cols_o; eauto.
Qed.

Lemma rebase_all_keeps os base new db db' :
  rebase_all os base new db = Ok db' → wf_db db → cols db new = Some (new, None, None) →
  (∀ o, o ∈ os → o = new ∨ ∃ b, cols db o = Some (o, None, Some b)) →
  wf_db db' ∧ all_keep db db'.
Proof.
  revert db. induction os as [|o os IH]; intros db; cbn [rebase_all].
  { intros [= <-] Hwf _ _. split; [done|]. intros y p. done. }
  intros H Hwf Hnew Hos. apply bind_Ok in H as (db1 & Hre & Hrest).
  destruct (rebase_step _ _ _ _ _ Hre) as (Hsg & Hfp & Hne).
  destruct (Hos o ltac:(set_solver)) as [->|[b Hb]]; [by destruct (Hne _ _ _ Hnew eq_refl)|].
  specialize (Hne _ _ _ Hb eq_refl).
  destruct (overlay_surgery o (Some new) db db1 b Hwf Hb Hsg Hfp) as [Hwf1 Hk1]; [naive_solver|].
  destruct (IH db1 Hrest Hwf1) as [Hwf' Hk'].
  - by rewrite (surgery_cols o (Some new) db db1).
  - intros o' Ho'. destruct (decide (o' = o)) as [->|Hoo].
    + right. exists new. eapply surgery_cols_o; eauto.
    + destruct (Hos o' ltac:(set_solver)) as [?|[b' Hb']]; [by left|]. right. exists b'.
      by rewrite (surgery_cols o (Some new) db db1).
  - split; [done|]. intros y p. rewrite (Hk1 y p). apply Hk'.
Qed.

(** ** The heir of a doomed chain root *)

Definition heir_cols (did heir : string) (c : string * option string * option string) :=
  let '(j, cr, ob) := c in
  (j, if bool_decide (j = heir) then None else if bool_decide (cr = Some did) then Some heir else cr, ob).

Lemma heir_step stamp did doomed db db' oh :
  wf_db db → rehydrate_reuse_heir stamp did doomed db = Ok (db', oh) →
  (oh = None ∧ db' = db) ∨
  ∃ heir ob, oh = Some heir ∧ (heir ∉ doomed) ∧ heir ≠ did ∧ cols db heir = Some (heir, Some did, ob) ∧
    rd_items db' = insert_items (move_to heir <$> owned db did) (rd_items db) ∧
    rd_removals db' = rd_removals db ∧ ∀ i, cols db' i = heir_cols did heir <$> cols db i.
Proof.
  intros Hwf. unfold rehydrate_reuse_heir.
  destruct (head (merge_sort _ _)) as [h|] eqn:Hh; [|intros [= <- <-]; by left].
  destruct (rd_snaps db !! did) as [d|] eqn:Hd; [|intros [= <- <-]; by left].
  assert (h ∈ filter (heir_candidate did doomed) (map_to_list (rd_snaps db)).*2) as Hin.
  { rewrite <-(merge_sort_Permutation by_run_at). by apply list.head_Some_elem_of. }
  apply elem_of_rows_where in Hin as [Hc [i Hi]]. unfold heir_candidate in Hc. bools.
  pose proof (cols_lookup _ _ _ Hi) as Hcols. pose proof (wf_keyed _ Hwf _ _ _ _ Hcols) as Hid.
  cbn zeta. intros Hrun. apply bind_Ok in Hrun as (db2 & Hu2 & Hrun).
  apply bind_Ok in Hrun as (db3 & Hu3 & Hrun). apply bind_Ok in Hrun as (db4 & Hu4 & Hrun).
  apply bind_Ok in Hrun as (db5 & Hu5 & [= <- <-]).
  right. exists (r_id h), (r_overlay_base h). split; [done|]. split; [done|]. split; [done|].
  split; [by rewrite Hid in Hcols |- *; congruence|].
  eapply update_same_rows in Hu2 as (Hi2 & Hr2 & Hc2); [|done].
  eapply (update_cols _ _ _ _ _ (λ s, (if has_id (r_id h) s then None else r_chain_root s, r_overlay_base s)))
    in Hu3 as (Hi3 & Hr3 & Hc3); [|intros s; by destruct (has_id _ s)].
  apply restate_same_rows in Hu4 as (Hi4 & Hr4 & Hc4).
  eapply (update_cols _ _ _ _ _ (λ s, (if bool_decide (r_chain_root s = Some did) && negb (has_id (r_id h) s)
      then Some (r_id h) else r_chain_root s, r_overlay_base s)))
    in Hu5 as (Hi5 & Hr5 & Hc5); [|intros s; by destruct (_ && _)].
  split; [by rewrite Hi5, Hi4, Hi3, Hi2|]. split; [by rewrite Hr5, Hr4, Hr3, Hr2|].
  intros k. rewrite Hc5. specialize (Hc4 k). specialize (Hc3 k). specialize (Hc2 k).
  unfold cols in Hc2, Hc3, Hc4 |- *. cbn [with_chats with_items rd_snaps] in Hc2.
  destruct (rd_snaps db4 !! k) as [s4|], (rd_snaps db2 !! k) as [s2|], (rd_snaps db3 !! k) as [s3|],
    (rd_snaps db !! k) as [s|]; cbn in *; try done.
  rewrite Hc3 in Hc4. injection Hc4 as E1 E2 E3. injection Hc2 as F1 F2 F3. injection Hc3 as G1 G2 G3.
  unfold has_id in *. rewrite E1, E2, E3, F1, F2, F3.
  do 2 f_equal. destruct (bool_decide (r_id s = r_id h)) eqn:E; cbn; [by rewrite andb_false_r|].
  rewrite andb_true_r. done.
Qed.

Section heir.
  Context (did heir : string) (ob : option string) (db db1 : ret_db).
  Hypothesis Hwf : wf_db db.
  Hypothesis Hne : heir ≠ did.
  Hypothesis Hheir : cols db heir = Some (heir, Some did, ob).
  Hypothesis Hitems : rd_items db1 = insert_items (move_to heir <$> owned db did) (rd_items db).
  Hypothesis Hrem : rd_removals db1 = rd_removals db.
  Hypothesis Hcols : ∀ i, cols db1 i = heir_cols did heir <$> cols db i.

Lemma heir_other_owns s p : s ≠ heir → owns (rd_items db1) s p ↔ owns (rd_items db) s p.
Proof.
  intros Hs. rewrite Hitems. apply (insert_items_other _ _ heir); [|done].
  intros r (e & -> & _)%list_elem_of_fmap. done.
Qed.

Lemma heir_owns p :
  p_dense p = true → owns (rd_items db1) heir p ↔ owns (rd_items db) did p.
Proof.
  intros Hd. destruct (wf_pointer _ Hwf _ _ _ Hheir) as [_ Hsparse]. rewrite Hitems, insert_items_owns.
  - rewrite owns_move_to, elem_of_owned. split.
    + intros [Ho|(_ & _ & Ho)]; [|done]. apply Hsparse in Ho. congruence.
    + intros Ho. right. split_and!; [|done..]. intros (q & Hq & Hk). apply Hsparse in Hq.
      rewrite (dense_key q p Hk) in Hq. congruence.
  - apply NoDup_move_to; [apply NoDup_owned, Hwf|]. intros a b Ha Hb Hk.
    apply (owns_unique (rd_items db) did); [apply Hwf| | |done].
    + rewrite <-elem_of_owned. by apply list_elem_of_fmap_2.
    + rewrite <-elem_of_owned. by apply list_elem_of_fmap_2.
Qed.

(** Rows that are no pointers keep their columns, and the heir becomes one. *)
Lemma heir_root_cols i o : cols db i = Some (i, None, o) → cols db1 i = Some (i, None, o).
Proof.
  intros Hi. rewrite Hcols, Hi. cbn. destruct (decide (i = heir)) as [->|]; [congruence|].
  by rewrite bool_decide_eq_false_2.
Qed.

Lemma heir_cols_heir : cols db1 heir = Some (heir, None, None).
Proof.
  rewrite Hcols, Hheir. cbn. rewrite bool_decide_eq_true_2 by done.
  by destruct (wf_pointer _ Hwf _ _ _ Hheir) as [-> _].
Qed.

Lemma heir_pointer_cols i r o :
  i ≠ heir → cols db i = Some (i, Some r, o) →
  cols db1 i = Some (i, Some (if bool_decide (r = did) then heir else r), o).
Proof.
  intros Hi Hc. rewrite Hcols, Hc. cbn. rewrite bool_decide_eq_false_2 by done.
  destruct (decide (r = did)) as [->|]; [by rewrite !bool_decide_eq_true_2|].
  by rewrite !bool_decide_eq_false_2 by congruence.
Qed.

Lemma heir_inv i j cr o :
  cols db1 i = Some (j, cr, o) →
  (i = heir ∧ j = heir ∧ cr = None ∧ o = None) ∨
  (i ≠ heir ∧ ∃ cr', cols db i = Some (j, cr', o) ∧ j = i ∧
     cr = if bool_decide (cr' = Some did) then Some heir else cr').
Proof.
  intros Hc. destruct (decide (i = heir)) as [->|Hi].
  { left. rewrite heir_cols_heir in Hc. naive_solver. }
  right. split; [done|]. rewrite Hcols in Hc. destruct (cols db i) as [[[j' cr'] o']|] eqn:Hd; [|done].
  pose proof (wf_keyed _ Hwf _ _ _ _ Hd) as ->. cbn in Hc. rewrite bool_decide_eq_false_2 in Hc by done.
  injection Hc as <- <- <-. by exists cr'.
Qed.

Lemma heir_frame r o p :
  cols db r = Some (r, None, o) → p_dense p = true → shows db r p ↔ shows db1 r p.
Proof.
  intros Hr Hp. pose proof (heir_root_cols _ _ Hr) as Hr1.
  assert (r ≠ heir) by congruence. apply shows_frame; [done|..].
  - intros q _. by rewrite heir_other_owns.
  - intros base. rewrite Hr, Hr1. done.
  - intros j cr base Hb. rewrite Hr in Hb. injection Hb as <- <- ->.
    destruct (wf_overlay _ Hwf _ _ _ Hr) as [_ Hbase]. assert (base ≠ heir) by congruence. split.
    + intros q _. by rewrite heir_other_owns.
    + intros a b. by rewrite Hrem.
Qed.

Lemma heir_wf : wf_db db1.
Proof.
  split.
  - intros i j cr o [(-> & -> & _)|(_ & cr' & _ & -> & _)]%heir_inv; done.
  - rewrite Hitems. apply insert_items_unique, Hwf.
  - intros i r o [(_ & _ & [=] & _)|(Hi & cr' & Hc & _ & Hcr)]%heir_inv. case_bool_decide.
    + injection Hcr as ->. exists None. apply heir_cols_heir.
    + subst cr'. destruct (wf_root _ Hwf _ _ _ Hc) as [o' Hr]. exists o'. by apply heir_root_cols.
  - intros i r o [(_ & _ & [=] & _)|(Hi & cr' & Hc & _ & Hcr)]%heir_inv.
    assert (∃ r', cr' = Some r') as [r' ->] by (case_bool_decide; eauto).
    destruct (wf_pointer _ Hwf _ _ _ Hc) as [-> Hs]. split; [done|]. intros p. rewrite heir_other_owns by done. apply Hs.
  - intros i cr b [(-> & _ & _ & [=])|(Hi & cr' & Hc & _ & _)]%heir_inv.
    destruct (wf_overlay _ Hwf _ _ _ Hc) as [Hbi Hb]. split; [done|]. by apply heir_root_cols.
Qed.

(** The root a surviving snapshot reads from: the heir takes the doomed one's place. *)
Lemma heir_keeps (db2 : ret_db) y p :
  y ≠ did → (∀ i cr, (∃ o, cols db2 i = Some (i, cr, o)) ↔ ∃ o, cols db1 i = Some (i, cr, o)) →
  (∀ q, p_dense q = true → shows db did q ↔ shows db2 heir q) →
  (∀ r o q, cols db r = Some (r, None, o) → r ≠ did → p_dense q = true → shows db r q ↔ shows db2 r q) →
  keeps db y p ↔ keeps db2 y p.
Proof.
  intros Hy Hc2 Hh Hother. unfold keeps.
  assert (∀ cr, (∃ o, cols db2 y = Some (y, cr, o) ∧ shows db2 (default y cr) p ∧ p_dense p = true) ↔
    (∃ o, cols db1 y = Some (y, cr, o)) ∧ shows db2 (default y cr) p ∧ p_dense p = true) as Hsplit.
  { intros cr. rewrite <-Hc2. naive_solver. }
  setoid_rewrite Hsplit. split.
  - intros ([r|] & o & Hc & Hs & Hd); cbn [default] in *.
    + destruct (decide (y = heir)) as [->|Hyh].
      { exists None. rewrite Hheir in Hc. injection Hc as <- <-. cbn.
        split; [eexists; apply heir_cols_heir|]. by rewrite <-Hh. }
      exists (Some (if bool_decide (r = did) then heir else r)).
      split; [eexists; by apply heir_pointer_cols|]. split; [|done]. cbn.
      destruct (wf_root _ Hwf _ _ _ Hc) as [o' Hr]. case_bool_decide as E; [subst; by rewrite <-Hh|].
      by rewrite <-(Hother r o' p).
    + exists None. split; [eexists; by apply heir_root_cols|]. split; [|done]. cbn. by rewrite <-(Hother y o p).
  - intros (cr & [o Hc] & Hs & Hd). apply heir_inv in Hc as [(-> & _ & -> & ->)|(Hyh & cr' & Hc & _ & ->)].
    + exists (Some did), ob. split; [done|]. split; [|done]. by apply Hh.
    + exists cr', o. split; [done|]. split; [|done]. case_bool_decide as E; [subst; by apply Hh|].
      destruct cr' as [r|]; cbn in *.
      * destruct (wf_root _ Hwf _ _ _ Hc) as [o' Hr]. apply (Hother r o'); congruence || done.
      * by apply (Hother y o).
Qed.
End heir.

Lemma surviving_overlays_cols did doomed db o :
  wf_db db → o ∈ surviving_overlays did doomed db → cols db o = Some (o, None, Some did) ∧ o ∉ doomed.
Proof.
  intros Hwf. unfold surviving_overlays. rewrite list_elem_of_fmap.
  intros (s & -> & Hin). rewrite merge_sort_Permutation in Hin. apply elem_of_rows_where in Hin as [Hb [i Hi]]. bools.
  pose proof (cols_lookup _ _ _ Hi) as Hc. pose proof (wf_keyed _ Hwf _ _ _ _ Hc) as Hid.
  split; [|done]. rewrite Hid in Hc |- *. match goal with H : r_overlay_base s = _ |- _ => rewrite H in Hc end.
  destruct (r_chain_root s) as [r|]; [|done]. by destruct (wf_pointer _ Hwf _ _ _ Hc) as [[=] _].
Qed.

(** The overlays of a doomed full snapshot that has no pointer heir. *)
Lemma overlays_without_heir did doomed db db' :
  wf_db db → rehydrate_overlay_dependents did None doomed db = Ok db' → wf_db db' ∧ all_keep db db'.
Proof.
  intros Hwf. unfold rehydrate_overlay_dependents.
  destruct (rd_snaps db !! did) as [d|]; [|intros [= <-]; by split].
  destruct (r_overlay_base d); [intros [= <-]; by split|].
  pose proof (surviving_overlays_cols did doomed db) as Hsurv.
  destruct (surviving_overlays did doomed db) as [|o os]; [intros [= <-]; by split|].
  intros H. apply bind_Ok in H as (db1 & Hm & Hre). apply materialise_step in Hm as [Hsg Hfp].
  destruct (Hsurv o Hwf ltac:(set_solver)) as [Ho _].
  destruct (overlay_surgery o None db db1 did Hwf Ho Hsg Hfp) as [Hwf1 Hk1]; [done|].
  destruct (rebase_all_keeps os did o db1 db' Hre Hwf1) as [Hwf' Hk'].
  - eapply surgery_cols_o; eauto.
  - intros o' Ho'. destruct (decide (o' = o)) as [->|]; [by left|]. right. exists did.
    rewrite (surgery_cols o None db db1) by done. by apply Hsurv; [|set_solver].
  - split; [done|]. intros y p. rewrite (Hk1 y p). apply Hk'.
Qed.

Lemma rehydrate_one stamp did doomed db db1 oh db2 :
  wf_db db → did ∈ doomed → rehydrate_reuse_heir stamp did doomed db = Ok (db1, oh) →
  rehydrate_overlay_dependents did oh doomed db1 = Ok db2 →
  wf_db db2 ∧ ∀ y p, y ≠ did → keeps db y p ↔ keeps db2 y p.
Proof.
  intros Hwf Hin Hheir Hover. apply heir_step in Hheir as [[-> ->]|Hheir]; [| |done].
  { apply overlays_without_heir in Hover as [? Hk]; [|done]. split; [done|]. intros y p _. apply Hk. }
  destruct Hheir as (heir & ob & -> & Hnd & Hne & Hc & Hi & Hr & Hcols).
  assert (wf_db db1) as Hwf1 by (by eapply (heir_wf did heir ob db db1)).
  assert (cols db1 heir = Some (heir, None, None)) as Hch by (by eapply (heir_cols_heir did heir ob db db1)).
  destruct (wf_root _ Hwf _ _ _ Hc) as [od Hd].
  assert (cols db1 did = Some (did, None, od)) as Hd1 by (by eapply (heir_root_cols did heir ob db db1)).
  unfold rehydrate_overlay_dependents in Hover. destruct (cols_Some _ _ _ _ _ Hd1) as (d & Hsd & _ & _ & Hod).
  rewrite Hsd, Hod in Hover. destruct od as [base|].
  - apply hand_over_step in Hover as [Hsg Hfp].
    assert (∀ i j cr, cols db1 i ≠ Some (j, cr, Some heir)) as Hnb.
    { intros i j cr Hj. pose proof (wf_keyed _ Hwf1 _ _ _ _ Hj) as ->.
      eapply (heir_inv did heir ob db db1) in Hj as [(_ & _ & _ & [=])|(_ & cr' & Hj & _)]; [|done..].
      by eapply (pointer_not_base db heir). }
    destruct (wf_overlay _ Hwf _ _ _ Hd) as [Hbd Hb].
    assert (cols db1 base = Some (base, None, None)) as Hb1 by (by eapply (heir_root_cols did heir ob db db1)).
    assert (∀ b, Some base = Some b → b ≠ heir ∧ cols db1 b = Some (b, None, None)) as Hbase
      by (intros b [= <-]; split; [congruence|done]).
    assert (wf_db db2) as Hwf2 by (eapply surgery_wf; eauto).
    split; [done|]. intros y p Hy. eapply (heir_keeps did heir ob db db1); try done.
    + intros i cr. rewrite (sg_cols _ _ _ _ Hsg). destruct (cols db1 i) as [[[j cr'] o']|]; cbn; naive_solver.
    + intros q Hq. rewrite (heir_frame did heir ob db db1) by done.
      eapply fingerprint_shows; [done..|exact Hd1| |done]. eapply surgery_cols_o; eauto.
    + intros r o q Hro Hrd Hq. rewrite (heir_frame did heir ob db db1) by done.
      eapply surgery_frame; eauto. congruence.
  - assert (wf_db db2 ∧ all_keep db1 db2) as [Hwf2 Hk2].
    { pose proof (surviving_overlays_cols did doomed db1) as Hsurv.
      destruct (surviving_overlays did doomed db1) as [|o os] eqn:Hs; [injection Hover as <-; by split|].
      eapply (rebase_all_keeps (o :: os)); [exact Hover|done..|]. intros o' Ho'. right. exists did. by apply Hsurv. }
    split; [done|]. intros y p Hy. rewrite <-(Hk2 y p). eapply (heir_keeps did heir ob db db1); try done.
    + intros q Hq. rewrite !shows_cols, Hd, Hch, (heir_owns did heir ob db db1) by done. naive_solver.
    + intros r o q Hro Hrd Hq. by eapply (heir_frame did heir ob db db1).
Qed.

Lemma rehydrate_all_keeps stamp sids doomed db db' :
  wf_db db → (∀ i, i ∈ sids → i ∈ doomed) → rehydrate_all stamp sids doomed db = Ok db' →
  wf_db db' ∧ ∀ y p, y ∉ sids → keeps db y p ↔ keeps db' y p.
Proof.
  revert db. induction sids as [|sid sids IH]; intros db Hwf Hd; cbn [rehydrate_all].
  { intros [= <-]. by split. }
  intros H. apply bind_Ok in H as ([db1 oh] & Hh & H). apply bind_Ok in H as (db2 & Ho & H).
  destruct (rehydrate_one stamp sid doomed db db1 oh db2) as [Hwf2 Hk2]; [set_solver..|done|done|].
  destruct (IH db2 Hwf2 ltac:(set_solver) H) as [Hwf' Hk']. split; [done|].
  intros y p Hy. rewrite Hk2 by set_solver. apply Hk'. set_solver.
Qed.

(** No step of the hand-over adds or removes a snapshot. *)
Definition same_ids (db db' : ret_db) : Prop := ∀ i, is_Some (cols db' i) ↔ is_Some (cols db i).

Lemma surgery_ids o nb db db' : surgery o nb db db' → same_ids db db'.
Proof. intros Hsg i. by rewrite (sg_cols _ _ _ _ Hsg), fmap_is_Some. Qed.

Lemma rebase_all_ids os base new db db' : rebase_all os base new db = Ok db' → same_ids db db'.
Proof.
  revert db. induction os as [|o os IH]; intros db; cbn [rebase_all]; [by intros [= <-]|].
  intros H. apply bind_Ok in H as (db1 & Hre & Hrest). apply rebase_step in Hre as [Hsg _].
  intros i. rewrite (IH _ Hrest i). by apply (surgery_ids o (Some new)).
Qed.

Lemma overlay_dependents_ids did oh doomed db db' :
  rehydrate_overlay_dependents did oh doomed db = Ok db' → same_ids db db'.
Proof.
  unfold rehydrate_overlay_dependents.
  destruct (rd_snaps db !! did) as [d|]; [|by intros [= <-]].
  destruct (r_overlay_base d) as [base|].
  - destruct oh as [h|]; [|by intros [= <-]]. intros [Hsg _]%hand_over_step. by eapply surgery_ids.
  - destruct (surviving_overlays did doomed db) as [|o os]; [by intros [= <-]|].
    destruct oh as [h|]; [apply (rebase_all_ids (o :: os))|].
    intros H. apply bind_Ok in H as (db1 & [Hsg _]%materialise_step & Hrest). intros i.
    rewrite (rebase_all_ids _ _ _ _ _ Hrest i). by eapply surgery_ids.
Qed.

Lemma rehydrate_all_ids stamp sids doomed db db' :
  wf_db db → (∀ i, i ∈ sids → i ∈ doomed) → rehydrate_all stamp sids doomed db = Ok db' → same_ids db db'.
Proof.
  revert db. induction sids as [|sid sids IH]; intros db Hwf Hd; cbn [rehydrate_all]; [by intros [= <-]|].
  intros H. apply bind_Ok in H as ([db1 oh] & Hh & H). apply bind_Ok in H as (db2 & Ho & H).
  destruct (rehydrate_one stamp sid doomed db db1 oh db2) as [Hwf2 _]; [set_solver..|done|done|].
  intros i. rewrite (IH db2 Hwf2 ltac:(set_solver) H i), (overlay_dependents_ids _ _ _ _ _ Ho i).
  apply heir_step in Hh as [[_ ->]|(h & ob & _ & _ & _ & _ & _ & _ & Hc)]; [done| |done].
  by rewrite Hc, fmap_is_Some.
Qed.

(** ** The folds and the delete *)

(** Tables that agree on everything but sparse rows. *)
Definition dense_same (db db' : ret_db) : Prop :=
  rd_removals db' = rd_removals db ∧ (∀ i, cols db' i = cols db i) ∧
  ∀ s p, p_dense p = true → owns (rd_items db') s p ↔ owns (rd_items db) s p.

Lemma dense_same_keeps db db' y p : dense_same db db' → keeps db y p ↔ keeps db' y p.
Proof.
  intros (Hr & Hc & Ho). unfold keeps. setoid_rewrite Hc.
  split; intros (cr & ob & Hcy & Hs & Hd); exists cr, ob; (split; [done|]; split; [|done]);
    revert Hs; apply shows_frame; try done; intros; rewrite ?Hc, ?Hr, ?Ho by done; try done.
  all: split; intros; rewrite ?Hr, ?Ho by done; done.
Qed.

Lemma dense_same_trans db1 db2 db3 : dense_same db1 db2 → dense_same db2 db3 → dense_same db1 db3.
Proof.
  intros (Hr & Hc & Ho) (Hr' & Hc' & Ho'). split_and!; [congruence|intros; by rewrite Hc', Hc|].
  intros s p Hp. by rewrite Ho', Ho.
Qed.

Lemma sparse_payload it : p_dense (payload_of it) = negb (is_sparse it).
Proof. done. Qed.

Lemma owns_cons it l s p : owns (it :: l) s p ↔ (si_snap it = s ∧ payload_of it = p) ∨ owns l s p.
Proof. unfold owns. setoid_rewrite elem_of_cons. naive_solver. Qed.

Lemma fold_batch_dense all sid keeper window n items s p :
  p_dense p = true → owns (fold_batch all sid keeper window n items) s p ↔ owns items s p.
Proof.
  intros Hp. revert n. induction items as [|it items IH]; intros n; cbn [fold_batch]; [done|].
  destruct (bool_decide (si_snap it = sid) && is_sparse it) eqn:E.
  - assert (payload_of it ≠ p) as Hne.
    { intros <-. rewrite sparse_payload in Hp. bools. congruence. }
    destruct n as [|n]; [done|]. destruct (superseded all window it); rewrite ?owns_cons, IH; [naive_solver|].
    split; [|naive_solver]. intros [[_ Hq]|?]; [by destruct Hne|by right].
  - by rewrite !owns_cons, IH.
Qed.

Lemma fold_loop_dense fuel batch sid keeper window items rows bytes items' rows' bytes' s p :
  fold_loop fuel batch sid keeper window items rows bytes = Some (items', rows', bytes') →
  p_dense p = true → owns items' s p ↔ owns items s p.
Proof.
  revert items rows bytes. induction fuel as [|fuel IH]; intros items rows bytes; cbn [fold_loop]; [done|].
  cbn zeta. destruct (_ <? _)%nat.
  - intros [= <- _ _] Hp. by apply fold_batch_dense.
  - intros H Hp. rewrite (IH _ _ _ H Hp). by apply fold_batch_dense.
Qed.

Lemma fold_all_dense batch folds db db' : fold_all batch folds db = Ok db' → dense_same db db'.
Proof.
  revert db. induction folds as [|[sid [keeper window]] folds IH]; intros db; cbn [fold_all].
  { intros [= <-]. by split_and!. }
  intros H. apply bind_Ok in H as (db1 & Hf & H). eapply dense_same_trans; [|by apply IH].
  unfold fold_sparse_rows in Hf. destruct (fold_loop _ _ _ _ _ _ _ _) as [[[items rows] bytes]|] eqn:Hl;
    [|injection Hf as <-; by split_and!].
  assert (dense_same db (with_items (λ _, items) db)) as Hd.
  { split_and!; [done..|]. intros s p. by eapply fold_loop_dense. }
  destruct (rows =? 0); [by injection Hf as <-|].
  apply update_same_rows in Hf as (Hi & Hr & Hc); [|done]. eapply dense_same_trans; [exact Hd|].
  split_and!; [done..|]. by rewrite Hi.
Qed.

Lemma drop_snapshots_keeps sids db db' y p :
  drop_snapshots sids db = Ok db' → y ∉ sids → keeps db y p ↔ keeps db' y p.
Proof.
  unfold drop_snapshots. cbn zeta. intros H Hy. apply bind_Ok in H as (_ & Hfk%raise_if_Ok & [= <-]).
  set (snaps' := filter _ (rd_snaps db)) in *.
  assert (∀ i s, snaps' !! i = Some s ↔ rd_snaps db !! i = Some s ∧ i ∉ sids) as Hlook.
  { intros i s. unfold snaps'. rewrite map_lookup_filter_Some, Is_true_true, negb_true_iff, bool_decide_eq_false. done. }
  assert (∀ i s j, rd_snaps db !! i = Some s → i ∉ sids → references s j = true → j ∉ sids) as Href.
  { intros i s j Hi Hni Hj Hjs. apply not_true_iff_false in Hfk. apply Hfk, existsb_elem. exists s. split.
    - apply list_elem_of_fmap. exists (i, s). split; [done|]. apply elem_of_map_to_list, Hlook. done.
    - apply existsb_elem. by exists j. }
  set (db' := RetDb _ _ _ _ _ _).
  assert (∀ i, i ∉ sids → cols db' i = cols db i) as Hc.
  { intros i Hi. unfold cols. cbn. f_equal. apply option_eq. intros s. rewrite Hlook. tauto. }
  assert (∀ s q, s ∉ sids → owns (rd_items db) s q ↔ owns (rd_items db') s q) as Ho.
  { intros s q Hs. unfold owns. cbn. setoid_rewrite list_elem_of_filter. setoid_rewrite Is_true_true.
    setoid_rewrite negb_true_iff. setoid_rewrite bool_decide_eq_false. naive_solver. }
  assert (∀ r, r ∉ sids → p_dense p = true → shows db r p ↔ shows db' r p) as Hshow.
  { intros r Hr Hp. apply shows_frame; [done|..].
    - intros. by apply Ho.
    - intros base. by rewrite Hc.
    - intros j cr base (s & Hs & _ & _ & Hb)%cols_Some. split.
      + intros q _. apply Ho. eapply Href; [done..|]. unfold references. rewrite Hb.
        by rewrite (bool_decide_eq_true_2 (Some base = Some base)), orb_true_r.
      + intros a b. cbn. rewrite elem_of_filter. cbn. rewrite bool_decide_eq_false_2 by done. naive_solver. }
  unfold keeps. rewrite Hc by done.
  assert (∀ cr ob, cols db y = Some (y, cr, ob) → default y cr ∉ sids) as Hroot.
  { intros [r|] ob (s & Hs & _ & Hcr & _)%cols_Some; [|done]. cbn. eapply Href; [done..|].
    unfold references. rewrite Hcr. by rewrite (bool_decide_eq_true_2 (Some r = Some r)), orb_true_r. }
  split; intros (cr & ob & Hcy & Hs & Hd); exists cr, ob; (split; [done|]; split; [|done]); revert Hs;
    apply Hshow; eauto.
Qed.

Lemma plan_folds_doomed db sids doomed folds : (plan_folds db sids doomed folds).1 ⊆ doomed.
Proof.
  revert doomed folds. induction sids as [|sid sids IH]; intros doomed folds; cbn [plan_folds]; [done|].
  destruct (sparse_fold_target sid doomed db); etrans; try apply IH; set_solver.
Qed.

(** The stages of a delete that deletes something. *)
Lemma delete_snapshots_inv free now stamp batch snap_ids events db db' sids :
  delete_snapshots free now stamp batch snap_ids events db = Ok (db', sids) →
  (sids = [] ∧ db' = db) ∨
  ∃ doomed folds db1 db2 db3,
    plan_folds db (qualified free now snap_ids db) (list_to_set (qualified free now snap_ids db)) [] = (doomed, folds) ∧
    sids = filter (λ i, i ∈ doomed) (qualified free now snap_ids db) ∧
    rehydrate_all stamp sids doomed db = Ok db1 ∧ fold_all batch folds db1 = Ok db2 ∧
    drop_snapshots sids db2 = Ok db3 ∧ db' = add_audit events sids db3.
Proof.
  unfold delete_snapshots. case_bool_decide; [intros [= <- <-]; by left|]. cbn zeta.
  destruct (plan_folds _ _ _ _) as [doomed folds] eqn:Hp.
  case_bool_decide; [intros [= <- <-]; by left|]. intros Hr. right.
  apply bind_Ok in Hr as (db1 & ? & Hr). apply bind_Ok in Hr as (db2 & ? & Hr). apply bind_Ok in Hr as (db3 & ? & [= <- <-]).
  by exists doomed, folds, db1, db2, db3.
Qed.

Lemma drop_snapshots_cols sids db db' i :
  drop_snapshots sids db = Ok db' → cols db' i = if bool_decide (i ∈ sids) then None else cols db i.
Proof.
  unfold drop_snapshots. cbn zeta. intros H. apply bind_Ok in H as (_ & _ & [= <-]). unfold cols. cbn.
  case_bool_decide as Hi.
  - rewrite (map_lookup_filter_None_2 _ _ i); [done|]. right. intros s _. cbn.
    rewrite bool_decide_eq_true_2 by done. by intros [].
  - f_equal. apply option_eq. intros s. rewrite map_lookup_filter_Some. cbn.
    rewrite bool_decide_eq_false_2 by done. cbn. tauto.
Qed.

(** C18: When retention deletes snapshots, every other snapshot of the database stays
    and keeps exactly the inventory it had: whatever reuse pointers and overlays
    read through the doomed rows, after the heirs took the doomed inventories
    over, the overlays were moved and the rows dropped, each survivor's effective
    items of every non-delta type are the same payloads as before. *)
Theorem delete_keeps_survivors free now stamp batch snap_ids events db db' sids y :
  wf_db db → delete_snapshots free now stamp batch snap_ids events db = Ok (db', sids) →
  y ∉ sids → is_Some (rd_snaps db !! y) →
  is_Some (rd_snaps db' !! y) ∧
  ∀ p, p_dense p = true →
    p ∈ payload_of <$> snapshot_items_effective db y ↔ p ∈ payload_of <$> snapshot_items_effective db' y.
Proof.
  intros Hwf Hdel Hy Hsome. apply delete_snapshots_inv in Hdel as [[_ ->]|Hdel]; [done|].
  destruct Hdel as (doomed & folds & db1 & db2 & db3 & _ & -> & Hre & Hfold & Hdrop & ->).
  set (sids := filter _ _) in *.
  assert (∀ i, i ∈ sids → i ∈ doomed) as Hsd by (intros i; unfold sids; rewrite list_elem_of_filter; tauto).
  destruct (rehydrate_all_keeps _ _ _ _ _ Hwf Hsd Hre) as [Hwf1 Hk1].
  pose proof (rehydrate_all_ids _ _ _ _ _ Hwf Hsd Hre y) as Hid.
  apply fold_all_dense in Hfold. pose proof Hfold as (_ & Hc2 & _).
  pose proof (drop_snapshots_cols _ _ _ y Hdrop) as Hc3. rewrite bool_decide_eq_false_2, Hc2 in Hc3 by done.
  unfold cols in Hid at 2. rewrite fmap_is_Some in Hid. apply Hid in Hsome.
  assert (cols (add_audit events sids db3) y = cols db1 y) as Hca by done.
  split; [by rewrite <-Hca in Hsome; unfold cols in Hsome; apply fmap_is_Some in Hsome|].
  intros p Hp.
  assert (keeps db y p ↔ keeps (add_audit events sids db3) y p) as Hk.
  { rewrite Hk1, (dense_same_keeps _ _ _ _ Hfold), (drop_snapshots_keeps _ _ _ _ _ Hdrop) by done. done. }
  rewrite !keeps_effective in Hk; [tauto|..].
  - intros j cr ob. rewrite Hca. apply (wf_keyed _ Hwf1).
  - intros j cr ob. apply (wf_keyed _ Hwf).
Qed.

(** ** Deciding well-formedness *)

Definition wf_row (db : ret_db) (i : string) (s : snap_row) : bool :=
  bool_decide (r_id s = i)
  && match r_chain_root s with
     | Some r =>
         match rd_snaps db !! r with Some t => bool_decide (r_id t = r) && bool_decide (r_chain_root t = None) | None => false end
         && bool_decide (r_overlay_base s = None)
         && forallb (λ it, negb (bool_decide (si_snap it = i)) || is_sparse it) (rd_items db)
     | None =>
         match r_overlay_base s with
         | Some b =>
             bool_decide (b ≠ i) &&
             match rd_snaps db !! b with
             | Some t => bool_decide (r_id t = b) && bool_decide (r_chain_root t = None) && bool_decide (r_overlay_base t = None)
             | None => false
             end
         | None => true
         end
     end.

Definition wf_check (db : ret_db) : bool :=
  bool_decide (NoDup (item_key <$> rd_items db)) && forallb (λ kv, wf_row db kv.1 kv.2) (map_to_list (rd_snaps db)).

Lemma wf_check_sound db : wf_check db = true → wf_db db.
Proof.
  unfold wf_check. intros [Hu%bool_decide_eq_true Hrows]%andb_true_iff.
  rewrite forallb_Forall, Forall_forall in Hrows.
  assert (∀ i j cr ob, cols db i = Some (j, cr, ob) →
    ∃ s, wf_row db i s = true ∧ r_id s = j ∧ r_chain_root s = cr ∧ r_overlay_base s = ob) as Hrow.
  { intros i j cr ob (s & Hs & ? & ? & ?)%cols_Some. exists s. split_and!; [|done..].
    apply (Hrows (i, s)). by apply elem_of_map_to_list. }
  split.
  - intros i j cr ob (s & Hw & <- & _)%Hrow. unfold wf_row in Hw. by bools.
  - done.
  - intros i r ob (s & Hw & _ & Hc & _)%Hrow. unfold wf_row in Hw. rewrite Hc in Hw. bools.
    destruct (rd_snaps db !! r) as [t|] eqn:Ht; [|done]. bools. exists (r_overlay_base t).
    rewrite (cols_lookup _ _ _ Ht). congruence.
  - intros i r ob (s & Hw & _ & Hc & <-)%Hrow. unfold wf_row in Hw. rewrite Hc in Hw. bools. split; [done|].
    intros p (it & Hit & Hs & <-). match goal with H : forallb _ _ = true |- _ => rewrite forallb_Forall, Forall_forall in H; specialize (H it Hit) end.
    rewrite bool_decide_eq_true_2 in * by done. rewrite sparse_payload. by destruct (is_sparse it).
  - intros i cr b (s & Hw & _ & <- & Hb)%Hrow. unfold wf_row in Hw. rewrite Hb in Hw.
    destruct (r_chain_root s); bools; [done|]. split; [done|].
    destruct (rd_snaps db !! b) as [t|] eqn:Ht; [|done]. bools. rewrite (cols_lookup _ _ _ Ht). congruence.
Qed.

Module RetentionDeleteExamples.
Definition full (i : string) (at_ items : Z) : snap_row :=
  SnapRow i "mailbox" (Some TIncremental) (Some SCompleted) (Some at_) (Some at_) (Some items) (Some (items * 10))
    None None None None None (Some "NOT_APPLICABLE") (Some "cursor") None.
Definition mail (sid ext rest : string) : snap_item := SnapItem sid "EMAIL" ext None (Some 10) false 5 rest.
Definition attachment (sid ext parent rest : string) : snap_item :=
  SnapItem sid "EMAIL_ATTACHMENT" ext (Some parent) (Some 10) false 5 rest.

(** A full snapshot, an overlay of it that changed one mail and removed another
    with its attachment, and a later pointer to it. *)
Definition tables : ret_db :=
  RetDb
    {[ "full" := full "full" 10 3;
       "overlay" := set_overlay (Some "full") (full "overlay" 20 2);
       "pointer" := set_reuse (Some "full") (Some "full") (full "pointer" 30 3) ]}
    [mail "full" "m1" "v1"; mail "full" "m2" "v1"; attachment "full" "a2" "m2" "v1"; mail "full" "m3" "v1"; mail "overlay" "m1" "v2"]
    {[ ("overlay", "EMAIL", "m2") ]} ∅ [] [].

Lemma tables_wf : wf_db tables.
Proof. apply wf_check_sound. vm_compute. reflexivity. Qed.

Definition run := delete_snapshots (λ _, true) 1000 "now" FOLD_BATCH {["full"]} {["full"]} tables.

Lemma delete_keeps_survivors_witness :
  snd <$> run = Ok ["full"] ∧
  ∀ p, p_dense p = true →
    p ∈ payload_of <$> snapshot_items_effective tables "overlay"
    ↔ p ∈ payload_of <$> snapshot_items_effective (from_ok (tables, []) run).1 "overlay".
Proof.
  assert (snd <$> run = Ok ["full"]) as H by (vm_compute; reflexivity).
  split; [exact H|]. apply (from_ok_pair_r (tables, [])) in H.
  refine (proj2 (delete_keeps_survivors _ _ _ _ _ _ _ _ _ "overlay" tables_wf H _ _)).
  - rewrite list_elem_of_singleton. discriminate.
  - eexists. reflexivity.
Defined.

(** The overlay shows three of the five rows it can reach. *)
Example overlay_inventory :
  (payload_of <$> snapshot_items_effective (from_ok (tables, []) run).1 "overlay").*1.*1.*1.*1
  = [("EMAIL", "m1"); ("EMAIL", "m3")].
Proof. vm_compute. reflexivity. Qed.

Definition rebased_tables : ret_db :=
  RetDb
    {[ "full" := full "full" 10 3; "other" := full "other" 15 3;
       "overlay" := set_overlay (Some "full") (full "overlay" 20 2) ]}
    [mail "full" "m1" "v1"; mail "full" "m2" "v1"; attachment "full" "a2" "m2" "v1"; mail "overlay" "m1" "v2";
     mail "other" "m2" "v1"; attachment "other" "a2" "m2" "v2"; mail "other" "m9" "v1"]
    ∅ ∅ [] [].

Lemma rebase_keeps_inventory_witness :
  ∃ db', rebase_overlay "overlay" "full" "other" rebased_tables = Ok db' ∧ overlay_of db' "overlay" "other" ∧
    inventory_fingerprint db' "overlay" = inventory_fingerprint rebased_tables "overlay".
Proof.
  apply (rebase_keeps_inventory rebased_tables "overlay" "full" "other" (set_overlay (Some "full") (full "overlay" 20 2))).
  - intros i s. unfold rebased_tables. cbn [rd_snaps].
    rewrite !lookup_insert_Some, lookup_singleton_Some. intros [[<- <-]|[_ [[<- <-]|[_ [<- <-]]]]]; reflexivity.
  - refine (bool_decide_unpack _ _). vm_compute. exact I.
  - eexists. split; [reflexivity|]. split_and!; done.
  - reflexivity.
  - reflexivity.
  - eexists. split; [reflexivity|]. split_and!; done.
  - done.
Defined.
End RetentionDeleteExamples.
