(* ===== verification/RetentionFold.v ===== *)
(** * Retention: delta rows survive the fold

    OneDrive and SharePoint files, calendar events and contacts are captured as
    deltas: a restore point is rebuilt by uniting every earlier snapshot of the
    resource, the newest row per external id winning ([fetch_snapshot_items] of
    [src/workers/restore-worker/main.py]). Before a snapshot with such rows is
    deleted, [_fold_sparse_rows] moves the rows still current into the next kept
    snapshot. This file shows that the batched loop terminates and computes what
    one pass over the table would, and that no restore point from the keeper on
    sees a difference. *)

From stdpp Require Import gmultiset.
From S2P Require Import Prelude.
From S2P Require Import Reconciler.
From S2P Require Import Retention.
From S2P Require Import RetentionDelete.
Local Open Scope Z_scope.

(** ** The restore point the worker reads *)

Definition is_file_tombstone (it : snap_item) : bool :=
  si_deleted it && bool_decide (si_type it ∈ ["ONEDRIVE_FILE"; "FILE"; "CALENDAR_EVENT"; "USER_CONTACT"; "CONTACT"]).

(** Snapshot [i] belongs to the union of the restore point of [res] at [at_]. *)
Definition sibling_at (db : ret_db) (res : string) (at_ : Z) (i : string) : option Z :=
  match rd_snaps db !! i with
  | Some s =>
      match r_created s with
      | Some c => if bool_decide (r_resource s = res) && in_union s && (c <=? at_) then Some c else None
      | None => None
      end
  | None => None
  end.

(** The rows with external id [ext] in the newest sibling that has one. *)
Definition newest_rows (db : ret_db) (res : string) (at_ : Z) (ext : string) : list snap_item :=
  let rows := filter (λ it, bool_decide (si_ext it = ext) && bool_decide (is_Some (sibling_at db res at_ (si_snap it))))
                (rd_items db) in
  filter (λ it, forallb (λ o, int0 (sibling_at db res at_ (si_snap o)) <=? int0 (sibling_at db res at_ (si_snap it))) rows)
    rows.

(** What is restored for [ext]: the newest row unless it records a deletion. *)
Definition restored_rows (db : ret_db) (res : string) (at_ : Z) (ext : string) : list (payload * Z) :=
  (λ it, (payload_of it, si_created it)) <$> filter (λ it, negb (is_file_tombstone it)) (newest_rows db res at_ ext).

(** ** One pass *)

Section fold.
  Context (sid keeper : string) (window : list string).

Definition is_target (it : snap_item) : bool := bool_decide (si_snap it = sid) && is_sparse it.

(** What the fold makes of one row. *)
Definition fold_row (all : list snap_item) (it : snap_item) : list snap_item :=
  if is_target it then if superseded all window it then [] else [move_to keeper it] else [it].

Definition fold_once (items : list snap_item) : list snap_item := items ≫= fold_row items.

(** A statement treats a prefix of the table that holds its batch. *)
Lemma fold_batch_split all n items :
  ∃ pre post, items = pre ++ post ∧ fold_batch all sid keeper window n items = (pre ≫= fold_row all) ++ post ∧
    length (sparse_rows sid pre) = length (take n (sparse_rows sid items)) ∧
    (length (take n (sparse_rows sid items)) < n → post = [])%nat.
Proof.
  revert n. induction items as [|it items IH]; intros n.
  { exists [], []. destruct n; done. }
  cbn [fold_batch]. unfold sparse_rows. rewrite filter_cons. fold (is_target it).
  destruct (decide (is_target it)) as [Ht|Ht].
  - apply Is_true_true in Ht as Ht'. rewrite Ht'. destruct n as [|n].
    { exists [], (it :: items). split_and!; [done..|cbn; lia]. }
    destruct (IH n) as (pre & post & -> & Hb & Hl & Hend). exists (it :: pre), post.
    cbn [mbind list_bind app]. unfold fold_row at 1. rewrite Ht', filter_cons, decide_True by done. fold (sparse_rows sid pre).
    cbn [take length]. split_and!; [done| |by rewrite Hl|intros; apply Hend; fold (sparse_rows sid (pre ++ post)) in *; lia].
    rewrite Hb. by destruct (superseded all window it).
  - assert (is_target it = false) as Ht' by (by destruct (is_target it); [destruct Ht|]). rewrite Ht'.
    destruct (IH n) as (pre & post & -> & Hb & Hl & Hend). exists (it :: pre), post.
    cbn [mbind list_bind app]. unfold fold_row at 1. rewrite Ht', filter_cons, decide_False by done.
    split_and!; [done| |exact Hl|exact Hend]. by rewrite Hb.
Qed.

Hypothesis keeper_other : keeper ≠ sid.
Hypothesis sid_window : sid ∉ window.

(** One external id per sparse row of the doomed snapshot. *)
Definition distinct_exts (items : list snap_item) : Prop := NoDup (si_ext <$> sparse_rows sid items).

Lemma sparse_rows_app l k : sparse_rows sid (l ++ k) = sparse_rows sid l ++ sparse_rows sid k.
Proof. apply filter_app. Qed.

Lemma elem_of_sparse it l : it ∈ sparse_rows sid l ↔ is_target it = true ∧ it ∈ l.
Proof. unfold sparse_rows. by rewrite list_elem_of_filter, Is_true_true. Qed.

Lemma folded_not_target all it o : o ∈ fold_row all it → is_target o = false.
Proof.
  unfold fold_row. destruct (is_target it) eqn:E; [|intros ->%list_elem_of_singleton; done].
  destruct (superseded _ _ _); [set_solver|]. intros ->%list_elem_of_singleton.
  unfold is_target. cbn. by rewrite bool_decide_eq_false_2.
Qed.

Lemma sparse_rows_folded all l : sparse_rows sid (l ≫= fold_row all) = [].
Proof.
  apply list_filter_none. intros o (it & Ho & _)%list_elem_of_bind. rewrite Is_true_true.
  fold (is_target o). by rewrite (folded_not_target _ _ _ Ho).
Qed.

Lemma fold_row_id all it : is_target it = false → fold_row all it = [it].
Proof. unfold fold_row. by intros ->. Qed.

Lemma bind_folded all all' l : (l ≫= fold_row all) ≫= fold_row all' = l ≫= fold_row all.
Proof.
  induction l as [|it l IH]; [done|]. cbn [mbind list_bind]. rewrite bind_app, IH. f_equal.
  assert (∀ k, (∀ o, o ∈ k → is_target o = false) → k ≫= fold_row all' = k) as Hid.
  { induction k as [|o k IHk]; intros Hk; [done|]. cbn [mbind list_bind].
    rewrite (fold_row_id all' o) by (apply Hk; set_solver). cbn. rewrite IHk; [done|]. intros; apply Hk; set_solver. }
  apply Hid. intros o. apply folded_not_target.
Qed.

(** Folding a prefix does not change whether a later row is superseded. *)
Lemma superseded_stable pre post it :
  distinct_exts (pre ++ post) → it ∈ sparse_rows sid post →
  superseded ((pre ≫= fold_row (pre ++ post)) ++ post) window it = superseded (pre ++ post) window it.
Proof.
  intros Hnd Hit. apply eq_true_iff_eq. unfold superseded. rewrite !existsb_elem.
  setoid_rewrite andb_true_iff. setoid_rewrite bool_decide_eq_true.
  setoid_rewrite elem_of_app. split; intros (l & [Hl|Hl] & Hw & He); [| by exists l; auto | | by exists l; auto].
  - apply list_elem_of_bind in Hl as (o & Hl & Ho). unfold fold_row in Hl.
    destruct (is_target o) eqn:E; [|apply list_elem_of_singleton in Hl as ->; exists o; auto].
    destruct (superseded (pre ++ post) window o); [set_solver|]. apply list_elem_of_singleton in Hl as ->.
    unfold distinct_exts in Hnd. rewrite sparse_rows_app, fmap_app in Hnd. apply NoDup_app in Hnd as (_ & Hd & _).
    exfalso. apply (Hd (si_ext o)).
    + apply list_elem_of_fmap_2, elem_of_sparse. done.
    + cbn in He. rewrite He. by apply list_elem_of_fmap_2.
  - exists l. split; [|done]. left. apply list_elem_of_bind. exists l. split; [|done].
    rewrite fold_row_id; [set_solver|]. unfold is_target. rewrite bool_decide_eq_false_2; [done|]. congruence.
Qed.

Lemma bind_ext_in {A B} (f g : A → list B) l : (∀ x, x ∈ l → f x = g x) → l ≫= f = l ≫= g.
Proof.
  induction l as [|x l IH]; intros H; [done|]. cbn [mbind list_bind]. rewrite H, IH; [done|..]; intros; try apply H; set_solver.
Qed.

Lemma fold_row_post pre post it :
  distinct_exts (pre ++ post) → it ∈ post →
  fold_row ((pre ≫= fold_row (pre ++ post)) ++ post) it = fold_row (pre ++ post) it.
Proof.
  intros Hnd Hit. unfold fold_row at 1 3. destruct (is_target it) eqn:E; [|done].
  rewrite superseded_stable; [done..|]. by apply elem_of_sparse.
Qed.

Definition moved (items : list snap_item) : list snap_item :=
  filter (λ it, negb (superseded items window it)) (sparse_rows sid items).

Lemma sum_sizes_app l k : sum_sizes (l ++ k) = sum_sizes l + sum_sizes k.
Proof. induction l as [|it l IH]; cbn; [done|]. unfold sum_sizes in *. rewrite IH. lia. Qed.

(** The batched loop ends and has done what one pass over the table does. *)
Lemma fold_loop_once fuel batch items rows bytes :
  (0 < batch)%nat → (length (sparse_rows sid items) < fuel)%nat → distinct_exts items →
  fold_loop fuel batch sid keeper window items rows bytes
  = Some (fold_once items, rows + Z.of_nat (length (moved items)), bytes + sum_sizes (moved items)).
Proof.
  intros Hb. revert items rows bytes. induction fuel as [|fuel IH]; intros items rows bytes Hf Hnd; [lia|].
  cbn [fold_loop]. cbn zeta. unfold moved_rows.
  destruct (fold_batch_split items batch items) as (pre & post & -> & Hbatch & Hlen & Hend).
  rewrite Hbatch. destruct (_ <? batch)%nat eqn:E; bools.
  - specialize (Hend E). subst post. rewrite !app_nil_r in *. unfold fold_once, moved. do 2 f_equal; [f_equal|].
    all: rewrite take_ge; [done|]. all: rewrite length_take in E; lia.
  - assert (take batch (sparse_rows sid (pre ++ post)) = sparse_rows sid pre) as Htake.
    { assert (length (sparse_rows sid pre) = batch) by (rewrite length_take in *; lia).
      rewrite sparse_rows_app. apply take_app_length'. lia. }
    rewrite Htake in *.
    set (items1 := (pre ≫= fold_row (pre ++ post)) ++ post).
    assert (sparse_rows sid items1 = sparse_rows sid post) as Hsp1.
    { unfold items1. by rewrite sparse_rows_app, sparse_rows_folded. }
    rewrite IH.
    + unfold fold_once, moved. rewrite Hsp1, sparse_rows_app, filter_app, length_app, sum_sizes_app.
      assert (filter (λ it, negb (superseded items1 window it)) (sparse_rows sid post)
            = filter (λ it, negb (superseded (pre ++ post) window it)) (sparse_rows sid post)) as ->.
      { apply filter_ext_in. intros it Hit. unfold items1. by rewrite superseded_stable. }
      do 2 f_equal; [f_equal|lia]; [|lia]. unfold items1. rewrite !bind_app, bind_folded. f_equal.
      apply bind_ext_in. intros it Hit. by apply fold_row_post.
    + rewrite Hsp1. rewrite sparse_rows_app, length_app in Hf. lia.
    + unfold distinct_exts in *. rewrite Hsp1. rewrite sparse_rows_app, fmap_app in Hnd. by apply NoDup_app in Hnd as (_ & _ & ?).
Qed.
End fold.

(** ** The keeper and its window *)

Lemma sparse_fold_target_inv sid doomed db keeper window :
  keyed db → sparse_fold_target sid doomed db = FoldInto keeper window →
  ∃ d k cd ck, rd_snaps db !! sid = Some d ∧ rd_snaps db !! keeper = Some k ∧
    r_created d = Some cd ∧ r_created k = Some ck ∧ cd < ck ∧ r_resource k = r_resource d ∧
    in_union d = true ∧ in_union k = true ∧ (keeper ∉ doomed) ∧
    (∀ i, i ∈ window ↔ ∃ s c, rd_snaps db !! i = Some s ∧ r_created s = Some c ∧
       r_resource s = r_resource d ∧ in_union s = true ∧ cd < c ≤ ck).
Proof.
  intros Hkey. unfold sparse_fold_target. destruct (rd_snaps db !! sid) as [d|] eqn:Hd; [|done].
  destruct (in_union d && _) eqn:Hu; [|done]. apply andb_true_iff in Hu as [Hu _]. cbn zeta.
  set (later := filter _ (map_to_list (rd_snaps db)).*2).
  assert (∀ s, s ∈ later ↔ (r_resource s = r_resource d ∧ sql_lt (r_created d) (r_created s) = true ∧ in_union s = true)
    ∧ ∃ i, rd_snaps db !! i = Some s) as Hlater.
  { intros s. unfold later. etrans; [apply elem_of_rows_where|]. rewrite !andb_true_iff, bool_decide_eq_true. tauto. }
  destruct (head (merge_sort _ _)) as [k|] eqn:Hh; [|done].
  assert (k ∈ filter (λ s, r_id s ∉ doomed) later) as Hk.
  { rewrite <-(merge_sort_Permutation by_created_id). by apply list.head_Some_elem_of. }
  apply list_elem_of_filter in Hk as [Hknd Hk]. apply Hlater in Hk as ((Hres & Hlt & Hku) & i & Hi).
  case_bool_decide; [|done]. intros [= <- <-].
  unfold sql_lt in Hlt. destruct (r_created d) as [cd|] eqn:Hcd; [|done]. destruct (r_created k) as [ck|] eqn:Hck; [|done]. bools.
  rewrite (Hkey _ _ Hi) in *. exists d, k, cd, ck. split_and!; [done..|]. intros j. rewrite list_elem_of_fmap.
  setoid_rewrite list_elem_of_filter. setoid_rewrite Hlater. split.
  - intros (s & -> & Hle & (Hr & Hs & Hsu) & i' & Hj). unfold sql_lt in *. destruct (r_created s) as [c|] eqn:Hc; [|done].
    apply Is_true_true in Hle. bools. exists s, c. rewrite (Hkey _ _ Hj). done.
  - intros (s & c & Hj & Hc & Hr & Hsu & Hcs). exists s. rewrite (Hkey _ _ Hj). unfold sql_lt. rewrite Hc.
    split; [done|]. split; [|split; [split_and!; [done|apply Z.ltb_lt; lia|done]|by eauto]].
    apply Is_true_true, negb_true_iff, Z.ltb_ge. lia.
Qed.

Lemma elem_of_newest db res at_ ext it :
  it ∈ newest_rows db res at_ ext ↔
  it ∈ rd_items db ∧ si_ext it = ext ∧ ∃ c, sibling_at db res at_ (si_snap it) = Some c ∧
  ∀ o c', o ∈ rd_items db → si_ext o = ext → sibling_at db res at_ (si_snap o) = Some c' → c' ≤ c.
Proof.
  unfold newest_rows. cbn zeta. rewrite list_elem_of_filter, Is_true_true.
  set (rows := filter _ _).
  assert (∀ o, o ∈ rows ↔ (si_ext o = ext ∧ is_Some (sibling_at db res at_ (si_snap o))) ∧ o ∈ rd_items db) as Hrows.
  { intros o. unfold rows. by rewrite list_elem_of_filter, Is_true_true, andb_true_iff, !bool_decide_eq_true. }
  rewrite forallb_Forall, Forall_forall, Hrows. split.
  - intros (Hall & (Hext & [c Hc]) & Hin). split_and!; [done..|]. exists c. split; [done|]. intros o c' Ho Hoe Hoc.
    specialize (Hall o). rewrite Hrows, Hc, Hoc in Hall. ospecialize (Hall _); [split; [split; [done|by eexists]|done]|].
    by apply Z.leb_le in Hall.
  - intros (Hin & Hext & c & Hc & Hmax). split; [|split; [split; [done|by eexists]|done]].
    intros o [[Hoe [c' Hoc]] Ho]%Hrows. rewrite Hoc, Hc. cbn. apply Z.leb_le. by eapply Hmax.
Qed.

Section view.
  Context (db db2 : ret_db) (sid keeper res : string) (window : list string) (cd ck at_ : Z) (ext : string).
  Local Notation S1 := (sibling_at db res at_).
  Hypothesis H_sid : S1 sid = Some cd.
  Hypothesis H_keeper : S1 keeper = Some ck.
  Hypothesis H_lt : cd < ck.
  Hypothesis H_window : ∀ i c, S1 i = Some c → (cd < c ≤ ck) ↔ i ∈ window.
  Hypothesis H_alone : ∀ i, S1 i = Some cd → i = sid.
  Hypothesis H_window_sib : ∀ i, i ∈ window → is_Some (S1 i).
  Hypothesis H_sparse : ∀ it, it ∈ rd_items db → si_snap it = sid → si_ext it = ext → is_sparse it = true.
  Hypothesis H_sib2 : ∀ i, sibling_at db2 res at_ i = if bool_decide (i = sid) then None else S1 i.
  Hypothesis H_items2 : ∀ o, o ∈ rd_items db2 ↔ o ∈ fold_once sid keeper window (rd_items db) ∧ si_snap o ≠ sid.

Lemma keeper_ne : keeper ≠ sid.
Proof. intros ->. rewrite H_sid in H_keeper. injection H_keeper as ->. lia. Qed.

Lemma elem_of_items2 o :
  o ∈ rd_items db2 ↔ (o ∈ rd_items db ∧ si_snap o ≠ sid) ∨
  ∃ it, it ∈ rd_items db ∧ is_target sid it = true ∧ superseded (rd_items db) window it = false ∧ o = move_to keeper it.
Proof.
  rewrite H_items2. unfold fold_once. rewrite list_elem_of_bind. split.
  - intros [(it & Ho & Hit) Hne]. unfold fold_row in Ho. destruct (is_target sid it) eqn:E.
    + destruct (superseded _ _ _) eqn:Es; [set_solver|]. apply list_elem_of_singleton in Ho as ->. right. by exists it.
    + apply list_elem_of_singleton in Ho as ->. by left.
  - intros [[Ho Hne]|(it & Hit & Ht & Hs & ->)]; (split; [|done || apply keeper_ne]).
    + exists o. split; [|done]. rewrite fold_row_id; [set_solver|]. unfold is_target. by rewrite bool_decide_eq_false_2.
    + exists it. split; [|done]. unfold fold_row. rewrite Ht, Hs. set_solver.
Qed.

Lemma superseded_spec it :
  si_ext it = ext →
  superseded (rd_items db) window it = true ↔
  ∃ l c, l ∈ rd_items db ∧ si_ext l = ext ∧ S1 (si_snap l) = Some c ∧ cd < c ≤ ck.
Proof.
  intros He. unfold superseded. rewrite existsb_elem. setoid_rewrite andb_true_iff. setoid_rewrite bool_decide_eq_true.
  split.
  - intros (l & Hl & Hw & Hle). destruct (H_window_sib _ Hw) as [c Hc]. apply (H_window _ _ Hc) in Hw.
    exists l, c. split_and!; [done|congruence|done|lia|lia].
  - intros (l & c & Hl & Hle & Hc & Hr). exists l. split; [done|]. split; [by apply (H_window _ _ Hc)|congruence].
Qed.

Lemma newest_forward o :
  o ∈ newest_rows db res at_ ext →
  ∃ o', o' ∈ newest_rows db2 res at_ ext ∧ (o' = o ∨ o' = move_to keeper o).
Proof.
  setoid_rewrite elem_of_newest. intros (Ho & He & c & Hc & Hmax).
  assert (∀ it, is_target sid it = true → si_snap it = sid) as Hts
    by (unfold is_target; intros it Ht; by bools).
  destruct (decide (si_snap o = sid)) as [Hs|Hs].
  - assert (is_target sid o = true) as Ht by (unfold is_target; rewrite bool_decide_eq_true_2 by done; by apply H_sparse).
    rewrite Hs, H_sid in Hc. injection Hc as <-.
    assert (superseded (rd_items db) window o = false) as Hns.
    { apply not_true_iff_false. rewrite superseded_spec by done. intros (l & c & Hl & Hle & Hlc & Hr).
      specialize (Hmax _ _ Hl Hle Hlc). lia. }
    exists (move_to keeper o). split; [|by right]. split_and!; [apply elem_of_items2; right; by exists o|done|].
    exists ck. cbn. rewrite H_sib2, bool_decide_eq_false_2 by apply keeper_ne. split; [done|].
    intros x cx Hx Hxe. rewrite H_sib2. case_bool_decide; [done|]. intros Hxc.
    apply elem_of_items2 in Hx as [[Hx _]|(it & _ & _ & _ & ->)]; [specialize (Hmax _ _ Hx Hxe Hxc); lia|].
    cbn in Hxc. rewrite H_keeper in Hxc. injection Hxc as <-. lia.
  - exists o. split; [|by left]. split_and!; [apply elem_of_items2; by left|done|]. exists c.
    rewrite H_sib2, bool_decide_eq_false_2 by done. split; [done|]. intros x cx Hx Hxe.
    rewrite H_sib2. case_bool_decide; [done|]. intros Hxc.
    apply elem_of_items2 in Hx as [[Hx _]|(it & Hit & Ht & Hns & ->)]; [by eapply Hmax|].
    cbn in Hxc, Hxe. rewrite H_keeper in Hxc. injection Hxc as <-.
    assert (cd ≤ c) by (eapply Hmax; [exact Hit|done|by rewrite (Hts _ Ht)]).
    assert (c ≠ cd) by (intros ->; by apply Hs, H_alone).
    destruct (decide (c ≤ ck)); [|lia]. exfalso. apply not_true_iff_false in Hns. apply Hns, superseded_spec; [done|].
    exists o, c. split_and!; [done..|lia|lia].
Qed.

Lemma newest_backward o' :
  o' ∈ newest_rows db2 res at_ ext →
  ∃ o, o ∈ newest_rows db res at_ ext ∧ (o' = o ∨ o' = move_to keeper o).
Proof.
  setoid_rewrite elem_of_newest. intros (Ho & He & c & Hc & Hmax). rewrite H_sib2 in Hc.
  case_bool_decide as Hs; [done|].
  apply elem_of_items2 in Ho as [[Ho _]|(it & Hit & Ht & Hns & ->)].
  - exists o'. split; [|by left]. split_and!; [done..|]. exists c. split; [done|]. intros x cx Hx Hxe Hxc.
    destruct (decide (si_snap x = sid)) as [Hxs|Hxs].
    + assert (is_target sid x = true) as Ht by (unfold is_target; rewrite bool_decide_eq_true_2 by done; by apply H_sparse).
      rewrite Hxs, H_sid in Hxc. injection Hxc as <-.
      destruct (superseded (rd_items db) window x) eqn:Hsx.
      * apply superseded_spec in Hsx as (l & cl & Hl & Hle & Hlc & Hr); [|done].
        assert (si_snap l ≠ sid) by (intros E; rewrite E, H_sid in Hlc; injection Hlc as <-; lia).
        assert (cl ≤ c); [|lia]. eapply (Hmax l); [apply elem_of_items2; by left|done|].
        by rewrite H_sib2, bool_decide_eq_false_2.
      * assert (ck ≤ c); [|lia]. eapply (Hmax (move_to keeper x)); [apply elem_of_items2; right; by exists x|done|].
        cbn. by rewrite H_sib2, bool_decide_eq_false_2 by apply keeper_ne.
    + eapply (Hmax x); [apply elem_of_items2; by left|done|]. by rewrite H_sib2, bool_decide_eq_false_2.
  - exists it. split; [|by right]. cbn in He, Hc. rewrite H_keeper in Hc. injection Hc as <-.
    assert (si_snap it = sid) as Hits by (unfold is_target in Ht; by bools).
    split_and!; [done..|]. exists cd. rewrite Hits. split; [done|]. intros x cx Hx Hxe Hxc.
    destruct (decide (si_snap x = sid)) as [Hxs|Hxs]; [rewrite Hxs, H_sid in Hxc; injection Hxc as <-; lia|].
    assert (cx ≤ ck).
    { eapply (Hmax x); [apply elem_of_items2; by left|done|]. by rewrite H_sib2, bool_decide_eq_false_2. }
    destruct (decide (cx ≤ cd)) as [|Hgt]; [done|]. exfalso. apply not_true_iff_false in Hns.
    apply Hns, superseded_spec; [done|]. exists x, cx. split_and!; [done..|lia|lia].
Qed.

Lemma restored_same q : q ∈ restored_rows db res at_ ext ↔ q ∈ restored_rows db2 res at_ ext.
Proof.
  unfold restored_rows. rewrite !list_elem_of_fmap. setoid_rewrite list_elem_of_filter. split.
  - intros (o & -> & Ht & Ho). apply newest_forward in Ho as (o' & Ho' & [->| ->]);
      [exists o|exists (move_to keeper o)]; (split; [done|split; [exact Ht|done]]).
  - intros (o & -> & Ht & Ho). apply newest_backward in Ho as (o' & Ho' & [->| ->]);
      exists o'; (split; [done|split; [exact Ht|done]]).
Qed.
End view.

(** ** The fold and the delete together *)

Lemma fold_sparse_rows_once batch sid keeper window db db1 :
  (0 < batch)%nat → keeper ≠ sid → sid ∉ window → distinct_exts sid (rd_items db) →
  fold_sparse_rows batch sid keeper window db = Ok db1 →
  rd_items db1 = fold_once sid keeper window (rd_items db) ∧
  ∀ i, (λ s, (r_resource s, r_status s, r_created s)) <$> rd_snaps db1 !! i
     = (λ s, (r_resource s, r_status s, r_created s)) <$> rd_snaps db !! i.
Proof.
  intros Hb Hk Hw Hd. unfold fold_sparse_rows. rewrite fold_loop_once by (done || lia).
  destruct (_ =? 0); [intros [= <-]; done|].
  intros [-> _]%update_snapshots_Ok. split; [done|]. intros i. cbn. rewrite lookup_fmap.
  destruct (rd_snaps db !! i) as [s|]; [|done]. cbn. by destruct (has_id keeper s).
Qed.

Lemma drop_one_sibling sid db1 db2 res at_ :
  drop_snapshots [sid] db1 = Ok db2 →
  (∀ i, sibling_at db2 res at_ i = if bool_decide (i = sid) then None else sibling_at db1 res at_ i) ∧
  ∀ o, o ∈ rd_items db2 ↔ o ∈ rd_items db1 ∧ si_snap o ≠ sid.
Proof.
  unfold drop_snapshots. cbn zeta. intros H. apply bind_Ok in H as (_ & _ & [= <-]). split.
  - intros i. unfold sibling_at. cbn [rd_snaps]. destruct (decide (i = sid)) as [->|Hne].
    + rewrite bool_decide_eq_true_2 by done. rewrite map_lookup_filter_None_2; [done|]. right.
      intros s _. cbn. rewrite bool_decide_eq_true_2 by set_solver. by intros [].
    + rewrite (bool_decide_eq_false_2 (i = sid)) by done.
      assert (filter (λ kv : string * snap_row, negb (bool_decide (kv.1 ∈ [sid]))) (rd_snaps db1) !! i = rd_snaps db1 !! i) as ->;
        [|done]. apply option_eq. intros s. rewrite map_lookup_filter_Some. cbn.
      rewrite bool_decide_eq_false_2 by set_solver. cbn. tauto.
  - intros o. cbn. rewrite list_elem_of_filter, Is_true_true, negb_true_iff, bool_decide_eq_false, list_elem_of_singleton. tauto.
Qed.

Lemma sibling_at_cols db db1 res at_ i :
  (λ s, (r_resource s, r_status s, r_created s)) <$> rd_snaps db1 !! i
  = (λ s, (r_resource s, r_status s, r_created s)) <$> rd_snaps db !! i →
  sibling_at db1 res at_ i = sibling_at db res at_ i.
Proof.
  unfold sibling_at, in_union. destruct (rd_snaps db1 !! i) as [s|], (rd_snaps db !! i) as [t|]; cbn; try done.
  by intros [= -> -> ->].
Qed.

Lemma sibling_at_Some db res at_ i s c :
  rd_snaps db !! i = Some s → r_created s = Some c → r_resource s = res → in_union s = true → c ≤ at_ →
  sibling_at db res at_ i = Some c.
Proof.
  intros Hi Hc Hr Hu Hle. unfold sibling_at. rewrite Hi, Hc, Hr, Hu, bool_decide_eq_true_2 by done.
  cbn. by rewrite (proj2 (Z.leb_le c at_) Hle).
Qed.

Lemma sibling_at_inv db res at_ i c :
  sibling_at db res at_ i = Some c →
  ∃ s, rd_snaps db !! i = Some s ∧ r_created s = Some c ∧ r_resource s = res ∧ in_union s = true ∧ c ≤ at_.
Proof.
  unfold sibling_at. destruct (rd_snaps db !! i) as [s|]; [|done]. destruct (r_created s) as [c'|] eqn:Hc; [|done].
  destruct (_ && _) eqn:E; [|done]. intros [= ->]. bools. by exists s.
Qed.

(** C19: Deleting a snapshot of a delta-captured resource loses no file: when its
    sparse rows are folded into the keeper [_sparse_fold_target] chose and the
    snapshot is dropped, every restore point of the resource from the keeper on
    restores, for each external id, exactly the rows (content and capture time,
    deletions respected) it restored before. *)
Theorem fold_keeps_restore_points batch sid doomed keeper window db db1 db2 d k at_ ext :
  keyed db → (0 < batch)%nat →
  sparse_fold_target sid doomed db = FoldInto keeper window →
  fold_sparse_rows batch sid keeper window db = Ok db1 → drop_snapshots [sid] db1 = Ok db2 →
  distinct_exts sid (rd_items db) →
  rd_snaps db !! sid = Some d → rd_snaps db !! keeper = Some k →
  (∀ i s, rd_snaps db !! i = Some s → r_resource s = r_resource d → r_created s = r_created d → i = sid) →
  int0 (r_created k) ≤ at_ →
  (∀ it, it ∈ rd_items db → si_snap it = sid → si_ext it = ext → is_sparse it = true) →
  ∀ q, q ∈ restored_rows db (r_resource d) at_ ext ↔ q ∈ restored_rows db2 (r_resource d) at_ ext.
Proof.
  intros Hkey Hb Htarget Hfold Hdrop Hdist Hd Hk Halone Hat Hsparse.
  apply sparse_fold_target_inv in Htarget as (d' & k' & cd & ck & Hd' & Hk' & Hcd & Hck & Hlt & Hres & Hud & Huk & _ & Hwin); [|done].
  rewrite Hd in Hd'. apply (inj Some) in Hd' as <-. rewrite Hk in Hk'. apply (inj Some) in Hk' as <-.
  rewrite Hck in Hat. cbn in Hat.
  assert (sid ∉ window) as Hsw.
  { rewrite Hwin. intros (s & c & Hs & Hc & _ & _ & ?). rewrite Hd in Hs. apply (inj Some) in Hs as <-. rewrite Hcd in Hc.
    injection Hc as <-. lia. }
  assert (keeper ≠ sid) as Hne.
  { intros ->. rewrite Hd in Hk. apply (inj Some) in Hk as <-. rewrite Hcd in Hck. injection Hck as <-. lia. }
  destruct (fold_sparse_rows_once _ _ _ _ _ _ Hb Hne Hsw Hdist Hfold) as [Hi1 Hs1].
  destruct (drop_one_sibling _ _ _ (r_resource d) at_ Hdrop) as [Hsib Hitems].
  eapply (restored_same db db2 sid keeper (r_resource d) window cd ck at_ ext); try done.
  - eapply sibling_at_Some; eauto. lia.
  - by eapply sibling_at_Some.
  - intros i c (s & Hs & Hc & Hr & Hu & _)%sibling_at_inv. rewrite Hwin. split; [by exists s, c|].
    intros (s' & c' & Hs' & Hc' & _ & _ & ?). rewrite Hs in Hs'. apply (inj Some) in Hs' as <-. rewrite Hc in Hc'.
    by injection Hc' as <-.
  - intros i (s & Hs & Hc & Hr & _)%sibling_at_inv. eapply Halone; [done..|]. by rewrite Hc.
  - intros i (s & c & Hs & Hc & Hr & Hu & ?)%Hwin. exists c. eapply sibling_at_Some; eauto. lia.
  - intros i. rewrite Hsib. by rewrite (sibling_at_cols db db1) by apply Hs1.
  - intros o. by rewrite Hitems, Hi1.
Qed.

Module RetentionFoldExamples.
Import RetentionDeleteExamples.
Definition file (sid ext rest : string) (at_ : Z) : snap_item := SnapItem sid "ONEDRIVE_FILE" ext None (Some 10) false at_ rest.

(** Three delta snapshots of a drive: the second rewrote one file of the first. *)
Definition drive : ret_db :=
  RetDb {[ "s1" := full "s1" 10 2; "s2" := full "s2" 20 1; "s3" := full "s3" 30 1 ]}
    [file "s1" "a" "v1" 10; file "s1" "b" "v1" 10; file "s2" "a" "v2" 20; file "s3" "c" "v1" 30] ∅ ∅ [] [].

Definition folded : ret_db := from_ok drive (fold_sparse_rows 1 "s1" "s2" ["s2"] drive).
Definition dropped : ret_db := from_ok drive (drop_snapshots ["s1"] folded).

Example drive_restores :
  restored_rows dropped "mailbox" 30 "b" = [(("ONEDRIVE_FILE", "b", None, Some 10, false, "v1"), 10)].
Proof. vm_compute. reflexivity. Qed.

Lemma fold_keeps_restore_points_witness :
  sparse_fold_target "s1" {["s1"]} drive = FoldInto "s2" ["s2"] ∧
  ∀ q, q ∈ restored_rows drive "mailbox" 30 "b" ↔ q ∈ restored_rows dropped "mailbox" 30 "b".
Proof.
  assert (sparse_fold_target "s1" {["s1"]} drive = FoldInto "s2" ["s2"]) as Ht by (vm_compute; reflexivity).
  split; [exact Ht|].
  assert (is_ok (fold_sparse_rows 1 "s1" "s2" ["s2"] drive) = true) as H1 by (vm_compute; reflexivity).
  assert (is_ok (drop_snapshots ["s1"] folded) = true) as H2 by (vm_compute; reflexivity).
  assert (∀ i s, rd_snaps drive !! i = Some s →
    (i = "s3" ∧ s = full "s3" 30 1) ∨ (i = "s1" ∧ s = full "s1" 10 2) ∨ (i = "s2" ∧ s = full "s2" 20 1)) as Hrows.
  { intros i s. unfold drive. cbn [rd_snaps]. rewrite !lookup_insert_Some, lookup_singleton_Some.
    intros [[<- <-]|[_ [[<- <-]|[_ [<- <-]]]]]; auto. }
  apply (fold_keeps_restore_points 1 "s1" {["s1"]} "s2" ["s2"] drive folded dropped (full "s1" 10 2) (full "s2" 20 1) 30 "b").
  - intros i s [[-> ->]|[[-> ->]|[-> ->]]]%Hrows; reflexivity.
  - lia.
  - exact Ht.
  - exact (is_ok_from drive _ H1).
  - exact (is_ok_from drive _ H2).
  - refine (bool_decide_unpack _ _). vm_compute. exact I.
  - reflexivity.
  - reflexivity.
  - intros i s [[-> ->]|[[-> ->]|[-> ->]]]%Hrows; [done|reflexivity|done].
  - cbn. lia.
  - intros it Hit Hs He. unfold drive in Hit. cbn [rd_items] in Hit. repeat (apply elem_of_cons in Hit as [->|Hit]; [reflexivity|]).
    inversion Hit.
Defined.
End RetentionFoldExamples.
