(* ===== verification/RetentionPass.v ===== *)
(** * Retention: the daily pass

    [_restate_lying_counters], [_iter_tenant_resources],
    [enforce_retention_for_tenant] and [enforce_retention_all_tenants] of
    [src/shared/retention_cleanup.py]: what one pass over a tenant deletes, keeps,
    audits and commits. The session's flush of the restated counters is a write
    to [rd_snaps]; a raised error rolls back to the last commit. *)

From stdpp Require Import gmultiset.
From S2P Require Import Prelude.
From S2P Require Import Calendar.
From S2P Require Import Reconciler.
From S2P Require Import Retention.
From S2P Require Import RetentionDelete.
Local Open Scope Z_scope.

(** ** Counter truth *)

Definition suspect (now : Z) (s : snap_row) : bool :=
  negb (holds_persisted_content s) && negb (is_protected_in_flight now s).

Definition restate_row (now : Z) (items : list snap_item) (s : snap_row) : snap_row :=
  let rows := filter (λ it, si_snap it = r_id s) items in
  if suspect now s && negb (bool_decide (rows = []))
  then set_counts (Z.of_nat (length rows)) (sum_sizes rows) s else s.

Definition rows_of_resource (res : string) (db : ret_db) : list snap_row :=
  filter (λ s, r_resource s = res) (map_to_list (rd_snaps db)).*2.

Definition restate_lying_counters (now : Z) (res : string) (db : ret_db) : ret_db :=
  with_snaps (fmap (λ s, if bool_decide (r_resource s = res) then restate_row now (rd_items db) s else s)) db.

(** ** One resource *)

Record resource_row := ResourceRow {
  rs_id : string;
  rs_policy : option string;
  rs_status : resource_status;
}.

Record stats := Stats {
  st_checked : Z;
  st_held : Z;
  st_deleted : Z;
  st_kept : Z;
  st_would_delete : Z;
}.

Definition no_stats : stats := Stats 0 0 0 0 0.

Section pass.
  Context (free : string → bool) (now : Z) (stamp : string) (batch : nat) (delete_enabled : bool).

(** The ids a pass wants gone, and those in flight it defers. *)
Definition to_delete (archived : bool) (snaps : list snap_row) (policy : sla_policy) : gset string * gset string * gset string :=
  let keep := keep_ids now archived snaps policy in
  let doomed := ids snaps ∖ keep in
  let keep := keep ∪ filter (λ i, negb (free i)) doomed in
  let doomed := doomed ∖ keep in
  let in_flight := ids (filter (is_protected_in_flight now) snaps) in
  (keep, doomed ∩ in_flight, doomed ∖ in_flight).

Definition retention_deletes_permitted (snap_ids : gset string) : bool :=
  delete_enabled && negb (bool_decide (snap_ids = ∅)).

Definition policy_of (policies : list sla_policy) (res : resource_row) : option sla_policy :=
  match rs_policy res ≫= λ pid, List.find (λ p, bool_decide (sp_id p = pid)) policies with
  | Some p => Some p
  | None => List.find sp_is_default policies
  end.

(** The body of the loop over a tenant's resources. *)
Definition enforce_resource (policies : list sla_policy) (res : resource_row) (db : ret_db) (st : stats)
    : result ret_err (ret_db * stats * bool) :=
  let st := Stats (st_checked st + 1) (st_held st) (st_deleted st) (st_kept st) (st_would_delete st) in
  match policy_of policies res with
  | None => Ok (db, st, false)
  | Some policy =>
      if is_on_hold now policy then
        Ok (db, Stats (st_checked st) (st_held st + 1) (st_deleted st) (st_kept st) (st_would_delete st), false)
      else if bool_decide (rows_of_resource (rs_id res) db = []) then Ok (db, st, false)
      else
        let db := restate_lying_counters now (rs_id res) db in
        let snaps := rows_of_resource (rs_id res) db in
        let '(keep, skipped, doomed) := to_delete (is_archived (rs_status res)) snaps policy in
        '(db, deleted, would) ←
          (if retention_deletes_permitted doomed then
             '(db, sids) ← delete_snapshots free now stamp batch doomed doomed db;
             Ok (db, Z.of_nat (length sids), 0)
           else Ok (db, 0, Z.of_nat (size doomed)));
        Ok (db, Stats (st_checked st) (st_held st) (st_deleted st + deleted)
                  (st_kept st + Z.of_nat (size (keep ∪ skipped))) (st_would_delete st + would), true)
  end.

Definition COMMIT_EVERY : nat := 100.

(** The loop: the committed table, the session's view of it and the resources
    done since the last commit. An error leaves the committed table. *)
Fixpoint enforce_loop (policies : list sla_policy) (resources : list resource_row)
    (committed db : ret_db) (since : nat) (st : stats) : ret_db * result ret_err stats :=
  match resources with
  | [] => (db, Ok st)
  | res :: rest =>
      match enforce_resource policies res db st with
      | Err e => (committed, Err e)
      | Ok (db, st, counted) =>
          let since := if counted then S since else since in
          if (COMMIT_EVERY <=? since)%nat then enforce_loop policies rest db db 0 st
          else enforce_loop policies rest committed db since st
      end
  end.
End pass.

(** ** Paging over the resources *)

Section paging.
  Context {K : Type} (ltb : K → K → bool).

(** [SELECT id .. WHERE id > :last ORDER BY id LIMIT :n] over the tenant's ids in order. *)
Definition after (last_id : option K) (i : K) : bool := match last_id with Some l => ltb l i | None => true end.
Definition page (sorted : list K) (last_id : option K) (size : nat) : list K :=
  take size (filter (after last_id) sorted).

(** [_iter_tenant_resources]; [None] when the fuel runs out. *)
Fixpoint iter_tenant_resources (fuel : nat) (sorted : list K) (last_id : option K) (size : nat) : option (list K) :=
  match fuel with
  | O => None
  | S fuel =>
      let ids := page sorted last_id size in
      match last ids with
      | None => Some []
      | Some l =>
          if (length ids <? size)%nat then Some ids
          else (λ rest, ids ++ rest) <$> iter_tenant_resources fuel sorted (Some l) size
      end
  end.

Hypothesis ltb_trans : ∀ a b c, ltb a b = true → ltb b c = true → ltb a c = true.
Hypothesis ltb_irrefl : ∀ a, ltb a a = false.

Definition in_order : list K → Prop := StronglySorted (λ a b, ltb a b = true).

(** The ids after the last of a page are the ids the page left. *)
Lemma next_page sorted last_id size l :
  in_order sorted → last (page sorted last_id size) = Some l →
  filter (after (Some l)) sorted = drop size (filter (after last_id) sorted).
Proof.
  intros Hs Hl. unfold page in Hl. revert size Hl. induction Hs as [|x sorted Hs IH Hx]; intros size Hl.
  { by rewrite filter_nil, take_nil in Hl. }
  rewrite Forall_forall in Hx. rewrite !filter_cons. rewrite filter_cons in Hl.
  destruct (decide (after last_id x)) as [Ha|Ha].
  - destruct size as [|size]; [done|]. cbn [take] in Hl. cbn [drop].
    destruct (last (take size (filter (after last_id) sorted))) as [l'|] eqn:Hl'.
    + rewrite last_cons, Hl' in Hl. injection Hl as ->.
      rewrite decide_False; [by apply IH|]. unfold after. rewrite Is_true_true.
      assert (l ∈ sorted) as Hin.
      { apply last_Some_elem_of in Hl'. eapply elem_of_take in Hl' as (i & Hi & _).
        apply list_elem_of_lookup_2, list_elem_of_filter in Hi. tauto. }
      intros Hlx. specialize (Hx _ Hin). pose proof (ltb_trans _ _ _ Hx Hlx). by rewrite ltb_irrefl in *.
    + rewrite last_cons, Hl' in Hl. injection Hl as <-. apply last_None in Hl'.
      rewrite decide_False by (unfold after; rewrite ltb_irrefl; by intros []).
      assert (filter (after (Some x)) sorted = filter (after last_id) sorted) as ->.
      { apply filter_ext_in. intros y Hy. specialize (Hx _ Hy). unfold after at 1. rewrite Hx.
        split; [|done]. intros _. unfold after in *. destruct last_id as [l0|]; [|done].
        apply Is_true_true in Ha. rewrite Is_true_true. by eapply ltb_trans. }
      destruct size; [done|]. by destruct (filter (after last_id) sorted).
  - rewrite decide_False; [by apply IH|]. unfold after in *. destruct last_id as [l0|]; [|by destruct Ha].
    rewrite Is_true_true. intros Hlx. apply Ha. rewrite Is_true_true. eapply ltb_trans; [|exact Hlx].
    apply last_Some_elem_of in Hl. apply elem_of_take in Hl as (i & Hi & _).
    apply list_elem_of_lookup_2, list_elem_of_filter in Hi as [Hi _]. by apply Is_true_true.
Qed.

Lemma iter_from fuel sorted last_id size :
  in_order sorted → (0 < size)%nat → (length (filter (after last_id) sorted) < fuel)%nat →
  iter_tenant_resources fuel sorted last_id size = Some (filter (after last_id) sorted).
Proof.
  intros Hs Hsz. revert last_id. induction fuel as [|fuel IH]; intros last_id Hf; [lia|].
  cbn [iter_tenant_resources]. cbn zeta. destruct (last (page sorted last_id size)) as [l|] eqn:Hl.
  - unfold page. destruct (_ <? size)%nat eqn:E; bools.
    + rewrite length_take in E. rewrite take_ge by lia. done.
    + pose proof (next_page _ _ _ _ Hs Hl) as Hn. rewrite length_take in E.
      rewrite IH; rewrite Hn; [|rewrite length_drop; lia]. cbn. by rewrite take_drop.
  - apply last_None in Hl. unfold page in Hl. destruct (filter (after last_id) sorted); [done|]. destruct size; [lia|done].
Qed.
End paging.

(** C21: The keyset paging hands out every resource of the tenant exactly once, in
    id order, whatever the page size, and stops after at most one page more than
    there are ids. *)
Theorem paging_is_exhaustive {K} (ltb : K → K → bool) sorted size :
  (∀ a b c, ltb a b = true → ltb b c = true → ltb a c = true) → (∀ a, ltb a a = false) →
  StronglySorted (λ a b, ltb a b = true) sorted → (0 < size)%nat →
  iter_tenant_resources ltb (S (length sorted)) sorted None size = Some sorted.
Proof.
  intros Htr Hirr Hs Hsz.
  assert (filter (after ltb None) sorted = sorted) as Hall by (by apply list_filter_all).
  rewrite (iter_from ltb Htr Hirr _ _ None size Hs Hsz); rewrite Hall; [done|lia].
Qed.

(** ** What a pass deletes *)

Lemma qualified_spec free now snap_ids db i :
  wf_db db → i ∈ qualified free now snap_ids db ↔
  i ∈ snap_ids ∧ ∃ s, rd_snaps db !! i = Some s ∧ deletable free now db s = true.
Proof.
  intros Hwf. unfold qualified. rewrite list_elem_of_fmap. setoid_rewrite merge_sort_Permutation.
  assert (∀ j s, rd_snaps db !! j = Some s → r_id s = j) as Hkey.
  { intros j s Hj. by eapply wf_keyed, cols_lookup. }
  split.
  - intros (s & -> & Hin). apply elem_of_rows_where in Hin as [Hs [j Hj]]. bools.
    rewrite (Hkey _ _ Hj) in *. split; [done|]. by exists s.
  - intros [Hi (s & Hs & Hd)]. exists s. rewrite (Hkey _ _ Hs). split; [done|].
    apply elem_of_rows_where. split; [|by exists i]. rewrite (Hkey _ _ Hs), bool_decide_eq_true_2 by done. done.
Qed.

(** No step before the last one writes the audit trail. *)
Lemma update_audit trigger w set db db' : update_snapshots trigger w set db = Ok db' → rd_audit db' = rd_audit db.
Proof. by intros [-> _]%update_snapshots_Ok. Qed.

Ltac audit_frame :=
  repeat match goal with
  | H : update_snapshots _ _ _ _ = Ok _ |- _ => apply update_audit in H
  | H : restate_counts _ _ = Ok _ |- _ => apply update_audit in H
  | H : mbind _ _ = Ok _ |- _ => apply bind_Ok in H as (? & ? & ?)
  | H : Ok _ = Ok _ |- _ => injection H as <-
  end; cbn in *; try congruence.

Lemma rebase_all_audit os base new db db' : rebase_all os base new db = Ok db' → rd_audit db' = rd_audit db.
Proof.
  revert db. induction os as [|o os IH]; intros db; cbn [rebase_all]; [by intros [= <-]|].
  intros H. apply bind_Ok in H as (db1 & Hre & Hrest). rewrite (IH _ Hrest).
  unfold rebase_overlay in Hre. audit_frame.
Qed.

Lemma rehydrate_all_audit stamp sids doomed db db' :
  rehydrate_all stamp sids doomed db = Ok db' → rd_audit db' = rd_audit db.
Proof.
  revert db. induction sids as [|sid sids IH]; intros db; cbn [rehydrate_all]; [by intros [= <-]|].
  intros H. apply bind_Ok in H as ([db1 oh] & Hh & H). apply bind_Ok in H as (db2 & Ho & H). rewrite (IH _ H).
  assert (rd_audit db1 = rd_audit db) as <-.
  { unfold rehydrate_reuse_heir in Hh.
    destruct (head _); [|by injection Hh as <- _]. destruct (rd_snaps db !! sid); [|by injection Hh as <- _].
    cbn zeta in Hh. audit_frame. }
  unfold rehydrate_overlay_dependents in Ho. destruct (rd_snaps db1 !! sid) as [d|]; [|by injection Ho as <-].
  destruct (r_overlay_base d).
  - destruct oh; [|by injection Ho as <-]. unfold hand_over_overlay in Ho. audit_frame.
  - destruct (surviving_overlays sid doomed db1) as [|o os]; [by injection Ho as <-|].
    destruct oh; [by apply (rebase_all_audit (o :: os)) in Ho|].
    apply bind_Ok in Ho as (db3 & Hm & Hre). apply rebase_all_audit in Hre. rewrite Hre.
    unfold materialise_overlay in Hm. audit_frame.
Qed.

Lemma fold_all_audit batch folds db db' : fold_all batch folds db = Ok db' → rd_audit db' = rd_audit db.
Proof.
  revert db. induction folds as [|[sid [keeper window]] folds IH]; intros db; cbn [fold_all]; [by intros [= <-]|].
  intros H. apply bind_Ok in H as (db1 & Hf & H). rewrite (IH _ H). unfold fold_sparse_rows in Hf.
  destruct (fold_loop _ _ _ _ _ _ _ _) as [[[items rows] bytes]|]; [|by injection Hf as <-].
  destruct (rows =? 0); [by injection Hf as <-|]. audit_frame.
Qed.

(** What [_delete_snapshots] removes is what it returns, and the audit trail
    gains exactly those of the events it was given. *)
Lemma delete_snapshots_removes free now stamp batch snap_ids events db db' sids :
  wf_db db → delete_snapshots free now stamp batch snap_ids events db = Ok (db', sids) →
  (∀ i, i ∈ sids → i ∈ snap_ids ∧ ∃ s, rd_snaps db !! i = Some s ∧ deletable free now db s = true) ∧
  (∀ i, is_Some (rd_snaps db' !! i) ↔ is_Some (rd_snaps db !! i) ∧ i ∉ sids) ∧
  rd_audit db' = rd_audit db ++ filter (λ i, i ∈ events) sids.
Proof.
  intros Hwf Hdel. apply delete_snapshots_inv in Hdel as [[-> ->]|Hdel].
  { split_and!; [set_solver|set_solver|]. by rewrite filter_nil, app_nil_r. }
  destruct Hdel as (doomed & folds & db1 & db2 & db3 & _ & -> & Hre & Hfold & Hdrop & ->).
  set (sids := filter _ _) in *.
  assert (∀ i, i ∈ sids → i ∈ doomed ∧ i ∈ qualified free now snap_ids db) as Hsd
    by (intros i; unfold sids; by rewrite list_elem_of_filter).
  split_and!.
  - intros i [_ Hq]%Hsd. by apply qualified_spec.
  - intros i. pose proof (rehydrate_all_ids _ _ _ _ _ Hwf (λ i Hi, proj1 (Hsd i Hi)) Hre i) as Hid.
    pose proof (fold_all_dense _ _ _ _ Hfold) as (_ & Hc & _). pose proof (drop_snapshots_cols _ _ _ i Hdrop) as Hc3.
    rewrite Hc in Hc3. unfold cols in Hid at 2. rewrite fmap_is_Some in Hid. rewrite <-Hid.
    assert (is_Some (rd_snaps (add_audit events sids db3) !! i) ↔ is_Some (cols db3 i)) as ->
      by (unfold cols; rewrite fmap_is_Some; done).
    rewrite Hc3. case_bool_decide; [|tauto]. split; [by intros []|tauto].
  - cbn. f_equal. unfold drop_snapshots in Hdrop. apply bind_Ok in Hdrop as (_ & _ & [= <-]). cbn.
    by rewrite (fold_all_audit _ _ _ _ Hfold), (rehydrate_all_audit _ _ _ _ _ Hre).
Qed.

Lemma same_rows_wf db db' : same_rows db db' → wf_db db → wf_db db'.
Proof.
  intros (Hi & Hr & Hc) []. split; setoid_rewrite Hc || rewrite Hi; try rewrite Hi; done.
Qed.

Lemma restate_row_cols now items s :
  let s' := restate_row now items s in
  r_id s' = r_id s ∧ r_resource s' = r_resource s ∧ r_status s' = r_status s ∧
  r_chain_root s' = r_chain_root s ∧ r_overlay_base s' = r_overlay_base s.
Proof. unfold restate_row. cbn zeta. by destruct (_ && _). Qed.

Lemma restate_same now res db : same_rows db (restate_lying_counters now res db).
Proof.
  split_and!; [done..|]. intros i. unfold cols, restate_lying_counters. cbn. rewrite lookup_fmap.
  destruct (rd_snaps db !! i) as [s|]; [|done]. cbn. case_bool_decide; [|done].
  destruct (restate_row_cols now (rd_items db) s) as (-> & _ & _ & -> & ->). done.
Qed.

Lemma restate_ids now res db i :
  is_Some (rd_snaps (restate_lying_counters now res db) !! i) ↔ is_Some (rd_snaps db !! i).
Proof. unfold restate_lying_counters. cbn. by rewrite lookup_fmap, fmap_is_Some. Qed.

Lemma elem_of_rows_of_resource res db s :
  s ∈ rows_of_resource res db ↔ r_resource s = res ∧ ∃ i, rd_snaps db !! i = Some s.
Proof.
  unfold rows_of_resource. rewrite list_elem_of_filter, list_elem_of_fmap. split.
  - intros [? ([i t] & -> & Hin%elem_of_map_to_list)]. eauto.
  - intros [? [i Hi]]. split; [done|]. exists (i, s). by rewrite elem_of_map_to_list.
Qed.

(** What is left of the wanted ids is outside the keep set, unpinned and not in flight. *)
Lemma to_delete_spec free now archived snaps policy i :
  i ∈ (to_delete free now archived snaps policy).2 →
  i ∈ ids snaps ∧ (i ∉ keep_ids now archived snaps policy) ∧ free i = true ∧
  ∀ s, s ∈ snaps → r_id s = i → is_protected_in_flight now s = false.
Proof.
  unfold to_delete. cbn [fst snd]. rewrite !elem_of_difference, elem_of_union, elem_of_filter, elem_of_difference.
  intros [[[Hi Hk] Hn] Hf]. split_and!; [done..| |].
  - destruct (free i); [done|]. destruct Hn. right. done.
  - intros s Hs <-. apply not_true_iff_false. intros Hp. apply Hf, elem_of_ids. exists s.
    split; [done|]. by rewrite filter_spec.
Qed.

(** What the daily pass deletes for one resource is exactly what it writes to the
    audit trail, and each deleted snapshot belongs to that resource, lies outside
    the keep set computed from restated counters, is not pinned by a pending copy,
    was not in flight and passed the locked guard; nothing is deleted on hold or
    with the kill switch off. *)
Theorem pass_deletes_only_expired free now stamp batch enabled policies res db st db' st' counted :
  wf_db db → enforce_resource free now stamp batch enabled policies res db st = Ok (db', st', counted) →
  let db0 := restate_lying_counters now (rs_id res) db in
  ∃ deleted, rd_audit db' = rd_audit db ++ deleted ∧
    (∀ i, i ∈ deleted ↔ is_Some (rd_snaps db !! i) ∧ rd_snaps db' !! i = None) ∧
    ∀ i, i ∈ deleted →
      enabled = true ∧ ∃ policy s, policy_of policies res = Some policy ∧ is_on_hold now policy = false ∧
        rd_snaps db0 !! i = Some s ∧ r_resource s = rs_id res ∧
        (i ∉ keep_ids now (is_archived (rs_status res)) (rows_of_resource (rs_id res) db0) policy) ∧
        free i = true ∧ is_protected_in_flight now s = false ∧ deletable free now db0 s = true.
Proof.
  intros Hwf Hrun db0.
  assert (∀ d (Q : string → Prop), (∀ i, is_Some (rd_snaps d !! i) ↔ is_Some (rd_snaps db !! i)) → rd_audit d = rd_audit db →
    ∃ deleted, rd_audit d = rd_audit db ++ deleted ∧
      (∀ i, i ∈ deleted ↔ is_Some (rd_snaps db !! i) ∧ rd_snaps d !! i = None) ∧ ∀ i, i ∈ deleted → Q i) as Hnone.
  { intros d Q Hids Ha. exists []. rewrite app_nil_r. split_and!; [done| |set_solver].
    intros i. rewrite <-Hids. split; [set_solver|]. intros [[? Hs] Hn]. congruence. }
  unfold enforce_resource in Hrun. cbn zeta in Hrun.
  destruct (policy_of policies res) as [policy|] eqn:Hpol;
    [|injection Hrun as <- _ _; by apply Hnone].
  destruct (is_on_hold now policy) eqn:Hhold;
    [injection Hrun as <- _ _; by apply Hnone|].
  case_bool_decide;
    [injection Hrun as <- _ _; by apply Hnone|].
  fold db0 in Hrun.
  pose proof (to_delete_spec free now (is_archived (rs_status res)) (rows_of_resource (rs_id res) db0) policy) as Hspec.
  destruct (to_delete _ _ _ _ _) as [[keep skipped] doomed]. cbn [fst snd] in Hspec.
  apply bind_Ok in Hrun as ([[db1 n] w] & Hdel & Hrun). injection Hrun as <- _ _.
  destruct (retention_deletes_permitted enabled doomed) eqn:Hperm.
  2:{ injection Hdel as <- _ _. apply Hnone; [intros; apply restate_ids|done]. }
  apply bind_Ok in Hdel as ([db2 sids] & Hdel & [= <- _ _]).
  unfold retention_deletes_permitted in Hperm. apply andb_true_iff in Hperm as [-> _].
  pose proof (same_rows_wf _ _ (restate_same now (rs_id res) db) Hwf) as Hwf0. fold db0 in Hwf0.
  apply delete_snapshots_removes in Hdel as (Hsids & Hids & Haudit); [|done].
  exists sids. rewrite Haudit. split_and!.
  - rewrite (list_filter_all (λ i, i ∈ doomed)); [done|]. intros i Hi. by destruct (Hsids i Hi).
  - intros i. rewrite eq_None_not_Some, Hids. unfold db0. rewrite restate_ids. fold db0. split.
    + intros Hi. destruct (Hsids i Hi) as (_ & s & Hs & _). split; [|tauto].
      apply (restate_ids now (rs_id res)). by exists s.
    + intros [? Hn]. destruct (decide (i ∈ sids)); tauto.
  - intros i Hi. destruct (Hsids i Hi) as (Hd & s & Hs & Hdel). split; [done|].
    apply Hspec in Hd as ((t & Ht & Htin)%elem_of_ids & Hk & Hf & Hfl).
    apply elem_of_rows_of_resource in Htin as Htin'. destruct Htin' as [Hres [j Hj]].
    assert (j = i) as -> by (rewrite <-Ht; symmetry; by eapply wf_keyed, cols_lookup).
    rewrite Hs in Hj. apply (inj Some) in Hj as <-. exists policy, s. split_and!; try done. by apply Hfl.
Qed.

(** ** Counters *)

(** A settled row that owns items is data-bearing once its counters are restated. *)
Lemma restated_row_holds_data now items s it :
  it ∈ items → si_snap it = r_id s → is_protected_in_flight now s = false →
  extra_true "skipped_concurrent" s = false → r_status s ≠ Some SPendingDeletion →
  holds_recoverable_data (restate_row now items s) = true.
Proof.
  intros Hit Hs Hfl Hsk Hst. unfold restate_row, suspect. cbn zeta. rewrite Hfl.
  assert (filter (λ it, si_snap it = r_id s) items ≠ []) as Hne.
  { apply (elem_nonempty it), list_elem_of_filter. done. }
  destruct (holds_persisted_content s) eqn:Hp; cbn [negb andb].
  - unfold holds_recoverable_data. by rewrite Hsk, bool_decide_eq_false_2, Hp.
  - rewrite (bool_decide_eq_false_2 (_ = [])) by done. cbn [negb].
    unfold holds_recoverable_data, holds_persisted_content, extra_true in *. cbn [r_extra r_status r_item_count r_bytes_total set_counts].
    rewrite Hsk, bool_decide_eq_false_2 by done. cbn.
    replace (0 <? _) with true; [done|]. symmetry. apply Z.ltb_lt.
    destruct (filter _ items); [done|]. cbn. lia.
Qed.

(** ** A doomed pointer older than the heir *)

Lemma run_at_set_heir stamp did heir d db h : run_at (promote_heir stamp did heir d db h) = run_at h.
Proof. done. Qed.

Lemma update_other trigger w set db db' i s :
  update_snapshots trigger w set db = Ok db' → rd_snaps db !! i = Some s → w s = false → rd_snaps db' !! i = Some s.
Proof. intros [-> _]%update_snapshots_Ok Hi Hw. cbn. by rewrite lookup_fmap, Hi; cbn; rewrite Hw. Qed.

Lemma update_run_at trigger w set db db' i :
  update_snapshots trigger w set db = Ok db' → (∀ s, run_at (set s) = run_at s) →
  run_at <$> rd_snaps db' !! i = run_at <$> rd_snaps db !! i.
Proof.
  intros [-> _]%update_snapshots_Ok Hset. cbn. rewrite lookup_fmap. destruct (rd_snaps db !! i) as [s|]; [|done].
  cbn. destruct (w s); [by rewrite Hset|done].
Qed.

(** A reuse pointer that is doomed together with its chain root, or is not
    COMPLETED, blocks the hand-over when it is not younger than the heir: the
    repoint of step 4 covers every pointer of the doomed root, the doomed ones
    included, and the validation trigger rejects a parent that is not strictly
    older. The exception rolls back the tenant's pass. *)
Theorem older_pointer_blocks_retention stamp did doomed db d z :
  wf_db db → rd_snaps db !! did = Some d → rd_snaps db !! r_id z = Some z →
  r_chain_root z = Some did → r_reuse_of z = Some did → heir_candidate did doomed z = false →
  (∃ i h, rd_snaps db !! i = Some h ∧ heir_candidate did doomed h = true) →
  (∀ i h, rd_snaps db !! i = Some h → heir_candidate did doomed h = true → sql_lt (run_at h) (run_at z) = false) →
  is_ok (rehydrate_reuse_heir stamp did doomed db) = false.
Proof.
  intros Hwf Hd Hz Hcz Hrz Hnz (i0 & h0 & Hh0 & Hcand0) Hold.
  destruct (rehydrate_reuse_heir stamp did doomed db) as [[db' oh]|e] eqn:Hrun; [|done]. exfalso.
  unfold rehydrate_reuse_heir in Hrun. rewrite Hd in Hrun.
  destruct (head (merge_sort _ _)) as [h|] eqn:Hh.
  2:{ apply head_None, (f_equal length) in Hh. rewrite merge_sort_Permutation in Hh. apply nil_length_inv in Hh.
      assert (h0 ∈ filter (heir_candidate did doomed) (map_to_list (rd_snaps db)).*2) as Hin
        by (apply elem_of_rows_where; eauto). rewrite Hh in Hin. set_solver. }
  assert (h ∈ filter (heir_candidate did doomed) (map_to_list (rd_snaps db)).*2) as Hin.
  { rewrite <-(merge_sort_Permutation by_run_at). by apply list.head_Some_elem_of. }
  apply elem_of_rows_where in Hin as [Hcand [i Hi]].
  pose proof (wf_keyed _ Hwf _ _ _ _ (cols_lookup _ _ _ Hi)) as Hid. subst i.
  pose proof (Hold _ _ Hi Hcand) as Hlt.
  assert (has_id (r_id h) z = false) as Hzh.
  { apply bool_decide_eq_false. intros Heq. rewrite Heq, Hi in Hz. apply (inj Some) in Hz as ->. congruence. }
  cbn zeta in Hrun. apply bind_Ok in Hrun as (db2 & Hu2 & Hrun).
  apply bind_Ok in Hrun as (db3 & Hu3 & Hrun). apply bind_Ok in Hrun as (db4 & Hu4 & Hrun).
  apply bind_Ok in Hrun as (db5 & Hu5 & _).
  assert (run_at <$> rd_snaps db4 !! r_id h = Some (run_at h)) as Hrh.
  { rewrite (update_run_at _ _ _ _ _ _ Hu4), (update_run_at _ _ _ _ _ _ Hu3), (update_run_at _ _ _ _ _ _ Hu2) by done.
    cbn. by rewrite Hi. }
  assert (rd_snaps db4 !! r_id z = Some z) as Hz4.
  { eapply update_other; [exact Hu4| |done]. eapply update_other; [exact Hu3| |done].
    eapply update_other; [exact Hu2|done|]. cbv beta. by rewrite Hzh. }
  apply update_snapshots_Ok in Hu5 as [_ Ht]. specialize (Ht _ _ Hz4). cbv beta in Ht.
  rewrite Hcz, Hzh, bool_decide_eq_true_2 in Ht by done. specialize (Ht eq_refl).
  unfold reuse_triggers, validate_reuse in Ht. cbn [r_reuse_of r_chain_root set_reuse] in Ht.
  rewrite Hrz, bool_decide_eq_true_2 in Ht by done.
  destruct (rd_snaps db4 !! r_id h) as [h4|]; [|done]. cbn in Hrh. injection Hrh as Hrh.
  assert (run_at (set_reuse (Some (r_id h)) (Some (r_id h)) z) = run_at z) as Hrz' by done.
  rewrite Hrz', Hrh, Hlt, andb_false_r in Ht. done.
Qed.

Module RetentionPassExamples.
Import RetentionDeleteExamples.
Definition hour (n : Z) : Z := 1000 * Calendar.US_PER_DAY + n * 3600 * 1000000.

(** Thirty days of flat retention over a mailbox backed up every eight hours: an
    old large baseline, a later full snapshot and the pointers to it. *)
Definition flat30 : sla_policy :=
  SlaPolicy "gold" true (Some "FLAT") (Some 30) (Some 0) (Some 0) (Some 0) None None None None
    (Some "SAME") None false None (Some "None").
Definition pointer (i : string) (at_ : Z) : snap_row := set_reuse (Some "full") (Some "full") (full i at_ 2).
Definition mailbox : ret_db :=
  RetDb
    {[ "base" := full "base" (hour 0) 9; "full" := full "full" (hour 240) 2;
       "p1" := pointer "p1" (hour 248); "p2" := pointer "p2" (hour 256); "p3" := pointer "p3" (hour 800) ]}
    (mail "full" "m1" "v1" :: mail "full" "m2" "v1" :: ((λ e, mail "base" e "v0") <$> ["a"; "b"; "c"; "d"; "e"; "f"; "g"; "h"; "i"]))
    ∅ ∅ [] [].
Definition res : resource_row := ResourceRow "mailbox" (Some "gold") RActive.
Definition pass (now : Z) := enforce_resource (λ _, true) now "now" FOLD_BATCH true [flat30] res mailbox no_stats.

Lemma mailbox_wf : wf_db mailbox.
Proof. apply wf_check_sound. vm_compute. reflexivity. Qed.

(** With only the full snapshot expired the pass deletes it; four hours later its
    first pointer expires too, and every pass of the tenant fails. *)
Example pass_before : (λ r, (elements (dom (rd_snaps r.1.1)), rd_audit r.1.1)) <$> pass (hour (240 + 722))
  = Ok (elements (dom (rd_snaps mailbox) ∖ {["full"]}), ["full"]).
Proof. vm_compute. reflexivity. Qed.

Example pass_after :
  let '(db, r) := enforce_loop (λ _, true) (hour (240 + 730)) "now" FOLD_BATCH true [flat30] [res] mailbox mailbox 0 no_stats in
  (r, elements (dom (rd_snaps db))) = (Err ReuseTargetInvalid, elements (dom (rd_snaps mailbox))).
Proof. vm_compute. reflexivity. Qed.

Lemma older_pointer_blocks_retention_witness :
  is_ok (rehydrate_reuse_heir "now" "full" {["full"; "p1"]} mailbox) = false.
Proof.
  assert (∀ i s, rd_snaps mailbox !! i = Some s → heir_candidate "full" {["full"; "p1"]} s = true →
    s = pointer "p2" (hour 256) ∨ s = pointer "p3" (hour 800)) as Hrows.
  { intros i s Hi Hc. apply elem_of_map_to_list in Hi.
    assert (forallb (λ kv, negb (heir_candidate "full" {["full"; "p1"]} kv.2)
      || bool_decide (r_id kv.2 ∈ ["p2"; "p3"])) (map_to_list (rd_snaps mailbox)) = true) as HF by (vm_compute; reflexivity).
    rewrite forallb_Forall, Forall_forall in HF. specialize (HF _ Hi). cbn [snd] in HF. rewrite Hc in HF. cbn [negb orb] in HF.
    apply bool_decide_eq_true in HF. apply elem_of_map_to_list in Hi. unfold mailbox in Hi. cbn [rd_snaps] in Hi.
    rewrite !lookup_insert_Some, lookup_singleton_Some in Hi.
    destruct Hi as [[_ <-]|[_ [[_ <-]|[_ [[_ <-]|[_ [[_ <-]|[_ [_ <-]]]]]]]]]; cbn in HF; (by auto) || (exfalso; clear -HF; set_solver). }
  apply (older_pointer_blocks_retention "now" "full" {["full"; "p1"]} mailbox (full "full" (hour 240) 2) (pointer "p1" (hour 248))).
  - exact mailbox_wf.
  - reflexivity.
  - reflexivity.
  - reflexivity.
  - reflexivity.
  - vm_compute. reflexivity.
  - exists "p2", (pointer "p2" (hour 256)). split; [reflexivity|vm_compute; reflexivity].
  - intros i h Hi Hc. destruct (Hrows i h Hi Hc) as [->| ->]; vm_compute; reflexivity.
Defined.

Lemma pass_deletes_only_expired_witness :
  is_ok (pass (hour (240 + 722))) = true ∧
  ∃ deleted, rd_audit (from_ok (mailbox, no_stats, false) (pass (hour (240 + 722)))).1.1 = [] ++ deleted.
Proof.
  assert (is_ok (pass (hour (240 + 722))) = true) as H by (vm_compute; reflexivity). split; [exact H|].
  pose proof (is_ok_from (mailbox, no_stats, false) _ H) as Hrun.
  destruct (from_ok (mailbox, no_stats, false) (pass (hour (240 + 722)))) as [[db' st'] c] eqn:E.
  destruct (pass_deletes_only_expired _ _ _ _ _ _ _ _ _ db' st' c mailbox_wf Hrun) as (deleted & Ha & _).
  exists deleted. exact Ha.
Defined.

Lemma paging_is_exhaustive_witness :
  iter_tenant_resources Pos.ltb 6 [2; 3; 5; 7; 11]%positive None 2 = Some [2; 3; 5; 7; 11]%positive.
Proof.
  apply (paging_is_exhaustive Pos.ltb [2; 3; 5; 7; 11]%positive 2).
  - intros a b c. rewrite !Pos.ltb_lt. lia.
  - intros a. apply Pos.ltb_irrefl.
  - repeat constructor.
  - lia.
Defined.
End RetentionPassExamples.
