(* ===== verification/Router.v ===== *)
(** * The storage router

    [StorageRouter] of [src/shared/storage/router.py] and the two
    [from_config] constructors it calls ([src/shared/storage/azure_blob.py],
    [src/shared/storage/seaweedfs.py]): the in-memory registry of backends that
    every read and write of the data plane goes through, and its reload from the
    [storage_backends] and [system_config] tables. The process environment
    ([os.getenv]) is a parameter. *)

From S2P Require Import Prelude.
Local Open Scope Z_scope.

(** ** Tables *)

(** [system_config.transition_state]: the values the code writes. *)
Inductive transition_state := stable | draining | flipping.

Global Instance transition_state_eq_dec : EqDecision transition_state.
Proof. solve_decision. Defined.

Record system_config := SystemConfig {
  sc_active : string;
  sc_transition : transition_state;
  sc_last_toggle : option Z;
  sc_cooldown : option Z;
}.

(** The keys of [storage_backends.config] the constructors read. *)
Record backend_config := BackendConfig {
  bc_connection_string : option string;
  bc_shards : list (string * string);
  bc_buckets : list string;
}.

Record backend_row := BackendRow {
  sb_id : string;
  sb_kind : string;
  sb_name : string;
  sb_endpoint : string;
  sb_config : backend_config;
  sb_secret_ref : string;
  sb_enabled : bool;
}.

(** ** Stores *)

Record store := Store {
  st_backend_id : string;
  st_kind : string;
  st_name : string;
  st_endpoint : string;
  st_credentials : list string;
  st_shards : list string;
}.

Inductive router_err :=
  | TransitionInProgressError (st : transition_state)
  | BackendNotFoundError (bid : string)
  | NotLoaded
  | BadReference (ref : string).

Global Instance router_err_eq_dec : EqDecision router_err.
Proof. solve_decision. Defined.

Definition env_ref : string := "env://".

(** [ref[len("env://"):]] when [ref.startswith("env://")]. *)
Definition strip_env (ref : string) : option string :=
  if String.prefix env_ref ref
  then Some (String.substring 6 (String.length ref - 6) ref) else None.

Section router.
  Context (getenv : string → option string).

(** [os.getenv(name, "")] *)
Definition getenv_or_empty (name : string) : string := default "" (getenv name).

Definition azure_shard (s : string * string) : result router_err (string * string) :=
  match strip_env s.2 with
  | Some name => Ok (s.1, getenv_or_empty name)
  | None => Err (BadReference s.2)
  end.

Definition azure_from_config (r : backend_row) : result router_err store :=
  match bc_connection_string (sb_config r) with
  | Some ref =>
      if bool_decide (ref = "") then
        shards ← mapR azure_shard (bc_shards (sb_config r));
        Ok (Store (sb_id r) "azure_blob" (sb_name r) "" shards.*2 shards.*1)
      else
        let conn := match strip_env ref with
                    | Some name => getenv_or_empty name
                    | None => ref
                    end in
        if bool_decide (conn = "") then Err (BadReference ref)
        else Ok (Store (sb_id r) "azure_blob" (sb_name r) "" [conn] [conn])
  | None =>
      shards ← mapR azure_shard (bc_shards (sb_config r));
      Ok (Store (sb_id r) "azure_blob" (sb_name r) "" shards.*2 shards.*1)
  end.

Definition seaweed_from_config (r : backend_row) : result router_err store :=
  match strip_env (sb_secret_ref r) with
  | Some name =>
      Ok (Store (sb_id r) "seaweedfs" (sb_name r) (sb_endpoint r)
            [getenv_or_empty name] (bc_buckets (sb_config r)))
  | None => Err (BadReference (sb_secret_ref r))
  end.

(** [None]: an unknown kind, skipped with a warning. *)
Definition store_of_row (r : backend_row) : result router_err (option store) :=
  if bool_decide (sb_kind r = "azure_blob") then Some <$> azure_from_config r
  else if bool_decide (sb_kind r = "seaweedfs") then Some <$> seaweed_from_config r
  else Ok None.

(** ** The router's state *)

Record router := Router {
  ro_backends : gmap string store;
  ro_active : option string;
  ro_transition : transition_state;
  ro_cooldown : option Z;
}.

(** [StorageRouter.__init__] *)
Definition router_init : router := Router ∅ None stable None.

(** The loop over the rows: a dict keyed by id, in row order. *)
Fixpoint register_all (rows : list backend_row) (m : gmap string store) :
    result router_err (gmap string store) :=
  match rows with
  | [] => Ok m
  | r :: rows =>
      os ← store_of_row r;
      register_all rows (match os with Some s => <[sb_id r := s]> m | None => m end)
  end.

(** [_reload_from_db]: [tables_exist] false leaves the registry alone; a raise
    of a constructor leaves it alone as well, since [self._backends] is only
    assigned after the loop. *)
Definition reload (tables_exist : bool) (rows : list backend_row)
    (sc : option system_config) (ro : router) : result router_err router :=
  if negb tables_exist then Ok ro
  else
    bs ← register_all (filter (λ r, sb_enabled r) rows) ∅;
    Ok match sc with
       | Some c => Router bs (Some (sc_active c)) (sc_transition c) (sc_cooldown c)
       | None => Router bs (ro_active ro) (ro_transition ro) (ro_cooldown ro)
       end.

(** What the process's router holds after a reload was attempted: the listener
    and heartbeat only log a reload that raised. *)
Definition reload_or_keep (tables_exist : bool) (rows : list backend_row)
    (sc : option system_config) (ro : router) : router :=
  from_ok ro (reload tables_exist rows sc ro).

Definition get_store_by_id (ro : router) (bid : string) : result router_err store :=
  of_option (BackendNotFoundError bid) (ro_backends ro !! bid).

Definition get_active_store (ro : router) : result router_err store :=
  if bool_decide (ro_transition ro = stable) then
    match ro_active ro with
    | Some bid => if bool_decide (bid = "") then Err NotLoaded else get_store_by_id ro bid
    | None => Err NotLoaded
    end
  else Err (TransitionInProgressError (ro_transition ro)).

(** [get_store_for_item] and [get_store_for_snapshot]: the row's own
    [backend_id] decides, whatever the active backend or the transition. *)
Definition get_store_for_item (ro : router) (item_backend_id : string) : result router_err store :=
  get_store_by_id ro item_backend_id.

Definition writable (ro : router) : bool := bool_decide (ro_transition ro = stable).

Definition list_backends (ro : router) : list store := (map_to_list (ro_backends ro)).*2.

(** ** Registration *)

Definition row_ids (rows : list backend_row) : list string := sb_id <$> rows.

Lemma register_all_other rows m m' bid :
  register_all rows m = Ok m' → (bid ∉ row_ids rows) → m' !! bid = m !! bid.
Proof.
  revert m. induction rows as [|r rows IH]; intros m; simpl; [by intros [= ->]|].
  intros (os & Hos & Hr)%bind_Ok Hn. rewrite not_elem_of_cons in Hn. destruct Hn as [Hne Hn].
  rewrite (IH _ Hr Hn). destruct os; [|done]. by rewrite lookup_insert_ne.
Qed.

Lemma register_all_elem rows m m' r :
  NoDup (row_ids rows) → register_all rows m = Ok m' → r ∈ rows →
  ∃ os, store_of_row r = Ok os ∧ m' !! sb_id r = match os with Some s => Some s | None => m !! sb_id r end.
Proof.
  revert m. induction rows as [|r0 rows IH]; intros m Hnd; [by intros _ ?%not_elem_of_nil|].
  simpl. intros (os & Hos & Hr)%bind_Ok.
  apply NoDup_cons in Hnd as [Hn0 Hnd]. intros [->|Hin]%elem_of_cons.
  - exists os. split; [done|]. rewrite (register_all_other _ _ _ _ Hr Hn0).
    destruct os; [by rewrite lookup_insert_eq|done].
  - destruct (IH _ Hnd Hr Hin) as (os' & ? & Hl). exists os'. split; [done|]. rewrite Hl.
    destruct os'; [done|]. destruct os; [|done]. rewrite lookup_insert_ne; [done|].
    intros Heq. apply Hn0. rewrite Heq. by apply list_elem_of_fmap_2.
Qed.

Lemma register_all_raises rows m r e :
  r ∈ rows → store_of_row r = Err e → ∃ e', register_all rows m = Err e'.
Proof.
  revert m. induction rows as [|r0 rows IH]; intros m; [by intros ?%not_elem_of_nil|].
  intros [->|Hin]%elem_of_cons He; simpl.
  - rewrite He. by exists e.
  - destruct (store_of_row r0) as [os|e0]; simpl; [by apply IH|by exists e0].
Qed.

Lemma store_of_row_id r s : store_of_row r = Ok (Some s) → st_backend_id s = sb_id r.
Proof.
  assert (∀ m : result router_err store, Some <$> m = Ok (Some s) → m = Ok s) as Hsome.
  { intros [x|e]; simpl; congruence. }
  unfold store_of_row. case_bool_decide; [|case_bool_decide; [|done]]; intros Hm%Hsome.
  - unfold azure_from_config in Hm.
    destruct (bc_connection_string _); [destruct (bool_decide _); [|destruct (bool_decide _)]|];
      inv_ok; subst; try done.
  - unfold seaweed_from_config in Hm. destruct (strip_env _); inv_ok; by subst.
Qed.

Lemma elem_of_enabled (rows : list backend_row) r : r ∈ filter (λ r, sb_enabled r) rows ↔ r ∈ rows ∧ sb_enabled r = true.
Proof. rewrite list_elem_of_filter, Is_true_true. naive_solver. Qed.

Lemma reload_backends rows c ro ro' :
  reload true rows (Some c) ro = Ok ro' →
  register_all (filter (λ r, sb_enabled r) rows) ∅ = Ok (ro_backends ro') ∧
  ro_active ro' = Some (sc_active c) ∧ ro_transition ro' = sc_transition c.
Proof. unfold reload; simpl. intros (bs & Hbs & [= <-])%bind_Ok. done. Qed.

(** A reload that returned makes the router route by the tables: every
    enabled row of a known kind answers for its own id whatever the transition,
    so items keep being readable on the backend that stored them; the active
    store is handed out for writing exactly while the transition is 'stable' and
    an enabled row backs the active id; an id no enabled row backs is an error. *)
Theorem reloaded_router_routes rows c ro ro' :
  NoDup (row_ids rows) →
  reload true rows (Some c) ro = Ok ro' →
  (∀ r s, r ∈ rows → sb_enabled r = true → store_of_row r = Ok (Some s) →
     get_store_for_item ro' (sb_id r) = Ok s ∧ st_backend_id s = sb_id r ∧
     (sc_active c = sb_id r → sb_id r ≠ "" →
        get_active_store ro' = if bool_decide (sc_transition c = stable) then Ok s
                               else Err (TransitionInProgressError (sc_transition c)))) ∧
  (∀ bid, (∀ r s, r ∈ rows → sb_id r = bid → sb_enabled r = true → store_of_row r ≠ Ok (Some s)) →
     get_store_for_item ro' bid = Err (BackendNotFoundError bid) ∧
     (sc_active c = bid → is_ok (get_active_store ro') = false)).
Proof.
  intros Hnd (Hreg & Hact & Htr)%reload_backends.
  assert (NoDup (row_ids (filter (λ r, sb_enabled r) rows))) as Hnd' by by apply NoDup_fmap_filter.
  unfold get_active_store, get_store_for_item. rewrite Hact, Htr. split.
  - intros r s Hin Hen Hs.
    destruct (register_all_elem _ _ _ r Hnd' Hreg) as (os & Hos & Hl); [by apply elem_of_enabled|].
    rewrite Hs in Hos. injection Hos as <-.
    assert (get_store_by_id ro' (sb_id r) = Ok s) as Hget by (unfold get_store_by_id; by rewrite Hl).
    split_and!; [done|by apply store_of_row_id|]. intros -> Hne.
    rewrite (bool_decide_false (sb_id r = "")) by done. by rewrite Hget.
  - intros bid Hno.
    assert (get_store_by_id ro' bid = Err (BackendNotFoundError bid)) as Hget.
    { unfold get_store_by_id. destruct (decide (bid ∈ row_ids (filter (λ r, sb_enabled r) rows))) as [Hin|Hin].
      - apply list_elem_of_fmap in Hin as (r & -> & Hin).
        destruct (register_all_elem _ _ _ r Hnd' Hreg Hin) as (os & Hos & Hl).
        apply elem_of_enabled in Hin as [Hin Hen].
        destruct os as [s|]; [by destruct (Hno r s)|]. by rewrite Hl, lookup_empty.
      - by rewrite (register_all_other _ _ _ _ Hreg Hin), lookup_empty. }
    split; [done|]. intros ->. rewrite Hget. by repeat case_bool_decide.
Qed.

(** One enabled row whose credential reference cannot be resolved makes every
    reload raise, and the router keeps its whole previous view: the registry, the
    active backend and the transition it last saw, however the tables change. *)
Theorem bad_row_freezes_router rows r e :
  r ∈ rows → sb_enabled r = true → store_of_row r = Err e →
  ∀ sc ro, is_ok (reload true rows sc ro) = false ∧ reload_or_keep true rows sc ro = ro.
Proof.
  intros Hin Hen He sc ro. unfold reload_or_keep, reload; simpl.
  destruct (register_all_raises (filter (λ r, sb_enabled r) rows) ∅ r e) as [e' ->];
    [by apply elem_of_enabled|done|]. done.
Qed.
End router.

(** ** A deployment with one on-premises and one cloud backend *)
Module RouterExamples.

Definition env0 (name : string) : option string :=
  if bool_decide (name = "SECRET") then Some "s3cr3t" else None.

Definition onprem : backend_row :=
  BackendRow "b1" "seaweedfs" "seaweedfs-local" "http://weed" (BackendConfig None [] ["bk0"]) "env://SECRET" true.

Definition azure : backend_row :=
  BackendRow "b2" "azure_blob" "azure-primary" "https://az" (BackendConfig (Some "cs") [] []) "" true.

Definition azure_broken : backend_row :=
  BackendRow "b2" "azure_blob" "azure-primary" "https://az" (BackendConfig (Some "env://NONE") [] []) "" true.

Definition config0 : system_config := SystemConfig "b1" stable None None.

Definition router0 : router := from_ok router_init (reload env0 true [onprem; azure] (Some config0) router_init).

Lemma reloaded_router_routes_witness :
  st_backend_id <$> get_active_store router0 = Ok "b1" ∧
  st_name <$> get_store_for_item router0 "b2" = Ok "azure-primary" ∧
  get_store_for_item router0 "b3" = Err (BackendNotFoundError "b3").
Proof.
  assert (reload env0 true [onprem; azure] (Some config0) router_init = Ok router0) as Hr
    by (apply is_ok_from; vm_compute; reflexivity).
  destruct (reloaded_router_routes env0 [onprem; azure] config0 router_init router0) as [H1 H2];
    [refine (bool_decide_unpack _ _); vm_compute; exact I|exact Hr|].
  split_and!.
  - specialize (H1 onprem _ (list_elem_of_here _ _) eq_refl eq_refl) as (_ & _ & H1).
    rewrite H1; [reflexivity|reflexivity|discriminate].
  - specialize (H1 azure _ (list_elem_of_further _ _ _ (list_elem_of_here _ _)) eq_refl eq_refl) as (H1 & _ & _).
    change "b2" with (sb_id azure). rewrite H1. reflexivity.
  - apply H2. intros r s [->|[->|[]%not_elem_of_nil]%elem_of_cons]%elem_of_cons; discriminate.
Defined.

Lemma bad_row_freezes_router_witness :
  let flipped := SystemConfig "b2" draining None None in
  reload_or_keep env0 true [onprem; azure_broken] (Some flipped) router0 = router0.
Proof.
  apply (bad_row_freezes_router env0 [onprem; azure_broken] azure_broken (BadReference "env://NONE"));
    [right; left|reflexivity|reflexivity].
Defined.
End RouterExamples.
