(* ===== verification/Toggle.v ===== *)
(** * The storage toggle

    The operator moves the data plane from one storage backend to another:
    [submit_toggle] and [abort_toggle] of [src/api-gateway/routes/admin_storage.py]
    write the [storage_toggle_events] row and queue a message, and the toggle
    worker ([src/services/storage_toggle_worker/], one instance at a time under an
    advisory lock) runs [run_toggle], eight phases of single-statement
    transactions. The worker is a machine that executes one statement or external
    call per step, so that the endpoints, other services and a dying pod
    interleave anywhere. Every step takes an [answer]: whether the call returned
    or raised, and what the outside world replied.

    Not kept: the [detail] text of the checks, [error_message], actor columns and
    the columns nothing reads back. *)

From Stdlib Require Import Strings.Ascii.
From S2P Require Import Prelude.
From S2P Require Import Reconciler.
From S2P Require Import Router.
Local Open Scope Z_scope.

(** ** Tables *)

Inductive event_status :=
  | started | drain_started | drain_completed | db_promoted | dns_flipped
  | workers_restarted | smoke_passed | completed | failed | aborted.

Global Instance event_status_eq_dec : EqDecision event_status.
Proof. solve_decision. Defined.

Record toggle_check := ToggleCheck { ck_name : string; ck_ok : bool }.

Record toggle_event := ToggleEvent {
  ev_from : string;
  ev_to : string;
  ev_status : event_status;
  ev_drained : option Z;
  ev_retried : option Z;
  ev_checks : list toggle_check;
}.

(** The columns of [jobs] the drain reads and writes. *)
Record toggle_job := ToggleJob {
  tj_type : string;
  tj_tenant : option string;
  tj_resource : option string;
  tj_snapshot : option string;
  tj_spec : string;
  tj_status : job_status;
  tj_retry_reason : option string;
  tj_pre_toggle : option string;
}.

Record toggle_db := ToggleDb {
  td_config : system_config;
  td_events : gmap string toggle_event;
  td_jobs : gmap string toggle_job;
  td_backends : list backend_row;
}.

(** The RabbitMQ message. [submit_toggle] sends neither kind. *)
Record payload := Payload {
  pl_event : string;
  pl_from : string;
  pl_to : string;
  pl_from_kind : option string;
  pl_target_kind : option string;
}.

(** ** Single statements *)

Definition set_status (st : event_status) (ev : toggle_event) : toggle_event :=
  ToggleEvent (ev_from ev) (ev_to ev) st (ev_drained ev) (ev_retried ev) (ev_checks ev).

Definition set_checks (cs : list toggle_check) (ev : toggle_event) : toggle_event :=
  ToggleEvent (ev_from ev) (ev_to ev) (ev_status ev) (ev_drained ev) (ev_retried ev) cs.

Definition set_drained (d r : Z) (ev : toggle_event) : toggle_event :=
  ToggleEvent (ev_from ev) (ev_to ev) drain_completed (Some d) (Some r) (ev_checks ev).

Definition on_events (f : gmap string toggle_event → gmap string toggle_event) (db : toggle_db) : toggle_db :=
  ToggleDb (td_config db) (f (td_events db)) (td_jobs db) (td_backends db).

Definition on_config (f : system_config → system_config) (db : toggle_db) : toggle_db :=
  ToggleDb (f (td_config db)) (td_events db) (td_jobs db) (td_backends db).

Definition on_jobs (f : gmap string toggle_job → gmap string toggle_job) (db : toggle_db) : toggle_db :=
  ToggleDb (td_config db) (td_events db) (f (td_jobs db)) (td_backends db).

(** [_update_event]: an UPDATE by id, unconditional on the status. *)
Definition update_event (e : string) (f : toggle_event → toggle_event) (db : toggle_db) : toggle_db :=
  on_events (alter f e) db.

Definition set_transition (st : transition_state) (db : toggle_db) : toggle_db :=
  on_config (λ c, SystemConfig (sc_active c) st (sc_last_toggle c) (sc_cooldown c)) db.

Definition set_active (now : Z) (bid : string) (db : toggle_db) : toggle_db :=
  on_config (λ c, SystemConfig bid (sc_transition c) (Some now) (sc_cooldown c)) db.

(** [NOW() + 30 * INTERVAL '1 minute'], in seconds. *)
Definition set_cooldown (now : Z) (minutes : Z) (db : toggle_db) : toggle_db :=
  on_config (λ c, SystemConfig (sc_active c) (sc_transition c) (sc_last_toggle c) (Some (now + minutes * 60))) db.

Definition clear_cooldown (db : toggle_db) : toggle_db :=
  on_config (λ c, SystemConfig (sc_active c) (sc_transition c) (sc_last_toggle c) None) db.

Definition status_of (db : toggle_db) (e : string) : option event_status :=
  ev_status <$> td_events db !! e.

Definition terminal (st : event_status) : bool :=
  match st with completed | failed | aborted => true | _ => false end.

(** [EXISTS (SELECT 1 FROM storage_toggle_events e WHERE e.id <> $1 AND
    e.status NOT IN ('completed','failed','aborted'))] *)
Definition other_live (e : string) (db : toggle_db) : bool :=
  existsb (λ kv, negb (bool_decide (kv.1 = e)) && negb (terminal (ev_status kv.2)))
    (map_to_list (td_events db)).

(** [_release_transition_if_dirty] and [_release_transition_if_no_live_toggle]:
    the same UPDATE. *)
Definition release_transition (e : string) (db : toggle_db) : toggle_db :=
  if negb (bool_decide (sc_transition (td_config db) = stable)) && negb (other_live e db)
  then set_transition stable db else db.

(** ** The endpoints *)

Inductive http_err :=
  | BadConfirmation | TransitionBusy | CooldownActive | AlreadyActive
  | UnknownTarget | TargetDisabled | EventNotFound | TooLateToAbort.

Record toggle_request := ToggleRequest {
  rq_target : string;
  rq_confirmation : string;
  rq_org_id : option string;
}.

Section endpoints.
  Context (expected_confirm : option string).

(** [_EXPECTED_ORG_CONFIRM or (org_id and str(org_id)) or "TMVAULT-ORG"]; the
    environment's empty text is already [None]. *)
Definition confirm_text (rq : toggle_request) : string :=
  match expected_confirm with
  | Some t => t
  | None => match rq_org_id rq with
            | Some o => if bool_decide (o = "") then "TMVAULT-ORG" else o
            | None => "TMVAULT-ORG"
            end
  end.

(** The reads and checks; [event_id] is the fresh [uuid4]. *)
Definition submit_check (now : Z) (event_id : string) (rq : toggle_request) (db : toggle_db) :
    result http_err payload :=
  let sc := td_config db in
  _ ← raise_if (negb (bool_decide (rq_confirmation rq ∈ [confirm_text rq; "TMVAULT-ORG"]))) BadConfirmation;
  _ ← raise_if (negb (bool_decide (sc_transition sc = stable))) TransitionBusy;
  _ ← raise_if (match sc_cooldown sc with Some t => now <? t | None => false end) CooldownActive;
  _ ← raise_if (bool_decide (sc_active sc = rq_target rq)) AlreadyActive;
  target ← of_option UnknownTarget (list_find (λ r, sb_id r = rq_target rq) (td_backends db));
  _ ← raise_if (negb (sb_enabled target.2)) TargetDisabled;
  Ok (Payload event_id (sc_active sc) (rq_target rq) None None).

(** The INSERT, a statement of its own. *)
Definition submit_insert (p : payload) (db : toggle_db) : toggle_db :=
  on_events (insert (pl_event p) (ToggleEvent (pl_from p) (pl_to p) started None None [])) db.

Definition submit_toggle (now : Z) (event_id : string) (rq : toggle_request) (db : toggle_db) :
    result http_err (toggle_db * payload) :=
  p ← submit_check now event_id rq db;
  Ok (submit_insert p db, p).
End endpoints.

(** The first statement of [abort_toggle]: the atomic claim. [Ok] means the
    handler goes on to release the transition: it claimed the event, or the event
    is already terminal. *)
Definition abort_claim (e : string) (db : toggle_db) : result http_err toggle_db :=
  match status_of db e with
  | None => Err EventNotFound
  | Some (started | drain_started) => Ok (update_event e (set_status aborted) db)
  | Some st => if terminal st then Ok db else Err TooLateToAbort
  end.

Definition abort_toggle (e : string) (db : toggle_db) : result http_err toggle_db :=
  release_transition e <$> abort_claim e db.

(** ** Preflight *)

Definition lower_ascii (c : ascii) : ascii :=
  let n := nat_of_ascii c in
  if ((65 <=? n) && (n <=? 90))%nat then ascii_of_nat (n + 32) else c.

Fixpoint lower (s : string) : string :=
  match s with
  | EmptyString => EmptyString
  | String c s => String (lower_ascii c) (lower s)
  end.

(** [sub in s] *)
Fixpoint contains (sub s : string) : bool :=
  String.prefix sub s ||
  match s with EmptyString => false | String _ s => contains sub s end.

(** What the probes of the target answered: the listing, the [get_properties] of
    a key that does not exist, the replica lag in microseconds ([None]: NULL). *)
Record probe := Probe {
  pr_list : bool;
  pr_properties : result string unit;
  pr_write : bool;
  pr_lag : result string (option Z);
}.

(** A negative reply still proves that the endpoint answered. *)
Definition answered (err : string) : bool :=
  let msg := lower err in
  contains "nosuchkey" msg || contains "not found" msg || contains "blobnotfound" msg || contains "404" msg.

Definition reached (pr : probe) : bool :=
  pr_list pr ||
  match pr_properties pr with Ok _ => true | Err msg => answered msg end.

Definition REPLICA_LAG_THRESHOLD_US : Z := 10000000.

(** The write probe ([pr_write]) only fills the detail text. *)
Definition run_preflight (ro : router) (pr : probe) (target : string) (cooldown_elapsed : bool)
    (ts : transition_state) : list toggle_check :=
  [ToggleCheck "no_inflight_transition" (bool_decide (ts = stable));
   ToggleCheck "cooldown_elapsed" cooldown_elapsed;
   ToggleCheck "target_reachable"
     (match get_store_by_id ro target with Ok _ => reached pr | Err _ => false end);
   ToggleCheck "db_replica_lag_ok"
     (match pr_lag pr with
      | Ok lag => default 0 lag <? REPLICA_LAG_THRESHOLD_US
      | Err _ => false
      end);
   ToggleCheck "secrets_accessible" true].

Definition preflight_ok (cs : list toggle_check) : bool := forallb ck_ok cs.

Definition cooldown_elapsed (now : Z) (sc : system_config) : bool :=
  match sc_cooldown sc with None => true | Some t => t <? now end.

(** ** Smoke test *)

Definition smoke_body : bytes :=
  concat (replicate 2048 (String.list_byte_of_string "smoke")).

(** What the two stores answered: whether the upload returned, what the download
    read ([None]: it raised), whether the old endpoint answers TCP, and whether
    the passthrough check ran into its timeout. *)
Record smoke_env := SmokeEnv {
  se_upload : bool;
  se_download : option bytes;
  se_tcp : bool;
  se_old_upload : bool;
  se_old_download : option bytes;
  se_timeout : bool;
  se_strict : bool;
}.

Inductive smoke_err :=
  | SmokeRouter (e : router_err) | NoShards | CanaryUpload | CanaryDownload | RoundTripMismatch
  | OldUnreachable | PassthroughTimeout | PassthroughFailed | PassthroughMismatch.

(** [store.shard_for(..)] raises on a store without shards or buckets. *)
Definition shard_of (ro : router) (bid : string) : result smoke_err store :=
  s ← map_err SmokeRouter (get_store_by_id ro bid);
  _ ← raise_if (bool_decide (st_shards s = [])) NoShards;
  Ok s.

Definition passthrough_check (ro : router) (se : smoke_env) (old_id : string) : result smoke_err unit :=
  _ ← shard_of ro old_id;
  _ ← raise_if (negb (se_old_upload se)) PassthroughFailed;
  restored ← of_option PassthroughFailed (se_old_download se);
  raise_if (negb (bool_decide (restored = smoke_body))) PassthroughMismatch.

(** Outside strict mode the passthrough check can only warn. *)
Definition run_smoke (ro : router) (se : smoke_env) (new_id old_id : string) : result smoke_err unit :=
  _ ← shard_of ro new_id;
  _ ← raise_if (negb (se_upload se)) CanaryUpload;
  got ← of_option CanaryDownload (se_download se);
  _ ← raise_if (negb (bool_decide (got = smoke_body))) RoundTripMismatch;
  old ← map_err SmokeRouter (get_store_by_id ro old_id);
  if negb (bool_decide (st_endpoint old = "")) && negb (se_tcp se)
  then raise_if (se_strict se) OldUnreachable
  else if se_timeout se then raise_if (se_strict se) PassthroughTimeout
  else match passthrough_check ro se old_id with
       | Ok _ => Ok tt
       | Err e => raise_if (se_strict se) e
       end.

(** ** External commands *)

Inductive effect :=
  | Failover (candidate : string)
  | DnsScript (zone : string)
  | Scale (zone deploy : string) (replicas : Z)
  | ActiveBackend (bid : string).

Global Instance effect_eq_dec : EqDecision effect.
Proof. solve_decision. Defined.

(** The strategies of a deployment, from the process environment. *)
Record deploy_env := DeployEnv {
  de_promote : string;
  de_patroni_url : option string;
  de_dns : string;
  de_restart : string;
  de_kube_context : string → option string;
}.

Definition promote_target (de : deploy_env) (kind : string) : option (list effect) :=
  if bool_decide (de_promote de ∈ ["railway"; "noop"]) then Some []
  else if bool_decide (de_promote de = "patroni") then
    match de_patroni_url de with Some _ => Some [Failover kind] | None => None end
  else if bool_decide (de_promote de = "manual") then Some []
  else None.

Definition flip_dns_to (de : deploy_env) (zone : string) : option (list effect) :=
  if bool_decide (de_dns de = "noop") then Some []
  else if bool_decide (de_dns de = "script") then Some [DnsScript zone]
  else None.

Definition DEPLOYMENTS : list string :=
  ["backup-worker"; "restore-worker"; "chat-export-worker"; "azure-workload-worker"; "dr-replication-worker"].

Definition restart_workers (de : deploy_env) (from_zone to_zone : string) : option (list effect) :=
  if bool_decide (de_restart de ∈ ["noop"; "railway"]) then Some []
  else if bool_decide (de_restart de = "kubectl") then
    match de_kube_context de from_zone, de_kube_context de to_zone with
    | Some _, Some _ =>
        Some (((λ d, Scale from_zone d 0) <$> DEPLOYMENTS) ++ ((λ d, Scale to_zone d 4) <$> DEPLOYMENTS))
    | _, _ => None
    end
  else None.

(** Run the commands in order; the command numbered [fail_at] raises, and what ran
    before it stays done. *)
Definition exec_commands (fail_at : option nat) (cmds : option (list effect)) : list effect * bool :=
  match cmds with
  | None => ([], false)
  | Some cs =>
      match fail_at with
      | Some n => if (n <? length cs)%nat then (take n cs, false) else (cs, true)
      | None => (cs, true)
      end
  end.

(** ** The worker *)

Inductive rollback_phase := RbPromote | RbDns | RbWorkers | RbSmoke.

(** Where [run_toggle] stands: the next statement or external call. *)
Inductive phase :=
  | PBegin | PPreflight | PRefuse | PRelease
  | PDrainStart
  | PDrain (deadline last_remaining : Z)
  | PCancel (rows : list (string * toggle_job)) (retried last_remaining : Z)
  | PRetry (r : string * toggle_job) (rows : list (string * toggle_job)) (retried last_remaining : Z)
  | PDrained (drained retried : Z)
  | PStandDown
  | PPromote | PPromoted | PDns | PDnsFlipped | PWorkers | PWorkersRestarted
  | PFlip | PCutover | PSmoke | PSmoked
  | PRevert | PClearCooldown
  | PRollback (ph : rollback_phase) | PMarkFailed (ph : rollback_phase) | PForceFailed
  | POpen | PCooldown | PComplete
  | PAck.

(** The reply to one call: [a_ok] false means that it raised. *)
Record answer := Answer {
  a_ok : bool;
  a_now : Z;
  a_probe : probe;
  a_uuid : string;
  a_fail_at : option nat;
  a_smoke : smoke_env;
}.

(** The tables, the worker's router and the log of what was done outside. *)
Record world := World {
  w_db : toggle_db;
  w_router : router;
  w_log : list (string * effect);
}.

Definition on_db (f : toggle_db → toggle_db) (w : world) : world :=
  World (f (w_db w)) (w_router w) (w_log w).

Definition log_effects (e : string) (cs : list effect) (w : world) : world :=
  World (w_db w) (w_router w) (w_log w ++ ((λ c, (e, c)) <$> cs)).

Inductive next := Goto (ph : phase) | Finished | Raised.

Definition DRAIN_MAX_WAIT_S : Z := 900.
Definition COOLDOWN_MINUTES : Z := 30.

Definition inflight (j : toggle_job) : bool :=
  match tj_status j with JRunning | JQueued | JPending => true | _ => false end.

Definition inflight_jobs (db : toggle_db) : list (string * toggle_job) :=
  filter (λ kv, inflight kv.2) (map_to_list (td_jobs db)).

Definition cancel_job (e : string) (j : toggle_job) : toggle_job :=
  ToggleJob (tj_type j) (tj_tenant j) (tj_resource j) (tj_snapshot j) (tj_spec j) JCancelled
    (Some (String.append "aborted_by_toggle_" e)) (tj_pre_toggle j).

Definition retry_job (e : string) (r : string * toggle_job) : toggle_job :=
  ToggleJob (tj_type r.2) (tj_tenant r.2) (tj_resource r.2) (tj_snapshot r.2) (tj_spec r.2) JQueued
    (Some (String.append "toggle_retry_from_event_" e)) (Some r.1).

Definition default_kind (k : option string) (d : string) : string := default d k.

Section worker.
  Context (getenv : string → option string) (de : deploy_env).

(** A statement outside every [try]: a raise ends the run. *)
Definition statement (a : answer) (f : toggle_db → toggle_db) (k : phase) (w : world) : world * next :=
  if a_ok a then (on_db f w, Goto k) else (w, Raised).

(** A statement inside the [try] of a phase: a raise goes to its handler. *)
Definition guarded (a : answer) (f : toggle_db → toggle_db) (k handler : phase) (w : world) : world * next :=
  if a_ok a then (on_db f w, Goto k) else (w, Goto handler).

(** The external calls of a phase, inside its [try]. *)
Definition commands (a : answer) (e : string) (cmds : option (list effect)) (k handler : phase) (w : world) :
    world * next :=
  let '(done, ok) := exec_commands (a_fail_at a) cmds in
  (log_effects e done w, Goto (if ok then k else handler)).

(** [UPDATE system_config SET active_backend_id], with its trace in the log. *)
Definition cutover (a : answer) (e bid : string) (w : world) : world :=
  log_effects e [ActiveBackend bid] (on_db (set_active (a_now a) bid) w).

(** One poll of [drain_inflight], or its deadline. *)
Definition drain_poll (a : answer) (e : string) (deadline last : Z) (w : world) : world * next :=
  let rows := inflight_jobs (w_db w) in
  if negb (a_ok a) then (w, Raised)
  else if a_now a <? deadline then
    if bool_decide (status_of (w_db w) e = Some aborted) then (w, Goto PStandDown)
    else if bool_decide (rows = []) then (w, Goto (PDrained last 0))
    else (w, Goto (PDrain deadline (Z.of_nat (length rows))))
  else (w, Goto (PCancel rows 0 last)).

(** The write guarded on [status <> 'aborted']. *)
Definition drain_completed_write (a : answer) (e : string) (d r : Z) (w : world) : world * next :=
  if negb (a_ok a) then (w, Raised)
  else match status_of (w_db w) e with
       | Some st => if bool_decide (st = aborted) then (w, Goto PStandDown)
                    else (on_db (update_event e (set_drained d r)) w, Goto PPromote)
       | None => (w, Goto PStandDown)
       end.

(** [router._reload_from_db()] and [run_smoke]. *)
Definition smoke_phase (a : answer) (p : payload) (w : world) : world * next :=
  let db := w_db w in
  if negb (a_ok a) then (w, Goto PRevert)
  else match reload getenv true (td_backends db) (Some (td_config db)) (w_router w) with
       | Err _ => (w, Goto PRevert)
       | Ok ro =>
           (World db ro (w_log w),
            Goto (if is_ok (run_smoke ro (a_smoke a) (pl_to p) (pl_from p)) then PSmoked else PRevert))
       end.

Definition preflight_phase (a : answer) (p : payload) (w : world) : world * next :=
  let sc := td_config (w_db w) in
  let cs := run_preflight (w_router w) (a_probe a) (pl_to p) (cooldown_elapsed (a_now a) sc) (sc_transition sc) in
  if a_ok a
  then (on_db (update_event (pl_event p) (set_checks cs)) w, Goto (if preflight_ok cs then PDrainStart else PRefuse))
  else (w, Raised).

(** One step of [run_toggle]. *)
Definition wstep (a : answer) (p : payload) (ph : phase) (w : world) : world * next :=
  let e := pl_event p in
  let target := default_kind (pl_target_kind p) "onprem" in
  match ph with
  | PBegin =>
      if a_ok a then (w, Goto (if bool_decide (status_of (w_db w) e = Some aborted) then PRelease else PPreflight))
      else (w, Raised)
  | PPreflight => preflight_phase a p w
  | PRefuse => statement a (update_event e (set_status aborted)) PRelease w
  | PRelease => statement a (release_transition e) PAck w
  | PDrainStart => statement a (set_transition draining) (PDrain (a_now a + DRAIN_MAX_WAIT_S) 0) w
  | PDrain deadline last => drain_poll a e deadline last w
  | PCancel [] retried last => (w, Goto (PDrained (last - retried) retried))
  | PCancel (r :: rows) retried last =>
      statement a (on_jobs (alter (cancel_job e) r.1)) (PRetry r rows retried last) w
  | PRetry r rows retried last =>
      if bool_decide (a_uuid a ∈ dom (td_jobs (w_db w))) then (w, Raised)
      else statement a (on_jobs (insert (a_uuid a) (retry_job e r))) (PCancel rows (retried + 1) last) w
  | PDrained d r => drain_completed_write a e d r w
  | PStandDown => statement a (set_transition stable) PAck w
  | PPromote => commands a e (promote_target de target) PPromoted (PRollback RbPromote) w
  | PPromoted => guarded a (update_event e (set_status db_promoted)) PDns (PRollback RbPromote) w
  | PDns => commands a e (flip_dns_to de target) PDnsFlipped (PRollback RbDns) w
  | PDnsFlipped => guarded a (update_event e (set_status dns_flipped)) PWorkers (PRollback RbDns) w
  | PWorkers =>
      commands a e (restart_workers de (default_kind (pl_from_kind p) "azure") target)
        PWorkersRestarted (PRollback RbWorkers) w
  | PWorkersRestarted => guarded a (update_event e (set_status workers_restarted)) PFlip (PRollback RbWorkers) w
  | PFlip => statement a (set_transition flipping) PCutover w
  | PCutover => if a_ok a then (cutover a e (pl_to p) w, Goto PSmoke) else (w, Raised)
  | PSmoke => smoke_phase a p w
  | PSmoked => guarded a (update_event e (set_status smoke_passed)) POpen PRevert w
  | PRevert => (if a_ok a then cutover a e (pl_from p) w else w, Goto PClearCooldown)
  | PClearCooldown => guarded a clear_cooldown (PRollback RbSmoke) (PRollback RbSmoke) w
  | PRollback RbSmoke => guarded a (set_transition stable) (PMarkFailed RbSmoke) PForceFailed w
  | PRollback ph => statement a (set_transition stable) (PMarkFailed ph) w
  | PMarkFailed RbSmoke => guarded a (update_event e (set_status failed)) PAck PForceFailed w
  | PMarkFailed _ => statement a (update_event e (set_status failed)) PAck w
  | PForceFailed => statement a (update_event e (set_status failed)) PAck w
  | POpen => statement a (set_transition stable) PCooldown w
  | PCooldown => statement a (set_cooldown (a_now a) COOLDOWN_MINUTES) PComplete w
  | PComplete => statement a (update_event e (set_status completed)) PAck w
  | PAck => (w, Finished)
  end.

(** ** The system

    The queue, the message in the worker's hands, the abort requests that have
    claimed but not yet released and the toggle requests that have passed their
    checks but not yet inserted their row. *)
Record sys := Sys {
  s_world : world;
  s_queue : list payload;
  s_worker : option (payload * phase);
  s_releases : list string;
  s_submits : list payload;
}.

(** [LLateDie]: the pod dies between its last statement and the acknowledgement. *)
Inductive label :=
  | LSubmit | LClaim | LIdleAbort | LRelease | LDeliver | LWork | LRaise | LDie | LLateDie | LEnvironment.

Definition die_label (ph : phase) : label :=
  match ph with PAck => LLateDie | _ => LDie end.

Context (expected_confirm : option string).

Inductive tstep : label → sys → sys → Prop :=
  | t_check now e rq w p q wk rl sb :
      submit_check expected_confirm now e rq (w_db w) = Ok p →
      tstep LSubmit (Sys w q wk rl sb) (Sys w q wk rl (p :: sb))
  | t_insert p (published : bool) w q wk rl sb sb' :
      (* [uuid4] is fresh; the publish that follows the INSERT may fail. *)
      td_events (w_db w) !! pl_event p = None →
      tstep LSubmit (Sys w q wk rl (sb ++ p :: sb'))
        (Sys (on_db (submit_insert p) w) (if published then q ++ [p] else q) wk rl (sb ++ sb'))
  | t_claim e w db q wk rl sb :
      status_of (w_db w) e = Some started ∨ status_of (w_db w) e = Some drain_started →
      abort_claim e (w_db w) = Ok db →
      tstep LClaim (Sys w q wk rl sb) (Sys (on_db (λ _, db) w) q wk (e :: rl) sb)
  | t_idle_abort e st w q wk rl sb :
      status_of (w_db w) e = Some st → terminal st = true →
      tstep LIdleAbort (Sys w q wk rl sb) (Sys w q wk (e :: rl) sb)
  | t_release e w q wk rl rl' sb :
      tstep LRelease (Sys w q wk (rl ++ e :: rl') sb) (Sys (on_db (release_transition e) w) q wk (rl ++ rl') sb)
  | t_deliver p w q rl sb :
      tstep LDeliver (Sys w (p :: q) None rl sb) (Sys w q (Some (p, PBegin)) rl sb)
  | t_work a p ph ph' w w' q rl sb :
      wstep a p ph w = (w', Goto ph') →
      tstep LWork (Sys w q (Some (p, ph)) rl sb) (Sys w' q (Some (p, ph')) rl sb)
  | t_finish a p ph w w' q rl sb :
      wstep a p ph w = (w', Finished) →
      tstep LWork (Sys w q (Some (p, ph)) rl sb) (Sys w' q None rl sb)
  | t_raise a p ph w w' q rl sb :
      (* [consume] logs the exception and the message is acknowledged. *)
      wstep a p ph w = (w', Raised) →
      tstep LRaise (Sys w q (Some (p, ph)) rl sb) (Sys w' q None rl sb)
  | t_die p ph w q rl sb :
      (* The pod dies: the message is not acknowledged and comes back. *)
      tstep (die_label ph) (Sys w q (Some (p, ph)) rl sb) (Sys w (p :: q) None rl sb)
  | t_jobs jobs w q wk rl sb :
      (* Other services write [jobs]. *)
      tstep LEnvironment (Sys w q wk rl sb) (Sys (on_db (on_jobs (λ _, jobs)) w) q wk rl sb)
  | t_backends rows w q wk rl sb :
      (* An operator edits [storage_backends]. *)
      tstep LEnvironment (Sys w q wk rl sb)
        (Sys (on_db (λ db, ToggleDb (td_config db) (td_events db) (td_jobs db) rows) w) q wk rl sb)
  | t_reload ro w q wk rl sb :
      reload getenv true (td_backends (w_db w)) (Some (td_config (w_db w))) (w_router w) = Ok ro →
      tstep LEnvironment (Sys w q wk rl sb) (Sys (World (w_db w) ro (w_log w)) q wk rl sb).

(** Executions whose steps all satisfy [allowed]. *)
Definition steps (allowed : label → bool) : relation sys :=
  rtc (λ s s', ∃ l, allowed l = true ∧ tstep l s s').

(** A system at rest: nothing has been toggled yet. *)
Definition at_rest (w : world) : Prop := td_events (w_db w) = ∅ ∧ w_log w = [] ∧ sc_transition (td_config (w_db w)) = stable.

Definition boot (w : world) : sys := Sys w [] None [] [].

(** ** The worker alone

    [run_toggle] without interference: the fold of [wstep] over the answers. *)
Fixpoint run_toggle (ans : list answer) (p : payload) (ph : phase) (w : world) : world * next :=
  match ans with
  | [] => (w, Goto ph)
  | a :: ans =>
      match wstep a p ph w with
      | (w', Goto ph') => run_toggle ans p ph' w'
      | r => r
      end
  end.
End worker.
