(* ===== verification/ToggleSafety.v ===== *)
(** * The storage toggle: safety of its interleavings

    Invariants of every execution of the endpoints, the worker, other services and
    a dying pod ([Toggle.tstep]): an aborted toggle stays aborted, writes stay
    closed while the worker moves the data plane, and when a transition left
    behind can and cannot be released. *)

From S2P Require Import Prelude.
From S2P Require Import Reconciler.
From S2P Require Import Router.
From S2P Require Import Toggle.
Local Open Scope Z_scope.

(** Past the guarded write: the worker is committed to the toggle. *)
Definition past_drain (ph : phase) : bool :=
  match ph with
  | PPromote | PPromoted | PDns | PDnsFlipped | PWorkers | PWorkersRestarted
  | PFlip | PCutover | PSmoke | PSmoked | PRevert | PClearCooldown
  | PRollback _ | PMarkFailed _ | PForceFailed | POpen | PCooldown | PComplete => true
  | _ => false
  end.

(** The statuses between the guarded write and the verdict. *)
Definition engaged (st : event_status) : bool :=
  match st with
  | drain_completed | db_promoted | dns_flipped | workers_restarted | smoke_passed => true
  | _ => false
  end.

Definition transition_of (w : world) : transition_state := sc_transition (td_config (w_db w)).

(** The external effects a toggle has had. *)
Definition effects_of (e : string) (w : world) : list effect :=
  (filter (λ x, x.1 = e) (w_log w)).*2.

(** ** Single statements *)

Lemma status_update_eq e f db : status_of (update_event e f db) e = (λ ev, ev_status (f ev)) <$> td_events db !! e.
Proof. unfold status_of, update_event; simpl. rewrite lookup_alter_eq. by destruct (_ !! e). Qed.

Lemma status_set_eq e st db : status_of (update_event e (set_status st) db) e = (λ _, st) <$> status_of db e.
Proof. rewrite status_update_eq. unfold status_of. by destruct (_ !! e). Qed.

Lemma status_drained_eq e d r db :
  status_of (update_event e (set_drained d r) db) e = (λ _, drain_completed) <$> status_of db e.
Proof. rewrite status_update_eq. unfold status_of. by destruct (_ !! e). Qed.

Lemma status_checks_eq e cs db : status_of (update_event e (set_checks cs) db) e = status_of db e.
Proof. rewrite status_update_eq. unfold status_of. by destruct (_ !! e). Qed.

Lemma status_update_ne e e' f db : e' ≠ e → status_of (update_event e f db) e' = status_of db e'.
Proof. intros. unfold status_of, update_event; simpl. by rewrite lookup_alter_ne. Qed.

Lemma release_events e db : td_events (release_transition e db) = td_events db.
Proof. unfold release_transition. by destruct (_ && _). Qed.

Lemma release_status e db e' : status_of (release_transition e db) e' = status_of db e'.
Proof. unfold status_of. by rewrite release_events. Qed.

Lemma other_live_spec e db :
  other_live e db = true ↔ ∃ e' st, e' ≠ e ∧ status_of db e' = Some st ∧ terminal st = false.
Proof.
  unfold other_live, status_of. rewrite existsb_elem. split.
  - intros ([e' ev] & Hin%elem_of_map_to_list & Hb); simpl in *. bools.
    exists e', (ev_status ev). by rewrite Hin.
  - intros (e' & st & Hne & Hst & Ht). destruct (td_events db !! e') as [ev|] eqn:Hl; [|done].
    exists (e', ev). rewrite elem_of_map_to_list. split; [done|]. simpl in *. simplify_eq.
    by rewrite bool_decide_false, Ht.
Qed.

Lemma release_blocked e e' st db :
  e' ≠ e → status_of db e' = Some st → terminal st = false → release_transition e db = db.
Proof.
  intros. unfold release_transition. rewrite (proj2 (other_live_spec e db)); [|eauto].
  by rewrite andb_false_r.
Qed.

Lemma status_insert_other p db e st :
  td_events db !! pl_event p = None → status_of db e = Some st → status_of (submit_insert p db) e = Some st.
Proof.
  intros Hf Hs. unfold status_of, submit_insert in *; simpl. rewrite lookup_insert_ne; [done|].
  intros <-. by rewrite Hf in Hs.
Qed.

Lemma abort_claim_claimed e db db' :
  status_of db e = Some started ∨ status_of db e = Some drain_started → abort_claim e db = Ok db' →
  db' = update_event e (set_status aborted) db.
Proof. unfold abort_claim. intros [-> | ->] [= <-]; done. Qed.

(** ** One step of the worker

    The tactic opens a step of the worker on every branch. *)
Ltac wcases H :=
  unfold wstep, statement, guarded, commands, preflight_phase, smoke_phase, drain_poll,
    drain_completed_write, cutover in H;
  repeat (case_match; simplify_eq/=; try discriminate).

Section safety.
  Context (getenv : string → option string) (de : deploy_env) (confirm : option string).
  Local Notation wstep := (Toggle.wstep getenv de).
  Local Notation tstep := (Toggle.tstep getenv de confirm).
  Local Notation steps := (Toggle.steps getenv de confirm).

Lemma wstep_other a p ph w w' n e :
  wstep a p ph w = (w', n) → e ≠ pl_event p → td_events (w_db w') !! e = td_events (w_db w) !! e.
Proof.
  intros H Hne. wcases H; try done;
    rewrite ?release_events; try done; by rewrite lookup_alter_ne.
Qed.

Lemma wstep_log a p ph w w' n :
  wstep a p ph w = (w', n) →
  ∃ cs, w_log w' = w_log w ++ ((λ c, (pl_event p, c)) <$> cs) ∧ (past_drain ph = false → cs = []).
Proof.
  intros H. wcases H; try (exists []; rewrite app_nil_r; done);
    first [by eexists|by eexists [_]].
Qed.

Lemma wstep_status_other a p ph w w' n e :
  wstep a p ph w = (w', n) → e ≠ pl_event p → status_of (w_db w') e = status_of (w_db w) e.
Proof. intros H Hne. unfold status_of. by rewrite (wstep_other _ _ _ _ _ _ _ H Hne). Qed.

Lemma wstep_effects_other a p ph w w' n e :
  wstep a p ph w = (w', n) → e ≠ pl_event p ∨ past_drain ph = false → effects_of e w' = effects_of e w.
Proof.
  intros (cs & Hl & Hcs)%wstep_log He. unfold effects_of. rewrite Hl, filter_app.
  destruct He as [Hne|Hp]; [|rewrite (Hcs Hp); simpl; by rewrite app_nil_r].
  rewrite (list_filter_none _ ((λ c, (pl_event p, c)) <$> cs)); [by rewrite app_nil_r|].
  intros x (c & -> & _)%list_elem_of_fmap. simpl. congruence.
Qed.

(** ** The worker is past the drain only on an engaged event *)

Definition hand_engaged (s : sys) : Prop :=
  ∀ p ph, s_worker s = Some (p, ph) → past_drain ph = true →
    ∃ st, status_of (w_db (s_world s)) (pl_event p) = Some st ∧ engaged st = true.

Lemma wstep_engaged a p ph ph' w w' :
  (past_drain ph = true → ∃ st, status_of (w_db w) (pl_event p) = Some st ∧ engaged st = true) →
  wstep a p ph w = (w', Goto ph') → past_drain ph' = true →
  ∃ st, status_of (w_db w') (pl_event p) = Some st ∧ engaged st = true.
Proof.
  intros Hst H Hpast. wcases H; try done; try (by apply Hst);
    try (by destruct Hst as (st & Hs & He); [done|]; exists st; split; [|done]; exact Hs).
  all: try (destruct Hst as (st & Hs & He); [done|]; eexists; split; [rewrite status_set_eq, Hs; reflexivity|reflexivity]).
  eexists; split; [rewrite status_drained_eq, H1; reflexivity|reflexivity].
Qed.

Lemma claim_status_other e e' db db' st :
  status_of db e = Some started ∨ status_of db e = Some drain_started → abort_claim e db = Ok db' →
  status_of db e' = Some st → st ≠ started → st ≠ drain_started → status_of db' e' = Some st.
Proof.
  intros Hc Hok Hst H1 H2. rewrite (abort_claim_claimed _ _ _ Hc Hok).
  rewrite status_update_ne; [done|]. intros ->. destruct Hc; congruence.
Qed.

Lemma hand_engaged_step l s s' : tstep l s s' → hand_engaged s → hand_engaged s'.
Proof.
  unfold hand_engaged. intros H Hs p' ph' Hw Hp.
  destruct H; simpl in *; simplify_eq; try done; try (by eapply Hs).
  - destruct (Hs _ _ eq_refl Hp) as (st & Hst & He). eauto using status_insert_other.
  - destruct (Hs _ _ eq_refl Hp) as (st & Hst & He). exists st. split; [|done].
    eapply claim_status_other; [done..| |]; by intros ->.
  - destruct (Hs _ _ eq_refl Hp) as (st & Hst & He). exists st. by rewrite release_status.
  - eapply wstep_engaged; [|done|done]. intros Hph. by apply (Hs _ _ eq_refl).
Qed.

(** ** An aborted toggle stays aborted *)

Definition stays_aborted (e : string) (effs : list effect) (s : sys) : Prop :=
  hand_engaged s ∧ status_of (w_db (s_world s)) e = Some aborted ∧ effects_of e (s_world s) = effs.

Lemma wstep_aborted a p ph w w' n :
  past_drain ph = false → wstep a p ph w = (w', n) → status_of (w_db w) (pl_event p) = Some aborted →
  status_of (w_db w') (pl_event p) = Some aborted.
Proof.
  intros Hp H Hst. wcases H; try done.
  all: try (by rewrite release_status); try (by rewrite status_set_eq, Hst).
  all: try (by bools). rewrite status_update_eq. unfold status_of in Hst. by destruct (_ !! _).
Qed.

Lemma wstep_stays_aborted a p ph w w' n e q rl sb :
  wstep a p ph w = (w', n) → hand_engaged (Sys w q (Some (p, ph)) rl sb) → status_of (w_db w) e = Some aborted →
  status_of (w_db w') e = Some aborted ∧ effects_of e w' = effects_of e w.
Proof.
  intros H Hh Hst. destruct (decide (e = pl_event p)) as [->|Hne].
  - destruct (past_drain ph) eqn:Hp.
    + destruct (Hh _ _ eq_refl Hp) as (st & Hst' & He). simpl in Hst'. by simplify_eq.
    + split; [by eapply wstep_aborted|]. eapply wstep_effects_other; [done|by right].
  - split; [by rewrite (wstep_status_other _ _ _ _ _ _ _ H Hne)|].
    eapply wstep_effects_other; [done|by left].
Qed.

Lemma stays_aborted_step e effs l s s' : tstep l s s' → stays_aborted e effs s → stays_aborted e effs s'.
Proof.
  intros H (Hh & Hst & Heff). split; [by eapply hand_engaged_step|].
  destruct H; simpl in *; try done.
  - split; [by apply status_insert_other|done].
  - split; [|done]. by eapply claim_status_other.
  - split; [by rewrite release_status|done].
  - rewrite <- Heff. by eapply wstep_stays_aborted.
  - rewrite <- Heff. by eapply wstep_stays_aborted.
  - rewrite <- Heff. by eapply wstep_stays_aborted.
Qed.

Lemma steps_invariant allowed (I : sys → Prop) s s' :
  (∀ l s s', allowed l = true → tstep l s s' → I s → I s') → steps allowed s s' → I s → I s'.
Proof. intros Hstep. apply rtc_invariant. intros x y Hx (l & Hl & Hst). eauto. Qed.

(** C35: From the moment an event reads 'aborted' (the abort endpoint won its claim,
    or the preflight refused), every execution keeps it aborted and runs no
    further failover, DNS script, worker scaling or cutover for it, whatever the
    worker was doing, however often its message comes back and whatever other
    toggles, aborts and crashes interleave. *)
Theorem aborted_toggle_never_promotes allowed w s s' e :
  steps allowed (boot w) s → status_of (w_db (s_world s)) e = Some aborted → steps allowed s s' →
  status_of (w_db (s_world s')) e = Some aborted ∧ effects_of e (s_world s') = effects_of e (s_world s).
Proof.
  intros H1 Hst H2. assert (hand_engaged s) as Hs.
  { eapply steps_invariant; [|exact H1|done]. intros l x y _. apply hand_engaged_step. }
  assert (stays_aborted e (effects_of e (s_world s)) s') as (_ & ? & ?); [|done].
  eapply steps_invariant; [|exact H2|done]. intros l x y _. apply stays_aborted_step.
Qed.

(** ** Writes stay closed while the data plane moves *)

(** Between the guarded write and the statement that opens writes again. *)
Definition moving (ph : phase) : bool :=
  match ph with
  | PMarkFailed _ | PForceFailed | PCooldown | PComplete => false
  | _ => past_drain ph
  end.

(** What holds of the event and the transition at each point of the run. *)
Definition hand_ok (st : event_status) (tr : transition_state) (ph : phase) : Prop :=
  match ph with
  | PBegin | PPreflight | PRefuse | PDrainStart => terminal st = false ∨ st = aborted
  | PRelease | PStandDown => st = aborted
  | PDrain _ _ | PCancel _ _ _ | PRetry _ _ _ _ | PDrained _ _ => (terminal st = false ∧ tr ≠ stable) ∨ st = aborted
  | PMarkFailed _ | PForceFailed | PCooldown | PComplete => engaged st = true
  | PAck => terminal st = true
  | _ => engaged st = true ∧ tr ≠ stable
  end.

Lemma engaged_live st : engaged st = true → terminal st = false.
Proof. by destruct st. Qed.

Lemma hand_ok_terminal st tr tr' ph : terminal st = true → hand_ok st tr ph → hand_ok st tr' ph.
Proof. destruct ph, st; simpl; intuition congruence. Qed.

(** A claim can only hit an event that is not engaged. *)
Lemma hand_ok_claimed st tr tr' ph :
  st = started ∨ st = drain_started → hand_ok st tr ph → hand_ok aborted tr' ph.
Proof. intros [-> | ->]; destruct ph; simpl; intuition congruence. Qed.

Lemma hand_ok_die st tr ph : hand_ok st tr ph → ph ≠ PAck → terminal st = false ∨ st = aborted.
Proof.
  destruct ph, st; simpl; intuition congruence.
Qed.

Definition own (s : sys) : list payload := (s_queue s) ++ (from_option (λ x, [x.1]) [] (s_worker s)).

Record closed_inv (s : sys) : Prop := {
  ci_hand : ∀ p ph, s_worker s = Some (p, ph) →
    ∃ st, status_of (w_db (s_world s)) (pl_event p) = Some st ∧ hand_ok st (transition_of (s_world s)) ph;
  ci_queue : ∀ p, p ∈ s_queue s →
    ∃ st, status_of (w_db (s_world s)) (pl_event p) = Some st ∧ (terminal st = false ∨ st = aborted);
  ci_releases : ∀ e, e ∈ s_releases s →
    ∃ st, status_of (w_db (s_world s)) e = Some st ∧ terminal st = true;
  ci_own : NoDup (pl_event <$> own s);
}.

Lemma wstep_hand a p ph ph' w w' st :
  status_of (w_db w) (pl_event p) = Some st → hand_ok st (transition_of w) ph →
  wstep a p ph w = (w', Goto ph') →
  ∃ st', status_of (w_db w') (pl_event p) = Some st' ∧ hand_ok st' (transition_of w') ph'.
Proof.
  intros Hst Hok H. wcases H; bools.
  all: try (by exists st).
  all: try (by eexists; split; [rewrite status_set_eq, Hst; reflexivity|naive_solver]).
  all: try (exists st; rewrite ?status_checks_eq, ?release_status; split; [exact Hst|];
            unfold transition_of in *; simpl in *; intuition (auto; congruence)).
  all: try (exists aborted; rewrite ?release_status; by split; [exact Hst|]).
  exists drain_completed. rewrite status_drained_eq, H1. destruct Hok as [[_ Htr]|]; [by split_and!|done].
Qed.

Lemma hand_ok_finished st tr ph :
  hand_ok st tr ph → terminal st = true → ph = PAck ∨ (st = aborted ∧ past_drain ph = false).
Proof. destruct ph, st; simpl; intuition congruence. Qed.

Lemma wstep_terminal a p ph w w' n st :
  status_of (w_db w) (pl_event p) = Some st → hand_ok st (transition_of w) ph → terminal st = true →
  wstep a p ph w = (w', n) → ∃ st', status_of (w_db w') (pl_event p) = Some st' ∧ terminal st' = true.
Proof.
  intros Hst Hok Ht H. destruct (hand_ok_finished _ _ _ Hok Ht) as [->|[-> Hp]].
  - simpl in H. simplify_eq. by exists st.
  - exists aborted. split; [by eapply wstep_aborted|done].
Qed.

Lemma wstep_rest_inv a p ph w w' n q rl sb :
  closed_inv (Sys w q (Some (p, ph)) rl sb) → wstep a p ph w = (w', n) →
  (∀ p', p' ∈ q → ∃ st, status_of (w_db w') (pl_event p') = Some st ∧ (terminal st = false ∨ st = aborted)) ∧
  (∀ e, e ∈ rl → ∃ st, status_of (w_db w') e = Some st ∧ terminal st = true).
Proof.
  intros [Hh Hq Hr Hnd] H. destruct (Hh _ _ eq_refl) as (st & Hst & Hok); simpl in *. split.
  - intros p' Hin. rewrite (wstep_status_other _ _ _ _ _ _ (pl_event p') H); [by apply Hq|].
    intros Heq. unfold own in Hnd; simpl in Hnd. rewrite fmap_app in Hnd.
    apply NoDup_app in Hnd as (_ & Hd & _). apply (Hd (pl_event p')); [by apply list_elem_of_fmap_2|].
    rewrite Heq. by left.
  - intros e Hin. destruct (Hr _ Hin) as (st' & Hst' & Ht').
    destruct (decide (e = pl_event p)) as [->|Hne].
    + rewrite Hst in Hst'. injection Hst' as <-. by eapply wstep_terminal.
    + rewrite (wstep_status_other _ _ _ _ _ _ _ H Hne). eauto.
Qed.

Lemma closed_inv_insert p (published : bool) w q wk rl sb sb' :
  td_events (w_db w) !! pl_event p = None → closed_inv (Sys w q wk rl (sb ++ p :: sb')) →
  closed_inv (Sys (on_db (submit_insert p) w) (if published then q ++ [p] else q) wk rl (sb ++ sb')).
Proof.
  intros Hf [Hh Hq Hr Hnd]; simpl in *.
  assert (∀ p', p' ∈ own (Sys w q wk rl (sb ++ sb')) → pl_event p' ≠ pl_event p) as Hown.
  { intros p' [Hin|Hin]%elem_of_app Heq; simpl in Hin.
    - destruct (Hq _ Hin) as (st & Hst & _). unfold status_of in Hst. rewrite Heq, Hf in Hst. done.
    - destruct wk as [[p0 ph]|]; [|by apply not_elem_of_nil in Hin]. apply list_elem_of_singleton in Hin as ->.
      destruct (Hh _ _ eq_refl) as (st & Hst & _). unfold status_of in Hst. simpl in Heq. rewrite Heq, Hf in Hst. done. }
  assert (status_of (submit_insert p (w_db w)) (pl_event p) = Some started) as Hnew.
  { unfold status_of, submit_insert; simpl. by rewrite lookup_insert_eq. }
  split; simpl.
  - intros p' ph Hw. destruct (Hh _ _ Hw) as (st & Hst & Hok). eauto using status_insert_other.
  - intros p' Hin. assert (p' ∈ q ∨ p' = p) as [Hin'| ->].
    { destruct published; [|by left]. apply elem_of_app in Hin as [| ->%list_elem_of_singleton]; auto. }
    + destruct (Hq _ Hin') as (st & Hst & Ht). eauto using status_insert_other.
    + exists started. auto.
  - intros e Hin. destruct (Hr _ Hin) as (st & Hst & Ht). eauto using status_insert_other.
  - unfold own in *; simpl in *. destruct published; [|done].
    assert ((q ++ [p]) ++ from_option (λ x, [x.1]) [] wk ≡ₚ p :: (q ++ from_option (λ x, [x.1]) [] wk)) as ->
      by (rewrite <- app_assoc; simpl; by rewrite Permutation_middle).
    simpl. apply NoDup_cons. split; [|done]. intros (p' & Heq & Hin)%list_elem_of_fmap. by apply (Hown p').
Qed.

Lemma claim_status e e' db db' st :
  status_of db e = Some started ∨ status_of db e = Some drain_started → abort_claim e db = Ok db' →
  status_of db e' = Some st →
  status_of db' e' = Some (if bool_decide (e' = e) then aborted else st).
Proof.
  intros Hc Hok Hst. rewrite (abort_claim_claimed _ _ _ Hc Hok). case_bool_decide; subst.
  - by rewrite status_set_eq, Hst.
  - by rewrite status_update_ne.
Qed.

Lemma closed_inv_claim e w db q wk rl sb :
  status_of (w_db w) e = Some started ∨ status_of (w_db w) e = Some drain_started →
  abort_claim e (w_db w) = Ok db → closed_inv (Sys w q wk rl sb) →
  closed_inv (Sys (on_db (λ _, db) w) q wk (e :: rl) sb).
Proof.
  intros Hc Hok [Hh Hq Hr Hnd]; simpl in *. split; simpl; [| | |exact Hnd].
  - intros p ph Hw. destruct (Hh _ _ Hw) as (st & Hst & Hhand).
    eexists. split; [by eapply claim_status|]. case_bool_decide as He.
    + eapply hand_ok_claimed; [|exact Hhand]. rewrite <- He, Hst in Hc. naive_solver.
    + unfold transition_of in *; simpl. by rewrite (abort_claim_claimed _ _ _ Hc Hok).
  - intros p Hin. destruct (Hq _ Hin) as (st & Hst & Ht).
    eexists. split; [by eapply claim_status|]. case_bool_decide; auto.
  - intros e' [->|Hin]%elem_of_cons.
    + destruct Hc as [Hc'|Hc']; eexists; (split; [eapply claim_status; eauto|]); by rewrite bool_decide_true.
    + destruct (Hr _ Hin) as (st & Hst & Ht). eexists. split; [by eapply claim_status|].
      by case_bool_decide.
Qed.

Lemma closed_inv_release e w q wk rl rl' sb :
  closed_inv (Sys w q wk (rl ++ e :: rl') sb) →
  closed_inv (Sys (on_db (release_transition e) w) q wk (rl ++ rl') sb).
Proof.
  intros [Hh Hq Hr Hnd]; simpl in *. split; simpl; [| | |exact Hnd].
  - intros p ph Hw. destruct (Hh _ _ Hw) as (st & Hst & Hok). exists st. rewrite release_status.
    split; [done|]. destruct (terminal st) eqn:Ht; [by eapply hand_ok_terminal|].
    unfold transition_of; simpl. erewrite release_blocked; [exact Hok| |exact Hst|exact Ht].
    intros Heq. destruct (Hr e) as (st' & Hst' & ?); [set_solver|]. rewrite <- Heq in Hst'. congruence.
  - intros p Hin. rewrite release_status. by apply Hq.
  - intros e' Hin. rewrite release_status. apply Hr. set_solver.
Qed.

Lemma own_finish p ph w q rl sb w' :
  NoDup (pl_event <$> own (Sys w q (Some (p, ph)) rl sb)) → NoDup (pl_event <$> own (Sys w' q None rl sb)).
Proof.
  unfold own; simpl. rewrite app_nil_r, fmap_app. by intros (? & _)%NoDup_app.
Qed.

Lemma closed_inv_step l s s' : l ≠ LLateDie → tstep l s s' → closed_inv s → closed_inv s'.
Proof.
  intros Hl H Hs. destruct H.
  - by destruct Hs.
  - by apply closed_inv_insert.
  - by eapply closed_inv_claim.
  - destruct Hs as [Hh Hq Hr Hnd]. split; simpl in *; try done.
    intros e' [->|Hin]%elem_of_cons; eauto.
  - by apply closed_inv_release.
  - destruct Hs as [Hh Hq Hr Hnd]. split; simpl in *; [|set_solver|done|].
    + intros p' ph' [= <- <-]. destruct (Hq p) as (st & ? & ?); [by left|]. by exists st.
    + unfold own in *; simpl in *. rewrite app_nil_r in Hnd.
      by rewrite Permutation_app_comm.
  - destruct (wstep_rest_inv _ _ _ _ _ _ _ _ _ Hs H) as [Hq' Hr']. destruct Hs as [Hh _ _ Hnd].
    split; simpl in *; [|done|done|done]. intros p' ph'' [= <- <-].
    destruct (Hh _ _ eq_refl) as (st & Hst & Hok). by eapply wstep_hand.
  - destruct (wstep_rest_inv _ _ _ _ _ _ _ _ _ Hs H) as [Hq' Hr']. destruct Hs as [_ _ _ Hnd].
    split; simpl in *; [done|done|done|]. by eapply own_finish.
  - destruct (wstep_rest_inv _ _ _ _ _ _ _ _ _ Hs H) as [Hq' Hr']. destruct Hs as [_ _ _ Hnd].
    split; simpl in *; [done|done|done|]. by eapply own_finish.
  - destruct Hs as [Hh Hq Hr Hnd]. split; simpl in *; [done| |done|].
    + intros p' [->|Hin]%elem_of_cons; [|by apply Hq].
      destruct (Hh _ _ eq_refl) as (st & Hst & Hok). exists st. split; [done|].
      eapply hand_ok_die; [done|]. by intros ->.
    + unfold own in *; simpl in *. rewrite app_nil_r. by rewrite Permutation_app_comm in Hnd.
  - by destruct Hs.
  - by destruct Hs.
  - by destruct Hs.
Qed.

Definition no_late_death (l : label) : bool := match l with LLateDie => false | _ => true end.

(** While the worker is anywhere between the guarded write that ends the drain
    and the statement that reopens writes (promotion, DNS, worker restart, cutover,
    smoke test, rollback), the transition is not 'stable', so that every router
    that has reloaded refuses to hand out a store for writing: no abort, release,
    second toggle, crash or redelivery steals the transition. The one execution
    left out is a pod that dies between its last statement and the
    acknowledgement of the message. *)
Theorem writes_closed_while_moving w s p ph ro ro' :
  at_rest w → steps no_late_death (boot w) s → s_worker s = Some (p, ph) → moving ph = true →
  reload getenv true (td_backends (w_db (s_world s))) (Some (td_config (w_db (s_world s)))) ro = Ok ro' →
  get_active_store ro' = Err (TransitionInProgressError (transition_of (s_world s))) ∧
  transition_of (s_world s) ≠ stable.
Proof.
  intros (Hev & _ & _) Hsteps Hw Hm (_ & _ & Htr)%reload_backends.
  assert (closed_inv s) as [Hh _ _ _].
  { eapply steps_invariant; [|exact Hsteps|].
    - intros l x y Hl. apply closed_inv_step. by intros ->.
    - split; simpl; [done|set_solver..|constructor]. }
  destruct (Hh _ _ Hw) as (st & _ & Hok).
  assert (transition_of (s_world s) ≠ stable) as Hne by (destruct ph; simpl in *; naive_solver).
  split; [|done]. unfold get_active_store. rewrite Htr. fold (transition_of (s_world s)).
  by rewrite bool_decide_false.
Qed.

(** ** A transition left behind can be released *)

Definition abortable (st : event_status) : bool :=
  match st with started | drain_started => true | _ => false end.

Definition ending (ph : phase) : bool :=
  match ph with PRelease | PStandDown | PAck => true | _ => false end.

Definition no_raise (l : label) : bool := match l with LRaise => false | _ => true end.

(** Every live event that cannot be aborted any more has its message queued or in
    hand. *)
Record owned_inv (s : sys) : Prop := {
  oi_live : ∀ e st, status_of (w_db (s_world s)) e = Some st → terminal st = false →
    abortable st = true ∨ e ∈ pl_event <$> own s;
  oi_exist : ∀ p, p ∈ own s → is_Some (status_of (w_db (s_world s)) (pl_event p));
  oi_end : ∀ p ph, s_worker s = Some (p, ph) → ending ph = true →
    ∃ st, status_of (w_db (s_world s)) (pl_event p) = Some st ∧ terminal st = true;
  oi_rest : td_events (w_db (s_world s)) = ∅ → transition_of (s_world s) = stable;
}.

Lemma wstep_status_some a p ph w w' n :
  wstep a p ph w = (w', n) →
  (is_Some (status_of (w_db w') (pl_event p)) ↔ is_Some (status_of (w_db w) (pl_event p))).
Proof.
  intros H. wcases H; rewrite ?status_set_eq, ?status_drained_eq, ?status_checks_eq, ?release_status, ?fmap_is_Some;
    try done; by rewrite H1.
Qed.

Lemma wstep_ending a p ph ph' w w' st :
  status_of (w_db w) (pl_event p) = Some st → (ending ph = true → terminal st = true) →
  wstep a p ph w = (w', Goto ph') → ending ph' = true →
  ∃ st', status_of (w_db w') (pl_event p) = Some st' ∧ terminal st' = true.
Proof.
  intros Hst Hend H He'. wcases H; bools; simplify_eq; try done.
  all: try (by exists aborted); try (by exists st; split; [exact Hst|auto]).
  all: try (by eexists; split; [rewrite status_set_eq, Hst; reflexivity|done]).
  all: exists st; rewrite release_status; auto.
Qed.

Lemma wstep_finished a p ph w w' : wstep a p ph w = (w', Finished) → ph = PAck ∧ w' = w.
Proof. intros H. wcases H; done. Qed.

Lemma release_rest e db : sc_transition (td_config db) = stable → release_transition e db = db.
Proof. intros H. unfold release_transition. by rewrite H. Qed.

Lemma own_perm w q p ph rl sb : own (Sys w q (Some (p, ph)) rl sb) ≡ₚ p :: q.
Proof. unfold own; simpl. by rewrite Permutation_app_comm. Qed.

Lemma owned_inv_work a p ph ph' w w' q rl sb :
  wstep a p ph w = (w', Goto ph') → owned_inv (Sys w q (Some (p, ph)) rl sb) →
  owned_inv (Sys w' q (Some (p, ph')) rl sb).
Proof.
  intros H [Hl Hx He Hr]; simpl in *.
  assert (is_Some (status_of (w_db w) (pl_event p))) as [st Hst] by (apply Hx; rewrite own_perm; by left).
  split; simpl.
  - intros e st' Hst' Ht'. destruct (decide (e = pl_event p)) as [->|Hne].
    + right. apply list_elem_of_fmap_2. rewrite own_perm. by left.
    + rewrite (wstep_status_other _ _ _ _ _ _ _ H Hne) in Hst'. by eapply Hl.
  - intros p' Hin. destruct (decide (pl_event p' = pl_event p)) as [->|Hne].
    + rewrite (wstep_status_some _ _ _ _ _ _ H). eauto.
    + rewrite (wstep_status_other _ _ _ _ _ _ _ H Hne). by apply Hx.
  - intros p' ph'' [= <- <-] Hend. eapply wstep_ending; [exact Hst| |exact H|exact Hend].
    intros Hph. destruct (He _ _ eq_refl Hph) as (? & ? & ?). congruence.
  - intros Hemp. exfalso. assert (is_Some (status_of (w_db w') (pl_event p))) as [? Hs'].
    { rewrite (wstep_status_some _ _ _ _ _ _ H). eauto. }
    unfold status_of in Hs'. by rewrite Hemp, lookup_empty in Hs'.
Qed.

Lemma owned_inv_insert p (published : bool) w q wk rl sb sb' :
  td_events (w_db w) !! pl_event p = None → owned_inv (Sys w q wk rl (sb ++ p :: sb')) →
  owned_inv (Sys (on_db (submit_insert p) w) (if published then q ++ [p] else q) wk rl (sb ++ sb')).
Proof.
  intros Hf [Hl Hx He Hr]; simpl in *.
  assert (status_of (submit_insert p (w_db w)) (pl_event p) = Some started) as Hnew.
  { unfold status_of, submit_insert; simpl. by rewrite lookup_insert_eq. }
  assert (∀ p', p' ∈ own (Sys w q wk rl (sb ++ sb')) →
    p' ∈ own (Sys (on_db (submit_insert p) w) (if published then q ++ [p] else q) wk rl (sb ++ sb'))) as Hin1.
  { unfold own; simpl. intros p'. rewrite !elem_of_app. destruct published; set_solver. }
  assert (∀ p', p' ∈ own (Sys (on_db (submit_insert p) w) (if published then q ++ [p] else q) wk rl (sb ++ sb')) →
    p' = p ∨ p' ∈ own (Sys w q wk rl (sb ++ sb'))) as Hin2.
  { unfold own; simpl. intros p'. rewrite !elem_of_app. destruct published; set_solver. }
  split; simpl.
  - intros e st Hst Ht. destruct (decide (e = pl_event p)) as [->|Hne].
    { rewrite Hnew in Hst. injection Hst as <-. by left. }
    unfold status_of, submit_insert in Hst; simpl in Hst. rewrite lookup_insert_ne in Hst by done.
    destruct (Hl e st Hst Ht) as [|(p' & -> & Hp')%list_elem_of_fmap]; [by left|].
    right. apply list_elem_of_fmap_2. by apply Hin1.
  - intros p' [->|Hin]%Hin2; [eauto|]. destruct (Hx _ Hin) as [st Hst].
    exists st. by apply status_insert_other.
  - intros p' ph Hw Hend. destruct (He _ _ Hw Hend) as (st & Hst & Ht). eauto using status_insert_other.
  - change (td_events (submit_insert p (w_db w)) = ∅ → transition_of w = stable).
    intros Hemp. unfold status_of in Hnew. by rewrite Hemp, lookup_empty in Hnew.
Qed.

Lemma owned_inv_claim e w db q wk rl sb :
  status_of (w_db w) e = Some started ∨ status_of (w_db w) e = Some drain_started →
  abort_claim e (w_db w) = Ok db → owned_inv (Sys w q wk rl sb) →
  owned_inv (Sys (on_db (λ _, db) w) q wk (e :: rl) sb).
Proof.
  intros Hc Hok [Hl Hx He Hr]; simpl in *.
  assert (∀ e', status_of (w_db w) e' = None → status_of db e' = None) as Hnone.
  { intros e' Hn. rewrite (abort_claim_claimed _ _ _ Hc Hok).
    destruct (decide (e' = e)) as [->|Hne]; [destruct Hc; congruence|by rewrite status_update_ne]. }
  split; simpl.
  - intros e' st' Hst' Ht'. destruct (status_of (w_db w) e') as [st|] eqn:Hst; [|rewrite (Hnone _ Hst) in Hst'; done].
    rewrite (claim_status _ _ _ _ _ Hc Hok Hst) in Hst'. case_bool_decide; simplify_eq. by eapply Hl.
  - intros p Hin. destruct (Hx _ Hin) as [st Hst]. eexists. by eapply claim_status.
  - intros p ph Hw Hend. destruct (He _ _ Hw Hend) as (st & Hst & Ht).
    eexists. split; [by eapply claim_status|]. by case_bool_decide.
  - intros Hemp. destruct Hc as [Hc'|Hc']; eapply claim_status in Hc'; eauto;
      unfold status_of in Hc'; rewrite Hemp, lookup_empty in Hc'; done.
Qed.

Lemma owned_inv_step l s s' : l ≠ LRaise → tstep l s s' → owned_inv s → owned_inv s'.
Proof.
  intros Hl H Hs. destruct H.
  - by destruct Hs.
  - by apply owned_inv_insert.
  - by eapply owned_inv_claim.
  - by destruct Hs.
  - destruct Hs as [Hl' Hx He Hr]. split; simpl in *.
    + intros e' st. rewrite release_status. apply Hl'.
    + intros p. rewrite release_status. apply Hx.
    + intros p ph. rewrite release_status. apply He.
    + rewrite release_events. intros Hemp. unfold transition_of in *; simpl. rewrite release_rest by auto. auto.
  - destruct Hs as [Hl' Hx He Hr]. split; simpl in *; [| |by intros p' ph' [= <- <-]|done].
    + intros e st Hst Ht. rewrite own_perm. unfold own in Hl'; simpl in Hl'. rewrite app_nil_r in Hl'. eauto.
    + intros p'. rewrite own_perm. unfold own in Hx; simpl in Hx. rewrite app_nil_r in Hx. apply Hx.
  - by eapply owned_inv_work.
  - apply wstep_finished in H as [-> ->]. destruct Hs as [Hl' Hx He Hr]. simpl in *.
    destruct (He _ _ eq_refl eq_refl) as (st & Hst & Ht). split; simpl; [| |done|done].
    + intros e st' Hst' Ht'. destruct (Hl' _ _ Hst' Ht') as [|Hin]; [by left|]. right.
      rewrite own_perm in Hin. unfold own; simpl. rewrite app_nil_r. simpl in Hin.
      apply elem_of_cons in Hin as [->|]; [congruence|done].
    + intros p' Hin. apply Hx. rewrite own_perm. unfold own in Hin; simpl in Hin. rewrite app_nil_r in Hin. by right.
  - done.
  - destruct Hs as [Hl' Hx He Hr]. simpl in *. split; simpl; [| |done|done].
    + intros e st Hst Ht. destruct (Hl' _ _ Hst Ht) as [|Hin]; [by left|right].
      rewrite own_perm in Hin. unfold own; simpl. by rewrite app_nil_r.
    + intros p' Hin. apply Hx. rewrite own_perm. unfold own in Hin; simpl in Hin. by rewrite app_nil_r in Hin.
  - by destruct Hs.
  - by destruct Hs.
  - by destruct Hs.
Qed.

(** The operator aborts a list of events, ignoring the ones that answer with an
    error. *)
Definition abort_all (es : list string) (db : toggle_db) : toggle_db :=
  foldl (λ db e, from_ok db (abort_toggle e db)) db es.

Definition all_abortable (db : toggle_db) : Prop :=
  ∀ e st, status_of db e = Some st → terminal st = false → abortable st = true.

Lemma abort_missing e db : status_of db e = None → from_ok db (abort_toggle e db) = db.
Proof. intros H. unfold abort_toggle, abort_claim. by rewrite H. Qed.

Lemma abort_all_missing es db : (∀ e, e ∈ es → status_of db e = None) → abort_all es db = db.
Proof.
  induction es as [|e es IH]; intros H; [done|]. unfold abort_all; simpl.
  rewrite (abort_missing e db) by (apply H; by left). apply IH. intros e' ?. apply H. by right.
Qed.

Lemma abort_ok e st db :
  status_of db e = Some st → all_abortable db →
  abort_toggle e db = Ok (release_transition e (if terminal st then db else update_event e (set_status aborted) db)).
Proof.
  intros Hst Ha. unfold abort_toggle, abort_claim. rewrite Hst.
  specialize (Ha _ _ Hst). destruct st; simpl in *; try done; by specialize (Ha eq_refl).
Qed.

(** What one abort leaves: its event terminal, the others as they were. *)
Lemma abort_status e st db e' :
  status_of db e = Some st → all_abortable db →
  status_of (from_ok db (abort_toggle e db)) e' =
    if bool_decide (e' = e) then Some (if terminal st then st else aborted) else status_of db e'.
Proof.
  intros Hst Ha. rewrite (abort_ok _ _ _ Hst Ha). simpl. rewrite release_status.
  case_bool_decide; subst; destruct (terminal st) eqn:Ht; try done.
  - by rewrite status_set_eq, Hst.
  - by rewrite status_update_ne.
Qed.

Lemma abort_opens e st db :
  status_of db e = Some st → all_abortable db →
  (∀ e' st', e' ≠ e → status_of db e' = Some st' → terminal st' = true) →
  sc_transition (td_config (from_ok db (abort_toggle e db))) = stable.
Proof.
  intros Hst Ha Hothers. rewrite (abort_ok _ _ _ Hst Ha). simpl.
  unfold release_transition. case_bool_decide as Htr; simpl; [exact Htr|].
  destruct (other_live _ _) eqn:Ho; [|done]. apply other_live_spec in Ho as (e' & st' & Hne & Hst' & Ht').
  destruct (terminal st); rewrite ?status_update_ne in Hst' by done;
    rewrite (Hothers _ _ Hne Hst') in Ht'; done.
Qed.

Lemma abort_all_opens es db :
  all_abortable db → (∀ e st, status_of db e = Some st → terminal st = false → e ∈ es) →
  (∃ e, e ∈ es ∧ is_Some (status_of db e)) →
  sc_transition (td_config (abort_all es db)) = stable.
Proof.
  revert db. induction es as [|e es IH]; intros db Ha Hin Hex; [by destruct Hex as (? & ?%not_elem_of_nil & _)|].
  unfold abort_all; simpl. destruct (status_of db e) as [st|] eqn:Hst.
  - assert (all_abortable (from_ok db (abort_toggle e db))) as Ha'.
    { intros e' st'. rewrite (abort_status _ _ _ _ Hst Ha). case_bool_decide; [|apply Ha].
      intros [= <-]. by destruct st. }
    destruct (decide (Exists (λ e', is_Some (status_of db e')) es)) as [Hes|Hes].
    + apply Exists_exists in Hes as (e' & Hin' & Hs'). apply IH; [done| |].
      * intros e0 st0. rewrite (abort_status _ _ _ _ Hst Ha). case_bool_decide as He0.
        { intros [= <-]. by destruct st. }
        intros Hst0 Ht0. specialize (Hin _ _ Hst0 Ht0). apply elem_of_cons in Hin as [|]; done.
      * exists e'. split; [done|]. rewrite (abort_status _ _ _ _ Hst Ha). case_bool_decide; [|done].
        by destruct st.
    + assert (∀ e', e' ∈ es → status_of db e' = None) as Hnone.
      { intros e' Hin'. apply eq_None_not_Some. intros Hs. apply Hes, Exists_exists. eauto. }
      assert (e ∉ es) as Hn by (intros He; rewrite (Hnone _ He) in Hst; done).
      fold (abort_all es (from_ok db (abort_toggle e db))). rewrite abort_all_missing.
      * eapply abort_opens; [done|done|]. intros e' st' Hne Hst'.
        destruct (terminal st') eqn:Ht'; [done|]. pose proof (Hin _ _ Hst' Ht') as [|]%elem_of_cons; [done|].
        by rewrite Hnone in Hst'.
      * intros e' Hin'. rewrite (abort_status _ _ _ _ Hst Ha).
        rewrite bool_decide_false by (by intros ->). auto.
  - rewrite (abort_missing _ _ Hst). apply IH; [done| |].
    + intros e' st' Hst' Ht'. pose proof (Hin _ _ Hst' Ht') as [->|]%elem_of_cons; [congruence|done].
    + destruct Hex as (e' & [->|]%elem_of_cons & [st Hs]); [congruence|eauto].
Qed.

(** In every execution where the pod may die at any point but no statement of
    the worker raises past its handlers: once the worker is idle and the queue is
    empty, the operator who aborts every event, in any order, has reopened writes,
    whatever transition a dead worker left behind. *)
Theorem aborting_reopens_writes w s es :
  at_rest w → steps no_raise (boot w) s → s_worker s = None → s_queue s = [] →
  (∀ e, is_Some (status_of (w_db (s_world s)) e) → e ∈ es) →
  sc_transition (td_config (abort_all es (w_db (s_world s)))) = stable.
Proof.
  intros (Hev & _ & Htr) Hsteps Hw Hq Hes.
  assert (owned_inv s) as [Hl _ _ Hr].
  { eapply steps_invariant; [|exact Hsteps|].
    - intros l x y Hlab. apply owned_inv_step. by intros ->.
    - split; simpl; [|by intros p ?%not_elem_of_nil|done|done].
      intros e st. unfold status_of. by rewrite Hev, lookup_empty. }
  destruct (decide (td_events (w_db (s_world s)) = ∅)) as [Hemp|Hne].
  - rewrite abort_all_missing; [by apply Hr|]. intros e _. unfold status_of. by rewrite Hemp, lookup_empty.
  - apply map_choose in Hne as (e & ev & He).
    assert (is_Some (status_of (w_db (s_world s)) e)) as Hs by (unfold status_of; rewrite He; eauto).
    apply abort_all_opens; [|eauto|eauto]. intros e' st Hst Ht. destruct (Hl _ _ Hst Ht) as [|Hin]; [done|].
    unfold own in Hin. rewrite Hw, Hq in Hin. by apply not_elem_of_nil in Hin.
Qed.

(** ** A crash while the data plane moves *)

Definition harmless (ph : phase) : bool :=
  match ph with PBegin | PPreflight | PRefuse | PRelease | PAck => true | _ => false end.

(** The transition is dirty and the event that owns it is engaged, with no message
    left that would run it again. *)
Record wedged (e : string) (s : sys) : Prop := {
  wg_transition : transition_of (s_world s) ≠ stable;
  wg_engaged : ∃ st, status_of (w_db (s_world s)) e = Some st ∧ engaged st = true;
  wg_own : e ∉ pl_event <$> own s;
  wg_releases : e ∉ s_releases s;
  wg_hand : ∀ p ph, s_worker s = Some (p, ph) → harmless ph = true;
}.

Lemma preflight_dirty ro pr target cd tr : tr ≠ stable → preflight_ok (run_preflight ro pr target cd tr) = false.
Proof. intros H. unfold run_preflight, preflight_ok; simpl. by rewrite bool_decide_false. Qed.

Lemma wstep_raised a p ph w w' : wstep a p ph w = (w', Raised) → w' = w.
Proof. intros H. wcases H; done. Qed.

Lemma wstep_harmless a p ph w w' n e st :
  harmless ph = true → transition_of w ≠ stable → e ≠ pl_event p →
  status_of (w_db w) e = Some st → engaged st = true → wstep a p ph w = (w', n) →
  transition_of w' ≠ stable ∧ (∀ ph', n = Goto ph' → harmless ph' = true).
Proof.
  intros Hh Htr Hne Hst He H. destruct ph; try done.
  - simpl in H. destruct (a_ok a); simplify_eq; split; try done.
    intros ph' [= <-]. by case_bool_decide.
  - change (preflight_phase a p w = (w', n)) in H. unfold preflight_phase in H.
    rewrite preflight_dirty in H by exact Htr. destruct (a_ok a); simplify_eq; [|done]. split; [done|].
    by intros ph' [= <-].
  - simpl in H. unfold statement in H. destruct (a_ok a); simplify_eq; [|done]. split; [done|]. by intros ph' [= <-].
  - simpl in H. unfold statement in H. destruct (a_ok a); simplify_eq; [|done].
    split; [|by intros ph' [= <-]]. unfold transition_of; simpl.
    erewrite release_blocked; [exact Htr|exact Hne|exact Hst|by apply engaged_live].
  - simpl in H. by simplify_eq.
Qed.

Lemma wedged_work a p ph w w' n q rl sb e :
  wedged e (Sys w q (Some (p, ph)) rl sb) → wstep a p ph w = (w', n) →
  wedged e (Sys w' q (match n with Goto ph' => Some (p, ph') | _ => None end) rl sb).
Proof.
  intros [Htr (st & Hst & He) Hown Hrl Hh] H; simpl in *.
  assert ((e ∉ pl_event <$> q) ∧ e ≠ pl_event p) as [Hq Hne].
  { rewrite own_perm in Hown. simpl in Hown. by apply not_elem_of_cons in Hown as [? ?]. }
  destruct (wstep_harmless _ _ _ _ _ _ e st (Hh _ _ eq_refl) Htr Hne Hst He H) as [Htr' Hn].
  split; simpl; [done| | |done|].
  - exists st. by rewrite (wstep_status_other _ _ _ _ _ _ _ H Hne).
  - destruct n as [ph'| |]; [rewrite own_perm; by apply not_elem_of_cons|unfold own; simpl; by rewrite app_nil_r..].
  - intros p' ph' Hw. destruct n; simplify_eq. by apply Hn.
Qed.

Lemma wedged_step e l s s' : tstep l s s' → wedged e s → wedged e s'.
Proof.
  intros H Hs. destruct H; try (by apply (wedged_work _ _ _ _ _ _ _ _ _ _ Hs H)).
  all: destruct Hs as [Htr (st1 & Hst & He) Hown Hrl Hh]; simpl in *.
  - split; simpl; eauto.
  - assert (e ≠ pl_event p) as Hne.
    { intros ->. unfold status_of in Hst. rewrite H in Hst. done. }
    split; simpl; [done|eauto using status_insert_other| |done|done].
    destruct published; [|done]. unfold own in *; simpl in *. rewrite !fmap_app in *. set_solver.
  - assert (e ≠ e0) as Hne by (intros ->; rewrite Hst in H; destruct H; simplify_eq; done).
    assert (status_of db e = Some st1) as Hst'.
    { rewrite (claim_status _ _ _ _ _ H H0 Hst). by rewrite bool_decide_false. }
    split; simpl; [|eauto|done|by apply not_elem_of_cons|done].
    unfold transition_of; simpl. by rewrite (abort_claim_claimed _ _ _ H H0).
  - assert (e ≠ e0) as Hne by (intros ->; rewrite Hst in H; simplify_eq; by destruct st).
    split; simpl; eauto. by apply not_elem_of_cons.
  - split; simpl; [|by rewrite release_status; eauto|done|set_solver|done].
    unfold transition_of; simpl. erewrite release_blocked; [exact Htr| |exact Hst|by apply engaged_live]. set_solver.
  - split; simpl; eauto; [|by intros ? ? [= <- <-]]. rewrite own_perm. unfold own in Hown; simpl in Hown. by rewrite app_nil_r in Hown.
  - rewrite own_perm in Hown. split; simpl; eauto; [|done]. unfold own; simpl. by rewrite app_nil_r.
  - split; simpl; eauto.
  - split; simpl; eauto.
  - split; simpl; eauto.
Qed.

(** When a statement of [run_toggle] outside every handler raises while the
    data plane is moving (the switch to 'flipping', the cutover, a rollback, the
    reopening), [consume] logs it and the message is acknowledged: in every
    continuation, whatever the operator submits or aborts and however the worker
    restarts, the transition never becomes 'stable' again and the event answers an
    abort with 409. *)
Theorem crash_while_moving_wedges_writes w s s1 s2 p ph :
  at_rest w → steps no_late_death (boot w) s → s_worker s = Some (p, ph) → moving ph = true →
  tstep LRaise s s1 → steps (λ _, true) s1 s2 →
  transition_of (s_world s2) ≠ stable ∧
  abort_toggle (pl_event p) (w_db (s_world s2)) = Err TooLateToAbort.
Proof.
  intros (Hev & _ & _) Hsteps Hw Hm Hraise Hcont.
  assert (closed_inv s) as [Hh _ Hr Hnd].
  { eapply steps_invariant; [|exact Hsteps|].
    - intros l x y Hl. apply closed_inv_step. by intros ->.
    - split; simpl; [done|set_solver..|constructor]. }
  destruct (Hh _ _ Hw) as (st & Hst & Hok).
  assert (engaged st = true ∧ transition_of (s_world s) ≠ stable) as [Heng Htr] by (destruct ph; simpl in *; naive_solver).
  assert (wedged (pl_event p) s1) as Hwedged.
  { inversion Hraise; simplify_eq; simpl in *; simplify_eq.
    - apply wstep_raised in H as ->. split; simpl; [done|eauto| | |done].
      + rewrite own_perm in Hnd. simpl in Hnd. apply NoDup_cons in Hnd as [Hn _].
        unfold own; simpl. by rewrite app_nil_r.
      + intros Hin. destruct (Hr _ Hin) as (st' & Hst' & Ht'). rewrite Hst in Hst'. simplify_eq. by destruct st'.
    - by destruct ph. }
  assert (wedged (pl_event p) s2) as [Htr2 (st2 & Hst2 & He2) _ _ _].
  { eapply steps_invariant; [|exact Hcont|exact Hwedged]. intros l x y _. apply wedged_step. }
  split; [done|]. unfold abort_toggle, abort_claim. rewrite Hst2. by destruct st2.
Qed.
End safety.
