(* ===== verification/ToggleRun.v ===== *)
(** * The storage toggle: what one run does

    The outcome of [run_toggle] on every branch, what a redelivered message does,
    what the drain does to the jobs it could not wait for, and which zone the
    external commands are aimed at. *)

From S2P Require Import Prelude.
From S2P Require Import Reconciler.
From S2P Require Import Router.
From S2P Require Import Toggle.
From S2P Require Import ToggleSafety.
Local Open Scope Z_scope.

Definition active_of (w : world) : string := sc_active (td_config (w_db w)).
Definition cooldown_of (w : world) : option Z := sc_cooldown (td_config (w_db w)).

(** The canary was written to the new backend and read back. *)
Definition canary_read_back (a : answer) : Prop :=
  se_upload (a_smoke a) = true ∧ se_download (a_smoke a) = Some smoke_body.

Section run.
  Context (getenv : string → option string) (de : deploy_env).
  Local Notation wstep := (Toggle.wstep getenv de).
  Local Notation run_toggle := (Toggle.run_toggle getenv de).

Lemma run_smoke_canary ro a new_id old_id :
  run_smoke ro (a_smoke a) new_id old_id = Ok tt → canary_read_back a.
Proof.
  unfold run_smoke, canary_read_back. intros H. inv_ok. bools. simplify_eq.
  unfold raise_if in *. repeat case_match; naive_solver.
Qed.

(** ** The outcome *)

Section outcome.
  Context (p : payload) (w0 : world) (all : list answer).

Definition untouched (w : world) : Prop := active_of w = active_of w0 ∧ cooldown_of w = cooldown_of w0.

(** What the configuration looks like at each point of the run. *)
Definition run_inv (ph : phase) (w : world) : Prop :=
  let status := status_of (w_db w) (pl_event p) in
  match ph with
  | PBegin | PPreflight | PRefuse | PDrainStart
  | PDrain _ _ | PCancel _ _ _ | PRetry _ _ _ _ | PDrained _ _ => untouched w ∧ w_log w = w_log w0 ∧ is_Some status
  | PRelease | PStandDown => untouched w ∧ w_log w = w_log w0 ∧ status = Some aborted
  | PPromote | PPromoted | PDns | PDnsFlipped | PWorkers | PWorkersRestarted | PFlip | PCutover
  | PRollback RbPromote | PRollback RbDns | PRollback RbWorkers => untouched w ∧ is_Some status
  | PMarkFailed RbPromote | PMarkFailed RbDns | PMarkFailed RbWorkers =>
      untouched w ∧ transition_of w = stable ∧ is_Some status
  | PSmoke => active_of w = pl_to p ∧ is_Some status
  | PSmoked | POpen => active_of w = pl_to p ∧ is_Some status ∧ Exists canary_read_back all
  | PCooldown => active_of w = pl_to p ∧ is_Some status ∧ Exists canary_read_back all ∧ transition_of w = stable
  | PComplete =>
      active_of w = pl_to p ∧ is_Some status ∧ Exists canary_read_back all ∧ transition_of w = stable ∧
      ∃ now, cooldown_of w = Some (now + 1800)
  | PRevert => is_Some status
  | PClearCooldown => is_Some status ∧ (Forall (λ a, a_ok a = true) all → active_of w = pl_from p)
  | PRollback RbSmoke =>
      is_Some status ∧ (Forall (λ a, a_ok a = true) all → active_of w = pl_from p ∧ cooldown_of w = None)
  | PMarkFailed RbSmoke =>
      is_Some status ∧ (Forall (λ a, a_ok a = true) all →
        active_of w = pl_from p ∧ cooldown_of w = None ∧ transition_of w = stable)
  | PForceFailed => is_Some status ∧ ¬ Forall (λ a, a_ok a = true) all
  | PAck =>
      (status = Some completed ∧ active_of w = pl_to p ∧ transition_of w = stable ∧
       (∃ now, cooldown_of w = Some (now + 1800)) ∧ Exists canary_read_back all) ∨
      (status = Some failed ∧ untouched w ∧ transition_of w = stable) ∨
      (status = Some failed ∧ (Forall (λ a, a_ok a = true) all →
        active_of w = pl_from p ∧ cooldown_of w = None ∧ transition_of w = stable)) ∨
      (status = Some aborted ∧ untouched w ∧ w_log w = w_log w0 ∧
       (other_live (pl_event p) (w_db w) = false → transition_of w = stable))
  end.

Lemma release_config e db :
  sc_active (td_config (release_transition e db)) = sc_active (td_config db) ∧
  sc_cooldown (td_config (release_transition e db)) = sc_cooldown (td_config db) ∧
  (other_live e db = false → sc_transition (td_config (release_transition e db)) = stable).
Proof.
  unfold release_transition. case_bool_decide as Htr; simpl; [done|].
  destruct (other_live e db); simpl; done.
Qed.

Lemma other_live_release e db : other_live e (release_transition e db) = other_live e db.
Proof. unfold other_live. by rewrite release_events. Qed.

Lemma status_set_some e st db :
  is_Some (status_of db e) → status_of (update_event e (set_status st) db) e = Some st.
Proof. rewrite status_set_eq. by intros [? ->]. Qed.

Lemma not_all_ok a : a ∈ all → a_ok a = false → ¬ Forall (λ a, a_ok a = true) all.
Proof. intros Hin Ha Hall. rewrite Forall_forall in Hall. rewrite (Hall _ Hin) in Ha. done. Qed.

Lemma run_inv_step a ph ph' w w' :
  a ∈ all → wstep a p ph w = (w', Goto ph') → run_inv ph w → run_inv ph' w'.
Proof.
  intros Hin H Hi. pose proof (not_all_ok a Hin) as Hbad.
  pose proof (wstep_status_some _ _ _ _ _ _ _ _ H) as Hsome.
  wcases H; unfold untouched, active_of, cooldown_of, transition_of in *; simpl in *; bools.
  all: try (intuition (eauto; congruence)).
  all: try (rewrite !status_set_some by tauto; intuition eauto).
  - destruct (release_config (pl_event p) (w_db w)) as (Ha & Hc & Ht).
    rewrite release_status, other_live_release, Ha, Hc. intuition auto.
  - by destruct Hi as (_ & _ & [? [=]]).
  - destruct Hi as [Ha Hst]. split_and!; [done|done|]. apply Exists_exists. exists a. split; [done|].
    destruct (run_smoke a0 (a_smoke a) (pl_to p) (pl_from p)) as [[]|] eqn:Hsm; [|done].
    by eapply run_smoke_canary.
Qed.

Lemma run_invariant (I : phase → world → Prop) ans ph w w' :
  (∀ a ph ph' w w', a ∈ ans → wstep a p ph w = (w', Goto ph') → I ph w → I ph' w') →
  run_toggle ans p ph w = (w', Finished) → I ph w → I PAck w'.
Proof.
  revert ph w. induction ans as [|a ans IH]; intros ph w Hstep Hrun Hi; [done|]. simpl in Hrun.
  destruct (wstep a p ph w) as [w1 [ph1| |]] eqn:Hw; simplify_eq.
  - eapply IH; [|exact Hrun|]; [intros; eapply Hstep; [by right|done..]|]. eapply Hstep; [by left|done..].
  - by apply wstep_finished in Hw as [-> ->].
Qed.
End outcome.

(** A run of [run_toggle] that returns ends in one of four ways. It completed:
    the target is active, writes are open, the 30-minute cooldown is stamped and
    the canary was written to the target and read back. It failed before the
    cutover: the active backend and the cooldown are as before and writes are
    open. It failed at the smoke test: unless a statement of the handler itself
    raised, the old backend is active again, the cooldown is cleared and writes are
    open. It was aborted or refused: nothing was touched, no external command ran,
    and the transition is stable unless another toggle is live. *)
Theorem toggle_outcome ans p w w' st :
  status_of (w_db w) (pl_event p) = Some st →
  run_toggle ans p PBegin w = (w', Finished) →
  let status := status_of (w_db w') (pl_event p) in
  (status = Some completed ∧ active_of w' = pl_to p ∧ transition_of w' = stable ∧
   (∃ now, cooldown_of w' = Some (now + 1800)) ∧ Exists canary_read_back ans) ∨
  (status = Some failed ∧ untouched w w' ∧ transition_of w' = stable) ∨
  (status = Some failed ∧ (Forall (λ a, a_ok a = true) ans →
     active_of w' = pl_from p ∧ cooldown_of w' = None ∧ transition_of w' = stable)) ∨
  (status = Some aborted ∧ untouched w w' ∧ w_log w' = w_log w ∧
   (other_live (pl_event p) (w_db w') = false → transition_of w' = stable)).
Proof.
  intros Hst Hrun. apply (run_invariant p (run_inv p w ans) ans PBegin w w'); [|done|].
  - intros a ph ph' x x' Hin H. by eapply run_inv_step.
  - simpl. split; [done|]. split; [done|]. eauto.
Qed.

(** ** A message that comes back *)

Definition refusal_inv (p : payload) (w0 : world) (ph : phase) (w : world) : Prop :=
  active_of w = active_of w0 ∧ w_log w = w_log w0 ∧
  match ph with
  | PBegin | PPreflight | PRefuse => transition_of w ≠ stable ∧ is_Some (status_of (w_db w) (pl_event p))
  | PRelease => status_of (w_db w) (pl_event p) = Some aborted
  | PAck => status_of (w_db w) (pl_event p) = Some aborted ∧
            (other_live (pl_event p) (w_db w) = false → transition_of w = stable)
  | _ => False
  end.

Lemma refusal_step p w0 a ph ph' w w' :
  wstep a p ph w = (w', Goto ph') → refusal_inv p w0 ph w → refusal_inv p w0 ph' w'.
Proof.
  unfold refusal_inv, active_of, transition_of. intros H (Ha & Hl & Hp).
  destruct ph; try done.
  - simpl in H. destruct (a_ok a); simplify_eq. split_and!; [done|done|]. case_bool_decide; tauto.
  - change (preflight_phase a p w = (w', Goto ph')) in H. unfold preflight_phase in H. destruct Hp as [Hd Hs].
    rewrite preflight_dirty in H by exact Hd. destruct (a_ok a); simplify_eq. split_and!; [done|done|done|].
    simpl. by rewrite status_checks_eq.
  - simpl in H. unfold statement in H. destruct (a_ok a); simplify_eq. split_and!; [done|done|].
    apply status_set_some. tauto.
  - simpl in H. unfold statement in H. destruct (a_ok a); simplify_eq; simpl.
    destruct (release_config (pl_event p) (w_db w)) as (Ha' & _ & Ht).
    rewrite release_status, other_live_release, Ha'. split_and!; done.
Qed.

(** A message redelivered while its transition is still dirty (the pod died in
    the drain, in the promotion or after the cutover) is refused: the run marks the
    event 'aborted', executes nothing, reopens writes when no other toggle is live,
    and leaves the active backend as it stood, also when that is already the target
    whose smoke test never ran. *)
Theorem redelivered_toggle_is_refused ans p w w' st :
  status_of (w_db w) (pl_event p) = Some st → transition_of w ≠ stable →
  run_toggle ans p PBegin w = (w', Finished) →
  status_of (w_db w') (pl_event p) = Some aborted ∧ active_of w' = active_of w ∧ w_log w' = w_log w ∧
  (other_live (pl_event p) (w_db w') = false → transition_of w' = stable).
Proof.
  intros Hst Hd Hrun. assert (refusal_inv p w PAck w') as (Ha & Hl & Hp & Ht); [|done].
  eapply run_invariant; [|exact Hrun|].
  - intros a ph ph' x x' _ H. by apply (refusal_step p w a).
  - split; [done|]. split; [done|]. split; [done|]. eauto.
Qed.

(** ** The drain *)

(** Phases the worker cannot be in once it has left the wait. *)
Definition before_wait_ends (ph : phase) : bool :=
  match ph with PBegin | PPreflight | PDrainStart | PDrain _ _ => true | _ => false end.

Lemma wait_is_left_once a p ph ph' w w' :
  before_wait_ends ph = false → wstep a p ph w = (w', Goto ph') → before_wait_ends ph' = false.
Proof. intros Hp H. wcases H; done. Qed.

Lemma run_past_wait ans p ph ph' w w' :
  before_wait_ends ph = false → run_toggle ans p ph w = (w', Goto ph') → before_wait_ends ph' = false.
Proof.
  revert ph w. induction ans as [|a ans IH]; intros ph w Hp H; simpl in H; [by simplify_eq|].
  destruct (wstep a p ph w) as [w1 [ph1| |]] eqn:Hw; simplify_eq. eapply IH; [|done]. by eapply wait_is_left_once.
Qed.

Lemma waiting_before_deadline ans p dl dl' last last' w w' :
  run_toggle ans p (PDrain dl last) w = (w', Goto (PDrain dl' last')) →
  Forall (λ a, a_now a < dl) ans ∧ w' = w.
Proof.
  revert last w. induction ans as [|a ans IH]; intros last w H; cbn [Toggle.run_toggle] in H; [by simplify_eq|].
  destruct (wstep a p (PDrain dl last) w) as [w1 [ph1| |]] eqn:Hw; simplify_eq.
  destruct (before_wait_ends ph1) eqn:Hb.
  - simpl in Hw. unfold drain_poll in Hw. repeat case_match; simplify_eq; try done. bools.
    apply IH in H as [? ->]. by split; [constructor|].
  - apply run_past_wait in H; done.
Qed.

(** The wait of the drain is bounded: when the worker's clock advances by at
    least the poll interval of 5 seconds between polls, at most 180 polls fit
    before the 900-second deadline, whatever jobs keep running, and the polls
    write nothing. *)
Theorem drain_wait_is_bounded ans p start last dl' last' w w' :
  (∀ i a, ans !! i = Some a → start + 5 * Z.of_nat i ≤ a_now a) →
  run_toggle ans p (PDrain (start + DRAIN_MAX_WAIT_S) last) w = (w', Goto (PDrain dl' last')) →
  (length ans ≤ 180)%nat ∧ w' = w.
Proof.
  intros Hclock [Hall ->]%waiting_before_deadline. split; [|done].
  destruct (decide (length ans ≤ 180)%nat) as [|Hlen]; [done|].
  destruct (lookup_lt_is_Some_2 ans 180) as [a Ha]; [lia|].
  specialize (Hclock _ _ Ha). rewrite Forall_lookup in Hall. specialize (Hall _ _ Ha).
  unfold DRAIN_MAX_WAIT_S in Hall. simpl in Hall. lia.
Qed.

(** The stragglers cancelled and requeued, with the ids drawn for the retries. *)
Fixpoint requeued (e : string) (rows : list (string * toggle_job)) (ids : list string)
    (m : gmap string toggle_job) : gmap string toggle_job :=
  match rows, ids with
  | r :: rows, id :: ids => requeued e rows ids (<[id := retry_job e r]> (alter (cancel_job e) r.1 m))
  | _, _ => m
  end.

Lemma requeued_other e rows ids m k :
  (k ∉ rows.*1) → (k ∉ ids) → requeued e rows ids m !! k = m !! k.
Proof.
  revert ids m. induction rows as [|r rows IH]; intros [|id ids] m; try done. simpl.
  rewrite !not_elem_of_cons. intros [Hk1 Hk2] [Hi1 Hi2]. rewrite IH by done.
  by rewrite lookup_insert_ne, lookup_alter_ne.
Qed.

Lemma requeued_cancelled e rows ids m k j :
  NoDup rows.*1 → (∀ i, i ∈ ids → i ∉ rows.*1) → length ids = length rows →
  (k, j) ∈ rows → m !! k = Some j → requeued e rows ids m !! k = Some (cancel_job e j).
Proof.
  revert ids m. induction rows as [|r rows IH]; intros [|id ids] m; try done; [by intros _ _ _ ?%not_elem_of_nil|].
  rewrite fmap_cons. cbn [requeued]. intros [Hn Hnd]%NoDup_cons Hd [= Hlen] Hin Hm.
  assert (k ≠ id) as Hne.
  { intros ->. apply (Hd id); [by left|]. exact (list_elem_of_fmap_2 fst (r :: rows) (id, j) Hin). }
  apply elem_of_cons in Hin as [<-|Hin]; cbn [fst] in *.
  - rewrite requeued_other; [|done|intros Hi; apply (Hd k); [by right|by left]].
    by rewrite lookup_insert_ne, lookup_alter_eq, Hm.
  - apply IH; [done| |done|done|].
    + intros i Hi Hi'. apply (Hd i); by right.
    + rewrite lookup_insert_ne by done. rewrite lookup_alter_ne; [done|]. intros <-.
      apply Hn. exact (list_elem_of_fmap_2 fst rows (r.1, j) Hin).
Qed.

Lemma requeued_retry e rows ids m i id r :
  NoDup ids → (∀ i, i ∈ ids → i ∉ rows.*1) → rows !! i = Some r → ids !! i = Some id →
  requeued e rows ids m !! id = Some (retry_job e r).
Proof.
  revert ids m i. induction rows as [|r0 rows IH]; intros [|id0 ids] m i Hnd Hd Hr Hid; try done.
  simpl. apply NoDup_cons in Hnd as [Hn Hnd].
  assert (∀ i, i ∈ ids → i ∉ rows.*1) as Hd' by (intros x Hx Hx'; apply (Hd x); by right).
  destruct i as [|i]; simpl in *.
  - simplify_eq. rewrite requeued_other; [by rewrite lookup_insert_eq| |done].
    intros Hx. apply (Hd id); [by left|by right].
  - by eapply IH.
Qed.

Lemma requeued_inv e rows ids m k j :
  NoDup rows.*1 → NoDup ids → (∀ i, i ∈ ids → i ∉ rows.*1) → length ids = length rows →
  (∀ k j, (k, j) ∈ rows → m !! k = Some j) → requeued e rows ids m !! k = Some j →
  (∃ i r, rows !! i = Some r ∧ ids !! i = Some k ∧ j = retry_job e r) ∨
  (∃ j0, (k, j0) ∈ rows ∧ j = cancel_job e j0) ∨ ((k ∉ rows.*1) ∧ m !! k = Some j).
Proof.
  intros Hnd Hnd' Hd Hlen Hm Hk. destruct (decide (k ∈ ids)) as [Hin|Hin].
  - left. apply list_elem_of_lookup in Hin as [i Hi].
    destruct (lookup_lt_is_Some_2 rows i) as [r Hr]; [rewrite <- Hlen; by eapply lookup_lt_Some|].
    exists i, r. rewrite (requeued_retry _ _ _ _ _ _ _ Hnd' Hd Hr Hi) in Hk. by simplify_eq.
  - right. destruct (decide (k ∈ rows.*1)) as [Hr|Hr].
    + left. apply list_elem_of_fmap in Hr as ([k' j0] & -> & Hr). exists j0. split; [done|].
      simpl in Hk. rewrite (requeued_cancelled _ _ _ _ _ _ Hnd Hd Hlen Hr (Hm _ _ Hr)) in Hk. by simplify_eq.
    + right. split; [done|]. by rewrite requeued_other in Hk.
Qed.

(** The answers of a requeue in which no statement raises: two per straggler, the
    second carrying the id of its retry. *)
Definition requeue_answers (a : answer) (ids : list string) : list answer :=
  ids ≫= λ id, let a' := Answer true (a_now a) (a_probe a) id (a_fail_at a) (a_smoke a) in [a'; a'].

Lemma run_toggle_app xs ys p ph w :
  run_toggle (xs ++ ys) p ph w =
    match run_toggle xs p ph w with (w', Goto ph') => run_toggle ys p ph' w' | r => r end.
Proof.
  revert ph w. induction xs as [|x xs IH]; intros ph w; [done|]. simpl.
  destruct (wstep x p ph w) as [w1 [ph1| |]]; done.
Qed.

Lemma run_requeue a p rows ids retried last w :
  length ids = length rows → NoDup ids → (∀ i, i ∈ ids → td_jobs (w_db w) !! i = None) →
  (∀ i, i ∈ ids → i ∉ rows.*1) →
  run_toggle (requeue_answers a ids) p (PCancel rows retried last) w =
    (on_db (on_jobs (λ _, requeued (pl_event p) rows ids (td_jobs (w_db w)))) w,
     Goto (PCancel [] (retried + Z.of_nat (length rows)) last)).
Proof.
  revert ids retried w. induction rows as [|r rows IH]; intros [|id ids] retried w; try done.
  - intros _ _ _ _. simpl. rewrite Z.add_0_r. by destruct w as [[] ? ?].
  - intros [= Hlen] [Hn Hnd]%NoDup_cons Hfresh Hd. rewrite fmap_cons in Hd.
    change (requeue_answers a (id :: ids)) with
      (Answer true (a_now a) (a_probe a) id (a_fail_at a) (a_smoke a)
       :: Answer true (a_now a) (a_probe a) id (a_fail_at a) (a_smoke a) :: requeue_answers a ids).
    assert (id ≠ r.1) as Hne by (intros ->; apply (Hd r.1); by left).
    cbn [Toggle.run_toggle Toggle.wstep statement a_ok a_uuid]. rewrite bool_decide_false.
    2: { simpl. rewrite dom_alter, not_elem_of_dom. apply Hfresh. by left. }
    rewrite IH; [|done|done| |].
    + cbn [on_db on_jobs w_db w_router w_log td_jobs td_config td_events td_backends requeued length].
      do 2 f_equal. f_equal. lia.
    + intros i Hi. simpl. assert (i ≠ r.1) by (intros ->; apply (Hd r.1); [by right|by left]).
      rewrite lookup_insert_ne by (by intros ->). rewrite lookup_alter_ne by done. apply Hfresh. by right.
    + intros i Hi Hi'. apply (Hd i); by right.
Qed.

(** When the drain gives up waiting, and no other service writes [jobs] in
    between: every straggler is cancelled, exactly one QUEUED retry is inserted for
    it with its type, tenant, resource, snapshot and spec, and no other job is
    touched, so that the jobs in flight afterwards are exactly the retries. *)
Theorem drain_requeues_stragglers a p ids last w :
  let rows := inflight_jobs (w_db w) in
  length ids = length rows → NoDup ids → (∀ i, i ∈ ids → td_jobs (w_db w) !! i = None) →
  ∃ w', run_toggle (requeue_answers a ids ++ [a]) p (PCancel rows 0 last) w =
      (w', Goto (PDrained (last - Z.of_nat (length rows)) (Z.of_nat (length rows)))) ∧
    (∀ k j, (k, j) ∈ rows → td_jobs (w_db w') !! k = Some (cancel_job (pl_event p) j)) ∧
    (∀ k, (k ∉ rows.*1) → (k ∉ ids) → td_jobs (w_db w') !! k = td_jobs (w_db w) !! k) ∧
    inflight_jobs (w_db w') ≡ₚ zip ids (retry_job (pl_event p) <$> rows).
Proof.
  intros rows Hlen Hnd Hfresh.
  assert (∀ k j, (k, j) ∈ rows → td_jobs (w_db w) !! k = Some j ∧ inflight j = true) as Hrows.
  { intros k j (Hf & Hin)%list_elem_of_filter. apply elem_of_map_to_list in Hin. split; [done|by apply Is_true_true]. }
  assert (NoDup rows.*1) as Hndr by (apply NoDup_fmap_filter, NoDup_fst_map_to_list).
  assert (∀ i, i ∈ ids → i ∉ rows.*1) as Hd.
  { intros i Hi ([k j] & -> & Hin)%list_elem_of_fmap. destruct (Hrows _ _ Hin) as [Hk _].
    simpl in Hi. rewrite (Hfresh _ Hi) in Hk. done. }
  eexists. split; [rewrite run_toggle_app, run_requeue by done; simpl; by rewrite Z.add_0_l|]. split_and!.
  - intros k j Hin. apply requeued_cancelled; try done. by apply Hrows.
  - intros k. apply requeued_other.
  - apply NoDup_Permutation.
    + apply NoDup_filter, NoDup_map_to_list.
    + apply NoDup_fmap_1 with fst. rewrite fst_zip; [done|]. rewrite length_fmap. lia.
    + intros [k j]. unfold inflight_jobs. rewrite list_elem_of_filter, elem_of_map_to_list, Is_true_true. simpl. split.
      * intros [Hf Hk]. apply requeued_inv in Hk; [|done..|by intros; apply Hrows].
        destruct Hk as [(i & r & Hr & Hi & ->)|[(j0 & _ & ->)|[Hn Hk]]]; [| done |].
        -- apply list_elem_of_lookup. exists i. by rewrite lookup_zip_with, Hi, list_lookup_fmap, Hr.
        -- exfalso. apply Hn. apply (list_elem_of_fmap_2 fst rows (k, j)).
           apply list_elem_of_filter. split; [by apply Is_true_true|by apply elem_of_map_to_list].
      * intros Hin. apply list_elem_of_lookup in Hin as [i Hi]. apply lookup_zip_with_Some in Hi as (k' & j' & [= <- <-] & Hk & Hj).
        rewrite list_lookup_fmap in Hj. destruct (rows !! i) as [r|] eqn:Hr; [|done]. simplify_eq/=.
        split; [done|]. by eapply requeued_retry.
Qed.

(** ** The zone the commands are aimed at *)

(** A command that moves the deployment from the cloud to the premises. *)
Definition to_onprem (c : effect) : Prop :=
  match c with
  | Failover k => k = "onprem"
  | DnsScript z => z = "onprem"
  | Scale z _ n => (z = "azure" ∧ n = 0) ∨ (z = "onprem" ∧ n = 4)
  | ActiveBackend _ => True
  end.

Definition undirected (p : payload) : Prop := pl_from_kind p = None ∧ pl_target_kind p = None.

Lemma exec_commands_incl n cmds c : c ∈ (exec_commands n cmds).1 → ∃ cs, cmds = Some cs ∧ c ∈ cs.
Proof.
  unfold exec_commands. destruct cmds as [cs|]; [|by intros ?%not_elem_of_nil].
  destruct n as [n|]; [case_match|]; simpl; intros Hin; exists cs; split; try done.
  by eapply elem_of_take in Hin as (? & ? & _); eapply list_elem_of_lookup_2.
Qed.

Lemma restart_workers_onprem cs c : restart_workers de "azure" "onprem" = Some cs → c ∈ cs → to_onprem c.
Proof.
  unfold restart_workers. intros Hcs Hin. revert c Hin. apply Forall_forall.
  repeat case_match; simplify_eq/=; rewrite ?Forall_cons; simpl; repeat split; auto.
Qed.

Lemma commands_log a e cmds k h w w' n :
  commands a e cmds k h w = (w', n) → w_log w' = w_log w ++ ((λ c, (e, c)) <$> (exec_commands (a_fail_at a) cmds).1).
Proof. unfold commands. destruct (exec_commands _ _) as [done ok]. by intros [= <- _]. Qed.

Lemma wstep_onprem a p ph w w' n :
  undirected p → wstep a p ph w = (w', n) → Forall to_onprem (w_log w).*2 → Forall to_onprem (w_log w').*2.
Proof.
  intros [Hf Ht] H Hlog.
  assert (∀ e cs, Forall to_onprem cs → Forall to_onprem (w_log w ++ ((λ c, (e, c)) <$> cs)).*2) as Happ.
  { intros e cs Hcs. rewrite fmap_app, Forall_app. split; [done|]. rewrite <- list_fmap_compose. simpl.
    unfold compose; simpl. by rewrite list_fmap_id. }
  assert (∀ k cmds, (∀ cs c, cmds = Some cs → c ∈ cs → to_onprem c) → Forall to_onprem (exec_commands k cmds).1) as Hexec.
  { intros k cmds Hc. apply Forall_forall. intros c (cs & -> & Hin)%exec_commands_incl. by eapply Hc. }
  destruct ph; try (wcases H; done).
  1-3: cbn [Toggle.wstep] in H; apply commands_log in H as ->; apply Happ, Hexec; rewrite Ht, ?Hf.
  - unfold promote_target. intros cs c Hcs Hin. revert c Hin. apply Forall_forall.
    repeat case_match; simplify_eq/=; rewrite ?Forall_cons; by repeat split.
  - unfold flip_dns_to. intros cs c Hcs Hin. revert c Hin. apply Forall_forall.
    repeat case_match; simplify_eq/=; rewrite ?Forall_cons; by repeat split.
  - apply restart_workers_onprem.
  - wcases H; first [exact Hlog|apply (Happ _ [ActiveBackend _]); by constructor].
  - wcases H; first [exact Hlog|apply (Happ _ [ActiveBackend _]); by constructor].
  - by injection H as <- _.
Qed.

Definition onprem_inv (s : sys) : Prop :=
  Forall undirected (s_submits s) ∧ Forall undirected (own s) ∧ Forall to_onprem (w_log (s_world s)).*2.

Lemma onprem_step confirm l s s' : tstep getenv de confirm l s s' → onprem_inv s → onprem_inv s'.
Proof.
  intros H (Hs & Ho & Hl). unfold onprem_inv. destruct H; simpl in *; try done.
  - split; [|done]. constructor; [|done]. unfold submit_check in H. inv_ok. by subst.
  - rewrite Forall_app, Forall_cons in Hs. destruct Hs as (Hs1 & Hp & Hs2).
    split; [by rewrite Forall_app|]. split; [|done]. destruct published; [|done].
    unfold own in *; simpl in *. rewrite !Forall_app in *. destruct Ho. split; [|done]. split; [done|]. apply Forall_cons. by split.
  - split; [done|]. split; [|done]. rewrite own_perm. unfold own in Ho; simpl in Ho. by rewrite app_nil_r in Ho.
  - rewrite own_perm in Ho. split; [done|]. split; [by rewrite own_perm|]. apply Forall_cons in Ho as [? _].
    by eapply wstep_onprem.
  - rewrite own_perm in Ho. apply Forall_cons in Ho as [? Ho]. split; [done|].
    split; [unfold own; simpl; by rewrite app_nil_r|]. by eapply wstep_onprem.
  - rewrite own_perm in Ho. apply Forall_cons in Ho as [? Ho]. split; [done|].
    split; [unfold own; simpl; by rewrite app_nil_r|]. by eapply wstep_onprem.
  - rewrite own_perm in Ho. split; [done|]. split; [|done]. unfold own; simpl. by rewrite app_nil_r.
Qed.

(** The message of [submit_toggle] carries neither [target_kind] nor
    [from_kind], so the worker falls back to its defaults: in every execution, every
    failover, DNS script and worker scaling that any toggle runs moves the
    deployment from 'azure' to 'onprem', also for a toggle whose target is the cloud
    backend. *)
Theorem commands_ignore_the_target confirm allowed w s :
  at_rest w → steps getenv de confirm allowed (boot w) s → Forall to_onprem (w_log (s_world s)).*2.
Proof.
  intros (_ & Hlog & _) Hsteps. assert (onprem_inv s) as (_ & _ & ?); [|done].
  eapply steps_invariant; [|exact Hsteps|].
  - intros l x y _. apply onprem_step.
  - unfold onprem_inv, own; simpl. rewrite Hlog. by repeat constructor.
Qed.

(** ** The worker inside the system *)

Lemma run_steps confirm (allowed : label → bool) ans p ph ph' w w' q rl sb :
  allowed LWork = true → run_toggle ans p ph w = (w', Goto ph') →
  steps getenv de confirm allowed (Sys w q (Some (p, ph)) rl sb) (Sys w' q (Some (p, ph')) rl sb).
Proof.
  intros Ha. revert ph w. induction ans as [|a ans IH]; intros ph w H; simpl in H; [simplify_eq; apply rtc_refl|].
  destruct (wstep a p ph w) as [w1 [ph1| |]] eqn:Hw; simplify_eq.
  eapply rtc_l; [|by apply IH]. exists LWork. split; [done|]. by econstructor.
Qed.
End run.

(** ** Toggling the example deployment to the cloud *)
Module ToggleExamples.
Import RouterExamples.

Definition probe_ok : probe := Probe true (Ok tt) true (Ok None).
Definition smoke_ok : smoke_env := SmokeEnv true (Some smoke_body) true true (Some smoke_body) false false.
Definition smoke_bad : smoke_env := SmokeEnv false None true true None false false.

Definition ok_at (now : Z) : answer := Answer true now probe_ok "r1" None smoke_ok.
Definition bad_smoke_at (now : Z) : answer := Answer true now probe_ok "r1" None smoke_bad.
Definition raise_at (now : Z) : answer := Answer false now probe_ok "r1" None smoke_ok.

Definition de0 : deploy_env :=
  DeployEnv "patroni" (Some "http://patroni") "script" "noop" (λ _, None).

Definition job_running : toggle_job := ToggleJob "BACKUP" (Some "t1") (Some "r7") None "{}" JRunning None None.

Definition world0 : world :=
  World (ToggleDb config0 ∅ ∅ [onprem; azure]) router0 [].
Definition p1 : payload := Payload "e1" "b1" "b2" None None.
Definition rq1 : toggle_request := ToggleRequest "b2" "TMVAULT-ORG" None.

(** After the request was accepted and delivered. *)
Definition world1 : world := on_db (submit_insert p1) world0.
Definition delivered : sys := Sys world1 [] (Some (p1, PBegin)) [] [].

Lemma world0_at_rest : at_rest world0.
Proof. done. Qed.

Lemma reach_delivered allowed :
  (∀ l, l = LSubmit ∨ l = LDeliver → allowed l = true) → steps env0 de0 None allowed (boot world0) delivered.
Proof.
  intros Ha.
  eapply rtc_l; [exists LSubmit; split; [by auto|]; apply (t_check _ _ _ 0 "e1" rq1 world0 p1); vm_compute; reflexivity|].
  eapply rtc_l; [exists LSubmit; split; [by auto|]; apply (t_insert _ _ _ p1 true world0 [] None [] [] []); reflexivity|].
  eapply rtc_l; [exists LDeliver; split; [by auto|]; apply t_deliver|]. apply rtc_refl.
Qed.

(** The worker after [n] answers in which nothing fails. *)
Definition good_run (n : nat) : world * next := run_toggle env0 de0 (replicate n (ok_at 0)) p1 PBegin world1.

Lemma reach_good_run allowed n ph :
  (∀ l, l ∈ [LSubmit; LDeliver; LWork] → allowed l = true) → (good_run n).2 = Goto ph →
  steps env0 de0 None allowed (boot world0) (Sys (good_run n).1 [] (Some (p1, ph)) [] []).
Proof.
  intros Ha Hg. etrans; [apply reach_delivered; intros l [-> | ->]; apply Ha; set_solver|].
  apply (run_steps env0 de0 None allowed (replicate n (ok_at 0)) p1 PBegin ph world1 (good_run n).1 [] [] []);
    [apply Ha; set_solver|].
  fold (good_run n). destruct (good_run n) as [w' nx]. simpl in *. by subst.
Qed.

Lemma aborted_toggle_never_promotes_witness :
  let s := Sys (on_db (update_event "e1" (set_status aborted)) world1) [] (Some (p1, PBegin)) ["e1"] [] in
  let s' := Sys (on_db (update_event "e1" (set_status aborted)) world1) [] (Some (p1, PRelease)) ["e1"] [] in
  status_of (w_db (s_world s')) "e1" = Some aborted ∧ effects_of "e1" (s_world s') = effects_of "e1" (s_world s).
Proof.
  refine (aborted_toggle_never_promotes env0 de0 None (λ _, true) world0 _ _ "e1" _ _ _).
  - eapply rtc_r; [by apply reach_delivered|]. exists LClaim. split; [done|].
    apply (t_claim _ _ _ "e1" world1 _ [] (Some (p1, PBegin)) [] []); [left; reflexivity|reflexivity].
  - reflexivity.
  - apply rtc_once. exists LWork. split; [done|]. apply (t_work _ _ _ (ok_at 0)). reflexivity.
Defined.

Lemma writes_closed_while_moving_witness :
  transition_of (good_run 13).1 ≠ stable ∧ (good_run 13).2 = Goto PSmoke ∧
  ∃ ro, get_active_store ro = Err (TransitionInProgressError flipping).
Proof.
  assert ((good_run 13).2 = Goto PSmoke) as Hg by (vm_compute; reflexivity).
  destruct (writes_closed_while_moving env0 de0 None world0 (Sys (good_run 13).1 [] (Some (p1, PSmoke)) [] []) p1 PSmoke
    router0 (from_ok router0 (reload env0 true [onprem; azure] (Some (td_config (w_db (good_run 13).1))) router0)))
    as [H1 H2].
  - exact world0_at_rest.
  - apply reach_good_run; [intros [] Hl; try reflexivity; by repeat (apply elem_of_cons in Hl as [[=]|Hl]); apply not_elem_of_nil in Hl|exact Hg].
  - reflexivity.
  - reflexivity.
  - apply is_ok_from. vm_compute. reflexivity.
  - split; [exact H2|]. split; [exact Hg|]. eexists. refine (eq_trans H1 _). vm_compute. reflexivity.
Defined.

(** A second request passed its checks before the first one was delivered and its
    message was never published; the worker died while draining for the first one;
    the redelivered message was refused but could not release the transition. *)
Definition p2 : payload := Payload "e2" "b1" "b2" None None.
Definition world2 : world := on_db (submit_insert p2) world1.
Definition dying : world * next := run_toggle env0 de0 (replicate 3 (ok_at 0)) p1 PBegin world2.
Definition refused : world * next := run_toggle env0 de0 (replicate 4 (ok_at 0)) p1 PBegin dying.1.
Definition stranded : sys := Sys refused.1 [] None [] [].

Lemma reach_stranded : steps env0 de0 None no_raise (boot world0) stranded.
Proof.
  assert (∀ rq p sb, submit_check None 0 (pl_event p) rq (w_db world0) = Ok p →
    steps env0 de0 None no_raise (Sys world0 [] None [] sb) (Sys world0 [] None [] (p :: sb))) as Hcheck.
  { intros rq p sb H. apply rtc_once. exists LSubmit. split; [reflexivity|]. by eapply t_check. }
  etrans; [apply (Hcheck rq1 p2); vm_compute; reflexivity|].
  etrans; [apply (Hcheck rq1 p1); vm_compute; reflexivity|].
  eapply rtc_l; [exists LSubmit; split; [done|]; apply (t_insert _ _ _ p1 true world0 [] None [] [] [p2]); reflexivity|].
  eapply rtc_l; [exists LSubmit; split; [done|]; apply (t_insert _ _ _ p2 false world1 [p1] None [] [] []); reflexivity|].
  eapply rtc_l; [exists LDeliver; split; [done|]; apply t_deliver|].
  etrans.
  { apply (run_steps env0 de0 None no_raise (replicate 3 (ok_at 0)) p1 PBegin (PDrain 900 0) world2 dying.1 [] [] []);
      [reflexivity|]. vm_compute. reflexivity. }
  eapply rtc_l; [exists LDie; split; [done|]; apply (t_die _ _ _ p1 (PDrain 900 0))|].
  eapply rtc_l; [exists LDeliver; split; [done|]; apply t_deliver|].
  etrans.
  { apply (run_steps env0 de0 None no_raise (replicate 4 (ok_at 0)) p1 PBegin PAck dying.1 refused.1 [] [] []);
      [reflexivity|]. vm_compute. reflexivity. }
  apply rtc_once. exists LWork. split; [done|]. apply (t_finish _ _ _ (ok_at 0) p1 PAck). reflexivity.
Qed.

Lemma aborting_reopens_writes_witness :
  transition_of (s_world stranded) = draining ∧
  sc_transition (td_config (abort_all ["e1"; "e2"] (w_db (s_world stranded)))) = stable.
Proof.
  split; [vm_compute; reflexivity|].
  apply (aborting_reopens_writes env0 de0 None world0 stranded); [exact world0_at_rest|exact reach_stranded|reflexivity..|].
  assert (dom (td_events (w_db (s_world stranded))) = list_to_set ["e1"; "e2"]) as Hdom.
  { refine (bool_decide_unpack _ _). vm_compute. exact I. }
  intros e Hst. apply fmap_is_Some, elem_of_dom in Hst. rewrite Hdom, elem_of_list_to_set in Hst. exact Hst.
Defined.

Lemma crash_while_moving_wedges_writes_witness :
  let wedge := Sys (good_run 11).1 [] None [] [] in
  transition_of (s_world wedge) ≠ stable ∧
  abort_toggle "e1" (w_db (s_world wedge)) = Err TooLateToAbort.
Proof.
  assert ((good_run 11).2 = Goto PFlip) as Hg by (vm_compute; reflexivity).
  refine (crash_while_moving_wedges_writes env0 de0 None world0 (Sys (good_run 11).1 [] (Some (p1, PFlip)) [] [])
    (Sys (good_run 11).1 [] None [] []) _ p1 PFlip world0_at_rest _ eq_refl eq_refl _ _).
  - apply reach_good_run; [|exact Hg].
    intros [] Hl; try reflexivity; by repeat (apply elem_of_cons in Hl as [[=]|Hl]); apply not_elem_of_nil in Hl.
  - apply (t_raise _ _ _ (raise_at 0) p1 PFlip). reflexivity.
  - apply rtc_refl.
Defined.

Definition completed_world : world := (good_run 20).1.

Lemma toggle_outcome_witness :
  status_of (w_db completed_world) "e1" = Some completed ∧ active_of completed_world = "b2".
Proof.
  assert ((good_run 20).2 = Finished) as Hrun by (vm_compute; reflexivity).
  apply pair_eta_r in Hrun. fold completed_world in Hrun. unfold good_run in Hrun.
  assert (status_of (w_db completed_world) "e1" = Some completed) as Hs by (vm_compute; reflexivity).
  pose proof (toggle_outcome env0 de0 _ p1 world1 completed_world started eq_refl Hrun) as H.
  change (pl_event p1) with "e1" in H. cbv zeta in H. rewrite Hs in H.
  destruct H as [(_ & H & _)|[[[=] _]|[[[=] _]|[[=] _]]]]. split; [exact Hs|exact H].
Defined.

(** Killed after the cutover: the event ends as aborted while the target, never
    smoke-tested, is the active backend. *)
Lemma redelivered_toggle_is_refused_witness :
  let w := (good_run 13).1 in
  let w' := (run_toggle env0 de0 (replicate 5 (ok_at 0)) p1 PBegin w).1 in
  status_of (w_db w') "e1" = Some aborted ∧ active_of w' = "b2" ∧ transition_of w' = stable.
Proof.
  intros w w'.
  destruct (redelivered_toggle_is_refused env0 de0 (replicate 5 (ok_at 0)) p1 w w' workers_restarted) as (H1 & H2 & _ & H4).
  - vm_compute. reflexivity.
  - vm_compute. discriminate.
  - apply (pair_eta_r (run_toggle env0 de0 (replicate 5 (ok_at 0)) p1 PBegin w)). vm_compute. reflexivity.
  - split; [exact H1|]. split; [rewrite H2; vm_compute; reflexivity|]. apply H4. vm_compute. reflexivity.
Defined.

Definition busy_world : world := on_db (on_jobs (insert "j1" job_running)) world1.

Lemma drain_wait_is_bounded_witness :
  (length [ok_at 0; ok_at 5] ≤ 180)%nat ∧ busy_world = busy_world.
Proof.
  apply (drain_wait_is_bounded env0 de0 [ok_at 0; ok_at 5] p1 0 0 900 1 busy_world busy_world).
  - intros [|[|i]] a; simpl; intros [= <-]; simpl; lia.
  - vm_compute. reflexivity.
Defined.

Lemma drain_requeues_stragglers_witness :
  ∃ w', inflight_jobs (w_db w') ≡ₚ [("r1", retry_job "e1" ("j1", job_running))] ∧
        td_jobs (w_db w') !! "j1" = Some (cancel_job "e1" job_running).
Proof.
  assert (inflight_jobs (w_db busy_world) = [("j1", job_running)]) as Hrows by (vm_compute; reflexivity).
  destruct (drain_requeues_stragglers env0 de0 (ok_at 900) p1 ["r1"] 1 busy_world) as (w' & _ & H1 & _ & H2).
  - rewrite Hrows. reflexivity.
  - refine (bool_decide_unpack _ _). vm_compute. exact I.
  - intros i ->%list_elem_of_singleton. reflexivity.
  - rewrite Hrows in *. exists w'. split; [exact H2|]. apply H1. by left.
Defined.

Lemma commands_ignore_the_target_witness :
  Forall to_onprem (w_log (good_run 13).1).*2 ∧ active_of (good_run 13).1 = "b2" ∧ sb_kind azure = "azure_blob".
Proof.
  split; [|vm_compute; done].
  apply (commands_ignore_the_target env0 de0 None (λ _, true) world0 (Sys (good_run 13).1 [] (Some (p1, PSmoke)) [] []));
    [exact world0_at_rest|]. apply reach_good_run; [done|]. vm_compute. reflexivity.
Defined.
End ToggleExamples.
