(* ===== verification/Provider.v ===== *)
(** * Provider work: durable continuation of a throttled backup

    [src/shared/provider_work.py]. A backup leaf (a snapshot or one of its
    partitions) that must wait for the provider becomes a [provider_work] row; a
    worker reserves a due row under the capacity and fair-queue rules, is admitted
    if the parents still stand, checkpoints its units, suspends or finishes, and a
    settler closes the receipt. Every write of a worker is fenced by [owned].

    One clock reading per operation. Virtual finish times are exact rationals where
    the column is a float. Rows locked by other transactions ([SKIP LOCKED]) are the
    predicate [busy]. The JSON [continuation] is its message text and the
    [queue_was_cooling] flag. Not modelled: the chat capture rows superseded by an
    admission, the progress texts written into [extra_data] and [job.result], and
    the item count of an exhausted snapshot (an argument). *)

From Stdlib Require Import QArith.Qcanon.
From stdpp Require Import numbers pretty.
From S2P Require Import Prelude.
From S2P Require Import Reconciler.
Local Open Scope Z_scope.

(** ** Tables *)

Inductive work_state := WDraining | WWaiting | WResuming | WCompleted | WPartial | WFailed | WCancelled.

Global Instance work_state_eq_dec : EqDecision work_state.
Proof. solve_decision. Defined.

(** [ACTIVE], [TERMINAL] and the two states that hold a slot. *)
Definition is_active (st : work_state) : bool := bool_decide (st ∈ [WDraining; WWaiting; WResuming]).
Definition is_terminal (st : work_state) : bool := bool_decide (st ∈ [WCompleted; WPartial; WFailed; WCancelled]).
Definition is_finished (st : work_state) : bool := bool_decide (st ∈ [WCompleted; WPartial; WFailed]).
Definition holds_slot (st : work_state) : bool := bool_decide (st ∈ [WDraining; WResuming]).

(** The columns of [provider_work] that never change. *)
Record work_ident := WorkIdent {
  wi_leaf_key : string;
  wi_tenant : string;
  wi_resource : string;
  wi_job : string;
  wi_snapshot : string;
  wi_partition : option string;
  wi_policy : option string;
  wi_weight : Z;
  wi_tenant_queue : string;
  wi_policy_queue : string;
  wi_resource_queue : string;
  wi_protocol : Z;
  wi_created : Z;
  wi_entered : Z;
}.

(** [wt_parent]: the token of the leaf row. *)
Record work_tokens := WorkTokens { wt_parent : Z; wt_snapshot : Z; wt_job : Z }.

Record provider_work := ProviderWork {
  pw_ident : work_ident;
  pw_state : work_state;
  pw_generation : Z;
  pw_tokens : work_tokens;
  pw_owner : option string;
  pw_expires : option Z;
  pw_next : Z;
  pw_message : string;
  pw_cooling : bool;
  pw_settle : bool;
  pw_suspension : option Z;
  pw_reason : option string;
}.

Inductive unit_state := UPending | URunning | UCompleted | UFailed | UCancelled.

Global Instance unit_state_eq_dec : EqDecision unit_state.
Proof. solve_decision. Defined.

Record work_unit := WorkUnit {
  un_kind : string;
  un_version : option string;
  un_state : unit_state;
  un_checkpoint : string;
  un_receipt : option string;
  un_attempts : Z;
  un_waited : Z;
  un_reconciliations : Z;
  un_deadline : Z;
  un_next : Z;
}.

Record work_queue := WorkQueue {
  wq_parent : option string;
  wq_weight : Z;
  wq_finish : Qc;
}.

Record work_control := WorkControl {
  wc_enabled : bool;
  wc_epoch : Z;
  wc_total : Z;
  wc_tenant : Z;
}.

Record leaf_lease := LeafLease { ll_token : Z; ll_owner : option string; ll_expires : option Z }.

Record parent_job := ParentJob { pj_status : job_status; pj_token : Z; pj_tenant : string; pj_priority : option Z }.
Record parent_snapshot := ParentSnapshot {
  ps_status : snapshot_status; ps_lease : leaf_lease; ps_job : string; ps_resource : string }.
Record parent_partition := ParentPartition {
  pp_status : string; pp_lease : leaf_lease; pp_snapshot : string; pp_tenant : string }.
Record parent_resource := ParentResource { pr_tenant : string; pr_policy : option string }.
Record copy_workflow := CopyWorkflow { cw_state : work_state; cw_tokens : work_tokens }.

Record provider_db := ProviderDb {
  pd_work : gmap string provider_work;
  pd_units : gmap (string * string) work_unit;
  pd_queues : gmap string work_queue;
  pd_control : option work_control;
  pd_jobs : gmap string parent_job;
  pd_snapshots : gmap string parent_snapshot;
  pd_partitions : gmap string parent_partition;
  pd_resources : gmap string parent_resource;
  pd_policies : gmap string string;
  pd_copies : gmap string copy_workflow;
}.

Definition on_work (f : gmap string provider_work → gmap string provider_work) (db : provider_db) : provider_db :=
  ProviderDb (f (pd_work db)) (pd_units db) (pd_queues db) (pd_control db) (pd_jobs db) (pd_snapshots db)
    (pd_partitions db) (pd_resources db) (pd_policies db) (pd_copies db).
Definition on_units (f : gmap (string * string) work_unit → gmap (string * string) work_unit) (db : provider_db) : provider_db :=
  ProviderDb (pd_work db) (f (pd_units db)) (pd_queues db) (pd_control db) (pd_jobs db) (pd_snapshots db)
    (pd_partitions db) (pd_resources db) (pd_policies db) (pd_copies db).
Definition on_queues (f : gmap string work_queue → gmap string work_queue) (db : provider_db) : provider_db :=
  ProviderDb (pd_work db) (pd_units db) (f (pd_queues db)) (pd_control db) (pd_jobs db) (pd_snapshots db)
    (pd_partitions db) (pd_resources db) (pd_policies db) (pd_copies db).
Definition on_snapshots (f : gmap string parent_snapshot → gmap string parent_snapshot) (db : provider_db) : provider_db :=
  ProviderDb (pd_work db) (pd_units db) (pd_queues db) (pd_control db) (pd_jobs db) (f (pd_snapshots db))
    (pd_partitions db) (pd_resources db) (pd_policies db) (pd_copies db).
Definition on_partitions (f : gmap string parent_partition → gmap string parent_partition) (db : provider_db) : provider_db :=
  ProviderDb (pd_work db) (pd_units db) (pd_queues db) (pd_control db) (pd_jobs db) (pd_snapshots db)
    (f (pd_partitions db)) (pd_resources db) (pd_policies db) (pd_copies db).
Definition on_copies (f : gmap string copy_workflow → gmap string copy_workflow) (db : provider_db) : provider_db :=
  ProviderDb (pd_work db) (pd_units db) (pd_queues db) (pd_control db) (pd_jobs db) (pd_snapshots db)
    (pd_partitions db) (pd_resources db) (pd_policies db) (f (pd_copies db)).
Definition with_control (c : work_control) (db : provider_db) : provider_db :=
  ProviderDb (pd_work db) (pd_units db) (pd_queues db) (Some c) (pd_jobs db) (pd_snapshots db)
    (pd_partitions db) (pd_resources db) (pd_policies db) (pd_copies db).

(** ** Claims and errors *)

Record provider_claim := ProviderClaim {
  pc_work : string;
  pc_snapshot : string;
  pc_partition : option string;
  pc_job : string;
  pc_owner : option string;
  pc_generation : Z;
  pc_tokens : work_tokens;
}.

Inductive provider_err := ProviderWorkConflict | ProviderValueError.

Definition receipt (id : string) (row : provider_work) : provider_claim :=
  ProviderClaim id (wi_snapshot (pw_ident row)) (wi_partition (pw_ident row)) (wi_job (pw_ident row))
    (pw_owner row) (pw_generation row) (pw_tokens row).

(** ** Column updates *)

Definition set_lease (owner : option string) (expires : option Z) (r : provider_work) : provider_work :=
  ProviderWork (pw_ident r) (pw_state r) (pw_generation r) (pw_tokens r) owner expires (pw_next r) (pw_message r)
    (pw_cooling r) (pw_settle r) (pw_suspension r) (pw_reason r).
Definition set_wstate (st : work_state) (r : provider_work) : provider_work :=
  ProviderWork (pw_ident r) st (pw_generation r) (pw_tokens r) (pw_owner r) (pw_expires r) (pw_next r) (pw_message r)
    (pw_cooling r) (pw_settle r) (pw_suspension r) (pw_reason r).
Definition bump (r : provider_work) : provider_work :=
  ProviderWork (pw_ident r) (pw_state r) (pw_generation r + 1) (pw_tokens r) (pw_owner r) (pw_expires r) (pw_next r)
    (pw_message r) (pw_cooling r) (pw_settle r) (pw_suspension r) (pw_reason r).
Definition set_tokens (t : work_tokens) (r : provider_work) : provider_work :=
  ProviderWork (pw_ident r) (pw_state r) (pw_generation r) t (pw_owner r) (pw_expires r) (pw_next r) (pw_message r)
    (pw_cooling r) (pw_settle r) (pw_suspension r) (pw_reason r).
Definition set_next (t : Z) (r : provider_work) : provider_work :=
  ProviderWork (pw_ident r) (pw_state r) (pw_generation r) (pw_tokens r) (pw_owner r) (pw_expires r) t (pw_message r)
    (pw_cooling r) (pw_settle r) (pw_suspension r) (pw_reason r).
Definition set_message (m : string * bool) (r : provider_work) : provider_work :=
  ProviderWork (pw_ident r) (pw_state r) (pw_generation r) (pw_tokens r) (pw_owner r) (pw_expires r) (pw_next r) m.1
    m.2 (pw_settle r) (pw_suspension r) (pw_reason r).
Definition set_cooling (b : bool) (r : provider_work) : provider_work :=
  ProviderWork (pw_ident r) (pw_state r) (pw_generation r) (pw_tokens r) (pw_owner r) (pw_expires r) (pw_next r)
    (pw_message r) b (pw_settle r) (pw_suspension r) (pw_reason r).
Definition set_settle (b : bool) (r : provider_work) : provider_work :=
  ProviderWork (pw_ident r) (pw_state r) (pw_generation r) (pw_tokens r) (pw_owner r) (pw_expires r) (pw_next r)
    (pw_message r) (pw_cooling r) b (pw_suspension r) (pw_reason r).
Definition set_suspension (g : Z) (r : provider_work) : provider_work :=
  ProviderWork (pw_ident r) (pw_state r) (pw_generation r) (pw_tokens r) (pw_owner r) (pw_expires r) (pw_next r)
    (pw_message r) (pw_cooling r) (pw_settle r) (Some g) (pw_reason r).
Definition set_reason (s : string) (r : provider_work) : provider_work :=
  ProviderWork (pw_ident r) (pw_state r) (pw_generation r) (pw_tokens r) (pw_owner r) (pw_expires r) (pw_next r)
    (pw_message r) (pw_cooling r) (pw_settle r) (pw_suspension r) (Some s).

Definition set_unit_state (st : unit_state) (u : work_unit) : work_unit :=
  WorkUnit (un_kind u) (un_version u) st (un_checkpoint u) (un_receipt u) (un_attempts u) (un_waited u)
    (un_reconciliations u) (un_deadline u) (un_next u).

Definition unit_open (u : work_unit) : bool := bool_decide (un_state u ∈ [UPending; URunning]).

(** [UPDATE provider_work_units SET .. WHERE work_id = .. AND state IN ('PENDING','RUNNING')] *)
Definition update_open_units (id : string) (f : work_unit → work_unit) (db : provider_db) : provider_db :=
  on_units (map_imap (λ k u, Some (if bool_decide (k.1 = id) && unit_open u then f u else u))) db.

Definition units_of (id : string) (db : provider_db) : list work_unit :=
  (filter (λ kv, kv.1.1 = id) (map_to_list (pd_units db))).*2.

(** 8 KiB of encoded JSON *)
Definition bounded (m : string) : result provider_err string :=
  _ ← raise_if (8192 <? Z.of_nat (String.length m)) ProviderValueError; Ok m.

(** ** The parents *)

Record parents := Parents {
  pa_job : parent_job;
  pa_snapshot : parent_snapshot;
  pa_partition : option (string * parent_partition);
}.

(** [_parents]: the job, the snapshot and the partition of a leaf; with
    [skip_locked] a busy row reads as missing. *)
Definition get_parents (busy : string → bool) (skip_locked : bool) (sid : string) (pid : option string)
    (db : provider_db) : result provider_err parents :=
  let free i := negb (skip_locked && busy i) in
  snap ← of_option ProviderWorkConflict (pd_snapshots db !! sid);
  job ← of_option ProviderWorkConflict (pd_jobs db !! ps_job snap);
  _ ← raise_if (negb (free (ps_job snap)) || negb (free sid)) ProviderWorkConflict;
  match pid with
  | None => Ok (Parents job snap None)
  | Some i =>
      part ← of_option ProviderWorkConflict (pd_partitions db !! i);
      _ ← raise_if (negb (free i)) ProviderWorkConflict;
      Ok (Parents job snap (Some (i, part)))
  end.

Definition job_open (st : job_status) : bool := bool_decide (st ∈ [JRunning; JQueued; JPending; JRetrying]).

(** [_active] *)
Definition parents_active (pa : parents) : bool :=
  job_open (pj_status (pa_job pa)) && bool_decide (ps_status (pa_snapshot pa) = SInProgress) &&
  match pa_partition pa with
  | None => true
  | Some (_, p) => bool_decide (pp_status p ∈ ["IN_PROGRESS"; "QUEUED"])
  end.

Definition leaf_of (pa : parents) : leaf_lease :=
  match pa_partition pa with Some (_, p) => pp_lease p | None => ps_lease (pa_snapshot pa) end.

(** [leaf.status] as text: only these values are compared. *)
Definition leaf_status (pa : parents) : string :=
  match pa_partition pa with
  | Some (_, p) => pp_status p
  | None => match ps_status (pa_snapshot pa) with
            | SCompleted => "COMPLETED" | SPartial => "PARTIAL" | SFailed => "FAILED"
            | SInProgress => "IN_PROGRESS" | SPendingDeletion => "PENDING_DELETION" | SSkipped => "SKIPPED"
            end
  end.

Definition leaf_terminal (pa : parents) : bool := bool_decide (leaf_status pa ∈ ["COMPLETED"; "PARTIAL"; "FAILED"]).

Definition set_snap_lease (l : leaf_lease) (s : parent_snapshot) : parent_snapshot :=
  ParentSnapshot (ps_status s) l (ps_job s) (ps_resource s).
Definition set_part_lease (l : leaf_lease) (p : parent_partition) : parent_partition :=
  ParentPartition (pp_status p) l (pp_snapshot p) (pp_tenant p).

(** Write the lease columns of the leaf row. *)
Definition write_leaf (sid : string) (pid : option string) (l : leaf_lease) (db : provider_db) : provider_db :=
  match pid with
  | Some i => on_partitions (alter (set_part_lease l) i) db
  | None => on_snapshots (alter (set_snap_lease l) sid) db
  end.

(** ** Ownership *)

(** [_owned]: the row and its parents, if the claim still holds the lease, the
    generation and the tokens. *)
Definition owned (now : Z) (c : provider_claim) (allow_terminal : bool) (db : provider_db) :
    result provider_err (provider_work * parents) :=
  pa ← get_parents (λ _, false) false (pc_snapshot c) (pc_partition c) db;
  row ← of_option ProviderWorkConflict (pd_work db !! pc_work c);
  let leaf := leaf_of pa in
  _ ← raise_if
    (negb (holds_slot (pw_state row)) || negb (pw_generation row =? pc_generation c)
     || negb (bool_decide (pw_owner row = pc_owner c))
     || match pw_expires row with None => true | Some t => t <=? now end
     || (negb (parents_active pa)
         && negb (allow_terminal && negb (bool_decide (pj_status (pa_job pa) = JCancelled)) && leaf_terminal pa))
     || negb (ll_token leaf =? wt_parent (pc_tokens c))
     || negb (bool_decide (ll_owner leaf = pc_owner c))
     || match pa_partition pa with
        | None => negb (ll_token (ps_lease (pa_snapshot pa)) =? wt_snapshot (pc_tokens c))
                  || negb (pj_token (pa_job pa) =? wt_job (pc_tokens c))
        | Some _ => false
        end) ProviderWorkConflict;
  Ok (row, pa).

(** ** Creating work *)

Section hashing.
  Context (digest : list string → string).

Definition leaf_key (sid : string) (pid : option string) : string :=
  match pid with
  | Some i => String.append "partition:" i
  | None => String.append "snapshot:" sid
  end.

(** [max(1, min(8, 6 - int(job.priority or 5)))]; priority 0 is falsy. *)
Definition default_weight (priority : option Z) : Z :=
  let p := match priority with Some 0 | None => 5 | Some p => p end in
  Z.max 1 (Z.min 8 (6 - p)).

(** [max(virtual_finish)] over the queues of one parent; [None] is SQL's NULL. *)
Definition qmax (a b : Qc) : Qc := if decide (a ≤ b)%Qc then b else a.

Definition siblings (parent : option string) (db : provider_db) : list Qc :=
  wq_finish <$> filter (λ q, wq_parent q = parent) (map_to_list (pd_queues db)).*2.

Definition sibling_max (parent : option string) (db : provider_db) : option Qc :=
  foldr (λ f acc, Some (match acc with Some m => qmax f m | None => f end)) None (siblings parent db).

(** A row that keeps its queues busy: running, or due and not fresh from a cooldown. *)
Definition ready (now : Z) (r : provider_work) : bool :=
  holds_slot (pw_state r) ||
  (bool_decide (pw_state r = WWaiting) && (pw_next r <=? now) && negb (pw_cooling r)).

Definition queue_keys (i : work_ident) : list string := [wi_tenant_queue i; wi_policy_queue i; wi_resource_queue i].

(** [idle]: no ready row has the queue in the column of the same scope ([nth]). *)
Definition queue_idle (now : Z) (scope : nat) (key : string) (db : provider_db) : bool :=
  negb (existsb (λ kv, bool_decide (queue_keys (pw_ident kv.2) !! scope = Some key) && ready now kv.2)
          (map_to_list (pd_work db))).

(** [INSERT .. ON CONFLICT (key) DO UPDATE SET virtual_finish = GREATEST(..) WHERE idle] *)
Definition ensure_queue (now : Z) (scope : nat) (key : string) (parent : option string) (weight : Z)
    (db : provider_db) : provider_db :=
  let floor := default 0%Qc (sibling_max parent db) in
  match pd_queues db !! key with
  | None => on_queues (insert key (WorkQueue parent weight floor)) db
  | Some q =>
      if queue_idle now scope key db
      then on_queues (insert key (WorkQueue (wq_parent q) (wq_weight q) (qmax (wq_finish q) floor))) db
      else db
  end.

Definition find_leaf (key : string) (db : provider_db) : option (string * provider_work) :=
  snd <$> list_find (λ kv, wi_leaf_key (pw_ident kv.2) = key) (map_to_list (pd_work db)).

Definition default_control (enabled : bool) : work_control := WorkControl enabled 1 40 40.

Definition ensure_control (enabled : bool) (db : provider_db) : provider_db :=
  match pd_control db with Some _ => db | None => with_control (default_control enabled) db end.

(** The arguments of [ensure_work]; [ea_message_policy] is the policy named by the
    message of the continuation. *)
Record ensure_args := EnsureArgs {
  ea_snapshot : string;
  ea_snapshot_token : Z;
  ea_job_token : Z;
  ea_partition : option string;
  ea_partition_token : option Z;
  ea_weight : option Z;
  ea_policy : option string;
  ea_message_policy : option string;
  ea_message : string;
  ea_fresh : string;
}.

Definition leaf_checks (ea : ensure_args) (pa : parents) (res : parent_resource) : bool :=
  parents_active pa && bool_decide (pr_tenant res = pj_tenant (pa_job pa)) &&
  match pa_partition pa with
  | Some (_, p) =>
      bool_decide (pp_snapshot p = ea_snapshot ea) && bool_decide (pp_tenant p = pj_tenant (pa_job pa)) &&
      bool_decide (ea_partition_token ea = Some (ll_token (pp_lease p)))
  | None =>
      (ea_snapshot_token ea =? ll_token (ps_lease (pa_snapshot pa))) && (ea_job_token ea =? pj_token (pa_job pa))
  end.

Definition first_of {A} (a b : option A) : option A := match a with Some _ => a | None => b end.

Definition ensure_work (now : Z) (ea : ensure_args) (db : provider_db) : result provider_err (provider_db * provider_claim) :=
  let sid := ea_snapshot ea in
  let pid := ea_partition ea in
  pa ← get_parents (λ _, false) false sid pid db;
  res ← of_option ProviderWorkConflict (pd_resources db !! ps_resource (pa_snapshot pa));
  _ ← raise_if (negb (leaf_checks ea pa res)) ProviderWorkConflict;
  match find_leaf (leaf_key sid pid) db with
  | Some (id, row) => Ok (db, receipt id row)
  | None =>
      let weight := match ea_weight ea with Some w => w | None => default_weight (pj_priority (pa_job pa)) end in
      _ ← raise_if (weight <=? 0) ProviderValueError;
      let policy := first_of (ea_policy ea) (first_of (ea_message_policy ea) (pr_policy res)) in
      _ ← raise_if (match policy with
                    | Some p => negb (bool_decide (pd_policies db !! p = Some (pr_tenant res)))
                    | None => false
                    end) ProviderWorkConflict;
      let rid := ps_resource (pa_snapshot pa) in
      let job := ps_job (pa_snapshot pa) in
      let tq := digest ["tenant"; pr_tenant res] in
      let pq := digest ["policy"; tq; default "null" policy; pretty weight] in
      let rq := digest ["resource"; pq; rid; job] in
      let db := ensure_queue now 2 rq (Some pq) 1
                  (ensure_queue now 1 pq (Some tq) weight (ensure_queue now 0 tq None 1 db)) in
      let db := ensure_control true db in
      message ← bounded (ea_message ea);
      let leaf := leaf_of pa in
      let row := ProviderWork
        (WorkIdent (leaf_key sid pid) (pr_tenant res) rid job sid pid policy weight tq pq rq 1 now now)
        WWaiting 0 (WorkTokens (ll_token leaf) (ll_token (ps_lease (pa_snapshot pa))) (pj_token (pa_job pa)))
        None None now message false false None None in
      Ok (write_leaf sid pid (LeafLease (ll_token leaf) None None) (on_work (insert (ea_fresh ea) row) db),
          receipt (ea_fresh ea) row)
  end.
End hashing.

(** ** Reserving a due row *)

Definition running (now : Z) (r : provider_work) : bool :=
  holds_slot (pw_state r) && match pw_expires r with Some t => now <? t | None => false end.

Definition due (now : Z) (r : provider_work) : bool :=
  (bool_decide (pw_state r = WWaiting) && (pw_next r <=? now)) ||
  (holds_slot (pw_state r) && match pw_expires r with Some t => t <=? now | None => false end).

Definition running_rows (now : Z) (db : provider_db) : list (string * provider_work) :=
  filter (λ kv, running now kv.2) (map_to_list (pd_work db)).

Definition running_of (now : Z) (t : string) (db : provider_db) : list (string * provider_work) :=
  filter (λ kv, wi_tenant (pw_ident kv.2) = t) (running_rows now db).

(** The sort key: the three service clocks, the time of entry and the id. *)
Record fair_key := FairKey { fk_tenant : Qc; fk_policy : Qc; fk_resource : Qc; fk_entered : Z; fk_id : string }.

Definition qc_ltb (a b : Qc) : bool := negb (bool_decide (b ≤ a)%Qc).

(** Lexicographic [ORDER BY]. *)
Definition fair_leb (a b : fair_key) : bool :=
  qc_ltb (fk_tenant a) (fk_tenant b) || (bool_decide (fk_tenant a = fk_tenant b) && (
  qc_ltb (fk_policy a) (fk_policy b) || (bool_decide (fk_policy a = fk_policy b) && (
  qc_ltb (fk_resource a) (fk_resource b) || (bool_decide (fk_resource a = fk_resource b) && (
  (fk_entered a <? fk_entered b) || ((fk_entered a =? fk_entered b) && String.leb (fk_id a) (fk_id b)))))))).

(** The joins: a row whose queues are missing is not selected. *)
Definition key_of (id : string) (r : provider_work) (db : provider_db) : option fair_key :=
  let i := pw_ident r in
  tq ← pd_queues db !! wi_tenant_queue i;
  pq ← pd_queues db !! wi_policy_queue i;
  rq ← pd_queues db !! wi_resource_queue i;
  Some (FairKey (wq_finish tq) (wq_finish pq) (wq_finish rq) (wi_entered i) id).

Fixpoint pick_min (l : list (fair_key * string)) : option (fair_key * string) :=
  match l with
  | [] => None
  | x :: l => match pick_min l with
              | Some y => if fair_leb x.1 y.1 then Some x else Some y
              | None => Some x
              end
  end.

Definition candidate (busy : string → bool) (now : Z) (ctl : work_control) (skipped : list string)
    (db : provider_db) (kv : string * provider_work) : bool :=
  due now kv.2 && (wi_protocol (pw_ident kv.2) =? wc_epoch ctl) && negb (bool_decide (kv.1 ∈ skipped)) &&
  (Z.of_nat (length (running_of now (wi_tenant (pw_ident kv.2)) db)) <? wc_tenant ctl) && negb (busy kv.1).

Definition candidates (busy : string → bool) (now : Z) (ctl : work_control) (skipped : list string)
    (db : provider_db) : list (fair_key * string) :=
  omap (λ kv, (λ k, (k, kv.1)) <$> key_of kv.1 kv.2 db)
    (filter (λ kv, candidate busy now ctl skipped db kv) (map_to_list (pd_work db))).

(** The probe of the parents: present, linked and not locked by another
    transaction. *)
Definition parents_free (busy : string → bool) (r : provider_work) (db : provider_db) : bool :=
  match get_parents busy true (wi_snapshot (pw_ident r)) (wi_partition (pw_ident r)) db with
  | Ok pa => match pa_partition pa with
             | Some (_, p) => bool_decide (pp_snapshot p = wi_snapshot (pw_ident r))
             | None => true
             end
  | Err _ => false
  end.

(** [_charge]: [amount / weight] on the three queues of the row. *)
Definition charge_queue (amount : Z) (q : work_queue) : work_queue :=
  WorkQueue (wq_parent q) (wq_weight q) (wq_finish q + Qc_of_Z amount / Qc_of_Z (wq_weight q))%Qc.

Definition charge (i : work_ident) (amount : Z) (db : provider_db) : provider_db :=
  on_queues (map_imap (λ k q, Some (if bool_decide (k ∈ queue_keys i) then charge_queue amount q else q))) db.

(** A queue that cools down alone re-enters behind its siblings. *)
Definition realign (now : Z) (id : string) (scope : nat) (key : string) (db : provider_db) : provider_db :=
  let peer := existsb (λ kv, negb (bool_decide (kv.1 = id)) &&
                bool_decide (queue_keys (pw_ident kv.2) !! scope = Some key) && ready now kv.2)
                (map_to_list (pd_work db)) in
  match peer, pd_queues db !! key with
  | false, Some q =>
      let floor := default 0%Qc (sibling_max (wq_parent q) db) in
      on_queues (insert key (WorkQueue (wq_parent q) (wq_weight q) (qmax (wq_finish q) floor))) db
  | _, _ => db
  end.

Definition realign_all (now : Z) (id : string) (i : work_ident) (db : provider_db) : provider_db :=
  realign now id 2 (wi_resource_queue i)
    (realign now id 1 (wi_policy_queue i) (realign now id 0 (wi_tenant_queue i) db)).

Record reservation := Reservation {
  re_work : string;
  re_ident : work_ident;
  re_generation : Z;
  re_prior : work_state * option string * option Z;
}.

Definition reserve_row (now lease : Z) (owner : string) (r : provider_work) : provider_work :=
  bump (set_lease (Some owner) (Some (now + lease)) (set_wstate WResuming r)).

(** The loop over the fair order: skip a leaf whose parents are busy, realign and
    re-sort after a cooldown, reserve the first row that is left. *)
Fixpoint reserve_loop (fuel : nat) (busy : string → bool) (now lease : Z) (owner : string) (ctl : work_control)
    (skipped : list string) (db : provider_db) : provider_db * option reservation :=
  match fuel with
  | O => (db, None)
  | S fuel =>
      match pick_min (candidates busy now ctl skipped db) with
      | None => (db, None)
      | Some (_, id) =>
          match pd_work db !! id with
          | None => (db, None)
          | Some r =>
              if negb (parents_free busy r db)
              then reserve_loop fuel busy now lease owner ctl (skipped ++ [id]) db
              else if pw_cooling r then
                reserve_loop fuel busy now lease owner ctl skipped
                  (on_work (insert id (set_cooling false r)) (realign_all now id (pw_ident r) db))
              else
                (charge (pw_ident r) 1 (on_work (insert id (reserve_row now lease owner r)) db),
                 Some (Reservation id (pw_ident r) (pw_generation r + 1) (pw_state r, pw_owner r, pw_expires r)))
          end
      end
  end.

Definition RESERVE_ATTEMPTS : nat := 64.

(** [_reserve_due_work], a transaction of its own; [control_busy]: another
    scheduler holds the control row. *)
Definition reserve_due_work (enabled control_busy : bool) (busy : string → bool) (now lease : Z) (owner : string)
    (db : provider_db) : provider_db * option reservation :=
  if control_busy then (db, None)
  else
    let db := ensure_control enabled db in
    match pd_control db with
    | None => (db, None)
    | Some ctl =>
        if negb (wc_enabled ctl) then (db, None)
        else if wc_total ctl <=? Z.of_nat (length (running_rows now db)) then (db, None)
        else reserve_loop RESERVE_ATTEMPTS busy now lease owner ctl [] db
    end.

(** ** Admitting a reservation *)

(** The reservation still stands: not cancelled or reserved again meanwhile. *)
Definition reserved_row (re : reservation) (owner : string) (db : provider_db) : option provider_work :=
  r ← pd_work db !! re_work re;
  if bool_decide (pw_state r = WResuming) && (pw_generation r =? re_generation re)
     && bool_decide (pw_owner r = Some owner)
  then Some r else None.

(** Put the row back and refund its charge. *)
Definition release_reservation (re : reservation) (owner : string) (db : provider_db) : provider_db :=
  match reserved_row re owner db with
  | None => db
  | Some r =>
      let '(st, o, x) := re_prior re in
      charge (pw_ident r) (-1) (on_work (insert (re_work re) (set_lease o x (set_wstate st r))) db)
  end.

Definition update_row (id : string) (f : provider_work → provider_work) (db : provider_db) : provider_db :=
  on_work (alter f id) db.

Definition state_of_status (s : string) : work_state :=
  if bool_decide (s = "COMPLETED") then WCompleted else if bool_decide (s = "PARTIAL") then WPartial else WFailed.

(** The parents are no longer in progress: take the row to the leaf's verdict. *)
Definition retire (id : string) (pa : parents) (db : provider_db) : provider_db :=
  let unresolved := existsb (λ u, negb (bool_decide (un_state u = UCompleted))) (units_of id db) in
  let st := if leaf_terminal pa && negb (bool_decide (pj_status (pa_job pa) = JCancelled))
            then if bool_decide (leaf_status pa = "COMPLETED") && unresolved then WPartial
                 else state_of_status (leaf_status pa)
            else WCancelled in
  let settle := leaf_terminal pa && negb (bool_decide (st = WCancelled)) in
  update_row id (λ r, bump (set_settle settle (set_wstate st r)))
    (update_open_units id (set_unit_state UFailed) db).

Definition set_part_progress (p : parent_partition) : parent_partition :=
  ParentPartition "IN_PROGRESS" (pp_lease p) (pp_snapshot p) (pp_tenant p).

(** The turn is granted: a new leaf token, owned until the row's expiry. *)
Definition grant (re : reservation) (owner : string) (r : provider_work) (pa : parents) (db : provider_db) :
    provider_db * option provider_claim :=
  let i := pw_ident r in
  let lease := LeafLease (ll_token (leaf_of pa) + 1) (Some owner) (pw_expires r) in
  let db := write_leaf (wi_snapshot i) (wi_partition i) lease db in
  let db := match wi_partition i with Some p => on_partitions (alter set_part_progress p) db | None => db end in
  let snap_token := match wi_partition i with
                    | Some _ => ll_token (ps_lease (pa_snapshot pa))
                    | None => ll_token lease
                    end in
  let tokens := WorkTokens (ll_token lease) snap_token (pj_token (pa_job pa)) in
  let r := set_tokens tokens r in
  let db := on_work (insert (re_work re) r) db in
  let db := on_copies (alter (λ c, if is_active (cw_state c) then CopyWorkflow (cw_state c) tokens else c) (wi_leaf_key i)) db in
  (db, Some (receipt (re_work re) r)).

(** [_admit_reserved] *)
Definition admit_reserved (busy : string → bool) (re : reservation) (owner : string) (db : provider_db) :
    provider_db * option provider_claim :=
  let sid := wi_snapshot (re_ident re) in
  let pid := wi_partition (re_ident re) in
  match get_parents busy true sid pid db with
  | Err _ => (release_reservation re owner db, None)
  | Ok pa =>
      match reserved_row re owner db with
      | None => (db, None)
      | Some r =>
          if negb (parents_active pa) then
            (retire (re_work re) pa (release_reservation re owner db), None)
          else if negb (ll_token (leaf_of pa) =? wt_parent (pw_tokens r))
                  || match pa_partition pa with
                     | None => negb (ll_token (ps_lease (pa_snapshot pa)) =? wt_snapshot (pw_tokens r))
                               || negb (pj_token (pa_job pa) =? wt_job (pw_tokens r))
                     | Some _ => false
                     end
          then
            (update_row (re_work re)
               (λ r, set_lease None None (bump (set_settle false (set_reason "parent_generation_changed" (set_wstate WFailed r)))))
               (release_reservation re owner db), None)
          else if match pd_copies db !! wi_leaf_key (re_ident re) with
                  | Some c => is_active (cw_state c) && negb (bool_decide (cw_state c = WDraining))
                  | None => false
                  end
          then (release_reservation re owner db, None)
          else grant re owner r pa db
      end
  end.

(** [claim_due_work]: the reservation commits first, the admission follows. *)
Definition claim_due_work (enabled control_busy : bool) (busy busy' : string → bool) (now lease : Z) (owner : string)
    (db : provider_db) : result provider_err (provider_db * option provider_claim) :=
  _ ← raise_if (lease <=? 0) ProviderValueError;
  Ok match reserve_due_work enabled control_busy busy now lease owner db with
     | (db, None) => (db, None)
     | (db, Some re) => admit_reserved busy' re owner db
     end.

(** ** A worker's writes *)

Definition set_expiry (x : option Z) (l : leaf_lease) : leaf_lease := LeafLease (ll_token l) (ll_owner l) x.

(** [renew_work]: a busy parent keeps its lease to the next renewal. *)
Definition renew_work (now lease : Z) (leaf_busy : bool) (c : provider_claim) (db : provider_db) :
    result provider_err provider_db :=
  '(r, pa) ← owned now c true db;
  let expiry := Some (now + lease) in
  let db := on_work (insert (pc_work c) (set_lease (pw_owner r) expiry r)) db in
  Ok (if leaf_busy then db
      else write_leaf (pc_snapshot c) (pc_partition c) (set_expiry expiry (leaf_of pa)) db).

Record unit_write := UnitWrite {
  uw_key : string;
  uw_kind : string;
  uw_state : unit_state;
  uw_checkpoint : option string;
  uw_receipt : option string;
  uw_version : option string;
  uw_attempts : Z;
  uw_waited : Z;
  uw_reconciliations : Z;
  uw_deadline : Z;
}.

Definition new_unit (now : Z) (u : unit_write) : work_unit :=
  WorkUnit (uw_kind u) (uw_version u) UPending "{}" None 0 0 0 (uw_deadline u) now.

Definition write_unit (u : unit_write) (row : work_unit) : result provider_err work_unit :=
  checkpoint ← match uw_checkpoint u with Some m => bounded m | None => Ok (un_checkpoint row) end;
  Ok (WorkUnit (un_kind row) (un_version row) (uw_state u) checkpoint
        (first_of (uw_receipt u) (un_receipt row)) (un_attempts row + uw_attempts u)
        (un_waited row + uw_waited u) (un_reconciliations row + uw_reconciliations u) (un_deadline row) (un_next row)).

(** [record_unit_checkpoint] *)
Definition record_unit_checkpoint (now : Z) (c : provider_claim) (u : unit_write) (db : provider_db) :
    result provider_err (provider_db * work_unit) :=
  _ ← owned now c (bool_decide (uw_state u ∈ [UCompleted; UFailed])) db;
  let len := Z.of_nat (String.length (uw_key u)) in
  _ ← raise_if ((len =? 0) || (128 <? len) || (uw_attempts u <? 0) || (uw_waited u <? 0) || (uw_reconciliations u <? 0))
        ProviderValueError;
  let k := (pc_work c, uw_key u) in
  row ← match pd_units db !! k with
        | None => Ok (new_unit now u)
        | Some r =>
            _ ← raise_if (negb (bool_decide (un_kind r = uw_kind u)) || negb (bool_decide (un_version r = uw_version u)))
                  ProviderWorkConflict;
            Ok r
        end;
  if bool_decide (un_state row = UCompleted) then
    _ ← raise_if (bool_decide (uw_state u = UCompleted)
                  && match uw_receipt u with Some x => negb (bool_decide (un_receipt row = Some x)) | None => false end)
          ProviderWorkConflict;
    Ok (db, row)
  else
    row' ← write_unit u row;
    Ok (on_units (insert k row') db, row').

Definition park_unit (now next : Z) (u : work_unit) : work_unit :=
  WorkUnit (un_kind u) (un_version u) UPending (un_checkpoint u) (un_receipt u) (un_attempts u)
    (un_waited u + Z.max 0 (next - now)) (un_reconciliations u) (un_deadline u) next.

Definition COOLING_US : Z := 10000.

(** [suspend_current_work]: a repeated call finds its own suspension. *)
Definition suspend_current_work (now next : Z) (reason : string) (continuation : option (string * bool))
    (c : provider_claim) (db : provider_db) : result provider_err (provider_db * provider_claim) :=
  match pd_work db !! pc_work c with
  | Some hint =>
      if bool_decide (pw_state hint = WWaiting) && bool_decide (pw_suspension hint = Some (pc_generation c))
      then Ok (db, receipt (pc_work c) hint)
      else
        '(r, pa) ← owned now c false db;
        let leaf := leaf_of pa in
        let token := ll_token leaf + 1 in
        let snap_token := match pa_partition pa with
                          | Some _ => ll_token (ps_lease (pa_snapshot pa))
                          | None => token
                          end in
        message ← match continuation with
                  | Some (m, b) => m' ← bounded m; Ok (m', b)
                  | None => Ok (pw_message r, pw_cooling r)
                  end;
        let cooling := if now + COOLING_US <? next then true else message.2 in
        let r' := set_lease None None (set_tokens (WorkTokens token snap_token (wt_job (pw_tokens r)))
                    (set_message (message.1, cooling) (bump (set_reason reason (set_suspension (pc_generation c)
                      (set_next next (set_wstate WWaiting r))))))) in
        let db := update_open_units (pc_work c) (park_unit now next) db in
        let db := on_work (insert (pc_work c) r') db in
        Ok (write_leaf (pc_snapshot c) (pc_partition c) (LeafLease token None None) db, receipt (pc_work c) r')
  | None => Err ProviderWorkConflict
  end.

(** A requested COMPLETED is lowered by the leaf's status and by failed units. *)
Definition verdict (st : work_state) (leaf : string) (bad : bool) : work_state :=
  if bool_decide (st = WCompleted) then
    if bool_decide (leaf = "FAILED") then WFailed
    else if bad || bool_decide (leaf = "PARTIAL") then WPartial else WCompleted
  else st.

(** [finish_work]; the shutdown check before it does not read the tables. *)
Definition finish_work (now : Z) (c : provider_claim) (st : work_state) (db : provider_db) :
    result provider_err provider_db :=
  '(r, pa) ← owned now c true db;
  _ ← raise_if (negb (is_finished st)) ProviderValueError;
  let units := units_of (pc_work c) db in
  _ ← raise_if (existsb unit_open units) ProviderWorkConflict;
  let bad := existsb (λ u, bool_decide (un_state u ∈ [UFailed; UCancelled])) units in
  let st := verdict st (leaf_status pa) bad in
  Ok (on_work (insert (pc_work c) (set_lease None None (set_settle true (set_wstate st r)))) db).

Definition close_snapshot (count : Z) (s : parent_snapshot) : parent_snapshot :=
  if bool_decide (ps_status s = SInProgress)
  then ParentSnapshot (if 0 <? count then SPartial else SFailed) (ps_lease s) (ps_job s) (ps_resource s) else s.

Definition fail_partition (p : parent_partition) : parent_partition :=
  ParentPartition "FAILED" (pp_lease p) (pp_snapshot p) (pp_tenant p).

Definition fail_copy (c : copy_workflow) : copy_workflow :=
  if is_active (cw_state c) then CopyWorkflow WFailed (cw_tokens c) else c.

(** [fail_exhausted_work]; [count]: the effective items of the snapshot. *)
Definition fail_exhausted_work (now count : Z) (c : provider_claim) (db : provider_db) : result provider_err provider_db :=
  '(r, pa) ← owned now c true db;
  let db := update_open_units (pc_work c) (set_unit_state UFailed) db in
  let db := on_copies (alter fail_copy (wi_leaf_key (pw_ident r))) db in
  let db := match pa_partition pa with
            | Some (i, _) => on_partitions (alter fail_partition i) db
            | None => on_snapshots (alter (close_snapshot count) (pc_snapshot c)) db
            end in
  db ← finish_work now c WFailed db;
  Ok (update_row (pc_work c) (set_reason "provider_budget_exhausted") db).

(** ** Settlement *)

Definition settleable (busy : string → bool) (now : Z) (only : option string) (kv : string * provider_work) : bool :=
  pw_settle kv.2 && is_finished (pw_state kv.2) && (pw_next kv.2 <=? now)
  && match pw_expires kv.2 with None => true | Some t => t <=? now end
  && match only with Some w => bool_decide (kv.1 = w) | None => true end && negb (busy kv.1).

Definition older (a b : string * provider_work) : bool :=
  (wi_created (pw_ident a.2) <? wi_created (pw_ident b.2))
  || ((wi_created (pw_ident a.2) =? wi_created (pw_ident b.2)) && String.leb a.1 b.1).

Definition oldest (l : list (string * provider_work)) : option (string * provider_work) :=
  foldr (λ x acc, Some (match acc with Some y => if older x y then x else y | None => x end)) None l.

Definition claim_parent_settlement (busy : string → bool) (now lease : Z) (owner : string) (only : option string)
    (db : provider_db) : result provider_err (provider_db * option provider_claim) :=
  _ ← raise_if (lease <=? 0) ProviderValueError;
  Ok match oldest (filter (λ kv, settleable busy now only kv) (map_to_list (pd_work db))) with
     | None => (db, None)
     | Some (id, r) =>
         let r' := set_lease (Some owner) (Some (now + lease)) (bump r) in
         (on_work (insert id r') db, Some (receipt id r'))
     end.

Definition settler_holds (now : Z) (c : provider_claim) (r : provider_work) : bool :=
  (pw_generation r =? pc_generation c) && bool_decide (pw_owner r = pc_owner c)
  && match pw_expires r with Some t => now <? t | None => false end.

Definition release_parent_settlement (now retry : Z) (c : provider_claim) (db : provider_db) :
    result provider_err (provider_db * bool) :=
  _ ← raise_if (retry <? 0) ProviderValueError;
  Ok match pd_work db !! pc_work c with
     | Some r => if settler_holds now c r && is_finished (pw_state r)
                 then (on_work (insert (pc_work c) (set_next (now + retry) (set_lease None None r))) db, true)
                 else (db, false)
     | None => (db, false)
     end.

(** [finish_parent_settlement]; [settler]: the claim of the settling scope, if any. *)
Definition finish_parent_settlement (now : Z) (settler : option provider_claim) (id : string) (db : provider_db) :
    result provider_err (provider_db * bool) :=
  match pd_work db !! id with
  | None => Ok (db, false)
  | Some r =>
      pa ← get_parents (λ _, false) false (wi_snapshot (pw_ident r)) (wi_partition (pw_ident r)) db;
      _ ← raise_if (match settler with
                    | Some c => negb (bool_decide (id = pc_work c) && settler_holds now c r && pw_settle r
                                      && negb (bool_decide (pw_state r = WCancelled)))
                    | None => false
                    end) ProviderWorkConflict;
      _ ← raise_if (negb (is_terminal (pw_state r))) ProviderWorkConflict;
      if bool_decide (ps_status (pa_snapshot pa) ∈ [SCompleted; SPartial; SFailed; SSkipped])
         && bool_decide (pj_status (pa_job pa) ∈ [JCompleted; JPartial; JFailed; JCancelled])
      then Ok (on_work (insert id (set_lease None None (set_settle false r))) db, true)
      else Ok (db, false)
  end.

(** The write of another module: the rescue of a partitioned OneDrive snapshot closes
    its work rows without a look at their units ([BackupRescue] has its guards). *)
Definition rescue_row (sid : string) (r : provider_work) : provider_work :=
  if bool_decide (wi_snapshot (pw_ident r) = sid) && bool_decide (pw_state r ∈ [WFailed; WPartial])
  then set_wstate WCompleted r else r.

Definition rescue_work (sid : string) (db : provider_db) : provider_db := on_work (fmap (rescue_row sid)) db.

(** ** Cancellation and the guard *)

Record work_scope := WorkScope { sc_snapshot : option string; sc_partition : option string; sc_job : option string }.

Definition in_scope (sc : work_scope) (r : provider_work) : bool :=
  let i := pw_ident r in
  match sc_snapshot sc with Some s => bool_decide (wi_snapshot i = s) | None => true end &&
  match sc_partition sc with Some p => bool_decide (wi_partition i = Some p) | None => true end &&
  match sc_job sc with Some j => bool_decide (wi_job i = j) | None => true end.

Definition empty_scope (sc : work_scope) : bool :=
  bool_decide (sc_snapshot sc = None) && bool_decide (sc_partition sc = None) && bool_decide (sc_job sc = None).

Definition pending (r : provider_work) : bool := is_active (pw_state r) || pw_settle r.

Definition cancel_row (reason : string) (r : provider_work) : provider_work :=
  set_lease None None (bump (set_reason reason (set_settle false (set_wstate WCancelled r)))).

Definition cancel_one (reason : string) (id : string) (db : provider_db) : result provider_err provider_db :=
  r ← of_option ProviderWorkConflict (pd_work db !! id);
  let i := pw_ident r in
  pa ← get_parents (λ _, false) false (wi_snapshot i) (wi_partition i) db;
  let leaf := leaf_of pa in
  let db := if ll_token leaf =? wt_parent (pw_tokens r)
            then write_leaf (wi_snapshot i) (wi_partition i) (LeafLease (ll_token leaf + 1) None None) db else db in
  let db := on_work (insert id (cancel_row reason r)) db in
  Ok (update_open_units id (set_unit_state UCancelled) db).

Fixpoint cancel_each (reason : string) (ids : list string) (db : provider_db) : result provider_err provider_db :=
  match ids with
  | [] => Ok db
  | id :: ids => db ← cancel_one reason id db; cancel_each reason ids db
  end.

Definition cancel_provider_work (sc : work_scope) (reason : string) (db : provider_db) :
    result provider_err (provider_db * Z) :=
  _ ← raise_if (empty_scope sc) ProviderValueError;
  let ids := (filter (λ kv, pending kv.2 && in_scope sc kv.2) (map_to_list (pd_work db))).*1 in
  db ← cancel_each reason ids db;
  Ok (db, Z.of_nat (length ids)).

(** The ambient scopes: the claim of the running work ([None] when its execution is
    deferred) and the settlement scope, with or without a claim of its own. *)
Record guard_scope := GuardScope {
  gs_current : option provider_claim;
  gs_settling : option (option provider_claim);
}.

(** [_guard_claim] *)
Definition guard_claim (gs : guard_scope) : option provider_claim :=
  match gs_settling gs with Some (Some c) => Some c | _ => gs_current gs end.

(** [has_pending_provider], and the same predicate as SQL text
    ([pending_provider_sql], negated). *)
Definition has_pending_provider (now : Z) (gs : guard_scope) (sc : work_scope) (db : provider_db) :
    result provider_err bool :=
  _ ← raise_if (empty_scope sc) ProviderValueError;
  let own := guard_claim gs in
  let as_settler := match gs_settling gs with Some (Some _) => true | _ => false end in
  let settling := bool_decide (is_Some (gs_settling gs)) in
  let valid := match own with
               | None => true
               | Some c => match pd_work db !! pc_work c with
                           | Some r => settler_holds now c r &&
                                       if as_settler then is_finished (pw_state r) && pw_settle r
                                       else bool_decide (pw_state r = WResuming)
                           | None => false
                           end
               end in
  Ok (negb valid ||
      existsb (λ kv, in_scope sc kv.2 && (is_active (pw_state kv.2) || (negb settling && pw_settle kv.2))
                     && negb (bool_decide (Some kv.1 = pc_work <$> own)))
        (map_to_list (pd_work db))).
