(* ===== verification/ProviderSafety.v ===== *)
(** * Provider work: invariants of every execution

    The operations of [Provider] interleave with each other, with a clock that only
    moves forward, with workers that vanish between their reservation and their
    admission, with other services that rewrite the parents at will, and with the
    statement of the OneDrive rescue that completes failed rows. *)

From Stdlib Require Import QArith.Qcanon.
From stdpp Require Import numbers.
From S2P Require Import Prelude.
From S2P Require Import Reconciler.
From S2P Require Import Provider.
Local Open Scope Z_scope.

(** ** One row across an operation *)

Record row_ok (now : Z) (r r' : provider_work) : Prop := {
  ro_ident : pw_ident r' = pw_ident r;
  ro_generation : pw_generation r ≤ pw_generation r';
  ro_running : running now r' = true → running now r = true;
}.

(** No row disappears, existing rows do not start running, new rows do not run. *)
Definition quiet (now : Z) (db db' : provider_db) : Prop :=
  ∀ id, match pd_work db !! id, pd_work db' !! id with
        | Some r, Some r' => row_ok now r r'
        | None, Some r' => running now r' = false
        | Some _, None => False
        | None, None => True
        end.

Lemma row_ok_refl now r : row_ok now r r.
Proof. split; done || lia. Qed.

Lemma row_ok_trans now r1 r2 r3 : row_ok now r1 r2 → row_ok now r2 r3 → row_ok now r1 r3.
Proof. intros [? ? ?] [? ? ?]. split; [congruence|lia|auto]. Qed.

Lemma quiet_refl now db : quiet now db db.
Proof. intros id. destruct (_ !! id); [apply row_ok_refl|done]. Qed.

Lemma quiet_trans now d1 d2 d3 : quiet now d1 d2 → quiet now d2 d3 → quiet now d1 d3.
Proof.
  intros H1 H2 id. specialize (H1 id); specialize (H2 id).
  destruct (pd_work d1 !! id), (pd_work d2 !! id), (pd_work d3 !! id); try done.
  - by eapply row_ok_trans.
  - destruct (running now p0) eqn:Hr; [|done]. destruct H2 as [_ _ H2]. rewrite H2 in H1; done.
Qed.

Lemma quiet_same now db db' : pd_work db' = pd_work db → quiet now db db'.
Proof. intros H id. rewrite H. destruct (_ !! id); [apply row_ok_refl|done]. Qed.

Lemma quiet_insert now id r r' db db' :
  pd_work db !! id = Some r → row_ok now r r' → pd_work db' = <[id := r']> (pd_work db) → quiet now db db'.
Proof.
  intros Hr Hok H i. rewrite H. destruct (decide (i = id)) as [->|Hne].
  - by rewrite Hr, lookup_insert_eq.
  - rewrite lookup_insert_ne by done. destruct (_ !! i); [apply row_ok_refl|done].
Qed.

Lemma quiet_update now id f db db' :
  (∀ r, pd_work db !! id = Some r → row_ok now r (f r)) → pd_work db' = alter f id (pd_work db) → quiet now db db'.
Proof.
  intros Hok H i. rewrite H. destruct (decide (i = id)) as [->|Hne].
  - rewrite lookup_alter_eq. destruct (_ !! id) eqn:Hr; simpl; auto.
  - rewrite lookup_alter_ne by done. destruct (_ !! i); [apply row_ok_refl|done].
Qed.

Lemma work_write_leaf sid pid l db : pd_work (write_leaf sid pid l db) = pd_work db.
Proof. by destruct pid. Qed.


Lemma not_slot_running now r : holds_slot (pw_state r) = false → running now r = false.
Proof. unfold running. by intros ->. Qed.

Lemma not_running_lease now r : pw_expires r = None → running now r = false.
Proof. unfold running. intros ->. by rewrite andb_false_r. Qed.

Lemma finished_not_slot st : is_finished st = true → holds_slot st = false.
Proof. by destruct st. Qed.

(** ** Ownership *)

Lemma owned_inv now c b db r pa :
  owned now c b db = Ok (r, pa) →
  pd_work db !! pc_work c = Some r ∧ holds_slot (pw_state r) = true ∧ pw_generation r = pc_generation c ∧
  pw_owner r = pc_owner c ∧ running now r = true ∧
  get_parents (λ _, false) false (pc_snapshot c) (pc_partition c) db = Ok pa.
Proof.
  unfold owned. intros H. inv_ok. bools. simplify_eq.
  split_and!; try done. unfold running. destruct (pw_expires r); [|done]. bools.
  apply andb_true_iff. split; [done|]. apply Z.ltb_lt. lia.
Qed.

Lemma owned_stale now c b db r :
  pd_work db !! pc_work c = Some r → pc_generation c < pw_generation r → owned now c b db = Err ProviderWorkConflict.
Proof.
  intros Hr Hg. destruct (owned now c b db) as [[r' pa]|[]] eqn:Ho; [|done|].
  - apply owned_inv in Ho as (Hr' & _ & Hg' & _). rewrite Hr in Hr'. simplify_eq. lia.
  - exfalso. revert Ho. unfold owned, get_parents, of_option, raise_if. rewrite Hr.
    repeat (case_match; mred; try discriminate).
Qed.

(** ** The operations are quiet *)

Ltac row := split; simpl; [done|lia|unfold running; simpl; rewrite ?andb_false_r; done || auto].

Lemma renew_quiet now lease b c db db' : renew_work now lease b c db = Ok db' → quiet now db db'.
Proof.
  unfold renew_work. intros H. inv_ok. destruct x as [r pa]. apply owned_inv in H as (Hr & Hs & _ & _ & Hrun & _).
  inv_ok. subst. eapply quiet_insert; [exact Hr| |destruct b; [|rewrite work_write_leaf]; reflexivity].
  split; simpl; [done|lia|done].
Qed.

Lemma unit_quiet now c u db db' row : record_unit_checkpoint now c u db = Ok (db', row) → quiet now db db'.
Proof.
  unfold record_unit_checkpoint. intros H. inv_ok. apply quiet_same.
  case_bool_decide; inv_ok; by simplify_eq.
Qed.

Lemma suspend_quiet now next reason m c db db' c' :
  suspend_current_work now next reason m c db = Ok (db', c') → quiet now db db'.
Proof.
  unfold suspend_current_work. destruct (pd_work db !! pc_work c) as [hint|] eqn:Hh; [|done].
  destruct (_ && _); [intros [= <- _]; apply quiet_refl|].
  intros H. inv_ok. destruct x as [r pa]. apply owned_inv in H as (Hr & _). inv_ok. simplify_eq.
  eapply quiet_insert; [eassumption| |rewrite work_write_leaf; reflexivity]. row.
Qed.

Lemma finish_quiet now c st db db' : finish_work now c st db = Ok db' → quiet now db db'.
Proof.
  unfold finish_work. intros H. inv_ok. destruct x as [r pa]. apply owned_inv in H as (Hr & _). inv_ok. subst.
  eapply quiet_insert; [exact Hr| |reflexivity]. row.
Qed.

Lemma exhaust_quiet now n c db db' : fail_exhausted_work now n c db = Ok db' → quiet now db db'.
Proof.
  unfold fail_exhausted_work. intros H. inv_ok. destruct x as [r pa]. inv_ok. subst.
  eapply quiet_trans; [|eapply quiet_update; [|reflexivity]]; [|intros; row].
  eapply quiet_trans; [|by eapply finish_quiet]. apply quiet_same. by destruct (pa_partition pa) as [[]|].
Qed.

Lemma oldest_elem l x : oldest l = Some x → x ∈ l.
Proof.
  revert x. induction l as [|y l IH]; intros x; simpl; [done|]. intros [= <-].
  fold (oldest l). destruct (oldest l) as [z|] eqn:Hz; [|by left].
  destruct (older y z); [by left|right; auto].
Qed.

Lemma settle_claim_quiet busy now lease owner only db db' oc :
  claim_parent_settlement busy now lease owner only db = Ok (db', oc) → quiet now db db'.
Proof.
  unfold claim_parent_settlement. intros H. inv_ok.
  destruct (oldest _) as [[id r]|] eqn:Ho; simplify_eq; [|apply quiet_refl].
  apply oldest_elem, list_elem_of_filter in Ho as [Hs Hr]. apply Is_true_true in Hs. apply elem_of_map_to_list in Hr.
  eapply quiet_insert; [exact Hr| |reflexivity]. split; simpl; [done|lia|].
  unfold settleable in Hs; bools; simpl in *. rewrite not_slot_running; [done|]. by apply finished_not_slot.
Qed.

Lemma settle_release_quiet now retry c db db' b :
  release_parent_settlement now retry c db = Ok (db', b) → quiet now db db'.
Proof.
  unfold release_parent_settlement. intros H. inv_ok.
  destruct (pd_work db !! pc_work c) as [r|] eqn:Hr; simplify_eq; [|apply quiet_refl].
  destruct (_ && _); simplify_eq; [|apply quiet_refl]. eapply quiet_insert; [exact Hr| |reflexivity]. row.
Qed.

Lemma settle_finish_quiet now s id db db' b :
  finish_parent_settlement now s id db = Ok (db', b) → quiet now db db'.
Proof.
  unfold finish_parent_settlement. destruct (pd_work db !! id) as [r|] eqn:Hr; [|intros [= <- _]; apply quiet_refl].
  intros H. inv_ok. destruct (_ && _); inv_ok; simplify_eq; [|apply quiet_refl].
  eapply quiet_insert; [exact Hr| |reflexivity]. row.
Qed.

Lemma cancel_one_quiet now reason id db db' : cancel_one reason id db = Ok db' → quiet now db db'.
Proof.
  unfold cancel_one. intros H. inv_ok. subst.
  eapply quiet_insert; [eassumption| |cbn; by case_match; rewrite ?work_write_leaf]. row.
Qed.

Lemma cancel_quiet now sc reason db db' n : cancel_provider_work sc reason db = Ok (db', n) → quiet now db db'.
Proof.
  unfold cancel_provider_work. intros H. inv_ok. simplify_eq. revert H0.
  generalize ((filter (λ kv, pending kv.2 && in_scope sc kv.2) (map_to_list (pd_work db))).*1).
  intros ids. revert db. induction ids as [|id ids IH]; intros db Hc; simpl in Hc; [simplify_eq; apply quiet_refl|].
  inv_ok. eapply quiet_trans; [by eapply cancel_one_quiet|by apply IH].
Qed.

Lemma rescue_row_ok now sid r : row_ok now r (rescue_row sid r).
Proof. unfold rescue_row. destruct (_ && _); [row|apply row_ok_refl]. Qed.

Lemma rescue_quiet now sid db : quiet now db (rescue_work sid db).
Proof.
  intros id. cbn [rescue_work on_work pd_work]. rewrite lookup_fmap.
  destruct (_ !! id); [apply rescue_row_ok|done].
Qed.

Lemma ensure_queue_work now scope key parent w db : pd_work (ensure_queue now scope key parent w db) = pd_work db.
Proof. unfold ensure_queue. by repeat case_match. Qed.

Lemma ensure_control_work b db : pd_work (ensure_control b db) = pd_work db.
Proof. unfold ensure_control. by case_match. Qed.

Lemma ensure_quiet digest now ea db db' c :
  pd_work db !! ea_fresh ea = None → ensure_work digest now ea db = Ok (db', c) → quiet now db db'.
Proof.
  intros Hf. unfold ensure_work. intros H. inv_ok.
  destruct (find_leaf _ _) as [[id row]|]; inv_ok; simplify_eq; [apply quiet_refl|].
  intros id. rewrite work_write_leaf. cbn [on_work pd_work].
  rewrite ensure_control_work, !ensure_queue_work. destruct (decide (id = ea_fresh ea)) as [->|Hne].
  - by rewrite Hf, lookup_insert_eq.
  - rewrite lookup_insert_ne by done. destruct (_ !! id); [apply row_ok_refl|done].
Qed.

(** ** Reservations *)

(** What a released row goes back to does not run. *)
Definition prior_idle (now : Z) (re : reservation) : Prop :=
  let '(st, _, x) := re_prior re in
  (holds_slot st && match x with Some t => now <? t | None => false end) = false.

Lemma due_not_running now r : due now r = true → running now r = false.
Proof.
  unfold due, running. intros [H|H]%orb_true_iff; bools.
  - by rewrite H.
  - destruct (pw_expires r); [|done]. bools. rewrite H. simpl. apply Z.ltb_ge. lia.
Qed.

Lemma due_prior_idle now id i g r : due now r = true → prior_idle now (Reservation id i g (pw_state r, pw_owner r, pw_expires r)).
Proof. apply due_not_running. Qed.

Lemma prior_idle_mono now now' re : now ≤ now' → prior_idle now re → prior_idle now' re.
Proof.
  unfold prior_idle. destruct (re_prior re) as [[st o] [t|]]; [|done]. destruct (holds_slot st); simpl; [|done].
  intros Hle H. bools. apply Z.ltb_ge. lia.
Qed.

Lemma charge_work i n db : pd_work (charge i n db) = pd_work db.
Proof. done. Qed.

Lemma reserved_row_Some re owner db r :
  reserved_row re owner db = Some r → pd_work db !! re_work re = Some r ∧ pw_state r = WResuming.
Proof.
  unfold reserved_row. destruct (_ !! _) as [r0|]; [|done]. simpl. destruct (_ && _) eqn:Hb; [|done].
  intros [= ->]. bools. done.
Qed.

Lemma release_quiet now re owner db : prior_idle now re → quiet now db (release_reservation re owner db).
Proof.
  unfold release_reservation, prior_idle. destruct (re_prior re) as [[st o] x].
  destruct (reserved_row re owner db) as [r|] eqn:Hr; [|intros _; apply quiet_refl].
  apply reserved_row_Some in Hr as [Hr _]. intros Hp.
  eapply quiet_insert; [exact Hr| |reflexivity]. split; simpl; [done|lia|]. unfold running; simpl. by rewrite Hp.
Qed.

Lemma retire_quiet now id pa db : quiet now db (retire id pa db).
Proof.
  unfold retire. eapply quiet_update; [|reflexivity]. intros r _. split; simpl; [done|lia|].
  rewrite not_slot_running; [done|]. simpl. unfold state_of_status. by repeat case_match.
Qed.

Lemma grant_quiet now re owner r pa db db' oc :
  pd_work db !! re_work re = Some r → grant re owner r pa db = (db', oc) → quiet now db db'.
Proof.
  intros Hr [= <- _]. destruct (wi_partition (pw_ident r)).
  - eapply quiet_insert; [exact Hr| |reflexivity]. split; simpl; done || lia.
  - eapply quiet_insert; [exact Hr| |reflexivity]. split; simpl; done || lia.
Qed.

Lemma admit_quiet now busy re owner db db' oc :
  prior_idle now re → admit_reserved busy re owner db = (db', oc) → quiet now db db'.
Proof.
  intros Hp. unfold admit_reserved. destruct (get_parents _ _ _ _ _) as [pa|e]; [|intros [= <- _]; by apply release_quiet].
  destruct (reserved_row re owner db) as [r|] eqn:Hr; [|intros [= <- _]; apply quiet_refl].
  destruct (negb (parents_active pa)).
  { intros [= <- _]. eapply quiet_trans; [by apply release_quiet|apply retire_quiet]. }
  destruct (negb (_ =? _) || _).
  { intros [= <- _]. eapply quiet_trans; [by apply release_quiet|]. eapply quiet_update; [|reflexivity]. intros; row. }
  destruct (match pd_copies db !! _ with Some _ => _ | None => _ end); [intros [= <- _]; by apply release_quiet|].
  apply reserved_row_Some in Hr as [Hr _]. by apply grant_quiet.
Qed.

Lemma realign_work now id scope key db :
  pd_work (realign now id scope key db) = pd_work db ∧ pd_control (realign now id scope key db) = pd_control db ∧
  pd_units (realign now id scope key db) = pd_units db.
Proof. unfold realign. by repeat case_match. Qed.

Lemma realign_all_work now id i db :
  pd_work (realign_all now id i db) = pd_work db ∧ pd_control (realign_all now id i db) = pd_control db ∧
  pd_units (realign_all now id i db) = pd_units db.
Proof.
  unfold realign_all.
  repeat match goal with |- context [realign ?a ?b ?c ?d ?e] => destruct (realign_work a b c d e) as (-> & -> & ->) end.
  done.
Qed.

Lemma pick_min_elem l x : pick_min l = Some x → x ∈ l.
Proof.
  revert x. induction l as [|y l IH]; intros x; simpl; [done|].
  destruct (pick_min l) as [z|] eqn:Hz; [destruct (fair_leb _ _)|]; intros [= <-]; [by left| |by left].
  right. by apply IH.
Qed.

Lemma elem_of_candidates busy now ctl skipped db k id :
  (k, id) ∈ candidates busy now ctl skipped db ↔
  ∃ r, pd_work db !! id = Some r ∧ candidate busy now ctl skipped db (id, r) = true ∧ key_of id r db = Some k.
Proof.
  unfold candidates. rewrite list_elem_of_omap. split.
  - intros ([id' r] & [Hc Hin]%list_elem_of_filter & Hk). apply Is_true_true in Hc.
    apply elem_of_map_to_list in Hin. cbn [fst snd] in Hk. destruct (key_of id' r db) eqn:Hkey; [|done].
    cbn in Hk. injection Hk as -> ->. by exists r.
  - intros (r & Hr & Hc & Hk). exists (id, r). rewrite list_elem_of_filter, Is_true_true, elem_of_map_to_list.
    cbn [fst snd]. rewrite Hk. done.
Qed.

(** A reservation is taken from a state that is quiet with respect to the start:
    from a due row of a tenant below its capacity, first in the fair order. *)
Lemma reserve_loop_spec fuel busy now lease owner ctl skipped db db' re :
  reserve_loop fuel busy now lease owner ctl skipped db = (db', Some re) →
  ∃ dm skipped' r, quiet now db dm ∧ pd_control dm = pd_control db ∧ pd_units dm = pd_units db ∧
    pd_work dm !! re_work re = Some r ∧ candidate busy now ctl skipped' dm (re_work re, r) = true ∧
    (∀ k id, (k, id) ∈ candidates busy now ctl skipped' dm → ∃ k0, key_of (re_work re) r dm = Some k0) ∧
    snd <$> pick_min (candidates busy now ctl skipped' dm) = Some (re_work re) ∧ pw_cooling r = false ∧
    db' = charge (pw_ident r) 1 (on_work (insert (re_work re) (reserve_row now lease owner r)) dm) ∧
    re = Reservation (re_work re) (pw_ident r) (pw_generation r + 1) (pw_state r, pw_owner r, pw_expires r).
Proof.
  revert skipped db. induction fuel as [|fuel IH]; intros skipped db; cbn [reserve_loop]; [done|].
  destruct (pick_min _) as [[k id]|] eqn:Hp; [|done].
  destruct (pd_work db !! id) as [r|] eqn:Hr; [|done].
  destruct (negb (parents_free busy r db)); [apply IH|].
  destruct (pw_cooling r) eqn:Hc.
  - intros (dm & sk & r' & Hq & Hctl & Hun & Hrest)%IH. exists dm, sk, r'.
    destruct (realign_all_work now id (pw_ident r) db) as (Hw & Hc' & Hu').
    split_and!; [|by rewrite Hctl|by rewrite Hun|apply Hrest..].
    eapply quiet_trans; [|exact Hq]. eapply quiet_insert; [exact Hr| |cbn; by rewrite Hw]. split; simpl; done || lia.
  - intros [= <- <-]. exists db, skipped, r. pose proof (pick_min_elem _ _ Hp) as Hin.
    apply elem_of_candidates in Hin as (r' & Hr' & Hcand & Hkey). rewrite Hr in Hr'. injection Hr' as <-.
    split_and!; simpl; try done; [apply quiet_refl|by eauto|by rewrite Hp].
Qed.

Lemma reserve_loop_none fuel busy now lease owner ctl skipped db db' :
  reserve_loop fuel busy now lease owner ctl skipped db = (db', None) →
  quiet now db db' ∧ pd_control db' = pd_control db ∧ pd_units db' = pd_units db.
Proof.
  revert skipped db. induction fuel as [|fuel IH]; intros skipped db; cbn [reserve_loop];
    [intros [= <-]; by split; [apply quiet_refl|]|].
  destruct (pick_min _) as [[k id]|]; [|intros [= <-]; by split; [apply quiet_refl|]].
  destruct (pd_work db !! id) as [r|] eqn:Hr; [|intros [= <-]; by split; [apply quiet_refl|]].
  destruct (negb (parents_free busy r db)); [apply IH|]. destruct (pw_cooling r) eqn:Hc; [|done].
  intros (Hq & Hctl & Hun)%IH. destruct (realign_all_work now id (pw_ident r) db) as (Hw & Hc' & Hu').
  split_and!; [|by rewrite Hctl|by rewrite Hun].
  eapply quiet_trans; [|exact Hq]. eapply quiet_insert; [exact Hr| |cbn; by rewrite Hw]. split; simpl; done || lia.
Qed.

(** ** Units across an operation *)


























Lemma ensure_queue_units now scope key parent w db :
  pd_units (ensure_queue now scope key parent w db) = pd_units db ∧
  pd_control (ensure_queue now scope key parent w db) = pd_control db.
Proof. unfold ensure_queue. by repeat case_match. Qed.



Definition prior_active (re : reservation) : Prop := is_active re.(re_prior).1.1 = true.




(** ** Executions *)

Record pstate := PState {
  pt_now : Z;
  pt_db : provider_db;
  pt_reserved : list (reservation * string);
}.

(** The tables other services write: everything but the provider's own. *)
Definition same_provider (db db' : provider_db) : Prop :=
  pd_work db' = pd_work db ∧ pd_units db' = pd_units db ∧ pd_control db' = pd_control db.

(** ** Counting the running rows *)

Lemma running_elem now db id : id ∈ (running_rows now db).*1 ↔ ∃ r, pd_work db !! id = Some r ∧ running now r = true.
Proof.
  unfold running_rows. rewrite list_elem_of_fmap. split.
  - intros ([i r] & -> & [Hr Hin]%list_elem_of_filter). apply elem_of_map_to_list in Hin. apply Is_true_true in Hr. eauto.
  - intros (r & Hr & Hrun). exists (id, r). split; [done|].
    rewrite list_elem_of_filter, elem_of_map_to_list. split; [by apply Is_true_true|done].
Qed.

Lemma running_of_elem now t db id :
  id ∈ (running_of now t db).*1 ↔ ∃ r, pd_work db !! id = Some r ∧ running now r = true ∧ wi_tenant (pw_ident r) = t.
Proof.
  unfold running_of, running_rows. rewrite list_elem_of_fmap. split.
  - intros ([i r] & -> & [Ht [Hr Hin]%list_elem_of_filter]%list_elem_of_filter).
    apply elem_of_map_to_list in Hin. apply Is_true_true in Hr. eauto.
  - intros (r & Hr & Hrun & Ht). exists (id, r). split; [done|].
    rewrite !list_elem_of_filter, elem_of_map_to_list. split; [done|]. split; [by apply Is_true_true|done].
Qed.

Lemma running_NoDup now db : NoDup (running_rows now db).*1.
Proof. apply NoDup_fmap_filter, NoDup_fst_map_to_list. Qed.

Lemma running_of_NoDup now t db : NoDup (running_of now t db).*1.
Proof. apply NoDup_fmap_filter, running_NoDup. Qed.

Lemma length_le_incl (l k : list (string * provider_work)) (x : list string) :
  NoDup l.*1 → (∀ id, id ∈ l.*1 → id ∈ x ∨ id ∈ k.*1) → (length l ≤ length x + length k)%nat.
Proof.
  intros Hl Hin. rewrite <- (length_fmap fst l), <- (length_fmap fst k), <- length_app.
  apply submseteq_length, NoDup_submseteq; [done|]. intros id Hid. apply elem_of_app. by apply Hin.
Qed.

Lemma quiet_running now db db' : quiet now db db' → (length (running_rows now db') ≤ length (running_rows now db))%nat.
Proof.
  intros H. apply (length_le_incl _ _ []); [apply running_NoDup|]. intros id (r & Hr & Hrun)%running_elem.
  right. apply running_elem. specialize (H id). rewrite Hr in H.
  destruct (pd_work db !! id) as [r0|]; [|by rewrite H in Hrun]. exists r0. split; [done|]. by apply H.
Qed.

Lemma quiet_running_of now t db db' : quiet now db db' → (length (running_of now t db') ≤ length (running_of now t db))%nat.
Proof.
  intros H. apply (length_le_incl _ _ []); [apply running_of_NoDup|]. intros id (r & Hr & Hrun & Ht)%running_of_elem.
  right. apply running_of_elem. specialize (H id). rewrite Hr in H.
  destruct (pd_work db !! id) as [r0|]; [|by rewrite H in Hrun]. exists r0. destruct H as [Hi _ Hru].
  split_and!; [done|by apply Hru|by rewrite <- Hi].
Qed.

Lemma running_mono now now' r : now ≤ now' → running now' r = true → running now r = true.
Proof. unfold running. intros Hle H. bools. destruct (pw_expires r); [|done]. bools. rewrite H. apply Z.ltb_lt. lia. Qed.

Section executions.
  Context (digest : list string → string) (ctl : work_control).

Inductive pstep : pstate → pstate → Prop :=
  | p_tick now now' db rs : now ≤ now' → pstep (PState now db rs) (PState now' db rs)
  | p_env now db db' rs : same_provider db db' → pstep (PState now db rs) (PState now db' rs)
  | p_ensure now ea db db' c rs :
      pd_work db !! ea_fresh ea = None → ensure_work digest now ea db = Ok (db', c) →
      pstep (PState now db rs) (PState now db' rs)
  | p_reserve now enabled control_busy busy lease owner db db' re rs :
      0 < lease → reserve_due_work enabled control_busy busy now lease owner db = (db', re) →
      pstep (PState now db rs) (PState now db' (from_option (λ re, [(re, owner)]) [] re ++ rs))
  | p_admit now busy re owner db db' oc rs rs' :
      admit_reserved busy re owner db = (db', oc) →
      pstep (PState now db (rs ++ (re, owner) :: rs')) (PState now db' (rs ++ rs'))
  | p_vanish now re owner db rs rs' :
      (* The worker dies between its two transactions. *)
      pstep (PState now db (rs ++ (re, owner) :: rs')) (PState now db (rs ++ rs'))
  | p_renew now lease b c db db' rs :
      renew_work now lease b c db = Ok db' → pstep (PState now db rs) (PState now db' rs)
  | p_unit now c u db db' row rs :
      record_unit_checkpoint now c u db = Ok (db', row) → pstep (PState now db rs) (PState now db' rs)
  | p_suspend now next reason m c db db' c' rs :
      suspend_current_work now next reason m c db = Ok (db', c') → pstep (PState now db rs) (PState now db' rs)
  | p_finish now c st db db' rs :
      finish_work now c st db = Ok db' → pstep (PState now db rs) (PState now db' rs)
  | p_exhaust now n c db db' rs :
      fail_exhausted_work now n c db = Ok db' → pstep (PState now db rs) (PState now db' rs)
  | p_settle_claim now busy lease owner only db db' oc rs :
      claim_parent_settlement busy now lease owner only db = Ok (db', oc) → pstep (PState now db rs) (PState now db' rs)
  | p_settle_release now retry c db db' b rs :
      release_parent_settlement now retry c db = Ok (db', b) → pstep (PState now db rs) (PState now db' rs)
  | p_settle_finish now s id db db' b rs :
      finish_parent_settlement now s id db = Ok (db', b) → pstep (PState now db rs) (PState now db' rs)
  | p_cancel now sc reason db db' n rs :
      cancel_provider_work sc reason db = Ok (db', n) → pstep (PState now db rs) (PState now db' rs)
  | p_rescue now sid db rs :
      pstep (PState now db rs) (PState now (rescue_work sid db) rs).

(** The control row never changes once it is there. *)
Definition control_is (db : provider_db) : Prop := pd_control db = Some ctl.

Definition reservations_ok (s : pstate) : Prop :=
  Forall (λ x, prior_idle (pt_now s) x.1 ∧ prior_active x.1) (pt_reserved s).

Lemma due_active now r : due now r = true → is_active (pw_state r) = true.
Proof. unfold due, holds_slot, is_active. destruct (pw_state r); simpl; try done. Qed.

Lemma reserve_spec enabled control_busy busy now lease owner db db' re :
  control_is db → reserve_due_work enabled control_busy busy now lease owner db = (db', Some re) →
  Z.of_nat (length (running_rows now db)) < wc_total ctl ∧
  ∃ skipped dm r, quiet now db dm ∧ pd_control dm = pd_control db ∧ pd_units dm = pd_units db ∧
    pd_work dm !! re_work re = Some r ∧ candidate busy now ctl skipped dm (re_work re, r) = true ∧
    snd <$> pick_min (candidates busy now ctl skipped dm) = Some (re_work re) ∧
    db' = charge (pw_ident r) 1 (on_work (insert (re_work re) (reserve_row now lease owner r)) dm) ∧
    re = Reservation (re_work re) (pw_ident r) (pw_generation r + 1) (pw_state r, pw_owner r, pw_expires r).
Proof.
  unfold control_is. intros Hc H. unfold reserve_due_work in H. destruct control_busy; [done|].
  unfold ensure_control in H. rewrite Hc, Hc in H. destruct (negb (wc_enabled ctl)); [done|].
  destruct (wc_total ctl <=? _) eqn:Hle; [done|]. bools. split; [done|].
  apply reserve_loop_spec in H as (dm & sk & r & Hq & Hctl & Hun & Hr & Hcand & _ & Hpick & _ & Hdb & Hre).
  exists sk, dm, r. split_and!; done.
Qed.

Lemma reserve_none enabled control_busy busy now lease owner db db' :
  control_is db → reserve_due_work enabled control_busy busy now lease owner db = (db', None) →
  quiet now db db' ∧ pd_control db' = pd_control db ∧ pd_units db' = pd_units db.
Proof.
  unfold control_is. intros Hc H. unfold reserve_due_work in H.
  assert (quiet now db db ∧ pd_control db = pd_control db ∧ pd_units db = pd_units db) as Href by (split; [apply quiet_refl|done]).
  destruct control_busy; [by simplify_eq|].
  unfold ensure_control in H. rewrite Hc, Hc in H. destruct (negb (wc_enabled ctl)); [by simplify_eq|].
  destruct (wc_total ctl <=? _); [by simplify_eq|]. by eapply reserve_loop_none.
Qed.

(** ** Capacity *)

Definition within_capacity (s : pstate) : Prop :=
  Z.of_nat (length (running_rows (pt_now s) (pt_db s))) ≤ wc_total ctl ∧
  ∀ t, Z.of_nat (length (running_of (pt_now s) t (pt_db s))) ≤ wc_tenant ctl.

Record exec_inv (s : pstate) : Prop := {
  ei_control : control_is (pt_db s);
  ei_reserved : reservations_ok s;
  ei_capacity : within_capacity s;
}.

Lemma capacity_quiet now db db' rs rs' :
  quiet now db db' → within_capacity (PState now db rs) → within_capacity (PState now db' rs').
Proof.
  intros Hq [Ht Htt]; simpl in *. split; simpl.
  - pose proof (quiet_running _ _ _ Hq). lia.
  - intros t. specialize (Htt t). pose proof (quiet_running_of _ t _ _ Hq). lia.
Qed.

Lemma capacity_tick now now' db rs :
  now ≤ now' → within_capacity (PState now db rs) → within_capacity (PState now' db rs).
Proof.
  intros Hle [Ht Htt]; simpl in *. split; simpl.
  - enough (length (running_rows now' db) ≤ length (running_rows now db))%nat by lia.
    apply (length_le_incl _ _ []); [apply running_NoDup|]. intros id (r & Hr & Hrun)%running_elem.
    right. apply running_elem. eauto using running_mono.
  - intros t. specialize (Htt t). enough (length (running_of now' t db) ≤ length (running_of now t db))%nat by lia.
    apply (length_le_incl _ _ []); [apply running_of_NoDup|]. intros id (r & Hr & Hrun & Hten)%running_of_elem.
    right. apply running_of_elem. eauto 6 using running_mono.
Qed.

Lemma candidate_capacity busy now skipped db id r :
  candidate busy now ctl skipped db (id, r) = true →
  due now r = true ∧ Z.of_nat (length (running_of now (wi_tenant (pw_ident r)) db)) < wc_tenant ctl.
Proof. unfold candidate. intros H. bools. done. Qed.

Lemma capacity_reserve enabled control_busy busy now lease owner db db' re rs :
  control_is db → reserve_due_work enabled control_busy busy now lease owner db = (db', Some re) →
  within_capacity (PState now db rs) → within_capacity (PState now db' ((re, owner) :: rs)).
Proof.
  intros Hc (Htot & sk & dm & r & Hq & _ & _ & Hr & Hcand & _ & -> & Hre)%reserve_spec; [|done].
  destruct (candidate_capacity _ _ _ _ _ _ Hcand) as [_ Hten]. intros [_ Htt]; simpl in *.
  assert (∀ id r', <[re_work re := reserve_row now lease owner r]> (pd_work dm) !! id = Some r' →
    running now r' = true → id = re_work re ∨ ∃ r0, r0 = r' ∧ pd_work dm !! id = Some r0) as Hins.
  { intros id r'. rewrite lookup_insert_Some. naive_solver. }
  split; simpl.
  - pose proof (quiet_running _ _ _ Hq).
    enough (length (running_rows now (charge (pw_ident r) 1 (on_work (insert (re_work re) (reserve_row now lease owner r)) dm))) ≤ 1 + length (running_rows now dm))%nat by lia.
    apply (length_le_incl _ _ [re_work re]); [apply running_NoDup|]. intros id (r' & Hr' & Hrun)%running_elem.
    destruct (Hins _ _ Hr' Hrun) as [->|(r0 & -> & Hr0)]; [left; by left|right]. apply running_elem. eauto.
  - intros t. destruct (decide (t = wi_tenant (pw_ident r))) as [->|Hne].
    + enough (length (running_of now (wi_tenant (pw_ident r)) (charge (pw_ident r) 1 (on_work (insert (re_work re) (reserve_row now lease owner r)) dm))) ≤ 1 + length (running_of now (wi_tenant (pw_ident r)) dm))%nat by lia.
      apply (length_le_incl _ _ [re_work re]); [apply running_of_NoDup|]. intros id (r' & Hr' & Hrun & Ht')%running_of_elem.
      destruct (Hins _ _ Hr' Hrun) as [->|(r0 & -> & Hr0)]; [left; by left|right]. apply running_of_elem. eauto.
    + pose proof (quiet_running_of _ t _ _ Hq). specialize (Htt t).
      enough (length (running_of now t (charge (pw_ident r) 1 (on_work (insert (re_work re) (reserve_row now lease owner r)) dm))) ≤ length (running_of now t dm))%nat by lia.
      apply (length_le_incl _ _ []); [apply running_of_NoDup|]. intros id (r' & Hr' & Hrun & Ht')%running_of_elem.
      right. apply running_of_elem. change (<[re_work re := reserve_row now lease owner r]> (pd_work dm) !! id = Some r') in Hr'.
      apply lookup_insert_Some in Hr' as [[<- <-]|[_ Hr']]; [by destruct Hne|eauto].
Qed.

Lemma control_write_leaf sid pid l db : pd_control (write_leaf sid pid l db) = pd_control db.
Proof. by destruct pid. Qed.

Lemma control_queue now scope key parent w db : pd_control (ensure_queue now scope key parent w db) = pd_control db.
Proof. apply ensure_queue_units. Qed.

Lemma control_ensure b db c : pd_control db = Some c → pd_control (ensure_control b db) = Some c.
Proof. unfold ensure_control. intros H. by rewrite H. Qed.

Lemma control_release re owner db : pd_control (release_reservation re owner db) = pd_control db.
Proof. unfold release_reservation. by repeat case_match. Qed.

Lemma control_admit busy re owner db db' oc : admit_reserved busy re owner db = (db', oc) → pd_control db' = pd_control db.
Proof.
  unfold admit_reserved, grant, retire. intros H.
  repeat (case_match; simplify_eq/=; try done); rewrite ?control_release; try done; by rewrite control_write_leaf.
Qed.

Lemma control_finish now c st db db' : finish_work now c st db = Ok db' → pd_control db' = pd_control db.
Proof. unfold finish_work. intros H. inv_ok. destruct x as [r pa]. inv_ok. by subst. Qed.

Lemma control_cancel reason ids db db' : cancel_each reason ids db = Ok db' → pd_control db' = pd_control db.
Proof.
  revert db. induction ids as [|id ids IH]; intros db; simpl; [by intros [= ->]|].
  intros H. inv_ok. rewrite (IH _ H0). unfold cancel_one in H. inv_ok. subst. simpl.
  case_match; [by rewrite control_write_leaf|done].
Qed.

Lemma control_step s s' : pstep s s' → control_is (pt_db s) → control_is (pt_db s').
Proof.
  unfold control_is. intros H Hc. destruct H; simpl in *; try done.
  - destruct H as (_ & _ & ->). done.
  - unfold ensure_work in H0. inv_ok. destruct (find_leaf _ _) as [[]|]; inv_ok; simplify_eq; [done|].
    rewrite control_write_leaf. cbn [on_work pd_control]. apply control_ensure. by rewrite !control_queue.
  - destruct re as [re|].
    + apply reserve_spec in H0 as (_ & sk & dm & r & _ & Hctl & _ & _ & _ & _ & -> & _); [|done]. simpl. by rewrite Hctl.
    + apply reserve_none in H0 as (_ & -> & _); done.
  - by erewrite control_admit.
  - unfold renew_work in H. inv_ok. destruct x. inv_ok. subst. destruct b; [done|by rewrite control_write_leaf].
  - unfold record_unit_checkpoint in H. inv_ok. case_bool_decide; inv_ok; by simplify_eq.
  - unfold suspend_current_work in H. destruct (_ !! _) as [hint|]; [|done].
    destruct (_ && _); [by simplify_eq|]. inv_ok. destruct x. inv_ok. simplify_eq. by rewrite control_write_leaf.
  - by erewrite control_finish.
  - unfold fail_exhausted_work in H. inv_ok. destruct x. inv_ok. subst. simpl. erewrite control_finish by done.
    by destruct (pa_partition _) as [[]|].
  - unfold claim_parent_settlement in H. inv_ok. repeat case_match; by simplify_eq.
  - unfold release_parent_settlement in H. inv_ok. repeat case_match; by simplify_eq.
  - unfold finish_parent_settlement in H. destruct (_ !! _) as [r|]; [|by simplify_eq]. inv_ok.
    destruct (_ && _); inv_ok; by simplify_eq.
  - unfold cancel_provider_work in H. inv_ok. simplify_eq. by erewrite control_cancel.
Qed.

Lemma reserved_idle enabled control_busy busy now lease owner db db' re :
  control_is db → reserve_due_work enabled control_busy busy now lease owner db = (db', Some re) →
  prior_idle now re ∧ prior_active re.
Proof.
  intros Hc (_ & sk & dm & r & _ & _ & _ & _ & Hcand & _ & _ & Hre)%reserve_spec; [|done].
  apply candidate_capacity in Hcand as [Hdue _]. rewrite Hre. split; [by apply due_prior_idle|].
  unfold prior_active; simpl. by eapply due_active.
Qed.

Lemma reservations_step s s' : pstep s s' → control_is (pt_db s) → reservations_ok s → reservations_ok s'.
Proof.
  unfold reservations_ok. intros H Hc Hs. destruct H; simpl in *; try done.
  - eapply Forall_impl; [exact Hs|]. intros x [? ?]. split; [by eapply prior_idle_mono|done].
  - destruct re as [re|]; [|done]. constructor; [|done]. by eapply reserved_idle.
  - rewrite Forall_app, Forall_cons in Hs. rewrite Forall_app. tauto.
  - rewrite Forall_app, Forall_cons in Hs. rewrite Forall_app. tauto.
Qed.

Lemma reserved_elem now db rs re owner rs' :
  reservations_ok (PState now db (rs ++ (re, owner) :: rs')) → prior_idle now re ∧ prior_active re.
Proof. unfold reservations_ok; simpl. rewrite Forall_app, Forall_cons. simpl. tauto. Qed.

Lemma exec_inv_step s s' : pstep s s' → exec_inv s → exec_inv s'.
Proof.
  intros H [Hc Hr Hcap].
  split; [by eapply control_step|by eapply reservations_step|].
  destruct H; try lazymatch goal with
    | H : reserve_due_work _ _ _ _ _ _ _ = _ |- _ => idtac
    | _ => eapply capacity_quiet; [|exact Hcap]
    end;
    eauto using renew_quiet, unit_quiet, suspend_quiet, finish_quiet, exhaust_quiet, settle_claim_quiet,
      settle_release_quiet, settle_finish_quiet, cancel_quiet, ensure_quiet, rescue_quiet, quiet_refl.
  - by eapply capacity_tick.
  - apply quiet_same. by destruct H as (-> & _).
  - destruct re as [re|]; [by eapply capacity_reserve|]. simpl. eapply capacity_quiet; [|exact Hcap].
    by eapply reserve_none.
  - apply reserved_elem in Hr as [Hi _]. by eapply admit_quiet.
Qed.

(** C24: However workers reserve, renew, suspend, finish, vanish and come back, however
    rows are cancelled and however other services rewrite the parents: at every
    moment of every execution the rows that hold an unexpired slot are at most the
    configured total capacity, and those of any tenant at most the tenant capacity. *)
Theorem capacity_is_respected now db s' :
  control_is db → within_capacity (PState now db []) → rtc pstep (PState now db []) s' → within_capacity s'.
Proof.
  intros Hc Hcap H.
  apply (rtc_invariant pstep exec_inv (λ x y Hx Hxy, exec_inv_step x y Hxy Hx) _ _ H). split; [done| |done]. constructor.
Qed.

(** ** Finished work *)













(** ** Fencing *)

(** The row is there and its generation has passed [g]. *)
Definition passed (id : string) (g : Z) (db : provider_db) : Prop :=
  ∃ r, pd_work db !! id = Some r ∧ g < pw_generation r.

Lemma quiet_passed now id g db db' : quiet now db db' → passed id g db → passed id g db'.
Proof.
  intros Hq (r & Hr & Hg). specialize (Hq id). rewrite Hr in Hq.
  destruct (pd_work db' !! id) as [r'|] eqn:Hr'; [|done]. destruct Hq as [_ Hle _]. exists r'. split; [done|lia].
Qed.

Lemma passed_reserve enabled control_busy busy now lease owner db db' re id g :
  control_is db → reserve_due_work enabled control_busy busy now lease owner db = (db', Some re) →
  passed id g db → passed id g db'.
Proof.
  intros Hc (_ & sk & dm & r & Hq & _ & _ & Hr & _ & _ & -> & _)%reserve_spec Hp; [|done].
  destruct (quiet_passed _ _ _ _ _ Hq Hp) as (r0 & Hr0 & Hg). unfold passed; simpl.
  destruct (decide (id = re_work re)) as [->|Hne].
  - rewrite lookup_insert_eq. eexists. split; [done|]. simpl. rewrite Hr in Hr0. simplify_eq. lia.
  - rewrite lookup_insert_ne by done. eauto.
Qed.

Lemma passed_step id g s s' :
  pstep s s' → control_is (pt_db s) → reservations_ok s → passed id g (pt_db s) → passed id g (pt_db s').
Proof.
  intros H Hc Hr Hp. destruct H; simpl in *; try done; try lazymatch goal with
    | H : reserve_due_work _ _ _ _ _ _ _ = _ |- _ => idtac
    | _ => eapply quiet_passed; [|exact Hp]
    end;
    eauto using renew_quiet, unit_quiet, suspend_quiet, finish_quiet, exhaust_quiet, settle_claim_quiet,
      settle_release_quiet, settle_finish_quiet, cancel_quiet, ensure_quiet, rescue_quiet, quiet_refl.
  - apply (quiet_same now). by destruct H as (-> & _).
  - destruct re as [re|]; [by eapply passed_reserve|]. eapply quiet_passed; [|exact Hp]. by eapply reserve_none.
  - apply reserved_elem in Hr as [Hi _]. by eapply admit_quiet.
  Unshelve. all: exact 0.
Qed.

Lemma passed_exec id g now db s' :
  control_is db → passed id g db → rtc pstep (PState now db []) s' → passed id g (pt_db s').
Proof.
  intros Hc Hp H. assert ((control_is (pt_db s') ∧ reservations_ok s') ∧ passed id g (pt_db s')) as [_ ?]; [|done].
  refine (rtc_invariant pstep (λ x, (control_is (pt_db x) ∧ reservations_ok x) ∧ passed id g (pt_db x)) _ _ s' H _).
  - intros x y [[Hcx Hrx] Hix] Hxy. split; [split; [by eapply control_step|by eapply reservations_step]|].
    by eapply passed_step.
  - split; [|done]. split; [done|constructor].
Qed.

Lemma reserve_loop_dom fuel busy now lease owner ctl0 skipped db db' re :
  reserve_loop fuel busy now lease owner ctl0 skipped db = (db', re) → dom (pd_work db') = dom (pd_work db).
Proof.
  revert skipped db. induction fuel as [|fuel IH]; intros skipped db; cbn [reserve_loop]; [by intros [= <- _]|].
  destruct (pick_min _) as [[k id]|]; [|by intros [= <- _]].
  destruct (pd_work db !! id) as [r|] eqn:Hr; [|by intros [= <- _]].
  destruct (negb (parents_free busy r db)); [apply IH|]. destruct (pw_cooling r).
  - intros ->%IH. destruct (realign_all_work now id (pw_ident r) db) as (Hw & _). cbn [on_work pd_work].
    rewrite Hw. by apply dom_insert_lookup_L.
  - intros [= <- _]. simpl. by apply dom_insert_lookup_L.
Qed.

Lemma reserve_dom enabled control_busy busy now lease owner db db' re :
  control_is db → reserve_due_work enabled control_busy busy now lease owner db = (db', re) →
  dom (pd_work db') = dom (pd_work db).
Proof.
  unfold control_is, reserve_due_work. intros Hc. destruct control_busy; [by intros [= <- _]|].
  unfold ensure_control. rewrite Hc, Hc. destruct (negb (wc_enabled ctl)); [by intros [= <- _]|].
  destruct (wc_total ctl <=? _); [by intros [= <- _]|]. apply reserve_loop_dom.
Qed.

(** What a superseded claim can still do: nothing that writes. *)
Definition fenced_out (now : Z) (c : provider_claim) (db : provider_db) : Prop :=
  (∀ lease b, renew_work now lease b c db = Err ProviderWorkConflict) ∧
  (∀ u, record_unit_checkpoint now c u db = Err ProviderWorkConflict) ∧
  (∀ st, finish_work now c st db = Err ProviderWorkConflict) ∧
  (∀ n, fail_exhausted_work now n c db = Err ProviderWorkConflict) ∧
  (∀ next reason m db' c', suspend_current_work now next reason m c db = Ok (db', c') → db' = db).

Lemma passed_fenced now c db : passed (pc_work c) (pc_generation c) db → fenced_out now c db.
Proof.
  intros (r & Hr & Hg). assert (∀ b, owned now c b db = Err ProviderWorkConflict) as Ho by (intros b; by eapply owned_stale).
  unfold fenced_out, renew_work, record_unit_checkpoint, finish_work, fail_exhausted_work. split_and!.
  - intros. by rewrite Ho.
  - intros. by rewrite Ho.
  - intros. by rewrite Ho.
  - intros. by rewrite Ho.
  - intros next reason m db' c'. unfold suspend_current_work. rewrite Hr.
    destruct (_ && _); [by intros [= <- _]|]. by rewrite Ho.
Qed.

(** ** A granted turn *)

Lemma get_parents_unlocked busy b sid pid db pa :
  get_parents busy b sid pid db = Ok pa → get_parents (λ _, false) false sid pid db = Ok pa.
Proof.
  unfold get_parents. cbn [andb negb orb]. destruct (pd_snapshots db !! sid) as [sn|]; [|done]. mred.
  destruct (pd_jobs db !! ps_job sn) as [jb|]; [|done]. mred. destruct (negb _ || negb _); [done|].
  destruct pid as [i|]; [|done]. destruct (pd_partitions db !! i) as [pt|]; [|done]. mred. by destruct (negb (negb _)).
Qed.

Lemma get_parents_rows busy b sid pid db pa :
  get_parents busy b sid pid db = Ok pa →
  pd_snapshots db !! sid = Some (pa_snapshot pa) ∧ pd_jobs db !! ps_job (pa_snapshot pa) = Some (pa_job pa) ∧
  match pid with
  | Some i => ∃ p, pa_partition pa = Some (i, p) ∧ pd_partitions db !! i = Some p
  | None => pa_partition pa = None
  end.
Proof.
  unfold get_parents. intros H. inv_ok. destruct pid as [i|]; inv_ok; simplify_eq/=; eauto.
Qed.

Lemma admit_granted busy re owner db db' c :
  admit_reserved busy re owner db = (db', Some c) →
  ∃ r pa, get_parents busy true (wi_snapshot (re_ident re)) (wi_partition (re_ident re)) db = Ok pa ∧
    reserved_row re owner db = Some r ∧ parents_active pa = true ∧ grant re owner r pa db = (db', Some c).
Proof.
  unfold admit_reserved. destruct (get_parents _ _ _ _ _) as [pa|] eqn:Hpa; [|done].
  destruct (reserved_row re owner db) as [r|] eqn:Hr; [|done].
  destruct (parents_active pa) eqn:Ha; [|done]. cbn [negb].
  destruct (negb (_ =? _) || _); [done|].
  destruct (match pd_copies db !! _ with Some _ => _ | None => _ end); [done|]. eauto 8.
Qed.

Lemma parents_active_leaf pa pa' :
  pa_job pa' = pa_job pa → ps_status (pa_snapshot pa') = ps_status (pa_snapshot pa) →
  match pa_partition pa, pa_partition pa' with
  | None, None => True
  | Some _, Some (_, p') => pp_status p' = "IN_PROGRESS"
  | _, _ => False
  end → parents_active pa = true → parents_active pa' = true.
Proof.
  unfold parents_active. intros -> -> Hp H. bools.
  rewrite H, (bool_decide_true (ps_status _ = _)) by done.
  destruct (pa_partition pa) as [[]|], (pa_partition pa') as [[]|]; try done. simpl. by rewrite Hp.
Qed.

Lemma get_parents_intro sid pid db sn jb op :
  pd_snapshots db !! sid = Some sn → pd_jobs db !! ps_job sn = Some jb →
  match pid, op with
  | None, None => True
  | Some i, Some (i', p) => i' = i ∧ pd_partitions db !! i = Some p
  | _, _ => False
  end → get_parents (λ _, false) false sid pid db = Ok (Parents jb sn op).
Proof.
  unfold get_parents. intros -> Hj. mred. rewrite Hj. mred.
  destruct pid as [i|], op as [[i' p]|]; try done. intros [-> ->]. done.
Qed.

Lemma owned_intro now c b db r pa :
  get_parents (λ _, false) false (pc_snapshot c) (pc_partition c) db = Ok pa → pd_work db !! pc_work c = Some r →
  running now r = true → pw_generation r = pc_generation c → pw_owner r = pc_owner c → parents_active pa = true →
  ll_token (leaf_of pa) = wt_parent (pc_tokens c) → ll_owner (leaf_of pa) = pc_owner c →
  (pa_partition pa = None → ll_token (ps_lease (pa_snapshot pa)) = wt_snapshot (pc_tokens c) ∧
     pj_token (pa_job pa) = wt_job (pc_tokens c)) →
  owned now c b db = Ok (r, pa).
Proof.
  intros Hpa Hr Hrun Hg Ho Ha Ht Hlo Hs. unfold owned. rewrite Hpa. mred. rewrite Hr. mred.
  unfold running in Hrun. destruct (pw_expires r) as [x|]; [|by rewrite andb_false_r in Hrun]. bools.
  rewrite H, Hg, Ho, Ha, Ht, Hlo, !Z.eqb_refl, !bool_decide_true by done. cbn [negb andb orb].
  replace (x <=? now) with false by (symmetry; apply Z.leb_gt; lia). cbn [orb].
  destruct (pa_partition pa); [done|]. destruct Hs as [-> ->]; [done|]. by rewrite !Z.eqb_refl.
Qed.

Lemma grant_owned busy now re owner r pa db db' c :
  re_ident re = pw_ident r → get_parents busy true (wi_snapshot (re_ident re)) (wi_partition (re_ident re)) db = Ok pa →
  pw_owner r = Some owner → running now r = true → parents_active pa = true →
  grant re owner r pa db = (db', Some c) → is_ok (owned now c false db') = true.
Proof.
  intros Hi Hpa Hown Hrun Hact Hg. rewrite Hi in Hpa.
  destruct (get_parents_rows _ _ _ _ _ _ Hpa) as (Hsnap & Hjob & Hpart).
  unfold grant in Hg. injection Hg as <- <-. destruct (wi_partition (pw_ident r)) as [i|] eqn:Hpid.
  - destruct Hpart as (pt & Hppt & Hpt).
    set (pt' := set_part_progress (set_part_lease (LeafLease (ll_token (leaf_of pa) + 1) (Some owner) (pw_expires r)) pt)).
    erewrite (owned_intro _ _ _ _ _ (Parents (pa_job pa) (pa_snapshot pa) (Some (i, pt')))); [done| |..].
    + apply get_parents_intro; [done|done|]. simpl. rewrite Hpid. split; [done|].
      by rewrite lookup_alter_eq, lookup_alter_eq, Hpt.
    + simpl. apply lookup_insert_eq.
    + exact Hrun.
    + done.
    + done.
    + apply (parents_active_leaf pa); [done|done| |exact Hact]; simpl. by rewrite Hppt.
    + done.
    + simpl. by rewrite Hown.
    + done.
  - set (sn := set_snap_lease (LeafLease (ll_token (leaf_of pa) + 1) (Some owner) (pw_expires r)) (pa_snapshot pa)).
    erewrite (owned_intro _ _ _ _ _ (Parents (pa_job pa) sn None)); [done| |..].
    + apply get_parents_intro; [simpl; by rewrite lookup_alter_eq, Hsnap|done|]. simpl. by rewrite Hpid.
    + simpl. apply lookup_insert_eq.
    + exact Hrun.
    + done.
    + done.
    + apply (parents_active_leaf pa); [done|done| |exact Hact]; simpl. by rewrite Hpart.
    + done.
    + simpl. by rewrite Hown.
    + done.
Qed.

(** C25: A granted turn is exclusive and usable: the returned claim owns the row, and
    every claim that anyone held on the same work before is superseded in every
    continuation, at any time: renewing, checkpointing, finishing and failing raise,
    and a suspension writes nothing. *)
Theorem granted_turn_is_exclusive enabled control_busy busy busy' now lease owner db db' c :
  control_is db → claim_due_work enabled control_busy busy busy' now lease owner db = Ok (db', Some c) →
  is_ok (owned now c false db') = true ∧
  ∃ r, pd_work db !! pc_work c = Some r ∧
    ∀ c0 now' s', pc_work c0 = pc_work c → pc_generation c0 ≤ pw_generation r →
      rtc pstep (PState now db' []) s' → fenced_out now' c0 (pt_db s').
Proof.
  intros Hc H. unfold claim_due_work in H. inv_ok. bools.
  destruct (reserve_due_work _ _ _ _ _ _ _) as [d1 [re|]] eqn:Hres; [|done].
  pose proof (reserve_dom _ _ _ _ _ _ _ _ _ Hc Hres) as Hdom.
  pose proof (reserved_idle _ _ _ _ _ _ _ _ _ Hc Hres) as [Hidle _].
  apply reserve_spec in Hres as (_ & sk & dm & r & Hq & Hctl & _ & Hr & _ & _ & Hd1 & Hre); [|done].
  pose proof (admit_quiet now _ _ _ _ _ _ Hidle H0) as Hq2.
  pose proof (control_admit _ _ _ _ _ _ H0) as Hctl'.
  apply admit_granted in H0 as (r1 & pa & Hpa & Hrr & Ha & Hg).
  apply reserved_row_Some in Hrr as [Hr1 Hs1]. rewrite Hd1 in Hr1. simpl in Hr1. rewrite lookup_insert_eq in Hr1.
  injection Hr1 as <-.
  assert (pc_work c = re_work re) as Hwc by (unfold grant in Hg; by injection Hg as _ <-).
  split.
  - eapply grant_owned; [|exact Hpa| | |exact Ha|exact Hg]; [by rewrite Hre|reflexivity|].
    unfold running; simpl. apply Z.ltb_lt. lia.
  - specialize (Hq (re_work re)) as Hqr. rewrite Hr in Hqr. rewrite Hwc.
    assert (is_Some (pd_work db !! re_work re)) as [r0 Hr0].
    { apply elem_of_dom. rewrite <- Hdom, Hd1. simpl. rewrite dom_insert. set_solver. }
    rewrite Hr0 in Hqr. destruct Hqr as [_ Hgen _]. exists r0. split; [done|].
    intros c0 now' s' Hw Hg0 Hexec. apply passed_fenced. eapply passed_exec; [|..|exact Hexec].
    + unfold control_is. rewrite Hctl', Hd1. simpl. by rewrite Hctl.
    + apply (quiet_passed now _ _ d1); [done|]. rewrite Hw, Hd1. eexists. simpl. rewrite lookup_insert_eq.
      split; [done|]. simpl. lia.
Qed.
End executions.
