(* ===== verification/ProviderFair.v ===== *)
(** * Provider work: fair turns

    The order in which due work is served ([reserve_loop] of [Provider]): the chosen
    row has the smallest service clocks, an unused turn gives its charge back, and
    tenants that stay backlogged share the turns evenly, in executions of all the
    operations of [ProviderSafety]. *)

From Stdlib Require Import QArith.Qcanon.
From stdpp Require Import numbers.
From S2P Require Import Prelude.
From S2P Require Import Reconciler.
From S2P Require Import Provider.
From S2P Require Import ProviderSafety.
Local Open Scope Z_scope.

(** ** The fair order *)

Lemma qc_ltb_lt a b : qc_ltb a b = true ↔ (a < b)%Qc.
Proof.
  unfold qc_ltb. rewrite negb_true_iff, bool_decide_eq_false. split.
  - apply Qcnot_le_lt.
  - apply Qclt_not_le.
Qed.

Lemma fair_leb_tenant a b : fair_leb a b = true → (fk_tenant a ≤ fk_tenant b)%Qc.
Proof.
  unfold fair_leb. intros [H%qc_ltb_lt|[H%bool_decide_eq_true _]%andb_true_iff]%orb_true_iff.
  - by apply Qclt_le_weak.
  - rewrite H. apply Qcle_refl.
Qed.

Lemma fair_leb_total_tenant a b : fair_leb a b = false → (fk_tenant b ≤ fk_tenant a)%Qc.
Proof.
  unfold fair_leb. intros [H _]%orb_false_iff. destruct (decide (fk_tenant b ≤ fk_tenant a)%Qc) as [|Hn]; [done|].
  apply Qcnot_le_lt, qc_ltb_lt in Hn. congruence.
Qed.

Lemma pick_min_tenant l x : pick_min l = Some x → ∀ y, y ∈ l → (fk_tenant x.1 ≤ fk_tenant y.1)%Qc.
Proof.
  revert x. induction l as [|z l IH]; intros x; simpl; [done|].
  destruct (pick_min l) as [w|] eqn:Hw.
  - specialize (IH w eq_refl). destruct (fair_leb z.1 w.1) eqn:Hle; intros [= <-] y [->|Hy]%elem_of_cons.
    + apply Qcle_refl.
    + eapply Qcle_trans; [by apply fair_leb_tenant|by apply IH].
    + by apply fair_leb_total_tenant.
    + by apply IH.
  - intros [= <-] y [->|Hy]%elem_of_cons; [apply Qcle_refl|]. destruct l as [|v l]; [by apply not_elem_of_nil in Hy|].
    simpl in Hw. destruct (pick_min l); [by destruct (fair_leb _ _)|done].
Qed.

(** ** Charges *)

Lemma charge_queue_refund n q : charge_queue (- n) (charge_queue n q) = q.
Proof.
  unfold charge_queue; simpl. destruct q as [p w f]; simpl. f_equal. rewrite Z2Qc_inj_opp. unfold Qcdiv. ring.
Qed.

Lemma charge_lookup i n db k :
  pd_queues (charge i n db) !! k = (λ q, if bool_decide (k ∈ queue_keys i) then charge_queue n q else q) <$> pd_queues db !! k.
Proof. unfold charge; simpl. rewrite map_lookup_imap. by destruct (_ !! k). Qed.

Lemma charge_queues_ext i n db db' : pd_queues db = pd_queues db' → pd_queues (charge i n db) = pd_queues (charge i n db').
Proof. intros H. apply map_eq. intros k. by rewrite !charge_lookup, H. Qed.

Lemma charge_refund i n db : pd_queues (charge i n (charge i (- n) db)) = pd_queues db.
Proof.
  apply map_eq. intros k. rewrite !charge_lookup. destruct (pd_queues db !! k) as [q|]; simpl; [|done].
  case_bool_decide; [|done]. f_equal. rewrite <- (Z.opp_involutive n) at 1. apply charge_queue_refund.
Qed.

Lemma release_queues re owner db r :
  reserved_row re owner db = Some r → pd_queues (charge (pw_ident r) 1 (release_reservation re owner db)) = pd_queues db.
Proof.
  intros Hr. unfold release_reservation. rewrite Hr. destruct (re_prior re) as [[st o] x].
  apply (charge_refund (pw_ident r) 1 (on_work _ db)).
Qed.

(** A turn that never ran costs nothing: when a reservation is not admitted right
    after it was taken (a busy or vanished parent, parents no longer in progress, a
    changed generation, a copy that still drains), the charge of exactly this turn is
    taken back from the three service clocks. *)
Theorem unused_turn_is_refunded ctl enabled control_busy busy busy' now lease owner db d1 d2 re :
  control_is ctl db → reserve_due_work enabled control_busy busy now lease owner db = (d1, Some re) →
  admit_reserved busy' re owner d1 = (d2, None) →
  pd_queues (charge (re_ident re) 1 d2) = pd_queues d1.
Proof.
  intros Hc (_ & sk & dm & r & _ & _ & _ & _ & _ & _ & Hd1 & Hre)%(reserve_spec ctl); [|done].
  assert (reserved_row re owner d1 = Some (reserve_row now lease owner r)) as Hrr.
  { unfold reserved_row. rewrite Hd1. simpl. rewrite lookup_insert_eq. simpl. rewrite Hre. simpl.
    by rewrite Z.eqb_refl, bool_decide_true. }
  assert (re_ident re = pw_ident (reserve_row now lease owner r)) as Hi by (by rewrite Hre).
  pose proof (release_queues _ _ _ _ Hrr) as Hrel. rewrite <- Hi in Hrel.
  unfold admit_reserved. destruct (get_parents _ _ _ _ _) as [pa|]; [|intros [= <-]; exact Hrel].
  rewrite Hrr. destruct (negb (parents_active pa)); [intros [= <-]; exact Hrel|].
  destruct (negb (_ =? _) || _); [intros [= <-]; exact Hrel|].
  destruct (match pd_copies d1 !! _ with Some _ => _ | None => _ end); [intros [= <-]; exact Hrel|done].
Qed.

(** ** Sharing the turns *)

(** The clock of a queue. *)
Definition clock (q : string) (db : provider_db) : option (Z * Qc) :=
  (λ x, (wq_weight x, wq_finish x)) <$> pd_queues db !! q.

Section sharing.
  Context (digest : list string → string) (ctl : work_control) (a b : string).

(** The queue [q] is not idle: a tenant's row holds a slot, or waits for its turn. *)
Definition present (now : Z) (q : string) (db : provider_db) : Prop :=
  ∃ id r, pd_work db !! id = Some r ∧ wi_tenant_queue (pw_ident r) = q ∧
    ready now r = true ∧ pw_cooling r = false.

(** The row could be served now: a candidate with free parents, not from a cooldown. *)
Definition servable_row (now : Z) (busy : string → bool) (skipped : list string) (id : string) (r : provider_work)
    (db : provider_db) : Prop :=
  pd_work db !! id = Some r ∧ candidate busy now ctl skipped db (id, r) = true ∧ is_Some (key_of id r db) ∧
  parents_free busy r db = true ∧ pw_cooling r = false.

(** The tenant whose queue is [q] has a row that could be served now. *)
Definition servable (now : Z) (busy : string → bool) (q : string) (db : provider_db) : Prop :=
  ∃ id r, servable_row now busy [] id r db ∧ wi_tenant_queue (pw_ident r) = q.

(** [a] and [b] are tenant queues: no row has them as its policy or resource queue. *)
Definition separate (db : provider_db) : Prop :=
  ∀ id r, pd_work db !! id = Some r →
    (wi_policy_queue (pw_ident r) ∉ [a; b]) ∧ (wi_resource_queue (pw_ident r) ∉ [a; b]).

Definition standing (s : pstate) : Prop :=
  separate (pt_db s) ∧ present (pt_now s) a (pt_db s) ∧ present (pt_now s) b (pt_db s).

Definition served (q : string) (re : reservation) : nat :=
  if bool_decide (wi_tenant_queue (re_ident re) = q) then 1 else 0.

(** The turn of [re] that the admission did not use is taken back. *)
Definition refunded (q : string) (re : reservation) (owner : string) (db : provider_db) (oc : option provider_claim) : nat :=
  match oc, reserved_row re owner db with
  | None, Some r => if bool_decide (wi_tenant_queue (pw_ident r) = q) then 1 else 0
  | _, _ => 0
  end.

(** The steps of an execution from [s0], with the turns given to [a] and to [b] and
    the turns taken back from them. Every step is one of [pstep]; other services do
    not write the queues. *)
Inductive turns (s0 : pstate) : nat → nat → nat → nat → pstate → Prop :=
  | tu_start : turns s0 0 0 0 0 s0
  | tu_turn na nb ra rb now db db' rs enabled control_busy busy lease owner re :
      turns s0 na nb ra rb (PState now db rs) → standing (PState now db rs) → 0 < lease →
      reserve_due_work enabled control_busy busy now lease owner db = (db', Some re) →
      (wi_tenant_queue (re_ident re) = a → servable now busy b db) →
      (wi_tenant_queue (re_ident re) = b → servable now busy a db) →
      turns s0 (na + served a re) (nb + served b re) ra rb (PState now db' ((re, owner) :: rs))
  | tu_admit na nb ra rb now db db' rs rs' busy re owner oc :
      turns s0 na nb ra rb (PState now db (rs ++ (re, owner) :: rs')) →
      standing (PState now db (rs ++ (re, owner) :: rs')) →
      admit_reserved busy re owner db = (db', oc) →
      turns s0 na nb (ra + refunded a re owner db oc) (rb + refunded b re owner db oc) (PState now db' (rs ++ rs'))
  | tu_vanish na nb ra rb now db rs rs' re owner :
      turns s0 na nb ra rb (PState now db (rs ++ (re, owner) :: rs')) →
      turns s0 na nb ra rb (PState now db (rs ++ rs'))
  | tu_step na nb ra rb s s' :
      turns s0 na nb ra rb s → standing s → separate (pt_db s') → pstep digest s s' →
      length (pt_reserved s') = length (pt_reserved s) →
      (same_provider (pt_db s) (pt_db s') → pd_queues (pt_db s') = pd_queues (pt_db s)) →
      turns s0 na nb ra rb s'.

Lemma turns_pstep s0 na nb ra rb s : turns s0 na nb ra rb s → rtc (pstep digest) s0 s.
Proof.
  induction 1 as [| | | |]; [done|eapply rtc_r; [done|]..].
  - by eapply (p_reserve _ _ _ _ _ _ _ _ _ (Some re)).
  - by eapply p_admit.
  - by apply p_vanish.
  - done.
Qed.

(** *** The clocks of [a] and [b] across the loop *)

Lemma one_of_both q : q ∈ [a; b] → q = a ∨ q = b.
Proof. set_solver. Qed.

Lemma clock_ext q db db' : pd_queues db' = pd_queues db → clock q db' = clock q db.
Proof. unfold clock. by intros ->. Qed.

Lemma realign_clock now id scope key q db :
  key ≠ q ∨ (∃ id' r', pd_work db !! id' = Some r' ∧ id' ≠ id ∧
               queue_keys (pw_ident r') !! scope = Some key ∧ ready now r' = true) →
  clock q (realign now id scope key db) = clock q db.
Proof.
  intros H. unfold realign. destruct (existsb _ _) eqn:He; [done|]. destruct (pd_queues db !! key) as [x|]; [|done].
  destruct H as [Hne|(id' & r' & Hr & Hid & Hk & Hrd)].
  - unfold clock; simpl. by rewrite lookup_insert_ne.
  - exfalso. rewrite existsb_Forall, Forall_forall in He.
    specialize (He (id', r') (proj2 (elem_of_map_to_list _ _ _) Hr)). cbn [fst snd] in He.
    rewrite (bool_decide_false (id' = id)), bool_decide_true, Hrd in He by done. done.
Qed.

Lemma realign_all_clock now id i q db r :
  separate db → pd_work db !! id = Some r → pw_ident r = i → pw_cooling r = true →
  q ∈ [a; b] → present now q db → clock q (realign_all now id i db) = clock q db.
Proof.
  intros Hsep Hr <- Hc Hq (id' & r' & Hr' & Ht & Hrd & Hc'). destruct (Hsep _ _ Hr) as [Hp Hs]. unfold realign_all.
  do 2 (rewrite realign_clock; [|left; intros Hk; by rewrite Hk in *]).
  apply realign_clock. destruct (decide (wi_tenant_queue (pw_ident r) = q)) as [Hk|]; [right|by left].
  exists id', r'. split_and!; [done|intros ->; congruence|simpl; congruence|done].
Qed.

Lemma realign_all_queue now id i db k :
  is_Some (pd_queues db !! k) → is_Some (pd_queues (realign_all now id i db) !! k).
Proof.
  assert (∀ scope key d, is_Some (pd_queues d !! k) → is_Some (pd_queues (realign now id scope key d) !! k)) as H.
  { intros scope key d Hk. unfold realign. destruct (existsb _ _); [done|].
    destruct (pd_queues d !! key); [|done]. simpl. destruct (decide (key = k)) as [->|];
      [rewrite lookup_insert_eq; eauto|by rewrite lookup_insert_ne]. }
  intros Hk. unfold realign_all. by do 3 apply H.
Qed.

Lemma realign_all_parents now id i db :
  pd_jobs (realign_all now id i db) = pd_jobs db ∧ pd_snapshots (realign_all now id i db) = pd_snapshots db ∧
  pd_partitions (realign_all now id i db) = pd_partitions db.
Proof.
  assert (∀ scope key d, pd_jobs (realign now id scope key d) = pd_jobs d ∧
    pd_snapshots (realign now id scope key d) = pd_snapshots d ∧
    pd_partitions (realign now id scope key d) = pd_partitions d) as H.
  { intros. unfold realign. by repeat case_match. }
  unfold realign_all.
  repeat match goal with |- context [realign ?x ?y ?z ?u ?v] => destruct (H z u v) as (-> & -> & ->) end. done.
Qed.

Lemma key_of_Some id r db :
  is_Some (key_of id r db) ↔ is_Some (pd_queues db !! wi_tenant_queue (pw_ident r)) ∧
    is_Some (pd_queues db !! wi_policy_queue (pw_ident r)) ∧ is_Some (pd_queues db !! wi_resource_queue (pw_ident r)).
Proof.
  unfold key_of, is_Some. destruct (pd_queues db !! wi_tenant_queue _), (pd_queues db !! wi_policy_queue _),
    (pd_queues db !! wi_resource_queue _); cbn; naive_solver.
Qed.

(** One round of the loop that ends a cooldown. *)
Definition warmed (now : Z) (id : string) (r : provider_work) (db : provider_db) : provider_db :=
  on_work (insert id (set_cooling false r)) (realign_all now id (pw_ident r) db).

Lemma warmed_lookup now id r db i : i ≠ id → pd_work (warmed now id r db) !! i = pd_work db !! i.
Proof.
  intros Hne. unfold warmed. cbn [on_work pd_work]. rewrite lookup_insert_ne by done.
  by destruct (realign_all_work now id (pw_ident r) db) as (-> & _).
Qed.

Lemma warmed_quiet now id r db : pd_work db !! id = Some r → quiet now db (warmed now id r db).
Proof.
  intros Hr. apply (quiet_insert now id r (set_cooling false r)); [exact Hr| |].
  - by split.
  - unfold warmed; cbn [on_work pd_work]. by destruct (realign_all_work now id (pw_ident r) db) as (-> & _).
Qed.

Lemma warmed_separate now id r db : pd_work db !! id = Some r → separate db → separate (warmed now id r db).
Proof.
  intros Hr Hs i r' Hr'. destruct (decide (i = id)) as [->|Hne].
  - unfold warmed in Hr'; cbn [on_work pd_work] in Hr'. rewrite lookup_insert_eq in Hr'. injection Hr' as <-. by apply (Hs id r).
  - rewrite warmed_lookup in Hr' by done. by apply (Hs i).
Qed.

Lemma warmed_present now id r q db :
  pd_work db !! id = Some r → pw_cooling r = true → present now q db → present now q (warmed now id r db).
Proof.
  intros Hr Hc (i & r' & Hr' & H). exists i, r'. split; [|done]. rewrite warmed_lookup; [done|].
  intros ->. rewrite Hr in Hr'. destruct H as (_ & _ & H). congruence.
Qed.

Lemma warmed_servable now busy skipped id r i r' db :
  pd_work db !! id = Some r → pw_cooling r = true →
  servable_row now busy skipped i r' db → servable_row now busy skipped i r' (warmed now id r db).
Proof.
  intros Hr Hc (Hr' & Hcand & Hk & Hf & Hc').
  assert (i ≠ id) as Hne by (intros ->; rewrite Hr in Hr'; congruence).
  split_and!; [by rewrite warmed_lookup| | | |done].
  - revert Hcand. unfold candidate. cbn [fst snd]. intros H. bools.
    pose proof (quiet_running_of _ (wi_tenant (pw_ident r')) _ _ (warmed_quiet now id r db Hr)).
    rewrite bool_decide_false by done.
    repeat (apply andb_true_iff; split); try done; try by apply Z.eqb_eq.
    + apply Z.ltb_lt. lia.
    + by apply negb_true_iff.
  - apply key_of_Some in Hk as (? & ? & ?). apply key_of_Some.
    unfold warmed; cbn [on_work pd_queues]. split_and!; by apply realign_all_queue.
  - revert Hf. unfold parents_free, get_parents. unfold warmed; cbn [on_work pd_snapshots pd_jobs pd_partitions].
    by destruct (realign_all_parents now id (pw_ident r) db) as (-> & -> & ->).
Qed.

Lemma warmed_clock now id r q db :
  separate db → pd_work db !! id = Some r → pw_cooling r = true → q ∈ [a; b] → present now q db →
  clock q (warmed now id r db) = clock q db.
Proof. intros. by eapply (realign_all_clock now id (pw_ident r) q db r). Qed.

(** *** A turn goes to the smallest clock *)

(** What a reservation took: a row of [dm], where the clocks of [a] and [b] are those
    at the start, whose tenant clock is not above that of any tenant that could be
    served. *)
Record taken (now : Z) (busy : string → bool) (skipped : list string) (db db' : provider_db) (re : reservation) : Prop := {
  tk_middle : ∃ dm r k,
    pd_work dm !! re_work re = Some r ∧ re_ident re = pw_ident r ∧ key_of (re_work re) r dm = Some k ∧
    separate dm ∧ clock a dm = clock a db ∧ clock b dm = clock b db ∧
    pd_queues db' = pd_queues (charge (pw_ident r) 1 dm) ∧
    ∀ i r' c, servable_row now busy skipped i r' db → wi_tenant_queue (pw_ident r') ∈ [a; b] →
      clock (wi_tenant_queue (pw_ident r')) db = Some c → (fk_tenant k ≤ c.2)%Qc;
}.

Lemma key_tenant id r db k : key_of id r db = Some k → ∃ w, clock (wi_tenant_queue (pw_ident r)) db = Some (w, fk_tenant k).
Proof.
  unfold key_of, clock. intros (tq & Htq & H)%bind_Some. apply bind_Some in H as (pq & _ & H).
  apply bind_Some in H as (rq & _ & [= <-]). exists (wq_weight tq). by rewrite Htq.
Qed.

Lemma servable_skipped now busy skipped id i r r' db :
  pd_work db !! id = Some r → parents_free busy r db = false →
  servable_row now busy skipped i r' db → servable_row now busy (skipped ++ [id]) i r' db.
Proof.
  intros Hr Hf (Hr' & Hcand & Hk & Hf' & Hc). assert (i ≠ id) as Hne by (intros ->; congruence).
  split_and!; try done. revert Hcand. unfold candidate. cbn [fst snd]. intros H. bools.
  rewrite bool_decide_false by (rewrite elem_of_app, list_elem_of_singleton; tauto).
  repeat (apply andb_true_iff; split); try done; [by apply Z.eqb_eq|by apply Z.ltb_lt|by apply negb_true_iff].
Qed.

Lemma picked_is_minimal now busy skipped k id db i r' c :
  pick_min (candidates busy now ctl skipped db) = Some (k, id) → servable_row now busy skipped i r' db →
  clock (wi_tenant_queue (pw_ident r')) db = Some c → (fk_tenant k ≤ c.2)%Qc.
Proof.
  intros Hp (Hr' & Hcand & [k' Hk'] & _) Hcl.
  assert ((k', i) ∈ candidates busy now ctl skipped db) as Hin by (apply elem_of_candidates; eauto).
  pose proof (pick_min_tenant _ _ Hp _ Hin) as Hle. cbn [fst] in Hle.
  destruct (key_tenant _ _ _ _ Hk') as [w Hc]. rewrite Hcl in Hc. by injection Hc as ->.
Qed.

Lemma reserve_loop_turn fuel busy now lease owner skipped db db' ore :
  separate db → present now a db → present now b db →
  reserve_loop fuel busy now lease owner ctl skipped db = (db', ore) →
  match ore with
  | Some re => taken now busy skipped db db' re
  | None => clock a db' = clock a db ∧ clock b db' = clock b db
  end.
Proof.
  revert skipped db. induction fuel as [|fuel IH]; intros skipped db Hs Ha Hb; cbn [reserve_loop];
    [by intros [= <- <-]|].
  destruct (pick_min _) as [[k id]|] eqn:Hp; [|by intros [= <- <-]].
  destruct (pd_work db !! id) as [r|] eqn:Hr; [|by intros [= <- <-]].
  destruct (parents_free busy r db) eqn:Hf; cbn [negb].
  2:{ intros H%IH; [|done..]. destruct ore as [re|]; [|done].
      destruct H as [(dm & r0 & k0 & H1 & H2 & H3 & H4 & H5 & H6 & H7 & H8)].
      split. exists dm, r0, k0. split_and!; try done. intros i r' c Hi.
      apply (H8 i r' c). by apply (servable_skipped _ _ _ id _ r). }
  destruct (pw_cooling r) eqn:Hc.
  - assert (∀ q, q ∈ [a; b] → clock q (warmed now id r db) = clock q db) as Hcl.
    { intros q Hq. apply warmed_clock; try done. destruct (one_of_both _ Hq) as [->| ->]; done. }
    intros H. change (on_work _ _) with (warmed now id r db) in H. apply IH in H;
      [|by apply warmed_separate|by apply warmed_present..].
    destruct ore as [re|]; [|by rewrite <- (Hcl a), <- (Hcl b) by set_solver].
    destruct H as [(dm & r0 & k0 & H1 & H2 & H3 & H4 & H5 & H6 & H7 & H8)].
    split. exists dm, r0, k0. rewrite <- (Hcl a), <- (Hcl b) by set_solver. split_and!; try done.
    intros i r' c Hi Hq. rewrite <- (Hcl _ Hq). apply (H8 i r' c); [by apply warmed_servable|done].
  - intros [= <- <-]. pose proof (pick_min_elem _ _ Hp) as Hin.
    apply elem_of_candidates in Hin as (r0 & Hr0 & _ & Hkey). rewrite Hr in Hr0. injection Hr0 as <-.
    split. exists db, r, k. split_and!; try done. intros i r' c Hi _. by eapply picked_is_minimal.
Qed.

Lemma reserve_turn enabled control_busy busy now lease owner db db' ore :
  control_is ctl db → separate db → present now a db → present now b db →
  reserve_due_work enabled control_busy busy now lease owner db = (db', ore) →
  match ore with
  | Some re => taken now busy [] db db' re
  | None => clock a db' = clock a db ∧ clock b db' = clock b db
  end.
Proof.
  unfold control_is. intros Hc Hs Ha Hb H. unfold reserve_due_work, ensure_control in H.
  destruct control_busy; [by injection H as <- <-|]. rewrite Hc, Hc in H.
  destruct (negb (wc_enabled ctl)); [by injection H as <- <-|].
  destruct (wc_total ctl <=? _); [by injection H as <- <-|]. by eapply reserve_loop_turn.
Qed.

(** *** The other operations leave the clocks alone *)

Lemma queues_write_leaf sid pid l db : pd_queues (write_leaf sid pid l db) = pd_queues db.
Proof. by destruct pid. Qed.

Lemma queues_control c db : pd_queues (ensure_control c db) = pd_queues db.
Proof. unfold ensure_control. by destruct (pd_control db). Qed.

Lemma queues_finish now c st db db' : finish_work now c st db = Ok db' → pd_queues db' = pd_queues db.
Proof. unfold finish_work. intros H. inv_ok. destruct x as [r pa]. inv_ok. by subst. Qed.

Lemma queues_cancel reason ids db db' : cancel_each reason ids db = Ok db' → pd_queues db' = pd_queues db.
Proof.
  revert db. induction ids as [|id ids IH]; intros db; simpl; [by intros [= ->]|].
  intros H. inv_ok. rewrite (IH _ H0). unfold cancel_one in H. inv_ok. subst. simpl.
  case_match; [by rewrite queues_write_leaf|done].
Qed.

Lemma ensure_queue_clock now scope key parent w q db c :
  clock q db = Some c → key ≠ q ∨ queue_idle now scope key db = false →
  clock q (ensure_queue now scope key parent w db) = Some c.
Proof.
  intros Hc H. unfold ensure_queue. destruct (pd_queues db !! key) as [x|] eqn:Hx.
  - destruct (queue_idle now scope key db); [|done]. destruct H as [Hne|]; [|done].
    unfold clock; simpl. by rewrite lookup_insert_ne.
  - unfold clock; simpl. rewrite lookup_insert_ne; [done|]. intros ->. unfold clock in Hc. by rewrite Hx in Hc.
Qed.

Lemma present_not_idle now q db : present now q db → queue_idle now 0 q db = false.
Proof.
  intros (id & r & Hr & Ht & Hrd & _). unfold queue_idle. apply negb_false_iff.
  destruct (existsb _ _) eqn:He; [done|]. exfalso. rewrite existsb_Forall, Forall_forall in He.
  specialize (He (id, r) (proj2 (elem_of_map_to_list _ _ _) Hr)). cbn [fst snd] in He.
  rewrite Hrd, bool_decide_true in He; [done|]. simpl. by rewrite Ht.
Qed.

Lemma ensure_clock now ea db db' c q x :
  ensure_work digest now ea db = Ok (db', c) → separate db' → q ∈ [a; b] → present now q db → clock q db = Some x →
  clock q db' = Some x.
Proof.
  unfold ensure_work. intros H Hsep Hq Hp Hx. inv_ok.
  destruct (find_leaf _ _) as [[id row]|]; inv_ok; simplify_eq; [done|].
  match type of Hsep with separate (write_leaf _ _ _ (on_work (insert _ ?row) _)) =>
    destruct (Hsep (ea_fresh ea) row) as [Hpq Hrq] end.
  { rewrite work_write_leaf. cbn [on_work pd_work]. by rewrite lookup_insert_eq. }
  cbn [pw_ident wi_policy_queue wi_resource_queue] in Hpq, Hrq.
  unfold clock. rewrite queues_write_leaf. cbn [on_work pd_queues].
  rewrite queues_control. fold (clock q).
  apply ensure_queue_clock; [apply ensure_queue_clock; [apply ensure_queue_clock; [done|]|]|].
  - match goal with |- ?k ≠ q ∨ _ => destruct (decide (k = q)) as [->|]; [right|by left] end.
    by apply present_not_idle.
  - left. by intros <-.
  - left. by intros <-.
Qed.

Lemma step_clock s s' q x :
  pstep digest s s' → control_is ctl (pt_db s) → standing s → separate (pt_db s') →
  length (pt_reserved s') = length (pt_reserved s) →
  (same_provider (pt_db s) (pt_db s') → pd_queues (pt_db s') = pd_queues (pt_db s)) →
  q ∈ [a; b] → clock q (pt_db s) = Some x → clock q (pt_db s') = Some x.
Proof.
  intros H Hc (Hsep & Ha & Hb) Hsep' Hl Henv Hq Hx.
  assert (present (pt_now s) q (pt_db s)) as Hp
    by (destruct (one_of_both _ Hq) as [->| ->]; done).
  destruct H; cbn [pt_now pt_db pt_reserved] in *; try done.
  - by rewrite (clock_ext _ _ _ (Henv H)).
  - by eapply ensure_clock.
  - destruct re as [re|]; [rewrite length_app in Hl; simpl in Hl; lia|].
    destruct (reserve_turn _ _ _ _ _ _ _ _ _ Hc Hsep Ha Hb H0) as [Hca Hcb].
    rewrite <- Hx. destruct (one_of_both _ Hq) as [->| ->]; done.
  - rewrite !length_app in Hl. simpl in Hl. lia.
  - rewrite <- Hx. apply clock_ext. unfold renew_work in H. inv_ok. destruct x0. inv_ok. subst.
    destruct b0; [done|by rewrite queues_write_leaf].
  - rewrite <- Hx. apply clock_ext. unfold record_unit_checkpoint in H. inv_ok. case_bool_decide; inv_ok; by simplify_eq.
  - rewrite <- Hx. apply clock_ext. unfold suspend_current_work in H. destruct (_ !! _) as [hint|]; [|done].
    destruct (_ && _); [by simplify_eq|]. inv_ok. destruct x0. inv_ok. simplify_eq. by rewrite queues_write_leaf.
  - rewrite <- Hx. apply clock_ext. by eapply queues_finish.
  - rewrite <- Hx. apply clock_ext. unfold fail_exhausted_work in H. inv_ok. destruct x0. inv_ok. subst. simpl.
    erewrite queues_finish by done. by destruct (pa_partition _) as [[]|].
  - rewrite <- Hx. apply clock_ext. unfold claim_parent_settlement in H. inv_ok. repeat case_match; by simplify_eq.
  - rewrite <- Hx. apply clock_ext. unfold release_parent_settlement in H. inv_ok. repeat case_match; by simplify_eq.
  - rewrite <- Hx. apply clock_ext. unfold finish_parent_settlement in H. destruct (_ !! _) as [r|]; [|by simplify_eq].
    inv_ok. destruct (_ && _); inv_ok; by simplify_eq.
  - rewrite <- Hx. apply clock_ext. unfold cancel_provider_work in H. inv_ok. simplify_eq. by eapply queues_cancel.
Qed.

(** *** Charges and refunds on the two clocks *)

Lemma charge_clock q i n db f :
  (wi_policy_queue i ∉ [a; b]) → (wi_resource_queue i ∉ [a; b]) → q ∈ [a; b] → clock q db = Some (1, f) →
  clock q (charge i n db) = Some (1, if bool_decide (wi_tenant_queue i = q) then (f + Qc_of_Z n)%Qc else f).
Proof.
  intros Hp Hr Hq. unfold clock. rewrite charge_lookup. destruct (pd_queues db !! q) as [x|]; simpl; [|done].
  intros [= Hw <-].
  assert (bool_decide (q ∈ queue_keys i) = bool_decide (wi_tenant_queue i = q)) as ->.
  { apply bool_decide_ext. unfold queue_keys. rewrite !elem_of_cons, elem_of_nil. split; [|by left].
    intros [->|[->|[->|[]]]]; done. }
  case_bool_decide; simpl; rewrite Hw; [|done]. do 2 f_equal. unfold Qcdiv.
  replace (/ Qc_of_Z 1)%Qc with 1%Qc by (apply Qc_is_canon; reflexivity). ring.
Qed.

Lemma minus_zero (f : Qc) : (f - Qc_of_Z (Z.of_nat 0))%Qc = f.
Proof. replace (Qc_of_Z (Z.of_nat 0)) with 0%Qc by (apply Qc_is_canon; reflexivity). ring. Qed.

Lemma admit_clock q busy re owner db db' oc f :
  separate db → q ∈ [a; b] → admit_reserved busy re owner db = (db', oc) → clock q db = Some (1, f) →
  clock q db' = Some (1, (f - Qc_of_Z (Z.of_nat (refunded q re owner db oc)))%Qc).
Proof.
  intros Hsep Hq H Hf.
  assert (∀ d, pd_queues d = pd_queues (release_reservation re owner db) →
    clock q d = Some (1, (f - Qc_of_Z (Z.of_nat (refunded q re owner db None)))%Qc)) as Hrel.
  { intros d Hd. rewrite (clock_ext _ _ _ Hd). unfold release_reservation, refunded.
    destruct (reserved_row re owner db) as [r|] eqn:Hr.
    - apply reserved_row_Some in Hr as [Hr _]. destruct (Hsep _ _ Hr) as [Hp Hs]. destruct (re_prior re) as [[st o] x].
      rewrite (charge_clock q _ _ _ f); [|done..]. case_bool_decide; [done|].
      by rewrite minus_zero.
    - by rewrite Hf, minus_zero. }
  unfold admit_reserved in H. destruct (get_parents _ _ _ _ _) as [pa|]; [|injection H as <- <-; by apply Hrel].
  destruct (reserved_row re owner db) as [r|] eqn:Hr.
  2:{ injection H as <- <-. apply Hrel. unfold release_reservation. by rewrite Hr. }
  destruct (negb (parents_active pa)); [injection H as <- <-; by apply Hrel|].
  destruct (negb (_ =? _) || _); [injection H as <- <-; by apply Hrel|].
  destruct (match pd_copies db !! _ with Some _ => _ | None => _ end); [injection H as <- <-; by apply Hrel|].
  unfold grant in H. injection H as <- <-. cbn [refunded]. rewrite minus_zero, <- Hf. apply clock_ext.
  cbn [on_copies on_work pd_queues]. destruct (wi_partition _); by rewrite ?queues_write_leaf.
Qed.

(** *** The bound *)

Definition level (f0 : Qc) (q : string) (n r : nat) (db : provider_db) : Prop :=
  clock q db = Some (1, (f0 + Qc_of_Z (Z.of_nat n - Z.of_nat r))%Qc).

Lemma level_ext f0 q n r n' r' db :
  Z.of_nat n - Z.of_nat r = Z.of_nat n' - Z.of_nat r' → level f0 q n r db → level f0 q n' r' db.
Proof. unfold level. by intros ->. Qed.

Lemma level_turn f0 q n r i re db db' :
  (wi_policy_queue i ∉ [a; b]) → (wi_resource_queue i ∉ [a; b]) → q ∈ [a; b] → re_ident re = i →
  pd_queues db' = pd_queues (charge i 1 db) → level f0 q n r db → level f0 q (n + served q re) r db'.
Proof.
  intros Hp Hr Hq Hi Hd Hl. unfold level. rewrite (clock_ext _ _ _ Hd), (charge_clock q i 1 db _ Hp Hr Hq Hl).
  unfold served. rewrite Hi. do 2 f_equal. case_bool_decide; [|by rewrite Nat.add_0_r].
  replace (Z.of_nat (n + 1) - Z.of_nat r) with (Z.of_nat n - Z.of_nat r + 1) by lia.
  rewrite Z2Qc_inj_add. ring.
Qed.

Lemma level_refund f0 q n r k db db' :
  (∀ f, clock q db = Some (1, f) → clock q db' = Some (1, (f - Qc_of_Z (Z.of_nat k))%Qc)) →
  level f0 q n r db → level f0 q n (r + k) db'.
Proof.
  intros H Hl. unfold level. rewrite (H _ Hl). do 2 f_equal.
  replace (Z.of_nat n - Z.of_nat (r + k)) with (Z.of_nat n - Z.of_nat r + - Z.of_nat k) by lia.
  rewrite Z2Qc_inj_add, Z2Qc_inj_opp. ring.
Qed.

Lemma level_le f0 n r n' r' :
  (f0 + Qc_of_Z (Z.of_nat n - Z.of_nat r) ≤ f0 + Qc_of_Z (Z.of_nat n' - Z.of_nat r'))%Qc →
  Z.of_nat n - Z.of_nat r ≤ Z.of_nat n' - Z.of_nat r'.
Proof. intros H%Qcplus_le_mono_l. by apply Z2Qc_inj_le in H. Qed.

(** The tenant that gets a turn was not ahead of the other one. *)
Lemma turn_not_ahead f0 now busy db db' re q q' n r n' r' :
  taken now busy [] db db' re → q ∈ [a; b] → q' ∈ [a; b] → wi_tenant_queue (re_ident re) = q →
  servable now busy q' db → level f0 q n r db → level f0 q' n' r' db →
  Z.of_nat n - Z.of_nat r ≤ Z.of_nat n' - Z.of_nat r'.
Proof.
  intros [(dm & r0 & k & _ & Hi & Hk & _ & Ha & Hb & _ & Hmin)] Hq Hq' Ht (i & r1 & Hs & <-) Hl Hl'.
  apply (level_le f0). specialize (Hmin i r1 _ Hs Hq' Hl'). cbn [snd] in Hmin.
  assert (clock q dm = clock q db) as Hcl by (destruct (one_of_both _ Hq) as [->| ->]; done).
  rewrite Hi in Ht. destruct (key_tenant _ _ _ _ Hk) as [w Hc]. rewrite Ht, Hcl, Hl in Hc. injection Hc as _ Hc. by rewrite Hc.
Qed.

Lemma turns_levels f0 s0 na nb ra rb s :
  a ≠ b → control_is ctl (pt_db s0) → reservations_ok s0 →
  clock a (pt_db s0) = Some (1, f0) → clock b (pt_db s0) = Some (1, f0) →
  turns s0 na nb ra rb s →
  control_is ctl (pt_db s) ∧ level f0 a na ra (pt_db s) ∧ level f0 b nb rb (pt_db s) ∧
  (na ≤ nb + 1 + ra)%nat ∧ (nb ≤ na + 1 + rb)%nat.
Proof.
  intros Hab Hc0 Hr0 Ha0 Hb0 H.
  assert (a ∈ [a; b] ∧ b ∈ [a; b]) as [Hina Hinb] by set_solver.
  induction H as [|na nb ra rb now db db' rs en cb busy lease owner re H IH Hst Hlease Hres Hsa Hsb
    |na nb ra rb now db db' rs rs' busy re owner oc H IH Hst Hadm|na nb ra rb now db rs rs' re owner H IH
    |na nb ra rb s s' H IH Hst Hsep' Hstep Hlen Henv].
  - unfold level. change (Z.of_nat 0 - Z.of_nat 0) with 0. rewrite Z2Qc_inj_0, Qcplus_0_r. split_and!; done || lia.
  - destruct IH as (Hc & Hla & Hlb & Hle1 & Hle2). destruct Hst as (Hsep & Hpa & Hpb). cbn [pt_db pt_now] in *.
    pose proof (reserve_turn _ _ _ _ _ _ _ _ _ Hc Hsep Hpa Hpb Hres) as Htk.
    split; [apply (control_step digest ctl (PState now db rs) (PState now db' ((re, owner) :: rs)));
      [by apply (p_reserve digest now en cb busy lease owner db db' (Some re) rs)|done]|].
    destruct (Htk) as [(dm & r & k & Hr & Hi & Hk & Hsepm & Hca & Hcb & Hq & _)].
    destruct (Hsepm _ _ Hr) as [Hp Hs].
    split; [apply (level_turn f0 a na ra (pw_ident r) re dm); try done; unfold level; by rewrite Hca|].
    split; [apply (level_turn f0 b nb rb (pw_ident r) re dm); try done; unfold level; by rewrite Hcb|].
    unfold served. destruct (decide (wi_tenant_queue (re_ident re) = a)) as [Hta|Hta].
    + rewrite (bool_decide_true (_ = a)), (bool_decide_false (_ = b)) by congruence.
      pose proof (turn_not_ahead f0 _ _ _ _ _ a b na ra nb rb Htk Hina Hinb Hta (Hsa Hta) Hla Hlb). lia.
    + rewrite (bool_decide_false (_ = a)) by done. case_bool_decide as Htb; [|lia].
      pose proof (turn_not_ahead f0 _ _ _ _ _ b a nb rb na ra Htk Hinb Hina Htb (Hsb Htb) Hlb Hla). lia.
  - destruct IH as (Hc & Hla & Hlb & Hle1 & Hle2). destruct Hst as (Hsep & _). cbn [pt_db pt_now] in *.
    split_and!; [unfold control_is; by rewrite (control_admit _ _ _ _ _ _ Hadm)| | |lia|lia].
    + apply (level_refund f0 a na ra _ db); [intros f; by apply admit_clock with busy|done].
    + apply (level_refund f0 b nb rb _ db); [intros f; by apply admit_clock with busy|done].
  - done.
  - destruct IH as (Hc & Hla & Hlb & Hle1 & Hle2).
    split_and!; [by eapply control_step| | |done|done]; by eapply step_clock.
Qed.

(** C27: Fair turns. In any execution of the provider operations (reservations,
    admissions and their refunds, vanished workers, new work, suspensions, cooldowns
    with their realigned queues, cancellations and all others), two tenants that start
    with level service clocks share the turns: the turns one of them was given and kept
    are never more than one ahead of the turns the other was given, however many rows
    each has waiting and whatever the other tenants, policies and resources do. The
    execution must keep both tenants backlogged in the sense of the code: at every step
    each of the two has a row that holds a slot or waits for its turn, not fresh from a
    cooldown (their queues are not idle); and whenever one of the two gets a turn, the
    other has a candidate with free parents that is not fresh from a cooldown. Queue keys are digests:
    the two tenant queues are not also the policy or resource queue of a row. *)
Theorem backlogged_tenants_share_turns f0 now db na nb ra rb s :
  a ≠ b → control_is ctl db → clock a db = Some (1, f0) → clock b db = Some (1, f0) →
  turns (PState now db []) na nb ra rb s →
  (na ≤ nb + 1 + ra)%nat ∧ (nb ≤ na + 1 + rb)%nat.
Proof.
  intros Hab Hc Ha Hb H. by apply (turns_levels f0 (PState now db []) na nb ra rb s Hab Hc (Forall_nil_2 _) Ha Hb).
Qed.
End sharing.

(** ** Two tenants with one throttled snapshot each *)
Module ProviderExamples.

Definition digest0 (l : list string) : string := String.concat "/" l.

Definition nobody : string → bool := λ _, false.
Definition everybody : string → bool := λ _, true.

Definition snap0 (job res : string) : parent_snapshot :=
  ParentSnapshot SInProgress (LeafLease 3 (Some "w0") (Some 50)) job res.

Definition ctl0 : work_control := WorkControl true 1 1 1.

Definition db0 : provider_db :=
  ProviderDb ∅ ∅ ∅ (Some ctl0)
    {[ "j1" := ParentJob JRunning 7 "t1" None; "j2" := ParentJob JRunning 7 "t2" None ]}
    {[ "s1" := snap0 "j1" "r1"; "s2" := snap0 "j2" "r2" ]} ∅
    {[ "r1" := ParentResource "t1" None; "r2" := ParentResource "t2" None ]} ∅ ∅.

Definition args (sid fresh : string) : ensure_args :=
  EnsureArgs sid 3 7 None None None None None "{}" fresh.

Definition claim0 : provider_claim := ProviderClaim "" "" None "" None 0 (WorkTokens 0 0 0).

Definition db1 : provider_db := (from_ok (db0, claim0) (ensure_work digest0 0 (args "s1" "w1") db0)).1.
Definition db2 : provider_db := (from_ok (db1, claim0) (ensure_work digest0 0 (args "s2" "w2") db1)).1.

Definition run0 : result provider_err (provider_db * option provider_claim) :=
  claim_due_work true false nobody nobody 10 120 "o1" db2.
Definition db3 : provider_db := (from_ok (db2, None) run0).1.
Definition claim1 : provider_claim := ProviderClaim "w1" "s1" None "j1" (Some "o1") 1 (WorkTokens 4 4 7).

Lemma run0_ok : run0 = Ok (db3, Some claim1).
Proof. apply (from_ok_pair_r (db2, None) run0). vm_compute. reflexivity. Qed.

Definition reserved0 : provider_db * option reservation := reserve_due_work true false nobody 10 120 "o1" db2.
Definition re0 : reservation :=
  default (Reservation "" (WorkIdent "" "" "" "" "" None None 0 "" "" "" 0 0 0) 0 (WWaiting, None, None)) reserved0.2.

Lemma reserved0_ok : reserve_due_work true false nobody 10 120 "o1" db2 = (reserved0.1, Some re0).
Proof. fold reserved0. apply pair_eta_r, is_Some_default. vm_compute. reflexivity. Qed.

Lemma control0 : control_is ctl0 db2.
Proof. vm_compute. reflexivity. Qed.

Lemma one_turn : rtc (pstep digest0) (PState 10 db2 []) (PState 10 reserved0.1 [(re0, "o1")]).
Proof. apply rtc_once. apply (p_reserve digest0 10 true false nobody 120 "o1" db2 reserved0.1 (Some re0) []); [lia|exact reserved0_ok]. Qed.

Lemma capacity_is_respected_witness :
  within_capacity ctl0 (PState 10 reserved0.1 [(re0, "o1")]) ∧ length (running_rows 10 reserved0.1) = 1%nat.
Proof.
  split; [|vm_compute; reflexivity].
  apply (capacity_is_respected digest0 ctl0 10 db2); [exact control0| |exact one_turn].
  split; cbn [pt_now pt_db].
  - vm_compute. discriminate.
  - intros t. replace (running_of 10 t db2) with (@nil (string * provider_work)) by (vm_compute; reflexivity).
    vm_compute. discriminate.
Defined.





Lemma granted_turn_is_exclusive_witness :
  is_ok (owned 10 claim1 false db3) = true ∧
  fenced_out 10 (ProviderClaim "w1" "s1" None "j1" (Some "o0") 0 (WorkTokens 3 3 7)) db3.
Proof.
  destruct (granted_turn_is_exclusive digest0 ctl0 true false nobody nobody 10 120 "o1" db2 db3 claim1 control0 run0_ok)
    as [H1 (r & Hr & H2)].
  split; [exact H1|]. apply (H2 _ 10 (PState 10 db3 [])); [reflexivity| |apply rtc_refl].
  assert (pw_generation <$> pd_work db2 !! "w1" = Some 0) as Hg by (vm_compute; reflexivity).
  change (pc_work claim1) with "w1" in Hr. rewrite Hr in Hg. simpl in Hg. injection Hg as ->. simpl. lia.
Defined.

Definition unadmitted : provider_db := (admit_reserved everybody re0 "o1" reserved0.1).1.

Lemma unused_turn_is_refunded_witness :
  pd_queues (charge (re_ident re0) 1 unadmitted) = pd_queues reserved0.1.
Proof.
  apply (unused_turn_is_refunded ctl0 true false nobody everybody 10 120 "o1" db2 reserved0.1 unadmitted re0);
    [exact control0|exact reserved0_ok|].
  apply (pair_eta_r (admit_reserved everybody re0 "o1" reserved0.1)). vm_compute. reflexivity.
Defined.

(** The checks behind [separate], [present] and [servable]. *)
Lemma separate_check a b db :
  forallb (λ kv, bool_decide (wi_policy_queue (pw_ident kv.2) ∉ [a; b]) && bool_decide (wi_resource_queue (pw_ident kv.2) ∉ [a; b]))
    (map_to_list (pd_work db)) = true → separate a b db.
Proof.
  rewrite forallb_Forall, Forall_forall. intros H id r Hr.
  specialize (H (id, r) (proj2 (elem_of_map_to_list _ _ _) Hr)). by bools.
Qed.

Lemma servable_check ctl now busy q db id :
  match pd_work db !! id with
  | Some r => candidate busy now ctl [] db (id, r) && bool_decide (is_Some (key_of id r db))
              && parents_free busy r db && negb (pw_cooling r) && bool_decide (wi_tenant_queue (pw_ident r) = q)
  | None => false
  end = true → servable ctl now busy q db.
Proof.
  destruct (pd_work db !! id) as [r|] eqn:Hr; [|done]. intros H. bools. exists id, r. by split_and!.
Qed.

Lemma present_check now q db id :
  match pd_work db !! id with
  | Some r => ready now r && negb (pw_cooling r) && bool_decide (wi_tenant_queue (pw_ident r) = q)
  | None => false
  end = true → present now q db.
Proof.
  destruct (pd_work db !! id) as [r|] eqn:Hr; [|done]. intros H. bools. exists id, r. by split_and!.
Qed.

Lemma standing2 : standing "tenant/t1" "tenant/t2" (PState 10 db2 []).
Proof.
  split_and!; cbn [pt_db pt_now].
  - apply separate_check. vm_compute. reflexivity.
  - apply (present_check _ _ _ "w1"). vm_compute. reflexivity.
  - apply (present_check _ _ _ "w2"). vm_compute. reflexivity.
Qed.

Lemma first_turn : turns digest0 ctl0 "tenant/t1" "tenant/t2" (PState 10 db2 []) 1 0 0 0 (PState 10 reserved0.1 [(re0, "o1")]).
Proof.
  assert (served "tenant/t1" re0 = 1%nat) as H1 by (vm_compute; reflexivity).
  assert (served "tenant/t2" re0 = 0%nat) as H2 by (vm_compute; reflexivity).
  pose proof (tu_turn digest0 ctl0 "tenant/t1" "tenant/t2" (PState 10 db2 []) 0 0 0 0 10 db2 reserved0.1 [] true false nobody
    120 "o1" re0) as H. rewrite H1, H2 in H. apply H; [apply tu_start|exact standing2|lia|exact reserved0_ok|intros _|intros _].
  - apply (servable_check _ _ _ _ _ "w2"). vm_compute. reflexivity.
  - apply (servable_check _ _ _ _ _ "w1"). vm_compute. reflexivity.
Qed.

Lemma backlogged_tenants_share_turns_witness :
  turns digest0 ctl0 "tenant/t1" "tenant/t2" (PState 10 db2 []) 1 0 0 0 (PState 10 reserved0.1 [(re0, "o1")]) ∧ (1 ≤ 0 + 1 + 0)%nat.
Proof.
  split; [exact first_turn|].
  apply (backlogged_tenants_share_turns digest0 ctl0 "tenant/t1" "tenant/t2" (0%Qc) 10 db2 1 0 0 0 (PState 10 reserved0.1 [(re0, "o1")]));
    [discriminate|exact control0|vm_compute; reflexivity|vm_compute; reflexivity|exact first_turn].
Defined.
End ProviderExamples.
