(* ===== verification/Rational.v ===== *)
(** * Exact rationals for the admission control

    The rate limiter and the provider admission compute with floating-point seconds
    and tokens; the models use canonical rationals [Qc] for both, so an equality of
    two computed values is an equality of Rocq. This file holds the arithmetic the two
    components share: [qclra], which decides linear facts of [Qc] through [lra] on the
    underlying [Q], minimum and maximum, and the level of a token bucket. *)

From Stdlib Require Import QArith Qcanon Qround Lqa.
From stdpp Require Import numbers.
From S2P Require Import Prelude.
Local Open Scope Qc_scope.

(** ** Deciding linear facts *)

Lemma qc_this_add a b : Qeq (this (a + b)) (this a + this b).
Proof. apply Qred_correct. Qed.
Lemma qc_this_mul a b : Qeq (this (a * b)) (this a * this b).
Proof. apply Qred_correct. Qed.
Lemma qc_this_opp a : Qeq (this (- a)) (- this a).
Proof. apply Qred_correct. Qed.
Lemma qc_this_sub a b : Qeq (this (a - b)) (this a - this b).
Proof. unfold Qcminus. rewrite qc_this_add, qc_this_opp. reflexivity. Qed.
Lemma qc_this_lit q : Qeq (this (Q2Qc q)) q.
Proof. apply Qred_correct. Qed.
Lemma qc_this_Z z : Qeq (this (Qc_of_Z z)) (inject_Z z).
Proof. reflexivity. Qed.
Lemma Qeq_of_eq a b : a = b → Qeq a b.
Proof. intros ->. reflexivity. Qed.

Create Rewrite HintDb qc.
#[export] Hint Rewrite qc_this_add qc_this_mul qc_this_opp qc_this_sub qc_this_lit : qc.

Ltac qc_to_q :=
  repeat match goal with
  | H : @eq Qc _ _ |- _ => apply (f_equal this) in H; apply Qeq_of_eq in H
  | H : ¬ (_ <= _)%Qc |- _ => apply Qcnot_le_lt in H
  | H : ¬ (_ < _)%Qc |- _ => apply Qcnot_lt_le in H
  end;
  lazymatch goal with
  | |- @eq Qc _ _ => apply Qc_is_canon
  | |- ¬ (_ <= _)%Qc => apply Qclt_not_le
  | |- ¬ (_ < _)%Qc => apply Qcle_not_lt
  | _ => idtac
  end;
  unfold Qcle, Qclt in *; autorewrite with qc in *.

(** Linear facts; products of variables count as atoms. *)
Ltac qclra := qc_to_q; lra.

Definition Qcmin (a b : Qc) : Qc := if decide (a ≤ b) then a else b.
Definition Qcmax (a b : Qc) : Qc := if decide (a ≤ b) then b else a.

(** Case analysis on every minimum, maximum and comparison in sight. *)
Ltac qcases :=
  unfold Qcmin, Qcmax in *;
  repeat match goal with
  | |- context [decide (?a ≤ ?b)] => destruct (decide (a ≤ b))
  | H : context [decide (?a ≤ ?b)] |- _ => destruct (decide (a ≤ b))
  | |- context [decide (?a < ?b)] => destruct (decide (a < b))
  | H : context [decide (?a < ?b)] |- _ => destruct (decide (a < b))
  end.

Lemma Qcmul_mono_r (a b r : Qc) : 0 ≤ r → a ≤ b → a * r ≤ b * r.
Proof. intros Hr Hab. by apply Qcmult_le_compat_r. Qed.

Lemma Qcmul_nonneg (a r : Qc) : 0 ≤ a → 0 ≤ r → 0 ≤ a * r.
Proof. intros Ha Hr. pose proof (Qcmul_mono_r 0 a r Hr Ha). qclra. Qed.

Lemma Qcdiv_le_iff (a b r : Qc) : 0 < r → a / r ≤ b ↔ a ≤ b * r.
Proof.
  intros Hr. assert (Hne : r ≠ 0) by (intros ->; by apply Qclt_not_eq in Hr).
  assert (Ha : a / r * r = a) by (unfold Qcdiv; rewrite <- Qcmult_assoc, (Qcmult_comm (/ r)), Qcmult_inv_r; [ring|done]).
  rewrite <- Ha at 2. split; intros H.
  - apply Qcmul_mono_r; [by apply Qclt_le_weak|done].
  - by apply Qcmult_lt_0_le_reg_r with r.
Qed.

Lemma Qcdiv_pos (a r : Qc) : 0 < r → 0 < a → 0 < a / r.
Proof.
  intros Hr Ha. destruct (decide (a / r ≤ 0)) as [H|H]; [|by apply Qcnot_le_lt].
  apply Qcdiv_le_iff in H; [|done]. rewrite Qcmult_0_l in H. by apply Qcle_not_lt in H.
Qed.

(** [math.ceil] of Lua. *)
Definition Qcceil (a : Qc) : Qc := Qc_of_Z (Qceiling a).

Lemma Qcceil_ge a : a ≤ Qcceil a.
Proof. unfold Qcle, Qcceil. rewrite qc_this_Z. apply Qle_ceiling. Qed.

(** ** The level of a token bucket

    [level rate cap last tokens now] is what a refill at [now] finds in a bucket that
    held [tokens] at [last]. *)
Definition level (rate cap last tokens now : Qc) : Qc :=
  Qcmin cap (tokens + Qcmax 0 (now - last) * rate).

Section Level.
Context (rate cap : Qc) (Hrate : 0 ≤ rate).

Lemma level_le_cap last tokens now : level rate cap last tokens now ≤ cap.
Proof using. clear Hrate. unfold level. qcases; qclra. Qed.

Lemma level_now last tokens : tokens ≤ cap → level rate cap last tokens last = tokens.
Proof using. clear Hrate. intros H. unfold level. replace (last - last) with 0 by ring. qcases; qclra. Qed.

(** A refill in between is not observable. *)
Lemma level_compose last tokens t1 t2 :
  last ≤ t1 → t1 ≤ t2 →
  level rate cap t1 (level rate cap last tokens t1) t2 = level rate cap last tokens t2.
Proof using Hrate.
  intros H1 H2. unfold level.
  assert (0 ≤ (t2 - t1) * rate) by (apply Qcmul_nonneg; [qclra|done]).
  assert (0 ≤ (t1 - last) * rate) by (apply Qcmul_nonneg; [qclra|done]).
  qcases; qclra.
Qed.

Lemma level_growth last tokens t1 t2 :
  last ≤ t1 → t1 ≤ t2 →
  level rate cap last tokens t2 ≤ level rate cap last tokens t1 + (t2 - t1) * rate.
Proof using Hrate.
  intros H1 H2. unfold level.
  assert (0 ≤ (t2 - t1) * rate) by (apply Qcmul_nonneg; [qclra|done]).
  qcases; qclra.
Qed.

Lemma level_mono last tokens t1 t2 :
  last ≤ t1 → t1 ≤ t2 → level rate cap last tokens t1 ≤ level rate cap last tokens t2.
Proof using Hrate.
  intros H1 H2. unfold level.
  assert (0 ≤ (t2 - t1) * rate) by (apply Qcmul_nonneg; [qclra|done]).
  qcases; qclra.
Qed.

(** Taking [n] lowers every later level by at most [n], and not below the refill. *)
Lemma level_take last tokens n t1 t2 :
  last ≤ t1 → t1 ≤ t2 → 0 ≤ n →
  level rate cap t1 (level rate cap last tokens t1 - n) t2 ≤
    level rate cap last tokens t1 - n + (t2 - t1) * rate.
Proof using Hrate.
  intros H1 H2 Hn. unfold level.
  assert (0 ≤ (t2 - t1) * rate) by (apply Qcmul_nonneg; [qclra|done]).
  qcases; qclra.
Qed.

Lemma level_nonneg last tokens now : 0 ≤ cap → 0 ≤ tokens → 0 ≤ level rate cap last tokens now.
Proof using Hrate.
  intros Hc Ht. unfold level.
  assert (0 ≤ Qcmax 0 (now - last) * rate) by (apply Qcmul_nonneg; [qcases; qclra|done]).
  qcases; qclra.
Qed.

(** A bucket left alone for [cap / rate] seconds is full. *)
Lemma level_full last tokens now :
  last ≤ now → 0 ≤ tokens → cap ≤ (now - last) * rate → level rate cap last tokens now = cap.
Proof using. clear Hrate. intros H1 Ht Hc. unfold level. qcases; qclra. Qed.
End Level.
