(* ===== verification/RateLimiter.v ===== *)
(** * Graph rate limiter

    [src/shared/graph_rate_limiter.py]: the process-local token bucket, the
    Redis-coordinated bucket with its grant script, and the facade that promotes one to
    the other. The tasks of a worker that wait for tokens are interleaved: a round of
    [acquire] is one critical section, the sleeps are outside it. Seconds and tokens are
    exact rationals; the clocks do not run backwards. Redis keeps a key through its
    deadline. The metrics call of the facade and the script registration are not
    modelled. *)

From Stdlib Require Import QArith Qcanon Lqa.
From stdpp Require Import numbers.
From S2P Require Import Prelude.
From S2P Require Import Rational.
Local Open Scope Qc_scope.

(** ** The local bucket *)

Record bucket_cfg := BucketCfg { bc_rate : Qc; bc_capacity : Qc }.

Inductive limiter_err := BadCost | BadLimits | CoordinatorUnavailable (attempts : nat).

(** [_LocalTokenBucket.__init__]; rationals are finite. *)
Definition valid_cfg (cfg : bucket_cfg) : bool :=
  bool_decide (0 < bc_rate cfg) && bool_decide (0 < bc_capacity cfg).

(** [_validate_cost]. *)
Definition validate_cost (cost capacity : Qc) : result limiter_err unit :=
  raise_if (bool_decide (cost ≤ 0) || bool_decide (capacity < cost)) BadCost.

Record local_bucket := LocalBucket { lb_tokens : Qc; lb_last : Qc }.

Definition local_init (cfg : bucket_cfg) (now : Qc) : result limiter_err local_bucket :=
  if valid_cfg cfg then Ok (LocalBucket (bc_capacity cfg) now) else Err BadLimits.

(** One pass through the locked section of [acquire]: [None] when the tokens were
    taken, otherwise the seconds to sleep. *)
Definition local_round (cfg : bucket_cfg) (now n : Qc) (b : local_bucket) : local_bucket * option Qc :=
  let elapsed := now - lb_last b in
  let b := if decide (0 < elapsed)
           then LocalBucket (Qcmin (bc_capacity cfg) (lb_tokens b + elapsed * bc_rate cfg)) now
           else b in
  if decide (n ≤ lb_tokens b)
  then (LocalBucket (lb_tokens b - n) (lb_last b), None)
  else (b, Some ((n - lb_tokens b) / bc_rate cfg)).

(** ** Tasks that wait for the local bucket *)

Record waiter := Waiter { wt_cost : Qc; wt_waited : Qc; wt_wake : Qc }.

Record limiter := Limiter {
  lm_now : Qc;
  lm_bucket : local_bucket;
  lm_tasks : gmap string waiter;
  (** cost and time of every grant, newest first *)
  lm_log : list (Qc * Qc);
}.

(** The body of the [while True] loop for task [id], at time [now]. *)
Definition acquire_round (cfg : bucket_cfg) (id : string) (w : waiter) (now : Qc) (s : limiter) : limiter :=
  match local_round cfg now (wt_cost w) (lm_bucket s) with
  | (b, None) => Limiter now b (delete id (lm_tasks s)) ((wt_cost w, now) :: lm_log s)
  | (b, Some sleep) =>
    Limiter now b (<[id := Waiter (wt_cost w) (wt_waited w + sleep) (now + sleep)]> (lm_tasks s)) (lm_log s)
  end.

Inductive lstep (cfg : bucket_cfg) : limiter → limiter → Prop :=
  | l_arrive s id n now :
      lm_now s ≤ now → lm_tasks s !! id = None → validate_cost n (bc_capacity cfg) = Ok tt →
      lstep cfg s (Limiter now (lm_bucket s) (<[id := Waiter n 0 now]> (lm_tasks s)) (lm_log s))
  | l_round s id w now :
      lm_now s ≤ now → lm_tasks s !! id = Some w → wt_wake w ≤ now →
      lstep cfg s (acquire_round cfg id w now s)
  | l_cancel s id now :
      lm_now s ≤ now → lstep cfg s (Limiter now (lm_bucket s) (delete id (lm_tasks s)) (lm_log s)).

Definition limiter_start (b : local_bucket) (now : Qc) : limiter := Limiter now b ∅ [].

Definition granted (log : list (Qc * Qc)) : Qc := foldr Qcplus 0 (log.*1).

(** ** The Redis bucket *)

Record bucket_key := BucketKey { bk_last : Qc; bk_tokens : Qc; bk_deadline : Qc }.

Definition BUCKET_TTL : Qc := Qc_of_Z 600.

Definition live_key (now : Qc) (k : option bucket_key) : option bucket_key :=
  match k with Some k' => if decide (bk_deadline k' < now) then None else k | None => None end.

(** The script [_LUA]: the new key and the wait, 0 when the tokens were taken. *)
Definition redis_round (cfg : bucket_cfg) (now n : Qc) (k : option bucket_key) : option bucket_key * Qc :=
  let k := live_key now k in
  let last := default now (bk_last <$> k) in
  let tokens := default (bc_capacity cfg) (bk_tokens <$> k) in
  let elapsed := Qcmax 0 (now - last) in
  let tokens := Qcmin (bc_capacity cfg) (tokens + elapsed * bc_rate cfg) in
  let '(wait, tokens) :=
    if decide (tokens < n) then ((n - tokens) / bc_rate cfg, tokens) else (0, tokens - n) in
  (Some (BucketKey now tokens (now + BUCKET_TTL)), wait).

(** What one call of the script may give back: an exception (a timeout, a refused
    connection), or a number. *)
Inductive coordinator_reply := CFail | CWait (wait : Qc).

Definition COORDINATOR_ATTEMPTS : nat := 3.

(** [_RedisTokenBucket.acquire] against the replies the coordinator gives, in order;
    [None] when it is still waiting after the last of them. *)
Fixpoint redis_acquire_loop (replies : list coordinator_reply) (waited : Qc) (misses : nat)
    : option (result limiter_err Qc) :=
  match replies with
  | [] => None
  | r :: replies =>
    let failed := match r with CFail => true | CWait w => bool_decide (w < 0) end in
    if failed then
      let misses := S misses in
      if decide (COORDINATOR_ATTEMPTS ≤ misses)%nat then Some (Err (CoordinatorUnavailable misses))
      else redis_acquire_loop replies waited misses
    else
      match r with
      | CWait w => if decide (w = 0) then Some (Ok waited) else redis_acquire_loop replies (waited + w) misses
      | CFail => None
      end
  end.

Definition redis_acquire (cfg : bucket_cfg) (n : Qc) (replies : list coordinator_reply)
    : option (result limiter_err Qc) :=
  match validate_cost n (bc_capacity cfg) with
  | Err e => Some (Err e)
  | Ok _ => redis_acquire_loop replies 0 0
  end.

(** ** The facade *)

Inductive bucket_kind := LocalKind | RedisKind.

Record facade := Facade {
  fc_enabled : bool;
  fc_kind : bucket_kind;
  (** [REDIS_URL], or the enabled shared setting *)
  fc_url : option string;
}.

(** [maybe_init_redis]: [ping] is whether the new client answers. The Redis bucket is in
    place before the ping, so a failed ping raises once and leaves it in place. *)
Definition maybe_init_redis (ping : bool) (f : facade) : facade * result limiter_err unit :=
  match fc_kind f with
  | RedisKind => (f, Ok tt)
  | LocalKind =>
    match fc_url f with
    | None => (f, Ok tt)
    | Some _ =>
      let f := Facade (fc_enabled f) RedisKind (fc_url f) in
      if ping then (f, Ok tt) else (f, Err (CoordinatorUnavailable 1))
    end
  end.

(** What [acquire] consulted: nothing, the local bucket or the coordinator's replies. *)
Inductive consulted := NoBucket | LocalBucketUsed | RedisBucketUsed (r : option (result limiter_err Qc)).

Definition facade_acquire (cfg : bucket_cfg) (ping : bool) (n : Qc) (replies : list coordinator_reply)
    (f : facade) : facade * result limiter_err consulted :=
  if fc_enabled f then
    match maybe_init_redis ping f with
    | (f, Err e) => (f, Err e)
    | (f, Ok _) =>
      match fc_kind f with
      | LocalKind => (f, Ok LocalBucketUsed)
      | RedisKind => (f, Ok (RedisBucketUsed (redis_acquire cfg n replies)))
      end
    end
  else (f, Ok NoBucket).

(** ** The local bucket: invariant and levels *)

Definition bucket_ok (cfg : bucket_cfg) (now : Qc) (b : local_bucket) : Prop :=
  0 ≤ lb_tokens b ∧ lb_tokens b ≤ bc_capacity cfg ∧ lb_last b ≤ now.

Definition bucket_level (cfg : bucket_cfg) (b : local_bucket) (now : Qc) : Qc :=
  level (bc_rate cfg) (bc_capacity cfg) (lb_last b) (lb_tokens b) now.

Definition limiter_ok (cfg : bucket_cfg) (s : limiter) : Prop :=
  bucket_ok cfg (lm_now s) (lm_bucket s) ∧
  map_Forall (λ _ w, 0 < wt_cost w ∧ wt_cost w ≤ bc_capacity cfg) (lm_tasks s).

Lemma valid_cfg_spec cfg : valid_cfg cfg = true ↔ 0 < bc_rate cfg ∧ 0 < bc_capacity cfg.
Proof. unfold valid_cfg. by rewrite andb_true_iff, !bool_decide_eq_true. Qed.

Lemma validate_cost_Ok n cap u : validate_cost n cap = Ok u ↔ 0 < n ∧ n ≤ cap.
Proof.
  unfold validate_cost. rewrite raise_if_Ok, orb_false_iff, !bool_decide_eq_false.
  split; intros [H1 H2]; split; qclra.
Qed.

Section Local.
Context (cfg : bucket_cfg) (Hcfg : valid_cfg cfg = true).

Lemma cfg_rate_pos : 0 < bc_rate cfg.
Proof using Hcfg. by apply valid_cfg_spec in Hcfg as [? _]. Qed.

Lemma cfg_rate_nonneg : 0 ≤ bc_rate cfg.
Proof using Hcfg. apply Qclt_le_weak, cfg_rate_pos. Qed.

Lemma cfg_cap_nonneg : 0 ≤ bc_capacity cfg.
Proof using Hcfg. apply valid_cfg_spec in Hcfg as [_ ?]. by apply Qclt_le_weak. Qed.

(** The locked section refills to the level and takes from it. *)
Lemma local_round_level now n b :
  bucket_ok cfg now b →
  local_round cfg now n b =
    let l := bucket_level cfg b now in
    if decide (n ≤ l) then (LocalBucket (l - n) now, None)
    else (LocalBucket l now, Some ((n - l) / bc_rate cfg)).
Proof using.
  clear Hcfg. destruct b as [tok last]. intros (H0 & Hcap & Hl). unfold local_round, bucket_level. simpl in *.
  destruct (decide (0 < now - last)) as [He|He]; simpl.
  - unfold level. replace (Qcmax 0 (now - last)) with (now - last) by (qcases; qclra). done.
  - assert (last = now) as -> by qclra. rewrite level_now by done. done.
Qed.

Lemma local_round_ok now n b b' r :
  bucket_ok cfg now b → 0 ≤ n → local_round cfg now n b = (b', r) → bucket_ok cfg now b' ∧ lb_last b' = now.
Proof using Hcfg.
  intros Hb Hn. rewrite local_round_level by done. cbv zeta.
  pose proof (level_le_cap (bc_rate cfg) (bc_capacity cfg) (lb_last b) (lb_tokens b) now) as Hc.
  pose proof (level_nonneg _ (bc_capacity cfg) cfg_rate_nonneg (lb_last b) (lb_tokens b) now cfg_cap_nonneg (proj1 Hb)) as Hp.
  fold (bucket_level cfg b now) in *.
  case_decide; intros [= <- <-]; (split; [|done]); repeat split; simpl; qclra.
Qed.

Lemma acquire_round_ok id w now s :
  limiter_ok cfg s → lm_now s ≤ now → lm_tasks s !! id = Some w → limiter_ok cfg (acquire_round cfg id w now s).
Proof using Hcfg.
  intros [(H0 & H1 & H2) Ht] Hnow Hw. destruct (Ht _ _ Hw) as [Hn Hle]. unfold acquire_round.
  destruct (local_round cfg now (wt_cost w) (lm_bucket s)) as [b [sl|]] eqn:Hr;
    (apply local_round_ok in Hr as [Hb _]; [|repeat split; [done|done|qclra]|qclra]); split; simpl; try done.
  - by apply map_Forall_insert_2.
  - by apply map_Forall_delete.
Qed.

Lemma lstep_ok s s' : limiter_ok cfg s → lstep cfg s s' → limiter_ok cfg s' ∧ lm_now s ≤ lm_now s'.
Proof using Hcfg.
  intros Hs Hst. destruct Hst as [s id n now Hnow _ Hv|s id w now Hnow Hw _|s id now Hnow].
  - apply validate_cost_Ok in Hv. destruct Hs as [(H0 & H1 & H2) Ht]. split; [|done].
    split; [repeat split; simpl; [done|done|qclra]|]. by apply map_Forall_insert_2.
  - split; [by apply acquire_round_ok|]. unfold acquire_round. by destruct (local_round _ _ _ _) as [? [?|]].
  - destruct Hs as [(H0 & H1 & H2) Ht]. split; [|done].
    split; [repeat split; simpl; [done|done|qclra]|]. by apply map_Forall_delete.
Qed.

(** Tokens are conserved: what was granted and what is left never exceed what was there
    plus the refill. *)
Definition accounts (s s' : limiter) : Prop :=
  ∃ new, lm_log s' = new ++ lm_log s ∧
    granted new + bucket_level cfg (lm_bucket s') (lm_now s') ≤
      bucket_level cfg (lm_bucket s) (lm_now s) + (lm_now s' - lm_now s) * bc_rate cfg.

Lemma granted_app l k : granted (l ++ k) = granted l + granted k.
Proof using.
  clear. unfold granted. rewrite fmap_app. induction (l.*1) as [|x l' IH]; simpl; [ring|]. rewrite IH. ring.
Qed.

Lemma bucket_growth now now' b :
  bucket_ok cfg now b → now ≤ now' →
  bucket_level cfg b now' ≤ bucket_level cfg b now + (now' - now) * bc_rate cfg.
Proof using Hcfg. intros (_ & _ & H) Hn. apply level_growth; [apply cfg_rate_nonneg|done|done]. Qed.

Lemma acquire_round_accounts id w now s :
  limiter_ok cfg s → lm_now s ≤ now → lm_tasks s !! id = Some w → accounts s (acquire_round cfg id w now s).
Proof using Hcfg.
  intros [Hb Ht] Hnow Hw. destruct (Ht _ _ Hw) as [Hn Hle].
  pose proof (bucket_growth _ _ _ Hb Hnow) as Hg.
  assert (Hb' : bucket_ok cfg now (lm_bucket s)) by (destruct Hb as (?&?&?); repeat split; [done|done|qclra]).
  unfold acquire_round. rewrite local_round_level by done. cbv zeta.
  set (l := bucket_level cfg (lm_bucket s) now) in *.
  assert (Hlc : l ≤ bc_capacity cfg) by apply level_le_cap.
  case_decide.
  - exists [(wt_cost w, now)]. split; [done|]. unfold bucket_level at 1. simpl.
    rewrite level_now by qclra. unfold granted. simpl. qclra.
  - exists []. split; [done|]. unfold bucket_level at 1. simpl. rewrite level_now by done.
    unfold granted. simpl. qclra.
Qed.

Lemma lstep_accounts s s' : limiter_ok cfg s → lstep cfg s s' → accounts s s'.
Proof using Hcfg.
  intros Hs Hst. destruct Hst as [s id n now Hnow _ Hv|s id w now Hnow Hw _|s id now Hnow].
  2: by apply acquire_round_accounts.
  all: exists []; split; [done|]; pose proof (bucket_growth _ _ _ (proj1 Hs) Hnow); unfold granted; simpl; qclra.
Qed.

Lemma run_accounts s s' :
  rtc (lstep cfg) s s' → limiter_ok cfg s → limiter_ok cfg s' ∧ lm_now s ≤ lm_now s' ∧ accounts s s'.
Proof using Hcfg.
  intros Hr. induction Hr as [s|s s1 s' Hst Hr IH]; intros Hs.
  - split; [done|]. split; [apply Qcle_refl|]. exists []. split; [done|]. unfold granted. simpl. qclra.
  - destruct (lstep_ok _ _ Hs Hst) as [Hs1 Hn1]. destruct (IH Hs1) as (Hs' & Hn' & new' & Hl' & Ha').
    destruct (lstep_accounts _ _ Hs Hst) as (new & Hl & Ha).
    split; [done|]. split; [qclra|]. exists (new' ++ new). split; [by rewrite Hl', Hl, app_assoc|].
    rewrite granted_app. qclra.
Qed.

Lemma start_ok now b : local_init cfg now = Ok b → limiter_ok cfg (limiter_start b now).
Proof using Hcfg.
  unfold local_init. rewrite Hcfg. intros [= <-]. pose proof cfg_cap_nonneg.
  split; [repeat split; simpl; [done|apply Qcle_refl|apply Qcle_refl]|apply map_Forall_empty].
Qed.
End Local.

(** However the tasks of a worker interleave, arrive and are cancelled, the tokens
    the local bucket grants between two moments are at most its capacity plus [rate]
    times the time between them. *)
Theorem local_rate_is_respected cfg t0 b s s' :
  valid_cfg cfg = true → local_init cfg t0 = Ok b →
  rtc (lstep cfg) (limiter_start b t0) s → rtc (lstep cfg) s s' →
  ∃ new, lm_log s' = new ++ lm_log s ∧
    granted new ≤ bc_capacity cfg + (lm_now s' - lm_now s) * bc_rate cfg.
Proof.
  intros Hc Hb H1 H2. pose proof (start_ok _ Hc _ _ Hb) as H0.
  destruct (run_accounts _ Hc _ _ H1 H0) as (Hs & _ & _).
  destruct (run_accounts _ Hc _ _ H2 Hs) as (Hs' & Hn & new & Hl & Ha).
  exists new. split; [done|].
  assert (0 ≤ bucket_level cfg (lm_bucket s') (lm_now s'))
    by (apply level_nonneg; [by apply cfg_rate_nonneg|by apply cfg_cap_nonneg|by apply Hs']).
  pose proof (level_le_cap (bc_rate cfg) (bc_capacity cfg) (lb_last (lm_bucket s)) (lb_tokens (lm_bucket s)) (lm_now s)).
  unfold bucket_level in *. qclra.
Qed.

(** ** One sleep is enough when nobody else is served *)

Section Quiet.
Context (cfg : bucket_cfg) (Hcfg : valid_cfg cfg = true).

(** Rounds that grant nothing leave every later level as it was. *)
Lemma acquire_round_quiet id w now s t :
  limiter_ok cfg s → lm_now s ≤ now → now ≤ t →
  lm_log (acquire_round cfg id w now s) = lm_log s →
  bucket_level cfg (lm_bucket (acquire_round cfg id w now s)) t = bucket_level cfg (lm_bucket s) t.
Proof using Hcfg.
  intros [(H0 & H1 & H2) _] Hnow Ht. unfold acquire_round.
  rewrite local_round_level by (repeat split; [done|done|qclra]). cbv zeta. case_decide; simpl.
  - intros Hl. apply (f_equal length) in Hl. simpl in Hl. lia.
  - intros _. unfold bucket_level; simpl. apply level_compose; [by apply cfg_rate_nonneg|qclra|done].
Qed.

Lemma log_suffix s s' :
  rtc (lstep cfg) s s' → limiter_ok cfg s → (length (lm_log s) ≤ length (lm_log s'))%nat.
Proof using Hcfg.
  intros Hr Hs. destruct (run_accounts _ Hcfg _ _ Hr Hs) as (_ & _ & new & -> & _). rewrite length_app. lia.
Qed.

Lemma quiet_level s s' t :
  rtc (lstep cfg) s s' → limiter_ok cfg s → lm_log s' = lm_log s → lm_now s' ≤ t →
  bucket_level cfg (lm_bucket s') t = bucket_level cfg (lm_bucket s) t.
Proof using Hcfg.
  intros Hr. induction Hr as [s|s s1 s' Hst Hr IH]; intros Hs Hlog Ht; [done|].
  destruct (lstep_ok _ Hcfg _ _ Hs Hst) as [Hs1 Hn1].
  destruct (run_accounts _ Hcfg _ _ Hr Hs1) as (_ & Hn' & _).
  destruct (lstep_accounts _ Hcfg _ _ Hs Hst) as (new & Hl1 & _).
  assert (new = []) as ->.
  { pose proof (log_suffix _ _ Hr Hs1) as Hle. rewrite Hlog, Hl1, length_app in Hle. destruct new; [done|simpl in Hle; lia]. }
  rewrite IH; [|done|by rewrite Hl1|done].
  destruct Hst as [s id n now Hnow _ Hv|s id w now Hnow Hw _|s id now Hnow]; [done| |done].
  apply acquire_round_quiet; [done|done| |done].
  revert Hn'. unfold acquire_round. destruct (local_round _ _ _ _) as [? [?|]]; simpl; intros; qclra.
Qed.

Lemma refused_level_at_wake n b now :
  bucket_ok cfg now b → n ≤ bc_capacity cfg → ¬ n ≤ bucket_level cfg b now →
  let l := bucket_level cfg b now in
  n ≤ bucket_level cfg (LocalBucket l now) (now + (n - l) / bc_rate cfg).
Proof using Hcfg.
  intros Hb Hn Hl l. pose proof (cfg_rate_pos _ Hcfg) as Hr.
  assert (Hd : 0 < (n - l) / bc_rate cfg) by (apply Qcdiv_pos; [done|unfold l; qclra]).
  pose proof (proj1 (Qcdiv_le_iff (n - l) ((n - l) / bc_rate cfg) _ Hr) (Qcle_refl _)) as Hm.
  unfold bucket_level, level; simpl. unfold l in *.
  set (d := (n - bucket_level cfg b now) / bc_rate cfg) in *.
  replace (Qcmax 0 (now + d - now)) with d by (qcases; qclra). qcases; qclra.
Qed.
End Quiet.

(** A task that was told to sleep is served by its next round, provided no other task
    took tokens meanwhile: polls of others, new arrivals and cancelled waiters do not
    delay it, and its reported wait is the time it slept. *)
Theorem undisturbed_wait_is_served cfg s0 id w t s1 w1 s2 t2 :
  valid_cfg cfg = true → limiter_ok cfg s0 →
  lm_now s0 ≤ t → lm_tasks s0 !! id = Some w → acquire_round cfg id w t s0 = s1 →
  lm_tasks s1 !! id = Some w1 →
  rtc (lstep cfg) s1 s2 → lm_log s2 = lm_log s1 → lm_tasks s2 !! id = Some w1 →
  lm_now s2 ≤ t2 → wt_wake w1 ≤ t2 →
  wt_waited w1 = wt_waited w + (wt_wake w1 - t) ∧
  lm_log (acquire_round cfg id w1 t2 s2) = (wt_cost w, t2) :: lm_log s2 ∧
  lm_tasks (acquire_round cfg id w1 t2 s2) !! id = None.
Proof.
  intros Hc Hs0 Ht Hw Hr Hw1 Hrun Hlog Hw2 Ht2 Hwake.
  assert (Hs1 : limiter_ok cfg s1) by (subst s1; by apply acquire_round_ok).
  destruct (run_accounts _ Hc _ _ Hrun Hs1) as (Hs2 & Hn2 & _).
  destruct (proj2 Hs0 _ _ Hw) as [_ Hcap].
  assert (Hb0 : bucket_ok cfg t (lm_bucket s0)).
  { destruct Hs0 as [(?&?&?) _]. repeat split; [done|done|qclra]. }
  revert Hr. unfold acquire_round at 1. rewrite local_round_level by done. cbv zeta.
  case_decide as Hd; intros <-; simpl in *.
  { by rewrite lookup_delete_eq in Hw1. }
  rewrite lookup_insert_eq in Hw1. injection Hw1 as <-. simpl in *.
  split; [ring|]. unfold acquire_round. rewrite local_round_level by (destruct Hs2 as [(?&?&?) _]; repeat split; [done|done|qclra]).
  cbv zeta. simpl. rewrite decide_True.
  - simpl. split; [done|by rewrite lookup_delete_eq].
  - rewrite (quiet_level _ Hc _ _ _ Hrun) by done. simpl.
    eapply Qcle_trans; [by apply (refused_level_at_wake cfg Hc _ _ _ Hb0 Hcap Hd)|].
    apply level_mono; [by apply cfg_rate_nonneg| |done]. simpl.
    pose proof (Qcdiv_pos (wt_cost w - bucket_level cfg (lm_bucket s0) t) _ (cfg_rate_pos _ Hc)). qclra.
Qed.

(** ** The Redis bucket is the local bucket *)

(** The waits a sequence of attempts is told, with the local bucket ([None] is 0) and
    with the script. *)
Fixpoint local_waits (cfg : bucket_cfg) (b : local_bucket) (attempts : list (Qc * Qc)) : list Qc :=
  match attempts with
  | [] => []
  | (now, n) :: attempts =>
    let '(b, r) := local_round cfg now n b in default 0 r :: local_waits cfg b attempts
  end.

Fixpoint redis_waits (cfg : bucket_cfg) (k : option bucket_key) (attempts : list (Qc * Qc)) : list Qc :=
  match attempts with
  | [] => []
  | (now, n) :: attempts =>
    let '(k, w) := redis_round cfg now n k in w :: redis_waits cfg k attempts
  end.

Definition in_order (t0 : Qc) (attempts : list (Qc * Qc)) : Prop :=
  Sorted Qcle (t0 :: attempts.*1) ∧ Forall (λ a, 0 ≤ a.2) attempts.

Section Agree.
Context (cfg : bucket_cfg) (Hcfg : valid_cfg cfg = true).
Context (Httl : bc_capacity cfg ≤ BUCKET_TTL * bc_rate cfg).

(** A key stands for a bucket: the same last round and the same tokens, or no key yet
    and a full bucket. *)
Definition stands_for (k : option bucket_key) (b : local_bucket) : Prop :=
  match k with
  | None => lb_tokens b = bc_capacity cfg
  | Some k => bk_last k = lb_last b ∧ bk_tokens k = lb_tokens b ∧ bk_deadline k = lb_last b + BUCKET_TTL
  end.

Lemma redis_level k b now :
  bucket_ok cfg now b → stands_for k b →
  let k' := live_key now k in
  level (bc_rate cfg) (bc_capacity cfg) (default now (bk_last <$> k')) (default (bc_capacity cfg) (bk_tokens <$> k')) now
    = bucket_level cfg b now.
Proof using Hcfg Httl.
  intros Hok Hs k'. pose proof (cfg_rate_nonneg _ Hcfg) as Hr. destruct Hok as (H0 & Hc & Hl).
  assert (Hfull : lb_tokens b = bc_capacity cfg →
    level (bc_rate cfg) (bc_capacity cfg) now (bc_capacity cfg) now = bucket_level cfg b now).
  { intros Hf. rewrite level_now by apply Qcle_refl. unfold bucket_level, level. rewrite Hf.
    assert (0 ≤ Qcmax 0 (now - lb_last b) * bc_rate cfg) by (apply Qcmul_nonneg; [qcases; qclra|done]).
    qcases; qclra. }
  unfold k', live_key. destruct k as [k|]; simpl in *; [|by apply Hfull].
  destruct Hs as (Ha & Hb & Hd). case_decide as Hdead; simpl; [|by rewrite Ha, Hb].
  rewrite level_now by apply Qcle_refl. symmetry. apply level_full; [done|done|].
  eapply Qcle_trans; [exact Httl|]. apply Qcmul_mono_r; [done|]. rewrite Hd in Hdead. qclra.
Qed.

Lemma redis_round_agrees k b now n :
  bucket_ok cfg now b → stands_for k b → 0 ≤ n →
  ∃ k' b' w r, redis_round cfg now n k = (k', w) ∧ local_round cfg now n b = (b', r) ∧
    w = default 0 r ∧ stands_for k' b'.
Proof using Hcfg Httl.
  intros Hok Hs Hn. rewrite (local_round_level _ _ _ _ Hok). pose proof (redis_level _ _ _ Hok Hs) as Hl.
  unfold redis_round. cbv zeta in *. fold (level (bc_rate cfg) (bc_capacity cfg) (default now (bk_last <$> live_key now k))
    (default (bc_capacity cfg) (bk_tokens <$> live_key now k)) now). rewrite Hl.
  set (l := bucket_level cfg b now). destruct (decide (l < n)) as [Hd|Hd].
  - rewrite decide_False by qclra. do 4 eexists. split; [done|]. split; [done|]. split; [done|].
    split; [done|]. split; done.
  - rewrite decide_True by qclra. do 4 eexists. split; [done|]. split; [done|]. split; [done|].
    split; [done|]. split; done.
Qed.

Lemma redis_waits_agree attempts k b t0 :
  bucket_ok cfg t0 b → stands_for k b → in_order t0 attempts →
  redis_waits cfg k attempts = local_waits cfg b attempts.
Proof using Hcfg Httl.
  revert k b t0. induction attempts as [|[now n] attempts IH]; intros k b t0 Hok Hs [Hso Hpos]; [done|].
  simpl. rewrite fmap_cons in Hso. apply Sorted_inv in Hso as [Hso Hh]. apply HdRel_inv in Hh.
  apply Forall_cons in Hpos as [Hn Hpos]. simpl in *.
  assert (Hok' : bucket_ok cfg now b) by (destruct Hok as (?&?&?); repeat split; [done|done|qclra]).
  destruct (redis_round_agrees k b now n Hok' Hs Hn) as (k' & b' & w & r & -> & Hl & -> & Hs').
  rewrite Hl. f_equal. destruct (local_round_ok _ Hcfg _ _ _ _ _ Hok' Hn Hl) as [Hb' _].
  by apply (IH k' b' now).
Qed.
End Agree.

(** When the capacity refills within the 600 seconds a key is kept, the Redis bucket
    answers every sequence of attempts exactly as a process-local bucket does: expiry of
    the key hands out nothing extra. *)
Theorem redis_bucket_is_the_local_bucket cfg t0 b attempts :
  valid_cfg cfg = true → bc_capacity cfg ≤ BUCKET_TTL * bc_rate cfg →
  local_init cfg t0 = Ok b → in_order t0 attempts →
  redis_waits cfg None attempts = local_waits cfg b attempts.
Proof.
  intros Hc Ht Hb Ho. pose proof (start_ok _ Hc _ _ Hb) as [Hok _]. simpl in Hok.
  apply (redis_waits_agree _ Hc Ht _ _ _ t0 Hok); [|done].
  unfold local_init in Hb. rewrite Hc in Hb. by injection Hb as <-.
Qed.

(** ** Outages of the coordinator *)

Definition reply_failed (r : coordinator_reply) : bool :=
  match r with CFail => true | CWait w => bool_decide (w < 0) end.

Definition failures (replies : list coordinator_reply) : nat := length (filter (λ r, reply_failed r = true) replies).

(** The seconds slept on refusals. *)
Definition slept (replies : list coordinator_reply) : Qc :=
  foldr (λ r acc, match r with CWait w => if reply_failed r then acc else w + acc | CFail => acc end) 0 replies.

Lemma failures_cons r replies :
  failures (r :: replies) = (if reply_failed r then S (failures replies) else failures replies).
Proof. unfold failures. rewrite filter_cons. by destruct (reply_failed r). Qed.

Lemma slept_cons w replies :
  reply_failed (CWait w) = false → slept (CWait w :: replies) = w + slept replies.
Proof. intros H. unfold slept. cbn [foldr]. by rewrite H. Qed.

Lemma slept_failed r replies : reply_failed r = true → slept (r :: replies) = slept replies.
Proof. intros H. unfold slept. cbn [foldr]. destruct r; [done|]. by rewrite H. Qed.

Lemma redis_acquire_granted replies waited misses total :
  (misses < COORDINATOR_ATTEMPTS)%nat →
  redis_acquire_loop replies waited misses = Some (Ok total) ↔
  ∃ pre post, replies = pre ++ CWait 0 :: post ∧ (CWait 0 ∉ pre) ∧
    (misses + failures pre < COORDINATOR_ATTEMPTS)%nat ∧ total = waited + slept pre.
Proof.
  revert waited misses. induction replies as [|r replies IH]; intros waited misses Hm.
  { split; [done|]. intros (pre & post & Hl & _). by destruct pre. }
  cbn [redis_acquire_loop]. fold (reply_failed r). destruct (reply_failed r) eqn:Hf.
  - case_decide as Hd.
    + split; [done|]. intros (pre & post & Hl & Hni & Hlt & _). destruct pre as [|r' pre]; injection Hl as -> ->.
      * done.
      * rewrite failures_cons, Hf in Hlt. lia.
    + rewrite IH by lia. split.
      * intros (pre & post & -> & Hni & Hlt & ->). exists (r :: pre), post. split; [done|]. split.
        { intros [<-|]%elem_of_cons; [done|done]. }
        rewrite failures_cons, Hf, slept_failed by done. split; [lia|done].
      * intros (pre & post & Hl & Hni & Hlt & ->). destruct pre as [|r' pre]; injection Hl as -> ->; [done|].
        exists pre, post. rewrite failures_cons, Hf in Hlt. rewrite slept_failed by done.
        split; [done|]. split; [by intros ?; apply Hni; right|]. split; [lia|done].
  - destruct r as [|w]; [done|]. destruct (decide (w = 0)) as [->|Hw].
    + split.
      * intros [= <-]. exists [], replies. split; [done|]. split; [by apply not_elem_of_nil|].
        split; [unfold failures; simpl; lia|]. unfold slept; simpl; ring.
      * intros (pre & post & Hl & Hni & Hlt & ->). destruct pre as [|r' pre]; injection Hl; intros.
        { do 2 f_equal. unfold slept; simpl; ring. }
        subst r'. destruct Hni. left.
    + rewrite IH by done. split.
      * intros (pre & post & -> & Hni & Hlt & ->). exists (CWait w :: pre), post. split; [done|]. split.
        { intros [[= <-]|]%elem_of_cons; done. }
        rewrite failures_cons, Hf, slept_cons by done. split; [done|ring].
      * intros (pre & post & Hl & Hni & Hlt & ->). destruct pre as [|r' pre]; injection Hl; [done|].
        intros -> <-. exists pre, post. rewrite failures_cons, Hf in Hlt. rewrite slept_cons by done.
        split; [done|]. split; [by intros ?; apply Hni; right|]. split; [done|ring].
Qed.

(** Facades a configured process can reach. *)
Definition redis_configured (f : facade) : Prop := is_Some (fc_url f) ∨ fc_kind f = RedisKind.

(** With a coordinator configured, an outage never falls back to the local bucket: a
    call either raises or returns because the coordinator itself answered 0, after fewer
    than three failures in all, and it reports the seconds it slept on refusals. *)
Theorem coordinator_outage_fails_closed cfg ping n replies f f' r :
  fc_enabled f = true → redis_configured f → facade_acquire cfg ping n replies f = (f', r) →
  fc_kind f' = RedisKind ∧
  match r with
  | Err e => e = CoordinatorUnavailable 1 ∧ ping = false
  | Ok (RedisBucketUsed (Some (Ok waited))) =>
      (0 < n ∧ n ≤ bc_capacity cfg) ∧
      ∃ pre post, replies = pre ++ CWait 0 :: post ∧ (failures pre < COORDINATOR_ATTEMPTS)%nat ∧ waited = slept pre
  | Ok (RedisBucketUsed _) => True
  | Ok _ => False
  end.
Proof.
  intros He Hc. unfold facade_acquire. rewrite He. unfold maybe_init_redis.
  assert (Hans : ∀ waited, redis_acquire cfg n replies = Some (Ok waited) → (0 < n ∧ n ≤ bc_capacity cfg) ∧
    ∃ pre post, replies = pre ++ CWait 0 :: post ∧ (failures pre < COORDINATOR_ATTEMPTS)%nat ∧ waited = slept pre).
  { unfold redis_acquire. destruct (validate_cost n (bc_capacity cfg)) as [[]|] eqn:Hv; [|done].
    intros waited. rewrite redis_acquire_granted by (unfold COORDINATOR_ATTEMPTS; lia).
    intros (pre & post & Hl & _ & Hlt & ->). split; [by apply validate_cost_Ok in Hv|].
    exists pre, post. split; [done|]. split; [done|ring]. }
  destruct (fc_kind f) eqn:Hk.
  - destruct Hc as [[u Hu]|Hu]; [|congruence]. rewrite Hu. destruct ping; simpl; intros [= <- <-]; [|done].
    split; [done|]. destruct (redis_acquire cfg n replies) as [[waited|]|]; [by apply Hans|done|done].
  - simpl. rewrite Hk. intros [= <- <-]. split; [done|].
    destruct (redis_acquire cfg n replies) as [[waited|]|]; [by apply Hans|done|done].
Qed.

(** ** Witnesses *)

Module LimiterExamples.

Definition cfg : bucket_cfg := BucketCfg 1 2.
Definition full : local_bucket := LocalBucket 2 0.
Definition q (n : Z) : Qc := Qc_of_Z n.

(** Two tasks arrive at once; the first takes the burst, the second sleeps a second. *)
Definition s0 : limiter := limiter_start full 0.
Definition s1 : limiter := Limiter 0 full {["a" := Waiter 2 0 0]} [].
Definition s2 : limiter := acquire_round cfg "a" (Waiter 2 0 0) 0 s1.
Definition s3 : limiter := Limiter 0 (lm_bucket s2) (<["b" := Waiter 1 0 0]> (lm_tasks s2)) (lm_log s2).
Definition s4 : limiter := acquire_round cfg "b" (Waiter 1 0 0) 0 s3.
Definition s5 : limiter := acquire_round cfg "b" (Waiter 1 1 1) 1 s4.

Lemma steps_12 : rtc (lstep cfg) s0 s2.
Proof.
  eapply rtc_l; [apply (l_arrive cfg s0 "a" 2 0); [by vm_compute|done|by vm_compute]|].
  eapply rtc_l; [apply (l_round cfg _ "a" (Waiter 2 0 0) 0); [by vm_compute|done|by vm_compute]|].
  reflexivity.
Qed.

Lemma steps_25 : rtc (lstep cfg) s2 s5.
Proof.
  eapply rtc_l; [apply (l_arrive cfg s2 "b" 1 0); [by vm_compute|by vm_compute|by vm_compute]|].
  eapply rtc_l; [apply (l_round cfg _ "b" (Waiter 1 0 0) 0); [by vm_compute|by vm_compute|by vm_compute]|].
  eapply rtc_l; [apply (l_round cfg _ "b" (Waiter 1 1 1) 1); [by vm_compute|by vm_compute|by vm_compute]|].
  reflexivity.
Qed.

Lemma local_rate_is_respected_witness :
  ∃ new, lm_log s5 = new ++ lm_log s2 ∧ granted new ≤ 2 + (lm_now s5 - lm_now s2) * 1.
Proof. apply (local_rate_is_respected cfg 0 full s2 s5); [by vm_compute|by vm_compute|apply steps_12|apply steps_25]. Defined.

Lemma s3_ok : limiter_ok cfg s3.
Proof.
  split; [repeat split; by vm_compute|].
  apply map_Forall_insert_2; [split; by vm_compute|].
  replace (lm_tasks s2) with (∅ : gmap string waiter) by (by vm_compute). apply map_Forall_empty.
Qed.

Lemma undisturbed_wait_is_served_witness :
  wt_waited (Waiter 1 1 1) = 0 + (1 - 0) ∧
  lm_log (acquire_round cfg "b" (Waiter 1 1 1) 1 s4) = (1, 1) :: lm_log s4 ∧
  lm_tasks (acquire_round cfg "b" (Waiter 1 1 1) 1 s4) !! "b" = None.
Proof.
  apply (undisturbed_wait_is_served cfg s3 "b" (Waiter 1 0 0) 0 s4 (Waiter 1 1 1) s4 1).
  all: first [apply s3_ok|reflexivity|by vm_compute].
Defined.

(** Four attempts, the last one after the key has expired. *)
Definition attempts : list (Qc * Qc) := [(q 1, q 2); (q 1, q 2); (q 3, q 1); (q 900, q 2)].

Lemma redis_bucket_is_the_local_bucket_witness :
  redis_waits cfg None attempts = local_waits cfg full attempts.
Proof.
  apply (redis_bucket_is_the_local_bucket cfg 0 full attempts); [by vm_compute|by vm_compute|by vm_compute|].
  split.
  - unfold attempts. repeat first [apply Sorted_nil|apply HdRel_nil|apply Sorted_cons|apply HdRel_cons]; by vm_compute.
  - unfold attempts. repeat first [apply Forall_nil_2|apply Forall_cons_2]; by vm_compute.
Defined.

Example attempts_waits : map this (redis_waits cfg None attempts) = map inject_Z [0; 2; 0; 0]%Z.
Proof. by vm_compute. Qed.

Lemma coordinator_outage_fails_closed_witness :
  fc_kind (Facade true RedisKind (Some "redis")) = RedisKind ∧ (0 < q 1 ∧ q 1 ≤ 2) ∧
  ∃ pre post, [CFail; CWait (q 3); CFail; CWait 0] = pre ++ CWait 0 :: post ∧
    (failures pre < COORDINATOR_ATTEMPTS)%nat ∧ 0 + q 3 = slept pre.
Proof.
  apply (coordinator_outage_fails_closed cfg true (q 1) [CFail; CWait (q 3); CFail; CWait 0]
    (Facade true LocalKind (Some "redis")) _ (Ok (RedisBucketUsed (Some (Ok (0 + q 3))))));
    [done|left; by eexists|by vm_compute].
Defined.

End LimiterExamples.
