(* ===== verification/Admission.v ===== *)
(** * Scoped provider admission

    [src/shared/provider_admission.py]: the coordinator that admits one transmission to
    the provider. Its state is a set of Redis keys; each of the four Lua scripts is one
    atomic step at the server's time. The Python side builds the keys and the costs of a
    batch ([admit_many]) and decides after each poll whether to transmit, poll again or
    hand the request back.

    Seconds and tokens are exact rationals (the scripts use doubles, and [cjson] rounds
    the times it stores to 14 digits). A key is gone once the server's time has passed
    its deadline. [ZREMRANGEBYSCORE] on the slots of other waiters, inside [eligible],
    removes members no reader counts; it is the restriction to live members in
    [slot_free]. The wake-up stream only decides how soon a waiter polls again and is
    not modelled, nor are the log lines. *)

From Stdlib Require Import Strings.Ascii QArith Qcanon Lqa.
From stdpp Require Import numbers.
From S2P Require Import Prelude.
From S2P Require Import Rational.
Local Open Scope Qc_scope.

(** ** Coordinator state *)

(** A rate and cooldown bucket. *)
Record bucket_hash := BucketHash {
  bh_last : option Qc;
  bh_tokens : option Qc;
  bh_until : option Qc;
  bh_deadline : option Qc;
}.

Record zset := ZSet { zs_members : gmap string Qc; zs_deadline : option Qc }.

(** One bucket of a request: its key and the triple of [bucket_specs]. *)
Record bucket_req := BucketReq { br_key : string; br_rate : Qc; br_cap : Qc; br_cost : Qc }.

(** A waiter of the fair queue. *)
Record entry := Entry {
  en_group : string;
  en_weight : Z;
  en_born : Qc;
  en_seq : Z;
  en_buckets : list bucket_req;
  en_slots : list (string * Z);
}.

Record fair_clock := FairClock { fc_seq : Z; fc_floor : option Qc; fc_deadline : option Qc }.

Record coord := Coord {
  co_buckets : gmap string bucket_hash;
  co_slots : gmap string zset;
  co_cancelled : zset;
  co_pending : gmap string entry;
  co_pending_deadline : option Qc;
  co_expiry : zset;
  co_clock : fair_clock;
  (** virtual finish time and deadline of a flow *)
  co_flows : gmap string (Qc * Qc);
}.

Definition no_bucket : bucket_hash := BucketHash None None None None.
Definition no_zset : zset := ZSet ∅ None.
Definition no_clock : fair_clock := FairClock 0 None None.
Definition empty_coord : coord := Coord ∅ ∅ no_zset ∅ None no_zset no_clock ∅.

Definition bucket_at (c : coord) (k : string) : bucket_hash := default no_bucket (co_buckets c !! k).
Definition slot_at (c : coord) (k : string) : zset := default no_zset (co_slots c !! k).

(** ** Key expiry *)

Definition expired (now : Qc) (deadline : option Qc) : bool :=
  match deadline with Some d => bool_decide (d < now) | None => false end.

Definition expire_zset (now : Qc) (z : zset) : zset := if expired now (zs_deadline z) then no_zset else z.

(** Redis drops the keys whose deadline has passed before a script sees them. *)
Definition expire_keys (now : Qc) (c : coord) : coord :=
  Coord (filter (λ kb, expired now (bh_deadline kb.2) = false) (co_buckets c))
        (filter (λ kz, expired now (zs_deadline kz.2) = false) (co_slots c))
        (expire_zset now (co_cancelled c))
        (if expired now (co_pending_deadline c) then ∅ else co_pending c)
        (co_pending_deadline c)
        (expire_zset now (co_expiry c))
        (if expired now (fc_deadline (co_clock c)) then no_clock else co_clock c)
        (filter (λ kf, expired now (Some kf.2.2) = false) (co_flows c)).

Definition seconds (n : Z) : Qc := Qc_of_Z n.

(** ** Sorted sets *)

(** [ZREMRANGEBYSCORE key -inf now]. *)
Definition zpurge (now : Qc) (z : zset) : zset :=
  ZSet (filter (λ ms, now < ms.2) (zs_members z)) (zs_deadline z).

(** [ZADD] followed by [EXPIRE]. *)
Definition zadd (m : string) (score : Qc) (deadline : Qc) (z : zset) : zset :=
  ZSet (<[m := score]> (zs_members z)) (Some deadline).

Definition zrem (m : string) (z : zset) : zset := ZSet (delete m (zs_members z)) (zs_deadline z).

Definition zcard (z : zset) : Z := Z.of_nat (size (zs_members z)).

(** The lowest score. *)
Definition zfirst (z : zset) : option Qc :=
  match (map_to_list (zs_members z)).*2 with
  | [] => None
  | s :: ss => Some (foldr Qcmin s ss)
  end.

(** ** The grant script *)

Inductive wait_reason := NoReason | Cooldown | Rate | Concurrency.

Inductive reply :=
  | RCancelled
  | RWait (delay : Qc) (reason : wait_reason) (denied : Z)
  | RGranted.

(** The locals [wait], [reason] and [denied]. *)
Record scan := Scan { sc_wait : Qc; sc_reason : wait_reason; sc_denied : Z }.

Definition longer (w : Qc) (r : wait_reason) (d : Z) (sc : scan) : scan :=
  if decide (sc_wait sc < w) then Scan w r d else sc.

(** [balance] of a bucket at [now]. *)
Definition balance (now : Qc) (h : bucket_hash) (q : bucket_req) : Qc :=
  level (br_rate q) (br_cap q) (default now (bh_last h)) (default (br_cap q) (bh_tokens h)) now.

Definition until_of (h : bucket_hash) : Qc := default 0 (bh_until h).

Definition touch (now : Qc) (q : bucket_req) (h : bucket_hash) : bucket_hash :=
  BucketHash (Some now) (Some (balance now h q)) (bh_until h)
    (Some (now + Qcceil (Qcmax (seconds 600) (until_of h - now + seconds 600)))).

Definition scan_bucket (now : Qc) (i : Z) (h : bucket_hash) (q : bucket_req) (sc : scan) : scan :=
  longer (Qcmax 0 (br_cost q - balance now h q) / br_rate q) Rate i
    (longer (until_of h - now) Cooldown i sc).

(** The loop over [spec]: the buckets, the locals and [values]. *)
Fixpoint scan_buckets (now : Qc) (i : Z) (qs : list bucket_req) (bs : gmap string bucket_hash) (sc : scan)
    : gmap string bucket_hash * scan * list Qc :=
  match qs with
  | [] => (bs, sc, [])
  | q :: qs =>
    let h := default no_bucket (bs !! br_key q) in
    let '(bs', sc', vs) :=
      scan_buckets now (i + 1) qs (<[br_key q := touch now q h]> bs) (scan_bucket now i h q sc) in
    (bs', sc', balance now h q :: vs)
  end.

(** The loop over [slots]. *)
Fixpoint scan_slots (now : Qc) (i : Z) (ss : list (string * Z)) (zs : gmap string zset) (sc : scan)
    : gmap string zset * scan :=
  match ss with
  | [] => (zs, sc)
  | (k, limit) :: ss =>
    let z := zpurge now (default no_zset (zs !! k)) in
    let sc :=
      if decide (limit ≤ zcard z)%Z then
        let slot_wait := Qcmin (Q2Qc (1 # 2)) (Qcmax (Q2Qc (1 # 100)) (default now (zfirst z) - now)) in
        longer slot_wait Concurrency (- i) sc
      else sc in
    scan_slots now (i + 1) ss (<[k := z]> zs) sc
  end.

(** [eligible]. *)
Definition bucket_free (now : Qc) (c : coord) (q : bucket_req) : bool :=
  bool_decide (until_of (bucket_at c (br_key q)) ≤ now) &&
  bool_decide (br_cost q ≤ balance now (bucket_at c (br_key q)) q).

Definition slot_free (now : Qc) (c : coord) (s : string * Z) : bool :=
  bool_decide (zcard (zpurge now (slot_at c s.1)) < s.2)%Z.

Definition eligible (now : Qc) (c : coord) (e : entry) : bool :=
  forallb (bucket_free now c) (en_buckets e) && forallb (slot_free now c) (en_slots e).

(** The locals [winner], [chosen], [score] and [aged]. *)
Record champion := Champion { ch_token : string; ch_entry : entry; ch_score : Qc; ch_aged : bool }.

Definition AGED_AFTER : Qc := seconds 5.

(** The condition under which a candidate replaces the champion. *)
Definition beats (old : bool) (finish : Qc) (e : entry) (ch : champion) : bool :=
  (old && negb (ch_aged ch)) ||
  (Bool.eqb old (ch_aged ch) &&
    ((old && (en_seq e <? en_seq (ch_entry ch))%Z) ||
     (negb old && (bool_decide (finish < ch_score ch) ||
       (bool_decide (finish = ch_score ch) && (en_seq e <? en_seq (ch_entry ch))%Z))))).

Definition finish_of (c : coord) (e : entry) : Qc :=
  let floor := default 0 (fc_floor (co_clock c)) in
  Qcmax floor (default floor (fst <$> co_flows c !! en_group e)).

Definition is_old (now : Qc) (e : entry) : bool := bool_decide (AGED_AFTER ≤ now - en_born e).

Definition consider (now : Qc) (c : coord) (te : string * entry) (best : option champion) : option champion :=
  let '(t, e) := te in
  if eligible now c e then
    let ch := Champion t e (finish_of c e) (is_old now e) in
    match best with
    | None => Some ch
    | Some b => if beats (ch_aged ch) (ch_score ch) e b then Some ch else Some b
    end
  else best.

Definition elect (now : Qc) (c : coord) : option champion :=
  fold_left (λ best te, consider now c te best) (map_to_list (co_pending c)) None.

(** What a client asks for: the keys and arguments of the script. *)
Record plan := Plan {
  pl_buckets : list bucket_req;
  pl_slots : list (string * Z);
  pl_group : string;
  pl_weight : Z;
  pl_charge : Qc;
}.

Definition PENDING_MAX : Z := 512.

(** Cancelled tokens and expired waiters are dropped first. *)
Definition prune (now : Qc) (c : coord) : coord :=
  let c := expire_keys now c in
  Coord (co_buckets c) (co_slots c) (zpurge now (co_cancelled c)) (co_pending c) (co_pending_deadline c)
        (co_expiry c) (co_clock c) (co_flows c).

Definition lapsed (now : Qc) (token : string) (z : zset) : bool :=
  match zs_members z !! token with Some s => bool_decide (s ≤ now) | None => false end.

Definition drop_waiters (now : Qc) (c : coord) : coord :=
  Coord (co_buckets c) (co_slots c) (co_cancelled c)
        (filter (λ te, lapsed now te.1 (co_expiry c) = false) (co_pending c))
        (co_pending_deadline c) (zpurge now (co_expiry c)) (co_clock c) (co_flows c).

(** The waiter's entry, registered at its first poll. *)
Definition enqueue (now : Qc) (token : string) (p : plan) (c : coord) : coord * entry :=
  match co_pending c !! token with
  | Some e => (c, e)
  | None =>
    let seq := (fc_seq (co_clock c) + 1)%Z in
    let e := Entry (pl_group p) (pl_weight p) now seq (pl_buckets p) (pl_slots p) in
    (Coord (co_buckets c) (co_slots c) (co_cancelled c) (<[token := e]> (co_pending c)) (co_pending_deadline c)
           (co_expiry c) (FairClock seq (fc_floor (co_clock c)) (fc_deadline (co_clock c))) (co_flows c), e)
  end.

(** The waiter's sign of life and the deadlines of the queue's keys. *)
Definition heartbeat (now : Qc) (token : string) (c : coord) : coord :=
  Coord (co_buckets c) (co_slots c) (co_cancelled c) (co_pending c) (Some (now + seconds 60))
        (zadd token (now + seconds 30) (now + seconds 60) (co_expiry c))
        (FairClock (fc_seq (co_clock c)) (fc_floor (co_clock c)) (Some (now + seconds 600))) (co_flows c).

Definition spend (q : bucket_req) (v : Qc) (bs : gmap string bucket_hash) : gmap string bucket_hash :=
  let h := default no_bucket (bs !! br_key q) in
  <[br_key q := BucketHash (bh_last h) (Some (v - br_cost q)) (bh_until h) (bh_deadline h)]> bs.

Definition hold (now lease : Qc) (token : string) (k : string) (zs : gmap string zset) : gmap string zset :=
  <[k := zadd token (now + lease) (now + Qcceil (lease + seconds 60)) (default no_zset (zs !! k))]> zs.

Definition commit (now lease : Qc) (token : string) (p : plan) (e : entry) (vs : list Qc) (score : Qc) (c : coord) : coord :=
  Coord (foldr (λ qv bs, spend qv.1 qv.2 bs) (co_buckets c) (zip (pl_buckets p) vs))
        (foldr (λ s zs, hold now lease token s.1 zs) (co_slots c) (pl_slots p))
        (co_cancelled c) (delete token (co_pending c)) (co_pending_deadline c) (zrem token (co_expiry c))
        (FairClock (fc_seq (co_clock c)) (Some score) (fc_deadline (co_clock c)))
        (<[en_group e := (score + pl_charge p / Qc_of_Z (en_weight e), now + seconds 600)]> (co_flows c)).

(** [_GRANT]. *)
Definition grant (now lease : Qc) (token : string) (p : plan) (c : coord) : coord * reply :=
  let c := prune now c in
  if decide (is_Some (zs_members (co_cancelled c) !! token)) then (c, RCancelled)
  else
    let c := drop_waiters now c in
    if decide (co_pending c !! token = None ∧ (PENDING_MAX ≤ Z.of_nat (size (co_pending c)))%Z)
    then (c, RWait (Q2Qc (1 # 2)) Concurrency (-1))
    else
      let '(c, e) := enqueue now token p c in
      let c := heartbeat now token c in
      let '(bs, sc, vs) := scan_buckets now 1 (pl_buckets p) (co_buckets c) (Scan 0 NoReason 0) in
      let '(zs, sc) := scan_slots now 1 (pl_slots p) (co_slots c) sc in
      let c := Coord bs zs (co_cancelled c) (co_pending c) (co_pending_deadline c) (co_expiry c) (co_clock c) (co_flows c) in
      if decide (0 < sc_wait sc) then (c, RWait (sc_wait sc) (sc_reason sc) (sc_denied sc))
      else
        match elect now c with
        | Some ch =>
          if decide (ch_token ch = token) then (commit now lease token p e vs (ch_score ch) c, RGranted)
          else (c, RWait (Q2Qc (5 # 100)) Concurrency (-1))
        | None => (c, RWait (Q2Qc (5 # 100)) Concurrency (-1))
        end.

(** ** The other scripts *)

(** [_RELEASE]. *)
Definition release (now lease : Qc) (token : string) (keys : list string) (c : coord) : coord :=
  let c := expire_keys now c in
  Coord (co_buckets c)
        (foldr (λ k zs, alter (zrem token) k zs) (co_slots c) keys)
        (zadd token (now + lease + seconds 60) (now + Qcceil (lease + seconds 120)) (co_cancelled c))
        (delete token (co_pending c)) (co_pending_deadline c) (zrem token (co_expiry c)) (co_clock c) (co_flows c).

Definition still_held (now : Qc) (token : string) (c : coord) (k : string) : bool :=
  match zs_members (slot_at c k) !! token with Some s => bool_decide (now < s) | None => false end.

(** [_RENEW]: all the slots or none. *)
Definition renew (now lease : Qc) (token : string) (keys : list string) (c : coord) : coord * bool :=
  let c := expire_keys now c in
  if forallb (still_held now token c) keys
  then (Coord (co_buckets c) (foldr (λ k zs, hold now lease token k zs) (co_slots c) keys)
              (co_cancelled c) (co_pending c) (co_pending_deadline c) (co_expiry c) (co_clock c) (co_flows c), true)
  else (c, false).

(** [_COOLDOWN]. *)
Definition cooldown (now secs : Qc) (key : string) (c : coord) : coord :=
  let c := expire_keys now c in
  let h := bucket_at c key in
  let u := Qcmax (until_of h) (now + secs) in
  Coord (<[key := BucketHash (bh_last h) (bh_tokens h) (Some u) (Some (now + Qcceil (u - now + seconds 600)))]> (co_buckets c))
        (co_slots c) (co_cancelled c) (co_pending c) (co_pending_deadline c) (co_expiry c) (co_clock c) (co_flows c).

(** ** Request contexts and limits *)

Record context := Context {
  cx_tenant : string;
  cx_app : string;
  cx_workload : string;
  cx_resource : option string;
  cx_cloud : string;
  cx_paced : bool;
}.

(** [str.partition(':')]: the text before and after the first colon. *)
Fixpoint before_colon (s : string) : string :=
  match s with
  | String c s => if decide (c = ":"%char) then "" else String c (before_colon s)
  | EmptyString => ""
  end.

Fixpoint after_colon (s : string) : string :=
  match s with
  | String c s => if decide (c = ":"%char) then s else after_colon s
  | EmptyString => ""
  end.

(** [if context.resource]: an empty resource counts as none. *)
Definition resource_of (cx : context) : option string :=
  match cx_resource cx with Some r => if decide (r = "") then None else Some r | None => None end.

(** [ProviderRequestContext.__post_init__]. *)
Definition valid_name (s : string) : bool := negb (bool_decide (s = "")) && (String.length s <=? 1024)%nat.

Definition valid_context (cx : context) : bool :=
  forallb valid_name [cx_tenant cx; cx_app cx; cx_workload cx; cx_cloud cx] &&
  match cx_resource cx with Some r => (String.length r <=? 4096)%nat | None => true end &&
  negb (cx_paced cx &&
    (negb (bool_decide (cx_workload cx = "teams")) ||
     match resource_of cx with
     | None => true
     | Some r => negb (bool_decide (before_colon r ∈ ["chat"; "user_chats"])) || bool_decide (after_colon r = "")
     end)).

Record limits := Limits {
  li_rate : Qc;
  li_burst : Qc;
  li_global : Z;
  li_tenant : Z;
  li_resource : Z;
  li_lease : Qc;
}.

(** [AdmissionLimits.__post_init__]. *)
Definition valid_limits (li : limits) : bool :=
  bool_decide (0 < li_rate li) && bool_decide (0 < li_burst li) && bool_decide (0 < li_lease li) &&
  (1 <=? li_global li)%Z && (1 <=? li_tenant li)%Z && (1 <=? li_resource li)%Z.

(** ** Keys and plans

    [hash] is the hexadecimal SHA-256 of the JSON of its arguments; the flow's weight is
    passed as its decimal text. *)
Section Keys.
Context (hash : list string → string) (namespace : string) (li : limits).

Definition prefix : string := "provider:{" +:+ String.substring 0 16 (hash [namespace]) +:+ "}:".

Definition tenant_key (cx : context) : string := prefix +:+ hash [cx_cloud cx; cx_tenant cx].
Definition workload_key (cx : context) : string := tenant_key cx +:+ ":" +:+ hash [cx_workload cx].
Definition resource_key (cx : context) (r : string) : string := workload_key cx +:+ ":resource:" +:+ hash [r].

(** [_keys]: the buckets, and the slots with their limits. *)
Definition bucket_keys (cx : context) : list string :=
  [prefix +:+ "rate"; tenant_key cx; workload_key cx; workload_key cx +:+ ":" +:+ hash [cx_app cx]] ++
  match resource_of cx with
  | None => []
  | Some r => resource_key cx r :: (if cx_paced cx then [resource_key cx r +:+ ":paced_chat"] else [])
  end.

Definition slot_limits (cx : context) : list (string * Z) :=
  [(prefix +:+ "active", li_global li); (tenant_key cx +:+ ":active", li_tenant li)] ++
  match resource_of cx with
  | None => []
  | Some r => [(resource_key cx r +:+ ":active", li_resource li)]
  end.

(** Insertion-ordered dictionaries. *)
Fixpoint dict_get {V} (k : string) (d : list (string * V)) : option V :=
  match d with
  | [] => None
  | (k', v) :: d => if decide (k = k') then Some v else dict_get k d
  end.

Fixpoint dict_set {V} (k : string) (v : V) (d : list (string * V)) : list (string * V) :=
  match d with
  | [] => [(k, v)]
  | (k', v') :: d => if decide (k = k') then (k, v) :: d else (k', v') :: dict_set k v d
  end.

Inductive admit_err := BadBatch | CrossesOwners | BadCost | PacedCost | ExceedsBurst | BadBudget | BadCooldown.

(** [costs], [slot_limits], [paced_buckets] and [scopes]. *)
Record tally := Tally {
  ty_costs : list (string * Qc);
  ty_limits : list (string * Z);
  ty_paced : list string;
  ty_scopes : list (string * string);
}.

Definition add_cost (cost : Qc) (d : list (string * Qc)) (k : string) : list (string * Qc) :=
  dict_set k (default 0 (dict_get k d) + cost) d.

Definition add_limit (d : list (string * Z)) (kl : string * Z) : list (string * Z) :=
  dict_set kl.1 (Z.min (default kl.2 (dict_get kl.1 d)) kl.2) d.

Definition add_scope (d : list (string * string)) (ks : string * string) : list (string * string) :=
  dict_set ks.1 ks.2 d.

Definition bucket_scopes : list string := ["global"; "tenant"; "workload"; "app"; "resource"; "resource"].
Definition slot_scopes : list string := ["global"; "tenant"; "resource"].

Definition same_owner (cx scope : context) : bool :=
  bool_decide (cx_tenant scope = cx_tenant cx) && bool_decide (cx_app scope = cx_app cx) &&
  bool_decide (cx_cloud scope = cx_cloud cx).

(** One pass of the loop over [requirements]. *)
Definition tally_add (cx : context) (ty : tally) (req : context * Qc) : result admit_err tally :=
  let '(scope, cost) := req in
  raise_if (negb (same_owner cx scope)) CrossesOwners ;;
  raise_if (bool_decide (cost ≤ 0)) BadCost ;;
  raise_if (cx_paced scope && negb (bool_decide (cost = 1))) PacedCost ;;
  Ok (Tally (fold_left (add_cost cost) (bucket_keys scope) (ty_costs ty))
            (fold_left add_limit (slot_limits scope) (ty_limits ty))
            (if cx_paced scope then List.last (bucket_keys scope) "" :: ty_paced ty else ty_paced ty)
            (fold_left add_scope (zip ((slot_limits scope).*1) slot_scopes)
               (fold_left add_scope (zip (bucket_keys scope) bucket_scopes) (ty_scopes ty)))).

Fixpoint tally_all (cx : context) (ty : tally) (reqs : list (context * Qc)) : result admit_err tally :=
  match reqs with
  | [] => Ok ty
  | req :: reqs => tally_add cx ty req ≫= λ ty, tally_all cx ty reqs
  end.

(** [bucket_specs]. *)
Definition bucket_spec (paced : list string) (kc : string * Qc) : bucket_req :=
  if decide (kc.1 ∈ paced) then BucketReq kc.1 1 1 kc.2 else BucketReq kc.1 (li_rate li) (li_burst li) kc.2.

Definition clamp_weight (weight : Z) : Z := if decide (1 ≤ weight ≤ 8)%Z then weight else 1%Z.

Definition workload_name (reqs : list (context * Qc)) : string :=
  String.concat "," (merge_sort String.le (remove_dups (cx_workload <$> reqs.*1))).

Definition pretty_weight (weight : Z) : string :=
  nth (Z.to_nat weight) ["0"; "1"; "2"; "3"; "4"; "5"; "6"; "7"; "8"] "0".

(** The part of [admit_many] before the first poll: the script's arguments, the keys
    that pace chats and the scopes a deferral reports. *)
Definition admit_plan (reqs : list (context * Qc)) (wait_budget : Qc) (weight : Z)
    : result admit_err (plan * list string * list (string * string)) :=
  match reqs with
  | [] => Err BadBatch
  | (cx, _) :: _ =>
    raise_if (21 <? length reqs)%nat BadBatch ;;
    ty ← tally_all cx (Tally [] [] [] []) reqs;
    let specs := bucket_spec (ty_paced ty) <$> ty_costs ty in
    raise_if (existsb (λ q, bool_decide (br_cap q < br_cost q)) specs) ExceedsBurst ;;
    raise_if (bool_decide (wait_budget < 0)) BadBudget ;;
    let weight := clamp_weight weight in
    let group := prefix +:+ "fair:flow:" +:+
      hash [cx_cloud cx; cx_tenant cx; workload_name reqs; pretty_weight weight] in
    Ok (Plan specs (ty_limits ty) group weight (foldr Qcmax 0 ((ty_costs ty).*2)), ty_paced ty, ty_scopes ty)
  end.

(** ** After a poll *)

Inductive decision :=
  | Transmit
  (** release the grant, then hand the turn back *)
  | GiveBack
  | PollAgain (sleep : Qc) (until_release : bool)
  | Defer (delay : Qc) (stage : string) (scope : option string).

(** The key a refusal names: [buckets[index - 1]] or [slots[-index - 1]]. *)
Definition denied_key (p : plan) (denied : Z) : option string :=
  if decide (0 < denied)%Z then br_key <$> pl_buckets p !! Z.to_nat (denied - 1)
  else fst <$> pl_slots p !! Z.to_nat (- denied - 1).

(** The body of the polling loop, given the reply and the two answers of the provider
    runtime: [turn_open] of [provider_admission_granted], [kept] of
    [wait_provider_concurrency]. A kept request sleeps at most [sleep]. *)
Definition after_poll (cx : context) (p : plan) (paced : list string) (scopes : list (string * string))
    (elapsed wait_budget : Qc) (turn_open kept : bool) (r : reply) : decision :=
  match r with
  | RCancelled => Defer 1 "admission_cancelled" None
  | RGranted => if turn_open then Transmit else GiveBack
  | RWait delay reason denied =>
    if decide (delay ≤ 0) then Defer (seconds 5) "invalid_coordinator_reply" None
    else if decide (wait_budget < elapsed + delay) then
      let key := denied_key p denied in
      let chat_pacing := cx_paced cx && match reason with Rate => true | _ => false end &&
                         match key with Some k => bool_decide (k ∈ paced) | None => false end in
      if (match reason with Concurrency => true | _ => false end || chat_pacing) && kept
      then PollAgain delay (negb chat_pacing)
      else Defer delay "provider_wait" (key ≫= λ k, dict_get k scopes)
    else PollAgain delay (match reason with Concurrency => true | _ => false end)
  end.
End Keys.

(** ** Runs of the coordinator

    The clients of one deployment share the lease length; their scripts reach the
    coordinator in some order, at its own clock. *)
Inductive op :=
  | OGrant (token : string) (p : plan)
  | ORelease (token : string) (keys : list string)
  | ORenew (token : string) (keys : list string)
  | OCooldown (secs : Qc) (key : string).

Inductive outcome :=
  | Answered (token : string) (p : plan) (r : reply)
  | Released (token : string) (keys : list string)
  | Renewed (token : string) (keys : list string) (kept : bool)
  | Cooled (key : string) (till : Qc).

(** [ScopedProviderAdmission.cooldown]: the workload's bucket, for a checked number of
    seconds. *)
Definition cooldown_op (hash : list string → string) (namespace : string) (cx : context) (secs : Qc) : result admit_err op :=
  raise_if (bool_decide (secs < 0)) BadCooldown ;;
  Ok (OCooldown secs (nth 2 (bucket_keys hash namespace cx) "")).

Definition exec (lease : Qc) (now : Qc) (o : op) (c : coord) : coord * outcome :=
  match o with
  | OGrant t p => let '(c, r) := grant now lease t p c in (c, Answered t p r)
  | ORelease t ks => (release now lease t ks c, Released t ks)
  | ORenew t ks => let '(c, b) := renew now lease t ks c in (c, Renewed t ks b)
  | OCooldown s k => (cooldown now s k c, Cooled k (now + s))
  end.

(** A timed sequence of scripts; the outcomes oldest first. *)
Fixpoint run (lease : Qc) (ops : list (Qc * op)) (c : coord) : coord * list (Qc * outcome) :=
  match ops with
  | [] => (c, [])
  | (now, o) :: ops =>
    let '(c, out) := exec lease now o c in
    let '(c, outs) := run lease ops c in
    (c, (now, out) :: outs)
  end.
