(* ===== verification/AdmissionSafety.v ===== *)
(** * Scoped provider admission: safety

    What the coordinator of [Admission] guarantees over every sequence of scripts:
    network slots and rates are respected, cooldowns are honoured, a withdrawn token is
    never granted. *)

From Stdlib Require Import QArith Qcanon Lqa.
From stdpp Require Import numbers.
From S2P Require Import Prelude.
From S2P Require Import Rational.
From S2P Require Import Admission.
Local Open Scope Qc_scope.

(** ** Timed runs *)

(** The server's clock does not run backwards. *)
Fixpoint in_time {A} (t0 : Qc) (ops : list (Qc * A)) : Prop :=
  match ops with
  | [] => True
  | (t, _) :: ops => t0 ≤ t ∧ in_time t ops
  end.

Definition last_time {A} (t0 : Qc) (ops : list (Qc * A)) : Qc := List.last (ops.*1) t0.

Lemma last_time_cons {A} t0 t (o : A) ops : last_time t0 ((t, o) :: ops) = last_time t ops.
Proof.
  unfold last_time. rewrite fmap_cons. simpl. destruct (ops.*1) as [|x l] eqn:E; [done|].
  clear E. revert x. induction l as [|y l IH]; intros x; [done|]. exact (IH y).
Qed.

Lemma in_time_weaken {A} t0 t1 (ops : list (Qc * A)) : t0 ≤ t1 → in_time t1 ops → in_time t0 ops.
Proof. destruct ops as [|[t o] ops]; [done|]. intros H [H1 H2]. split; [qclra|done]. Qed.

(** ** Expiry *)

Lemma slot_at_expire now c k : slot_at (expire_keys now c) k = expire_zset now (slot_at c k).
Proof.
  unfold slot_at, expire_zset; simpl. rewrite map_lookup_filter.
  destruct (co_slots c !! k) as [z|]; simpl; [|done].
  destruct (expired now (zs_deadline z)) eqn:E; done.
Qed.

Lemma bucket_at_expire now c k :
  bucket_at (expire_keys now c) k = if expired now (bh_deadline (bucket_at c k)) then no_bucket else bucket_at c k.
Proof.
  unfold bucket_at; simpl. rewrite map_lookup_filter.
  destruct (co_buckets c !! k) as [h|]; simpl; [|done].
  destruct (expired now (bh_deadline h)) eqn:E; done.
Qed.

Lemma expired_false now d : expired now d = false ↔ ∀ t, d = Some t → now ≤ t.
Proof.
  unfold expired. destruct d as [t|]; [|split; [done|done]].
  rewrite bool_decide_eq_false. split; [intros H t' [= <-]; qclra|intros H; specialize (H t eq_refl); qclra].
Qed.

(** ** The scan of the slots *)

(** The live members of a slot. *)
Definition live (now : Qc) (z : zset) : gmap string Qc := zs_members (zpurge now z).

Lemma live_lookup now z m s : live now z !! m = Some s ↔ zs_members z !! m = Some s ∧ now < s.
Proof. unfold live; simpl. by rewrite map_lookup_filter_Some. Qed.

Lemma zpurge_idemp now z : zpurge now (zpurge now z) = zpurge now z.
Proof.
  unfold zpurge; simpl. f_equal. rewrite map_filter_filter. apply map_filter_ext. naive_solver.
Qed.

Lemma live_later now t z : now ≤ t → live t (zpurge now z) = live t z.
Proof.
  intros H. apply map_eq. intros m. apply option_eq. intros s. rewrite !live_lookup. simpl.
  rewrite map_lookup_filter_Some. simpl. split; [naive_solver|]. intros [H1 H2]. repeat split; [done| |done]. qclra.
Qed.

Lemma longer_ge w r d sc : sc_wait sc ≤ sc_wait (longer w r d sc).
Proof. unfold longer. case_decide; simpl; qclra. Qed.

Lemma longer_wait w r d sc : w ≤ sc_wait (longer w r d sc).
Proof. unfold longer. case_decide; simpl; qclra. Qed.

Lemma scan_slots_lookup now ss : ∀ i zs sc k,
  (scan_slots now i ss zs sc).1 !! k =
    if decide (k ∈ ss.*1) then Some (zpurge now (default no_zset (zs !! k))) else zs !! k.
Proof.
  induction ss as [|[k' limit] ss IH]; intros i zs sc k; [by rewrite decide_False by apply not_elem_of_nil|].
  cbn [scan_slots]. rewrite IH. destruct (decide (k = k')) as [->|Hne].
  - rewrite lookup_insert_eq. rewrite (decide_True (P := k' ∈ ((k', limit) :: ss).*1)) by (left; done). simpl.
    case_decide; [by rewrite zpurge_idemp|done].
  - rewrite lookup_insert_ne by done. apply decide_ext. rewrite fmap_cons, elem_of_cons. naive_solver.
Qed.

Lemma scan_slots_ge now ss : ∀ i zs sc, sc_wait sc ≤ sc_wait (scan_slots now i ss zs sc).2.
Proof.
  induction ss as [|[k limit] ss IH]; intros i zs sc; [apply Qcle_refl|]. cbn [scan_slots].
  eapply Qcle_trans; [|apply IH]. case_decide; [apply longer_ge|apply Qcle_refl].
Qed.

(** No wait means that every slot has room. *)
Lemma scan_slots_room now ss : ∀ i zs sc k limit,
  sc_wait (scan_slots now i ss zs sc).2 ≤ 0 → (k, limit) ∈ ss →
  (zcard (zpurge now (default no_zset (zs !! k))) < limit)%Z.
Proof.
  induction ss as [|[k' limit'] ss IH]; intros i zs sc k limit Hw Hin; [by apply not_elem_of_nil in Hin|].
  cbn [scan_slots] in Hw. apply elem_of_cons in Hin as [[= -> ->]|Hin].
  - pose proof (scan_slots_ge now ss (i + 1) (<[k' := zpurge now (default no_zset (zs !! k'))]> zs)
      (if decide (limit' ≤ zcard (zpurge now (default no_zset (zs !! k'))))%Z then
        longer (Qcmin (Q2Qc (1 # 2)) (Qcmax (Q2Qc (1 # 100)) (default now (zfirst (zpurge now (default no_zset (zs !! k')))) - now)))
          Concurrency (- i) sc else sc)) as Hge.
    cbv zeta in Hw. case_decide as Hd; [|lia]. exfalso.
    pose proof (longer_wait (Qcmin (Q2Qc (1 # 2)) (Qcmax (Q2Qc (1 # 100)) (default now (zfirst (zpurge now (default no_zset (zs !! k')))) - now)))
      Concurrency (- i) sc) as Hl.
    assert (Q2Qc (1 # 100) ≤ 0); [|by vm_compute in H].
    eapply Qcle_trans; [|eapply Qcle_trans; [exact Hl|eapply Qcle_trans; [exact Hge|exact Hw]]].
    clear. qcases; qclra.
  - specialize (IH _ _ _ _ _ Hw Hin). destruct (decide (k = k')) as [->|Hne].
    + rewrite lookup_insert_eq in IH. simpl in IH. by rewrite zpurge_idemp in IH.
    + by rewrite lookup_insert_ne in IH.
Qed.

(** ** Anatomy of a poll *)

(** The state the scans start from: the waiter is queued. *)
Definition queued (now : Qc) (token : string) (p : plan) (c : coord) : coord :=
  heartbeat now token (enqueue now token p (drop_waiters now (prune now c))).1.

Definition queued_entry (now : Qc) (token : string) (p : plan) (c : coord) : entry :=
  (enqueue now token p (drop_waiters now (prune now c))).2.

(** The state after the scans, with the wait they found and the balances. *)
Definition scanned (now : Qc) (p : plan) (c : coord) : coord * scan * list Qc :=
  let '(bs, sc, vs) := scan_buckets now 1 (pl_buckets p) (co_buckets c) (Scan 0 NoReason 0) in
  let '(zs, sc) := scan_slots now 1 (pl_slots p) (co_slots c) sc in
  (Coord bs zs (co_cancelled c) (co_pending c) (co_pending_deadline c) (co_expiry c) (co_clock c) (co_flows c), sc, vs).

Definition is_cancelled (now : Qc) (token : string) (c : coord) : Prop :=
  is_Some (zs_members (co_cancelled (prune now c)) !! token).

Definition no_room (now : Qc) (token : string) (c : coord) : Prop :=
  co_pending (drop_waiters now (prune now c)) !! token = None ∧
  (PENDING_MAX ≤ Z.of_nat (size (co_pending (drop_waiters now (prune now c)))))%Z.

Lemma grant_eq now lease token p c :
  grant now lease token p c =
    if decide (is_cancelled now token c) then (prune now c, RCancelled)
    else if decide (no_room now token c)
    then (drop_waiters now (prune now c), RWait (Q2Qc (1 # 2)) Concurrency (-1))
    else
      let '(c', sc, vs) := scanned now p (queued now token p c) in
      if decide (0 < sc_wait sc) then (c', RWait (sc_wait sc) (sc_reason sc) (sc_denied sc))
      else
        match elect now c' with
        | Some ch =>
          if decide (ch_token ch = token)
          then (commit now lease token p (queued_entry now token p c) vs (ch_score ch) c', RGranted)
          else (c', RWait (Q2Qc (5 # 100)) Concurrency (-1))
        | None => (c', RWait (Q2Qc (5 # 100)) Concurrency (-1))
        end.
Proof.
  unfold grant, queued, queued_entry, is_cancelled, no_room, scanned. cbv zeta.
  case_decide; [done|]. case_decide; [done|].
  destruct (enqueue now token p (drop_waiters now (prune now c))) as [c1 e]. cbn [fst snd].
  destruct (scan_buckets now 1 (pl_buckets p) _ _) as [[bs sc] vs].
  destruct (scan_slots now 1 (pl_slots p) _ sc) as [zs sc']. done.
Qed.

(** ** Slots by the outcomes the clients saw *)

(** Members with a score after [t]. *)
Definition after (t : Qc) (m : gmap string Qc) : gmap string Qc := filter (λ ms, t < ms.2) m.

(** Two memberships that no reader from [now] on tells apart. *)
Definition later_eq (now : Qc) (m1 m2 : gmap string Qc) : Prop := ∀ t, now ≤ t → after t m1 = after t m2.

Global Instance later_eq_equiv now : Equivalence (later_eq now).
Proof.
  split.
  - intros m t _. done.
  - intros m1 m2 H t Ht. by rewrite H.
  - intros m1 m2 m3 H1 H2 t Ht. by rewrite H1, H2.
Qed.

Lemma later_eq_lookup now m1 m2 :
  later_eq now m1 m2 ↔ ∀ x v, now < v → m1 !! x = Some v ↔ m2 !! x = Some v.
Proof.
  split.
  - intros H x v Hv. specialize (H now (Qcle_refl _)). apply (f_equal (λ m, m !! x = Some v)) in H. unfold after in H.
    assert (Hiff : filter (λ ms : string * Qc, now < ms.2) m1 !! x = Some v ↔ filter (λ ms : string * Qc, now < ms.2) m2 !! x = Some v)
      by (by rewrite H).
    rewrite !map_lookup_filter_Some in Hiff. naive_solver.
  - intros H t Ht. apply map_eq. intros x. apply option_eq. intros v. unfold after.
    rewrite !map_lookup_filter_Some. simpl. split; intros [Hx Hv]; (split; [|done]); apply (H x v); try done; qclra.
Qed.

Global Instance insert_later_eq now m s : Proper (later_eq now ==> later_eq now) (insert (M := gmap string Qc) m s).
Proof.
  intros m1 m2 H. rewrite later_eq_lookup in *. intros x v Hv. rewrite !lookup_insert_Some, (H x v Hv). done.
Qed.

Global Instance delete_later_eq now m : Proper (later_eq now ==> later_eq now) (delete (M := gmap string Qc) m).
Proof.
  intros m1 m2 H. rewrite later_eq_lookup in *. intros x v Hv. rewrite !lookup_delete_Some, (H x v Hv). done.
Qed.

Lemma later_eq_weaken t0 t1 m1 m2 : t0 ≤ t1 → later_eq t0 m1 m2 → later_eq t1 m1 m2.
Proof. intros H Hm t Ht. apply Hm. qclra. Qed.

Lemma zpurge_later now z : later_eq now (zs_members (zpurge now z)) (zs_members z).
Proof. intros t Ht. exact (live_later now t z Ht). Qed.

(** Who holds a slot of [k], and until when, after an outcome. *)
Definition ledger_step (lease : Qc) (k : string) (h : gmap string Qc) (o : Qc * outcome) : gmap string Qc :=
  match o with
  | (now, Answered t p RGranted) => if decide (k ∈ (pl_slots p).*1) then <[t := now + lease]> h else h
  | (now, Renewed t ks true) => if decide (k ∈ ks) then <[t := now + lease]> h else h
  | (_, Released t ks) => if decide (k ∈ ks) then delete t h else h
  | _ => h
  end.

Definition ledger (lease : Qc) (k : string) (outs : list (Qc * outcome)) : gmap string Qc :=
  fold_left (ledger_step lease k) outs ∅.

Global Instance ledger_step_proper lease k now o :
  Proper (later_eq now ==> later_eq now) (λ h, ledger_step lease k h o).
Proof.
  intros h1 h2 H. destruct o as [t [tk p [| |]|tk ks|tk ks []|]]; simpl; try done; case_decide; try done; by rewrite H.
Qed.

(** No member outlives its key. *)
Definition slots_ok (lease t : Qc) (c : coord) : Prop :=
  ∀ k m s, zs_members (slot_at c k) !! m = Some s →
    s ≤ t + lease ∧ ∃ d, zs_deadline (slot_at c k) = Some d ∧ s ≤ d.

Definition zset_ok (lease t : Qc) (z : zset) : Prop :=
  ∀ m s, zs_members z !! m = Some s → s ≤ t + lease ∧ ∃ d, zs_deadline z = Some d ∧ s ≤ d.

Lemma no_zset_ok lease t : zset_ok lease t no_zset.
Proof. intros m s H. by simpl in H. Qed.

Lemma zset_ok_later lease t t' z : t ≤ t' → zset_ok lease t z → zset_ok lease t' z.
Proof. intros H Hz m s Hs. destruct (Hz m s Hs) as [H1 H2]. split; [qclra|done]. Qed.

Lemma zset_ok_purge lease t now z : zset_ok lease t z → zset_ok lease t (zpurge now z).
Proof. intros Hz m s Hs. apply map_lookup_filter_Some in Hs as [Hs _]. exact (Hz m s Hs). Qed.

Lemma zset_ok_rem lease t m z : zset_ok lease t z → zset_ok lease t (zrem m z).
Proof. intros Hz m' s Hs. simpl in Hs. apply lookup_delete_Some in Hs as [_ Hs]. exact (Hz m' s Hs). Qed.

Lemma zset_ok_add lease now m z :
  zset_ok lease now z → zset_ok lease now (zadd m (now + lease) (now + Qcceil (lease + seconds 60)) z).
Proof.
  intros Hz m' s Hs. pose proof (Qcceil_ge (lease + seconds 60)) as Hc.
  assert (0 ≤ seconds 60) by (by vm_compute).
  assert (Hle : s ≤ now + lease).
  { simpl in Hs. apply lookup_insert_Some in Hs as [[_ <-]|[_ Hs]]; [apply Qcle_refl|by apply Hz in Hs as [? _]]. }
  split; [done|]. simpl. eexists. split; [done|]. qclra.
Qed.

Lemma expire_later lease t now z :
  zset_ok lease t z → t ≤ now → zset_ok lease now (expire_zset now z) ∧
  later_eq now (zs_members (expire_zset now z)) (zs_members z).
Proof.
  intros Hz Ht. unfold expire_zset. destruct (expired now (zs_deadline z)) eqn:E; [|split; [by eapply zset_ok_later|done]].
  split; [apply no_zset_ok|]. apply later_eq_lookup. intros m s Hs. split; [done|]. intros Hm.
  destruct (Hz m s Hm) as (_ & d & Hd & Hsd). rewrite Hd in E. simpl in E. apply bool_decide_eq_true in E. qclra.
Qed.

(** ** What a script does to the slots *)

Lemma holds_lookup now lease token ks zs k :
  foldr (λ k zs, hold now lease token k zs) zs ks !! k =
    if decide (k ∈ ks) then Some (zadd token (now + lease) (now + Qcceil (lease + seconds 60)) (default no_zset (zs !! k)))
    else zs !! k.
Proof.
  induction ks as [|k' ks IH]; [by rewrite decide_False by apply not_elem_of_nil|]. simpl. unfold hold at 1.
  destruct (decide (k = k')) as [->|Hne].
  - rewrite lookup_insert_eq, IH. rewrite (decide_True (P := k' ∈ k' :: ks)) by left.
    case_decide; simpl; [|done]. unfold zadd; simpl. by rewrite insert_insert_eq.
  - rewrite lookup_insert_ne, IH by done. apply decide_ext. rewrite elem_of_cons. naive_solver.
Qed.

Lemma releases_lookup token (ks : list string) (zs : gmap string zset) k :
  foldr (λ k zs, alter (zrem token) k zs) zs ks !! k =
    if decide (k ∈ ks) then zrem token <$> zs !! k else zs !! k.
Proof.
  induction ks as [|k' ks IH]; [by rewrite decide_False by apply not_elem_of_nil|]. simpl.
  destruct (decide (k = k')) as [->|Hne].
  - rewrite lookup_alter_eq, IH. rewrite (decide_True (P := k' ∈ k' :: ks)) by left.
    case_decide; simpl; [|done]. destruct (zs !! k') as [z|]; simpl; [|done]. unfold zrem; simpl. by rewrite delete_delete_eq.
  - rewrite lookup_alter_ne, IH by done. apply decide_ext. rewrite elem_of_cons. naive_solver.
Qed.

Lemma slot_at_prune now c k : slot_at (prune now c) k = expire_zset now (slot_at c k).
Proof. apply slot_at_expire. Qed.

Lemma slot_at_queued now token p c k : slot_at (queued now token p c) k = expire_zset now (slot_at c k).
Proof.
  rewrite <- slot_at_expire. unfold queued, enqueue. by destruct (co_pending _ !! token).
Qed.

Lemma slot_at_scanned now p c c' sc vs k :
  scanned now p c = (c', sc, vs) →
  slot_at c' k = if decide (k ∈ (pl_slots p).*1) then zpurge now (slot_at c k) else slot_at c k.
Proof.
  unfold scanned. destruct (scan_buckets _ _ _ _ _) as [[bs sc0] vs0].
  pose proof (scan_slots_lookup now (pl_slots p) 1 (co_slots c) sc0 k) as H.
  destruct (scan_slots _ _ _ _ _) as [zs sc1]. intros [= <- <- <-]. unfold slot_at at 1. cbn [co_slots]. simpl in H.
  rewrite H. by case_decide.
Qed.

Lemma scanned_room now p c c' sc vs k limit :
  scanned now p c = (c', sc, vs) → ¬ 0 < sc_wait sc → (k, limit) ∈ pl_slots p →
  (Z.of_nat (size (after now (zs_members (slot_at c k)))) < limit)%Z.
Proof.
  unfold scanned. destruct (scan_buckets _ _ _ _ _) as [[bs sc0] vs0].
  pose proof (scan_slots_room now (pl_slots p) 1 (co_slots c) sc0 k limit) as H.
  destruct (scan_slots _ _ _ _ _) as [zs sc1]. intros [= <- <- <-] Hw Hin. apply H; [simpl; qclra|done].
Qed.

Lemma slot_at_commit now lease token p e vs score c k :
  slot_at (commit now lease token p e vs score c) k =
    if decide (k ∈ (pl_slots p).*1) then zadd token (now + lease) (now + Qcceil (lease + seconds 60)) (slot_at c k)
    else slot_at c k.
Proof.
  unfold slot_at. simpl. rewrite <- (foldr_fmap (λ k zs, hold now lease token k zs) (co_slots c) (pl_slots p) fst), holds_lookup.
  by case_decide.
Qed.

(** Every script leaves the live memberships as its outcome says. *)
Lemma grant_slots lease t now token p c c' r k :
  slots_ok lease t c → t ≤ now → grant now lease token p c = (c', r) →
  zset_ok lease now (slot_at c' k) ∧
  later_eq now (zs_members (slot_at c' k))
    (ledger_step lease k (zs_members (slot_at c k)) (now, Answered token p r)).
Proof.
  intros Hok Ht. rewrite grant_eq. destruct (expire_later lease t now (slot_at c k) (Hok k) Ht) as [Hz Hl].
  case_decide; [intros [= <- <-]; by rewrite slot_at_prune|].
  case_decide; [intros [= <- <-]; split; [by rewrite <- (slot_at_prune now c k) in Hz|by rewrite <- (slot_at_prune now c k) in Hl]|].
  destruct (scanned now p (queued now token p c)) as [[c1 sc] vs] eqn:Hsc.
  pose proof (slot_at_scanned _ _ _ _ _ _ k Hsc) as H1. rewrite slot_at_queued in H1.
  assert (Hz1 : zset_ok lease now (slot_at c1 k)) by (rewrite H1; case_decide; [by apply zset_ok_purge|done]).
  assert (Hl1 : later_eq now (zs_members (slot_at c1 k)) (zs_members (slot_at c k))).
  { rewrite H1. case_decide; [|done]. rewrite zpurge_later. done. }
  clear H1.
  case_decide; [intros [= <- <-]; by split|].
  destruct (elect now c1) as [ch|]; [|intros [= <- <-]; by split].
  case_decide; [|intros [= <- <-]; by split]. intros [= <- <-]. rewrite slot_at_commit. simpl.
  case_decide; [|by split]. split; [by apply zset_ok_add|]. simpl. by rewrite Hl1.
Qed.

Lemma exec_slots lease t now o c c' out k :
  slots_ok lease t c → t ≤ now → exec lease now o c = (c', out) →
  zset_ok lease now (slot_at c' k) ∧
  later_eq now (zs_members (slot_at c' k)) (ledger_step lease k (zs_members (slot_at c k)) (now, out)).
Proof.
  intros Hok Ht. destruct (expire_later lease t now (slot_at c k) (Hok k) Ht) as [Hz Hl].
  destruct o as [token p|token ks|token ks|secs key]; simpl.
  - destruct (grant now lease token p c) as [c1 r] eqn:Hg. intros [= <- <-]. by eapply grant_slots.
  - intros [= <- <-]. rewrite <- slot_at_expire in Hz, Hl. unfold release, slot_at in *. simpl in *.
    rewrite releases_lookup.
    case_decide; [|by split].
    destruct (filter _ (co_slots c) !! k) as [z|]; simpl in *.
    + split; [by apply zset_ok_rem|by rewrite Hl].
    + split; [done|]. rewrite <- Hl. by rewrite delete_empty.
  - unfold renew. cbv zeta. rewrite <- slot_at_expire in Hz, Hl. destruct (forallb _ ks); intros [= <- <-]; [|by split].
    unfold slot_at in *. simpl in *. rewrite holds_lookup.
    case_decide; [|by split]. simpl. split; [by apply zset_ok_add|]. simpl. by rewrite Hl.
  - intros [= <- <-]. by rewrite <- slot_at_expire in Hz, Hl.
Qed.

Lemma run_slots lease ops : ∀ t c c' outs k h,
  slots_ok lease t c → in_time t ops → run lease ops c = (c', outs) →
  later_eq t (zs_members (slot_at c k)) h →
  slots_ok lease (last_time t ops) c' ∧
  later_eq (last_time t ops) (zs_members (slot_at c' k)) (fold_left (ledger_step lease k) outs h).
Proof.
  induction ops as [|[now o] ops IH]; intros t c c' outs k h Hok Hin Hrun Hh.
  { injection Hrun as <- <-. by split. }
  destruct Hin as [Ht Hin]. simpl in Hrun. destruct (exec lease now o c) as [c1 out] eqn:He.
  destruct (run lease ops c1) as [c2 outs'] eqn:Hr. injection Hrun as <- <-. rewrite last_time_cons. simpl.
  assert (Hok1 : slots_ok lease now c1) by (intros k'; by eapply exec_slots).
  eapply IH; [done|done|done|]. destruct (exec_slots _ _ _ _ _ _ _ k Hok Ht He) as [_ Hl]. rewrite Hl.
  apply (ledger_step_proper lease k now (now, out)). by eapply later_eq_weaken.
Qed.

Lemma empty_slots_ok lease t : slots_ok lease t empty_coord.
Proof. intros k m s H. by simpl in H. Qed.

(** ** Counting the holders *)

Lemma after_mono t t' m : t ≤ t' → (size (after t' m) ≤ size (after t m))%nat.
Proof.
  intros H. apply map_subseteq_size. apply map_subseteq_spec. intros x v Hx. unfold after in *.
  apply map_lookup_filter_Some in Hx as [Hx Hv]. apply map_lookup_filter_Some. split; [done|]. simpl in *. qclra.
Qed.

Lemma after_insert t x v (m : gmap string Qc) : after t (<[x := v]> m) ⊆ <[x := v]> (after t m).
Proof.
  apply map_subseteq_spec. intros y w Hy. unfold after in Hy. apply map_lookup_filter_Some in Hy as [Hy Hw].
  apply lookup_insert_Some in Hy as [[-> ->]|[Hne Hy]]; [apply lookup_insert_eq|].
  rewrite lookup_insert_ne by done. unfold after. by apply map_lookup_filter_Some.
Qed.

Lemma after_insert_size t x v m : (size (after t (<[x := v]> m)) ≤ S (size (after t m)))%nat.
Proof.
  etrans; [apply map_subseteq_size, after_insert|]. rewrite map_size_insert. destruct (_ !! _); simpl; lia.
Qed.

Lemma after_insert_held t x v m :
  is_Some (after t m !! x) → (size (after t (<[x := v]> m)) ≤ size (after t m))%nat.
Proof.
  intros [w Hw]. etrans; [apply map_subseteq_size, after_insert|]. by rewrite map_size_insert_Some.
Qed.

Lemma after_delete_size t x m : (size (after t (delete x m)) ≤ size (after t m))%nat.
Proof.
  apply map_subseteq_size, map_subseteq_spec. intros y w Hy. unfold after in *.
  apply map_lookup_filter_Some in Hy as [Hy Hw]. apply lookup_delete_Some in Hy as [_ Hy].
  by apply map_lookup_filter_Some.
Qed.

(** Polls that name [k] do so with a limit of at most [L]. *)
Definition limits_within (k : string) (L : Z) (ops : list (Qc * op)) : Prop :=
  ∀ now token p l, (now, OGrant token p) ∈ ops → (k, l) ∈ pl_slots p → (l ≤ L)%Z.

Lemma grant_room lease t now token p c c' k h l :
  slots_ok lease t c → t ≤ now → grant now lease token p c = (c', RGranted) →
  later_eq t (zs_members (slot_at c k)) h → (k, l) ∈ pl_slots p →
  (Z.of_nat (size (after now h)) < l)%Z.
Proof.
  intros Hok Ht. rewrite grant_eq. case_decide; [done|]. case_decide; [done|].
  destruct (scanned now p (queued now token p c)) as [[c1 sc] vs] eqn:Hsc. case_decide as Hw; [done|].
  intros _ Hh Hin. pose proof (scanned_room _ _ _ _ _ _ _ _ Hsc Hw Hin) as Hroom. rewrite slot_at_queued in Hroom.
  destruct (expire_later lease t now (slot_at c k) (Hok k) Ht) as [_ Hl].
  by rewrite (Hl now (Qcle_refl _)), (Hh now Ht) in Hroom.
Qed.

Lemma renew_held lease t now token ks c c' k h :
  slots_ok lease t c → t ≤ now → renew now lease token ks c = (c', true) →
  later_eq t (zs_members (slot_at c k)) h → k ∈ ks → is_Some (after now h !! token).
Proof.
  intros Hok Ht. unfold renew. cbv zeta. destruct (forallb _ ks) eqn:Hf; [|done]. intros _ Hh Hk.
  apply forallb_Forall in Hf. rewrite Forall_forall in Hf. specialize (Hf k Hk). unfold still_held in Hf.
  rewrite slot_at_expire in Hf. destruct (zs_members _ !! token) as [s|] eqn:Hs; [|done].
  apply bool_decide_eq_true in Hf. destruct (expire_later lease t now (slot_at c k) (Hok k) Ht) as [_ Hl].
  exists s. unfold after. apply map_lookup_filter_Some. split; [|done].
  apply (proj1 (later_eq_lookup _ _ _) Hl token s Hf) in Hs.
  apply (proj1 (later_eq_lookup _ _ _) Hh token s); [qclra|done].
Qed.

Lemma exec_count lease t now o c c' out k h L :
  slots_ok lease t c → t ≤ now → exec lease now o c = (c', out) →
  later_eq t (zs_members (slot_at c k)) h →
  (∀ token p l, o = OGrant token p → (k, l) ∈ pl_slots p → (l ≤ L)%Z) →
  (Z.of_nat (size (after t h)) ≤ L)%Z →
  (Z.of_nat (size (after now (ledger_step lease k h (now, out)))) ≤ L)%Z.
Proof.
  intros Hok Ht He Hh Hlim HL. pose proof (after_mono t now h Ht) as Hm.
  destruct o as [token p|token ks|token ks|secs key]; simpl in He.
  - destruct (grant now lease token p c) as [c1 r] eqn:Hg. injection He as <- <-. simpl.
    destruct r; [lia|lia|]. case_decide as Hk; [|lia].
    apply list_elem_of_fmap in Hk as ([k' l] & -> & Hin). simpl in *.
    pose proof (grant_room _ _ _ _ _ _ _ _ _ _ Hok Ht Hg Hh Hin). specialize (Hlim token p l eq_refl Hin).
    pose proof (after_insert_size now token (now + lease) h). lia.
  - injection He as <- <-. simpl. case_decide; [|lia]. pose proof (after_delete_size now token h). lia.
  - destruct (renew now lease token ks c) as [c1 b] eqn:Hr. injection He as <- <-. simpl.
    destruct b; [|lia]. case_decide as Hk; [|lia].
    pose proof (after_insert_held now token (now + lease) h (renew_held _ _ _ _ _ _ _ _ _ Hok Ht Hr Hh Hk)). lia.
  - injection He as <- <-. simpl. lia.
Qed.

Lemma run_count lease k L ops : ∀ t c c' outs h,
  slots_ok lease t c → in_time t ops → run lease ops c = (c', outs) →
  later_eq t (zs_members (slot_at c k)) h → limits_within k L ops →
  (Z.of_nat (size (after t h)) ≤ L)%Z →
  (Z.of_nat (size (after (last_time t ops) (fold_left (ledger_step lease k) outs h))) ≤ L)%Z.
Proof.
  induction ops as [|[now o] ops IH]; intros t c c' outs h Hok Hin Hrun Hh Hlim HL.
  { injection Hrun as <- <-. done. }
  destruct Hin as [Ht Hin]. simpl in Hrun. destruct (exec lease now o c) as [c1 out] eqn:He.
  destruct (run lease ops c1) as [c2 outs'] eqn:Hr. injection Hrun as <- <-. rewrite last_time_cons. simpl.
  assert (Hok1 : slots_ok lease now c1) by (intros k'; by eapply exec_slots).
  eapply IH; [done|done|done| | |].
  - destruct (exec_slots _ _ _ _ _ _ _ k Hok Ht He) as [_ Hl]. rewrite Hl.
    apply (ledger_step_proper lease k now (now, out)). by eapply later_eq_weaken.
  - intros now' token p l Hop. apply (Hlim now' token p l). by right.
  - apply (exec_count lease t now o c c1 out k h L Hok Ht He Hh); [|done]. intros token p l -> Hk. apply (Hlim now token p l); [by left|done].
Qed.

Lemma holders_within lease k L ops t0 t c outs :
  (0 ≤ L)%Z → in_time t0 ops → run lease ops empty_coord = (c, outs) → limits_within k L ops →
  last_time t0 ops ≤ t → (Z.of_nat (size (after t (ledger lease k outs))) ≤ L)%Z.
Proof.
  intros HL Hin Hr Hlim Ht.
  assert (H : (Z.of_nat (size (after (last_time t0 ops) (ledger lease k outs))) ≤ L)%Z).
  { unfold ledger. apply (run_count lease k L ops t0 empty_coord c outs); try done; apply empty_slots_ok. }
  pose proof (after_mono _ _ (ledger lease k outs) Ht). lia.
Qed.
