(* ===== verification/AdmissionPlan.v ===== *)
(** * Scoped provider admission: plans

    What [admit_plan] of [Admission] builds: the batch a client may ask the coordinator
    for, and what the limits of a deployment mean for the slots of [AdmissionSafety]. *)

From Stdlib Require Import QArith Qcanon Lqa.
From stdpp Require Import numbers.
From S2P Require Import Prelude.
From S2P Require Import Rational.
From S2P Require Import Admission.
From S2P Require Import AdmissionSafety.
Local Open Scope Qc_scope.

(** ** Dictionaries *)

Section Dict.
Context {V : Type}.
Implicit Types (d : list (string * V)) (k : string) (v : V).

Lemma dict_get_elem k v d : dict_get k d = Some v → (k, v) ∈ d.
Proof.
  induction d as [|[k' v'] d IH]; simpl; [done|]. case_decide as Hk.
  - intros [= ->]. subst. left.
  - intros H. right. by apply IH.
Qed.

Lemma dict_get_is_Some k d : is_Some (dict_get k d) ↔ k ∈ d.*1.
Proof.
  induction d as [|[k' v'] d IH]; simpl.
  - split; [by intros [? ?]|intros H; by apply not_elem_of_nil in H].
  - rewrite elem_of_cons. case_decide as Hk; [|rewrite IH; naive_solver]. split; [by left|by eexists].
Qed.

Lemma dict_set_elem k v d x : x ∈ dict_set k v d → x = (k, v) ∨ x ∈ d.
Proof.
  induction d as [|[k' v'] d IH]; simpl.
  - rewrite list_elem_of_singleton. by left.
  - case_decide; rewrite !elem_of_cons; naive_solver.
Qed.

Lemma dict_set_keys k v d : (dict_set k v d).*1 = if decide (k ∈ d.*1) then d.*1 else d.*1 ++ [k].
Proof.
  induction d as [|[k' v'] d IH]; [done|]. cbn [dict_set]. rewrite fmap_cons. simpl. destruct (decide (k = k')) as [Hk|Hk].
  - subst k'. rewrite fmap_cons. rewrite (decide_True (P := k ∈ _)) by left. done.
  - rewrite fmap_cons, IH. simpl. destruct (decide (k ∈ d.*1)) as [Hin|Hn].
    + by rewrite decide_True by (by right).
    + rewrite decide_False; [done|]. by intros [?|?]%elem_of_cons.
Qed.

Lemma dict_set_NoDup k v d : NoDup (d.*1) → NoDup ((dict_set k v d).*1).
Proof.
  intros H. rewrite dict_set_keys. case_decide; [done|]. apply NoDup_app. split; [done|].
  split; [|apply NoDup_singleton]. by intros x Hx ->%list_elem_of_singleton.
Qed.

Lemma dict_get_set k v d k' : dict_get k' (dict_set k v d) = if decide (k' = k) then Some v else dict_get k' d.
Proof.
  induction d as [|[k0 v0] d IH]; simpl; [done|]. destruct (decide (k = k0)) as [Hk|Hk]; simpl.
  - subst k0. by destruct (decide (k' = k)).
  - rewrite IH. destruct (decide (k' = k0)) as [->|]; [|done]. by rewrite decide_False by congruence.
Qed.

Lemma dict_set_mem k v d k' : k' ∈ d.*1 → k' ∈ (dict_set k v d).*1.
Proof. rewrite <- !dict_get_is_Some, dict_get_set. by case_decide. Qed.
End Dict.

Lemma fold_left_ind {A B} (I : A → Prop) (f : A → B → A) l : ∀ a,
  I a → (∀ a b, b ∈ l → I a → I (f a b)) → I (fold_left f l a).
Proof.
  induction l as [|b l IH]; intros a Ha Hf; [done|]. simpl. apply IH; [by apply Hf; [left|]|].
  intros a' b' Hb. apply Hf. by right.
Qed.

Lemma strlen_app a b : String.length (a +:+ b) = (String.length a + String.length b)%nat.
Proof. induction a as [|c a IH]; [done|]. simpl. by rewrite IH. Qed.

(** ** The loop over the requirements *)

Section Plan.
Context (hash : list string → string) (namespace : string) (li : limits).
Notation prefix := (prefix hash namespace).
Notation slot_limits := (slot_limits hash namespace li).
Notation bucket_keys := (bucket_keys hash namespace).
Notation tally_add := (tally_add hash namespace li).
Notation tally_all := (tally_all hash namespace li).

(** A property of the tally kept by every pass holds in the end. *)
Lemma tally_all_ind (I : tally → Prop) cx reqs : ∀ ty ty',
  (∀ ty req ty', req ∈ reqs → I ty → tally_add cx ty req = Ok ty' → I ty') →
  I ty → tally_all cx ty reqs = Ok ty' → I ty'.
Proof.
  induction reqs as [|req reqs IH]; intros ty ty' Hstep Hty; simpl; [by intros [= <-]|].
  intros (ty1 & Hadd & Hall)%bind_Ok. eapply IH; [|by eapply Hstep; [left|..]|done].
  intros ty2 req' ty3 Hin. apply Hstep. by right.
Qed.

Lemma tally_add_Ok cx ty scope cost ty' :
  tally_add cx ty (scope, cost) = Ok ty' →
  0 < cost ∧ (cx_paced scope = true → cost = 1) ∧ same_owner cx scope = true ∧
  ty' = Tally (fold_left (add_cost cost) (bucket_keys scope) (ty_costs ty))
              (fold_left add_limit (slot_limits scope) (ty_limits ty))
              (if cx_paced scope then List.last (bucket_keys scope) "" :: ty_paced ty else ty_paced ty)
              (fold_left add_scope (zip ((slot_limits scope).*1) slot_scopes)
                 (fold_left add_scope (zip (bucket_keys scope) bucket_scopes) (ty_scopes ty))).
Proof.
  unfold Admission.tally_add. intros (u1 & H1%raise_if_Ok & (u2 & H2%raise_if_Ok & (u3 & H3%raise_if_Ok & H)%bind_Ok)%bind_Ok)%bind_Ok.
  injection H as <-. rewrite negb_false_iff in H1. rewrite bool_decide_eq_false in H2. split; [qclra|].
  split; [|done]. intros Hp. rewrite Hp in H3. simpl in H3. rewrite negb_false_iff, bool_decide_eq_true in H3. done.
Qed.

(** Every slot a plan names carries the limit of its scope. *)
Definition limits_ok (ty : tally) : Prop :=
  NoDup (ty_limits ty).*1 ∧ ∀ x, x ∈ ty_limits ty → ∃ scope, x ∈ slot_limits scope.

Lemma add_limit_ok scope d kl :
  kl ∈ slot_limits scope → (NoDup d.*1 ∧ ∀ x, x ∈ d → ∃ s, x ∈ slot_limits s) →
  NoDup (add_limit d kl).*1 ∧ ∀ x, x ∈ add_limit d kl → ∃ s, x ∈ slot_limits s.
Proof.
  intros Hkl [Hnd Hd]. unfold add_limit. split; [by apply dict_set_NoDup|].
  intros x [->|Hx]%dict_set_elem; [|by apply Hd]. destruct kl as [k l]. simpl.
  destruct (dict_get k d) as [l'|] eqn:Hg; simpl.
  - destruct (Z.min_spec l' l) as [[_ ->]|[_ ->]]; [by apply Hd, dict_get_elem|by exists scope].
  - rewrite Z.min_id. by exists scope.
Qed.

Lemma tally_limits_ok cx reqs ty : tally_all cx (Tally [] [] [] []) reqs = Ok ty → limits_ok ty.
Proof.
  apply tally_all_ind.
  - intros ty1 [scope cost] ty2 _ H1 (_ & _ & _ & ->)%tally_add_Ok. unfold limits_ok; cbn [ty_limits].
    apply (fold_left_ind (λ d, NoDup d.*1 ∧ ∀ x, x ∈ d → ∃ s, x ∈ slot_limits s)); [exact H1|].
    intros d kl Hkl. by apply (add_limit_ok scope).
  - split; [apply NoDup_nil_2|]. intros x H. by apply not_elem_of_nil in H.
Qed.

(** Costs are positive and every key has a scope. *)
Definition costs_ok (ty : tally) : Prop :=
  NoDup (ty_costs ty).*1 ∧ ∀ k c, (k, c) ∈ ty_costs ty → 0 < c.

Lemma add_cost_ok cost d k :
  0 < cost → (NoDup d.*1 ∧ ∀ k c, (k, c) ∈ d → 0 < c) →
  NoDup (add_cost cost d k).*1 ∧ ∀ k' c, (k', c) ∈ add_cost cost d k → 0 < c.
Proof.
  intros Hc [Hnd Hd]. unfold add_cost. split; [by apply dict_set_NoDup|].
  intros k' c [[= -> ->]|Hx]%dict_set_elem; [|by eapply Hd].
  destruct (dict_get k d) as [c'|] eqn:Hg; simpl; [|qclra].
  apply dict_get_elem, Hd in Hg. qclra.
Qed.

Lemma tally_costs_ok cx reqs ty : tally_all cx (Tally [] [] [] []) reqs = Ok ty → costs_ok ty.
Proof.
  apply tally_all_ind.
  - intros ty1 [scope cost] ty2 _ H1 (Hc & _ & _ & ->)%tally_add_Ok. unfold costs_ok; cbn [ty_costs].
    apply (fold_left_ind (λ d, NoDup d.*1 ∧ ∀ k c, (k, c) ∈ d → 0 < c)); [exact H1|].
    intros d k _. by apply add_cost_ok.
  - split; [apply NoDup_nil_2|]. intros k c H. by apply not_elem_of_nil in H.
Qed.

(** A fold of updates adds the keys it is given. *)
Lemma fold_set_keys {V X} (key : X → string) (f : list (string * V) → X → list (string * V)) l :
  (∀ d x, ∃ v, f d x = dict_set (key x) v d) →
  ∀ d k, k ∈ (fold_left f l d).*1 ↔ k ∈ d.*1 ∨ k ∈ key <$> l.
Proof using.
  intros Hf. induction l as [|x l IH]; intros d k; simpl.
  - split; [by left|]. intros [?|H]; [done|by apply not_elem_of_nil in H].
  - rewrite IH. destruct (Hf d x) as [v ->]. rewrite elem_of_cons, dict_set_keys.
    case_decide as Hin; [|rewrite elem_of_app, list_elem_of_singleton]; naive_solver.
Qed.

Lemma bucket_keys_length cx : (length (bucket_keys cx) ≤ length bucket_scopes)%nat.
Proof using. unfold Admission.bucket_keys. destruct (resource_of cx), (cx_paced cx); simpl; lia. Qed.

Lemma slot_limits_length cx : (length ((slot_limits cx).*1) ≤ length slot_scopes)%nat.
Proof using. unfold Admission.slot_limits. rewrite length_fmap. destruct (resource_of cx); simpl; lia. Qed.

Definition scopes_ok (ty : tally) : Prop :=
  (∀ k, k ∈ (ty_costs ty).*1 → k ∈ (ty_scopes ty).*1) ∧ (∀ k, k ∈ (ty_limits ty).*1 → k ∈ (ty_scopes ty).*1).

Lemma tally_scopes_ok cx reqs ty : tally_all cx (Tally [] [] [] []) reqs = Ok ty → scopes_ok ty.
Proof.
  apply tally_all_ind.
  - intros ty1 [scope cost] ty2 _ [H1 H2] (Hc & _ & _ & ->)%tally_add_Ok.
    assert (Hk : ∀ k, k ∈ (fold_left add_scope (zip ((slot_limits scope).*1) slot_scopes)
        (fold_left add_scope (zip (bucket_keys scope) bucket_scopes) (ty_scopes ty1))).*1 ↔
      (k ∈ (ty_scopes ty1).*1 ∨ k ∈ bucket_keys scope) ∨ k ∈ (slot_limits scope).*1).
    { intros k. rewrite !(fold_set_keys fst) by (intros d x; by eexists).
      rewrite !fst_zip by (apply bucket_keys_length || apply slot_limits_length). done. }
    split; intros k; cbn [ty_costs ty_limits ty_scopes]; rewrite Hk.
    + rewrite (fold_set_keys (λ k, k)) by (intros d x; by eexists). rewrite list_fmap_id. naive_solver.
    + rewrite (fold_set_keys fst) by (intros d x; by eexists). naive_solver.
  - split; intros k H; by apply not_elem_of_nil in H.
Qed.

Section Digest.
(** A SHA-256 digest in hexadecimal has 64 digits. *)
Context (Hhash : ∀ l, String.length (hash l) = 64%nat).

Ltac by_length :=
  match goal with
  | H : @eq string _ _ |- _ =>
    exfalso; apply (f_equal String.length) in H;
    repeat (unfold resource_key, workload_key, tenant_key in H || rewrite !strlen_app in H || rewrite !Hhash in H);
    simpl in H; lia
  end.

(** The three kinds of slot keys never meet. *)
Lemma slot_limit_of k l scope :
  (k, l) ∈ slot_limits scope →
  (k = prefix +:+ "active" → l = li_global li) ∧
  (∀ cx, k = tenant_key hash namespace cx +:+ ":active" → l = li_tenant li) ∧
  (∀ cx r, k = resource_key hash namespace cx r +:+ ":active" → l = li_resource li).
Proof.
  unfold Admission.slot_limits. rewrite elem_of_app, !elem_of_cons, elem_of_nil.
  intros [[[= -> ->]|[[= -> ->]|[]]]|H].
  1,2: split; [intros Hk; (done || by_length)|split; intros; (done || by_length)].
  destruct (resource_of scope) as [r'|]; [|by apply not_elem_of_nil in H].
  apply list_elem_of_singleton in H as [= -> ->].
  split; [intros Hk; by_length|split; intros; (done || by_length)].
Qed.

Lemma add_cost_other cost k l : ∀ d, k ∉ l → dict_get k (fold_left (add_cost cost) l d) = dict_get k d.
Proof using.
  induction l as [|k' l IH]; intros d Hk; [done|]. simpl. rewrite IH by (by intros ?; apply Hk; right).
  unfold add_cost. rewrite dict_get_set, decide_False; [done|]. intros ->. apply Hk. left.
Qed.

Lemma global_cost_step cost scope d :
  dict_get (prefix +:+ "rate") (fold_left (add_cost cost) (bucket_keys scope) d) =
    Some (default 0 (dict_get (prefix +:+ "rate") d) + cost).
Proof.
  unfold Admission.bucket_keys. rewrite <- app_comm_cons. cbn [fold_left].
  rewrite add_cost_other; [unfold add_cost at 1; by rewrite dict_get_set, decide_True|].
  rewrite elem_of_app, !elem_of_cons, elem_of_nil. intros [[H|[H|[H|[]]]]|H]; [by_length..|].
  destruct (resource_of scope) as [r|]; [|by apply not_elem_of_nil in H].
  apply elem_of_cons in H as [H|H]; [by_length|]. destruct (cx_paced scope); [|by apply not_elem_of_nil in H].
  apply list_elem_of_singleton in H. by_length.
Qed.

(** The global bucket is charged the sum of the costs. *)
Lemma tally_global_cost cx reqs : ∀ ty ty',
  tally_all cx ty reqs = Ok ty' →
  default 0 (dict_get (prefix +:+ "rate") (ty_costs ty')) =
    default 0 (dict_get (prefix +:+ "rate") (ty_costs ty)) + foldr Qcplus 0 (reqs.*2) ∧
  (is_Some (dict_get (prefix +:+ "rate") (ty_costs ty')) ↔
    reqs ≠ [] ∨ is_Some (dict_get (prefix +:+ "rate") (ty_costs ty))).
Proof.
  induction reqs as [|[scope cost] reqs IH]; intros ty ty'; simpl.
  - intros [= <-]. split; [ring|]. split; [by right|by intros [?|?]].
  - intros (ty1 & (_ & _ & _ & ->)%tally_add_Ok & Hall)%bind_Ok. apply IH in Hall as [Hs Hi].
    cbn [ty_costs] in Hs, Hi. rewrite global_cost_step in Hs, Hi. simpl in Hs. split; [rewrite Hs; by rewrite <- Qcplus_assoc|].
    rewrite Hi. split; [by left|]. intros _. right. by eexists.
Qed.
End Digest.

Lemma admit_plan_Ok reqs budget weight p paced scopes :
  admit_plan hash namespace li reqs budget weight = Ok (p, paced, scopes) →
  ∃ cx ty, tally_all cx (Tally [] [] [] []) reqs = Ok ty ∧ reqs ≠ [] ∧ (length reqs ≤ 21)%nat ∧
    pl_buckets p = bucket_spec li (ty_paced ty) <$> ty_costs ty ∧ pl_slots p = ty_limits ty ∧
    Forall (λ q, br_cost q ≤ br_cap q) (pl_buckets p) ∧
    pl_weight p = clamp_weight weight ∧ pl_charge p = foldr Qcmax 0 ((ty_costs ty).*2) ∧
    paced = ty_paced ty ∧ scopes = ty_scopes ty.
Proof.
  unfold admit_plan. destruct reqs as [|[cx c0] reqs]; [done|].
  intros (u1 & H1%raise_if_Ok & (ty & Hty & (u2 & H2%raise_if_Ok & (u3 & H3%raise_if_Ok & H)%bind_Ok)%bind_Ok)%bind_Ok)%bind_Ok.
  injection H as <- <- <-. exists cx, ty. apply Nat.ltb_ge in H1.
  do 5 (split; [done|]). split; [|done]. cbn [pl_buckets]. apply existsb_Forall in H2. eapply Forall_impl; [exact H2|].
  intros q Hq%bool_decide_eq_false. qclra.
Qed.
End Plan.

Lemma bucket_spec_key li paced kc : br_key (bucket_spec li paced kc) = kc.1.
Proof. unfold bucket_spec. by case_decide. Qed.

Lemma bucket_spec_cost li paced kc : br_cost (bucket_spec li paced kc) = kc.2.
Proof. unfold bucket_spec. by case_decide. Qed.

Lemma bucket_spec_rate li paced kc :
  valid_limits li = true → 0 < br_rate (bucket_spec li paced kc) ∧ 0 < br_cap (bucket_spec li paced kc).
Proof.
  unfold valid_limits. intros H. bools. unfold bucket_spec. case_decide; simpl; [split; by vm_compute|by split].
Qed.

Lemma max_charge (l : list Qc) x : x ∈ l → x ≤ foldr Qcmax 0 l.
Proof.
  induction l as [|y l IH]; intros H; [by apply not_elem_of_nil in H|]. simpl.
  apply elem_of_cons in H as [->|H]; [|specialize (IH H)]; qcases; qclra.
Qed.

(** What the coordinator and the fair queue rely on. *)
Record well_formed (li : limits) (p : plan) : Prop := WellFormed {
  wf_bucket_keys : NoDup (br_key <$> pl_buckets p);
  wf_slot_keys : NoDup (pl_slots p).*1;
  wf_costs : Forall (λ q, 0 < br_rate q ∧ 0 < br_cost q ∧ br_cost q ≤ br_cap q ∧ br_cost q ≤ pl_charge p) (pl_buckets p);
  wf_limits : Forall (λ s, 1 ≤ s.2)%Z (pl_slots p);
  wf_weight : (1 ≤ pl_weight p ≤ 8)%Z;
}.

Lemma slot_limits_pos hash namespace li scope x :
  valid_limits li = true → x ∈ slot_limits hash namespace li scope → (1 ≤ x.2)%Z.
Proof.
  unfold valid_limits. intros H. bools. unfold slot_limits. rewrite elem_of_app, !elem_of_cons, elem_of_nil.
  intros [[->|[->|[]]]|Hx]; [done|done|]. destruct (resource_of scope); [|by apply not_elem_of_nil in Hx].
  by apply list_elem_of_singleton in Hx as ->.
Qed.

Lemma admit_plan_well_formed hash namespace li reqs budget weight p paced scopes :
  valid_limits li = true → admit_plan hash namespace li reqs budget weight = Ok (p, paced, scopes) → well_formed li p.
Proof.
  intros Hli (cx & ty & Hty & _ & _ & Hb & Hs & Hcap & Hw & Hc & _)%admit_plan_Ok.
  destruct (tally_costs_ok _ _ _ _ _ _ Hty) as [Hnd Hpos]. destruct (tally_limits_ok _ _ _ _ _ _ Hty) as [Hnds Hls].
  split.
  - rewrite Hb, <- list_fmap_compose. erewrite list_fmap_ext; [exact Hnd|]. intros i kc _. apply bucket_spec_key.
  - by rewrite Hs.
  - rewrite Forall_forall in *. intros q Hq. specialize (Hcap q Hq). rewrite Hb in Hq.
    apply list_elem_of_fmap in Hq as ([k c] & -> & Hin). destruct (bucket_spec_rate li (ty_paced ty) (k, c) Hli) as [Hr _].
    rewrite bucket_spec_cost in *. simpl in *. split; [done|]. split; [by eapply Hpos|]. split; [done|].
    rewrite Hc. apply max_charge. by apply (list_elem_of_fmap_2 snd _ (k, c)).
  - rewrite Forall_forall, Hs. intros x Hx. destruct (Hls x Hx) as [scope Hsc]. by eapply slot_limits_pos.
  - rewrite Hw. unfold clamp_weight. case_decide; lia.
Qed.

(** A batch that passes the checks of [admit_many] asks the coordinator for
    something it can grant: distinct keys, every cost positive and within its bucket's
    burst and at most the flow's charge, every slot limit at least one, a weight between
    1 and 8; the global bucket is charged the sum of the costs, and every bucket and slot
    a refusal may name has a scope to report. *)
Theorem admission_plan_is_well_formed hash namespace li reqs budget weight p paced scopes :
  (∀ l, String.length (hash l) = 64%nat) → valid_limits li = true →
  admit_plan hash namespace li reqs budget weight = Ok (p, paced, scopes) →
  well_formed li p ∧
  (∃ q, q ∈ pl_buckets p ∧ br_key q = prefix hash namespace +:+ "rate" ∧ br_cost q = foldr Qcplus 0 (reqs.*2)) ∧
  Forall (λ q, is_Some (dict_get (br_key q) scopes)) (pl_buckets p) ∧
  Forall (λ s, is_Some (dict_get s.1 scopes)) (pl_slots p).
Proof.
  intros Hh Hli Hp. split; [by eapply admit_plan_well_formed|].
  apply admit_plan_Ok in Hp as (cx & ty & Hty & Hne & _ & Hb & Hs & _ & _ & _ & _ & ->).
  destruct (tally_scopes_ok _ _ _ _ _ _ Hty) as [Hs1 Hs2]. split; [|split].
  - destruct (tally_global_cost _ _ _ Hh _ _ _ _ Hty) as [Hsum [_ Hsome]].
    destruct (Hsome (or_introl Hne)) as [v Hv]. rewrite Hv in Hsum. simpl in Hsum.
    exists (bucket_spec li (ty_paced ty) (prefix hash namespace +:+ "rate", v)).
    rewrite bucket_spec_key, bucket_spec_cost, Hb. split; [|split; [done|simpl; rewrite Hsum; ring]].
    by apply list_elem_of_fmap_2, dict_get_elem.
  - rewrite Hb. apply Forall_fmap, Forall_forall. intros kc Hin. simpl. rewrite bucket_spec_key, dict_get_is_Some.
    apply Hs1. by apply list_elem_of_fmap_2.
  - rewrite Hs. apply Forall_forall. intros kl Hin. rewrite dict_get_is_Some. apply Hs2. by apply list_elem_of_fmap_2.
Qed.

(** Every poll and cooldown of the sequence was issued by the clients of one deployment. *)
Definition planned (hash : list string → string) (namespace : string) (li : limits) (ops : list (Qc * op)) : Prop :=
  (∀ now token p, (now, OGrant token p) ∈ ops →
    ∃ reqs budget weight paced scopes, Forall (λ req, valid_context req.1 = true) reqs ∧
      admit_plan hash namespace li reqs budget weight = Ok (p, paced, scopes)) ∧
  (∀ now secs key, (now, OCooldown secs key) ∈ ops →
    ∃ cx, cooldown_op hash namespace cx secs = Ok (OCooldown secs key)).

Lemma planned_limits hash namespace li ops k L :
  planned hash namespace li ops →
  (∀ scope l, (k, l) ∈ slot_limits hash namespace li scope → (l = L)%Z) → limits_within k L ops.
Proof.
  intros [Hp _] HL now token p l Hop Hin. destruct (Hp _ _ _ Hop) as (reqs & b & w & pc & sc & _ & Hplan).
  apply admit_plan_Ok in Hplan as (cx & ty & Hty & _ & _ & _ & Hs & _). rewrite Hs in Hin.
  destruct (tally_limits_ok _ _ _ _ _ _ Hty) as [_ Hls]. destruct (Hls _ Hin) as [scope Hsc].
  by rewrite (HL _ _ Hsc).
Qed.

(** C31: Over every sequence of polls, renewals, releases and cooldowns, in whatever order
    the clients' scripts reach the coordinator, the transmissions that hold an unexpired
    lease never exceed the configured concurrency: in all, per tenant, and per resource.
    Holders are counted from the outcomes the clients saw, not from the coordinator's
    keys, so an expiring key never frees a slot early. *)
Theorem network_slots_are_respected hash namespace li ops t0 t c outs :
  (∀ l, String.length (hash l) = 64%nat) → valid_limits li = true →
  planned hash namespace li ops → in_time t0 ops → run (li_lease li) ops empty_coord = (c, outs) →
  last_time t0 ops ≤ t →
  let holders k := Z.of_nat (size (after t (ledger (li_lease li) k outs))) in
  (holders (prefix hash namespace +:+ "active") ≤ li_global li)%Z ∧
  (∀ cx, holders (tenant_key hash namespace cx +:+ ":active") ≤ li_tenant li)%Z ∧
  (∀ cx r, holders (resource_key hash namespace cx r +:+ ":active") ≤ li_resource li)%Z.
Proof.
  intros Hh Hli Hp Hin Hr Ht holders. unfold valid_limits in Hli. bools.
  split; [|split; intros].
  all: eapply holders_within; [lia|done|done| |done]; eapply planned_limits; [done|];
    intros scope l Hsc; by eapply slot_limit_of in Hsc as (H1' & H2' & H3'); eauto.
Qed.
