(* ===== verification/AdmissionRate.v ===== *)
(** * Scoped provider admission: rates, cooldowns and withdrawals

    The buckets and the cancelled tokens of [Admission] over every sequence of scripts. *)

From Stdlib Require Import QArith Qcanon Lqa.
From stdpp Require Import numbers.
From S2P Require Import Prelude.
From S2P Require Import Rational.
From S2P Require Import Admission.
From S2P Require Import AdmissionSafety.
From S2P Require Import AdmissionPlan.
Local Open Scope Qc_scope.

(** ** What a poll does to a bucket *)

Definition hash_of (bs : gmap string bucket_hash) (k : string) : bucket_hash := default no_bucket (bs !! k).

Lemma hash_of_insert_ne k k' h bs : k ≠ k' → hash_of (<[k := h]> bs) k' = hash_of bs k'.
Proof. intros H. unfold hash_of. by rewrite lookup_insert_ne. Qed.

(** The bucket after a grant took the cost of [q]. *)
Definition taken (now : Qc) (q : bucket_req) (h : bucket_hash) : bucket_hash :=
  BucketHash (Some now) (Some (balance now h q - br_cost q)) (bh_until h) (bh_deadline (touch now q h)).

Lemma scan_bucket_ge now i h q sc : sc_wait sc ≤ sc_wait (scan_bucket now i h q sc).
Proof. unfold scan_bucket. eapply Qcle_trans; apply longer_ge. Qed.

Lemma scan_bucket_free now i h q sc :
  0 < br_rate q → sc_wait (scan_bucket now i h q sc) ≤ 0 → until_of h ≤ now ∧ br_cost q ≤ balance now h q.
Proof.
  intros Hr Hw. unfold scan_bucket in Hw.
  pose proof (longer_wait (Qcmax 0 (br_cost q - balance now h q) / br_rate q) Rate i (longer (until_of h - now) Cooldown i sc)) as H1.
  pose proof (longer_ge (Qcmax 0 (br_cost q - balance now h q) / br_rate q) Rate i (longer (until_of h - now) Cooldown i sc)) as H2.
  pose proof (longer_wait (until_of h - now) Cooldown i sc) as H3. split; [qclra|].
  assert (H4 : Qcmax 0 (br_cost q - balance now h q) / br_rate q ≤ 0) by qclra.
  apply Qcdiv_le_iff in H4; [|done]. rewrite Qcmult_0_l in H4. qcases; qclra.
Qed.

Section Scan.
Context (now : Qc).

Lemma scan_buckets_ge qs : ∀ i bs sc, sc_wait sc ≤ sc_wait (scan_buckets now i qs bs sc).1.2.
Proof using.
  induction qs as [|q qs IH]; intros i bs sc; [apply Qcle_refl|]. cbn [scan_buckets].
  pose proof (IH (i + 1)%Z (<[br_key q := touch now q (default no_bucket (bs !! br_key q))]> bs)
    (scan_bucket now i (default no_bucket (bs !! br_key q)) q sc)) as H.
  destruct (scan_buckets _ _ _ _ _) as [[bs' sc'] vs]. simpl in *. eapply Qcle_trans; [apply scan_bucket_ge|exact H].
Qed.

Lemma scan_buckets_values qs : ∀ i bs sc, NoDup (br_key <$> qs) →
  (scan_buckets now i qs bs sc).2 = (λ q, balance now (hash_of bs (br_key q)) q) <$> qs.
Proof using.
  induction qs as [|q qs IH]; intros i bs sc Hnd; [done|]. cbn [scan_buckets]. rewrite fmap_cons in *.
  apply NoDup_cons in Hnd as [Hni Hnd].
  specialize (IH (i + 1)%Z (<[br_key q := touch now q (default no_bucket (bs !! br_key q))]> bs)
    (scan_bucket now i (default no_bucket (bs !! br_key q)) q sc) Hnd).
  destruct (scan_buckets _ _ _ _ _) as [[bs' sc'] vs]. simpl in *. subst vs. f_equal.
  apply list_fmap_ext. intros j q' Hq. unfold hash_of. rewrite lookup_insert_ne; [done|].
  intros Heq. apply Hni. rewrite Heq. apply list_elem_of_fmap_2. by eapply list_elem_of_lookup_2.
Qed.

Lemma scan_buckets_other qs : ∀ i bs sc k, k ∉ br_key <$> qs → (scan_buckets now i qs bs sc).1.1 !! k = bs !! k.
Proof using.
  induction qs as [|q qs IH]; intros i bs sc k Hk; [done|]. cbn [scan_buckets]. rewrite fmap_cons, not_elem_of_cons in Hk.
  destruct Hk as [Hne Hk].
  specialize (IH (i + 1)%Z (<[br_key q := touch now q (default no_bucket (bs !! br_key q))]> bs)
    (scan_bucket now i (default no_bucket (bs !! br_key q)) q sc) k Hk).
  destruct (scan_buckets _ _ _ _ _) as [[bs' sc'] vs]. simpl in *. by rewrite IH, lookup_insert_ne.
Qed.

Lemma scan_buckets_touch qs : ∀ i bs sc q, NoDup (br_key <$> qs) → q ∈ qs →
  hash_of (scan_buckets now i qs bs sc).1.1 (br_key q) = touch now q (hash_of bs (br_key q)).
Proof using.
  induction qs as [|q' qs IH]; intros i bs sc q Hnd Hq; [by apply not_elem_of_nil in Hq|].
  rewrite fmap_cons in Hnd. apply NoDup_cons in Hnd as [Hni Hnd]. cbn [scan_buckets].
  set (bs1 := <[br_key q' := touch now q' (default no_bucket (bs !! br_key q'))]> bs).
  set (sc1 := scan_bucket now i (default no_bucket (bs !! br_key q')) q' sc).
  pose proof (scan_buckets_other qs (i + 1)%Z bs1 sc1 (br_key q') Hni) as Ho.
  specialize (IH (i + 1)%Z bs1 sc1 q Hnd).
  destruct (scan_buckets _ _ _ _ _) as [[bs' sc'] vs]. simpl in *.
  apply elem_of_cons in Hq as [->|Hq].
  - unfold hash_of at 1. rewrite Ho. unfold bs1. by rewrite lookup_insert_eq.
  - rewrite (IH Hq). unfold hash_of, bs1. rewrite lookup_insert_ne; [done|].
    intros Heq. apply Hni. rewrite Heq. by apply list_elem_of_fmap_2.
Qed.

Lemma scan_buckets_free qs : ∀ i bs sc q, NoDup (br_key <$> qs) → Forall (λ q, 0 < br_rate q) qs →
  sc_wait (scan_buckets now i qs bs sc).1.2 ≤ 0 → q ∈ qs →
  until_of (hash_of bs (br_key q)) ≤ now ∧ br_cost q ≤ balance now (hash_of bs (br_key q)) q.
Proof using.
  induction qs as [|q' qs IH]; intros i bs sc q Hnd Hr Hw Hq; [by apply not_elem_of_nil in Hq|].
  rewrite fmap_cons in Hnd. apply NoDup_cons in Hnd as [Hni Hnd]. apply Forall_cons in Hr as [Hr' Hr].
  cbn [scan_buckets] in Hw.
  set (bs1 := <[br_key q' := touch now q' (default no_bucket (bs !! br_key q'))]> bs) in *.
  set (sc1 := scan_bucket now i (default no_bucket (bs !! br_key q')) q' sc) in *.
  pose proof (scan_buckets_ge qs (i + 1)%Z bs1 sc1) as Hge. specialize (IH (i + 1)%Z bs1 sc1 q Hnd Hr).
  destruct (scan_buckets _ _ _ _ _) as [[bs' sc'] vs]. simpl in *.
  apply elem_of_cons in Hq as [->|Hq].
  - eapply (scan_bucket_free now i _ _ sc); [done|]. fold (hash_of bs (br_key q')) in sc1. fold sc1. qclra.
  - specialize (IH Hw Hq). unfold hash_of, bs1 in IH. rewrite lookup_insert_ne in IH; [done|].
    intros Heq. apply Hni. rewrite Heq. by apply list_elem_of_fmap_2.
Qed.
End Scan.

Lemma spends_other qs vs bs k :
  k ∉ br_key <$> qs → foldr (λ qv bs, spend qv.1 qv.2 bs) bs (zip qs vs) !! k = bs !! k.
Proof.
  revert vs. induction qs as [|q qs IH]; intros [|v vs] Hk; try done. simpl.
  rewrite fmap_cons, not_elem_of_cons in Hk. destruct Hk as [Hne Hk]. unfold spend at 1.
  by rewrite lookup_insert_ne, IH.
Qed.

Lemma spends_key qs (f : bucket_req → Qc) bs q :
  NoDup (br_key <$> qs) → q ∈ qs →
  let h := hash_of bs (br_key q) in
  hash_of (foldr (λ qv bs, spend qv.1 qv.2 bs) bs (zip qs (f <$> qs))) (br_key q) =
    BucketHash (bh_last h) (Some (f q - br_cost q)) (bh_until h) (bh_deadline h).
Proof.
  induction qs as [|q' qs IH]; intros Hnd Hq; [by apply not_elem_of_nil in Hq|]. rewrite fmap_cons in Hnd.
  apply NoDup_cons in Hnd as [Hni Hnd]. cbn [fmap list_fmap zip zip_with foldr fst snd]. unfold spend at 1.
  apply elem_of_cons in Hq as [->|Hq].
  - unfold hash_of. rewrite lookup_insert_eq. rewrite spends_other by done. done.
  - rewrite hash_of_insert_ne; [by apply IH|].
    intros Heq. apply Hni. rewrite Heq. by apply list_elem_of_fmap_2.
Qed.

Definition plan_keys (p : plan) : list string := br_key <$> pl_buckets p.

Lemma buckets_queued now token p c : co_buckets (queued now token p c) = co_buckets (expire_keys now c).
Proof. unfold queued, enqueue. by destruct (co_pending _ !! token). Qed.

(** The effect of a poll on the bucket [k], by its reply. *)
Inductive bucket_effect (now : Qc) (p : plan) (k : string) (h : bucket_hash) (r : reply) : bucket_hash → Prop :=
  | be_same : (r = RGranted → k ∉ plan_keys p) → bucket_effect now p k h r h
  | be_touch q : q ∈ pl_buckets p → br_key q = k → r ≠ RGranted → bucket_effect now p k h r (touch now q h)
  | be_taken q : q ∈ pl_buckets p → br_key q = k → r = RGranted → until_of h ≤ now → br_cost q ≤ balance now h q →
      bucket_effect now p k h r (taken now q h).

Lemma grant_bucket now lease token p c c' r k :
  NoDup (plan_keys p) → Forall (λ q, 0 < br_rate q) (pl_buckets p) → grant now lease token p c = (c', r) →
  bucket_effect now p k (bucket_at (expire_keys now c) k) r (bucket_at c' k).
Proof.
  intros Hnd Hr. rewrite grant_eq.
  case_decide; [intros [= <- <-]; by apply be_same|]. case_decide; [intros [= <- <-]; by apply be_same|].
  unfold scanned. rewrite buckets_queued.
  destruct (scan_buckets now 1 (pl_buckets p) (co_buckets (expire_keys now c)) (Scan 0 NoReason 0)) as [[bs sc] vs] eqn:Hs.
  destruct (scan_slots now 1 (pl_slots p) _ sc) as [zs sc'] eqn:Hz.
  pose proof (scan_slots_ge now (pl_slots p) 1 (co_slots (queued now token p c)) sc) as Hge. rewrite Hz in Hge. simpl in Hge.
  set (c1 := Coord bs zs _ _ _ _ _ _).
  assert (Hvs : vs = (λ q, balance now (hash_of (co_buckets (expire_keys now c)) (br_key q)) q) <$> pl_buckets p).
  { by rewrite <- (scan_buckets_values now _ 1 _ (Scan 0 NoReason 0) Hnd), Hs. }
  assert (Htouch : ∀ q, q ∈ pl_buckets p → br_key q = k → hash_of bs k = touch now q (bucket_at (expire_keys now c) k)).
  { intros q Hq <-. pose proof (scan_buckets_touch now _ 1 (co_buckets (expire_keys now c)) (Scan 0 NoReason 0) q Hnd Hq) as H1.
    by rewrite Hs in H1. }
  assert (Hother : k ∉ plan_keys p → bs !! k = co_buckets (expire_keys now c) !! k).
  { intros Hk. pose proof (scan_buckets_other now _ 1 (co_buckets (expire_keys now c)) (Scan 0 NoReason 0) k Hk) as H1.
    by rewrite Hs in H1. }
  assert (Hrefused : ∀ r, r ≠ RGranted → bucket_effect now p k (bucket_at (expire_keys now c) k) r (bucket_at c1 k)).
  { intros r' Hr'. change (bucket_at c1 k) with (hash_of bs k). destruct (decide (k ∈ plan_keys p)) as [Hk|Hk].
    - apply list_elem_of_fmap in Hk as (q & -> & Hq). rewrite (Htouch q Hq eq_refl). by apply be_touch.
    - unfold hash_of. rewrite Hother by done. by apply be_same. }
  case_decide as Hw; [intros [= <- <-]; by apply Hrefused|].
  destruct (elect now c1) as [ch|]; [|intros [= <- <-]; by apply Hrefused].
  case_decide; [|intros [= <- <-]; by apply Hrefused]. intros [= <- <-].
  change (bucket_at (commit _ _ _ _ _ _ _ _) k) with
    (hash_of (foldr (λ qv bs, spend qv.1 qv.2 bs) bs (zip (pl_buckets p) vs)) k).
  destruct (decide (k ∈ plan_keys p)) as [Hk|Hk].
  - apply list_elem_of_fmap in Hk as (q & -> & Hq). rewrite Hvs, spends_key by done.
    rewrite (Htouch q Hq eq_refl). apply (be_taken now p (br_key q) (bucket_at (expire_keys now c) (br_key q)) RGranted q); [done|done|done|..].
    all: pose proof (scan_buckets_free now _ 1 (co_buckets (expire_keys now c)) (Scan 0 NoReason 0) q Hnd Hr) as Hf;
      rewrite Hs in Hf; apply Hf; [simpl; qclra|done].
  - unfold hash_of. rewrite spends_other, Hother by done. by apply be_same.
Qed.

(** A cooldown raises [until] and keeps the tokens. *)
Definition cooled (now secs : Qc) (h : bucket_hash) : bucket_hash :=
  let u := Qcmax (until_of h) (now + secs) in
  BucketHash (bh_last h) (bh_tokens h) (Some u) (Some (now + Qcceil (u - now + seconds 600))).

Lemma bucket_at_cooldown now secs key c k :
  bucket_at (cooldown now secs key c) k =
    let h := bucket_at (expire_keys now c) k in if decide (key = k) then cooled now secs h else h.
Proof.
  unfold cooldown. cbv zeta. unfold bucket_at at 1. cbn [co_buckets]. case_decide as Hk.
  - subst key. by rewrite lookup_insert_eq.
  - by rewrite lookup_insert_ne.
Qed.

(** ** Rates *)

Section Rate.
(** A bucket every plan describes alike, and which refills within the 600 seconds its
    key is kept. *)
Context (k : string) (rate cap : Qc) (Hrate : 0 < rate) (Hcap : 0 ≤ cap) (Httl : cap ≤ seconds 600 * rate).

Definition described (p : plan) : Prop :=
  NoDup (plan_keys p) ∧ Forall (λ q, 0 < br_rate q ∧ 0 < br_cost q) (pl_buckets p) ∧
  ∀ q, q ∈ pl_buckets p → br_key q = k → br_rate q = rate ∧ br_cap q = cap.

Definition hash_level (h : bucket_hash) (t : Qc) : Qc :=
  level rate cap (default t (bh_last h)) (default cap (bh_tokens h)) t.

(** The tokens lie within the bucket, and the key outlives the refill. *)
Definition hash_ok (t : Qc) (h : bucket_hash) : Prop :=
  match bh_last h, bh_tokens h with
  | None, None => True
  | Some l, Some v => l ≤ t ∧ 0 ≤ v ∧ v ≤ cap ∧ ∃ d, bh_deadline h = Some d ∧ l + seconds 600 ≤ d
  | _, _ => False
  end.

Lemma hash_ok_later t t' h : t ≤ t' → hash_ok t h → hash_ok t' h.
Proof using. clear Hrate Hcap Httl. intros Ht. unfold hash_ok. destruct (bh_last h), (bh_tokens h); try done. intros (H1 & H2). split; [qclra|done]. Qed.

Lemma no_bucket_level t : hash_level no_bucket t = cap.
Proof using. unfold hash_level. simpl. apply level_now, Qcle_refl. Qed.

Lemma hash_level_cap h t : hash_level h t ≤ cap.
Proof using. apply level_le_cap. Qed.

Lemma hash_level_nonneg t h : hash_ok t h → 0 ≤ hash_level h t.
Proof using Hrate Hcap.
  clear Httl. intros H. apply level_nonneg; [by apply Qclt_le_weak|done|]. unfold hash_ok in H.
  destruct (bh_last h), (bh_tokens h); simpl; naive_solver.
Qed.

(** An expired key was full. *)
Lemma expire_level now c :
  hash_ok now (bucket_at c k) →
  hash_ok now (bucket_at (expire_keys now c) k) ∧
  ∀ t, now ≤ t → hash_level (bucket_at (expire_keys now c) k) t = hash_level (bucket_at c k) t.
Proof using Hrate Httl.
  clear Hcap. intros H. rewrite bucket_at_expire. destruct (expired _ _) eqn:E; [|done]. split; [done|].
  intros t Ht. rewrite no_bucket_level. unfold hash_level. unfold hash_ok in H.
  destruct (bh_last (bucket_at c k)) as [l|], (bh_tokens (bucket_at c k)) as [v|]; simpl; try done.
  - destruct H as (Hl & H0 & Hv & d & Hd & Hle). rewrite Hd in E. simpl in E. apply bool_decide_eq_true in E.
    symmetry. apply level_full; [qclra|done|]. eapply Qcle_trans; [exact Httl|].
    apply Qcmul_mono_r; [by apply Qclt_le_weak|]. qclra.
  - symmetry. apply level_now, Qcle_refl.
Qed.

Lemma hash_level_growth now h t : hash_ok now h → now ≤ t → hash_level h t ≤ hash_level h now + (t - now) * rate.
Proof using Hrate.
  clear Hcap Httl. intros H Ht. unfold hash_level, hash_ok in *. pose proof (Qclt_le_weak _ _ Hrate).
  destruct (bh_last h) as [l|], (bh_tokens h) as [v|]; simpl; try done.
  - apply level_growth; [done|by apply H|done].
  - rewrite !level_now by apply Qcle_refl. assert (0 ≤ (t - now) * rate) by (apply Qcmul_nonneg; [qclra|done]). qclra.
Qed.

Lemma balance_level now h q : br_rate q = rate → br_cap q = cap → balance now h q = hash_level h now.
Proof using. unfold balance, hash_level. by intros -> ->. Qed.

Lemma touch_ok now h q :
  br_rate q = rate → br_cap q = cap → hash_ok now h →
  hash_ok now (touch now q h) ∧ ∀ t, now ≤ t → hash_level (touch now q h) t = hash_level h t.
Proof using Hrate Hcap.
  clear Httl. intros Hqr Hqc H. pose proof (Qclt_le_weak _ _ Hrate) as Hr0. split.
  - unfold hash_ok, touch; simpl. rewrite (balance_level _ _ _ Hqr Hqc).
    split; [apply Qcle_refl|]. split; [by apply hash_level_nonneg|]. split; [apply hash_level_cap|].
    eexists. split; [done|]. pose proof (Qcceil_ge (Qcmax (seconds 600) (until_of h - now + seconds 600))).
    qcases; qclra.
  - intros t Ht. unfold hash_level at 1. simpl. rewrite (balance_level _ _ _ Hqr Hqc). unfold hash_level, hash_ok in *.
    destruct (bh_last h) as [l|], (bh_tokens h) as [v|]; simpl; try done.
    + apply level_compose; [done|by apply H|done].
    + rewrite !(level_now _ _ _ cap) by apply Qcle_refl. unfold level.
      assert (0 ≤ Qcmax 0 (t - now) * rate) by (apply Qcmul_nonneg; [qcases; qclra|done]).
      qcases; qclra.
Qed.

Lemma taken_ok now h q :
  br_rate q = rate → br_cap q = cap → hash_ok now h → 0 ≤ br_cost q → br_cost q ≤ balance now h q →
  hash_ok now (taken now q h) ∧ hash_level (taken now q h) now = hash_level h now - br_cost q.
Proof using Hrate Hcap.
  clear Httl. intros Hqr Hqc H H0 Hle. destruct (touch_ok now h q Hqr Hqc H) as [Ht _].
  rewrite (balance_level _ _ _ Hqr Hqc) in *. pose proof (hash_level_cap h now) as Hc. split.
  - unfold hash_ok in *. simpl in *. rewrite (balance_level _ _ _ Hqr Hqc) in *.
    split; [apply Qcle_refl|]. split; [qclra|]. split; [qclra|]. by destruct Ht as (_ & _ & _ & ?).
  - unfold hash_level at 1. simpl. rewrite (balance_level _ _ _ Hqr Hqc). apply level_now. qclra.
Qed.

(** What a poll's grant takes from [k]. *)
Definition cost_on (p : plan) : Qc := foldr Qcplus 0 (br_cost <$> filter (λ q, br_key q = k) (pl_buckets p)).

Definition outcome_cost (out : outcome) : Qc :=
  match out with Answered _ p RGranted => cost_on p | _ => 0 end.

(** The tokens of [k] granted over a run. *)
Definition spent (outs : list (Qc * outcome)) : Qc := foldr Qcplus 0 (outcome_cost <$> outs.*2).

Lemma cost_on_absent p : k ∉ plan_keys p → cost_on p = 0.
Proof using.
  clear. intros Hk. unfold cost_on. rewrite list_filter_none; [done|]. intros q Hq Heq. apply Hk. rewrite <- Heq.
  by apply list_elem_of_fmap_2.
Qed.

Lemma cost_on_key p q : NoDup (plan_keys p) → q ∈ pl_buckets p → br_key q = k → cost_on p = br_cost q.
Proof using.
  clear. unfold cost_on, plan_keys. induction (pl_buckets p) as [|q' qs IH]; intros Hnd Hq Hk; [by apply not_elem_of_nil in Hq|].
  rewrite fmap_cons in Hnd. apply NoDup_cons in Hnd as [Hni Hnd]. apply elem_of_cons in Hq as [->|Hq].
  - rewrite filter_cons_True by done. rewrite fmap_cons. simpl. rewrite list_filter_none; [simpl; ring|].
    intros q Hq Heq. apply Hni. rewrite Hk, <- Heq. by apply list_elem_of_fmap_2.
  - rewrite filter_cons_False; [by apply IH|]. intros Heq. apply Hni. rewrite Heq, <- Hk. by apply list_elem_of_fmap_2.
Qed.

Lemma exec_rate lease t now o c c' out :
  hash_ok t (bucket_at c k) → t ≤ now → exec lease now o c = (c', out) →
  (∀ token p, o = OGrant token p → described p) → (∀ secs key, o = OCooldown secs key → 0 ≤ secs) →
  hash_ok now (bucket_at c' k) ∧
  outcome_cost out + hash_level (bucket_at c' k) now ≤ hash_level (bucket_at c k) now.
Proof using Hrate Hcap Httl.
  intros H Ht He Hd Hsecs. apply (hash_ok_later _ _ _ Ht) in H. destruct (expire_level now c H) as [Hok Hl].
  specialize (Hl now (Qcle_refl _)).
  destruct o as [token p|token ks|token ks|secs key]; simpl in He.
  - destruct (grant now lease token p c) as [c1 r] eqn:Hg. injection He as <- <-.
    destruct (Hd token p eq_refl) as (Hnd & Hpos & Hdesc).
    assert (Hr : Forall (λ q, 0 < br_rate q) (pl_buckets p)) by (eapply Forall_impl; [done|]; by intros q [? _]).
    destruct (grant_bucket _ _ _ _ _ _ _ k Hnd Hr Hg) as [Hs|q Hq Hk Hn|q Hq Hk -> _ Hle].
    + split; [done|]. rewrite Hl. simpl. destruct r; [qclra|qclra|]. rewrite cost_on_absent by (by apply Hs). qclra.
    + destruct (Hdesc q Hq Hk) as [Hqr Hqc]. destruct (touch_ok now _ q Hqr Hqc Hok) as [Hto Htl]. split; [done|].
      rewrite (Htl now (Qcle_refl _)), Hl. simpl. destruct r; [qclra|qclra|done].
    + destruct (Hdesc q Hq Hk) as [Hqr Hqc]. rewrite Forall_forall in Hpos. destruct (Hpos q Hq) as [_ Hc].
      destruct (taken_ok now _ q Hqr Hqc Hok (Qclt_le_weak _ _ Hc) Hle) as [Hto Htl]. split; [done|].
      rewrite Htl, Hl. simpl. rewrite (cost_on_key p q) by done. qclra.
  - injection He as <- <-. split; [done|]. simpl. change (bucket_at (release _ _ _ _ _) k) with (bucket_at (expire_keys now c) k). qclra.
  - unfold renew in He. cbv zeta in He. destruct (forallb _ ks); injection He as <- <-; (split; [done|]); simpl.
    all: rewrite <- Hl, Qcplus_0_l; apply Qcle_refl.
  - injection He as <- <-. specialize (Hsecs secs key eq_refl). rewrite bucket_at_cooldown. cbv zeta. cbn [outcome_cost].
    rewrite <- Hl. set (h := bucket_at (expire_keys now c) k) in *.
    case_decide; [|split; [done|rewrite Qcplus_0_l; apply Qcle_refl]].
    split; [|rewrite Qcplus_0_l; apply Qcle_refl].
    pose proof (Qcceil_ge (Qcmax (until_of h) (now + secs) - now + seconds 600)) as Hc.
    unfold hash_ok in Hok |- *. simpl. destruct (bh_last h) as [l|], (bh_tokens h) as [v|]; try done.
    destruct Hok as (H1 & H2 & H3 & _). do 3 (split; [done|]). eexists. split; [done|].
    revert Hc. generalize (Qcceil (Qcmax (until_of h) (now + secs) - now + seconds 600)). intros z Hc.
    clear - H1 Hsecs Hc. qcases; qclra.
Qed.

Definition ops_described (ops : list (Qc * op)) : Prop :=
  (∀ now token p, (now, OGrant token p) ∈ ops → described p) ∧
  (∀ now secs key, (now, OCooldown secs key) ∈ ops → 0 ≤ secs).

Lemma run_rate lease ops : ∀ t c c' outs,
  hash_ok t (bucket_at c k) → in_time t ops → ops_described ops → run lease ops c = (c', outs) →
  hash_ok (last_time t ops) (bucket_at c' k) ∧
  spent outs + hash_level (bucket_at c' k) (last_time t ops) ≤
    hash_level (bucket_at c k) t + (last_time t ops - t) * rate.
Proof using Hrate Hcap Httl.
  induction ops as [|[now o] ops IH]; intros t c c' outs H Hin [Hd Hs] Hrun.
  { injection Hrun as <- <-. split; [done|]. unfold spent, last_time. simpl. clear. qclra. }
  destruct Hin as [Ht Hin]. simpl in Hrun. destruct (exec lease now o c) as [c1 out] eqn:He.
  destruct (run lease ops c1) as [c2 outs'] eqn:Hr. injection Hrun as <- <-. rewrite last_time_cons.
  destruct (exec_rate lease t now o c c1 out H Ht He) as [H1 Ha1].
  { intros token p ->. apply (Hd now token p). by left. }
  { intros secs key ->. apply (Hs now secs key). by left. }
  destruct (IH now c1 c2 outs' H1 Hin) as [H2 Ha2]; [|done|].
  { split; intros n x y Hx; [apply (Hd n x y)|apply (Hs n x y)]; by right. }
  split; [done|]. unfold spent in *. rewrite !fmap_cons. cbn [foldr snd].
  pose proof (hash_level_growth t (bucket_at c k) now H Ht) as Hg. clear - Ha1 Ha2 Hg. qclra.
Qed.

Lemma rate_window lease t0 pre c outs0 t1 ops c' outs :
  in_time t0 pre → ops_described pre → run lease pre empty_coord = (c, outs0) →
  last_time t0 pre ≤ t1 → in_time t1 ops → ops_described ops → run lease ops c = (c', outs) →
  spent outs ≤ cap + (last_time t1 ops - t1) * rate.
Proof using Hrate Hcap Httl.
  intros Hin Hd Hr Ht Hin1 Hd1 Hr1.
  destruct (run_rate lease pre t0 empty_coord c outs0 I Hin Hd Hr) as [H0 _].
  apply (hash_ok_later _ _ _ Ht) in H0. destruct (run_rate lease ops t1 c c' outs H0 Hin1 Hd1 Hr1) as [H1 Ha].
  pose proof (hash_level_nonneg _ _ H1) as Hp. pose proof (hash_level_cap (bucket_at c k) t1) as Hc.
  clear - Ha Hp Hc. qclra.
Qed.
End Rate.

(** ** Rates of a deployment *)

Section Deployment.
Context (hash : list string → string) (namespace : string) (li : limits).
Context (Hhash : ∀ l, String.length (hash l) = 64%nat).

(** The rate and burst of the bucket [k] of a context. *)
Definition bucket_limits (cx : context) (k : string) : Qc * Qc :=
  if cx_paced cx && bool_decide (k = List.last (bucket_keys hash namespace cx) "") then (1, 1)
  else (li_rate li, li_burst li).

(** The paced buckets have the longest keys. *)
Definition paced_length : nat := (String.length (prefix hash namespace) + 64 + 1 + 64 + 10 + 64 + 11)%nat.

Lemma paced_resource cx : valid_context cx = true → cx_paced cx = true → ∃ r, resource_of cx = Some r.
Proof using.
  unfold valid_context. intros H Hp. bools. rewrite Hp in *. simpl in *.
  destruct (resource_of cx) as [r|]; [by exists r|]. by rewrite orb_true_r in *.
Qed.

Lemma last_paced cx r :
  resource_of cx = Some r → cx_paced cx = true →
  List.last (bucket_keys hash namespace cx) "" = resource_key hash namespace cx r +:+ ":paced_chat".
Proof using. unfold bucket_keys. by intros -> ->. Qed.

Lemma resource_key_length cx r :
  String.length (resource_key hash namespace cx r) = (String.length (prefix hash namespace) + 64 + 1 + 64 + 10 + 64)%nat.
Proof using Hhash. unfold resource_key, workload_key, tenant_key. rewrite !strlen_app, !Hhash. simpl. lia. Qed.

Lemma bucket_key_paced cx k :
  valid_context cx = true → k ∈ bucket_keys hash namespace cx →
  String.length k = paced_length ↔ cx_paced cx = true ∧ k = List.last (bucket_keys hash namespace cx) "".
Proof using Hhash.
  intros Hv Hk. unfold paced_length. split.
  - intros Hl. unfold bucket_keys in Hk. rewrite elem_of_app in Hk. destruct Hk as [Hk|Hk].
    + rewrite !elem_of_cons, elem_of_nil in Hk. destruct Hk as [->|[->|[->|[->|[]]]]]; exfalso; revert Hl;
        unfold workload_key, tenant_key; rewrite !strlen_app, ?Hhash; simpl; lia.
    + destruct (resource_of cx) as [r|] eqn:Hr; [|by apply not_elem_of_nil in Hk].
      apply elem_of_cons in Hk as [->|Hk]; [rewrite resource_key_length in Hl; lia|].
      destruct (cx_paced cx) eqn:Hp; [|by apply not_elem_of_nil in Hk]. apply list_elem_of_singleton in Hk as ->.
      by rewrite (last_paced cx r).
  - intros [Hp ->]. destruct (paced_resource cx Hv Hp) as [r Hr]. rewrite (last_paced cx r) by done.
    rewrite strlen_app, resource_key_length. simpl. lia.
Qed.

(** Every key of the tally comes from a requirement, and the paced ones are exactly the
    keys of paced length. *)
Definition paced_ok (ty : tally) : Prop :=
  (∀ k, k ∈ (ty_costs ty).*1 → String.length k = paced_length → k ∈ ty_paced ty) ∧
  (∀ k, k ∈ ty_paced ty → String.length k = paced_length).

Lemma tally_paced_ok cx reqs ty :
  Forall (λ req, valid_context req.1 = true) reqs →
  tally_all hash namespace li cx (Tally [] [] [] []) reqs = Ok ty → paced_ok ty.
Proof using Hhash.
  intros Hv. apply tally_all_ind.
  - intros ty1 [scope cost] ty2 Hin [H1 H2] (_ & _ & _ & ->)%tally_add_Ok.
    rewrite Forall_forall in Hv. specialize (Hv _ Hin). simpl in Hv.
    split; intros k; cbn [ty_costs ty_paced].
    + rewrite (fold_set_keys (λ k, k)) by (intros d x; by eexists). rewrite list_fmap_id. intros [Hk|Hk] Hl.
      * specialize (H1 k Hk Hl). destruct (cx_paced scope); [by right|done].
      * apply (bucket_key_paced scope k Hv Hk) in Hl as [-> ->]. left.
    + destruct (cx_paced scope) eqn:Hp; [|apply H2]. intros [->|Hk]%elem_of_cons; [|by apply H2].
      destruct (paced_resource scope Hv Hp) as [r Hr]. apply (bucket_key_paced scope); [done| |done].
      rewrite (last_paced scope r) by done. unfold bucket_keys. rewrite Hr, Hp. rewrite elem_of_app. right. right. left.
  - split; intros k H; by apply not_elem_of_nil in H.
Qed.

Lemma plan_bucket_limits reqs budget weight p paced scopes q cx :
  Forall (λ req, valid_context req.1 = true) reqs →
  admit_plan hash namespace li reqs budget weight = Ok (p, paced, scopes) → q ∈ pl_buckets p →
  valid_context cx = true → br_key q ∈ bucket_keys hash namespace cx →
  (br_rate q, br_cap q) = bucket_limits cx (br_key q).
Proof using Hhash.
  intros Hv (cx' & ty & Hty & _ & _ & Hb & _)%admit_plan_Ok Hq Hcx Hk. destruct (tally_paced_ok _ _ _ Hv Hty) as [H1 H2].
  rewrite Hb in Hq. apply list_elem_of_fmap in Hq as ([k c] & -> & Hin). rewrite bucket_spec_key in *. cbn [fst] in *.
  unfold bucket_spec, bucket_limits. cbn [fst]. destruct (decide (k ∈ ty_paced ty)) as [Hp|Hp].
  - apply H2, (bucket_key_paced cx k Hcx Hk) in Hp as [-> Hkl]. by rewrite (bool_decide_eq_true_2 _ Hkl).
  - destruct (cx_paced cx && _) eqn:Hc; [|done]. bools. destruct Hp. apply H1; [by apply (list_elem_of_fmap_2 fst _ (k, c))|].
    by apply (bucket_key_paced cx k Hcx Hk).
Qed.
End Deployment.

Lemma planned_described hash namespace li ops cx k rate cap :
  (∀ l, String.length (hash l) = 64%nat) → valid_limits li = true → planned hash namespace li ops →
  valid_context cx = true → k ∈ bucket_keys hash namespace cx → bucket_limits hash namespace li cx k = (rate, cap) →
  ops_described k rate cap ops.
Proof.
  intros Hh Hli [Hp Hs] Hcx Hk Hb. split.
  - intros now token p Hop. destruct (Hp _ _ _ Hop) as (reqs & b & w & pc & sc & Hv & Hplan).
    pose proof (admit_plan_well_formed _ _ _ _ _ _ _ _ _ Hli Hplan) as [Hnd _ Hc _ _].
    split; [done|]. split; [eapply Forall_impl; [exact Hc|]; naive_solver|]. intros q Hq <-.
    pose proof (plan_bucket_limits _ _ _ Hh _ _ _ _ _ _ q cx Hv Hplan Hq Hcx Hk) as H. rewrite Hb in H. by injection H as -> ->.
  - intros now secs key Hop. destruct (Hs _ _ _ Hop) as [cx' Hcd]. unfold cooldown_op in Hcd.
    apply bind_Ok in Hcd as (u & Hneg%raise_if_Ok & _). rewrite bool_decide_eq_false in Hneg. qclra.
Qed.

Lemma bucket_limits_pos hash namespace li cx k rate cap :
  valid_limits li = true → li_burst li ≤ seconds 600 * li_rate li →
  bucket_limits hash namespace li cx k = (rate, cap) → 0 < rate ∧ 0 ≤ cap ∧ cap ≤ seconds 600 * rate.
Proof.
  unfold valid_limits, bucket_limits. intros Hli Ht. bools. case_match; intros [= <- <-].
  - split; [by vm_compute|]. split; by vm_compute.
  - split; [done|]. split; [by apply Qclt_le_weak|done].
Qed.

(** C32: For every bucket of every request context - the deployment's, the tenant's, the
    workload's, the application's, the resource's and the chat pacing bucket - the tokens
    granted in a window are at most the bucket's burst plus its rate times the length of
    the window, whatever happened before and however scripts, cooldowns and key expiry
    interleave; the burst must refill within the 600 seconds a key is kept. *)
Theorem provider_rate_is_respected hash namespace li cx k rate cap t0 pre c outs0 t1 ops c' outs :
  (∀ l, String.length (hash l) = 64%nat) → valid_limits li = true → li_burst li ≤ seconds 600 * li_rate li →
  valid_context cx = true → k ∈ bucket_keys hash namespace cx → bucket_limits hash namespace li cx k = (rate, cap) →
  planned hash namespace li (pre ++ ops) →
  in_time t0 pre → run (li_lease li) pre empty_coord = (c, outs0) →
  last_time t0 pre ≤ t1 → in_time t1 ops → run (li_lease li) ops c = (c', outs) →
  spent k outs ≤ cap + (last_time t1 ops - t1) * rate.
Proof.
  intros Hh Hli Httl Hcx Hk Hb Hp Hin Hr Ht Hin1 Hr1.
  destruct (bucket_limits_pos _ _ _ _ _ _ _ Hli Httl Hb) as (Hrate & Hcap & Hfull).
  pose proof (planned_described _ _ _ _ _ _ _ _ Hh Hli Hp Hcx Hk Hb) as [Hd Hs].
  apply (rate_window k rate cap Hrate Hcap Hfull (li_lease li) t0 pre c outs0 t1 ops c' outs); try done.
  all: split; intros n x y Hx; [apply (Hd n x y)|apply (Hs n x y)]; apply elem_of_app; auto.
Qed.

(** ** Cooldowns *)

(** The bucket still says that nothing is sent before [u]. *)
Definition cooling (u : Qc) (h : bucket_hash) : Prop :=
  u ≤ until_of h ∧ ∃ d, bh_deadline h = Some d ∧ u ≤ d.

Lemma cooling_touch now u q h : cooling u h → cooling u (touch now q h).
Proof.
  intros [H1 _]. split; [done|]. eexists. split; [done|].
  pose proof (Qcceil_ge (Qcmax (seconds 600) (until_of h - now + seconds 600))) as Hc. assert (0 ≤ seconds 600) by (by vm_compute).
  revert Hc. generalize (Qcceil (Qcmax (seconds 600) (until_of h - now + seconds 600))). intros z. qcases; qclra.
Qed.

Lemma cooling_cooled now secs u h : cooling u h ∨ u ≤ now + secs → cooling u (cooled now secs h).
Proof.
  intros Hor. assert (Hu : u ≤ Qcmax (until_of h) (now + secs)) by (destruct Hor as [[? _]|?]; qcases; qclra).
  split; [done|]. eexists. split; [done|].
  pose proof (Qcceil_ge (Qcmax (until_of h) (now + secs) - now + seconds 600)) as Hc. assert (0 ≤ seconds 600) by (by vm_compute).
  qclra.
Qed.

Lemma cooling_expire now u c k : now < u → cooling u (bucket_at c k) → bucket_at (expire_keys now c) k = bucket_at c k.
Proof.
  intros Hn (_ & d & Hd & Hu). rewrite bucket_at_expire.
  assert (expired now (bh_deadline (bucket_at c k)) = false) as ->; [|done].
  apply expired_false. rewrite Hd. intros t [= <-]. qclra.
Qed.

(** Plans whose keys are distinct and whose rates are positive. *)
Definition sound_ops (ops : list (Qc * op)) : Prop :=
  ∀ now token p, (now, OGrant token p) ∈ ops → NoDup (plan_keys p) ∧ Forall (λ q, 0 < br_rate q) (pl_buckets p).

Lemma exec_cooling lease now o c c' out k u :
  now < u → cooling u (bucket_at c k) → exec lease now o c = (c', out) →
  (∀ token p, o = OGrant token p → NoDup (plan_keys p) ∧ Forall (λ q, 0 < br_rate q) (pl_buckets p)) →
  cooling u (bucket_at c' k) ∧ (∀ token p, out = Answered token p RGranted → k ∉ plan_keys p).
Proof.
  intros Hn Hc He Hd. pose proof (cooling_expire now u c k Hn Hc) as Hx.
  destruct o as [token p|token ks|token ks|secs key]; simpl in He.
  - destruct (grant now lease token p c) as [c1 r] eqn:Hg. injection He as <- <-. destruct (Hd token p eq_refl) as [Hnd Hr].
    destruct (grant_bucket _ _ _ _ _ _ _ k Hnd Hr Hg) as [Hs|q Hq Hk Hng|q Hq Hk -> Hun _]; rewrite Hx in *.
    + split; [done|]. intros token' p' [= <- <- ->]. by apply Hs.
    + split; [by apply cooling_touch|]. by intros token' p' [= <- <- ->].
    + destruct Hc as [Hu _]. qclra.
  - injection He as <- <-. split; [|done].
    change (bucket_at (release _ _ _ _ _) k) with (bucket_at (expire_keys now c) k). by rewrite Hx.
  - unfold renew in He. cbv zeta in He. destruct (forallb _ ks); injection He as <- <-; (split; [|done]); [|by rewrite Hx].
    match goal with |- cooling u ?h => change h with (bucket_at (expire_keys now c) k) end. by rewrite Hx.
  - injection He as <- <-. split; [|done]. rewrite bucket_at_cooldown. cbv zeta. rewrite Hx.
    case_decide; [by apply cooling_cooled; left|done].
Qed.

Lemma run_times lease ops : ∀ t, in_time t ops → ∀ c c' outs, run lease ops c = (c', outs) → ∀ x, x ∈ outs → t ≤ x.1.
Proof.
  induction ops as [|[now o] ops IH]; intros t Hin c c' outs Hr x Hx.
  - injection Hr as <- <-. by apply not_elem_of_nil in Hx.
  - destruct Hin as [Ht Hin]. simpl in Hr. destruct (exec lease now o c) as [c1 out].
    destruct (run lease ops c1) as [c2 outs'] eqn:Hr'. injection Hr as <- <-.
    apply elem_of_cons in Hx as [->|Hx]; [done|]. specialize (IH now Hin c1 c2 outs' Hr' x Hx). qclra.
Qed.

Lemma run_cooling lease k u ops : ∀ t c c' outs,
  cooling u (bucket_at c k) → in_time t ops → sound_ops ops → run lease ops c = (c', outs) →
  ∀ t' token p, (t', Answered token p RGranted) ∈ outs → k ∈ plan_keys p → u ≤ t'.
Proof.
  induction ops as [|[now o] ops IH]; intros t c c' outs Hc Hin Hd Hrun t' token p Hout Hk.
  { injection Hrun as <- <-. by apply not_elem_of_nil in Hout. }
  destruct Hin as [Ht Hin]. simpl in Hrun. destruct (exec lease now o c) as [c1 out] eqn:He.
  destruct (run lease ops c1) as [c2 outs'] eqn:Hr. injection Hrun as <- <-.
  destruct (decide (now < u)) as [Hn|Hn].
  - destruct (exec_cooling lease now o c c1 out k u Hn Hc He) as [Hc1 Hno].
    { intros tk pl ->. apply (Hd now tk pl). by left. }
    apply elem_of_cons in Hout as [[= -> <-]|Hout]; [by destruct (Hno token p eq_refl)|].
    eapply (IH now c1 c2 outs'); try done. intros n tk pl Hx. apply (Hd n tk pl). by right.
  - apply elem_of_cons in Hout as [[= -> <-]|Hout]; [qclra|].
    pose proof (run_times _ _ _ Hin _ _ _ Hr _ Hout) as Hle. simpl in Hle. qclra.
Qed.

Lemma planned_sound hash namespace li ops : valid_limits li = true → planned hash namespace li ops → sound_ops ops.
Proof.
  intros Hli [Hp _] now token p Hop. destruct (Hp _ _ _ Hop) as (reqs & b & w & pc & sc & _ & Hplan).
  destruct (admit_plan_well_formed _ _ _ _ _ _ _ _ _ Hli Hplan) as [Hnd _ Hc _ _].
  split; [done|]. eapply Forall_impl; [exact Hc|]. naive_solver.
Qed.

(** A plan names every bucket of its requirements. *)
Lemma plan_names hash namespace li reqs budget weight p paced scopes scope k :
  admit_plan hash namespace li reqs budget weight = Ok (p, paced, scopes) →
  scope ∈ reqs.*1 → k ∈ bucket_keys hash namespace scope → k ∈ plan_keys p.
Proof.
  intros (cx & ty & Hty & _ & _ & Hb & _)%admit_plan_Ok Hsc Hk. unfold plan_keys. rewrite Hb, <- list_fmap_compose.
  rewrite (list_fmap_ext _ fst) by (intros i kc _; apply bucket_spec_key). clear Hb.
  revert Hty Hsc. generalize (Tally [] [] [] []). induction reqs as [|[sc c] reqs IH]; intros ty0 Hty Hsc; [by apply not_elem_of_nil in Hsc|].
  simpl in Hty. apply bind_Ok in Hty as (ty1 & (_ & _ & _ & Hty1)%tally_add_Ok & Hall).
  rewrite fmap_cons in Hsc. apply elem_of_cons in Hsc as [->|Hsc]; [|by apply (IH ty1)].
  revert Hall. apply (tally_all_ind hash namespace li (λ ty, k ∈ (ty_costs ty).*1)).
  - intros ty2 [sc' c'] ty3 _ H2 (_ & _ & _ & ->)%tally_add_Ok. cbn [ty_costs].
    rewrite (fold_set_keys (λ k, k)) by (intros d x; by eexists). by left.
  - subst ty1. cbn [ty_costs]. rewrite (fold_set_keys (λ k, k)) by (intros d x; by eexists). rewrite list_fmap_id. by right.
Qed.

(** After a cooldown of a workload nothing of that workload of that tenant is
    transmitted before the cooldown has passed: no request of it, alone or in a batch, is
    granted earlier, whatever the coordinator held before and whatever other scripts,
    shorter cooldowns or expiring keys come between. *)
Theorem cooldown_is_honoured hash namespace li cx secs t0 c ops c' outs op0 :
  valid_limits li = true → planned hash namespace li ops →
  cooldown_op hash namespace cx secs = Ok op0 → in_time t0 ops →
  run (li_lease li) ((t0, op0) :: ops) c = (c', outs) →
  ∀ t token p reqs budget weight paced scopes scope,
    (t, Answered token p RGranted) ∈ outs →
    admit_plan hash namespace li reqs budget weight = Ok (p, paced, scopes) → scope ∈ reqs.*1 →
    cx_cloud scope = cx_cloud cx → cx_tenant scope = cx_tenant cx → cx_workload scope = cx_workload cx →
    t0 + secs ≤ t.
Proof.
  intros Hli Hp Hcd Hin Hr t token p reqs budget weight paced scopes scope Hout Hplan Hsc Hcl Hte Hwo.
  unfold cooldown_op in Hcd. apply bind_Ok in Hcd as (u & _ & [= <-]). simpl in Hr.
  destruct (run (li_lease li) ops (cooldown t0 secs (workload_key hash namespace cx) c)) as [c2 outs'] eqn:Hr'.
  injection Hr as <- <-. apply elem_of_cons in Hout as [[=]|Hout].
  refine (run_cooling (li_lease li) (workload_key hash namespace cx) (t0 + secs) ops t0 _ c2 outs' _ Hin
    (planned_sound _ _ _ _ Hli Hp) Hr' t token p Hout _).
  - rewrite bucket_at_cooldown. cbv zeta. rewrite decide_True by done. apply cooling_cooled. right. apply Qcle_refl.
  - eapply plan_names; [done|done|]. assert (workload_key hash namespace cx = workload_key hash namespace scope) as ->.
    { unfold workload_key, tenant_key. by rewrite Hcl, Hte, Hwo. }
    unfold bucket_keys. rewrite !elem_of_app, !elem_of_cons. naive_solver.
Qed.

(** ** Withdrawn tokens *)

Definition fenced_until (u : Qc) (token : string) (z : zset) : Prop :=
  (∃ s, zs_members z !! token = Some s ∧ u ≤ s) ∧ ∃ d, zs_deadline z = Some d ∧ u ≤ d.

Lemma fenced_expire now u token z : now < u → fenced_until u token z → expire_zset now z = z.
Proof.
  intros Hn (_ & d & Hd & Hu). unfold expire_zset.
  assert (expired now (zs_deadline z) = false) as ->; [|done]. apply expired_false. rewrite Hd. intros t [= <-]. qclra.
Qed.

Lemma fenced_purge now u token z : now < u → fenced_until u token z → fenced_until u token (zpurge now z).
Proof.
  intros Hn [(s & Hs & Hu) Hd]. split; [|done]. exists s. split; [|done]. simpl. apply map_lookup_filter_Some.
  split; [done|]. simpl. qclra.
Qed.

Lemma grant_cancelled now lease token p c : co_cancelled (grant now lease token p c).1 = co_cancelled (prune now c).
Proof.
  rewrite grant_eq. case_decide; [done|]. case_decide; [done|].
  unfold scanned. destruct (scan_buckets _ _ _ _ _) as [[bs sc] vs]. destruct (scan_slots _ _ _ _ _) as [zs sc'].
  assert (Hq : co_cancelled (queued now token p c) = co_cancelled (prune now c))
    by (unfold queued, enqueue; by destruct (co_pending _ !! token)).
  case_decide; [done|]. destruct (elect _ _) as [ch|]; [|done]. by case_decide.
Qed.

Lemma exec_fenced lease now o c c' out token u :
  now < u → fenced_until u token (co_cancelled c) → exec lease now o c = (c', out) → u ≤ now + lease + seconds 60 →
  fenced_until u token (co_cancelled c') ∧ (∀ p r, out = Answered token p r → r = RCancelled).
Proof.
  intros Hn Hf He Hu. pose proof (fenced_expire _ _ _ _ Hn Hf) as Hx.
  assert (Hpr : co_cancelled (prune now c) = zpurge now (co_cancelled c)) by (unfold prune; simpl; by rewrite Hx).
  destruct o as [tk p|tk ks|tk ks|secs key]; simpl in He.
  - pose proof (grant_cancelled now lease tk p c) as Hg. destruct (grant now lease tk p c) as [c1 r] eqn:Hgr.
    injection He as <- <-. cbn [fst] in Hg. rewrite Hg, Hpr. split; [by apply fenced_purge|].
    intros p' r' [= -> <- <-]. rewrite grant_eq, decide_True in Hgr; [by injection Hgr as <- <-|].
    unfold is_cancelled. rewrite Hpr. destruct (fenced_purge now u token _ Hn Hf) as [(s & Hs & _) _]. by exists s.
  - injection He as <- <-. split; [|done]. unfold release. cbv zeta. cbn [co_cancelled expire_keys]. rewrite Hx.
    destruct Hf as [(s & Hs & Hus) (d & Hd & Hud)]. split.
    + simpl. destruct (decide (tk = token)) as [->|Hne]; [eexists; by rewrite lookup_insert_eq|].
      exists s. by rewrite lookup_insert_ne.
    + simpl. eexists. split; [done|]. pose proof (Qcceil_ge (lease + seconds 120)) as Hc.
      assert (seconds 60 ≤ seconds 120) by (by vm_compute). qclra.
  - unfold renew in He. cbv zeta in He.
    destruct (forallb _ ks); injection He as <- <-; (split; [|done]); cbn [co_cancelled expire_keys]; by rewrite Hx.
  - injection He as <- <-. split; [|done]. unfold cooldown. cbv zeta. cbn [co_cancelled expire_keys]. by rewrite Hx.
Qed.

Lemma run_fenced lease token u ops : ∀ t c c' outs,
  fenced_until u token (co_cancelled c) → in_time t ops → u ≤ t + lease + seconds 60 → run lease ops c = (c', outs) →
  ∀ t' p r, (t', Answered token p r) ∈ outs → t' < u → r = RCancelled.
Proof.
  induction ops as [|[now o] ops IH]; intros t c c' outs Hf Hin Hu Hrun t' p r Hout Hlt.
  { injection Hrun as <- <-. by apply not_elem_of_nil in Hout. }
  destruct Hin as [Ht Hin]. simpl in Hrun. destruct (exec lease now o c) as [c1 out] eqn:He.
  destruct (run lease ops c1) as [c2 outs'] eqn:Hr. injection Hrun as <- <-.
  assert (Hnow : now < u).
  { apply elem_of_cons in Hout as [[= -> _]|Hout]; [done|].
    pose proof (run_times _ _ _ Hin _ _ _ Hr _ Hout) as Hle. simpl in Hle. qclra. }
  assert (Hu1 : u ≤ now + lease + seconds 60) by qclra.
  destruct (exec_fenced lease now o c c1 out token u Hnow Hf He Hu1) as [Hf1 Hno].
  apply elem_of_cons in Hout as [[= -> <-]|Hout]; [by eapply Hno|]. by eapply (IH now c1 c2 outs').
Qed.

(** A request that was withdrawn - the caller gave up, was cancelled, or finished -
    is fenced for the lease and a minute more: a poll of its token that reaches the
    coordinator late is answered cancelled and never granted, so it pins no slot. *)
Theorem withdrawn_token_is_fenced lease token keys t0 c ops c' outs :
  in_time t0 ops → run lease ((t0, ORelease token keys) :: ops) c = (c', outs) →
  ∀ t p r, (t, Answered token p r) ∈ outs → t < t0 + lease + seconds 60 → r = RCancelled.
Proof.
  intros Hin Hr t p r Hout. simpl in Hr. destruct (run lease ops _) as [c2 outs'] eqn:Hr'. injection Hr as <- <-.
  apply elem_of_cons in Hout as [[=]|Hout].
  eapply (run_fenced lease token (t0 + lease + seconds 60) ops t0 _ c2 outs'); [|done|apply Qcle_refl|done|done].
  unfold release. cbv zeta. cbn [co_cancelled]. split.
  - eexists. simpl. rewrite lookup_insert_eq. split; [done|apply Qcle_refl].
  - simpl. eexists. split; [done|]. pose proof (Qcceil_ge (lease + seconds 120)).
    assert (seconds 60 ≤ seconds 120) by (by vm_compute). qclra.
Qed.
