(* ===== verification/AdmissionFair.v ===== *)
(** * Scoped provider admission: the fair queue

    Who is served when several waiters of [Admission] could be: the election picks an
    eligible waiter nobody is ahead of, waiters older than five seconds are served in the
    order of their arrival, and a poll is granted exactly when its turn has come. *)

From Stdlib Require Import QArith Qcanon Lqa.
From stdpp Require Import numbers.
From S2P Require Import Prelude.
From S2P Require Import Rational.
From S2P Require Import Admission.
From S2P Require Import AdmissionSafety.
From S2P Require Import AdmissionPlan.
From S2P Require Import AdmissionRate.
Local Open Scope Qc_scope.

(** ** The order of the waiters *)

(** [e] goes before [e'] if both are eligible. *)
Definition ahead (now : Qc) (c : coord) (e e' : entry) : bool :=
  beats (is_old now e) (finish_of c e) e (Champion "" e' (finish_of c e') (is_old now e')).

Lemma beats_spec old finish e ch :
  beats old finish e ch = true ↔
  match old, ch_aged ch with
  | true, false => True
  | false, true => False
  | true, true => (en_seq e < en_seq (ch_entry ch))%Z
  | false, false => finish < ch_score ch ∨ (finish = ch_score ch ∧ (en_seq e < en_seq (ch_entry ch))%Z)
  end.
Proof.
  unfold beats. destruct old, (ch_aged ch); simpl; rewrite ?orb_false_r, ?orb_true_r, ?andb_false_r; try done.
  - by rewrite Z.ltb_lt.
  - by rewrite orb_true_iff, andb_true_iff, !bool_decide_eq_true, Z.ltb_lt.
Qed.

Lemma ahead_trans now c e1 e2 e3 : ahead now c e1 e2 = true → ahead now c e2 e3 = true → ahead now c e1 e3 = true.
Proof.
  unfold ahead. rewrite !beats_spec. simpl. destruct (is_old now e1), (is_old now e2), (is_old now e3); try done.
  - lia.
  - intros [H1|[H1 H1']] [H2|[H2 H2']]; [left|left|left|right; split; [congruence|lia]].
    + by eapply Qclt_trans.
    + by rewrite <- H2.
    + by rewrite H1.
Qed.

Lemma ahead_irrefl now c e : ahead now c e e = false.
Proof.
  apply not_true_iff_false. unfold ahead. rewrite beats_spec. simpl. destruct (is_old now e); [lia|].
  intros [Hlt|[_ Hlt]]; [by apply Qclt_not_eq in Hlt|lia].
Qed.

Lemma ahead_total now c e1 e2 : en_seq e1 ≠ en_seq e2 → ahead now c e1 e2 = false → ahead now c e2 e1 = true.
Proof.
  intros Hne Hf. rewrite <- not_true_iff_false in Hf. revert Hf. unfold ahead. rewrite !beats_spec. simpl.
  destruct (is_old now e1), (is_old now e2); simpl; try tauto; [lia|].
  intros Hn. destruct (Qclt_le_dec (finish_of c e2) (finish_of c e1)) as [H|H]; [by left|].
  right. assert (Heq : finish_of c e2 = finish_of c e1).
  { destruct (decide (finish_of c e1 = finish_of c e2)) as [->|Hd]; [done|]. destruct Hn. left.
    apply Qcnot_le_lt. intros Hle. apply Hd. by apply Qcle_antisym. }
  split; [done|]. assert (¬ (en_seq e1 < en_seq e2)%Z) by (intros ?; apply Hn; right; split; [by rewrite Heq|done]). lia.
Qed.

(** ** The election *)

Definition champion_of (now : Qc) (c : coord) (te : string * entry) : champion :=
  Champion te.1 te.2 (finish_of c te.2) (is_old now te.2).

(** The best of the candidates seen so far. *)
Definition best_of (now : Qc) (c : coord) (seen : list (string * entry)) (best : option champion) : Prop :=
  match best with
  | None => ∀ te, te ∈ seen → eligible now c te.2 = false
  | Some ch => ∃ te, te ∈ seen ∧ ch = champion_of now c te ∧ eligible now c te.2 = true ∧
      ∀ te', te' ∈ seen → eligible now c te'.2 = true → ahead now c te'.2 te.2 = false
  end.

Lemma consider_best now c seen te best :
  best_of now c seen best → best_of now c (seen ++ [te]) (consider now c te best).
Proof.
  intros Hb. destruct te as [t e]. unfold consider. destruct (eligible now c e) eqn:He.
  2:{ destruct best as [ch|]; simpl in *.
      - destruct Hb as (te & Hin & Hch & Hel & Hall). exists te. split; [apply elem_of_app; by left|]. split; [done|]. split; [done|].
        intros te' [H| ->%list_elem_of_singleton]%elem_of_app Hel'; [by apply Hall|]. simpl in Hel'. congruence.
      - intros te' [H| ->%list_elem_of_singleton]%elem_of_app; [by apply Hb|done]. }
  destruct best as [ch|]; simpl in *.
  - destruct Hb as (te & Hin & -> & Hel & Hall).
    change (beats (is_old now e) (finish_of c e) e (champion_of now c te)) with (ahead now c e te.2).
    destruct (ahead now c e te.2) eqn:Ha.
    + exists (t, e). split; [apply elem_of_app; right; by left|]. split; [done|]. split; [done|].
      intros te' [H| ->%list_elem_of_singleton]%elem_of_app Hel'.
      * apply not_true_iff_false. intros Ha'. specialize (Hall te' H Hel'). simpl in Ha'.
        by rewrite (ahead_trans _ _ _ _ _ Ha' Ha) in Hall.
      * apply ahead_irrefl.
    + exists te. split; [apply elem_of_app; by left|]. split; [done|]. split; [done|].
      intros te' [H| ->%list_elem_of_singleton]%elem_of_app Hel'; [by apply Hall|done].
  - exists (t, e). split; [apply elem_of_app; right; by left|]. split; [done|]. split; [done|].
    intros te' [H| ->%list_elem_of_singleton]%elem_of_app Hel'; [by rewrite (Hb te' H) in Hel'|].
    apply ahead_irrefl.
Qed.

Lemma elect_best now c : best_of now c (map_to_list (co_pending c)) (elect now c).
Proof.
  unfold elect. assert (H : ∀ l seen best, best_of now c seen best →
    best_of now c (seen ++ l) (fold_left (λ best te, consider now c te best) l best)).
  { induction l as [|te l IH]; intros seen best Hb; [by rewrite app_nil_r|]. simpl.
    rewrite (cons_middle te seen l), app_assoc. apply IH. by apply consider_best. }
  apply (H (map_to_list (co_pending c)) [] None). intros te Hte. by apply not_elem_of_nil in Hte.
Qed.

Lemma elect_Some now c ch :
  elect now c = Some ch →
  ∃ e, co_pending c !! ch_token ch = Some e ∧ ch = champion_of now c (ch_token ch, e) ∧ eligible now c e = true ∧
    ∀ t' e', co_pending c !! t' = Some e' → eligible now c e' = true → ahead now c e' e = false.
Proof.
  intros He. pose proof (elect_best now c) as Hb. rewrite He in Hb. destruct Hb as ([t e] & Hin & -> & Hel & Hall).
  apply elem_of_map_to_list in Hin. exists e. split; [done|]. split; [done|]. split; [done|].
  intros t' e' Ht' Hel'. apply (Hall (t', e')); [by apply elem_of_map_to_list|done].
Qed.

Lemma elect_None now c t e : elect now c = None → co_pending c !! t = Some e → eligible now c e = false.
Proof.
  intros He Ht. pose proof (elect_best now c) as Hb. rewrite He in Hb. apply (Hb (t, e)). by apply elem_of_map_to_list.
Qed.

(** ** The queue *)

(** Sequence numbers are distinct and follow the order of arrival; the clock that hands
    them out outlives the queue; a waiter's entry is the plan its token polls with. *)
Record queue_ok (plan_of : string → option plan) (now : Qc) (c : coord) : Prop := QueueOk {
  qo_seq : ∀ t e, co_pending c !! t = Some e → (en_seq e ≤ fc_seq (co_clock c))%Z ∧ en_born e ≤ now;
  qo_distinct : ∀ t e t' e', co_pending c !! t = Some e → co_pending c !! t' = Some e' → en_seq e = en_seq e' → t = t';
  qo_order : ∀ t e t' e', co_pending c !! t = Some e → co_pending c !! t' = Some e' →
    (en_seq e < en_seq e')%Z → en_born e ≤ en_born e';
  qo_deadline : co_pending c ≠ ∅ → ∃ dp dc, co_pending_deadline c = Some dp ∧ fc_deadline (co_clock c) = Some dc ∧ dp ≤ dc;
  qo_plan : ∀ t e, co_pending c !! t = Some e →
    ∃ p, plan_of t = Some p ∧ en_buckets e = pl_buckets p ∧ en_slots e = pl_slots p;
}.

Section Queue.
Context (plan_of : string → option plan).
Notation queue_ok := (queue_ok plan_of).

(** Fewer waiters under the same clock. *)
Lemma queue_ok_sub now now' c c' :
  queue_ok now c → now ≤ now' → co_pending c' ⊆ co_pending c → co_pending_deadline c' = co_pending_deadline c →
  fc_seq (co_clock c') = fc_seq (co_clock c) → fc_deadline (co_clock c') = fc_deadline (co_clock c) → queue_ok now' c'.
Proof using.
  intros [H1 H2 H3 H4 H5] Hn Hsub Hpd Hs Hd. rewrite map_subseteq_spec in Hsub. split.
  - intros t e Ht. destruct (H1 t e (Hsub _ _ Ht)). rewrite Hs. split; [done|]. qclra.
  - intros t e t' e' Ht Ht'. apply (H2 t e t' e'); by apply Hsub.
  - intros t e t' e' Ht Ht'. apply (H3 t e t' e'); by apply Hsub.
  - intros Hne. rewrite Hpd, Hd. apply H4. intros He. apply Hne. apply map_empty. intros t.
    destruct (co_pending c' !! t) as [e|] eqn:Ht; [|done]. apply Hsub in Ht. by rewrite He in Ht.
  - intros t e Ht. by apply H5, Hsub.
Qed.

Lemma queue_ok_expire now now' c : queue_ok now c → now ≤ now' → queue_ok now' (expire_keys now' c).
Proof using.
  intros Hq Hn. destruct (expired now' (co_pending_deadline c)) eqn:Ep.
  - split; simpl; rewrite ?Ep; try (by intros t e He); try (by intros t e t' e' He); by intros [].
  - destruct (decide (co_pending c = ∅)) as [He|Hne].
    + split; simpl; rewrite Ep, He; try (by intros t e Ht); try (by intros t e t' e' Ht); by intros [].
    + destruct (qo_deadline _ _ _ Hq Hne) as (dp & dc & Hp & Hc & Hle).
      assert (Ec : expired now' (fc_deadline (co_clock c)) = false).
      { apply expired_false. rewrite Hc. intros t [= <-]. rewrite expired_false, Hp in Ep.
        specialize (Ep dp eq_refl). qclra. }
      apply (queue_ok_sub now now' c); simpl; rewrite ?Ep, ?Ec; done.
Qed.

Lemma queue_ok_prune now now' c : queue_ok now c → now ≤ now' → queue_ok now' (drop_waiters now' (prune now' c)).
Proof using.
  intros Hq Hn. pose proof (queue_ok_expire _ _ _ Hq Hn) as He.
  apply (queue_ok_sub now' now' (expire_keys now' c)); try done. apply map_filter_subseteq.
Qed.

Lemma queue_ok_enqueue now token p c :
  queue_ok now c → plan_of token = Some p → queue_ok now (heartbeat now token (enqueue now token p c).1).
Proof using.
  intros [H1 H2 H3 H4 H5] Hp. assert (Hdl : (now + seconds 60 ≤ now + seconds 600)).
  { assert (seconds 60 ≤ seconds 600) by (by vm_compute). qclra. }
  unfold enqueue. destruct (co_pending c !! token) as [e0|] eqn:He; simpl.
  { split; simpl; try done. intros _. do 2 eexists. done. }
  split; simpl.
  - intros t e [[<- <-]|[_ Ht]]%lookup_insert_Some; [simpl; split; [lia|apply Qcle_refl]|].
    destruct (H1 t e Ht). split; [lia|done].
  - intros t e t' e' [[<- <-]|[Hne Ht]]%lookup_insert_Some [[<- <-]|[Hne' Ht']]%lookup_insert_Some; simpl; intros Hs.
    + done.
    + destruct (H1 t' e' Ht'). lia.
    + destruct (H1 t e Ht). lia.
    + by apply (H2 t e t' e').
  - intros t e t' e' [[<- <-]|[Hne Ht]]%lookup_insert_Some [[<- <-]|[Hne' Ht']]%lookup_insert_Some; simpl; intros Hs.
    + apply Qcle_refl.
    + destruct (H1 t' e' Ht'). lia.
    + by destruct (H1 t e Ht).
    + by apply (H3 t e t' e').
  - intros _. do 2 eexists. done.
  - intros t e [[<- <-]|[_ Ht]]%lookup_insert_Some; [by exists p|by apply (H5 t)].
Qed.

Lemma queue_ok_queued now now' token p c :
  queue_ok now c → now ≤ now' → plan_of token = Some p → queue_ok now' (queued now' token p c).
Proof using. intros Hq Hn Hp. apply queue_ok_enqueue; [by eapply queue_ok_prune|done]. Qed.

Lemma scanned_queue now p c c' sc vs :
  scanned now p c = (c', sc, vs) →
  co_pending c' = co_pending c ∧ co_pending_deadline c' = co_pending_deadline c ∧ co_clock c' = co_clock c ∧
  co_flows c' = co_flows c.
Proof using.
  unfold scanned. destruct (scan_buckets _ _ _ _ _) as [[bs sc0] vs0]. destruct (scan_slots _ _ _ _ _) as [zs sc1].
  by intros [= <- <- <-].
Qed.

Lemma grant_queue now now' lease token p c c' r :
  queue_ok now c → now ≤ now' → plan_of token = Some p → grant now' lease token p c = (c', r) → queue_ok now' c'.
Proof using.
  intros Hq Hn Hp. rewrite grant_eq. case_decide; [intros [= <- <-]|].
  { pose proof (queue_ok_expire _ _ _ Hq Hn) as He. apply (queue_ok_sub now' now' (expire_keys now' c)); done. }
  case_decide; [intros [= <- <-]; by eapply queue_ok_prune|].
  pose proof (queue_ok_queued _ _ _ _ _ Hq Hn Hp) as Hqq.
  destruct (scanned now' p (queued now' token p c)) as [[c1 sc] vs] eqn:Hs.
  apply scanned_queue in Hs as (Hsp & Hsd & Hsc & _).
  assert (H1 : queue_ok now' c1).
  { apply (queue_ok_sub now' now' (queued now' token p c)); rewrite ?Hsp, ?Hsd, ?Hsc; done. }
  case_decide; [by intros [= <- <-]|]. destruct (elect now' c1) as [ch|]; [|by intros [= <- <-]].
  case_decide; [|by intros [= <- <-]]. intros [= <- <-].
  apply (queue_ok_sub now' now' c1); try done. apply delete_subseteq.
Qed.

Lemma exec_queue lease now now' o c c' out :
  queue_ok now c → now ≤ now' → (∀ token p, o = OGrant token p → plan_of token = Some p) →
  exec lease now' o c = (c', out) → queue_ok now' c'.
Proof using.
  intros Hq Hn Hp He. pose proof (queue_ok_expire _ _ _ Hq Hn) as Hx.
  destruct o as [token p|token ks|token ks|secs key]; simpl in He.
  - destruct (grant now' lease token p c) as [c1 r] eqn:Hg. injection He as <- <-. apply (grant_queue now now' lease token p c c1 r); [done|done|by apply Hp|done].
  - injection He as <- <-. apply (queue_ok_sub now' now' (expire_keys now' c)); try done. apply delete_subseteq.
  - unfold renew in He. cbv zeta in He. destruct (forallb _ ks); injection He as <- <-; [|done].
    apply (queue_ok_sub now' now' (expire_keys now' c)); done.
  - injection He as <- <-. apply (queue_ok_sub now' now' (expire_keys now' c)); done.
Qed.

(** Every token polls with one plan. *)
Definition steady (ops : list (Qc * op)) : Prop :=
  ∀ now token p, (now, OGrant token p) ∈ ops → plan_of token = Some p.

Lemma run_queue lease ops : ∀ t c c' outs,
  queue_ok t c → in_time t ops → steady ops → run lease ops c = (c', outs) → queue_ok (last_time t ops) c'.
Proof using.
  induction ops as [|[now o] ops IH]; intros t c c' outs Hq Hin Hs Hrun; [by injection Hrun as <- <-|].
  destruct Hin as [Ht Hin]. simpl in Hrun. destruct (exec lease now o c) as [c1 out] eqn:He.
  destruct (run lease ops c1) as [c2 outs'] eqn:Hr. injection Hrun as <- <-. rewrite last_time_cons.
  eapply (IH now c1 c2 outs'); [|done| |done].
  - eapply exec_queue; [done|done| |done]. intros token p ->. apply (Hs now token p). by left.
  - intros n tk pl Hx. apply (Hs n tk pl). by right.
Qed.

Lemma empty_queue_ok t : queue_ok t empty_coord.
Proof using. split; simpl; try (by intros x e He); try (by intros x e x' e' He). by intros []. Qed.
End Queue.

(** ** A poll is granted when its turn has come *)

(** The coordinator as the election sees it: the waiter is queued, its buckets are
    refilled and its slots purged. *)
Definition view (now : Qc) (token : string) (p : plan) (c : coord) : coord :=
  (scanned now p (queued now token p c)).1.1.

Section Turn.
Context (now : Qc) (p : plan).
Context (Hnd : NoDup (plan_keys p)) (Hrate : Forall (λ q, 0 < br_rate q) (pl_buckets p)).

Lemma scan_bucket_idle i h q sc :
  0 < br_rate q → until_of h ≤ now → br_cost q ≤ balance now h q → sc_wait sc = 0 → scan_bucket now i h q sc = sc.
Proof using.
  clear Hnd Hrate. intros Hr Hu Hc Hs. unfold scan_bucket, longer.
  assert (Qcmax 0 (br_cost q - balance now h q) / br_rate q ≤ 0).
  { apply Qcdiv_le_iff; [done|]. rewrite Qcmult_0_l. qcases; qclra. }
  rewrite (decide_False (P := sc_wait sc < until_of h - now)) by qclra. rewrite decide_False; [done|]. rewrite Hs. qclra.
Qed.

Lemma scan_buckets_idle qs : ∀ i bs sc,
  NoDup (br_key <$> qs) → Forall (λ q, 0 < br_rate q) qs → sc_wait sc = 0 →
  (∀ q, q ∈ qs → until_of (hash_of bs (br_key q)) ≤ now ∧ br_cost q ≤ balance now (hash_of bs (br_key q)) q) →
  (scan_buckets now i qs bs sc).1.2 = sc.
Proof using.
  clear Hnd Hrate. induction qs as [|q qs IH]; intros i bs sc Hnd Hr Hs Hfree; [done|]. cbn [scan_buckets].
  rewrite fmap_cons in Hnd. apply NoDup_cons in Hnd as [Hni Hnd]. apply Forall_cons in Hr as [Hr Hrs].
  fold (hash_of bs (br_key q)). destruct (Hfree q) as [Hu Hc]; [by left|].
  rewrite (scan_bucket_idle i _ q sc Hr Hu Hc Hs).
  specialize (IH (i + 1)%Z (<[br_key q := touch now q (hash_of bs (br_key q))]> bs) sc Hnd Hrs Hs).
  destruct (scan_buckets _ _ _ _ _) as [[bs' sc'] vs]. simpl in *. apply IH. intros q' Hq'.
  rewrite hash_of_insert_ne; [apply Hfree; by right|].
  intros Heq. apply Hni. rewrite Heq. by apply list_elem_of_fmap_2.
Qed.

Lemma scan_slots_idle ss : ∀ i zs sc,
  (∀ k limit, (k, limit) ∈ ss → (zcard (zpurge now (default no_zset (zs !! k))) < limit)%Z) →
  (scan_slots now i ss zs sc).2 = sc.
Proof using.
  clear Hnd Hrate. induction ss as [|[k limit] ss IH]; intros i zs sc Hfree; [done|]. cbn [scan_slots].
  rewrite decide_False by (pose proof (Hfree k limit ltac:(by left)); lia). apply IH. intros k' limit' Hin.
  destruct (decide (k = k')) as [->|Hne].
  - rewrite lookup_insert_eq. simpl. rewrite zpurge_idemp. apply Hfree. by right.
  - rewrite lookup_insert_ne by done. apply Hfree. by right.
Qed.

(** No wait is found exactly when every bucket and slot of the plan is free. *)
Lemma scanned_idle c c' sc vs :
  scanned now p c = (c', sc, vs) →
  ¬ 0 < sc_wait sc ↔ forallb (bucket_free now c) (pl_buckets p) = true ∧ forallb (slot_free now c) (pl_slots p) = true.
Proof using Hnd Hrate.
  unfold scanned.
  pose proof (scan_buckets_free now (pl_buckets p) 1 (co_buckets c) (Scan 0 NoReason 0)) as Hbf.
  pose proof (scan_buckets_idle (pl_buckets p) 1 (co_buckets c) (Scan 0 NoReason 0) Hnd Hrate eq_refl) as Hbi.
  destruct (scan_buckets now 1 (pl_buckets p) _ _) as [[bs sc0] vs0]. simpl in Hbf, Hbi.
  pose proof (scan_slots_room now (pl_slots p) 1 (co_slots c) sc0) as Hsr.
  pose proof (scan_slots_idle (pl_slots p) 1 (co_slots c) sc0) as Hsi.
  pose proof (scan_slots_ge now (pl_slots p) 1 (co_slots c) sc0) as Hge.
  destruct (scan_slots now 1 (pl_slots p) _ _) as [zs sc1]. simpl in Hsr, Hsi, Hge. intros [= <- <- <-]. cbn [sc_wait].
  rewrite !forallb_Forall, !Forall_forall. split.
  - intros Hw. split.
    + intros q Hq. destruct (Hbf q Hnd Hrate ltac:(qclra) Hq). unfold bucket_free. by rewrite !bool_decide_eq_true_2.
    + intros [k limit] Hin. unfold slot_free. apply bool_decide_eq_true. apply Hsr; [qclra|done].
  - intros [Hb Hs]. rewrite Hsi, Hbi.
    + simpl. intros Hlt. by apply Qclt_not_eq in Hlt.
    + intros q Hq. specialize (Hb q Hq). unfold bucket_free in Hb. by bools.
    + intros k limit Hin. specialize (Hs _ Hin). unfold slot_free in Hs. by bools.
Qed.

(** The scans do not change who is free. *)
Lemma scanned_free c c' sc vs :
  scanned now p c = (c', sc, vs) →
  (∀ q, q ∈ pl_buckets p → bucket_free now c' q = bucket_free now c q) ∧
  (∀ s, slot_free now c' s = slot_free now c s).
Proof using Hnd.
  intros Hs. split.
  - intros q Hq. assert (Ht : bucket_at c' (br_key q) = touch now q (bucket_at c (br_key q))).
    { revert Hs. unfold scanned.
      pose proof (scan_buckets_touch now (pl_buckets p) 1 (co_buckets c) (Scan 0 NoReason 0) q Hnd Hq) as H.
      destruct (scan_buckets _ _ _ _ _) as [[bs sc0] vs0]. destruct (scan_slots _ _ _ _ _) as [zs sc1].
      by intros [= <- <- <-]. }
    assert (Hbal : balance now (touch now q (bucket_at c (br_key q))) q = balance now (bucket_at c (br_key q)) q)
      by (unfold balance at 1; simpl; apply level_now, level_le_cap).
    unfold bucket_free. by rewrite Ht, Hbal.
  - intros [k limit]. unfold slot_free. cbn [fst snd]. rewrite (slot_at_scanned _ _ _ _ _ _ k Hs).
    case_decide; [by rewrite zpurge_idemp|done].
Qed.

Lemma eligible_view c c' sc vs e :
  scanned now p c = (c', sc, vs) → en_buckets e = pl_buckets p → en_slots e = pl_slots p →
  eligible now c' e = true ↔ ¬ 0 < sc_wait sc.
Proof using Hnd Hrate.
  intros Hs Hb Hsl. rewrite (scanned_idle _ _ _ _ Hs). destruct (scanned_free _ _ _ _ Hs) as [Hbf Hsf].
  unfold eligible. rewrite Hb, Hsl, andb_true_iff, !forallb_Forall, !Forall_forall.
  split; intros [H1 H2]; split.
  - intros q Hq. rewrite <- Hbf by done. by apply H1.
  - intros s Hin. rewrite <- Hsf. by apply H2.
  - intros q Hq. rewrite Hbf by done. by apply H1.
  - intros s Hin. rewrite Hsf. by apply H2.
Qed.
End Turn.

Lemma queued_pending now token p c : co_pending (queued now token p c) !! token = Some (queued_entry now token p c).
Proof.
  unfold queued, queued_entry, enqueue. destruct (co_pending (drop_waiters now (prune now c)) !! token) as [e|] eqn:He; [exact He|].
  simpl. by rewrite lookup_insert_eq.
Qed.

Section Decision.
Context (plan_of : string → option plan) (lease t now : Qc) (token : string) (p : plan) (c : coord).
Context (Hq : queue_ok plan_of t c) (Ht : t ≤ now) (Hp : plan_of token = Some p).
Context (Hnd : NoDup (plan_keys p)) (Hrate : Forall (λ q, 0 < br_rate q) (pl_buckets p)).

(** The waiter that polls. *)
Definition mine : entry := queued_entry now token p c.

(** Nobody eligible is ahead of the waiter. *)
Definition turn_has_come : Prop :=
  eligible now (view now token p c) mine = true ∧
  ∀ t' e', co_pending (view now token p c) !! t' = Some e' → eligible now (view now token p c) e' = true →
    ahead now (view now token p c) e' mine = false.

Lemma view_queue :
  co_pending (view now token p c) !! token = Some mine ∧ queue_ok plan_of now (view now token p c).
Proof using Hq Ht Hp.
  unfold view. destruct (scanned now p (queued now token p c)) as [[c1 sc] vs] eqn:Hs. simpl.
  apply scanned_queue in Hs as (Hsp & Hsd & Hsc & _). rewrite Hsp. split; [apply queued_pending|].
  pose proof (queue_ok_queued plan_of _ _ _ _ _ Hq Ht Hp) as Hqq.
  apply (queue_ok_sub plan_of now now (queued now token p c)); rewrite ?Hsp, ?Hsd, ?Hsc; done.
Qed.

Lemma mine_plan : en_buckets mine = pl_buckets p ∧ en_slots mine = pl_slots p.
Proof using Hq Ht Hp.
  destruct view_queue as [Hm Hv]. destruct (qo_plan _ _ _ Hv _ _ Hm) as (p' & Hp' & Hb & Hs).
  rewrite Hp in Hp'. by injection Hp' as <-.
Qed.

Lemma grant_decision :
  (grant now lease token p c).2 = RGranted ↔ ¬ is_cancelled now token c ∧ ¬ no_room now token c ∧ turn_has_come.
Proof using Hq Ht Hp Hnd Hrate.
  rewrite grant_eq. case_decide as Hc; [naive_solver|]. case_decide as Hr; [naive_solver|].
  destruct view_queue as [Hm Hv]. destruct mine_plan as [Hmb Hms]. revert Hm Hv. unfold turn_has_come, view.
  destruct (scanned now p (queued now token p c)) as [[c1 sc] vs] eqn:Hs. simpl. intros Hm Hv.
  pose proof (eligible_view now p Hnd Hrate _ _ _ _ _ Hs Hmb Hms) as Hel.
  case_decide as Hw; [naive_solver|]. destruct (elect now c1) as [ch|] eqn:He.
  - apply elect_Some in He as (e & Hpe & Hch & Hee & Hall). case_decide as Hct; simpl.
    + rewrite Hct, Hm in Hpe. injection Hpe as <-. naive_solver.
    + split; [done|]. intros (_ & _ & Hme & Hno). exfalso.
      assert (Hseq : en_seq mine ≠ en_seq e).
      { intros Heq. apply Hct. symmetry. by apply (qo_distinct _ _ _ Hv _ _ _ _ Hm Hpe). }
      pose proof (Hall _ _ Hm Hme) as H1.
      pose proof (ahead_total now c1 _ _ Hseq H1) as H2. by rewrite (Hno _ _ Hpe Hee) in H2.
  - split; [done|]. intros (_ & _ & Hme & _). by rewrite (elect_None _ _ _ _ He Hm) in Hme.
Qed.
End Decision.

(** A poll is granted exactly when its token was not withdrawn, the queue has room,
    every bucket and slot it needs is free, and no other waiter that could be granted is
    ahead of it; so a refused poll whose own needs are met always yields to a waiter that
    can be served (the coordinator never idles capacity). Waiters of five seconds and
    more come first, in order of arrival; the others by their flow's virtual finish
    time. *)
Theorem poll_is_granted_in_turn plan_of lease t0 ops c outs now token p li :
  in_time t0 ops → steady plan_of ops → run lease ops empty_coord = (c, outs) →
  last_time t0 ops ≤ now → plan_of token = Some p → well_formed li p →
  (grant now lease token p c).2 = RGranted ↔
    ¬ is_cancelled now token c ∧ ¬ no_room now token c ∧ turn_has_come now token p c.
Proof.
  intros Hin Hs Hr Ht Hp [Hnd _ Hc _ _].
  apply (grant_decision plan_of lease (last_time t0 ops)); [|done|done|done|].
  - by eapply run_queue; [apply empty_queue_ok|..].
  - eapply Forall_impl; [exact Hc|]. naive_solver.
Qed.

(** C33: Once a waiter has been queued for five seconds, no one overtakes it while it can
    be served: whoever is granted then has waited five seconds too and arrived no later. *)
Theorem aged_waiter_is_not_overtaken plan_of lease t0 ops c outs now token p li t' e' :
  in_time t0 ops → steady plan_of ops → run lease ops empty_coord = (c, outs) →
  last_time t0 ops ≤ now → plan_of token = Some p → well_formed li p →
  (grant now lease token p c).2 = RGranted → t' ≠ token →
  co_pending (view now token p c) !! t' = Some e' → eligible now (view now token p c) e' = true →
  is_old now e' = true →
  is_old now (mine now token p c) = true ∧ (en_seq (mine now token p c) < en_seq e')%Z ∧
  en_born (mine now token p c) ≤ en_born e'.
Proof.
  intros Hin Hs Hr Ht Hp [Hnd _ Hc _ _] Hg Hne He Hel Hold.
  assert (Hq : queue_ok plan_of (last_time t0 ops) c) by (by eapply run_queue; [apply empty_queue_ok|..]).
  assert (Hrate : Forall (λ q, 0 < br_rate q) (pl_buckets p)) by (eapply Forall_impl; [exact Hc|]; naive_solver).
  apply (grant_decision plan_of lease _ now token p c Hq Ht Hp Hnd Hrate) in Hg as (_ & _ & Hme & Hno).
  destruct (view_queue plan_of _ now token p c Hq Ht Hp) as [Hm Hv].
  assert (Hseq : en_seq e' ≠ en_seq (mine now token p c)).
  { intros Heq. apply Hne. by apply (qo_distinct _ _ _ Hv _ _ _ _ He Hm). }
  pose proof (ahead_total now _ _ _ Hseq (Hno _ _ He Hel)) as Ha. revert Ha. unfold ahead. rewrite beats_spec. simpl.
  rewrite Hold. destruct (is_old now (mine now token p c)); [|done]. intros Hlt. split; [done|]. split; [done|].
  by apply (qo_order _ _ _ Hv _ _ _ _ Hm He).
Qed.

(** ** Witnesses *)

Module AdmissionExamples.

(** A digest of 64 characters. *)
Fixpoint pad (n : nat) (s : string) : string :=
  match n, s with
  | O, _ => ""
  | S n, EmptyString => "0" +:+ pad n ""
  | S n, String c s => String c (pad n s)
  end.

Definition hash (l : list string) : string := pad 64 (String.concat "|" l).

Lemma hash_length l : String.length (hash l) = 64%nat.
Proof.
  unfold hash. generalize (String.concat "|" l). generalize 64%nat. induction n as [|n IH]; intros s; [done|].
  destruct s; cbn [pad]; [rewrite strlen_app|cbn]; by rewrite IH.
Qed.

Definition s (n : Z) : Qc := seconds n.
Definition li : limits := Limits (s 2) (s 4) 1 1 1 (s 30).
Definition cx : context := Context "tenant" "app" "mail" (Some "user:1") "graph" false.
Definition no_plan : plan := Plan [] [] "" 1 0.
Definition planned_batch : plan * list string * list (string * string) :=
  from_ok (no_plan, [], []) (admit_plan hash "ns" li [(cx, s 1); (cx, s 2)] (s 5) 3).
Definition p : plan := planned_batch.1.1.

Lemma batch_ok :
  admit_plan hash "ns" li [(cx, s 1); (cx, s 2)] (s 5) 3 = Ok (p, planned_batch.1.2, planned_batch.2).
Proof.
  change (p, planned_batch.1.2, planned_batch.2) with (planned_batch.1.1, planned_batch.1.2, planned_batch.2).
  rewrite <- !surjective_pairing. unfold planned_batch. apply is_ok_from. by vm_compute.
Qed.

Lemma admission_plan_is_well_formed_witness :
  well_formed li p ∧
  (∃ q, q ∈ pl_buckets p ∧ br_key q = prefix hash "ns" +:+ "rate" ∧
     br_cost q = foldr Qcplus 0 ([(cx, s 1); (cx, s 2)].*2)) ∧
  Forall (λ q, is_Some (dict_get (br_key q) planned_batch.2)) (pl_buckets p) ∧
  Forall (λ s, is_Some (dict_get s.1 planned_batch.2)) (pl_slots p).
Proof. apply (admission_plan_is_well_formed hash "ns" li [(cx, s 1); (cx, s 2)] (s 5) 3 p planned_batch.1.2 planned_batch.2 hash_length); [by vm_compute|apply batch_ok]. Defined.

Lemma p_well_formed : well_formed li p.
Proof. eapply admit_plan_well_formed; [by vm_compute|apply batch_ok]. Qed.

Definition plan_of (t : string) : option plan := Some p.

(** One slot: [a] holds it, [b] and [c] queue for it. *)
Definition queue_ops (p : plan) : list (Qc * op) :=
  [(s 0, OGrant "a" p); (s 1, OGrant "b" p); (s 2, OGrant "c" p); (s 7, ORelease "a" (pl_slots p).*1)].

(** The plan a sequence polls with. *)
Definition polls_with (p : plan) (o : op) : Prop :=
  match o with OGrant _ q => q = p | OCooldown _ _ => False | _ => True end.

Lemma queue_ops_poll q : Forall (λ to, polls_with q to.2) (queue_ops q).
Proof. repeat constructor. Qed.

Lemma polls_planned l : Forall (λ to, polls_with p to.2) l → planned hash "ns" li l.
Proof.
  rewrite Forall_forall. intros Hl. split.
  - intros n t q Hq. apply Hl in Hq. simpl in Hq. subst q.
    exists [(cx, s 1); (cx, s 2)], (s 5), 3%Z, planned_batch.1.2, planned_batch.2.
    split; [|exact batch_ok]. apply (forallb_Forall (λ req : context * Qc, valid_context req.1)). by vm_compute.
  - intros n x k Hk. by apply Hl in Hk.
Qed.

Lemma polls_steady q l : Forall (λ to, polls_with q to.2) l → steady (λ _, Some q) l.
Proof. rewrite Forall_forall. intros Hl n t q' Hq. apply Hl in Hq. simpl in Hq. by subst q'. Qed.

Definition ops : list (Qc * op) := queue_ops p.

Lemma ops_in_time : in_time (s 0) ops.
Proof. repeat split; by vm_compute. Qed.

Definition after_ops : coord * list (Qc * outcome) := run (s 30) ops empty_coord.

Lemma network_slots_are_respected_witness :
  (Z.of_nat (size (after (s 7) (ledger (s 30) (prefix hash "ns" +:+ "active") after_ops.2))) ≤ 1)%Z.
Proof.
  destruct (network_slots_are_respected hash "ns" li ops (s 0) (s 7) after_ops.1 after_ops.2 hash_length) as [H _].
  - by vm_compute.
  - apply polls_planned, queue_ops_poll.
  - apply ops_in_time.
  - apply surjective_pairing.
  - by vm_compute.
  - exact H.
Defined.

Definition no_entry : entry := Entry "" 1 0 0 [] [].
Definition waiting_c : entry := default no_entry (co_pending (view (s 8) "b" p after_ops.1) !! "c").

Lemma poll_is_granted_in_turn_witness :
  (grant (s 8) (s 30) "b" p after_ops.1).2 = RGranted ↔
    ¬ is_cancelled (s 8) "b" after_ops.1 ∧ ¬ no_room (s 8) "b" after_ops.1 ∧ turn_has_come (s 8) "b" p after_ops.1.
Proof.
  apply (poll_is_granted_in_turn (λ _, Some p) (s 30) (s 0) ops after_ops.1 after_ops.2 (s 8) "b" p li).
  - apply ops_in_time.
  - apply polls_steady, queue_ops_poll.
  - apply surjective_pairing.
  - by vm_compute.
  - reflexivity.
  - apply p_well_formed.
Defined.

Lemma aged_waiter_is_not_overtaken_witness :
  is_old (s 8) (mine (s 8) "b" p after_ops.1) = true ∧
  (en_seq (mine (s 8) "b" p after_ops.1) < en_seq waiting_c)%Z ∧
  en_born (mine (s 8) "b" p after_ops.1) ≤ en_born waiting_c.
Proof.
  apply (aged_waiter_is_not_overtaken (λ _, Some p) (s 30) (s 0) ops after_ops.1 after_ops.2 (s 8) "b" p li "c" waiting_c).
  - apply ops_in_time.
  - apply polls_steady, queue_ops_poll.
  - apply surjective_pairing.
  - by vm_compute.
  - reflexivity.
  - apply p_well_formed.
  - by vm_compute.
  - discriminate.
  - apply is_Some_default. by vm_compute.
  - by vm_compute.
  - by vm_compute.
Defined.

(** The workload bucket in the second seven of the queue's polls. *)
Definition later_ops : list (Qc * op) := [(s 8, OGrant "b" p); (s 9, ORelease "b" (pl_slots p).*1); (s 10, OGrant "c" p)].

Definition after_later : coord * list (Qc * outcome) := run (s 30) later_ops after_ops.1.

Lemma later_poll q : Forall (λ to, polls_with q to.2)
  (queue_ops q ++ [(s 8, OGrant "b" q); (s 9, ORelease "b" (pl_slots q).*1); (s 10, OGrant "c" q)]).
Proof. repeat constructor. Qed.

Lemma provider_rate_is_respected_witness :
  spent (workload_key hash "ns" cx) after_later.2 ≤ s 4 + (last_time (s 8) later_ops - s 8) * s 2.
Proof.
  apply (provider_rate_is_respected hash "ns" li cx (workload_key hash "ns" cx) (s 2) (s 4) (s 0) ops after_ops.1 after_ops.2
    (s 8) later_ops after_later.1 after_later.2 hash_length).
  - by vm_compute.
  - by vm_compute.
  - by vm_compute.
  - unfold bucket_keys. rewrite !elem_of_app, !elem_of_cons. left. right. right. by left.
  - reflexivity.
  - apply polls_planned, later_poll.
  - apply ops_in_time.
  - apply surjective_pairing.
  - by vm_compute.
  - repeat split; by vm_compute.
  - apply surjective_pairing.
Defined.

(** A workload cooled for ten seconds: refused at five, granted at ten. *)
Definition cooled_ops : list (Qc * op) := [(s 5, OGrant "a" p); (s 10, OGrant "a" p)].
Definition cooldown_at : op := OCooldown (s 10) (workload_key hash "ns" cx).
Definition after_cooldown : coord * list (Qc * outcome) := run (s 30) ((s 0, cooldown_at) :: cooled_ops) empty_coord.

Lemma cooled_poll q : Forall (λ to, polls_with q to.2) [(s 5, OGrant "a" q); (s 10, OGrant "a" q)].
Proof. repeat constructor. Qed.

(** The last answer of a cooldown followed by two polls. *)
Lemma last_answer lease t0 secs k t1 tk1 q t2 tk2 c :
  (t2, Answered tk2 q (grant t2 lease tk2 q (grant t1 lease tk1 q (cooldown t0 secs k c)).1).2)
    ∈ (run lease [(t0, OCooldown secs k); (t1, OGrant tk1 q); (t2, OGrant tk2 q)] c).2.
Proof.
  cbn [run exec]. destruct (grant t1 lease tk1 q (cooldown t0 secs k c)) as [c1 r1]. cbn [fst].
  destruct (grant t2 lease tk2 q c1) as [c2 r2]. right. right. left.
Qed.

Lemma ten_is_granted :
  (grant (s 10) (s 30) "a" p (grant (s 5) (s 30) "a" p (cooldown (s 0) (s 10) (workload_key hash "ns" cx) empty_coord)).1).2
    = RGranted.
Proof. by vm_compute. Qed.

Lemma granted_at_ten : (s 10, Answered "a" p RGranted) ∈ after_cooldown.2.
Proof. rewrite <- ten_is_granted. apply last_answer. Qed.

Lemma cooldown_is_honoured_witness : s 0 + s 10 ≤ s 10.
Proof.
  apply (cooldown_is_honoured hash "ns" li cx (s 10) (s 0) empty_coord cooled_ops after_cooldown.1 after_cooldown.2 cooldown_at)
    with (token := "a") (p := p) (reqs := [(cx, s 1); (cx, s 2)]) (budget := s 5) (weight := 3%Z)
      (paced := planned_batch.1.2) (scopes := planned_batch.2) (scope := cx).
  - by vm_compute.
  - apply polls_planned, cooled_poll.
  - reflexivity.
  - repeat split; by vm_compute.
  - apply surjective_pairing.
  - apply granted_at_ten.
  - exact batch_ok.
  - left.
  - reflexivity.
  - reflexivity.
  - reflexivity.
Defined.

(** A poll that arrives five seconds after its token was withdrawn. *)
Definition late_ops : list (Qc * op) := [(s 5, OGrant "a" p)].
Definition after_late : coord * list (Qc * outcome) :=
  run (s 30) ((s 0, ORelease "a" (pl_slots p).*1) :: late_ops) empty_coord.
Definition late_reply : reply :=
  (grant (s 5) (s 30) "a" p (release (s 0) (s 30) "a" (pl_slots p).*1 empty_coord)).2.

Lemma first_answer lease t0 tk ks t1 q c :
  (t1, Answered tk q (grant t1 lease tk q (release t0 lease tk ks c)).2)
    ∈ (run lease [(t0, ORelease tk ks); (t1, OGrant tk q)] c).2.
Proof. cbn [run exec]. destruct (grant t1 lease tk q (release t0 lease tk ks c)) as [c1 r1]. right. left. Qed.

Lemma late_answer : (s 5, Answered "a" p late_reply) ∈ after_late.2.
Proof. apply first_answer. Qed.

Lemma withdrawn_token_is_fenced_witness : late_reply = RCancelled.
Proof.
  apply (withdrawn_token_is_fenced (s 30) "a" (pl_slots p).*1 (s 0) empty_coord late_ops after_late.1 after_late.2)
    with (t := s 5) (p := p).
  - repeat split; by vm_compute.
  - apply surjective_pairing.
  - apply late_answer.
  - by vm_compute.
Defined.

End AdmissionExamples.
