(* ===== verification/RangeDownload.v ===== *)
(** * Ordered range downloads

    [src/shared/range_download.py]: a large file is read as segments, several at a time,
    and handed on in order. The first response fixes a strong ETag; every later response
    must carry the same one. A segment's response is what the server answered to its one
    request; the free space of the spool directory is a parameter. Cancelling the
    outstanding tasks when the consumer leaves early is not modelled. *)

From Stdlib Require Import Strings.Ascii.
From S2P Require Import Prelude.
Local Open Scope nat_scope.

(** ** Responses *)

Record response := Response {
  rs_status : Z;
  rs_etag : option string;
  rs_content_range : string;
  rs_blocks : list bytes;
}.

Inductive range_err :=
  | BadSizes
  | RangeProofUnavailable
  | RangeRequestFailed (status : Z)
  | InvalidContentRange
  | ContentRangeMismatch
  | VersionChanged
  | LengthExceeded
  | SpoolCapacity
  | LengthMismatch.

(** [strong_etag]. *)
Definition strong_etag (r : response) : option string :=
  match rs_etag r with
  | Some e => if decide (e = "") then None else if String.prefix "W/" e then None else Some e
  | None => None
  end.

(** The pattern [bytes (\d+)-(\d+)/(\d+)], matched in full. *)
Definition digit (c : ascii) : option Z :=
  let n := Z.of_nat (nat_of_ascii c) in if decide (48 ≤ n ≤ 57)%Z then Some (n - 48)%Z else None.

(** A number read so far, and the rest of the text. *)
Fixpoint number_from (acc : Z) (s : string) : Z * string :=
  match s with
  | String c s' => match digit c with Some d => number_from (10 * acc + d) s' | None => (acc, s) end
  | EmptyString => (acc, s)
  end.

Definition number (s : string) : option (Z * string) :=
  match s with
  | String c s' => d ← digit c; Some (number_from d s')
  | EmptyString => None
  end.

Fixpoint literal (p s : string) : option string :=
  match p, s with
  | EmptyString, _ => Some s
  | String a p, String b s => if decide (a = b) then literal p s else None
  | String _ _, EmptyString => None
  end.

Definition content_range (s : string) : option (Z * Z * Z) :=
  s ← literal "bytes " s;
  '(lo, s) ← number s;
  s ← literal "-" s;
  '(hi, s) ← number s;
  s ← literal "/" s;
  '(size, s) ← number s;
  if decide (s = "") then Some (lo, hi, size) else None.

(** [validate_range], with both optional arguments. *)
Definition validate_range (r : response) (start total : nat) (last : option nat) (etag : option string)
    : result range_err unit :=
  match content_range (rs_content_range r) with
  | None => Err InvalidContentRange
  | Some (lo, hi, size) =>
    raise_if (negb (bool_decide (lo = Z.of_nat start)) || (hi <? lo)%Z || negb (bool_decide (size = Z.of_nat total))
      || (Z.of_nat total <=? hi)%Z || match last with Some e => negb (bool_decide (hi = Z.of_nat e)) | None => false end)
      ContentRangeMismatch ;;
    raise_if (match etag with Some _ => negb (bool_decide (strong_etag r = etag)) | None => false end) VersionChanged
  end.

Section Download.
(** The answer to the request of each segment, and the free bytes of the spool directory
    while a segment has received so many. *)
Context (reply : nat → response) (free : nat → nat → Z).
Context (total segment_size concurrency chunk_size : nat).

Definition SPOOL_RESERVE : Z := 256 * 1024 * 1024.
Definition SPACE_STEP : nat := Z.to_nat (4 * 1024 * 1024).

(** The loop over the blocks of a response; [need] is the length of the segment. *)
Fixpoint receive (index need received space_check : nat) (acc : bytes) (blocks : list bytes) : result range_err bytes :=
  match blocks with
  | [] => if decide (received = need) then Ok acc else Err LengthMismatch
  | block :: blocks =>
    if decide (need < received + length block) then Err LengthExceeded
    else if decide (space_check ≤ received) then
      if decide (free index received < Z.of_nat (length block) + SPOOL_RESERVE)%Z then Err SpoolCapacity
      else receive index need (received + length block) (received + SPACE_STEP) (acc ++ block) blocks
    else receive index need (received + length block) space_check (acc ++ block) blocks
  end.

(** [fetch]: the segment's bytes and the version known afterwards. *)
Definition fetch (version : option string) (index : nat) : result range_err (bytes * option string) :=
  let lo := index * segment_size in
  let hi := Nat.min total ((index + 1) * segment_size) - 1 in
  let r := reply index in
  raise_if (bool_decide (index = 0) && (bool_decide (rs_status r = 200%Z) || bool_decide (strong_etag r = None)) &&
            bool_decide (rs_status r ∈ [200; 206]%Z)) RangeProofUnavailable ;;
  raise_if (negb (bool_decide (rs_status r = 206%Z))) (RangeRequestFailed (rs_status r)) ;;
  validate_range r lo total (Some hi) version ;;
  let version := match version with Some _ => version | None => strong_etag r end in
  data ← receive index (hi - lo + 1) 0 0 [] (rs_blocks r);
  Ok (data, version).

Definition segments : nat := (total + segment_size - 1) / segment_size.

(** Reading a spool file [chunk_size] bytes at a time. *)
Fixpoint chunks (fuel : nat) (data : bytes) : list bytes :=
  match fuel, data with
  | S fuel, _ :: _ => take chunk_size data :: chunks fuel (drop chunk_size data)
  | _, _ => []
  end.

Definition emit (data : bytes) : gen range_err unit := Gen (chunks (length data) data) (Ok tt).

(** The segments from [index] on, [n] of them. *)
Fixpoint iterate (version : option string) (index n : nat) : gen range_err unit :=
  match n with
  | 0 => mret tt
  | S n =>
    match fetch version index with
    | Err e => throw e
    | Ok (data, _) => emit data ≫= λ _, iterate version (index + 1) n
    end
  end.

(** [ordered_ranges], consumed to its end. *)
Definition ordered_ranges : gen range_err unit :=
  if decide (total = 0 ∨ segment_size = 0 ∨ concurrency = 0 ∨ chunk_size = 0) then throw BadSizes
  else
    match fetch None 0 with
    | Err e => throw e
    | Ok (first, version) => emit first ≫= λ _, iterate version 1 (segments - 1)
    end.

(** ** The window

    What [iterate] does with the segment tasks and their spool files. *)
Inductive window_event := EStart (i : nat) | EYield (i : nat) | EUnlink (i : nat).

(** The loop over the indices, [n] of them left. *)
Fixpoint window_loop (following index n : nat) : list window_event :=
  match n with
  | 0 => []
  | S n =>
    if decide (following < segments)
    then [EYield index; EUnlink index; EStart following] ++ window_loop (following + 1) (index + 1) n
    else [EYield index; EUnlink index] ++ window_loop following (index + 1) n
  end.

Definition window : list window_event :=
  let following := Nat.max 1 (Nat.min segments concurrency) in
  map EStart (seq 0 following) ++ window_loop following 0 segments.
End Download.

(** ** Reading a response *)

Lemma receive_Ok free index need blocks : ∀ received space_check acc data,
  receive free index need received space_check acc blocks = Ok data →
  data = acc ++ concat blocks ∧ received + length (concat blocks) = need.
Proof.
  induction blocks as [|block blocks IH]; intros received space_check acc data; simpl.
  - case_decide; [|done]. intros [= <-]. rewrite app_nil_r. split; [done|lia].
  - case_decide; [done|]. rewrite length_app.
    case_decide; [case_decide; [done|]|]; intros [-> Hl]%IH; rewrite <- app_assoc; (split; [done|lia]).
Qed.

(** Blocks that fit are received. *)
Lemma receive_fits free index need blocks : ∀ received space_check acc,
  (∀ n block, block ∈ blocks → (Z.of_nat (length block) + SPOOL_RESERVE ≤ free index n)%Z) →
  received + length (concat blocks) = need →
  receive free index need received space_check acc blocks = Ok (acc ++ concat blocks).
Proof.
  induction blocks as [|block blocks IH]; intros received space_check acc Hfree Hl; simpl in *.
  - rewrite decide_True by lia. by rewrite app_nil_r.
  - rewrite length_app in Hl. rewrite decide_False by lia. rewrite app_assoc.
    assert (Hf := Hfree received block ltac:(by left)).
    case_decide; [rewrite decide_False by lia|]; (apply IH; [intros; apply Hfree; by right|lia]).
Qed.

Section Chunks.
Context (chunk_size : nat) (Hchunk : chunk_size ≠ 0).

Lemma chunks_concat fuel : ∀ data, length data ≤ fuel → concat (chunks chunk_size fuel data) = data.
Proof using Hchunk.
  induction fuel as [|fuel IH]; intros [|b data] Hl; simpl in *; try done; [lia|].
  rewrite IH; [by rewrite take_drop|]. rewrite length_drop. simpl. lia.
Qed.

Lemma chunks_bounded fuel : ∀ data, Forall (λ c, c ≠ [] ∧ length c ≤ chunk_size) (chunks chunk_size fuel data).
Proof using Hchunk.
  induction fuel as [|fuel IH]; intros [|b data]; simpl; try constructor; [|apply IH].
  split; [by destruct chunk_size|]. rewrite length_take. lia.
Qed.
End Chunks.

(** ** The segments of a version *)

Lemma content_range_checked r start total last etag u :
  validate_range r start total (Some last) etag = Ok u →
  ∃ hi, content_range (rs_content_range r) = Some (Z.of_nat start, hi, Z.of_nat total) ∧ hi = Z.of_nat last ∧
    (Z.of_nat start ≤ hi < Z.of_nat total)%Z ∧ (etag ≠ None → strong_etag r = etag).
Proof.
  unfold validate_range. destruct (content_range _) as [[[lo hi] size]|]; [|done].
  intros (? & H%raise_if_Ok & H'%raise_if_Ok)%bind_Ok. bools. subst. exists (Z.of_nat last).
  split; [done|]. split; [done|]. split; [lia|]. destruct etag; [by bools|done].
Qed.

Section Versions.
Context (reply : nat → response) (free : nat → nat → Z).
Context (total segment_size concurrency chunk_size : nat).
Notation fetch_at := (fetch reply free total segment_size).
Notation segments_at := (segments total segment_size).
Notation iterate_at := (iterate reply free total segment_size chunk_size).

(** A strong ETag names the bytes of one version, and the range of a response counts
    from their start: the contract of partial content. *)
Definition serves (entity : string → bytes) : Prop :=
  ∀ i e lo hi size,
    rs_status (reply i) = 206%Z → strong_etag (reply i) = Some e →
    content_range (rs_content_range (reply i)) = Some (lo, hi, size) →
    Z.of_nat (length (concat (rs_blocks (reply i)))) = (hi - lo + 1)%Z →
    concat (rs_blocks (reply i)) = slice (Z.to_nat lo) (Z.to_nat (hi + 1)) (entity e) ∧
    Z.of_nat (length (entity e)) = size.

Definition first_byte (i : nat) : nat := i * segment_size.
Definition end_byte (i : nat) : nat := Nat.min total ((i + 1) * segment_size).
Arguments first_byte : simpl never.
Arguments end_byte : simpl never.

Lemma fetch_Ok entity version i data version' :
  segment_size ≠ 0 → serves entity → (version = None → i = 0) → fetch_at version i = Ok (data, version') →
  ∃ e, version' = Some e ∧ (version = None ∨ version = Some e) ∧ strong_etag (reply i) = Some e ∧
    length (entity e) = total ∧ data = slice (first_byte i) (end_byte i) (entity e) ∧ first_byte i < end_byte i.
Proof using.
  intros Hseg Hs Hv. unfold RangeDownload.fetch. cbv zeta.
  intros (? & H1%raise_if_Ok & (? & H2%raise_if_Ok & (? & H3 & (d & H4 & H5)%bind_Ok)%bind_Ok)%bind_Ok)%bind_Ok.
  injection H5 as -> <-. bools. apply receive_Ok in H4 as [-> Hl]. simpl in *.
  apply content_range_checked in H3 as (hi & Hcr & -> & Hb & He).
  assert (Hetag : ∃ e, strong_etag (reply i) = Some e ∧ (version = None ∨ version = Some e)).
  { destruct version as [e|]; [exists e; split; [by apply He|by right]|].
    destruct (strong_etag (reply i)) as [e|] eqn:Hse; [exists e; by split; [|left]|].
    exfalso. rewrite H2 in H1. by rewrite (Hv eq_refl) in H1. }
  destruct Hetag as (e & Hse & Hver). exists e.
  destruct (Hs i e _ _ _ H2 Hse Hcr) as [Hdata Hlen]; [lia|].
  assert (Hpos : 0 < (i + 1) * segment_size) by nia.
  unfold first_byte, end_byte. split; [destruct Hver as [->| ->]; [by rewrite Hse|done]|]. split; [done|]. split; [done|].
  split; [lia|]. split; [|lia]. rewrite Hdata. f_equal; lia.
Qed.


(** Successive segments_at extend the prefix. *)
Lemma prefix_extends {A} (l : list A) a b : a ≤ b → b ≤ length l → take a l ++ slice a b l = take b l.
Proof using.
  clear. intros Hab Hb. unfold slice. rewrite <- (take_drop a (take b l)), take_take, Nat.min_l by lia. f_equal.
  rewrite take_drop_commute. do 2 f_equal. lia.
Qed.

Lemma iterate_prefix entity e n : ∀ i,
  segment_size ≠ 0 → serves entity → chunk_size ≠ 0 → i ≠ 0 → length (entity e) = total →
  match iterate_at (Some e) i n with
  | Gen out res => take (Nat.min total (first_byte i)) (entity e) ++ concat out `prefix_of` entity e ∧
      (res = Ok tt → take (Nat.min total (first_byte i)) (entity e) ++ concat out =
        take (Nat.min total (first_byte (i + n))) (entity e))
  end.
Proof using.
  intros i Hseg Hs Hc. revert i. induction n as [|n IH]; intros i Hi Hlen; simpl.
  { rewrite app_nil_r, Nat.add_0_r. split; [|done]. exists (drop (Nat.min total (first_byte i)) (entity e)). by rewrite take_drop. }
  destruct (fetch_at (Some e) i) as [[data v]|err] eqn:Hf.
  2:{ simpl. rewrite app_nil_r. split; [|done]. exists (drop (Nat.min total (first_byte i)) (entity e)). by rewrite take_drop. }
  apply (fetch_Ok entity) in Hf as (e' & -> & [[=]|[= <-]] & _ & _ & -> & Hlt); [|done..].
  unfold emit. simpl. specialize (IH (i + 1) ltac:(lia) Hlen).
  destruct (iterate_at (Some e) (i + 1) n) as [out res]. rewrite concat_app, chunks_concat by done. rewrite app_assoc.
  assert (Hmin : Nat.min total (first_byte i) = first_byte i) by (unfold end_byte in Hlt; lia).
  rewrite Hmin, prefix_extends; [|unfold end_byte in *; lia..].
  replace (end_byte i) with (Nat.min total (first_byte (i + 1))) by (unfold end_byte, first_byte; lia).
  by replace (i + S n) with (i + 1 + n) by lia.
Qed.

Lemma iterate_chunks (Hch : chunk_size ≠ 0) version n : ∀ i,
  match iterate_at version i n with Gen out _ => Forall (λ c, length c ≤ chunk_size) out end.
Proof using.
  induction n as [|n IH]; intros i; simpl; [constructor|].
  destruct (fetch_at version i) as [[data v]|err]; [|constructor]. unfold emit. simpl. specialize (IH (i + 1)).
  destruct (iterate_at version (i + 1) n) as [out res]. apply Forall_app. split; [|done].
  eapply Forall_impl; [by apply chunks_bounded|]. naive_solver.
Qed.
End Versions.
Arguments first_byte : simpl never.
Arguments end_byte : simpl never.

Lemma segments_cover total segment_size : segment_size ≠ 0 → total ≤ segments total segment_size * segment_size.
Proof.
  intros H. unfold segments. pose proof (Nat.div_mod (total + segment_size - 1) segment_size H).
  pose proof (Nat.mod_upper_bound (total + segment_size - 1) segment_size H). lia.
Qed.

Lemma segments_pos total segment_size : total ≠ 0 → segment_size ≠ 0 → segments total segment_size ≠ 0.
Proof. intros Ht Hs. pose proof (segments_cover total segment_size Hs). destruct (segments total segment_size); [lia|done]. Qed.

Lemma download_prefix reply free total segment_size concurrency chunk_size entity out res :
  serves reply entity →
  ordered_ranges reply free total segment_size concurrency chunk_size = Gen out res →
  (out = [] ∧ res ≠ Ok tt) ∨
  ∃ e, strong_etag (reply 0) = Some e ∧ concat out `prefix_of` entity e ∧ Forall (λ c, length c ≤ chunk_size) out ∧
    (res = Ok tt → concat out = entity e ∧ length (entity e) = total).
Proof.
  intros Hs. unfold ordered_ranges. case_decide as Hz; [intros [= <- <-]; by left|].
  assert (Hseg : segment_size ≠ 0) by tauto. assert (Hch : chunk_size ≠ 0) by tauto. assert (Ht : total ≠ 0) by tauto.
  destruct (fetch reply free total segment_size None 0) as [[first v]|err] eqn:Hf; [|intros [= <- <-]; by left].
  apply (fetch_Ok _ _ _ _ entity) in Hf as (e & -> & _ & He & Hlen & -> & Hlt); [|done..].
  assert (Hmin : slice (first_byte segment_size 0) (end_byte total segment_size 0) (entity e) =
    take (Nat.min total (first_byte segment_size 1)) (entity e)).
  { unfold slice, first_byte, end_byte. rewrite drop_0. f_equal. lia. }
  rewrite Hmin. unfold emit, mbind, gen_bind. cbv beta iota. pose proof (iterate_prefix reply free total segment_size chunk_size entity e
    (segments total segment_size - 1) 1 Hseg Hs Hch ltac:(lia) Hlen) as Hit.
  pose proof (iterate_chunks reply free total segment_size chunk_size Hch (Some e) (segments total segment_size - 1) 1) as Hbd.
  destruct (iterate _ _ _ _ _ _ _ _) as [out' res']. intros [= <- <-]. right. exists e. split; [done|].
  rewrite concat_app, chunks_concat by done. destruct Hit as [Hpre Hok].
  split; [done|]. split; [apply Forall_app; split; [|done]|].
  { eapply Forall_impl; [by apply chunks_bounded|]. naive_solver. }
  intros Hres. rewrite (Hok Hres). split; [|done]. apply take_ge.
  pose proof (segments_cover total segment_size Hseg). pose proof (segments_pos total segment_size Ht Hseg).
  unfold first_byte. replace (1 + (segments total segment_size - 1)) with (segments total segment_size) by lia. lia.
Qed.

(** C34: Whatever the server answers, and even if the file changes between two requests,
    the bytes handed to the consumer are a prefix of one version of the file - the one
    whose strong ETag came first - and a download that ends without an error has handed
    over exactly that version. *)
Theorem download_is_one_version reply free total segment_size concurrency chunk_size entity out res :
  serves reply entity →
  ordered_ranges reply free total segment_size concurrency chunk_size = Gen out res →
  (out = [] ∧ res ≠ Ok tt) ∨
  ∃ e, strong_etag (reply 0) = Some e ∧ concat out `prefix_of` entity e ∧ Forall (λ c, length c ≤ chunk_size) out ∧
    (res = Ok tt → concat out = entity e ∧ length (entity e) = total).
Proof. apply download_prefix. Qed.

(** ** A server that answers *)

(** Every segment is answered in full from the version [e]. *)
Definition answers (reply : nat → response) (total segment_size : nat) (e : string) (content : bytes) : Prop :=
  ∀ i, i < segments total segment_size →
    rs_status (reply i) = 206%Z ∧ strong_etag (reply i) = Some e ∧
    content_range (rs_content_range (reply i)) =
      Some (Z.of_nat (first_byte segment_size i), Z.of_nat (end_byte total segment_size i) - 1, Z.of_nat total)%Z ∧
    concat (rs_blocks (reply i)) = slice (first_byte segment_size i) (end_byte total segment_size i) content.

Lemma segment_nonempty total segment_size i :
  segment_size ≠ 0 → i < segments total segment_size → first_byte segment_size i < end_byte total segment_size i.
Proof.
  intros Hs Hi. unfold first_byte, end_byte, segments in *.
  assert ((i + 1) * segment_size ≤ total + segment_size - 1).
  { etrans; [|apply (Nat.Div0.mul_div_le (total + segment_size - 1) segment_size)]. nia. }
  nia.
Qed.

Lemma fetch_answered reply free total segment_size e content version i :
  segment_size ≠ 0 → answers reply total segment_size e content → length content = total →
  (∀ i n block, block ∈ rs_blocks (reply i) → (Z.of_nat (length block) + SPOOL_RESERVE ≤ free i n)%Z) →
  (version = None ∨ version = Some e) → i < segments total segment_size →
  fetch reply free total segment_size version i =
    Ok (slice (first_byte segment_size i) (end_byte total segment_size i) content, Some e).
Proof.
  intros Hs Ha Hlen Hfree Hv Hi. destruct (Ha i Hi) as (Hst & He & Hcr & Hd).
  pose proof (segment_nonempty _ _ _ Hs Hi) as Hlt. unfold fetch. cbv zeta. rewrite Hst, He.
  rewrite (bool_decide_eq_false_2 (206 = 200)%Z), (bool_decide_eq_false_2 (Some e = None)) by done. simpl.
  rewrite andb_false_r. simpl. fold (first_byte segment_size i). fold (end_byte total segment_size i).
  assert (Hver : match version with Some _ => negb (bool_decide (Some e = version)) | None => false end = false).
  { destruct Hv as [->| ->]; [done|]. by rewrite bool_decide_eq_true_2. }
  unfold validate_range. rewrite Hcr, He, Hver.
  rewrite !bool_decide_eq_true_2 by (unfold first_byte, end_byte in *; lia). simpl.
  rewrite (proj2 (Z.ltb_ge _ _)), (proj2 (Z.leb_gt _ _)) by (unfold first_byte, end_byte in *; lia). simpl.
  rewrite receive_fits; [|by intros; apply Hfree|].
  - simpl. rewrite Hd. by destruct Hv as [->| ->].
  - rewrite Hd, length_slice by (unfold end_byte; lia). lia.
Qed.

Lemma iterate_answered reply free total segment_size chunk_size e content n : ∀ i,
  segment_size ≠ 0 → answers reply total segment_size e content → length content = total →
  (∀ i n block, block ∈ rs_blocks (reply i) → (Z.of_nat (length block) + SPOOL_RESERVE ≤ free i n)%Z) →
  i + n ≤ segments total segment_size →
  ∃ out, iterate reply free total segment_size chunk_size (Some e) i n = Gen out (Ok tt).
Proof.
  induction n as [|n IH]; intros i Hs Ha Hlen Hfree Hi; [by exists []|]. simpl.
  rewrite (fetch_answered _ _ _ _ e content _ _ Hs Ha Hlen Hfree) by (by right || lia). unfold emit. simpl.
  destruct (IH (i + 1) Hs Ha Hlen Hfree ltac:(lia)) as [out ->]. by eexists.
Qed.

(** A file whose version does not change, served by a server that honours ranges, is
    delivered whole: no sizes of segments, chunks or blocks make the download fail. *)
Theorem stable_file_is_downloaded reply free total segment_size concurrency chunk_size e content entity :
  total ≠ 0 → segment_size ≠ 0 → concurrency ≠ 0 → chunk_size ≠ 0 →
  serves reply entity → entity e = content → length content = total → answers reply total segment_size e content →
  (∀ i n block, block ∈ rs_blocks (reply i) → (Z.of_nat (length block) + SPOOL_RESERVE ≤ free i n)%Z) →
  ∃ out, ordered_ranges reply free total segment_size concurrency chunk_size = Gen out (Ok tt) ∧ concat out = content.
Proof.
  intros Ht Hs Hc Hch Hsv Hent Hlen Ha Hfree.
  assert (Hok : ∃ out, ordered_ranges reply free total segment_size concurrency chunk_size = Gen out (Ok tt)).
  { unfold ordered_ranges. rewrite decide_False by tauto. pose proof (segments_pos total segment_size Ht Hs) as Hp.
    rewrite (fetch_answered _ _ _ _ e content _ _ Hs Ha Hlen Hfree) by (by left || lia). unfold emit. simpl.
    destruct (iterate_answered reply free total segment_size chunk_size e content (segments total segment_size - 1) 1
      Hs Ha Hlen Hfree ltac:(lia)) as [out ->]. by eexists. }
  destruct Hok as [out Hok]. exists out. split; [done|].
  destruct (download_prefix _ _ _ _ _ _ entity _ _ Hsv Hok) as [[_ []]|(e' & He & _ & _ & Hall)]; [done|].
  destruct (Ha 0) as (_ & He0 & _); [pose proof (segments_pos total segment_size Ht Hs); lia|].
  rewrite He in He0. injection He0 as ->. rewrite <- Hent. by apply Hall.
Qed.

(** ** At most [concurrency] segments at a time *)

Definition started (l : list window_event) : list nat := omap (λ e, match e with EStart i => Some i | _ => None end) l.
Definition yielded (l : list window_event) : list nat := omap (λ e, match e with EYield i => Some i | _ => None end) l.
Definition unlinked (l : list window_event) : list nat := omap (λ e, match e with EUnlink i => Some i | _ => None end) l.

Lemma starts_of (l : list nat) : started (map EStart l) = l ∧ yielded (map EStart l) = [] ∧ unlinked (map EStart l) = [].
Proof.
  induction l as [|x l (IH1 & IH2 & IH3)]; [done|].
  change (started (map EStart (x :: l))) with (x :: started (map EStart l)). by rewrite IH1.
Qed.

Lemma started_app l k : started (l ++ k) = started l ++ started k.
Proof. apply omap_app. Qed.
Lemma yielded_app l k : yielded (l ++ k) = yielded l ++ yielded k.
Proof. apply omap_app. Qed.
Lemma unlinked_app l k : unlinked (l ++ k) = unlinked l ++ unlinked k.
Proof. apply omap_app. Qed.

Section Window.
Context (total segment_size concurrency : nat) (Hconc : concurrency ≠ 0).
Notation segments_at := (segments total segment_size).
Notation window_loop_at := (window_loop total segment_size).

Lemma window_loop_all n : ∀ following index,
  index + n = segments_at → following = Nat.min segments_at (index + concurrency) →
  started (window_loop_at following index n) = seq following (segments_at - following) ∧
  yielded (window_loop_at following index n) = seq index n ∧ unlinked (window_loop_at following index n) = seq index n.
Proof using Hconc.
  induction n as [|n IH]; intros f i Hi Hf; simpl.
  - split; [|done]. by replace (segments_at - f) with 0 by lia.
  - case_decide.
    + destruct (IH (f + 1) (i + 1)) as (H1 & H2 & H3); [lia|lia|].
      set (W := window_loop_at (f + 1) (i + 1) n) in *.
      change (f :: started W = seq f (segments_at - f) ∧ i :: yielded W = i :: seq (S i) n ∧ i :: unlinked W = i :: seq (S i) n).
      rewrite H1, H2, H3, !Nat.add_1_r. split; [|done]. by replace (segments_at - f) with (S (segments_at - S f)) by lia.
    + destruct (IH f (i + 1)) as (H1 & H2 & H3); [lia|lia|].
      set (W := window_loop_at f (i + 1) n) in *.
      change (started W = seq f (segments_at - f) ∧ i :: yielded W = i :: seq (S i) n ∧ i :: unlinked W = i :: seq (S i) n).
      rewrite H1, H2, H3, !Nat.add_1_r. split; [|done]. by replace (segments_at - f) with 0 by lia.
Qed.

(** Every prefix of the loop, with [following - index] segments_at outstanding before it. *)
Lemma window_loop_prefix n : ∀ following index l k,
  index + n = segments_at → following = Nat.min segments_at (index + concurrency) →
  window_loop_at following index n = l ++ k →
  following - index + length (started l) ≤ concurrency + length (unlinked l) ∧
  (∀ j, j ∈ yielded l → j < following + length (started l)).
Proof using Hconc.
  induction n as [|n IH]; intros f i l k Hi Hf Hl.
  { symmetry in Hl. apply app_nil in Hl as [-> _]. split; [simpl; lia|]. intros j Hj. by apply not_elem_of_nil in Hj. }
  assert (Hcases : ∀ es f', window_loop_at f i (S n) = es ++ window_loop_at f' (i + 1) n → f' = Nat.min segments_at (i + 1 + concurrency) →
    es = EYield i :: EUnlink i :: map EStart (seq f (f' - f)) → f ≤ f' ≤ f + 1 →
    f - i + length (started l) ≤ concurrency + length (unlinked l) ∧ (∀ j, j ∈ yielded l → j < f + length (started l))).
  { intros es f' Hw Hf' -> Hff. rewrite Hw in Hl. clear Hw.
    destruct l as [|e1 l]; [split; [simpl; lia|intros j Hj; by apply not_elem_of_nil in Hj]|].
    injection Hl as <- Hl. destruct l as [|e2 l].
    { split; [simpl; lia|]. intros j. simpl. rewrite list_elem_of_singleton. lia. }
    injection Hl as <- Hl. change (started (EYield i :: EUnlink i :: l)) with (started l).
    change (unlinked (EYield i :: EUnlink i :: l)) with (i :: unlinked l).
    change (yielded (EYield i :: EUnlink i :: l)) with (i :: yielded l). simpl length.
    assert (Hd : f' = f ∨ f' = f + 1) by lia. destruct Hd as [->| ->].
    - rewrite Nat.sub_diag in Hl. simpl in Hl. destruct (IH f (i + 1) l k) as [H1 H2]; [lia|lia|done|].
      split; [lia|]. intros j [->|Hj]%elem_of_cons; [lia|by apply H2].
    - replace (f + 1 - f) with 1 in Hl by lia. simpl in Hl. destruct l as [|e3 l].
      { split; [simpl; lia|]. intros j. rewrite list_elem_of_singleton. simpl. lia. }
      injection Hl as <- Hl. destruct (IH (f + 1) (i + 1) l k) as [H1 H2]; [lia|lia|done|].
      change (started (EStart f :: l)) with (f :: started l). change (unlinked (EStart f :: l)) with (unlinked l).
      change (yielded (EStart f :: l)) with (yielded l). simpl length.
      split; [lia|]. intros j [->|Hj]%elem_of_cons; [lia|]. specialize (H2 j Hj). lia. }
  destruct (decide (f < segments_at)) as [Hd|Hd].
  - apply (Hcases [EYield i; EUnlink i; EStart f] (f + 1)); [|lia| |lia].
    + simpl. by rewrite decide_True.
    + by replace (f + 1 - f) with 1 by lia.
  - apply (Hcases [EYield i; EUnlink i] f); [|lia| |lia].
    + simpl. by rewrite decide_False.
    + by rewrite Nat.sub_diag.
Qed.
End Window.

(** The reader never has more than [concurrency] segments in flight or on disk, at
    any moment; each segment is requested exactly once and in order, is handed on in
    order, and is only awaited after it was requested. *)
Theorem window_is_bounded total segment_size concurrency :
  total ≠ 0 → segment_size ≠ 0 → concurrency ≠ 0 →
  let w := window total segment_size concurrency in
  started w = seq 0 (segments total segment_size) ∧ yielded w = seq 0 (segments total segment_size) ∧
  ∀ l k, w = l ++ k →
    length (started l) ≤ concurrency + length (unlinked l) ∧ (∀ j, j ∈ yielded l → j ∈ started l).
Proof.
  intros Ht Hs Hc w. pose proof (segments_pos total segment_size Ht Hs) as Hp.
  set (n := segments total segment_size) in *. set (f := Nat.max 1 (Nat.min n concurrency)).
  assert (Hf : f = Nat.min n (0 + concurrency)) by lia.
  destruct (window_loop_all total segment_size concurrency Hc n f 0 ltac:(done) Hf) as (H1 & H2 & H3).
  destruct (starts_of (seq 0 f)) as (S1 & S2 & S3).
  assert (Hw : w = map EStart (seq 0 f) ++ window_loop total segment_size f 0 n) by done.
  assert (Hst : started w = seq 0 n).
  { rewrite Hw, started_app, S1, H1. fold n. rewrite <- seq_app. f_equal. lia. }
  split; [done|]. split; [by rewrite Hw, yielded_app, S2, H2|].
  intros l k Hl. assert (Hpre : started l = seq 0 (length (started l))).
  { rewrite Hl, started_app in Hst. pose proof (f_equal (take (length (started l))) Hst) as Ht'.
    rewrite take_app_length in Ht'. rewrite Ht' at 1. rewrite take_seq. f_equal.
    apply (f_equal length) in Hst. rewrite length_app, length_seq in Hst. lia. }
  destruct (decide (length l ≤ f)) as [Hle|Hgt].
  - assert (Hpl : l = map EStart (seq 0 (length l))).
    { rewrite Hw in Hl. pose proof (f_equal (take (length l)) Hl) as Ht'. rewrite take_app_length in Ht'.
      rewrite take_app_le in Ht' by (rewrite length_map, length_seq; done). rewrite <- Ht' at 1.
      change (map EStart (seq 0 f)) with (EStart <$> seq 0 f). rewrite <- fmap_take, take_seq, Nat.min_l by done. done. }
    destruct (starts_of (seq 0 (length l))) as (T1 & T2 & T3). rewrite <- Hpl in T1, T2, T3.
    rewrite T1, T2, T3, length_seq. split; [simpl; lia|]. intros j Hj. by apply not_elem_of_nil in Hj.
  - rewrite Hw in Hl. assert (Hex : ∃ l2, l = map EStart (seq 0 f) ++ l2 ∧ window_loop total segment_size f 0 n = l2 ++ k).
    { apply app_eq_app in Hl as (m & [[Ha Hb]|[Ha Hb]]).
      - exists []. apply (f_equal length) in Ha. rewrite length_map, length_seq, length_app in Ha. lia.
      - by exists m. }
    destruct Hex as (l2 & -> & Hl2).
    destruct (window_loop_prefix total segment_size concurrency Hc n f 0 l2 k ltac:(done) Hf Hl2) as [H4 H5].
    rewrite Hpre, yielded_app, unlinked_app, S2, S3. rewrite started_app, S1, !length_app, !length_seq in *. simpl.
    split; [lia|]. intros j Hj. apply elem_of_seq. specialize (H5 j Hj). lia.
Qed.

(** ** Witnesses *)

Module RangeExamples.

(** Five bytes in segments of two; the second segment arrives in two blocks. *)
Definition content : bytes := [Byte.x61; Byte.x62; Byte.x63; Byte.x64; Byte.x65].
Definition entity (e : string) : bytes := content.
Definition free (i n : nat) : Z := 2 * SPOOL_RESERVE.

Definition reply (i : nat) : response :=
  match i with
  | 0 => Response 206 (Some "v1") "bytes 0-1/5" [[Byte.x61; Byte.x62]]
  | 1 => Response 206 (Some "v1") "bytes 2-3/5" [[Byte.x63]; [Byte.x64]]
  | 2 => Response 206 (Some "v1") "bytes 4-4/5" [[Byte.x65]]
  | _ => Response 416 None "" []
  end.

Lemma reply_serves : serves reply entity.
Proof.
  intros i e lo hi size Hs He Hc Hl. destruct i as [|[|[|i]]]; [..|done];
    vm_compute in Hc; injection Hc as <- <- <-; split; by vm_compute.
Qed.

(** The file changes before the last segment is requested. *)
Definition changed (i : nat) : response :=
  match i with 2 => Response 206 (Some "v2") "bytes 4-4/5" [[Byte.x65]] | _ => reply i end.

Lemma changed_serves : serves changed entity.
Proof.
  intros i e lo hi size Hs He Hc Hl. destruct i as [|[|[|i]]]; [..|done];
    vm_compute in Hc; injection Hc as <- <- <-; split; by vm_compute.
Qed.

Lemma download_is_one_version_witness :
  ([[Byte.x61; Byte.x62]; [Byte.x63; Byte.x64]] = ([] : list bytes) ∧ Err VersionChanged ≠ (Ok tt : result range_err unit)) ∨
  ∃ e, strong_etag (changed 0) = Some e ∧
    concat [[Byte.x61; Byte.x62]; [Byte.x63; Byte.x64]] `prefix_of` entity e ∧
    Forall (λ c : bytes, length c ≤ 3) [[Byte.x61; Byte.x62]; [Byte.x63; Byte.x64]] ∧
    (Err VersionChanged = (Ok tt : result range_err unit) →
      concat [[Byte.x61; Byte.x62]; [Byte.x63; Byte.x64]] = entity e ∧ length (entity e) = 5).
Proof. apply (download_is_one_version changed free 5 2 2 3 entity); [apply changed_serves|by vm_compute]. Defined.

Lemma stable_file_is_downloaded_witness :
  ∃ out, ordered_ranges reply free 5 2 2 1 = Gen out (Ok tt) ∧ concat out = content.
Proof.
  apply (stable_file_is_downloaded reply free 5 2 2 1 "v1" content entity); try done.
  - apply reply_serves.
  - intros i Hi. change (segments 5 2) with 3 in Hi. destruct i as [|[|[|i]]]; [by vm_compute..|lia].
  - intros i n block Hb. destruct i as [|[|[|i]]]; simpl in Hb;
      repeat (apply elem_of_cons in Hb as [->|Hb]; [by vm_compute|]); by apply not_elem_of_nil in Hb.
Defined.

Lemma window_is_bounded_witness :
  started (window 5 2 2) = seq 0 3 ∧ yielded (window 5 2 2) = seq 0 3 ∧
  ∀ l k, window 5 2 2 = l ++ k →
    length (started l) ≤ 2 + length (unlinked l) ∧ (∀ j, j ∈ yielded l → j ∈ started l).
Proof. apply (window_is_bounded 5 2 2); done. Defined.

End RangeExamples.
