(* ===== verification/ArchiveNames.v ===== *)
(** * Names and cells of an export

    [src/shared/file_path_sanitize.py] makes a path of a drive or a mail folder safe to
    extract from an archive; [src/shared/csv_safe.py] makes a text safe to open in a
    spreadsheet. A Python [str] is the list of its code points, so lengths and slices
    count what the code counts; every text is taken to be encodable as UTF-8, as text read
    from the database is. The first ten digits of a SHA-1 are a parameter. *)

From Stdlib Require Import Strings.Ascii.
From S2P Require Import Prelude.
Local Open Scope nat_scope.

Abbreviation ustr := (list Z).

(** A text written in ASCII. *)
Fixpoint u (s : string) : ustr :=
  match s with
  | String c s => Z.of_nat (nat_of_ascii c) :: u s
  | EmptyString => []
  end.

Definition SLASH : Z := 47.
Definition BACKSLASH : Z := 92.
Definition DOT : Z := 46.
Definition SPACE : Z := 32.
Definition UNDERSCORE : Z := 95.
Definition TILDE : Z := 126.

(** ** Python's string operations *)

(** [str.isspace] of one code point. *)
Definition is_space (c : Z) : bool :=
  bool_decide ((9 ≤ c ≤ 13)%Z ∨ (28 ≤ c ≤ 32)%Z ∨ c ∈ [133; 160; 5760; 8232; 8233; 8239; 8287; 12288]%Z ∨ (8192 ≤ c ≤ 8202)%Z).

Fixpoint drop_while (p : Z → bool) (s : ustr) : ustr :=
  match s with
  | c :: s' => if p c then drop_while p s' else s
  | [] => []
  end.

Definition drop_while_end (p : Z → bool) (s : ustr) : ustr := reverse (drop_while p (reverse s)).

(** [s.strip()], [s.rstrip(". ")] and [s.strip("/")]. *)
Definition strip (s : ustr) : ustr := drop_while_end is_space (drop_while is_space s).
Definition is_trailer (c : Z) : bool := bool_decide (c = DOT) || bool_decide (c = SPACE).
Definition rstrip_dots (s : ustr) : ustr := drop_while_end is_trailer s.
Definition is_slash (c : Z) : bool := bool_decide (c = SLASH).
Definition strip_slashes (s : ustr) : ustr := drop_while_end is_slash (drop_while is_slash s).

Definition replace_char (a b : Z) (s : ustr) : ustr := map (λ c, if decide (c = a) then b else c) s.

(** [s.split(c)] and [c.join(ss)]. *)
Fixpoint split_on (c : Z) (s : ustr) : list ustr :=
  match s with
  | [] => [[]]
  | x :: s =>
    if decide (x = c) then [] :: split_on c s
    else match split_on c s with h :: t => (x :: h) :: t | [] => [[x]] end
  end.

Fixpoint join_on (c : Z) (ss : list ustr) : ustr :=
  match ss with
  | [] => []
  | [s] => s
  | s :: ss => s ++ [c] ++ join_on c ss
  end.

(** The text before and after the last occurrence of [c]. *)
Fixpoint rsplit (c : Z) (s : ustr) : option (ustr * ustr) :=
  match s with
  | [] => None
  | x :: s =>
    match rsplit c s with
    | Some (a, b) => Some (x :: a, b)
    | None => if decide (x = c) then Some ([], s) else None
    end
  end.

(** [os.path.splitext] of a POSIX path: leading dots of the base name are not separators. *)
Definition splitext (p : ustr) : ustr * ustr :=
  let '(dir, base) := match rsplit SLASH p with Some (d, b) => (d ++ [SLASH], b) | None => ([], p) end in
  match rsplit DOT base with
  | Some (stem, e) =>
    if forallb (λ c, bool_decide (c = DOT)) stem then (p, []) else (dir ++ stem, DOT :: e)
  | None => (p, [])
  end.

(** [s[:k]], for any [k]. *)
Definition slice_to (k : Z) (s : ustr) : ustr :=
  if (k <? 0)%Z then take (Z.to_nat (Z.of_nat (length s) + k)) s else take (Z.to_nat k) s.

(** ** Archive names *)

(** The reserved characters a mail export replaces. *)
Definition ARCNAME_RESERVED : ustr := u "<>:" ++ [34%Z] ++ u "/\|?*".

(** One segment of the path, when something of it is kept. *)
Definition clean_segment (replace_chars seg : ustr) : option ustr :=
  if decide (strip seg ∈ [[]; [DOT]; [DOT; DOT]]) then None
  else
    let cleaned := map (λ c, if decide (c ∈ replace_chars) then UNDERSCORE else c) seg in
    let cleaned := rstrip_dots (replace_char SLASH UNDERSCORE cleaned) in
    if decide (cleaned = []) then None else Some cleaned.

Section Names.
(** [hashlib.sha1(raw.encode("utf-8")).hexdigest()[:10]]. *)
Context (digest : ustr → ustr).

Definition sanitize_arcname (raw_path : ustr) (max_len : Z) (replace_chars : ustr) : ustr :=
  if decide (raw_path = []) then []
  else
    let path := replace_char BACKSLASH SLASH raw_path in
    let arcname := join_on SLASH (omap (clean_segment replace_chars) (split_on SLASH path)) in
    if (Z.of_nat (length arcname) <=? max_len)%Z then arcname
    else
      let ext := (splitext arcname).2 in
      let suffix := TILDE :: digest raw_path ++ ext in
      let head_budget := (max_len - Z.of_nat (length suffix))%Z in
      if (head_budget <=? 0)%Z then slice_to (max_len - 11) arcname ++ TILDE :: digest raw_path
      else slice_to head_budget arcname ++ suffix.

(** [_confine_arcname] of the mail export. *)
Definition confine_arcname (raw : ustr) : ustr := sanitize_arcname raw 4096 ARCNAME_RESERVED.
End Names.

(** The name to use, and the names used so far with it. *)
Definition resolve_arcname_collision (arcname external_id : ustr) (used : list ustr) : ustr * list ustr :=
  if decide (arcname ∈ used) then
    let '(head, ext) := splitext arcname in
    let collision_free := head ++ (TILDE :: take 8 external_id) ++ ext in
    (collision_free, collision_free :: used)
  else (arcname, arcname :: used).

(** ** Spreadsheet cells *)

Inductive cell (A : Type) := Str (s : ustr) | Other (a : A).
Global Arguments Str {A} s.
Global Arguments Other {A} a.

Definition TRIGGERS : ustr := u "=+-@" ++ [9; 13; 10]%Z.

Definition fold_newlines (s : ustr) : ustr := replace_char 10 SPACE (replace_char 13 SPACE s).

Definition csv_safe {A} (value : cell A) : cell A :=
  match value with
  | Other a => Other a
  | Str s =>
    let v := fold_newlines s in
    match v with
    | c :: _ => if decide (c ∈ TRIGGERS) then Str (39%Z :: v) else Str v
    | [] => Str v
    end
  end.

(** [SafeCsvWriter]: the rows handed to the wrapped writer. *)
Definition safe_writerow {A} (row : list (cell A)) : list (cell A) := map csv_safe row.
Definition safe_writerows {A} (rows : list (list (cell A))) : list (list (cell A)) := map safe_writerow rows.

(** [SafeDictWriter]: the fields handed to the wrapped writer. *)
Definition safe_dict_row {K A} (row : list (K * cell A)) : list (K * cell A) := map (λ kv, (kv.1, csv_safe kv.2)) row.
Definition safe_dict_rows {K A} (rows : list (list (K * cell A))) : list (list (K * cell A)) := map safe_dict_row rows.

(** ** Lists of segments *)

Lemma split_on_nonempty c s : split_on c s ≠ [].
Proof. destruct s as [|x s]; simpl; [done|]. case_decide; [done|]. by destruct (split_on c s). Qed.

Lemma split_on_no_sep c s : Forall (λ seg, c ∉ seg) (split_on c s).
Proof.
  induction s as [|x s IH]; simpl; [by constructor; [apply not_elem_of_nil|]|].
  case_decide; [constructor; [apply not_elem_of_nil|done]|].
  destruct (split_on c s) as [|h t]; [constructor; [|done]; rewrite list_elem_of_singleton; congruence|].
  inversion_clear IH. constructor; [|done]. rewrite not_elem_of_cons. split; congruence.
Qed.

Lemma split_on_plain c s : c ∉ s → split_on c s = [s].
Proof.
  induction s as [|x s IH]; simpl; [done|]. rewrite not_elem_of_cons. intros [Hx Hs].
  rewrite decide_False by congruence. by rewrite IH.
Qed.

Lemma split_on_app c s t : split_on c (s ++ c :: t) = split_on c s ++ split_on c t.
Proof.
  induction s as [|x s IH]; simpl; [by rewrite decide_True|].
  case_decide; [by rewrite IH|]. rewrite IH. pose proof (split_on_nonempty c s).
  by destruct (split_on c s) as [|h k].
Qed.

Lemma split_on_join c ss : ss ≠ [] → Forall (λ seg, c ∉ seg) ss → split_on c (join_on c ss) = ss.
Proof.
  induction ss as [|s ss IH]; intros Hne Hss; [done|]. inversion_clear Hss as [|? ? Hs Hrest].
  destruct ss as [|s' ss]; [by apply split_on_plain|].
  change (join_on c (s :: s' :: ss)) with (s ++ c :: join_on c (s' :: ss)).
  rewrite split_on_app, split_on_plain by done. by rewrite IH.
Qed.

Lemma rsplit_Some c s a b : rsplit c s = Some (a, b) → s = a ++ c :: b ∧ c ∉ b.
Proof.
  revert a. induction s as [|x s IH]; intros a; simpl; [done|].
  destruct (rsplit c s) as [[a' b']|] eqn:E.
  - intros [= <- <-]. destruct (IH a' eq_refl) as [-> ?]. done.
  - case_decide; [|done]. intros [= <- <-]. split; [by subst|].
    clear IH. revert E. induction s as [|y s IHs]; simpl; [intros _; apply not_elem_of_nil|].
    destruct (rsplit c s) as [[]|]; [done|]. case_decide; [done|]. intros _.
    rewrite not_elem_of_cons. split; [congruence|by apply IHs].
Qed.

Lemma rsplit_None c s : rsplit c s = None → c ∉ s.
Proof.
  induction s as [|y s IHs]; simpl; [intros _; apply not_elem_of_nil|].
  destruct (rsplit c s) as [[]|]; [done|]. case_decide; [done|]. intros _.
  rewrite not_elem_of_cons. split; [congruence|by apply IHs].
Qed.

(** The two parts of [splitext] make up the name; the extension is empty or a dot and
    text without dots and slashes. *)
Lemma splitext_app p : p = (splitext p).1 ++ (splitext p).2.
Proof.
  unfold splitext. destruct (rsplit SLASH p) as [[d b]|] eqn:Es.
  - apply rsplit_Some in Es as [-> _]. destruct (rsplit DOT b) as [[stem e]|] eqn:Ed.
    + apply rsplit_Some in Ed as [-> _]. case_match; simpl; [by rewrite app_nil_r|]. by rewrite <- !app_assoc.
    + simpl. by rewrite app_nil_r.
  - destruct (rsplit DOT p) as [[stem e]|] eqn:Ed; [|simpl; by rewrite app_nil_r].
    apply rsplit_Some in Ed as [-> _]. case_match; simpl; [by rewrite app_nil_r|done].
Qed.

Lemma splitext_ext p : (splitext p).2 = [] ∨ ∃ e, (splitext p).2 = DOT :: e ∧ (DOT ∉ e) ∧ (SLASH ∉ e).
Proof.
  unfold splitext. destruct (rsplit SLASH p) as [[d b]|] eqn:Es.
  - apply rsplit_Some in Es as [-> Hb]. destruct (rsplit DOT b) as [[stem e]|] eqn:Ed; [|by left].
    apply rsplit_Some in Ed as [-> He]. case_match; [by left|]. right. exists e. split; [done|]. split; [done|].
    rewrite not_elem_of_app, not_elem_of_cons in Hb. by destruct Hb as (_ & _ & ?).
  - apply rsplit_None in Es. destruct (rsplit DOT p) as [[stem e]|] eqn:Ed; [|by left].
    apply rsplit_Some in Ed as [-> He]. case_match; [by left|]. right. exists e. split; [done|]. split; [done|].
    rewrite not_elem_of_app, not_elem_of_cons in Es. by destruct Es as (_ & _ & ?).
Qed.

(** ** Safe names *)

(** A segment a file system takes as it is: not empty, not ending in a dot or a space
    (so neither [.] nor [..]), and without reserved characters. *)
Definition safe_segment (replace_chars seg : ustr) : Prop :=
  (∃ c, last seg = Some c ∧ is_trailer c = false) ∧ Forall (λ c, c ∉ replace_chars) seg.

Definition safe_name (replace_chars name : ustr) : Prop := Forall (safe_segment replace_chars) (split_on SLASH name).

Lemma drop_while_end_last p s c : last (drop_while_end p s) = Some c → p c = false.
Proof.
  unfold drop_while_end. rewrite last_reverse. intros H.
  assert (∀ l, head (drop_while p l) = Some c → p c = false) as Hd.
  { induction l as [|x l IH]; simpl; [done|]. destruct (p x) eqn:E; [done|]. by intros [= <-]. }
  by apply (Hd (reverse s)).
Qed.

Lemma drop_while_sub p s c : c ∈ drop_while p s → c ∈ s.
Proof. induction s as [|x s IH]; simpl; [done|]. destruct (p x); [|done]. right. auto. Qed.

Lemma drop_while_end_sub p s c : c ∈ drop_while_end p s → c ∈ s.
Proof. unfold drop_while_end. rewrite elem_of_reverse. intros H%drop_while_sub. by apply elem_of_reverse. Qed.

Lemma last_nonempty (s : ustr) : s ≠ [] → ∃ c, last s = Some c.
Proof. intros H. destruct (last s) eqn:E; [eauto|]. by apply last_None in E. Qed.

Section Safe.
Context (replace_chars : ustr) (Hreplace : UNDERSCORE ∉ replace_chars).

Lemma clean_segment_safe seg s :
  SLASH ∉ seg → clean_segment replace_chars seg = Some s → safe_segment replace_chars s ∧ (SLASH ∉ s).
Proof using Hreplace.
  intros Hs. unfold clean_segment. case_decide; [done|]. cbv zeta. case_decide as Hne; [done|]. intros [= <-].
  set (m := map _ seg) in *.
  assert (Hm : Forall (λ c, (c ∉ replace_chars) ∧ c ≠ SLASH) m).
  { apply Forall_forall. unfold m. intros c (x & -> & Hx)%list_elem_of_fmap. case_decide as Hd; [by split|].
    split; [done|]. congruence. }
  assert (Hm' : replace_char SLASH UNDERSCORE m = m).
  { unfold replace_char. clear Hne. induction Hm as [|c m' [_ Hc] _ IH]; [done|]. simpl. rewrite decide_False by done. by rewrite IH. }
  rewrite Hm' in *. repeat split.
  - destruct (last_nonempty _ Hne) as [c Hc]. exists c. split; [done|]. by apply drop_while_end_last in Hc.
  - apply Forall_forall. intros c Hc%drop_while_end_sub. by eapply Forall_forall in Hm; [apply Hm|].
  - intros Hc%drop_while_end_sub. eapply Forall_forall in Hm; [by apply Hm|done].
Qed.

(** Where a text is split, and where its continuation is. *)
Lemma split_on_extend c s : ∃ ss l, split_on c s = ss ++ [l] ∧
  ∀ r h t, split_on c r = h :: t → split_on c (s ++ r) = ss ++ (l ++ h) :: t.
Proof using.
  clear. induction s as [|x s (ss & l & IH1 & IH2)]; simpl.
  - exists [], []. split; [done|]. by intros.
  - case_decide.
    + exists ([] :: ss), l. rewrite IH1. split; [done|]. intros r h t Hr. by rewrite (IH2 r h t Hr).
    + rewrite IH1. destruct ss as [|s1 ss]; simpl.
      * exists [], (x :: l). split; [done|]. intros r h t Hr. by rewrite (IH2 r h t Hr).
      * exists ((x :: s1) :: ss), l. split; [done|]. intros r h t Hr. by rewrite (IH2 r h t Hr).
Qed.

(** Cutting a safe name and gluing on a tail gives a safe name. *)
Lemma safe_glue a b t :
  safe_name replace_chars (a ++ b) → SLASH ∉ t → safe_segment replace_chars t → safe_name replace_chars (a ++ t).
Proof using.
  unfold safe_name. destruct (split_on_extend SLASH a) as (ss & l & Ha & Hext). intros Hab Ht [(c & Hc & Hc') Hf].
  destruct (split_on SLASH b) as [|h k] eqn:Hb; [by apply split_on_nonempty in Hb|].
  rewrite (Hext b h k Hb) in Hab. apply Forall_app in Hab as [Hss [[_ Hlf] _]%Forall_cons].
  rewrite (Hext t t []) by by apply split_on_plain.
  apply Forall_app. split; [done|]. constructor; [|constructor]. apply Forall_app in Hlf as [Hl _]. split.
  - exists c. split; [|done]. by rewrite last_app, Hc.
  - by apply Forall_app.
Qed.

(** The extension of a safe name ends like the name. *)
Lemma safe_ext p : safe_name replace_chars p → (splitext p).2 = [] ∨ safe_segment replace_chars (splitext p).2.
Proof using.
  intros Hp. destruct (splitext_ext p) as [?|(e & He & _ & Hsl)]; [by left|right].
  rewrite (splitext_app p) in Hp. unfold safe_name in Hp. destruct (split_on_extend SLASH (splitext p).1) as (ss & l & _ & Hext).
  rewrite (Hext (splitext p).2 (splitext p).2 []) in Hp.
  2:{ apply split_on_plain. rewrite He. rewrite not_elem_of_cons. by split. }
  apply Forall_app in Hp as [_ [[(c & Hc & Hc') Hf] _]%Forall_cons]. apply Forall_app in Hf as [_ Hf].
  split; [|done]. exists c. split; [|done]. rewrite last_app in Hc. rewrite He in *.
  destruct (last_nonempty (DOT :: e)) as [x Hx]; [done|]. by rewrite Hx in *.
Qed.
End Safe.

(** What a SHA-1 in hexadecimal is: ten of its digits. *)
Definition hex_digit (c : Z) : Prop := (48 ≤ c ≤ 57)%Z ∨ (97 ≤ c ≤ 102)%Z.

Definition hex_digests (digest : ustr → ustr) : Prop := ∀ s, length (digest s) = 10 ∧ Forall hex_digit (digest s).

(** The characters the code itself writes. *)
Definition own_chars_free (replace_chars : ustr) : Prop :=
  (UNDERSCORE ∉ replace_chars) ∧ (TILDE ∉ replace_chars) ∧ ∀ c, hex_digit c → c ∉ replace_chars.

Lemma slice_to_app k (s : ustr) : ∃ r, s = slice_to k s ++ r.
Proof. unfold slice_to. case_match; eexists; symmetry; apply take_drop. Qed.

Lemma length_slice_to k (s : ustr) : (0 ≤ k)%Z → (Z.of_nat (length (slice_to k s)) ≤ k)%Z.
Proof. unfold slice_to. intros Hk. destruct (k <? 0)%Z eqn:E; [lia|]. rewrite length_take. lia. Qed.

Section Sanitize.
Context (digest : ustr → ustr) (Hdigest : hex_digests digest).
Context (replace_chars : ustr) (Hown : own_chars_free replace_chars).

Lemma joined_safe raw :
  let arcname := join_on SLASH (omap (clean_segment replace_chars) (split_on SLASH (replace_char BACKSLASH SLASH raw))) in
  arcname = [] ∨ safe_name replace_chars arcname.
Proof using Hown.
  cbv zeta. set (path := replace_char _ _ _). pose proof (split_on_no_sep SLASH path) as Hno.
  assert (Hsegs : Forall (λ s, safe_segment replace_chars s ∧ (SLASH ∉ s)) (omap (clean_segment replace_chars) (split_on SLASH path))).
  { apply Forall_forall. intros s (seg & Hin & Hc)%list_elem_of_omap. destruct Hown as [Hu _].
    eapply clean_segment_safe; [exact Hu| |done]. by eapply Forall_forall in Hno. }
  destruct (omap _ _) as [|s ss] eqn:E; [by left|right]. unfold safe_name. rewrite split_on_join; [|done|].
  - eapply Forall_impl; [exact Hsegs|]. by intros ? [? ?].
  - eapply Forall_impl; [exact Hsegs|]. by intros ? [? ?].
Qed.

(** A tilde, the digest and an extension. *)
Lemma tail_safe raw ext : ext = [] ∨ safe_segment replace_chars ext → safe_segment replace_chars (TILDE :: digest raw ++ ext).
Proof using Hdigest Hown.
  intros Hext. destruct (Hdigest raw) as [Hlen Hhex]. destruct Hown as (_ & Ht & Hh).
  assert (Hd : Forall (λ c, c ∉ replace_chars) (TILDE :: digest raw)).
  { constructor; [done|]. eapply Forall_impl; [exact Hhex|]. done. }
  destruct Hext as [->|[(c & Hc & Hc') Hf]].
  - rewrite app_nil_r. split; [|done]. destruct (last_nonempty (digest raw)) as [c Hc]; [by destruct (digest raw)|].
    exists c. rewrite last_cons, Hc. split; [done|]. apply last_Some in Hc as [l Hl]. rewrite Hl in Hhex.
    apply Forall_app in Hhex as [_ [[H|H] _]%Forall_cons]; unfold is_trailer, DOT, SPACE;
      rewrite !bool_decide_eq_false_2 by lia; done.
  - split; [|by apply (Forall_app_2 _ (TILDE :: digest raw))]. exists c. split; [|done].
    change (TILDE :: digest raw ++ ext) with ((TILDE :: digest raw) ++ ext). by rewrite last_app, Hc.
Qed.

Lemma tail_plain raw ext : SLASH ∉ ext → SLASH ∉ TILDE :: digest raw ++ ext.
Proof using Hdigest.
  intros He. rewrite not_elem_of_cons, not_elem_of_app. split; [done|]. split; [|done].
  intros Hin. destruct (Hdigest raw) as [_ Hhex]. eapply Forall_forall in Hhex; [|exact Hin].
  unfold hex_digit, SLASH in Hhex. lia.
Qed.
End Sanitize.

Lemma sanitized_safe digest replace_chars raw max_len :
  hex_digests digest → own_chars_free replace_chars →
  sanitize_arcname digest raw max_len replace_chars = [] ∨
  safe_name replace_chars (sanitize_arcname digest raw max_len replace_chars).
Proof.
  intros Hd Ho. unfold sanitize_arcname. case_decide as Hr; [by left|]. cbv zeta.
  pose proof (tail_plain digest Hd raw [] ltac:(apply not_elem_of_nil)) as Hp.
  pose proof (tail_safe digest Hd replace_chars Ho raw [] ltac:(by left)) as Ht. rewrite app_nil_r in Hp, Ht.
  set (arcname := join_on SLASH _). assert (Hname : arcname = [] ∨ safe_name replace_chars arcname) by by apply joined_safe.
  clearbody arcname. destruct (_ <=? max_len)%Z; [done|]. right. destruct Hname as [->|H].
  - assert (Hz : ∀ k, slice_to k [] = []) by (intros k; unfold slice_to; simpl; rewrite !take_nil; by case_match).
    simpl splitext. rewrite !Hz, app_nil_r. simpl app.
    assert (safe_name replace_chars (TILDE :: digest raw)) by (unfold safe_name; rewrite split_on_plain by done; by constructor).
    by case_match.
  - case_match.
    + destruct (slice_to_app (max_len - 11) arcname) as [r Hr'].
      apply (safe_glue replace_chars _ r); [by rewrite <- Hr'|done..].
    + set (suffix := TILDE :: digest raw ++ (splitext arcname).2).
      destruct (slice_to_app (max_len - Z.of_nat (length suffix)) arcname) as [r Hr'].
      apply (safe_glue replace_chars _ r); [by rewrite <- Hr'| |].
      * apply tail_plain; [done|]. destruct (splitext_ext arcname) as [->|(e & -> & _ & He)]; [apply not_elem_of_nil|].
        rewrite not_elem_of_cons. by split.
      * apply tail_safe; [done..|]. by apply safe_ext.
Qed.

Lemma sanitized_length digest replace_chars raw max_len :
  hex_digests digest → (11 ≤ max_len)%Z →
  (Z.of_nat (length (sanitize_arcname digest raw max_len replace_chars)) ≤ max_len)%Z.
Proof.
  intros Hd Hm. unfold sanitize_arcname. case_decide; [simpl; lia|]. cbv zeta. set (arcname := join_on SLASH _).
  destruct (_ <=? max_len)%Z eqn:Hle; [lia|]. destruct (Hd raw) as [Hl _].
  set (suffix := TILDE :: digest raw ++ (splitext arcname).2).
  destruct (max_len - Z.of_nat (length suffix) <=? 0)%Z eqn:Hb; rewrite length_app.
  - simpl. rewrite Hl. pose proof (length_slice_to (max_len - 11) arcname). lia.
  - pose proof (length_slice_to (max_len - Z.of_nat (length suffix)) arcname). lia.
Qed.

(** An archive name never leads out of the directory it is extracted to and never needs
    renaming on Windows: it is empty, or every segment between slashes is non-empty, does
    not end in a dot or a space (so it is neither [.] nor [..], and the path is not
    absolute) and holds no reserved character, whatever the path of the item was and also
    when the name was cut; and it is no longer than [max_len], for every [max_len] that
    has room for the digest. *)
Theorem sanitized_name_is_safe digest replace_chars raw max_len :
  hex_digests digest → own_chars_free replace_chars →
  let name := sanitize_arcname digest raw max_len replace_chars in
  (name = [] ∨ safe_name replace_chars name) ∧
  ((11 ≤ max_len)%Z → (Z.of_nat (length name) ≤ max_len)%Z).
Proof. intros Hd Ho name. split; [by apply sanitized_safe|by apply sanitized_length]. Qed.

(** A segment the code keeps as it is. *)
Definition plain_segment (replace_chars seg : ustr) : Prop :=
  safe_segment replace_chars seg ∧ (strip seg ∉ [[]; [DOT]; [DOT; DOT]]) ∧ (BACKSLASH ∉ seg).

Lemma join_split c s : join_on c (split_on c s) = s.
Proof.
  induction s as [|x s IH]; [done|]. simpl. case_decide as Hx.
  - subst. pose proof (split_on_nonempty c s). destruct (split_on c s); [done|]. simpl in *. by rewrite IH.
  - pose proof (split_on_nonempty c s). destruct (split_on c s) as [|h [|t k]]; [done|simpl in *; by rewrite IH..].
Qed.

Lemma replace_char_id a b s : a ∉ s → replace_char a b s = s.
Proof.
  induction s as [|x s IH]; [done|]. rewrite not_elem_of_cons. intros [H1 H2]. simpl. rewrite decide_False by congruence.
  by rewrite IH.
Qed.

Lemma drop_while_end_id p s c : last s = Some c → p c = false → drop_while_end p s = s.
Proof.
  intros [l ->]%last_Some Hp. unfold drop_while_end. rewrite reverse_app. simpl. rewrite Hp.
  change (c :: reverse l) with ([c] ++ reverse l). by rewrite <- (reverse_singleton c), <- reverse_app, reverse_involutive.
Qed.

(** A path of ordinary segments that is short enough is its own name. *)
Lemma plain_path_is_kept digest replace_chars raw max_len :
  Forall (plain_segment replace_chars) (split_on SLASH raw) → (Z.of_nat (length raw) ≤ max_len)%Z →
  sanitize_arcname digest raw max_len replace_chars = raw.
Proof.
  intros Hp Hlen. unfold sanitize_arcname. case_decide; [done|].
  assert (Hb : replace_char BACKSLASH SLASH raw = raw).
  { apply replace_char_id. intros Hin. rewrite <- (join_split SLASH raw) in Hin.
    induction Hp as [|s ss [_ [_ Hs]] Hss IH]; simpl in Hin; [by apply not_elem_of_nil in Hin|].
    destruct ss as [|s' ss]; [done|]. apply elem_of_app in Hin as [?|Hin]; [done|].
    apply elem_of_cons in Hin as [?|?]; [done|]. by apply IH. }
  rewrite Hb.
  assert (Ho : omap (clean_segment replace_chars) (split_on SLASH raw) = split_on SLASH raw).
  { pose proof (split_on_no_sep SLASH raw) as Hno.
    induction Hp as [|s ss [[(c & Hc & Hc') Hf] [Hs _]] Hss IH]; [done|]. apply Forall_cons in Hno as [Hn Hno].
    change (match clean_segment replace_chars s with Some y => y :: omap (clean_segment replace_chars) ss
      | None => omap (clean_segment replace_chars) ss end = s :: ss).
    rewrite IH by done. unfold clean_segment. rewrite decide_False by done. cbv zeta.
    assert (Hm : map (λ c, if decide (c ∈ replace_chars) then UNDERSCORE else c) s = s).
    { clear -Hf. induction Hf as [|x s Hx _ IH]; [done|]. simpl. by rewrite decide_False, IH. }
    rewrite Hm, replace_char_id by done. unfold rstrip_dots. rewrite (drop_while_end_id _ _ c) by done.
    destruct s; [done|]. by rewrite decide_False. }
  cbv zeta. rewrite Ho, join_split. by rewrite (proj2 (Z.leb_le _ _)).
Qed.

(** Two names that were cut, with room for their extension, differ when their digests do
    and their extensions are equally long. *)
Lemma long_names_do_not_alias head1 head2 d1 d2 ext1 ext2 :
  length d1 = length d2 → length ext1 = length ext2 →
  head1 ++ TILDE :: d1 ++ ext1 = head2 ++ TILDE :: d2 ++ ext2 → d1 = d2 ∧ ext1 = ext2.
Proof.
  intros Hd He H. assert (Hl : length (TILDE :: d1 ++ ext1) = length (TILDE :: d2 ++ ext2)) by (simpl; rewrite !length_app; lia).
  apply app_inj_2 in H as [_ [= H]]; [|done]. by apply app_inj_1 in H.
Qed.

(** ** Collisions *)

(** The name is used afterwards; it is new unless the name and its variant were used. *)
Lemma resolved_name arcname external_id used name used' :
  resolve_arcname_collision arcname external_id used = (name, used') →
  used' = name :: used ∧ (name = arcname ∧ arcname ∉ used ∨
    arcname ∈ used ∧ name = (splitext arcname).1 ++ (TILDE :: take 8 external_id) ++ (splitext arcname).2).
Proof.
  unfold resolve_arcname_collision. case_decide as Hu.
  - destruct (splitext arcname) as [h e]. intros [= <- <-]. split; [done|]. by right.
  - intros [= <- <-]. split; [done|]. by left.
Qed.

(** ** Spreadsheet cells *)

(** A cell written to an exported table is never read as a formula: its text starts with
    none of the trigger characters, holds no line break, and is the original with its line
    breaks replaced by spaces, with one quote in front exactly when the replaced text starts
    with a trigger; a value that is not text is left alone, and neutralising twice changes
    nothing more. *)
Theorem csv_cell_is_literal {A} (value : cell A) :
  match value with
  | Other a => csv_safe value = Other a
  | Str s => ∃ t, csv_safe value = Str t ∧
      (∀ c, head t = Some c → c ∉ TRIGGERS) ∧ (10%Z ∉ t) ∧ (13%Z ∉ t) ∧
      (t = fold_newlines s ∨ t = 39%Z :: fold_newlines s ∧ ∃ c, head (fold_newlines s) = Some c ∧ c ∈ TRIGGERS) ∧
      csv_safe (Str t : cell A) = Str t
  end.
Proof.
  destruct value as [s|a]; [|done].
  assert (Hnl : (10%Z ∉ fold_newlines s) ∧ (13%Z ∉ fold_newlines s)).
  { unfold fold_newlines, replace_char, SPACE.
    split; intros (x & Hx & Hin)%list_elem_of_fmap; revert Hx; (case_decide as H1; [done|]); intros <-.
    - done.
    - apply list_elem_of_fmap in Hin as (y & Hy & _). revert Hy. by case_decide. }
  destruct Hnl as [H10 H13].
  assert (Hfix : ∀ t, (10%Z ∉ t) → (13%Z ∉ t) → fold_newlines t = t).
  { intros t Ha Hb. unfold fold_newlines. by rewrite !replace_char_id; rewrite ?replace_char_id. }
  assert (Hq : 39%Z ∉ TRIGGERS) by (apply (bool_decide_unpack _); by vm_compute).
  unfold csv_safe. destruct (fold_newlines s) as [|c v] eqn:Ev.
  - exists []. split; [done|]. split; [done|]. split; [apply not_elem_of_nil|]. split; [apply not_elem_of_nil|].
    split; [by left|done].
  - case_decide as Hc.
    + exists (39%Z :: c :: v). split; [done|]. split; [by intros ? [= <-]|].
      split; [by rewrite not_elem_of_cons|]. split; [by rewrite not_elem_of_cons|]. split; [right; split; [done|by exists c]|].
      rewrite Hfix by by rewrite not_elem_of_cons. by rewrite decide_False by exact Hq.
    + exists (c :: v). split; [done|]. split; [by intros ? [= <-]|]. split; [done|]. split; [done|]. split; [by left|].
      rewrite Hfix by done. by rewrite decide_False.
Qed.

(** ** Witnesses *)

Module NameExamples.

Definition digest (s : ustr) : ustr := u "0123456789".

Lemma digest_hex : hex_digests digest.
Proof. intros s. split; [done|]. repeat constructor; vm_compute; intuition congruence. Qed.

Lemma reserved_own : own_chars_free ARCNAME_RESERVED.
Proof.
  do 2 (split; [apply (bool_decide_unpack _); by vm_compute|]). intros c Hc Hin. vm_compute in Hin.
  repeat (apply elem_of_cons in Hin as [->|Hin]; [unfold hex_digit in Hc; lia|]). by apply not_elem_of_nil in Hin.
Qed.

Example traversal_is_confined :
  confine_arcname digest (u "../../etc/./pass:wd. ") = u "etc/pass_wd".
Proof. by vm_compute. Qed.

Example long_name_is_cut :
  sanitize_arcname digest (u "folder/a very long name.docx") 24 ARCNAME_RESERVED = u "folder/a~0123456789.docx".
Proof. by vm_compute. Qed.

Lemma sanitized_name_is_safe_witness :
  let name := sanitize_arcname digest (u "folder/../a very long name.docx") 24 ARCNAME_RESERVED in
  (name = [] ∨ safe_name ARCNAME_RESERVED name) ∧ ((11 ≤ 24)%Z → (Z.of_nat (length name) ≤ 24)%Z).
Proof. apply (sanitized_name_is_safe digest ARCNAME_RESERVED); [apply digest_hex|apply reserved_own]. Defined.

(** A trigger behind a space is let through; a carriage return in front never reaches the
    test as such. *)
Example spaced_trigger_passes : csv_safe (Str (u " =1+1") : cell unit) = Str (u " =1+1").
Proof. by vm_compute. Qed.

Example newline_trigger_passes : csv_safe (Str (13%Z :: u "=1+1") : cell unit) = Str (u " =1+1").
Proof. by vm_compute. Qed.

(** Three items with one name and one id prefix get two names. *)
Example collision_is_not_resolved_twice :
  let id1 := u "01ABCDEFXXXX" in let id2 := u "01ABCDEFYYYY" in
  let '(a, used) := resolve_arcname_collision (u "d/r.txt") (u "0") [] in
  let '(b, used) := resolve_arcname_collision (u "d/r.txt") id1 used in
  let '(c, used) := resolve_arcname_collision (u "d/r.txt") id2 used in
  a ≠ b ∧ b = c ∧ c = u "d/r~01ABCDEF.txt".
Proof. by vm_compute. Qed.

End NameExamples.
