(* ===== verification/Mbox.v ===== *)
(** * Mailbox files

    [src/shared/mbox_writer.py] and the mailbox path of
    [src/workers/restore-worker/mail_export.py]: messages are written one after the other,
    each behind a separator line, with the lines that would read as separators quoted; a
    folder becomes one or several parts, each collected in memory and moved to a staged
    blob when it outgrows the in-memory limit. A reader of the format is defined here to
    state that it gets the messages back. Fetching a message and building its MIME text
    are a parameter; a failing block call aborts the task and is not modelled. *)

From Stdlib Require Import Strings.Ascii.
From stdpp Require Import pretty.
From S2P Require Import Prelude Calendar ArchiveNames.
Local Open Scope nat_scope.

(** ** [src/shared/mbox_writer.py] *)

Definition LF : Byte.byte := Byte.x0a.
Definition CR : Byte.byte := Byte.x0d.
Definition GT : Byte.byte := Byte.x3e.
Definition CRLF : bytes := [CR; LF].

Fixpoint ascii_bytes (s : string) : bytes :=
  match s with
  | String c s => byte_of_ascii c :: ascii_bytes s
  | EmptyString => []
  end.

Fixpoint starts_with (p s : bytes) : bool :=
  match p, s with
  | [], _ => true
  | a :: p, b :: s => bool_decide (a = b) && starts_with p s
  | _ :: _, [] => false
  end.

Definition FROM : bytes := ascii_bytes "From ".

(** The pattern [>*From ] at the start of a line. *)
Fixpoint from_line (s : bytes) : bool :=
  match s with
  | c :: s' => if decide (c = GT) then from_line s' else starts_with FROM s
  | [] => false
  end.

(** [_escape_from_lines]; [bol] says that the text starts a line. *)
Fixpoint escape_at (bol : bool) (s : bytes) : bytes :=
  match s with
  | [] => []
  | c :: s' => (if bol && from_line s then [GT] else []) ++ c :: escape_at (bool_decide (c = LF)) s'
  end.
Definition escape_from_lines (body : bytes) : bytes := escape_at true body.

Definition pad2 (n : Z) : ustr := if (n <? 10)%Z then u "0" ++ u (pretty n) else u (pretty n).

(** [strftime("%a %b %d %H:%M:%S %Y")] of a time in UTC, in seconds since 1970. *)
Definition asctime (epoch : Z) : ustr :=
  let ord := (epoch / 86400 + 719163)%Z in
  let sod := (epoch mod 86400)%Z in
  let '(y, m, d) := ord2ymd ord in
  nth (Z.to_nat ((ord + 6) mod 7)) (map u ["Mon"; "Tue"; "Wed"; "Thu"; "Fri"; "Sat"; "Sun"]) [] ++ u " " ++
  nth (Z.to_nat (m - 1)) (map u ["Jan"; "Feb"; "Mar"; "Apr"; "May"; "Jun"; "Jul"; "Aug"; "Sep"; "Oct"; "Nov"; "Dec"]) [] ++ u " " ++
  pad2 d ++ u " " ++ pad2 (sod / 3600) ++ u ":" ++ pad2 (sod mod 3600 / 60) ++ u ":" ++ pad2 (sod mod 60) ++ u " " ++ u (pretty y).

(** [encode("ascii", errors="replace")]. *)
Definition encode_ascii (s : ustr) : bytes :=
  map (λ c, if decide (0 ≤ c < 128)%Z then byte_of_Z c else byte_of_Z 63) s.

Definition format_from_separator (sender_addr : ustr) (sent_at_epoch : Z) : bytes :=
  encode_ascii (u "From " ++ sender_addr ++ u " " ++ asctime sent_at_epoch ++ [10%Z]).

(** What a message adds to the file: the text after the separator. *)
Definition message_text (eml : bytes) : bytes :=
  let escaped := escape_from_lines eml in
  if decide (take 2 (reverse escaped) = [LF; CR]) then escaped else escaped ++ CRLF.

(** [MboxWriter]: the counters; [append_message] returns the bytes it emits and the new
    part index it reports, if any. *)
Record writer := Writer { w_current_bytes : nat; w_part_index : nat }.

Definition append_message (split_bytes : nat) (w : writer) (eml : bytes) (sender : ustr) (epoch : Z)
    : writer * bytes * option nat :=
  let out := format_from_separator sender epoch ++ message_text eml in
  let current := w_current_bytes w + length out in
  if decide (split_bytes ≤ current) then (Writer 0 (w_part_index w + 1), out, Some (w_part_index w + 1))
  else (Writer current (w_part_index w), out, None).

Definition close_bytes : bytes := CRLF.

(** ** [FolderExportTask._run_mbox] *)

Section Task.
Context (split_bytes block_size mbox_inline_limit_bytes : nat).
Context (folder_name dest_blob_prefix : ustr).

(** A message as fetched: the sender's address when the message names one, and its date. *)
Record message := Message { msg_from : option ustr; msg_date : option ustr; msg_eml : bytes }.

(** An item of the folder: the message built for it or the error text. *)
Record mail_item := MailItem { mi_id : ustr; mi_built : ustr + message }.

(** A finished part, in memory or as the blocks of a committed blob. *)
Inductive part := Inline (name : ustr) (data : bytes) | Blob (path : ustr) (blocks : list bytes).

Definition part_data (p : part) : bytes := match p with Inline _ data => data | Blob _ blocks => concat blocks end.

(** The local variables of the task; the parts are in the order they were finished. The
    exported and failed items are those of the result, which the manifest repeats. *)
Record task := Task {
  t_part_index : nat;
  t_current_path : ustr;
  t_buf : bytes;
  t_blob : bool;
  t_blocks : list bytes;
  t_total_bytes : nat;
  t_writer : writer;
  t_parts : list part;
  t_exported : list ustr;
  t_failed : list (ustr * ustr);
}.

Definition produced_inline_members (t : task) : list (ustr * bytes) :=
  omap (λ p, match p with Inline n d => Some (n, d) | _ => None end) (t_parts t).
Definition produced_blobs (t : task) : list ustr :=
  omap (λ p, match p with Blob n _ => Some n | _ => None end) (t_parts t).

Definition part_suffix (n : nat) : ustr := u "." ++ pad2 (Z.of_nat n) ++ u ".mbox".

Definition task_init : task :=
  Task 1 (dest_blob_prefix ++ u ".01.mbox") [] false [] 0 (Writer 0 0) [] [] [].

(** The loops that stage blocks: whole blocks only, or everything. *)
Fixpoint stage_blocks (final : bool) (fuel : nat) (buf : bytes) (blocks : list bytes) : bytes * list bytes :=
  match fuel with
  | 0 => (buf, blocks)
  | S fuel =>
    if decide (block_size ≤ length buf ∨ (final = true ∧ buf ≠ [])) then
      stage_blocks final fuel (drop block_size buf) (blocks ++ [take block_size buf])
    else (buf, blocks)
  end.

Definition with_blocks (t : task) (blob : bool) (bb : bytes * list bytes) : task :=
  Task (t_part_index t) (t_current_path t) bb.1 blob bb.2 (t_total_bytes t) (t_writer t) (t_parts t) (t_exported t) (t_failed t).

Definition spillover_to_blob (t : task) : task :=
  with_blocks t true (stage_blocks true (length (t_buf t)) (t_buf t) (t_blocks t)).

Definition flush_block (final : bool) (t : task) : task :=
  if t_blob t then with_blocks t true (stage_blocks final (length (t_buf t)) (t_buf t) (t_blocks t)) else t.

Definition finalize_current (t : task) : task :=
  let reset t parts :=
    Task (t_part_index t) (t_current_path t) [] false [] 0 (t_writer t) parts (t_exported t) (t_failed t) in
  if t_blob t then
    let t := flush_block true t in
    if decide (t_blocks t = []) then reset t (t_parts t)
    else reset t (t_parts t ++ [Blob (t_current_path t) (t_blocks t)])
  else if decide (t_buf t = []) then reset t (t_parts t)
  else
    let arc := folder_name ++ (if decide (1 < t_part_index t) then part_suffix (t_part_index t) else u ".mbox") in
    reset t (t_parts t ++ [Inline arc (t_buf t)]).

Definition sender_of (m : message) : ustr := default (u "unknown@unknown") (msg_from m).

(** The date of the separator; [parsedate] is the standard library's parser of mail dates. *)
Definition epoch_of (parsedate : ustr → option Z) (now : Z) (m : message) : Z :=
  match msg_date m with
  | Some s => if decide (s = []) then now else default now (parsedate s)
  | None => now
  end.

Context (parsedate : ustr → option Z) (now : Z).

(** [emit] and the roll-over callback, for one message. *)
Definition write_message (t : task) (it : mail_item) (m : message) : task :=
  let '(w, out, rolled) := append_message split_bytes (t_writer t) (msg_eml m) (sender_of m) (epoch_of parsedate now m) in
  Task (match rolled with Some i => i + 1 | None => t_part_index t end) (t_current_path t) (t_buf t ++ out) (t_blob t) (t_blocks t)
    (t_total_bytes t + length out) w (t_parts t) (t_exported t ++ [mi_id it]) (t_failed t).

(** What follows it in the loop body. *)
Definition roll_over (prior_part : nat) (t : task) : task :=
  if decide (t_part_index t = prior_part) then t
  else
    let t := finalize_current t in
    Task (t_part_index t) (dest_blob_prefix ++ part_suffix (t_part_index t)) (t_buf t) (t_blob t) (t_blocks t) (t_total_bytes t)
      (t_writer t) (t_parts t) (t_exported t) (t_failed t).

Definition tier (t : task) : task :=
  let t := if negb (t_blob t) && bool_decide (mbox_inline_limit_bytes < t_total_bytes t) then spillover_to_blob t else t in
  if t_blob t && bool_decide (block_size ≤ length (t_buf t)) then flush_block false t else t.

Definition mbox_item (t : task) (it : mail_item) : task :=
  match mi_built it with
  | inl err =>
    Task (t_part_index t) (t_current_path t) (t_buf t) (t_blob t) (t_blocks t) (t_total_bytes t) (t_writer t) (t_parts t)
      (t_exported t) (t_failed t ++ [(mi_id it, err)])
  | inr m => tier (roll_over (t_part_index t) (write_message t it m))
  end.

(** The last two statements: the terminator and the last part. *)
Definition close_task (t : task) : task :=
  finalize_current (Task (t_part_index t) (t_current_path t) (t_buf t ++ close_bytes) (t_blob t) (t_blocks t)
    (t_total_bytes t + length close_bytes) (t_writer t) (t_parts t) (t_exported t) (t_failed t)).

(** The items, fetched in batches, are written in their order. *)
Definition run_mbox (items : list mail_item) : task := close_task (foldl mbox_item task_init items).
End Task.
Global Arguments t_parts : simpl never.

(** ** A reader of the format *)

(** One quote is removed from the lines that were quoted. *)
Fixpoint unescape_at (bol : bool) (s : bytes) : bytes :=
  match s with
  | [] => []
  | c :: s' =>
    if bol && bool_decide (c = GT) && from_line s' then unescape_at false s'
    else c :: unescape_at (bool_decide (c = LF)) s'
  end.
Definition unescape (body : bytes) : bytes := unescape_at true body.

(** The rest of the current text and the texts of the messages after it; [sep] says that
    the place is inside a separator line. *)
Fixpoint read_at (sep bol : bool) (s : bytes) : bytes * list bytes :=
  match s with
  | [] => ([], [])
  | c :: s' =>
    if sep then read_at (negb (bool_decide (c = LF))) true s'
    else if bol && starts_with FROM s then let '(b, bs) := read_at true false s' in ([], b :: bs)
    else let '(b, bs) := read_at false (bool_decide (c = LF)) s' in (c :: b, bs)
  end.

(** The messages of a mailbox file. *)
Definition read_mailbox (s : bytes) : list bytes := map unescape (read_at false true s).2.

(** ** Quoting *)

Lemma starts_with_escape p s : LF ∉ p → starts_with p (escape_at false s) = starts_with p s.
Proof.
  revert s. induction p as [|a p IH]; intros s Hp; [done|]. destruct s as [|c s]; [done|]. simpl.
  apply not_elem_of_cons in Hp as [Ha Hp]. destruct (decide (a = c)) as [<-|Hac].
  - rewrite (bool_decide_eq_false_2 (a = LF)) by congruence. by rewrite IH.
  - by rewrite bool_decide_eq_false_2.
Qed.

Lemma FROM_plain : (LF ∉ FROM) ∧ (CR ∉ FROM) ∧ (GT ∉ FROM).
Proof. repeat split; apply (bool_decide_unpack _); by vm_compute. Qed.

Lemma from_line_escape s : from_line (escape_at false s) = from_line s.
Proof.
  induction s as [|c s IH]; [done|]. change (escape_at false (c :: s)) with (c :: escape_at (bool_decide (c = LF)) s).
  cbn [from_line]. case_decide as Hc.
  - subst. by rewrite bool_decide_eq_false_2 by done.
  - apply (starts_with_escape FROM (c :: s)). by apply FROM_plain.
Qed.

Lemma unescape_escape_at bol s : unescape_at bol (escape_at bol s) = s.
Proof.
  revert bol. induction s as [|c s IH]; intros bol; [done|]. cbn [escape_at].
  destruct (bol && from_line (c :: s)) eqn:E.
  - apply andb_true_iff in E as [-> E]. simpl app. cbn [unescape_at].
    change (c :: escape_at (bool_decide (c = LF)) s) with (escape_at false (c :: s)).
    rewrite from_line_escape, E. simpl. by rewrite IH.
  - simpl app. cbn [unescape_at]. destruct (bol && bool_decide (c = GT) && from_line _) eqn:E2; [|by rewrite IH].
    exfalso. apply andb_true_iff in E2 as [[-> ->%bool_decide_eq_true]%andb_true_iff Hf].
    cbn [from_line andb] in E. rewrite decide_True in E by done.
    rewrite bool_decide_eq_false_2, from_line_escape in Hf by done. by rewrite Hf in E.
Qed.

(** A quoted text has no line that reads as a separator. *)
Fixpoint no_separator (bol : bool) (s : bytes) : bool :=
  match s with
  | [] => true
  | c :: s' => negb (bol && starts_with FROM s) && no_separator (bool_decide (c = LF)) s'
  end.

Lemma starts_with_from_line s : starts_with FROM s = true → from_line s = true.
Proof. destruct s as [|c s]; [done|]. simpl. case_decide; [by subst|done]. Qed.

Lemma escape_no_separator bol s : no_separator bol (escape_at bol s) = true.
Proof.
  revert bol. induction s as [|c s IH]; intros bol; [done|]. cbn [escape_at].
  destruct (bol && from_line (c :: s)) eqn:E.
  - apply andb_true_iff in E as [-> E]. simpl app. cbn [no_separator]. by rewrite IH.
  - simpl app. cbn [no_separator]. rewrite IH, andb_true_r. destruct (bol && starts_with FROM _) eqn:E2; [|done].
    exfalso. apply andb_true_iff in E2 as [-> Hf].
    change (c :: escape_at (bool_decide (c = LF)) s) with (escape_at false (c :: s)) in Hf.
    apply starts_with_from_line in Hf. rewrite from_line_escape in Hf. by rewrite Hf in E.
Qed.

(** Line ends. *)
Definition crlfs (k : nat) : bytes := concat (replicate k CRLF).

Lemma starts_with_app p s q : (∀ c, head q = Some c → c ∉ p) → starts_with p (s ++ q) = starts_with p s.
Proof.
  revert s. induction p as [|a p IH]; intros s Hq; [done|]. destruct s as [|c s]; simpl.
  - destruct q as [|d q]; [done|]. specialize (Hq d eq_refl). apply not_elem_of_cons in Hq as [? _].
    by rewrite bool_decide_eq_false_2.
  - destruct (bool_decide (a = c)); [|done]. simpl. apply IH. intros d Hd. specialize (Hq d Hd).
    by apply not_elem_of_cons in Hq as [_ ?].
Qed.

Lemma crlfs_head k c : head (crlfs k) = Some c → c = CR.
Proof. destruct k; simpl; congruence. Qed.

Lemma from_line_crlfs s k : from_line (s ++ crlfs k) = from_line s.
Proof.
  assert (Hh : ∀ c, head (crlfs k) = Some c → c ∉ FROM) by (intros c ->%crlfs_head; apply FROM_plain).
  induction s as [|c s IH].
  - simpl. destruct k; [done|]. by vm_compute.
  - cbn [app from_line]. case_decide; [done|]. apply (starts_with_app FROM (c :: s)). done.
Qed.

Lemma escape_crlfs bol k : escape_at bol (crlfs k) = crlfs k.
Proof.
  revert bol. induction k as [|k IH]; intros bol; [done|].
  change (crlfs (S k)) with (CR :: LF :: crlfs k). cbn [escape_at].
  assert (from_line (CR :: LF :: crlfs k) = false) as -> by by vm_compute.
  rewrite andb_false_r. change (bool_decide (CR = LF)) with false. simpl app. by rewrite IH.
Qed.

Lemma escape_app_crlfs bol s k : escape_at bol (s ++ crlfs k) = escape_at bol s ++ crlfs k.
Proof.
  revert bol. induction s as [|c s IH]; intros bol; [apply escape_crlfs|]. cbn [app escape_at].
  change (c :: s ++ crlfs k) with ((c :: s) ++ crlfs k). rewrite from_line_crlfs, IH. by destruct (bol && from_line (c :: s)).
Qed.

Lemma crlfs_add a b : crlfs a ++ crlfs b = crlfs (a + b).
Proof. unfold crlfs. by rewrite replicate_add, concat_app. Qed.

(** The text of a message: quoted, ended by a line end, and without separator lines. *)
Lemma message_text_spec eml :
  ∃ k, k ≤ 1 ∧ message_text eml = escape_from_lines (eml ++ crlfs k) ∧ ∃ t, message_text eml = t ++ [LF].
Proof.
  unfold message_text. cbv zeta. case_decide as He.
  - exists 0. split; [lia|]. split; [unfold crlfs; simpl; by rewrite app_nil_r|].
    destruct (reverse (escape_from_lines eml)) as [|a [|b l]] eqn:E; [done|done|]. simpl in He. injection He as -> ->.
    exists (reverse (CR :: l)). rewrite <- reverse_cons, <- E. by rewrite reverse_involutive.
  - exists 1. split; [lia|]. split; [unfold escape_from_lines; by rewrite escape_app_crlfs|].
    exists (escape_from_lines eml ++ [CR]). by rewrite <- app_assoc.
Qed.

(** ** Reading back *)

Lemma starts_with_has_lf p s r : LF ∉ p → starts_with p ((s ++ [LF]) ++ r) = starts_with p (s ++ [LF]).
Proof.
  revert s. induction p as [|a p IH]; intros s Hp; [by destruct s|]. apply not_elem_of_cons in Hp as [Ha Hp].
  destruct s as [|c s]; simpl.
  - by rewrite bool_decide_eq_false_2 by congruence.
  - by rewrite IH.
Qed.

Lemma read_text t r bol :
  no_separator bol (t ++ [LF]) = true →
  read_at false bol ((t ++ [LF]) ++ r) = ((t ++ [LF]) ++ (read_at false true r).1, (read_at false true r).2).
Proof.
  assert (HF : LF ∉ FROM) by apply FROM_plain.
  revert bol. induction t as [|c t IH]; intros bol Hn; cbn [app no_separator] in Hn; apply andb_true_iff in Hn as [Hn Hr];
    apply negb_true_iff in Hn.
  - cbn [app read_at]. change (LF :: r) with (([] ++ [LF]) ++ r). rewrite starts_with_has_lf by done. simpl app. rewrite Hn.
    rewrite bool_decide_eq_true_2 by done. by destruct (read_at false true r).
  - cbn [app read_at]. change (c :: (t ++ [LF]) ++ r) with (((c :: t) ++ [LF]) ++ r).
    rewrite starts_with_has_lf by done. simpl app. rewrite Hn, IH by done. done.
Qed.

Lemma read_separator x r b : LF ∉ x → read_at true b (x ++ LF :: r) = read_at false true r.
Proof.
  revert b. induction x as [|c x IH]; intros b Hx; simpl; [done|].
  apply not_elem_of_cons in Hx as [Hc Hx]. rewrite bool_decide_eq_false_2 by congruence. by apply IH.
Qed.

(** A separator line. *)
Definition separator (s : bytes) : Prop := ∃ x, s = FROM ++ x ++ [LF] ∧ LF ∉ x.

Lemma starts_with_self p s : starts_with p (p ++ s) = true.
Proof. induction p as [|a p IH]; [done|]. simpl. by rewrite bool_decide_eq_true_2, IH. Qed.

Lemma read_after_separator s r :
  separator s → read_at false true (s ++ r) = ([], (read_at false true r).1 :: (read_at false true r).2).
Proof.
  intros (x & -> & Hx). rewrite <- !app_assoc. simpl ([LF] ++ r).
  assert (Hc : ∃ c f, FROM = c :: f ∧ LF ∉ c :: f) by (eexists _, _; split; [by vm_compute|apply FROM_plain]).
  destruct Hc as (c & f & HF & Hn). rewrite HF. cbn [app read_at].
  change (c :: f ++ x ++ LF :: r) with ((c :: f) ++ x ++ LF :: r). rewrite <- HF, starts_with_self. simpl andb. cbv iota.
  rewrite (app_assoc f x (LF :: r)), read_separator; [by destruct (read_at false true r)|].
  apply not_elem_of_cons in Hn as [_ Hn]. rewrite not_elem_of_app. done.
Qed.

(** A file: separators and messages. *)
Definition encode (ms : list (bytes * bytes)) : bytes := concat (map (λ m, m.1 ++ message_text m.2) ms).

(** What a reader gets for a message: the message, and up to two line ends. *)
Definition reads_as (body eml : bytes) : Prop := ∃ k, k ≤ 2 ∧ body = eml ++ crlfs k.

Lemma unescape_text eml k : k ≤ 1 → reads_as (unescape (message_text eml ++ crlfs k)) eml.
Proof.
  intros Hk. destruct (message_text_spec eml) as (j & Hj & -> & _). unfold escape_from_lines, unescape.
  rewrite <- escape_app_crlfs, unescape_escape_at, <- app_assoc, crlfs_add. exists (j + k). split; [lia|done].
Qed.

Lemma read_encoded ms k :
  k ≤ 1 → Forall (λ m, separator m.1) ms →
  ((read_at false true (encode ms ++ crlfs k)).1 = match ms with [] => crlfs k | _ => [] end) ∧
  Forall2 reads_as (read_mailbox (encode ms ++ crlfs k)) (map snd ms).
Proof.
  intros Hk Hms. unfold read_mailbox. induction Hms as [|[s e] ms Hs Hms [IH1 IH2]].
  { simpl. assert (read_at false true (crlfs k) = (crlfs k, [])) as ->; [|done].
    destruct k as [|[|k]]; [done|by vm_compute|lia]. }
  change (encode ((s, e) :: ms)) with ((s ++ message_text e) ++ encode ms). rewrite <- !app_assoc.
  rewrite read_after_separator by done. split; [done|]. cbn [snd].
  destruct (message_text_spec e) as (j & Hj & Hesc & t & Ht). rewrite Ht, read_text.
  2:{ rewrite <- Ht, Hesc. apply escape_no_separator. }
  cbn [fst snd map]. constructor; [|done]. rewrite <- Ht, IH1.
  destruct ms; [by apply unescape_text|]. apply (unescape_text e 0). lia.
Qed.

(** ** Separator lines *)

Lemma pretty_N_go_plain x s : (10%Z ∉ u s) → 10%Z ∉ u (pretty_N_go x s).
Proof.
  revert s. induction (N.lt_wf_0 x) as [x _ IH]. intros s Hs.
  destruct (decide (0 < x)%N) as [Hx|Hx].
  - rewrite pretty_N_go_step by done. apply IH; [by apply N.div_lt|]. simpl. rewrite not_elem_of_cons. split; [|done].
    pose proof (N.mod_lt x 10 ltac:(done)). unfold pretty_N_char. repeat case_match; by vm_compute.
  - assert (x = 0%N) as -> by lia. by rewrite pretty_N_go_0.
Qed.

Lemma pretty_plain (n : Z) : 10%Z ∉ u (pretty n).
Proof.
  assert (HN : ∀ x : N, 10%Z ∉ u (pretty x)).
  { intros x. unfold pretty, pretty_N. case_decide; [apply (bool_decide_unpack _); by vm_compute|].
    apply pretty_N_go_plain, not_elem_of_nil. }
  unfold pretty, pretty_Z. destruct n; [apply (bool_decide_unpack _); by vm_compute|apply HN|].
  simpl. rewrite not_elem_of_cons. split; [done|apply HN].
Qed.

Lemma nth_plain (i : nat) (l : list ustr) : forallb (λ s, bool_decide (10%Z ∉ s)) l = true → 10%Z ∉ nth i l [].
Proof.
  intros Hl%forallb_Forall. revert i. induction Hl as [|s l Hs _ IH]; intros [|i]; simpl; try apply not_elem_of_nil; [|apply IH].
  by apply bool_decide_eq_true in Hs.
Qed.

Lemma asctime_plain epoch : 10%Z ∉ asctime epoch.
Proof.
  assert (Hpad : ∀ n, 10%Z ∉ pad2 n).
  { intros n. unfold pad2. case_match; [rewrite not_elem_of_app; split|]; try apply pretty_plain.
    apply (bool_decide_unpack _); by vm_compute. }
  assert (Hlit : ∀ s, bool_decide (10%Z ∉ u s) = true → 10%Z ∉ u s) by (intros s; apply bool_decide_eq_true).
  unfold asctime. cbv zeta. destruct (ord2ymd _) as [[y m] d]. rewrite !not_elem_of_app.
  repeat split; try apply Hpad; try apply pretty_plain; try (apply Hlit; by vm_compute); apply nth_plain; by vm_compute.
Qed.

Lemma encode_ascii_plain s : 10%Z ∉ s → LF ∉ encode_ascii s.
Proof.
  induction s as [|c s IH]; intros Hs; [apply not_elem_of_nil|]. apply not_elem_of_cons in Hs as [Hc Hs]. simpl.
  rewrite not_elem_of_cons. split; [|by apply IH]. intros Heq. apply (f_equal byte_val) in Heq.
  change (byte_val LF) with 10%Z in Heq. case_decide as Hr; rewrite byte_val_of_Z in Heq; [|done].
  rewrite Z.mod_small in Heq by lia. congruence.
Qed.

Lemma format_is_separator sender epoch : 10%Z ∉ sender → separator (format_from_separator sender epoch).
Proof.
  intros Hs. unfold format_from_separator, encode_ascii. rewrite !map_app.
  exists (encode_ascii (sender ++ u " " ++ asctime epoch)). split.
  - unfold encode_ascii. rewrite !map_app, <- !app_assoc. f_equal.
  - apply encode_ascii_plain. rewrite !not_elem_of_app. split; [done|]. split; [|apply asctime_plain].
    apply (bool_decide_unpack _); by vm_compute.
Qed.

(** ** The task *)

Section TaskFacts.
Context (split_bytes block_size mbox_inline_limit_bytes : nat) (Hblock : block_size ≠ 0).
Context (folder_name dest_blob_prefix : ustr) (parsedate : ustr → option Z) (now : Z).

Lemma stage_blocks_data final fuel : ∀ buf blocks buf' blocks',
  stage_blocks block_size final fuel buf blocks = (buf', blocks') →
  concat blocks' ++ buf' = concat blocks ++ buf ∧ length buf' ≤ length buf ∧
  (length buf ≤ fuel → (final = true → buf' = []) ∧ length buf' < block_size).
Proof using Hblock.
  induction fuel as [|fuel IH]; intros buf blocks buf' blocks'; simpl.
  - intros [= <- <-]. split; [done|]. split; [done|]. intros Hl. destruct buf; [split; [done|simpl; lia]|simpl in Hl; lia].
  - case_decide as Hd.
    + intros H. destruct (IH _ _ _ _ H) as (H1 & H2 & H3). rewrite length_drop in *. split; [|split; [lia|]].
      * rewrite H1, concat_app. simpl. rewrite app_nil_r, <- app_assoc, take_drop. done.
      * intros Hl. apply H3. destruct buf; [|simpl in *; lia]. simpl in *. destruct Hd as [Hd|[_ Hd]]; [lia|by destruct Hd].
    + intros [= <- <-]. split; [done|]. split; [done|]. intros _. split; [|lia]. intros ->.
      destruct buf; [done|]. exfalso. apply Hd. by right.
Qed.

(** The bytes of the current part, staged or not. *)
Definition current_data (t : task) : bytes := concat (t_blocks t) ++ t_buf t.

(** The current part holds the messages [cur], the finished ones the messages [groups]. *)
Record task_holds (t : task) (cur : list (bytes * bytes)) (groups : list (list (bytes * bytes))) : Prop := {
  th_current : current_data t = encode cur;
  th_blocks : t_blob t = false → t_blocks t = [];
  th_total : t_total_bytes t = length (encode cur);
  th_written : w_current_bytes (t_writer t) = length (encode cur);
  th_parts : Forall2 (λ p g, part_data p = encode g ∧ split_bytes ≤ length (part_data p)) (t_parts t) groups;
  th_index : t_part_index t = w_part_index (t_writer t) + 1;
  th_seps : Forall (λ m, separator m.1) cur ∧ Forall (Forall (λ m, separator m.1)) groups;
}.

Lemma finalize_parts t :
  (t_blob t = false → t_blocks t = []) → current_data t ≠ [] →
  ∃ p, t_parts (finalize_current block_size folder_name t) = t_parts t ++ [p] ∧ part_data p = current_data t.
Proof using Hblock.
  intros Hb Hne. unfold finalize_current, current_data in *. destruct (t_blob t) eqn:Hm.
  - unfold flush_block. rewrite Hm. destruct (stage_blocks block_size true (length (t_buf t)) (t_buf t) (t_blocks t)) as [buf blocks] eqn:E.
    destruct (stage_blocks_data _ _ _ _ _ _ E) as (H1 & _ & H3). destruct H3 as [H3 _]; [done|]. rewrite (H3 eq_refl), app_nil_r in H1.
    cbn [t_blocks with_blocks snd]. case_decide as Hnil; [subst; by rewrite <- H1 in Hne|].
    eexists. split; [done|]. by simpl.
  - rewrite Hb by done. case_decide as Hnil; [by rewrite Hb, Hnil in Hne|]. eexists. split; [done|]. done.
Qed.

Lemma finalize_fields t :
  let t' := finalize_current block_size folder_name t in
  t_buf t' = [] ∧ t_blocks t' = [] ∧ t_blob t' = false ∧ t_total_bytes t' = 0 ∧ t_writer t' = t_writer t ∧
  t_part_index t' = t_part_index t ∧ t_exported t' = t_exported t ∧ t_failed t' = t_failed t.
Proof using.
  clear. unfold finalize_current, flush_block. destruct (t_blob t); case_decide; done.
Qed.

Lemma tier_fields t :
  let t' := tier block_size mbox_inline_limit_bytes t in
  (t_blob t = false → t_blocks t = []) →
  current_data t' = current_data t ∧ (t_blob t' = false → t_blocks t' = []) ∧ t_total_bytes t' = t_total_bytes t ∧
  t_writer t' = t_writer t ∧ t_part_index t' = t_part_index t ∧ t_parts t' = t_parts t ∧
  t_exported t' = t_exported t ∧ t_failed t' = t_failed t ∧
  (if t_blob t' then length (t_buf t') < block_size else t_total_bytes t' ≤ mbox_inline_limit_bytes).
Proof using Hblock.
  cbv zeta. intros Hb. unfold tier.
  set (t1 := if negb (t_blob t) && _ then _ else t).
  assert (H1 : current_data t1 = current_data t ∧ (t_blob t1 = false → t_blocks t1 = []) ∧ t_total_bytes t1 = t_total_bytes t ∧
    t_writer t1 = t_writer t ∧ t_part_index t1 = t_part_index t ∧ t_parts t1 = t_parts t ∧ t_exported t1 = t_exported t ∧
    t_failed t1 = t_failed t ∧ (t_blob t1 = false → t_total_bytes t1 ≤ mbox_inline_limit_bytes)).
  { subst t1. destruct (negb (t_blob t) && _) eqn:E.
    - unfold spillover_to_blob. destruct (stage_blocks _ _ _ _ _) as [buf blocks] eqn:Es.
      destruct (stage_blocks_data _ _ _ _ _ _ Es) as (H1 & _). by repeat (split; [done|]).
    - repeat (split; [done|]). intros Hf. rewrite Hf in E. simpl in E. bools. lia. }
  clearbody t1. destruct H1 as (H1 & H2 & H3 & H4 & H5 & H6 & H7 & H8 & H9).
  destruct (t_blob t1) eqn:Hm; simpl.
  - destruct (bool_decide (block_size ≤ length (t_buf t1))) eqn:E; bools.
    + unfold flush_block. rewrite Hm. destruct (stage_blocks _ _ _ _ _) as [buf blocks] eqn:Es.
      destruct (stage_blocks_data _ _ _ _ _ _ Es) as (S1 & _ & S3). destruct S3 as [_ S3]; [done|].
      rewrite <- H1. by repeat (split; [done|]).
    + rewrite Hm. repeat (split; [done|]). lia.
  - rewrite Hm. repeat (split; [done|]). by apply H9.
Qed.

(** The separator and text of a message. *)
Definition entry_of (m : message) : bytes * bytes :=
  (format_from_separator (sender_of m) (epoch_of parsedate now m), msg_eml m).

Lemma encode_snoc ms m : encode (ms ++ [m]) = encode ms ++ m.1 ++ message_text m.2.
Proof using. unfold encode. rewrite map_app, concat_app. cbn [map concat]. by rewrite app_nil_r. Qed.

Lemma entry_nonempty m : message_text m ≠ [].
Proof using. destruct (message_text_spec m) as (_ & _ & _ & t & ->). by destruct t. Qed.

Notation mbox_item_at := (mbox_item split_bytes block_size mbox_inline_limit_bytes folder_name dest_blob_prefix parsedate now).

(** One message is written to the current part, which it may fill. *)
Lemma mbox_item_holds t it m cur groups :
  mi_built it = inr m → 10%Z ∉ sender_of m → task_holds t cur groups →
  ∃ cur' groups', task_holds (mbox_item_at t it) cur' groups' ∧
    concat groups' ++ cur' = (concat groups ++ cur) ++ [entry_of m] ∧
    t_exported (mbox_item_at t it) = t_exported t ++ [mi_id it] ∧ t_failed (mbox_item_at t it) = t_failed t ∧
    (if t_blob (mbox_item_at t it) then length (t_buf (mbox_item_at t it)) < block_size
     else t_total_bytes (mbox_item_at t it) ≤ mbox_inline_limit_bytes).
Proof using Hblock.
  intros Hm Hsend [H1 H2 H3 H4 H5 H6 [H7 H8]]. unfold mbox_item. rewrite Hm.
  set (out := (entry_of m).1 ++ message_text (entry_of m).2).
  assert (Henc : encode (cur ++ [entry_of m]) = encode cur ++ out) by apply encode_snoc.
  assert (Hsep : separator (entry_of m).1) by (by apply format_is_separator).
  assert (Hne : encode (cur ++ [entry_of m]) ≠ []).
  { rewrite Henc. unfold out. intros H. apply app_eq_nil in H as [_ H]. apply app_eq_nil in H as [_ H]. by apply entry_nonempty in H. }
  set (tw := write_message split_bytes parsedate now t it m).
  assert (Hw : t_buf tw = t_buf t ++ out ∧ t_blocks tw = t_blocks t ∧ t_blob tw = t_blob t ∧ t_parts tw = t_parts t ∧
    t_total_bytes tw = t_total_bytes t + length out ∧ t_exported tw = t_exported t ++ [mi_id it] ∧ t_failed tw = t_failed t ∧
    (split_bytes ≤ length (encode (cur ++ [entry_of m])) ∧ w_current_bytes (t_writer tw) = 0 ∧
       t_part_index tw = w_part_index (t_writer tw) + 1 ∧ t_part_index tw = t_part_index t + 1 ∨
     w_current_bytes (t_writer tw) = length (encode (cur ++ [entry_of m])) ∧ t_part_index tw = t_part_index t ∧
       t_part_index tw = w_part_index (t_writer tw) + 1)).
  { unfold tw, write_message, append_message. fold (entry_of m). change (format_from_separator (sender_of m) (epoch_of parsedate now m) ++ message_text (msg_eml m)) with out.
    assert (Hl : length (encode (cur ++ [entry_of m])) = w_current_bytes (t_writer t) + length out) by (rewrite Henc, length_app; lia).
    clearbody out. case_decide; cbn; repeat (split; [done|]); [left|right]; repeat split; cbn; lia. }
  clearbody tw. destruct Hw as (W1 & W2 & W3 & W4 & W5 & W6 & W7 & W8).
  assert (Hcur : current_data tw = encode (cur ++ [entry_of m])).
  { unfold current_data in *. rewrite W1, W2, Henc, <- H1. by rewrite app_assoc. }
  assert (Hcur_sep : Forall (λ m, separator m.1) (cur ++ [entry_of m])) by (apply Forall_app; split; [done|by constructor]).
  assert (Hblk : t_blob tw = false → t_blocks tw = []) by (rewrite W3, W2; done).
  unfold roll_over. destruct W8 as [(S1 & S2 & S3 & S4)|(S1 & S2 & S3)].
  - rewrite decide_False by lia. cbv zeta.
    set (tf := Task _ _ _ _ _ _ _ _ _ _).
    destruct (finalize_parts tw Hblk) as (p & Hp & Hpd); [by rewrite Hcur|].
    destruct (finalize_fields tw) as (F1 & F2 & F3 & F4 & F5 & F6 & F7 & F8).
    destruct (tier_fields tf) as (T1 & T2 & T3 & T4 & T5 & T6 & T7 & T8 & T9); [intros _; exact F2|].
    assert (Hempty : current_data tf = []) by (unfold current_data, tf; cbn; by rewrite F1, F2).
    exists [], (groups ++ [cur ++ [entry_of m]]). split; [constructor|].
    + by rewrite T1, Hempty.
    + done.
    + rewrite T3. exact F4.
    + rewrite T4. unfold tf. cbn. rewrite F5, S2. done.
    + rewrite T6. unfold tf. cbn. rewrite Hp, W4. apply Forall2_app; [done|]. constructor; [|constructor].
      rewrite Hpd, Hcur. by split.
    + rewrite T4, T5. unfold tf. cbn. rewrite F5, F6. done.
    + split; [constructor|]. apply Forall_app. split; [done|]. by constructor.
    + split; [rewrite concat_app; cbn; by rewrite !app_nil_r, app_assoc|].
      split; [rewrite T7; unfold tf; cbn; by rewrite F7, W6|]. split; [rewrite T8; unfold tf; cbn; by rewrite F8, W7|done].
  - rewrite decide_True by done.
    destruct (tier_fields tw Hblk) as (T1 & T2 & T3 & T4 & T5 & T6 & T7 & T8 & T9).
    exists (cur ++ [entry_of m]), groups. split; [constructor|].
    + by rewrite T1.
    + done.
    + rewrite T3, W5, H3, Henc, length_app. done.
    + by rewrite T4, S1.
    + by rewrite T6, W4.
    + by rewrite T4, T5, S3.
    + done.
    + split; [by rewrite app_assoc|]. split; [by rewrite T7, W6|]. split; [by rewrite T8, W7|done].
Qed.
(** The buffered and staged bytes are the counted ones, and the buffer is small. *)
Definition task_sized (t : task) : Prop :=
  length (current_data t) = t_total_bytes t ∧ (t_blob t = false → t_blocks t = []) ∧
  length (t_buf t) ≤ Nat.max mbox_inline_limit_bytes block_size.

Lemma roll_over_counts n t :
  length (current_data t) = t_total_bytes t → (t_blob t = false → t_blocks t = []) →
  let t' := roll_over block_size folder_name dest_blob_prefix n t in
  length (current_data t') = t_total_bytes t' ∧ (t_blob t' = false → t_blocks t' = []).
Proof using.
  clear. intros H1 H2. unfold roll_over. case_decide; [done|].
  destruct (finalize_fields t) as (F1 & F2 & F3 & F4 & _). unfold current_data. cbn. by rewrite F1, F2, F4.
Qed.

Lemma write_message_counts t it m :
  length (current_data t) = t_total_bytes t → (t_blob t = false → t_blocks t = []) →
  let t' := write_message split_bytes parsedate now t it m in
  length (current_data t') = t_total_bytes t' ∧ (t_blob t' = false → t_blocks t' = []).
Proof using.
  clear. intros H1 H2. unfold write_message, append_message, current_data in *. rewrite length_app in H1.
  set (out := format_from_separator _ _ ++ _). clearbody out.
  case_decide; cbn; (split; [|done]); rewrite !length_app; lia.
Qed.

Lemma mbox_item_sized t it : task_sized t → task_sized (mbox_item_at t it).
Proof using Hblock.
  intros (H1 & H2 & H3). unfold mbox_item. destruct (mi_built it) as [err|m]; [by repeat split|].
  destruct (write_message_counts t it m H1 H2) as [M1 M2].
  set (tm := write_message _ _ _ _ _ _) in *. clearbody tm.
  destruct (roll_over_counts (t_part_index t) tm M1 M2) as [W1 W2]. set (tw := roll_over _ _ _ _ _) in *.
  clearbody tw. destruct (tier_fields tw W2) as (T1 & T2 & T3 & _ & _ & _ & _ & _ & T9).
  split; [by rewrite T1, T3|]. split; [done|]. destruct (t_blob (tier _ _ tw)) eqn:E; [lia|].
  rewrite <- T3, <- T1 in W1. unfold current_data in W1. rewrite T2 in W1 by done. simpl in W1. lia.
Qed.

(** The messages that could be built, their items, and the failures. *)
Definition messages_of (items : list mail_item) : list message :=
  omap (λ it, match mi_built it with inr m => Some m | inl _ => None end) items.
Definition exported_ids (items : list mail_item) : list ustr :=
  omap (λ it, match mi_built it with inr _ => Some (mi_id it) | inl _ => None end) items.
Definition failed_ids (items : list mail_item) : list (ustr * ustr) :=
  omap (λ it, match mi_built it with inr _ => None | inl err => Some (mi_id it, err) end) items.

(** No sender's address has a line break. *)
Definition plain_senders (items : list mail_item) : Prop := Forall (λ m, 10%Z ∉ sender_of m) (messages_of items).

Lemma mbox_items_hold items : ∀ t cur groups,
  plain_senders items → task_holds t cur groups →
  let t' := foldl mbox_item_at t items in
  ∃ cur' groups', task_holds t' cur' groups' ∧
    concat groups' ++ cur' = (concat groups ++ cur) ++ map entry_of (messages_of items) ∧
    t_exported t' = t_exported t ++ exported_ids items ∧ t_failed t' = t_failed t ++ failed_ids items.
Proof using Hblock.
  induction items as [|it items IH]; intros t cur groups Hs Ht; cbn [foldl].
  { exists cur, groups. cbn. rewrite !app_nil_r. done. }
  unfold plain_senders, messages_of, exported_ids, failed_ids in *.
  destruct (mi_built it) as [err|m] eqn:Hb.
  - destruct (IH (mbox_item_at t it) cur groups) as (cur' & groups' & I1 & I2 & I3 & I4).
    + cbn in Hs. by rewrite Hb in Hs.
    + unfold mbox_item. rewrite Hb. destruct Ht. by constructor.
    + exists cur', groups'. split; [done|]. cbn. rewrite Hb. split; [done|].
      assert (Hf : t_exported (mbox_item_at t it) = t_exported t ∧ t_failed (mbox_item_at t it) = t_failed t ++ [(mi_id it, err)])
        by (unfold mbox_item; by rewrite Hb).
      destruct Hf as [Hf1 Hf2]. rewrite I3, I4, Hf1, Hf2, <- app_assoc. done.
  - cbn in Hs. rewrite Hb in Hs. apply Forall_cons in Hs as [Hm Hs].
    destruct (mbox_item_holds t it m cur groups Hb Hm Ht) as (c1 & g1 & M1 & M2 & M3 & M4 & _).
    destruct (IH (mbox_item_at t it) c1 g1 Hs M1) as (cur' & groups' & I1 & I2 & I3 & I4).
    exists cur', groups'. split; [done|]. cbn. rewrite Hb. split; [|split].
    + rewrite I2, M2. cbn. by rewrite <- app_assoc.
    + by rewrite I3, M3, <- app_assoc.
    + by rewrite I4, M4.
Qed.
End TaskFacts.

Lemma init_holds split_bytes prefix : task_holds split_bytes (task_init prefix) [] [].
Proof. by repeat constructor. Qed.

Lemma map_snd_entries parsedate now (ms : list message) : map snd (map (entry_of parsedate now) ms) = map msg_eml ms.
Proof. rewrite map_map. done. Qed.

(** C39: The mailbox files of a folder give its messages back: reading the parts in order,
    a reader of the format finds exactly the messages that could be built, in their
    order, each byte for byte (with at most two line ends after it) although lines that
    look like separators occur in them; every part but the last reached the split size;
    and every item is counted once, as exported or with its error. *)
Theorem exported_mailbox_is_readable split_bytes block_size inline_limit folder prefix parsedate now items :
  block_size ≠ 0 → plain_senders items →
  let t := run_mbox split_bytes block_size inline_limit folder prefix parsedate now items in
  (∃ groups, concat groups = map msg_eml (messages_of items) ∧
     Forall2 (λ p g, Forall2 reads_as (read_mailbox (part_data p)) g) (t_parts t) groups ∧
     ∃ full last_part, t_parts t = full ++ [last_part] ∧ Forall (λ p, split_bytes ≤ length (part_data p)) full) ∧
  t_exported t = exported_ids items ∧ t_failed t = failed_ids items.
Proof.
  intros Hb Hs t. subst t. unfold run_mbox.
  destruct (mbox_items_hold split_bytes block_size inline_limit Hb folder prefix parsedate now items _ [] [] Hs (init_holds _ prefix))
    as (cur & groups & Ht & Hcat & Hex & Hfa). cbn [app] in Hcat.
  set (t := foldl _ _ _) in *. clearbody t. destruct Ht as [H1 H2 _ _ H5 _ [H7 H8]].
  unfold close_task. set (tc := Task _ _ _ _ _ _ _ _ _ _).
  assert (Hcur : current_data tc = encode cur ++ crlfs 1).
  { unfold current_data in *. cbn. by rewrite app_assoc, H1. }
  destruct (finalize_parts block_size Hb folder tc) as (p & Hp & Hpd); [done| |].
  { rewrite Hcur. intros H. by apply app_eq_nil in H as [_ H]. }
  destruct (finalize_fields block_size folder tc) as (_ & _ & _ & _ & _ & _ & F7 & F8).
  split; [|rewrite F7, F8; by split]. rewrite Hp. change (t_parts tc) with (t_parts t).
  exists (map (map snd) groups ++ [map snd cur]). split; [|split].
  - rewrite concat_app, <- concat_map. simpl. rewrite app_nil_r, <- map_app, Hcat. apply map_snd_entries.
  - apply Forall2_app.
    + clear -H5 H8. induction H5 as [|q g ps gs [Hq _] _ IH]; [constructor|]. apply Forall_cons in H8 as [Hg H8].
      constructor; [|by apply IH]. rewrite Hq. rewrite <- (app_nil_r (encode g)). apply (read_encoded g 0); [lia|done].
    + constructor; [|constructor]. rewrite Hpd, Hcur. apply (read_encoded cur 1); [lia|done].
  - exists (t_parts t), p. split; [done|]. clear -H5. induction H5 as [|q g ps gs [_ Hq] _ IH]; by constructor.
Qed.

(** However large the folder is, the task buffers no more than the in-memory limit or
    one block between two messages, whichever is larger. *)
Theorem mailbox_buffer_is_bounded split_bytes block_size inline_limit folder prefix parsedate now items :
  block_size ≠ 0 →
  length (t_buf (foldl (mbox_item split_bytes block_size inline_limit folder prefix parsedate now) (task_init prefix) items))
    ≤ Nat.max inline_limit block_size.
Proof.
  intros Hb. set (t := task_init prefix).
  assert (Ht : task_sized block_size inline_limit t) by (repeat split; simpl; lia). clearbody t.
  revert t Ht. induction items as [|it items IH]; intros t Ht; [apply Ht|]. simpl. apply IH. by apply mbox_item_sized.
Qed.

(** ** Witnesses *)

Module MboxExamples.

Definition parsedate (s : ustr) : option Z := None.

(** A message with lines that look like separators, one that could not be fetched, one
    without a date. *)
Definition items : list mail_item := [
  MailItem (u "m1") (inr (Message (Some (u "a@x.org")) (Some (u "2023-11-14T22:13:20Z"))
    (ascii_bytes "Subject: hi" ++ CRLF ++ CRLF ++ ascii_bytes "From me" ++ CRLF ++ ascii_bytes ">From you" ++ CRLF)));
  MailItem (u "m2") (inl (u "FileNotFoundError: blob missing"));
  MailItem (u "m3") (inr (Message None None (ascii_bytes "From the top")))].

Definition t : task := run_mbox 70 8 1000 (u "Inbox") (u "job/Inbox") parsedate 1700000000 items.

Lemma items_plain : plain_senders items.
Proof. repeat constructor; apply (bool_decide_unpack _); by vm_compute. Qed.

(** The parts as they are: two files under one name, with a message in each. *)
Example rolled_parts_share_a_name :
  map fst (produced_inline_members t) = [u "Inbox.02.mbox"; u "Inbox.02.mbox"] ∧
  map (λ p, length (read_mailbox (part_data p))) (t_parts t) = [1; 1].
Proof. by vm_compute. Qed.

Lemma exported_mailbox_is_readable_witness :
  (∃ groups, concat groups = map msg_eml (messages_of items) ∧
     Forall2 (λ p g, Forall2 reads_as (read_mailbox (part_data p)) g) (t_parts t) groups ∧
     ∃ full last_part, t_parts t = full ++ [last_part] ∧ Forall (λ p, 70 ≤ length (part_data p)) full) ∧
  t_exported t = exported_ids items ∧ t_failed t = failed_ids items.
Proof. apply (exported_mailbox_is_readable 70 8 1000 (u "Inbox") (u "job/Inbox") parsedate 1700000000 items); [done|apply items_plain]. Defined.

Lemma mailbox_buffer_is_bounded_witness :
  length (t_buf (foldl (mbox_item 60 8 10 (u "Inbox") (u "job/Inbox") parsedate 1700000000) (task_init (u "job/Inbox")) items))
    ≤ Nat.max 10 8.
Proof. apply (mailbox_buffer_is_bounded 60 8 10); done. Defined.

End MboxExamples.
