(* ===== verification/Export.v ===== *)
(** * Exports of files and messages

    [src/workers/restore-worker/file_export.py], the loose-message path and the archive
    assembly of [src/workers/restore-worker/mail_export.py], and the manifest of
    [src/shared/export_manifest.py]: which items become which members of the archive,
    under which names, and how every item is counted. What a shard lists and serves, the
    JSON printer and the SHA-1 digits are parameters. The tasks of the folders run
    concurrently on one manifest and one checkpoint: a schedule says whose turn it is, an
    item at a time (a task only waits while it looks for the blob of its next item). *)

From S2P Require Import Prelude ArchiveNames Mbox.
Local Open Scope nat_scope.

(** ** The manifest *)

Inductive entry_status := Success (size_bytes : Z) | Failed (error error_class : ustr).

Record manifest_entry := ManifestEntry { me_id : ustr; me_name : ustr; me_folder : ustr; me_status : entry_status }.

Definition record_success (m : list manifest_entry) (id name folder : ustr) (size : Z) : list manifest_entry :=
  m ++ [ManifestEntry id name folder (Success size)].

Definition record_failure (m : list manifest_entry) (id name folder error : ustr) (error_class : option ustr)
    : list manifest_entry :=
  m ++ [ManifestEntry id name folder (Failed error (match error_class with Some c => if decide (c = []) then u "Exception" else c | None => u "Exception" end))].



(** ** Members of the archive *)

Inductive member := InlineMember (arcname : ustr) (body : bytes) | BlobMember (arcname container path : ustr).

Definition member_name (m : member) : ustr := match m with InlineMember n _ | BlobMember n _ _ => n end.

Inductive export_err := NotYetBackedUp (id : ustr) | UnsafeArcname (name : ustr) | BlobUnavailable (container path : ustr).

Fixpoint prefix_of_list (p s : ustr) : bool :=
  match p, s with
  | [], _ => true
  | a :: p, b :: s => bool_decide (a = b) && prefix_of_list p s
  | _ :: _, [] => false
  end.

(** [sub in s] and [s.endswith(t)]. *)
Fixpoint contains (sub s : ustr) : bool :=
  prefix_of_list sub s || match s with _ :: s => contains sub s | [] => false end.
Definition ends_with (t s : ustr) : bool := prefix_of_list (reverse t) (reverse s).

Section Files.
Context {J : Type} (dumps : J → ustr + bytes) (digest : ustr → ustr).

(** An item of the selection; [fi_raw] is its payload kept in the row. *)
Record file_item := FileItem {
  fi_id : ustr;
  fi_name : ustr;
  fi_size : Z;
  fi_blob_path : ustr;
  fi_snapshot_id : ustr;
  fi_folder_path : ustr;
  fi_raw : option J;
  fi_shard : nat;
}.

(** The settings of the export. *)
Record settings := Settings {
  x_source_container : ustr;
  x_fail_on_missing : bool;
  x_max_file_bytes : Z;
  x_path_max_len : Z;
  x_sanitize_chars : ustr;
}.
Context (cfg : settings).

(** A text, or another one when it is empty. *)
Definition or_else (s t : ustr) : ustr := if decide (s = []) then t else s.

(** [_resolve_blob_path], with the names the shard lists. *)
Definition resolve_blob_path (listing : list ustr) (it : file_item) : option ustr :=
  if decide (fi_blob_path it = []) then
    head (filter (λ name, (negb (bool_decide (fi_snapshot_id it = [])) && contains (fi_snapshot_id it) name &&
      ends_with (SLASH :: fi_id it) name) = true) listing)
  else Some (fi_blob_path it).

(** The outcome of a folder, with the names used in it and the shared manifest. *)
Record folder_state := FolderState {
  f_members : list member;
  f_exported : nat;
  f_failed : list (ustr * ustr);
  f_used : list ustr;
  f_manifest : list manifest_entry;
}.

Definition fail_item (folder : ustr) (st : folder_state) (id name reason error cls : ustr) : folder_state :=
  FolderState (f_members st) (f_exported st) (f_failed st ++ [(id, reason)]) (f_used st)
    (record_failure (f_manifest st) id name folder error (Some cls)).

Definition add_member (folder : ustr) (st : folder_state) (m : member) (used : list ustr) (id name : ustr) (size : Z) : folder_state :=
  FolderState (f_members st ++ [m]) (f_exported st + 1) (f_failed st) used
    (record_success (f_manifest st) id name folder size).

(** The name of an item in the archive, and the names used with it. *)
Definition item_name (it : file_item) : ustr := or_else (fi_name it) (fi_id it).
Definition raw_arcname (folder : ustr) (it : file_item) (extension : ustr) : ustr :=
  let item_folder := strip_slashes (or_else (fi_folder_path it) folder) in
  if decide (item_folder = []) then item_name it ++ extension else item_folder ++ [SLASH] ++ item_name it ++ extension.
Definition unique_arcname (folder : ustr) (st : folder_state) (it : file_item) (extension : ustr) : ustr * list ustr :=
  resolve_arcname_collision (sanitize_arcname digest (raw_arcname folder it extension) (x_path_max_len cfg) (x_sanitize_chars cfg))
    (fi_id it) (f_used st).

(** The body of the loop of [FileFolderExportTask.run]. *)
Definition file_step (folder : ustr) (listing : list ustr) (st : folder_state) (it : file_item) : result export_err folder_state :=
  let name := item_name it in
  if (x_max_file_bytes cfg <? fi_size it)%Z then
    Ok (fail_item folder st (fi_id it) name (u "too_large") (u "too_large") (u "SizeCap"))
  else
    match resolve_blob_path listing it with
    | Some path =>
      let '(unique, used) := unique_arcname folder st it [] in
      Ok (add_member folder st (BlobMember unique (x_source_container cfg) path) used (fi_id it) name (fi_size it))
    | None =>
      match fi_raw it with
      | Some payload =>
        let '(unique, used) := unique_arcname folder st it (u ".json") in
        match dumps payload with
        | inr body => Ok (add_member folder st (InlineMember unique body) used (fi_id it) name (Z.of_nat (length body)))
        | inl exc =>
          let st := FolderState (f_members st) (f_exported st) (f_failed st) used (f_manifest st) in
          Ok (fail_item folder st (fi_id it) name (u "json_serialise: " ++ exc) (u "json_serialise") (u "SerialiseError"))
        end
      | None =>
        if x_fail_on_missing cfg then Err (NotYetBackedUp (fi_id it))
        else Ok (fail_item folder st (fi_id it) name (u "not_yet_backed_up") (u "not_yet_backed_up") (u "MissingBlob"))
      end
    end.

(** ** The orchestrator *)

(** A Python dictionary of lists: a key keeps the place it was first seen at. *)
Fixpoint group_add {K V} `{EqDecision K} (k : K) (v : V) (groups : list (K * list V)) : list (K * list V) :=
  match groups with
  | [] => [(k, [v])]
  | (k', vs) :: groups => if decide (k = k') then (k', vs ++ [v]) :: groups else (k', vs) :: group_add k v groups
  end.

Definition partition_by_folder_and_shard (items : list file_item) : list ((ustr * nat) * list file_item) :=
  foldl (λ groups it, group_add (strip_slashes (fi_folder_path it), fi_shard it) it groups) [] items.

(** A [FileFolderExportTask]: the position of its loop over the items, and its outcome
    so far; the manifest is the orchestrator's. *)
Record file_task := FileTask {
  ft_folder : ustr;
  ft_shard : nat;
  ft_done : list file_item;
  ft_todo : list file_item;
  ft_state : folder_state;
}.

Definition start_task (g : (ustr * nat) * list file_item) : file_task :=
  FileTask g.1.1 g.1.2 [] g.2 (FolderState [] 0 [] [] []).

Definition with_manifest (m : list manifest_entry) (st : folder_state) : folder_state :=
  FolderState (f_members st) (f_exported st) (f_failed st) (f_used st) m.

(** [asyncio.gather] over the groups: the next item of the task whose turn it is, on the
    shared manifest; a task that ends enters its folder in the checkpoint. *)
Fixpoint run_groups (listing : nat → list ustr) (schedule : list nat) (tasks : list file_task) (manifest : list manifest_entry)
    (completed : list ustr) : result export_err (list file_task * list manifest_entry * list ustr) :=
  match schedule with
  | [] => Ok (tasks, manifest, completed)
  | k :: schedule =>
    match tasks !! k with
    | Some (FileTask folder shard past (it :: todo) st) =>
      st ← file_step folder (listing shard) (with_manifest manifest st) it;
      let completed := if decide (todo = [] ∧ folder ∉ completed) then completed ++ [folder] else completed in
      run_groups listing schedule (<[k := FileTask folder shard (past ++ [it]) todo st]> tasks) (f_manifest st) completed
    | _ => run_groups listing schedule tasks manifest completed
    end
  end.

(** A schedule that lets every task end, whatever it has left. *)
Definition rest_of (tasks : list file_task) : list nat :=
  concat (replicate (sum_list (map (λ t, length (ft_todo t)) tasks)) (seq 0 (length tasks))).

(** What a shard serves under a container and a path. *)
Context (blobs : nat → ustr → ustr → option bytes).

(** [stream_zip_to_block_blob]: a member as it enters the archive, its blob read from the
    one shard [source]. *)
Definition zip_member (source : nat) (m : member) : result export_err (ustr * bytes) :=
  data ← match m with
         | InlineMember _ body => Ok body
         | BlobMember _ c p => of_option (BlobUnavailable c p) (blobs source c p)
         end;
  let name := confine_arcname digest (member_name m) in
  if decide (name ≠ [] ∧ ([DOT; DOT] ∉ split_on SLASH name) ∧ head name ≠ Some SLASH) then Ok (name, data)
  else Err (UnsafeArcname (member_name m)).

Record export_result := ExportResult {
  er_members : list (ustr * bytes);
  er_source : nat;
  er_exported : nat;
  er_failed : nat;
  er_manifest : list manifest_entry;
  er_completed : list ustr;
}.

(** [_zip_assembly_run] under a schedule; every member is read from the shard of the first
    group ([dest_shard] is [member_source_shard]). *)
Definition zip_assembly_run (listing : nat → list ustr) (schedule : list nat) (completed : list ustr) (items : list file_item)
    : result export_err export_result :=
  let groups := partition_by_folder_and_shard items in
  let remaining := filter (λ g, g.1.1 ∉ completed) groups in
  let tasks := map start_task remaining in
  '(tasks, manifest, completed) ← run_groups listing (schedule ++ rest_of tasks) tasks [] completed;
  let source := match tasks with t :: _ => ft_shard t | [] => 0 end in
  let sts := map ft_state tasks in
  members ← mapR (zip_member source) (concat (map f_members sts));
  Ok (ExportResult members source (sum_list (map f_exported sts)) (sum_list (map (λ st, length (f_failed st)) sts)) manifest completed).

(** [run]: one file in its original format is handed on as it is. *)
Inductive export_output := RawSingle (container path name : ustr) (size : Z) (manifest : list manifest_entry) | Zip (r : export_result).

Definition run_export (original preserve_tree : bool) (listing : nat → list ustr) (schedule : list nat) (completed : list ustr) (items : list file_item)
    : result export_err export_output :=
  let zip := r ← zip_assembly_run listing schedule completed items; Ok (Zip r) in
  match items with
  | [it] =>
    if original && negb (bool_decide (fi_blob_path it = [])) && negb preserve_tree then
      Ok (RawSingle (x_source_container cfg) (fi_blob_path it) (item_name it) (fi_size it)
        (record_success [] (fi_id it) (item_name it) (fi_folder_path it) (fi_size it)))
    else zip
  | _ => zip
  end.
End Files.

(** ** Loose messages

    [_run_eml]: each message becomes a member of its own; [isalnum] is [str.isalnum] of a
    code point. *)
Section Eml.
Context (digest : ustr → ustr) (isalnum : Z → bool).

Record eml_item := EmlItem { ei_id : ustr; ei_name : ustr; ei_built : ustr + bytes }.

Definition eml_arcname (folder : ustr) (it : eml_item) : ustr :=
  let safe_name := map (λ c, if isalnum c || bool_decide (c ∈ u "-._") then c else UNDERSCORE) (or_else (ei_name it) (ei_id it)) in
  confine_arcname digest (folder ++ [SLASH] ++ safe_name ++ u "-" ++ ei_id it ++ u ".eml").

Definition eml_step (folder : ustr) (st : folder_state) (it : eml_item) : result export_err folder_state :=
  match ei_built it with
  | inl err => Ok (FolderState (f_members st) (f_exported st) (f_failed st ++ [(ei_id it, err)]) (f_used st)
      (record_failure (f_manifest st) (ei_id it) (ei_name it) folder err None))
  | inr eml =>
    let arcname := eml_arcname folder it in
    raise_if (negb (bool_decide (arcname ≠ [] ∧ ([DOT; DOT] ∉ split_on SLASH arcname) ∧ head arcname ≠ Some SLASH))) (UnsafeArcname arcname) ;;
    Ok (FolderState (f_members st ++ [InlineMember arcname eml]) (f_exported st + 1) (f_failed st) (f_used st)
      (record_success (f_manifest st) (ei_id it) (ei_name it) folder (Z.of_nat (length eml))))
  end.

Fixpoint eml_steps (folder : ustr) (st : folder_state) (items : list eml_item) : result export_err folder_state :=
  match items with
  | [] => Ok st
  | it :: items => st ← eml_step folder st it; eml_steps folder st items
  end.
End Eml.

(** ** Groups *)

Section Groups.
Context {K V : Type} `{EqDecision K}.

Lemma group_add_perm (k : K) (v : V) groups :
  concat (map snd (group_add k v groups)) ≡ₚ concat (map snd groups) ++ [v].
Proof.
  induction groups as [|[k' vs] groups IH]; simpl; [done|]. case_decide; simpl.
  - rewrite <- !app_assoc. f_equiv. apply Permutation_app_comm.
  - by rewrite IH, app_assoc.
Qed.

Lemma group_add_keys (key : V → K) (v : V) groups :
  Forall (λ g, Forall (λ x, key x = g.1) g.2) groups → Forall (λ g, Forall (λ x, key x = g.1) g.2) (group_add (key v) v groups).
Proof.
  induction 1 as [|[k' vs] groups Hg Hgs IH]; simpl; [by repeat constructor|]. case_decide; constructor; simpl; try done.
  apply Forall_app. split; [done|]. by constructor.
Qed.

End Groups.

(** ** Accounting *)


Section Accounting.
Context {J : Type} (dumps : J → ustr + bytes) (digest : ustr → ustr) (cfg : settings) (listing : nat → list ustr).
Notation item := (file_item (J := J)).
Notation task := (file_task (J := J)).

(** What a member holds, and what the export owes for an item: the blob found for it on
    its shard, or else its payload, unless the item is too large or neither exists. *)
Definition content_of (m : member) : bytes + ustr * ustr :=
  match m with InlineMember _ body => inl body | BlobMember _ c p => inr (c, p) end.












Definition in_group (g : (ustr * nat) * list item) : Prop :=
  Forall (λ it, (strip_slashes (fi_folder_path it), fi_shard it) = g.1) g.2.

Lemma partition_groups (items : list item) :
  Forall in_group (partition_by_folder_and_shard items) ∧ concat (map snd (partition_by_folder_and_shard items)) ≡ₚ items.
Proof using.
  clear. unfold partition_by_folder_and_shard.
  assert (H : ∀ gs : list ((ustr * nat) * list item), Forall in_group gs →
    let gs' := foldl (λ groups it, group_add (strip_slashes (fi_folder_path it), fi_shard it) it groups) gs items in
    Forall in_group gs' ∧ concat (map snd gs') ≡ₚ concat (map snd gs) ++ items).
  { induction items as [|it items IH]; intros gs Hgs; simpl; [by rewrite app_nil_r|].
    destruct (IH _ (group_add_keys (λ it, (strip_slashes (fi_folder_path it), fi_shard it)) it gs Hgs)) as [H1 H2].
    split; [exact H1|]. rewrite H2, group_add_perm, <- app_assoc. done. }
  destruct (H [] ltac:(constructor)) as [H1 H2]. by split.
Qed.






End Accounting.

Lemma safe_name_checks replace_chars name :
  safe_name replace_chars name → name ≠ [] ∧ ([DOT; DOT] ∉ split_on SLASH name) ∧ head name ≠ Some SLASH.
Proof.
  intros Hs. unfold safe_name in Hs. split; [|split].
  - intros ->. apply Forall_cons in Hs as [[(c & [=] & _) _] _].
  - intros Hin. eapply Forall_forall in Hs; [|exact Hin]. destruct Hs as [(c & Hc & Ht) _]. by injection Hc as <-.
  - destruct name as [|c name]; [done|]. intros [= ->]. simpl in Hs. apply Forall_cons in Hs as [[(c & [=] & _) _] _].
Qed.



(** The export raises for three reasons only: an item that is not backed up, when the
    settings ask for it, a member whose blob the source shard does not serve, or a member
    without a name. *)
Lemma run_groups_err {J} (dumps : J → ustr + bytes) digest cfg listing schedule : ∀ tasks manifest completed e,
  run_groups dumps digest cfg listing schedule tasks manifest completed = Err e →
  Forall (λ t, Forall (λ it, fi_shard it = ft_shard t) (ft_todo t)) tasks →
  x_fail_on_missing cfg = true ∧ ∃ it, it ∈ concat (map ft_todo tasks) ∧ e = NotYetBackedUp (fi_id it) ∧
    resolve_blob_path (listing (fi_shard it)) it = None ∧ fi_raw it = None.
Proof.
  induction schedule as [|k schedule IH]; intros tasks manifest completed e; cbn [run_groups]; [done|].
  destruct (tasks !! k) as [[folder shard past [|it todo] st]|] eqn:Hk; [by apply IH| |by apply IH].
  assert (Hin : ∀ it', it' ∈ it :: todo → it' ∈ concat (map ft_todo tasks)).
  { intros it' Hit. apply list_elem_of_In, in_concat. exists (it :: todo). split; [|by apply list_elem_of_In].
    apply in_map_iff. eexists. split; [|apply list_elem_of_In; by eapply list_elem_of_lookup_2]. done. }
  rewrite bind_Err. intros [H|(st' & _ & H)] Hsh; pose proof (proj1 (Forall_lookup _ _) Hsh _ _ Hk) as Ht; cbn in Ht; apply Forall_cons in Ht as [Hit Htodo].
  - unfold file_step in H. destruct (_ <? _)%Z; [done|]. destruct (resolve_blob_path (listing shard) it) eqn:Hr; [by destruct (unique_arcname _ _ _ _ _ _)|].
    destruct (fi_raw it) eqn:Hraw; [destruct (unique_arcname _ _ _ _ _ _); by destruct (dumps _)|].
    destruct (x_fail_on_missing cfg); [|done]. injection H as <-. split; [done|]. exists it. split; [apply Hin; left|]. by rewrite Hit.
  - cbv zeta in H. apply IH in H as (Hf & it' & Hin' & H); [|by apply Forall_insert]. split; [done|]. exists it'. split; [|done].
    apply list_elem_of_In, in_concat in Hin' as (l & Hl & Hit'). apply in_map_iff in Hl as (t & <- & Ht).
    apply list_elem_of_In, list_elem_of_lookup in Ht as (k' & Ht). apply list_elem_of_In in Hit'.
    destruct (decide (k' = k)) as [->|Hne].
    + rewrite list_lookup_insert_eq in Ht by (by eapply lookup_lt_Some). injection Ht as <-. apply Hin. by right.
    + rewrite list_lookup_insert_ne in Ht by done. apply list_elem_of_In, in_concat. exists (ft_todo t).
      split; [apply in_map, list_elem_of_In; by eapply list_elem_of_lookup_2|by apply list_elem_of_In].
Qed.

Lemma mapR_Err {E A B} (f : A → result E B) l e : mapR f l = Err e → ∃ x, x ∈ l ∧ f x = Err e.
Proof.
  induction l as [|x l IH]; simpl; [done|]. rewrite bind_Err. intros [H|(y & _ & H)]; [exists x; split; [left|done]|].
  apply bind_Err in H as [H|(ys & _ & H)]; [|done]. destruct (IH H) as (z & Hz & ?). exists z. split; [by right|done].
Qed.

(** A file export raises only for a reason it names: the settings ask to fail on a
    missing item, and one of the selected items has neither a blob on its shard nor a
    payload; or a shard does not serve a member's blob; or nothing of a member's name
    survives confinement. *)
Theorem export_failure_is_justified {J} (dumps : J → ustr + bytes) digest cfg blobs listing schedule completed items e :
  hex_digests digest → own_chars_free ARCNAME_RESERVED →
  zip_assembly_run dumps digest cfg blobs listing schedule completed items = Err e →
  (x_fail_on_missing cfg = true ∧ ∃ it, it ∈ items ∧ e = NotYetBackedUp (fi_id it) ∧
     resolve_blob_path (listing (fi_shard it)) it = None ∧ fi_raw it = None) ∨
  (∃ shard c p, e = BlobUnavailable c p ∧ blobs shard c p = None) ∨
  ∃ name, e = UnsafeArcname name ∧ confine_arcname digest name = [].
Proof.
  intros Hd Ho. unfold zip_assembly_run. cbv zeta. destruct (partition_groups items) as [Hg Hp].
  set (gs := partition_by_folder_and_shard items) in *. rewrite bind_Err. intros [H|([[tasks m] c] & _ & H)].
  - left. set (remaining := filter _ gs) in H. assert (Hgf : Forall in_group remaining).
    { apply Forall_forall. intros g [_ Hin]%list_elem_of_filter. by eapply Forall_forall in Hg. }
    apply run_groups_err in H as (Hf & it & Hit & H).
    + split; [done|]. exists it. split; [|done]. rewrite <- Hp.
      apply list_elem_of_In, in_concat in Hit as (l & (t & <- & (g & <- & Hgin)%in_map_iff)%in_map_iff & Hit).
      apply list_elem_of_In, in_concat. exists g.2. split; [|done]. apply in_map, list_elem_of_In.
      by apply list_elem_of_In, list_elem_of_filter in Hgin as [_ Hgin].
    + apply Forall_fmap. eapply Forall_impl; [exact Hgf|]. intros [[folder shard] its] Hin. cbn.
      eapply Forall_impl; [exact Hin|]. by intros it [=].
  - right. apply bind_Err in H as [H|(ms & _ & H)]; [|done]. apply mapR_Err in H as (mem & _ & H).
    unfold zip_member in H. apply bind_Err in H as [H|(data & _ & H)].
    + left. destruct mem as [n body|n c' p]; [done|]. unfold of_option in H. match type of H with context [blobs ?s _ _] => set (sh := s) in H end.
      destruct (blobs sh c' p) eqn:Hb; [done|]. injection H as <-. by exists sh, c', p.
    + right. cbv zeta in H. case_decide as Hc; [done|]. injection H as <-. exists (member_name mem). split; [done|].
      destruct (sanitized_safe digest ARCNAME_RESERVED (member_name mem) 4096 Hd Ho) as [?|Hs]; [done|].
      exfalso. apply Hc. by eapply safe_name_checks.
Qed.

(** The assertion on the name of a loose message never fails: its last segment ends in
    [.eml]. *)
Lemma clean_keeps_end replace_chars seg c :
  last seg = Some c → is_trailer c = false → is_space c = false → c ∉ replace_chars → c ≠ SLASH →
  ∃ s, clean_segment replace_chars seg = Some s.
Proof.
  intros [l ->]%last_Some Ht Hsp Hr Hs. unfold clean_segment.
  assert (Hstrip : strip (l ++ [c]) ∉ [[]; [DOT]; [DOT; DOT]]).
  { assert (∃ k, strip (l ++ [c]) = k ++ [c]) as [k Hk].
    { unfold strip. assert (Hdw : ∃ k, drop_while is_space (l ++ [c]) = k ++ [c]).
      { induction l as [|x l [k IH]]; simpl; [rewrite Hsp; by exists []|]. destruct (is_space x); [by exists k|by exists (x :: l)]. }
      destruct Hdw as [k ->]. exists k. eapply drop_while_end_id; [by apply last_snoc|done]. }
    rewrite Hk. intros Hin. repeat (apply elem_of_cons in Hin as [Hin|Hin]); [by destruct k| | |by apply not_elem_of_nil in Hin].
    - apply (f_equal last) in Hin. rewrite last_snoc in Hin. by injection Hin as ->.
    - apply (f_equal last) in Hin. rewrite last_snoc in Hin. by injection Hin as ->. }
  rewrite decide_False by done. cbv zeta. unfold replace_char. rewrite !map_app. simpl. rewrite (decide_False (P := c ∈ replace_chars)) by done.
  rewrite (decide_False (P := c = SLASH)) by done. unfold rstrip_dots. erewrite drop_while_end_id; [|by apply last_snoc|done].
  rewrite decide_False by (by destruct (map _ _)). by eexists.
Qed.

Lemma confine_nonempty digest raw c :
  hex_digests digest → own_chars_free ARCNAME_RESERVED →
  last raw = Some c → is_trailer c = false → is_space c = false → c ∉ ARCNAME_RESERVED → confine_arcname digest raw ≠ [].
Proof.
  intros Hd Ho [l ->]%last_Some Ht Hsp Hr.
  assert (Hc : c ≠ SLASH ∧ c ≠ BACKSLASH) by (split; intros ->; apply Hr; apply (bool_decide_unpack _); by vm_compute).
  destruct Hc as [Hc1 Hc2]. unfold confine_arcname, sanitize_arcname. rewrite decide_False by by destruct l. cbv zeta.
  unfold replace_char. rewrite map_app. simpl. rewrite (decide_False (P := c = BACKSLASH)) by done.
  set (l' := map _ l). destruct (split_on_extend SLASH l') as (ss & t & _ & Hext).
  rewrite (Hext [c] [c] []) by (apply split_on_plain; rewrite list_elem_of_singleton; congruence).
  destruct (clean_keeps_end ARCNAME_RESERVED (t ++ [c]) c) as [s Hs]; [by apply last_snoc|done..|].
  assert (Hno : Forall (λ seg, SLASH ∉ seg) (ss ++ [t ++ [c]])).
  { rewrite <- (Hext [c] [c] []) by (apply split_on_plain; rewrite list_elem_of_singleton; congruence). apply split_on_no_sep. }
  set (arcname := join_on SLASH _).
  assert (Hne : arcname ≠ []).
  { intros Hnil. set (kept := omap (clean_segment ARCNAME_RESERVED) (ss ++ [t ++ [c]])) in *.
    assert (Hin : s ∈ kept) by (apply list_elem_of_omap; exists (t ++ [c]); split; [apply elem_of_app; right; left|done]).
    assert (Hkept : Forall (λ seg, safe_segment ARCNAME_RESERVED seg ∧ (SLASH ∉ seg)) kept).
    { apply Forall_forall. intros x (seg & Hseg & Hx)%list_elem_of_omap. destruct Ho as [Hu _].
      eapply clean_segment_safe; [exact Hu| |exact Hx]. by eapply Forall_forall in Hno. }
    assert (Hsp2 : split_on SLASH arcname = kept).
    { apply split_on_join; [intros Hk; rewrite Hk in Hin; by apply not_elem_of_nil in Hin|].
      eapply Forall_impl; [exact Hkept|]. by intros ? [? ?]. }
    rewrite Hnil in Hsp2. simpl in Hsp2. rewrite <- Hsp2 in Hkept.
    apply Forall_cons in Hkept as [[[(x & [=] & _) _] _] _]. }
  clearbody arcname. destruct (_ <=? 4096)%Z; [done|]. case_match; intros [_ [=]]%app_eq_nil.
Qed.

(** The loose messages of a folder are all exported: the assertion on the name of a
    message never fails, whatever the folder, the subject and the identifier are; each
    message that could be built becomes one member, in order and with its bytes, and every
    item is counted once. *)
Theorem loose_messages_are_exported digest isalnum folder st items :
  hex_digests digest → own_chars_free ARCNAME_RESERVED →
  ∃ st' members, eml_steps digest isalnum folder st items = Ok st' ∧ f_members st' = f_members st ++ members ∧
    map content_of members = omap (λ it, match ei_built it with inr eml => Some (inl eml) | inl _ => None end) items ∧
    Forall (λ m, safe_name ARCNAME_RESERVED (member_name m)) members ∧
    f_exported st' = f_exported st + length members ∧
    f_failed st' = f_failed st ++ omap (λ it, match ei_built it with inl err => Some (ei_id it, err) | inr _ => None end) items ∧
    f_exported st' + length (f_failed st') = f_exported st + length (f_failed st) + length items.
Proof.
  intros Hd Ho. revert st. induction items as [|it items IH]; intros st; simpl.
  { exists st, []. rewrite !app_nil_r, !Nat.add_0_r. by repeat split. }
  unfold eml_step. destruct (ei_built it) as [err|eml] eqn:Hb; mred.
  - destruct (IH (FolderState (f_members st) (f_exported st) (f_failed st ++ [(ei_id it, err)]) (f_used st)
      (record_failure (f_manifest st) (ei_id it) (ei_name it) folder err None))) as (st' & ms & H1 & H2 & H3 & H4 & H5 & H6 & H7).
    exists st', ms. split; [done|]. cbn in *. rewrite length_app in H7. cbn in H7. split; [done|]. split; [done|]. split; [done|].
    split; [done|]. split; [by rewrite H6, <- app_assoc|lia].
  - assert (Hsafe : safe_name ARCNAME_RESERVED (eml_arcname digest isalnum folder it)).
    { unfold eml_arcname. destruct (sanitized_safe digest ARCNAME_RESERVED (folder ++ [SLASH] ++ map (λ c, if isalnum c || bool_decide (c ∈ u "-._") then c else UNDERSCORE)
        (or_else (ei_name it) (ei_id it)) ++ u "-" ++ ei_id it ++ u ".eml") 4096 Hd Ho) as [Hn|?]; [|done].
      exfalso. revert Hn. apply (confine_nonempty digest _ 108%Z Hd Ho); [|done..|apply (bool_decide_unpack _); by vm_compute].
      rewrite !last_app. done. }
    rewrite bool_decide_eq_true_2 by by eapply safe_name_checks. simpl.
    destruct (IH (FolderState (f_members st ++ [InlineMember (eml_arcname digest isalnum folder it) eml]) (f_exported st + 1) (f_failed st) (f_used st)
      (record_success (f_manifest st) (ei_id it) (ei_name it) folder (Z.of_nat (length eml))))) as (st' & ms & H1 & H2 & H3 & H4 & H5 & H6 & H7).
    exists st', (InlineMember (eml_arcname digest isalnum folder it) eml :: ms). split; [done|]. cbn in *.
    rewrite H2, <- app_assoc. split; [done|]. split; [by rewrite H3|]. split; [by constructor|]. split; [lia|]. split; [done|lia].
Qed.

(** ** Witnesses *)

Module ExportExamples.
Import NameExamples.

Definition dumps (j : bytes) : ustr + bytes := if decide (j = []) then inl (u "empty") else inr j.

Definition cfg : settings := Settings (u "backup") false 100 260 ARCNAME_RESERVED.

(** Four items: a file, a list item kept in its row, a file that is too large, and one whose
    blob is found by listing the shard; the first and the last would share a name. *)
Definition items : list (file_item (J := bytes)) := [
  FileItem (u "01ABCDEFX1") (u "a?.txt") 10 (u "blob/1") (u "s1") (u "/Docs/") None 0;
  FileItem (u "li-1") (u "row") 0 [] (u "s1") (u "Lists") (Some (ascii_bytes "{}")) 0;
  FileItem (u "01ABCDEFX2") (u "big.bin") 101 (u "blob/2") (u "s1") (u "Docs") None 0;
  FileItem (u "01ABCDEFX3") (u "a*.txt") 5 [] (u "s1") (u "Docs") None 0].

Definition listing (shard : nat) : list ustr := [u "r/s0/t/01ABCDEFX3"; u "r/s1/t/01ABCDEFX3"].

(** One store behind every shard: a blob holds its own path. *)
Definition store (shard : nat) (container path : ustr) : option bytes :=
  Some (map (λ c, default Byte.x00 (Byte.of_N (Z.to_N c))) path).

Definition no_result : export_result := ExportResult [] 0 0 0 [] [].

(** The second group runs between the items of the first. *)
Definition turns : list nat := [0; 1; 0; 0].

Definition r : export_result := from_ok no_result (zip_assembly_run dumps digest cfg store listing turns [] items).


Example r_members :
  map fst (er_members r) = [u "Docs/a_.txt"; u "Docs/a_~01ABCDEF.txt"; u "Lists/row.json"] ∧
  (er_exported r, er_failed r) = (3, 1) ∧ map me_id (er_manifest r) = map fi_id items.
Proof. by vm_compute. Qed.

(** The folders completed before the restart are not in the new archive. *)
Example resumed_export_lacks_completed_folders :
  map fst (er_members (from_ok no_result (zip_assembly_run dumps digest cfg store listing turns [u "Docs"] items)))
    = [u "Lists/row.json"].
Proof. by vm_compute. Qed.

(** Two files on two shards: both members are read from the shard of the first. *)
Definition far : list (file_item (J := bytes)) := [
  FileItem (u "x") (u "near.txt") 1 (u "b1") (u "s1") (u "A") None 0;
  FileItem (u "y") (u "far.txt") 1 (u "b2") (u "s1") (u "B") None 1].
Definition two_shards (shard : nat) (container path : ustr) : option bytes :=
  if decide ((shard, path) = (0, u "b1") ∨ (shard, path) = (1, u "b2")) then Some [Byte.x41]
  else if decide ((shard, path) = (0, u "b2")) then Some [Byte.x42] else None.

Example members_come_from_one_shard :
  map snd (er_members (from_ok no_result (zip_assembly_run dumps digest cfg two_shards listing [] [] far))) = [[Byte.x41]; [Byte.x42]] ∧
  two_shards 1 (u "backup") (u "b2") = Some [Byte.x41].
Proof. by vm_compute. Qed.


(** A strict export of an item that has nothing. *)
Definition strict : settings := Settings (u "backup") true 100 260 ARCNAME_RESERVED.
Definition missing : file_item (J := bytes) := FileItem (u "x") (u "gone.txt") 5 [] [] (u "Docs") None 0.

Lemma export_failure_is_justified_witness :
  (x_fail_on_missing strict = true ∧ ∃ it, it ∈ [missing] ∧ NotYetBackedUp (u "x") = NotYetBackedUp (fi_id it) ∧
     resolve_blob_path (listing (fi_shard it)) it = None ∧ fi_raw it = None) ∨
  (∃ shard c p, NotYetBackedUp (u "x") = BlobUnavailable c p ∧ store shard c p = None) ∨
  ∃ name, NotYetBackedUp (u "x") = UnsafeArcname name ∧ confine_arcname digest name = [].
Proof.
  apply (export_failure_is_justified dumps digest strict store listing [] [] [missing]); [apply digest_hex|apply reserved_own|by vm_compute].
Defined.

Definition isalnum (c : Z) : bool := (97 <=? c)%Z && (c <=? 122)%Z.

Definition mails : list eml_item :=
  [EmlItem (u "AAMk=") (u "Re: ../x") (inr [Byte.x41]); EmlItem (u "AAMl=") [] (inl (u "FileNotFoundError"))].

Lemma loose_messages_are_exported_witness :
  ∃ st' members, eml_steps digest isalnum (u "In/..") (FolderState [] 0 [] [] []) mails = Ok st' ∧
    f_members st' = f_members (FolderState [] 0 [] [] []) ++ members ∧
    map content_of members = omap (λ it, match ei_built it with inr eml => Some (inl eml) | inl _ => None end) mails ∧
    Forall (λ m, safe_name ARCNAME_RESERVED (member_name m)) members ∧
    f_exported st' = f_exported (FolderState [] 0 [] [] []) + length members ∧
    f_failed st' = f_failed (FolderState [] 0 [] [] []) ++
      omap (λ it, match ei_built it with inl err => Some (ei_id it, err) | inr _ => None end) mails ∧
    f_exported st' + length (f_failed st') =
      f_exported (FolderState [] 0 [] [] []) + length (f_failed (FolderState [] 0 [] [] [])) + length mails.
Proof. apply (loose_messages_are_exported digest isalnum); [apply digest_hex|apply reserved_own]. Defined.

End ExportExamples.
