(* ===== verification/FolderResolver.v ===== *)
(** * Resolving a selection

    [src/shared/folder_resolver.py]: the items and folders ticked in the user interface are
    turned into the rows of the snapshot they stand for, by one query whose folder patterns
    are escaped for [LIKE]. The rows of the snapshot (its effective inventory) are an
    argument; reading an identifier is a parameter. *)

From S2P Require Import Prelude ArchiveNames.
Local Open Scope nat_scope.

(** ** [LIKE] with an escape character *)

Definition LIKE_ESCAPE : Z := BACKSLASH.
Definition PERCENT : Z := 37.

(** Some rest of the text matches. *)
Fixpoint some_suffix (m : ustr → bool) (s : ustr) : bool :=
  m s || match s with _ :: s => some_suffix m s | [] => false end.

Fixpoint like (pattern : ustr) (s : ustr) {struct pattern} : bool :=
  match pattern with
  | [] => bool_decide (s = [])
  | c :: p =>
    if decide (c = LIKE_ESCAPE) then
      match p, s with
      | d :: p, x :: s => bool_decide (x = d) && like p s
      | _, _ => false
      end
    else if decide (c = PERCENT) then some_suffix (like p) s
    else match s with
      | x :: s => (bool_decide (c = UNDERSCORE) || bool_decide (x = c)) && like p s
      | [] => false
      end
  end.

(** [value.replace(a, s)] for one character [a]. *)
Definition replace_with (a : Z) (t : ustr) (s : ustr) : ustr := concat (map (λ c, if decide (c = a) then t else [c]) s).

Definition escape_like (value : ustr) : ustr :=
  replace_with UNDERSCORE [LIKE_ESCAPE; UNDERSCORE]
    (replace_with PERCENT [LIKE_ESCAPE; PERCENT] (replace_with LIKE_ESCAPE [LIKE_ESCAPE; LIKE_ESCAPE] value)).

(** ** The query *)

Definition rstrip_slashes (s : ustr) : ustr := drop_while_end is_slash s.

(** [_prefix_and_exact_for]. *)
Definition prefix_and_exact_for (folder_paths : list ustr) : list ustr * list ustr :=
  let kept := filter (λ raw, strip raw ≠ []) folder_paths in
  (map (λ raw, let stripped := rstrip_slashes raw in if decide (stripped = []) then u "/%" else escape_like stripped ++ u "/%") kept,
   map (λ raw, let stripped := rstrip_slashes raw in if decide (stripped = []) then u "/" else stripped) kept).

Section Resolver.
(** [uuid.UUID], on the texts it accepts. *)
Context (parse_uuid : ustr → option Z).

Record item_row := ItemRow { ir_id : Z; ir_folder_path : option ustr }.

(** [_to_uuids]. *)
Definition to_uuids (values : list ustr) : list Z := omap parse_uuid values.

(** The condition of the statement; a comparison with NULL selects nothing. *)
Definition clause (item_uuids : list Z) (prefixes exacts : list ustr) (r : item_row) : bool :=
  bool_decide (ir_id r ∈ item_uuids) ||
  match ir_folder_path r with
  | Some path => existsb (λ p, like p path) prefixes || bool_decide (path ∈ exacts)
  | None => false
  end.

Definition resolve_selection (inventory : list item_row) (item_ids folder_paths excluded_item_ids : list ustr) : list item_row :=
  if decide (item_ids = [] ∧ folder_paths = []) then []
  else
    let item_uuids := to_uuids item_ids in
    let excluded_uuids := to_uuids excluded_item_ids in
    let '(prefixes, exacts) := prefix_and_exact_for folder_paths in
    if decide (item_uuids = [] ∧ prefixes = [] ∧ exacts = []) then []
    else
      let rows := filter (λ r, clause item_uuids prefixes exacts r = true) inventory in
      filter (λ r, ir_id r ∉ excluded_uuids) rows.
End Resolver.

(** ** Patterns *)

Lemma replace_with_app a t s1 s2 : replace_with a t (s1 ++ s2) = replace_with a t s1 ++ replace_with a t s2.
Proof. unfold replace_with. by rewrite map_app, concat_app. Qed.

Lemma escape_like_app s1 s2 : escape_like (s1 ++ s2) = escape_like s1 ++ escape_like s2.
Proof. unfold escape_like. by rewrite !replace_with_app. Qed.

(** A character that is no operator stands for itself. *)
Lemma like_plain_char c p s :
  c ≠ LIKE_ESCAPE → c ≠ PERCENT → c ≠ UNDERSCORE →
  like (c :: p) s = match s with x :: s => bool_decide (x = c) && like p s | [] => false end.
Proof.
  intros Hb Hp Hu. cbn [like]. rewrite !decide_False by done. destruct s as [|x s]; [done|].
  by rewrite (bool_decide_eq_false_2 (c = UNDERSCORE)).
Qed.

(** An escaped character stands for itself. *)
Lemma like_escaped_char c p s :
  like (escape_like [c] ++ p) s = match s with x :: s => bool_decide (x = c) && like p s | [] => false end.
Proof.
  unfold escape_like, replace_with. cbn [map concat].
  destruct (decide (c = LIKE_ESCAPE)) as [->|Hb]; [by destruct s|]. cbn [app map concat].
  destruct (decide (c = PERCENT)) as [->|Hp]; [by destruct s|]. cbn [app map concat].
  destruct (decide (c = UNDERSCORE)) as [->|Hu]; [by destruct s|]. by apply like_plain_char.
Qed.

Lemma like_escaped_text v p : ∀ s, like (escape_like v ++ p) s = true ↔ ∃ r, s = v ++ r ∧ like p r = true.
Proof.
  induction v as [|c v IH]; intros s.
  - change (escape_like [] ++ p) with p. split; [intros H; by exists s|by intros (r & -> & H)].
  - change (c :: v) with ([c] ++ v). rewrite escape_like_app, <- app_assoc, like_escaped_char.
    destruct s as [|x s]; [split; [done|by intros (r & [=] & _)]|].
    rewrite andb_true_iff, bool_decide_eq_true, IH. split.
    + intros (-> & r & -> & H). exists r. by split.
    + intros (r & [= -> ->] & H). split; [done|]. by exists r.
Qed.

Lemma like_anything s : like [PERCENT] s = true.
Proof.
  simpl. assert (∀ t, some_suffix (λ s, bool_decide (s = [])) t = true) as H; [|apply H].
  intros t. induction t as [|x t IH]; [done|]. cbn [some_suffix]. rewrite IH. by destruct (bool_decide _).
Qed.

(** The pattern of a folder selects what is below it, whatever characters its name has. *)
Lemma like_below v path : like (escape_like v ++ u "/%") path = true ↔ ∃ r, path = v ++ [SLASH] ++ r.
Proof.
  rewrite like_escaped_text. change (u "/%") with [SLASH; PERCENT].
  setoid_rewrite (like_plain_char SLASH [PERCENT]); [|done..]. split.
  - intros (r & -> & H). destruct r as [|x r]; [done|]. apply andb_true_iff in H as [->%bool_decide_eq_true _]. by exists r.
  - intros (r & ->). exists ([SLASH] ++ r). split; [done|]. cbn [app]. by rewrite bool_decide_eq_true_2, like_anything.
Qed.

(** ** What a selection selects *)

(** The folder of a row is the ticked one or below it; the root is ticked as a slash. *)
Definition in_folder (raw path : ustr) : Prop :=
  let p := rstrip_slashes raw in
  path = (if decide (p = []) then [SLASH] else p) ∨ ∃ r, path = p ++ [SLASH] ++ r.

Lemma clause_folder folder_paths path :
  let '(prefixes, exacts) := prefix_and_exact_for folder_paths in
  existsb (λ p, like p path) prefixes || bool_decide (path ∈ exacts) = true ↔
  ∃ raw, raw ∈ folder_paths ∧ strip raw ≠ [] ∧ in_folder raw path.
Proof.
  unfold prefix_and_exact_for. cbv zeta. set (kept := filter _ folder_paths).
  assert (Hk : ∀ raw, raw ∈ kept ↔ raw ∈ folder_paths ∧ strip raw ≠ []).
  { intros raw. unfold kept. rewrite list_elem_of_filter. tauto. }
  rewrite orb_true_iff, bool_decide_eq_true, existsb_elem. unfold in_folder. split.
  - intros [(p & (raw & -> & Hin)%list_elem_of_fmap & Hl)|(raw & Hr & Hin)%list_elem_of_fmap].
    + exists raw. apply Hk in Hin as [? ?]. split; [done|]. split; [done|]. right. cbv zeta in Hl.
      destruct (decide (rstrip_slashes raw = [])) as [->|_]; [by apply (like_below []) in Hl|by apply like_below in Hl].
    + exists raw. apply Hk in Hin as [? ?]. split; [done|]. split; [done|]. by left.
  - intros (raw & Hin & Hne & [->|Hr]).
    + right. apply list_elem_of_fmap. exists raw. split; [done|]. by apply Hk.
    + left. eexists. split; [apply list_elem_of_fmap; exists raw; split; [reflexivity|by apply Hk]|]. cbv zeta.
      destruct (decide (rstrip_slashes raw = [])) as [He|_]; [apply (like_below []); by rewrite He in Hr|by apply like_below].
Qed.

(** C38: A selection resolves to exactly the rows the user ticked: a row of the inventory is
    selected if its identifier was picked, or its folder is a ticked folder or lies below
    one (a sibling whose name merely begins like it, or matches it as a pattern, does
    not), and its identifier was not un-ticked; each row is selected once, in the order of
    the inventory, and unreadable identifiers and blank paths select nothing. *)
Theorem selection_is_what_was_ticked parse_uuid inventory item_ids folder_paths excluded :
  let selected := resolve_selection parse_uuid inventory item_ids folder_paths excluded in
  (∀ r, r ∈ selected ↔ r ∈ inventory ∧ (ir_id r ∉ to_uuids parse_uuid excluded) ∧
    (ir_id r ∈ to_uuids parse_uuid item_ids ∨
     ∃ raw path, raw ∈ folder_paths ∧ strip raw ≠ [] ∧ ir_folder_path r = Some path ∧ in_folder raw path)) ∧
  sublist selected inventory.
Proof.
  cbv zeta. unfold resolve_selection.
  assert (Hclause : ∀ r, let '(prefixes, exacts) := prefix_and_exact_for folder_paths in
    clause (to_uuids parse_uuid item_ids) prefixes exacts r = true ↔
    (ir_id r ∈ to_uuids parse_uuid item_ids ∨
     ∃ raw path, raw ∈ folder_paths ∧ strip raw ≠ [] ∧ ir_folder_path r = Some path ∧ in_folder raw path)).
  { intros r. destruct (prefix_and_exact_for folder_paths) as [prefixes exacts] eqn:E. unfold clause.
    rewrite orb_true_iff, bool_decide_eq_true. destruct (ir_folder_path r) as [path|].
    - pose proof (clause_folder folder_paths path) as Hf. rewrite E in Hf. rewrite Hf. naive_solver.
    - naive_solver. }
  case_decide as H0.
  - destruct H0 as [-> ->]. split; [|apply sublist_nil_l]. intros r. split; [by intros ?%not_elem_of_nil|].
    intros (_ & _ & [H|(raw & path & H & _)]); by apply not_elem_of_nil in H.
  - destruct (prefix_and_exact_for folder_paths) as [prefixes exacts] eqn:E. case_decide as H1.
    + destruct H1 as (H1 & -> & ->). split; [|apply sublist_nil_l]. intros r. split; [by intros ?%not_elem_of_nil|].
      intros (_ & _ & H%Hclause). unfold clause in H. rewrite H1 in H. by destruct (ir_folder_path r).
    + split.
      * intros r. rewrite !list_elem_of_filter, Hclause. tauto.
      * etrans; apply sublist_filter.
Qed.

(** ** Witnesses *)

Module ResolverExamples.

Definition parse_uuid (s : ustr) : option Z := match s with [c] => Some c | _ => None end.

Definition inventory : list item_row := [
  ItemRow 1 (Some (u "/HR_2026")); ItemRow 2 (Some (u "/HR_2026/pay")); ItemRow 3 (Some (u "/HRX2026/pay"));
  ItemRow 4 (Some (u "/HR_2026 old")); ItemRow 5 None; ItemRow 6 (Some (u "/HR_2026/pay"))].

Example ticked_folder :
  map ir_id (resolve_selection parse_uuid inventory [[5%Z]; u "junk"] [u "/HR_2026/"; u "  "] [[6%Z]]) = [1; 2; 5]%Z.
Proof. by vm_compute. Qed.

End ResolverExamples.
