(* ===== verification/DbRetry.v ===== *)
(** * Retrying database operations

    [src/shared/db_retry.py]: an exception and what it wraps are flattened and classified
    by class name, flag and message; a transient failure is retried a bounded number of
    times, a transaction only after a deadlock or serialization abort. Exceptions live in
    a heap, because they may wrap each other in a cycle. *)

From Stdlib Require Import QArith Qcanon.
From S2P Require Import Prelude Rational.
Local Open Scope nat_scope.

(** ** Exceptions *)

Record exc := Exc {
  e_class : string;
  (** The message in lower case. *)
  e_text : string;
  e_orig : option nat;
  e_cause : option nat;
  e_context : option nat;
  e_connection_invalidated : bool;
  e_sqlstate : option string;
  e_pgcode : option string;
}.

Abbreviation heap := (gmap nat exc).

Definition TRANSIENT_DB_EXC_NAMES : list string := [
  "ConnectionDoesNotExistError"; "ConnectionFailureError"; "ConnectionRejectionError"; "CannotConnectNowError";
  "TooManyConnectionsError"; "PostgresConnectionError"; "InterfaceError"; "OperationalError"; "DisconnectionError";
  "InvalidCachedStatementError"].

Definition TRANSIENT_DB_MSG_PATTERNS : list string := [
  "connection was closed in the middle of operation"; "connection is closed"; "the connection is closed";
  "connection already closed"; "server closed the connection unexpectedly";
  "terminating connection due to administrator command"; "terminating connection due to unexpected postmaster exit";
  "queuepool limit of size"; "connection pool is closed"; "ssl connection has been closed unexpectedly";
  "cannot perform operation: another operation is in progress"; "canceling statement due to statement timeout";
  "too many connections for role"; "the database system is starting up"; "the database system is shutting down"].

Definition PERMANENT_DB_EXC_NAMES : list string := [
  "IntegrityError"; "UniqueViolationError"; "ForeignKeyViolationError"; "NotNullViolationError"; "CheckViolationError";
  "ProgrammingError"; "UndefinedColumnError"; "UndefinedTableError"; "UndefinedFunctionError"; "SyntaxOrAccessError";
  "PostgresSyntaxError"; "DataError"; "InvalidTextRepresentationError"; "NumericValueOutOfRangeError";
  "StringDataRightTruncationError"; "InsufficientPrivilegeError"; "InvalidPasswordError"; "InvalidCatalogNameError";
  "InvalidAuthorizationSpecificationError"].

Definition MAX_CAUSE_DEPTH : nat := 8.

(** The loop of [_chain]; [None] when the fuel runs out. *)
Fixpoint chain_loop (h : heap) (fuel : nat) (out queue : list nat) : option (list nat) :=
  match queue with
  | [] => Some out
  | cur :: queue =>
    if decide (MAX_CAUSE_DEPTH ≤ length out) then Some out
    else
      match fuel with
      | 0 => None
      | S fuel =>
        match h !! cur with
        | None => chain_loop h fuel out queue
        | Some e =>
          if decide (cur ∈ out) then chain_loop h fuel out queue
          else
            let out := out ++ [cur] in
            let next := filter (λ i, i ∉ out) (omap id [e_orig e; e_cause e; e_context e]) in
            chain_loop h fuel out (queue ++ next)
        end
      end
  end.

(** One entry of the queue for the start, three for each exception flattened. *)
Definition CHAIN_FUEL : nat := 1 + 3 * MAX_CAUSE_DEPTH.

Definition chain (h : heap) (e : option nat) : list nat :=
  match e with Some i => default [] (chain_loop h CHAIN_FUEL [] [i]) | None => [] end.

Definition links (h : heap) (e : option nat) : list exc := omap (λ i, h !! i) (chain h e).

Fixpoint str_contains (sub s : string) : bool :=
  String.prefix sub s || match s with String _ s => str_contains sub s | EmptyString => false end.

(** [is_transient_db_error]. *)
Definition is_transient_db_error (h : heap) (e : option nat) : bool :=
  match e with
  | None => false
  | Some _ =>
    let ls := links h e in
    let names := map e_class ls in
    if existsb (λ n, bool_decide (n ∈ PERMANENT_DB_EXC_NAMES)) names then false
    else if existsb (λ n, bool_decide (n ∈ TRANSIENT_DB_EXC_NAMES)) names then true
    else if existsb e_connection_invalidated ls then true
    else
      let haystack := String.concat " " (map e_text ls) in
      existsb (λ p, str_contains p haystack) TRANSIENT_DB_MSG_PATTERNS
  end.

(** An attribute that is missing, [None] or empty is no code. *)
Definition code_of (e : exc) : option string :=
  let truthy o := match o with Some s => if decide (s = "") then None else Some s | None => None end in
  match truthy (e_sqlstate e) with Some s => Some s | None => truthy (e_pgcode e) end.

Definition first_db_sqlstate (h : heap) (e : option nat) : option string := head (omap code_of (links h e)).

Definition is_retryable_db_transaction_error (h : heap) (e : option nat) : bool :=
  match first_db_sqlstate h e with Some c => bool_decide (c ∈ ["40P01"; "40001"]) | None => false end.

(** ** The retry loops *)

Section Retry.
Context {A : Type} (h : heap).
(** What the operation does on each attempt, counted from 1. *)
Context (op : nat → result nat A).

(** The outcome, the attempts made and the sleeps between them. *)
Record run := Run { r_outcome : result nat A; r_attempts : nat; r_sleeps : list Qc }.

(** The loop both wrappers are: the attempt's number, the attempts left after it, which
    failures are tried again and the sleep before that. *)
Fixpoint attempts_loop (retryable : nat → bool) (delay : nat → Qc) (remaining attempt : nat) (sleeps : list Qc) : run :=
  match op attempt with
  | Ok a => Run (Ok a) attempt sleeps
  | Err e =>
    match remaining with
    | 0 => Run (Err e) attempt sleeps
    | S remaining =>
      if retryable e then attempts_loop retryable delay remaining (attempt + 1) (sleeps ++ [delay attempt])
      else Run (Err e) attempt sleeps
    end
  end.

Definition run_with_db_retry (attempts : Z) (base_delay max_delay : Qc) : run :=
  attempts_loop (λ e, is_transient_db_error h (Some e))
    (λ attempt, Qcmin max_delay (base_delay * Q2Qc (inject_Z (2 ^ Z.of_nat (attempt - 1))))%Qc)
    (Z.to_nat (Z.max attempts 1) - 1) 1 [].

(** [run_owned_db_operation]: the sleep is drawn from a range that grows with the attempt;
    [None] is the error for a number of attempts that is not positive. *)
Context (uniform : Qc → Qc → nat → Qc).

Definition run_owned_db_operation (attempts : Z) : option run :=
  if (attempts <? 1)%Z then None
  else Some (attempts_loop (λ e, is_retryable_db_transaction_error h (Some e))
    (λ attempt, uniform (Q2Qc (1 # 20)) (Qcmin (Q2Qc (1 # 2)) (Q2Qc (1 # 20) * Q2Qc (inject_Z (2 ^ Z.of_nat attempt)))%Qc) attempt)
    (Z.to_nat (Z.min attempts 3) - 1) 1 []).
End Retry.
Arguments Run {A}.
Arguments r_outcome {A}.
Arguments r_attempts {A}.
Arguments r_sleeps {A}.

(** ** Flattening ends *)

Lemma chain_loop_total h fuel : ∀ out queue,
  length queue + 3 * (MAX_CAUSE_DEPTH - length out) ≤ fuel → is_Some (chain_loop h fuel out queue).
Proof.
  induction fuel as [|fuel IH]; intros out queue Hf.
  - destruct queue as [|c queue]; [by eexists|]. exfalso. cbn [length] in Hf. lia.
  - destruct queue as [|c queue]; [by eexists|]. cbn [chain_loop]. case_decide as Hd; [by eexists|].
    unfold MAX_CAUSE_DEPTH in *. cbn [length] in Hf. destruct (h !! c) as [e|]; [|apply IH; lia].
    case_decide; [apply IH; lia|]. apply IH.
    assert (Hl : length (filter (λ i, i ∉ out ++ [c]) (omap id [e_orig e; e_cause e; e_context e])) ≤ 3).
    { etrans; [apply length_filter|]. destruct (e_orig e), (e_cause e), (e_context e); simpl; lia. }
    cbv zeta. set (next := filter _ _) in *. clearbody next. rewrite !length_app. cbn [length]. lia.
Qed.

Lemma chain_loop_in h fuel : ∀ out queue res,
  chain_loop h fuel out queue = Some res → out `prefix_of` res ∧ length res ≤ Nat.max (length out) MAX_CAUSE_DEPTH ∧
    (NoDup out → NoDup res).
Proof.
  induction fuel as [|fuel IH]; intros out queue res.
  - destruct queue; simpl; [|case_decide; [|done]]; intros [= <-]; (split; [done|split; [lia|done]]).
  - destruct queue as [|c queue]; cbn [chain_loop]; [intros [= <-]; split; [done|split; [lia|done]]|].
    case_decide as Hd; [intros [= <-]; split; [done|split; [lia|done]]|].
    destruct (h !! c) as [e|]; [|apply IH]. case_decide as Hin; [apply IH|]. intros H.
    destruct (IH _ _ _ H) as (H1 & H2 & H3). rewrite length_app in H2. simpl in H2.
    split; [etrans; [|exact H1]; by apply prefix_app_r|]. split; [lia|]. intros Hn. apply H3, NoDup_app. repeat split.
    + done.
    + intros x Hx ->%list_elem_of_singleton. done.
    + apply NoDup_singleton.
Qed.

(** The flattening of an exception ends, whatever wraps what: it has at most eight links,
    no link twice, and starts with the exception. *)
Lemma chain_spec h i e :
  h !! i = Some e →
  ∃ rest, chain h (Some i) = i :: rest ∧ length (chain h (Some i)) ≤ MAX_CAUSE_DEPTH ∧ NoDup (chain h (Some i)).
Proof.
  intros Hi. unfold chain.
  assert (Hstep : chain_loop h CHAIN_FUEL [] [i] =
    chain_loop h (3 * MAX_CAUSE_DEPTH) [i] ([] ++ filter (λ j, j ∉ [] ++ [i]) (omap id [e_orig e; e_cause e; e_context e]))).
  { change CHAIN_FUEL with (S (3 * MAX_CAUSE_DEPTH)). cbn [chain_loop]. rewrite Hi. done. }
  destruct (chain_loop_total h CHAIN_FUEL [] [i]) as [res Hres]; [by vm_compute; lia|]. rewrite Hres. simpl.
  rewrite Hstep in Hres. destruct (chain_loop_in _ _ _ _ _ Hres) as ([rest ->] & H2 & H3).
  exists rest. split; [done|]. split; [done|]. apply H3, NoDup_singleton.
Qed.

(** ** The loop *)

Lemma attempts_loop_spec {A} (op : nat → result nat A) retryable delay remaining : ∀ attempt sleeps,
  let r := attempts_loop op retryable delay remaining attempt sleeps in
  attempt ≤ r_attempts r ≤ attempt + remaining ∧ r_outcome r = op (r_attempts r) ∧
  (∀ k, attempt ≤ k < r_attempts r → ∃ e, op k = Err e ∧ retryable e = true) ∧
  (∀ e, r_outcome r = Err e → r_attempts r = attempt + remaining ∨ retryable e = false) ∧
  r_sleeps r = sleeps ++ map delay (seq attempt (r_attempts r - attempt)).
Proof.
  induction remaining as [|remaining IH]; intros attempt sleeps; cbv zeta; cbn [attempts_loop].
  - destruct (op attempt) as [a|e] eqn:E; cbn; rewrite Nat.sub_diag, app_nil_r; (split; [lia|]);
      (split; [done|]); (split; [lia|]); (split; [|done]); intros; [done|left; lia].
  - destruct (op attempt) as [a|e] eqn:E.
    { cbn. rewrite Nat.sub_diag, app_nil_r. split; [lia|]. split; [done|]. split; [lia|]. by split. }
    destruct (retryable e) eqn:Er.
    + destruct (IH (attempt + 1) (sleeps ++ [delay attempt])) as (H1 & H2 & H3 & H4 & H5).
      set (r := attempts_loop _ _ _ _ _ _) in *. split; [lia|]. split; [done|]. split; [|split].
      * intros k Hk. destruct (decide (k = attempt)) as [->|]; [by exists e|]. apply H3. lia.
      * intros e' He'. destruct (H4 _ He'); [left; lia|by right].
      * rewrite H5, <- app_assoc. f_equal. replace (r_attempts r - attempt) with (S (r_attempts r - (attempt + 1))) by lia.
        simpl. by rewrite Nat.add_1_r.
    + cbn. rewrite Nat.sub_diag, app_nil_r. split; [lia|]. split; [done|]. split; [lia|]. split; [|done].
      intros e' [= <-]. by right.
Qed.

Definition has_permanent_link (h : heap) (e : nat) : Prop := ∃ l, l ∈ links h (Some e) ∧ e_class l ∈ PERMANENT_DB_EXC_NAMES.

Lemma permanent_is_not_transient h e : has_permanent_link h e → is_transient_db_error h (Some e) = false.
Proof.
  intros (l & Hl & Hc). unfold is_transient_db_error. cbv zeta.
  assert (existsb (λ n, bool_decide (n ∈ PERMANENT_DB_EXC_NAMES)) (map e_class (links h (Some e))) = true) as ->; [|done].
  apply existsb_elem. exists (e_class l). split; [by apply list_elem_of_fmap; exists l|by apply bool_decide_eq_true].
Qed.

(** Retrying a database read neither hides a failure nor goes on for ever: the operation
    runs between once and [attempts] times; every run before the last failed transiently,
    and with nothing permanent anywhere in what the failure wraps; the outcome is that of
    the last run, unchanged; a failure is returned only when it is not transient or the
    attempts are used up; and no sleep is longer than [max_delay]. *)
Theorem retries_are_bounded {A} h (op : nat → result nat A) attempts base_delay max_delay :
  let r := run_with_db_retry h op attempts base_delay max_delay in
  (1 ≤ Z.of_nat (r_attempts r) ≤ Z.max attempts 1)%Z ∧ r_outcome r = op (r_attempts r) ∧
  (∀ k, 1 ≤ k < r_attempts r → ∃ e, op k = Err e ∧ is_transient_db_error h (Some e) = true ∧ ¬ has_permanent_link h e) ∧
  (∀ e, r_outcome r = Err e → Z.of_nat (r_attempts r) = Z.max attempts 1 ∨ is_transient_db_error h (Some e) = false) ∧
  length (r_sleeps r) = r_attempts r - 1 ∧ Forall (λ d, (d <= max_delay)%Qc) (r_sleeps r).
Proof.
  cbv zeta. unfold run_with_db_retry. set (retryable := λ e, is_transient_db_error h (Some e)). set (delay := λ k : nat, _).
  destruct (attempts_loop_spec op retryable delay (Z.to_nat (Z.max attempts 1) - 1) 1 []) as (H1 & H2 & H3 & H4 & H5).
  set (r := attempts_loop _ _ _ _ _ _) in *. split; [lia|]. split; [done|]. split; [|split; [|split]].
  - intros k Hk. destruct (H3 k Hk) as (e & He & Ht). exists e. split; [done|]. split; [done|]. intros Hp.
    apply permanent_is_not_transient in Hp. unfold retryable in Ht. by rewrite Hp in Ht.
  - intros e He. destruct (H4 e He); [left; lia|by right].
  - by rewrite H5, length_app, length_map, length_seq.
  - rewrite H5. apply Forall_forall. intros d Hd. apply list_elem_of_fmap in Hd as (k & -> & _). unfold delay. qcases; qclra.
Qed.

(** A transaction is replayed at most twice, and only after the database said that it was
    aborted by a deadlock or a serialization failure. *)
Theorem transactions_are_replayed_after_aborts {A} h (op : nat → result nat A) uniform attempts :
  match run_owned_db_operation h op uniform attempts with
  | None => (attempts < 1)%Z
  | Some r =>
    (1 ≤ Z.of_nat (r_attempts r) ≤ Z.min attempts 3)%Z ∧ r_outcome r = op (r_attempts r) ∧
    (∀ k, 1 ≤ k < r_attempts r → ∃ e c, op k = Err e ∧ first_db_sqlstate h (Some e) = Some c ∧ c ∈ ["40P01"; "40001"]) ∧
    (∀ e, r_outcome r = Err e → Z.of_nat (r_attempts r) = Z.min attempts 3 ∨ is_retryable_db_transaction_error h (Some e) = false)
  end.
Proof.
  unfold run_owned_db_operation. destruct (attempts <? 1)%Z eqn:E; bools; [done|].
  set (retryable := λ e, is_retryable_db_transaction_error h (Some e)). set (delay := λ k : nat, _).
  destruct (attempts_loop_spec op retryable delay (Z.to_nat (Z.min attempts 3) - 1) 1 []) as (H1 & H2 & H3 & H4 & H5).
  set (r := attempts_loop _ _ _ _ _ _) in *. split; [lia|]. split; [done|]. split.
  - intros k Hk. destruct (H3 k Hk) as (e & He & Ht). exists e. unfold retryable, is_retryable_db_transaction_error in Ht.
    destruct (first_db_sqlstate h (Some e)) as [c|]; [|done]. exists c. split; [done|]. split; [done|]. by apply bool_decide_eq_true in Ht.
  - intros e He. destruct (H4 e He); [left; lia|by right].
Qed.

(** ** Examples *)

Module DbRetryExamples.

(** An integrity error inside a wrapper that looks transient, and a dropped connection
    whose context is itself. *)
Definition h : heap := <[0 := Exc "OperationalError" "connection is closed" (Some 1) None None false None None]>
  (<[1 := Exc "UniqueViolationError" "duplicate key" None None None false (Some "23505") None]>
  (<[2 := Exc "DBAPIError" "ssl connection has been closed unexpectedly" None None (Some 2) false None None]> ∅)).

Example nested_integrity_error_is_permanent :
  is_transient_db_error h (Some 0) = false ∧ is_transient_db_error h (Some 2) = true ∧ chain h (Some 0) = [0; 1] ∧ chain h (Some 2) = [2].
Proof. by vm_compute. Qed.

Example dropped_connection_is_retried :
  r_outcome (run_with_db_retry h (λ k, if decide (k = 3) then Ok k else Err 2) 3 (Q2Qc 1) (Q2Qc 4)) = Ok 3.
Proof. by vm_compute. Qed.

End DbRetryExamples.
