(* ===== verification/PolicyBinding.v ===== *)
(** * Matching resources with policies

    [src/shared/resource_group_matcher.py] evaluates the rules of a resource group, and
    [_apply_policy_to_matching] and [_auto_bind_new_resource] of
    [src/services/resource-service/main.py] bind resources to policies by them. Lower-
    and upper-casing and the printing of tag values are parameters. *)

From S2P Require Import Prelude ArchiveNames Mbox Export.
Local Open Scope nat_scope.

(** ** Rules *)

(** A resource as the matcher sees it: a row of the table, or the dictionary of a
    discovery run. The metadata are the texts found under the keys the matcher reads. *)
Record resource := Resource {
  rs_id : Z;
  rs_tenant : Z;
  rs_policy : option Z;
  rs_is_obj : bool;
  rs_display_name : option ustr;
  rs_name : option ustr;
  rs_email : option ustr;
  rs_external_id : option ustr;
  rs_type : option ustr;
  rs_meta : gmap string ustr;
  rs_tags : list ustr;
}.
Global Instance resource_eq_decision : EqDecision resource.
Proof. solve_decision. Defined.

Record rule := Rule { ru_field : ustr; ru_operator : ustr; ru_value : ustr }.
Global Instance rule_eq_decision : EqDecision rule.
Proof. solve_decision. Defined.

Record group := Group {
  gr_id : Z;
  gr_tenant : Z;
  gr_type : ustr;
  gr_rules : list rule;
  gr_combinator : ustr;
  gr_priority : Z;
  gr_enabled : bool;
}.
Global Instance group_eq_decision : EqDecision group.
Proof. solve_decision. Defined.

Inductive match_err := AttributeError.

Section Matcher.
Context (lower upper : ustr → ustr).

(** [a or b] of two texts that may be absent. *)
Definition first_text (a b : option ustr) : option ustr :=
  match a with Some s => if decide (s = []) then b else a | None => b end.

(** [_get_field]. The [metadata] of a row is the registry of the ORM, which has no [get];
    the branches that do not look into it are unaffected. *)
Definition get_field (r : resource) (field : ustr) : result match_err (option ustr) :=
  let from_meta (o : option ustr) : result match_err (option ustr) := if rs_is_obj r then Err AttributeError else Ok o in
  if decide (field = u "NAME") then Ok (first_text (rs_display_name r) (rs_name r))
  else if decide (field = u "EMAIL") then Ok (rs_email r)
  else if decide (field = u "EXTERNAL_ID") then Ok (rs_external_id r)
  else if decide (field = u "RESOURCE_TYPE") then Ok (rs_type r)
  else if decide (field = u "DEPARTMENT") then from_meta (first_text (rs_meta r !! "department") (rs_meta r !! "Department"))
  else if decide (field = u "JOB_TITLE") then from_meta (first_text (rs_meta r !! "job_title") (rs_meta r !! "jobTitle"))
  else if decide (field = u "CITY") then from_meta (first_text (rs_meta r !! "city") (rs_meta r !! "City"))
  else if decide (field = u "COUNTRY") then from_meta (first_text (rs_meta r !! "country") (rs_meta r !! "usageLocation"))
  else if decide (field = u "TAG_VALUE") then from_meta (let s := join_on 44 (rs_tags r) in if decide (s = []) then None else Some s)
  else Ok None.

Definition apply_operator (lhs : option ustr) (operator rhs : ustr) : bool :=
  match lhs with
  | None => bool_decide (operator ∈ [u "NOT_EQUALS"; u "NOT_CONTAINS"])
  | Some l =>
    let left := strip (lower l) in
    let right := strip (lower rhs) in
    if decide (operator = u "EQUALS") then bool_decide (left = right)
    else if decide (operator = u "NOT_EQUALS") then negb (bool_decide (left = right))
    else if decide (operator = u "CONTAINS") then contains right left
    else if decide (operator = u "NOT_CONTAINS") then negb (contains right left)
    else if decide (operator = u "STARTS_WITH") then prefix_of_list right left
    else if decide (operator = u "ENDS_WITH") then ends_with right left
    else if decide (operator = u "IN") then
      bool_decide (left ∈ map (λ v, lower (strip v)) (filter (λ v, strip v ≠ []) (split_on 44 right)))
    else false
  end.

Definition rule_outcome (r : resource) (ru : rule) : result match_err bool :=
  lhs ← get_field r (upper (ru_field ru));
  Ok (apply_operator lhs (upper (ru_operator ru)) (ru_value ru)).

(** [resource_matches_group]. *)
Definition resource_matches_group (r : resource) (rules : list rule) (combinator : ustr) : result match_err bool :=
  if decide (rules = []) then Ok false
  else
    let combinator := upper (or_else combinator (u "AND")) in
    outcomes ← mapR (rule_outcome r) rules;
    Ok (if decide (combinator = u "AND") then forallb id outcomes else existsb id outcomes).

(** [find_matching_groups]: the matching groups, by priority. *)
Fixpoint matching (r : resource) (groups : list group) : result match_err (list group) :=
  match groups with
  | [] => Ok []
  | g :: groups =>
    if negb (gr_enabled g) || bool_decide (gr_type g = u "STATIC") then matching r groups
    else
      m ← resource_matches_group r (gr_rules g) (gr_combinator g);
      rest ← matching r groups;
      Ok (if (m : bool) then g :: rest else rest)
  end.

Definition prio_le (a b : group) : Prop := (gr_priority a ≤ gr_priority b)%Z.
Global Instance prio_le_dec : RelDecision prio_le := λ a b, Z_le_dec (gr_priority a) (gr_priority b).

Definition find_matching_groups (r : resource) (groups : list group) : result match_err (list group) :=
  m ← matching r groups; Ok (merge_sort prio_le m).

(** ** Binding *)

(** The link table: the groups attached to each policy. *)
Definition attached (links : list (Z * Z)) (groups : list group) (policy : Z) : list group :=
  omap (λ l, if decide (l.2 = policy) then head (filter (λ g, gr_id g = l.1) groups) else None) links.

(** The first group of the list that matches decides. *)
Fixpoint any_group (r : resource) (groups : list group) : result match_err bool :=
  match groups with
  | [] => Ok false
  | g :: groups =>
    m ← resource_matches_group r (gr_rules g) (gr_combinator g);
    if m : bool then Ok true else any_group r groups
  end.

Definition CHUNK : nat := 1000.

(** The statement that binds a buffer of identifiers; the rows, and how many changed. *)
Definition with_policy (policy : Z) (r : resource) : resource :=
  Resource (rs_id r) (rs_tenant r) (Some policy) (rs_is_obj r) (rs_display_name r) (rs_name r) (rs_email r)
    (rs_external_id r) (rs_type r) (rs_meta r) (rs_tags r).
Definition bind_hit (ids : list Z) (r : resource) : bool := bool_decide (rs_id r ∈ ids) && bool_decide (rs_policy r = None).
Definition bind_ids (policy : Z) (ids : list Z) (rows : list resource) : list resource * nat :=
  (map (λ r, if bind_hit ids r then with_policy policy r else r) rows, length (filter (λ r, bind_hit ids r = true) rows)).

(** The streamed rows: each is matched, and a full buffer is written out. *)
Fixpoint stream_rows (policy : Z) (groups : list group) (stream : list resource) (buffer : list Z) (rows : list resource) (bound : nat)
    : result match_err (list resource * nat) :=
  match stream with
  | [] =>
    if decide (buffer = []) then Ok (rows, bound)
    else let '(rows, n) := bind_ids policy buffer rows in Ok (rows, bound + n)
  | r :: stream =>
    m ← any_group r groups;
    let buffer := if m : bool then buffer ++ [rs_id r] else buffer in
    if decide (CHUNK ≤ length buffer) then
      let '(rows, n) := bind_ids policy buffer rows in stream_rows policy groups stream [] rows (bound + n)
    else stream_rows policy groups stream buffer rows bound
  end.

(** [_apply_policy_to_matching] for a policy of [tenant] that applies itself. *)
Definition apply_policy_to_matching (links : list (Z * Z)) (groups : list group) (policy tenant : Z) (rows : list resource)
    : result match_err (list resource * nat) :=
  let gs := filter (λ g, gr_tenant g = tenant ∧ gr_enabled g = true) (attached links groups policy) in
  let dynamic := filter (λ g, upper (or_else (gr_type g) (u "DYNAMIC")) ≠ u "STATIC") gs in
  if decide (dynamic = []) then Ok (rows, 0)
  else stream_rows policy dynamic (filter (λ r, rs_tenant r = tenant ∧ rs_policy r = None) rows) [] rows 0.

(** [_auto_bind_new_resource]: [pols] are the enabled policies of the tenant that apply
    themselves, in the order of the query, with their enabled groups. *)
Fixpoint best_policy (r : resource) (pols : list (Z * list group)) (best : option Z) (best_priority : Z) : result match_err (option Z) :=
  match pols with
  | [] => Ok best
  | (pid, groups) :: pols =>
    m ← find_matching_groups r groups;
    match m with
    | g :: _ => if (gr_priority g <? best_priority)%Z then best_policy r pols (Some pid) (gr_priority g) else best_policy r pols best best_priority
    | [] => best_policy r pols best best_priority
    end
  end.

Definition auto_bind_new_resource (r : resource) (pols : list (Z * list group)) : result match_err (option Z) :=
  best_policy r pols None (10 ^ 9).
End Matcher.

(** ** Binding leaves assignments alone *)

Lemma bind_hit_nil r : bind_hit [] r = false.
Proof. unfold bind_hit. by rewrite bool_decide_eq_false_2 by apply not_elem_of_nil. Qed.

Lemma bind_ids_app policy a b rows :
  let '(rows1, n1) := bind_ids policy a rows in
  let '(rows2, n2) := bind_ids policy b rows1 in
  (rows2, n1 + n2) = bind_ids policy (a ++ b) rows.
Proof.
  unfold bind_ids. induction rows as [|r rows IH]; [done|]. injection IH as IH1 IH2.
  cbn [map]. rewrite !filter_cons. f_equal; [f_equal; [|done]|].
  - unfold bind_hit. destruct (decide (rs_policy r = None)) as [Hp|Hp].
    + rewrite (bool_decide_eq_true_2 (rs_policy r = None)), !andb_true_r by done.
      destruct (decide (rs_id r ∈ a)) as [Ha|Ha].
      * rewrite (bool_decide_eq_true_2 (rs_id r ∈ a)) by done. rewrite (bool_decide_eq_true_2 (rs_id r ∈ a ++ b)) by (apply elem_of_app; by left).
        simpl. by rewrite andb_false_r.
      * rewrite (bool_decide_eq_false_2 (rs_id r ∈ a)) by done. rewrite (bool_decide_eq_true_2 (rs_policy r = None)), andb_true_r by done.
        rewrite (bool_decide_ext (rs_id r ∈ a ++ b) (rs_id r ∈ b)); [done|]. rewrite elem_of_app. tauto.
    + rewrite (bool_decide_eq_false_2 (rs_policy r = None)), !andb_false_r by done. simpl.
      by rewrite (bool_decide_eq_false_2 (rs_policy r = None)), andb_false_r.
  - unfold bind_hit in *. destruct (decide (rs_policy r = None)) as [Hp|Hp].
    + rewrite (bool_decide_eq_true_2 (rs_policy r = None)), !andb_true_r by done.
      destruct (decide (rs_id r ∈ a)) as [Ha|Ha].
      * rewrite (bool_decide_eq_true_2 (rs_id r ∈ a)) by done. rewrite (bool_decide_eq_true_2 (rs_id r ∈ a ++ b)) by (apply elem_of_app; by left).
        rewrite !decide_True by done. simpl. rewrite andb_false_r, decide_False by done. lia.
      * rewrite (bool_decide_eq_false_2 (rs_id r ∈ a)) by done. rewrite (bool_decide_eq_true_2 (rs_policy r = None)), andb_true_r by done.
        rewrite (bool_decide_ext (rs_id r ∈ a ++ b) (rs_id r ∈ b)) by (rewrite elem_of_app; tauto).
        rewrite (decide_False (P := false = true)) by done. case_decide; simpl; lia.
    + rewrite (bool_decide_eq_false_2 (rs_policy r = None)), !andb_false_r by done.
      rewrite (decide_False (P := false = true)) by done. simpl.
      rewrite (bool_decide_eq_false_2 (rs_policy r = None)), andb_false_r by done. by rewrite decide_False.
Qed.

Section Sweep.
Context (lower upper : ustr → ustr).

Definition matches (groups : list group) (r : resource) : bool := from_ok false (any_group lower upper r groups).

Lemma bind_ids_nil policy rows : bind_ids policy [] rows = (rows, 0).
Proof using.
  clear. unfold bind_ids. f_equal.
  - induction rows as [|r rows IH]; [done|]. cbn [map]. by rewrite bind_hit_nil, IH.
  - induction rows as [|r rows IH]; [done|]. by rewrite filter_cons, bind_hit_nil, decide_False.
Qed.

(** Whatever the size of the buffer, the stream binds the identifiers of its matches. *)
Lemma stream_rows_spec policy groups stream : ∀ buffer rows bound rows' n,
  stream_rows lower upper policy groups stream buffer rows bound = Ok (rows', n) →
  let '(rows2, m) := bind_ids policy (buffer ++ map rs_id (filter (λ r, matches groups r = true) stream)) rows in
  rows' = rows2 ∧ n = bound + m.
Proof using.
  induction stream as [|r stream IH]; intros buffer rows bound rows' n; cbn [stream_rows].
  - rewrite filter_nil. cbn [map]. rewrite app_nil_r. case_decide as Hb; [subst; rewrite bind_ids_nil; intros [= <- <-]; by rewrite Nat.add_0_r|].
    destruct (bind_ids policy buffer rows) as [rows2 m]. by intros [= <- <-].
  - intros (m & Hm & H)%bind_Ok. assert (Hmat : matches groups r = m) by (unfold matches; by rewrite Hm).
    rewrite filter_cons, Hmat.
    set (buffer' := if m then buffer ++ [rs_id r] else buffer) in *.
    assert (Hbuf : buffer ++ map rs_id (if decide (m = true) then r :: filter (λ r, matches groups r = true) stream
        else filter (λ r, matches groups r = true) stream) = buffer' ++ map rs_id (filter (λ r, matches groups r = true) stream)).
    { subst buffer'. destruct m; [rewrite decide_True, <- app_assoc by done|rewrite decide_False by done]; done. }
    rewrite Hbuf. clear Hbuf. clearbody buffer'. destruct (decide (CHUNK ≤ length buffer')).
    + destruct (bind_ids policy buffer' rows) as [rows1 n1] eqn:E1. specialize (IH _ _ _ _ _ H).
      pose proof (bind_ids_app policy buffer' ([] ++ map rs_id (filter (λ r, matches groups r = true) stream)) rows) as Happ.
      rewrite E1 in Happ. destruct (bind_ids policy ([] ++ _) rows1) as [rows2 n2]. cbn [app] in Happ. rewrite <- Happ.
      destruct IH as [-> ->]. split; [done|lia].
    + by apply IH.
Qed.

Definition dynamic_groups (links : list (Z * Z)) (groups : list group) (policy tenant : Z) : list group :=
  filter (λ g, upper (or_else (gr_type g) (u "DYNAMIC")) ≠ u "STATIC")
    (filter (λ g, gr_tenant g = tenant ∧ gr_enabled g = true) (attached links groups policy)).

(** The rows a sweep may bind, and the ones it binds. *)
Definition sweep_target (links : list (Z * Z)) (groups : list group) (policy tenant : Z) (r : resource) : bool :=
  bool_decide (rs_tenant r = tenant) && bool_decide (rs_policy r = None) && matches (dynamic_groups links groups policy tenant) r.

Lemma any_group_nil r : any_group lower upper r [] = Ok false.
Proof using. done. Qed.

Lemma sweep_exact links groups policy tenant rows rows' n :
  NoDup (map rs_id rows) → apply_policy_to_matching lower upper links groups policy tenant rows = Ok (rows', n) →
  rows' = map (λ r, if sweep_target links groups policy tenant r then with_policy policy r else r) rows ∧
  n = length (filter (λ r, sweep_target links groups policy tenant r = true) rows).
Proof using.
  intros Hnd. unfold apply_policy_to_matching. cbv zeta. fold (dynamic_groups links groups policy tenant).
  unfold sweep_target. set (gs := dynamic_groups links groups policy tenant). case_decide as He.
  - intros [= <- <-]. rewrite He.
    assert (Hz : ∀ r, bool_decide (rs_tenant r = tenant) && bool_decide (rs_policy r = None) && matches [] r = false).
    { intros r. change (matches [] r) with false. apply andb_false_r. }
    clear -Hz. induction rows as [|r rows [IH1 IH2]]; [done|].
    cbn [map]. rewrite filter_cons, Hz, decide_False by done. by rewrite <- IH1, <- IH2.
  - intros H%stream_rows_spec. cbn [app] in H. unfold bind_ids in H. destruct H as [-> ->].
    set (ids := map rs_id _).
    assert (Hhit : ∀ r, r ∈ rows → bind_hit ids r = bool_decide (rs_tenant r = tenant) && bool_decide (rs_policy r = None) && matches gs r).
    { intros r Hr. unfold bind_hit. apply Bool.eq_iff_eq_true. rewrite !andb_true_iff, !bool_decide_eq_true. unfold ids.
      rewrite list_elem_of_fmap. split.
      - intros [(r2 & Hid & [Hm [[Ht Hp] Hin]%list_elem_of_filter]%list_elem_of_filter) Hpr].
        assert (r2 = r) as ->; [|done].
        apply list_elem_of_lookup in Hin as [i Hi]. apply list_elem_of_lookup in Hr as [j Hj].
        assert (i = j) as ->; [|congruence].
        eapply NoDup_lookup; [exact Hnd| |]; rewrite list_lookup_fmap; [rewrite Hi|rewrite Hj]; simpl; by f_equal.
      - intros [[Ht Hp] Hm]. split; [|done]. exists r. split; [done|]. apply list_elem_of_filter. split; [done|].
        apply list_elem_of_filter. by repeat split. }
    split.
    + apply map_ext_in. intros r Hr%list_elem_of_In. by rewrite Hhit.
    + simpl. f_equal. apply filter_ext_in. intros r Hr. by rewrite Hhit.
Qed.
End Sweep.

(** Applying a policy to matching resources never moves a resource that has a policy:
    the sweep changes exactly the unassigned resources of the tenant that match one of the
    policy's enabled dynamic groups, whatever the number of rows and buffers; nothing else
    of any row changes, and the returned count is the number of resources bound. *)
Theorem sweep_binds_only_unassigned lower upper links groups policy tenant rows rows' n :
  NoDup (map rs_id rows) → apply_policy_to_matching lower upper links groups policy tenant rows = Ok (rows', n) →
  Forall2 (λ r r', r' = (if sweep_target lower upper links groups policy tenant r then with_policy policy r else r) ∧
    (is_Some (rs_policy r) → r' = r)) rows rows' ∧
  n = length (filter (λ r, sweep_target lower upper links groups policy tenant r = true) rows).
Proof.
  intros Hnd H. destruct (sweep_exact _ _ _ _ _ _ _ _ _ Hnd H) as [-> ->]. split; [|done].
  clear. induction rows as [|r rows IH]; constructor; [|done]. split; [done|]. intros [p Hp].
  unfold sweep_target. by rewrite Hp, (bool_decide_eq_false_2 (Some p = None)), andb_false_r.
Qed.

(** A new resource is bound to a policy whose matching group has the least priority number. *)
Lemma best_policy_spec lower upper r pols : ∀ best bp res,
  best_policy lower upper r pols best bp = Ok res →
  (res = best ∧ ∀ pid gs g, (pid, gs) ∈ pols → head (from_ok [] (find_matching_groups lower upper r gs)) = Some g → (bp ≤ gr_priority g)%Z) ∨
  ∃ pid gs g, res = Some pid ∧ (pid, gs) ∈ pols ∧ head (from_ok [] (find_matching_groups lower upper r gs)) = Some g ∧ (gr_priority g < bp)%Z ∧
    ∀ pid' gs' g', (pid', gs') ∈ pols → head (from_ok [] (find_matching_groups lower upper r gs')) = Some g' → (gr_priority g ≤ gr_priority g')%Z.
Proof.
  induction pols as [|[pid gs] pols IH]; intros best bp res; cbn [best_policy].
  { intros [= <-]. left. split; [done|]. intros ???. by intros ?%not_elem_of_nil. }
  intros (m & Hm & H)%bind_Ok.
  assert (Hskip : ∀ best bp, best_policy lower upper r pols best bp = Ok res →
    (∀ g, head m = Some g → (bp ≤ gr_priority g)%Z) →
    (res = best ∧ ∀ pid' gs' g, (pid', gs') ∈ (pid, gs) :: pols → head (from_ok [] (find_matching_groups lower upper r gs')) = Some g → (bp ≤ gr_priority g)%Z) ∨
    ∃ pid' gs' g, res = Some pid' ∧ (pid', gs') ∈ pols ∧ head (from_ok [] (find_matching_groups lower upper r gs')) = Some g ∧ (gr_priority g < bp)%Z ∧
      ∀ pid'' gs'' g', (pid'', gs'') ∈ (pid, gs) :: pols → head (from_ok [] (find_matching_groups lower upper r gs'')) = Some g' → (gr_priority g ≤ gr_priority g')%Z).
  { intros b p Hb Hp. destruct (IH _ _ _ Hb) as [[H1 H2]|(pid' & gs' & g & H1 & H2 & H3 & H4 & H5)].
    - left. split; [done|]. intros pid' gs' g [[= -> ->]|Hin]%elem_of_cons Hg; [rewrite Hm in Hg; by apply Hp|by eapply H2].
    - right. exists pid', gs', g. repeat (split; [done|]). intros pid'' gs'' g' [[= -> ->]|Hin]%elem_of_cons Hg; [|by eapply H5].
      rewrite Hm in Hg. specialize (Hp _ Hg). lia. }
  destruct m as [|g m].
  - destruct (Hskip best bp H) as [?|(pid' & gs' & g & ? & ? & ?)]; [done|by left|right]. exists pid', gs', g. split; [done|]. split; [by right|done].
  - destruct (gr_priority g <? bp)%Z eqn:E; bools.
    + destruct (Hskip _ _ H) as [[-> H2]|(pid' & gs' & g' & ? & ? & ? & ? & ?)]; [by intros ? [= ->]| |].
      * right. exists pid, gs, g. split; [done|]. split; [left|]. by rewrite Hm.
      * right. exists pid', gs', g'. split; [done|]. split; [by right|]. split; [done|]. split; [lia|done].
    + destruct (Hskip _ _ H) as [?|(pid' & gs' & g' & ? & ? & ?)]; [intros ? [= ->]; lia|by left|]. right. exists pid', gs', g'.
      split; [done|]. split; [by right|done].
Qed.

(** ** Witness *)

Module BindingExamples.

Definition id_text (s : ustr) : ustr := s.
Definition res (i : Z) (p : option Z) (name : ustr) : resource := Resource i 7 p true (Some name) None None None None ∅ [].
Definition rows : list resource := [res 1 None (u "hr mail"); res 2 (Some 9%Z) (u "hr drive"); res 3 None (u "it")].
Definition hr : group := Group 5 7 (u "DYNAMIC") [Rule (u "NAME") (u "CONTAINS") (u "hr")] (u "AND") 10 true.

Example sweep_runs :
  apply_policy_to_matching id_text id_text [(5, 4)]%Z [hr] 4 7 rows = Ok ([res 1 (Some 4%Z) (u "hr mail"); res 2 (Some 9%Z) (u "hr drive"); res 3 None (u "it")], 1).
Proof. by vm_compute. Qed.

(** A rule on the department raises for a row of the table. *)
Example department_rule_raises :
  apply_policy_to_matching id_text id_text [(5, 4)]%Z
    [Group 5 7 (u "DYNAMIC") [Rule (u "DEPARTMENT") (u "EQUALS") (u "hr")] (u "AND") 10 true] 4 7 rows = Err AttributeError.
Proof. by vm_compute. Qed.

Lemma sweep_binds_only_unassigned_witness :
  Forall2 (λ r r', r' = (if sweep_target id_text id_text [(5, 4)]%Z [hr] 4 7 r then with_policy 4 r else r) ∧
    (is_Some (rs_policy r) → r' = r)) rows [res 1 (Some 4%Z) (u "hr mail"); res 2 (Some 9%Z) (u "hr drive"); res 3 None (u "it")] ∧
  1 = length (filter (λ r, sweep_target id_text id_text [(5, 4)]%Z [hr] 4 7 r = true) rows).
Proof.
  apply (sweep_binds_only_unassigned id_text id_text [(5, 4)]%Z [hr] 4 7 rows); [|by vm_compute].
  apply (bool_decide_unpack _). by vm_compute.
Defined.

End BindingExamples.
