(* ===== verification/PolicyApi.v ===== *)
(** * Policies through the API

    [src/shared/sla_validation.py] and the policy endpoints of
    [src/services/resource-service/main.py]: a JSON payload is validated, the transition to
    an immutable (WORM) policy is gated by a flag and a typed name, and the row is written
    together with the other rows its default flag concerns. A request either returns the
    new database or an error, on which the transaction rolls back. What the driver accepts
    for a column, casing, and the readers of numbers and identifiers are parameters; the
    notifications of the scheduler are best effort and left out. *)

From S2P Require Import Prelude ArchiveNames Mbox Export PolicyBinding.
Local Open Scope nat_scope.

(** ** Payloads *)

(** A value of a payload; lists, objects and fractional numbers are only told apart by
    being false. *)
Inductive json := JNull | JBool (b : bool) | JInt (z : Z) | JStr (s : ustr) | JOther (id : Z) (nonempty : bool).
Global Instance json_eq_decision : EqDecision json.
Proof. solve_decision. Defined.

Abbreviation request := (gmap string json).

Definition truthy (v : json) : bool :=
  match v with
  | JNull => false
  | JBool b => b
  | JInt z => negb (bool_decide (z = 0%Z))
  | JStr s => negb (bool_decide (s = []))
  | JOther _ b => b
  end.

Definition py_or (a b : json) : json := if truthy a then a else b.

(** [request.get(k)] and the two-name lookup of the handlers. *)
Definition get (req : request) (k : string) : json := default JNull (req !! k).
Definition get_val (req : request) (camel snake : string) (d : json) : json :=
  match req !! camel with Some v => v | None => default d (req !! snake) end.

Inductive http_err := Http (status : Z) (detail : string) | Crash.
Global Instance http_err_eq_decision : EqDecision http_err.
Proof. solve_decision. Defined.

(** A method of [str] on a value of another type raises. *)
Definition as_str (v : json) : result http_err ustr := match v with JStr s => Ok s | _ => Err Crash end.

Section Validation.
Context (upper : ustr → ustr) (int_of_str : ustr → option Z).

(** [int(v)]. *)
Definition int_of (v : json) : option Z :=
  match v with JInt z => Some z | JBool b => Some (if b then 1 else 0)%Z | JStr s => int_of_str s | _ => None end.

(** [gate_immutability_lock]. *)
Definition gate_immutability_lock (req : request) (prior_mode : json) (current_name : ustr) : result http_err unit :=
  incoming_mode ← as_str (py_or (get req "immutabilityMode") (py_or (get req "immutability_mode") (JStr [])));
  if decide (strip incoming_mode ≠ u "Locked") then Ok tt
  else
    prior ← as_str (py_or prior_mode (JStr []));
    if decide (strip prior = u "Locked") then Ok tt
    else
      raise_if (negb (truthy (py_or (get req "confirmImmutabilityLock") (get req "confirm_immutability_lock"))))
        (Http 400 "lock not confirmed") ;;
      typed ← as_str (py_or (get req "immutabilityLockTypedName") (py_or (get req "immutability_lock_typed_name") (JStr [])));
      expected ← as_str (py_or (JStr current_name) (py_or (get req "name") (py_or (get req "policyName") (JStr []))));
      raise_if (bool_decide (strip typed = []) || bool_decide (strip expected = []) || negb (bool_decide (strip typed = strip expected)))
        (Http 400 "typed name does not match").

Definition MAX_DAYS : Z := 365 * 100.
Definition VALID_RETENTION_MODES : list ustr := map u ["FLAT"; "GFS"; "ITEM_LEVEL"; "HYBRID"].
Definition VALID_ARCHIVED_MODES : list ustr := map u ["SAME"; "KEEP_ALL"; "KEEP_LAST"; "CUSTOM"].
Definition VALID_IMMUTABILITY : list ustr := map u ["None"; "Unlocked"; "Locked"].
Definition VALID_ENCRYPTION : list ustr := map u ["VAULT_MANAGED"; "CUSTOMER_KEY"].

Definition day_fields : list (string * string) := [
  ("retentionHotDays", "retention_hot_days"); ("retentionCoolDays", "retention_cool_days");
  ("retentionArchiveDays", "retention_archive_days"); ("retentionDays", "retention_days");
  ("itemRetentionDays", "item_retention_days"); ("archivedRetentionDays", "archived_retention_days")].

Definition gfs_fields : list (string * string) := [
  ("gfsDailyCount", "gfs_daily_count"); ("gfsWeeklyCount", "gfs_weekly_count");
  ("gfsMonthlyCount", "gfs_monthly_count"); ("gfsYearlyCount", "gfs_yearly_count")].

Definition check_days (req : request) (f : string * string) : result http_err unit :=
  let v := get_val req f.1 f.2 JNull in
  if decide (v = JNull) then Ok tt
  else
    iv ← of_option (Http 422 "days not an integer") (int_of v);
    raise_if (iv <? 0)%Z (Http 422 "days negative") ;;
    raise_if (MAX_DAYS <? iv)%Z (Http 422 "days above the cap").

Definition check_count (c : json) : result http_err Z :=
  iv ← of_option (Http 422 "count not an integer") (int_of c);
  raise_if (iv <? 0)%Z (Http 422 "count negative") ;;
  Ok iv.

Definition gfs_counts (req : request) : list json := map (λ f, py_or (get_val req f.1 f.2 JNull) (JInt 0)) gfs_fields.

Definition check_gfs (req : request) : result http_err unit :=
  counts ← mapR check_count (gfs_counts req);
  raise_if (bool_decide (foldr Z.add 0%Z counts = 0%Z)) (Http 422 "all counts are zero").

Definition check_tiers (req : request) : result http_err unit :=
  match int_of (get_val req "retentionHotDays" "retention_hot_days" JNull),
        int_of (get_val req "retentionCoolDays" "retention_cool_days" JNull) with
  | Some hot, Some cool => raise_if ((0 <? hot) && (0 <? cool) && (cool * 100 <? hot))%Z (Http 422 "tiers implausible")
  | _, _ => Ok tt
  end.

Definition check_key (req : request) : result http_err unit :=
  kvu ← as_str (py_or (get_val req "keyVaultUri" "key_vault_uri" JNull) (JStr []));
  kn ← as_str (py_or (get_val req "keyName" "key_name" JNull) (JStr []));
  raise_if (bool_decide (strip kvu = []) || bool_decide (strip kn = [])) (Http 422 "key missing") ;;
  raise_if (negb (prefix_of_list (u "https://") (strip kvu))) (Http 422 "key vault not https").

(** [validate_policy_payload]. *)
Definition validate_policy_payload (req : request) : result http_err unit :=
  name ← as_str (py_or (get_val req "name" "name" JNull) (JStr []));
  raise_if (bool_decide (strip name = [])) (Http 422 "name required") ;;
  raise_if (200 <? length (strip name)) (Http 422 "name too long") ;;
  _ ← mapR (check_days req) day_fields;
  mode ← as_str (py_or (get_val req "retentionMode" "retention_mode" JNull) (JStr (u "FLAT")));
  raise_if (negb (bool_decide (upper mode ∈ VALID_RETENTION_MODES))) (Http 422 "unknown retention mode") ;;
  (if decide (upper mode = u "GFS") then check_gfs req else Ok tt) ;;
  check_tiers req ;;
  arch_mode ← as_str (py_or (get_val req "archivedRetentionMode" "archived_retention_mode" JNull) (JStr (u "SAME")));
  raise_if (negb (bool_decide (upper arch_mode ∈ VALID_ARCHIVED_MODES))) (Http 422 "unknown archived mode") ;;
  raise_if (bool_decide (upper arch_mode = u "CUSTOM") &&
    bool_decide (get_val req "archivedRetentionDays" "archived_retention_days" JNull = JNull)) (Http 422 "archived days missing") ;;
  immut ← match py_or (get_val req "immutabilityMode" "immutability_mode" JNull) (JStr (u "None")) with
    | JOther _ _ => Err Crash
    | v => Ok v
    end;
  raise_if (negb (bool_decide (immut ∈ map JStr VALID_IMMUTABILITY))) (Http 422 "unknown immutability mode") ;;
  enc ← as_str (py_or (get_val req "encryptionMode" "encryption_mode" JNull) (JStr (u "VAULT_MANAGED")));
  raise_if (negb (bool_decide (upper enc ∈ VALID_ENCRYPTION))) (Http 422 "unknown encryption mode") ;;
  (if decide (upper enc = u "CUSTOMER_KEY") then check_key req else Ok tt).
End Validation.

(** ** Rows *)

Record policy := Policy { p_id : Z; p_tenant : Z; p_created : option Z; p_updated : option Z; p_cols : gmap string json }.
Global Instance policy_eq_decision : EqDecision policy.
Proof. solve_decision. Defined.

Definition col (p : policy) (c : string) : json := default JNull (p_cols p !! c).
Definition set_col (c : string) (v : json) (p : policy) : policy :=
  Policy (p_id p) (p_tenant p) (p_created p) (p_updated p) (<[c := v]> (p_cols p)).

(** The rows the endpoints read and write; a tenant is its type. *)
Record database := Database {
  d_tenants : gmap Z ustr;
  d_policies : list policy;
  d_resources : list resource;
  d_groups : list group;
  d_links : list (Z * Z);
}.
Global Instance database_eq_decision : EqDecision database.
Proof. solve_decision. Defined.

Definition with_policies (d : database) (ps : list policy) : database :=
  Database (d_tenants d) ps (d_resources d) (d_groups d) (d_links d).
Definition with_resources (d : database) (rs : list resource) : database :=
  Database (d_tenants d) (d_policies d) rs (d_groups d) (d_links d).

Definition is_default (p : policy) : bool := bool_decide (col p "is_default" = JBool true).
Definition is_enabled (p : policy) : bool := bool_decide (col p "enabled" = JBool true).

Definition BOOLEAN_COLUMNS : list string := [
  "backup_exchange"; "backup_exchange_archive"; "backup_exchange_recoverable"; "backup_onedrive"; "backup_sharepoint"; "backup_teams";
  "backup_teams_chats"; "backup_entra_id"; "backup_power_platform"; "backup_copilot"; "contacts"; "calendars"; "tasks";
  "group_mailbox"; "planner"; "backup_azure_vm"; "backup_azure_sql"; "backup_azure_postgresql"; "legal_hold_enabled";
  "auto_apply_to_matching"; "enabled"; "is_default"].

(** A Boolean column takes a Boolean, NULL, 0 or 1, and stores the last two as Booleans. *)
Definition store_bool (v : json) : result http_err json :=
  match v with
  | JNull | JBool _ => Ok v
  | JInt 0 => Ok (JBool false)
  | JInt 1 => Ok (JBool true)
  | _ => Err Crash
  end.

Fixpoint store_bools (cs : list string) (p : policy) : result http_err policy :=
  match cs with
  | [] => Ok p
  | c :: cs => v ← store_bool (col p c); store_bools cs (set_col c v p)
  end.

(** The partial unique index on the tenant of default policies. *)
Fixpoint one_default (ps : list policy) : bool :=
  match ps with
  | [] => true
  | p :: ps => negb (is_default p && existsb (λ q, is_default q && bool_decide (p_tenant q = p_tenant p)) ps) && one_default ps
  end.

Section Api.
Context (lower upper : ustr → ustr) (int_of_str : ustr → option Z) (parse_uuid : ustr → option Z).
(** The types the driver accepts, and the text of a time. *)
Context (row_ok : policy → bool) (isoformat : Z → ustr).

(** Writing a row: its Booleans are stored, its types and the unique index are checked. *)
Definition flush_row (p : policy) (ps : list policy) : result http_err (list policy) :=
  p ← store_bools BOOLEAN_COLUMNS p;
  raise_if (negb (row_ok p)) Crash ;;
  let ps := map (λ q, if decide (p_id q = p_id p) then p else q) ps in
  raise_if (negb (one_default ps)) Crash ;;
  Ok ps.

Definition NULLABLE_POLICY_COLUMNS : list string := [
  "retention_days"; "retention_archive_days"; "gfs_daily_count"; "gfs_weekly_count"; "gfs_monthly_count"; "gfs_yearly_count";
  "item_retention_days"; "archived_retention_days"; "legal_hold_until"; "key_vault_uri"; "key_name"; "key_version";
  "backup_window_start"].

Definition field_map : list (string * string) := [
  ("name", "name"); ("frequency", "frequency"); ("backupDays", "backup_days"); ("backupWindowStart", "backup_window_start");
  ("backupExchange", "backup_exchange"); ("backupExchangeArchive", "backup_exchange_archive");
  ("backupExchangeRecoverable", "backup_exchange_recoverable"); ("backupOneDrive", "backup_onedrive");
  ("backupSharepoint", "backup_sharepoint"); ("backupTeams", "backup_teams"); ("backupTeamsChats", "backup_teams_chats");
  ("backupEntraId", "backup_entra_id"); ("backupPowerPlatform", "backup_power_platform"); ("backupCopilot", "backup_copilot");
  ("contacts", "contacts"); ("calendars", "calendars"); ("tasks", "tasks"); ("groupMailbox", "group_mailbox"); ("planner", "planner");
  ("backupAzureVm", "backup_azure_vm"); ("backupAzureSql", "backup_azure_sql"); ("backupAzurePostgresql", "backup_azure_postgresql");
  ("retentionType", "retention_type"); ("retentionDays", "retention_days"); ("retentionMode", "retention_mode");
  ("retentionHotDays", "retention_hot_days"); ("retentionCoolDays", "retention_cool_days"); ("retentionArchiveDays", "retention_archive_days");
  ("gfsDailyCount", "gfs_daily_count"); ("gfsWeeklyCount", "gfs_weekly_count"); ("gfsMonthlyCount", "gfs_monthly_count");
  ("gfsYearlyCount", "gfs_yearly_count"); ("itemRetentionDays", "item_retention_days"); ("itemRetentionBasis", "item_retention_basis");
  ("archivedRetentionMode", "archived_retention_mode"); ("archivedRetentionDays", "archived_retention_days");
  ("legalHoldEnabled", "legal_hold_enabled"); ("legalHoldUntil", "legal_hold_until"); ("immutabilityMode", "immutability_mode");
  ("encryptionMode", "encryption_mode"); ("keyVaultUri", "key_vault_uri"); ("keyName", "key_name"); ("keyVersion", "key_version");
  ("autoApplyToMatching", "auto_apply_to_matching"); ("enabled", "enabled"); ("isDefault", "is_default")].

(** [apply_policy_field_updates]. *)
Definition update_field (req : request) (p : policy) (f : string * string) : policy :=
  let present := bool_decide (is_Some (req !! f.1)) || bool_decide (is_Some (req !! f.2)) in
  let val := get_val req f.1 f.2 JNull in
  if decide (val ≠ JNull) then set_col f.2 val p
  else if present && bool_decide (f.2 ∈ NULLABLE_POLICY_COLUMNS) then set_col f.2 JNull p
  else p.
Definition apply_policy_field_updates (req : request) (fields : list (string * string)) (p : policy) : policy :=
  foldl (update_field req) p fields.

(** [normalize_policy_service_type] and [tenant_policy_service_type]. *)
Definition normalize_policy_service_type (v : json) : result http_err (option ustr) :=
  if decide (v = JNull) then Ok None
  else
    s ← as_str v;
    raise_if (negb (bool_decide (lower (strip s) ∈ map u ["m365"; "azure"]))) (Http 400 "unsupported service type") ;;
    Ok (Some (lower (strip s))).
Definition tenant_policy_service_type (tenant : ustr) : ustr := if decide (upper tenant = u "AZURE") then u "azure" else u "m365".

(** [_guard_zero_default]. *)
Definition guard_zero_default (ps : list policy) (tenant this : Z) (request_is_default : option bool) (prior : bool) : result http_err unit :=
  match request_is_default with
  | Some false =>
    if negb prior then Ok tt
    else if existsb (λ q, bool_decide (p_tenant q = tenant) && negb (bool_decide (p_id q = this)) && is_default q) ps then Ok tt
    else if existsb (λ q, bool_decide (p_tenant q = tenant) && negb (bool_decide (p_id q = this)) && is_enabled q) ps
    then Err (Http 409 "the only default policy")
    else Ok tt
  | _ => Ok tt
  end.

(** The statement that clears the default flag of the tenant's policies, but for [keep]. *)
Definition clear_defaults (tenant : Z) (keep : option Z) (ps : list policy) : list policy :=
  map (λ q, if bool_decide (p_tenant q = tenant) && is_default q && negb (bool_decide (keep = Some (p_id q)))
    then set_col "is_default" (JBool false) q else q) ps.

(** The auto-apply sweep after the row was written; a rule that raises fails the request. *)
Definition auto_apply (d : database) (p : policy) : result http_err database :=
  if negb (truthy (col p "auto_apply_to_matching")) then Ok d
  else match apply_policy_to_matching lower upper (d_links d) (d_groups d) (p_id p) (p_tenant p) (d_resources d) with
    | Ok (rows, _) => Ok (with_resources d rows)
    | Err AttributeError => Err Crash
    end.

Definition days_of_week : json := JOther 1 true.

(** The columns of a new policy: name, keys, default. *)
Definition create_columns (service_type : ustr) : list (string * string * string * json) :=
  let m365 := JBool (bool_decide (service_type = u "m365")) in
  let azure := JBool (bool_decide (service_type = u "azure")) in
  [("name", "name", "name", JStr (u "New Policy")); ("frequency", "frequency", "frequency", JStr (u "DAILY"));
   ("backup_days", "backupDays", "backup_days", days_of_week); ("backup_window_start", "backupWindowStart", "backup_window_start", JStr (u "21:00"));
   ("backup_exchange", "backupExchange", "backup_exchange", m365);
   ("backup_exchange_archive", "backupExchangeArchive", "backup_exchange_archive", JBool false);
   ("backup_exchange_recoverable", "backupExchangeRecoverable", "backup_exchange_recoverable", JBool false);
   ("backup_onedrive", "backupOneDrive", "backup_onedrive", m365); ("backup_sharepoint", "backupSharepoint", "backup_sharepoint", m365);
   ("backup_teams", "backupTeams", "backup_teams", m365); ("backup_teams_chats", "backupTeamsChats", "backup_teams_chats", m365);
   ("backup_entra_id", "backupEntraId", "backup_entra_id", m365);
   ("backup_power_platform", "backupPowerPlatform", "backup_power_platform", JBool false);
   ("backup_copilot", "backupCopilot", "backup_copilot", JBool false); ("contacts", "contacts", "contacts", m365);
   ("calendars", "calendars", "calendars", m365); ("tasks", "tasks", "tasks", JBool false);
   ("group_mailbox", "groupMailbox", "group_mailbox", m365); ("planner", "planner", "planner", JBool false);
   ("backup_azure_vm", "backupAzureVm", "backup_azure_vm", azure); ("backup_azure_sql", "backupAzureSql", "backup_azure_sql", azure);
   ("backup_azure_postgresql", "backupAzurePostgresql", "backup_azure_postgresql", azure);
   ("retention_type", "retentionType", "retention_type", JStr (u "INDEFINITE")); ("retention_days", "retentionDays", "retention_days", JNull);
   ("retention_mode", "retentionMode", "retention_mode", JStr (u "FLAT"));
   ("retention_hot_days", "retentionHotDays", "retention_hot_days", JInt 7);
   ("retention_cool_days", "retentionCoolDays", "retention_cool_days", JInt 30);
   ("retention_archive_days", "retentionArchiveDays", "retention_archive_days", JNull);
   ("gfs_daily_count", "gfsDailyCount", "gfs_daily_count", JNull); ("gfs_weekly_count", "gfsWeeklyCount", "gfs_weekly_count", JNull);
   ("gfs_monthly_count", "gfsMonthlyCount", "gfs_monthly_count", JNull); ("gfs_yearly_count", "gfsYearlyCount", "gfs_yearly_count", JNull);
   ("item_retention_days", "itemRetentionDays", "item_retention_days", JNull);
   ("item_retention_basis", "itemRetentionBasis", "item_retention_basis", JStr (u "SNAPSHOT"));
   ("archived_retention_mode", "archivedRetentionMode", "archived_retention_mode", JStr (u "SAME"));
   ("archived_retention_days", "archivedRetentionDays", "archived_retention_days", JNull);
   ("legal_hold_enabled", "legalHoldEnabled", "legal_hold_enabled", JBool false);
   ("legal_hold_until", "legalHoldUntil", "legal_hold_until", JNull);
   ("immutability_mode", "immutabilityMode", "immutability_mode", JStr (u "None"));
   ("encryption_mode", "encryptionMode", "encryption_mode", JStr (u "VAULT_MANAGED"));
   ("key_vault_uri", "keyVaultUri", "key_vault_uri", JNull); ("key_name", "keyName", "key_name", JNull);
   ("key_version", "keyVersion", "key_version", JNull);
   ("auto_apply_to_matching", "autoApplyToMatching", "auto_apply_to_matching", JBool false);
   ("enabled", "enabled", "enabled", JBool true); ("is_default", "isDefault", "is_default", JBool false)].

Definition new_row (req : request) (id tenant now : Z) (service_type : ustr) : policy :=
  Policy id tenant (Some now) (Some now)
    (<["lifecycle_dirty" := JBool true]> (<["service_type" := JStr service_type]>
      (list_to_map (map (λ c, (c.1.1.1, get_val req c.1.1.2 c.1.2 c.2)) (create_columns service_type))))).

(** [create_policy], past the idempotency cache; [id] is the fresh identifier. *)
Definition insert_policy (d : database) (req : request) (id now : Z) : result http_err (database * policy) :=
  tenant_text ← as_str (get_val req "tenantId" "tenant_id" JNull);
  tenant_id ← of_option Crash (parse_uuid tenant_text);
  tenant ← of_option (Http 404 "tenant not found") (d_tenants d !! tenant_id);
  requested ← normalize_policy_service_type (get_val req "serviceType" "service_type" JNull);
  let service_type := default (tenant_policy_service_type tenant) requested in
  validate_policy_payload upper int_of_str req ;;
  current_name ← as_str (py_or (get_val req "name" "name" JNull) (JStr []));
  gate_immutability_lock req JNull (strip current_name) ;;
  let p := new_row req id tenant_id now service_type in
  let ps := if truthy (col p "is_default") then clear_defaults tenant_id None (d_policies d) else d_policies d in
  ps ← flush_row p (ps ++ [p]);
  d ← auto_apply (with_policies d ps) p;
  Ok (d, p).

(** The idempotency cache of the process: keys, times in microseconds, answers. *)
Abbreviation cache := (list (ustr * (Z * policy))).

Definition IDEMPOTENCY_TTL : Z := 24 * 3600 * 1000000.

Definition cache_find (c : cache) (key : ustr) : option (Z * policy) := snd <$> head (filter (λ e, e.1 = key) c).
Definition cache_drop (keys : list ustr) (c : cache) : cache := filter (λ e, e.1 ∉ keys) c.

Definition idempotency_get (c : cache) (key : ustr) (now : Z) : cache * option policy :=
  if decide (key = []) then (c, None)
  else match cache_find c key with
    | None => (c, None)
    | Some (ts, body) => if (IDEMPOTENCY_TTL <? now - ts)%Z then (cache_drop [key] c, None) else (c, Some body)
    end.

Definition older (a b : ustr * (Z * policy)) : Prop := (a.2.1 ≤ b.2.1)%Z.
#[local] Instance older_dec : RelDecision older := λ a b, Z_le_dec a.2.1 b.2.1.

Definition idempotency_put (c : cache) (key : ustr) (body : policy) (now : Z) : cache :=
  if decide (key = []) then c
  else
    let c := if decide (5000 < length c) then cache_drop (map fst (take 1000 (merge_sort older c))) c else c in
    match cache_find c key with
    | Some _ => map (λ e, if decide (e.1 = key) then (key, (now, body)) else e) c
    | None => c ++ [(key, (now, body))]
    end.

(** [create_policy]: the answer, the database and the cache afterwards. *)
Definition create_policy (d : database) (c : cache) (key : ustr) (req : request) (id now : Z)
    : result http_err policy * database * cache :=
  match idempotency_get c key now with
  | (c, Some body) => (Ok body, d, c)
  | (c, None) =>
    match insert_policy d req id now with
    | Err e => (Err e, d, c)
    | Ok (d', p) => (Ok p, d', idempotency_put c key p now)
    end
  end.

(** The assignments of [update_policy] to the row. *)
Definition with_service_type (requested : option ustr) (tenant : ustr) (p : policy) : policy :=
  match requested with
  | Some s => set_col "service_type" (JStr s) p
  | None => if truthy (col p "service_type") then p else set_col "service_type" (JStr (tenant_policy_service_type tenant)) p
  end.
Definition updated_row (req : request) (now : Z) (p : policy) : policy :=
  let p := apply_policy_field_updates req field_map p in
  let p := set_col "reconcile_attempts" (JInt 0) (set_col "lifecycle_dirty" (JBool true) p) in
  Policy (p_id p) (p_tenant p) (p_created p) (Some now) (p_cols p).

(** [update_policy]. *)
Definition update_policy (d : database) (id : Z) (req : request) (if_match : ustr) (now : Z) : result http_err (database * policy) :=
  p ← of_option (Http 404 "policy not found") (head (filter (λ q, p_id q = id) (d_policies d)));
  raise_if (negb (bool_decide (if_match = [])) &&
    negb (bool_decide (drop_while_end (λ c, bool_decide (c = 34%Z)) (drop_while (λ c, bool_decide (c = 34%Z)) (strip if_match))
      = match p_updated p, p_created p with Some t, _ | None, Some t => isoformat t | None, None => [] end))) (Http 412 "modified by another writer") ;;
  validate_policy_payload upper int_of_str req ;;
  new_name ← as_str (py_or (get req "name") (py_or (col p "name") (JStr [])));
  gate_immutability_lock req (col p "immutability_mode") (strip new_name) ;;
  let requested_is_default :=
    match req !! "isDefault" with Some v => Some (truthy v) | None => truthy <$> (req !! "is_default") end in
  guard_zero_default (d_policies d) (p_tenant p) (p_id p) requested_is_default (is_default p) ;;
  tenant ← of_option (Http 404 "tenant not found") (d_tenants d !! p_tenant p);
  requested ← normalize_policy_service_type (get_val req "serviceType" "service_type" JNull);
  let p := with_service_type requested tenant p in
  let ps := if bool_decide (get_val req "isDefault" "is_default" JNull = JBool true) && negb (is_default p)
    then clear_defaults (p_tenant p) (Some (p_id p)) (d_policies d) else d_policies d in
  let p := updated_row req now p in
  ps ← flush_row p ps;
  d ← (if bool_decide (is_Some (req !! "autoApplyToMatching")) || bool_decide (is_Some (req !! "auto_apply_to_matching"))
       then auto_apply (with_policies d ps) p else Ok (with_policies d ps));
  Ok (d, p).

(** [delete_policy]: a resource that names the policy makes the statement fail; the links
    go with it. *)
Definition delete_policy (d : database) (id : Z) : result http_err database :=
  p ← of_option (Http 404 "policy not found") (head (filter (λ q, p_id q = id) (d_policies d)));
  raise_if (existsb (λ r, bool_decide (rs_policy r = Some id)) (d_resources d)) Crash ;;
  Ok (Database (d_tenants d) (filter (λ q, p_id q ≠ id) (d_policies d)) (d_resources d) (d_groups d)
    (filter (λ l, l.2 ≠ id) (d_links d))).

(** [force_reconcile_policy]. *)
Definition force_reconcile_policy (d : database) (id now : Z) : result http_err database :=
  p ← of_option (Http 404 "policy not found") (head (filter (λ q, p_id q = id) (d_policies d)));
  let p := set_col "last_cap_alert_at" JNull (set_col "reconcile_attempts" (JInt 0) (set_col "lifecycle_dirty" (JBool true) p)) in
  let p := Policy (p_id p) (p_tenant p) (p_created p) (Some now) (p_cols p) in
  Ok (with_policies d (map (λ q, if decide (p_id q = id) then p else q) (d_policies d))).
End Api.

(** ** Texts *)

Lemma drop_while_head p s c : head (drop_while p s) = Some c → p c = false.
Proof. induction s as [|x s IH]; simpl; [done|]. destruct (p x) eqn:E; [done|]. by intros [= <-]. Qed.

Lemma drop_while_id p s : (∀ c, head s = Some c → p c = false) → drop_while p s = s.
Proof. destruct s as [|c s]; [done|]. intros H. simpl. by rewrite (H c eq_refl). Qed.

Lemma drop_while_suffix p s : drop_while p s `suffix_of` s.
Proof. induction s as [|x s IH]; simpl; [done|]. destruct (p x); [by apply suffix_cons_r|done]. Qed.

Lemma drop_while_end_prefix p s : drop_while_end p s `prefix_of` s.
Proof.
  unfold drop_while_end. destruct (drop_while_suffix p (reverse s)) as [k Hk]. exists (reverse k).
  by rewrite <- reverse_app, <- Hk, reverse_involutive.
Qed.

Lemma strip_idem s : strip (strip s) = strip s.
Proof.
  unfold strip. set (t := drop_while is_space s). rewrite drop_while_id.
  - destruct (last (drop_while_end is_space t)) as [c|] eqn:E; [eapply drop_while_end_id; [done|by eapply drop_while_end_last]|].
    apply last_None in E. by rewrite E.
  - intros c Hc. destruct (drop_while_end_prefix is_space t) as [k Hk]. apply (drop_while_head _ s). fold t.
    destruct (drop_while_end is_space t); [done|]. injection Hc as ->. by rewrite Hk.
Qed.

(** ** The columns of a row *)

Lemma col_set c v c' p : col (set_col c v p) c' = if decide (c = c') then v else col p c'.
Proof. unfold col, set_col. cbn. case_decide; [subst; by rewrite lookup_insert_eq|by rewrite lookup_insert_ne]. Qed.

Lemma set_col_id c v p : p_id (set_col c v p) = p_id p ∧ p_tenant (set_col c v p) = p_tenant p.
Proof. done. Qed.

(** A Boolean column as it is read back. *)
Definition stored (c : string) (v : json) : json :=
  if decide (c ∈ BOOLEAN_COLUMNS) then from_ok JNull (store_bool v) else v.

Lemma store_bool_idem v w : store_bool v = Ok w → store_bool w = Ok w.
Proof. destruct v as [|b|[|[]|]| |]; simpl; intros [= <-]; done. Qed.

Lemma store_bools_col cs : ∀ p p', store_bools cs p = Ok p' →
  p_id p' = p_id p ∧ p_tenant p' = p_tenant p ∧ p_created p' = p_created p ∧ p_updated p' = p_updated p ∧
  ∀ c, (c ∉ cs → col p' c = col p c) ∧ (c ∈ cs → store_bool (col p c) = Ok (col p' c)).
Proof.
  induction cs as [|c cs IH]; intros p p'; simpl.
  - intros [= <-]. do 4 (split; [done|]). intros c. split; [done|]. by intros ?%not_elem_of_nil.
  - intros (v & Hv & H)%bind_Ok. destruct (IH _ _ H) as (H1 & H2 & H3 & H4 & H5). do 4 (split; [done|]). intros c'.
    destruct (H5 c') as [H6 H7]. rewrite elem_of_cons, col_set in *. destruct (decide (c = c')) as [<-|Hne].
    + split; [tauto|]. intros _. rewrite Hv. apply store_bool_idem in Hv.
      destruct (decide (c ∈ cs)) as [Hc|Hc]; [specialize (H7 Hc); congruence|by rewrite H6].
    + split; [intros Hn; apply H6; tauto|]. intros [->|Hin]; [done|by apply H7].
Qed.

Lemma flush_row_Ok row_ok p ps ps' :
  flush_row row_ok p ps = Ok ps' →
  ∃ p', ps' = map (λ q, if decide (p_id q = p_id p) then p' else q) ps ∧ row_ok p' = true ∧ one_default ps' = true ∧
    p_id p' = p_id p ∧ p_tenant p' = p_tenant p ∧ ∀ c, col p' c = stored c (col p c).
Proof.
  unfold flush_row. intros (p' & Hp & H)%bind_Ok. apply bind_Ok in H as (? & Hr%raise_if_Ok & H). cbv zeta in H.
  apply bind_Ok in H as (? & Ho%raise_if_Ok & [= <-]). bools.
  destruct (store_bools_col _ _ _ Hp) as (H1 & H2 & _ & _ & H5). exists p'. rewrite H1 in *. repeat (split; [done|]).
  intros c. unfold stored. destruct (H5 c) as [H6 H7]. case_decide as Hc; [by rewrite (H7 Hc)|by apply H6].
Qed.

(** ** Updating the fields *)

Definition field_value (req : request) (old : json) (f : string * string) : json :=
  let val := get_val req f.1 f.2 JNull in
  if decide (val ≠ JNull) then val
  else if (bool_decide (is_Some (req !! f.1)) || bool_decide (is_Some (req !! f.2))) && bool_decide (f.2 ∈ NULLABLE_POLICY_COLUMNS) then JNull
  else old.

Lemma update_field_col req p f c : col (update_field req p f) c = if decide (f.2 = c) then field_value req (col p c) f else col p c.
Proof.
  unfold update_field, field_value. cbv zeta. case_decide as Hv; [rewrite col_set; by case_decide|].
  destruct (_ && _); [rewrite col_set; by case_decide|by case_decide].
Qed.

Lemma updates_col req fields : ∀ p k,
  NoDup (map snd fields) →
  col (apply_policy_field_updates req fields p) k =
    match head (filter (λ f, f.2 = k) fields) with Some f => field_value req (col p k) f | None => col p k end.
Proof.
  unfold apply_policy_field_updates. induction fields as [|f fields IH]; intros p c Hnd; [done|]. simpl in Hnd. apply NoDup_cons in Hnd as [Hf Hnd].
  cbn [foldl]. rewrite IH, update_field_col, filter_cons by done. case_decide as Hc; [|done]. subst. simpl.
  destruct (head (filter (λ g, g.2 = f.2) fields)) as [g|] eqn:Hg; [|done]. exfalso. apply Hf.
  apply head_Some_elem_of in Hg. apply list_elem_of_filter in Hg as [Hg Hin]. rewrite <- Hg.
  apply list_elem_of_fmap. by exists g.
Qed.

Lemma updates_id req fields : ∀ p,
  p_id (apply_policy_field_updates req fields p) = p_id p ∧ p_tenant (apply_policy_field_updates req fields p) = p_tenant p.
Proof.
  unfold apply_policy_field_updates. induction fields as [|f fields IH]; intros p; [done|]. cbn [foldl].
  destruct (IH (update_field req p f)) as [-> ->]. unfold update_field. cbv zeta. by repeat case_match.
Qed.

Lemma field_map_nodup : NoDup (map snd field_map).
Proof. apply (bool_decide_unpack _). by vm_compute. Qed.

(** ** What the checks establish *)

Section Checked.
Context (lower upper : ustr → ustr) (int_of_str : ustr → option Z) (parse_uuid : ustr → option Z).
Context (row_ok : policy → bool) (isoformat : Z → ustr).
Notation int_of := (int_of int_of_str).

(** The settings of a policy make sense; [v] reads a column. *)
Record settings_valid (v : string → json) : Prop := {
  sv_name : ∃ n, v "name" = JStr n ∧ strip n ≠ [] ∧ length (strip n) ≤ 200;
  sv_days : ∀ f, f ∈ day_fields → v f.2 = JNull ∨ ∃ d, int_of (v f.2) = Some d ∧ (0 ≤ d ≤ MAX_DAYS)%Z;
  sv_mode : ∃ m, py_or (v "retention_mode") (JStr (u "FLAT")) = JStr m ∧ upper m ∈ VALID_RETENTION_MODES ∧
    (upper m = u "GFS" →
      (∀ f, f ∈ gfs_fields → ∃ n, int_of (py_or (v f.2) (JInt 0)) = Some n ∧ (0 ≤ n)%Z) ∧
      ∃ f n, f ∈ gfs_fields ∧ int_of (v f.2) = Some n ∧ (0 < n)%Z);
  sv_archived : ∃ m, py_or (v "archived_retention_mode") (JStr (u "SAME")) = JStr m ∧ upper m ∈ VALID_ARCHIVED_MODES ∧
    (upper m = u "CUSTOM" → v "archived_retention_days" ≠ JNull);
  sv_immutability : py_or (v "immutability_mode") (JStr (u "None")) ∈ map JStr VALID_IMMUTABILITY;
  sv_key : ∃ e, py_or (v "encryption_mode") (JStr (u "VAULT_MANAGED")) = JStr e ∧ upper e ∈ VALID_ENCRYPTION ∧
    (upper e = u "CUSTOMER_KEY" → ∃ uri name, v "key_vault_uri" = JStr uri ∧ prefix_of_list (u "https://") (strip uri) = true ∧
      v "key_name" = JStr name ∧ strip name ≠ []);
}.

Lemma as_str_Ok v s : as_str v = Ok s ↔ v = JStr s.
Proof using. clear. destruct v; simpl; split; congruence. Qed.

Lemma py_or_str v d s : py_or v (JStr d) = JStr s → s ≠ d → v = JStr s.
Proof using. clear. unfold py_or. destruct (truthy v); congruence. Qed.

Lemma check_gfs_Ok req :
  check_gfs int_of_str req = Ok tt →
  (∀ f, f ∈ gfs_fields → ∃ n, int_of (py_or (get_val req f.1 f.2 JNull) (JInt 0)) = Some n ∧ (0 ≤ n)%Z) ∧
  ∃ f n, f ∈ gfs_fields ∧ int_of (get_val req f.1 f.2 JNull) = Some n ∧ (0 < n)%Z.
Proof using.
  clear. unfold check_gfs, gfs_counts. intros (counts & Hc%mapR_Ok & Hs%raise_if_Ok)%bind_Ok. apply bool_decide_eq_false in Hs.
  rewrite Forall2_fmap_l in Hc.
  assert (Hone : ∀ f n, check_count int_of_str (py_or (get_val req f.1 f.2 JNull) (JInt 0)) = Ok n →
    int_of (py_or (get_val req f.1 f.2 JNull) (JInt 0)) = Some n ∧ (0 ≤ n)%Z).
  { intros f n (iv & Hi%of_option_Ok & (? & Hn%raise_if_Ok & [= <-])%bind_Ok)%bind_Ok. bools. by split. }
  split.
  - intros f Hf. apply list_elem_of_lookup in Hf as [i Hi]. destruct (Forall2_lookup_l _ _ _ _ _ Hc Hi) as (n & _ & Hn).
    exists n. by apply Hone.
  - assert (Hex : ∃ f n, f ∈ gfs_fields ∧ int_of (py_or (get_val req f.1 f.2 JNull) (JInt 0)) = Some n ∧ (0 < n)%Z).
    { induction Hc as [|f n fs ns Hf _ IH]; [done|]. destruct (Hone _ _ Hf) as [Hi Hn]. destruct (decide (n = 0%Z)) as [->|Hnz].
      - destruct IH as (f' & n' & Hf' & ?); [done|]. exists f', n'. split; [by right|done].
      - exists f, n. split; [left|split; [done|lia]]. }
    destruct Hex as (f & n & Hf & Hi & Hn). exists f, n. split; [done|]. split; [|done].
    unfold py_or in Hi. destruct (truthy (get_val req f.1 f.2 JNull)); [done|]. injection Hi as <-. lia.
Qed.

(** A payload that passes describes valid settings, as far as it names them. *)
Lemma validated req :
  validate_policy_payload upper int_of_str req = Ok tt →
  ∀ v : string → json,
    v "name" = get_val req "name" "name" JNull →
    (∀ f, f ∈ day_fields → v f.2 = get_val req f.1 f.2 JNull ∨ get_val req f.1 f.2 JNull = JNull ∧ ∃ d, v f.2 = JInt d ∧ (0 ≤ d ≤ MAX_DAYS)%Z) →
    (∀ f, f ∈ gfs_fields → v f.2 = get_val req f.1 f.2 JNull) →
    py_or (v "retention_mode") (JStr (u "FLAT")) = py_or (get_val req "retentionMode" "retention_mode" JNull) (JStr (u "FLAT")) →
    py_or (v "archived_retention_mode") (JStr (u "SAME")) = py_or (get_val req "archivedRetentionMode" "archived_retention_mode" JNull) (JStr (u "SAME")) →
    v "archived_retention_days" = get_val req "archivedRetentionDays" "archived_retention_days" JNull →
    py_or (v "immutability_mode") (JStr (u "None")) = py_or (get_val req "immutabilityMode" "immutability_mode" JNull) (JStr (u "None")) →
    py_or (v "encryption_mode") (JStr (u "VAULT_MANAGED")) = py_or (get_val req "encryptionMode" "encryption_mode" JNull) (JStr (u "VAULT_MANAGED")) →
    v "key_vault_uri" = get_val req "keyVaultUri" "key_vault_uri" JNull → v "key_name" = get_val req "keyName" "key_name" JNull →
    settings_valid v.
Proof using.
  clear. intros H v Hname Hdays Hgfs Hmode Harch Harchd Himm Henc Huri Hkey. unfold validate_policy_payload in H.
  apply bind_Ok in H as (name & Hn & H). apply bind_Ok in H as (? & Hn1%raise_if_Ok & H). apply bind_Ok in H as (? & Hn2%raise_if_Ok & H).
  apply bind_Ok in H as (days & Hd%mapR_Ok & H). apply bind_Ok in H as (mode & Hm%as_str_Ok & H).
  apply bind_Ok in H as (? & Hm1%raise_if_Ok & H). apply bind_Ok in H as ([] & Hm2 & H). apply bind_Ok in H as (? & _ & H).
  apply bind_Ok in H as (arch & Ha%as_str_Ok & H). apply bind_Ok in H as (? & Ha1%raise_if_Ok & H). apply bind_Ok in H as (? & Ha2%raise_if_Ok & H).
  apply bind_Ok in H as (immut & Hi & H). apply bind_Ok in H as (? & Hi1%raise_if_Ok & H).
  apply bind_Ok in H as (enc & He%as_str_Ok & H). apply bind_Ok in H as (? & He1%raise_if_Ok & He2).
  apply as_str_Ok in Hn. apply bool_decide_eq_false in Hn1. apply Nat.ltb_ge in Hn2. apply negb_false_iff, bool_decide_eq_true in Hm1, Ha1, Hi1, He1.
  constructor.
  - exists name. rewrite Hname. split; [|done]. apply (py_or_str _ []); [done|]. intros ->. by apply Hn1.
  - intros f Hf. destruct (Hdays f Hf) as [->|(_ & d & -> & Hb)]; [|right; by exists d].
    apply list_elem_of_lookup in Hf as [i Hlk]. destruct (Forall2_lookup_l _ _ _ _ _ Hd Hlk) as ([] & _ & Hc).
    unfold check_days in Hc. cbv zeta in Hc. case_decide as Hnull; [by left|right].
    apply bind_Ok in Hc as (iv & Hv%of_option_Ok & (? & H1%raise_if_Ok & H2%raise_if_Ok)%bind_Ok). bools. exists iv. split; [done|lia].
  - exists mode. rewrite Hmode. split; [done|]. split; [done|]. intros Hg. rewrite decide_True in Hm2 by done.
    apply check_gfs_Ok in Hm2 as [G1 (f & n & G2 & G3)]. split; [intros g Hgf; rewrite Hgfs by done; by apply G1|].
    exists f, n. rewrite Hgfs by done. done.
  - exists arch. rewrite Harch. split; [done|]. split; [done|]. intros Hc. rewrite Harchd.
    rewrite (bool_decide_eq_true_2 _ Hc) in Ha2. simpl in Ha2. by apply bool_decide_eq_false in Ha2.
  - rewrite Himm. set (immv := py_or (get_val req "immutabilityMode" "immutability_mode" JNull) (JStr (u "None"))) in *. clearbody immv. destruct immv; try discriminate Hi; injection Hi as <-; exact Hi1.
  - exists enc. rewrite Henc. split; [done|]. split; [done|]. intros Hc. rewrite decide_True in He2 by done.
    unfold check_key in He2. apply bind_Ok in He2 as (kvu & Hk%as_str_Ok & He2). apply bind_Ok in He2 as (kn & Hk2%as_str_Ok & He2).
    apply bind_Ok in He2 as (? & Hk3%raise_if_Ok & Hk4%raise_if_Ok). apply orb_false_iff in Hk3 as [Hk3 Hk5].
    apply bool_decide_eq_false in Hk3, Hk5. apply negb_false_iff in Hk4. exists kvu, kn. rewrite Huri, Hkey.
    split; [apply (py_or_str _ []); [done|]; by intros ->|]. split; [done|]. split; [|done]. apply (py_or_str _ []); [done|]. by intros ->.
Qed.

(** ** The gate *)

Definition locked (v : json) : Prop := ∃ s, v = JStr s ∧ strip s = u "Locked".

(** The payload carries the flag, and the name of the policy as typed by the operator. *)
Definition lock_confirmed (req : request) (name : json) : Prop :=
  truthy (py_or (get req "confirmImmutabilityLock") (get req "confirm_immutability_lock")) = true ∧
  ∃ typed n, py_or (get req "immutabilityLockTypedName") (py_or (get req "immutability_lock_typed_name") (JStr [])) = JStr typed ∧
    name = JStr n ∧ strip typed = strip n ∧ strip n ≠ [].

Lemma gate_Ok req prior name n :
  gate_immutability_lock req prior (strip n) = Ok tt → name = JStr n → strip n ≠ [] →
  locked (get_val req "immutabilityMode" "immutability_mode" JNull) → locked prior ∨ lock_confirmed req name.
Proof using.
  clear. intros H -> Hn (s & Hs & Hl). unfold gate_immutability_lock in H. apply bind_Ok in H as (inc & Hi%as_str_Ok & H).
  assert (Hinc : inc = s).
  { assert (s ≠ []) by (intros ->; by vm_compute in Hl). unfold get_val, get, py_or in *. destruct (req !! "immutabilityMode") as [v|]; simpl in *.
    - subst v. simpl in Hi. rewrite bool_decide_eq_false_2 in Hi by done. simpl in Hi. congruence.
    - destruct (req !! "immutability_mode") as [v|]; simpl in *; [|done]. subst v. simpl in Hi. rewrite bool_decide_eq_false_2 in Hi by done.
      simpl in Hi. congruence. }
  subst inc. rewrite decide_False in H by (intros Hne; by apply Hne). apply bind_Ok in H as (pr & Hp%as_str_Ok & H).
  case_decide as Hpr.
  - left. exists pr. split; [|done]. apply (py_or_str _ []); [done|]. intros ->. by vm_compute in Hpr.
  - right. apply bind_Ok in H as (? & Hc%raise_if_Ok & H). apply negb_false_iff in Hc. split; [done|].
    apply bind_Ok in H as (typed & Ht%as_str_Ok & H). apply bind_Ok in H as (expd & Hx%as_str_Ok & H%raise_if_Ok).
    apply orb_false_iff in H as [[H1 H2]%orb_false_iff H3]. apply negb_false_iff, bool_decide_eq_true in H3.
    exists typed, n. split; [done|]. split; [done|]. split; [|done]. rewrite H3.
    unfold py_or in Hx at 1. simpl in Hx. rewrite bool_decide_eq_false_2 in Hx by done. simpl in Hx. injection Hx as <-. apply strip_idem.
Qed.
End Checked.

(** ** Requests *)

Inductive call :=
  | CCreate (req : request) (id now : Z)
  | CUpdate (id : Z) (req : request) (if_match : ustr) (now : Z)
  | CDelete (id : Z)
  | CForce (id now : Z).

Definition request_of (c : call) : request := match c with CCreate req _ _ | CUpdate _ req _ _ => req | _ => ∅ end.

(** A created row has a new identifier. *)
Definition fresh (d : database) (c : call) : Prop :=
  match c with CCreate _ id _ => id ∉ map p_id (d_policies d) | _ => True end.

Arguments updated_row : simpl never.
Arguments apply_policy_field_updates : simpl never.
Arguments new_row : simpl never.
Arguments field_map : simpl never.

Lemma updated_row_id req now p : p_id (updated_row req now p) = p_id p ∧ p_tenant (updated_row req now p) = p_tenant p.
Proof.
  destruct (updates_id req field_map p) as [H1 H2]. revert H1 H2. unfold updated_row. cbv zeta.
  generalize (apply_policy_field_updates req field_map p). by intros q H1 H2.
Qed.

Lemma updated_row_col req now p c :
  c ≠ "reconcile_attempts" → c ≠ "lifecycle_dirty" → col (updated_row req now p) c = col (apply_policy_field_updates req field_map p) c.
Proof.
  intros H1 H2. unfold updated_row. cbv zeta. generalize (apply_policy_field_updates req field_map p). intros q.
  transitivity (col (set_col "reconcile_attempts" (JInt 0) (set_col "lifecycle_dirty" (JBool true) q)) c); [done|].
  rewrite !col_set. by rewrite !decide_False.
Qed.


Section Perform.
Context (lower upper : ustr → ustr) (int_of_str : ustr → option Z) (parse_uuid : ustr → option Z).
Context (row_ok : policy → bool) (isoformat : Z → ustr).
Notation insert_policy_at := (insert_policy lower upper int_of_str parse_uuid row_ok).
Notation update_policy_at := (update_policy lower upper int_of_str row_ok isoformat).

Definition perform (d : database) (c : call) : result http_err database :=
  match c with
  | CCreate req id now => fst <$> insert_policy_at d req id now
  | CUpdate id req if_match now => fst <$> update_policy_at d id req if_match now
  | CDelete id => delete_policy d id
  | CForce id now => force_reconcile_policy d id now
  end.

Lemma auto_apply_policies d p d' : auto_apply lower upper d p = Ok d' → d_policies d' = d_policies d.
Proof using.
  unfold auto_apply. destruct (negb _); [by intros [= <-]|].
  destruct (apply_policy_to_matching _ _ _ _ _ _ _) as [[rows n]|[]]; [by intros [= <-]|done].
Qed.

Lemma name_read req name :
  validate_policy_payload upper int_of_str req = Ok tt → as_str (py_or (get_val req "name" "name" JNull) (JStr [])) = Ok name →
  req !! "name" = Some (JStr name) ∧ strip name ≠ [].
Proof using.
  intros Hv Hn. unfold validate_policy_payload in Hv. rewrite Hn in Hv. apply bind_Ok in Hv as (n & [= <-] & Hv).
  apply bind_Ok in Hv as (? & Hn1%raise_if_Ok & _). apply bool_decide_eq_false in Hn1. split; [|done].
  apply as_str_Ok in Hn. assert (Hne : name ≠ []) by (intros ->; by apply Hn1). apply py_or_str in Hn; [|done].
  unfold get_val in Hn. destruct (req !! "name") as [v|]; simpl in Hn; [by subst|done].
Qed.

(** What a successful creation did. *)
Lemma insert_Ok d req id now d' p :
  insert_policy_at d req id now = Ok (d', p) →
  ∃ tenant st name,
    p = new_row req id tenant now st ∧ validate_policy_payload upper int_of_str req = Ok tt ∧
    req !! "name" = Some (JStr name) ∧ strip name ≠ [] ∧ gate_immutability_lock req JNull (strip name) = Ok tt ∧
    flush_row row_ok p ((if truthy (col p "is_default") then clear_defaults tenant None (d_policies d) else d_policies d) ++ [p])
      = Ok (d_policies d').
Proof using.
  unfold insert_policy. intros (tt & _ & H)%bind_Ok. apply bind_Ok in H as (tenant & _ & H). apply bind_Ok in H as (ty & _ & H).
  apply bind_Ok in H as (sty & _ & H). cbv zeta in H. apply bind_Ok in H as ([] & Hv & H). apply bind_Ok in H as (name & Hn & H).
  apply bind_Ok in H as ([] & Hg & H). apply bind_Ok in H as (ps & Hf & H). apply bind_Ok in H as (d2 & Ha & [= <- <-]).
  destruct (name_read _ _ Hv Hn) as [Hn1 Hn2]. eexists _, _, name. split; [done|]. repeat (split; [done|]).
  apply auto_apply_policies in Ha. by rewrite Ha.
Qed.

(** What a successful update did: [q] is the row before, [p] the row as assigned. *)
Lemma update_Ok d id req if_match now d' p :
  update_policy_at d id req if_match now = Ok (d', p) →
  ∃ q name,
    q ∈ d_policies d ∧ p_id q = id ∧ p_id p = id ∧ p_tenant p = p_tenant q ∧
    validate_policy_payload upper int_of_str req = Ok tt ∧ req !! "name" = Some (JStr name) ∧ strip name ≠ [] ∧
    gate_immutability_lock req (col q "immutability_mode") (strip name) = Ok tt ∧
    guard_zero_default (d_policies d) (p_tenant q) id
      (match req !! "isDefault" with Some v => Some (truthy v) | None => truthy <$> (req !! "is_default") end) (is_default q) = Ok tt ∧
    (∀ f, f ∈ field_map → col p f.2 = field_value req (col q f.2) f) ∧
    flush_row row_ok p (if bool_decide (get_val req "isDefault" "is_default" JNull = JBool true) && negb (is_default q)
      then clear_defaults (p_tenant q) (Some id) (d_policies d) else d_policies d) = Ok (d_policies d').
Proof using.
  unfold update_policy. intros (q & Hq%of_option_Ok & H)%bind_Ok. apply bind_Ok in H as (? & _ & H). apply bind_Ok in H as ([] & Hv & H).
  apply bind_Ok in H as (name & Hn & H). apply bind_Ok in H as ([] & Hg & H). cbv zeta in H. apply bind_Ok in H as ([] & Hz & H).
  apply bind_Ok in H as (ten & _ & H). apply bind_Ok in H as (sty & _ & H).
  set (q1 := with_service_type _ _ _ _) in H.
  apply bind_Ok in H as (ps & Hf & H). apply bind_Ok in H as (d2 & Ha & [= <- <-]).
  apply head_Some_elem_of, list_elem_of_filter in Hq as [Hid Hq].
  assert (Hq1 : p_id q1 = id ∧ p_tenant q1 = p_tenant q ∧ is_default q1 = is_default q ∧ ∀ f, f ∈ field_map → col q1 f.2 = col q f.2).
  { assert (Hst : ∀ f, f ∈ field_map → f.2 ≠ "service_type").
    { intros f Hf2. assert (H : forallb (λ f : string * string, negb (bool_decide (f.2 = "service_type"))) field_map = true) by by vm_compute.
      apply forallb_Forall in H. eapply Forall_forall in H; [|exact Hf2]. by apply negb_true_iff, bool_decide_eq_false in H. }
    assert (Hset : ∀ v, is_default (set_col "service_type" v q) = is_default q ∧
        ∀ f, f ∈ field_map → col (set_col "service_type" v q) f.2 = col q f.2).
    { intros v. split; [unfold is_default; by rewrite col_set|]. intros f Hf2. rewrite col_set, decide_False; [done|]. intros Hs. by apply (Hst f Hf2). }
    subst q1. unfold with_service_type. destruct sty; [|destruct (truthy _)]; (split; [done|]); (split; [done|]); [apply Hset|done|apply Hset]. }
  clearbody q1. destruct Hq1 as (I1 & I2 & I3 & I4).
  destruct (updated_row_id req now q1) as [U3 U4].
  assert (Hname : req !! "name" = Some (JStr name) ∧ strip name ≠ []).
  { assert (Hv' := Hv). unfold validate_policy_payload in Hv'. apply bind_Ok in Hv' as (n & Hn' & _).
    destruct (name_read _ _ Hv Hn') as [Hr Hs]. assert (n = name) as ->; [|done].
    unfold get in Hn. rewrite Hr in Hn. simpl in Hn. unfold py_or in Hn. simpl in Hn. rewrite bool_decide_eq_false_2 in Hn by (intros ->; by apply Hs).
    simpl in Hn. congruence. }
  exists q, name. rewrite I1, I2, I3 in *. split; [done|]. split; [done|]. split; [congruence|]. split; [congruence|].
  split; [done|]. split; [apply Hname|]. split; [apply Hname|]. split; [done|]. rewrite Hid in Hz. split; [done|]. split.
  - intros f Hf2.
    assert (Hne : f.2 ≠ "reconcile_attempts" ∧ f.2 ≠ "lifecycle_dirty").
    { assert (H : forallb (λ f : string * string, negb (bool_decide (f.2 = "reconcile_attempts")) && negb (bool_decide (f.2 = "lifecycle_dirty"))) field_map = true) by by vm_compute.
      apply forallb_Forall in H. eapply Forall_forall in H; [|exact Hf2]. apply andb_true_iff in H as [H1 H2].
      apply negb_true_iff, bool_decide_eq_false in H1, H2. done. }
    destruct Hne as [N1 N2]. rewrite updated_row_col by done. rewrite updates_col by apply field_map_nodup.
    assert (Hhead : head (filter (λ g : string * string, g.2 = f.2) field_map) = Some f).
    { pose proof field_map_nodup as Hnd. revert Hnd Hf2. clear. induction field_map as [|g fs IH]; [by intros _ ?%not_elem_of_nil|].
      simpl. intros [Hg Hnd]%NoDup_cons [->|Hin]%elem_of_cons; rewrite filter_cons; [by rewrite decide_True|].
      rewrite decide_False; [by apply IH|]. intros Heq. apply Hg. rewrite Heq. apply list_elem_of_fmap. by exists f. }
    rewrite Hhead. by rewrite I4.
  - assert (Hpol : d_policies d2 = ps).
    { destruct (bool_decide _ || bool_decide _) in Ha; [by apply auto_apply_policies in Ha|by injection Ha as <-]. }
    rewrite Hpol. exact Hf.
Qed.

Lemma clear_defaults_in tenant keep ps q :
  q ∈ clear_defaults tenant keep ps →
  ∃ q0, q0 ∈ ps ∧ p_id q = p_id q0 ∧ p_tenant q = p_tenant q0 ∧ ∀ c, c ≠ "is_default" → col q c = col q0 c.
Proof using.
  unfold clear_defaults. intros (q0 & -> & Hq)%list_elem_of_fmap. exists q0. split; [done|]. case_match; [|done].
  split; [done|]. split; [done|]. intros c Hc. rewrite col_set. by rewrite decide_False.
Qed.

(** The rows after a request: the written row, and rows that kept all but their default flag. *)
Lemma perform_rows d c d' q' :
  perform d c = Ok d' → q' ∈ d_policies d' →
  (∃ q, q ∈ d_policies d ∧ p_id q = p_id q' ∧ p_tenant q = p_tenant q' ∧
    ∀ k, k ≠ "is_default" → k ≠ "lifecycle_dirty" → k ≠ "reconcile_attempts" → k ≠ "last_cap_alert_at" → col q' k = col q k) ∨
  (∃ req id now p tenant st name, c = CCreate req id now ∧ p = new_row req id tenant now st ∧
    validate_policy_payload upper int_of_str req = Ok tt ∧ req !! "name" = Some (JStr name) ∧ strip name ≠ [] ∧
    gate_immutability_lock req JNull (strip name) = Ok tt ∧ ∀ k, col q' k = stored k (col p k)) ∨
  (∃ id req if_match now q p name, c = CUpdate id req if_match now ∧ q ∈ d_policies d ∧ p_id q = p_id q' ∧
    validate_policy_payload upper int_of_str req = Ok tt ∧ req !! "name" = Some (JStr name) ∧ strip name ≠ [] ∧
    gate_immutability_lock req (col q "immutability_mode") (strip name) = Ok tt ∧
    (∀ f, f ∈ field_map → col p f.2 = field_value req (col q f.2) f) ∧ ∀ k, col q' k = stored k (col p k)).
Proof using.
  destruct c as [req id now|id req if_match now|id|id now]; unfold perform; intros H Hq'.
  - destruct (insert_policy_at d req id now) as [[d2 p]|e] eqn:E; [|done]. cbn [fmap result_fmap fst] in H. injection H as ->.
    destruct (insert_Ok _ _ _ _ _ _ E) as (tenant & st & name & Hp & Hv & Hn & Hs & Hg & Hf).
    apply flush_row_Ok in Hf as (p' & Hps & _ & _ & Hid & Hten & Hcol). rewrite Hps in Hq'.
    apply list_elem_of_fmap in Hq' as (q & -> & Hq). case_decide as Hqi.
    + right. left. exists req, id, now, p, tenant, st, name. by repeat (split; [done|]).
    + left. apply elem_of_app in Hq as [Hq| ->%list_elem_of_singleton]; [|done].
      destruct (truthy (col p "is_default")); [|by exists q].
      apply clear_defaults_in in Hq as (q0 & H1 & H2 & H3 & H4). exists q0. repeat (split; [done|]). by intros k Hk _ _ _; apply H4.
  - destruct (update_policy_at d id req if_match now) as [[d2 p]|e] eqn:E; [|done]. cbn [fmap result_fmap fst] in H. injection H as ->.
    destruct (update_Ok _ _ _ _ _ _ _ E) as (q & name & Hq & Hqid & Hpid & Hten & Hv & Hn & Hs & Hg & _ & Hfields & Hf).
    apply flush_row_Ok in Hf as (p' & Hps & _ & _ & Hid & _ & Hcol). rewrite Hps in Hq'.
    apply list_elem_of_fmap in Hq' as (q1 & -> & Hq1). destruct (decide (p_id q1 = p_id p)) as [Hqi|Hqi].
    + right. right. exists id, req, if_match, now, q, p, name. split; [done|]. split; [done|]. split; [congruence|]. by repeat (split; [done|]).
    + left. destruct (_ && _) in Hq1; [|by exists q1].
      apply clear_defaults_in in Hq1 as (q0 & H1 & H2 & H3 & H4). exists q0. repeat (split; [done|]). by intros k Hk _ _ _; apply H4.
  - left. unfold delete_policy in H. apply bind_Ok in H as (q & _ & H). apply bind_Ok in H as (? & _ & [= <-]). cbn in Hq'.
    apply list_elem_of_filter in Hq' as [_ Hq']. by exists q'.
  - left. unfold force_reconcile_policy in H. apply bind_Ok in H as (q & Hq%of_option_Ok & [= <-]). cbn in Hq'.
    apply head_Some_elem_of, list_elem_of_filter in Hq as [Hid Hq].
    apply list_elem_of_fmap in Hq' as (q1 & -> & Hq1). case_decide as Hc; [|by exists q1].
    exists q. split; [done|]. split; [done|]. split; [done|]. intros k K1 K2 K3 K4.
    transitivity (col (set_col "last_cap_alert_at" JNull (set_col "reconcile_attempts" (JInt 0) (set_col "lifecycle_dirty" (JBool true) q))) k); [done|].
    rewrite !col_set. by rewrite !decide_False.
Qed.

(** The columns of a new row come from the payload. *)
Lemma new_row_col req id tenant now st c camel snake dflt :
  (c, camel, snake, dflt) ∈ create_columns st → c ≠ "lifecycle_dirty" → c ≠ "service_type" →
  col (new_row req id tenant now st) c = get_val req camel snake dflt.
Proof using.
  intros Hin H1 H2. unfold col, new_row. cbn [p_cols]. rewrite !lookup_insert_ne by done.
  erewrite (elem_of_list_to_map_1 (M := gmap string)); [done| |].
  - clear. apply (bool_decide_unpack _). unfold create_columns. by vm_compute.
  - apply list_elem_of_fmap. by exists (c, camel, snake, dflt).
Qed.
End Perform.

Lemma stored_other c v : c ∉ BOOLEAN_COLUMNS → stored c v = v.
Proof. intros H. unfold stored. by rewrite decide_False. Qed.

Lemma field_value_kept req old camel snake :
  snake ∉ NULLABLE_POLICY_COLUMNS → field_value req old (camel, snake) = (let v := get_val req camel snake JNull in if decide (v ≠ JNull) then v else old).
Proof. intros H. unfold field_value. simpl. case_decide; [done|]. by rewrite (bool_decide_eq_false_2 _ H), andb_false_r. Qed.

Ltac not_in := apply (bool_decide_unpack _); by vm_compute.
Ltac in_list := apply (bool_decide_unpack _); by vm_compute.

(** No request makes a policy immutable (WORM) by accident: when a policy is Locked
    after a request, it was Locked before, or the request carries the confirmation flag
    and the typed name of the policy as it is called afterwards; neither renaming the
    policy in the same request, nor naming a field in its other spelling, nor sending
    nulls gets around the two confirmations. *)
Theorem worm_lock_needs_confirmation lower upper int_of_str parse_uuid row_ok isoformat d c d' q' :
  perform lower upper int_of_str parse_uuid row_ok isoformat d c = Ok d' → q' ∈ d_policies d' →
  locked (col q' "immutability_mode") →
  (∃ q, q ∈ d_policies d ∧ p_id q = p_id q' ∧ locked (col q "immutability_mode")) ∨
  lock_confirmed (request_of c) (col q' "name").
Proof.
  assert (N1 : "immutability_mode" ∉ BOOLEAN_COLUMNS) by not_in. assert (N2 : "name" ∉ BOOLEAN_COLUMNS) by not_in.
  intros H Hq' Hl. destruct (perform_rows _ _ _ _ _ _ _ _ _ _ H Hq') as [(q & Hq & Hid & _ & Hcol)|
    [(req & id & now & p & tenant & st & name & -> & -> & Hv & Hn & Hs & Hg & Hcol)|
     (id & req & im & now & q & p & name & -> & Hq & Hid & Hv & Hn & Hs & Hg & Hf & Hcol)]].
  - left. exists q. rewrite Hcol in Hl by done. done.
  - right. simpl. rewrite Hcol, stored_other in * by done.
    assert (Hname : col (new_row req id tenant now st) "name" = JStr name).
    { rewrite (new_row_col req id tenant now st "name" "name" "name" (JStr (u "New Policy"))); [|by left|done..].
      unfold get_val. by rewrite Hn. }
    rewrite (new_row_col req id tenant now st "immutability_mode" "immutabilityMode" "immutability_mode" (JStr (u "None"))) in Hl;
      [|unfold create_columns; do 38 right; left|done..].
    assert (Hl' : locked (get_val req "immutabilityMode" "immutability_mode" JNull)).
    { destruct Hl as (s & Hs1 & Hs2). exists s. split; [|done]. unfold get_val in *. destruct (req !! "immutabilityMode"); [done|].
      destruct (req !! "immutability_mode"); [done|]. simpl in *. injection Hs1 as <-. by vm_compute in Hs2. }
    rewrite Hname. destruct (gate_Ok req JNull (JStr name) name Hg eq_refl Hs Hl') as [(s & [=] & _)|?]. done.
  - rewrite Hcol, stored_other in Hl by done. rewrite (Hcol "name"), stored_other by done.
    assert (F1 : ("immutabilityMode", "immutability_mode") ∈ field_map) by in_list.
    assert (F2 : ("name", "name") ∈ field_map) by in_list.
    apply Hf in F1, F2. simpl in F1, F2. rewrite F1, field_value_kept in Hl by not_in. cbv zeta in Hl.
    case_decide as Hval; [|left; by exists q].
    rewrite F2, field_value_kept by not_in. cbv zeta.
    assert (Hget : get_val req "name" "name" JNull = JStr name) by (unfold get_val; by rewrite Hn). rewrite Hget.
    rewrite decide_True by done. destruct (gate_Ok req _ (JStr name) name Hg eq_refl Hs Hl) as [?|?]; [left; by exists q|by right].
Qed.
