(* ===== verification/PolicySafety.v ===== *)
(** * Policies: validity, defaults and retries

    The theorems on [PolicyApi] beyond the immutability gate: a created policy has valid
    settings, a tenant keeps one default policy, a retried creation creates nothing; and
    the examples of the component. *)

From S2P Require Import Prelude ArchiveNames Mbox Export PolicyBinding PolicyApi.
Local Open Scope nat_scope.

(** ** New policies are valid *)

Lemma py_or_default v w d : (v = w ∨ v = JNull ∧ w = JStr d) → py_or w (JStr d) = py_or v (JStr d).
Proof. intros [-> |[-> ->]]; [done|]. unfold py_or. simpl. by destruct (bool_decide _). Qed.

Lemma get_val_default req camel snake d : get_val req camel snake JNull = get_val req camel snake d ∨
  get_val req camel snake JNull = JNull ∧ get_val req camel snake d = d.
Proof. unfold get_val. destruct (req !! camel); [by left|]. destruct (req !! snake); [by left|by right]. Qed.


(** C23: A policy that was created describes settings the rest of the system can follow:
    its name is not blank, its days are numbers between zero and the cap, its modes are
    known, a GFS policy keeps at least one period, a CUSTOM archive mode has its days, and
    a customer key has an HTTPS vault and a name. *)
Theorem created_policy_is_valid lower upper int_of_str parse_uuid row_ok isoformat d req id now d' :
  perform lower upper int_of_str parse_uuid row_ok isoformat d (CCreate req id now) = Ok d' →
  ∃ q, q ∈ d_policies d' ∧ p_id q = id ∧ settings_valid upper int_of_str (col q).
Proof.
  unfold perform. intros H.
  destruct (insert_policy _ _ _ _ _ d req id now) as [[d2 p]|e] eqn:E; [|done]. cbn [fmap result_fmap fst] in H. injection H as ->.
  destruct (insert_Ok _ _ _ _ _ _ _ _ _ _ _ E) as (tenant & st & name & Hp & Hv & Hn & Hs & Hg & Hf).
  apply flush_row_Ok in Hf as (p' & Hps & _ & _ & Hid & _ & Hcol). assert (Hpid : p_id p = id) by by rewrite Hp.
  exists p'. split; [|split; [congruence|]].
  { rewrite Hps. apply list_elem_of_fmap. exists p. split; [by rewrite decide_True|]. apply elem_of_app. right. left. }
  assert (Hval : ∀ c camel snake dflt, c ∉ BOOLEAN_COLUMNS → (c, camel, snake, dflt) ∈ create_columns st →
    c ≠ "lifecycle_dirty" → c ≠ "service_type" → col p' c = get_val req camel snake dflt).
  { intros c camel snake dflt Hb Hin H1 H2. rewrite Hcol, stored_other, Hp by done. by eapply new_row_col. }
  assert (Hin : ∀ c camel snake, (c, camel, snake, JNull) ∈ create_columns st → c ∉ BOOLEAN_COLUMNS → c ≠ "lifecycle_dirty" → c ≠ "service_type" →
    col p' c = get_val req camel snake JNull) by (intros; by eapply Hval).
  apply (validated upper int_of_str req Hv).
  - rewrite (Hval "name" "name" "name" (JStr (u "New Policy"))); [|not_in|left|done..]. unfold get_val. by rewrite Hn.
  - intros f Hf. unfold day_fields in Hf.
    repeat (apply elem_of_cons in Hf as [->|Hf]); [..|by apply not_elem_of_nil in Hf]; cbn [fst snd].
    + rewrite (Hval "retention_hot_days" "retentionHotDays" "retention_hot_days" (JInt 7)); [|not_in|unfold create_columns; do 25 right; left|done..].
      destruct (get_val_default req "retentionHotDays" "retention_hot_days" (JInt 7)) as [->|[-> ->]]; [by left|right]. split; [done|]. exists 7%Z.
      split; [done|by vm_compute].
    + rewrite (Hval "retention_cool_days" "retentionCoolDays" "retention_cool_days" (JInt 30)); [|not_in|unfold create_columns; do 26 right; left|done..].
      destruct (get_val_default req "retentionCoolDays" "retention_cool_days" (JInt 30)) as [->|[-> ->]]; [by left|right]. split; [done|]. exists 30%Z.
      split; [done|by vm_compute].
    + left. apply Hin; [unfold create_columns; do 27 right; left|not_in|done..].
    + left. apply Hin; [unfold create_columns; do 23 right; left|not_in|done..].
    + left. apply Hin; [unfold create_columns; do 32 right; left|not_in|done..].
    + left. apply Hin; [unfold create_columns; do 35 right; left|not_in|done..].
  - intros f Hf. unfold gfs_fields in Hf.
    repeat (apply elem_of_cons in Hf as [->|Hf]); [..|by apply not_elem_of_nil in Hf]; cbn [fst snd].
    + apply Hin; [unfold create_columns; do 28 right; left|not_in|done..].
    + apply Hin; [unfold create_columns; do 29 right; left|not_in|done..].
    + apply Hin; [unfold create_columns; do 30 right; left|not_in|done..].
    + apply Hin; [unfold create_columns; do 31 right; left|not_in|done..].
  - rewrite (Hval "retention_mode" "retentionMode" "retention_mode" (JStr (u "FLAT"))); [|not_in|unfold create_columns; do 24 right; left|done..].
    apply py_or_default, get_val_default.
  - rewrite (Hval "archived_retention_mode" "archivedRetentionMode" "archived_retention_mode" (JStr (u "SAME"))); [|not_in|unfold create_columns; do 34 right; left|done..].
    apply py_or_default, get_val_default.
  - apply Hin; [unfold create_columns; do 35 right; left|not_in|done..].
  - rewrite (Hval "immutability_mode" "immutabilityMode" "immutability_mode" (JStr (u "None"))); [|not_in|unfold create_columns; do 38 right; left|done..].
    apply py_or_default, get_val_default.
  - rewrite (Hval "encryption_mode" "encryptionMode" "encryption_mode" (JStr (u "VAULT_MANAGED"))); [|not_in|unfold create_columns; do 39 right; left|done..].
    apply py_or_default, get_val_default.
  - apply Hin; [unfold create_columns; do 40 right; left|not_in|done..].
  - apply Hin; [unfold create_columns; do 41 right; left|not_in|done..].
Qed.

(** ** One default policy per tenant *)

Definition has_default (ps : list policy) (tenant : Z) : Prop := ∃ q, q ∈ ps ∧ p_tenant q = tenant ∧ is_default q = true.

Lemma one_default_ext ps ps' :
  map (λ q, (p_tenant q, is_default q)) ps = map (λ q, (p_tenant q, is_default q)) ps' → one_default ps = one_default ps'.
Proof.
  assert (Hex : ∀ t (l l' : list policy), map (λ q, (p_tenant q, is_default q)) l = map (λ q, (p_tenant q, is_default q)) l' →
    existsb (λ q, is_default q && bool_decide (p_tenant q = t)) l = existsb (λ q, is_default q && bool_decide (p_tenant q = t)) l').
  { intros t l. induction l as [|q l IH]; intros [|q' l'] H; simpl in *; try done. injection H as H1 H2 H3. by rewrite H1, H2, (IH l'). }
  revert ps'. induction ps as [|q ps IH]; intros [|q' ps'] H; simpl in *; try done. injection H as H1 H2 H3.
  by rewrite H1, H2, (Hex _ _ _ H3), (IH _ H3).
Qed.

Lemma same_id ps (q q' : policy) : NoDup (map p_id ps) → q ∈ ps → q' ∈ ps → p_id q = p_id q' → q = q'.
Proof.
  intros Hnd [i Hi]%list_elem_of_lookup [j Hj]%list_elem_of_lookup Hid.
  assert (i = j) as ->; [|congruence]. eapply NoDup_lookup; [exact Hnd| |]; rewrite list_lookup_fmap; [rewrite Hi|rewrite Hj]; simpl; by f_equal.
Qed.

Lemma stored_default p p' : (∀ k, col p' k = stored k (col p k)) → col p "is_default" = JBool true ∨ col p "is_default" = JInt 1 → is_default p' = true.
Proof. intros H [E|E]; unfold is_default; rewrite H, E; by vm_compute. Qed.

Section Defaults.
Context (lower upper : ustr → ustr) (int_of_str : ustr → option Z) (parse_uuid : ustr → option Z).
Context (row_ok : policy → bool) (isoformat : Z → ustr).
Notation perform_at := (perform lower upper int_of_str parse_uuid row_ok isoformat).

(** A truthy default flag that can be written is a default. *)
Lemma truthy_default p ps ps' :
  flush_row row_ok p ps = Ok ps' → truthy (col p "is_default") = true → col p "is_default" = JBool true ∨ col p "is_default" = JInt 1.
Proof using.
  clear. unfold flush_row. intros (p' & Hp & _)%bind_Ok Ht. destruct (store_bools_col _ _ _ Hp) as (_ & _ & _ & _ & Hc).
  destruct (Hc "is_default") as [_ Hd]. assert (Hin : "is_default" ∈ BOOLEAN_COLUMNS) by in_list. specialize (Hd Hin).
  destruct (col p "is_default") as [|[]|[|[]|]| |]; try done; first [by left|by right].
Qed.

Lemma create_keeps_default d req id now d' t :
  id ∉ map p_id (d_policies d) → perform_at d (CCreate req id now) = Ok d' →
  has_default (d_policies d) t → has_default (d_policies d') t.
Proof using.
  intros Hfresh H (q & Hq & Ht & Hd). unfold perform in H.
  destruct (insert_policy _ _ _ _ _ d req id now) as [[d2 p]|e] eqn:E; [|done]. cbn [fmap result_fmap fst] in H. injection H as ->.
  unfold insert_policy in E. apply bind_Ok in E as (tt & _ & E). apply bind_Ok in E as (tenant & _ & E). apply bind_Ok in E as (ty & _ & E).
  apply bind_Ok in E as (sty & _ & E). cbv zeta in E. apply bind_Ok in E as ([] & _ & E). apply bind_Ok in E as (name & _ & E).
  apply bind_Ok in E as ([] & _ & E). apply bind_Ok in E as (ps & Hf & E). apply bind_Ok in E as (d3 & Ha & [= -> Hp]).
  apply auto_apply_policies in Ha. cbn in Ha. rewrite Ha. rewrite Hp in Hf.
  assert (Hpid : p_id p = id ∧ p_tenant p = tenant) by (by rewrite <- Hp). destruct Hpid as [Hpid Hpt].
  assert (Hother : ∀ q0, q0 ∈ d_policies d → p_id q0 ≠ p_id p).
  { intros q0 H0 Heq. apply Hfresh. apply list_elem_of_fmap. exists q0. split; [congruence|done]. }
  pose proof (flush_row_Ok _ _ _ _ Hf) as (p' & Hps & _ & _ & Hid & Hten & Hcol).
  destruct (truthy (col p "is_default")) eqn:Htr; [destruct (decide (t = tenant)) as [->|Hne]|].
  - exists p'. split; [|split; [congruence|]].
    + rewrite Hps. apply list_elem_of_fmap. exists p. split; [by rewrite decide_True|]. apply elem_of_app. right. left.
    + eapply stored_default; [done|]. by eapply truthy_default.
  - exists q. split; [|done]. rewrite Hps. apply list_elem_of_fmap. exists q. split; [rewrite decide_False; [done|by apply Hother]|].
    apply elem_of_app. left. apply list_elem_of_fmap. exists q. split; [|done]. rewrite (bool_decide_eq_false_2 (p_tenant q = tenant)) by congruence. done.
  - exists q. split; [|done]. rewrite Hps. apply list_elem_of_fmap. exists q. split; [rewrite decide_False; [done|by apply Hother]|].
    apply elem_of_app. by left.
Qed.

Lemma update_keeps_default d id req im now d' t :
  NoDup (map p_id (d_policies d)) → perform_at d (CUpdate id req im now) = Ok d' → has_default (d_policies d) t →
  has_default (d_policies d') t ∨ ∀ q, q ∈ d_policies d' → p_tenant q = t → is_enabled q = true → p_id q = id.
Proof using.
  intros Hnd H (q & Hq & Ht & Hd). unfold perform in H.
  destruct (update_policy _ _ _ _ _ d id req im now) as [[d2 p]|e] eqn:E; [|done]. cbn [fmap result_fmap fst] in H. injection H as ->.
  destruct (update_Ok _ _ _ _ _ _ _ _ _ _ _ _ E) as (q0 & name & Hq0 & Hq0id & Hpid & Hpt & _ & _ & _ & _ & Hguard & Hfields & Hf).
  pose proof (flush_row_Ok _ _ _ _ Hf) as (p' & Hps & _ & _ & Hid & Hten & Hcol).
  assert (Hdf : col p "is_default" = (let v := get_val req "isDefault" "is_default" JNull in if decide (v ≠ JNull) then v else col q0 "is_default")).
  { assert (F : ("isDefault", "is_default") ∈ field_map) by in_list. apply Hfields in F. simpl in F. by rewrite F, field_value_kept by not_in. }
  cbv zeta in Hdf. set (val := get_val req "isDefault" "is_default" JNull) in *.
  assert (Hin' : p' ∈ d_policies d').
  { rewrite Hps. apply list_elem_of_fmap. destruct (_ && _).
    - exists (if bool_decide (p_tenant q0 = p_tenant q0) && is_default q0 && negb (bool_decide (Some id = Some (p_id q0))) then set_col "is_default" (JBool false) q0 else q0).
      split; [|apply list_elem_of_fmap; by exists q0]. rewrite decide_True; [done|]. rewrite Hpid, <- Hq0id. by destruct (_ && _).
    - exists q0. split; [|done]. rewrite decide_True; [done|]. by rewrite Hpid. }
  assert (Hkeep : ∀ r, r ∈ d_policies d → p_id r ≠ id → (p_tenant r ≠ p_tenant q0 ∨ (bool_decide (val = JBool true) && negb (is_default q0)) = false) →
    r ∈ d_policies d').
  { intros r Hr Hrid Hcase. rewrite Hps. apply list_elem_of_fmap. exists r. split; [by rewrite decide_False by congruence|].
    destruct (_ && _); [|done]. destruct Hcase as [Hne|?]; [|done]. apply list_elem_of_fmap. exists r. split; [|done].
    by rewrite (bool_decide_eq_false_2 (p_tenant r = p_tenant q0)). }
  destruct (bool_decide (val = JBool true) && negb (is_default q0)) eqn:Hflip.
  - left. apply andb_true_iff in Hflip as [Hv%bool_decide_eq_true Hnd0]. destruct (decide (t = p_tenant q0)) as [->|Hne].
    + exists p'. split; [done|]. split; [congruence|]. eapply stored_default; [done|]. left. by rewrite Hdf, decide_True by by rewrite Hv.
    + exists q. split; [|done]. apply Hkeep; [done| |left; congruence]. intros Hqi. assert (q = q0) by (eapply same_id; [exact Hnd|done..|by rewrite Hqi, Hq0id]). congruence.
  - destruct (decide (p_id q = id)) as [Hqid|Hqid]; [|left; exists q; split; [by apply Hkeep; [| |right]|done]].
    assert (q = q0) as -> by (eapply same_id; [exact Hnd|done..|by rewrite Hqid, Hq0id]).
    destruct (decide (val = JNull)) as [Hnull|Hval].
    { left. exists p'. split; [done|]. split; [congruence|]. eapply stored_default; [done|]. left. rewrite Hdf.
      rewrite decide_False by (intros Hc; by apply Hc). unfold is_default in Hd. by apply bool_decide_eq_true in Hd. }
    rewrite decide_True in Hdf by done. destruct (truthy val) eqn:Htr.
    { left. exists p'. split; [done|]. split; [congruence|]. eapply stored_default; [done|].
      eapply truthy_default; [exact Hf|]. by rewrite Hdf. }
    assert (Hreq : match req !! "isDefault" with Some v => Some (truthy v) | None => truthy <$> (req !! "is_default") end = Some false).
    { unfold val, get_val in Htr, Hval. destruct (req !! "isDefault") as [v|]; [by rewrite Htr|].
      destruct (req !! "is_default") as [v|]; simpl in *; [by rewrite Htr|done]. }
    rewrite Hreq in Hguard. unfold guard_zero_default in Hguard. rewrite Hd in Hguard. cbn [negb] in Hguard.
    destruct (existsb _ _) eqn:Hex.
    + left. apply existsb_elem in Hex as (r & Hr & [[Hrt%bool_decide_eq_true Hri]%andb_true_iff Hrd]%andb_true_iff).
      apply negb_true_iff, bool_decide_eq_false in Hri. exists r. split; [by apply Hkeep; [| |right]|]. by split; [congruence|].
    + right. destruct (existsb _ _) eqn:Hex2 in Hguard; [done|]. intros r Hr Hrt Hre. destruct (decide (p_id r = id)) as [|Hri]; [done|exfalso].
      rewrite Hps in Hr. apply list_elem_of_fmap in Hr as (r0 & -> & Hr0).
      destruct (decide (p_id r0 = p_id p)) as [Hr0i|Hr0i]; [congruence|].
      assert (Hex3 : existsb (λ q, bool_decide (p_tenant q = p_tenant q0) && negb (bool_decide (p_id q = id)) && is_enabled q) (d_policies d) = true).
      { apply existsb_elem. exists r0. split; [done|]. rewrite Hre, (bool_decide_eq_true_2 (p_tenant r0 = p_tenant q0)), (bool_decide_eq_false_2 (p_id r0 = id)) by congruence. done. }
      by rewrite Hex3 in Hex2.
Qed.
End Defaults.

(** C22: A tenant never has two default policies, and no creation or edit takes its default
    away while another enabled policy could carry it: after a request that is not a
    deletion, a tenant that had a default has one, or the request edited the only policy
    of the tenant that is enabled. *)
Theorem tenant_keeps_its_default lower upper int_of_str parse_uuid row_ok isoformat d c d' :
  NoDup (map p_id (d_policies d)) → one_default (d_policies d) = true → fresh d c → (∀ id, c ≠ CDelete id) →
  perform lower upper int_of_str parse_uuid row_ok isoformat d c = Ok d' →
  one_default (d_policies d') = true ∧
  ∀ t, has_default (d_policies d) t → has_default (d_policies d') t ∨
    ∃ id req if_match now, c = CUpdate id req if_match now ∧
      ∀ q, q ∈ d_policies d' → p_tenant q = t → is_enabled q = true → p_id q = id.
Proof.
  intros Hnd Hone Hfresh Hdel H. destruct c as [req id now|id req im now|id|id now].
  - split; [|intros t Hd; left; by eapply create_keeps_default]. unfold perform in H.
    destruct (insert_policy _ _ _ _ _ d req id now) as [[d2 p]|e] eqn:E; [|done]. cbn [fmap result_fmap fst] in H. injection H as ->.
    destruct (insert_Ok _ _ _ _ _ _ _ _ _ _ _ E) as (tenant & st & name & _ & _ & _ & _ & _ & Hf).
    by destruct (flush_row_Ok _ _ _ _ Hf) as (p' & _ & _ & Ho & _).
  - split; [|intros t Hd; destruct (update_keeps_default _ _ _ _ _ _ _ _ _ _ _ _ _ Hnd H Hd); [by left|right; by exists id, req, im, now]].
    unfold perform in H. destruct (update_policy _ _ _ _ _ d id req im now) as [[d2 p]|e] eqn:E; [|done]. cbn [fmap result_fmap fst] in H. injection H as ->.
    destruct (update_Ok _ _ _ _ _ _ _ _ _ _ _ _ E) as (q0 & name & _ & _ & _ & _ & _ & _ & _ & _ & _ & _ & Hf).
    by destruct (flush_row_Ok _ _ _ _ Hf) as (p' & _ & _ & Ho & _).
  - by destruct (Hdel id).
  - unfold perform, force_reconcile_policy in H. apply bind_Ok in H as (p & Hp%of_option_Ok & [= <-]). cbn.
    apply head_Some_elem_of, list_elem_of_filter in Hp as [Hid Hp].
    set (f := λ q : policy, if decide (p_id q = id) then _ else q).
    assert (Hf : ∀ q, q ∈ d_policies d → p_tenant (f q) = p_tenant q ∧ is_default (f q) = is_default q).
    { intros q Hq. unfold f. case_decide as Hqi; [|done]. assert (q = p) as -> by (eapply same_id; [exact Hnd|done..|congruence]).
      split; [done|]. unfold is_default.
      change (bool_decide (col (set_col "last_cap_alert_at" JNull (set_col "reconcile_attempts" (JInt 0) (set_col "lifecycle_dirty" (JBool true) p))) "is_default" = JBool true)
        = bool_decide (col p "is_default" = JBool true)). by rewrite !col_set. }
    clearbody f. split.
    + rewrite <- Hone. symmetry. apply one_default_ext. rewrite map_map. apply map_ext_in. intros q Hq%list_elem_of_In.
      by destruct (Hf q Hq) as [-> ->].
    + intros t (q & Hq & Ht & Hd). left. exists (f q). split; [apply list_elem_of_fmap; by exists q|]. by destruct (Hf q Hq) as [-> ->].
Qed.

(** ** Retried creations *)

Lemma put_find c key body now : key ≠ [] → cache_find (idempotency_put c key body now) key = Some (now, body).
Proof.
  intros Hk. unfold idempotency_put. rewrite decide_False by done. cbv zeta.
  match goal with |- cache_find (match cache_find ?x _ with _ => _ end) _ = _ => generalize x end. clear c. intros c.
  unfold cache_find. induction c as [|[k v] c IH]; [cbn [filter head fmap option_fmap option_map]; change (snd <$> head (filter (λ e : ustr * (Z * policy), e.1 = key) [(key, (now, body))]) = Some (now, body)); by rewrite filter_cons, decide_True|].
  rewrite filter_cons. cbn [fst]. destruct (decide (k = key)) as [->|Hne].
  - simpl. rewrite decide_True by done. rewrite filter_cons, decide_True by done. done.
  - destruct (snd <$> head (filter (λ e, e.1 = key) c)) eqn:E; simpl in *;
      [rewrite decide_False by done|]; rewrite filter_cons, decide_False by done; exact IH.
Qed.

(** A retried creation creates nothing: once a creation under an idempotency key has
    answered, every request with that key within the day is given the same answer, the
    database and the cache stay as they are, and whatever the request asks for is not
    looked at, its tenant included. *)
Theorem retried_creation_creates_nothing lower upper int_of_str parse_uuid row_ok d c key req id now p d' c' :
  key ≠ [] → cache_find c key = None →
  create_policy lower upper int_of_str parse_uuid row_ok d c key req id now = (Ok p, d', c') →
  ∀ d2 req2 id2 now2, (now2 ≤ now + IDEMPOTENCY_TTL)%Z →
  create_policy lower upper int_of_str parse_uuid row_ok d2 c' key req2 id2 now2 = (Ok p, d2, c').
Proof.
  intros Hk Hc H d2 req2 id2 now2 Hnow. unfold create_policy, idempotency_get in *. rewrite decide_False in * by done. rewrite Hc in H.
  destruct (insert_policy _ _ _ _ _ d req id now) as [[d3 p3]|e]; [|done]. injection H as -> -> <-.
  rewrite put_find by done. by destruct (Z.ltb_spec IDEMPOTENCY_TTL (now2 - now)); [lia|].
Qed.

(** ** Examples *)

Module PolicyExamples.

Definition same_text (s : ustr) : ustr := s.
Definition digit (s : ustr) : option Z := match s with [c] => if (48 <=? c) && (c <=? 57) then Some (c - 48) else None | _ => None end%Z.
Definition any_row (p : policy) : bool := true.
Definition at_time (t : Z) : ustr := [t].

Definition run (d : database) (c : call) : result http_err database := perform same_text same_text digit digit any_row at_time d c.

Definition create_request : request := list_to_map [
  ("tenantId", JStr (u "7")); ("name", JStr (u "Mail")); ("isDefault", JBool true);
  ("retentionMode", JStr (u "GFS")); ("gfsDailyCount", JInt 7);
  ("immutabilityMode", JStr (u "Locked")); ("confirmImmutabilityLock", JBool true); ("immutabilityLockTypedName", JStr (u "Mail "))].
Definition empty_db : database := Database {[7%Z := u "M365"]} [] [] [] [].
Definition first_db : database := from_ok empty_db (run empty_db (CCreate create_request 1 100)).
Definition second_request : request := list_to_map [
  ("tenantId", JStr (u "7")); ("name", JStr (u "Files")); ("isDefault", JBool true)].
Definition second_db : database := from_ok empty_db (run first_db (CCreate second_request 2 200)).

Example created : run empty_db (CCreate create_request 1 100) = Ok first_db ∧ length (d_policies first_db) = 1.
Proof. split; apply (bool_decide_unpack _); by vm_compute. Qed.

(** The lock without its confirmation, or with another name typed, is refused. *)
Example lock_refused :
  run empty_db (CCreate (delete "confirmImmutabilityLock" create_request) 1 100) = Err (Http 400 "lock not confirmed") ∧
  run empty_db (CCreate (<["immutabilityLockTypedName" := JStr (u "Files")]> create_request) 1 100) = Err (Http 400 "typed name does not match").
Proof. split; apply (bool_decide_unpack _); by vm_compute. Qed.

(** The default moves to the second policy, and cannot be given up by it. *)
Example default_moves :
  map is_default (d_policies second_db) = [false; true] ∧
  run second_db (CUpdate 2 (list_to_map [("name", JStr (u "Files")); ("isDefault", JBool false)]) [] 300) = Err (Http 409 "the only default policy").
Proof. split; apply (bool_decide_unpack _); by vm_compute. Qed.

(** An edit is validated by itself: it can leave a GFS policy that keeps no period. *)
Definition gfs_cleared : request := list_to_map [("name", JStr (u "Mail")); ("gfsDailyCount", JNull)].
Definition gfs_db : database := from_ok empty_db (run first_db (CUpdate 1 gfs_cleared [] 300)).
Example edit_leaves_invalid_policy :
  run first_db (CUpdate 1 gfs_cleared [] 300) = Ok gfs_db ∧
  map (λ q, (col q "retention_mode", map (λ f, col q f.2) gfs_fields)) (d_policies gfs_db) = [(JStr (u "GFS"), [JNull; JNull; JNull; JNull])].
Proof. split; apply (bool_decide_unpack _); by vm_compute. Qed.

(** A default, immutable policy is deleted like any other. *)
Definition deleted_db : database := from_ok empty_db (run first_db (CDelete 1)).
Example default_is_deleted :
  run first_db (CDelete 1) = Ok deleted_db ∧ d_policies deleted_db = [] ∧
  map (λ q, (is_default q, col q "immutability_mode")) (d_policies first_db) = [(true, JStr (u "Locked"))].
Proof. split; [|split]; apply (bool_decide_unpack _); by vm_compute. Qed.

Definition locked_policy : policy := default (new_row create_request 1 7 100 (u "m365")) (head (d_policies first_db)).

Lemma worm_lock_needs_confirmation_witness :
  (∃ q, q ∈ d_policies empty_db ∧ p_id q = p_id locked_policy ∧ locked (col q "immutability_mode")) ∨
  lock_confirmed create_request (col locked_policy "name").
Proof.
  apply (worm_lock_needs_confirmation same_text same_text digit digit any_row at_time empty_db (CCreate create_request 1 100) first_db).
  - apply (bool_decide_unpack _); by vm_compute.
  - apply (bool_decide_unpack _); by vm_compute.
  - exists (u "Locked"). split; apply (bool_decide_unpack _); by vm_compute.
Defined.

Lemma created_policy_is_valid_witness :
  ∃ q, q ∈ d_policies first_db ∧ p_id q = 1%Z ∧ settings_valid same_text digit (col q).
Proof.
  apply (created_policy_is_valid same_text same_text digit digit any_row at_time empty_db create_request 1 100). apply (bool_decide_unpack _); by vm_compute.
Defined.

Lemma tenant_keeps_its_default_witness :
  one_default (d_policies second_db) = true ∧
  ∀ t, has_default (d_policies first_db) t → has_default (d_policies second_db) t ∨
    ∃ id req if_match now, CCreate second_request 2 200 = CUpdate id req if_match now ∧
      ∀ q, q ∈ d_policies second_db → p_tenant q = t → is_enabled q = true → p_id q = id.
Proof.
  apply (tenant_keeps_its_default same_text same_text digit digit any_row at_time first_db (CCreate second_request 2 200)).
  - apply (bool_decide_unpack _); by vm_compute.
  - apply (bool_decide_unpack _); by vm_compute.
  - apply (bool_decide_unpack _); by vm_compute.
  - done.
  - apply (bool_decide_unpack _); by vm_compute.
Defined.

Definition key1 : ustr := u "k1".
Definition first_policy : policy := new_row create_request 1 7 100 (u "m365").
Definition first_cache : list (ustr * (Z * policy)) := [(key1, (100%Z, first_policy))].

Lemma retried_creation_creates_nothing_witness :
  create_policy same_text same_text digit digit any_row second_db first_cache key1 second_request 3 500 = (Ok first_policy, second_db, first_cache).
Proof.
  apply (retried_creation_creates_nothing same_text same_text digit digit any_row empty_db [] key1 create_request 1 100 first_policy first_db first_cache).
  - apply (bool_decide_unpack _); by vm_compute.
  - apply (bool_decide_unpack _); by vm_compute.
  - apply (bool_decide_unpack _); by vm_compute.
  - apply (bool_decide_unpack _); by vm_compute.
Defined.

End PolicyExamples.
