(* ===== verification/CopyWork.v ===== *)
(** * Copy work: intents, queues and claims

    [src/shared/copy_work.py]. A backup leaf (a snapshot or one of its partitions) that
    must carry rows over from earlier snapshots registers tasks with a copy workflow while
    it drains its source; the workflow is sealed ([CopyFlow]), its tasks are claimed in a
    fair order and executed in bounded batches ([CopyBatch]), and the leaf resumes when
    all of them have ended.

    One transaction is one function on the tables, at one clock reading; times are
    microseconds, virtual finish times exact rationals where the column is a float. The
    keys of a request that the code hashes as text are [pm_rest]; the selector lists a
    request keeps in rows of their own ([copy_work_inputs]) are part of it. The query
    that picks the source snapshot is a parameter; what is done with its answer is not. *)

From Stdlib Require Import QArith.Qcanon.
From stdpp Require Import numbers pretty.
From S2P Require Import Prelude Reconciler Provider.
Local Open Scope Z_scope.

(** ** Tables *)

Inductive copy_kind :=
  ChatCarry | MailCarry | FileVersions | LegacyChatAttachments | ChatRename | ChatLabels | ChatPresentation | ArchiveCarry.
Global Instance copy_kind_eq_dec : EqDecision copy_kind.
Proof. solve_decision. Defined.

Definition kind_text (k : copy_kind) : string :=
  match k with
  | ChatCarry => "CHAT_CARRY" | MailCarry => "MAIL_CARRY" | FileVersions => "FILE_VERSIONS"
  | LegacyChatAttachments => "LEGACY_CHAT_ATTACHMENTS" | ChatRename => "CHAT_RENAME" | ChatLabels => "CHAT_LABELS"
  | ChatPresentation => "CHAT_PRESENTATION" | ArchiveCarry => "ARCHIVE_CARRY"
  end.

Inductive task_state := TReady | TRunning | TCompleted | TFailed | TCancelled.
Global Instance task_state_eq_dec : EqDecision task_state.
Proof. solve_decision. Defined.

(** [TERMINAL_TASKS]. *)
Definition task_ended (st : task_state) : bool := bool_decide (st ∈ [TCompleted; TFailed; TCancelled]).

Record copy_job := CopyJob {
  cj_status : job_status; cj_token : Z; cj_owner : option string; cj_tenant : string; cj_priority : option Z }.

(** Where a capture without a predecessor started from. *)
Record mail_origin := MailOrigin { mo_cursor_free : bool; mo_folders : list string }.

(** The columns and [extra_data] keys of a snapshot the copy code reads or writes. *)
Record copy_snapshot := CopySnapshot {
  cs_status : snapshot_status;
  cs_lease : leaf_lease;
  cs_job : string;
  cs_resource : string;
  cs_cancelled : bool;
  cs_flow : option string;
  cs_phase : option string;
  cs_required_failed : bool;
  cs_degraded : option string;
  cs_catalogue : bool;
  cs_union_carry : bool;
  cs_origin : option mail_origin;
  cs_checkpoints : list string;
  cs_presented : bool;
}.

Record carry_plan := CarryPlan { cy_fallback : bool; cy_truncated : bool; cy_excluded : bool }.

Record copy_partition := CopyPartition {
  cp_status : string;
  cp_lease : leaf_lease;
  cp_snapshot : string;
  cp_job : string;
  cp_resource : string;
  cp_tenant : string;
  cp_type : string;
  cp_chats : list string;
  cp_folders : list string;
  cp_carry : option carry_plan;
}.

Record copy_resource := CopyResource { rc_tenant : string; rc_policy : option string; rc_type : string }.

Record flow_ident := FlowIdent {
  fi_leaf : string;
  fi_tenant : string;
  fi_resource : string;
  fi_job : string;
  fi_snapshot : string;
  fi_partition : option string;
  fi_created : Z;
}.

Record workflow := Workflow {
  wf_ident : flow_ident;
  wf_state : work_state;
  wf_attempt : Z;
  wf_generation : Z;
  wf_tokens : work_tokens;
  wf_continuation : string;
  wf_owner : option string;
  wf_expires : option Z;
  wf_completed : option Z;
  wf_settle : bool;
}.

Record label := Label { lb_chat : string; lb_path : string; lb_quality : Z; lb_provenance : string }.

Record copy_params := CopyParams {
  pm_rest : string;
  pm_prior_snapshot : option string;
  pm_prior_snap : option string;
  pm_fixed : bool;
  pm_implicit : bool;
  pm_p8 : option Z;
  pm_budget : bool;
  pm_chat : option string;
  pm_labels : list (option label);
  pm_chats : list string;
  pm_names : list string;
}.

Record task_ident := TaskIdent {
  ti_flow : string;
  ti_tenant : string;
  ti_resource : string;
  ti_policy : option string;
  ti_tenant_queue : string;
  ti_queue : string;
  ti_resource_queue : string;
  ti_key : string;
  ti_kind : copy_kind;
  ti_giant : bool;
  ti_attempt : Z;
  ti_wait_max : Z;
  ti_created : Z;
}.

Record task_error := TaskError { te_code : string; te_failures : option Z }.

(** [tc_ready], [tc_entered]: when the task may run, when it joined its queue. *)
Record task_clock := TaskClock { tc_ready : Z; tc_entered : Z; tc_waited : Z }.
Record task_progress := TaskProgress { tp_prepared : bool; tp_checkpoint : Z; tp_rows : Z; tp_bytes : Z }.

Record task := Task {
  tk_ident : task_ident;
  tk_params : copy_params;
  tk_state : task_state;
  tk_generation : Z;
  tk_owner : option string;
  tk_expires : option Z;
  tk_clock : task_clock;
  tk_progress : task_progress;
  tk_attempts : Z;
  tk_error : option task_error;
}.

Record copy_queue := CopyQueue { cq_scope : nat; cq_parent : option string; cq_giant : bool; cq_weight : Z; cq_finish : Qc }.

Record copy_control := CopyControl { cc_enabled : bool; cc_epoch : Z; cc_micro : Z; cc_giant : Z; cc_total : Z; cc_tenant : Z }.

(** A row of [snapshot_items]: within a snapshot it is named by its external id and type. *)
Record copied := Copied {
  cr_external : string;
  cr_type : string;
  cr_parent : option string;
  cr_folder : string;
  cr_chat : option string;
  cr_topic : option string;
  cr_size : option Z;
  cr_tenant : option string;
  cr_rest : Z;
}.

Inductive item_payload :=
  | PRow (r : copied)
  | PRename (external type chat name : string)
  | PLabel (l : label) (conflicted : bool)
  | PPin.

Record work_item := WorkItem { it_payload : item_payload; it_source : option string; it_phase : Z; it_bytes : Z }.

Inductive plan_state := PlPending | PlPublishing | PlPublished | PlAborted.
Global Instance plan_state_eq_dec : EqDecision plan_state.
Proof. solve_decision. Defined.
Record plan := Plan { pl_state : plan_state; pl_task : option string; pl_expected : Z; pl_published : Z }.

(** The labels a capture has proposed for a snapshot's chats, by workflow and attempt; the
    published labels of a snapshot, with their conflict flag. *)
Record draft := Draft { dr_label : label; dr_conflicted : bool; dr_accepted : Z }.

Record copy_db := CopyDb {
  cd_jobs : gmap string copy_job;
  cd_snaps : gmap string copy_snapshot;
  cd_parts : gmap string copy_partition;
  cd_resources : gmap string copy_resource;
  cd_policies : gmap string string;
  cd_flows : gmap string workflow;
  cd_tasks : gmap string task;
  cd_queues : gmap string copy_queue;
  cd_control : option copy_control;
  cd_items : gmap (string * Z) work_item;
  cd_rows : gmap (string * string * string) copied;
  cd_plans : gmap string plan;
  cd_drafts : gmap (string * string * Z * string) draft;
  cd_labels : gmap (string * string) (label * bool);
}.

Definition on_snaps (f : gmap string copy_snapshot → gmap string copy_snapshot) (d : copy_db) : copy_db :=
  CopyDb (cd_jobs d) (f (cd_snaps d)) (cd_parts d) (cd_resources d) (cd_policies d) (cd_flows d) (cd_tasks d)
    (cd_queues d) (cd_control d) (cd_items d) (cd_rows d) (cd_plans d) (cd_drafts d) (cd_labels d).
Definition on_parts (f : gmap string copy_partition → gmap string copy_partition) (d : copy_db) : copy_db :=
  CopyDb (cd_jobs d) (cd_snaps d) (f (cd_parts d)) (cd_resources d) (cd_policies d) (cd_flows d) (cd_tasks d)
    (cd_queues d) (cd_control d) (cd_items d) (cd_rows d) (cd_plans d) (cd_drafts d) (cd_labels d).
Definition on_flows (f : gmap string workflow → gmap string workflow) (d : copy_db) : copy_db :=
  CopyDb (cd_jobs d) (cd_snaps d) (cd_parts d) (cd_resources d) (cd_policies d) (f (cd_flows d)) (cd_tasks d)
    (cd_queues d) (cd_control d) (cd_items d) (cd_rows d) (cd_plans d) (cd_drafts d) (cd_labels d).
Definition on_tasks (f : gmap string task → gmap string task) (d : copy_db) : copy_db :=
  CopyDb (cd_jobs d) (cd_snaps d) (cd_parts d) (cd_resources d) (cd_policies d) (cd_flows d) (f (cd_tasks d))
    (cd_queues d) (cd_control d) (cd_items d) (cd_rows d) (cd_plans d) (cd_drafts d) (cd_labels d).
Definition on_copy_queues (f : gmap string copy_queue → gmap string copy_queue) (d : copy_db) : copy_db :=
  CopyDb (cd_jobs d) (cd_snaps d) (cd_parts d) (cd_resources d) (cd_policies d) (cd_flows d) (cd_tasks d)
    (f (cd_queues d)) (cd_control d) (cd_items d) (cd_rows d) (cd_plans d) (cd_drafts d) (cd_labels d).
Definition with_copy_control (c : copy_control) (d : copy_db) : copy_db :=
  CopyDb (cd_jobs d) (cd_snaps d) (cd_parts d) (cd_resources d) (cd_policies d) (cd_flows d) (cd_tasks d)
    (cd_queues d) (Some c) (cd_items d) (cd_rows d) (cd_plans d) (cd_drafts d) (cd_labels d).
Definition on_items (f : gmap (string * Z) work_item → gmap (string * Z) work_item) (d : copy_db) : copy_db :=
  CopyDb (cd_jobs d) (cd_snaps d) (cd_parts d) (cd_resources d) (cd_policies d) (cd_flows d) (cd_tasks d)
    (cd_queues d) (cd_control d) (f (cd_items d)) (cd_rows d) (cd_plans d) (cd_drafts d) (cd_labels d).
Definition on_rows (f : gmap (string * string * string) copied → gmap (string * string * string) copied) (d : copy_db) : copy_db :=
  CopyDb (cd_jobs d) (cd_snaps d) (cd_parts d) (cd_resources d) (cd_policies d) (cd_flows d) (cd_tasks d)
    (cd_queues d) (cd_control d) (cd_items d) (f (cd_rows d)) (cd_plans d) (cd_drafts d) (cd_labels d).
Definition on_plans (f : gmap string plan → gmap string plan) (d : copy_db) : copy_db :=
  CopyDb (cd_jobs d) (cd_snaps d) (cd_parts d) (cd_resources d) (cd_policies d) (cd_flows d) (cd_tasks d)
    (cd_queues d) (cd_control d) (cd_items d) (cd_rows d) (f (cd_plans d)) (cd_drafts d) (cd_labels d).
Definition on_drafts (f : gmap (string * string * Z * string) draft → gmap (string * string * Z * string) draft) (d : copy_db) : copy_db :=
  CopyDb (cd_jobs d) (cd_snaps d) (cd_parts d) (cd_resources d) (cd_policies d) (cd_flows d) (cd_tasks d)
    (cd_queues d) (cd_control d) (cd_items d) (cd_rows d) (cd_plans d) (f (cd_drafts d)) (cd_labels d).
Definition on_labels (f : gmap (string * string) (label * bool) → gmap (string * string) (label * bool)) (d : copy_db) : copy_db :=
  CopyDb (cd_jobs d) (cd_snaps d) (cd_parts d) (cd_resources d) (cd_policies d) (cd_flows d) (cd_tasks d)
    (cd_queues d) (cd_control d) (cd_items d) (cd_rows d) (cd_plans d) (cd_drafts d) (f (cd_labels d)).

(** ** Column updates *)

Definition set_task_state (st : task_state) (t : task) : task :=
  Task (tk_ident t) (tk_params t) st (tk_generation t) (tk_owner t) (tk_expires t) (tk_clock t) (tk_progress t) (tk_attempts t) (tk_error t).
Definition set_task_error (e : option task_error) (t : task) : task :=
  Task (tk_ident t) (tk_params t) (tk_state t) (tk_generation t) (tk_owner t) (tk_expires t) (tk_clock t) (tk_progress t) (tk_attempts t) e.
Definition set_task_lease (owner : option string) (expires : option Z) (t : task) : task :=
  Task (tk_ident t) (tk_params t) (tk_state t) (tk_generation t) owner expires (tk_clock t) (tk_progress t) (tk_attempts t) (tk_error t).
Definition set_task_clock (c : task_clock) (t : task) : task :=
  Task (tk_ident t) (tk_params t) (tk_state t) (tk_generation t) (tk_owner t) (tk_expires t) c (tk_progress t) (tk_attempts t) (tk_error t).
Definition set_task_progress (p : task_progress) (t : task) : task :=
  Task (tk_ident t) (tk_params t) (tk_state t) (tk_generation t) (tk_owner t) (tk_expires t) (tk_clock t) p (tk_attempts t) (tk_error t).
Definition set_task_attempts (n : Z) (t : task) : task :=
  Task (tk_ident t) (tk_params t) (tk_state t) (tk_generation t) (tk_owner t) (tk_expires t) (tk_clock t) (tk_progress t) n (tk_error t).
Definition set_task_params (p : copy_params) (t : task) : task :=
  Task (tk_ident t) p (tk_state t) (tk_generation t) (tk_owner t) (tk_expires t) (tk_clock t) (tk_progress t) (tk_attempts t) (tk_error t).
Definition bump_task (t : task) : task :=
  Task (tk_ident t) (tk_params t) (tk_state t) (tk_generation t + 1) (tk_owner t) (tk_expires t) (tk_clock t) (tk_progress t) (tk_attempts t) (tk_error t).

Definition set_flow_state (st : work_state) (w : workflow) : workflow :=
  Workflow (wf_ident w) st (wf_attempt w) (wf_generation w) (wf_tokens w) (wf_continuation w) (wf_owner w) (wf_expires w) (wf_completed w) (wf_settle w).
Definition set_flow_lease (owner : option string) (expires : option Z) (w : workflow) : workflow :=
  Workflow (wf_ident w) (wf_state w) (wf_attempt w) (wf_generation w) (wf_tokens w) (wf_continuation w) owner expires (wf_completed w) (wf_settle w).
Definition set_flow_tokens (t : work_tokens) (w : workflow) : workflow :=
  Workflow (wf_ident w) (wf_state w) (wf_attempt w) (wf_generation w) t (wf_continuation w) (wf_owner w) (wf_expires w) (wf_completed w) (wf_settle w).
Definition set_flow_continuation (c : string) (w : workflow) : workflow :=
  Workflow (wf_ident w) (wf_state w) (wf_attempt w) (wf_generation w) (wf_tokens w) c (wf_owner w) (wf_expires w) (wf_completed w) (wf_settle w).
Definition bump_flow (w : workflow) : workflow :=
  Workflow (wf_ident w) (wf_state w) (wf_attempt w) (wf_generation w + 1) (wf_tokens w) (wf_continuation w) (wf_owner w) (wf_expires w) (wf_completed w) (wf_settle w).
Definition set_flow_end (st : work_state) (now : Z) (settle : bool) (w : workflow) : workflow :=
  Workflow (wf_ident w) st (wf_attempt w) (wf_generation w) (wf_tokens w) (wf_continuation w) (wf_owner w) (wf_expires w) (Some now) settle.

(** ** Registering a task *)

Inductive copy_err := CopyWorkConflict | CopyValueError | CopyRuntimeError.
Global Instance copy_err_eq_dec : EqDecision copy_err.
Proof. solve_decision. Defined.

Record copy_request := CopyRequest {
  rq_kind : copy_kind;
  rq_lane : string;
  rq_snapshot : string;
  rq_params : copy_params;
  rq_partition : option string;
  rq_policy : option string;
  rq_weight : option Z;
}.

(** [validate_labels]; a label that is not of the expected shape is [None]. *)
Fixpoint labels_ok (seen : list string) (ls : list (option label)) : bool :=
  match ls with
  | [] => true
  | Some l :: ls =>
    negb (bool_decide (lb_chat l = "")) && negb (bool_decide (lb_chat l ∈ seen)) && negb (bool_decide (lb_path l = "")) &&
    (0 <=? lb_quality l) && (lb_quality l <=? 3) &&
    (0 <? Z.of_nat (String.length (lb_provenance l))) && (Z.of_nat (String.length (lb_provenance l)) <=? 64) &&
    labels_ok (lb_chat l :: seen) ls
  | None :: _ => false
  end.

Definition is_presentation (k : copy_kind) : bool := bool_decide (k ∈ [ChatLabels; ChatPresentation]).

(** [_parent]: the target with its resource and job, while both are open. *)
Definition open_target (sid : string) (d : copy_db) : result copy_err (copy_snapshot * copy_resource * copy_job) :=
  snap ← of_option CopyWorkConflict (cd_snaps d !! sid);
  res ← of_option CopyWorkConflict (cd_resources d !! cs_resource snap);
  job ← of_option CopyWorkConflict (cd_jobs d !! cs_job snap);
  raise_if (negb (job_open (cj_status job)) || negb (bool_decide (cs_status snap = SInProgress))) CopyWorkConflict ;;
  raise_if (negb (bool_decide (cj_tenant job = rc_tenant res))) CopyWorkConflict ;;
  Ok (snap, res, job).

Definition leaf_of_parts (snap : copy_snapshot) (part : option copy_partition) : leaf_lease :=
  match part with Some p => cp_lease p | None => cs_lease snap end.

(** A key of the request that the code derives is not part of what it hashes: a task's own
    parameters hash to the task. *)
Definition canonical (p : copy_params) : copy_params :=
  CopyParams (pm_rest p)
    (if pm_fixed p && (pm_implicit p || bool_decide (is_Some (pm_prior_snap p))) then None else pm_prior_snapshot p)
    (pm_prior_snap p) false false None false (pm_chat p) (pm_labels p) (pm_chats p) (pm_names p).

Definition nonempty_all (l : list string) : bool := forallb (λ s, negb (bool_decide (s = ""))) l.

Definition rename_ok (p : copy_params) : bool :=
  bool_decide (length (pm_chats p) = length (pm_names p)) && bool_decide (NoDup (pm_chats p)) && nonempty_all (pm_chats p ++ pm_names p).

Definition prior_of (p : copy_params) : option string :=
  match pm_prior_snapshot p with Some s => Some s | None => pm_prior_snap p end.

Definition ends_before (a b : string) : bool := String.leb a b.

(** The first row by id. *)
Definition first_by_id {A} (rows : list (string * A)) : option (string * A) :=
  foldr (λ kv acc, match acc with Some best => if ends_before kv.1 best.1 then Some kv else Some best | None => Some kv end) None rows.

Definition insert_new {V} (k : string) (v : V) (m : gmap string V) : gmap string V := match m !! k with Some _ => m | None => <[k := v]> m end.

Section Enqueue.
(** SHA-256 of a JSON list and of an intent; the query for the source of a task, and the
    candidate sources of a legacy attachment task. *)
Context (digest : list string → string) (intent_key : string → Z → copy_kind → copy_params → string).
Context (source_choice : copy_db → string → task → option string) (legacy_sources : copy_db → string → task → list string).
(** [COPY_INTENT_SOURCE_PIN_MAX], [CARRY_FORWARD_WAIT_MAX_S]. *)
Context (pin_max wait_max : Z).

(** The presentation plan of the snapshot, for the two kinds that publish labels. *)
Definition admit_plan_row (k : copy_kind) (sid : string) (labels : list (option label)) (part : option copy_partition) (d : copy_db)
    : result copy_err copy_db :=
  if negb (is_presentation k) then Ok d
  else
    raise_if (match part with
      | Some p => negb (forallb (λ l, match l with Some l => bool_decide (lb_chat l ∈ cp_chats p) | None => false end) labels)
      | None => false
      end) CopyWorkConflict ;;
    let d := on_plans (insert_new sid (Plan PlPending None 0 0)) d in
    pl ← of_option CopyRuntimeError (cd_plans d !! sid);
    raise_if (bool_decide (pl_state pl = PlPublished)) CopyWorkConflict ;;
    Ok (if bool_decide (k = ChatLabels) && bool_decide (pl_state pl = PlAborted)
        then on_plans (insert sid (Plan PlPending None 0 0)) d else d).

(** The workflow of the leaf: created, kept, or drained again after an abandoned drain. *)
Definition draining_flow (now : Z) (fresh : string) (i : flow_ident) (leaf : leaf_lease) (snap : copy_snapshot) (job : copy_job) (d : copy_db)
    : result copy_err (copy_db * string * workflow) :=
  let tokens := WorkTokens (ll_token leaf) (ll_token (cs_lease snap)) (cj_token job) in
  let (fid, w) := match first_by_id (filter (λ kv, fi_leaf (wf_ident kv.2) = fi_leaf i) (map_to_list (cd_flows d))) with
    | Some kv => kv
    | None => (fresh, Workflow i WDraining 0 0 tokens "{}" None None None false)
    end in
  let w := if bool_decide (wf_state w ∈ [WFailed; WCancelled]) && (wt_parent (wf_tokens w) <? ll_token leaf)
    then Workflow (wf_ident w) WDraining (wf_attempt w + 1) (wf_generation w + 1) tokens "{}" (wf_owner w) (wf_expires w) None (wf_settle w)
    else w in
  raise_if (negb (bool_decide (wf_state w = WDraining)) || negb (ll_token leaf =? wt_parent (wf_tokens w))) CopyWorkConflict ;;
  Ok (on_flows (insert fid w) d, fid, w).

(** [frozen_source]: what a sibling task of the same capture and kind has fixed. *)
Definition frozen_source (tid : string) (t : task) (d : copy_db) : option (option string) :=
  let sibling kv := bool_decide (ti_flow (tk_ident kv.2) = ti_flow (tk_ident t)) && bool_decide (ti_kind (tk_ident kv.2) = ti_kind (tk_ident t)) &&
    negb (bool_decide (kv.1 = tid)) && (ti_attempt (tk_ident kv.2) =? ti_attempt (tk_ident t)) &&
    (tp_prepared (tk_progress kv.2) || pm_fixed (tk_params kv.2)) in
  (λ kv, pm_prior_snapshot (tk_params kv.2)) <$> first_by_id (filter (λ kv, sibling kv = true) (map_to_list (cd_tasks d))).

(** [intent_locked_sources]: the sources that may be pinned. *)
Definition pinnable (active : bool) (tenant : string) (d : copy_db) (sid : string) : bool :=
  match cd_snaps d !! sid with
  | None => false
  | Some s =>
    match cd_resources d !! cs_resource s with
    | None => false
    | Some r =>
      bool_decide (rc_tenant r = tenant) && negb (bool_decide (cs_status s = SPendingDeletion)) &&
      (active || (bool_decide (cs_status s ∈ [SCompleted; SPartial]) && negb (cs_cancelled s) && negb (cs_required_failed s)))
    end
  end.

Fixpoint insert_pins (tid : string) (ordinal : Z) (sources : list string) (d : copy_db) : copy_db :=
  match sources with
  | [] => d
  | s :: sources =>
    let d := match cd_items d !! (tid, ordinal) with
      | Some _ => d
      | None => on_items (insert (tid, ordinal) (WorkItem PPin (Some s) (-1) 0)) d
      end in
    insert_pins tid (ordinal - 1) sources d
  end.

(** [pin_intent_sources]. *)
Definition pin_intent_sources (tid : string) (t : task) (d : copy_db) : result copy_err (copy_db * task) :=
  let k := ti_kind (tk_ident t) in
  let p := tk_params t in
  let legacy := bool_decide (k = LegacyChatAttachments) in
  if bool_decide (k ∈ [ChatRename; ChatLabels; ChatPresentation]) then Ok (d, t)
  else if (if legacy then bool_decide (is_Some (pm_p8 p)) else pm_fixed p) then Ok (d, t)
  else
    raise_if (legacy && negb (bool_decide (is_Some (pm_chat p)))) CopyValueError ;;
    raise_if (bool_decide (k ∈ [FileVersions; ArchiveCarry]) && negb (bool_decide (is_Some (prior_of p)))) CopyValueError ;;
    let choice := source_choice d tid t in
    let ids := if legacy then legacy_sources d tid t else match choice with Some s => [s] | None => [] end in
    let fixed_valid := legacy ||
      ((negb (bool_decide (is_Some (prior_of p))) || bool_decide (is_Some choice)) &&
       (negb (bool_decide (is_Some (mjoin (frozen_source tid t d)))) || bool_decide (is_Some choice))) in
    raise_if (negb (fixed_valid && (Z.of_nat (length ids) <=? pin_max) &&
      forallb (pinnable legacy (ti_tenant (tk_ident t)) d) ids)) CopyValueError ;;
    let p' := if legacy
      then CopyParams (pm_rest p) (pm_prior_snapshot p) (pm_prior_snap p) (pm_fixed p) (pm_implicit p) (Some (Z.of_nat (length ids))) (pm_budget p)
             (pm_chat p) (pm_labels p) (pm_chats p) (pm_names p)
      else CopyParams (pm_rest p) choice (pm_prior_snap p) true (negb (bool_decide (is_Some (prior_of p)))) (pm_p8 p) (pm_budget p)
             (pm_chat p) (pm_labels p) (pm_chats p) (pm_names p) in
    let t := set_task_params p' t in
    Ok (on_tasks (insert tid t) (insert_pins tid (-1) ids d), t).

(** [_complete_bootstrap_mail_noop]: without a predecessor there is nothing to carry, once
    the capture is known to have covered every folder from its start. *)
Definition bootstrap_covered (snap : copy_snapshot) (sid tenant : string) (d : copy_db) : bool :=
  match cs_origin snap with
  | Some o =>
    let parts := (filter (λ kv, cp_snapshot kv.2 = sid ∧ cp_type kv.2 = "MAIL_FOLDERS") (map_to_list (cd_parts d))).*2 in
    let planned := concat (map cp_folders parts) in
    mo_cursor_free o && negb (bool_decide (mo_folders o = [])) &&
    forallb (λ p, bool_decide (cp_status p = "COMPLETED") && bool_decide (cp_job p = cs_job snap) && bool_decide (cp_resource p = cs_resource snap) &&
      bool_decide (cp_tenant p = tenant) &&
      match cp_carry p with Some c => negb (cy_fallback c) && negb (cy_truncated c) && cy_excluded c | None => false end) parts &&
    negb (bool_decide (parts = [])) && forallb (λ f, bool_decide (f ∈ planned)) (mo_folders o) &&
    forallb (λ f, bool_decide (f ∈ cs_checkpoints snap)) (mo_folders o ++ planned)
  | None => false
  end.
Definition bootstrap_noop (snap : copy_snapshot) (sid : string) (t : task) (d : copy_db) : task :=
  if cs_cancelled snap then set_task_error (Some (TaskError "copy_parent_cancelled" None)) (set_task_state TCancelled t)
  else if bootstrap_covered snap sid (ti_tenant (tk_ident t)) d
  then set_task_error None (set_task_state TCompleted (set_task_progress
    (TaskProgress true (tp_checkpoint (tk_progress t)) (tp_rows (tk_progress t)) (tp_bytes (tk_progress t))) t))
  else set_task_error (Some (TaskError "mail_bootstrap_coverage_unproven" None)) (set_task_state TFailed t).

Definition queue_rows (giant : bool) (tenant : string) (policy : option string) (rid : string) (weight : Z) : list (string * copy_queue) :=
  let lane := if giant then "giant" else "micro" in
  let tq := digest ["TENANT"; tenant; lane] in
  let pq := digest ["POLICY"; tenant; default "null" policy; lane] in
  let rq := digest ["RESOURCE"; tenant; default "null" policy; rid; lane] in
  [(tq, CopyQueue 0 None giant 1 0%Qc); (pq, CopyQueue 1 (Some tq) giant weight 0%Qc); (rq, CopyQueue 2 (Some pq) giant 1 0%Qc)].

Definition get_partition (req : copy_request) (d : copy_db) : result copy_err (option copy_partition) :=
  match rq_partition req with
  | None => Ok None
  | Some pid =>
    p ← of_option CopyWorkConflict (cd_parts d !! pid);
    raise_if (negb (bool_decide (cp_snapshot p = rq_snapshot req)) || negb (bool_decide (cp_status p = "IN_PROGRESS"))) CopyWorkConflict ;;
    Ok (Some p)
  end.

(** [enqueue]; [fresh_flow] and [fresh_task] are the new identifiers. *)
Definition enqueue (now : Z) (req : copy_request) (fresh_flow fresh_task : string) (d : copy_db) : result copy_err (copy_db * string) :=
  let k := rq_kind req in
  let giant := bool_decide (rq_lane req = "giant") in
  raise_if (negb (bool_decide (rq_lane req ∈ ["micro"; "giant"]))) CopyValueError ;;
  raise_if (match rq_weight req with Some w => (w <? 1) || (8 <? w) | None => false end) CopyValueError ;;
  target ← open_target (rq_snapshot req) d;
  let '(snap, res, job) := target in
  raise_if (is_presentation k && cs_catalogue snap) CopyWorkConflict ;;
  raise_if (bool_decide (k = ChatLabels) && negb (labels_ok [] (pm_labels (rq_params req)))) CopyValueError ;;
  raise_if (bool_decide (k = ChatPresentation) && bool_decide (is_Some (rq_partition req))) CopyWorkConflict ;;
  raise_if (is_presentation k && negb (bool_decide (rc_type res = "USER_CHATS"))) CopyWorkConflict ;;
  let weight := match rq_weight req with Some w => w | None => default_weight (cj_priority job) end in
  let policy := first_of (rq_policy req) (rc_policy res) in
  raise_if (match policy with Some p => negb (bool_decide (cd_policies d !! p = Some (rc_tenant res))) | None => false end) CopyWorkConflict ;;
  part ← get_partition req d;
  let leaf := leaf_of_parts snap part in
  flow ← draining_flow now fresh_flow
    (FlowIdent (leaf_key (rq_snapshot req) (rq_partition req)) (rc_tenant res) (cs_resource snap) (cs_job snap) (rq_snapshot req) (rq_partition req) now)
    leaf snap job d;
  let '(d, fid, w) := flow in
  d ← admit_plan_row k (rq_snapshot req) (pm_labels (rq_params req)) part d;
  let params := canonical (rq_params req) in
  let key := intent_key fid (wf_attempt w) k params in
  raise_if (bool_decide (k = ChatRename) && negb (rename_ok params)) CopyValueError ;;
  let queues := queue_rows giant (rc_tenant res) policy (cs_resource snap) weight in
  let d := on_copy_queues (λ m, foldl (λ m q, insert_new q.1 q.2 m) m queues) d in
  let i := TaskIdent fid (rc_tenant res) (cs_resource snap) policy (digest ["TENANT"; rc_tenant res; rq_lane req])
    (digest ["POLICY"; rc_tenant res; default "null" policy; rq_lane req])
    (digest ["RESOURCE"; rc_tenant res; default "null" policy; cs_resource snap; rq_lane req]) key k giant (wf_attempt w) (Z.max 0 wait_max) now in
  let '(tid, t, d) := match first_by_id (filter (λ kv, ti_key (tk_ident kv.2) = key) (map_to_list (cd_tasks d))) with
    | Some (tid, t) => (tid, t, d)
    | None => let t := Task i params TReady 0 None None (TaskClock now now 0) (TaskProgress false 0 0 0) 0 None in
              (fresh_task, t, on_tasks (insert fresh_task t) d)
    end in
  pinned ← pin_intent_sources tid t d;
  let '(d, t) := pinned in
  Ok (if bool_decide (k = MailCarry) && bool_decide (tk_state t = TReady) && bool_decide (rc_type res = "USER_MAIL") && cs_union_carry snap &&
         pm_fixed (tk_params t) && negb (bool_decide (is_Some (pm_prior_snapshot (tk_params t))))
      then on_tasks (insert tid (bootstrap_noop snap (rq_snapshot req) t d)) d else d, tid).
End Enqueue.

(** ** The fair queues *)

(** [_key]s of the task at the three scopes. *)
Definition task_queues (i : task_ident) : list string := [ti_tenant_queue i; ti_queue i; ti_resource_queue i].

Definition flow_of (t : task) (d : copy_db) : option workflow := cd_flows d !! ti_flow (tk_ident t).

(** A task of a sealed workflow's current capture. *)
Definition task_waits (t : task) (d : copy_db) : bool :=
  match flow_of t d with
  | Some w => bool_decide (wf_state w = WWaiting) && (ti_attempt (tk_ident t) =? wf_attempt w)
  | None => false
  end.

(** [backlog]: queued or running work of other workflows, in the column of the scope. *)
Definition backlogged (fid : string) (scope : nat) (key : string) (d : copy_db) : bool :=
  existsb (λ kv, task_waits kv.2 d && negb (bool_decide (ti_flow (tk_ident kv.2) = fid)) &&
    bool_decide (tk_state kv.2 ∈ [TReady; TRunning]) && bool_decide (task_queues (tk_ident kv.2) !! scope = Some key)) (map_to_list (cd_tasks d)).

Definition qmin (a b : Qc) : Qc := if decide (a ≤ b)%Qc then a else b.

(** The least clock of the other busy queues under the same parent. *)
Definition sibling_min (fid : string) (scope : nat) (key : string) (q : copy_queue) (d : copy_db) : option Qc :=
  foldr (λ kv acc, Some (match acc with Some m => qmin (cq_finish kv.2) m | None => cq_finish kv.2 end)) None
    (filter (λ kv, bool_decide (cq_scope kv.2 = scope) && bool_decide (cq_giant kv.2 = cq_giant q) && bool_decide (cq_parent kv.2 = cq_parent q) &&
      negb (bool_decide (kv.1 = key)) && backlogged fid scope kv.1 d = true) (map_to_list (cd_queues d))).

Definition align_queue (fid : string) (d0 : copy_db) (scope : nat) (key : string) (q : copy_queue) : copy_queue :=
  if bool_decide (cq_scope q = scope) && negb (backlogged fid scope key d0)
  then match sibling_min fid scope key q d0 with
    | Some m => CopyQueue (cq_scope q) (cq_parent q) (cq_giant q) (cq_weight q) (qmax (cq_finish q) (m + / Qc_of_Z (cq_weight q))%Qc)
    | None => q
    end
  else q.

Definition open_tasks (fid : string) (attempt : Z) (d : copy_db) : list (string * task) :=
  filter (λ kv, ti_flow (tk_ident kv.2) = fid ∧ ti_attempt (tk_ident kv.2) = attempt ∧ tk_state kv.2 ∈ [TReady; TRunning]) (map_to_list (cd_tasks d)).

Definition ensure_copy_control (tenant_capacity : Z) (d : copy_db) : copy_db :=
  match cd_control d with Some _ => d | None => with_copy_control (CopyControl false 0 3 3 6 tenant_capacity) d end.

(** [align_ready_workflow]: one scope after the other, each reading the clocks the
    scopes before it have written. *)
Definition align_scope (fid : string) (attempt : Z) (scope : nat) (d : copy_db) : copy_db :=
  let keys := omap (λ kv, task_queues (tk_ident kv.2) !! scope) (open_tasks fid attempt d) in
  on_copy_queues (map_imap (λ key q, Some (if bool_decide (key ∈ keys) then align_queue fid d scope key q else q))) d.

Definition align_ready_workflow (tenant_capacity : Z) (fid : string) (d : copy_db) : copy_db :=
  match cd_flows d !! fid with
  | Some w =>
    if bool_decide (wf_state w = WDraining)
    then foldl (λ d scope, align_scope fid (wf_attempt w) scope d) (ensure_copy_control tenant_capacity d) [0%nat; 1%nat; 2%nat]
    else d
  | None => d
  end.

(** ** Claiming a task *)

Record copy_claim := CopyClaim { cl_task : string; cl_owner : string; cl_generation : Z }.

(** Renames wait for the copies of their capture, the presentation for everything else. *)
Definition kind_waits (k : copy_kind) : bool := bool_decide (k ∈ [ChatRename; ChatPresentation]).
Definition held_back (t : task) (d : copy_db) : bool :=
  kind_waits (ti_kind (tk_ident t)) &&
  existsb (λ kv, bool_decide (ti_flow (tk_ident kv.2) = ti_flow (tk_ident t)) && negb (bool_decide (ti_kind (tk_ident kv.2) = ti_kind (tk_ident t))) &&
    (ti_attempt (tk_ident kv.2) =? ti_attempt (tk_ident t)) && negb (task_ended (tk_state kv.2))) (map_to_list (cd_tasks d)).

(** [candidates]. *)
Definition claimable (now : Z) (d : copy_db) (t : task) : bool :=
  task_waits t d &&
  ((bool_decide (tk_state t = TReady) && (tc_ready (tk_clock t) <=? now)) ||
   (bool_decide (tk_state t = TRunning) && match tk_expires t with Some e => e <? now | None => false end)) &&
  negb (held_back t d).

(** [ORDER BY virtual_finish, key LIMIT 1]. *)
Definition queue_before (a b : string * copy_queue) : bool :=
  qc_ltb (cq_finish a.2) (cq_finish b.2) || (bool_decide (cq_finish a.2 = cq_finish b.2) && String.leb a.1 b.1).
Definition first_queue (qs : list (string * copy_queue)) : option (string * copy_queue) :=
  foldr (λ kv acc, match acc with Some best => if queue_before kv best then Some kv else Some best | None => Some kv end) None qs.

Definition pick_queue (now : Z) (scope : nat) (parent : option string) (d : copy_db) : option (string * copy_queue) :=
  let keys := omap (λ kv, if claimable now d kv.2 then task_queues (tk_ident kv.2) !! scope else None) (map_to_list (cd_tasks d)) in
  first_queue (filter (λ kv, bool_decide (cq_scope kv.2 = scope) && bool_decide (kv.1 ∈ keys) &&
    match parent with Some p => bool_decide (cq_parent kv.2 = Some p) | None => true end = true) (map_to_list (cd_queues d))).

Definition turn (q : copy_queue) : copy_queue :=
  CopyQueue (cq_scope q) (cq_parent q) (cq_giant q) (cq_weight q) (cq_finish q + / Qc_of_Z (cq_weight q))%Qc.

(** [ORDER BY created_at, id LIMIT 1]. *)
Definition task_before (a b : string * task) : bool :=
  (ti_created (tk_ident a.2) <? ti_created (tk_ident b.2)) ||
  ((ti_created (tk_ident a.2) =? ti_created (tk_ident b.2)) && String.leb a.1 b.1).
Definition first_task (ts : list (string * task)) : option (string * task) :=
  foldr (λ kv acc, match acc with Some best => if task_before kv best then Some kv else Some best | None => Some kv end) None ts.

(** A count of failed executions that an error may carry. *)
Definition failures_of (e : option task_error) : Z :=
  match e with
  | Some (TaskError _ (Some n)) => if (0 <=? n) && (n <=? 3) then n else 0
  | _ => 0
  end.

Definition claim_task (now lease : Z) (owner : string) (t : task) : task :=
  let p := tk_params t in
  let '(attempts, p) := if pm_budget p then (tk_attempts t, p)
    else (failures_of (tk_error t),
          CopyParams (pm_rest p) (pm_prior_snapshot p) (pm_prior_snap p) (pm_fixed p) (pm_implicit p) (pm_p8 p) true (pm_chat p) (pm_labels p) (pm_chats p) (pm_names p)) in
  set_task_attempts (attempts + 1) (set_task_lease (Some owner) (Some (now + lease)) (bump_task (set_task_state TRunning (set_task_params p t)))).

Definition LEASE_SECONDS : Z := 90 * 1000000.

(** [claim]: [busy] names the task rows that other transactions hold. *)
Definition claim_copy (tenant_capacity now : Z) (owner : string) (busy : string → bool) (d : copy_db)
    : result copy_err (copy_db * option copy_claim) :=
  let d := ensure_copy_control tenant_capacity d in
  match pick_queue now 0 None d with
  | None => Ok (d, None)
  | Some tq =>
    match pick_queue now 1 (Some tq.1) d with
    | None => Ok (d, None)
    | Some pq =>
      match pick_queue now 2 (Some pq.1) d with
      | None => Ok (d, None)
      | Some rq =>
        let d0 := d in
        let d := on_copy_queues (map_imap (λ k q, Some (if bool_decide (k ∈ [tq.1; pq.1; rq.1]) then turn q else q))) d in
        match first_task (filter (λ kv, claimable now d0 kv.2 && bool_decide (ti_resource_queue (tk_ident kv.2) = rq.1) && negb (busy kv.1) = true)
                (map_to_list (cd_tasks d))) with
        | None => Ok (d, None)
        | Some (tid, t) =>
          w ← of_option CopyRuntimeError (flow_of t d);
          _ ← open_target (fi_snapshot (wf_ident w)) d;
          let c := tk_clock t in
          let t := if bool_decide (tk_state t = TReady)
            then set_task_clock (TaskClock (tc_ready c) (tc_entered c) (tc_waited c + Z.max 0 (now - tc_entered c))) t else t in
          if negb (ti_wait_max (tk_ident t) =? 0) && (ti_wait_max (tk_ident t) <=? tc_waited (tk_clock t))
          then Ok (on_tasks (insert tid (set_task_error (Some (TaskError "copy_admission_timeout" None)) (set_task_state TFailed t))) d, None)
          else
            let t := claim_task now LEASE_SECONDS owner t in
            Ok (on_tasks (insert tid t) d, Some (CopyClaim tid owner (tk_generation t)))
        end
      end
    end
  end.
