(* ===== verification/CopyBatch.v ===== *)
(** * Copy work: bounded batches

    [src/shared/copy_executor.py] freezes what a task copies as a numbered manifest and
    applies it in batches; [src/shared/copy_admission.py] runs one batch in one transaction
    under the claim of its worker and the physical capacity, and settles what did not
    commit; [src/shared/chat_presentation_work.py] applies the batches of the two kinds
    that publish chat labels.

    The rows a task selects are a parameter. What the database answered to the statements
    of a batch (a deadlock, a timeout, a dropped connection) is an argument of [run_batch],
    as is the time each step takes. Execution seconds are telemetry and left out. *)

From S2P Require Import Prelude Reconciler Provider.
From Stdlib Require Import Ascii.
From S2P Require Import CopyWork.
Local Open Scope Z_scope.

(** ** The manifest *)

(** A selected row: its source snapshot, its phase, its row and stored size. *)
Record selected := Selected { sl_source : option string; sl_phase : Z; sl_payload : item_payload; sl_bytes : Z }.

Definition selected_tenant (p : item_payload) : option string := match p with PRow r => cr_tenant r | _ => None end.

(** [row_number() OVER (ORDER BY phase, ..)] from 1. *)
Fixpoint number_rows (tid : string) (ordinal : Z) (rows : list selected) (items : gmap (string * Z) work_item) : gmap (string * Z) work_item :=
  match rows with
  | [] => items
  | r :: rows => number_rows tid (ordinal + 1) rows (<[(tid, ordinal) := WorkItem (sl_payload r) (sl_source r) (sl_phase r) (sl_bytes r)]> items)
  end.

Definition payload_key (p : item_payload) : string * string :=
  match p with PRow r => (cr_external r, cr_type r) | PRename e t _ _ => (e, t) | PLabel l _ => (lb_chat l, "") | PPin => ("", "") end.
Definition row_before (a b : selected) : Prop :=
  sl_phase a < sl_phase b ∨ sl_phase a = sl_phase b ∧
    let (ea, ta) := payload_key (sl_payload a) in let (eb, tb) := payload_key (sl_payload b) in
    (ea ≠ eb ∧ String.leb ea eb = true) ∨ (ea = eb ∧ String.leb ta tb = true).
Global Instance row_before_dec : RelDecision row_before.
Proof. intros a b. unfold row_before. destruct (payload_key (sl_payload a)), (payload_key (sl_payload b)). apply _. Defined.

Definition prepared (t : task) : task :=
  set_task_progress (TaskProgress true (tp_checkpoint (tk_progress t)) (tp_rows (tk_progress t)) (tp_bytes (tk_progress t))) t.

(** A sibling of the capture still has work, or another workflow of the snapshot is active. *)
Definition presentation_unsettled (tid : string) (t : task) (w : workflow) (d : copy_db) : bool :=
  existsb (λ kv, bool_decide (ti_flow (tk_ident kv.2) = ti_flow (tk_ident t)) && (ti_attempt (tk_ident kv.2) =? wf_attempt w) &&
    negb (bool_decide (kv.1 = tid)) && negb (task_ended (tk_state kv.2))) (map_to_list (cd_tasks d)) ||
  existsb (λ kv, bool_decide (fi_snapshot (wf_ident kv.2) = fi_snapshot (wf_ident w)) && negb (bool_decide (kv.1 = ti_flow (tk_ident t))) &&
    is_active (wf_state kv.2)) (map_to_list (cd_flows d)).

Section Executor.
(** The rows a task selects, whether their provenance is unambiguous, and the source it
    names; the labels a publication selects. *)
Context (select_rows : copy_db → string → task → list selected) (provenance_ok : copy_db → string → task → bool).
Context (source_choice : copy_db → string → task → option string).

(** [_scope]: the workflow and its target, while the target is in progress. *)
Definition task_scope (t : task) (d : copy_db) : result copy_err (workflow * copy_snapshot) :=
  w ← of_option CopyValueError (flow_of t d);
  s ← of_option CopyValueError (cd_snaps d !! fi_snapshot (wf_ident w));
  r ← of_option CopyValueError (cd_resources d !! cs_resource s);
  raise_if (negb (bool_decide (cs_resource s = fi_resource (wf_ident w)) && bool_decide (rc_tenant r = fi_tenant (wf_ident w)) &&
    bool_decide (cs_job s = fi_job (wf_ident w)) && bool_decide (cs_status s = SInProgress))) CopyValueError ;;
  Ok (w, s).

(** [_source]: the capture that labels are read for. *)
Definition label_source (t : task) (d : copy_db) : result copy_err workflow :=
  w ← of_option CopyValueError (flow_of t d);
  raise_if (negb (ti_attempt (tk_ident t) =? wf_attempt w) || negb (bool_decide (wf_state w ∈ [WDraining; WWaiting]))) CopyValueError ;;
  Ok w.

Definition item_count (tid : string) (d : copy_db) : Z :=
  Z.of_nat (length (filter (λ kv : (string * Z) * work_item, kv.1.1 = tid) (map_to_list (cd_items d)))).

(** [prepare_presentation_manifest]; a publication first removes what an earlier task has
    published. *)
Definition prepare_presentation (tid : string) (t : task) (d : copy_db) : result copy_err (copy_db * task) :=
  w ← label_source t d;
  if bool_decide (ti_kind (tk_ident t) = ChatLabels)
  then
    raise_if (negb (labels_ok [] (pm_labels (tk_params t)))) CopyValueError ;;
    let rows := omap (λ l, (λ l, Selected None 0 (PLabel l false) 0) <$> l) (pm_labels (tk_params t)) in
    Ok (on_items (number_rows tid 1 rows) d, prepared t)
  else
    raise_if (presentation_unsettled tid t w d) CopyValueError ;;
    let sid := fi_snapshot (wf_ident w) in
    pl ← of_option CopyRuntimeError (cd_plans d !! sid);
    raise_if (bool_decide (pl_state pl = PlPublished)) CopyValueError ;;
    let d := if bool_decide (pl_task pl = Some tid) then d
      else on_labels (filter (λ kv, kv.1.1 ≠ sid)) d in
    raise_if (negb (provenance_ok d tid t)) CopyValueError ;;
    let d := on_items (number_rows tid 1 (select_rows d tid t)) d in
    Ok (on_plans (insert sid (Plan PlPublishing (Some tid) (item_count tid d) 0)) d, prepared t).

(** [prepare_manifest]: validated and stored in one statement. *)
Definition prepare_manifest (tid : string) (t : task) (d : copy_db) : result copy_err (copy_db * task) :=
  ws ← task_scope t d;
  let k := ti_kind (tk_ident t) in
  let p := tk_params t in
  if tp_prepared (tk_progress t) then Ok (d, t)
  else if is_presentation k then prepare_presentation tid t d
  else
    raise_if (bool_decide (k ∈ [FileVersions; ArchiveCarry]) && negb (bool_decide (is_Some (prior_of p)))) CopyValueError ;;
    raise_if (bool_decide (k = LegacyChatAttachments) && negb (bool_decide (is_Some (pm_chat p)))) CopyValueError ;;
    raise_if (bool_decide (k = ChatRename) && negb (rename_ok p)) CopyValueError ;;
    let keeps_prior := negb (bool_decide (k ∈ [LegacyChatAttachments; ChatRename])) in
    let rows := merge_sort row_before (select_rows d tid t) in
    let choice := if keeps_prior then source_choice d tid t else None in
    let sources := omap sl_source rows ++ match choice with Some s => [s] | None => [] end in
    raise_if (negb (provenance_ok d tid t &&
      (negb keeps_prior || negb (bool_decide (is_Some (mjoin (frozen_source tid t d)))) || bool_decide (is_Some choice)) &&
      (negb keeps_prior || negb (bool_decide (is_Some (prior_of p))) || bool_decide (is_Some choice)) &&
      forallb (λ s, match cd_snaps d !! s with
        | Some sn =>
          match cd_resources d !! cs_resource sn with
          | Some r => bool_decide (rc_tenant r = fi_tenant (wf_ident ws.1)) && negb (bool_decide (cs_status sn = SPendingDeletion)) &&
              (negb keeps_prior || (bool_decide (cs_status sn ∈ [SCompleted; SPartial]) && negb (cs_required_failed sn)))
          | None => false
          end
        | None => false
        end) sources &&
      forallb (λ r, match selected_tenant (sl_payload r) with Some x => bool_decide (x = fi_tenant (wf_ident ws.1)) | None => true end) rows))
      (if bool_decide (k = LegacyChatAttachments) then CopyRuntimeError else CopyValueError) ;;
    let d := on_items (number_rows tid 1 rows) d in
    let d := match choice with
      | Some s => match cd_items d !! (tid, -1) with
        | Some _ => d
        | None => on_items (insert (tid, -1) (WorkItem PPin (Some s) (-1) 0)) d
        end
      | None => d
      end in
    let p := if keeps_prior
      then CopyParams (pm_rest p) choice (pm_prior_snap p) (pm_fixed p) (pm_implicit p) (pm_p8 p) (pm_budget p) (pm_chat p) (pm_labels p) (pm_chats p) (pm_names p)
      else p in
    Ok (d, prepared (set_task_params p t)).

(** ** One batch *)

Definition ordinal_le (a b : Z * work_item) : Prop := a.1 ≤ b.1.
#[local] Instance ordinal_le_dec : RelDecision ordinal_le := λ a b, Z_le_dec a.1 b.1.

(** The rows of the manifest behind the checkpoint, in order. *)
Definition pending_items (tid : string) (checkpoint : Z) (d : copy_db) : list (Z * work_item) :=
  merge_sort ordinal_le (map (λ kv, (kv.1.2, kv.2))
    (filter (λ kv : (string * Z) * work_item, kv.1.1 = tid ∧ checkpoint < kv.1.2) (map_to_list (cd_items d)))).

(** [BATCH_MAX_BYTES]: the rows whose predecessors in the batch stay under it. *)
Definition BATCH_MAX_BYTES : Z := 32 * 1024 * 1024.
Fixpoint under_budget (run : Z) (rows : list (Z * work_item)) : list (Z * work_item) :=
  match rows with
  | [] => []
  | r :: rows =>
    if run <? BATCH_MAX_BYTES then r :: under_budget (run + it_bytes r.2) rows else under_budget (run + it_bytes r.2) rows
  end.

(** [batch]. *)
Definition batch_rows (limit : nat) (pending : list (Z * work_item)) : list (Z * work_item) :=
  match pending with
  | [] => []
  | r :: _ => under_budget 0 (take limit (filter (λ x, it_phase x.2 = it_phase r.2) pending))
  end.

(** [ON CONFLICT (snapshot_id, external_id, item_type) DO NOTHING]; the target's tenant
    where the payload has none. *)
Definition copy_row (sid tenant : string) (r : copied) (rows : gmap (string * string * string) copied) :
    gmap (string * string * string) copied * option copied :=
  match rows !! (sid, cr_external r, cr_type r) with
  | Some _ => (rows, None)
  | None =>
    let r := Copied (cr_external r) (cr_type r) (cr_parent r) (cr_folder r) (cr_chat r) (cr_topic r) (cr_size r)
      (Some (default tenant (cr_tenant r))) (cr_rest r) in
    (<[(sid, cr_external r, cr_type r) := r]> rows, Some r)
  end.

(** [UPDATE snapshot_items SET folder_path, metadata ..]. *)
Definition rename_row (legacy : copied → bool) (sid external type chat name : string) (rows : gmap (string * string * string) copied) :
    gmap (string * string * string) copied * option copied :=
  match rows !! (sid, external, type) with
  | Some r =>
    if bool_decide (cr_chat r = Some chat) && negb (bool_decide (cr_folder r = String.append "chats/" name)) && legacy r
    then (<[(sid, external, type) := Copied (cr_external r) (cr_type r) (cr_parent r) (String.append "chats/" name) (cr_chat r) (Some name)
            (cr_size r) (cr_tenant r) (cr_rest r)]> rows,
          Some (Copied external type None "" None None None None 0))
    else (rows, None)
  | None => (rows, None)
  end.

Context (legacy_folder : task → copied → bool).

Definition apply_payload (t : task) (sid tenant : string) (rows : gmap (string * string * string) copied) (p : item_payload) :
    gmap (string * string * string) copied * option copied :=
  match p with
  | PRow r => copy_row sid tenant r rows
  | PRename e ty c n => rename_row (legacy_folder t) sid e ty c n rows
  | _ => (rows, None)
  end.

Fixpoint apply_payloads (t : task) (sid tenant : string) (ps : list item_payload) (rows : gmap (string * string * string) copied) :
    gmap (string * string * string) copied * list copied :=
  match ps with
  | [] => (rows, [])
  | p :: ps =>
    let (rows, c) := apply_payload t sid tenant rows p in
    let (rows, cs) := apply_payloads t sid tenant ps rows in
    (rows, match c with Some c => c :: cs | None => cs end)
  end.

(** [COALESCE(parent_external_id, split_part(external_id, '::', 1))] *)
Fixpoint before_colons (s : string) : string :=
  match s with
  | String ":"%char (String ":"%char _) => ""
  | String c s => String c (before_colons s)
  | EmptyString => ""
  end.
Definition parent_of (r : copied) : string := default (before_colons (cr_external r)) (cr_parent r).

(** [batch_validity]: the mail an attachment belongs to is in the target already. *)
Definition parents_present (sid : string) (ps : list item_payload) (d : copy_db) : bool :=
  forallb (λ p, match p with
    | PRow r => negb (bool_decide (cr_type r = "EMAIL_ATTACHMENT")) || bool_decide (is_Some (cd_rows d !! (sid, parent_of r, "EMAIL")))
    | _ => true
    end) ps.

Record batch_result := BatchDone { bd_done : bool; bd_cursor : Z; bd_rows : Z; bd_bytes : Z }.

Definition sum_sizes (rows : list copied) : Z := foldr (λ r acc, default 0 (cr_size r) + acc) 0 rows.

Definition max_ordinal (checkpoint : Z) (rows : list (Z * work_item)) : Z := foldr (λ r acc, Z.max r.1 acc) checkpoint rows.

(** A draft keeps the better label; equal quality under another path is a conflict. *)
Definition merge_draft (now : Z) (l : label) (c : bool) (old : option draft) : draft :=
  match old with
  | None => Draft l c now
  | Some o =>
    let q := lb_quality (dr_label o) in
    let better := q <? lb_quality l in
    Draft (Label (lb_chat l) (if better then lb_path l else lb_path (dr_label o)) (Z.max q (lb_quality l))
             (if better then lb_provenance l else lb_provenance (dr_label o)))
      (dr_conflicted o || ((lb_quality l =? q) && negb (bool_decide (lb_path l = lb_path (dr_label o)))))
      (if better then now else dr_accepted o)
  end.

Definition label_of (p : item_payload) : option (label * bool) := match p with PLabel l c => Some (l, c) | _ => None end.

Definition published_count (sid : string) (d : copy_db) : Z :=
  Z.of_nat (length (filter (λ kv : (string * string) * (label * bool), kv.1.1 = sid) (map_to_list (cd_labels d)))).

Definition present_snapshot (s : copy_snapshot) : copy_snapshot :=
  CopySnapshot (cs_status s) (cs_lease s) (cs_job s) (cs_resource s) (cs_cancelled s) (cs_flow s) (cs_phase s) (cs_required_failed s)
    (cs_degraded s) (cs_catalogue s) (cs_union_carry s) (cs_origin s) (cs_checkpoints s) true.

Definition nothing_left (tid : string) (cursor : Z) (d : copy_db) : bool :=
  negb (existsb (λ kv : (string * Z) * work_item, bool_decide (kv.1.1 = tid) && (cursor <? kv.1.2)) (map_to_list (cd_items d))).

(** [apply_label_batch]. *)
Definition apply_label_batch (now : Z) (tid : string) (t : task) (limit : nat) (d : copy_db) : result copy_err (copy_db * batch_result) :=
  w ← label_source t d;
  let sid := fi_snapshot (wf_ident w) in
  let checkpoint := tp_checkpoint (tk_progress t) in
  let rows := take limit (pending_items tid checkpoint d) in
  let labels := omap (λ r, label_of (it_payload r.2)) rows in
  let cursor := match last rows with Some r => r.1 | None => checkpoint end in
  let done := nothing_left tid cursor d in
  let answer := BatchDone done cursor (Z.of_nat (length rows)) 0 in
  if bool_decide (ti_kind (tk_ident t) = ChatLabels)
  then
    let key l := (sid, ti_flow (tk_ident t), wf_attempt w, lb_chat l) in
    Ok (on_drafts (λ m, foldl (λ m lc, <[key lc.1 := merge_draft now lc.1 lc.2 (m !! key lc.1)]> m) m labels) d, answer)
  else
    let d := on_labels (λ m, foldl (λ m lc, match m !! (sid, lb_chat lc.1) with Some _ => m | None => <[(sid, lb_chat lc.1) := lc]> m end) m labels) d in
    pl ← of_option CopyRuntimeError (cd_plans d !! sid);
    raise_if (negb (bool_decide (pl_task pl = Some tid))) CopyValueError ;;
    let n := published_count sid d in
    raise_if (done && negb (n =? pl_expected pl)) CopyValueError ;;
    let d := on_plans (insert sid (Plan (if done then PlPublished else pl_state pl) (pl_task pl) (pl_expected pl) n)) d in
    Ok (if done then on_drafts (filter (λ kv, kv.1.1.1.1 ≠ sid)) (on_snaps (alter present_snapshot sid) d) else d, answer).

(** [copy_manifest_batch]. *)
Definition copy_manifest_batch (now : Z) (tid : string) (t : task) (limit : nat) (d : copy_db) : result copy_err (copy_db * batch_result) :=
  ws ← task_scope t d;
  raise_if (negb (tp_prepared (tk_progress t))) CopyValueError ;;
  if is_presentation (ti_kind (tk_ident t)) then apply_label_batch now tid t limit d
  else
    let sid := fi_snapshot (wf_ident ws.1) in
    let checkpoint := tp_checkpoint (tk_progress t) in
    let batch := batch_rows limit (pending_items tid checkpoint d) in
    let payloads := map (λ r, it_payload r.2) batch in
    raise_if (negb (parents_present sid payloads d)) CopyRuntimeError ;;
    let (rows, changed) := apply_payloads t sid (fi_tenant (wf_ident ws.1)) payloads (cd_rows d) in
    let cursor := max_ordinal checkpoint batch in
    let counted := if bool_decide (ti_kind (tk_ident t) = ArchiveCarry) then filter (λ r, cr_type r = "ARCHIVE_ITEM") changed else changed in
    Ok (on_rows (λ _, rows) d, BatchDone (nothing_left tid cursor d) cursor (Z.of_nat (length counted)) (sum_sizes changed)).

(** ** Admission *)

Inductive owned_answer := OwStale | OwCancelled | OwEnded | OwOk (t : task) (w : workflow).

Definition partition_of (w : workflow) (d : copy_db) : option copy_partition := fi_partition (wf_ident w) ≫= λ p, cd_parts d !! p.

(** [_owned]: the task and its workflow, if the claim still stands and the parents are as
    the seal left them. *)
Definition owned_copy (c : copy_claim) (d : copy_db) : owned_answer :=
  match cd_tasks d !! cl_task c with
  | None => OwStale
  | Some t =>
    match flow_of t d with
    | None => OwStale
    | Some w =>
      match cd_jobs d !! fi_job (wf_ident w), cd_snaps d !! fi_snapshot (wf_ident w) with
      | Some job, Some snap =>
        let part := partition_of w d in
        if negb (bool_decide (wf_state w = WWaiting)) || negb (bool_decide (tk_state t = TRunning)) || negb (tk_generation t =? cl_generation c)
          || negb (ti_attempt (tk_ident t) =? wf_attempt w) || negb (bool_decide (tk_owner t = Some (cl_owner c))) then OwStale
        else if negb (bool_decide (cs_job snap = fi_job (wf_ident w))) || negb (bool_decide (cs_resource snap = fi_resource (wf_ident w)))
          || negb (bool_decide (cj_tenant job = fi_tenant (wf_ident w))) || negb (bool_decide (ti_tenant (tk_ident t) = fi_tenant (wf_ident w)))
          || negb (bool_decide (ti_resource (tk_ident t) = fi_resource (wf_ident w))) then OwStale
        else if bool_decide (cj_status job = JCancelled) || cs_cancelled snap then OwCancelled
        else if negb (job_open (cj_status job)) || negb (bool_decide (cs_status snap = SInProgress)) then OwEnded
        else
          let leaf_ok := match fi_partition (wf_ident w), part with
            | None, _ => true
            | Some _, Some p => bool_decide (cp_snapshot p = fi_snapshot (wf_ident w)) && bool_decide (cp_job p = fi_job (wf_ident w)) &&
                bool_decide (cp_resource p = fi_resource (wf_ident w)) && bool_decide (cp_tenant p = fi_tenant (wf_ident w)) &&
                bool_decide (cp_status p = "IN_PROGRESS")
            | Some _, None => false
            end in
          let leaf := leaf_of_parts snap part in
          if negb leaf_ok || negb (bool_decide (ll_owner leaf = None)) || negb (bool_decide (ll_expires leaf = None))
            || negb (ll_token leaf =? wt_parent (wf_tokens w)) || negb (ll_token (cs_lease snap) =? wt_snapshot (wf_tokens w))
            || negb (cj_token job =? wt_job (wf_tokens w)) then OwStale
          else OwOk t w
      | _, _ => OwStale
      end
    end
  end.

(** A settlement writes this status, or defers the task ([None]). *)
Definition settle_task (now : Z) (status : option task_state) (error : task_error) (queued : Z) (spend : bool) (t : task) : task * option task_state :=
  let '(t, status, error) := match status with
    | Some _ => (t, status, error)
    | None =>
      let previous := failures_of (tk_error t) in
      let failures := if spend then (if pm_budget (tk_params t) then Z.max previous (tk_attempts t - 1) else previous) + 1 else previous in
      let error := if failures =? 0 then error else TaskError (te_code error) (Some failures) in
      let status := if 3 <=? failures then Some TFailed else None in
      let waited := tc_waited (tk_clock t) + Z.max 0 queued in
      let t := set_task_clock (TaskClock (now + 1000000) now waited) t in
      let t := if spend then t else set_task_attempts (Z.max 0 (tk_attempts t - 1)) t in
      if negb (ti_wait_max (tk_ident t) =? 0) && (ti_wait_max (tk_ident t) <=? waited)
      then (t, Some TFailed, TaskError "copy_admission_timeout" None) else (t, status, error)
    end in
  (set_task_lease None None (set_task_error (Some error) (set_task_state (default TReady status) t)), status).

Inductive batch_status := BStale | BDeferred | BState (st : task_state).

(** [_settle]: [None] when none of its transactions went through. *)
Definition settle (now : Z) (c : copy_claim) (goes_through : bool) (status : option task_state) (error : task_error) (queued : Z) (spend : bool) (d : copy_db)
    : copy_db * option batch_status :=
  let write status error :=
    match cd_tasks d !! cl_task c with
    | Some t => let (t, status) := settle_task now status error queued spend t in
                (on_tasks (insert (cl_task c) t) d, Some match status with Some st => BState st | None => BDeferred end)
    | None => (d, None)
    end in
  if negb goes_through then (d, None)
  else match owned_copy c d with
    | OwStale => (d, Some BStale)
    | OwCancelled => write (Some TCancelled) (TaskError "copy_parent_cancelled" None)
    | OwEnded => write (Some TFailed) (TaskError "copy_parent_terminal" None)
    | OwOk _ _ => write status error
    end.

Inductive phase := PhSettings | PhOwnership | PhAdmission | PhExecution.
Global Instance phase_eq_dec : EqDecision phase.
Proof. solve_decision. Defined.

(** What happens to the transaction of a batch: its statements are answered, with the
    permit that was not free, if any; it fails in a phase, with the code of the database;
    or it commits and the acknowledgement is lost. *)
Inductive batch_event :=
  | EvRun (missing : option string)
  | EvFail (ph : phase) (state : option string)
  | EvLost (state : option string).

Inductive batch_outcome :=
  | OutCommit (d : copy_db) (st : task_state) (rows bytes : Z)
  | OutStale
  | OutUnsettled
  | OutCancelled
  | OutEnded
  | OutDeferred (code : string)
  | OutError (ph : phase) (state : option string) (d : copy_db).

(** The execution of a batch and the checkpoint it commits. *)
Definition execute (now timeout : Z) (limit : nat) (keep : bool) (c : copy_claim) (t : task) (d : copy_db) : result copy_err (copy_db * task_state * Z * Z) :=
  pt ← prepare_manifest (cl_task c) t d;
  let (d, t) := (pt : copy_db * task) in
  rb ← copy_manifest_batch now (cl_task c) t limit d;
  let (d, r) := (rb : copy_db * batch_result) in
  let p := tk_progress t in
  let t := set_task_attempts 0 (set_task_error None (set_task_progress
    (TaskProgress (tp_prepared p) (bd_cursor r) (tp_rows p + bd_rows r) (tp_bytes p + bd_bytes r)) t)) in
  let keeps := keep && negb (bd_done r) && match tk_expires t with Some e => timeout <? e - now | None => false end in
  let t := if keeps then set_task_attempts 1 t
    else
      let t := set_task_lease None None (set_task_state (if bd_done r then TCompleted else TReady) t) in
      if bd_done r then t else set_task_clock (TaskClock now now (tc_waited (tk_clock t))) t in
  Ok (on_tasks (insert (cl_task c) t) d, tk_state t, bd_rows r, bd_bytes r).

(** One transaction of [run_batch]. *)
Definition attempt_batch (now timeout : Z) (limit : nat) (keep : bool) (c : copy_claim) (ev : batch_event) (d : copy_db) : batch_outcome :=
  match ev with
  | EvFail PhSettings st => OutError PhSettings st d
  | EvFail PhOwnership st => OutError PhOwnership st d
  | _ =>
    match owned_copy c d with
    | OwStale => OutStale
    | OwCancelled => OutCancelled
    | OwEnded => OutEnded
    | OwOk t _ =>
      if negb (match cd_control d with Some ctl => cc_enabled ctl | None => false end) then OutDeferred "copy_protocol_disabled"
      else if negb (ti_wait_max (tk_ident t) =? 0) && (ti_wait_max (tk_ident t) <=? tc_waited (tk_clock t)) then OutDeferred "copy_admission_timeout"
      else
        match ev with
        | EvRun (Some code) => OutDeferred code
        | EvFail PhAdmission st => OutError PhAdmission st d
        | _ =>
          if pm_budget (tk_params t) && (3 <? tk_attempts t) then OutUnsettled
          else match ev with
            | EvFail _ st => OutError PhExecution st d
            | _ =>
              match execute now timeout limit keep c t d with
              | Err _ => OutError PhExecution None d
              | Ok (d', st, rows, bytes) => match ev with EvLost s => OutError PhExecution s d' | _ => OutCommit d' st rows bytes end
              end
            end
        end
    end
  end.

Definition is_state (st : option string) (codes : list string) : bool := match st with Some s => bool_decide (s ∈ codes) | None => false end.

Definition admission_code (st : option string) : string :=
  if is_state st ["55P03"] then "copy_lock_timeout" else if is_state st ["57014"] then "copy_statement_timeout"
  else if is_state st ["40P01"] then "copy_deadlock" else "copy_serialization_failure".

(** [run_batch]: the events of its transactions, the time its settlement waited for
    admission, whether the settlement goes through. *)
Fixpoint run_batch_loop (now timeout : Z) (limit : nat) (keep : bool) (c : copy_claim) (queued : Z) (settles : bool)
    (attempt : nat) (evs : list batch_event) (d : copy_db) : copy_db * option batch_status :=
  match evs with
  | [] => (d, None)
  | ev :: evs =>
    match attempt_batch now timeout limit keep c ev d with
    | OutCommit d st _ _ => (d, Some (BState st))
    | OutStale => (d, Some BStale)
    | OutUnsettled => settle now c settles (Some TFailed) (TaskError "copy_execution_unsettled" (Some 3)) 0 true d
    | OutCancelled => settle now c settles (Some TCancelled) (TaskError "copy_parent_cancelled" None) 0 true d
    | OutEnded => settle now c settles (Some TFailed) (TaskError "copy_parent_terminal" None) 0 true d
    | OutDeferred code => settle now c settles None (TaskError code None) queued false d
    | OutError ph st d =>
      if negb (bool_decide (ph = PhExecution)) && is_state st ["55P03"; "57014"; "40P01"; "40001"]
      then settle now c settles None (TaskError (admission_code st) None) queued false d
      else if is_state st ["57014"] && (attempt <? 3)%nat
      then run_batch_loop now timeout limit keep c queued settles (attempt + 1) evs d
      else if is_state st ["40P01"; "40001"]
      then settle now c settles None (TaskError (admission_code st) None) 0 true d
      else if is_state st ["55P03"]
      then settle now c settles None (TaskError "copy_lock_timeout" None) 0 true d
      else settle now c settles (Some TFailed) (TaskError (if is_state st ["57014"] then "copy_statement_timeout" else "copy_execution_failed") None) 0 true d
    end
  end.
Definition run_batch (now timeout : Z) (limit : nat) (keep : bool) (c : copy_claim) (queued : Z) (settles : bool) (evs : list batch_event) (d : copy_db)
    : copy_db * option batch_status :=
  run_batch_loop now timeout limit keep c queued settles 1 evs d.
End Executor.
