(* ===== verification/CopyFlow.v ===== *)
(** * Copy work: sealing, resuming and ending a workflow

    [src/shared/copy_workflow.py] and the recovery half of [src/shared/copy_runtime.py]: a
    capture registers its intents and seals its leaf, which hands the lease of the leaf to
    the workflow; when every task has ended, one worker resumes the leaf under a new
    generation; an ended workflow keeps its pins until its parents are settled; a cancelled
    or abandoned one drops them.

    A transaction of the seal or of a registration is retried; whether each try commits, and
    whether its acknowledgement arrives, is the list of [commit_event]s. A capture that runs
    under provider work also finishes that work when it seals ([Provider.finish_work]); that
    write, the note left in the job's result and the log lines are not kept. *)

From S2P Require Import Prelude Reconciler Provider.
From S2P Require Import CopyWork CopyBatch.
Local Open Scope Z_scope.

(** ** The capture of a leaf *)

Record seal_receipt := SealReceipt {
  sr_flow : string;
  sr_generation : Z;
  sr_attempt : Z;
  sr_parents : (string * Z * option string) * (string * Z * option string) * option (string * Z * option string);
  sr_continuation : string;
}.

Record collection := Collection {
  co_snapshot : string;
  co_partition : option string;
  co_error : bool;
  co_job_token : option Z;
  co_snapshot_token : option Z;
  co_partition_token : option Z;
  co_result : option string;
  co_receipt : option seal_receipt;
}.

Record resume_claim := ResumeClaim { rm_flow : string; rm_owner : string; rm_generation : Z; rm_token : Z }.

(** [_lock_parents]; a partition that is gone reads as no partition. *)
Definition lock_parents (i : flow_ident) (d : copy_db) : option copy_job * option copy_snapshot * option copy_partition :=
  (cd_jobs d !! fi_job i, cd_snaps d !! fi_snapshot i, fi_partition i ≫= λ p, cd_parts d !! p).

Definition parent_identity (i : flow_ident) (job : copy_job) (snap : copy_snapshot) (part : option copy_partition)
    : (string * Z * option string) * (string * Z * option string) * option (string * Z * option string) :=
  ((fi_job i, cj_token job, cj_owner job), (fi_snapshot i, ll_token (cs_lease snap), ll_owner (cs_lease snap)),
   match part with Some p => Some (default "" (fi_partition i), ll_token (cp_lease p), ll_owner (cp_lease p)) | None => None end).

(** [_sealed_parents]: the leaf with the next token and no owner. *)
Definition sealed_parents (r : seal_receipt) : (string * Z * option string) * (string * Z * option string) * option (string * Z * option string) :=
  let '(j, s, p) := sr_parents r in
  match p with
  | Some (i, token, _) => (j, s, Some (i, token + 1, None))
  | None => let '(i, token, _) := s in (j, (i, token + 1, None), None)
  end.

Definition leaf_token_of (ps : (string * Z * option string) * (string * Z * option string) * option (string * Z * option string)) : Z :=
  let '(_, s, p) := ps in match p with Some (_, t, _) => t | None => s.1.2 end.

(** [_matches_seal_receipt]. *)
Definition matches_seal_receipt (r : seal_receipt) (fid : string) (w : workflow) (job : copy_job) (snap : copy_snapshot) (part : option copy_partition) : bool :=
  let ps := sealed_parents r in
  bool_decide (fid = sr_flow r) && bool_decide (wf_state w = WWaiting) && (wf_generation w =? sr_generation r + 1) && (wf_attempt w =? sr_attempt r) &&
  bool_decide (wf_continuation w = sr_continuation r) && bool_decide (wf_owner w = None) && bool_decide (wf_expires w = None) &&
  bool_decide (parent_identity (wf_ident w) job snap part = ps) && (wt_parent (wf_tokens w) =? leaf_token_of ps) &&
  (wt_snapshot (wf_tokens w) =? ps.1.2.1.2) && (wt_job (wf_tokens w) =? ps.1.1.1.2).

(** [verify_copy_resume] without the lock. *)
Definition verify_resume (c : resume_claim) (d : copy_db) : bool :=
  match cd_flows d !! rm_flow c with
  | None => false
  | Some w =>
    let '(job, snap, part) := lock_parents (wf_ident w) d in
    match job, snap with
    | Some job, Some snap =>
      bool_decide (wf_state w = WResuming) && (wf_generation w =? rm_generation c) && bool_decide (wf_owner w = Some (rm_owner c)) &&
      (wt_parent (wf_tokens w) =? rm_token c) && negb (bool_decide (cj_status job ∈ [JCancelled; JCancelling])) && negb (cs_cancelled snap) &&
      (ll_token (leaf_of_parts snap part) =? rm_token c)
    | _, _ => false
    end
  end.

(** [verify_copy_resume] with the lock also renews the lease. *)
Definition renew_resume (now : Z) (c : resume_claim) (d : copy_db) : copy_db * bool :=
  if verify_resume c d
  then (on_flows (alter (λ w, set_flow_lease (wf_owner w) (Some (now + LEASE_SECONDS)) w) (rm_flow c)) d, true)
  else (d, false).

(** ** Column updates of the leaf *)

Definition set_copy_snap_lease (l : leaf_lease) (s : copy_snapshot) : copy_snapshot :=
  CopySnapshot (cs_status s) l (cs_job s) (cs_resource s) (cs_cancelled s) (cs_flow s) (cs_phase s) (cs_required_failed s)
    (cs_degraded s) (cs_catalogue s) (cs_union_carry s) (cs_origin s) (cs_checkpoints s) (cs_presented s).
Definition set_copy_part_lease (l : leaf_lease) (p : copy_partition) : copy_partition :=
  CopyPartition (cp_status p) l (cp_snapshot p) (cp_job p) (cp_resource p) (cp_tenant p) (cp_type p) (cp_chats p) (cp_folders p) (cp_carry p).
Definition set_copy_phase (flow : option string) (phase : string) (failed : bool) (degraded : option string) (s : copy_snapshot) : copy_snapshot :=
  CopySnapshot (cs_status s) (cs_lease s) (cs_job s) (cs_resource s) (cs_cancelled s) flow (Some phase) failed degraded
    (cs_catalogue s) (cs_union_carry s) (cs_origin s) (cs_checkpoints s) (cs_presented s).

(** The leaf of a workflow: its partition, when it has one that still exists. *)
Definition write_copy_leaf (i : flow_ident) (part : option copy_partition) (l : leaf_lease) (d : copy_db) : copy_db :=
  match fi_partition i, part with
  | Some p, Some _ => on_parts (alter (set_copy_part_lease l) p) d
  | _, _ => on_snaps (alter (set_copy_snap_lease l) (fi_snapshot i)) d
  end.

Definition COPY_DEGRADED : string := "required database copy did not complete".

(** ** Sealing *)

Definition CONTINUATION_MAX : Z := 65536.

Definition token_moved (expected : option Z) (actual : Z) : bool := match expected with Some t => negb (t =? actual) | None => false end.

(** A moved partition token includes a partition that is gone. *)
Definition captured_moved (co : collection) (job : copy_job) (snap : copy_snapshot) (part : option copy_partition) : bool :=
  token_moved (co_job_token co) (cj_token job) || token_moved (co_snapshot_token co) (ll_token (cs_lease snap)) ||
  match part with Some p => token_moved (co_partition_token co) (ll_token (cp_lease p)) | None => bool_decide (is_Some (co_partition_token co)) end.

Definition set_receipt (r : seal_receipt) (co : collection) : collection :=
  Collection (co_snapshot co) (co_partition co) (co_error co) (co_job_token co) (co_snapshot_token co) (co_partition_token co) (co_result co) (Some r).
Definition set_result (s : option string) (co : collection) : collection :=
  Collection (co_snapshot co) (co_partition co) (co_error co) (co_job_token co) (co_snapshot_token co) (co_partition_token co) s (co_receipt co).

Section Seal.
Context (tenant_capacity : Z).

Definition find_flow (key : string) (d : copy_db) : option (string * workflow) :=
  first_by_id (filter (λ kv, fi_leaf (wf_ident kv.2) = key) (map_to_list (cd_flows d))).

(** The writes of the seal: the leaf passes to the workflow, whose tasks become runnable. *)
Definition seal_writes (now : Z) (fid : string) (w : workflow) (snap : copy_snapshot) (job : copy_job) (part : option copy_partition)
    (continuation : string) (d : copy_db) : copy_db :=
  let leaf := leaf_of_parts snap part in
  let token := ll_token leaf + 1 in
  let d := write_copy_leaf (wf_ident w) part (LeafLease token None None) d in
  let snap_token := match part with Some _ => ll_token (cs_lease snap) | None => token end in
  let w := set_flow_continuation continuation (set_flow_tokens (WorkTokens token snap_token (cj_token job)) w) in
  let d := align_ready_workflow tenant_capacity fid (on_flows (insert fid w) d) in
  let w := bump_flow (set_flow_lease None None (set_flow_state WWaiting w)) in
  let d := on_flows (insert fid w) d in
  let d := on_tasks (map_imap (λ _ t, Some (if bool_decide (ti_flow (tk_ident t) = fid) && (ti_attempt (tk_ident t) =? wf_attempt w) &&
      bool_decide (tk_state t = TReady) then set_task_clock (TaskClock now now 0) t else t))) d in
  on_snaps (alter (λ s, set_copy_phase (Some fid) "QUEUED" (cs_required_failed s) (cs_degraded s) s) (fi_snapshot (wf_ident w))) d.

(** The transaction [seal]: the database and the capture afterwards, and its answer. *)
Definition seal_txn (now : Z) (own : option resume_claim) (receipt_only : bool) (continuation : string) (co : collection) (d : copy_db)
    : result copy_err (copy_db * option string) * collection :=
  match find_flow (leaf_key (co_snapshot co) (co_partition co)) d with
  | None => (if bool_decide (is_Some (co_receipt co)) then Err CopyWorkConflict else Ok (d, None), co)
  | Some (fid, w) =>
    let '(job, snap, part) := lock_parents (wf_ident w) d in
    match job, snap with
    | Some job, Some snap =>
      if bool_decide (is_Some (co_partition co)) && negb (bool_decide (is_Some part)) then (Err CopyWorkConflict, co)
      else if negb (bool_decide (is_Some (co_receipt co))) && bool_decide (wf_state w = WResuming) &&
          match own with Some c => bool_decide (rm_flow c = fid) | None => false end
      then (match own with Some c => if verify_resume c d then Ok (d, None) else Err CopyWorkConflict | None => Err CopyWorkConflict end, co)
      else if negb (job_open (cj_status job)) || negb (bool_decide (cs_status snap = SInProgress)) || cs_cancelled snap ||
          match part with Some p => negb (bool_decide (cp_status p = "IN_PROGRESS")) | None => false end
      then (Err CopyWorkConflict, co)
      else
        let identity := parent_identity (wf_ident w) job snap part in
        let sealed := match co_receipt co with Some r => matches_seal_receipt r fid w job snap part | None => false end in
        if sealed then (Ok (d, Some fid), co)
        else if match co_receipt co with
            | Some r => negb (bool_decide (fid = sr_flow r)) || negb (wf_generation w =? sr_generation r) || negb (wf_attempt w =? sr_attempt r) ||
                negb (bool_decide (identity = sr_parents r))
            | None => false
            end then (Err CopyWorkConflict, co)
        else if negb (bool_decide (wf_state w = WDraining)) || captured_moved co job snap part ||
            negb (ll_token (leaf_of_parts snap part) =? wt_parent (wf_tokens w)) then (Err CopyWorkConflict, co)
        else if receipt_only then (Ok (d, None), co)
        else
          let co := match co_receipt co with
            | Some _ => co
            | None => set_receipt (SealReceipt fid (wf_generation w) (wf_attempt w) identity continuation) co
            end in
          (Ok (seal_writes now fid w snap job part continuation d, Some fid), co)
    | _, _ => (Err CopyWorkConflict, co)
    end
  end.

(** What happens to a transaction at its end. *)
Inductive commit_event := Committed | AckLost | NotCommitted | Broken.

(** [_run_copy_transaction]: at most three tries; [Broken] is an error no retry is for. An
    error of the connection leaves open whether the transaction has committed. *)
Fixpoint run_copy_transaction {A} (op : copy_db → collection → result copy_err (copy_db * A) * collection) (tries : nat) (evs : list commit_event)
    (co : collection) (d : copy_db) : copy_db * collection * result (copy_err * bool) A :=
  match tries, evs with
  | O, _ | _, [] => (d, co, Err (CopyRuntimeError, true))
  | S tries, ev :: evs =>
    let (r, co) := op d co in
    match r with
    | Err e => (d, co, Err (e, false))
    | Ok (d', a) =>
      match ev with
      | Committed => (d', co, Ok a)
      | AckLost => run_copy_transaction op tries evs co d'
      | NotCommitted => run_copy_transaction op tries evs co d
      | Broken => (d, co, Err (CopyRuntimeError, false))
      end
    end
  end.

(** [seal_current_copy] past the publication intent it may register first; [Ok None] leaves
    the leaf with its owner. *)
Definition seal_current_copy (now : Z) (own : option resume_claim) (continuation : string) (evs evs_check : list commit_event)
    (co : collection) (d : copy_db) : copy_db * collection * result copy_err (option string) :=
  if co_error co then (d, co, Err CopyWorkConflict)
  else if CONTINUATION_MAX <? Z.of_nat (String.length continuation) then (d, co, Err CopyValueError)
  else if match co_receipt co with Some r => negb (bool_decide (sr_continuation r = continuation)) | None => false end then (d, co, Err CopyWorkConflict)
  else match co_result co with
    | Some fid => (d, co, Ok (Some fid))
    | None =>
      match run_copy_transaction (λ d co, seal_txn now own false continuation co d) 3 evs co d with
      | (d, co, Ok r) => (d, set_result r co, Ok r)
      | (d, co, Err (e, connection)) =>
        if negb (bool_decide (is_Some (co_receipt co))) || negb connection then (d, co, Err e)
        else match run_copy_transaction (λ d co, seal_txn now own true continuation co d) 3 evs_check co d with
          | (d, co, Ok (Some fid)) => (d, set_result (Some fid) co, Ok (Some fid))
          | (d, co, Ok None) => (d, co, Err e)
          | (d, co, Err (e', _)) => (d, co, Err e')
          end
      end
    end.
End Seal.

(** ** Resuming *)

Definition part_terminal (p : copy_partition) : bool := bool_decide (cp_status p ∈ ["COMPLETED"; "FAILED"]).
Definition snap_terminal (s : copy_snapshot) : bool := bool_decide (cs_status s ∈ [SCompleted; SPartial; SFailed; SSkipped]).
Definition copy_leaf_terminal (snap : copy_snapshot) (part : option copy_partition) : bool :=
  match part with Some p => part_terminal p | None => snap_terminal snap end.
Definition copy_leaf_succeeded (snap : copy_snapshot) (part : option copy_partition) : bool :=
  match part with Some p => bool_decide (cp_status p = "COMPLETED") | None => bool_decide (cs_status snap ∈ [SCompleted; SSkipped]) end.

(** The tasks of the workflow's current capture. *)
Definition current_tasks (fid : string) (attempt : Z) (d : copy_db) : list (string * task) :=
  filter (λ kv, ti_flow (tk_ident kv.2) = fid ∧ ti_attempt (tk_ident kv.2) = attempt) (map_to_list (cd_tasks d)).
Definition any_task (p : task → bool) (fid : string) (attempt : Z) (d : copy_db) : bool := existsb (λ kv, p kv.2) (current_tasks fid attempt d).

Definition unended (t : task) : bool := negb (task_ended (tk_state t)).
Definition uncopied (t : task) : bool := negb (bool_decide (tk_state t = TCompleted)).
Definition unpublished (t : task) : bool := bool_decide (ti_kind (tk_ident t) = ChatPresentation) && uncopied t.

(** The items of every task of the workflow are deleted, the pins of their sources with
    them. *)
Definition of_flow (fid tid : string) (d : copy_db) : bool :=
  match cd_tasks d !! tid with Some t => bool_decide (ti_flow (tk_ident t) = fid) | None => false end.
Definition drop_items (fid : string) (d : copy_db) : copy_db := on_items (filter (λ kv, of_flow fid kv.1.1 d = false)) d.

(** A failed copy is written on the snapshot; a whole one clears what an earlier failure
    left. *)
Definition mark_copy (failed : bool) (s : copy_snapshot) : copy_snapshot :=
  if failed then set_copy_phase (cs_flow s) "FAILED" true (Some COPY_DEGRADED) s
  else set_copy_phase (cs_flow s) "COMPLETE" false (if bool_decide (cs_degraded s = Some COPY_DEGRADED) then None else cs_degraded s) s.

Definition abort_plan (sid : string) (d : copy_db) : copy_db :=
  match cd_plans d !! sid with
  | Some p =>
    if bool_decide (pl_state p = PlPublished) then d
    else on_drafts (filter (λ kv, kv.1.1.1.1 ≠ sid)) (on_plans (insert sid (Plan PlAborted (pl_task p) (pl_expected p) (pl_published p))) d)
  | None => d
  end.

(** [begin_resume]. *)
Definition begin_resume (now : Z) (fid owner : string) (d : copy_db) : result copy_err (copy_db * option resume_claim) :=
  match cd_flows d !! fid with
  | None => Ok (d, None)
  | Some w =>
    let '(job, snap, part) := lock_parents (wf_ident w) d in
    if negb (bool_decide (wf_state w ∈ [WWaiting; WResuming])) then Ok (d, None)
    else if bool_decide (wf_state w = WResuming) && match wf_expires w with Some e => now <? e | None => false end then Ok (d, None)
    else if any_task unended fid (wf_attempt w) d then Ok (d, None)
    else match job, snap with
      | Some job, Some snap =>
        let leaf := leaf_of_parts snap part in
        if copy_leaf_terminal snap part
        then Ok (on_flows (insert fid (set_flow_end (if copy_leaf_succeeded snap part then WCompleted else WPartial) now true w)) d, None)
        else if negb (job_open (cj_status job))
        then Ok (drop_items fid (on_flows (insert fid (set_flow_end WCancelled now (wf_settle w) w)) d), None)
        else if negb (ll_token leaf =? wt_parent (wf_tokens w)) then Err CopyWorkConflict
        else
          let token := ll_token leaf + 1 in
          let expires := now + LEASE_SECONDS in
          let d1 := write_copy_leaf (wf_ident w) part (LeafLease token (Some owner) (Some expires)) d in
          let snap_token := match part with Some _ => ll_token (cs_lease snap) | None => token end in
          let w := bump_flow (set_flow_lease (Some owner) (Some expires) (set_flow_state WResuming
            (set_flow_tokens (WorkTokens token snap_token (wt_job (wf_tokens w))) w))) in
          let failed := any_task uncopied fid (wf_attempt w) d in
          let d1 := on_flows (insert fid w) d1 in
          let d1 := on_snaps (alter (mark_copy failed) (fi_snapshot (wf_ident w))) d1 in
          let d1 := if failed && any_task unpublished fid (wf_attempt w) d then abort_plan (fi_snapshot (wf_ident w)) d1 else d1 in
          Ok (d1, Some (ResumeClaim fid owner (wf_generation w) token))
      | _, _ => Err CopyWorkConflict
      end
  end.

(** [finish_resume]. *)
Definition finish_resume (now : Z) (fid owner : string) (failed : bool) (d : copy_db) : result copy_err (copy_db * bool) :=
  match cd_flows d !! fid with
  | None => Ok (d, false)
  | Some w =>
    let '(job, snap, part) := lock_parents (wf_ident w) d in
    if negb (bool_decide (wf_state w = WResuming)) || negb (bool_decide (wf_owner w = Some owner)) then Ok (d, false)
    else
      snap ← of_option CopyRuntimeError snap;
      raise_if (negb (copy_leaf_terminal snap part)) CopyWorkConflict ;;
      let gaps := any_task uncopied fid (wf_attempt w) d in
      Ok (on_flows (insert fid (set_flow_lease None None (set_flow_end (if failed || gaps then WPartial else WCompleted) now true w))) d, true)
  end.

(** [finish_parent_settlement]. *)
Definition finish_parent_settlement (fid : string) (d : copy_db) : copy_db * bool :=
  match cd_flows d !! fid with
  | None => (d, true)
  | Some w =>
    let '(job, snap, part) := lock_parents (wf_ident w) d in
    if negb (wf_settle w) then (d, true)
    else if is_active (wf_state w) then (d, false)
    else match job, snap with
      | Some job, Some snap =>
        if negb (snap_terminal snap) || negb (bool_decide (cj_status job ∈ [JCompleted; JPartial; JFailed; JCancelled])) then (d, false)
        else (drop_items fid (on_flows (insert fid (Workflow (wf_ident w) (wf_state w) (wf_attempt w) (wf_generation w) (wf_tokens w) (wf_continuation w)
                (wf_owner w) (wf_expires w) (wf_completed w) false)) d), true)
      | _, _ => (d, false)
      end
  end.

(** ** Cancelling and abandoning *)

Definition cancel_task (t : task) : task :=
  if task_ended (tk_state t) then t
  else set_task_lease None None (bump_task (set_task_error (Some (TaskError "copy_cancelled" None)) (set_task_state TCancelled t))).

(** One workflow of [cancel_copy_work]; [abandoned] is the terminal state FAILED. *)
Definition cancel_flow (now : Z) (abandoned : bool) (fid : string) (d : copy_db) : copy_db :=
  match cd_flows d !! fid with
  | None => d
  | Some w =>
    let '(job, snap, part) := lock_parents (wf_ident w) d in
    let d := on_tasks (map_imap (λ _ t, Some (if bool_decide (ti_flow (tk_ident t) = fid) then cancel_task t else t))) d in
    let d := on_flows (insert fid (bump_flow (set_flow_end (if abandoned then WFailed else WCancelled) now false w))) d in
    let d := match snap with
      | Some s =>
        if abandoned && (ll_token (leaf_of_parts s part) =? wt_parent (wf_tokens w)) && bool_decide (cs_status s = SInProgress)
        then on_snaps (alter (λ s, set_copy_phase (cs_flow s) "FAILED" true (Some COPY_DEGRADED) s) (fi_snapshot (wf_ident w))) d
        else d
      | None => d
      end in
    drop_items fid d
  end.

(** [cancel_copy_work]: the workflows of a snapshot, a job or a workflow that still hold
    work or pins. *)
Record cancel_scope := CancelScope { sc_snapshot : option string; sc_job : option string; sc_flow : option string }.

Definition in_scope (sc : cancel_scope) (kv : string * workflow) : bool :=
  (is_active (wf_state kv.2) || wf_settle kv.2) &&
  match sc_snapshot sc with Some s => bool_decide (fi_snapshot (wf_ident kv.2) = s) | None => true end &&
  match sc_job sc with Some j => bool_decide (fi_job (wf_ident kv.2) = j) | None => true end &&
  match sc_flow sc with Some f => bool_decide (kv.1 = f) | None => true end.

Definition cancel_copy_work (now : Z) (sc : cancel_scope) (abandoned : bool) (d : copy_db) : result copy_err (copy_db * Z) :=
  raise_if (match sc with CancelScope None None None => true | _ => false end) CopyValueError ;;
  let fids := (filter (λ kv, in_scope sc kv = true) (map_to_list (cd_flows d))).*1 in
  Ok (foldl (λ d fid, cancel_flow now abandoned fid d) d fids, Z.of_nat (length fids)).

(** [_abandon]: an active workflow whose parents have ended, or whose drain nobody is left
    to seal; [alive] says which owners have a fresh heartbeat, [lease_ttl] is [LEASE_TTL_S]. *)
Definition abandon (lease_ttl now : Z) (alive : string → bool) (fid : string) (d : copy_db) : copy_db * bool :=
  match cd_flows d !! fid with
  | None => (d, false)
  | Some w =>
    let '(job, snap, part) := lock_parents (wf_ident w) d in
    let cancelled := match job with Some j => bool_decide (cj_status j = JCancelled) | None => false end in
    let leaf_done := match part, snap with
      | Some p, _ => bool_decide (cp_status p ∈ ["COMPLETED"; "PARTIAL"; "FAILED"])
      | None, Some s => bool_decide (cs_status s ∈ [SCompleted; SPartial; SFailed])
      | None, None => false
      end in
    let go := match job, snap with
      | Some j, Some s =>
        let terminal := negb (job_open (cj_status j)) || negb (bool_decide (cs_status s = SInProgress)) ||
          match part with Some p => part_terminal p | None => false end in
        if terminal then true
        else
          let leaf := leaf_of_parts s part in
          if negb (bool_decide (wf_state w = WDraining)) then false
          else if ll_token leaf <? wt_parent (wf_tokens w) then false
          else if wt_parent (wf_tokens w) <? ll_token leaf then true
          else if negb (ll_token (cs_lease s) =? wt_snapshot (wf_tokens w)) || negb (cj_token j =? wt_job (wf_tokens w)) then false
          else if match ll_expires leaf with Some e => now <? e | None => now - fi_created (wf_ident w) <? lease_ttl end then false
          else negb (match ll_owner leaf with Some o => alive o | None => false end)
      | _, _ => true
      end in
    if negb (is_active (wf_state w)) then (d, false)
    else if bool_decide (wf_state w = WResuming) && bool_decide (is_Some job) && negb cancelled && leaf_done then (d, false)
    else if go then (cancel_flow now (negb cancelled) fid d, true) else (d, false)
  end.

(** [_release_cancelled_claim] of a worker that is shut down in the middle of a batch. *)
Definition release_cancelled_claim (now : Z) (c : copy_claim) (d : copy_db) : copy_db :=
  match cd_tasks d !! cl_task c with
  | Some t =>
    if bool_decide (tk_state t = TRunning) && bool_decide (tk_owner t = Some (cl_owner c)) && (tk_generation t =? cl_generation c)
    then
      let t' := set_task_clock (TaskClock now now (tc_waited (tk_clock t))) (set_task_lease None None (set_task_state TReady t)) in
      on_tasks (insert (cl_task c) (if pm_budget (tk_params t) then t' else set_task_attempts (Z.max 0 (tk_attempts t - 1)) t')) d
    else d
  | None => d
  end.
