(* ===== verification/CopySafety.v ===== *)
(** * Copy work: what every execution guarantees

    The transactions of [CopyWork], [CopyBatch] and [CopyFlow] interleave with each other,
    with workers that die between them, and with the other services, which write jobs,
    snapshots and partitions at will and add rows to a target. A leaf that is resumed as
    copied has every row of its manifests; a claim that was superseded is fenced out. *)

From S2P Require Import Prelude Reconciler Provider.
From S2P Require Import CopyWork CopyBatch CopyFlow.
Local Open Scope Z_scope.

(** ** Operations that leave the copied rows alone *)

Definition task_keeps (t t' : task) : Prop :=
  tk_ident t' = tk_ident t ∧ tk_progress t' = tk_progress t ∧ (tk_state t' = TCompleted ↔ tk_state t = TCompleted).

Definition flow_keeps (w w' : workflow) : Prop :=
  wf_ident w' = wf_ident w ∧ wf_attempt w' = wf_attempt w ∧ (wf_state w' = WDraining → wf_state w = WDraining) ∧
  (is_active (wf_state w') = true → is_active (wf_state w) = true).

Record keeps (d d' : copy_db) : Prop := {
  ks_tasks : ∀ tid t', cd_tasks d' !! tid = Some t' → ∃ t, cd_tasks d !! tid = Some t ∧ task_keeps t t';
  ks_tasks' : ∀ tid, is_Some (cd_tasks d !! tid) → is_Some (cd_tasks d' !! tid);
  ks_flows : ∀ fid w, cd_flows d !! fid = Some w → ∃ w', cd_flows d' !! fid = Some w' ∧ flow_keeps w w';
  ks_gens : ∀ tid t t', cd_tasks d !! tid = Some t → cd_tasks d' !! tid = Some t' → tk_generation t ≤ tk_generation t';
  ks_items : ∀ k it, cd_items d' !! k = Some it → cd_items d !! k = Some it;
  ks_rows : ∀ k, is_Some (cd_rows d !! k) → is_Some (cd_rows d' !! k);
  ks_pins : ∀ tid o it, cd_items d !! (tid, o) = Some it → cd_items d' !! (tid, o) = Some it ∨
    ∃ t w, cd_tasks d' !! tid = Some t ∧ flow_of t d' = Some w ∧ is_active (wf_state w) = false;
}.

Lemma task_keeps_refl t : task_keeps t t.
Proof. by repeat split. Qed.
Lemma flow_keeps_refl w : flow_keeps w w.
Proof. by repeat split. Qed.
#[export] Hint Resolve task_keeps_refl flow_keeps_refl : core.

Lemma copy_keeps_refl d : keeps d d.
Proof. constructor; eauto. intros tid t t' -> [= ->]. lia. Qed.

Lemma copy_keeps_trans d1 d2 d3 : keeps d1 d2 → keeps d2 d3 → keeps d1 d3.
Proof.
  intros [T1 T1' F1 G1 I1 R1 P1] [T2 T2' F2 G2 I2 R2 P2]. constructor; auto.
  - intros tid t3 H3. destruct (T2 _ _ H3) as (t2 & H2 & E2 & Q2 & S2). destruct (T1 _ _ H2) as (t1 & H1 & E1 & Q1 & S1).
    exists t1. split; [done|]. split; [congruence|]. split; [congruence|]. by rewrite S2.
  - intros fid w1 H1. destruct (F1 _ _ H1) as (w2 & H2 & E2 & A2 & D2 & N2). destruct (F2 _ _ H2) as (w3 & H3 & E3 & A3 & D3 & N3).
    exists w3. split; [done|]. split; [congruence|]. split; [congruence|]. split; auto.
  - intros tid t1 t3 H1 H3. destruct (T2 _ _ H3) as (t2 & H2 & _). specialize (G1 _ _ _ H1 H2). specialize (G2 _ _ _ H2 H3). lia.
  - intros tid o it Hit. destruct (P1 _ _ _ Hit) as [H|(t & w & Ht & Hw & Ha)]; [by apply P2|right].
    destruct (T2' tid) as [t3 H3]; [eauto|]. destruct (T2 _ _ H3) as (t' & Ht' & E & _). rewrite Ht in Ht'. injection Ht' as <-.
    destruct (F2 _ _ Hw) as (w3 & Hw3 & _ & _ & _ & N). exists t3, w3. split; [done|]. unfold flow_of in *. rewrite E. split; [done|].
    destruct (is_active (wf_state w3)); [|done]. by rewrite N in Ha.
Qed.

(** Tables that the copied rows do not depend on. *)
Definition same_work (d d' : copy_db) : Prop :=
  cd_tasks d' = cd_tasks d ∧ cd_flows d' = cd_flows d ∧ cd_items d' = cd_items d ∧ cd_rows d' = cd_rows d.

Lemma same_work_keeps d d' : same_work d d' → keeps d d'.
Proof.
  intros (HT & HF & HI & HR). constructor; rewrite ?HT, ?HF, ?HI, ?HR; eauto. intros tid t t' -> [= ->]. lia.
Qed.

Lemma on_tasks_keeps f d :
  (∀ tid t', f (cd_tasks d) !! tid = Some t' → ∃ t, cd_tasks d !! tid = Some t ∧ task_keeps t t') →
  (∀ tid, is_Some (cd_tasks d !! tid) → is_Some (f (cd_tasks d) !! tid)) →
  (∀ tid t t', cd_tasks d !! tid = Some t → f (cd_tasks d) !! tid = Some t' → tk_generation t ≤ tk_generation t') → keeps d (on_tasks f d).
Proof. intros H1 H2 H3. constructor; simpl; eauto. Qed.

Lemma insert_task_keeps tid t t' d : cd_tasks d !! tid = Some t → task_keeps t t' → tk_generation t ≤ tk_generation t' → keeps d (on_tasks (insert tid t') d).
Proof.
  intros Ht Hk Hg. apply on_tasks_keeps.
  - intros tid' t2. rewrite lookup_insert_Some. intros [[<- <-]|[Hne H]]; eauto.
  - intros tid' H. destruct (decide (tid = tid')) as [<-|Hne]; [rewrite lookup_insert_eq|rewrite lookup_insert_ne by done]; eauto.
  - intros tid' t0 t2 H0. rewrite lookup_insert_Some. intros [[<- <-]|[Hne H]]; [|assert (t0 = t2) by congruence; subst; lia]. congruence.
Qed.

Lemma imap_tasks_keeps (f : string → task → task) d :
  (∀ tid t, cd_tasks d !! tid = Some t → task_keeps t (f tid t) ∧ tk_generation t ≤ tk_generation (f tid t)) → keeps d (on_tasks (map_imap (λ tid t, Some (f tid t))) d).
Proof.
  intros Hf. apply on_tasks_keeps.
  - intros tid t'. rewrite map_lookup_imap. destruct (cd_tasks d !! tid) as [t|] eqn:E; simpl; [|done]. intros [= <-]. exists t. by split; [|apply Hf].
  - intros tid [t Ht]. rewrite map_lookup_imap, Ht. simpl. eauto.
  - intros tid t t' Ht. rewrite map_lookup_imap, Ht. simpl. intros [= <-]. by apply Hf.
Qed.

Lemma insert_flow_keeps fid w w' d : cd_flows d !! fid = Some w → flow_keeps w w' → keeps d (on_flows (insert fid w') d).
Proof.
  intros Hw Hk. constructor; simpl; eauto; [|intros tid t t' -> [= ->]; lia]. intros fid' w0 H0. destruct (decide (fid = fid')) as [<-|Hne].
  - rewrite lookup_insert_eq. exists w'. split; [done|congruence].
  - rewrite lookup_insert_ne by done. eauto.
Qed.

(** Items are dropped of workflows that have ended. *)
Lemma drop_items_keeps fid w d : cd_flows d !! fid = Some w → is_active (wf_state w) = false → keeps d (drop_items fid d).
Proof.
  intros Hw Ha. constructor; simpl; eauto; [intros tid t t' -> [= ->]; lia|intros k it; by rewrite map_lookup_filter_Some; intros [? _]|].
  intros tid o it Hit. destruct (of_flow fid tid d) eqn:E; [right|left; by apply map_lookup_filter_Some].
  unfold of_flow in E. destruct (cd_tasks d !! tid) as [t|] eqn:Ht; [|done]. apply bool_decide_eq_true in E. exists t, w. unfold flow_of. simpl. by rewrite E.
Qed.

Lemma on_queues_keeps f d : keeps d (on_copy_queues f d).
Proof. by apply same_work_keeps. Qed.
Lemma on_snaps_keeps f d : keeps d (on_snaps f d).
Proof. by apply same_work_keeps. Qed.
Lemma on_parts_keeps f d : keeps d (on_parts f d).
Proof. by apply same_work_keeps. Qed.
Lemma on_plans_keeps f d : keeps d (on_plans f d).
Proof. by apply same_work_keeps. Qed.
Lemma on_drafts_keeps f d : keeps d (on_drafts f d).
Proof. by apply same_work_keeps. Qed.
Lemma control_keeps c d : keeps d (ensure_copy_control c d).
Proof. unfold ensure_copy_control. destruct (cd_control d); [apply copy_keeps_refl|by apply same_work_keeps]. Qed.
Create HintDb copy.
#[export] Hint Resolve copy_keeps_refl on_queues_keeps on_snaps_keeps on_parts_keeps on_plans_keeps on_drafts_keeps control_keeps : copy.

Lemma first_by_id_elem {A} (l : list (string * A)) kv : first_by_id l = Some kv → kv ∈ l.
Proof.
  unfold first_by_id. revert kv. induction l as [|x l IH]; intros kv; simpl; [done|].
  destruct (foldr _ None l) as [best|]; [|intros [= <-]; left].
  destruct (ends_before x.1 best.1); intros [= <-]; [left|right; by apply IH].
Qed.

Lemma first_task_elem l kv : first_task l = Some kv → kv ∈ l.
Proof.
  unfold first_task. revert kv. induction l as [|x l IH]; intros kv; simpl; [done|].
  destruct (foldr _ None l) as [best|]; [|intros [= <-]; left].
  destruct (task_before x best); intros [= <-]; [left|right; by apply IH].
Qed.

(** ** Every operation but registration and execution *)

Lemma claim_keeps cap now owner busy d d' c : claim_copy cap now owner busy d = Ok (d', c) → keeps d d'.
Proof.
  unfold claim_copy. set (d0 := ensure_copy_control cap d). assert (K : keeps d d0) by apply control_keeps. clearbody d0.
  destruct (pick_queue now 0 None d0) as [tq|]; [|by intros [= <- _]].
  destruct (pick_queue now 1 _ d0) as [pq|]; [|by intros [= <- _]]. destruct (pick_queue now 2 _ d0) as [rq|]; [|by intros [= <- _]].
  cbv zeta. set (d1 := on_copy_queues _ d0).
  assert (K1 : keeps d d1) by (eapply copy_keeps_trans; [exact K|apply on_queues_keeps]).
  assert (Ht : cd_tasks d1 = cd_tasks d0) by done. clearbody d1.
  destruct (first_task _) as [[tid t]|] eqn:Hf; [|by intros [= <- _]]. apply first_task_elem, list_elem_of_filter in Hf as [Hc Hin].
  apply elem_of_map_to_list in Hin. intros (w & _ & H)%bind_Ok. apply bind_Ok in H as (_ & _ & H).
  apply andb_true_iff in Hc as [Hc _]. apply andb_true_iff in Hc as [Hc _]. cbn [snd] in Hc.
  assert (Hns : tk_state t ≠ TCompleted).
  { unfold claimable in Hc. intros Hs. rewrite Hs in Hc. by rewrite andb_false_r in Hc. }
  eapply copy_keeps_trans; [exact K1|]. set (t1 := if bool_decide (tk_state t = TReady) then _ else t) in H.
  assert (Hk : tk_ident t1 = tk_ident t ∧ tk_progress t1 = tk_progress t ∧ tk_state t1 = tk_state t ∧ tk_generation t1 = tk_generation t) by (unfold t1; destruct (bool_decide (tk_state t = TReady)); done).
  clearbody t1. destruct Hk as (E1 & E2 & E3 & E4). destruct (_ && _) in H; injection H as <- _.
  - eapply insert_task_keeps; [exact Hin| |simpl; lia]. split; [done|]. split; [done|]. simpl. naive_solver.
  - eapply insert_task_keeps; [exact Hin| |unfold claim_task; destruct (pm_budget (tk_params t1)); simpl; lia]. unfold claim_task. destruct (pm_budget (tk_params t1)); (split; [exact E1|]; split; [exact E2|]; split; [by intros [=]|by intros ?]).
Qed.

Lemma settle_task_keeps now status error queued spend t :
  status ≠ Some TCompleted → tk_state t ≠ TCompleted → task_keeps t (settle_task now status error queued spend t).1.
Proof.
  intros Hs Ht. unfold settle_task. destruct status as [st|].
  - split; [done|]. split; [done|]. simpl. naive_solver.
  - cbv zeta. destruct (3 <=? _), spend, (_ && _); (split; [done|]; split; [done|]; simpl; naive_solver).
Qed.

Lemma settle_task_gen now status error queued spend t : tk_generation (settle_task now status error queued spend t).1 = tk_generation t.
Proof. unfold settle_task. destruct status; [done|]. cbv zeta. by destruct (3 <=? _), spend, (_ && _). Qed.

Lemma owned_running c d t w : owned_copy c d = OwOk t w →
  cd_tasks d !! cl_task c = Some t ∧ flow_of t d = Some w ∧ wf_state w = WWaiting ∧ tk_state t = TRunning ∧ tk_generation t = cl_generation c ∧
  ti_attempt (tk_ident t) = wf_attempt w ∧ tk_owner t = Some (cl_owner c).
Proof.
  unfold owned_copy. destruct (cd_tasks d !! cl_task c) as [t0|] eqn:Et; [|done]. destruct (flow_of t0 d) as [w0|] eqn:Ew; [|done].
  destruct (cd_jobs d !! _) as [job|]; [|done]. destruct (cd_snaps d !! _) as [snap|]; [|done]. cbv zeta.
  destruct (_ || _) eqn:H1; [done|]. destruct (_ || _) in |- *; [done|]. destruct (_ || _) in |- *; [done|].
  destruct (_ || _) in |- *; [done|]. destruct (_ || _) in |- *; [done|]. intros [= <- <-]. bools.
  repeat match goal with H : negb _ = false |- _ => apply negb_false_iff in H end. bools. done.
Qed.

(** The claim's task while anything but a stale answer comes back. *)
Lemma owned_task c d : owned_copy c d ≠ OwStale → ∃ t, cd_tasks d !! cl_task c = Some t ∧ tk_state t = TRunning ∧
  tk_generation t = cl_generation c ∧ tk_owner t = Some (cl_owner c).
Proof.
  unfold owned_copy. destruct (cd_tasks d !! cl_task c) as [t0|] eqn:Et; [|done]. destruct (flow_of t0 d) as [w0|] eqn:Ew; [|done].
  destruct (cd_jobs d !! _) as [job|]; [|done]. destruct (cd_snaps d !! _) as [snap|]; [|done]. cbv zeta.
  destruct (_ || _) eqn:H1; [done|]. intros _. bools. exists t0. done.
Qed.

Lemma copy_settle_keeps now c ok status error queued spend d d' r :
  status ≠ Some TCompleted → settle now c ok status error queued spend d = (d', r) → keeps d d'.
Proof.
  intros Hs. unfold settle. cbv zeta. destruct ok; cbn [negb]; [|by intros [= <- _]; apply copy_keeps_refl].
  assert (W : ∀ t status error, cd_tasks d !! cl_task c = Some t → tk_state t = TRunning → status ≠ Some TCompleted →
    keeps d (on_tasks (insert (cl_task c) (settle_task now status error queued spend t).1) d)).
  { intros t st e Ht Hst Hne. eapply insert_task_keeps; [exact Ht|apply settle_task_keeps; congruence|rewrite settle_task_gen; lia]. }
  destruct (owned_copy c d) eqn:Ho; [by intros [= <- _]; apply copy_keeps_refl|..];
    (destruct (owned_task c d) as (t0 & Ht & Hst & _); [by rewrite Ho|]); rewrite Ht;
    match goal with |- context [settle_task ?a ?b ?e ?q ?s t0] => specialize (W t0 b e Ht Hst); destruct (settle_task a b e q s t0) end;
    intros [= <- _]; by apply W.
Qed.

Lemma write_leaf_keeps i part l d : keeps d (write_copy_leaf i part l d).
Proof. unfold write_copy_leaf. destruct (fi_partition i), part; auto with copy. Qed.

Lemma write_leaf_work i part l d : same_work d (write_copy_leaf i part l d).
Proof. unfold write_copy_leaf. by destruct (fi_partition i), part. Qed.

Lemma align_scope_work fid a scope d : same_work d (align_scope fid a scope d).
Proof. done. Qed.

Lemma align_work cap fid d : same_work d (align_ready_workflow cap fid d).
Proof.
  unfold align_ready_workflow. destruct (cd_flows d !! fid) as [w|]; [|done]. destruct (bool_decide _); [|done].
  unfold ensure_copy_control. by destruct (cd_control d).
Qed.

Lemma find_flow_lookup key d fid w : find_flow key d = Some (fid, w) → cd_flows d !! fid = Some w ∧ fi_leaf (wf_ident w) = key.
Proof. unfold find_flow. intros H%first_by_id_elem. apply list_elem_of_filter in H as [Hk H]. by apply elem_of_map_to_list in H. Qed.

Lemma seal_writes_keeps cap now fid w snap job part cont d : cd_flows d !! fid = Some w → wf_state w = WDraining → keeps d (seal_writes cap now fid w snap job part cont d).
Proof.
  intros Hw Hd. unfold seal_writes. cbv zeta. set (leaf := LeafLease _ None None). set (w1 := set_flow_continuation _ _).
  set (d1 := write_copy_leaf _ _ _ d). assert (K1 : keeps d d1) by apply write_leaf_keeps.
  destruct (write_leaf_work (wf_ident w) part leaf d) as (_ & F1 & _). fold d1 in F1. clearbody d1.
  assert (K2 : keeps d1 (on_flows (insert fid w1) d1)) by (eapply insert_flow_keeps; [rewrite F1; exact Hw|by repeat split]).
  set (d2 := on_flows (insert fid w1) d1) in *. assert (F2 : cd_flows d2 !! fid = Some w1) by (simpl; by rewrite lookup_insert_eq). clearbody d2.
  destruct (align_work cap fid d2) as (T3 & F3 & I3 & R3). set (d3 := align_ready_workflow cap fid d2) in *.
  assert (K3 : keeps d2 d3) by by apply same_work_keeps. clearbody d3.
  set (w2 := bump_flow _). assert (K4 : keeps d3 (on_flows (insert fid w2) d3)) by (eapply insert_flow_keeps; [rewrite F3; exact F2|repeat split; simpl; by rewrite ?Hd]).
  set (d4 := on_flows (insert fid w2) d3) in *. clearbody d4.
  eapply copy_keeps_trans; [exact K1|]. eapply copy_keeps_trans; [exact K2|]. eapply copy_keeps_trans; [exact K3|]. eapply copy_keeps_trans; [exact K4|].
  eapply copy_keeps_trans; [|apply on_snaps_keeps]. apply imap_tasks_keeps. intros tid t _. destruct (_ && _); (split; [done|simpl; lia]).
Qed.

Lemma seal_keeps cap now own ro cont co d d' r co' : seal_txn cap now own ro cont co d = (Ok (d', r), co') → keeps d d'.
Proof.
  unfold seal_txn. destruct (find_flow _ d) as [[fid w]|] eqn:Hf; [|destruct (bool_decide _); [done|by intros [= <- _ _]; apply copy_keeps_refl]].
  apply find_flow_lookup in Hf as [Hw _]. destruct (lock_parents (wf_ident w) d) as [[[job|] [snap|]] part]; try done.
  destruct (_ && negb (bool_decide (is_Some part))); [done|].
  destruct (_ && match own with Some _ => _ | None => _ end).
  { destruct own as [c|]; [|done]. destruct (verify_resume c d); [|done]. by intros [= <- _ _]; apply copy_keeps_refl. }
  destruct (_ || match part with Some _ => _ | None => _ end); [done|]. cbv zeta.
  destruct (match co_receipt co with Some r => _ | None => false end) eqn:E1; [by intros [= <- _ _]; apply copy_keeps_refl|].
  destruct (match co_receipt co with Some r => _ | None => false end) eqn:E2 in |- *; [done|].
  destruct (_ || negb (ll_token _ =? _)) eqn:E3; [done|]. assert (Hd : wf_state w = WDraining) by by bools. destruct ro; [by intros [= <- _ _]; apply copy_keeps_refl|].
  generalize (seal_writes_keeps cap now fid w snap job part cont d Hw Hd).
  generalize (seal_writes cap now fid w snap job part cont d). intros d2 K. by intros [= <- _ _].
Qed.

Lemma abort_plan_keeps sid d : keeps d (abort_plan sid d).
Proof.
  unfold abort_plan. destruct (cd_plans d !! sid) as [p|]; [|apply copy_keeps_refl]. destruct (bool_decide _); [apply copy_keeps_refl|by apply same_work_keeps].
Qed.
#[export] Hint Resolve write_leaf_keeps abort_plan_keeps : copy.

Lemma begin_resume_keeps now fid owner d d' c : begin_resume now fid owner d = Ok (d', c) → keeps d d'.
Proof.
  unfold begin_resume. destruct (cd_flows d !! fid) as [w|] eqn:Hw; [|by intros [= <- _]; apply copy_keeps_refl].
  destruct (lock_parents (wf_ident w) d) as [[job snap] part].
  destruct (negb (bool_decide (wf_state w ∈ _))) eqn:Hact; [by intros [= <- _]; apply copy_keeps_refl|].
  assert (Ha : is_active (wf_state w) = true) by (revert Hact; by destruct (wf_state w)). clear Hact.
  destruct (bool_decide (wf_state w = WResuming) && _); [by intros [= <- _]; apply copy_keeps_refl|].
  destruct (any_task unended _ _ d); [by intros [= <- _]; apply copy_keeps_refl|]. destruct job as [job|], snap as [snap|]; try done. cbv zeta.
  destruct (copy_leaf_terminal snap part).
  { intros [= <- _]. eapply insert_flow_keeps; [exact Hw|]. split; [done|]. split; [done|]. simpl. by destruct (copy_leaf_succeeded _ _). }
  destruct (negb (job_open _)).
  { intros [= <- _]. eapply copy_keeps_trans; [|eapply drop_items_keeps; [simpl; apply lookup_insert_eq|done]]. eapply insert_flow_keeps; [exact Hw|by repeat split]. }
  destruct (negb (ll_token _ =? _)); [done|]. set (leaf := LeafLease _ _ _). set (d1 := write_copy_leaf _ _ _ d).
  destruct (write_leaf_work (wf_ident w) part leaf d) as (_ & F1 & _). fold d1 in F1. set (w1 := bump_flow _).
  assert (K1 : keeps d d1) by apply write_leaf_keeps. clearbody d1.
  assert (K2 : keeps d1 (on_flows (insert fid w1) d1)) by (eapply insert_flow_keeps; [rewrite F1; exact Hw|by repeat split; intros]).
  set (d2 := on_flows (insert fid w1) d1) in *. clearbody d2. intros [= <- _].
  eapply copy_keeps_trans; [exact K1|]. eapply copy_keeps_trans; [exact K2|]. destruct (_ && _); [eapply copy_keeps_trans; [|apply abort_plan_keeps]|]; apply on_snaps_keeps.
Qed.

Lemma renew_resume_keeps now c d : keeps d (renew_resume now c d).1.
Proof.
  unfold renew_resume. destruct (verify_resume c d); [|apply copy_keeps_refl]. simpl. constructor; simpl; eauto; [|intros tid t t' -> [= ->]; lia]. intros fid w Hw.
  destruct (decide (rm_flow c = fid)) as [<-|Hne]; [rewrite lookup_alter_eq, Hw; simpl; eexists; by repeat split|rewrite lookup_alter_ne by done; eauto].
Qed.

Lemma finish_resume_keeps now fid owner failed d d' b : finish_resume now fid owner failed d = Ok (d', b) → keeps d d'.
Proof.
  unfold finish_resume. destruct (cd_flows d !! fid) as [w|] eqn:Hw; [|by intros [= <- _]; apply copy_keeps_refl].
  destruct (lock_parents (wf_ident w) d) as [[job snap] part]. destruct (_ || _); [by intros [= <- _]; apply copy_keeps_refl|].
  intros (s & _ & H)%bind_Ok. apply bind_Ok in H as ([] & _ & H). injection H as <- _. eapply insert_flow_keeps; [exact Hw|].
  split; [done|]. split; [done|]. simpl. by destruct (_ || _).
Qed.

Lemma finish_parent_keeps fid d : keeps d (finish_parent_settlement fid d).1.
Proof.
  unfold finish_parent_settlement. destruct (cd_flows d !! fid) as [w|] eqn:Hw; [|apply copy_keeps_refl].
  destruct (lock_parents (wf_ident w) d) as [[job snap] part]. destruct (negb (wf_settle w)); [apply copy_keeps_refl|].
  destruct (is_active _) eqn:Ha; [apply copy_keeps_refl|]. destruct job as [job|], snap as [snap|]; try apply copy_keeps_refl. destruct (_ || _); [apply copy_keeps_refl|]. simpl.
  eapply copy_keeps_trans; [|eapply drop_items_keeps; [simpl; apply lookup_insert_eq|done]]. eapply insert_flow_keeps; [exact Hw|by repeat split].
Qed.

Lemma cancel_task_keeps t : task_keeps t (cancel_task t).
Proof.
  unfold cancel_task. destruct (task_ended (tk_state t)) eqn:E; [done|]. split; [done|]. split; [done|]. simpl. split; [done|]. intros H. by rewrite H in E.
Qed.

Lemma cancel_task_gen t : tk_generation t ≤ tk_generation (cancel_task t).
Proof. unfold cancel_task. destruct (task_ended _); simpl; lia. Qed.

Lemma cancel_flow_keeps now abandoned fid d : keeps d (cancel_flow now abandoned fid d).
Proof.
  unfold cancel_flow. destruct (cd_flows d !! fid) as [w|] eqn:Hw; [|apply copy_keeps_refl]. destruct (lock_parents (wf_ident w) d) as [[job snap] part]. cbv zeta.
  set (d1 := on_tasks _ d). assert (K1 : keeps d d1).
  { apply imap_tasks_keeps. intros tid t _. destruct (bool_decide _); [split; [apply cancel_task_keeps|apply cancel_task_gen]|split; [done|lia]]. }
  assert (F1 : cd_flows d1 = cd_flows d) by done. clearbody d1. set (w1 := bump_flow _).
  assert (K2 : keeps d1 (on_flows (insert fid w1) d1)).
  { eapply insert_flow_keeps; [rewrite F1; exact Hw|]. split; [done|]. split; [done|]. simpl. by destruct abandoned. }
  set (d2 := on_flows _ d1) in *. assert (F2 : cd_flows d2 !! fid = Some w1) by (simpl; apply lookup_insert_eq).
  assert (Ha : is_active (wf_state w1) = false) by (simpl; by destruct abandoned). clearbody d2 w1.
  eapply copy_keeps_trans; [exact K1|]. eapply copy_keeps_trans; [exact K2|]. eapply copy_keeps_trans; [|eapply drop_items_keeps; [|exact Ha]]; destruct snap as [s|]; try done;
    try (destruct (_ && _)); auto with copy.
Qed.

Lemma cancel_keeps now sc abandoned d d' n : cancel_copy_work now sc abandoned d = Ok (d', n) → keeps d d'.
Proof.
  unfold cancel_copy_work. intros ([] & _ & H)%bind_Ok. cbv zeta in H. injection H as <- _. generalize ((filter (λ kv, in_scope sc kv = true) (map_to_list (cd_flows d))).*1).
  intros fids. revert d. induction fids as [|fid fids IH]; intros d; simpl; [apply copy_keeps_refl|].
  eapply copy_keeps_trans; [apply (cancel_flow_keeps now abandoned fid)|apply IH].
Qed.

Lemma abandon_keeps ttl now alive fid d : keeps d (abandon ttl now alive fid d).1.
Proof.
  unfold abandon. destruct (cd_flows d !! fid) as [w|]; [|apply copy_keeps_refl]. destruct (lock_parents (wf_ident w) d) as [[job snap] part]. cbv zeta.
  destruct (negb (is_active _)); [apply copy_keeps_refl|]. destruct (_ && _); [apply copy_keeps_refl|].
  match goal with |- context [if ?b then _ else _] => destruct b end; [apply cancel_flow_keeps|apply copy_keeps_refl].
Qed.

Lemma release_keeps now c d : keeps d (release_cancelled_claim now c d).
Proof.
  unfold release_cancelled_claim. destruct (cd_tasks d !! cl_task c) as [t|] eqn:Ht; [|apply copy_keeps_refl]. destruct (_ && _) eqn:E; [|apply copy_keeps_refl].
  apply andb_true_iff in E as [[E%bool_decide_eq_true _]%andb_true_iff _]. eapply insert_task_keeps; [exact Ht| |destruct (pm_budget _); simpl; lia].
  destruct (pm_budget _); (split; [done|]; split; [done|]; simpl; rewrite E; done).
Qed.
