(* ===== verification/CopyWhole.v ===== *)
(** * Copy work: a copied leaf has every row

    The manifest of a task is copied whole: the batches follow each other without a gap,
    whatever happens between them, and a leaf is resumed as copied only when every manifest
    of its capture is in the target. *)

From S2P Require Import Prelude Reconciler Provider.
From S2P Require Import CopyWork CopyBatch CopyFlow CopySafety.
Local Open Scope Z_scope.

(** ** One batch leaves no gap *)

Lemma StronglySorted_filter {A} (R : relation A) (P : A → Prop) `{∀ x, Decision (P x)} l : StronglySorted R l → StronglySorted R (filter P l).
Proof.
  induction 1 as [|x l _ IH Hx]; [constructor|]. rewrite filter_cons. destruct (decide (P x)); [|done]. constructor; [done|].
  apply Forall_forall. intros y [_ Hy]%list_elem_of_filter. by eapply (proj1 (Forall_forall _ _)) in Hx; [|exact Hy].
Qed.

Lemma under_budget_nil run rows : BATCH_MAX_BYTES ≤ run → Forall (λ r : Z * work_item, 0 ≤ it_bytes r.2) rows → under_budget run rows = [].
Proof.
  intros Hrun Hb. revert run Hrun. induction Hb as [|r rows Hr _ IH]; intros run Hrun; simpl; [done|].
  destruct (Z.ltb_spec run BATCH_MAX_BYTES); [lia|]. apply IH. lia.
Qed.

Lemma under_budget_prefix run rows : Forall (λ r : Z * work_item, 0 ≤ it_bytes r.2) rows → under_budget run rows `prefix_of` rows.
Proof.
  intros Hb. revert run. induction Hb as [|r rows Hr Hrows IH]; intros run; simpl; [done|].
  destruct (Z.ltb_spec run BATCH_MAX_BYTES); [by apply prefix_cons|]. rewrite under_budget_nil; [apply prefix_nil|lia|done].
Qed.

Lemma ordinal_le_trans : Transitive ordinal_le.
Proof. intros a b c. unfold ordinal_le. lia. Qed.

Lemma elem_of_pending tid ck d x : x ∈ pending_items tid ck d ↔ cd_items d !! (tid, x.1) = Some x.2 ∧ ck < x.1.
Proof.
  unfold pending_items. rewrite (merge_sort_Permutation _ _). rewrite list_elem_of_fmap. split.
  - intros ([[tid' o] it] & -> & H). apply list_elem_of_filter in H as [[<- Ho] H]. apply elem_of_map_to_list in H. done.
  - intros [H Ho]. destruct x as [o it]. exists ((tid, o), it). split; [done|]. apply list_elem_of_filter. split; [done|]. by apply elem_of_map_to_list.
Qed.

Lemma pending_sorted tid ck d : StronglySorted ordinal_le (pending_items tid ck d).
Proof.
  apply Sorted_StronglySorted; [exact ordinal_le_trans|]. apply Sorted_merge_sort. intros a b. unfold ordinal_le. lia.
Qed.

Lemma max_ordinal_ge ck rows : ck ≤ max_ordinal ck rows ∧ ∀ r, r ∈ rows → r.1 ≤ max_ordinal ck rows.
Proof.
  induction rows as [|r rows [IH1 IH2]]; simpl; [split; [lia|by intros ? ?%not_elem_of_nil]|]. split; [lia|].
  intros x [->|Hx]%elem_of_cons; [lia|]. specialize (IH2 x Hx). lia.
Qed.

Lemma max_ordinal_in ck rows : max_ordinal ck rows = ck ∨ ∃ r, r ∈ rows ∧ r.1 = max_ordinal ck rows.
Proof.
  induction rows as [|r rows IH]; simpl; [by left|]. destruct (Z.max_spec r.1 (max_ordinal ck rows)) as [[_ ->]|[_ ->]].
  - destruct IH as [->|(x & Hx & <-)]; [by left|]. right. exists x. split; [by right|done].
  - right. exists r. split; [left|done].
Qed.

Lemma sorted_prefix_closed (P L : list (Z * work_item)) x y :
  StronglySorted ordinal_le L → P `prefix_of` L → y ∈ P → x ∈ L → x.1 < y.1 → x ∈ P.
Proof.
  intros Hs [k ->] Hy Hx Hlt. apply elem_of_app in Hx as [Hx|Hx]; [done|exfalso].
  pose proof (StronglySorted_app_1_elem_of _ _ _ y x Hs Hy Hx) as Ho. unfold ordinal_le in Ho. lia.
Qed.

(** Every row between the checkpoint and the cursor of a batch is in the batch. *)
Lemma batch_covers tid ck d limit x :
  (∀ o it, cd_items d !! (tid, o) = Some it → 0 ≤ it_bytes it) →
  (∀ o1 o2 i1 i2, ck < o1 → o1 ≤ o2 → cd_items d !! (tid, o1) = Some i1 → cd_items d !! (tid, o2) = Some i2 → it_phase i1 ≤ it_phase i2) →
  let batch := batch_rows limit (pending_items tid ck d) in
  x ∈ pending_items tid ck d → x.1 ≤ max_ordinal ck batch → x ∈ batch.
Proof.
  intros Hb Hph batch Hx Hle. subst batch. pose proof (pending_sorted tid ck d) as Hs.
  assert (Hin : ∀ y, y ∈ pending_items tid ck d → cd_items d !! (tid, y.1) = Some y.2 ∧ ck < y.1) by (intros y; apply elem_of_pending).
  destruct (pending_items tid ck d) as [|r rest] eqn:E; [by apply not_elem_of_nil in Hx|]. rewrite <- E in *.
  assert (Hr : r ∈ pending_items tid ck d) by (rewrite E; left).
  assert (Hbr : batch_rows limit (pending_items tid ck d) = under_budget 0 (take limit (filter (λ z, it_phase z.2 = it_phase r.2) (pending_items tid ck d)))) by by rewrite E.
  assert (Hpre : batch_rows limit (pending_items tid ck d) `prefix_of` filter (λ z, it_phase z.2 = it_phase r.2) (pending_items tid ck d)).
  { rewrite Hbr. etransitivity; [apply under_budget_prefix|apply prefix_take]. apply Forall_take, Forall_forall. intros y [_ Hy]%list_elem_of_filter.
    apply Hin in Hy as [Hy _]. eauto. }
  destruct (Hin x Hx) as [Hxi Hxc]. destruct (max_ordinal_in ck (batch_rows limit (pending_items tid ck d))) as [Hm|(y & Hy & Hm)]; [lia|].
  assert (Hyf : y ∈ filter (λ z, it_phase z.2 = it_phase r.2) (pending_items tid ck d)).
  { destruct Hpre as [k Hk]. rewrite Hk. apply elem_of_app. by left. }
  apply list_elem_of_filter in Hyf as [Hyp Hyin]. destruct (Hin y Hyin) as [Hyi Hyc].
  destruct (decide (x.1 = y.1)) as [Heq|Hne]; [destruct x, y; simpl in *; subst; by rewrite Hxi in Hyi; injection Hyi as ->|].
  assert (Hxy : x.1 < y.1) by lia.
  assert (Hrx : r.1 ≤ x.1).
  { rewrite E in Hs, Hx. apply StronglySorted_inv in Hs as [_ Hs]. apply elem_of_cons in Hx as [->|Hx]; [done|]. by eapply (proj1 (Forall_forall _ _)) in Hs; [|exact Hx]. }
  destruct (Hin r Hr) as [Hri Hrc].
  assert (it_phase r.2 ≤ it_phase x.2) by (eapply Hph; [|exact Hrx|exact Hri|exact Hxi]; lia).
  assert (it_phase x.2 ≤ it_phase y.2) by (eapply Hph; [|apply Z.lt_le_incl; exact Hxy|exact Hxi|exact Hyi]; lia).
  eapply (sorted_prefix_closed _ _ x y); [|exact Hpre|exact Hy|apply list_elem_of_filter; split; [lia|done]|done].
  by apply StronglySorted_filter.
Qed.

(** ** Applying rows *)

Lemma apply_payload_rows legacy t sid tenant rows p :
  let rows' := (apply_payload legacy t sid tenant rows p).1 in
  (∀ k, is_Some (rows !! k) → is_Some (rows' !! k)) ∧
  ∀ r, p = PRow r → is_Some (rows' !! (sid, cr_external r, cr_type r)).
Proof.
  destruct p as [r|e ty c n|l c|]; simpl; [|split; [|done]|split; done..].
  - unfold copy_row. destruct (rows !! (sid, cr_external r, cr_type r)) as [old|] eqn:E; simpl.
    + split; [done|]. intros r' [= <-]. by rewrite E.
    + split; [|intros r' [= <-]; rewrite lookup_insert_eq; eauto]. intros k Hk.
      destruct (decide ((sid, cr_external r, cr_type r) = k)) as [<-|Hne]; [rewrite lookup_insert_eq|rewrite lookup_insert_ne by done]; eauto.
  - unfold rename_row. intros k Hk. destruct (rows !! (sid, e, ty)) as [old|] eqn:E; [|done]. destruct (_ && _); simpl; [|done].
    destruct (decide ((sid, e, ty) = k)) as [<-|Hne]; [rewrite lookup_insert_eq|rewrite lookup_insert_ne by done]; eauto.
Qed.

Lemma apply_payloads_rows legacy t sid tenant ps : ∀ rows,
  let rows' := (apply_payloads legacy t sid tenant ps rows).1 in
  (∀ k, is_Some (rows !! k) → is_Some (rows' !! k)) ∧
  ∀ r, PRow r ∈ ps → is_Some (rows' !! (sid, cr_external r, cr_type r)).
Proof.
  induction ps as [|p ps IH]; intros rows; simpl; [split; [done|by intros ? ?%not_elem_of_nil]|].
  destruct (apply_payload_rows legacy t sid tenant rows p) as [H1 H2]. destruct (apply_payload legacy t sid tenant rows p) as [rows1 c]. simpl in *.
  destruct (IH rows1) as [H3 H4]. destruct (apply_payloads legacy t sid tenant ps rows1) as [rows2 cs]. simpl in *.
  split; [auto|]. intros r [Hp|Hr]%elem_of_cons; [by apply H3, H2|by apply H4].
Qed.

(** ** Storing a manifest *)

Lemma number_rows_lookup tid rows : ∀ o items t' k,
  number_rows tid o rows items !! (t', k) =
    if decide (t' = tid ∧ o ≤ k < o + Z.of_nat (length rows))
    then (λ r, WorkItem (sl_payload r) (sl_source r) (sl_phase r) (sl_bytes r)) <$> rows !! Z.to_nat (k - o) else items !! (t', k).
Proof.
  induction rows as [|r rows IH]; intros o items t' k; simpl; [by rewrite decide_False by lia|]. rewrite IH.
  destruct (decide (t' = tid ∧ o + 1 ≤ k < o + 1 + Z.of_nat (length rows))) as [[-> Hk]|Hn].
  - rewrite decide_True by (split; [done|lia]). replace (Z.to_nat (k - o)) with (S (Z.to_nat (k - (o + 1)))) by lia. done.
  - destruct (decide (t' = tid ∧ k = o)) as [[-> ->]|Hne].
    + rewrite lookup_insert_eq, decide_True by (split; [done|lia]). by rewrite Z.sub_diag.
    + rewrite lookup_insert_ne by (intros [= <- <-]; by apply Hne). rewrite decide_False; [done|]. intros [-> Hk].
      destruct (decide (k = o)) as [->|]; [by apply Hne|]. apply Hn. split; [done|lia].
Qed.

Lemma row_before_total : Total row_before.
Proof.
  intros a b. unfold row_before. destruct (payload_key (sl_payload a)) as [ea ta], (payload_key (sl_payload b)) as [eb tb].
  destruct (Z.lt_total (sl_phase a) (sl_phase b)) as [?|[Hp|?]]; [by left; left| |by right; left].
  destruct (decide (ea = eb)) as [<-|Hne].
  - destruct (String.leb_total ta tb) as [?|?]; [left|right]; right; (split; [lia|]); right; done.
  - destruct (String.leb_total ea eb) as [?|?]; [left|right]; right; (split; [lia|]); left; by split.
Qed.

Lemma sorted_phases rows i j a b :
  merge_sort row_before rows !! i = Some a → merge_sort row_before rows !! j = Some b → (i ≤ j)%nat → sl_phase a ≤ sl_phase b.
Proof.
  intros Ha Hb Hij. assert (Hs : StronglySorted (λ a b, sl_phase a ≤ sl_phase b) (merge_sort row_before rows)).
  { apply Sorted_StronglySorted; [intros ? ? ?; lia|]. pose proof row_before_total as Ht. assert (H : Sorted row_before (merge_sort row_before rows)) by by apply Sorted_merge_sort.
    revert H. apply Sorted_ind; [constructor|]. intros x l _ IH Hx. constructor; [done|]. destruct Hx as [|y l Hxy]; constructor.
    unfold row_before in Hxy. destruct (payload_key (sl_payload x)), (payload_key (sl_payload y)). lia. }
  destruct (decide (i = j)) as [->|Hne]; [rewrite Ha in Hb; injection Hb as ->; lia|].
  rewrite <- (take_drop j (merge_sort row_before rows)) in Hs.
  apply (StronglySorted_app_1_elem_of _ _ _ a b Hs).
  - apply list_elem_of_lookup. exists i. by rewrite lookup_take_lt by lia.
  - apply list_elem_of_lookup. exists 0%nat. by rewrite lookup_drop, Nat.add_0_r.
Qed.

(** ** The invariant *)

Definition copies (t : task) : bool := negb (is_presentation (ti_kind (tk_ident t))).

Section Invariant.
(** The rows that other services have removed, as far as a task is concerned. *)
Context (gone : string → string * string * string → Prop).

(** The row [k] is in its snapshot, or was removed. *)
Definition kept (tid : string) (k : string * string * string) (d : copy_db) : Prop := is_Some (cd_rows d !! k) ∨ gone tid k.

Lemma kept_mono tid k d d' : (is_Some (cd_rows d !! k) → is_Some (cd_rows d' !! k)) → kept tid k d → kept tid k d'.
Proof. unfold kept. tauto. Qed.

Record copy_inv (d : copy_db) : Prop := {
  ci_flow : ∀ tid t, cd_tasks d !! tid = Some t → ∃ w, flow_of t d = Some w ∧ ti_attempt (tk_ident t) ≤ wf_attempt w;
  ci_items : ∀ tid o it, cd_items d !! (tid, o) = Some it → is_Some (cd_tasks d !! tid) ∧ 0 ≤ it_bytes it;
  ci_start : ∀ tid t, cd_tasks d !! tid = Some t → 0 ≤ tp_checkpoint (tk_progress t);
  ci_fresh : ∀ tid t, cd_tasks d !! tid = Some t → tp_prepared (tk_progress t) = false →
    tp_checkpoint (tk_progress t) = 0 ∧ ∀ o it, cd_items d !! (tid, o) = Some it → o < 0;
  ci_phase : ∀ tid t o1 o2 i1 i2, cd_tasks d !! tid = Some t → copies t = true → 0 < o1 → o1 ≤ o2 →
    cd_items d !! (tid, o1) = Some i1 → cd_items d !! (tid, o2) = Some i2 → it_phase i1 ≤ it_phase i2;
  ci_copied : ∀ tid t w o it r, cd_tasks d !! tid = Some t → copies t = true → flow_of t d = Some w →
    cd_items d !! (tid, o) = Some it → it_payload it = PRow r → 0 < o → o ≤ tp_checkpoint (tk_progress t) →
    kept tid (fi_snapshot (wf_ident w), cr_external r, cr_type r) d;
  ci_done : ∀ tid t, cd_tasks d !! tid = Some t → tk_state t = TCompleted →
    tp_prepared (tk_progress t) = true ∧ ∀ o it, cd_items d !! (tid, o) = Some it → o ≤ tp_checkpoint (tk_progress t);
  ci_drain : ∀ tid t w, cd_tasks d !! tid = Some t → flow_of t d = Some w → wf_state w = WDraining → ti_attempt (tk_ident t) = wf_attempt w →
    tp_prepared (tk_progress t) = false ∨ tk_state t = TCompleted;
}.

Lemma keeps_flow d d' t t' w' :
  keeps d d' → copy_inv d → (∃ tid, cd_tasks d !! tid = Some t) → tk_ident t' = tk_ident t → flow_of t' d' = Some w' →
  ∃ w, flow_of t d = Some w ∧ flow_keeps w w'.
Proof.
  intros K I [tid Ht] Hid Hw'. destruct (ci_flow _ I _ _ Ht) as (w & Hw & _). exists w. split; [done|].
  unfold flow_of in *. rewrite Hid in Hw'. destruct (ks_flows _ _ K _ _ Hw) as (w2 & Hw2 & Hk). by rewrite Hw2 in Hw'; injection Hw' as <-.
Qed.

Lemma keeps_inv d d' : keeps d d' → copy_inv d → copy_inv d'.
Proof.
  intros K I. constructor.
  - intros tid t' Ht'. destruct (ks_tasks _ _ K _ _ Ht') as (t & Ht & Hid & Hp & Hs). destruct (ci_flow _ I _ _ Ht) as (w & Hw & Ha).
    unfold flow_of in *. destruct (ks_flows _ _ K _ _ Hw) as (w' & Hw' & Hwi & Hwa & _). exists w'. rewrite Hid. split; [done|]. by rewrite Hwa.
  - intros tid o it Hit. apply (ks_items _ _ K) in Hit. destruct (ci_items _ I _ _ _ Hit) as [H1 H2]. split; [|done]. by apply (ks_tasks' _ _ K).
  - intros tid t' Ht'. destruct (ks_tasks _ _ K _ _ Ht') as (t & Ht & _ & -> & _). by apply (ci_start _ I _ _ Ht).
  - intros tid t' Ht'. destruct (ks_tasks _ _ K _ _ Ht') as (t & Ht & _ & -> & _). intros Hp. destruct (ci_fresh _ I _ _ Ht Hp) as [H1 H2].
    split; [done|]. intros o it Hit. by apply (ks_items _ _ K), H2 in Hit.
  - intros tid t' o1 o2 i1 i2 Ht' Hc H1 H2 Hi1 Hi2. destruct (ks_tasks _ _ K _ _ Ht') as (t & Ht & Hid & _).
    apply (ks_items _ _ K) in Hi1, Hi2. eapply (ci_phase _ I tid t); eauto. unfold copies in *. by rewrite <- Hid.
  - intros tid t' w' o it r Ht' Hc Hw' Hit Hr Ho Hck. destruct (ks_tasks _ _ K _ _ Ht') as (t & Ht & Hid & Hp & _).
    destruct (keeps_flow _ _ _ _ _ K I (ex_intro _ tid Ht) Hid Hw') as (w & Hw & Hwi & _). rewrite Hwi. eapply kept_mono; [apply (ks_rows _ _ K)|].
    apply (ks_items _ _ K) in Hit. rewrite Hp in Hck. eapply (ci_copied _ I tid t); eauto. unfold copies in *. by rewrite <- Hid.
  - intros tid t' Ht' Hs. destruct (ks_tasks _ _ K _ _ Ht') as (t & Ht & _ & -> & Hst). destruct (ci_done _ I _ _ Ht) as [H1 H2]; [by apply Hst|].
    split; [done|]. intros o it Hit. by apply (ks_items _ _ K), H2 in Hit.
  - intros tid t' w' Ht' Hw' Hd Ha. destruct (ks_tasks _ _ K _ _ Ht') as (t & Ht & Hid & Hp & Hst).
    destruct (keeps_flow _ _ _ _ _ K I (ex_intro _ tid Ht) Hid Hw') as (w & Hw & Hwi & Hwa & Hwd & _). rewrite Hp, Hst.
    eapply (ci_drain _ I tid t w); eauto. by rewrite <- Hid, <- Hwa.
Qed.

(** What a task must satisfy by itself. *)
Record task_ok (d : copy_db) (tid : string) (t : task) (w : workflow) : Prop := {
  to_items : ∀ o it, cd_items d !! (tid, o) = Some it → 0 ≤ it_bytes it;
  to_start : 0 ≤ tp_checkpoint (tk_progress t);
  to_fresh : tp_prepared (tk_progress t) = false → tp_checkpoint (tk_progress t) = 0 ∧ ∀ o it, cd_items d !! (tid, o) = Some it → o < 0;
  to_phase : copies t = true → ∀ o1 o2 i1 i2, 0 < o1 → o1 ≤ o2 →
    cd_items d !! (tid, o1) = Some i1 → cd_items d !! (tid, o2) = Some i2 → it_phase i1 ≤ it_phase i2;
  to_copied : copies t = true → ∀ o it r, cd_items d !! (tid, o) = Some it → it_payload it = PRow r → 0 < o → o ≤ tp_checkpoint (tk_progress t) →
    kept tid (fi_snapshot (wf_ident w), cr_external r, cr_type r) d;
  to_done : tk_state t = TCompleted →
    tp_prepared (tk_progress t) = true ∧ ∀ o it, cd_items d !! (tid, o) = Some it → o ≤ tp_checkpoint (tk_progress t);
  to_drain : wf_state w = WDraining → ti_attempt (tk_ident t) = wf_attempt w → tp_prepared (tk_progress t) = false ∨ tk_state t = TCompleted;
}.

Lemma inv_task_ok d tid t w : copy_inv d → cd_tasks d !! tid = Some t → flow_of t d = Some w → task_ok d tid t w.
Proof.
  intros I Ht Hw. constructor.
  - intros o it Hit. by apply (ci_items _ I _ _ _ Hit).
  - by apply (ci_start _ I _ _ Ht).
  - by apply (ci_fresh _ I _ _ Ht).
  - intros Hc o1 o2 i1 i2. by apply (ci_phase _ I _ _ _ _ _ _ Ht).
  - intros Hc o it r. by apply (ci_copied _ I _ _ _ _ _ _ Ht Hc Hw).
  - by apply (ci_done _ I _ _ Ht).
  - by apply (ci_drain _ I _ _ _ Ht Hw).
Qed.

(** One task and its items are written, and rows are added. *)
Lemma task_write_inv d d' tid t w :
  copy_inv d → cd_flows d' = cd_flows d → cd_tasks d' = <[tid := t]> (cd_tasks d) →
  (∀ tid' o, tid' ≠ tid → cd_items d' !! (tid', o) = cd_items d !! (tid', o)) → (∀ k, is_Some (cd_rows d !! k) → is_Some (cd_rows d' !! k)) →
  flow_of t d = Some w → ti_attempt (tk_ident t) ≤ wf_attempt w → task_ok d' tid t w → copy_inv d'.
Proof.
  intros I HF HT HI HR Hw Ha O.
  assert (Hfl : ∀ t, flow_of t d' = flow_of t d) by (intros t0; unfold flow_of; by rewrite HF).
  assert (Hcase : ∀ tid' t', cd_tasks d' !! tid' = Some t' → (tid' = tid ∧ t' = t) ∨ (tid' ≠ tid ∧ cd_tasks d !! tid' = Some t')).
  { intros tid' t'. rewrite HT, lookup_insert_Some. naive_solver. }
  constructor.
  - intros tid' t' [[-> ->]|[Hne Ht']]%Hcase; rewrite Hfl; [eauto|by apply (ci_flow _ I _ _ Ht')].
  - intros tid' o it Hit. rewrite HT. destruct (decide (tid' = tid)) as [->|Hne]; [rewrite lookup_insert_eq; split; [eauto|by eapply to_items]|].
    rewrite HI in Hit by done. destruct (ci_items _ I _ _ _ Hit). by rewrite lookup_insert_ne.
  - intros tid' t' [[-> ->]|[Hne Ht']]%Hcase; [by eapply to_start|by apply (ci_start _ I _ _ Ht')].
  - intros tid' t' [[-> ->]|[Hne Ht']]%Hcase; [by eapply to_fresh|]. setoid_rewrite HI; [|done]. by apply (ci_fresh _ I _ _ Ht').
  - intros tid' t' o1 o2 i1 i2 [[-> ->]|[Hne Ht']]%Hcase Hc H1 H2; [by apply (to_phase _ _ _ _ O Hc)|]. rewrite !HI by done. by apply (ci_phase _ I _ _ _ _ _ _ Ht').
  - intros tid' t' w' o it r [[-> ->]|[Hne Ht']]%Hcase Hc; rewrite Hfl; intros Hw'.
    + assert (w' = w) as -> by congruence. by apply (to_copied _ _ _ _ O Hc).
    + rewrite HI by done. intros. eapply kept_mono; [apply HR|]. by eapply (ci_copied _ I _ _ _ _ _ _ Ht' Hc Hw').
  - intros tid' t' [[-> ->]|[Hne Ht']]%Hcase Hs; [by apply (to_done _ _ _ _ O Hs)|]. setoid_rewrite HI; [|done]. by apply (ci_done _ I _ _ Ht').
  - intros tid' t' w' [[-> ->]|[Hne Ht']]%Hcase; rewrite Hfl; intros Hw'; [assert (w' = w) as -> by congruence; by apply (to_drain _ _ _ _ O)|].
    by apply (ci_drain _ I _ _ _ Ht').
Qed.

(** A workflow moves forward: a new capture counts one more attempt, and only that brings
    an ended workflow back. *)
Definition flow_moves (w w' : workflow) : Prop :=
  wf_ident w' = wf_ident w ∧ wf_attempt w ≤ wf_attempt w' ∧ (wf_attempt w' = wf_attempt w → is_active (wf_state w') = true → is_active (wf_state w) = true).

#[export] Instance flow_moves_preorder : PreOrder flow_moves.
Proof.
  split; [by repeat split|]. intros w1 w2 w3 (E1 & A1 & N1) (E2 & A2 & N2). split; [congruence|]. split; [lia|]. intros Ha Hact. apply N1; [lia|]. apply N2; [lia|done].
Qed.

(** Nothing is lost: tasks keep what they are and their generation, items stay. *)
Record grows (d d' : copy_db) : Prop := {
  gr_tasks : ∀ tid t, cd_tasks d !! tid = Some t → ∃ t', cd_tasks d' !! tid = Some t' ∧ tk_ident t' = tk_ident t ∧ tk_generation t' = tk_generation t;
  gr_items : ∀ k it, cd_items d !! k = Some it → cd_items d' !! k = Some it;
  gr_flows : ∀ fid w, cd_flows d !! fid = Some w → ∃ w', cd_flows d' !! fid = Some w' ∧ flow_moves w w';
}.

Lemma same_flow_moves d d' : cd_flows d' = cd_flows d → ∀ fid w, cd_flows d !! fid = Some w → ∃ w', cd_flows d' !! fid = Some w' ∧ flow_moves w w'.
Proof. intros -> fid w Hw. by exists w. Qed.

Lemma grows_trans d1 d2 d3 : grows d1 d2 → grows d2 d3 → grows d1 d3.
Proof.
  intros [T1 I1 F1] [T2 I2 F2]. constructor; [|auto|intros fid w Hw; destruct (F1 _ _ Hw) as (w2 & H2 & M2); destruct (F2 _ _ H2) as (w3 & H3 & M3); exists w3; by split; [|etransitivity]].
  intros tid t Ht. destruct (T1 _ _ Ht) as (t2 & H2 & E2 & G2). destruct (T2 _ _ H2) as (t3 & H3 & E3 & G3).
  exists t3. split; [done|]. split; congruence.
Qed.

(** ** Executing a batch *)

Section Executing.
Context (select_rows : copy_db → string → task → list selected) (provenance_ok : copy_db → string → task → bool).
Context (source_choice : copy_db → string → task → option string) (legacy_folder : task → copied → bool).
(** The database reports the stored size of a payload. *)
Hypothesis stored_sizes : ∀ d tid t, Forall (λ r, 0 ≤ sl_bytes r) (select_rows d tid t).

(** The items of a task whose manifest has just been numbered. *)
Definition numbered (d d' : copy_db) (tid : string) (rows : list selected) : Prop :=
  cd_items d' = number_rows tid 1 rows (cd_items d) ∨
  ∃ s, cd_items d' = <[(tid, -1) := WorkItem PPin s (-1) 0]> (number_rows tid 1 rows (cd_items d)) ∧ number_rows tid 1 rows (cd_items d) !! (tid, -1) = None.

Lemma numbered_lookup d d' tid rows :
  numbered d d' tid rows → (∀ o it, cd_items d !! (tid, o) = Some it → o < 0) → ∀ o it, 0 < o → cd_items d' !! (tid, o) = Some it →
  ∃ r, rows !! Z.to_nat (o - 1) = Some r ∧ it = WorkItem (sl_payload r) (sl_source r) (sl_phase r) (sl_bytes r).
Proof using.
  clear. intros HI Hneg o it Ho Hit. assert (Hit' : number_rows tid 1 rows (cd_items d) !! (tid, o) = Some it).
  { destruct HI as [HI|(s & HI & _)]; rewrite HI in Hit; [done|]. rewrite lookup_insert_ne in Hit by (intros [=]; lia). done. }
  rewrite number_rows_lookup in Hit'. case_decide as Hc; [|apply Hneg in Hit'; lia].
  destruct (rows !! _) as [r|]; [|done]. injection Hit' as <-. by exists r.
Qed.

Lemma numbered_other d d' tid rows tid' o : numbered d d' tid rows → tid' ≠ tid → cd_items d' !! (tid', o) = cd_items d !! (tid', o).
Proof using.
  clear. intros [HI|(s & HI & _)] Hne; rewrite HI; [|rewrite lookup_insert_ne by congruence]; rewrite number_rows_lookup, decide_False by tauto; done.
Qed.

(** Numbering a manifest drops no item that was there. *)
Lemma numbered_keep d d' tid rows :
  numbered d d' tid rows → (∀ o it, cd_items d !! (tid, o) = Some it → o < 0) → ∀ k it, cd_items d !! k = Some it → cd_items d' !! k = Some it.
Proof using.
  clear. intros HI Hneg [tid' o] it Hit.
  assert (Hn : number_rows tid 1 rows (cd_items d) !! (tid', o) = Some it).
  { rewrite number_rows_lookup, decide_False; [done|]. intros [-> Ho]. apply Hneg in Hit. lia. }
  destruct HI as [HI|(s & HI & Hnone)]; rewrite HI; [done|]. rewrite lookup_insert_ne; [done|]. intros Hk. by rewrite Hk, Hn in Hnone.
Qed.

Lemma numbered_ok d d' tid rows t t' w :
  task_ok d tid t w → tp_prepared (tk_progress t) = false → wf_state w = WWaiting → tk_state t' ≠ TCompleted →
  numbered d d' tid rows → Forall (λ r, 0 ≤ sl_bytes r) rows → tk_ident t' = tk_ident t → tp_prepared (tk_progress t') = true →
  tp_checkpoint (tk_progress t') = tp_checkpoint (tk_progress t) →
  (copies t = true → ∀ i j a b, rows !! i = Some a → rows !! j = Some b → (i ≤ j)%nat → sl_phase a ≤ sl_phase b) → task_ok d' tid t' w.
Proof using.
  clear. intros O Hp Hw Hs HI Hb Hid Hp' Hck Hph. destruct (to_fresh _ _ _ _ O Hp) as [Hck0 Hneg]. rewrite Hck0 in Hck.
  pose proof (numbered_lookup _ _ _ _ HI Hneg) as Hlook.
  constructor.
  - intros o it Hit. destruct (decide (0 < o)) as [Ho|Ho].
    + destruct (Hlook _ _ Ho Hit) as (r & Hr & ->). simpl. by eapply (proj1 (Forall_forall _ _)) in Hb; [|apply list_elem_of_lookup; eexists; exact Hr].
    + destruct HI as [HI|(s & HI & _)]; rewrite HI in Hit; [|apply lookup_insert_Some in Hit as [[_ <-]|[_ Hit]]; [done|]];
        (rewrite number_rows_lookup, decide_False in Hit by lia; by eapply to_items).
  - by rewrite Hck.
  - congruence.
  - intros Hc o1 o2 i1 i2 H1 H12 Hi1 Hi2. destruct (Hlook _ _ H1 Hi1) as (r1 & Hr1 & ->). destruct (Hlook o2 i2) as (r2 & Hr2 & ->); [lia|done|]. simpl.
    eapply Hph; [|exact Hr1|exact Hr2|lia]. unfold copies in *. by rewrite <- Hid.
  - intros Hc o it r _ _ Ho Hle. lia.
  - done.
  - congruence.
Qed.

(** What [prepare_manifest] leaves: the same rows and tables, and a manifest in the order of its phases. *)
Record manifest_ready (d : copy_db) (tid : string) (t : task) (w : workflow) (d' : copy_db) (t' : task) : Prop := {
  mr_ok : task_ok d' tid t' w;
  mr_prepared : tp_prepared (tk_progress t') = true;
  mr_ident : tk_ident t' = tk_ident t;
  mr_state : tk_state t' = tk_state t;
  mr_flows : cd_flows d' = cd_flows d;
  mr_tasks : cd_tasks d' = cd_tasks d;
  mr_rows : cd_rows d' = cd_rows d;
  mr_items : ∀ tid' o, tid' ≠ tid → cd_items d' !! (tid', o) = cd_items d !! (tid', o);
  mr_keep : ∀ k it, cd_items d !! k = Some it → cd_items d' !! k = Some it;
  mr_generation : tk_generation t' = tk_generation t;
}.

Lemma prepare_ready tid t w d d' t' :
  task_ok d tid t w → wf_state w = WWaiting → tk_state t ≠ TCompleted →
  prepare_manifest select_rows provenance_ok source_choice tid t d = Ok (d', t') → manifest_ready d tid t w d' t'.
Proof using stored_sizes.
  intros O Hst Hnc. unfold prepare_manifest. intros (ws & _ & H)%bind_Ok. cbv zeta in H. destruct (tp_prepared (tk_progress t)) eqn:Hp.
  { injection H as <- <-. by constructor. }
  assert (Hdone : ∀ d' rows t', numbered d d' tid rows → cd_flows d' = cd_flows d → cd_tasks d' = cd_tasks d → cd_rows d' = cd_rows d →
    Forall (λ r, 0 ≤ sl_bytes r) rows → tk_ident t' = tk_ident t → tk_state t' = tk_state t → tk_generation t' = tk_generation t → tp_prepared (tk_progress t') = true →
    tp_checkpoint (tk_progress t') = tp_checkpoint (tk_progress t) →
    (copies t = true → ∀ i j a b, rows !! i = Some a → rows !! j = Some b → (i ≤ j)%nat → sl_phase a ≤ sl_phase b) → manifest_ready d tid t w d' t').
  { intros d2 rows t2 HI HF HT HR Hb Hid Hs Hgen Hp2 Hck Hph. destruct (to_fresh _ _ _ _ O Hp) as [_ Hneg]. constructor; try done.
    - eapply (numbered_ok d d2 tid rows t t2); try done; congruence.
    - intros tid' o. by apply (numbered_other _ _ tid rows).
    - by apply (numbered_keep _ _ tid rows). }
  destruct (is_presentation (ti_kind (tk_ident t))) eqn:Hk.
  - assert (Hcop : copies t = true → False) by (unfold copies; by rewrite Hk).
    unfold prepare_presentation in H. apply bind_Ok in H as (w0 & _ & H). destruct (bool_decide _).
    + apply bind_Ok in H as ([] & _ & H). cbv zeta in H. set (rows := omap _ _) in H.
      assert (Hsz : Forall (λ r, 0 ≤ sl_bytes r) rows).
      { apply Forall_forall. intros r Hr. apply list_elem_of_omap in Hr as (l & _ & Hl). destruct l; [|done]. by injection Hl as <-. }
      clearbody rows. injection H as <- <-. apply (Hdone _ rows); try done. by left.
    + apply bind_Ok in H as ([] & _ & H). cbv zeta in H. apply bind_Ok in H as (pl & _ & H). apply bind_Ok in H as ([] & _ & H).
      apply bind_Ok in H as ([] & _ & H). injection H as <- <-. set (d1 := if bool_decide _ then d else _).
      assert (E : cd_items d1 = cd_items d ∧ cd_flows d1 = cd_flows d ∧ cd_tasks d1 = cd_tasks d ∧ cd_rows d1 = cd_rows d) by (unfold d1; by case_match).
      clearbody d1. destruct E as (E1 & E2 & E3 & E4).
      apply (Hdone _ (select_rows d1 tid t)); try done. left. simpl. by rewrite E1.
  - apply bind_Ok in H as ([] & _ & H). apply bind_Ok in H as ([] & _ & H). apply bind_Ok in H as ([] & _ & H). cbv zeta in H.
    set (rows := merge_sort row_before (select_rows d tid t)) in *.
    assert (Hsz : Forall (λ r, 0 ≤ sl_bytes r) rows) by (unfold rows; rewrite (merge_sort_Permutation _ _); apply stored_sizes).
    assert (Hsort : ∀ i j a b, rows !! i = Some a → rows !! j = Some b → (i ≤ j)%nat → sl_phase a ≤ sl_phase b) by (intros i j a b; apply sorted_phases).
    clearbody rows. apply bind_Ok in H as ([] & _ & H). injection H as <- <-.
    match goal with |- manifest_ready _ _ _ _ _ (prepared (set_task_params ?p t)) => generalize p end. intros p.
    match goal with |- manifest_ready _ _ _ _ (match ?c with _ => _ end) _ => destruct c as [s|] end;
      [match goal with |- manifest_ready _ _ _ _ (match ?c with _ => _ end) _ => destruct c eqn:Hpin end|];
      apply (Hdone _ rows); try done; first [by left|right; eexists; split; [done|exact Hpin]].
Qed.

Lemma nothing_left_spec tid c d : nothing_left tid c d = true → ∀ o it, cd_items d !! (tid, o) = Some it → o ≤ c.
Proof using.
  clear. unfold nothing_left. intros Hd o it Hit. apply negb_true_iff in Hd. destruct (decide (o ≤ c)) as [|Hn]; [done|exfalso].
  rewrite <- not_true_iff_false, existsb_elem in Hd. apply Hd. exists ((tid, o), it). split; [by apply elem_of_map_to_list|].
  simpl. rewrite bool_decide_eq_true_2 by done. apply Z.ltb_lt. lia.
Qed.


(** A batch of a prepared task copies the rows up to its cursor, and is done when none is left. *)
Lemma manifest_batch_ok now tid t w limit d d' r :
  task_ok d tid t w → copies t = true → flow_of t d = Some w → copy_manifest_batch legacy_folder now tid t limit d = Ok (d', r) →
  cd_items d' = cd_items d ∧ cd_flows d' = cd_flows d ∧ cd_tasks d' = cd_tasks d ∧ (∀ k, is_Some (cd_rows d !! k) → is_Some (cd_rows d' !! k)) ∧
  tp_checkpoint (tk_progress t) ≤ bd_cursor r ∧ (bd_done r = true → ∀ o it, cd_items d !! (tid, o) = Some it → o ≤ bd_cursor r) ∧
  ∀ o it p, cd_items d !! (tid, o) = Some it → it_payload it = PRow p → 0 < o → o ≤ bd_cursor r →
    kept tid (fi_snapshot (wf_ident w), cr_external p, cr_type p) d'.
Proof using.
  clear. intros O Hc Hw. unfold copy_manifest_batch. intros (ws & Hws & H)%bind_Ok. apply bind_Ok in H as ([] & _ & H).
  unfold copies in Hc. apply negb_true_iff in Hc. rewrite Hc in H. cbv zeta in H.
  assert (Hwf : ws.1 = w).
  { unfold task_scope in Hws. rewrite Hw in Hws. simpl in Hws. apply bind_Ok in Hws as (s & _ & Hws). apply bind_Ok in Hws as (rc & _ & Hws).
    apply bind_Ok in Hws as ([] & _ & Hws). by injection Hws as <-. }
  rewrite Hwf in H. set (ck := tp_checkpoint (tk_progress t)) in *. set (batch := batch_rows limit (pending_items tid ck d)) in *.
  apply bind_Ok in H as ([] & _ & H).
  destruct (apply_payloads_rows legacy_folder t (fi_snapshot (wf_ident w)) (fi_tenant (wf_ident w)) (map (λ r, it_payload r.2) batch) (cd_rows d)) as [R1 R2].
  destruct (apply_payloads _ _ _ _ _ _) as [rows changed]. injection H as <- <-. simpl in *.
  pose proof (max_ordinal_ge ck batch) as [Hge _].
  do 3 (split; [done|]). split; [exact R1|]. split; [done|]. split.
  - by apply nothing_left_spec.
  - intros o it p Hit Hp Ho Hle. destruct (decide (o ≤ ck)) as [Hck|Hck].
    + eapply kept_mono; [apply R1|]. eapply (to_copied _ _ _ _ O); [|exact Hit|done..]. unfold copies. by rewrite Hc.
    + left. apply R2. rewrite <- Hp. apply list_elem_of_fmap. exists (o, it). split; [done|].
      apply batch_covers; [intros o' it'; by eapply to_items| |apply elem_of_pending; simpl; split; [done|lia]|done].
      intros o1 o2 i1 i2 H1 H12. eapply (to_phase _ _ _ _ O); [unfold copies; by rewrite Hc| |done]. pose proof (to_start _ _ _ _ O). unfold ck in *. lia.
Qed.

Lemma label_batch_ok now tid t limit d d' r :
  apply_label_batch now tid t limit d = Ok (d', r) →
  same_work d d' ∧ tp_checkpoint (tk_progress t) ≤ bd_cursor r ∧ (bd_done r = true → ∀ o it, cd_items d !! (tid, o) = Some it → o ≤ bd_cursor r).
Proof using.
  clear. unfold apply_label_batch. intros (w & _ & H)%bind_Ok. cbv zeta in H. set (ck := tp_checkpoint (tk_progress t)) in *.
  set (rows := take limit (pending_items tid ck d)) in *. set (cursor := match last rows with Some r => r.1 | None => ck end) in *.
  assert (Hc : ck ≤ cursor).
  { unfold cursor. destruct (last rows) as [x|] eqn:E; [|lia]. apply last_Some_elem_of in E. unfold rows in E.
    apply elem_of_take in E as (i & E & _). apply list_elem_of_lookup_2, elem_of_pending in E as [_ E]. lia. }
  assert (Hd : nothing_left tid cursor d = true → ∀ o it, cd_items d !! (tid, o) = Some it → o ≤ cursor) by apply nothing_left_spec.
  clearbody cursor rows. destruct (bool_decide _); [by injection H as <- <-|].
  apply bind_Ok in H as (pl & _ & H). apply bind_Ok in H as ([] & _ & H). apply bind_Ok in H as ([] & _ & H).
  destruct (nothing_left tid cursor d) eqn:E; injection H as <- <-; (split; [done|]; split; [done|]; simpl; auto).
Qed.

Lemma execute_inv now timeout limit keep c t w d d' st rows bytes :
  copy_inv d → owned_copy c d = OwOk t w → execute select_rows provenance_ok source_choice legacy_folder now timeout limit keep c t d = Ok (d', st, rows, bytes) →
  copy_inv d' ∧ grows d d' ∧ ∀ tid, is_Some (cd_tasks d' !! tid) → is_Some (cd_tasks d !! tid).
Proof using stored_sizes.
  intros I Ho H. destruct (owned_running _ _ _ _ Ho) as (Ht & Hw & Hws & Hts & _ & Hatt & _). pose proof (inv_task_ok _ _ _ _ I Ht Hw) as O.
  unfold execute in H. apply bind_Ok in H as ([d1 t1] & Hp & H). apply bind_Ok in H as ([d2 r] & Hb & H). cbv zeta in H.
  apply prepare_ready with (w := w) in Hp as [O1 P1 E1 S1 F1 T1 R1 X1 K1 G1]; [|done|done|by rewrite Hts].
  set (tp := set_task_attempts 0 _) in H. assert (Htp : tk_ident tp = tk_ident t ∧ tp_checkpoint (tk_progress tp) = bd_cursor r ∧
    tp_prepared (tk_progress tp) = true ∧ tk_state tp = TRunning ∧ tk_generation tp = tk_generation t) by (simpl; by rewrite E1, P1, S1, G1).
  clearbody tp. destruct Htp as (E2 & C2 & P2 & S2 & G2).
  set (t2 := if keep && _ && _ then _ else _) in H. injection H as <- _ _ _.
  assert (Ht2 : tk_ident t2 = tk_ident t ∧ tp_checkpoint (tk_progress t2) = bd_cursor r ∧ tp_prepared (tk_progress t2) = true ∧
    (tk_state t2 = TCompleted → bd_done r = true) ∧ tk_generation t2 = tk_generation t).
  { unfold t2. destruct (keep && _ && _); simpl; [by rewrite S2|]. destruct (bd_done r); simpl; by rewrite ?E2. }
  clearbody t2. destruct Ht2 as (E3 & C3 & P3 & D3 & G3). clear E2 C2 P2 S2 G2 tp.
  assert (Hw1 : flow_of t1 d1 = Some w) by (unfold flow_of in *; by rewrite F1, E1).
  assert (B : cd_items d2 = cd_items d1 ∧ cd_flows d2 = cd_flows d1 ∧ cd_tasks d2 = cd_tasks d1 ∧ (∀ k, is_Some (cd_rows d1 !! k) → is_Some (cd_rows d2 !! k)) ∧
    tp_checkpoint (tk_progress t1) ≤ bd_cursor r ∧ (bd_done r = true → ∀ o it, cd_items d1 !! (cl_task c, o) = Some it → o ≤ bd_cursor r) ∧
    (copies t = true → ∀ o it p, cd_items d1 !! (cl_task c, o) = Some it → it_payload it = PRow p → 0 < o → o ≤ bd_cursor r →
      kept (cl_task c) (fi_snapshot (wf_ident w), cr_external p, cr_type p) d2)).
  { destruct (copies t) eqn:Hc.
    - assert (Hc1 : copies t1 = true) by (unfold copies in *; by rewrite E1). destruct (manifest_batch_ok _ _ _ _ _ _ _ _ O1 Hc1 Hw1 Hb) as (B1 & B2 & B3 & B4 & B5 & B6 & B7). done.
    - unfold copies in Hc. apply negb_false_iff in Hc. unfold copy_manifest_batch in Hb. apply bind_Ok in Hb as (ws & _ & Hb).
      apply bind_Ok in Hb as ([] & _ & Hb). rewrite E1, Hc in Hb. apply label_batch_ok in Hb as ((B1 & B2 & B3 & B4) & B5 & B6). rewrite B4. done. }
  destruct B as (B1 & B2 & B3 & B4 & B5 & B6 & B7).
  split; [|split; [constructor; simpl|]].
  5: { intros tid'. simpl. rewrite B3, T1. destruct (decide (cl_task c = tid')) as [<-|Hne]; [rewrite Ht; eauto|by rewrite lookup_insert_ne]. }
  2: { intros tid' t' Ht'. rewrite B3, T1. destruct (decide (cl_task c = tid')) as [<-|Hne]; [rewrite lookup_insert_eq|rewrite lookup_insert_ne by done; eauto].
       exists t2. rewrite Ht' in Ht. injection Ht as ->. done. }
  2: { intros k it Hit. rewrite B1. by apply K1. }
  2: { apply same_flow_moves. simpl. congruence. }
  eapply (task_write_inv d _ (cl_task c) t2 w); [exact I|simpl; congruence|simpl; congruence| | | | |].
  - intros tid' o Hne. simpl. rewrite B1. by apply X1.
  - intros k Hk. simpl. apply B4. by rewrite R1.
  - unfold flow_of in *. by rewrite E3.
  - rewrite E3. lia.
  - constructor; simpl; rewrite ?B1, ?C3, ?P3.
    + intros o it. by eapply to_items.
    + pose proof (to_start _ _ _ _ O1). lia.
    + done.
    + unfold copies. rewrite E3, <- E1. by apply (to_phase _ _ _ _ O1).
    + unfold copies. rewrite E3. exact B7.
    + intros Hs. split; [done|]. by apply B6, D3.
    + congruence.
Qed.

(** The execution that prepares a manifest stores an item for every row it has selected. *)
Lemma execute_stores now timeout limit keep c t d d' st rows bytes r :
  tp_prepared (tk_progress t) = false → copies t = true →
  execute select_rows provenance_ok source_choice legacy_folder now timeout limit keep c t d = Ok (d', st, rows, bytes) →
  r ∈ select_rows d (cl_task c) t → ∃ o, 0 < o ∧ cd_items d' !! (cl_task c, o) = Some (WorkItem (sl_payload r) (sl_source r) (sl_phase r) (sl_bytes r)).
Proof using.
  clear. intros Hp Hc H Hr. unfold copies in Hc. apply negb_true_iff in Hc. unfold execute in H.
  apply bind_Ok in H as ([d1 t1] & Hprep & H). apply bind_Ok in H as ([d2 rb] & Hb & H). cbv zeta in H. injection H as <- _ _ _. simpl.
  unfold prepare_manifest in Hprep. apply bind_Ok in Hprep as (ws & _ & Hprep). cbv zeta in Hprep. rewrite Hp, Hc in Hprep.
  do 3 apply bind_Ok in Hprep as ([] & _ & Hprep). cbv zeta in Hprep. apply bind_Ok in Hprep as ([] & _ & Hprep). injection Hprep as Hd Ht1.
  assert (Hk1 : is_presentation (ti_kind (tk_ident t1)) = false) by (rewrite <- Ht1; exact Hc). clear Ht1.
  unfold copy_manifest_batch in Hb. apply bind_Ok in Hb as (ws2 & _ & Hb). apply bind_Ok in Hb as ([] & _ & Hb). rewrite Hk1 in Hb. cbv zeta in Hb.
  apply bind_Ok in Hb as ([] & _ & Hb). destruct (apply_payloads _ _ _ _ _ _) as [rws ch]. injection Hb as <- _. simpl.
  set (sel := merge_sort row_before (select_rows d (cl_task c) t)) in Hd.
  assert (Hr' : r ∈ sel) by (unfold sel; by rewrite (merge_sort_Permutation _ _)). clearbody sel.
  apply list_elem_of_lookup in Hr' as [i Hi]. exists (Z.of_nat i + 1). split; [lia|].
  assert (Hn : number_rows (cl_task c) 1 sel (cd_items d) !! (cl_task c, Z.of_nat i + 1) = Some (WorkItem (sl_payload r) (sl_source r) (sl_phase r) (sl_bytes r))).
  { rewrite number_rows_lookup, decide_True by (apply lookup_lt_Some in Hi; split; [done|lia]).
    replace (Z.to_nat (Z.of_nat i + 1 - 1)) with i by lia. by rewrite Hi. }
  revert Hd. match goal with |- match ?c with _ => _ end = _ → _ => destruct c as [s|] end; [|intros <-; exact Hn].
  match goal with |- match ?c with _ => _ end = _ → _ => destruct c end; intros <-; [exact Hn|]. simpl. rewrite lookup_insert_ne; [exact Hn|]. intros [=]. lia.
Qed.
End Executing.

(** ** Registering a task *)

Section Registering.
Context (digest : list string → string) (intent_key : string → Z → copy_kind → copy_params → string).
Context (source_choice : copy_db → string → task → option string) (legacy_sources : copy_db → string → task → list string) (pin_max wait_max : Z).
(** Distinct intents have distinct hashes. *)
Hypothesis distinct_keys : ∀ f a k p f' a' k' p', intent_key f a k p = intent_key f' a' k' p' → f = f' ∧ a = a' ∧ k = k'.

Definition keyed (t : task) : Prop := ∃ p, ti_key (tk_ident t) = intent_key (ti_flow (tk_ident t)) (ti_attempt (tk_ident t)) (ti_kind (tk_ident t)) p.
Definition all_keyed (d : copy_db) : Prop := ∀ tid t, cd_tasks d !! tid = Some t → keyed t.

Lemma draining_inv now fresh i leaf snap job d d' fid w :
  copy_inv d → cd_flows d !! fresh = None → draining_flow now fresh i leaf snap job d = Ok (d', fid, w) →
  copy_inv d' ∧ cd_tasks d' = cd_tasks d ∧ cd_flows d' !! fid = Some w ∧ wf_state w = WDraining ∧ cd_items d' = cd_items d ∧
  ∀ f w, cd_flows d !! f = Some w → ∃ w', cd_flows d' !! f = Some w' ∧ flow_moves w w'.
Proof using.
  clear. intros I Hfresh. unfold draining_flow. cbv zeta.
  set (fw := match first_by_id _ with Some kv => kv | None => _ end).
  assert (Hfw : (cd_flows d !! fw.1 = Some fw.2) ∨ (cd_flows d !! fw.1 = None)).
  { unfold fw. destruct (first_by_id _) as [kv|] eqn:E; [left|by right]. apply first_by_id_elem, list_elem_of_filter in E as [_ E]. destruct kv. by apply elem_of_map_to_list in E. }
  clearbody fw. destruct fw as [f w0]. cbn [fst snd] in Hfw. set (w1 := if _ && _ then _ else w0).
  assert (H1 : wf_ident w1 = wf_ident w0 ∧ (w1 = w0 ∨ wf_attempt w1 = wf_attempt w0 + 1)) by (unfold w1; case_match; [split; [done|by right]|by split; [|left]]).
  clearbody w1. destruct H1 as [Hid Hw1]. intros ([] & Hst & H)%bind_Ok. injection H as <- <- <-. apply raise_if_Ok, orb_false_iff in Hst as [Hst _]. bools.
  split; [|split; [done|]; split; [simpl; by rewrite lookup_insert_eq|split; [done|]; split; [done|]]].
  2: { intros f1 w2 H2. simpl. destruct (decide (f = f1)) as [<-|Hne]; [rewrite lookup_insert_eq|rewrite lookup_insert_ne by done; by exists w2].
    exists w1. split; [done|]. destruct Hfw as [Hfw|Hfw]; rewrite Hfw in H2; [|done]. injection H2 as <-. destruct Hw1 as [->|Hw1]; [done|].
    split; [done|]. split; lia. }
  assert (Hcase : ∀ tid t, cd_tasks d !! tid = Some t → ∃ w, flow_of t d = Some w ∧ ti_attempt (tk_ident t) ≤ wf_attempt w ∧
    ((ti_flow (tk_ident t) ≠ f ∧ flow_of t (on_flows (insert f w1) d) = Some w) ∨ (ti_flow (tk_ident t) = f ∧ w = w0 ∧ flow_of t (on_flows (insert f w1) d) = Some w1))).
  { intros tid t Ht. destruct (ci_flow _ I _ _ Ht) as (w & Hw & Ha). exists w. split; [done|]. split; [done|]. unfold flow_of in *. simpl.
    destruct (decide (ti_flow (tk_ident t) = f)) as [Hf|Hne]; [right|left; split; [done|by rewrite lookup_insert_ne]].
    rewrite Hf in *. rewrite lookup_insert_eq. split; [done|]. destruct Hfw as [Hfw|Hfw]; rewrite Hfw in Hw; by simplify_eq. }
  constructor.
  - intros tid t Ht. destruct (Hcase _ _ Ht) as (w & _ & Ha & [[_ Hf]|(_ & -> & Hf)]); rewrite Hf; eexists; (split; [done|]); [done|].
    destruct Hw1 as [-> | ->]; lia.
  - apply (ci_items _ I).
  - apply (ci_start _ I).
  - apply (ci_fresh _ I).
  - apply (ci_phase _ I).
  - intros tid t w' o it r Ht Hc Hw' Hit. destruct (Hcase _ _ Ht) as (w & Hw & Ha & [[_ Hf]|(_ & -> & Hf)]); rewrite Hf in Hw'; injection Hw' as <-; [|rewrite Hid];
      by eapply (ci_copied _ I _ _ _ _ _ _ Ht Hc Hw).
  - apply (ci_done _ I).
  - intros tid t w' Ht Hw' Hd Hat. destruct (Hcase _ _ Ht) as (w & Hw & Ha & [[_ Hf]|(_ & -> & Hf)]); rewrite Hf in Hw'; injection Hw' as <-.
    + by eapply (ci_drain _ I).
    + destruct Hw1 as [->|Hw1]; [by eapply (ci_drain _ I)|lia].
Qed.

Lemma insert_pins_work tid sources : ∀ o d, o < 0 →
  let d' := insert_pins tid o sources d in
  cd_flows d' = cd_flows d ∧ cd_tasks d' = cd_tasks d ∧ cd_rows d' = cd_rows d ∧
  (∀ tid' k, tid' ≠ tid ∨ 0 ≤ k → cd_items d' !! (tid', k) = cd_items d !! (tid', k)) ∧
  (∀ k it, cd_items d' !! (tid, k) = Some it → cd_items d !! (tid, k) = Some it ∨ (k < 0 ∧ it_bytes it = 0)) ∧
  ∀ k it, cd_items d !! k = Some it → cd_items d' !! k = Some it.
Proof using.
  clear. induction sources as [|s sources IH]; intros o d Ho; simpl; [by repeat (split; [done|]); auto|].
  set (d1 := match cd_items d !! (tid, o) with Some _ => d | None => _ end).
  assert (H1 : cd_flows d1 = cd_flows d ∧ cd_tasks d1 = cd_tasks d ∧ cd_rows d1 = cd_rows d ∧
    (∀ tid' k, tid' ≠ tid ∨ 0 ≤ k → cd_items d1 !! (tid', k) = cd_items d !! (tid', k)) ∧
    (∀ k it, cd_items d1 !! (tid, k) = Some it → cd_items d !! (tid, k) = Some it ∨ (k < 0 ∧ it_bytes it = 0)) ∧
    ∀ k it, cd_items d !! k = Some it → cd_items d1 !! k = Some it).
  { unfold d1. destruct (cd_items d !! (tid, o)) eqn:E; [by repeat (split; [done|]); auto|]. do 3 (split; [done|]). simpl. split.
    - intros tid' k Hk. rewrite lookup_insert_ne; [done|]. intros [= <- <-]. destruct Hk; [done|lia].
    - split; [intros k it [[[= <-] <-]|[_ H]]%lookup_insert_Some; [by right|by left]|].
      intros k it Hit. rewrite lookup_insert_ne; [done|]. intros <-. congruence. }
  clearbody d1. destruct H1 as (A1 & A2 & A3 & A4 & A5 & A6). destruct (IH (o - 1) d1) as (B1 & B2 & B3 & B4 & B5 & B6); [lia|].
  split; [congruence|]. split; [congruence|]. split; [congruence|]. split; [intros tid' k Hk; by rewrite B4, A4|].
  split; [|auto]. intros k it Hit. destruct (B5 _ _ Hit) as [H|H]; [by apply A5|by right].
Qed.

Lemma pin_inv tid t w d d' t' :
  copy_inv d → cd_tasks d !! tid = Some t → flow_of t d = Some w → pin_intent_sources source_choice legacy_sources pin_max tid t d = Ok (d', t') →
  copy_inv d' ∧ cd_flows d' = cd_flows d ∧ cd_tasks d' = <[tid := t']> (cd_tasks d) ∧
  tk_ident t' = tk_ident t ∧ tk_progress t' = tk_progress t ∧ tk_state t' = tk_state t ∧ tk_generation t' = tk_generation t ∧
  ∀ k it, cd_items d !! k = Some it → cd_items d' !! k = Some it.
Proof using.
  clear. intros I Ht Hw H. assert (Hsame : d' = d ∧ t' = t → copy_inv d' ∧ cd_flows d' = cd_flows d ∧ cd_tasks d' = <[tid := t']> (cd_tasks d) ∧
    tk_ident t' = tk_ident t ∧ tk_progress t' = tk_progress t ∧ tk_state t' = tk_state t ∧ tk_generation t' = tk_generation t ∧
    ∀ k it, cd_items d !! k = Some it → cd_items d' !! k = Some it) by (intros [-> ->]; by rewrite insert_id).
  unfold pin_intent_sources in H. cbv zeta in H. destruct (bool_decide (ti_kind _ ∈ [ChatRename; _; _])); [injection H as <- <-; auto|].
  destruct (if bool_decide (ti_kind _ = LegacyChatAttachments) then _ else _); [injection H as <- <-; auto|].
  apply bind_Ok in H as ([] & _ & H). apply bind_Ok in H as ([] & _ & H). apply bind_Ok in H as ([] & _ & H).
  match type of H with Ok (on_tasks (insert tid (set_task_params ?p t)) (insert_pins tid (-1) ?s d), _) = _ => revert H; generalize p, s end.
  intros p sources [= <- <-]. destruct (insert_pins_work tid sources (-1) d) as (A1 & A2 & A3 & A4 & A5 & A6); [lia|]. set (d1 := insert_pins tid (-1) sources d) in *. clearbody d1.
  pose proof (inv_task_ok _ _ _ _ I Ht Hw) as O. destruct (ci_flow _ I _ _ Ht) as (w' & Hw' & Ha). assert (w' = w) as -> by congruence.
  split; [|by rewrite <- A1, <- A2].
  eapply (task_write_inv d _ tid _ w I); [done|simpl; by rewrite A2| |intros k Hk; simpl; by rewrite A3|done|done|].
  - intros tid' o Hne. simpl. apply A4. by left.
  - assert (Hpos : ∀ o it, cd_items d1 !! (tid, o) = Some it → 0 ≤ o → cd_items d !! (tid, o) = Some it) by (intros o it Hit Ho; rewrite <- (A4 tid o); auto).
    constructor; simpl.
    + intros o it Hit. destruct (A5 _ _ Hit) as [H|[_ ->]]; [by eapply to_items|done].
    + by eapply to_start.
    + intros Hp. destruct (to_fresh _ _ _ _ O Hp) as [H1 H2]. split; [done|]. intros o it Hit. destruct (A5 _ _ Hit) as [H|[H _]]; [by eapply H2|done].
    + intros Hc o1 o2 i1 i2 H1 H2 Hi1 Hi2. apply Hpos in Hi1; [|lia]. apply Hpos in Hi2; [|lia]. by eapply (to_phase _ _ _ _ O Hc _ _ _ _ H1 H2).
    + intros Hc o it r Hit Hr Ho Hle. unfold kept. cbn [on_tasks cd_rows]. rewrite A3. apply Hpos in Hit; [|lia]. by eapply (to_copied _ _ _ _ O Hc).
    + intros Hs. pose proof (to_start _ _ _ _ O). destruct (to_done _ _ _ _ O Hs) as [D1 D2]. split; [done|].
      intros o it Hit. destruct (A5 _ _ Hit) as [H0|[H0 _]]; [by eapply D2|lia].
    + by apply (to_drain _ _ _ _ O).
Qed.

Lemma enqueue_inv now req ff ft d d' tid :
  copy_inv d → all_keyed d → cd_flows d !! ff = None → cd_tasks d !! ft = None →
  enqueue digest intent_key source_choice legacy_sources pin_max wait_max now req ff ft d = Ok (d', tid) → copy_inv d' ∧ all_keyed d' ∧ grows d d'.
Proof using distinct_keys.
  intros I K Hff Hft H. unfold enqueue in H. cbv zeta in H. do 2 apply bind_Ok in H as ([] & _ & H). apply bind_Ok in H as ([[snap res] job] & _ & H).
  do 4 apply bind_Ok in H as ([] & _ & H). apply bind_Ok in H as ([] & _ & H). apply bind_Ok in H as (part & _ & H).
  apply bind_Ok in H as ([[d1 fid] w] & Hfl & H). destruct (draining_inv _ _ _ _ _ _ _ _ _ _ I Hff Hfl) as (I1 & T1 & F1 & W1 & N0 & M1).
  apply bind_Ok in H as (d2 & Hpl & H). apply bind_Ok in H as ([] & _ & H). clear Hfl.
  assert (S2 : same_work d1 d2).
  { unfold admit_plan_row in Hpl. destruct (negb _); [by injection Hpl as <-|]. apply bind_Ok in Hpl as ([] & _ & Hpl). cbv zeta in Hpl.
    apply bind_Ok in Hpl as (pl & _ & Hpl). apply bind_Ok in Hpl as ([] & _ & Hpl). injection Hpl as <-. by destruct (_ && _). }
  set (qs := queue_rows _ _ _ _ _ _) in H. set (d3 := on_copy_queues _ d2) in H. assert (S3 : same_work d1 d3) by exact S2. clearbody d3. clear S2 d2 Hpl qs.
  assert (I3 : copy_inv d3) by (by eapply keeps_inv; [apply same_work_keeps|]). destruct S3 as (T3 & F3 & N3 & R3).
  set (k := intent_key fid (wf_attempt w) (rq_kind req) (canonical (rq_params req))) in H. set (i := TaskIdent fid _ _ _ _ _ _ k _ _ _ _ _) in H.
  assert (Hi : ti_flow i = fid ∧ ti_attempt i = wf_attempt w ∧ keyed (Task i (canonical (rq_params req)) TReady 0 None None (TaskClock now now 0) (TaskProgress false 0 0 0) 0 None))
    by (split; [done|split; [done|by eexists]]).
  set (tnew := Task i _ TReady _ _ _ _ _ _ _) in H, Hi. assert (Hnew : tk_ident tnew = i ∧ tk_progress tnew = TaskProgress false 0 0 0 ∧ tk_state tnew = TReady) by done.
  clearbody tnew. destruct Hnew as (N1 & N2 & N4).
  assert (Hnone : cd_tasks d3 !! ft = None) by (by rewrite T3, T1).
  (* the task: an existing one with the same key, or the new one *)
  assert (G3 : grows d d3) by (constructor; [rewrite T3, T1; eauto|by rewrite N3, N0|by rewrite F3]).
  assert (Hstep : ∃ t0 d0 tid0, grows d d0 ∧ copy_inv d0 ∧ all_keyed d0 ∧ cd_flows d0 = cd_flows d3 ∧ cd_tasks d0 !! tid0 = Some t0 ∧ ti_flow (tk_ident t0) = fid ∧
      ti_attempt (tk_ident t0) = wf_attempt w ∧
      (pinned ← pin_intent_sources source_choice legacy_sources pin_max tid0 t0 d0;
       let '(d, t) := pinned in
       Ok (if bool_decide (rq_kind req = MailCarry) && bool_decide (tk_state t = TReady) && bool_decide (rc_type res = "USER_MAIL") && cs_union_carry snap &&
              pm_fixed (tk_params t) && negb (bool_decide (is_Some (pm_prior_snapshot (tk_params t))))
           then on_tasks (insert tid0 (bootstrap_noop snap (rq_snapshot req) t d)) d else d, tid0)) = Ok (d', tid)).
  { destruct (first_by_id _) as [[tid0 t0]|] eqn:Hf.
    - apply first_by_id_elem, list_elem_of_filter in Hf as [Hk Hin]. apply elem_of_map_to_list in Hin. cbn [snd] in Hk.
      assert (K3 : all_keyed d3) by (unfold all_keyed; by rewrite T3, T1). destruct (K3 _ _ Hin) as [p Hp]. rewrite Hk in Hp. apply distinct_keys in Hp as (E1 & E2 & _).
      exists t0, d3, tid0. by repeat (split; [done|]).
    - exists tnew, (on_tasks (insert ft tnew) d3), ft. split.
      { apply (grows_trans _ d3); [done|]. constructor; [|done|by apply same_flow_moves]. intros tid' t' Ht'. simpl. rewrite lookup_insert_ne by congruence. eauto. }
      split; [|split; [|split; [done|split; [by (simpl; rewrite lookup_insert_eq)|]]]].
      + assert (Hitems : ∀ o it, cd_items d3 !! (ft, o) = Some it → False).
        { intros o it Hit. apply (ci_items _ I3) in Hit as [[t Ht] _]. congruence. }
        assert (Hfw : flow_of tnew d3 = Some w) by (unfold flow_of; rewrite N1, F3; simpl; exact F1).
        eapply (task_write_inv d3 _ ft tnew w I3); try done; [rewrite N1; simpl; lia|]. constructor; simpl; rewrite ?N2; try done; try (intros; exfalso; by eapply Hitems).
        * intros _. split; [done|]. intros o it Hit. exfalso. by eapply Hitems.
        * intros Hs. congruence.
        * intros _ _. by left.
      + intros tid' t'. simpl. rewrite lookup_insert_Some. intros [[_ <-]|[_ Ht']]; [apply Hi|]. rewrite T3, T1 in Ht'. by eapply K.
      + rewrite N1. by split; [|split]. }
  clear H. destruct Hstep as (t0 & d0 & tid0 & G0 & I0 & K0 & F0 & Ht0 & Hfl0 & Hat0 & H).
  assert (Hw0 : flow_of t0 d0 = Some w) by (unfold flow_of; by rewrite Hfl0, F0, F3).
  apply bind_Ok in H as ([d4 t4] & Hpin & H). destruct (pin_inv _ _ _ _ _ _ I0 Ht0 Hw0 Hpin) as (I4 & F4 & T4 & E4 & P4 & S4 & N5 & X4). injection H as <- <-.
  assert (K4 : all_keyed d4).
  { intros tid' t'. rewrite T4, lookup_insert_Some. intros [[_ <-]|[_ Ht']]; [|by eapply K0]. unfold keyed. rewrite E4. by eapply K0. }
  assert (G4 : grows d d4).
  { apply (grows_trans _ d0); [done|]. constructor; [|done|by apply same_flow_moves]. intros tid' t' Ht'. rewrite T4. destruct (decide (tid0 = tid')) as [<-|Hne];
      [rewrite lookup_insert_eq|rewrite lookup_insert_ne by done; eauto]. exists t4. rewrite Ht0 in Ht'. by injection Ht' as <-. }
  destruct (bool_decide (rq_kind req = MailCarry) && bool_decide (tk_state t4 = TReady) && _ && _ && _ && _) eqn:Hb; [|done].
  do 4 apply andb_true_iff in Hb as [Hb _]. apply andb_true_iff in Hb as [_ Hb%bool_decide_eq_true].
  set (t5 := bootstrap_noop _ _ _ _). assert (Ht5 : tk_ident t5 = tk_ident t4 ∧ tk_generation t5 = tk_generation t4 ∧ tp_checkpoint (tk_progress t5) = tp_checkpoint (tk_progress t4) ∧
    ((tk_state t5 ≠ TCompleted ∧ tk_progress t5 = tk_progress t4) ∨ (tk_state t5 = TCompleted ∧ tp_prepared (tk_progress t5) = true))).
  { unfold t5, bootstrap_noop. destruct (cs_cancelled snap); [by split; [|split; [|split; [|left]]]|]. destruct (bootstrap_covered _ _ _ _); by (split; [|split; [|split; [|first [by right|by left]]]]). }
  clearbody t5. destruct Ht5 as (E5 & N6 & C5 & D5).
  assert (Ht4 : cd_tasks d4 !! tid0 = Some t4) by (by rewrite T4, lookup_insert_eq). assert (Hw4 : flow_of t4 d4 = Some w) by (unfold flow_of in *; by rewrite E4, F4).
  split; [|split].
  - assert (O : task_ok d4 tid0 t4 w) by by apply inv_task_ok.
    assert (Hp4 : tp_prepared (tk_progress t4) = false) by (destruct (to_drain _ _ _ _ O W1) as [?|?]; [by rewrite E4|done|congruence]).
    destruct (to_fresh _ _ _ _ O Hp4) as [Hck Hneg].
    eapply (task_write_inv d4 _ tid0 t5 w I4); try done; [unfold flow_of in *; by rewrite E5|rewrite E5, E4; lia|].
    constructor; simpl; rewrite ?C5, ?Hck; try done.
    + intros o it. by eapply to_items.
    + intros _ o1 o2 i1 i2 H1 _ Hi1. apply Hneg in Hi1. lia.
    + intros _ o it r Hit _ Ho. apply Hneg in Hit. lia.
    + intros Hs. destruct D5 as [[? _]|[_ D5]]; [done|]. split; [done|]. intros o it Hit. apply Hneg in Hit. lia.
    + intros _ _. destruct D5 as [[_ ->]|[-> _]]; [by left|by right].
  - intros tid' t'. simpl. rewrite lookup_insert_Some. intros [[_ <-]|[_ Ht']]; [|by eapply K4]. unfold keyed. rewrite E5. by eapply K4.
  - apply (grows_trans _ d4); [done|]. constructor; [|done|by apply same_flow_moves]. intros tid' t' Ht'. simpl. destruct (decide (tid0 = tid')) as [<-|Hne];
      [rewrite lookup_insert_eq|rewrite lookup_insert_ne by done; eauto]. exists t5. rewrite Ht4 in Ht'. by injection Ht' as <-.
Qed.
End Registering.
End Invariant.

(** Writes outside the tables of copy work: what they remove from the snapshots is counted
    as gone for the tasks that have copied something. *)
Lemma foreign_inv gone gone' d d' :
  cd_tasks d' = cd_tasks d → cd_flows d' = cd_flows d → cd_items d' = cd_items d →
  (∀ tid t k, cd_tasks d !! tid = Some t → 0 < tp_checkpoint (tk_progress t) → kept gone tid k d → kept gone' tid k d') →
  copy_inv gone d → copy_inv gone' d'.
Proof.
  intros T F N R I. assert (Hfl : ∀ t, flow_of t d' = flow_of t d) by (intros t; unfold flow_of; by rewrite F).
  constructor; rewrite ?T, ?N; try setoid_rewrite Hfl; try by apply I.
  intros tid t w o it r Ht Hc Hw Hit Hr Ho Hck. eapply R; [done|lia|]. by eapply (ci_copied _ _ I).
Qed.
