(* ===== verification/CopyReach.v ===== *)
(** * Copy work: the steps of the system

    Every transaction the services run on copy work, in any order and by any worker, as one
    step relation: what a capture registers and seals, what the executors claim, copy,
    settle and give back, how a leaf is resumed and its workflow ended, and what other
    services write meanwhile. *)

From S2P Require Import Prelude Reconciler Provider.
From Stdlib Require Import Ascii.
From S2P Require Import CopyWork CopyBatch CopyFlow CopySafety CopyWhole.
Local Open Scope Z_scope.

(** What the transaction of a batch leaves in the database. *)
Definition outcome_db (d : copy_db) (o : batch_outcome) : copy_db :=
  match o with OutCommit d' _ _ _ => d' | OutError _ _ d' => d' | _ => d end.

(** A claim opens a new generation of its task. *)
Lemma claim_generation cap now owner busy d d' c :
  claim_copy cap now owner busy d = Ok (d', Some c) →
  ∃ t, cd_tasks d' !! cl_task c = Some t ∧ tk_generation t = cl_generation c ∧
    ∃ t0, cd_tasks d !! cl_task c = Some t0 ∧ tk_generation t0 < cl_generation c.
Proof.
  unfold claim_copy. set (d0 := ensure_copy_control cap d).
  assert (T0 : cd_tasks d0 = cd_tasks d) by (unfold d0, ensure_copy_control; by destruct (cd_control d)). clearbody d0.
  destruct (pick_queue now 0 None d0) as [tq|]; [|done]. destruct (pick_queue now 1 _ d0) as [pq|]; [|done]. destruct (pick_queue now 2 _ d0) as [rq|]; [|done].
  cbv zeta. set (d1 := on_copy_queues _ d0). assert (T1 : cd_tasks d1 = cd_tasks d) by done. clearbody d1.
  destruct (first_task _) as [[tid t]|] eqn:Hf; [|done]. apply first_task_elem, list_elem_of_filter in Hf as [_ Hin].
  apply elem_of_map_to_list in Hin. intros (w & _ & H)%bind_Ok. apply bind_Ok in H as (_ & _ & H).
  set (t1 := if bool_decide (tk_state t = TReady) then _ else t) in H.
  assert (Hg : tk_generation t1 = tk_generation t) by (unfold t1; by destruct (bool_decide _)). clearbody t1.
  destruct (_ && _) in H; [done|]. injection H as <- <-. simpl. eexists. rewrite lookup_insert_eq. split; [done|]. split; [done|].
  exists t. rewrite <- T1. split; [done|]. unfold claim_task. destruct (pm_budget _); simpl; lia.
Qed.

Section Reach.
Context (digest : list string → string) (intent_key : string → Z → copy_kind → copy_params → string).
Context (source_choice : copy_db → string → task → option string) (legacy_sources : copy_db → string → task → list string).
Context (select_rows : copy_db → string → task → list selected) (provenance_ok : copy_db → string → task → bool).
Context (legacy_folder : task → copied → bool) (pin_max wait_max tenant_capacity lease_ttl : Z).

Notation attempt := (attempt_batch select_rows provenance_ok source_choice legacy_folder).

(** Other services write the leaves, jobs and policies, and add, change and remove the rows
    of any snapshot; the tables of copy work belong to the operations of this part. *)
Definition foreign (d d' : copy_db) : Prop :=
  cd_tasks d' = cd_tasks d ∧ cd_flows d' = cd_flows d ∧ cd_items d' = cd_items d.

Inductive copy_step (d : copy_db) : copy_db → Prop :=
  | StWorld d' : foreign d d' → copy_step d d'
  | StEnqueue now req ff ft d' tid : cd_flows d !! ff = None → cd_tasks d !! ft = None →
      enqueue digest intent_key source_choice legacy_sources pin_max wait_max now req ff ft d = Ok (d', tid) → copy_step d d'
  | StSeal now own receipt_only cont co co' d' r : seal_txn tenant_capacity now own receipt_only cont co d = (Ok (d', r), co') → copy_step d d'
  | StClaim now owner busy d' c : claim_copy tenant_capacity now owner busy d = Ok (d', c) → copy_step d d'
  | StBatch now timeout limit keep c ev : copy_step d (outcome_db d (attempt now timeout limit keep c ev d))
  | StSettle now c through status error queued spend : status ≠ Some TCompleted → copy_step d (settle now c through status error queued spend d).1
  | StBegin now fid owner d' c : begin_resume now fid owner d = Ok (d', c) → copy_step d d'
  | StRenew now c : copy_step d (renew_resume now c d).1
  | StFinish now fid owner failed d' b : finish_resume now fid owner failed d = Ok (d', b) → copy_step d d'
  | StParent fid : copy_step d (finish_parent_settlement fid d).1
  | StCancel now sc abandoned d' n : cancel_copy_work now sc abandoned d = Ok (d', n) → copy_step d d'
  | StAbandon now alive fid : copy_step d (abandon lease_ttl now alive fid d).1
  | StRelease now c : copy_step d (release_cancelled_claim now c d).

Definition copy_steps : copy_db → copy_db → Prop := rtc copy_step.

(** Before anything was registered. *)
Definition copy_start (d : copy_db) : Prop := cd_tasks d = ∅ ∧ cd_flows d = ∅ ∧ cd_items d = ∅.
Definition copy_reachable (d : copy_db) : Prop := ∃ d0, copy_start d0 ∧ copy_steps d0 d.


(** [run_batch] is a sequence of such steps. *)
Lemma run_batch_steps now timeout limit keep c queued settles evs : ∀ n d,
  copy_steps d (run_batch_loop select_rows provenance_ok source_choice legacy_folder now timeout limit keep c queued settles n evs d).1.
Proof using.
  assert (Hset : ∀ status error queued spend d1 d2, copy_steps d1 d2 → status ≠ Some TCompleted → copy_steps d1 (settle now c settles status error queued spend d2).1)
    by (intros; eapply rtc_r; [done|by apply StSettle]).
  induction evs as [|ev evs IH]; intros n d; simpl; [apply rtc_refl|].
  pose proof (StBatch d now timeout limit keep c ev) as Hst. destruct (attempt now timeout limit keep c ev d) as [d'| | | | |code|ph st d'] eqn:E; simpl in Hst; simpl;
    try (by apply rtc_once); try apply rtc_refl; try (apply Hset; [apply rtc_refl|done]).
  repeat match goal with |- context [if ?b then _ else _] => destruct b end; try (apply Hset; [by apply rtc_once|done]).
  eapply rtc_l; [exact Hst|apply IH].
Qed.

(** ** What every step keeps *)

Hypothesis stored_sizes : ∀ d tid t, Forall (λ r, 0 ≤ sl_bytes r) (select_rows d tid t).
Hypothesis distinct_keys : ∀ f a k p f' a' k' p', intent_key f a k p = intent_key f' a' k' p' → f = f' ∧ a = a' ∧ k = k'.

(** Tasks stay with what they are, and their generations only grow; workflows move forward;
    the items of a task go only once its capture has ended; rows stay. *)
Record moves (d d' : copy_db) : Prop := {
  mv_tasks : ∀ tid t, cd_tasks d !! tid = Some t → ∃ t', cd_tasks d' !! tid = Some t' ∧ tk_ident t' = tk_ident t ∧ tk_generation t ≤ tk_generation t';
  mv_flows : ∀ fid w, cd_flows d !! fid = Some w → ∃ w', cd_flows d' !! fid = Some w' ∧ flow_moves w w';
  mv_pins : ∀ tid o it, cd_items d !! (tid, o) = Some it → cd_items d' !! (tid, o) = Some it ∨
    ∃ t w, cd_tasks d' !! tid = Some t ∧ flow_of t d' = Some w ∧ (is_active (wf_state w) = true → ti_attempt (tk_ident t) < wf_attempt w);
}.

Lemma moves_refl d : moves d d.
Proof using. constructor; [by intros tid t Ht; exists t|by intros fid w Hw; exists w|auto]. Qed.

Lemma moves_trans gone d1 d2 d3 : copy_inv gone d2 → moves d1 d2 → moves d2 d3 → moves d1 d3.
Proof using.
  clear. intros I [T1 F1 P1] [T2 F2 P2]. constructor.
  - intros tid t Ht. destruct (T1 _ _ Ht) as (t2 & Ht2 & E2 & G2). destruct (T2 _ _ Ht2) as (t3 & Ht3 & E3 & G3).
    exists t3. split; [done|]. split; [congruence|lia].
  - intros fid w Hw. destruct (F1 _ _ Hw) as (w2 & H2 & M2). destruct (F2 _ _ H2) as (w3 & H3 & M3). exists w3. by split; [|etransitivity].
  - intros tid o it Hit. destruct (P1 _ _ _ Hit) as [H|(t & w & Ht & Hw & Ha)]; [by apply P2|right].
    destruct (T2 _ _ Ht) as (t3 & Ht3 & E3 & _). destruct (F2 _ _ Hw) as (w3 & Hw3 & _ & A3 & N3).
    destruct (ci_flow _ _ I _ _ Ht) as (w' & Hw' & Hle). rewrite Hw in Hw'. injection Hw' as <-.
    exists t3, w3. split; [done|]. unfold flow_of in *. rewrite E3. split; [done|]. intros Hact.
    destruct (decide (wf_attempt w3 = wf_attempt w)) as [Heq|Hne]; [rewrite Heq; by apply Ha, N3|lia].
Qed.

Lemma keeps_moves d d' : keeps d d' → moves d d'.
Proof using.
  clear. intros K. constructor.
  - intros tid t Ht. destruct (ks_tasks' _ _ K tid) as [t' Ht']; [eauto|]. exists t'. split; [done|].
    destruct (ks_tasks _ _ K _ _ Ht') as (t0 & Ht0 & Hid & _). split; [congruence|by eapply (ks_gens _ _ K)].
  - intros fid w Hw. destruct (ks_flows _ _ K _ _ Hw) as (w' & Hw' & E & A & _ & N). exists w'. split; [done|]. split; [done|]. split; [lia|auto].
  - intros tid o it Hit. destruct (ks_pins _ _ K _ _ _ Hit) as [?|(t & w & Ht & Hw & Ha)]; [by left|right]. exists t, w. rewrite Ha. done.
Qed.

Lemma grows_moves d d' : grows d d' → moves d d'.
Proof using.
  clear. intros G. constructor; [|apply (gr_flows _ _ G)|].
  - intros tid t Ht. destruct (gr_tasks _ _ G _ _ Ht) as (t' & Ht' & E & N). exists t'. split; [done|]. split; [done|lia].
  - intros tid o it Hit. left. by apply (gr_items _ _ G).
Qed.

Lemma keeps_keyed d d' : keeps d d' → all_keyed intent_key d → all_keyed intent_key d'.
Proof using. intros K A tid t' Ht'. destruct (ks_tasks _ _ K _ _ Ht') as (t & Ht & Hid & _). unfold keyed. rewrite Hid. by eapply A. Qed.

Record copy_good (gone : string → string * string * string → Prop) (d : copy_db) : Prop := {
  cg_inv : copy_inv gone d; cg_keyed : all_keyed intent_key d }.

Lemma keeps_good gone d d' : keeps d d' → copy_good gone d → copy_good gone d' ∧ moves d d'.
Proof using. intros K [I A]. split; [split; [by eapply keeps_inv|by eapply keeps_keyed]|by apply keeps_moves]. Qed.

Lemma foreign_good gone gone' d d' :
  foreign d d' → (∀ tid t k, cd_tasks d !! tid = Some t → 0 < tp_checkpoint (tk_progress t) → kept gone tid k d → kept gone' tid k d') →
  copy_good gone d → copy_good gone' d' ∧ moves d d'.
Proof using.
  clear. intros (T & F & N) R [I A]. split; [split|].
  - by eapply foreign_inv.
  - intros tid t. rewrite T. apply A.
  - constructor; [intros tid t Ht; exists t; by rewrite T|by apply same_flow_moves|rewrite N; auto].
Qed.


Lemma start_good gone d : copy_start d → copy_good gone d.
Proof using.
  clear. intros (T & F & N). split; [constructor|]; (try by intros tid t; rewrite T, lookup_empty).
  by intros tid o it; rewrite N, lookup_empty.
Qed.

(** A batch writes when its claim stands and the execution goes through. *)
Lemma attempt_inv now timeout limit keep c ev d :
  outcome_db d (attempt now timeout limit keep c ev d) = d ∨
  ∃ t w st rows bytes, owned_copy c d = OwOk t w ∧ execute select_rows provenance_ok source_choice legacy_folder now timeout limit keep c t d =
    Ok (outcome_db d (attempt now timeout limit keep c ev d), st, rows, bytes).
Proof using.
  clear. unfold attempt_batch. destruct ev as [m|ph s|s]; [| |];
    try (destruct ph; [by left|by left| |]);
    (destruct (owned_copy c d) as [| | |t w]; [by left..|]); (destruct (negb _); [by left|]); (destruct (negb _ && _); [by left|]);
    try (destruct m as [code|]; [by left|]); try (by left); (destruct (_ && (3 <? _)); [by left|]); try (by left);
    (destruct (execute _ _ _ _ _ _ _ _ _ _ _) as [[[[d' st] rows] bytes]|e] eqn:E; [right|by left]); by exists t, w, st, rows, bytes.
Qed.

(** Every step but those of other services keeps the rows. *)
Lemma step_good gone d d' : copy_good gone d → copy_step d d' → foreign d d' ∨ (copy_good gone d' ∧ moves d d').
Proof using stored_sizes distinct_keys.
  intros G Hs. destruct Hs as [d' Hf|now req ff ft d' tid Hff Hft H|now own ro cont co co' d' r H|now owner busy d' c H|now timeout limit keep c ev
    |now c through status error queued spend Hs|now fid owner d' c H|now c|now fid owner failed d' b H|fid|now sc ab d' n H|now alive fid|now c]; [by left|right..].
  - destruct (enqueue_inv _ _ _ _ _ _ _ distinct_keys _ _ _ _ _ _ _ (cg_inv _ _ G) (cg_keyed _ _ G) Hff Hft H) as (I & A & W). split; [by split|by apply grows_moves].
  - eapply keeps_good; [by eapply seal_keeps|done].
  - eapply keeps_good; [by eapply claim_keeps|done].
  - destruct (attempt_inv now timeout limit keep c ev d) as [->|(t & w & st & rows & bytes & Ho & He)]; [split; [done|apply moves_refl]|].
    destruct (execute_inv _ _ _ _ _ stored_sizes _ _ _ _ _ _ _ _ _ _ _ _ (cg_inv _ _ G) Ho He) as (I & W & N). split; [split; [done|]|by apply grows_moves].
    intros tid t' Ht'. destruct (N tid) as [t0 E]; [eauto|]. destruct (gr_tasks _ _ W _ _ E) as (t2 & H2 & E2 & _).
    rewrite Ht' in H2. injection H2 as <-. unfold keyed. rewrite E2. by eapply (cg_keyed _ _ G).
  - eapply keeps_good; [|done]. destruct (settle now c through status error queued spend d) as [d' r] eqn:E. by eapply copy_settle_keeps.
  - eapply keeps_good; [by eapply begin_resume_keeps|done].
  - eapply keeps_good; [apply renew_resume_keeps|done].
  - eapply keeps_good; [by eapply finish_resume_keeps|done].
  - eapply keeps_good; [apply finish_parent_keeps|done].
  - eapply keeps_good; [by eapply cancel_keeps|done].
  - eapply keeps_good; [apply abandon_keeps|done].
  - eapply keeps_good; [apply release_keeps|done].
Qed.

(** Whatever the other services remove. *)
Definition anything (tid : string) (k : string * string * string) : Prop := True.

Lemma step_moves d d' : copy_good anything d → copy_step d d' → copy_good anything d' ∧ moves d d'.
Proof using stored_sizes distinct_keys.
  intros G Hs. destruct (step_good _ _ _ G Hs) as [Hf|?]; [|done]. eapply foreign_good; [done| |done]. intros. by right.
Qed.

Lemma steps_good d d' : copy_good anything d → copy_steps d d' → copy_good anything d' ∧ moves d d'.
Proof using stored_sizes distinct_keys.
  intros G Hs. induction Hs as [d|d d1 d' Hs _ IH]; [split; [done|apply moves_refl]|].
  destruct (step_moves _ _ G Hs) as [G1 M1]. destruct (IH G1) as [G2 M2]. split; [done|].
  by apply (moves_trans anything _ d1); [apply cg_inv| |].
Qed.




Lemma reachable_good d : copy_reachable d → copy_good anything d.
Proof using stored_sizes distinct_keys. intros (d0 & H0 & Hs). by destruct (steps_good d0 d (start_good _ _ H0) Hs). Qed.

(** ** Resuming a leaf *)




(** C29: A worker whose claim was taken over can no longer write: once its task has been
    claimed again, in whatever state the system is afterwards, its batch answers that it is
    stale, its settlement and its release leave the database alone. *)
Theorem superseded_copy_claim_is_fenced now owner busy d0 d1 c1 now2 owner2 busy2 d2 d3 c2 d now' timeout limit keep missing through status error queued spend :
  copy_reachable d0 → claim_copy tenant_capacity now owner busy d0 = Ok (d1, Some c1) → copy_steps d1 d2 →
  claim_copy tenant_capacity now2 owner2 busy2 d2 = Ok (d3, Some c2) → cl_task c2 = cl_task c1 → copy_steps d3 d →
  attempt now' timeout limit keep c1 (EvRun missing) d = OutStale ∧
  settle now' c1 through status error queued spend d = (d, if through then Some BStale else None) ∧ release_cancelled_claim now' c1 d = d.
Proof using stored_sizes distinct_keys.
  intros HR H1 S1 H2 Hsame S2. pose proof (reachable_good _ HR) as G0.
  destruct (step_moves _ _ G0 (StClaim _ _ _ _ _ _ H1)) as [G1 _]. destruct (steps_good _ _ G1 S1) as [G2 M2].
  destruct (step_moves _ _ G2 (StClaim _ _ _ _ _ _ H2)) as [G3 _]. destruct (steps_good _ _ G3 S2) as [_ M].
  destruct (claim_generation _ _ _ _ _ _ _ H1) as (t1 & Ht1 & Hg1 & _). destruct (mv_tasks _ _ M2 _ _ Ht1) as (t2 & Ht2 & _ & Hle).
  destruct (claim_generation _ _ _ _ _ _ _ H2) as (t3 & Ht3 & Hg3 & t0 & Ht0 & Hlt). rewrite Hsame in *.
  rewrite Ht2 in Ht0. injection Ht0 as <-. destruct (mv_tasks _ _ M _ _ Ht3) as (t4 & Ht4 & _ & Hle4).
  assert (Hst : owned_copy c1 d = OwStale).
  { destruct (owned_copy c1 d) eqn:E; [done|..]; (destruct (owned_task c1 d) as (t5 & Ht5 & _ & Hg5 & _); [by rewrite E|]); exfalso;
    rewrite Ht4 in Ht5; injection Ht5 as <-; lia. }
  split; [|split].
  - unfold attempt_batch. by rewrite Hst.
  - unfold settle. rewrite Hst. by destruct through.
  - unfold release_cancelled_claim. rewrite Ht4. replace (tk_generation t4 =? cl_generation c1) with false by (symmetry; apply Z.eqb_neq; lia).
    by rewrite andb_false_r.
Qed.
End Reach.

(** ** A capture that carries a mail and its attachment over *)

Module CopyExample.
Fixpoint pos_text (p : positive) : string :=
  match p with xH => "" | xO p => String "0"%char (pos_text p) | xI p => String "1"%char (pos_text p) end.
Lemma pos_text_inj p : ∀ q, pos_text p = pos_text q → p = q.
Proof. induction p as [p IH|p IH|]; intros [q|q|]; simpl; try done; intros [= H]; by rewrite (IH _ H). Qed.

Definition digest (l : list string) : string := String.concat "/" l.
Definition key (f : string) (a : Z) (k : copy_kind) (p : copy_params) : string := pos_text (encode (f, a, kind_text k)).
Lemma key_inj f a k p f' a' k' p' : key f a k p = key f' a' k' p' → f = f' ∧ a = a' ∧ k = k'.
Proof. unfold key. intros H%pos_text_inj%(inj encode). injection H as -> -> Hk. by destruct k, k'. Qed.

Definition row (external type : string) (parent : option string) : copied := Copied external type parent "Inbox" None None (Some 10) (Some "tenant") 0.
Definition mail : selected := Selected (Some "old") 0 (PRow (row "m1" "EMAIL" None)) 10.
Definition attachment : selected := Selected (Some "old") 1 (PRow (row "m1::a" "EMAIL_ATTACHMENT" None)) 10.
Definition rows_of (d : copy_db) (tid : string) (t : task) : list selected := [attachment; mail].
Lemma sizes d tid t : Forall (λ r, 0 ≤ sl_bytes r) (rows_of d tid t).
Proof. by repeat constructor. Qed.

Definition source (d : copy_db) (tid : string) (t : task) : option string := Some "old".
Definition legacy (d : copy_db) (tid : string) (t : task) : list string := [].
Definition provenance (d : copy_db) (tid : string) (t : task) : bool := true.
Definition folder (t : task) (r : copied) : bool := false.

Definition snap (st : snapshot_status) (l : leaf_lease) : copy_snapshot :=
  CopySnapshot st l "job" "mailbox" false None None false None false false None [] false.
Definition params : copy_params := CopyParams "{}" (Some "old") None false false None false None [] [] [].
Definition request : copy_request := CopyRequest MailCarry "micro" "new" params None None None.
Definition db0 : copy_db :=
  CopyDb {["job" := CopyJob JRunning 1 (Some "w") "tenant" None]}
    (<["new" := snap SInProgress (LeafLease 4 (Some "w") (Some 500))]> {["old" := snap SCompleted (LeafLease 2 None None)]})
    ∅ {["mailbox" := CopyResource "tenant" None "USER_MAIL"]} ∅ ∅ ∅ ∅ (Some (CopyControl true 0 3 3 6 2)) ∅ ∅ ∅ ∅ ∅.

Definition answer {A} (m : result copy_err (copy_db * option A)) (d : copy_db) : copy_db := match m with Ok (d', _) => d' | Err _ => d end.
Definition claim_of {A} (m : result copy_err (copy_db * option A)) (dflt : A) : A := match m with Ok (_, Some c) => c | _ => dflt end.
Definition answers {A} (m : result copy_err (copy_db * option A)) : bool := match m with Ok (_, Some _) => true | _ => false end.
Lemma answers_eq {A} (m : result copy_err (copy_db * option A)) d dflt : answers m = true → m = Ok (answer m d, Some (claim_of m dflt)).
Proof. by destruct m as [[d' [c|]]|]. Qed.

Definition enqueued : result copy_err (copy_db * string) := enqueue digest key source legacy 8 0 10 request "flow" "task" db0.
Definition d1 : copy_db := (from_ok (db0, "") enqueued).1.
Definition sealed : result copy_err (copy_db * option string) * collection :=
  seal_txn 2 20 None false "{}" (Collection "new" None false (Some 1) (Some 4) None None None) d1.
Definition d2 : copy_db := answer sealed.1 d1.
Definition claim1 : result copy_err (copy_db * option copy_claim) := claim_copy 2 30 "e1" (λ _, false) d2.
Definition d3 : copy_db := answer claim1 d2.
Definition c1 : copy_claim := claim_of claim1 (CopyClaim "" "" 0).
Definition flow0 : workflow := Workflow (FlowIdent "" "" "" "" "" None 0) WFailed 0 0 (WorkTokens 0 0 0) "" None None None false.
Definition task0 : task := Task (TaskIdent "" "" "" None "" "" "" "" MailCarry false 0 0 0) params TFailed 0 None None (TaskClock 0 0 0) (TaskProgress true 0 0 0) 0 None.
Definition owned (c : copy_claim) (d : copy_db) : task * workflow := match owned_copy c d with OwOk t w => (t, w) | _ => (task0, flow0) end.

Definition t3 : task := (owned c1 d3).1.
Definition ran : result copy_err (copy_db * task_state * Z * Z) := execute rows_of provenance source folder 40 1000 10 false c1 t3 d3.
Definition d4 : copy_db := (from_ok (d3, TReady, 0, 0) ran).1.1.1.
Definition claim2 : result copy_err (copy_db * option copy_claim) := claim_copy 2 50 "e2" (λ _, false) d4.
Definition c2 : copy_claim := claim_of claim2 (CopyClaim "" "" 0).

(** A worker that dies: its claim expires and another worker takes the task over. *)
Definition late : Z := 30 + LEASE_SECONDS + 1.
Definition claim3 : result copy_err (copy_db * option copy_claim) := claim_copy 2 late "e3" (λ _, false) d3.
Definition d8 : copy_db := answer claim3 d3.
Definition c3 : copy_claim := claim_of claim3 (CopyClaim "" "" 0).

Lemma d0_start : copy_start db0.
Proof. by repeat split. Qed.
Notation step := (copy_step digest key source legacy rows_of provenance folder 8 0 2 0).
Notation steps := (copy_steps digest key source legacy rows_of provenance folder 8 0 2 0).

Lemma pair_ok {A B} (m : result copy_err (A * B)) x : is_ok m = true → m = Ok ((from_ok x m).1, (from_ok x m).2).
Proof. by destruct m as [[? ?]|]. Qed.
Lemma sealed_ok (m : result copy_err (copy_db * option string) * collection) d : answers m.1 = true → m = (Ok (answer m.1 d, Some (claim_of m.1 "")), m.2).
Proof. by destruct m as [[[? [?|]]|] ?]. Qed.

Lemma step_enqueue : step db0 d1.
Proof.
  apply (StEnqueue _ _ _ _ _ _ _ _ _ _ _ _ 10 request "flow" "task" d1 (from_ok (db0, "") enqueued).2); [done|done|].
  apply (pair_ok enqueued (db0, "")). by vm_compute.
Qed.
Lemma step_seal : step d1 d2.
Proof.
  apply (StSeal _ _ _ _ _ _ _ _ _ _ _ _ 20 None false "{}" (Collection "new" None false (Some 1) (Some 4) None None None) sealed.2 d2 (Some (claim_of sealed.1 ""))).
  apply (sealed_ok sealed d1). by vm_compute.
Qed.
Lemma claimed1 : claim1 = Ok (d3, Some c1).
Proof. apply answers_eq. by vm_compute. Qed.
Lemma d2_reachable : copy_reachable digest key source legacy rows_of provenance folder 8 0 2 0 d2.
Proof. exists db0. split; [exact d0_start|]. eapply rtc_l; [exact step_enqueue|]. apply rtc_once. exact step_seal. Qed.

End CopyExample.


Lemma superseded_copy_claim_is_fenced_witness :
  settle CopyExample.late CopyExample.c1 true None (TaskError "copy_lock_timeout" None) 0 true CopyExample.d8 = (CopyExample.d8, Some BStale).
Proof.
  apply (superseded_copy_claim_is_fenced CopyExample.digest CopyExample.key CopyExample.source CopyExample.legacy CopyExample.rows_of CopyExample.provenance
    CopyExample.folder 8 0 2 0 CopyExample.sizes CopyExample.key_inj 30 "e1" (λ _, false) CopyExample.d2 CopyExample.d3 CopyExample.c1
    CopyExample.late "e3" (λ _, false) CopyExample.d3 CopyExample.d8 CopyExample.c3 CopyExample.d8 CopyExample.late 1000 10 false None true None _ 0 true).
  - exact CopyExample.d2_reachable.
  - exact CopyExample.claimed1.
  - apply rtc_refl.
  - apply CopyExample.answers_eq. by vm_compute.
  - by vm_compute.
  - apply rtc_refl.
Defined.

(** An execution that the database cancelled is not counted when the next try of the same
    claim is deferred before it executes. *)
Example cancelled_execution_is_not_counted :
  let d := (run_batch CopyExample.rows_of CopyExample.provenance CopyExample.source CopyExample.folder 40 1000 10 false CopyExample.c1 0 true
    [EvFail PhExecution (Some "57014"); EvRun (Some "copy_tenant_capacity")] CopyExample.d3).1 in
  (λ t, (tk_attempts t, te_failures <$> tk_error t)) <$> cd_tasks CopyExample.d3 !! "task" = Some (1, None) ∧
  (λ t, (tk_attempts t, te_failures <$> tk_error t)) <$> cd_tasks d !! "task" = Some (0, Some None).
Proof. split; by vm_compute. Qed.
