(* ===== verification/CopySeal.v ===== *)
(** * Copy work: a leaf is sealed once

    The seal of a leaf hands it over in a transaction whose acknowledgement may be lost; the
    capture tries again, and recognises by its receipt that the leaf is sealed already. *)

From S2P Require Import Prelude Reconciler Provider.
From S2P Require Import CopyWork CopyBatch CopyFlow CopySafety CopyReach.
Local Open Scope Z_scope.

(** At most one workflow per leaf: the key of the leaf is unique. *)
Definition leaf_unique (d : copy_db) : Prop :=
  ∀ f1 f2 w1 w2, cd_flows d !! f1 = Some w1 → cd_flows d !! f2 = Some w2 → fi_leaf (wf_ident w1) = fi_leaf (wf_ident w2) → f1 = f2.

Lemma first_by_id_cons {A} (x : string * A) l : is_Some (first_by_id (x :: l)).
Proof. unfold first_by_id. simpl. destruct (foldr _ None l) as [b|]; [destruct (ends_before _ _)|]; eauto. Qed.

Lemma find_flow_unique key d fid w :
  leaf_unique d → cd_flows d !! fid = Some w → fi_leaf (wf_ident w) = key → find_flow key d = Some (fid, w).
Proof.
  intros Hu Hw Hk. unfold find_flow. set (l := filter _ _).
  assert (Hin : (fid, w) ∈ l) by (apply list_elem_of_filter; split; [done|by apply elem_of_map_to_list]).
  destruct (first_by_id l) as [[f' w']|] eqn:E.
  - apply first_by_id_elem, list_elem_of_filter in E as [E1 E2]. apply elem_of_map_to_list in E2. cbn [fst snd] in *.
    assert (f' = fid) as -> by (eapply Hu; [exact E2|exact Hw|congruence]). congruence.
  - destruct l as [|x l]; [by apply not_elem_of_nil in Hin|]. destruct (first_by_id_cons x l) as [y Hy]. by rewrite Hy in E.
Qed.

Section Sealed.
Context (cap now : Z) (cont : string).

Lemma align_tables fid d :
  let d' := align_ready_workflow cap fid d in cd_jobs d' = cd_jobs d ∧ cd_snaps d' = cd_snaps d ∧ cd_parts d' = cd_parts d.
Proof using.
  simpl. unfold align_ready_workflow. destruct (cd_flows d !! fid) as [w|]; [|done]. destruct (bool_decide _); [|done].
  unfold ensure_copy_control. by destruct (cd_control d).
Qed.

(** What the writes of the seal leave in the tables the seal reads. *)
Definition sealed_flow (w : workflow) (snap : copy_snapshot) (job : copy_job) (part : option copy_partition) : workflow :=
  let token := ll_token (leaf_of_parts snap part) + 1 in
  bump_flow (set_flow_lease None None (set_flow_state WWaiting (set_flow_continuation cont (set_flow_tokens
    (WorkTokens token (match part with Some _ => ll_token (cs_lease snap) | None => token end) (cj_token job)) w)))).

Lemma seal_writes_tables fid w snap job part d :
  let d' := seal_writes cap now fid w snap job part cont d in
  let leaf := LeafLease (ll_token (leaf_of_parts snap part) + 1) None None in
  cd_flows d' = <[fid := sealed_flow w snap job part]> (cd_flows d) ∧ cd_jobs d' = cd_jobs d ∧
  cd_parts d' = cd_parts (write_copy_leaf (wf_ident w) part leaf d) ∧
  cd_snaps d' = alter (λ s, set_copy_phase (Some fid) "QUEUED" (cs_required_failed s) (cs_degraded s) s) (fi_snapshot (wf_ident w))
    (cd_snaps (write_copy_leaf (wf_ident w) part leaf d)).
Proof using.
  intros d' leaf. subst d'. unfold seal_writes. cbv zeta. fold leaf. set (d1 := write_copy_leaf _ _ _ d).
  destruct (write_leaf_work (wf_ident w) part leaf d) as (_ & F1 & _). fold d1 in F1.
  assert (J1 : cd_jobs d1 = cd_jobs d) by (unfold d1, write_copy_leaf; by destruct (fi_partition _), part). clearbody d1.
  match goal with |- context [align_ready_workflow cap fid ?x] => destruct (align_work cap fid x) as (_ & F2 & _); destruct (align_tables fid x) as (J2 & S2 & P2);
    set (d2 := align_ready_workflow cap fid x) in *; clearbody d2 end.
  simpl in *. rewrite F2, J2, S2, P2, F1, J1, insert_insert_eq. done.
Qed.

Lemma seal_writes_unique fid w snap job part d :
  leaf_unique d → cd_flows d !! fid = Some w → leaf_unique (seal_writes cap now fid w snap job part cont d).
Proof using.
  intros Hu Hw f1 f2 w1 w2. destruct (seal_writes_tables fid w snap job part d) as (-> & _).
  rewrite !lookup_insert_Some. intros [[<- <-]|[_ H1]] [[<- <-]|[_ H2]] He; [done| | |by eapply Hu].
  - eapply Hu; [exact Hw|exact H2|exact He].
  - eapply Hu; [exact H1|exact Hw|exact He].
Qed.

(** The parents as the seal leaves them. *)
Lemma sealed_lock fid w snap job part d :
  lock_parents (wf_ident w) d = (Some job, Some snap, part) →
  ∃ snap' part', lock_parents (wf_ident w) (seal_writes cap now fid w snap job part cont d) = (Some job, Some snap', part') ∧
    cs_status snap' = cs_status snap ∧ cs_cancelled snap' = cs_cancelled snap ∧ (cp_status <$> part') = (cp_status <$> part) ∧
    parent_identity (wf_ident w) job snap' part' =
      sealed_parents (SealReceipt fid 0 0 (parent_identity (wf_ident w) job snap part) "").
Proof using.
  unfold lock_parents. intros [= Hj Hs Hp]. destruct (seal_writes_tables fid w snap job part d) as (_ & -> & -> & ->). rewrite Hj.
  unfold write_copy_leaf. destruct (fi_partition (wf_ident w)) as [p|] eqn:Ep; simpl in Hp.
  - destruct part as [part|]; simpl; rewrite ?lookup_alter_eq, ?Hs, ?Hp; simpl; (do 2 eexists; split; [done|]; repeat (split; [done|])); unfold parent_identity; simpl; by rewrite ?Ep.
  - subst part. simpl. rewrite !lookup_alter_eq, Hs. simpl. do 2 eexists; split; [done|]; by repeat (split; [done|]).
Qed.

(** The leaf may be sealed by this capture. *)
Record sealable (co : collection) (d : copy_db) (fid : string) (w : workflow) (job : copy_job) (snap : copy_snapshot) (part : option copy_partition) : Prop := {
  sa_flow : find_flow (leaf_key (co_snapshot co) (co_partition co)) d = Some (fid, w);
  sa_lock : lock_parents (wf_ident w) d = (Some job, Some snap, part);
  sa_part : bool_decide (is_Some (co_partition co)) && negb (bool_decide (is_Some part)) = false;
  sa_open : negb (job_open (cj_status job)) || negb (bool_decide (cs_status snap = SInProgress)) || cs_cancelled snap ||
    match part with Some p => negb (bool_decide (cp_status p = "IN_PROGRESS")) | None => false end = false;
  sa_draining : negb (bool_decide (wf_state w = WDraining)) || captured_moved co job snap part ||
    negb (ll_token (leaf_of_parts snap part) =? wt_parent (wf_tokens w)) = false;
}.

Definition receipt_of (fid : string) (w : workflow) (job : copy_job) (snap : copy_snapshot) (part : option copy_partition) : seal_receipt :=
  SealReceipt fid (wf_generation w) (wf_attempt w) (parent_identity (wf_ident w) job snap part) cont.

(** The first try of the seal. *)
Lemma seal_first own co d :
  co_receipt co = None →
  (∃ e, seal_txn cap now own false cont co d = (Err e, co)) ∨ seal_txn cap now own false cont co d = (Ok (d, None), co) ∨
  ∃ fid w job snap part, sealable co d fid w job snap part ∧
    seal_txn cap now own false cont co d = (Ok (seal_writes cap now fid w snap job part cont d, Some fid), set_receipt (receipt_of fid w job snap part) co).
Proof using.
  intros Hr. unfold seal_txn. rewrite Hr. destruct (find_flow _ d) as [[fid w]|] eqn:Hf; [|by right; left].
  destruct (lock_parents (wf_ident w) d) as [[[job|] [snap|]] part] eqn:Hl; try (left; by eexists).
  destruct (bool_decide (is_Some (co_partition co)) && negb (bool_decide (is_Some part))) eqn:Hp; [left; by eexists|].
  destruct (_ && match own with Some _ => _ | None => _ end).
  { destruct own as [c|]; [|left; by eexists]. destruct (verify_resume c d); [by right; left|left; by eexists]. }
  destruct (negb (job_open (cj_status job)) || _ || _ || _) eqn:Ho; [left; by eexists|]. cbv zeta.
  destruct (negb (bool_decide (wf_state w = WDraining)) || _ || _) eqn:Hd; [left; by eexists|].
  right; right. by exists fid, w, job, snap, part.
Qed.

Lemma not_receipt fid w job snap part job' snap' part' : matches_seal_receipt (receipt_of fid w job snap part) fid w job' snap' part' = false.
Proof using.
  unfold matches_seal_receipt, receipt_of. simpl. replace (wf_generation w =? wf_generation w + 1) with false by (symmetry; apply Z.eqb_neq; lia).
  by rewrite andb_false_r.
Qed.

(** A later try, when no earlier one was committed. *)
Lemma seal_again own ro co d fid w job snap part :
  sealable co d fid w job snap part →
  seal_txn cap now own ro cont (set_receipt (receipt_of fid w job snap part) co) d =
    (if ro then Ok (d, None) else Ok (seal_writes cap now fid w snap job part cont d, Some fid), set_receipt (receipt_of fid w job snap part) co).
Proof using.
  intros [Hf Hl Hp Ho Hd]. unfold seal_txn. cbn [set_receipt co_snapshot co_partition co_receipt]. rewrite Hf. cbv iota beta. rewrite Hl. cbv iota beta. rewrite Hp, (bool_decide_true (is_Some (Some _))) by eauto.
  cbn [negb]. rewrite !andb_false_l, Ho. cbv zeta. rewrite not_receipt.
  rewrite !bool_decide_true, !Z.eqb_refl by done. simpl.
  assert (Hd' : negb (bool_decide (wf_state w = WDraining)) || captured_moved (set_receipt (receipt_of fid w job snap part) co) job snap part ||
    negb (ll_token (leaf_of_parts snap part) =? wt_parent (wf_tokens w)) = false) by done. rewrite Hd'. by destruct ro.
Qed.

(** A later try, when an earlier one was committed: the receipt shows it. *)
Lemma seal_seen own ro co d fid w job snap part :
  leaf_unique d → sealable co d fid w job snap part →
  let d' := seal_writes cap now fid w snap job part cont d in
  seal_txn cap now own ro cont (set_receipt (receipt_of fid w job snap part) co) d' = (Ok (d', Some fid), set_receipt (receipt_of fid w job snap part) co).
Proof using.
  intros Hu [Hf Hl Hp Ho Hd] d'. pose proof (find_flow_lookup _ _ _ _ Hf) as [Hw Hk].
  destruct (sealed_lock fid w snap job part d Hl) as (snap' & part' & Hl' & Es & Ec & Ep & Ei). fold d' in Hl'.
  set (w' := sealed_flow w snap job part). assert (Hw' : cd_flows d' !! fid = Some w').
  { unfold d'. destruct (seal_writes_tables fid w snap job part d) as (-> & _). apply lookup_insert_eq. }
  assert (Hf' : find_flow (leaf_key (co_snapshot co) (co_partition co)) d' = Some (fid, w')) by (apply find_flow_unique; [by apply seal_writes_unique|done|done]).
  assert (Hsome : bool_decide (is_Some part') = bool_decide (is_Some part)).
  { apply bool_decide_ext. destruct part, part'; simpl in Ep; try done; split; eauto. }
  unfold seal_txn. cbn [set_receipt co_snapshot co_partition co_receipt]. rewrite Hf'. cbv iota beta. change (wf_ident w') with (wf_ident w). rewrite Hl'. cbv iota beta.
  rewrite Hsome, Hp, (bool_decide_true (is_Some (Some _))) by eauto. cbn [negb]. rewrite !andb_false_l.
  assert (Ho' : negb (job_open (cj_status job)) || negb (bool_decide (cs_status snap' = SInProgress)) || cs_cancelled snap' ||
    match part' with Some p => negb (bool_decide (cp_status p = "IN_PROGRESS")) | None => false end = false).
  { rewrite Es, Ec. destruct part, part'; simpl in Ep; try done. injection Ep as ->. done. }
  rewrite Ho'. cbv zeta. clear Ho'.
  assert (Hm : matches_seal_receipt (receipt_of fid w job snap part) fid w' job snap' part' = true).
  { unfold matches_seal_receipt. change (wf_ident w') with (wf_ident w). rewrite Ei. simpl.
    rewrite !bool_decide_true, !Z.eqb_refl by done. simpl. unfold leaf_of_parts. destruct part as [p|]; simpl; rewrite ?Z.eqb_refl; done. }
  by rewrite Hm.
Qed.

(** The tries after the first one that got to the writes. *)
Lemma tries_after own ro co d fid w job snap part :
  leaf_unique d → sealable co d fid w job snap part →
  let r := set_receipt (receipt_of fid w job snap part) co in
  let d' := seal_writes cap now fid w snap job part cont d in
  ∀ tries evs dc, dc = d ∨ dc = d' → ∃ de a, run_copy_transaction (λ d co, seal_txn cap now own ro cont co d) tries evs r dc = (de, r, a) ∧
    (de = d ∨ de = d') ∧ match a with Ok (Some f) => f = fid ∧ de = d' | Ok None => de = d | Err _ => True end.
Proof using.
  intros Hu Hs r d'. induction tries as [|tries IH]; intros evs dc Hdc; [by do 2 eexists|]. destruct evs as [|ev evs]; [by do 2 eexists|].
  assert (Ht : seal_txn cap now own ro cont r dc = (Ok (d', Some fid), r) ∨ (dc = d ∧ seal_txn cap now own ro cont r dc = (Ok (d, None), r))).
  { destruct Hdc as [-> | ->]; [unfold r; rewrite (seal_again _ _ _ _ _ _ _ _ _ Hs)|by left; apply (seal_seen _ _ _ _ _ _ _ _ _ Hu Hs)]. destruct ro; [by right|by left]. }
  cbn [run_copy_transaction]. destruct Ht as [->|[-> ->]]; (destruct ev; [do 2 eexists; split; [done|]; split; [|done]|apply IH|by apply IH|do 2 eexists; split; [done|]; by split]); auto.
Qed.

Lemma tries_first own co d :
  leaf_unique d → co_receipt co = None → ∀ tries evs, ∃ de ce a,
  run_copy_transaction (λ d co, seal_txn cap now own false cont co d) tries evs co d = (de, ce, a) ∧
  ((de = d ∧ ce = co ∧ match a with Ok (Some _) => False | _ => True end) ∨
   ∃ fid w job snap part, sealable co d fid w job snap part ∧ ce = set_receipt (receipt_of fid w job snap part) co ∧
    (de = d ∨ de = seal_writes cap now fid w snap job part cont d) ∧
    match a with Ok (Some f) => f = fid ∧ de = seal_writes cap now fid w snap job part cont d | Ok None => de = d | Err _ => True end).
Proof using.
  intros Hu Hr. induction tries as [|tries IH]; intros evs; [do 3 eexists; split; [done|by left]|]. destruct evs as [|ev evs]; [do 3 eexists; split; [done|by left]|].
  cbn [run_copy_transaction]. destruct (seal_first own co d Hr) as [[e ->]|[-> |(fid & w & job & snap & part & Hs & ->)]].
  - do 3 eexists; split; [done|by left].
  - destruct ev; [do 3 eexists; split; [done|by left]|apply IH|apply IH|do 3 eexists; split; [done|by left]].
  - set (r := set_receipt _ co). set (d' := seal_writes _ _ _ _ _ _ _ _ d).
    assert (Hrest : ∀ dc, dc = d ∨ dc = d' → ∃ de a, run_copy_transaction (λ d co, seal_txn cap now own false cont co d) tries evs r dc = (de, r, a) ∧
      (de = d ∨ de = d') ∧ match a with Ok (Some f) => f = fid ∧ de = d' | Ok None => de = d | Err _ => True end) by (intros; by apply tries_after).
    destruct ev.
    + do 3 eexists. split; [done|]. right. exists fid, w, job, snap, part. auto.
    + destruct (Hrest d') as (de & a & -> & H1 & H2); [by right|]. do 3 eexists. split; [done|]. right. exists fid, w, job, snap, part. auto.
    + destruct (Hrest d) as (de & a & -> & H1 & H2); [by left|]. do 3 eexists. split; [done|]. right. exists fid, w, job, snap, part. auto.
    + do 3 eexists. split; [done|]. right. exists fid, w, job, snap, part. auto.
Qed.

(** C30: A leaf is sealed exactly once, whatever becomes of the tries of its seal and of their
    acknowledgements: the database afterwards is the one before or the one that a single
    execution of the seal's writes leaves, a capture that is told the workflow has sealed
    its leaf by these writes, and one that is told to go on has left nothing behind. *)
Theorem leaf_is_sealed_once own evs evs_check co d :
  leaf_unique d → co_receipt co = None → co_result co = None →
  let '(d', _, r) := seal_current_copy cap now own cont evs evs_check co d in
  (d' = d ∨ ∃ fid w job snap part, sealable co d fid w job snap part ∧ d' = seal_writes cap now fid w snap job part cont d) ∧
  match r with
  | Ok (Some fid) => ∃ w job snap part, sealable co d fid w job snap part ∧ d' = seal_writes cap now fid w snap job part cont d
  | Ok None => d' = d
  | Err _ => True
  end.
Proof using.
  intros Hu Hr Hres. unfold seal_current_copy. rewrite Hr, Hres. destruct (co_error co); [by split; [left|]|]. destruct (_ <? _); [by split; [left|]|].
  destruct (tries_first own co d Hu Hr 3 evs) as (de & ce & a & -> & [(-> & -> & Ha)|(fid & w & job & snap & part & Hs & -> & Hde & Ha)]).
  - destruct a as [[f|]|[e conn]]; [done|by split; [left|]|]. rewrite Hr. by split; [left|].
  - destruct a as [[f|]|[e conn]].
    + destruct Ha as [-> ->]. split; [right; by exists fid, w, job, snap, part|by exists w, job, snap, part].
    + subst de. by split; [left|].
    + assert (Hany : de = d ∨ ∃ fid w job snap part, sealable co d fid w job snap part ∧ de = seal_writes cap now fid w snap job part cont d)
        by (destruct Hde as [-> | ->]; [by left|right; by exists fid, w, job, snap, part]).
      destruct (negb _ || negb conn); [done|].
      destruct (tries_after own true co d fid w job snap part Hu Hs 3 evs_check de Hde) as (df & b & -> & Hdf & Hb).
      destruct b as [[f|]|[e' conn']].
      * destruct Hb as [-> ->]. split; [right; by exists fid, w, job, snap, part|by exists w, job, snap, part].
      * subst df. by split; [left|].
      * split; [|done]. destruct Hdf as [-> | ->]; [by left|right; by exists fid, w, job, snap, part].
Qed.
End Sealed.

Lemma distinct_leaves d : bool_decide (NoDup (map (λ kv, fi_leaf (wf_ident kv.2)) (map_to_list (cd_flows d)))) = true → leaf_unique d.
Proof.
  intros Hn%bool_decide_eq_true f1 f2 w1 w2 H1%elem_of_map_to_list H2%elem_of_map_to_list He.
  apply list_elem_of_lookup in H1 as [i Hi], H2 as [j Hj].
  assert (i = j) as -> by (eapply (NoDup_lookup _ i j); [exact Hn|by rewrite list_lookup_fmap, Hi|rewrite list_lookup_fmap, Hj; simpl; by rewrite He]).
  congruence.
Qed.

Lemma leaf_is_sealed_once_witness :
  let co := Collection "new" None false (Some 1) (Some 4) None None None in
  let '(d', _, r) := seal_current_copy 2 20 None "{}" [AckLost; NotCommitted; Committed] [] co CopyExample.d1 in
  (d' = CopyExample.d1 ∨ ∃ fid w job snap part, sealable co CopyExample.d1 fid w job snap part ∧ d' = seal_writes 2 20 fid w snap job part "{}" CopyExample.d1) ∧
  match r with
  | Ok (Some fid) => ∃ w job snap part, sealable co CopyExample.d1 fid w job snap part ∧ d' = seal_writes 2 20 fid w snap job part "{}" CopyExample.d1
  | Ok None => d' = CopyExample.d1
  | Err _ => True
  end.
Proof.
  apply (leaf_is_sealed_once 2 20 "{}" None [AckLost; NotCommitted; Committed] [] (Collection "new" None false (Some 1) (Some 4) None None None) CopyExample.d1).
  - apply distinct_leaves. by vm_compute.
  - done.
  - done.
Defined.

(** Two acknowledgements are lost, and the leaf is sealed. *)
Example sealed_after_lost_acks :
  (seal_current_copy 2 20 None "{}" [AckLost; AckLost; Committed] [] (Collection "new" None false (Some 1) (Some 4) None None None) CopyExample.d1).2 = Ok (Some "flow").
Proof. by vm_compute. Qed.
