(* ===== verification/Text.v ===== *)
(** * Python's text operations

    What the access-control code uses of Python's standard library on text: trimming,
    splitting, lower case, the decoding of a query string ([urllib.parse.parse_qs]) and
    [uuid.UUID], which accepts more spellings of an identifier than the canonical one.

    A text is the string of its bytes in UTF-8, or of its characters in Latin-1 for headers.
    What the code compares a text with is ASCII throughout, and no other character turns
    into ASCII letters used there by lower casing, so bytes are enough. Digits and spaces
    that Python's [int] takes from other scripts are not modelled. *)

From S2P Require Import Prelude.
From Stdlib Require Import Ascii.
Local Open Scope string_scope.
Local Open Scope Z_scope.

Definition code (c : ascii) : Z := Z.of_N (N_of_ascii c).
Definition char (z : Z) : ascii := ascii_of_N (Z.to_N z).

Fixpoint string_map (f : ascii → ascii) (s : string) : string :=
  match s with EmptyString => "" | String c s => String (f c) (string_map f s) end.
Fixpoint string_all (f : ascii → bool) (s : string) : bool :=
  match s with EmptyString => true | String c s => f c && string_all f s end.

(** [s.lower()]. *)
Definition lower_char (c : ascii) : ascii := if (65 <=? code c) && (code c <=? 90) then char (code c + 32) else c.
Definition lower_text : string → string := string_map lower_char.
Definition upper_char (c : ascii) : ascii := if (97 <=? code c) && (code c <=? 122) then char (code c - 32) else c.
Definition upper_text : string → string := string_map upper_char.

Fixpoint text_of (l : list ascii) : string := match l with [] => "" | c :: l => String c (text_of l) end.
Fixpoint chars_of (s : string) : list ascii := match s with EmptyString => [] | String c s => c :: chars_of s end.

Lemma text_of_chars s : text_of (chars_of s) = s.
Proof. induction s; cbn; congruence. Qed.
Lemma chars_of_text l : chars_of (text_of l) = l.
Proof. induction l; cbn; congruence. Qed.
Lemma chars_of_app s t : chars_of (s +:+ t) = (chars_of s ++ chars_of t)%list.
Proof. induction s as [|c s IH]; [done|]. change (c :: chars_of (s +:+ t) = c :: (chars_of s ++ chars_of t)%list). by rewrite IH. Qed.
Lemma chars_of_inj s t : chars_of s = chars_of t → s = t.
Proof. intros H. by rewrite <- (text_of_chars s), H, text_of_chars. Qed.

(** [s.strip()] and its variants, by the set of characters that are cut. *)
Fixpoint drop_chars (p : ascii → bool) (l : list ascii) : list ascii :=
  match l with c :: r => if p c then drop_chars p r else l | [] => [] end.
Definition strip_by (p : ascii → bool) (s : string) : string :=
  text_of (rev (drop_chars p (rev (drop_chars p (chars_of s))))).
Definition rstrip_by (p : ascii → bool) (s : string) : string := text_of (rev (drop_chars p (rev (chars_of s)))).

(** The spaces of ASCII, and with them those of Latin-1. *)
Definition ascii_space (c : ascii) : bool :=
  let z := code c in ((9 <=? z) && (z <=? 13)) || ((28 <=? z) && (z <=? 32)).
Definition c_space (c : ascii) : bool := let z := code c in ((9 <=? z) && (z <=? 13)) || (z =? 32).
Definition latin1_space (c : ascii) : bool := ascii_space c || (code c =? 133) || (code c =? 160).

(** [s.split(c)]. *)
Fixpoint split_text (c : ascii) (s : string) : list string :=
  match s with
  | EmptyString => [""]
  | String d s => if Ascii.eqb d c then "" :: split_text c s
      else match split_text c s with h :: t => String d h :: t | [] => [String d ""] end
  end.

(** [s.split(c, 1)] when [c] occurs. *)
Fixpoint partition_text (c : ascii) (s : string) : option (string * string) :=
  match s with
  | EmptyString => None
  | String d s => if Ascii.eqb d c then Some ("", s)
      else match partition_text c s with Some (h, t) => Some (String d h, t) | None => None end
  end.

Fixpoint starts_text (p s : string) : bool :=
  match p, s with
  | EmptyString, _ => true
  | String c p, String d s => Ascii.eqb c d && starts_text p s
  | _, _ => false
  end.
(** [s[n:]] and [s[:n]]. *)
Definition skip_text (n : nat) (s : string) : string := text_of (drop n (chars_of s)).
Definition take_text (n : nat) (s : string) : string := text_of (take n (chars_of s)).

(** [s.replace(p, "")], from left to right without overlaps; [fuel] is the length of [s]. *)
Fixpoint remove_sub (fuel : nat) (p s : string) : string :=
  match fuel, s with
  | S fuel, String c r =>
    if starts_text p s then remove_sub fuel p (skip_text (String.length p) s) else String c (remove_sub fuel p r)
  | _, _ => s
  end.
Definition remove_text (p s : string) : string := remove_sub (String.length s) p s.

(** ** Hexadecimal digits *)
Definition hex_val (c : ascii) : option Z :=
  let z := code c in
  if (48 <=? z) && (z <=? 57) then Some (z - 48)
  else if (97 <=? z) && (z <=? 102) then Some (z - 87)
  else if (65 <=? z) && (z <=? 70) then Some (z - 55)
  else None.
Definition hex_char (d : Z) : ascii := if d <? 10 then char (48 + d) else char (87 + d).
Definition is_hex (c : ascii) : bool := bool_decide (is_Some (hex_val c)).

(** ** [urllib.parse] *)

(** [unquote]: a percent sign with two hexadecimal digits is a byte. *)
Fixpoint unquote_chars (l : list ascii) : list ascii :=
  match l with
  | c :: ((h :: k :: r) as t) =>
    if Ascii.eqb c "%" then
      match hex_val h, hex_val k with
      | Some a, Some b => char (16 * a + b) :: unquote_chars r
      | _, _ => c :: unquote_chars t
      end
    else c :: unquote_chars t
  | _ => l
  end.
Definition unquote (s : string) : string := text_of (unquote_chars (chars_of s)).
Definition plus_to_space : string → string := string_map (λ c, if Ascii.eqb c "+" then " "%char else c).

(** The pairs behind [parse_qs], in order. *)
Definition parse_pair (nv : string) : option (string * string) :=
  match partition_text "=" nv with
  | Some (n, v) => if bool_decide (v = "") then None else Some (unquote (plus_to_space n), unquote (plus_to_space v))
  | None => None
  end.
Definition parse_qsl (qs : string) : list (string * string) := omap parse_pair (split_text "&" qs).

(** ** [uuid.UUID] *)

(** The digits of [int(s, 16)]: single underscores may separate them. *)
Fixpoint int_digits (acc : Z) (after_digit : bool) (l : list ascii) : option Z :=
  match l with
  | [] => if after_digit then Some acc else None
  | c :: l =>
    if Ascii.eqb c "_" then (if after_digit then int_digits acc false l else None)
    else d ← hex_val c; int_digits (16 * acc + d) true l
  end.
(** [int(s, 16)] of a text without a minus sign. *)
Definition int16 (s : string) : option Z :=
  let l := chars_of (strip_by c_space s) in
  let l := match l with c :: r => if Ascii.eqb c "+" then r else l | [] => l end in
  match l with
  | z :: x :: r =>
    if Ascii.eqb z "0" && Ascii.eqb (lower_char x) "x"
    then int_digits 0 false match r with c :: r' => if Ascii.eqb c "_" then r' else r | [] => r end
    else int_digits 0 false l
  | _ => int_digits 0 false l
  end.

Definition uuid_hex (s : string) : string :=
  remove_text "-" (strip_by (λ c, Ascii.eqb c "{" || Ascii.eqb c "}") (remove_text "uuid:" (remove_text "urn:" s))).
(** [uuid.UUID(s)], by its number. *)
Definition uuid_parse (s : string) : option Z :=
  let h := uuid_hex s in if Nat.eqb (String.length h) 32 then int16 h else None.

(** [str(uuid)]. *)
Fixpoint hex_digits (n : nat) (v : Z) : list ascii :=
  match n with O => [] | S n => (hex_digits n (v / 16) ++ [hex_char (v mod 16)])%list end.
Definition dashed (l : list ascii) : list ascii :=
  (take 8 l ++ "-"%char :: take 4 (drop 8 l) ++ "-"%char :: take 4 (drop 12 l) ++ "-"%char :: take 4 (drop 16 l) ++ "-"%char :: drop 20 l)%list.
Definition uuid_str (v : Z) : string := text_of (dashed (hex_digits 32 v)).
Definition canonical_uuid (s : string) : option string := uuid_str <$> uuid_parse s.

(** ** Facts *)

Lemma code_char z : 0 <= z < 256 → code (char z) = z.
Proof. intros. unfold code, char. rewrite N_ascii_embedding by lia. lia. Qed.

(** A property of all characters, decided one by one. *)
Definition all_chars (p : ascii → bool) : bool := forallb (λ n, p (char (Z.of_nat n))) (seq 0 256).
Lemma all_chars_spec (p : ascii → bool) c : all_chars p = true → p c = true.
Proof.
  intros H. unfold all_chars in H. rewrite forallb_forall in H.
  assert (c = char (Z.of_nat (N.to_nat (N_of_ascii c)))) as -> by (unfold char; replace (Z.to_N _) with (N_of_ascii c) by lia; by rewrite ascii_N_embedding).
  apply H, in_seq. pose proof (N_ascii_bounded c). lia.
Qed.

Lemma hex_char_val d : 0 <= d < 16 → hex_val (hex_char d) = Some d.
Proof.
  intros H. assert (H' : Forall (λ d, hex_val (hex_char d) = Some d) (seqZ 0 16)).
  { change (seqZ 0 16) with [0;1;2;3;4;5;6;7;8;9;10;11;12;13;14;15]. repeat constructor. }
  rewrite Forall_forall in H'. apply H', elem_of_seqZ. lia.
Qed.

Lemma length_hex_digits n v : length (hex_digits n v) = n.
Proof. revert v. induction n as [|n IH]; intros v; cbn; [done|]. rewrite length_app, IH. cbn. lia. Qed.

Lemma is_hex_hex_char d : 0 <= d < 16 → is_hex (hex_char d) = true.
Proof. intros. unfold is_hex. rewrite hex_char_val by done. apply bool_decide_eq_true_2. eauto. Qed.

Lemma hex_digits_hex n v : Forall (λ c, is_hex c = true) (hex_digits n v).
Proof.
  revert v. induction n as [|n IH]; intros v; cbn; [constructor|].
  apply Forall_app. split; [apply IH|]. repeat constructor. by apply is_hex_hex_char, Z.mod_pos_bound.
Qed.

(** No hexadecimal digit is one of the other characters that matter. *)
Lemma hex_not (c d : ascii) : is_hex c = true → is_hex d = false → Ascii.eqb c d = false.
Proof. intros Hc Hd. destruct (Ascii.eqb_spec c d) as [->|]; [congruence|done]. Qed.

Lemma int_digits_app acc b l c :
  Forall (λ c, is_hex c = true) l → is_hex c = true →
  int_digits acc b (l ++ [c]) = (v ← match l with [] => Some acc | _ => int_digits acc b l end; d ← hex_val c; Some (16 * v + d)).
Proof.
  intros Hl Hc. revert acc b. induction Hl as [|x l Hx Hl IH]; intros acc b; cbn.
  - rewrite (hex_not c "_") by done. by destruct (hex_val c).
  - rewrite (hex_not x "_") by done. destruct (hex_val x) as [d|] eqn:E; [|done]. cbn. rewrite IH.
    destruct l; cbn; [by destruct (hex_val c)|done].
Qed.

Lemma int_hex_digits n v acc b :
  0 <= v < 16 ^ Z.of_nat n → (n ≠ 0)%nat → int_digits acc b (hex_digits n v) = Some (acc * 16 ^ Z.of_nat n + v).
Proof.
  revert v. induction n as [|n IH]; intros v Hv Hn; [done|]. cbn [hex_digits].
  rewrite int_digits_app; [|apply hex_digits_hex|by apply is_hex_hex_char, Z.mod_pos_bound].
  rewrite hex_char_val by (by apply Z.mod_pos_bound). pose proof (Z.div_mod v 16 ltac:(lia)). pose proof (Z.mod_pos_bound v 16 ltac:(lia)). rewrite Nat2Z.inj_succ, Z.pow_succ_r in * by lia.
  destruct (decide (n = 0%nat)) as [->|Hn'].
  - cbn in *. f_equal. lia.
  - assert (0 <= v / 16 < 16 ^ Z.of_nat n) by (split; [apply Z.div_pos; lia|apply Z.div_lt_upper_bound; lia]).
    destruct (hex_digits n (v / 16)) eqn:E; [apply (f_equal length) in E; rewrite length_hex_digits in E; cbn in E; lia|].
    rewrite <- E, IH by done. cbn. f_equal. lia.
Qed.

Lemma drop_chars_id p l : Forall (λ c, p c = false) l → drop_chars p l = l.
Proof. destruct 1 as [|c l Hc]; cbn; [done|]. by rewrite Hc. Qed.
Lemma strip_by_id p s : Forall (λ c, p c = false) (chars_of s) → strip_by p s = s.
Proof.
  intros H. unfold strip_by. rewrite (drop_chars_id p (chars_of s)) by done.
  rewrite drop_chars_id by (by apply List.Forall_rev).
  by rewrite rev_involutive, text_of_chars.
Qed.

Lemma remove_none c p s : Forall (λ d, Ascii.eqb c d = false) (chars_of s) → remove_text (String c p) s = s.
Proof.
  unfold remove_text. generalize (String.length s) as fuel. intros fuel. revert s.
  induction fuel as [|fuel IH]; intros [|d s]; cbn; try done. inversion 1 as [|?? Hd Hs]; subst. rewrite Hd. cbn. by rewrite IH.
Qed.

Lemma remove_char c s : remove_text (String c "") s = text_of (filter (λ d, Ascii.eqb c d = false) (chars_of s)).
Proof.
  unfold remove_text. assert (Hf : (String.length s <= String.length s)%nat) by done. revert Hf.
  generalize (String.length s) at 2 3 as fuel. intros fuel. revert s.
  induction fuel as [|fuel IH]; intros [|d s]; cbn [remove_sub starts_text chars_of String.length]; try done; [lia|]. intros Hf.
  unfold skip_text. cbn [chars_of drop]. rewrite drop_0, filter_cons, andb_true_r. destruct (Ascii.eqb c d) eqn:E.
  - rewrite decide_False by congruence. rewrite text_of_chars. apply IH. lia.
  - rewrite decide_True by done. cbn. rewrite IH by lia. done.
Qed.

Lemma length_chars_of s : length (chars_of s) = String.length s.
Proof. induction s; cbn; congruence. Qed.

Lemma dashed_chars P l : Forall P l → P "-"%char → Forall P (dashed l).
Proof.
  intros Hl Hd. unfold dashed. rewrite !Forall_app, !Forall_cons, !Forall_app, !Forall_cons, !Forall_app, !Forall_cons, !Forall_app, !Forall_cons.
  repeat match goal with |- _ ∧ _ => split | |- Forall _ (take _ _) => apply Forall_take | |- Forall _ (drop _ _) => apply Forall_drop end; done.
Qed.

Lemma filter_dashed l :
  Forall (λ c, is_hex c = true) l → filter (λ d, Ascii.eqb "-" d = false) (dashed l) = l.
Proof.
  intros Hl. assert (Hid : ∀ k, Forall (λ c, is_hex c = true) k → filter (λ d, Ascii.eqb "-" d = false) k = k).
  { intros k Hk. apply list_filter_all. rewrite Forall_forall in Hk. intros c Hc. apply Hk in Hc.
    destruct (Ascii.eqb_spec "-" c) as [<-|]; done. }
  unfold dashed. repeat (rewrite filter_app || rewrite filter_cons_False by done).
  rewrite !Hid by (repeat (apply Forall_take || apply Forall_drop); done).
  assert (Ht : ∀ n m (k : list ascii), (take n (drop m k) ++ drop (m + n) k)%list = drop m k) by (intros; by rewrite <- drop_drop, take_drop).
  by rewrite (Ht 4%nat 16%nat), (Ht 4%nat 12%nat), (Ht 4%nat 8%nat), take_drop.
Qed.

Lemma hex_forall (p : ascii → bool) l :
  all_chars (λ c, negb (is_hex c) || p c) = true → Forall (λ c, is_hex c = true) l → Forall (λ c, p c = true) l.
Proof.
  intros Hp. apply List.Forall_impl. intros c Hc. pose proof (all_chars_spec _ c Hp) as H. cbv beta in H. by rewrite Hc in H.
Qed.

Lemma uuid_hex_str v : uuid_hex (uuid_str v) = text_of (hex_digits 32 v).
Proof.
  set (l := hex_digits 32 v). assert (Hl : Forall (λ c, is_hex c = true) l) by apply hex_digits_hex.
  assert (Hp : ∀ p : ascii → bool, all_chars (λ c, negb (is_hex c || Ascii.eqb c "-") || negb (p c)) = true →
    Forall (λ c, p c = false) (chars_of (uuid_str v))).
  { intros p Hp. unfold uuid_str. rewrite chars_of_text. apply dashed_chars.
    - eapply List.Forall_impl; [|exact Hl]. intros c Hc. pose proof (all_chars_spec _ c Hp) as H. cbv beta in H.
      rewrite Hc in H. cbn in H. by destruct (p c).
    - pose proof (all_chars_spec _ "-" Hp) as H. cbv beta in H. by destruct (p "-"%char). }
  unfold uuid_hex. rewrite (remove_none "u" "rn:") by (apply (Hp (Ascii.eqb "u")); by vm_compute).
  rewrite (remove_none "u" "uid:") by (apply (Hp (Ascii.eqb "u")); by vm_compute).
  rewrite strip_by_id by (apply Hp; by vm_compute).
  rewrite remove_char. unfold uuid_str. by rewrite chars_of_text, filter_dashed.
Qed.

Lemma int16_hex_digits n v : 0 <= v < 16 ^ Z.of_nat n → (n ≠ 0)%nat → int16 (text_of (hex_digits n v)) = Some v.
Proof.
  intros Hv Hn. pose proof (int_hex_digits n v 0 false Hv Hn) as H. pose proof (hex_digits_hex n v) as Hl. revert H Hl.
  generalize (hex_digits n v) as l. intros l H Hl. unfold int16.
  rewrite strip_by_id, chars_of_text.
  2: { rewrite chars_of_text. eapply List.Forall_impl; [|exact (hex_forall (λ c, negb (c_space c)) l ltac:(by vm_compute) Hl)].
       intros c Hc. by apply negb_true_iff. }
  assert (Hplus : match l with c :: r => if Ascii.eqb c "+" then r else l | [] => l end = l).
  { destruct l as [|c l]; [done|]. inversion Hl; subst. by rewrite (hex_not c "+"). }
  rewrite Hplus. destruct l as [|z [|x r]]; [done|exact H|].
  assert (Ascii.eqb (lower_char x) "x" = false) as ->.
  { pose proof (hex_forall (λ c, negb (Ascii.eqb (lower_char c) "x")) _ ltac:(by vm_compute) Hl) as Hx.
    inversion Hx as [|? ? _ Hx']; subst. inversion Hx'; subst. by apply negb_true_iff. }
  by rewrite andb_false_r.
Qed.

(** Identifiers round-trip: reading back the canonical text of any 128-bit identifier
    gives the identifier. *)
Lemma uuid_roundtrip v : 0 <= v < 2 ^ 128 → uuid_parse (uuid_str v) = Some v.
Proof.
  intros Hv. unfold uuid_parse. rewrite uuid_hex_str.
  rewrite <- length_chars_of, chars_of_text, length_hex_digits. by apply int16_hex_digits.
Qed.

Example uuid_undashed : canonical_uuid "0123456789ABCDEF0123456789ABCDEF" = Some "01234567-89ab-cdef-0123-456789abcdef".
Proof. by vm_compute. Qed.
Example uuid_urn : canonical_uuid "urn:uuid:{01234567-89ab-cdef-0123-456789abcdef}" = Some "01234567-89ab-cdef-0123-456789abcdef".
Proof. by vm_compute. Qed.
Example uuid_0x : canonical_uuid "0x3456789ABCDEF0123456789ABCDEF0" = Some "00345678-9abc-def0-1234-56789abcdef0".
Proof. by vm_compute. Qed.
Example qsl : parse_qsl "a=1&b&c=&Tenant%49d=x%2gy+z=w" = [("a", "1"); ("TenantId", "x%2gy z=w")].
Proof. by vm_compute. Qed.
