(* ===== verification/Tokens.v ===== *)
(** * Sessions: claims, refresh tokens and their rotation

    [src/shared/security.py], [src/shared/tenant_entitlement.py] and the refresh and logout
    endpoints of [src/services/auth-service/main.py]. A refresh token is used once: the
    first request that presents it burns its identifier in Redis and mints a new pair; a
    concurrent request that lost the race is handed the same pair for a grace period.

    Signing and verifying is the JWT library: [jwt_encode] and [jwt_decode], the latter
    with the time it is called at. Each Redis command is one atomic step at the time of the
    one clock the service and Redis share; a connection may fail before a command is applied
    or after. Cookies, audit events and the texts of the errors are left out. *)

From S2P Require Import Prelude Text.
Local Open Scope Z_scope.

(** ** Who may act where *)

Record platform_user := PlatformUser { pu_email : string; pu_org : option string; pu_tenant : option string }.
Record tenant := Tenant { tn_org : string; tn_m365 : bool; tn_created : Z; tn_archived : bool }.

Record users_db := UsersDb {
  ud_users : gmap string platform_user;
  ud_roles : list (string * string);
  ud_tenants : gmap string tenant;
}.

(** [_CLAIM_ORDER]: M365 first, then by age and id. *)
Definition claim_before (a b : string * tenant) : Prop :=
  if Bool.eqb (tn_m365 a.2) (tn_m365 b.2)
  then tn_created a.2 < tn_created b.2 ∨ (tn_created a.2 = tn_created b.2 ∧ String.leb a.1 b.1 = true)
  else tn_m365 a.2 = true.
Global Instance claim_before_dec : RelDecision claim_before.
Proof. intros a b. unfold claim_before. destruct (Bool.eqb _ _); apply _. Defined.

(** [entitled_tenant_ids_for_user]. *)
Definition entitled_tenant_ids_for_user (d : users_db) (u : platform_user) : list string :=
  let chosen (p : string * tenant → bool) :=
    (merge_sort claim_before (filter (λ kv, negb (tn_archived kv.2) && p kv = true) (map_to_list (ud_tenants d)))).*1 in
  match pu_tenant u, pu_org u with
  | Some t, _ => chosen (λ kv, bool_decide (kv.1 = t))
  | None, Some o => chosen (λ kv, bool_decide (tn_org kv.2 = o))
  | None, None => []
  end.

(** [resolve_entitled_tenant_ids]. *)
Definition resolve_entitled_tenant_ids (d : users_db) (uid : option string) : list string :=
  match uid ≫= λ i, ud_users d !! i with Some u => entitled_tenant_ids_for_user d u | None => [] end.

(** The claims of a token, and what is signed. *)
Record claims := Claims { cl_sub : string; cl_email : string; cl_roles : list string; cl_org : option string; cl_tenants : list string }.

Record payload := Payload {
  p_type : option string;
  p_sub : option string;
  p_jti : option string;
  p_exp : option Z;
  p_email : option string;
  p_roles : list string;
  p_org : option string;
  p_tenants : list string;
}.

(** [_load_token_claims_from_db]. *)
Definition load_token_claims_from_db (d : users_db) (uid : string) : option claims :=
  u ← ud_users d !! uid;
  Some (Claims uid (pu_email u) (omap (λ ur, if bool_decide (ur.1 = uid) then Some ur.2 else None) (ud_roles d)) (pu_org u)
    (entitled_tenant_ids_for_user d u)).

(** ** Tokens *)

Record auth_settings := AuthSettings {
  access_secret : string;
  refresh_secret : string;
  jwt_hours : Z;
  refresh_days : Z;
  rotation_grace : Z;
  redis_enabled : bool;
}.

Definition second : Z := 1000000.

(** The two kinds of keys the service keeps in Redis, with the time each ends. *)
Record auth_redis := AuthRedis { rd_revoked : gmap string Z; rd_rotated : gmap string (string * string * Z) }.

Inductive redis_answer := RFine | RDown | RLost.

(** A status code of an HTTP error. *)
Abbreviation http := (result Z).

Section Tokens.
Context (jwt_encode : string → payload → string) (jwt_decode : Z → string → string → option payload).
Context (cfg : auth_settings).

Definition create_access_token (now : Z) (jti : string) (c : claims) : string :=
  jwt_encode (access_secret cfg) (Payload (Some "access") (Some (cl_sub c)) (Some jti) (Some (now / second + jwt_hours cfg * 3600))
    (Some (cl_email c)) (cl_roles c) (cl_org c) (cl_tenants c)).
Definition create_refresh_token (now : Z) (jti : string) (c : claims) : string :=
  jwt_encode (refresh_secret cfg) (Payload (Some "refresh") (Some (cl_sub c)) (Some jti) (Some (now / second + refresh_days cfg * 86400))
    (Some (cl_email c)) (cl_roles c) (cl_org c) (cl_tenants c)).

Inductive token_kind := KAccess | KRefresh.
Definition kind_name (k : token_kind) : string := match k with KAccess => "access" | KRefresh => "refresh" end.

Definition decode_token (now : Z) (k : token_kind) (raw : string) : http payload :=
  p ← of_option 401 (jwt_decode now (match k with KAccess => access_secret cfg | KRefresh => refresh_secret cfg end) raw);
  raise_if (negb (bool_decide (p_type p = Some (kind_name k)))) 401 ;;
  Ok p.

(** ** The denylist and the grace cache *)

Definition live {A} (now : Z) (e : option (A * Z)) : option A :=
  match e with Some (a, until) => if now <? until then Some a else None | None => None end.
Definition is_revoked (now : Z) (jti : string) (r : auth_redis) : bool :=
  match rd_revoked r !! jti with Some until => now <? until | None => false end.

(** [revoke_refresh_token]: [SET NX EX]. *)
Definition revoke_refresh_token (now : Z) (a : redis_answer) (jti : string) (ttl : Z) (r : auth_redis) : auth_redis * http bool :=
  if bool_decide (jti = "") then (r, Ok false)
  else if negb (redis_enabled cfg) then (r, Err 503)
  else
    let taken := is_revoked now jti r in
    let r' := if taken then r else AuthRedis (<[jti := now + Z.max 1 ttl * second]> (rd_revoked r)) (rd_rotated r) in
    match a with
    | RFine => (r', Ok (negb taken))
    | RLost => (r', Err 503)
    | RDown => (r, Err 503)
    end.

Definition is_refresh_token_revoked (now : Z) (a : redis_answer) (jti : string) (r : auth_redis) : http bool :=
  if bool_decide (jti = "") then Ok false
  else if negb (redis_enabled cfg) then Err 503
  else match a with RFine => Ok (is_revoked now jti r) | _ => Err 503 end.

Definition remember_rotated_tokens (now : Z) (a : redis_answer) (jti : string) (tp : string * string) (r : auth_redis) : auth_redis :=
  if bool_decide (jti = "") || bool_decide (tp.1 = "") || bool_decide (tp.2 = "") || negb (redis_enabled cfg) then r
  else match a with
    | RDown => r
    | _ => AuthRedis (rd_revoked r) (<[jti := (tp, now + Z.max 1 (rotation_grace cfg) * second)]> (rd_rotated r))
    end.

Definition get_rotated_tokens (now : Z) (a : redis_answer) (jti : string) (r : auth_redis) : option (string * string) :=
  if bool_decide (jti = "") || negb (redis_enabled cfg) then None
  else match a with
    | RFine => tp ← live now (rd_rotated r !! jti);
        if bool_decide (tp.1 = "") || bool_decide (tp.2 = "") then None else Some tp
    | _ => None
    end.

(** What is left of a token's life, in seconds. *)
Definition remaining (now : Z) (p : payload) : Z :=
  match p_exp p with Some e => Z.max 1 (e - now / second) | None => refresh_days cfg * 86400 end.

(** The identifier of a token; an empty one counts as none. *)
(** Python's truth of an optional string. *)
Definition nonempty (s : option string) : option string :=
  match s with Some x => if bool_decide (x = "") then None else Some x | None => None end.
Definition jti_of (p : payload) : option string := nonempty (p_jti p).

(** ** A refresh request

    Its steps, each with at most one Redis command. *)
Inductive refresh_phase :=
  | RqStart (cookie body : option string)
  | RqLoad (p : payload)
  | RqClaim (p : payload) (c : claims)
  | RqMint (jti : option string) (c : claims)
  | RqPoll (jti : string) (attempts : nat)
  | RqStore (jti : string) (tp : string * string)
  | RqGranted (jti : option string) (tp : string * string)
  | RqDenied (code : Z).

Definition POLL_ATTEMPTS : nat := 3.

Definition first_token (cookie body : option string) : option string :=
  match nonempty cookie with Some t => Some t | None => nonempty body end.

Definition refresh_step (now : Z) (a : redis_answer) (fresh : string * string) (d : users_db) (ph : refresh_phase) (r : auth_redis)
    : auth_redis * refresh_phase :=
  match ph with
  | RqStart cookie body =>
    (r, match first_token cookie body with
        | None => RqDenied 401
        | Some raw =>
          match decode_token now KRefresh raw with
          | Err e => RqDenied e
          | Ok p =>
            match jti_of p with
            | None => RqLoad p
            | Some j =>
              match is_refresh_token_revoked now a j r with
              | Err e => RqDenied e
              | Ok true => RqDenied 401
              | Ok false => RqLoad p
              end
            end
          end
        end)
  | RqLoad p =>
    (r, match nonempty (p_sub p) ≫= canonical_uuid with
        | None => RqDenied 401
        | Some uid => match load_token_claims_from_db d uid with Some c => RqClaim p c | None => RqDenied 401 end
        end)
  | RqClaim p c =>
    match jti_of p with
    | None => (r, RqMint None c)
    | Some j =>
      let (r, claimed) := revoke_refresh_token now a j (remaining now p) r in
      (r, match claimed with
          | Err e => RqDenied e
          | Ok true => RqMint (Some j) c
          | Ok false => RqPoll j POLL_ATTEMPTS
          end)
    end
  | RqMint oj c =>
    let tp := (create_access_token now fresh.1 c, create_refresh_token now fresh.2 c) in
    (r, match oj with Some j => RqStore j tp | None => RqGranted None tp end)
  | RqPoll j O => (r, RqDenied 401)
  | RqPoll j (S n) => (r, match get_rotated_tokens now a j r with Some tp => RqGranted (Some j) tp | None => RqPoll j n end)
  | RqStore j tp => (remember_rotated_tokens now a j tp r, RqGranted (Some j) tp)
  | RqGranted _ _ | RqDenied _ => (r, ph)
  end.

(** [logout]: the revocation is best effort. *)
Definition logout (now : Z) (a : redis_answer) (cookie : option string) (r : auth_redis) : auth_redis :=
  match cookie with
  | None => r
  | Some raw =>
    match decode_token now KRefresh raw with
    | Err _ => r
    | Ok p => match jti_of p with Some j => (revoke_refresh_token now a j (remaining now p) r).1 | None => r end
    end
  end.

(** ** The service

    Requests and logouts interleave between any two Redis commands, the clock moves and
    the database of users changes. [wins] records which request burned which identifier. *)
Record auth_sys := AuthSys {
  sy_now : Z;
  sy_redis : auth_redis;
  sy_requests : list refresh_phase;
  sy_wins : list (string * nat);
}.

Definition wins_of (ph ph' : refresh_phase) : option string :=
  match ph, ph' with RqClaim _ _, RqMint (Some j) _ => Some j | _, _ => None end.

Inductive auth_step : auth_sys → auth_sys → Prop :=
  | st_tick dt st : 0 <= dt → auth_step st (AuthSys (sy_now st + dt) (sy_redis st) (sy_requests st) (sy_wins st))
  | st_arrive cookie body st : auth_step st (AuthSys (sy_now st) (sy_redis st) (sy_requests st ++ [RqStart cookie body]) (sy_wins st))
  | st_work i a fresh d ph r ph' st :
      sy_requests st !! i = Some ph →
      refresh_step (sy_now st) a fresh d ph (sy_redis st) = (r, ph') →
      auth_step st (AuthSys (sy_now st) r (<[i := ph']> (sy_requests st))
        (match wins_of ph ph' with Some j => (j, i) :: sy_wins st | None => sy_wins st end))
  | st_logout a cookie st :
      auth_step st (AuthSys (sy_now st) (logout (sy_now st) a cookie (sy_redis st)) (sy_requests st) (sy_wins st)).

Definition auth_steps := rtc auth_step.
Definition auth_init (st : auth_sys) : Prop :=
  sy_redis st = AuthRedis ∅ ∅ ∧ sy_requests st = [] ∧ sy_wins st = [].
Definition auth_reachable (st : auth_sys) : Prop := ∃ st0, auth_init st0 ∧ auth_steps st0 st.

(** ** What rotation keeps

    The service gives every refresh token an identifier of its own, and signs its expiry
    into it; the library accepts only what the service signed. *)
Context (expiry : string → Z).
Hypothesis issued : ∀ now raw p j,
  jwt_decode now (refresh_secret cfg) raw = Some p → jti_of p = Some j → p_exp p = Some (expiry j).

Definition carried (ph : refresh_phase) : option payload :=
  match ph with RqLoad p | RqClaim p _ => Some p | _ => None end.
Definition sane (st : auth_sys) : Prop :=
  ∀ i ph p j, sy_requests st !! i = Some ph → carried ph = Some p → jti_of p = Some j → p_exp p = Some (expiry j).

(** A phase that follows a won claim of [j], and one that holds its pair. *)
Definition winning (j : string) (ph : refresh_phase) : Prop :=
  match ph with RqMint (Some k) _ | RqStore k _ | RqGranted (Some k) _ => k = j | _ => False end.
Definition claims_win (j : string) (ph : refresh_phase) : Prop :=
  match ph with RqMint (Some k) _ | RqStore k _ => k = j | _ => False end.
Definition holds (j : string) (tp : string * string) (ph : refresh_phase) : Prop :=
  ph = RqStore j tp ∨ ph = RqGranted (Some j) tp.

Definition deadline (j : string) : Z := expiry j * second.

Record single (j : string) (st : auth_sys) : Prop := Single {
  sg_denied : ∀ i, (j, i) ∈ sy_wins st → ∃ u, rd_revoked (sy_redis st) !! j = Some u ∧ deadline j <= u;
  sg_one : ∀ i i', (j, i) ∈ sy_wins st → (j, i') ∈ sy_wins st → i = i';
  sg_won : ∀ i ph, sy_requests st !! i = Some ph → claims_win j ph → (j, i) ∈ sy_wins st;
  sg_winner : ∀ i, (j, i) ∈ sy_wins st → ∃ ph, sy_requests st !! i = Some ph ∧ winning j ph;
  sg_pair : ∀ tp, (∃ k, sy_requests st !! k = Some (RqGranted (Some j) tp)) ∨ (∃ u, rd_rotated (sy_redis st) !! j = Some (tp, u)) →
    ∃ i ph, (j, i) ∈ sy_wins st ∧ sy_requests st !! i = Some ph ∧ holds j tp ph;
}.

Lemma decoded_exp now k raw p j :
  decode_token now k raw = Ok p → k = KRefresh → jti_of p = Some j → p_exp p = Some (expiry j).
Proof.
  unfold decode_token. intros H -> Hj. destruct (jwt_decode _ _ _) as [q|] eqn:E; [|done].
  unfold raise_if in H; cbn in H; case_match; simplify_eq/=; by eapply issued.
Qed.

Lemma revoke_spec now a j ttl r r' res :
  revoke_refresh_token now a j ttl r = (r', res) →
  rd_rotated r' = rd_rotated r ∧
  (∀ k u, rd_revoked r !! k = Some u → now < u → rd_revoked r' !! k = Some u) ∧
  (res = Ok true → is_revoked now j r = false ∧ rd_revoked r' !! j = Some (now + Z.max 1 ttl * second)).
Proof.
  unfold revoke_refresh_token. case_bool_decide; [by intros [= <- <-]|].
  destruct (redis_enabled cfg); [|by intros [= <- <-]]. cbn [negb].
  assert (Hk : is_revoked now j r = false → ∀ k u, rd_revoked r !! k = Some u → now < u →
    <[j := now + Z.max 1 ttl * second]> (rd_revoked r) !! k = Some u).
  { intros Hf k u Hl Hu. rewrite lookup_insert_ne; [done|]. intros ->. unfold is_revoked in Hf. rewrite Hl in Hf. lia. }
  destruct (is_revoked now j r) eqn:Er; destruct a; intros [= <- <-]; cbn;
    (split; [done|]); (split; [by auto|]); try done; intros _; (split; [done|]); apply lookup_insert_eq.
Qed.

Lemma remember_spec now a j tp r :
  rd_revoked (remember_rotated_tokens now a j tp r) = rd_revoked r ∧
  ∀ k tp' u, rd_rotated (remember_rotated_tokens now a j tp r) !! k = Some (tp', u) →
    (k = j ∧ tp' = tp) ∨ rd_rotated r !! k = Some (tp', u).
Proof.
  unfold remember_rotated_tokens. destruct (_ || _); [by auto|].
  destruct a; cbn; (split; [done|]); auto; intros k tp' u;
    (destruct (decide (k = j)) as [->|]; [rewrite lookup_insert_eq; naive_solver|rewrite lookup_insert_ne; auto]).
Qed.

Lemma logout_spec now a cookie r :
  rd_rotated (logout now a cookie r) = rd_rotated r ∧
  ∀ k u, rd_revoked r !! k = Some u → now < u → rd_revoked (logout now a cookie r) !! k = Some u.
Proof.
  unfold logout. destruct cookie as [raw|]; [|done]. destruct (decode_token _ _ _); [|done]. destruct (jti_of _) as [j|]; [|done].
  destruct (revoke_refresh_token _ _ _ _ _) as [r' res] eqn:E. by destruct (revoke_spec _ _ _ _ _ _ _ E) as (?&?&_).
Qed.

Lemma step_carried now a fresh d ph r r' ph' p :
  refresh_step now a fresh d ph r = (r', ph') → carried ph' = Some p →
  carried ph = Some p ∨ ∃ raw, decode_token now KRefresh raw = Ok p.
Proof.
  destruct ph; cbn [refresh_step]; intros H; repeat case_match; simplify_eq/=; try done; intros; simplify_eq; eauto.
Qed.

Lemma step_wins now a fresh d ph r r' ph' j :
  refresh_step now a fresh d ph r = (r', ph') → wins_of ph ph' = Some j →
  ∃ p c, ph = RqClaim p c ∧ jti_of p = Some j ∧ ph' = RqMint (Some j) c ∧ rd_rotated r' = rd_rotated r ∧
    is_revoked now j r = false ∧ rd_revoked r' !! j = Some (now + Z.max 1 (remaining now p) * second).
Proof.
  destruct ph as [| |p c| | | | |]; cbn [refresh_step wins_of]; intros H; try by destruct ph'.
  destruct (jti_of p) as [k|] eqn:Ej; simplify_eq/=; [|done].
  destruct (revoke_refresh_token _ _ _ _ _) as [r1 res] eqn:E; destruct res as [[]|]; simplify_eq/=; [|done..].
  intros [= ->]. destruct (revoke_spec _ _ _ _ _ _ _ E) as (?&_&Hw). destruct (Hw eq_refl). by eexists _, _.
Qed.

Lemma step_denied now a fresh d ph r r' ph' k u :
  refresh_step now a fresh d ph r = (r', ph') → rd_revoked r !! k = Some u → now < u → rd_revoked r' !! k = Some u.
Proof.
  intros H Hk Hu. destruct ph as [| |p c| | |j tp| |]; cbn [refresh_step] in H; repeat case_match; simplify_eq/=; try done.
  all: match goal with
    | E : revoke_refresh_token _ _ _ _ _ = _ |- _ => by apply (revoke_spec _ _ _ _ _ _ _ E)
    | |- context [remember_rotated_tokens ?n ?b ?x ?y ?z] => by rewrite (proj1 (remember_spec n b x y z))
    end.
Qed.

Lemma step_claims_win now a fresh d ph r r' ph' j :
  refresh_step now a fresh d ph r = (r', ph') → claims_win j ph' → claims_win j ph ∨ wins_of ph ph' = Some j.
Proof.
  destruct ph; cbn [refresh_step]; intros H; repeat case_match; simplify_eq/=; try done; intros; subst; auto.
Qed.

Lemma step_winning now a fresh d ph r r' ph' j :
  refresh_step now a fresh d ph r = (r', ph') → winning j ph → winning j ph'.
Proof.
  destruct ph; cbn [refresh_step]; intros H; repeat case_match; simplify_eq/=; try done; intros; subst; auto.
Qed.

Lemma step_holds now a fresh d ph r r' ph' j tp :
  refresh_step now a fresh d ph r = (r', ph') → holds j tp ph → holds j tp ph'.
Proof. intros H [->| ->]; simplify_eq/=; unfold holds; auto. Qed.

(** Where a granted or a cached pair comes from. *)
Lemma step_pair now a fresh d ph r r' ph' j tp :
  refresh_step now a fresh d ph r = (r', ph') →
  (ph' = RqGranted (Some j) tp ∨ ∃ u, rd_rotated r' !! j = Some (tp, u)) →
  ph = RqStore j tp ∨ ph = RqGranted (Some j) tp ∨ ∃ u, rd_rotated r !! j = Some (tp, u).
Proof.
  destruct ph as [| |p c| |k n|k tp0|oj tp0|]; cbn [refresh_step]; intros H Hp.
  - repeat case_match; simplify_eq/=; naive_solver.
  - repeat case_match; simplify_eq/=; naive_solver.
  - destruct (jti_of p); simplify_eq/=; [|naive_solver].
    destruct (revoke_refresh_token _ _ _ _ _) as [r1 res] eqn:E. destruct (revoke_spec _ _ _ _ _ _ _ E) as (Hr&_).
    repeat case_match; simplify_eq/=; rewrite Hr in Hp; naive_solver.
  - repeat case_match; simplify_eq/=; naive_solver.
  - destruct n as [|n]; [simplify_eq/=; naive_solver|].
    destruct (get_rotated_tokens _ _ _ _) as [tp1|] eqn:E; simplify_eq/=; [|naive_solver].
    destruct Hp as [Hp|Hp]; [|auto]. simplify_eq. right. right.
    unfold get_rotated_tokens in E. destruct (_ || _); [done|]. destruct a; try done.
    destruct (rd_rotated r' !! j) as [[tq u]|] eqn:El; [|done]. cbn in E. case_match; cbn in E; [|done].
    case_match; simplify_eq. eauto.
  - simplify_eq/=. destruct Hp as [Hp|[u Hp]]; [simplify_eq; auto|].
    destruct (proj2 (remember_spec _ _ _ _ _) _ _ _ Hp) as [[-> ->]|?]; eauto.
  - simplify_eq/=; naive_solver.
  - simplify_eq/=; naive_solver.
Qed.

Lemma sane_step st st' : auth_step st st' → sane st → sane st'.
Proof.
  intros Hstep Hs. inversion Hstep as [|cookie body|i0 a fresh d ph0 r ph' ? Hl0 Hst|]; subst; unfold sane in *; cbn; try done.
  - intros i ph p j Hl. apply lookup_app_Some in Hl as [?|[_ Hl]]; [eauto|].
    by apply list_lookup_singleton_Some in Hl as [_ <-].
  - intros i ph p j Hl Hc Hj. destruct (decide (i = i0)) as [->|]; [|rewrite list_lookup_insert_ne in Hl by done; eauto].
    rewrite list_lookup_insert_eq in Hl by (by eapply lookup_lt_Some). simplify_eq.
    destruct (step_carried _ _ _ _ _ _ _ _ _ Hst Hc) as [?|[raw Hd]]; [eauto|by eapply decoded_exp].
Qed.

(** A change that keeps what Redis holds of [j] and only adds requests that did not win. *)
Lemma single_weaken j now r reqs st :
  (∀ k u, rd_revoked (sy_redis st) !! k = Some u → deadline j <= u → rd_revoked r !! k = Some u) →
  rd_rotated r = rd_rotated (sy_redis st) →
  (∀ i ph, sy_requests st !! i = Some ph → reqs !! i = Some ph) →
  (∀ i ph, reqs !! i = Some ph → sy_requests st !! i = Some ph ∨ ∃ cookie body, ph = RqStart cookie body) →
  single j st → single j (AuthSys now r reqs (sy_wins st)).
Proof.
  intros Hr Hc Hq Hq' [D O W N P]; split; cbn; [|done|..].
  - intros i Hi. destruct (D i Hi) as (u&?&?). eauto.
  - intros i ph Hl Hw. destruct (Hq' _ _ Hl) as [?|(?&?&->)]; [eauto|done].
  - intros i Hi. destruct (N i Hi) as (ph&?&?). eauto.
  - intros tp Htp. rewrite Hc in Htp. destruct (P tp) as (i&ph&?&?&?); [|by eauto 10].
    destruct Htp as [[k Hk]|?]; [|by auto]. destruct (Hq' _ _ Hk) as [?|(?&?&?)]; [eauto|done].
Qed.

Lemma work_wins_spec (j : string) (i : nat) ph ph' (wins : list (string * nat)) k :
  (j, k) ∈ (match wins_of ph ph' with Some j' => (j', i) :: wins | None => wins end) ↔
  (wins_of ph ph' = Some j ∧ k = i) ∨ (j, k) ∈ wins.
Proof. destruct (wins_of ph ph') as [j'|]; [rewrite elem_of_cons|]; naive_solver. Qed.

Lemma claim_lifetime now p j :
  p_exp p = Some (expiry j) → deadline j <= now + Z.max 1 (remaining now p) * second.
Proof.
  intros E. unfold remaining, deadline, second. rewrite E.
  pose proof (Z.mul_div_le now 1000000 ltac:(lia)). lia.
Qed.

Lemma single_work j st i a fresh d ph r ph' :
  sy_requests st !! i = Some ph → refresh_step (sy_now st) a fresh d ph (sy_redis st) = (r, ph') →
  sy_now st < deadline j → sane st → single j st →
  single j (AuthSys (sy_now st) r (<[i := ph']> (sy_requests st))
    (match wins_of ph ph' with Some j => (j, i) :: sy_wins st | None => sy_wins st end)).
Proof.
  intros Hl Hst Hnow Hs [D O W N P].
  assert (Hlen := lookup_lt_Some _ _ _ Hl).
  assert (Hsome : ∀ k, wins_of ph ph' = Some j → (j, k) ∉ sy_wins st).
  { intros k Hw Hk. destruct (step_wins _ _ _ _ _ _ _ _ _ Hst Hw) as (p&c&->&_&_&_&Hn&_).
    destruct (D k Hk) as (u&Hu&?). unfold is_revoked in Hn. rewrite Hu in Hn. lia. }
  assert (Hup : ∀ k q, <[i:=ph']> (sy_requests st) !! k = Some q → (k = i ∧ q = ph') ∨ (k ≠ i ∧ sy_requests st !! k = Some q)).
  { intros k q Hk. destruct (decide (k = i)) as [->|]; [rewrite list_lookup_insert_eq in Hk by done|rewrite list_lookup_insert_ne in Hk by done]; naive_solver. }
  assert (Hdown : ∀ (Q : refresh_phase → Prop) k q, sy_requests st !! k = Some q → Q q → (Q ph → Q ph') →
    ∃ q', <[i:=ph']> (sy_requests st) !! k = Some q' ∧ Q q').
  { intros Q k q Hk Hq HQ. destruct (decide (k = i)) as [->|].
    - exists ph'. rewrite list_lookup_insert_eq by done. split; [done|]. simplify_eq. auto.
    - exists q. by rewrite list_lookup_insert_ne. }
  split; cbn; setoid_rewrite work_wins_spec.
  - intros k [[Hw ->]|Hk].
    + destruct (step_wins _ _ _ _ _ _ _ _ _ Hst Hw) as (p&c&->&Hj&_&_&_&Hr). eexists; split; [exact Hr|].
      eapply claim_lifetime, Hs; [exact Hl|done|done].
    + destruct (D k Hk) as (u&Hu&?). exists u. split; [|done]. eapply step_denied; [done|done|lia].
  - intros k k' [[Hw ->]|Hk] [[Hw' ->]|Hk']; naive_solver.
  - intros k q Hk Hq. destruct (Hup _ _ Hk) as [[-> ->]|[??]]; [|eauto].
    destruct (step_claims_win _ _ _ _ _ _ _ _ _ Hst Hq) as [?|?]; eauto.
  - intros k [[Hw ->]|Hk].
    + exists ph'. rewrite list_lookup_insert_eq by done. split; [done|].
      by destruct (step_wins _ _ _ _ _ _ _ _ _ Hst Hw) as (p&c&_&_&->&_).
    + destruct (N k Hk) as (q&?&?). eapply Hdown; [done|done|]. by eapply step_winning.
  - intros tp Htp.
    assert (Hold : ∃ k q, (j, k) ∈ sy_wins st ∧ sy_requests st !! k = Some q ∧ holds j tp q).
    { destruct Htp as [[k Hk]|Hc].
      - destruct (Hup _ _ Hk) as [[-> Heq]|[??]]; [|by eauto].
        destruct (step_pair _ _ _ _ _ _ _ _ _ _ Hst (or_introl (eq_sym Heq))) as [->|[->|?]]; [|by eauto|by eauto].
        exists i, (RqStore j tp). repeat split; [by eapply W|done|by left].
      - destruct (step_pair _ _ _ _ _ _ _ _ _ _ Hst (or_intror Hc)) as [->|[->|?]]; [|by eauto|by eauto].
        exists i, (RqStore j tp). repeat split; [by eapply W|done|by left]. }
    destruct Hold as (k&q&Hk&Hq&Hh).
    destruct (Hdown (holds j tp) k q Hq Hh) as (q'&?&?); [by eapply step_holds|by eauto 10].
Qed.

Lemma auth_step_time st st' : auth_step st st' → sy_now st <= sy_now st'.
Proof. inversion 1; cbn; lia. Qed.

Lemma single_step j st st' :
  auth_step st st' → sane st → sy_now st' < deadline j → single j st → single j st'.
Proof.
  intros Hstep Hs Hnow H1. inversion Hstep as [dt|cookie body|i0 a fresh d ph0 r ph' ? Hl0 Hst|a cookie]; subst; cbn in Hnow.
  - apply single_weaken; auto.
  - apply single_weaken; auto.
    + intros i ph Hl. by apply lookup_app_l_Some.
    + intros i ph Hl. apply lookup_app_Some in Hl as [?|[_ Hl]]; [by left|].
      apply list_lookup_singleton_Some in Hl as [_ <-]. right. by eexists _, _.
  - by eapply single_work.
  - destruct (logout_spec (sy_now st) a cookie (sy_redis st)) as [Hc Hr].
    apply single_weaken; auto. intros k u Hu ?. apply Hr; [done|lia].
Qed.

Lemma auth_steps_inv st st' :
  auth_steps st st' → sane st → (∀ j, sy_now st < deadline j → single j st) →
  sane st' ∧ (∀ j, sy_now st' < deadline j → single j st').
Proof.
  induction 1 as [|st st1 st2 Hs _ IH]; [done|]. intros Hsane Hj. apply IH; [by eapply sane_step|].
  intros j Hnow. eapply single_step; [done..|]. apply Hj. pose proof (auth_step_time _ _ Hs). lia.
Qed.

Lemma auth_reachable_inv st : auth_reachable st → sane st ∧ (∀ j, sy_now st < deadline j → single j st).
Proof.
  intros (st0&(Hr&Hq&Hw)&Hs). apply (auth_steps_inv _ _ Hs).
  - intros i ph p j Hl. by rewrite Hq in Hl.
  - intros j _. assert (Hn : ∀ k : nat, (j, k) ∉ sy_wins st0) by (rewrite Hw; intros k; apply not_elem_of_nil).
    split; rewrite ?Hr, ?Hq; cbn; try naive_solver.
Qed.

(** Once denied until its expiry, an identifier is won by nobody any more. *)
Lemma denied_steps j st st' :
  auth_steps st st' → sy_now st' < deadline j →
  (∃ u, rd_revoked (sy_redis st) !! j = Some u ∧ deadline j <= u) →
  ∀ i, (j, i) ∈ sy_wins st' → (j, i) ∈ sy_wins st.
Proof.
  induction 1 as [|st st1 st2 Hs Hss IH]; [done|]. intros Hnow (u&Hu&Hle) i Hi.
  assert (Hn1 : sy_now st1 < deadline j).
  { clear -Hss Hnow. induction Hss as [|a b c Hab _ IH]; [done|]. pose proof (auth_step_time _ _ Hab). apply IH in Hnow. lia. }
  pose proof (auth_step_time _ _ Hs).
  assert (Hkeep : ∃ u, rd_revoked (sy_redis st1) !! j = Some u ∧ deadline j <= u).
  { exists u. split; [|done]. inversion Hs as [|cookie body|i0 a fresh d ph0 r ph' ? Hl0 Hst|a cookie]; subst; cbn; try done.
    - eapply step_denied; [exact Hst|done|lia].
    - apply logout_spec; [done|lia]. }
  specialize (IH Hnow Hkeep i Hi). inversion Hs as [|cookie body|i0 a fresh d ph0 r ph' ? Hl0 Hst|a cookie]; subst; cbn in *; try done.
  apply work_wins_spec in IH as [[Hw ->]|?]; [|done].
  destruct (step_wins _ _ _ _ _ _ _ _ _ Hst Hw) as (p&c&_&_&_&_&Hno&_). unfold is_revoked in Hno. rewrite Hu in Hno. lia.
Qed.

(** C6: Refresh tokens rotate once: under every interleaving of the Redis commands of any
    number of refreshes and logouts, and with Redis failing before or after applying any of
    them, all requests that are granted new tokens for one refresh token before that token
    expires are granted one and the same pair. *)
Theorem rotation_is_single_use st j i i' tp tp' :
  auth_reachable st → sy_now st < deadline j →
  sy_requests st !! i = Some (RqGranted (Some j) tp) → sy_requests st !! i' = Some (RqGranted (Some j) tp') →
  tp = tp'.
Proof.
  intros Hst Hnow Hi Hi'. destruct (auth_reachable_inv _ Hst) as [_ H]. destruct (H j Hnow) as [_ O _ _ P].
  destruct (P tp) as (k&ph&Hk&Hl&Hh); [eauto|]. destruct (P tp') as (k'&ph'&Hk'&Hl'&Hh'); [eauto|].
  destruct (O _ _ Hk Hk'). simplify_eq. unfold holds in *. naive_solver.
Qed.

(** Every denial lasts as long as the token it denies. *)
Definition denials_last (r : auth_redis) : Prop := ∀ j u, rd_revoked r !! j = Some u → deadline j <= u.

Lemma revoke_lasts now a p j r :
  jti_of p = Some j → p_exp p = Some (expiry j) → denials_last r →
  denials_last (revoke_refresh_token now a j (remaining now p) r).1.
Proof.
  intros Hj He Hr. pose proof (claim_lifetime now p j He).
  assert (denials_last (AuthRedis (<[j := now + Z.max 1 (remaining now p) * second]> (rd_revoked r)) (rd_rotated r))).
  { intros k u. cbn. destruct (decide (k = j)) as [->|]; [rewrite lookup_insert_eq; naive_solver|rewrite lookup_insert_ne; auto]. }
  unfold revoke_refresh_token. repeat case_match; done.
Qed.

Lemma lasts_step st st' : auth_step st st' → sane st → denials_last (sy_redis st) → denials_last (sy_redis st').
Proof.
  intros Hstep Hs Hd. inversion Hstep as [| |i a fresh d ph r ph' ? Hl Hst|a cookie]; subst; cbn; try done.
  - destruct ph as [| |p c| | |j tp| |]; cbn [refresh_step] in Hst; try by repeat case_match; simplify_eq.
    + destruct (jti_of p) as [j|] eqn:Ej; simplify_eq/=; [|done].
      assert (Hp : p_exp p = Some (expiry j)) by by eapply Hs.
      pose proof (revoke_lasts (sy_now st) a p j _ Ej Hp Hd).
      destruct (revoke_refresh_token _ _ _ _ _); by simplify_eq/=.
    + simplify_eq. unfold denials_last. by rewrite (proj1 (remember_spec _ _ _ _ _)).
  - unfold logout. destruct cookie as [raw|]; [|done]. destruct (decode_token _ _ _) as [p|] eqn:Ed; [|done].
    destruct (jti_of p) as [j|] eqn:Ej; [|done]. apply revoke_lasts; [done| |done]. by eapply decoded_exp.
Qed.

Lemma auth_reachable_lasts st : auth_reachable st → denials_last (sy_redis st).
Proof.
  intros (st0&Hi&Hs). assert (sane st0 ∧ denials_last (sy_redis st0)) as [Hs0 Hd0].
  { destruct Hi as (Hr&Hq&_). split; [intros i ph p j Hl; by rewrite Hq in Hl|]. intros j u. rewrite Hr. cbn. by rewrite lookup_empty. }
  clear Hi. induction Hs as [|st st1 st2 H _ IH]; [done|]. apply IH; [by eapply sane_step|by eapply lasts_step].
Qed.

Lemma logout_denies now a raw p j r :
  redis_enabled cfg = true → a ≠ RDown → decode_token now KRefresh raw = Ok p → jti_of p = Some j → denials_last r →
  ∃ u, rd_revoked (logout now a (Some raw) r) !! j = Some u ∧ deadline j <= u.
Proof.
  intros He Ha Hd Hj Hr. pose proof (decoded_exp _ _ _ _ _ Hd eq_refl Hj) as Hp.
  pose proof (revoke_lasts now a p j r Hj Hp Hr) as Hl. unfold logout. rewrite Hd, Hj.
  assert (is_Some (rd_revoked (revoke_refresh_token now a j (remaining now p) r).1 !! j)) as [u Hu]; [|by eauto].
  unfold revoke_refresh_token. rewrite He.
  assert (j ≠ "") by (intros ->; unfold jti_of, nonempty in Hj; repeat case_match; simplify_eq; case_bool_decide; done).
  rewrite bool_decide_eq_false_2 by done. cbn. destruct (is_revoked now j r) eqn:E.
  - unfold is_revoked in E. destruct (rd_revoked r !! j) as [u|] eqn:Eu; [|done]. destruct a; cbn; rewrite ?Eu; eauto.
  - destruct a; try done; cbn; rewrite lookup_insert_eq; eauto.
Qed.

(** C7: A logout ends the session: once the revocation of a logout has been applied by
    Redis, even if its answer was lost, a refresh token that no refresh had burned before is
    never exchanged again before it expires, whichever refreshes were already under way. *)
Theorem logged_out_session_ends st a raw p j st' i tp :
  auth_reachable st → redis_enabled cfg = true → a ≠ RDown →
  decode_token (sy_now st) KRefresh raw = Ok p → jti_of p = Some j →
  (∀ k, (j, k) ∉ sy_wins st) →
  auth_steps (AuthSys (sy_now st) (logout (sy_now st) a (Some raw) (sy_redis st)) (sy_requests st) (sy_wins st)) st' →
  sy_now st' < deadline j →
  sy_requests st' !! i ≠ Some (RqGranted (Some j) tp).
Proof.
  intros Hst He Ha Hd Hj Hno Hs Hnow Hi.
  assert (Hst' : auth_reachable st').
  { destruct Hst as (st0&?&H0). exists st0. split; [done|]. etrans; [exact H0|].
    eapply rtc_l; [exact (st_logout a (Some raw) st)|exact Hs]. }
  destruct (auth_reachable_inv _ Hst') as [_ H]. destruct (sg_pair _ _ (H j Hnow) tp) as (k&_&Hk&_); [eauto|].
  apply (Hno k). refine (denied_steps _ _ _ Hs Hnow _ _ Hk). cbn.
  eapply logout_denies; [done..|]. by apply auth_reachable_lasts.
Qed.
End Tokens.

(** ** A run *)
Module TokensExample.

Definition cfg : auth_settings := AuthSettings "as" "rs" 1 30 60 true.
(** The user's identifier. *)
Abbreviation alice := "00000000-0000-0000-0000-000000000001".
Definition encode (secret : string) (p : payload) : string := default "" (p_jti p).
Definition decode (now : Z) (secret raw : string) : option payload :=
  if bool_decide (secret = "rs") && (now / second <=? 100)
  then Some (Payload (Some "refresh") (Some alice) (Some raw) (Some 100) None [] None []) else None.
Definition expiry (j : string) : Z := 100.
Definition users : users_db :=
  UsersDb {[alice := PlatformUser "u1@x" (Some "o") None]} [(alice, "OWNER")]
    {["t1" := Tenant "o" false 1 false; "t2" := Tenant "o" true 2 false; "t3" := Tenant "o" true 0 true]}.

Lemma issued now raw p j :
  decode now (refresh_secret cfg) raw = Some p → jti_of p = Some j → p_exp p = Some (expiry j).
Proof. unfold decode. intros H. case_match; [|done]. by simplify_eq/=. Qed.

Abbreviation stp := (auth_step encode decode cfg).
Abbreviation run := (refresh_step encode decode cfg).

(** The state after a list of request steps, all at the same time. *)
Fixpoint works (l : list (nat * redis_answer * (string * string))) (st : auth_sys) : auth_sys :=
  match l with
  | [] => st
  | (i, a, fresh) :: l =>
    works l
      match sy_requests st !! i with
      | None => st
      | Some ph => let (r, ph') := run (sy_now st) a fresh users ph (sy_redis st) in
          AuthSys (sy_now st) r (<[i := ph']> (sy_requests st))
            (match wins_of ph ph' with Some j => (j, i) :: sy_wins st | None => sy_wins st end)
      end
  end.

Lemma works_steps l st : auth_steps encode decode cfg st (works l st).
Proof.
  revert st. induction l as [|[[i a] fresh] l IH]; intros st; cbn; [done|].
  destruct (sy_requests st !! i) as [ph|] eqn:E; [|done].
  destruct (run _ _ _ _ _ _) as [r ph'] eqn:Er. eapply rtc_l; [|apply IH]. by eapply st_work.
Qed.

Definition start (now : Z) : auth_sys := AuthSys now (AuthRedis ∅ ∅) [] [].
Definition arrived (st : auth_sys) : auth_sys :=
  AuthSys (sy_now st) (sy_redis st) (sy_requests st ++ [RqStart (Some "j1") None]) (sy_wins st).
Definition elapsed (dt : Z) (st : auth_sys) : auth_sys := AuthSys (sy_now st + dt) (sy_redis st) (sy_requests st) (sy_wins st).
Definition left_by (a : redis_answer) (st : auth_sys) : auth_sys :=
  AuthSys (sy_now st) (logout decode cfg (sy_now st) a (Some "j1") (sy_redis st)) (sy_requests st) (sy_wins st).

Lemma arrived_steps st : auth_steps encode decode cfg st (arrived st).
Proof. apply rtc_once, st_arrive. Qed.
Lemma elapsed_steps dt st : 0 <= dt → auth_steps encode decode cfg st (elapsed dt st).
Proof. intros. by apply rtc_once, st_tick. Qed.

Definition by_zero (n : nat) := replicate n (0%nat, RFine, ("a0", "r0")).
Definition by_one (n : nat) := replicate n (1%nat, RFine, ("a1", "r1")).

(** Two requests race; the second loses the claim and polls until the first stored its pair. *)
Definition raced : auth_sys :=
  works (by_zero 2 ++ by_one 2 ++ by_zero 1 ++ by_one 2 ++ by_zero 2 ++ by_one 1) (arrived (arrived (start 5000000))).
Lemma raced_reachable : auth_reachable encode decode cfg raced.
Proof.
  exists (start 5000000). split; [done|].
  etrans; [apply arrived_steps|]. etrans; [apply arrived_steps|]. apply works_steps.
Qed.
Example raced_both : sy_requests raced = [RqGranted (Some "j1") ("a0", "r0"); RqGranted (Some "j1") ("a0", "r0")].
Proof. by vm_compute. Qed.

Example claims_are_m365_first : cl_tenants <$> load_token_claims_from_db users alice = Some ["t2"; "t1"].
Proof. by vm_compute. Qed.

(** A retry of a refresh whose response was lost is refused before the grace cache is read. *)
Definition retried : auth_sys := works (by_one 1) (arrived (works (by_zero 5) (arrived (start 5000000)))).
Example retry_is_refused :
  sy_requests retried = [RqGranted (Some "j1") ("a0", "r0"); RqDenied 401] ∧
  live (sy_now retried) (rd_rotated (sy_redis retried) !! "j1") = Some ("a0", "r0").
Proof. split; by vm_compute. Qed.

(** The denial ends with the token's expiry: a request that was checked before it and
    claims after it is granted a second pair. *)
Definition late : auth_sys :=
  works (by_one 3) (elapsed 1000000 (works (by_one 2 ++ by_zero 5) (arrived (arrived (start 99500000))))).
Example late_second_rotation :
  sy_requests late !! 1%nat = Some (RqGranted (Some "j1") ("a1", "r1")).
Proof. by vm_compute. Qed.
End TokensExample.

Lemma rotation_is_single_use_witness :
  auth_reachable TokensExample.encode TokensExample.decode TokensExample.cfg TokensExample.raced ∧ ("a0", "r0") = ("a0", "r0").
Proof.
  split; [exact TokensExample.raced_reachable|].
  apply (rotation_is_single_use TokensExample.encode TokensExample.decode TokensExample.cfg TokensExample.expiry TokensExample.issued
    TokensExample.raced "j1" 0%nat 1%nat); [exact TokensExample.raced_reachable|by vm_compute..].
Defined.

Lemma logged_out_session_ends_witness :
  sy_requests (TokensExample.works (TokensExample.by_zero 5)
    (TokensExample.left_by RLost (TokensExample.works (TokensExample.by_zero 2) (TokensExample.arrived (TokensExample.start 5000000))))) !! 0%nat
  ≠ Some (RqGranted (Some "j1") ("a0", "r0")).
Proof.
  apply (logged_out_session_ends TokensExample.encode TokensExample.decode TokensExample.cfg TokensExample.expiry TokensExample.issued
    (TokensExample.works (TokensExample.by_zero 2) (TokensExample.arrived (TokensExample.start 5000000))) RLost "j1"
    (Payload (Some "refresh") (Some TokensExample.alice) (Some "j1") (Some 100) None [] None [])).
  - exists (TokensExample.start 5000000). split; [done|]. etrans; [apply TokensExample.arrived_steps|apply TokensExample.works_steps].
  - done.
  - done.
  - by vm_compute.
  - done.
  - intros k. apply not_elem_of_nil.
  - apply TokensExample.works_steps.
  - by vm_compute.
Defined.
