(* ===== verification/Access.v ===== *)
(** * Access control of the services

    [src/shared/auth_enforcement.py]: the middleware in front of every service, which lets
    a request through only with a principal (a signed access token or the internal key),
    asks for an admin on changes, and checks the tenants a request names against those the
    caller is entitled to; the dependencies handlers use; and the confinement of a path
    inside a virtual machine to the mount point of a volume.

    A token is verified by [Tokens.decode_token]. The response bodies and the stashing of
    the principal for the handler are left out: a verdict carries the principal. *)

From S2P Require Import Prelude Text Tokens.
From Stdlib Require Import Ascii.
Local Open Scope string_scope.
Local Open Scope Z_scope.

Record principal := Principal { pr_id : option string; pr_roles : list string; pr_tenants : list string; pr_internal : bool }.
Definition system_principal : principal := Principal None ["SUPER_ADMIN"] [] true.

Definition ADMIN_ROLES : list string := ["SUPER_ADMIN"; "ORG_ADMIN"; "TENANT_ADMIN"; "tenant_admin"].
Definition is_admin (p : principal) : bool := existsb (λ r, bool_decide (r ∈ ADMIN_ROLES)) (pr_roles p).

(** ** Tenants named by a request *)

(** [_UUID_RE.match]: lower or upper case, dashes in place; [$] lets one line feed follow. *)
Definition dash_at (i : nat) : bool := bool_decide (i ∈ [8; 13; 18; 23]%nat).
Fixpoint uuid_from (i : nat) (s : string) : bool :=
  match s with
  | EmptyString => Nat.eqb i 36
  | String c s =>
    if Nat.eqb i 36 then Ascii.eqb c "010" && bool_decide (s = "")
    else (if dash_at i then Ascii.eqb c "-" else is_hex c) && uuid_from (S i) s
  end.
Definition uuid_re (s : string) : bool := uuid_from 0 s.

Definition segments (path : string) : list string := filter (λ s, s ≠ "") (split_text "/" path).
Fixpoint path_tenants (segs : list string) : list string :=
  match segs with
  | s :: ((t :: _) as r) => if bool_decide (s = "tenants") && uuid_re t then t :: path_tenants r else path_tenants r
  | _ => []
  end.
Definition query_tenants (qs : string) : list string :=
  omap (λ kv, if bool_decide (lower_text kv.1 ∈ ["tenantid"; "tenant_id"]) && uuid_re kv.2 then Some kv.2 else None) (parse_qsl qs).
(** [_tenant_ids_in_request]. *)
Definition tenant_ids_in_request (path qs : string) : list string := (path_tenants (segments path) ++ query_tenants qs)%list.

(** ** Who is calling *)

Definition access_cookie : string := "access_token=".
Definition cookie_token (cookie : string) : option string :=
  head (omap (λ part,
    let part := strip_by latin1_space part in
    if starts_text access_cookie part
    then let v := strip_by latin1_space (skip_text (String.length access_cookie) part) in if bool_decide (v = "") then None else Some v
    else None) (split_text ";" cookie)).
Definition bearer_token (auth : string) : option string :=
  if bool_decide (lower_text (take_text 7 auth) = "bearer ") then
    let v := strip_by latin1_space (skip_text 7 auth) in
    if bool_decide (v = "") || bool_decide (lower_text v ∈ ["null"; "undefined"]) then None else Some v
  else None.
(** [_extract_token]. *)
Definition extract_token (headers : gmap string string) : option string :=
  match cookie_token (default "" (headers !! "cookie")) with
  | Some t => Some t
  | None => bearer_token (default "" (headers !! "authorization"))
  end.

Definition is_ascii (c : ascii) : bool := code c <? 128.

Section Access.
Context (jwt_decode : Z → string → string → option payload).
Context (cfg : auth_settings) (internal_key : string) (now : Z).

(** [_authenticate]; comparing texts that are not ASCII raises. *)
Definition authenticate (headers : gmap string string) : result unit (option principal) :=
  let supplied := default "" (headers !! "x-internal-api-key") in
  by_key ← (if bool_decide (internal_key = "") || bool_decide (supplied = "") then Ok false
            else if string_all is_ascii supplied && string_all is_ascii internal_key then Ok (bool_decide (supplied = internal_key))
            else Err tt);
  if by_key : bool then Ok (Some system_principal) else
  Ok (raw ← extract_token headers;
      match decode_token jwt_decode cfg now KAccess raw with
      | Err _ => None
      | Ok p => sub ← nonempty (p_sub p); Some (Principal (Some sub) (p_roles p) (p_tenants p) false)
      end).

(** ** The middleware *)

Record middleware := Middleware { mw_public : list string; mw_admin_mutations : bool; mw_tenant_scope : bool }.
Definition PUBLIC_DEFAULT : list string := ["/health"; "/healthz"; "/metrics"; "/ping"].
Definition is_public (mw : middleware) (path : string) : bool :=
  existsb (λ p, bool_decide (path = p) || starts_text (p +:+ "/") path) (mw_public mw).

Record request := Request {
  rq_type : string;
  rq_path : string;
  rq_method : string;
  rq_headers : list (string * string);
  rq_query : string;
}.
Definition headers_of (rq : request) : gmap string string :=
  foldl (λ m kv, <[lower_text kv.1 := kv.2]> m) ∅ (rq_headers rq).
Definition mutating (rq : request) : bool :=
  bool_decide (upper_text (rq_method rq) ∈ ["POST"; "PUT"; "PATCH"; "DELETE"]).

Inductive verdict := Forward (p : option principal) | Reject (code : Z) | Crash.

(** [AuthMiddleware.__call__]. *)
Definition middleware_call (mw : middleware) (rq : request) : verdict :=
  if negb (bool_decide (rq_type rq = "http")) then Forward None
  else if is_public mw (rq_path rq) then Forward None
  else match authenticate (headers_of rq) with
  | Err _ => Crash
  | Ok None => Reject 401
  | Ok (Some p) =>
    if mw_admin_mutations mw && mutating rq && negb (is_admin p) then Reject 403
    else if mw_tenant_scope mw && negb (pr_internal p) && negb (is_admin p)
      && negb (forallb (λ t, bool_decide (t ∈ pr_tenants p)) (tenant_ids_in_request (rq_path rq) (rq_query rq)))
    then Reject 403
    else Forward (Some p)
  end.

(** The dependencies: [verified_user], [require_admin], [require_principal] and
    [require_admin_principal]; a missing middleware is 500. *)
Definition verified_user (stashed : option principal) : http principal := of_option 500 stashed.
Definition require_admin (stashed : option principal) : http principal :=
  p ← verified_user stashed; raise_if (negb (is_admin p)) 403 ;; Ok p.
Definition require_principal (headers : list (string * string)) : result unit (http principal) :=
  o ← authenticate (foldl (λ m kv, <[lower_text kv.1 := kv.2]> m) ∅ headers); Ok (of_option 401 o).
Definition require_admin_principal (headers : list (string * string)) : result unit (http principal) :=
  r ← require_principal headers; Ok (p ← r; raise_if (negb (is_admin p)) 403 ;; Ok p).
End Access.

(** ** What is let through *)

(** The tenants a request names in the hyphenated spelling [_UUID_RE] knows, declaratively. A
    handler's [uuid.UUID] reads other spellings as well, which the middleware does not see
    ([undashed_tenant] below). *)
Definition names_hyphenated_tenant (rq : request) (t : string) : Prop :=
  uuid_re t = true ∧
  ((∃ l r, segments (rq_path rq) = (l ++ "tenants" :: t :: r)%list) ∨
   (∃ k, (k, t) ∈ parse_qsl (rq_query rq) ∧ lower_text k ∈ ["tenantid"; "tenant_id"])).

Lemma path_tenants_complete l t r : uuid_re t = true → t ∈ path_tenants (l ++ "tenants" :: t :: r)%list.
Proof.
  intros Ht. induction l as [|s l IH].
  - cbn [app path_tenants]. rewrite Ht. rewrite bool_decide_eq_true_2 by done. cbn. by apply list_elem_of_here.
  - change (t ∈ path_tenants (s :: (l ++ "tenants" :: t :: r))%list). revert IH.
    assert (∃ x k, (l ++ "tenants" :: t :: r)%list = x :: k) as (x&k&->) by (destruct l; cbn; eauto).
    intros IH. cbn [path_tenants]. case_match; [apply elem_of_cons; by right|done].
Qed.

Lemma named_tenants rq t : names_hyphenated_tenant rq t → t ∈ tenant_ids_in_request (rq_path rq) (rq_query rq).
Proof.
  intros [Ht [(l&r&Hs)|(k&Hk&Hl)]]; apply elem_of_app; [left|right].
  - rewrite Hs. by apply path_tenants_complete.
  - apply list_elem_of_omap. exists (k, t). split; [done|]. cbn [fst snd]. rewrite bool_decide_eq_true_2 by done. by rewrite Ht.
Qed.

Lemma uuid_re_str v : uuid_re (uuid_str v) = true.
Proof.
  unfold uuid_str. pose proof (length_hex_digits 32 v) as Hn. pose proof (hex_digits_hex 32 v) as Hl. revert Hn Hl.
  generalize (hex_digits 32 v) as l. intros l Hn Hl.
  do 32 (destruct l as [|? l]; [done|]). destruct l; [|done].
  repeat match goal with H : Forall _ (_ :: _) |- _ => apply Forall_cons in H as [? H] end.
  unfold uuid_re. cbn [dashed take drop app text_of uuid_from].
  repeat match goal with H : is_hex ?c = true |- _ => rewrite H; clear H end. by vm_compute.
Qed.

Section Authorized.
Context (jwt_decode : Z → string → string → option payload).
Context (cfg : auth_settings) (internal_key : string) (now : Z).

(** A principal the request proves: by the internal key, or by a token the service signed. *)
Definition proven (headers : gmap string string) (p : principal) : Prop :=
  (p = system_principal ∧ internal_key ≠ "" ∧ headers !! "x-internal-api-key" = Some internal_key) ∨
  (∃ raw pl sub, extract_token headers = Some raw ∧ decode_token jwt_decode cfg now KAccess raw = Ok pl ∧
     p_sub pl = Some sub ∧ sub ≠ "" ∧ p = Principal (Some sub) (p_roles pl) (p_tenants pl) false).

Lemma nonempty_Some o s : nonempty o = Some s → o = Some s ∧ s ≠ "".
Proof. unfold nonempty. intros H. repeat case_match; simplify_eq. split; [done|]. by case_bool_decide. Qed.

Lemma authenticate_proven headers p :
  authenticate jwt_decode cfg internal_key now headers = Ok (Some p) → proven headers p.
Proof.
  unfold authenticate. intros H. inv_ok. destruct x.
  - left. simplify_eq. repeat case_match; simplify_eq. bools. 
    destruct (headers !! "x-internal-api-key") eqn:E; cbn in *; naive_solver.
  - right. simplify_eq. destruct (extract_token headers) as [raw|] eqn:Er; [|done]. cbn in H0.
    destruct (decode_token _ _ _ _ _) as [pl|] eqn:Ed; [|done].
    destruct (nonempty (p_sub pl)) as [sub|] eqn:Es; [|done]. apply nonempty_Some in Es as [??]. cbn in H0. simplify_eq. eauto 10.
Qed.
End Authorized.

(** C8: The middleware lets an HTTP request outside the public paths through only with a
    principal the request proves (the internal key, or an access token signed by the
    service); changes only to admins where the service asks for that; and, where tenants are
    checked, every tenant that the path (after a [tenants] segment) or the query string
    ([tenantId], [tenant_id]) names in the hyphenated spelling of a UUID must be one of the caller's own,
    spelled as the caller's own is, unless the caller is an admin or a service. The theorem covers that spelling only: the check does not
    see a tenant spelled otherwise, for instance without hyphens, and lets such a request through. *)
Theorem forwarded_request_is_authorized jwt_decode cfg internal_key now mw rq o :
  middleware_call jwt_decode cfg internal_key now mw rq = Forward o →
  rq_type rq = "http" → is_public mw (rq_path rq) = false →
  ∃ p, o = Some p ∧ proven jwt_decode cfg internal_key now (headers_of rq) p ∧
    (mw_admin_mutations mw = true → mutating rq = true → is_admin p = true) ∧
    (mw_tenant_scope mw = true → is_admin p = false → pr_internal p = false →
     ∀ t, names_hyphenated_tenant rq t → t ∈ pr_tenants p).
Proof.
  unfold middleware_call. intros H Hhttp Hp. rewrite Hhttp, Hp in H. rewrite bool_decide_eq_true_2 in H by done. cbn [negb] in H.
  destruct (authenticate _ _ _ _ _) as [[p|]|] eqn:Ea; [|done..].
  destruct (mw_admin_mutations mw && mutating rq && negb (is_admin p)) eqn:Em; [done|].
  destruct (_ && _ && _ && _) eqn:Et in H; [done|]. injection H as <-.
  exists p. split; [done|]. split; [by apply authenticate_proven|]. split.
  - intros Ha Hm. rewrite Ha, Hm in Em. by apply negb_false_iff.
  - intros Hs Hadm Hint t Ht. rewrite Hs, Hadm, Hint in Et. cbn in Et.
    apply negb_false_iff in Et. rewrite forallb_forall in Et.
    apply named_tenants, list_elem_of_In, Et in Ht. by apply bool_decide_eq_true in Ht.
Qed.

(** ** Requests *)
Module AccessExample.
Definition cfg : auth_settings := AuthSettings "as" "rs" 1 30 60 true.
Definition tenant_a : string := "aaaaaaaa-0000-4000-8000-000000000001".
Definition tenant_b : string := "bbbbbbbb-0000-4000-8000-000000000002".
Definition decode (now : Z) (secret raw : string) : option payload :=
  if bool_decide (secret = "as") && bool_decide (raw = "tok")
  then Some (Payload (Some "access") (Some "u1") (Some "j") (Some 100) None ["USER"] None [tenant_a]) else None.
Definition mw : middleware := Middleware PUBLIC_DEFAULT true true.
Definition asks (meth path query : string) : request :=
  Request "http" path meth [("Cookie", "theme=dark; access_token=tok")] query.
Abbreviation call := (middleware_call decode cfg "key" 5000000 mw).
Definition user : principal := Principal (Some "u1") ["USER"] [tenant_a] false.

Example own_tenant : call (asks "GET" ("/api/v1/tenants/" +:+ tenant_a) "") = Forward (Some user).
Proof. by vm_compute. Qed.
Example other_tenant : call (asks "GET" "/api/v1/resources" ("page=1&TenantId=" +:+ tenant_b)) = Reject 403.
Proof. by vm_compute. Qed.
Example no_mutation : call (asks "delete" "/api/v1/resources/1" "") = Reject 403.
Proof. by vm_compute. Qed.
Example anonymous : call (Request "http" "/api/v1/jobs" "GET" [("Authorization", "Bearer undefined")] "") = Reject 401.
Proof. by vm_compute. Qed.
Example non_ascii_key : call (Request "http" "/x" "GET" [("X-Internal-Api-Key", String "233" "")] "") = Crash.
Proof. by vm_compute. Qed.

(** [uuid.UUID] reads spellings of a tenant that the check does not see: the request names
    tenant B for the handler, none for the middleware. *)
Example undashed_tenant :
  call (asks "GET" "/api/v1/resources/users" "tenantId=bbbbbbbb000040008000000000000002") = Forward (Some user) ∧
  canonical_uuid "bbbbbbbb000040008000000000000002" = Some tenant_b.
Proof. split; by vm_compute. Qed.
End AccessExample.

Lemma forwarded_request_is_authorized_witness :
  ∃ p, Some AccessExample.user = Some p ∧
    proven AccessExample.decode AccessExample.cfg "key" 5000000
      (headers_of (AccessExample.asks "GET" ("/api/v1/tenants/" +:+ AccessExample.tenant_a) "")) p ∧
    (mw_admin_mutations AccessExample.mw = true →
     mutating (AccessExample.asks "GET" ("/api/v1/tenants/" +:+ AccessExample.tenant_a) "") = true → is_admin p = true) ∧
    (mw_tenant_scope AccessExample.mw = true → is_admin p = false → pr_internal p = false →
     ∀ t, names_hyphenated_tenant (AccessExample.asks "GET" ("/api/v1/tenants/" +:+ AccessExample.tenant_a) "") t → t ∈ pr_tenants p).
Proof.
  apply (forwarded_request_is_authorized AccessExample.decode AccessExample.cfg "key" 5000000 AccessExample.mw);
    [exact AccessExample.own_tenant|done|by vm_compute].
Defined.
