(* ===== verification/GuestPath.v ===== *)
(** * Confinement of guest paths

    [confine_guest_path] of [src/shared/auth_enforcement.py]: a path an API caller supplies
    for the inside of a virtual machine must stay under the mount point of a volume. Python's
    [posixpath] and [ntpath] are modelled as they are used. *)

From S2P Require Import Prelude Text Tokens Access.
From Stdlib Require Import Ascii.
Local Open Scope string_scope.
Local Open Scope Z_scope.

(** ** The code *)

(** [posixpath.normpath] and [posixpath.join]. *)
Fixpoint join_text (c : ascii) (l : list string) : string :=
  match l with [] => "" | [s] => s | s :: l => s +:+ String c (join_text c l) end.
(** The components kept so far, the last one first. *)
Definition norm_step (rooted : bool) (acc : list string) (comp : string) : list string :=
  if bool_decide (comp = "") || bool_decide (comp = ".") then acc
  else if negb (bool_decide (comp = "..")) || (negb rooted && bool_decide (acc = [])) || bool_decide (head acc = Some "..") then comp :: acc
  else tail acc.
Definition posix_normpath (path : string) : string :=
  if bool_decide (path = "") then "." else
  let slashes := if starts_text "/" path
    then (if starts_text "//" path && negb (starts_text "///" path) then "//" else "/") else "" in
  let comps := rev (foldl (norm_step (negb (bool_decide (slashes = "")))) [] (split_text "/" path)) in
  let path := slashes +:+ join_text "/" comps in
  if bool_decide (path = "") then "." else path.
Definition ends_text (c : ascii) (s : string) : bool := bool_decide (last (chars_of s) = Some c).
Definition posix_join (a b : string) : string :=
  if starts_text "/" b then b
  else if bool_decide (a = "") || ends_text "/" a then a +:+ b
  else a +:+ "/" +:+ b.

(** The comparison both branches end with. *)
Definition confined (f r : string) (sep : ascii) : bool :=
  let r_trim := rstrip_by (Ascii.eqb sep) r in
  bool_decide (f = r) || bool_decide (f = r_trim) || starts_text (r_trim +:+ String sep "") f.

(** [confine_guest_path] on a POSIX guest; spaces are trimmed as ASCII spaces. *)
Definition confine_posix (root candidate : string) : http string :=
  let cand := strip_by ascii_space candidate in
  if bool_decide (cand = "") then Ok (posix_normpath root) else
  let full := posix_normpath (if starts_text "/" cand then cand else posix_join root cand) in
  if confined full (posix_normpath root) "/" then Ok full else Err 400.

(** [ntpath.splitroot]: drive, root and the rest. *)
Definition slash_to_back : string → string := string_map (λ c, if Ascii.eqb c "/" then "\"%char else c).
Definition find_from (start : nat) (c : ascii) (s : string) : option nat :=
  (λ a, (start + String.length a.1)%nat) <$> partition_text c (skip_text start s).
Definition splitroot (p : string) : string * string * string :=
  let normp := slash_to_back p in
  if starts_text "\" normp then
    if starts_text "\\" normp then
      let start := if bool_decide (upper_text (take_text 8 normp) = "\\?\UNC\") then 8%nat else 2%nat in
      match find_from start "\" normp with
      | None => (p, "", "")
      | Some i =>
        match find_from (S i) "\" normp with
        | None => (p, "", "")
        | Some j => (take_text j p, take_text 1 (skip_text j p), skip_text (S j) p)
        end
      end
    else ("", take_text 1 p, skip_text 1 p)
  else if bool_decide (take_text 1 (skip_text 1 normp) = ":") then
    if bool_decide (take_text 1 (skip_text 2 normp) = "\") then (take_text 2 p, take_text 1 (skip_text 2 p), skip_text 3 p)
    else (take_text 2 p, "", skip_text 2 p)
  else ("", "", p).

(** [ntpath.normpath], the components kept so far with the last one first. *)
Definition nt_step (rooted : bool) (acc : list string) (comp : string) : list string :=
  if bool_decide (comp = "") || bool_decide (comp = ".") then acc
  else if bool_decide (comp = "..") then
    match acc with
    | top :: below => if bool_decide (top = "..") then comp :: acc else below
    | [] => if rooted then [] else [comp]
    end
  else comp :: acc.
Definition nt_normpath (path : string) : string :=
  let '(drive, root, rest) := splitroot (slash_to_back path) in
  let comps := rev (foldl (nt_step (negb (bool_decide (root = "")))) [] (split_text "\" rest)) in
  if bool_decide (drive = "") && bool_decide (root = "") && bool_decide (comps = []) then "."
  else drive +:+ root +:+ join_text "\" comps.
(** [ntpath.join] of a root and a path without drive and root. *)
Definition nt_join (root cand : string) : string :=
  let '(drive, rt, rest) := splitroot root in
  let glue := if bool_decide (rest = "") || ends_text "\" rest || ends_text "/" rest then "" else "\" in
  let path := rest +:+ glue +:+ cand in
  if negb (bool_decide (path = "")) && bool_decide (rt = "") && negb (bool_decide (drive = ""))
    && negb (ends_text ":" drive || ends_text "\" drive || ends_text "/" drive)
  then drive +:+ "\" +:+ path else drive +:+ rt +:+ path.

(** [confine_guest_path] on a Windows guest; letters outside ASCII keep their case. *)
Definition confine_windows (root candidate : string) : http string :=
  let cand := strip_by ascii_space candidate in
  if bool_decide (cand = "") then Ok (nt_normpath root) else
  if starts_text "\\" cand || starts_text "//" cand then Err 400 else
  let is_abs := bool_decide (take_text 1 (skip_text 1 cand) = ":") || starts_text "\" cand || starts_text "/" cand in
  let full := nt_normpath (if is_abs then cand else nt_join root cand) in
  if confined (lower_text full) (lower_text (nt_normpath root)) "\" then Ok full else Err 400.

Definition confine_guest_path (root candidate : string) (is_windows : bool) : http string :=
  if is_windows then confine_windows root candidate else confine_posix root candidate.

Example confine_traversal : confine_posix "/mnt/vol1" "../../etc/shadow" = Err 400. Proof. by vm_compute. Qed.
Example confine_sibling : confine_posix "/mnt/vol1" "/mnt/vol10/x" = Err 400. Proof. by vm_compute. Qed.
Example confine_inside : confine_posix "/mnt/vol1/" "docs/./a/../report.txt" = Ok "/mnt/vol1/docs/report.txt". Proof. by vm_compute. Qed.
Example confine_win : confine_windows "C:\mnt\vol1" "Users/a\n.txt" = Ok "C:\mnt\vol1\Users\a\n.txt". Proof. by vm_compute. Qed.
Example confine_win_escape :
  confine_windows "C:\mnt\vol1" "..\..\Windows\NTDS\ntds.dit" = Err 400 ∧ confine_windows "C:\mnt\vol1" "/\server\share" = Err 400
  ∧ confine_windows "C:\" "c:windows" = Err 400 ∧ confine_windows "C:\" "\windows" = Err 400.
Proof. by vm_compute. Qed.

(** ** Components *)

Definition lacks (c : ascii) (s : string) : Prop := string_all (λ d, negb (Ascii.eqb d c)) s = true.

Lemma split_lacks c s t : t ∈ split_text c s → lacks c t.
Proof.
  revert t. induction s as [|d s IH]; intros t; cbn.
  - by intros ->%list_elem_of_singleton.
  - destruct (Ascii.eqb d c) eqn:E; [intros [->|?]%elem_of_cons; [done|auto]|].
    destruct (split_text c s) as [|h r]; [by intros ->%list_elem_of_singleton; unfold lacks; cbn; rewrite E|].
    intros [->|Ht]%elem_of_cons; [|by apply IH; apply elem_of_cons; right].
    unfold lacks. cbn. rewrite E. cbn. apply IH. by apply elem_of_cons; left.
Qed.

Lemma split_nonempty c s : split_text c s ≠ [].
Proof. destruct s; cbn; repeat case_match; done. Qed.

Lemma split_app c a b : split_text c (a +:+ String c b) = (split_text c a ++ split_text c b)%list.
Proof.
  induction a as [|d a IH].
  - change ("" +:+ String c b) with (String c b). cbn. by rewrite Ascii.eqb_refl.
  - change (String d a +:+ String c b) with (String d (a +:+ String c b)). cbn. rewrite IH.
    destruct (Ascii.eqb d c); [done|]. destruct (split_text c a) eqn:E; [by apply split_nonempty in E|done].
Qed.

Lemma split_single c s : lacks c s → split_text c s = [s].
Proof.
  induction s as [|d s IH]; [done|]. unfold lacks. cbn. intros [Hd Hs]%andb_true_iff. apply negb_true_iff in Hd.
  by rewrite Hd, IH.
Qed.

Lemma split_join c l : l ≠ [] → Forall (lacks c) l → split_text c (join_text c l) = l.
Proof.
  intros Hn Hl. induction Hl as [|s l Hs Hl IH]; [done|]. destruct l as [|t l]; [by apply split_single|].
  cbn [join_text]. rewrite split_app, split_single by done. cbn. f_equal. by apply IH.
Qed.

Lemma segments_app a b : segments (a +:+ String "/" b) = (segments a ++ segments b)%list.
Proof. unfold segments. by rewrite split_app, filter_app. Qed.
Lemma segments_slash b : segments (String "/" b) = segments b.
Proof. exact (segments_app "" b). Qed.

Lemma append_empty s : s +:+ "" = s.
Proof. induction s as [|d s IH]; [done|]. change (String d (s +:+ "") = String d s). by rewrite IH. Qed.

Lemma rstrip_split (c : ascii) s : ∃ n, s = rstrip_by (Ascii.eqb c) s +:+ text_of (replicate n c).
Proof.
  assert (H : ∀ l, ∃ n, l = (replicate n c ++ drop_chars (Ascii.eqb c) l)%list).
  { induction l as [|d l [n IH]]; [by exists 0%nat|]. cbn. destruct (Ascii.eqb_spec c d) as [<-|]; [|by exists 0%nat].
    exists (S n). cbn. by rewrite <- IH. }
  destruct (H (rev (chars_of s))) as [n Hn]. exists n. apply chars_of_inj. rewrite chars_of_app.
  unfold rstrip_by. rewrite !chars_of_text. apply (f_equal (@rev _)) in Hn.
  rewrite rev_involutive, rev_app_distr in Hn. rewrite Hn at 1. f_equal.
  clear. induction n as [|n IH]; [done|]. cbn. rewrite IH. clear. induction n as [|n IH]; [done|]. cbn. by rewrite IH.
Qed.

Lemma segments_rstrip s : segments (rstrip_by (Ascii.eqb "/") s) = segments s.
Proof.
  destruct (rstrip_split "/" s) as [n Hn]. rewrite Hn at 2.
  assert (He : segments (text_of (replicate n "/"%char)) = []).
  { clear. induction n as [|n IH]; [done|]. change (segments (String "/" (text_of (replicate n "/"%char))) = []). by rewrite segments_slash. }
  destruct n as [|n]; [change (text_of _) with ""; by rewrite append_empty|].
  change (text_of (replicate (S n) "/"%char)) with (String "/" (text_of (replicate n "/"%char))) in *.
  rewrite segments_slash in He. by rewrite segments_app, He, app_nil_r.
Qed.

Lemma starts_split p s : starts_text p s = true → ∃ b, s = p +:+ b.
Proof.
  revert s. induction p as [|c p IH]; intros s; [by exists s|]. destruct s as [|d s]; [done|]. cbn.
  intros [->%Ascii.eqb_eq [b ->]%IH]%andb_true_iff. by exists b.
Qed.

(** ** What is confined *)

(** A component of a normalised path. *)
Definition plain (s : string) : Prop := s ≠ "" ∧ s ≠ "." ∧ s ≠ ".." ∧ lacks "/" s.

Lemma norm_plain l acc :
  Forall (lacks "/") l → Forall plain acc → Forall plain (foldl (norm_step true) acc l).
Proof.
  intros Hl. revert acc. induction Hl as [|s l Hs Hl IH]; intros acc Ha; [done|]. cbn [foldl]. apply IH.
  unfold norm_step. destruct (bool_decide (s = "") || bool_decide (s = ".")) eqn:E1; [done|].
  apply orb_false_iff in E1 as [E1 E2]. apply bool_decide_eq_false in E1, E2.
  destruct (bool_decide_reflect (s = "..")) as [->|Hd]; cbn [negb orb andb].
  - destruct Ha as [|t acc Ht Ha]; cbn; [done|]. rewrite bool_decide_eq_false_2; [done|]. intros [= ->]. by destruct Ht as (_&_&?&_).
  - by constructor.
Qed.

Lemma segments_join l : Forall plain l → segments (join_text "/" l) = l.
Proof.
  intros Hl. destruct l as [|s l]; [done|]. unfold segments. rewrite split_join; [|done|].
  - apply list_filter_all. rewrite Forall_forall in Hl. by intros t [? _]%Hl.
  - eapply List.Forall_impl; [|exact Hl]. by intros t (_&_&_&?).
Qed.

Lemma normpath_plain p : starts_text "/" p = true → Forall plain (segments (posix_normpath p)) ∧ starts_text "/" (posix_normpath p) = true.
Proof.
  intros Hp. unfold posix_normpath. rewrite Hp. rewrite bool_decide_eq_false_2 by (by intros ->).
  set (comps := rev _).
  assert (Hc : Forall plain comps).
  { apply List.Forall_rev.
    match goal with |- Forall _ (foldl (norm_step ?b) _ _) => replace b with true by (by destruct (_ && _)) end.
    apply norm_plain; [|constructor]. rewrite Forall_forall. intros t. apply split_lacks. }
  assert (Hs : ∀ s, s = "/" ∨ s = "//" → Forall plain (segments (if bool_decide (s +:+ join_text "/" comps = "") then "." else s +:+ join_text "/" comps)) ∧
    starts_text "/" (if bool_decide (s +:+ join_text "/" comps = "") then "." else s +:+ join_text "/" comps) = true).
  { intros s [->| ->]; rewrite bool_decide_eq_false_2 by done; (split; [|done]).
    - change ("/" +:+ join_text "/" comps) with (String "/" (join_text "/" comps)). by rewrite segments_slash, segments_join.
    - change ("//" +:+ join_text "/" comps) with (String "/" (String "/" (join_text "/" comps))).
      by rewrite !segments_slash, segments_join. }
  apply Hs. destruct (_ && _); auto.
Qed.

Lemma confined_segments f r : confined f r "/" = true → ∃ rest, segments f = (segments r ++ rest)%list.
Proof.
  unfold confined. intros [[H|H]%orb_true_iff|H]%orb_true_iff.
  - apply bool_decide_eq_true in H as ->. exists []. by rewrite app_nil_r.
  - apply bool_decide_eq_true in H as ->. exists []. by rewrite segments_rstrip, app_nil_r.
  - apply starts_split in H as [b ->]. exists (segments b).
    rewrite <- (segments_rstrip r), <- segments_app. f_equal. apply chars_of_inj. by rewrite !chars_of_app, <- app_assoc.
Qed.

Lemma join_rooted root cand : starts_text "/" root = true →
  starts_text "/" (if starts_text "/" cand then cand else posix_join root cand) = true.
Proof.
  intros Hr. destruct (starts_text "/" cand) eqn:E; [done|]. unfold posix_join. rewrite E.
  destruct root as [|c root]; [done|]. cbn in Hr. by destruct (_ || _).
Qed.

(** C9: A guest path stays under its volume: for an absolute mount point, whatever path a
    caller supplies on a POSIX guest is refused or becomes an absolute path whose components
    begin with those of the mount point, none of them being a dot or a double dot. *)
Theorem guest_path_is_confined root candidate full :
  starts_text "/" root = true → confine_posix root candidate = Ok full →
  starts_text "/" full = true ∧ Forall plain (segments full) ∧
  ∃ rest, segments full = (segments (posix_normpath root) ++ rest)%list.
Proof.
  intros Hr. unfold confine_posix. set (cand := strip_by _ _). case_bool_decide.
  - intros [= <-]. destruct (normpath_plain root Hr). repeat split; [done|done|]. exists []. by rewrite app_nil_r.
  - destruct (confined _ _ _) eqn:E; [|done]. intros [= <-].
    destruct (normpath_plain _ (join_rooted root cand Hr)). repeat split; [done|done|]. by apply confined_segments.
Qed.

Lemma guest_path_is_confined_witness :
  starts_text "/" "/mnt/vol1/docs/report.txt" = true ∧ Forall plain (segments "/mnt/vol1/docs/report.txt") ∧
  ∃ rest, segments "/mnt/vol1/docs/report.txt" = (segments (posix_normpath "/mnt/vol1/") ++ rest)%list.
Proof. apply (guest_path_is_confined "/mnt/vol1/" "docs/./a/../report.txt"); by vm_compute. Defined.
