(* ===== verification/ExportAuthz.v ===== *)
(** * Authorization of exports and restores

    [src/services/job-service/export_authz.py]: the gate of every route that creates,
    describes or serves an export. Ids a caller supplies are only keys: the rows they lead
    to in the database decide.

    Identifiers are numbers ([Text.uuid_parse]). Trimming and lower-casing an address is
    [strip_lower]. Log lines and the texts of the errors are left out; an error is its
    status code. *)

From S2P Require Import Prelude Text Tokens.
From Stdlib Require Import Ascii.
Local Open Scope string_scope.
Local Open Scope Z_scope.

(** ** JSON bodies *)
Inductive json :=
  | JNull
  | JBool (b : bool)
  | JNum (z : Z)
  | JFloat
  | JStr (s : string)
  | JList (l : list json)
  | JObj (kvs : list (string * json)).
Abbreviation body := (list (string * json)).

Fixpoint dict_get (k : string) (d : body) : option json :=
  match d with [] => None | (k', v) :: d => if bool_decide (k' = k) then Some v else dict_get k d end.
Definition dget (k : string) (d : body) : json := default JNull (dict_get k d).
Fixpoint dict_set (k : string) (v : json) (d : body) : body :=
  match d with
  | [] => [(k, v)]
  | (k', v') :: d => if bool_decide (k' = k) then (k, v) :: d else (k', v') :: dict_set k v d
  end.

(** Python's truth. *)
Definition truthy (v : json) : bool :=
  match v with
  | JNull => false | JBool b => b | JNum z => negb (z =? 0) | JFloat => true
  | JStr s => negb (bool_decide (s = "")) | JList l => match l with [] => false | _ => true end
  | JObj l => match l with [] => false | _ => true end
  end.

(** [str(int)]. *)
Fixpoint dec_digits (fuel : nat) (z : Z) (acc : list ascii) : list ascii :=
  match fuel with
  | O => acc
  | S fuel => if z <? 10 then char (48 + z) :: acc else dec_digits fuel (z / 10) (char (48 + z mod 10) :: acc)
  end.
Definition decimal (z : Z) : string :=
  let l := dec_digits (S (Z.to_nat (Z.log2 (Z.abs z)))) (Z.abs z) [] in text_of (if z <? 0 then "-"%char :: l else l).

(** [_uuid_or_400]: only the text of a string or of an integer can be an identifier. *)
Definition uuid_or_400 (v : json) : http Z :=
  of_option 400 match v with JStr s => uuid_parse s | JNum z => uuid_parse (decimal z) | _ => None end.

(** ** The database *)
Record resource := Resource {
  rs_tenant : Z;
  rs_type : string;
  rs_parent : option Z;
  rs_email : option string;
  (** [user_principal_name] and [userPrincipalName] of its metadata. *)
  rs_upn : option string;
  rs_upn2 : option string;
}.
Record export_db := ExportDb {
  xd_resources : gmap Z resource;
  (** snapshot to resource, item to snapshot *)
  xd_snapshots : gmap Z Z;
  xd_items : gmap Z Z;
  xd_users : users_db;
}.
Record caller := Caller { ca_id : string; ca_email : option string; ca_roles : list string; ca_tenants : list string }.

Definition ADMIN_ROLES : list string := ["SUPER_ADMIN"; "ORG_ADMIN"; "TENANT_ADMIN"; "tenant_admin"].
Definition EXPORT_OPERATOR_ROLES : list string := ADMIN_ROLES ++ ["BACKUP_OPERATOR"; "RESTORE_OPERATOR"].
Definition is_admin (u : caller) : bool := existsb (λ r, bool_decide (r ∈ ADMIN_ROLES)) (ca_roles u).
Definition is_export_operator (u : caller) : bool := existsb (λ r, bool_decide (r ∈ EXPORT_OPERATOR_ROLES)) (ca_roles u).
Definition is_super_admin (u : caller) : bool := bool_decide ("SUPER_ADMIN" ∈ ca_roles u).
Definition subject_uuid (u : caller) : option string := canonical_uuid (ca_id u).

(** [entitled_tenants]: the claim if it names any tenant, else the database. *)
Definition entitled_tenants (d : export_db) (u : caller) : gset Z :=
  let claimed : gset Z := list_to_set (omap uuid_parse (ca_tenants u)) in
  if bool_decide (claimed = ∅)
  then list_to_set (omap uuid_parse (resolve_entitled_tenant_ids (xd_users d) (subject_uuid u)))
  else claimed.

Section ExportAuthz.
Context (strip_lower : string → string).

Definition has_address (email : string) (r : resource) : bool :=
  existsb (λ v, match nonempty v with Some s => bool_decide (strip_lower s = email) | None => false end) [rs_email r; rs_upn r; rs_upn2 r].
(** [owns_resource]. *)
Definition owns_resource (d : export_db) (u : caller) (r : resource) : bool :=
  let email := strip_lower (default "" (ca_email u)) in
  if bool_decide (email = "") then false
  else existsb (has_address email) (r :: option_list (rs_parent r ≫= λ p, xd_resources d !! p)).

(** [_ensure_tenant]: true when only the super admin's break-glass lets through. *)
Definition ensure_tenant (u : caller) (entitled : gset Z) (tenant : option Z) : http bool :=
  raise_if (bool_decide (ca_id u = "")) 401 ;;
  if match tenant with Some t => bool_decide (t ∈ entitled) | None => false end then Ok false
  else raise_if (negb (is_super_admin u)) 403 ;; Ok true.

Abbreviation targets := (gmap Z resource).
Definition rows_of (d : export_db) (want : gset Z) : targets := filter (λ kv, kv.1 ∈ want) (xd_resources d).

(** [resolve_export_targets]; every caller passes resource ids it has parsed. *)
Definition resolve_export_targets (d : export_db) (strict : bool) (resource_ids : list Z) (snapshot_ids item_ids : list json) : http targets :=
  sids ← mapR uuid_or_400 snapshot_ids;
  iids ← mapR uuid_or_400 item_ids;
  let snaps : gset Z := list_to_set (sids ++ omap (λ i, xd_items d !! i) iids) in
  let found := filter (λ s, is_Some (xd_snapshots d !! s)) snaps in
  raise_if (strict && negb (bool_decide (found = snaps))) 404 ;;
  let want : gset Z := list_to_set resource_ids ∪ list_to_set (omap (λ s, xd_snapshots d !! s) (elements snaps)) in
  if bool_decide (want = ∅) then Ok ∅ else
  let rows := rows_of d want in
  if bool_decide (dom rows = want) then Ok rows
  else if strict && bool_decide (snaps = ∅) && bool_decide (item_ids = []) then Err 404
  else Err 403.

Definition authorize_target (d : export_db) (u : caller) (entitled : gset Z) (r : resource) : http unit :=
  over ← ensure_tenant u entitled (Some (rs_tenant r));
  if over : bool then Ok tt
  else raise_if (negb (is_export_operator u) && negb (owns_resource d u r)) 403.

(** [_authorize_targets]. *)
Definition authorize_targets (d : export_db) (u : caller) (entitled : gset Z) (ts : targets) : http unit :=
  raise_if (bool_decide (ca_id u = "")) 401 ;;
  _ ← mapR (λ kv, authorize_target d u entitled kv.2) (map_to_list ts); Ok tt.

(** [authorize_export_scope]. *)
Definition authorize_export_scope (d : export_db) (u : caller) (resource_ids : list Z) (snapshot_ids item_ids : list json) : http targets :=
  raise_if (bool_decide (ca_id u = "")) 401 ;;
  ts ← resolve_export_targets d true resource_ids snapshot_ids item_ids;
  raise_if (bool_decide (ts = ∅)) 400 ;;
  authorize_targets d u (entitled_tenants d u) ts ;;
  Ok ts.

(** [ensure_resource_access]. *)
Definition ensure_resource_access (d : export_db) (u : caller) (resource_id : json) : http resource :=
  rid ← uuid_or_400 resource_id;
  ts ← authorize_export_scope d u [rid] [] [];
  of_option 500 (ts !! rid).

(** ** Destinations *)
Definition DESTINATION_RESOURCE_KEYS : list string := ["targetUserId"; "targetResourceId"].
Definition DESTINATION_OPERATOR_KEYS : list string :=
  ["targetEnvironmentId"; "newSiteName"; "newSiteAlias"; "newSiteOwnerEmail"; "azureRestoreParams"].
Definition NON_DESTINATION_SPEC_KEYS : list string :=
  ["exportFormat"; "includeAttachments"; "preserveTree"; "scope"; "folderPaths"; "excludedItemIds"; "contactFolders";
   "workloads"; "chatId"; "format"; "pstGranularity"; "pstIncludeTypes"; "includeNestedDetail"; "entraSections";
   "includeGroupMembership"; "includeAuMembership"; "conflictMode"; "targetFolder"; "overwrite"; "recoverMode"; "azureRestoreMode"].
Definition SPEC_KEYS : list string := NON_DESTINATION_SPEC_KEYS ++ DESTINATION_RESOURCE_KEYS ++ DESTINATION_OPERATOR_KEYS.

(** [_DESTINATION_SHAPED]. *)
Definition is_destination_shaped (key : string) : bool :=
  let k := lower_text key in
  existsb (λ p, starts_text p k) ["target"; "destination"; "restoreto"; "restore_to"; "newsite"; "new_site"; "newowner"; "new_owner"].

Definition is_set (v : json) : bool :=
  match v with JNull => false | JStr s => negb (bool_decide (s = "")) | JList [] => false | JObj [] => false | _ => true end.

(** [assert_destinations_classified]. *)
Definition assert_destinations_classified (keys : list string) : http unit :=
  raise_if (existsb (λ k, negb (bool_decide (k ∈ SPEC_KEYS)) && is_destination_shaped k) keys) 500.

(** [authorize_restore_destinations]. *)
Definition authorize_restore_destinations (d : export_db) (u : caller) (spec : body) : http (list (string * Z)) :=
  assert_destinations_classified spec.*1 ;;
  raise_if (bool_decide (ca_id u = "")) 401 ;;
  raise_if (existsb (λ k, is_set (dget k spec)) DESTINATION_OPERATOR_KEYS && negb (is_export_operator u)) 403 ;;
  wanted ← mapR (λ k, i ← uuid_or_400 (dget k spec); Ok (k, i))
    (filter (λ k, is_set (dget k spec) = true) DESTINATION_RESOURCE_KEYS);
  let want : gset Z := list_to_set wanted.*2 in
  if bool_decide (wanted = []) then Ok []
  else
    let found := rows_of d want in
    raise_if (negb (bool_decide (dom found = want))) 403 ;;
    authorize_targets d u (entitled_tenants d u) found ;;
    Ok wanted.
End ExportAuthz.

(** ** What the gate establishes *)
Section AuthzFacts.
Context (strip_lower : string → string).

(** The rules: a tenant of the caller's and, for a caller who is no operator, an own
    resource; the super admin may do everything. *)
Definition authorized (d : export_db) (u : caller) (r : resource) : Prop :=
  ca_id u ≠ "" ∧
  (is_super_admin u = true ∨
   (rs_tenant r ∈ entitled_tenants d u ∧
    (is_export_operator u = true ∨ owns_resource strip_lower d u r = true))).

(** The resources the ids of a scope lead to. *)
Inductive behind (d : export_db) (resource_ids : list Z) (snapshot_ids item_ids : list json) (i : Z) : Prop :=
  | behind_resource : i ∈ resource_ids → behind d resource_ids snapshot_ids item_ids i
  | behind_snapshot v s : v ∈ snapshot_ids → uuid_or_400 v = Ok s → xd_snapshots d !! s = Some i →
      behind d resource_ids snapshot_ids item_ids i
  | behind_item v it s : v ∈ item_ids → uuid_or_400 v = Ok it → xd_items d !! it = Some s → xd_snapshots d !! s = Some i →
      behind d resource_ids snapshot_ids item_ids i.

Lemma mapR_elem {A B} (f : A → http B) l ks b : mapR f l = Ok ks → b ∈ ks ↔ ∃ a, a ∈ l ∧ f a = Ok b.
Proof.
  intros H. apply mapR_Ok in H. induction H as [|a k l ks Ha H IH].
  - split; [by intros ?%not_elem_of_nil|by intros (?&?%not_elem_of_nil&_)].
  - rewrite elem_of_cons, IH. split.
    + intros [->|(x&?&?)]; [exists a|exists x]; (split; [apply elem_of_cons; auto|done]).
    + intros (x&[->|?]%elem_of_cons&Hx); [left; congruence|right; eauto].
Qed.
Lemma mapR_each {A B} (f : A → http B) l ks a : mapR f l = Ok ks → a ∈ l → ∃ b, f a = Ok b.
Proof. intros H Ha. apply mapR_Ok in H. induction H; [by apply not_elem_of_nil in Ha|]. apply elem_of_cons in Ha as [->|?]; eauto. Qed.

Lemma rows_of_lookup d want i r : rows_of d want !! i = Some r ↔ i ∈ want ∧ xd_resources d !! i = Some r.
Proof. unfold rows_of. rewrite map_lookup_filter_Some. naive_solver. Qed.

Lemma authorize_targets_spec d u ts :
  authorize_targets strip_lower d u (entitled_tenants d u) ts = Ok tt →
  ∀ i r, ts !! i = Some r → authorized d u r.
Proof.
  unfold authorize_targets. intros H i r Hi. inv_ok. apply bool_decide_eq_false in H.
  eapply mapR_each in H0 as [b Hb]; [|apply elem_of_map_to_list; exact Hi]. cbn in Hb.
  unfold authorize_target, ensure_tenant in Hb. inv_ok.
  split; [done|]. destruct (bool_decide (rs_tenant r ∈ entitled_tenants d u)) eqn:Ee.
  - simplify_eq. inv_ok. right. split; [by apply bool_decide_eq_true in Ee|].
    destruct (is_export_operator u); [by left|]. right. by destruct (owns_resource _ _ _ _).
  - inv_ok. left. by apply negb_false_iff.
Qed.

Lemma resolve_spec d strict rids sids iids ts :
  resolve_export_targets d strict rids sids iids = Ok ts →
  ∀ i, (behind d rids sids iids i ↔ is_Some (ts !! i)) ∧ ∀ r, ts !! i = Some r → xd_resources d !! i = Some r.
Proof.
  unfold resolve_export_targets. intros H i.
  apply bind_Ok in H as (ss&Hs&H). apply bind_Ok in H as (its&Hi&H).
  apply bind_Ok in H as (_&_&H).
  set (snaps := list_to_set (ss ++ omap (λ i, xd_items d !! i) its) : gset Z) in H.
  set (want := list_to_set rids ∪ list_to_set (omap (λ s, xd_snapshots d !! s) (elements snaps)) : gset Z) in H.
  assert (Hw : i ∈ want ↔ behind d rids sids iids i).
  { unfold want, snaps. rewrite elem_of_union, !elem_of_list_to_set, list_elem_of_omap.
    setoid_rewrite elem_of_elements. setoid_rewrite elem_of_list_to_set. setoid_rewrite elem_of_app.
    setoid_rewrite (mapR_elem _ _ _ _ Hs). setoid_rewrite list_elem_of_omap. setoid_rewrite (mapR_elem _ _ _ _ Hi).
    split.
    - intros [?|(s&[(v&?&?)|(it&(v&?&?)&?)]&?)];
        [by eapply behind_resource|by eapply behind_snapshot|by eapply behind_item].
    - intros [?|v s ???|v it s ????]; [left|right; exists s|right; exists s]; eauto 10. }
  case_bool_decide as Hz.
  - simplify_eq. rewrite lookup_empty. rewrite <- Hw, Hz. split; [|done]. split; [set_solver|by intros [? ?]].
  - case_bool_decide as Hd; [|by case_match]. simplify_eq.
    split; [|intros r [_ ?]%rows_of_lookup; done].
    by rewrite <- Hw, <- elem_of_dom, Hd.
Qed.

Lemma scope_authorized d u rids sids iids ts i r :
  authorize_export_scope strip_lower d u rids sids iids = Ok ts → ts !! i = Some r → authorized d u r.
Proof.
  unfold authorize_export_scope. intros H. apply bind_Ok in H as (_&_&H). apply bind_Ok in H as (ts'&Hts&H).
  apply bind_Ok in H as (_&_&H). apply bind_Ok in H as ([]&Ha&H). simplify_eq. by eapply authorize_targets_spec.
Qed.

Lemma resolve_scope d u rids sids iids ts :
  authorize_export_scope strip_lower d u rids sids iids = Ok ts →
  ts ≠ ∅ ∧ ∀ i r, ts !! i = Some r → xd_resources d !! i = Some r.
Proof.
  unfold authorize_export_scope. intros H. apply bind_Ok in H as (_&_&H). apply bind_Ok in H as (ts'&Hts&H).
  apply bind_Ok in H as ([]&Hne&H). apply bind_Ok in H as (_&_&H). simplify_eq.
  apply raise_if_Ok, bool_decide_eq_false in Hne. split; [done|]. intros i. by apply (resolve_spec _ _ _ _ _ _ Hts i).
Qed.

Lemma scope_behind d u rids sids iids ts i :
  authorize_export_scope strip_lower d u rids sids iids = Ok ts → behind d rids sids iids i ↔ i ∈ dom ts.
Proof.
  unfold authorize_export_scope. intros H. apply bind_Ok in H as (_&_&H). apply bind_Ok in H as (ts'&Hts&H).
  apply bind_Ok in H as (_&_&H). apply bind_Ok in H as (_&_&H). simplify_eq. rewrite elem_of_dom.
  apply (resolve_spec _ _ _ _ _ _ Hts i).
Qed.

(** The export gate is complete: when a scope passes, it leads to at least one resource,
    and every resource that any of its resource, snapshot or item ids leads to exists, lies in
    a tenant of the caller and belongs to the caller, unless an operator (inside those
    tenants) or the super admin asks. *)
Lemma export_scope_is_authorized d u rids sids iids ts :
  authorize_export_scope strip_lower d u rids sids iids = Ok ts →
  (∃ i, behind d rids sids iids i) ∧
  ∀ i, behind d rids sids iids i → ∃ r, ts !! i = Some r ∧ xd_resources d !! i = Some r ∧ authorized d u r.
Proof.
  unfold authorize_export_scope. intros H. apply bind_Ok in H as (_&_&H). apply bind_Ok in H as (ts'&Hts&H).
  apply bind_Ok in H as ([]&Hne&H). apply bind_Ok in H as ([]&Ha&H). simplify_eq.
  apply raise_if_Ok, bool_decide_eq_false in Hne. split.
  - apply map_choose in Hne as (i&r&Hi). exists i. apply (resolve_spec _ _ _ _ _ _ Hts i). eauto.
  - intros i Hb. destruct (resolve_spec _ _ _ _ _ _ Hts i) as [Hs Hrow]. apply Hs in Hb as [r Hr].
    exists r. split; [done|]. split; [auto|]. by eapply authorize_targets_spec.
Qed.

(** Destinations of a restore. *)
Lemma dest_rows d u spec dest :
  authorize_restore_destinations strip_lower d u spec = Ok dest →
  ∀ k i, (k, i) ∈ dest → ∃ r, xd_resources d !! i = Some r ∧ authorized d u r.
Proof.
  unfold authorize_restore_destinations, assert_destinations_classified. intros H.
  apply bind_Ok in H as ([]&_&H). apply bind_Ok in H as ([]&_&H). apply bind_Ok in H as ([]&_&H).
  apply bind_Ok in H as (wanted&_&H). case_bool_decide; [simplify_eq; by intros ?? ?%not_elem_of_nil|].
  apply bind_Ok in H as ([]&Hd&H). apply bind_Ok in H as ([]&Ha&H). simplify_eq. intros k i Hki.
  apply raise_if_Ok, negb_false_iff, bool_decide_eq_true in Hd.
  assert (Hin : i ∈ dom (rows_of d (list_to_set dest.*2))).
  { rewrite Hd, elem_of_list_to_set. apply list_elem_of_fmap. by exists (k, i). }
  apply elem_of_dom in Hin as [r Hr]. exists r. split; [by apply rows_of_lookup in Hr as [_ ?]|]. by eapply authorize_targets_spec.
Qed.

Lemma destinations_authorized d u spec dest :
  authorize_restore_destinations strip_lower d u spec = Ok dest →
  (∀ k, k ∈ spec.*1 → is_destination_shaped k = true → k ∈ SPEC_KEYS) ∧
  (∀ k, k ∈ DESTINATION_OPERATOR_KEYS → is_set (dget k spec) = true → is_export_operator u = true) ∧
  (∀ k, k ∈ DESTINATION_RESOURCE_KEYS → is_set (dget k spec) = true →
    ∃ i r, (k, i) ∈ dest ∧ uuid_or_400 (dget k spec) = Ok i ∧ xd_resources d !! i = Some r ∧ authorized d u r).
Proof.
  intros H. pose proof (dest_rows _ _ _ _ H) as Hrows. revert H.
  unfold authorize_restore_destinations, assert_destinations_classified. intros H.
  apply bind_Ok in H as ([]&Hc&H). apply bind_Ok in H as ([]&_&H). apply bind_Ok in H as ([]&Ho&H).
  apply bind_Ok in H as (wanted&Hw&H). apply raise_if_Ok in Hc, Ho.
  split; [|split].
  - intros k Hk Hs. rewrite existsb_Forall, Forall_forall in Hc. specialize (Hc k Hk).
    rewrite Hs, andb_true_r in Hc. by apply negb_false_iff, bool_decide_eq_true in Hc.
  - intros k Hk Hs. destruct (is_export_operator u); [done|]. rewrite andb_true_r, existsb_Forall, Forall_forall in Ho.
    apply Ho in Hk. congruence.
  - intros k Hk Hs.
    destruct (mapR_each _ _ _ k Hw) as [[k' i] Hi]; [by apply list_elem_of_filter|].
    assert (Hki : (k', i) ∈ wanted) by (eapply mapR_elem; [done|]; exists k; split; [by apply list_elem_of_filter|done]).
    apply bind_Ok in Hi as (i'&Hi&?). simplify_eq.
    assert (dest = wanted) as ->.
    { case_bool_decide; [by simplify_eq|]. apply bind_Ok in H as ([]&_&H). apply bind_Ok in H as ([]&_&H). by simplify_eq. }
    destruct (Hrows _ _ Hki) as (r&?&?). eauto 10.
Qed.
End AuthzFacts.
