(* ===== verification/ExportJobs.v ===== *)
(** * Export and restore jobs

    The routes of [src/services/job-service/main.py] that create and serve exports and
    restores, on top of the gate of [ExportAuthz]: the guard against an empty selection, the
    spec a job is queued with, the stamp of what was authorized and the check of whoever
    reads the job later; the choice of the queue ([src/shared/message_bus.py] and
    [src/shared/export_routing.py]).

    What a chat selection answers ([chat]), the estimate of the selected bytes and the
    digest are inputs. The id fields of a body are lists or null; anything else is refused
    here with one error where the code raises in several places. Publishing and the audit
    trail are left out. *)

From S2P Require Import Prelude Text Tokens ExportAuthz.
From Stdlib Require Import Ascii.
Local Open Scope string_scope.
Local Open Scope Z_scope.

Definition ids_of (k : string) (req : body) : http (list json) :=
  match dget k req with
  | JList l => Ok l
  | v => if truthy v then Err 400 else Ok []
  end.
Definition dget_or (dflt : json) (k : string) (d : body) : json := default dflt (dict_get k d).

(** ** The guard against an empty selection *)
Definition word (v : json) : string := match v with JStr s => strip_by ascii_space s | _ => "" end.

(** [_declared_scope]. *)
Inductive declared := DeclaredSelected | DeclaredAll.
Definition declared_scope (req : body) : option declared :=
  head (omap (λ k,
    let w := upper_text (word (dget k req)) in
    if bool_decide (w ∈ ["SELECTED"; "SELECTION"; "ITEMS"]) then Some DeclaredSelected
    else if bool_decide (w ∈ ["ALL"; "FULL"; "EVERYTHING"; "WHOLE"]) then Some DeclaredAll
    else None) ["selectionScope"; "restoreScope"; "exportScope"]).

(** [_implies_full_scope]. *)
Definition implies_full_scope (req : body) : bool :=
  bool_decide (lower_text (word (dget "recoverMode" req)) ∈ ["directory"; "all"; "full"])
  || bool_decide (lower_text (word (dget "scope" req)) = "site")
  || existsb (λ k, is_set (dget k req))
       ["workloads"; "entraSections"; "folderPaths"; "azureRestoreParams"; "azureRestoreMode"; "newSiteName"].

(** [assert_selection_not_empty]; [require_explicit] is [RESTORE_REQUIRE_EXPLICIT_SCOPE]. *)
Definition assert_selection_not_empty (require_explicit : bool) (req : body) (item_ids : list json) : http unit :=
  match dget "chatId" req with
  | JNull =>
    if bool_decide (item_ids ≠ []) then Ok tt
    else if truthy (dget "folderPaths" req) then Ok tt
    else match declared_scope req with
    | Some DeclaredAll => Ok tt
    | sc => if implies_full_scope req then Ok tt
            else match sc with None => raise_if require_explicit 400 | Some _ => Err 400 end
    end
  | chat_id =>
    raise_if (bool_decide (word chat_id = "") || bool_decide (item_ids ≠ [])
      || negb (match dget "folderPaths" req with JList l => Nat.leb (length l) 1 | v => negb (truthy v) end)
      || match dget "restoreType" req with JStr s => bool_decide (s = "EXPORT_PST") | _ => false end) 400
  end.

(** ** Jobs *)
Record job := Job {
  jb_tenant : option Z;
  jb_resource : option Z;
  jb_spec : body;
  jb_status : string;
}.

(** [_parse_uuid]: a value that is no text and not empty raises inside the library. *)
Definition parse_uuid (v : json) : http (option Z) :=
  if negb (truthy v) then Ok None
  else match v with JStr s => i ← of_option 400 (uuid_parse s); Ok (Some i) | _ => Err 500 end.

(** The snapshot a job is filed under, and the snapshot ids it then carries. *)
Definition job_snapshot (d : export_db) (sids iids : list json) : http (option Z * list json) :=
  o ← match sids with
      | s :: _ => i ← parse_uuid s; Ok (i ≫= λ i, (λ _, i) <$> xd_snapshots d !! i)
      | [] => Ok None
      end;
  match o, iids with
  | Some s, _ => Ok (Some s, sids)
  | None, it :: _ =>
    i ← parse_uuid it;
    match i ≫= λ i, xd_items d !! i with
    | Some s => match xd_snapshots d !! s with
        | Some _ => Ok (Some s, match sids with [] => [JStr (uuid_str s)] | _ => sids end)
        | None => Ok (None, sids)
        end
    | None => Ok (None, sids)
    end
  | None, [] => Ok (None, sids)
  end.
Definition job_resource (d : export_db) (s : option Z) : option Z := s ≫= λ s, xd_snapshots d !! s.
Definition job_tenant (d : export_db) (s : option Z) : option Z :=
  job_resource d s ≫= λ r, rs_tenant <$> xd_resources d !! r.

(** ** The stamp *)
Definition AUTHORIZED_SCOPE_KEY : string := "authorized_scope".

Definition id_text (v : json) : string := match v with JStr s => lower_text s | JNum z => decimal z | _ => "" end.
Definition same_id (v w : json) : bool :=
  match v, w with JStr s, JStr t => bool_decide (s = t) | JNum a, JNum b => a =? b | _, _ => false end.
(** [spec_scope_ids]. *)
Definition spec_scope_ids (spec : body) (names : list string) : list json :=
  foldl (λ out v, if existsb (same_id v) out then out else out ++ [v])%list []
    (names ≫= λ k, match dget k spec with JList l => l | _ => [] end)%list.
Definition snapshot_names : list string := ["snapshot_ids"; "snapshotIds"].
Definition item_names : list string := ["item_ids"; "itemIds"].

Definition text_before (a b : string) : Prop := String.leb a b = true.
Global Instance text_before_dec : RelDecision text_before.
Proof. intros a b. unfold text_before. apply _. Defined.
Definition sort_text (l : list string) : list string := merge_sort text_before l.
Fixpoint join_text (sep : string) (l : list string) : string :=
  match l with [] => "" | [s] => s | s :: l => s +:+ sep +:+ join_text sep l end.

Section ExportJobs.
Context (strip_lower : string → string) (digest : string → string).

(** [_scope_sha]. *)
Definition scope_sha (spec : body) (resource_id : option Z) : string :=
  digest (join_text (String "031" "") [
    join_text "," (sort_text (id_text <$> spec_scope_ids spec snapshot_names));
    join_text "," (sort_text (id_text <$> spec_scope_ids spec item_names));
    from_option uuid_str "" resource_id]).

(** [authorized_scope_stamp]. *)
Definition authorized_scope_stamp (spec : body) (resource_id : option Z) (resource_ids : gset Z) : json :=
  JObj [("v", JNum 1); ("resource_ids", JList (JStr <$> sort_text (uuid_str <$> elements resource_ids)));
        ("scope_sha", JStr (scope_sha spec resource_id))].

(** [_stamped_scope]. *)
Definition stamped_scope (j : job) : option (gset Z) :=
  match dget AUTHORIZED_SCOPE_KEY (jb_spec j) with
  | JObj stamp =>
    match dget "v" stamp, dget "scope_sha" stamp, dget "resource_ids" stamp with
    | (JNum 1 | JBool true), JStr sha, JList raws =>
      if bool_decide (sha = scope_sha (jb_spec j) (jb_resource j)) then
        match mapR uuid_or_400 raws with
        | Ok ((_ :: _) as ids) => Some (list_to_set ids ∪ list_to_set (option_list (jb_resource j)))
        | _ => None
        end
      else None
    | _, _, _ => None
    end
  | _ => None
  end.

(** [_targets_from_stamp]. *)
Definition targets_from_stamp (d : export_db) (j : job) : option (gmap Z resource) :=
  wanted ← stamped_scope j;
  let rows := rows_of d wanted in if bool_decide (dom rows = wanted) then Some rows else None.

(** [ensure_job_access]. *)
Definition ensure_job_access (d : export_db) (u : caller) (j : job) : http unit :=
  let entitled := entitled_tenants d u in
  over ← ensure_tenant u entitled (jb_tenant j);
  if over : bool then Ok tt else
  ts ← match targets_from_stamp d j with
       | Some ts => Ok ts
       | None => resolve_export_targets d false (option_list (jb_resource j))
           (spec_scope_ids (jb_spec j) snapshot_names) (spec_scope_ids (jb_spec j) item_names)
       end;
  if bool_decide (ts = ∅) then raise_if (negb (is_export_operator u)) 403
  else authorize_targets strip_lower d u entitled ts.

(** ** Creating jobs *)
Definition write_destinations (dest : list (string * Z)) (spec : body) : body :=
  foldl (λ sp kv, dict_set kv.1 (JStr (uuid_str kv.2)) sp) spec dest.

(** The keys of the body an export takes over. *)
Definition allowed_keys (req : body) : body :=
  omap (λ k, (λ v, (k, v)) <$> dict_get k req) SPEC_KEYS.

Record queued := Queued { q_job : job; q_sids : list json; q_iids : list json; q_dest : list (string * Z) }.

(** [trigger_export]. *)
Definition trigger_export (require_explicit : bool) (chat : http unit) (d : export_db) (u : caller) (req : body) : http queued :=
  sids ← ids_of "snapshotIds" req;
  iids ← ids_of "itemIds" req;
  assert_selection_not_empty require_explicit req iids ;;
  ts ← authorize_export_scope strip_lower d u [] sids iids;
  chat ;;
  sn ← job_snapshot d sids iids;
  let rid := job_resource d sn.1 in
  let spec := dict_set "userEmail" (JStr (default "" (ca_email u))) (dict_set "userId" (JStr (ca_id u))
      ([("restore_type", dget_or (JStr "EXPORT_ZIP") "restoreType" req); ("snapshot_ids", JList sn.2); ("item_ids", JList iids)]
       ++ allowed_keys req)%list) in
  dest ← authorize_restore_destinations strip_lower d u spec;
  let spec := write_destinations dest spec in
  let spec := dict_set AUTHORIZED_SCOPE_KEY (authorized_scope_stamp spec rid (dom ts ∪ list_to_set dest.*2)) spec in
  Ok (Queued (Job (job_tenant d sn.1) rid spec "QUEUED") sids iids dest).

(** The spec [trigger_restore] builds. *)
Definition restore_spec (req : body) : body :=
  let get k := dget k req in
  let flag dflt k := JBool (truthy (dget_or (JBool dflt) k req)) in
  let or_else dflt v := if truthy v then v else dflt in
  [("targetUserId", get "targetUserId"); ("targetResourceId", get "targetResourceId");
   ("targetEnvironmentId", get "targetEnvironmentId"); ("exportFormat", get "exportFormat");
   ("preserveTree", flag false "preserveTree"); ("targetFolder", get "targetFolder");
   ("overwrite", dget_or (JBool false) "overwrite" req); ("entraSections", get "entraSections");
   ("format", get "format"); ("includeNestedDetail", flag false "includeNestedDetail");
   ("recoverMode", get "recoverMode"); ("includeGroupMembership", flag true "includeGroupMembership");
   ("includeAuMembership", flag true "includeAuMembership"); ("workloads", get "workloads");
   ("folderPaths", or_else (JList []) (get "folderPaths")); ("chatId", get "chatId");
   ("excludedItemIds", or_else (JList []) (get "excludedItemIds")); ("conflictMode", or_else JNull (get "conflictMode"));
   ("azureRestoreParams", dget_or (JObj []) "azureRestoreParams" req); ("azureRestoreMode", get "azureRestoreMode");
   ("contactFolders", get "contactFolders"); ("newSiteName", get "newSiteName");
   ("newSiteAlias", get "newSiteAlias"); ("newSiteOwnerEmail", get "newSiteOwnerEmail")].

(** [trigger_restore]; [total_bytes] is the estimate. *)
Definition trigger_restore (require_explicit : bool) (chat : http unit) (total_bytes : Z) (d : export_db) (u : caller) (req : body) : http queued :=
  raise_if (bool_decide (req = [])) 400 ;;
  sids ← ids_of "snapshotIds" req;
  iids ← ids_of "itemIds" req;
  assert_selection_not_empty require_explicit req iids ;;
  let spec := restore_spec req in
  ts ← authorize_export_scope strip_lower d u [] sids iids;
  chat ;;
  dest ← authorize_restore_destinations strip_lower d u spec;
  let spec := write_destinations dest spec in
  sn ← job_snapshot d sids iids;
  let rid := job_resource d sn.1 in
  let job_spec :=
    ([("restore_type", dget_or (JStr "IN_PLACE") "restoreType" req); ("snapshot_ids", JList sn.2); ("item_ids", JList iids)]
     ++ spec ++ [("totalBytes", JNum total_bytes); ("userId", JStr (ca_id u)); ("userEmail", JStr (default "" (ca_email u)))])%list in
  let job_spec := dict_set AUTHORIZED_SCOPE_KEY (authorized_scope_stamp job_spec rid (dom ts ∪ list_to_set dest.*2)) job_spec in
  Ok (Queued (Job (job_tenant d sn.1) rid job_spec "QUEUED") sids iids dest).

(** ** Routes around them *)

Definition FILES_FAMILY : list string := ["ONEDRIVE"; "USER_ONEDRIVE"; "SHAREPOINT_SITE"; "TEAMS_CHANNEL"; "M365_GROUP"].
Definition in_files_family (t : string) : bool := bool_decide (upper_text t ∈ FILES_FAMILY).
Definition resource_family (t : string) : string := if in_files_family t then "FILES" else upper_text t.

(** [(value or "").upper()]. *)
Definition upper_or_empty (v : json) : http string :=
  match v with JStr s => Ok (upper_text s) | v => if truthy v then Err 500 else Ok "" end.

(** [files_export_or_restore]. *)
Definition files_export_or_restore (require_explicit : bool) (chat : http unit) (total_bytes : Z)
    (d : export_db) (u : caller) (resource_id : string) (req : body) : http queued :=
  r ← ensure_resource_access strip_lower d u (JStr resource_id);
  raise_if (negb (in_files_family (rs_type r))) 400 ;;
  restore_type ← upper_or_empty (dget "restoreType" req);
  raise_if (negb (bool_decide (restore_type ∈ ["EXPORT_ZIP"; "IN_PLACE"; "CROSS_RESOURCE"]))) 400 ;;
  raise_if (negb (truthy (dget "snapshotId" req))) 400 ;;
  iids ← ids_of "itemIds" req;
  folders ← ids_of "folderPaths" req;
  excluded ← ids_of "excludedItemIds" req;
  raise_if (bool_decide (iids = []) && bool_decide (folders = [])) 400 ;;
  conflict ← upper_or_empty (dget "conflictMode" req);
  raise_if (bool_decide (restore_type = "IN_PLACE") && negb (bool_decide (conflict ∈ ["OVERWRITE"; "SEPARATE_FOLDER"]))) 400 ;;
  (if bool_decide (restore_type = "CROSS_RESOURCE") then
     raise_if (negb (truthy (dget "targetResourceId" req))) 400 ;;
     tid ← of_option 500 match dget "targetResourceId" req with JStr s => uuid_parse s | _ => None end;
     target ← of_option 404 (xd_resources d !! tid);
     raise_if (negb (rs_tenant target =? rs_tenant r)) 400 ;;
     raise_if (negb (bool_decide (resource_family (rs_type target) = resource_family (rs_type r)))) 400
   else Ok tt) ;;
  trigger_restore require_explicit chat total_bytes d u [
    ("restoreType", JStr restore_type); ("snapshotIds", JList [dget "snapshotId" req]); ("itemIds", JList iids);
    ("folderPaths", JList folders); ("excludedItemIds", JList excluded);
    ("preserveTree", JBool (truthy (dget_or (JBool (negb (bool_decide (folders = [])))) "preserveTree" req)));
    ("conflictMode", if bool_decide (conflict = "") then JNull else JStr conflict);
    ("targetResourceId", dget "targetResourceId" req);
    ("exportFormat", if truthy (dget "exportFormat" req) then dget "exportFormat" req
                     else if bool_decide (restore_type = "EXPORT_ZIP") then JStr "ZIP" else JNull)].

(** [sharepoint_download] up to the choice of what is downloaded. *)
Definition sharepoint_gate (d : export_db) (u : caller) (resource_id : string) (req : body) : http (string * resource) :=
  scope ← match dget "scope" req with JStr s => Ok (lower_text s) | v => if truthy v then Err 500 else Ok "" end;
  raise_if (negb (bool_decide (scope ∈ ["site"; "folder"; "file"]))) 400 ;;
  r ← ensure_resource_access strip_lower d u (JStr resource_id);
  raise_if (negb (bool_decide (rs_type r = "SHAREPOINT"))) 400 ;;
  Ok (scope, r).

(** [get_export_status], [get_restore_status] and the gate of [download_export_zip]. *)
Definition job_status (d : export_db) (u : caller) (jobs : gmap Z job) (job_id : string) : http string :=
  i ← parse_uuid (JStr job_id);
  j ← of_option 404 (i ≫= λ i, jobs !! i);
  ensure_job_access d u j ;;
  Ok (jb_status j).
Definition download_gate (d : export_db) (u : caller) (jobs : gmap Z job) (job_id : string) : http job :=
  i ← parse_uuid (JStr job_id);
  j ← of_option 404 (i ≫= λ i, jobs !! i);
  ensure_job_access d u j ;;
  raise_if (negb (bool_decide (jb_status j = "COMPLETED"))) 409 ;;
  Ok j.
End ExportJobs.

(** ** The queue of a restore message *)
Record routing := Routing {
  ro_heavy_enabled : bool;
  ro_heavy_export_bytes : Z;
  ro_heavy_restore_bytes : Z;
  ro_heavy_queue : string;
}.
Definition pick_export_queue (ro : routing) (total : Z) : string :=
  if ro_heavy_enabled ro && (ro_heavy_export_bytes ro <=? total) then ro_heavy_queue ro else "restore.normal".
Definition pick_restore_queue (ro : routing) (total : Z) : string :=
  if negb (total =? 0) && (ro_heavy_restore_bytes ro <? total) then ro_heavy_queue ro else "restore.normal".
Definition HEAVY_BACKUP_TYPES : list string := ["USER_ONEDRIVE"; "ONEDRIVE"; "SHAREPOINT_SITE"; "POWER_BI"; "USER_ARCHIVE"].
(** [pick_backup_queue]; an empty default counts as none. *)
Definition pick_backup_queue (heavy_enabled : bool) (worker_queue heavy_queue : string) (default_queue : option string) (resource_type : string) : string :=
  if heavy_enabled && bool_decide (resource_type ∈ HEAVY_BACKUP_TYPES) then heavy_queue
  else default worker_queue (nonempty default_queue).

Definition azure_restore_queue (t : string) : option string :=
  if bool_decide (t = "AZURE_VM") then Some "azure.restore.vm"
  else if bool_decide (t ∈ ["AZURE_SQL_DB"; "AZURE_SQL"]) then Some "azure.restore.sql"
  else if bool_decide (t ∈ ["AZURE_POSTGRESQL"; "AZURE_POSTGRESQL_SINGLE"; "AZURE_PG"]) then Some "azure.restore.postgres"
  else None.
Definition restore_queue_of (t : string) : string :=
  if bool_decide (t = "CROSS_USER") then "restore.urgent"
  else if bool_decide (t ∈ ["EXPORT_ZIP"; "DOWNLOAD"]) then "restore.low"
  else if bool_decide (t = "ARCHIVE_ENRICH") then "enrich.priority"
  else "restore.normal".
(** [create_restore_message]: the queue and the priority. *)
Definition restore_message_queue (ro : routing) (restore_type resource_type : string) (total : Z) : string :=
  match azure_restore_queue resource_type with
  | Some q => q
  | None =>
    let q := restore_queue_of restore_type in
    if (0 <? total) && bool_decide (q ∈ ["restore.normal"; "restore.low"]) then
      let heavy := if bool_decide (restore_type ∈ ["EXPORT_PST"; "EXPORT_ZIP"]) then pick_export_queue ro total else pick_restore_queue ro total in
      if bool_decide (heavy = "") then q else heavy
    else q
  end.
Definition restore_priority (t : string) : Z :=
  if bool_decide (t = "CROSS_USER") then 3 else if bool_decide (t = "CROSS_RESOURCE") then 4
  else if bool_decide (t = "EXPORT_PST") then 6 else if bool_decide (t = "EXPORT_ZIP") then 7
  else if bool_decide (t = "DOWNLOAD") then 8 else if bool_decide (t = "ARCHIVE_ENRICH") then 9 else 5.

(** A small export of known size never stays on the low queue. *)
Example low_queue_is_left :
  restore_message_queue (Routing true 100 100 "heavy") "EXPORT_ZIP" "MAILBOX" 0 = "restore.low" ∧
  restore_message_queue (Routing true 100 100 "heavy") "EXPORT_ZIP" "MAILBOX" 1 = "restore.normal".
Proof. split; by vm_compute. Qed.

(** With a heavy queue configured, a restore beyond the threshold goes to the heavy pool,
    unless it is an Azure one, an urgent one or an enrichment. *)
Lemma whale_goes_to_the_heavy_queue ro t ty total :
  0 <= ro_heavy_restore_bytes ro < total → ro_heavy_queue ro ≠ "" → azure_restore_queue ty = None →
  t ∉ ["CROSS_USER"; "ARCHIVE_ENRICH"; "EXPORT_PST"; "EXPORT_ZIP"] →
  restore_message_queue ro t ty total = ro_heavy_queue ro.
Proof.
  rewrite !not_elem_of_cons. intros Hb Hq Ha (?&?&?&?&_). unfold restore_message_queue. rewrite Ha.
  assert (bool_decide (restore_queue_of t ∈ ["restore.normal"; "restore.low"]) = true) as ->.
  { unfold restore_queue_of. apply bool_decide_eq_true_2. repeat case_bool_decide; try done; set_solver. }
  rewrite (proj2 (Z.ltb_lt 0 total)) by lia. cbn [andb].
  rewrite (bool_decide_eq_false_2 (t ∈ _)) by (rewrite !elem_of_cons; intros [?|[?|?%not_elem_of_nil]]; done).
  unfold pick_restore_queue. rewrite (proj2 (Z.ltb_lt _ _)) by lia. rewrite (proj2 (Z.eqb_neq total 0)) by lia. cbn.
  by rewrite bool_decide_eq_false_2.
Qed.

(** No resource has the type the deprecated download asks for, so it always refuses. *)
Lemma sharepoint_download_is_dead strip_lower d u rid req :
  (∀ i r, xd_resources d !! i = Some r → rs_type r ≠ "SHAREPOINT") →
  ∃ e, sharepoint_gate strip_lower d u rid req = Err e.
Proof.
  intros Hd. destruct (sharepoint_gate strip_lower d u rid req) as [[sc r]|e] eqn:E; [exfalso|eauto].
  unfold sharepoint_gate in E. apply bind_Ok in E as (s&_&E). apply bind_Ok in E as (_&_&E). apply bind_Ok in E as (r'&Hr&E).
  apply bind_Ok in E as ([]&Ht&E). simplify_eq. apply raise_if_Ok, negb_false_iff, bool_decide_eq_true in Ht.
  unfold ensure_resource_access in Hr. apply bind_Ok in Hr as (i&_&Hr). apply bind_Ok in Hr as (ts&Hts&Hr). apply of_option_Ok in Hr.
  apply (resolve_scope _ _ _ _ _ _ _ Hts) in Hr. by eapply Hd.
Qed.
