(* ===== verification/ExportSafety.v ===== *)
(** * What an export or a restore job may read and write

    Theorems over [ExportJobs]: a queued job's own spec leads only to resources, and writes
    only into destinations, its creator was authorized for; and whoever is served its result
    later is authorized for all of what was stamped, as long as those rows exist. *)

From S2P Require Import Prelude Text Tokens ExportAuthz ExportJobs.
From Stdlib Require Import Ascii.
Local Open Scope string_scope.
Local Open Scope Z_scope.

(** ** Dictionaries *)
Lemma table_get_set k k' v d : dict_get k (dict_set k' v d) = if decide (k' = k) then Some v else dict_get k d.
Proof.
  induction d as [|[x w] d IH]; cbn; [by case_bool_decide; case_decide|].
  case_bool_decide; cbn; repeat case_bool_decide; case_decide; simplify_eq; try done; rewrite IH; case_decide; done.
Qed.
Lemma dget_set_eq k v d : dget k (dict_set k v d) = v.
Proof. unfold dget. by rewrite table_get_set, decide_True. Qed.
Lemma dget_set_ne k k' v d : k' ≠ k → dget k (dict_set k' v d) = dget k d.
Proof. intros. unfold dget. by rewrite table_get_set, decide_False. Qed.

Lemma dget_cons_eq k v d : dget k ((k, v) :: d) = v.
Proof. unfold dget. cbn. by rewrite bool_decide_eq_true_2. Qed.
Lemma dget_cons_ne k k' v d : k' ≠ k → dget k ((k', v) :: d) = dget k d.
Proof. intros. unfold dget. cbn. by rewrite bool_decide_eq_false_2. Qed.

Lemma keys_of_set k' v d k : k ∈ (dict_set k' v d).*1 → k = k' ∨ k ∈ d.*1.
Proof.
  induction d as [|[x w] d IH]; cbn; [intros ?%list_elem_of_singleton; auto|].
  case_bool_decide; cbn; rewrite !elem_of_cons; naive_solver.
Qed.

Lemma dict_get_app k a b : dict_get k (a ++ b)%list = match dict_get k a with Some v => Some v | None => dict_get k b end.
Proof. induction a as [|[x w] a IH]; cbn; [done|]. by case_bool_decide. Qed.

Lemma allowed_get k req : k ∉ SPEC_KEYS → dict_get k (allowed_keys req) = None.
Proof.
  unfold allowed_keys. induction SPEC_KEYS as [|x l IH]; [done|]. rewrite not_elem_of_cons. intros [Hne Hl]. cbn.
  destruct (dict_get x req); cbn; [rewrite bool_decide_eq_false_2 by auto|]; auto.
Qed.

(** Writing destinations touches the destinations' keys only. *)
Lemma write_ne k dest spec : k ∉ dest.*1 → dget k (write_destinations dest spec) = dget k spec.
Proof.
  revert spec. induction dest as [|[x i] dest IH]; intros spec; [done|].
  intros [Hne Hd]%not_elem_of_cons. change (dget k (write_destinations dest (dict_set x (JStr (uuid_str i)) spec)) = dget k spec).
  rewrite IH by done. by rewrite dget_set_ne by auto.
Qed.
Lemma write_eq k i dest spec : NoDup dest.*1 → (k, i) ∈ dest → dget k (write_destinations dest spec) = JStr (uuid_str i).
Proof.
  revert spec. induction dest as [|[x j] dest IH]; intros spec; [by intros _ ?%not_elem_of_nil|].
  intros [Hx Hd]%NoDup_cons [[= -> ->]|Hin]%elem_of_cons; [|exact (IH _ Hd Hin)].
  change (dget x (write_destinations dest (dict_set x (JStr (uuid_str j)) spec)) = JStr (uuid_str j)).
  by rewrite write_ne, dget_set_eq.
Qed.

Lemma scope_ids_elem spec names v :
  v ∈ spec_scope_ids spec names → ∃ k l, k ∈ names ∧ dget k spec = JList l ∧ v ∈ l.
Proof.
  unfold spec_scope_ids. set (all := names ≫= _).
  assert (H : ∀ l out, v ∈ foldl (λ out v, if existsb (same_id v) out then out else out ++ [v])%list out l → v ∈ out ∨ v ∈ l).
  { induction l as [|x l IH]; cbn; intros out Hv; [auto|]. apply IH in Hv as [Hv|Hv]; [|by right; apply elem_of_cons; right].
    destruct (existsb _ _); [auto|]. apply elem_of_app in Hv as [?|Hv%list_elem_of_singleton]; [auto|right; subst; by apply elem_of_cons; left]. }
  intros [?%not_elem_of_nil|Hv]%H; [done|]. apply list_elem_of_bind in Hv as (k&Hk&Hv).
  exists k. destruct (dget k spec) as [| | | | |l|]; try by apply not_elem_of_nil in Hk. eauto.
Qed.

(** ** The database's own identifiers *)
Definition wf_db (d : export_db) : Prop :=
  (∀ i, is_Some (xd_resources d !! i) → 0 <= i < 2 ^ 128) ∧ (∀ s, is_Some (xd_snapshots d !! s) → 0 <= s < 2 ^ 128).

Lemma parse_uuid_id v i : parse_uuid v = Ok (Some i) → uuid_or_400 v = Ok i.
Proof.
  unfold parse_uuid, uuid_or_400. destruct (negb _); [done|]. destruct v; try done. destruct (uuid_parse s); [|done].
  cbn. by intros [= ->].
Qed.

Lemma uuid_text_id i : 0 <= i < 2 ^ 128 → uuid_or_400 (JStr (uuid_str i)) = Ok i.
Proof.
  intros Hi. unfold uuid_or_400, uuid_parse. rewrite uuid_hex_str. cbv beta zeta.
  rewrite <- length_chars_of, chars_of_text, length_hex_digits. cbn [Nat.eqb]. by rewrite int16_hex_digits.
Qed.

Lemma job_snapshot_spec d sids iids o sids' :
  wf_db d → job_snapshot d sids iids = Ok (o, sids') →
  (∀ i, behind d [] sids' iids i ↔ behind d [] sids iids i) ∧
  (∀ i, job_resource d o = Some i → behind d [] sids iids i).
Proof.
  intros [_ Hwf] H. unfold job_snapshot in H. apply bind_Ok in H as (o1&Ho1&H).
  assert (Hsn : ∀ s, o1 = Some s → ∀ i, xd_snapshots d !! s = Some i → behind d [] sids iids i).
  { intros s -> i Hi. destruct sids as [|v sids]; [done|]. apply bind_Ok in Ho1 as (p&Hp&Ho1).
    destruct p as [x|]; [|done]. cbn in Ho1. destruct (xd_snapshots d !! x) eqn:Ex; simplify_eq/=.
    eapply behind_snapshot; [by apply elem_of_cons; left|by apply parse_uuid_id|done]. }
  destruct o1 as [s|]; [simplify_eq; split; [done|]; intros i Hi; cbn in Hi; by eapply Hsn|].
  destruct iids as [|it iids]; [by simplify_eq; split; [|intros ? [=]]|]. apply bind_Ok in H as (p&Hp&H).
  destruct p as [x|]; cbn [mbind option_bind] in H; [|by simplify_eq; split; [|intros ? [=]]]. destruct (xd_items d !! x) as [s|] eqn:Ex; [|by simplify_eq; split; [|intros ? [=]]].
  destruct (xd_snapshots d !! s) as [r|] eqn:Es; [|by simplify_eq; split; [|intros ? [=]]].
  assert (Hr : behind d [] sids (it :: iids) r).
  { eapply behind_item; [by apply elem_of_cons; left|by apply parse_uuid_id|done|done]. }
  simplify_eq. split; [|intros i; cbn; rewrite Es; intros; by simplify_eq].
  intros i. destruct sids as [|v sids]; [|done]. split.
  - intros [Hn|v s' Hv Hs Hi|]; [by apply not_elem_of_nil in Hn| |by eapply behind_item].
    apply list_elem_of_singleton in Hv as ->. rewrite uuid_text_id in Hs by eauto. simplify_eq. done.
  - intros [Hn|? ? Hn|]; [by apply not_elem_of_nil in Hn|by apply not_elem_of_nil in Hn|by eapply behind_item].
Qed.

Section Jobs.
Context (strip_lower : string → string) (digest : string → string).

Lemma destinations_keys d u spec dest :
  authorize_restore_destinations strip_lower d u spec = Ok dest →
  dest.*1 = filter (λ k, is_set (dget k spec) = true) DESTINATION_RESOURCE_KEYS.
Proof.
  unfold authorize_restore_destinations. intros H.
  apply bind_Ok in H as ([]&_&H). apply bind_Ok in H as ([]&_&H). apply bind_Ok in H as ([]&_&H).
  apply bind_Ok in H as (wanted&Hw&H).
  assert (Hd : dest = wanted).
  { case_bool_decide; [by simplify_eq|]. apply bind_Ok in H as ([]&_&H). apply bind_Ok in H as ([]&_&H). by simplify_eq. }
  subst. clear H. apply mapR_Ok in Hw. revert Hw. generalize (filter (λ k, is_set (dget k spec) = true) DESTINATION_RESOURCE_KEYS) as l.
  intros l Hw. induction Hw as [|k p l w Hk Hw IH]; [done|]. destruct p as [k' i].
  apply bind_Ok in Hk as (?&_&?). by simplify_eq/=.
Qed.

(** What both triggers make of the spec. *)
Record spec_shape (jspec spec0 : body) (sids iids : list json) (dest : list (string * Z)) : Prop := SpecShape {
  sh_snapshots : spec_scope_ids jspec snapshot_names = spec_scope_ids [("snapshot_ids", JList sids)] snapshot_names;
  sh_items : spec_scope_ids jspec item_names = spec_scope_ids [("item_ids", JList iids)] item_names;
  sh_dest : ∀ k, k ∈ (DESTINATION_RESOURCE_KEYS ++ DESTINATION_OPERATOR_KEYS)%list → dget k jspec = dget k (write_destinations dest spec0);
}.

Lemma scope_ids_ext a b names : (∀ k, k ∈ names → dget k a = dget k b) → spec_scope_ids a names = spec_scope_ids b names.
Proof.
  intros H. unfold spec_scope_ids. f_equal. induction names as [|k l IH]; [done|]. cbn. rewrite H by (by apply elem_of_cons; left).
  f_equal. apply IH. intros k' ?. apply H. by apply elem_of_cons; right.
Qed.

Lemma dget_app_l k a b : dict_get k b = None → dget k (a ++ b)%list = dget k a.
Proof. intros Hb. unfold dget. rewrite dict_get_app, Hb. by destruct (dict_get k a). Qed.

Lemma not_dest_keys k d u spec dest :
  authorize_restore_destinations strip_lower d u spec = Ok dest → k ∉ DESTINATION_RESOURCE_KEYS → k ∉ dest.*1.
Proof. intros H Hk. rewrite (destinations_keys _ _ _ _ H). intros [_ ?]%list_elem_of_filter. done. Qed.

Lemma shape_ext jspec spec0 sids iids dest :
  dget "snapshot_ids" jspec = JList sids → dget "snapshotIds" jspec = JNull →
  dget "item_ids" jspec = JList iids → dget "itemIds" jspec = JNull →
  (∀ k, k ∈ (DESTINATION_RESOURCE_KEYS ++ DESTINATION_OPERATOR_KEYS)%list → dget k jspec = dget k (write_destinations dest spec0)) →
  spec_shape jspec spec0 sids iids dest.
Proof.
  intros H1 H2 H3 H4 Hd. split; [| |done]; apply scope_ids_ext; intros k Hk;
    unfold snapshot_names, item_names in Hk; rewrite !elem_of_cons in Hk; destruct Hk as [->|[->|Hk%not_elem_of_nil]]; done.
Qed.

(** A key the dictionary entries written last do not use. *)
Ltac skip_sets := repeat first [rewrite dget_set_ne by done | rewrite dget_cons_ne by done].

(** A queued job: what the gates answered, and the shape of its spec. *)
Record gated (d : export_db) (u : caller) (q : queued) (spec0 : body) (sids : list json) (sn : option Z) (ts : gmap Z resource) : Prop := Gated {
  gt_scope : authorize_export_scope strip_lower d u [] (q_sids q) (q_iids q) = Ok ts;
  gt_dest : authorize_restore_destinations strip_lower d u spec0 = Ok (q_dest q);
  gt_snap : job_snapshot d (q_sids q) (q_iids q) = Ok (sn, sids);
  gt_resource : jb_resource (q_job q) = job_resource d sn;
  gt_tenant : jb_tenant (q_job q) = job_tenant d sn;
  gt_shape : spec_shape (jb_spec (q_job q)) spec0 sids (q_iids q) (q_dest q);
  gt_stamp : ∃ spec, (∀ k, k ≠ AUTHORIZED_SCOPE_KEY → dget k (jb_spec (q_job q)) = dget k spec) ∧
    dget AUTHORIZED_SCOPE_KEY (jb_spec (q_job q)) =
    authorized_scope_stamp digest spec (jb_resource (q_job q)) (dom ts ∪ list_to_set (q_dest q).*2);
}.

Lemma export_gated re chat d u req q :
  trigger_export strip_lower digest re chat d u req = Ok q → ∃ spec0 sids sn ts, gated d u q spec0 sids sn ts.
Proof.
  unfold trigger_export. intros H.
  apply bind_Ok in H as (sids&_&H). apply bind_Ok in H as (iids&_&H). apply bind_Ok in H as ([]&_&H).
  apply bind_Ok in H as (ts&Hts&H). apply bind_Ok in H as ([]&_&H). apply bind_Ok in H as ([sn sids']&Hsn&H).
  cbv zeta in H. apply bind_Ok in H as (dest&Hdest&H). injection H as <-.
  do 4 eexists. eapply Gated; cbn [q_job q_sids q_iids q_dest jb_resource jb_tenant jb_spec]; try done.
  - apply shape_ext.
    1-4: rewrite dget_set_ne, write_ne by (done || by (eapply not_dest_keys; [exact Hdest|by vm_compute; set_solver])).
    1-4: skip_sets; first [by rewrite dget_cons_eq | unfold dget; rewrite allowed_get; [done|by vm_compute; set_solver]].
    intros k Hk. rewrite dget_set_ne; [done|]. intros <-. by vm_compute in Hk; set_solver.
  - eexists. split; [|apply dget_set_eq]. intros k Hk. by rewrite dget_set_ne.
Qed.

Lemma restore_gated re chat total d u req q :
  trigger_restore strip_lower digest re chat total d u req = Ok q → ∃ spec0 sids sn ts, gated d u q spec0 sids sn ts.
Proof.
  unfold trigger_restore. intros H. apply bind_Ok in H as ([]&_&H).
  apply bind_Ok in H as (sids&_&H). apply bind_Ok in H as (iids&_&H). apply bind_Ok in H as ([]&_&H).
  apply bind_Ok in H as (ts&Hts&H). apply bind_Ok in H as ([]&_&H). apply bind_Ok in H as (dest&Hdest&H).
  apply bind_Ok in H as ([sn sids']&Hsn&H). cbv zeta in H. apply Ok_inj in H. subst q.
  do 4 eexists. eapply Gated; cbn [q_job q_sids q_iids q_dest jb_resource jb_tenant jb_spec]; try done.
  - assert (Hother : ∀ k, k ∉ DESTINATION_RESOURCE_KEYS → dget k (write_destinations dest (restore_spec req)) = dget k (restore_spec req)).
    { intros k Hk. apply write_ne. by eapply not_dest_keys. }
    apply shape_ext.
    1-4: cbn [app]; skip_sets; first [by rewrite dget_cons_eq|rewrite dget_app_l by done; rewrite Hother; [done|by vm_compute; set_solver]].
    intros k Hk. repeat (apply elem_of_cons in Hk as [->|Hk]; [cbn [app]; skip_sets; by rewrite dget_app_l|]). by apply not_elem_of_nil in Hk.
  - eexists. split; [|apply dget_set_eq]. intros k Hk. by rewrite dget_set_ne.
Qed.

(** ** Creation *)

(** The resources a job's own spec leads to: what a worker reads, and what the gate of the
    serving routes walks. *)
Definition job_reads (d : export_db) (j : job) : Z → Prop :=
  behind d (option_list (jb_resource j)) (spec_scope_ids (jb_spec j) snapshot_names) (spec_scope_ids (jb_spec j) item_names).

Lemma one_list k l names v :
  v ∈ spec_scope_ids [(k, JList l)] names → v ∈ l.
Proof.
  intros (k'&l'&_&Hk&Hv)%scope_ids_elem. unfold dget in Hk. cbn in Hk. case_bool_decide; [|done]. by injection Hk as <-.
Qed.

Lemma gated_reads d u q spec0 sids sn ts i :
  wf_db d → gated d u q spec0 sids sn ts → job_reads d (q_job q) i → behind d [] (q_sids q) (q_iids q) i.
Proof.
  intros Hwf G Hr. destruct (job_snapshot_spec _ _ _ _ _ Hwf (gt_snap _ _ _ _ _ _ _ G)) as [Hs Hres].
  unfold job_reads in Hr. rewrite (sh_snapshots _ _ _ _ _ (gt_shape _ _ _ _ _ _ _ G)), (sh_items _ _ _ _ _ (gt_shape _ _ _ _ _ _ _ G)) in Hr.
  destruct Hr as [Hr|v s Hv ??|v it s Hv ???].
  - apply Hres. rewrite <- (gt_resource _ _ _ _ _ _ _ G). destruct (jb_resource (q_job q)); cbn in Hr; [|by apply not_elem_of_nil in Hr].
    by apply list_elem_of_singleton in Hr as ->.
  - apply Hs. eapply behind_snapshot; [by eapply one_list|done..].
  - eapply behind_item; [by eapply one_list|done..].
Qed.

Definition authorized_at (d : export_db) (u : caller) (i : Z) : Prop :=
  ∃ r, xd_resources d !! i = Some r ∧ authorized strip_lower d u r.

(** C4: A queued export or restore reads and writes only what its creator may: whatever the
    body of the request said, every resource the ids in the queued job's own spec lead to
    exists and is authorized for the caller; a destination in the spec that names a resource
    is the identifier of an existing resource authorized for the caller; and a destination
    that names none is only there for an operator. *)
Theorem queued_job_is_authorized d u req q re chat total :
  wf_db d →
  trigger_export strip_lower digest re chat d u req = Ok q ∨ trigger_restore strip_lower digest re chat total d u req = Ok q →
  (∀ i, job_reads d (q_job q) i → authorized_at d u i) ∧
  (∀ k, k ∈ DESTINATION_RESOURCE_KEYS → is_set (dget k (jb_spec (q_job q))) = true →
    ∃ i, dget k (jb_spec (q_job q)) = JStr (uuid_str i) ∧ authorized_at d u i) ∧
  (∀ k, k ∈ DESTINATION_OPERATOR_KEYS → is_set (dget k (jb_spec (q_job q))) = true → is_export_operator u = true).
Proof.
  intros Hwf Hq. assert (∃ spec0 sids sn ts, gated d u q spec0 sids sn ts) as (spec0&sids&sn&ts&G)
    by (destruct Hq; [by eapply export_gated|by eapply restore_gated]).
  destruct (destinations_authorized _ _ _ _ _ (gt_dest _ _ _ _ _ _ _ G)) as (_&Hop&Hres).
  pose proof (destinations_keys _ _ _ _ (gt_dest _ _ _ _ _ _ _ G)) as Hkeys.
  assert (Hspec := sh_dest _ _ _ _ _ (gt_shape _ _ _ _ _ _ _ G)). split; [|split].
  - intros i Hi. eapply gated_reads in Hi; [|done..].
    destruct (resolve_spec d true [] (q_sids q) (q_iids q) ts) with (i := i) as [Hb Hrow].
    { pose proof (gt_scope _ _ _ _ _ _ _ G) as Hs. unfold authorize_export_scope in Hs.
      apply bind_Ok in Hs as (_&_&Hs). apply bind_Ok in Hs as (ts'&Hts&Hs). apply bind_Ok in Hs as (_&_&Hs).
      apply bind_Ok in Hs as (_&_&Hs). by simplify_eq. }
    apply Hb in Hi as [r Hr]. exists r. split; [auto|]. by eapply scope_authorized; [exact (gt_scope _ _ _ _ _ _ _ G)|].
  - intros k Hk Hset. rewrite Hspec in * by (apply elem_of_app; by left).
    assert (Hin : k ∈ (q_dest q).*1).
    { destruct (decide (k ∈ (q_dest q).*1)); [done|]. rewrite write_ne in Hset by done.
      rewrite Hkeys. by apply list_elem_of_filter. }
    assert (Hset0 : is_set (dget k spec0) = true) by (rewrite Hkeys in Hin; by apply list_elem_of_filter in Hin as [? _]).
    destruct (Hres k Hk Hset0) as (i&r&Hki&_&Hr&Ha). exists i. split; [|by exists r].
    apply write_eq; [|done]. rewrite Hkeys. apply NoDup_filter. by vm_compute; repeat constructor; set_solver.
  - intros k Hk Hset. rewrite Hspec in Hset by (apply elem_of_app; by right). apply (Hop k Hk).
    rewrite write_ne in Hset; [done|]. rewrite Hkeys. intros [_ Hk']%list_elem_of_filter.
    clear -Hk Hk'. vm_compute in Hk, Hk'. set_solver.
Qed.

(** ** Serving *)

Lemma read_ids (l : list Z) :
  Forall (λ i, 0 <= i < 2 ^ 128) l → mapR uuid_or_400 (JStr <$> (uuid_str <$> l)) = Ok l.
Proof. intros H. apply mapR_Ok. induction H as [|i l Hi H IH]; constructor; [by apply uuid_text_id|done]. Qed.

Lemma read_stamped_ids (X : gset Z) :
  (∀ i, i ∈ X → 0 <= i < 2 ^ 128) →
  ∃ l, mapR uuid_or_400 (JStr <$> sort_text (uuid_str <$> elements X)) = Ok l ∧ list_to_set l = X.
Proof.
  intros HX. assert (Hs : sort_text (uuid_str <$> elements X) ≡ₚ uuid_str <$> elements X) by apply merge_sort_Permutation.
  destruct (Permutation_map_inv uuid_str (elements X) Hs) as (l&Hl&Hp).
  exists l. rewrite Hl. split.
  - apply read_ids. rewrite <- Hp. rewrite Forall_forall. intros i Hi. apply HX. by apply elem_of_elements.
  - apply set_eq. intros i. rewrite elem_of_list_to_set, <- Hp. apply elem_of_elements.
Qed.

Lemma stamped_scope_eq j sha raws :
  dget AUTHORIZED_SCOPE_KEY (jb_spec j) = JObj [("v", JNum 1); ("resource_ids", JList raws); ("scope_sha", JStr sha)] →
  stamped_scope digest j =
    if bool_decide (sha = scope_sha digest (jb_spec j) (jb_resource j)) then
      match mapR uuid_or_400 raws with
      | Ok ((_ :: _) as ids) => Some (list_to_set ids ∪ list_to_set (option_list (jb_resource j)))
      | _ => None
      end
    else None.
Proof. intros H. unfold stamped_scope. by rewrite H. Qed.

Lemma stamp_read d u q spec0 sids sn ts :
  wf_db d → gated d u q spec0 sids sn ts →
  stamped_scope digest (q_job q) = Some (dom ts ∪ list_to_set (q_dest q).*2 ∪ list_to_set (option_list (jb_resource (q_job q)))).
Proof.
  intros Hwf G. destruct (gt_stamp _ _ _ _ _ _ _ G) as (spec&Hk&Hst).
  set (X := dom ts ∪ list_to_set (q_dest q).*2 : gset Z).
  destruct (resolve_scope _ _ _ _ _ _ _ (gt_scope _ _ _ _ _ _ _ G)) as [Hne Hrow].
  destruct (read_stamped_ids X) as (l&Hl&HX).
  { intros i [Hi|Hi]%elem_of_union; apply (proj1 Hwf).
    - apply elem_of_dom in Hi as [r Hr]. exists r. auto.
    - apply elem_of_list_to_set, list_elem_of_fmap in Hi as ([k j]&->&Hj).
      destruct (dest_rows _ _ _ _ _ (gt_dest _ _ _ _ _ _ _ G) _ _ Hj) as (r&?&_). by exists r. }
  rewrite (stamped_scope_eq _ _ _ Hst).
  assert (Hsha : scope_sha digest spec (jb_resource (q_job q)) = scope_sha digest (jb_spec (q_job q)) (jb_resource (q_job q))).
  { unfold scope_sha. do 2 f_equal. f_equal; [|f_equal]; do 3 f_equal; apply scope_ids_ext; intros k Hin; symmetry; apply Hk;
      intros ->; vm_compute in Hin; set_solver. }
  rewrite Hsha, bool_decide_eq_true_2 by done.
  fold X. rewrite Hl. destruct l as [|x l]; [|by rewrite HX].
  exfalso. apply map_choose in Hne as (i&r&Hi). assert (i ∈ X) as Hi'; [|by rewrite <- HX in Hi'; apply elem_of_empty in Hi'].
  apply elem_of_union_l, elem_of_dom. eauto.
Qed.

(** Everything a queued job was authorized for. *)
Definition job_scope (d : export_db) (q : queued) (i : Z) : Prop :=
  behind d [] (q_sids q) (q_iids q) i ∨ ∃ k, (k, i) ∈ q_dest q.

Lemma gated_scope d u q spec0 sids sn ts i :
  wf_db d → gated d u q spec0 sids sn ts →
  i ∈ (dom ts ∪ list_to_set (q_dest q).*2 ∪ list_to_set (option_list (jb_resource (q_job q))) : gset Z) ↔ job_scope d q i.
Proof.
  intros Hwf G. destruct (job_snapshot_spec _ _ _ _ _ Hwf (gt_snap _ _ _ _ _ _ _ G)) as [_ Hres].
  rewrite !elem_of_union, !elem_of_list_to_set, <- (scope_behind _ _ _ _ _ _ _ i (gt_scope _ _ _ _ _ _ _ G)).
  rewrite (gt_resource _ _ _ _ _ _ _ G). unfold job_scope. split.
  - intros [[?|([k j]&->&?)%list_elem_of_fmap]|Hr]; [by left|right; eauto|left].
    destruct (job_resource d sn) as [r|]; cbn in Hr; [|by apply not_elem_of_nil in Hr].
    apply list_elem_of_singleton in Hr as ->. by apply Hres.
  - intros [?|[k Hk]]; [auto|]. left. right. apply list_elem_of_fmap. by exists (k, i).
Qed.

Lemma gated_authorized d u q spec0 sids sn ts i :
  gated d u q spec0 sids sn ts → job_scope d q i → authorized_at d u i.
Proof.
  intros G [Hb|[k Hk]].
  - apply (scope_behind _ _ _ _ _ _ _ i (gt_scope _ _ _ _ _ _ _ G)), elem_of_dom in Hb as [r Hr].
    exists r. split; [by eapply resolve_scope; [exact (gt_scope _ _ _ _ _ _ _ G)|]|by eapply scope_authorized; [exact (gt_scope _ _ _ _ _ _ _ G)|]].
  - exact (dest_rows _ _ _ _ _ (gt_dest _ _ _ _ _ _ _ G) _ _ Hk).
Qed.

(** C5: Serving is as strict as creating: whoever is let at the status or the artifact of an
    export or restore job, at any later time and with any later state of the database, is
    then authorized for every resource the job was created over and every destination it
    writes to, provided the rows of these still exist. *)
Theorem served_job_is_authorized d u req q re chat total d' u' :
  wf_db d →
  trigger_export strip_lower digest re chat d u req = Ok q ∨ trigger_restore strip_lower digest re chat total d u req = Ok q →
  (∀ i, job_scope d q i → is_Some (xd_resources d' !! i)) →
  ensure_job_access strip_lower digest d' u' (q_job q) = Ok tt →
  ∀ i, job_scope d q i → authorized_at d' u' i.
Proof.
  intros Hwf Hq Hrows H i Hi. assert (∃ spec0 sids sn ts, gated d u q spec0 sids sn ts) as (spec0&sids&sn&ts&G)
    by (destruct Hq; [by eapply export_gated|by eapply restore_gated]).
  unfold ensure_job_access in H. apply bind_Ok in H as (over&Hover&H). destruct over.
  - destruct (Hrows i Hi) as [r Hr]. exists r. split; [done|].
    unfold ensure_tenant in Hover. inv_ok. apply bool_decide_eq_false in H0. split; [done|]. left.
    destruct (match jb_tenant (q_job q) with Some t => _ | None => _ end); inv_ok; [done|by apply negb_false_iff].
  - assert (Hts : targets_from_stamp digest d' (q_job q) = Some (rows_of d' (dom ts ∪ list_to_set (q_dest q).*2 ∪ list_to_set (option_list (jb_resource (q_job q)))))).
    { unfold targets_from_stamp. rewrite (stamp_read _ _ _ _ _ _ _ Hwf G). cbn. rewrite bool_decide_eq_true_2; [done|].
      apply set_eq. intros j. rewrite elem_of_dom. split.
      - intros [r Hr]. by apply rows_of_lookup in Hr as [? _].
      - intros Hj. destruct (Hrows j) as [r Hr]; [by eapply gated_scope|]. exists r. by apply rows_of_lookup. }
    rewrite Hts in H. cbn in H. apply (gated_scope _ _ _ _ _ _ _ i Hwf G) in Hi as Hin. destruct (Hrows i Hi) as [r Hr].
    assert (Hl := proj2 (rows_of_lookup _ _ _ _) (conj Hin Hr)).
    rewrite bool_decide_eq_false_2 in H by (intros E; by rewrite E, lookup_empty in Hl).
    exists r. split; [done|]. by eapply authorize_targets_spec.
Qed.

Lemma authorize_targets_complete d u ts :
  ca_id u ≠ "" → (∀ i r, ts !! i = Some r → authorized strip_lower d u r) →
  authorize_targets strip_lower d u (entitled_tenants d u) ts = Ok tt.
Proof.
  intros Hid Ha. unfold authorize_targets. rewrite bool_decide_eq_false_2 by done. cbn.
  assert (∃ ks, mapR (λ kv, authorize_target strip_lower d u (entitled_tenants d u) kv.2) (map_to_list ts) = Ok ks) as [ks ->]; [|done].
  assert (Hall : Forall (λ kv : Z * resource, authorize_target strip_lower d u (entitled_tenants d u) kv.2 = Ok tt) (map_to_list ts)).
  { rewrite Forall_forall. intros [i r] Hir%elem_of_map_to_list. destruct (Ha i r Hir) as [_ Hr]. cbn.
    unfold authorize_target, ensure_tenant. rewrite (bool_decide_eq_false_2 (ca_id u = "")) by done. cbn.
    case_bool_decide; cbn.
    - destruct Hr as [Hs|[_ [->| ->]]]; cbn; [|done|by rewrite andb_false_r].
      assert (is_export_operator u = true) as ->; [|done]. unfold is_super_admin in Hs. apply bool_decide_eq_true in Hs.
      apply existsb_elem. exists "SUPER_ADMIN". split; [done|]. by vm_compute.
    - destruct Hr as [->|[? _]]; [done|done]. }
  clear -Hall. induction Hall as [|kv l Hkv _ [ks IH]]; [by exists []|]. exists (tt :: ks). cbn. by rewrite Hkv, IH.
Qed.

(** The creator gets the result: right after an export or restore is queued under a
    tenant, its creator passes the gate of the status and download routes. *)
Lemma creator_may_read_own_job d u req q re chat total :
  wf_db d →
  trigger_export strip_lower digest re chat d u req = Ok q ∨ trigger_restore strip_lower digest re chat total d u req = Ok q →
  is_Some (jb_tenant (q_job q)) →
  ensure_job_access strip_lower digest d u (q_job q) = Ok tt.
Proof.
  intros Hwf Hq [t Ht]. assert (∃ spec0 sids sn ts, gated d u q spec0 sids sn ts) as (spec0&sids&sn&ts&G)
    by (destruct Hq; [by eapply export_gated|by eapply restore_gated]).
  destruct (job_snapshot_spec _ _ _ _ _ Hwf (gt_snap _ _ _ _ _ _ _ G)) as [_ Hres].
  pose proof (gt_tenant _ _ _ _ _ _ _ G) as Htn. rewrite Ht in Htn. unfold job_tenant in Htn.
  destruct (job_resource d sn) as [r|] eqn:Er; [|done]. cbn in Htn.
  assert (Hr : job_scope d q r) by (left; auto).
  destruct (gated_authorized _ _ _ _ _ _ _ _ G Hr) as (row&Hrow&Hid&Ha). rewrite Hrow in Htn. injection Htn as Htn.
  unfold ensure_job_access, ensure_tenant. rewrite Ht, (bool_decide_eq_false_2 (ca_id u = "")) by done. cbn [raise_if].
  assert (Hts : targets_from_stamp digest d (q_job q) = Some (rows_of d (dom ts ∪ list_to_set (q_dest q).*2 ∪ list_to_set (option_list (jb_resource (q_job q)))))).
  { unfold targets_from_stamp. rewrite (stamp_read _ _ _ _ _ _ _ Hwf G). cbn. rewrite bool_decide_eq_true_2; [done|].
    apply set_eq. intros j. rewrite elem_of_dom. split.
    - intros [x Hx]. by apply rows_of_lookup in Hx as [? _].
    - intros Hj. destruct (gated_authorized _ _ _ _ _ _ _ j G) as (x&Hx&_); [by eapply gated_scope|]. exists x. by apply rows_of_lookup. }
  assert (Hok : (if bool_decide (t ∈ entitled_tenants d u) then Ok false else raise_if (negb (is_super_admin u)) 403 ;; Ok true) = Ok (negb (bool_decide (t ∈ entitled_tenants d u)))).
  { case_bool_decide; [done|]. destruct Ha as [->|[? _]]; [done|by rewrite Htn in *]. }
  change (raise_if false 401 ;; ?x) with x. 
  rewrite Hts. mred. rewrite Hok. mred. destruct (bool_decide (t ∈ _)); cbn [negb]; [|done].
  rewrite bool_decide_eq_false_2.
  - apply authorize_targets_complete; [done|]. intros j x [Hj Hx]%rows_of_lookup.
    destruct (gated_authorized _ _ _ _ _ _ _ j G) as (y&Hy&Hay); [by eapply gated_scope|]. by simplify_eq.
  - intros E. assert (Hl := proj2 (rows_of_lookup d _ r row) (conj (proj2 (gated_scope _ _ _ _ _ _ _ r Hwf G) Hr) Hrow)).
    by rewrite E, lookup_empty in Hl.
Qed.
End Jobs.

(** ** Concrete requests *)
Module ExportExample.
Definition fold_case (s : string) : string := lower_text (strip_by ascii_space s).
Definition digest (s : string) : string := s.
Definition mailbox (owner : string) : resource := Resource 5 "MAILBOX" None (Some owner) None None.
Definition db : export_db :=
  ExportDb {[1 := mailbox "Alice@x"; 2 := mailbox "bob@x"]} {[11 := 1; 12 := 2]} {[21 := 11; 22 := 12]} (UsersDb ∅ [] ∅).
(** The same after retention removed all of Bob's rows. *)
Definition pruned : export_db := ExportDb {[1 := mailbox "Alice@x"]} {[11 := 1]} {[21 := 11]} (UsersDb ∅ [] ∅).
Definition operator : caller := Caller "op" (Some "op@x") ["RESTORE_OPERATOR"] [uuid_str 5].
Definition alice : caller := Caller "a" (Some " alice@X ") ["USER"] [uuid_str 5].
Definition both : body := [("snapshotIds", JList [JStr (uuid_str 11); JStr (uuid_str 12)]); ("itemIds", JList [])].
Definition own : body := [("snapshotIds", JList [JStr (uuid_str 11)]); ("itemIds", JList [])].

Abbreviation export := (trigger_export fold_case digest false (Ok tt) db).
Abbreviation restore := (trigger_restore fold_case digest false (Ok tt) 0 db).
Abbreviation access := (ensure_job_access fold_case digest).
Definition nothing : queued := Queued (Job None None [] "") [] [] [].
Definition queued_both : queued := from_ok nothing (export operator both).

Lemma queued_both_ok : export operator both = Ok queued_both.
Proof. apply is_ok_from. by vm_compute. Qed.
Lemma db_wf : wf_db db.
Proof.
  split; cbn; intros i [x Hi]; repeat (apply lookup_insert_Some in Hi as [[<- _]|[_ Hi]]; [lia|]);
    try (apply lookup_singleton_Some in Hi as [<- _]; lia); by rewrite lookup_empty in Hi.
Qed.

Example alice_own : is_ok (export alice own) = true. Proof. by vm_compute. Qed.
Example alice_smuggles :
  export alice [("snapshotIds", JList [JStr (uuid_str 11)]); ("itemIds", JList [JStr (uuid_str 22)])] = Err 403.
Proof. by vm_compute. Qed.
Example alice_writes_to_bob : restore alice (own ++ [("targetUserId", JStr (uuid_str 2))])%list = Err 403.
Proof. by vm_compute. Qed.
Example empty_selection : restore alice [("itemIds", JList []); ("selectionScope", JStr "selected")] = Err 400.
Proof. by vm_compute. Qed.

(** Once Bob's rows are gone the stamp is dropped and the walk finds Alice's mailbox only:
    she is let at the archive that holds Bob's mail. *)
Example served_on_a_narrower_set :
  access db alice (q_job queued_both) = Err 403 ∧ access pruned alice (q_job queued_both) = Ok tt.
Proof. split; by vm_compute. Qed.

(** A first item id that names nothing leaves a job under no tenant, which its creator may
    not read. *)
Definition unattributable : queued :=
  from_ok nothing (export alice [("itemIds", JList [JStr (uuid_str 99); JStr (uuid_str 21)])]).
Example job_without_tenant :
  jb_tenant (q_job unattributable) = None ∧ q_iids unattributable <> [] ∧ access db alice (q_job unattributable) = Err 403.
Proof. split; [|split]; by vm_compute. Qed.
End ExportExample.

Import ExportExample.

Lemma queued_job_is_authorized_witness :
  (∀ i, job_reads db (q_job queued_both) i → authorized_at fold_case db operator i) ∧
  (∀ k, k ∈ DESTINATION_RESOURCE_KEYS → is_set (dget k (jb_spec (q_job queued_both))) = true →
    ∃ i, dget k (jb_spec (q_job queued_both)) = JStr (uuid_str i) ∧ authorized_at fold_case db operator i) ∧
  (∀ k, k ∈ DESTINATION_OPERATOR_KEYS → is_set (dget k (jb_spec (q_job queued_both))) = true → is_export_operator operator = true).
Proof.
  apply (queued_job_is_authorized fold_case digest db operator both queued_both false (Ok tt) 0); [exact db_wf|left; exact queued_both_ok].
Defined.

Lemma served_job_is_authorized_witness :
  is_Some (jb_resource (q_job queued_both)) ∧ ∀ i, job_scope db queued_both i → authorized_at fold_case db operator i.
Proof.
  split; [vm_compute; eauto|].
  apply (served_job_is_authorized fold_case digest db operator both queued_both false (Ok tt) 0 db operator);
    [exact db_wf|left; exact queued_both_ok| |by vm_compute].
  intros i Hi. destruct (export_gated _ _ _ _ _ _ _ _ queued_both_ok) as (?&?&?&?&G).
  destruct (gated_authorized _ _ _ _ _ _ _ _ _ _ G Hi) as (r&Hr&_). by exists r.
Defined.

Lemma creator_may_read_own_job_witness : ensure_job_access fold_case digest db operator (q_job queued_both) = Ok tt.
Proof.
  apply (creator_may_read_own_job fold_case digest db operator both queued_both false (Ok tt) 0);
    [exact db_wf|left; exact queued_both_ok|]. exists 5. by vm_compute.
Defined.
