(* ===== verification/BackupHonesty.v ===== *)
(** * What a backup run may claim

    The verdict functions of [workers/backup-worker/main.py]: which terminal status a run
    that lost something may report, which cursors and fingerprints it may advance, which
    failures the chat interleave may forget, and what happens to a delivery. Each is a pure
    function of the counters a handler collected; [BackupSettle] and [BackupShards] use them.

    Counts are integers, reasons are the texts the code builds (UTF-8, cut by characters),
    a folder id is [None] for the placeholder of an empty folder tree. *)

From S2P Require Import Prelude Reconciler.
From stdpp Require Import pretty.
From Stdlib Require Import Ascii.
Local Open Scope string_scope.
Local Open Scope list_scope.
Local Open Scope Z_scope.

(** ** Texts *)
Definition continuation (c : ascii) : bool := let z := Z.of_N (N_of_ascii c) in (128 <=? z) && (z <? 192).
(** [s[:n]] on the characters of a UTF-8 text. *)
Fixpoint cut (n : nat) (s : string) : string :=
  match s with
  | EmptyString => ""
  | String c s => if continuation c then String c (cut n s) else match n with O => "" | S n => String c (cut n s) end
  end.
Fixpoint joined (sep : string) (bits : list string) : string :=
  match bits with [] => "" | [b] => b | b :: bits => b +:+ sep +:+ joined sep bits end.
Definition when (c : bool) (s : string) : list string := if c then [s] else [].

(** ** The drains *)

(** [suppressed_units_note]. *)
Definition suppressed_units_note (suppressed planned : Z) (unit_ : string) : string :=
  if suppressed <=? 0 then ""
  else cut 300 (pretty suppressed +:+ " of " +:+ pretty planned +:+ " " +:+ unit_ +:+ "(s) skipped as permanently unreadable (prior PERMISSION/GONE failure, unchanged scopes) — see chat_threads.failure_state").

Definition never_ran (planned drained_ok failed suppressed : Z) : Z :=
  Z.max 0 (planned - drained_ok - failed - Z.max 0 suppressed).

(** [evaluate_drain_honesty]. *)
Definition evaluate_drain_honesty (planned drained_ok failed items_persisted suppressed : Z) (unit_ : string)
  : option snapshot_status * option string :=
  if planned <=? 0 then (None, None)
  else
    let nr := never_ran planned drained_ok failed suppressed in
    if (failed <=? 0) && (nr <=? 0) then (None, None)
    else
      let reason := joined "; "
        (when (0 <? failed) (pretty failed +:+ " of " +:+ pretty planned +:+ " " +:+ unit_ +:+ " drain(s) failed")
         ++ when (0 <? nr) (pretty nr +:+ " of " +:+ pretty planned +:+ " " +:+ unit_ +:+ "(s) did not run (timeout/cancel truncated the fanout)")) in
      if (drained_ok <=? 0) && (items_persisted <=? 0)
      then (Some SFailed, Some (reason +:+ " — 0 items persisted, refusing empty-COMPLETED finalize"))
      else (Some SPartial, Some reason).

(** [fold_chat_attachment_copy_failures]; [copies_failed] as [int(... or 0)], 0 when that raises. *)
Definition fold_chat_attachment_copy_failures (v : option snapshot_status * option string) (copies_failed : Z)
  : option snapshot_status * option string :=
  if (copies_failed <=? 0) || bool_decide (v.1 = Some SFailed) then v
  else
    let note := pretty copies_failed +:+ " chat attachment " +:+ (if copies_failed =? 1 then "copy" else "copies") +:+ " failed" in
    (Some SPartial, Some (match v.2 with
                          | Some r => if bool_decide (r = "") then note else r +:+ "; " +:+ note
                          | None => note end)).

(** ** Files and shards *)

(** The counters of [delta_tokens_json]; [None] is an entry [int] refuses. *)
Record file_tracking := Tracking {
  ft_failed : option Z; ft_total : option Z; ft_folders : option Z;
  ft_enum_incomplete : bool;
  ft_labels : list string;   (** [_first_failure_labels] *)
}.

(** [file_failure_degraded_reason]. *)
Definition file_failure_degraded_reason (ft : file_tracking) (unit_ : string) : option string :=
  match ft_failed ft with
  | None => None
  | Some failed =>
    if failed <=? 0 then None
    else
      let total := default 0 (ft_total ft) in
      let folders := default 0 (ft_folders ft) in
      Some (cut 300 (joined "; " (
        (if 0 <? total then pretty failed +:+ " of " +:+ pretty total +:+ " " +:+ unit_ +:+ "(s) failed to back up"
         else pretty failed +:+ " " +:+ unit_ +:+ "(s) failed to back up")
        :: when (ft_enum_incomplete ft) "enumeration incomplete — some containers were never listed"
        ++ when (0 <? folders) (pretty folders +:+ " folder walk(s) failed")
        ++ when (negb (bool_decide (ft_labels ft = []))) ("first: " +:+ joined ", " (ft_labels ft)))))
  end.

(** [_first_failure_labels]: an entry is a text or the first truthy of its naming fields. *)
Definition first_failure_labels (limit : nat) (folder_failures failed_items : list string) : list string :=
  take limit (cut 80 <$> filter (λ l, l ≠ "") (folder_failures ++ failed_items)%list).

(** [partition_loss_degraded_reason]. *)
Definition partition_loss_degraded_reason (lost_files shards_lossy shards_failed shards_total : Z)
    (enumeration_incomplete : bool) (first_error : option string) : option string :=
  let note := if (0 <? shards_lossy) && (0 <? shards_total)
              then " across " +:+ pretty shards_lossy +:+ " of " +:+ pretty shards_total +:+ " shard(s)" else "" in
  let bits :=
    when (0 <? lost_files) (pretty lost_files +:+ " file(s) failed to back up" +:+ note)
    ++ when (0 <? shards_failed)
         (if 0 <? shards_total then pretty shards_failed +:+ " of " +:+ pretty shards_total +:+ " shard(s) failed outright"
          else pretty shards_failed +:+ " shard(s) failed outright")
    ++ when enumeration_incomplete "enumeration incomplete — some containers were never listed" in
  match bits with
  | [] => None
  | _ => Some (joined "; " (bits ++ match first_error with
                                    | Some e => when ((0 <? shards_failed) && negb (bool_decide (e = ""))) ("first: " +:+ cut 300 e)
                                    | None => [] end))
  end.

(** ** Mail folders *)
Definition folder_id := option string.
(** [f or "__all__"] *)
Definition folder_label (f : folder_id) : string :=
  match f with Some s => if bool_decide (s = "") then "__all__" else s | None => "__all__" end.

(** [evaluate_mail_folder_outcomes]. *)
Definition evaluate_mail_folder_outcomes (planned skipped ok : list folder_id) : gset string * gset string :=
  let attempted := filter (λ f, f ∉ skipped) planned in
  (list_to_set (omap (λ f, match f with
                           | Some s => if negb (bool_decide (s = "")) && bool_decide (f ∈ ok) then Some s else None
                           | None => None end) attempted),
   list_to_set (folder_label
                <$> filter (λ f, f ∉ ok) attempted)).

(** [gate_mail_delta_tokens]: a dict in its insertion order. *)
Definition gate_mail_delta_tokens {T} (new_tokens : list (string * T)) (ok_keys : list string) : list (string * T) * list string :=
  (filter (λ kt, kt.1 ∈ ok_keys) new_tokens, fst <$> filter (λ kt, kt.1 ∉ ok_keys) new_tokens).

(** [mail_carry_forward_excluded_paths], before it is sorted: [None] when nothing may be carried. *)
Definition mail_carry_forward_excluded_paths (planned : list folder_id) (existing_tokens : gmap string string)
    (evicted : gset string) (folder_tree : gmap string string) (drained_ok : option (list folder_id)) : option (gset string) :=
  if existsb (λ f, bool_decide (f = None)) planned then None
  else if bool_decide (existing_tokens = ∅) then None
  else Some (list_to_set (omap (λ f, match f with
    | None => None
    | Some fid =>
      let resumed := match existing_tokens !! fid with Some t => negb (bool_decide (t = "")) | None => false end in
      if resumed && bool_decide (fid ∉ evicted) then None
      else if match drained_ok with Some ok => bool_decide (f ∉ ok) | None => false end then None
      else Some (match folder_tree !! fid with
                 | Some p => if bool_decide (p = "") then "folder:" +:+ fid else p
                 | None => "folder:" +:+ fid end) end) planned)).

(** ** The detached interleave *)

(** [interleave_drain_status]. *)
Definition interleave_drain_status (gather_errors hc_failed att_failed : Z) : string * option string :=
  if (gather_errors <=? 0) && (hc_failed <=? 0) && (att_failed <=? 0) then ("COMPLETE", None)
  else ("FAILED", Some (joined "; "
    (when (0 <? hc_failed) (pretty hc_failed +:+ " message(s) lost hostedContent")
     ++ when (0 <? att_failed) (pretty att_failed +:+ " message(s) lost attachments")
     ++ when (0 <? gather_errors) (pretty gather_errors +:+ " interleave task(s) crashed")))).

(** [BoundedInterleaveFailureLog]; the flag of its one warning only silences a print. *)
Record failure_log A := FailureLog { fl_cap : Z; fl_entries : list A; fl_overflow : Z }.
Arguments FailureLog {A} _ _ _.
Arguments fl_cap {A} _.
Arguments fl_entries {A} _.
Arguments fl_overflow {A} _.
Definition log_new {A} (cap : Z) : failure_log A := FailureLog (Z.max 1 cap) [] 0.
Definition log_append {A} (e : A) (l : failure_log A) : failure_log A * bool :=
  if fl_cap l <=? Z.of_nat (length (fl_entries l)) then (FailureLog (fl_cap l) (fl_entries l) (fl_overflow l + 1), false)
  else (FailureLog (fl_cap l) (fl_entries l ++ [e]) (fl_overflow l), true).
(** [clear] keeps the overflow. *)
Definition log_clear {A} (l : failure_log A) : failure_log A := FailureLog (fl_cap l) [] (fl_overflow l).

(** [interleave_failure_retention_cap]: [parsed] is [int(...)] of the setting, [None] when it raises. *)
Definition _INTERLEAVE_RETENTION_CAP_DEFAULT : Z := 5000.
Definition interleave_failure_retention_cap (parsed : option Z) : Z :=
  match parsed with Some z => Z.max 1 z | None => _INTERLEAVE_RETENTION_CAP_DEFAULT end.

(** A failed message: its chat, and its id where it has a non-empty one. *)
Record failed_msg := FailedMsg { fm_chat : string; fm_id : option string }.
Global Instance failed_msg_eq_dec : EqDecision failed_msg.
Proof. solve_decision. Defined.

(** The dict of [group_failed_interleaves]: chats in the order of their first failure. *)
Fixpoint into_group (m : failed_msg) (g : list (string * list failed_msg)) : list (string * list failed_msg) :=
  match g with
  | [] => [(fm_chat m, [m])]
  | (c, ms) :: g => if bool_decide (c = fm_chat m) then (c, (ms ++ [m])%list) :: g else (c, ms) :: into_group m g
  end.
Fixpoint group_go (seen : list (string * string)) (g : list (string * list failed_msg)) (l : list failed_msg)
  : list (string * list failed_msg) :=
  match l with
  | [] => g
  | m :: l =>
    match fm_id m with
    | None => group_go seen g l
    | Some i => if bool_decide (i = "") || bool_decide ((fm_chat m, i) ∈ seen) then group_go seen g l
                else group_go ((fm_chat m, i) :: seen) (into_group m g) l
    end
  end.
Definition group_failed_interleaves : list failed_msg → list (string * list failed_msg) := group_go [] [].
Definition grouped_count (g : list (string * list failed_msg)) : Z :=
  foldr (λ cm acc, Z.of_nat (length cm.2) + acc) 0 g.

(** [interleave_status_from_logs]. *)
Definition interleave_status_from_logs (gather_errors : Z) (hc_left att_left : list (string * list failed_msg))
    (hc_overflow att_overflow : Z) : string * option string :=
  let hc_over := Z.max 0 hc_overflow in
  let att_over := Z.max 0 att_overflow in
  let '(status, reason) := interleave_drain_status gather_errors (grouped_count hc_left + hc_over) (grouped_count att_left + att_over) in
  if negb (hc_over =? 0) || negb (att_over =? 0) then
    let dropped := pretty (hc_over + att_over) +:+ " failure(s) dropped by CHAT_INTERLEAVE_MAX_RETAINED_FAILURES cap (never retried)" in
    (status, Some (match reason with
                   | Some r => if bool_decide (r = "") then dropped else r +:+ "; " +:+ dropped
                   | None => dropped end))
  else (status, reason).

(** ** Deliveries and settings *)

(** The [x-delivery-count] header: absent or unusable, or a count ([int] of a text included). *)
Definition should_requeue_failed_delivery (delivery_count : option Z) (redelivered : bool) (max_retries : Z) : bool :=
  if max_retries <=? 0 then false
  else match delivery_count with Some c => c <? max_retries | None => negb redelivered end.

(** [should_drop_redelivery_for_inprogress]; times are microseconds of naive UTC, the grace in seconds. *)
Definition should_drop_redelivery_for_inprogress (lease_expires_at started_at : option Z) (now grace_s : Z) : bool :=
  match lease_expires_at with
  | Some l => now <? l
  | None => match started_at with Some st => now - st <=? grace_s * 1000000 | None => false end
  end.

(** [mailbox_parallel_folders]: [raw] is absent, or [int] of it. *)
Definition mailbox_parallel_folders (raw : option (option Z)) (dflt ceiling : Z) : Z :=
  match raw with None | Some None => dflt | Some (Some v) => Z.max 1 (Z.min ceiling v) end.

(** [snapshot_counters_from_result]: the keys the handler's result has. *)
Definition snapshot_counters_from_result (item_count new_item_count bytes_added bytes_total : option Z) : Z * Z * Z * Z :=
  let ic := default 0 item_count in
  let ba := default 0 bytes_added in
  (ic, default ic new_item_count, ba, default ba bytes_total).

(** [iter_hydration_chunks]. *)
Definition PARTITION_HYDRATION_CHUNK : nat := Z.to_nat 10000.
Fixpoint iter_hydration_chunks {A} (fuel chunk : nat) (ids : list A) : list (list A) :=
  match fuel, ids with
  | S fuel, _ :: _ => take chunk ids :: iter_hydration_chunks fuel chunk (drop chunk ids)
  | _, _ => []
  end.

(** ** Statuses *)

(** [reconcile_enumeration_failure_status]. *)
Definition reconcile_enumeration_failure_status (current : snapshot_status) (item_count : option Z) : option snapshot_status :=
  match current with
  | SInProgress => Some SFailed
  | SCompleted => if default 0 item_count <=? 0 then Some SFailed else Some SPartial
  | _ => None
  end.

(** [may_finalize_snapshot_status]. *)
Definition may_finalize_snapshot_status (current : snapshot_status) : bool := bool_decide (current = SInProgress).

(** [resource_stamp_for_snapshot]: the [last_backup_status] to write, and whether it is terminal. *)
Definition status_name (s : snapshot_status) : string :=
  match s with
  | SInProgress => "IN_PROGRESS" | SCompleted => "COMPLETED" | SFailed => "FAILED" | SPartial => "PARTIAL"
  | SPendingDeletion => "PENDING_DELETION" | SSkipped => "SKIPPED" end.
Definition resource_stamp_for_snapshot (status : snapshot_status) (cancelled : bool) : option string * bool :=
  match status with
  | SCompleted | SPartial => (Some (status_name status), true)
  | SFailed => if cancelled then (None, false) else (Some "FAILED", true)
  | _ => (None, false)
  end.

(** ** The finalizer of the detached interleave

    [_hc_drain_finalizer]: failures of the first pass are logged under the cap; one retry
    pass re-runs the source failures, chat by chat, and logs what fails again. A failure
    whose pointer transaction is exhausted ([marker]) is kept and not retried. *)
Definition log_appends {A} (l : failure_log A) (es : list A) : failure_log A := foldl (λ l e, (log_append e l).1) l es.

Section log.
  (** Is the failure exhausted, and what a retry of a chat's batch logs again. *)
  Context (marker : failed_msg → bool) (again : string → list failed_msg → list failed_msg).

Definition source_retries (l : failure_log failed_msg) : list (string * list failed_msg) :=
  group_failed_interleaves (filter (λ m, marker m = false) (fl_entries l)).
Definition keep_marked (l : failure_log failed_msg) : failure_log failed_msg :=
  log_appends (log_clear l) (filter (λ m, marker m = true) (fl_entries l)).
Definition retried_failures (retries : list (string * list failed_msg)) : list failed_msg := mjoin ((λ cm, again cm.1 cm.2) <$> retries).
(** What a log holds after the retry pass; [other] says that the other log has retries too. *)
Definition after_retry (other : bool) (l : failure_log failed_msg) : failure_log failed_msg :=
  let retries := source_retries l in
  if other || negb (bool_decide (retries = [])) then log_appends (keep_marked l) (retried_failures retries) else l.
End log.

(** Hosted contents ([h]) and attachments ([a]). *)
Definition hc_drain_finalizer h_marker h_again a_marker a_again (cap gather_errors : Z) (hc att : list failed_msg) : string * option string :=
  let hl := log_appends (log_new cap) hc in
  let al := log_appends (log_new cap) att in
  let hl' := after_retry h_marker h_again (negb (bool_decide (source_retries a_marker al = []))) hl in
  let al' := after_retry a_marker a_again (negb (bool_decide (source_retries h_marker hl = []))) al in
  interleave_status_from_logs gather_errors (group_failed_interleaves (fl_entries hl')) (group_failed_interleaves (fl_entries al'))
    (fl_overflow hl') (fl_overflow al').

(** ** What the verdicts mean *)

Lemma never_ran_pos planned ok failed suppressed : 0 < never_ran planned ok failed suppressed ↔ ok + failed + Z.max 0 suppressed < planned.
Proof. unfold never_ran. lia. Qed.

Lemma drain_clean planned ok failed items suppressed u :
  (evaluate_drain_honesty planned ok failed items suppressed u).1 = None ↔
  planned ≤ 0 ∨ (failed ≤ 0 ∧ planned ≤ ok + failed + Z.max 0 suppressed).
Proof.
  unfold evaluate_drain_honesty. destruct (planned <=? 0) eqn:Ep; [bools; split; [by left|done]|].
  pose proof (never_ran_pos planned ok failed suppressed).
  destruct (failed <=? 0) eqn:Ef; [destruct (_ <=? 0) eqn:En at 1|]; mred; bools.
  - split; [right; lia|done].
  - destruct (_ && _); (split; [done|lia]).
  - destruct (_ && _); (split; [done|lia]).
Qed.

Lemma drain_failed planned ok failed items suppressed u :
  (evaluate_drain_honesty planned ok failed items suppressed u).1 = Some SFailed ↔
  0 < planned ∧ (0 < failed ∨ ok + failed + Z.max 0 suppressed < planned) ∧ ok ≤ 0 ∧ items ≤ 0.
Proof.
  unfold evaluate_drain_honesty. destruct (planned <=? 0) eqn:Ep; bools; [split; [done|lia]|].
  pose proof (never_ran_pos planned ok failed suppressed).
  destruct (ok <=? 0) eqn:Eo, (items <=? 0) eqn:Ei, (failed <=? 0) eqn:Ef, (never_ran _ _ _ _ <=? 0) eqn:En; mred; bools;
    (split; [first [done | lia]|first [done | lia]]).
Qed.

Lemma drain_range planned ok failed items suppressed u :
  let v := evaluate_drain_honesty planned ok failed items suppressed u in
  (v.1 = None ∨ v.1 = Some SFailed ∨ v.1 = Some SPartial) ∧ (v.1 ≠ None → v.2 ≠ None).
Proof.
  cbv zeta. unfold evaluate_drain_honesty. destruct (planned <=? 0); [by split; [left|]|].
  destruct (_ && _); [by split; [left|]|]. destruct (_ && _); [by split; [right; left|]|by split; [right; right|]].
Qed.

Lemma fold_clean v n : (fold_chat_attachment_copy_failures v n).1 = None ↔ v.1 = None ∧ n ≤ 0.
Proof.
  unfold fold_chat_attachment_copy_failures. destruct (n <=? 0) eqn:E; mred; bools; [tauto|].
  case_bool_decide as Hf; mred; [rewrite Hf; naive_solver|]. split; [done|lia].
Qed.

(** The gate of a chat run: the drains, then the attachment copies. *)
Definition chat_verdict (planned ok failed suppressed items copies_failed : Z) : option snapshot_status * option string :=
  fold_chat_attachment_copy_failures (evaluate_drain_honesty planned ok failed items suppressed "chat") copies_failed.
(** The gate of a mail run: [ok] is the set of folders that drained and persisted. *)
Definition mail_verdict (planned skipped ok : list folder_id) (items : Z) : option snapshot_status * option string :=
  let missing := (evaluate_mail_folder_outcomes planned skipped ok).2 in
  evaluate_drain_honesty (Z.of_nat (length planned)) (Z.of_nat (length ok)) (Z.of_nat (size missing)) items 0 "folder".

(** A chat run may settle COMPLETED exactly when every planned chat was drained or is one
    it rightly did not attempt, none failed, and no attachment copy failed; it must settle
    FAILED exactly when something is missing and neither a drain nor a row is there to keep;
    otherwise it is PARTIAL with a reason. *)
Theorem chat_run_verdict_is_honest planned ok failed suppressed items copies :
  0 <= ok → 0 <= failed → 0 <= suppressed → 0 <= items → ok + failed + suppressed <= planned →
  let v := chat_verdict planned ok failed suppressed items copies in
  (v.1 = None ↔ failed = 0 ∧ ok + suppressed = planned ∧ copies <= 0) ∧
  (v.1 = Some SFailed ↔ ok + suppressed < planned ∧ ok = 0 ∧ items = 0) ∧
  (v.1 = None ∨ v.1 = Some SFailed ∨ v.1 = Some SPartial) ∧ (v.1 ≠ None → v.2 ≠ None).
Proof.
  intros ? ? ? ? ? v. subst v. unfold chat_verdict.
  pose proof (drain_clean planned ok failed items suppressed "chat") as Hc.
  pose proof (drain_failed planned ok failed items suppressed "chat") as Hf.
  split; [rewrite fold_clean, Hc; lia|]. split.
  - assert (H6 : (evaluate_drain_honesty planned ok failed items suppressed "chat").1 = Some SFailed ↔
                 ok + suppressed < planned ∧ ok = 0 ∧ items = 0) by (rewrite Hf; lia). rewrite <- H6.
    unfold fold_chat_attachment_copy_failures. destruct (copies <=? 0); mred; [done|].
    case_bool_decide; mred; [done|]. naive_solver.
  - unfold fold_chat_attachment_copy_failures. destruct (_ || _); [apply drain_range|]. split; [by right; right|done].
Qed.

Lemma chat_run_verdict_is_honest_witness :
  (chat_verdict 5 3 1 1 70 0).1 ≠ None ∧ (chat_verdict 2 0 0 2 0 0).1 = None ∧
  (chat_verdict 2 0 0 2 0 1).1 = Some SPartial ∧ (chat_verdict 3 0 0 1 0 1).1 = Some SFailed.
Proof.
  split_and!.
  - destruct (chat_run_verdict_is_honest 5 3 1 1 70 0) as [H _]; try lia.
    intros E. apply H in E. lia.
  - apply (chat_run_verdict_is_honest 2 0 0 2 0 0); lia.
  - by vm_compute.
  - apply (chat_run_verdict_is_honest 3 0 0 1 0 1); lia.
Defined.

(** ** Folders and cursors *)
Lemma missing_spec planned skipped ok f :
  f ∈ planned → f ∉ skipped → f ∉ ok → (evaluate_mail_folder_outcomes planned skipped ok).2 ≠ ∅.
Proof.
  intros Hp Hs Ho He. unfold evaluate_mail_folder_outcomes in He. cbn [snd] in He.
  assert (f ∈ filter (λ f, f ∉ ok) (filter (λ f, f ∉ skipped) planned)) as Hin by (rewrite !list_elem_of_filter; auto).
  destruct (filter _ _) as [|g l]; [by apply not_elem_of_nil in Hin|].
  assert (folder_label g ∈ (∅ : gset string)) as []%not_elem_of_empty. rewrite <- He, fmap_cons, list_to_set_cons. set_solver.
Qed.

Lemma missing_empty planned skipped ok :
  (evaluate_mail_folder_outcomes planned skipped ok).2 = ∅ ↔ ∀ f, f ∈ planned → f ∉ skipped → f ∈ ok.
Proof.
  split; [intros He f Hp Hs; destruct (decide (f ∈ ok)); [done|by destruct (missing_spec planned skipped ok f)]|].
  intros H. unfold evaluate_mail_folder_outcomes. cbn [snd].
  assert (filter (λ f, f ∉ ok) (filter (λ f, f ∉ skipped) planned) = []) as ->; [|done].
  apply elem_of_nil_inv. intros f. rewrite !list_elem_of_filter. naive_solver.
Qed.

Lemma advance_spec planned skipped ok s :
  s ∈ (evaluate_mail_folder_outcomes planned skipped ok).1 ↔ s ≠ "" ∧ Some s ∈ planned ∧ (Some s ∉ skipped) ∧ Some s ∈ ok.
Proof.
  unfold evaluate_mail_folder_outcomes. cbn [fst]. rewrite elem_of_list_to_set, list_elem_of_omap. split.
  - intros ([t|]&Hin&E); [|done]. destruct (_ && _) eqn:Eb; [|done]. bools. simplify_eq.
    rewrite list_elem_of_filter in Hin. naive_solver.
  - intros (?&?&?&?). exists (Some s). rewrite list_elem_of_filter. split; [done|].
    by rewrite bool_decide_eq_false_2, bool_decide_eq_true_2.
Qed.

(** The keys of the gate's argument are the folders that drained. *)
Definition ok_keys (ok : list folder_id) : list string :=
  folder_label <$> ok.

Lemma gate_keeps {T} (tokens : list (string * T)) keys k t :
  (k, t) ∈ (gate_mail_delta_tokens tokens keys).1 ↔ (k, t) ∈ tokens ∧ k ∈ keys.
Proof. unfold gate_mail_delta_tokens. cbn [fst]. rewrite list_elem_of_filter. cbn. tauto. Qed.

Lemma gate_splits {T} (tokens : list (string * T)) keys :
  let g := gate_mail_delta_tokens tokens keys in fst <$> tokens ≡ₚ (fst <$> g.1) ++ g.2.
Proof.
  cbn. unfold gate_mail_delta_tokens. cbn [fst snd]. rewrite <- fmap_app. f_equiv.
  induction tokens as [|[k t] l IH]; [done|]. rewrite !filter_cons. cbn [fst].
  destruct (decide (k ∈ keys)) as [Hk|Hk].
  - destruct (decide (k ∉ keys)); [done|]. cbn. by f_equiv.
  - destruct (decide (k ∉ keys)); [|done]. rewrite <- Permutation_middle. by f_equiv.
Qed.

(** A mail run that may settle COMPLETED drained and persisted every folder it planned and
    did not skip by fingerprint. Whatever the verdict, a fingerprint or a cursor advances only for a folder
    that did. *)
Theorem mail_run_advances_only_what_it_stored {T} planned skipped ok items (tokens : list (string * T)) :
  ((mail_verdict planned skipped ok items).1 = None → ∀ f, f ∈ planned → f ∉ skipped → f ∈ ok) ∧
  (∀ s, s ∈ (evaluate_mail_folder_outcomes planned skipped ok).1 → Some s ∈ planned ∧ Some s ∈ ok) ∧
  (∀ k t, (k, t) ∈ (gate_mail_delta_tokens tokens (ok_keys ok)).1 → k ≠ "__all__" → Some k ∈ ok) ∧
  (∀ k t, (k, t) ∈ tokens → Some k ∈ ok → k ≠ "" → (k, t) ∈ (gate_mail_delta_tokens tokens (ok_keys ok)).1).
Proof.
  split_and!.
  - unfold mail_verdict. intros H%drain_clean. destruct planned as [|p planned]; [by intros f ?%not_elem_of_nil|].
    apply missing_empty, leibniz_equiv, size_empty_iff. cbn [length] in H. lia.
  - intros s (?&?&?&?)%advance_spec. done.
  - intros k t [_ Hk]%gate_keeps Hne. unfold ok_keys in Hk. apply list_elem_of_fmap in Hk as ([s|]&->&?); [|done].
    cbn in *. by case_bool_decide.
  - intros k t Hin Hok Hne. apply gate_keeps. split; [done|]. unfold ok_keys. apply list_elem_of_fmap.
    exists (Some k). cbn. by rewrite bool_decide_eq_false_2.
Qed.

(** ** The interleave forgets nothing *)
Definition has_id (m : failed_msg) : bool := match fm_id m with Some i => negb (bool_decide (i = "")) | None => false end.
Definition in_group (m : failed_msg) (g : list (string * list failed_msg)) : Prop := ∃ ms, (fm_chat m, ms) ∈ g ∧ m ∈ ms.

Lemma log_appends_bound {A} (es : list A) l :
  fl_overflow l <= fl_overflow (log_appends l es) ∧
  (fl_overflow (log_appends l es) = fl_overflow l → fl_entries (log_appends l es) = fl_entries l ++ es).
Proof.
  revert l. induction es as [|e es IH]; intros l; [by rewrite app_nil_r|]. unfold log_appends. cbn [foldl].
  specialize (IH (log_append e l).1). unfold log_appends in IH. unfold log_append in *.
  destruct (fl_cap l <=? _); cbn [fst fl_overflow fl_entries] in *; [lia|].
  rewrite <- app_assoc in IH. exact IH.
Qed.

Lemma into_group_count m g : grouped_count (into_group m g) = grouped_count g + 1.
Proof.
  induction g as [|[c ms] g IH]; [done|]. cbn [into_group]. case_bool_decide.
  - unfold grouped_count. cbn [foldr snd]. rewrite length_app. cbn [length]. lia.
  - unfold grouped_count in *. cbn [foldr snd]. lia.
Qed.

Lemma into_group_self m g : in_group m (into_group m g).
Proof.
  induction g as [|[c ms] g (ms'&Hin&Hm)]; cbn [into_group].
  - exists [m]. by split; apply list_elem_of_singleton.
  - case_bool_decide as Hc; [exists (ms ++ [m]); rewrite Hc, elem_of_app, list_elem_of_singleton; split; [left|by right]|].
    exists ms'. split; [by right|done].
Qed.

Lemma into_group_keeps x m g : in_group x g → in_group x (into_group m g).
Proof.
  intros (xs&Hin&Hx). induction g as [|[c ms] g IH]; [by apply not_elem_of_nil in Hin|]. cbn [into_group].
  apply elem_of_cons in Hin as [[= E1 <-]|Hin].
  - case_bool_decide as Hc; [exists (xs ++ [m]); rewrite <- E1, elem_of_app; split; [left|by left]|].
    exists xs. rewrite <- E1. split; [left|done].
  - destruct (IH Hin) as (ys&?&?). case_bool_decide; [exists xs|exists ys]; (split; [by right|done]).
Qed.

Lemma group_go_count seen g l :
  grouped_count g <= grouped_count (group_go seen g l) ∧
  (grouped_count (group_go seen g l) = grouped_count g → ∀ m i, m ∈ l → fm_id m = Some i → i ≠ "" → (fm_chat m, i) ∈ seen).
Proof.
  revert seen g. induction l as [|x l IH]; intros seen g; cbn [group_go]; [split; [lia|by intros _ m i ?%not_elem_of_nil]|].
  destruct (fm_id x) as [j|] eqn:Ex.
  - destruct (_ || _) eqn:Eb.
    + destruct (IH seen g) as [H1 H2]. split; [done|]. intros E m i [->|Hm]%elem_of_cons Hi Hne; [|by eapply H2].
      assert (i = j) as -> by congruence. apply orb_true_iff in Eb as [?|?]; by bools.
    + destruct (IH ((fm_chat x, j) :: seen) (into_group x g)) as [H1 _]. rewrite into_group_count in H1. split; [lia|]. lia.
  - destruct (IH seen g) as [H1 H2]. split; [done|]. intros E m i [->|Hm]%elem_of_cons Hi Hne; [congruence|by eapply H2].
Qed.

Lemma group_go_has seen g l :
  (∀ c i, (c, i) ∈ seen → ∃ m, fm_chat m = c ∧ fm_id m = Some i ∧ in_group m g) →
  (∀ m, in_group m g → in_group m (group_go seen g l)) ∧
  (∀ m i, m ∈ l → fm_id m = Some i → i ≠ "" → ∃ m', fm_chat m' = fm_chat m ∧ fm_id m' = Some i ∧ in_group m' (group_go seen g l)).
Proof.
  revert seen g. induction l as [|x l IH]; intros seen g Hs; cbn [group_go]; [split; [done|by intros m i ?%not_elem_of_nil]|].
  destruct (fm_id x) as [j|] eqn:Ex; [destruct (_ || _) eqn:Eb|].
  - destruct (IH seen g Hs) as [H1 H2]. split; [done|]. intros m i [->|Hm]%elem_of_cons Hi Hne; [|by apply H2].
    assert (i = j) as -> by congruence. apply orb_true_iff in Eb as [?|?]; bools; [done|].
    destruct (Hs (fm_chat x) j) as (m'&?&?&?); [done|]. exists m'. split_and!; [done..|]. by apply H1.
  - destruct (IH ((fm_chat x, j) :: seen) (into_group x g)) as [H1 H2].
    { intros c i [[= -> ->]|Hc]%elem_of_cons; [exists x; split_and!; [done|done|apply into_group_self]|].
      destruct (Hs c i Hc) as (m'&?&?&?). exists m'. by split_and!; [..|apply into_group_keeps]. }
    split; [intros m Hm; by apply H1, into_group_keeps|]. intros m i [->|Hm]%elem_of_cons Hi Hne; [|by apply H2].
    exists x. rewrite Ex in Hi. split_and!; [done|congruence|apply H1, into_group_self].
  - destruct (IH seen g Hs) as [H1 H2]. split; [done|]. intros m i [->|Hm]%elem_of_cons Hi Hne; [congruence|by apply H2].
Qed.

Lemma has_id_iff m : has_id m = true ↔ ∃ i, fm_id m = Some i ∧ i ≠ "".
Proof. unfold has_id. destruct (fm_id m); [rewrite negb_true_iff, bool_decide_eq_false|]; naive_solver. Qed.

(** A group of no message came from messages without ids. *)
Lemma group_none l : grouped_count (group_failed_interleaves l) <= 0 → ∀ m, m ∈ l → has_id m = false.
Proof.
  intros H m Hm. apply not_true_iff_false. intros (i&Hi&Hne)%has_id_iff.
  destruct (group_go_count [] [] l) as [H1 H2]. change (grouped_count []) with 0 in *.
  unfold group_failed_interleaves in H. apply (not_elem_of_nil (fm_chat m, i)). apply H2; [lia|done..].
Qed.

Lemma group_has l m : m ∈ l → has_id m = true → ∃ m', fm_chat m' = fm_chat m ∧ fm_id m' = fm_id m ∧ in_group m' (group_failed_interleaves l).
Proof.
  intros Hm (i&Hi&Hne)%has_id_iff. destruct (group_go_has [] [] l) as [_ H]; [by intros c j ?%not_elem_of_nil|].
  destruct (H m i Hm Hi Hne) as (m'&?&?&?). exists m'. by rewrite Hi.
Qed.

Lemma interleave_complete ge hc_left att_left ho ao :
  (interleave_status_from_logs ge hc_left att_left ho ao).1 = "COMPLETE" →
  ge <= 0 ∧ grouped_count hc_left + Z.max 0 ho <= 0 ∧ grouped_count att_left + Z.max 0 ao <= 0.
Proof.
  unfold interleave_status_from_logs, interleave_drain_status. destruct (_ && _) eqn:E; [bools; auto|].
  by destruct (negb _ || negb _).
Qed.

Lemma after_retry_lossless marker again other cap fs :
  let l := after_retry marker again other (log_appends (log_new cap) fs) in
  (other = true ∨ source_retries marker (log_appends (log_new cap) fs) ≠ [] ∨ ∀ m, m ∈ fs → has_id m = false) →
  grouped_count (group_failed_interleaves (fl_entries l)) + Z.max 0 (fl_overflow l) <= 0 →
  ∀ m, m ∈ fs → has_id m = true →
    marker m = false ∧
    ∃ ms m', (fm_chat m, ms) ∈ group_failed_interleaves (filter (λ m, marker m = false) fs) ∧ m' ∈ ms ∧ fm_chat m' = fm_chat m ∧ fm_id m' = fm_id m ∧
             ∀ x, x ∈ again (fm_chat m) ms → has_id x = false.
Proof.
  cbv zeta. set (l0 := log_appends _ fs). destruct (log_appends_bound fs (log_new cap)) as [B0 E0]. fold l0 in B0, E0. cbn [fl_overflow log_new] in *.
  intros Hother Hn m Hm Hid. destruct (group_go_count [] [] (fl_entries (after_retry marker again other l0))) as [Hpos _].
  change (grouped_count []) with 0 in Hpos. change (group_go [] [] ?l) with (group_failed_interleaves l) in Hpos.
  assert (other || negb (bool_decide (source_retries marker l0 = [])) = true) as Hc.
  { apply orb_true_iff. destruct Hother as [->|[?|H]]; [by left|right; by rewrite bool_decide_eq_false_2|by rewrite H in Hid]. }
  unfold after_retry in Hn, Hpos. rewrite Hc in Hn, Hpos. unfold keep_marked in Hn, Hpos.
  set (k := filter _ (fl_entries l0)) in *. set (r := retried_failures again _) in *.
  destruct (log_appends_bound k (log_clear l0)) as [B1 E1]. destruct (log_appends_bound r (log_appends (log_clear l0) k)) as [B2 E2].
  change (fl_overflow (log_clear l0)) with (fl_overflow l0) in *. change (fl_entries (log_clear l0)) with (@nil failed_msg) in *.
  assert (fl_entries l0 = fs) as E3 by (apply E0; lia).
  specialize (E1 ltac:(clear -Hn Hpos B0 B1 B2; lia)). specialize (E2 ltac:(clear -Hn Hpos B0 B1 B2; lia)). rewrite E1 in E2. cbn [app] in E2.
  clear Hpos B0 B1 B2. assert (grouped_count (group_failed_interleaves (k ++ r)) <= 0) as Hn' by (rewrite <- E2; lia).
  assert (k = filter (λ m, marker m = true) fs) as Ek by (unfold k; by rewrite E3).
  pose proof (group_none _ Hn') as Hnone. setoid_rewrite elem_of_app in Hnone.
  assert (marker m = false) as Hmk.
  { apply not_true_iff_false. intros Hmk. rewrite (Hnone m) in Hid; [done|]. left. by rewrite Ek, list_elem_of_filter. }
  split; [done|].
  destruct (group_has (filter (λ m, marker m = false) fs) m) as (m'&Hch&Hi&ms&Hms&Hm'); [by rewrite list_elem_of_filter|done|].
  exists ms, m'. rewrite <- Hch. split_and!; [done..|]. intros x Hx. apply Hnone. right. subst r. unfold retried_failures, source_retries.
  rewrite E3. apply list_elem_of_join. eexists. split; [exact Hx|].
  apply (list_elem_of_fmap_2 (λ cm, again cm.1 cm.2) _ _ Hms).
Qed.

(** C12: the detached interleave reports COMPLETE only when no task crashed and every message
    that failed in the first pass was retried in its chat's batch, with nothing of that batch
    failing again: neither the retention cap nor an exhausted pointer transaction can hide a loss.
    (A message without an id is not counted.) *)
Theorem interleave_complete_lost_nothing hm ha am aa cap ge hc att :
  (hc_drain_finalizer hm ha am aa cap ge hc att).1 = "COMPLETE" →
  ge <= 0 ∧ ∀ kind : bool,
    let marker := if kind then hm else am in let again := if kind then ha else aa in let fs := if kind then hc else att in
    ∀ m, m ∈ fs → has_id m = true →
      marker m = false ∧
      ∃ ms m', (fm_chat m, ms) ∈ group_failed_interleaves (filter (λ m, marker m = false) fs) ∧ m' ∈ ms ∧
               fm_chat m' = fm_chat m ∧ fm_id m' = fm_id m ∧ ∀ x, x ∈ again (fm_chat m) ms → has_id x = false.
Proof.
  intros (Hge&Hh&Ha)%interleave_complete. split; [done|].
  assert (∀ marker again other fs m, m ∈ fs → has_id m = true →
    let l := after_retry marker again other (log_appends (log_new cap) fs) in
    grouped_count (group_failed_interleaves (fl_entries l)) + Z.max 0 (fl_overflow l) <= 0 →
    marker m = false ∧
    ∃ ms m', (fm_chat m, ms) ∈ group_failed_interleaves (filter (λ m, marker m = false) fs) ∧ m' ∈ ms ∧
             fm_chat m' = fm_chat m ∧ fm_id m' = fm_id m ∧ ∀ x, x ∈ again (fm_chat m) ms → has_id x = false) as Hone.
  { intros marker again other fs m Hm Hid l Hl. eapply (after_retry_lossless marker again other cap fs); [|exact Hl|done..].
    destruct other eqn:Eo; [by left|right]. destruct (decide (source_retries marker (log_appends (log_new cap) fs) = [])) as [E|?]; [|by left].
    right. subst l. unfold after_retry in Hl. rewrite bool_decide_eq_true_2 in Hl by done. cbn [orb negb] in Hl.
    destruct (log_appends_bound fs (log_new cap)) as [B0 E0]. cbn [fl_overflow log_new] in B0, E0.
    destruct (group_go_count [] [] (fl_entries (log_appends (log_new cap) fs))) as [Hpos _].
    change (grouped_count []) with 0 in Hpos. unfold group_failed_interleaves in Hl.
    apply group_none. unfold group_failed_interleaves. rewrite E0 in Hl by lia. cbn [fl_entries log_new app] in Hl. lia. }
  intros []; cbv zeta iota; intros m Hm Hid; [exact (Hone _ _ _ _ m Hm Hid Hh)|exact (Hone _ _ _ _ m Hm Hid Ha)].
Qed.

Module HonestyExample.
Definition msg (c i : string) : failed_msg := FailedMsg c (Some i).
(** Two hosted contents failed, one of them twice; both come back on the retry. *)
Definition run (cap : Z) := hc_drain_finalizer (λ _, false) (λ _ _, []) (λ _, false) (λ _ _, []) cap 0 [msg "c1" "m1"; msg "c2" "m2"; msg "c1" "m1"] [].
(** With a cap of one, the failures that were never retried keep the status FAILED. *)
Example capped : run 1 = ("FAILED", Some "2 message(s) lost hostedContent; 2 failure(s) dropped by CHAT_INTERLEAVE_MAX_RETAINED_FAILURES cap (never retried)").
Proof. by vm_compute. Qed.
(** A failure recorded without an id is dropped by the grouping: it is neither retried nor counted. *)
Example without_id : hc_drain_finalizer (λ _, false) (λ _ _, []) (λ _, false) (λ _ _, []) 10 0 [FailedMsg "c1" None] [] = ("COMPLETE", None).
Proof. by vm_compute. Qed.
End HonestyExample.

Lemma interleave_complete_lost_nothing_witness : (HonestyExample.run 5).1 = "COMPLETE" ∧ 0 <= 0.
Proof.
  assert ((HonestyExample.run 5).1 = "COMPLETE") as E by (by vm_compute).
  split; [exact E|exact (proj1 (interleave_complete_lost_nothing _ _ _ _ _ _ _ _ E))].
Defined.
