(* ===== verification/BackupCursor.v ===== *)
(** * Pending and active delta cursors

    The cursor slots a resource keeps in [extra_data], from [workers/backup-worker/main.py]:
    an enumeration only stashes the position it reached, under the name of its snapshot, and
    the active cursor moves when that snapshot settles COMPLETED. OneDrive keeps one link,
    calendars and contacts a map of links.

    [extra_data] is a finite map from keys to values; of the JSON it may hold, the values the
    worker reads there are texts, numbers, booleans and maps from ids to texts; anything else is
    a value with its truth. A function that raises (a cursor slot of the wrong shape) returns [None]. *)

From S2P Require Import Prelude.
Local Open Scope string_scope.
Local Open Scope Z_scope.

Inductive value :=
  | VNull | VBool (b : bool) | VNum (z : Z) | VStr (s : string) | VMap (m : gmap string string)
  | VOther (id : Z) (nonempty : bool).
Global Instance value_eq_dec : EqDecision value.
Proof. solve_decision. Defined.
Abbreviation extra := (gmap string value).

Definition truth (v : value) : bool :=
  match v with
  | VNull => false | VBool b => b | VNum z => negb (z =? 0)
  | VStr s => negb (bool_decide (s = "")) | VMap m => negb (bool_decide (m = ∅)) | VOther _ b => b end.
(** [ed.get(k)] and its truth. *)
Definition get (k : string) (ed : extra) : value := default VNull (ed !! k).
Definition has_flag (k : string) (ed : extra) : bool := truth (get k ed).

(** [pending_cursor_owner_key]. *)
Definition pending_cursor_owner_key (pending_key : string) : string := pending_key +:+ "_snapshot".

(** [str(owner) == str(snapshot_id or "")]: [snapshot_id] is absent or the text of a uuid, which
    the rendering of a true number, boolean or dict never is. *)
Definition owner_is (v : value) (snapshot_id : option string) : bool :=
  match v with VStr s => bool_decide (s = default "" snapshot_id) | _ => false end.

(** [_claim_pending_cursor]: what is left of [ed], and the pending value when the caller may promote it. *)
Definition _claim_pending_cursor (ed : extra) (pending_key : string) (snapshot_id : option string) : extra * option value :=
  let owner_key := pending_cursor_owner_key pending_key in
  let pending := get pending_key ed in
  let owner := get owner_key (delete pending_key ed) in
  let ed' := delete owner_key (delete pending_key ed) in
  if negb (truth pending) then (ed', None)
  else if truth owner && negb (owner_is owner snapshot_id)
  then (<[owner_key := owner]> (<[pending_key := pending]> ed'), None)
  else (ed', Some pending).

(** [if snapshot_id: ed[owner_key] = str(snapshot_id)] *)
Definition stamp_owner (pending_key : string) (snapshot_id : option string) (ed : extra) : extra :=
  match snapshot_id with Some s => <[pending_cursor_owner_key pending_key := VStr s]> ed | None => ed end.

Definition ONEDRIVE_DELTA_LINK_KEY : string := "onedrive_delta_link".
Definition ONEDRIVE_DELTA_LINK_PENDING_KEY : string := "onedrive_delta_link_pending".
Definition CALENDAR_DELTA_TOKENS_KEY : string := "calendar_delta_tokens".
Definition CALENDAR_DELTA_TOKENS_PENDING_KEY : string := "calendar_delta_tokens_pending".
Definition CONTACTS_DELTAS_KEY : string := "contacts_deltas".
Definition CONTACTS_DELTAS_PENDING_KEY : string := "contacts_deltas_pending".

(** [stash_pending_delta_link]. *)
Definition stash_pending_delta_link (ed : extra) (link : string) (snapshot_id : option string) : extra :=
  stamp_owner ONEDRIVE_DELTA_LINK_PENDING_KEY snapshot_id (<[ONEDRIVE_DELTA_LINK_PENDING_KEY := VStr link]> ed).

(** [promote_pending_delta_link]. *)
Definition promote_pending_delta_link (ed : extra) (snapshot_id : option string) : extra * bool :=
  match _claim_pending_cursor ed ONEDRIVE_DELTA_LINK_PENDING_KEY snapshot_id with
  | (ed, None) => (ed, false)
  | (ed, Some pending) => (<[ONEDRIVE_DELTA_LINK_KEY := pending]> ed, true)
  end.

(** [stash_pending_cursor_map]. *)
Definition stash_pending_cursor_map (ed : extra) (pending_key : string) (values : gmap string string) (snapshot_id : option string) : extra :=
  if bool_decide (values = ∅) then ed
  else stamp_owner pending_key snapshot_id (<[pending_key := VMap values]> ed).

(** [dict(v or {})]: a dict, or nothing for a value without truth; anything else raises. *)
Definition dict_or_empty (v : value) : option (gmap string string) :=
  match v with VMap m => Some m | _ => if truth v then None else Some ∅ end.

(** [promote_pending_cursor_map]. *)
Definition promote_pending_cursor_map (ed : extra) (pending_key active_key : string) (snapshot_id : option string) : option (extra * bool) :=
  match _claim_pending_cursor ed pending_key snapshot_id with
  | (ed, None) => Some (ed, false)
  | (ed, Some pending) =>
    merged ← dict_or_empty (get active_key ed);
    match pending with
    | VMap p => Some (<[active_key := VMap (p ∪ merged)]> ed, true)
    | _ => None   (* [merged.update] of a text or a number raises *)
    end
  end.

(** [_PENDING_CURSOR_SLOTS]. *)
Definition _PENDING_CURSOR_SLOTS (ty : string) : option (string * string) :=
  if bool_decide (ty = "USER_CALENDAR") then Some (CALENDAR_DELTA_TOKENS_PENDING_KEY, CALENDAR_DELTA_TOKENS_KEY)
  else if bool_decide (ty = "USER_CONTACTS") then Some (CONTACTS_DELTAS_PENDING_KEY, CONTACTS_DELTAS_KEY)
  else None.

(** [promote_pending_cursors_for_type]. *)
Definition promote_pending_cursors_for_type (ed : extra) (ty : string) (snapshot_id : option string) : option (extra * bool) :=
  if bool_decide (ty = "USER_ONEDRIVE") then Some (promote_pending_delta_link ed snapshot_id)
  else match _PENDING_CURSOR_SLOTS ty with
       | None => Some (ed, false)
       | Some (pending_key, active_key) => promote_pending_cursor_map ed pending_key active_key snapshot_id
       end.

(** What the calendar and contact walks write back: the stash, and the eviction of cursors the
    provider answered 410 for. *)
Definition stash_and_evict (ed : extra) (pending_key active_key : string) (values : gmap string string)
    (snapshot_id : option string) (dead : list string) : option extra :=
  let ed := stash_pending_cursor_map ed pending_key values snapshot_id in
  if bool_decide (dead = []) then Some ed
  else m ← dict_or_empty (get active_key ed);
       Some (<[active_key := VMap (foldl (λ m k, delete k m) m dead)]> ed).

(** ** Reading the slots

    A resource type's pending and active keys, and the cursor an id has in a slot; the one link
    of a drive has the id [""]. *)
Definition cursor_slots (ty : string) : option (string * string) :=
  if bool_decide (ty = "USER_ONEDRIVE") then Some (ONEDRIVE_DELTA_LINK_PENDING_KEY, ONEDRIVE_DELTA_LINK_KEY)
  else _PENDING_CURSOR_SLOTS ty.
Definition slot_cursor (v : value) (k : string) : option string :=
  match v with
  | VStr s => if bool_decide (k = "") && negb (bool_decide (s = "")) then Some s else None
  | VMap m => m !! k | _ => None end.
Definition cursor_at (key : string) (ed : extra) (k : string) : option string := slot_cursor (get key ed) k.

(** The keys of the slots are apart. *)
Record apart (pk ak : string) : Prop := {
  ap_active : pk ≠ ak;
  ap_owner : pending_cursor_owner_key pk ≠ ak;
  ap_self : pending_cursor_owner_key pk ≠ pk;
}.
Lemma slots_apart ty pk ak : cursor_slots ty = Some (pk, ak) → apart pk ak.
Proof. unfold cursor_slots, _PENDING_CURSOR_SLOTS. repeat case_bool_decide; intros [= <- <-]; by split; vm_compute. Qed.

Lemma get_insert k v ed : get k (<[k := v]> ed) = v.
Proof. unfold get. by rewrite lookup_insert_eq. Qed.
Lemma get_insert_ne k k' v ed : k ≠ k' → get k' (<[k := v]> ed) = get k' ed.
Proof. intros. unfold get. by rewrite lookup_insert_ne. Qed.
Lemma get_delete k ed : get k (delete k ed) = VNull.
Proof. unfold get. by rewrite lookup_delete_eq. Qed.
Lemma get_delete_ne k k' ed : k ≠ k' → get k' (delete k ed) = get k' ed.
Proof. intros. unfold get. by rewrite lookup_delete_ne. Qed.

(** Who owns the pending slot. *)
Definition pending_owner (pk : string) (ed : extra) : value := get (pending_cursor_owner_key pk) ed.
Definition entitled (pk : string) (ed : extra) (snapshot_id : option string) : bool :=
  has_flag pk ed && (negb (truth (pending_owner pk ed)) || owner_is (pending_owner pk ed) snapshot_id).

(** The claim: an entitled caller takes the value out, any other leaves the slots as they were. *)
Lemma claim_entitled pk ak ed sid : apart pk ak →
  match _claim_pending_cursor ed pk sid with
  | (ed', Some v) => entitled pk ed sid = true ∧ v = get pk ed ∧ get pk ed' = VNull ∧ pending_owner pk ed' = VNull
  | (ed', None) => entitled pk ed sid = false ∧
                   (if has_flag pk ed then get pk ed' = get pk ed ∧ pending_owner pk ed' = pending_owner pk ed
                    else get pk ed' = VNull ∧ pending_owner pk ed' = VNull)
  end ∧ (∀ k, k ≠ pk → k ≠ pending_cursor_owner_key pk → get k (_claim_pending_cursor ed pk sid).1 = get k ed).
Proof.
  intros [Ha Ho Hs]. unfold _claim_pending_cursor, entitled, has_flag, pending_owner. rewrite (get_delete_ne pk) by done.
  destruct (truth (get pk ed)) eqn:Ep; cbn [negb andb].
  - destruct (truth (get (pending_cursor_owner_key pk) ed) && _) eqn:Eo.
    + split; [split|].
      * bools. rewrite orb_false_iff, negb_false_iff. done.
      * rewrite get_insert_ne, get_insert, get_insert by done. done.
      * intros k H1 H2. cbn [fst]. rewrite !get_insert_ne, !get_delete_ne; done.
    + split; [split_and!|].
      * apply andb_false_iff in Eo as [->|Eo]; [done|]. apply negb_false_iff in Eo. by rewrite Eo, orb_true_r.
      * done.
      * rewrite get_delete_ne, get_delete by done. done.
      * by rewrite get_delete.
      * intros k H1 H2. cbn [fst]. rewrite !get_delete_ne; done.
  - split; [split_and!|].
    + done.
    + rewrite get_delete_ne, get_delete by done. done.
    + by rewrite get_delete.
    + intros k H1 H2. cbn [fst]. rewrite !get_delete_ne; done.
Qed.

Lemma cursor_truth v k c : slot_cursor v k = Some c → truth v = true.
Proof.
  destruct v as [| | |s|m|]; cbn; [done..| | |done].
  - destruct (bool_decide (s = "")); [by rewrite andb_false_r|done].
  - intros H. apply negb_true_iff, bool_decide_eq_false. intros ->. by rewrite lookup_empty in H.
Qed.

Lemma cursor_null k : slot_cursor VNull k = None.
Proof. done. Qed.

Lemma dict_cursor v m k c : dict_or_empty v = Some m → m !! k = Some c → slot_cursor v k = Some c.
Proof.
  destruct v as [|b|z|s|m'|z b]; cbn; intros H Hm; repeat case_match; simplify_eq; try (by rewrite lookup_empty in Hm); done.
Qed.

(** A promotion moves the pending cursors of an entitled run forward and empties the slot; for any
    other caller the active cursors stay. *)
Lemma promote_effect ed ty sid ed' p pk ak :
  cursor_slots ty = Some (pk, ak) → promote_pending_cursors_for_type ed ty sid = Some (ed', p) →
  p = entitled pk ed sid ∧
  (∀ k c, cursor_at ak ed' k = Some c → cursor_at ak ed k = Some c ∨ (p = true ∧ cursor_at pk ed k = Some c)) ∧
  (∀ k c, p = true → cursor_at pk ed k = Some c → cursor_at ak ed' k = Some c) ∧
  (∀ k, p = false → cursor_at ak ed' k = cursor_at ak ed k) ∧
  (∀ k c, cursor_at pk ed' k = Some c → p = false ∧ cursor_at pk ed k = Some c ∧ pending_owner pk ed' = pending_owner pk ed).
Proof.
  intros Hs Hp. pose proof (slots_apart _ _ _ Hs) as Hap. pose proof Hap as [Ha Ho Hself].
  assert (match _claim_pending_cursor ed pk sid with
          | (e, None) => Some (e, false) = Some (ed', p)
          | (e, Some v) => ∃ w, Some (<[ak := w]> e, true) = Some (ed', p) ∧
              (∀ k c, slot_cursor w k = Some c → slot_cursor v k = Some c ∨ cursor_at ak e k = Some c) ∧
              (∀ k c, slot_cursor v k = Some c → slot_cursor w k = Some c) end) as H.
  { clear Hap Ha Ho Hself. revert Hs Hp. unfold cursor_slots, promote_pending_cursors_for_type. case_bool_decide; [intros [= <- <-] [= Hp]|intros -> Hp].
    - unfold promote_pending_delta_link in Hp. destruct (_claim_pending_cursor _ _ _) as [e [v|]]; [|congruence].
      exists v. split; [congruence|]. split; auto.
    - unfold promote_pending_cursor_map in Hp. destruct (_claim_pending_cursor _ _ _) as [e [v|]]; [|done].
      destruct (dict_or_empty _) as [m|] eqn:Em; [|done]. destruct v; try done. cbn in Hp. eexists. split; [exact Hp|]. split.
      + cbn [slot_cursor]. intros k c [Hc|[_ Hc]]%lookup_union_Some_raw; [by left|right]. by eapply dict_cursor.
      + intros k c Hc. cbn in *. by apply lookup_union_Some_l. }
  destruct (claim_entitled pk ak ed sid Hap) as [Hc Hrest]. destruct (_claim_pending_cursor ed pk sid) as [e [v|]]; cbn [fst] in *.
  - destruct H as (w&Hw&Hw1&Hw2), Hc as (He&->&Hpk&Hown). injection Hw as <- <-. unfold cursor_at in *.
    assert (get ak e = get ak ed) as Eak by auto. rewrite get_insert, Eak in *. rewrite (get_insert_ne ak pk) by done.
    split_and!; [by rewrite He|intros k c [?|?]%Hw1; auto|auto|done|]. intros k c. by rewrite Hpk.
  - injection H as <- <-. destruct Hc as [He Hc]. unfold cursor_at. rewrite (Hrest ak) by done.
    split_and!; [by rewrite He|auto|done|done|]. intros k c Hk. split; [done|].
    destruct (has_flag pk ed); destruct Hc as [E1 E2]; rewrite E1 in Hk; [|done]. by rewrite E2.
Qed.

(** A stash never touches the active cursors; the pending slot then holds the new values under the
    run's name, or what it held. *)
Lemma stash_effect ty pk ak ed values s dead ed' :
  cursor_slots ty = Some (pk, ak) → stash_and_evict ed pk ak values (Some s) dead = Some ed' →
  (∀ k c, cursor_at ak ed' k = Some c → cursor_at ak ed k = Some c) ∧
  (if bool_decide (values = ∅) then ∀ k, cursor_at pk ed' k = cursor_at pk ed k ∧ pending_owner pk ed' = pending_owner pk ed
   else pending_owner pk ed' = VStr s ∧ ∀ k, cursor_at pk ed' k = values !! k).
Proof.
  intros Hs H. pose proof (slots_apart _ _ _ Hs) as [Ha Ho Hself].
  assert (∀ e, (e = stash_pending_cursor_map ed pk values (Some s)) →
    get ak e = get ak ed ∧
    (if bool_decide (values = ∅) then ∀ k, cursor_at pk e k = cursor_at pk ed k ∧ pending_owner pk e = pending_owner pk ed
     else pending_owner pk e = VStr s ∧ ∀ k, cursor_at pk e k = values !! k)) as Hst.
  { intros e ->. unfold stash_pending_cursor_map. case_bool_decide; [done|]. cbn [stamp_owner].
    unfold cursor_at, pending_owner.
    split_and!; [by rewrite !get_insert_ne|by rewrite get_insert|intros k; by rewrite get_insert_ne, get_insert]. }
  unfold stash_and_evict in H. destruct (Hst _ eq_refl) as [H1 H2]. destruct (bool_decide (dead = [])).
  { injection H as <-. split; [intros k c; unfold cursor_at; by rewrite H1|done]. }
  destruct (dict_or_empty _) as [m|] eqn:Em; [|done]. cbn in H. injection H as <-. unfold cursor_at in *. unfold pending_owner in *.
  rewrite get_insert. rewrite !(get_insert_ne ak) by done. split; [|done]. intros k c Hk. rewrite <- H1. eapply dict_cursor; [exact Em|].
  revert Hk. cbn. clear. induction dead as [|d dead IH] in m |- *; cbn; [done|]. intros H%IH. by apply lookup_delete_Some in H as [_ ?].
Qed.

Lemma stash_link_effect ed link s :
  let ed' := stash_pending_delta_link ed link (Some s) in
  (∀ k, cursor_at ONEDRIVE_DELTA_LINK_KEY ed' k = cursor_at ONEDRIVE_DELTA_LINK_KEY ed k) ∧
  pending_owner ONEDRIVE_DELTA_LINK_PENDING_KEY ed' = VStr s ∧
  (∀ k, cursor_at ONEDRIVE_DELTA_LINK_PENDING_KEY ed' k = slot_cursor (VStr link) k).
Proof.
  cbv zeta. unfold stash_pending_delta_link, cursor_at, pending_owner. cbn [stamp_owner].
  destruct (slots_apart "USER_ONEDRIVE" ONEDRIVE_DELTA_LINK_PENDING_KEY ONEDRIVE_DELTA_LINK_KEY eq_refl) as [Ha Ho Hs].
  split_and!; [intros k; by rewrite !get_insert_ne|by rewrite get_insert|intros k; by rewrite get_insert_ne, get_insert].
Qed.
