(* ===== verification/BackupSettle.v ===== *)
(** * Settling the snapshot of a run

    How a run of [workers/backup-worker/main.py] opens its snapshot and gives it a terminal
    status: [create_snapshot], the inline finalize, [complete_snapshot], [fail_snapshot], the
    fenced terminal write they share and the settlement of a dead enumeration.

    A snapshot row is a record of the columns these read or write; the tables they only consult
    (pending copies, the presentation plan, the job's status, the delta against the prior
    snapshot) are arguments. Times are microseconds, [NOW()] and [utcnow()] read once. *)

From S2P Require Import Prelude Calendar Lease Reconciler Text BackupHonesty BackupCursor.
From stdpp Require Import pretty.
From Stdlib Require Import Ascii.
Local Open Scope string_scope.
Local Open Scope Z_scope.

(** [datetime.isoformat()] of microseconds since 0001-01-01. *)
Definition padded (n : nat) (z : Z) : string :=
  let d := pretty z in text_of (replicate (n - String.length d) "0"%char) +:+ d.
Definition isoformat (t : Z) : string :=
  let '(y, m, d) := ord2ymd (ordinal t) in
  let us := t mod US_PER_DAY in
  let s := us / 1000000 in
  padded 4 y +:+ "-" +:+ padded 2 m +:+ "-" +:+ padded 2 d +:+ "T" +:+
  padded 2 (s / 3600) +:+ ":" +:+ padded 2 (s / 60 mod 60) +:+ ":" +:+ padded 2 (s mod 60) +:+
  (if us mod 1000000 =? 0 then "" else "." +:+ padded 6 (us mod 1000000)).

(** ** The row *)
Record snap_state := SnapRow {
  sn_job : string;
  sn_resource : string;
  sn_created : Z;
  sn_status : snapshot_status;
  sn_full : bool;
  sn_extra : extra;
  sn_tracking : file_tracking;       (** [delta_tokens_json] *)
  sn_delta_token : option string;
  sn_started : option Z;
  sn_completed : option Z;
  sn_duration : option Z;
  sn_items : Z;
  sn_new_items : Z;
  sn_bytes : Z;
  sn_bytes_added : Z;
  sn_lease : lease_cols;
}.

Definition with_status (st : snapshot_status) (r : snap_state) : snap_state :=
  SnapRow (sn_job r) (sn_resource r) (sn_created r) st (sn_full r) (sn_extra r) (sn_tracking r) (sn_delta_token r)
    (sn_started r) (sn_completed r) (sn_duration r) (sn_items r) (sn_new_items r) (sn_bytes r) (sn_bytes_added r) (sn_lease r).
Definition with_extra (ed : extra) (r : snap_state) : snap_state :=
  SnapRow (sn_job r) (sn_resource r) (sn_created r) (sn_status r) (sn_full r) ed (sn_tracking r) (sn_delta_token r)
    (sn_started r) (sn_completed r) (sn_duration r) (sn_items r) (sn_new_items r) (sn_bytes r) (sn_bytes_added r) (sn_lease r).
Definition with_times (completed duration : option Z) (r : snap_state) : snap_state :=
  SnapRow (sn_job r) (sn_resource r) (sn_created r) (sn_status r) (sn_full r) (sn_extra r) (sn_tracking r) (sn_delta_token r)
    (sn_started r) completed duration (sn_items r) (sn_new_items r) (sn_bytes r) (sn_bytes_added r) (sn_lease r).
Definition with_counts (items new_items bytes added : Z) (r : snap_state) : snap_state :=
  SnapRow (sn_job r) (sn_resource r) (sn_created r) (sn_status r) (sn_full r) (sn_extra r) (sn_tracking r) (sn_delta_token r)
    (sn_started r) (sn_completed r) (sn_duration r) items new_items bytes added (sn_lease r).
Definition with_token (t : option string) (r : snap_state) : snap_state :=
  SnapRow (sn_job r) (sn_resource r) (sn_created r) (sn_status r) (sn_full r) (sn_extra r) (sn_tracking r) t
    (sn_started r) (sn_completed r) (sn_duration r) (sn_items r) (sn_new_items r) (sn_bytes r) (sn_bytes_added r) (sn_lease r).
Definition with_snap_lease (l : lease_cols) (r : snap_state) : snap_state :=
  SnapRow (sn_job r) (sn_resource r) (sn_created r) (sn_status r) (sn_full r) (sn_extra r) (sn_tracking r) (sn_delta_token r)
    (sn_started r) (sn_completed r) (sn_duration r) (sn_items r) (sn_new_items r) (sn_bytes r) (sn_bytes_added r) l.

(** [int((completed_at - started_at).total_seconds())] *)
Definition run_seconds (now : Z) (started : Z) : Z := Z.quot (now - started) 1000000.
Definition finished (now : Z) (r : snap_state) : snap_state :=
  with_times (Some now) (match sn_started r with Some s => Some (run_seconds now s) | None => sn_duration r end) r.

Definition SNAPSHOT_DEGRADED_REASON_KEY : string := "degraded_reason".
(** [x == 1] of a JSON value. *)
Definition is_one (v : value) : bool := match v with VNum z => z =? 1 | VBool b => b | _ => false end.
(** [str(v)], where its text does not depend on the order of a container's entries. *)
Definition as_text (v : value) : value :=
  match v with
  | VNull => VStr "None" | VBool b => VStr (if b then "True" else "False") | VNum z => VStr (pretty z)
  | _ => v end.

(** [terminal_status_for_extra_data]. *)
Definition terminal_status_for_extra_data (ed : extra) : snapshot_status * option value :=
  if has_flag SNAPSHOT_DEGRADED_REASON_KEY ed then (SPartial, Some (as_text (get SNAPSHOT_DEGRADED_REASON_KEY ed))) else (SCompleted, None).

(** [_coerce_snapshot_terminal_on_cancel]; [cancelled] is [_is_job_cancelled] of the run's job. *)
Definition cancel_marks (now : Z) (proposed : snapshot_status) (ed : extra) : extra :=
  <["original_proposed_status" := VStr (status_name proposed)]>
    (<["finalize_cancelled_at" := VStr (isoformat now)]> (<["finalize_cancelled" := VBool true]> ed)).
Definition _coerce_snapshot_terminal_on_cancel (cancelled : bool) (now : Z) (r : snap_state) (proposed : snapshot_status)
  : snap_state * snapshot_status :=
  if cancelled then (with_extra (cancel_marks now proposed (sn_extra r)) r, SFailed) else (r, proposed).

(** ** The inline finalize *)
Inductive settle_outcome := DeferredCopy | SkippedTerminal | DeferredPartitioned | Settled (st : snapshot_status).
(** What the finalize reads of other tables. *)
Record settle_view := View {
  vw_locked : bool;      (** [_lock_snapshot_settlement_parent] *)
  vw_pending : bool;     (** [has_pending_copy] *)
  vw_ready : bool;       (** [presentation_ready] *)
  vw_cancelled : bool;
}.

(** What an IN_PROGRESS run without shards proposes. *)
Definition inline_proposal (r : snap_state) : snapshot_status * option value :=
  let '(proposed, reason) := terminal_status_for_extra_data (sn_extra r) in
  if has_flag "copy_required_failed" (sn_extra r)
  then (if sn_items r =? 0 then SFailed else SPartial, Some (VStr "required database copy failed"))
  else (proposed, reason).

(** [_settle_inline_snapshot_finalize]: the caller has written the counters; status and
    [extra_data] are as the row has them. The second argument is the resource's [extra_data].
    [None] is an exception, after which the caller's session commits nothing. *)
Definition _settle_inline_snapshot_finalize (vw : settle_view) (now : Z) (sid ty : string) (r : snap_state) (res : option extra)
  : option (snap_state * option extra * settle_outcome) :=
  if negb (vw_locked vw) then None
  else if vw_pending vw || (bool_decide (ty = "USER_CHATS") && negb (vw_ready vw)) then Some (r, res, DeferredCopy)
  else if negb (may_finalize_snapshot_status (sn_status r)) then Some (r, res, SkippedTerminal)
  else if has_flag "partitioned" (sn_extra r) then Some (r, res, DeferredPartitioned)
  else
    let '(proposed, reason) := inline_proposal r in
    let '(r1, st) := _coerce_snapshot_terminal_on_cancel (vw_cancelled vw) now r proposed in
    let r2 := with_status st r1 in
    let r3 := match reason with
              | Some v => if truth v then with_extra (<["failure_reason" := v]> (sn_extra r2)) r2 else r2
              | None => r2 end in
    let r4 := finished now r3 in
    if bool_decide (st = SCompleted) && negb (is_one (get "chat_inventory_format" (sn_extra r4))) then
      match res with
      | None => Some (r4, None, Settled st)
      | Some ed =>
        '(ed', _) ← promote_pending_cursors_for_type ed ty (Some sid);
        Some (r4, Some ed', Settled st)
      end
    else Some (r4, res, Settled st).

(** ** The fenced terminal write *)
Definition ALLOWED_FROM : list snapshot_status := [SInProgress; SFailed].
Definition empty_value (v : value) : bool := bool_decide (v = VNull) || bool_decide (v = VStr "").
Definition row_markers : list string :=
  ["cancelled_at"; "cancel_phase"; SNAPSHOT_DEGRADED_REASON_KEY; "failure_reason"; "mail_carry_forward_failed"; "mail_delta_only";
   "mail_union_carry_claimed"; "mail_carry_forward_pending"; "mail_rewind_keys"].
(** The outgoing [extra_data] of a first terminal write: markers the row has and the worker lacks. *)
Definition merge_markers (row incoming : extra) : extra := incoming ∪ filter (λ kv, kv.1 ∈ row_markers) row.
(** That of a second failure: the row's non-empty keys win. *)
Definition merge_refail (row incoming : extra) : extra :=
  let merged := filter (λ kv, empty_value kv.2 = false) row ∪ incoming in
  if truth (get "error" incoming) && truth (get "error" row) && negb (bool_decide (get "error" row = get "error" incoming))
  then <["last_error" := get "error" incoming]> merged else merged.

Definition refail_row (mem row : snap_state) : snap_state :=
  let r := with_extra (merge_refail (sn_extra row) (sn_extra mem)) (with_status SFailed row) in
  let r := with_counts (Z.max (sn_items row) (sn_items mem)) (Z.max (sn_new_items row) (sn_new_items mem))
             (Z.max (sn_bytes row) (sn_bytes mem)) (Z.max (sn_bytes_added row) (sn_bytes_added mem)) r in
  with_times (match sn_completed row with Some c => Some c | None => sn_completed mem end)
    (match sn_duration row with Some d => Some d | None => sn_duration mem end) r.
Definition terminal_row (mem row : snap_state) : snap_state :=
  SnapRow (sn_job row) (sn_resource row) (sn_created row) (sn_status mem) (sn_full mem) (merge_markers (sn_extra row) (sn_extra mem))
    (sn_tracking mem) (sn_delta_token mem) (sn_started row) (sn_completed mem) (sn_duration mem)
    (sn_items mem) (sn_new_items mem) (sn_bytes mem) (sn_bytes_added mem) (sn_lease row).

(** One attempt of [_write_snapshot_terminal] on the snapshot's row, if there is one. *)
Definition _write_snapshot_terminal (vw : settle_view) (allowed_from : list snapshot_status) (mem : snap_state) (row : option snap_state)
  : option snap_state * bool :=
  match row with
  | None => (None, false)
  | Some r =>
    if negb (vw_locked vw) || vw_pending vw then (Some r, false)
    else if bool_decide (sn_status r = sn_status mem) && bool_decide (sn_status r ∉ allowed_from) then (Some r, true)
    else
      let r' := if bool_decide (sn_status mem = SFailed) && bool_decide (sn_status r = SFailed) then refail_row mem r else terminal_row mem r in
      if bool_decide (sn_status r ∈ allowed_from) then (Some r', true) else (Some r, false)
  end.

(** ** Failing a run *)
Record run_error := RunError { re_text : string; re_retryable : bool; re_cancel : bool (** a [JobCancelledMidFlight] *) }.
Fixpoint contains_text (needle s : string) : bool :=
  String.prefix needle s || match s with EmptyString => false | String _ s => contains_text needle s end.
Definition is_cancel_error (e : run_error) : bool := re_cancel e || contains_text "cancelled mid-flight" (lower_text (re_text e)).

(** [fail_snapshot]: the in-memory snapshot it leaves, the row, and whether the write landed. *)
Definition failed_mem (now : Z) (e : run_error) (mem : snap_state) : snap_state :=
  let ed := <["error" := VStr (cut 2000 (re_text e))]> (sn_extra mem) in
  let ed := if re_retryable e then ed else <["retryable" := VBool false]> ed in
  let ed := if is_cancel_error e
            then <["cancel_phase" := VStr "worker_self_flip"]> (<["cancelled_at" := VStr (isoformat now +:+ "Z")]> ed) else ed in
  with_extra ed (finished now (with_status SFailed mem)).
Definition fail_snapshot (vw : settle_view) (now : Z) (e : run_error) (mem : snap_state) (row : option snap_state) : option snap_state * bool :=
  _write_snapshot_terminal vw ALLOWED_FROM (failed_mem now e mem) row.
(** Whether it then stamps the resource FAILED. *)
Definition fail_stamps_resource (vw : settle_view) (now : Z) (e : run_error) (mem : snap_state) (row : option snap_state) : bool :=
  (fail_snapshot vw now e mem row).2 && negb (bool_decide (is_Some (sn_extra (failed_mem now e mem) !! "cancelled_at"))) && negb (vw_cancelled vw).

(** ** Completing a run *)

(** The handler's result. *)
Record run_result := RunResult {
  rr_copy_waiting : bool;
  rr_catalogue : bool;               (** [chat_inventory_format == 1] *)
  rr_items : option Z; rr_new_items : option Z; rr_bytes_added : option Z; rr_bytes_total : option Z;
  rr_delta_token : option string;
}.
Inductive complete_outcome :=
  | CNotDone            (** returns [False] *)
  | CDeferred           (** a catalogue or a partitioned snapshot: someone else settles it *)
  | CArchive            (** goes to [_complete_archive_snapshot] *)
  | CLanded (mem : snap_state)
  | CRaised.

(** What [complete_snapshot] writes into the in-memory snapshot; [delta] is
    [_compute_snapshot_delta_from_prior]. *)
Definition counted (rr : run_result) (delta : Z * Z) (settled : bool) (mem : snap_state) : snap_state :=
  let '(ic, nic, ba, bt) := snapshot_counters_from_result (rr_items rr) (rr_new_items rr) (rr_bytes_added rr) (rr_bytes_total rr) in
  let '(nic, ba) := match rr_new_items rr with None => if settled then (nic, ba) else delta | Some _ => (nic, ba) end in
  with_token (rr_delta_token rr) (with_counts ic nic bt ba mem).
(** [files_failed > 0] or a reason. *)
Definition complete_proposal (mem : snap_state) : snapshot_status :=
  let '(_, reason) := terminal_status_for_extra_data (sn_extra mem) in
  if has_flag "copy_required_failed" (sn_extra mem) then (if sn_items mem =? 0 then SFailed else SPartial)
  else if (0 <? default 0 (ft_failed (sn_tracking mem))) || match reason with Some v => truth v | None => false end then SPartial
  else SCompleted.
Definition stamp_counter_reason (reason_before : bool) (mem : snap_state) : snap_state :=
  match (if reason_before then None else file_failure_degraded_reason (sn_tracking mem) "item") with
  | None => mem
  | Some reason =>
    let ed := <["failure_reason" := VStr reason]> (sn_extra mem) in
    with_extra (if bool_decide (sn_status mem = SPartial) then <[SNAPSHOT_DEGRADED_REASON_KEY := VStr reason]> ed else ed) mem
  end.
(** The in-memory snapshot that is written. *)
Definition completed_mem (vw : settle_view) (now : Z) (rr : run_result) (delta : Z * Z) (settled_row : option snap_state) (mem : snap_state) : snap_state :=
  let mem := with_times (Some now) (sn_duration mem) mem in
  let mem := counted rr delta (match settled_row with Some _ => true | None => false end) mem in
  let reason_before := match (terminal_status_for_extra_data (sn_extra mem)).2 with Some v => truth v | None => false end in
  let '(mem, st) := match settled_row with
                    | Some s => (mem, sn_status s)
                    | None => _coerce_snapshot_terminal_on_cancel (vw_cancelled vw) now mem (complete_proposal mem) end in
  let mem := stamp_counter_reason reason_before (with_status st mem) in
  finished now mem.

(** [complete_snapshot]: [mem] the handler's snapshot, [row] the database's, [settled_row] the row
    the inline finalize committed. *)
Definition complete_snapshot (vw : settle_view) (now : Z) (rr : run_result) (delta : Z * Z) (settled_row : option snap_state)
    (mem : snap_state) (row : option snap_state) : option snap_state * complete_outcome :=
  if rr_copy_waiting rr || vw_pending vw || negb (vw_ready vw) then (row, CNotDone)
  else if rr_catalogue rr then
    match row with
    | None => (row, CRaised)
    | Some r =>
      if negb (is_one (get "chat_inventory_format" (sn_extra r))) then (row, CRaised)
      else if bool_decide (sn_status r ∉ [SInProgress; SCompleted; SPartial; SFailed]) then (row, CRaised)
      else if bool_decide (sn_status r = SInProgress) && negb (has_flag "partitioned" (sn_extra r)) then (row, CRaised)
      else (row, CDeferred)
    end
  else if match row with Some r => has_flag "archive_capture" (sn_extra r) | None => false end then (row, CArchive)
  else if bool_decide (get "partitioned" (sn_extra mem) = VBool true) then (row, CDeferred)
  else
    let settled := match settled_row with
                   | Some s => if match rr_delta_token rr with Some t => bool_decide (t = "") | None => true end
                                  && bool_decide (sn_status s ∈ [SCompleted; SPartial]) then Some s else None
                   | None => None end in
    let mem' := completed_mem vw now rr delta settled mem in
    match settled with
    | Some s => (row, CLanded s)
    | None => let '(row', landed) := _write_snapshot_terminal vw ALLOWED_FROM mem' row in (row', if landed then CLanded mem' else CNotDone)
    end.

(** ** A dead enumeration *)

(** [enumeration_failure_extra_data]. *)
Definition enumeration_failure_extra_data (ed : extra) (reason : string) : extra :=
  <[SNAPSHOT_DEGRADED_REASON_KEY := VStr (cut 300 reason)]> (<["failure_reason" := VStr (cut 300 reason)]> ed).

(** [_record_enumeration_failure] of a whole-resource run: the row, and the status it now claims. *)
Definition record_enumeration_failure (now : Z) (reason : string) (r : snap_state) : snap_state * option snapshot_status :=
  let r1 := with_extra (enumeration_failure_extra_data (sn_extra r) reason) r in
  match reconcile_enumeration_failure_status (sn_status r) (Some (sn_items r)) with
  | None => (r1, None)
  | Some st => (with_times (Some (default now (sn_completed r))) (sn_duration r) (with_status st r1), Some st)
  end.
(** That of a shard only patches the parent's [extra_data]. *)
Definition record_shard_failure (reason : string) (r : snap_state) : snap_state :=
  with_extra (enumeration_failure_extra_data ∅ reason ∪ sn_extra r) r.

(** ** Opening a snapshot *)
Definition SNAPSHOT_DEDUP_STATUSES : list snapshot_status := [SInProgress; SCompleted; SPartial].
Abbreviation snap_table := (gmap string snap_state).

(** Newest first, ties in the order of the table. *)
Definition newer_snapshot (a b : string * snap_state) : string * snap_state := if sn_created a.2 <? sn_created b.2 then b else a.
Definition prior_snapshot (job res : string) (t : snap_table) : option (string * snap_state) :=
  match filter (λ kv, sn_job kv.2 = job ∧ sn_resource kv.2 = res ∧ sn_status kv.2 ∈ SNAPSHOT_DEDUP_STATUSES) (map_to_list t) with
  | [] => None
  | kv :: l => Some (foldl newer_snapshot kv l)
  end.

(** The re-claim of a resumed snapshot whose lease is dead. *)
Definition reclaim (now : Z) (owner : option string) (r : snap_state) : snap_state :=
  match owner with
  | Some o => if bool_decide (sn_status r = SInProgress) && lapsed now (sn_lease r)
              then with_snap_lease (Cols (Some o) (Some (now + LEASE_TTL_S * SEC)) (lc_token (sn_lease r) + 1)) r else r
  | None => r
  end.
Definition fresh_snapshot (now : Z) (owner : option string) (job res : string) (full : bool) (ed : extra) : snap_state :=
  SnapRow job res now SInProgress full ed (Tracking None None None false []) None (Some now) None None 0 0 0 0
    (match owner with Some o => Cols (Some o) (Some (now + LEASE_TTL_S * SEC)) 1 | None => Cols None None 0 end).

(** [create_snapshot] outside a provider claim, under the advisory lock of the pair; [new_id] is
    [uuid4()]. [None] is an exception: the snapshot is suspended for a copy. The unique index on open snapshots makes the insert
    fail when one is open that the select did not see, which under the lock is never. *)
Definition create_snapshot (pending : string → bool) (now : Z) (owner : option string) (job res new_id : string) (full : bool) (ed : extra)
    (t : snap_table) : option (snap_table * string) :=
  match prior_snapshot job res t with
  | Some (sid, r) => if pending sid then None else Some (<[sid := reclaim now owner r]> t, sid)
  | None => Some (<[new_id := fresh_snapshot now owner job res full ed]> t, new_id)
  end.

(** ** The inline finalize is honest *)
Definition whole (r : snap_state) : Prop :=
  has_flag SNAPSHOT_DEGRADED_REASON_KEY (sn_extra r) = false ∧ has_flag "copy_required_failed" (sn_extra r) = false.

Lemma inline_proposal_completed r : (inline_proposal r).1 = SCompleted ↔ whole r.
Proof.
  unfold inline_proposal, terminal_status_for_extra_data, whole.
  destruct (has_flag SNAPSHOT_DEGRADED_REASON_KEY _), (has_flag "copy_required_failed" _), (sn_items r =? 0); cbn;
    (split; [by intros|by intros [? ?]]).
Qed.
Lemma inline_proposal_reason r : (inline_proposal r).2 = None ↔ whole r.
Proof.
  unfold inline_proposal, terminal_status_for_extra_data, whole.
  destruct (has_flag SNAPSHOT_DEGRADED_REASON_KEY _), (has_flag "copy_required_failed" _), (sn_items r =? 0); cbn;
    (split; [by intros|by intros [? ?]]).
Qed.

Lemma finished_status now r : sn_status (finished now r) = sn_status r.
Proof. done. Qed.
Lemma finished_extra now r : sn_extra (finished now r) = sn_extra r.
Proof. done. Qed.

(** What a settled run left, in one place. *)
Lemma settle_inline_settled vw now sid ty r res r' res' st :
  _settle_inline_snapshot_finalize vw now sid ty r res = Some (r', res', Settled st) →
  sn_status r = SInProgress ∧ has_flag "partitioned" (sn_extra r) = false ∧ sn_status r' = st ∧
  st = (if vw_cancelled vw then SFailed else (inline_proposal r).1) ∧
  (vw_cancelled vw = true → get "finalize_cancelled" (sn_extra r') = VBool true) ∧
  (vw_cancelled vw = false → ∀ k, k ≠ "failure_reason" → get k (sn_extra r') = get k (sn_extra r)) ∧
  (res' = res ∨ (st = SCompleted ∧ ∃ ed ed' p, res = Some ed ∧ res' = Some ed' ∧ promote_pending_cursors_for_type ed ty (Some sid) = Some (ed', p))) ∧
  (st = SCompleted → is_one (get "chat_inventory_format" (sn_extra r')) = false →
     match res with None => res' = None | Some ed => ∃ ed' p, res' = Some ed' ∧ promote_pending_cursors_for_type ed ty (Some sid) = Some (ed', p) end).
Proof.
  unfold _settle_inline_snapshot_finalize. destruct (negb (vw_locked vw)); [done|]. destruct (_ || _); [done|].
  unfold may_finalize_snapshot_status. destruct (decide (sn_status r = SInProgress)) as [Hs|Hs];
    [rewrite bool_decide_eq_true_2 by done|by rewrite bool_decide_eq_false_2]. cbn [negb].
  destruct (has_flag "partitioned" _) eqn:Ep; [done|]. destruct (inline_proposal r) as [pr reason] eqn:Ei. cbn [fst].
  set (c := _coerce_snapshot_terminal_on_cancel _ _ _ _). destruct c as [r1 st'] eqn:Ec.
  set (r3 := match reason with Some v => _ | None => _ end).
  assert (sn_status r3 = st' ∧ (vw_cancelled vw = true → get "finalize_cancelled" (sn_extra r3) = VBool true) ∧
          (vw_cancelled vw = false → ∀ k, k ≠ "failure_reason" → get k (sn_extra r3) = get k (sn_extra r)) ∧
          st' = if vw_cancelled vw then SFailed else pr) as (H1&H2&H3&H4).
  { subst c. unfold _coerce_snapshot_terminal_on_cancel in Ec.
    assert (∀ x, get "finalize_cancelled" (cancel_marks now pr x) = VBool true) as Hm.
    { intros x. unfold cancel_marks. do 2 rewrite get_insert_ne by done. apply get_insert. }
    destruct (vw_cancelled vw); injection Ec as <- <-; subst r3.
    - split_and!; [destruct reason as [v|]; [destruct (truth v)|]; done| |done|done]. intros _.
      destruct reason as [v|]; [destruct (truth v)|]; cbn [sn_extra with_extra with_status]; rewrite ?(get_insert_ne "failure_reason") by done; apply Hm.
    - split_and!; [destruct reason as [v|]; [destruct (truth v)|]; done|done| |done]. intros _ k Hk.
      destruct reason as [v|]; [destruct (truth v)|]; cbn [sn_extra with_extra with_status]; [by rewrite get_insert_ne|done..]. }
  clearbody r3 c. clear Ec. intros H.
  assert (r' = finished now r3 ∧ st' = st ∧
          (res' = res ∧ (st' = SCompleted → is_one (get "chat_inventory_format" (sn_extra r3)) = false → res = None) ∨
           (st' = SCompleted ∧ ∃ ed ed' p, res = Some ed ∧ res' = Some ed' ∧ promote_pending_cursors_for_type ed ty (Some sid) = Some (ed', p)))) as (->&->&Hr).
  { destruct (_ && _) eqn:Eb in H.
    - bools. destruct res as [ed|]; [|injection H as <- <- <-; auto].
      destruct (promote_pending_cursors_for_type _ _ _) as [[ed' p]|] eqn:Epr; [|done]. cbn in H. injection H as <- <- <-.
      split_and!; [done..|]. right. split; [done|]. by exists ed, ed', p.
    - injection H as <- <- <-. split_and!; [done..|]. left. split; [done|]. intros E F.
      rewrite bool_decide_eq_true_2 in Eb by done. rewrite finished_extra, F in Eb. done. }
  rewrite finished_status, finished_extra. split_and!; [done..| |].
  - destruct Hr as [[? _]|?]; auto.
  - intros E F. destruct Hr as [[-> Hn]|(_&ed&ed'&p&->&->&Hp)]; [by rewrite (Hn E F)|eauto].
Qed.

Lemma settle_inline_unsettled vw now sid ty r res r' res' out :
  (∀ st, out ≠ Settled st) → _settle_inline_snapshot_finalize vw now sid ty r res = Some (r', res', out) → r' = r ∧ res' = res.
Proof.
  intros Hout. unfold _settle_inline_snapshot_finalize. destruct (negb (vw_locked vw)); [done|].
  destruct (_ || _); [by intros [= <- <-]|]. destruct (negb (may_finalize_snapshot_status _)); [by intros [= <- <-]|].
  destruct (has_flag "partitioned" _); [by intros [= <- <-]|]. destruct (inline_proposal r), (_coerce_snapshot_terminal_on_cancel _ _ _ _).
  destruct (_ && _); [destruct res; [destruct (promote_pending_cursors_for_type _ _ _) as [[]|]|]|];
    try done; intros [= _ _ <-]; by edestruct Hout.
Qed.

(** A row that is COMPLETED stays so. *)
Lemma settle_inline_keeps vw now sid ty r res r' res' out :
  sn_status r = SCompleted → _settle_inline_snapshot_finalize vw now sid ty r res = Some (r', res', out) → sn_status r' = SCompleted.
Proof.
  intros Hc H. destruct out as [| | |st]; [apply settle_inline_unsettled in H as [-> _]; done..|].
  apply settle_inline_settled in H as (Hi&_). by rewrite Hc in Hi.
Qed.

(** The run waits: a copy is pending, or its chats are not ready to be presented. *)
Definition waits (vw : settle_view) (ty : string) : Prop := vw_pending vw = true ∨ (ty = "USER_CHATS" ∧ vw_ready vw = false).

(** Each guard of the finalize decides its outcome. *)
Lemma settle_inline_guards vw now sid ty r res r' res' out :
  _settle_inline_snapshot_finalize vw now sid ty r res = Some (r', res', out) →
  vw_locked vw = true ∧
  match out with
  | DeferredCopy => waits vw ty
  | SkippedTerminal => ¬ waits vw ty ∧ sn_status r ≠ SInProgress
  | DeferredPartitioned => ¬ waits vw ty ∧ sn_status r = SInProgress ∧ has_flag "partitioned" (sn_extra r) = true
  | Settled _ => ¬ waits vw ty ∧ sn_status r = SInProgress ∧ has_flag "partitioned" (sn_extra r) = false
  end.
Proof.
  unfold _settle_inline_snapshot_finalize. destruct (vw_locked vw); [cbn [negb]|done].
  destruct (vw_pending vw || _) eqn:Ew.
  { intros [= _ _ <-]. split; [done|]. apply orb_true_iff in Ew as [?|?]; bools; unfold waits; auto. }
  assert (¬ waits vw ty) as Hw.
  { apply orb_false_iff in Ew as [E1 E2]. intros [?|[-> Hr]]; [congruence|]. rewrite Hr, bool_decide_eq_true_2 in E2; done. }
  clear Ew. destruct (may_finalize_snapshot_status (sn_status r)) eqn:Hs; unfold may_finalize_snapshot_status in Hs; bools; cbn [negb]; [|intros E; by simplify_eq].
  destruct (has_flag "partitioned" _) eqn:Ep; [intros E; by simplify_eq|].
  intros E. assert (∃ st, out = Settled st) as [st ->]; [|done].
  destruct (inline_proposal r), (_coerce_snapshot_terminal_on_cancel _ _ _ _). destruct (_ && _); [|injection E as _ _ <-; eauto].
  destruct res; [|injection E as _ _ <-; eauto]. destruct (promote_pending_cursors_for_type _ _ _) as [[]|]; [|done].
  injection E as _ _ <-. eauto.
Qed.

(** C10: the outcome of the inline finalize is what its guards say. It defers exactly the run
    that waits for a copy (or, for chats, for its presentation plan), skips exactly the run someone
    else settled, leaves exactly the run with shards to their finalize, and settles every other one under the lock of its parent;
    only then does the row or the resource change. A settled run is COMPLETED
    exactly when its job is not cancelled, no handler recorded missing content and no required copy
    failed; one that is not leaves the resource's cursors as they were, and a cancelled one is FAILED and keeps its mark. *)
Theorem inline_settle_is_honest vw now sid ty r res r' res' out :
  _settle_inline_snapshot_finalize vw now sid ty r res = Some (r', res', out) →
  vw_locked vw = true ∧
  match out with
  | DeferredCopy => waits vw ty ∧ r' = r ∧ res' = res
  | SkippedTerminal => ¬ waits vw ty ∧ sn_status r ≠ SInProgress ∧ r' = r ∧ res' = res
  | DeferredPartitioned => ¬ waits vw ty ∧ sn_status r = SInProgress ∧ has_flag "partitioned" (sn_extra r) = true ∧ r' = r ∧ res' = res
  | Settled st =>
      ¬ waits vw ty ∧ sn_status r = SInProgress ∧ has_flag "partitioned" (sn_extra r) = false ∧ sn_status r' = st ∧
      (st = SCompleted ↔ vw_cancelled vw = false ∧ whole r) ∧
      (st ≠ SCompleted → res' = res) ∧
      (vw_cancelled vw = true → st = SFailed ∧ has_flag "finalize_cancelled" (sn_extra r') = true)
  end.
Proof.
  intros H. pose proof (settle_inline_guards _ _ _ _ _ _ _ _ _ H) as [Hl G]. split; [done|].
  destruct out as [| | |st].
  1-3: apply settle_inline_unsettled in H as [-> ->]; [|done]; tauto.
  destruct G as (Hw&Hs&Hp).
  apply settle_inline_settled in H as (_&_&H3&H4&H5&_&H7&_). split_and!; [done..| | |].
  - rewrite <- inline_proposal_completed, H4. destruct (vw_cancelled vw); [split; [done|by intros []]|tauto].
  - intros Hn. destruct H7 as [?|[? _]]; done.
  - intros Hc. split; [by rewrite H4, Hc|]. unfold has_flag. by rewrite H5.
Qed.

(** ** A completed run recorded no gap *)
Lemma pretty_N_go_nonempty x s : s ≠ "" → pretty_N_go x s ≠ "".
Proof.
  revert s. induction (N.lt_wf_0 x) as [x _ IH]; intros s Hs. destruct (decide (x = 0)%N) as [->|]; [done|].
  rewrite pretty_N_go_step by lia. apply IH; [apply N.div_lt; lia|done].
Qed.
Lemma pretty_N_nonempty (x : N) : pretty x ≠ "".
Proof.
  unfold pretty, pretty_N. case_decide; [done|]. rewrite pretty_N_go_step by lia. by apply pretty_N_go_nonempty.
Qed.
Lemma pretty_Z_nonempty (z : Z) : pretty z ≠ "".
Proof. destruct z; [done|apply pretty_N_nonempty|done]. Qed.
Lemma as_text_truth v : truth v = true → truth (as_text v) = true.
Proof.
  destruct v as [|[]|z|s|m|z b]; try done. intros _. cbn. apply negb_true_iff, bool_decide_eq_false, pretty_Z_nonempty.
Qed.

Lemma complete_proposal_completed mem : complete_proposal mem = SCompleted → whole mem.
Proof.
  unfold complete_proposal, terminal_status_for_extra_data, whole.
  destruct (has_flag "copy_required_failed" _); [by destruct (_ =? _); destruct (has_flag _ _)|].
  destruct (has_flag SNAPSHOT_DEGRADED_REASON_KEY _) eqn:E; [|done]. rewrite as_text_truth by done. by rewrite orb_true_r.
Qed.

Lemma landed_status vw mem row r' : sn_status mem = SCompleted →
  _write_snapshot_terminal vw ALLOWED_FROM mem row = (Some r', true) → sn_status r' = SCompleted.
Proof.
  intros Hm. unfold _write_snapshot_terminal. destruct row as [r|]; [|done]. destruct (_ || _); [done|]. rewrite Hm.
  rewrite (bool_decide_eq_false_2 (SCompleted = SFailed)) by done. cbn [andb].
  destruct (bool_decide (sn_status r = SCompleted)) eqn:E, (bool_decide (sn_status r ∉ _)), (bool_decide (sn_status r ∈ _));
    cbn [andb]; intros [=]; subst r'; bools; done.
Qed.

(** [complete_snapshot] on a run nobody settled claims COMPLETED only without a recorded gap or a failed copy. *)
Lemma completed_is_whole vw now rr delta mem row row' mem' :
  complete_snapshot vw now rr delta None mem row = (Some row', CLanded mem') → sn_status mem' = SCompleted →
  whole mem ∧ sn_status row' = SCompleted.
Proof.
  unfold complete_snapshot. destruct (_ || _ || _); [done|]. destruct (rr_catalogue rr).
  { destruct row; [|done]. repeat (case_match; [done|]). done. }
  destruct (match row with Some _ => _ | None => _ end); [done|]. destruct (bool_decide _); [done|].
  set (m := completed_mem _ _ _ _ _ _). destruct (_write_snapshot_terminal _ _ _ _) as [r []] eqn:Ew; [|done]. intros [= -> <-] Hm.
  split; [|by eapply landed_status]. clear Ew. revert Hm. unfold m, completed_mem. clear m.
  set (m1 := counted _ _ _ _). assert (sn_extra m1 = sn_extra mem) as He.
  { unfold m1, counted. by repeat case_match. }
  assert (∀ b x, sn_status (stamp_counter_reason b x) = sn_status x) as Hstamp by (intros; unfold stamp_counter_reason; by repeat case_match).
  unfold _coerce_snapshot_terminal_on_cancel. destruct (vw_cancelled vw); rewrite finished_status, Hstamp; [done|].
  cbn [sn_status with_status]. intros H%complete_proposal_completed. unfold whole in *. by rewrite He in H.
Qed.

(** ** Final rows *)
Lemma terminal_write_final vw mem row :
  (∀ r, row = Some r → sn_status r ∉ ALLOWED_FROM) → (_write_snapshot_terminal vw ALLOWED_FROM mem row).1 = row.
Proof.
  intros H. destruct row as [r|]; [|done]. specialize (H r eq_refl). unfold _write_snapshot_terminal.
  destruct (_ || _); [done|]. destruct (_ && _); [done|]. by rewrite bool_decide_eq_false_2.
Qed.

Lemma settled_not_open st : st ∈ [SCompleted; SPartial; SFailed] → st ≠ SFailed → st ∉ ALLOWED_FROM.
Proof.
  unfold ALLOWED_FROM. rewrite !elem_of_cons. intros [->|[->|[->|[]%not_elem_of_nil]]] Hn; [| |done];
    by intros [?|[?|[]%not_elem_of_nil]].
Qed.

Lemma write_then_write vw mem r :
  vw_locked vw = true → vw_pending vw = false → sn_status mem ∈ [SCompleted; SPartial; SFailed] →
  let '(row', landed) := _write_snapshot_terminal vw ALLOWED_FROM mem (Some r) in
  landed = true →
  ∃ r', row' = Some r' ∧ sn_status r' = sn_status mem ∧
  ∃ r'', _write_snapshot_terminal vw ALLOWED_FROM mem row' = (Some r'', true) ∧
    (sn_status mem ≠ SFailed → r'' = r') ∧
    sn_status r'' = sn_status r' ∧ sn_items r'' = sn_items r' ∧ sn_bytes r'' = sn_bytes r' ∧ sn_completed r'' = sn_completed r'.
Proof.
  intros Hl Hp Hm. unfold _write_snapshot_terminal. rewrite Hl, Hp. cbn [negb orb].
  destruct (bool_decide (sn_status r = sn_status mem) && bool_decide (sn_status r ∉ ALLOWED_FROM)) eqn:E1.
  - intros _. exists r. bools. split_and!; [done..|]. exists r. rewrite !bool_decide_eq_true_2 by done. done.
  - destruct (bool_decide (sn_status r ∈ ALLOWED_FROM)) eqn:E2; [|done]. intros _. eexists. split; [done|].
    assert (∀ r', sn_status (refail_row mem r') = SFailed) as Hrf by done.
    assert (∀ r', sn_status (terminal_row mem r') = sn_status mem) as Htr by done.
    destruct (decide (sn_status mem = SFailed)) as [Hf|Hf].
    + rewrite Hf. rewrite (bool_decide_eq_true_2 (SFailed = SFailed)) by done. cbn [andb].
      assert (bool_decide (SFailed ∉ ALLOWED_FROM) = false) as Hnf by by vm_compute.
      assert (bool_decide (SFailed ∈ ALLOWED_FROM) = true) as Hnt by by vm_compute.
      destruct (bool_decide (sn_status r = SFailed)); (split; [by rewrite ?Hrf, ?Htr|]); eexists;
        rewrite ?Hrf, ?Htr, ?Hf, (bool_decide_eq_true_2 (SFailed = SFailed)), Hnf, Hnt by done; cbn [andb];
        (split; [done|]); (split; [done|]); cbn; rewrite ?Z.max_id, <- ?Z.max_assoc, ?Z.max_id; split_and!; try done.
      * destruct (sn_completed r); [done|]. by destruct (sn_completed mem).
      * by destruct (sn_completed mem).
    + rewrite (bool_decide_eq_false_2 (sn_status mem = SFailed)) by done. cbn [andb]. split; [by rewrite Htr|].
      exists (terminal_row mem r). rewrite Htr. rewrite bool_decide_eq_true_2 by done.
      rewrite bool_decide_eq_true_2; [done|]. by apply settled_not_open.
Qed.

(** The worker's terminal writes touch no row that is missing, COMPLETED, PARTIAL or claimed
    for deletion (nothing is demoted and no deleted snapshot comes back); and a write that landed, replayed after its acknowledgement
    was lost, reports success and leaves the status and the counters as they are. *)
Theorem terminal_rows_are_final vw now rr delta settled_row mem row e :
  (∀ r, row = Some r → sn_status r ∉ ALLOWED_FROM) →
  (complete_snapshot vw now rr delta settled_row mem row).1 = row ∧
  (fail_snapshot vw now e mem row).1 = row ∧
  (∀ r r' m, vw_locked vw = true → vw_pending vw = false → sn_status m ∈ [SCompleted; SPartial; SFailed] →
     _write_snapshot_terminal vw ALLOWED_FROM m (Some r) = (Some r', true) →
     ∃ r'', _write_snapshot_terminal vw ALLOWED_FROM m (Some r') = (Some r'', true) ∧
            sn_status r'' = sn_status r' ∧ sn_items r'' = sn_items r' ∧ sn_completed r'' = sn_completed r').
Proof.
  intros H. split_and!.
  - unfold complete_snapshot. destruct (_ || _ || _); [done|]. destruct (rr_catalogue rr).
    { destruct row; [|done]. by repeat (case_match; [done|]). }
    destruct (match row with Some _ => _ | None => _ end); [done|]. destruct (bool_decide _); [done|].
    destruct (match settled_row with Some _ => _ | None => _ end); [done|].
    pose proof (terminal_write_final vw (completed_mem vw now rr delta None mem) row H) as Ht.
    by destruct (_write_snapshot_terminal _ _ _ _) as [row' []].
  - by apply terminal_write_final.
  - intros r r' m Hl Hp Hm Hw. pose proof (write_then_write vw m r Hl Hp Hm) as Ht. rewrite Hw in Ht.
    destruct (Ht eq_refl) as (r1&[= <-]&_&r''&?&_&?&?&_&?). by exists r''.
Qed.

(** ** One open snapshot per job and resource *)
Definition pair_of (r : snap_state) : string * string := (sn_job r, sn_resource r).
Definition open_unique (t : snap_table) : Prop :=
  ∀ i j ri rj, t !! i = Some ri → t !! j = Some rj → pair_of ri = pair_of rj → sn_status ri = SInProgress → sn_status rj = SInProgress → i = j.
Definition dedup_of (job res : string) (r : snap_state) : Prop := sn_job r = job ∧ sn_resource r = res ∧ sn_status r ∈ SNAPSHOT_DEDUP_STATUSES.

Lemma foldl_newer kv l : foldl newer_snapshot kv l ∈ kv :: l.
Proof.
  revert kv. induction l as [|x l IH]; intros kv; cbn [foldl]; [by apply list_elem_of_singleton|].
  specialize (IH (newer_snapshot kv x)). apply elem_of_cons in IH as [->|?]; [|by do 2 right].
  unfold newer_snapshot. destruct (_ <? _); [right; left|left].
Qed.

Lemma prior_some job res t sid r : prior_snapshot job res t = Some (sid, r) → t !! sid = Some r ∧ dedup_of job res r.
Proof.
  unfold prior_snapshot. destruct (filter _ _) as [|kv l] eqn:E; [done|]. intros [= Hf].
  pose proof (foldl_newer kv l) as Hin. rewrite Hf, <- E, list_elem_of_filter in Hin. destruct Hin as [Hd Hin].
  by apply elem_of_map_to_list in Hin.
Qed.

Lemma prior_none job res t : prior_snapshot job res t = None ↔ ∀ sid r, t !! sid = Some r → ¬ dedup_of job res r.
Proof.
  unfold prior_snapshot. split.
  - destruct (filter _ _) as [|kv l] eqn:E; [|done]. intros _ sid r Hs Hd.
    assert ((sid, r) ∈ filter (λ kv : string * snap_state, sn_job kv.2 = job ∧ sn_resource kv.2 = res ∧ sn_status kv.2 ∈ SNAPSHOT_DEDUP_STATUSES) (map_to_list t)) as Hin
      by (rewrite list_elem_of_filter; split; [done|by apply elem_of_map_to_list]).
    rewrite E in Hin. by apply not_elem_of_nil in Hin.
  - intros H. destruct (filter _ _) as [|[sid r] l] eqn:E; [done|]. exfalso.
    assert ((sid, r) ∈ (sid, r) :: l) as Hin by left. rewrite <- E, list_elem_of_filter in Hin. destruct Hin as [Hd Hin].
    apply elem_of_map_to_list in Hin. by eapply H.
Qed.

Lemma reclaim_same now owner r : sn_status (reclaim now owner r) = sn_status r ∧ pair_of (reclaim now owner r) = pair_of r ∧ sn_created (reclaim now owner r) = sn_created r.
Proof. unfold reclaim. destruct owner; [|done]. by destruct (_ && _). Qed.

Lemma open_in_dedup : SInProgress ∈ SNAPSHOT_DEDUP_STATUSES.
Proof. by left. Qed.

(** C11: at most one snapshot of a job and resource is open, whatever deliveries open; a
    delivery whose snapshot is open, COMPLETED or PARTIAL resumes it and adds no row; only a failed (or missing)
    one is retried_failures with a new row. *)
Theorem create_snapshot_is_idempotent pending now owner job res new_id full ed t t' sid :
  t !! new_id = None → create_snapshot pending now owner job res new_id full ed t = Some (t', sid) →
  (open_unique t → open_unique t') ∧
  (∃ r, t' !! sid = Some r ∧ dedup_of job res r) ∧
  ((∃ s r, t !! s = Some r ∧ dedup_of job res r) → dom t' = dom t ∧ t !! sid ≠ None ∧ ∀ s r, t !! s = Some r → ∃ r', t' !! s = Some r' ∧ sn_status r' = sn_status r) ∧
  ((∀ s r, t !! s = Some r → ¬ dedup_of job res r) → sid = new_id ∧ delete new_id t' = t).
Proof.
  intros Hn. unfold create_snapshot. destruct (prior_snapshot job res t) as [[p r]|] eqn:E; [destruct (pending p); [done|]|].
  - intros [= <- <-]. apply prior_some in E as [Hp Hd]. destruct (reclaim_same now owner r) as (R1&R2&R3). split_and!.
    + intros Hu i j ri rj Hi Hj Hij Hsi Hsj.
      assert (∀ k rk, <[p:=reclaim now owner r]> t !! k = Some rk → ∃ rk', t !! k = Some rk' ∧ pair_of rk' = pair_of rk ∧ sn_status rk' = sn_status rk) as Hold.
      { intros k rk [[<- <-]|[_ ?]]%lookup_insert_Some; [exists r|exists rk]; by rewrite ?R1, ?R2. }
      destruct (Hold i ri Hi) as (?&?&?&?), (Hold j rj Hj) as (?&?&?&?). eapply Hu; [eassumption..| | |]; congruence.
    + exists (reclaim now owner r). rewrite lookup_insert_eq. split; [done|]. unfold dedup_of in *. unfold pair_of in R2. injection R2 as R4 R5. by rewrite R1, R4, R5.
    + intros _. split_and!; [apply dom_insert_lookup_L; eauto|by rewrite Hp|]. intros s rs Hs. destruct (decide (s = p)) as [->|Hsp].
      * rewrite lookup_insert_eq. eexists. split; [done|]. by assert (rs = r) as -> by congruence.
      * rewrite lookup_insert_ne by done. eauto.
    + intros H. exfalso. by eapply H.
  - intros [= <- <-]. pose proof (proj1 (prior_none job res t) E) as Hnone. split_and!.
    + intros Hu i j ri rj [[<- <-]|[? Hi]]%lookup_insert_Some [[<- <-]|[? Hj]]%lookup_insert_Some Hij Hsi Hsj; [done| | |by eapply Hu].
      * injection Hij as ? ?. exfalso. apply (Hnone j rj Hj). split_and!; [done..|]. rewrite Hsj. apply open_in_dedup.
      * injection Hij as ? ?. exfalso. apply (Hnone i ri Hi). split_and!; [done..|]. rewrite Hsi. apply open_in_dedup.
    + eexists. rewrite lookup_insert_eq. split; [done|]. split_and!; [done..|]. apply open_in_dedup.
    + intros (s&r&Hs&Hd). exfalso. by eapply Hnone.
    + intros _. split; [done|]. by rewrite delete_insert_id.
Qed.

Module SettleExample.
Definition vw (cancelled : bool) : settle_view := View true false true cancelled.
Definition row (ed : extra) : snap_state := fresh_snapshot 0 (Some "w1") "j1" "r1" false ed.
Definition stashed : extra := stash_pending_delta_link ∅ "link-5" (Some "s1").
(** Links, statuses and the kept mark of the inline finalize. *)
Definition settle (cancelled : bool) (ed : extra) := _settle_inline_snapshot_finalize (vw cancelled) 5000000 "s1" "USER_ONEDRIVE" (row ed) (Some stashed).
Example whole_run : (x ← settle false ∅; Some (sn_status x.1.1, get ONEDRIVE_DELTA_LINK_KEY (default ∅ x.1.2))) = Some (SCompleted, VStr "link-5").
Proof. by vm_compute. Qed.
Example degraded_run :
  (x ← settle false (<[SNAPSHOT_DEGRADED_REASON_KEY := VStr "1 of 3 chat drain(s) failed"]> ∅); Some (sn_status x.1.1, get ONEDRIVE_DELTA_LINK_KEY (default ∅ x.1.2)))
  = Some (SPartial, VNull).
Proof. by vm_compute. Qed.
Example cancelled_time : isoformat (719162 * US_PER_DAY + 1790000000123456) = "2026-09-21T14:13:20.123456" ∧ isoformat 0 = "0001-01-01T00:00:00".
Proof. split; by vm_compute. Qed.
(** An enumeration that died after the inline finalize settled COMPLETED: the row is corrected, and
    the cursor that the finalize promoted stays. *)
Example corrected_after_promotion :
  (x ← settle false ∅; Some ((record_enumeration_failure 9000000 "page token expired" x.1.1).2, get ONEDRIVE_DELTA_LINK_KEY (default ∅ x.1.2)))
  = Some (Some SFailed, VStr "link-5").
Proof. by vm_compute. Qed.
Definition complete_row : snap_state := with_status SCompleted (row ∅).
Definition result : run_result := RunResult false false (Some 3) None (Some 10) None None.
Definition table : snap_table := {[ "s1" := row ∅ ]}.
End SettleExample.

Lemma inline_settle_is_honest_witness : ∃ r' res', SettleExample.settle true ∅ = Some (r', res', Settled SFailed) ∧ has_flag "finalize_cancelled" (sn_extra r') = true.
Proof.
  destruct (SettleExample.settle true ∅) as [[[r' res'] out]|] eqn:E; [|discriminate E].
  assert (out = Settled SFailed) as Ho by (injection E as _ _ E; by rewrite <- E). subst out.
  exists r', res'. split; [reflexivity|]. destruct (inline_settle_is_honest _ _ _ _ _ _ _ _ _ E) as (_&_&_&_&_&_&_&H). by apply H.
Defined.

Lemma terminal_rows_are_final_witness :
  (fail_snapshot (SettleExample.vw false) 9 (RunError "boom" true false) (SettleExample.row ∅) (Some SettleExample.complete_row)).1 = Some SettleExample.complete_row ∧
  (complete_snapshot (SettleExample.vw false) 9 SettleExample.result (0, 0) None (SettleExample.row ∅) None).1 = None.
Proof.
  split.
  - refine (proj1 (proj2 (terminal_rows_are_final (SettleExample.vw false) 9 SettleExample.result (0, 0) None (SettleExample.row ∅) _ (RunError "boom" true false) _))).
    intros r [= <-]. apply settled_not_open; [by left|discriminate].
  - exact (proj1 (terminal_rows_are_final (SettleExample.vw false) 9 SettleExample.result (0, 0) None (SettleExample.row ∅) None (RunError "" true false) (λ r H, match H with end))).
Defined.

Lemma create_snapshot_is_idempotent_witness :
  ∃ t', create_snapshot (λ _, false) 99 (Some "w2") "j1" "r1" "s2" false ∅ SettleExample.table = Some (t', "s1") ∧ dom t' = dom SettleExample.table.
Proof.
  destruct (create_snapshot (λ _, false) 99 (Some "w2") "j1" "r1" "s2" false ∅ SettleExample.table) as [[t' sid]|] eqn:E; [|discriminate E].
  assert (sid = "s1") as Hs by (by injection E as _ E). subst sid. exists t'. split; [reflexivity|].
  refine (proj1 (proj1 (proj2 (proj2 (create_snapshot_is_idempotent _ _ _ _ _ "s2" _ _ _ _ _ _ E))) _)); [reflexivity|].
  exists "s1", (SettleExample.row ∅). split; [reflexivity|]. split; [reflexivity|]. split; [reflexivity|by left].
Defined.
