(* ===== verification/BackupShards.v ===== *)
(** * Shards of a backup and their finalize

    A large resource is backed up in shards, rows of [snapshot_partitions] that several workers
    drain. This file models the lease of a shard in [workers/backup-worker/main.py]
    ([_claim_partition], [_mark_partition_terminal] and the fence they share) and
    [_finalize_partitioned_snapshot], which derives the snapshot's status when every shard is
    terminal and promotes the resource's pending cursor.

    The shards of a snapshot come in the order of their index. The finalize commits several times, so it is given the shards and the snapshot as each of its
    transactions finds them; the helpers for mailbox shards, which only patch the snapshot's [extra_data], are an argument, and so are the
    counts of its queries. What it writes to other tables (job roll-up, resource stamp, audit,
    metrics) is left out; the rescue of OneDrive shards that it calls is [BackupRescue]. *)

From S2P Require Import Prelude Lease Reconciler BackupHonesty BackupCursor BackupSettle.
Local Open Scope string_scope.
Local Open Scope Z_scope.

Inductive shard_status := ShQueued | ShInProgress | ShCompleted | ShFailed.
Global Instance shard_status_eq_dec : EqDecision shard_status.
Proof. solve_decision. Defined.

(** [failure_state]. *)
Record shard_failure := ShFailure { sf_files_failed : option Z; sf_enum_incomplete : bool; sf_message : option string }.
Record shard_row := Shard {
  sh_status : shard_status;
  sh_started : option Z;
  sh_enqueued : Z;
  sh_completed : option Z;
  sh_files : Z;
  sh_bytes : Z;
  sh_failure : shard_failure;
  sh_worker : option string;
  sh_lease : lease_cols;
}.
Definition sh_terminal (s : shard_row) : bool := bool_decide (sh_status s = ShCompleted) || bool_decide (sh_status s = ShFailed).

(** ** The lease of a shard *)

(** What [_bind_partition_lease] keeps of a claim. *)
Record bound_lease := Bound { bl_owner : option string; bl_token : Z }.

(** [_claim_partition]: [copy_pending] is the copy guard, [stale] in microseconds. *)
Definition _claim_partition (now stale : Z) (copy_pending : bool) (owner : option string) (wid : string) (s : shard_row)
  : shard_row * option bound_lease :=
  let free := match sh_status s with
              | ShQueued => true
              | ShInProgress => match sh_started s with Some t => t <? now - stale | None => false end && lapsed now (sh_lease s)
              | _ => false end in
  if negb copy_pending && free then
    let l := Cols (match owner with Some o => Some o | None => lc_owner (sh_lease s) end)
               (match owner with Some _ => Some (now + LEASE_TTL_S * SEC) | None => lc_expires (sh_lease s) end)
               (lc_token (sh_lease s) + 1) in
    (Shard ShInProgress (Some now) (sh_enqueued s) (sh_completed s) (sh_files s) (sh_bytes s) (sh_failure s) (Some wid) l,
     Some (Bound (lc_owner l) (lc_token l)))
  else (s, None).

(** [_partition_lease_fence]: the predicate the statement carries. *)
Definition shard_fence (b : option bound_lease) (s : shard_row) : bool :=
  match b with
  | None => true
  | Some b => match bl_owner b with None => true | Some o => bool_decide (lc_owner (sh_lease s) = Some o) end
              && (lc_token (sh_lease s) =? bl_token b)
  end.
(** [_partition_lease_moved]. *)
Definition _partition_lease_moved (b : bound_lease) (row : option shard_row) : bool :=
  match row with
  | None => true
  | Some s => negb (lc_token (sh_lease s) =? bl_token b) ||
              match bl_owner b with Some o => negb (bool_decide (o = "")) && negb (bool_decide (default "" (lc_owner (sh_lease s)) = o)) | None => false end
  end.

(** [_mark_partition_terminal]: the row and the answer; [false] is a stolen shard. *)
Definition _mark_partition_terminal (now : Z) (copy_pending : bool) (b : option bound_lease) (completed : bool) (files bytes_ : Z)
    (failure : option shard_failure) (row : option shard_row) : option shard_row * bool :=
  match row with
  | Some s =>
    if negb (sh_terminal s) && negb copy_pending && shard_fence b s
    then (Some (Shard (if completed then ShCompleted else ShFailed) (sh_started s) (sh_enqueued s) (Some now) files bytes_
                 (default (sh_failure s) failure) (sh_worker s) (sh_lease s)), true)
    else (row, match b with Some b => negb (_partition_lease_moved b row) | None => true end)
  | None => (None, match b with Some _ => false | None => true end)
  end.
(** The release after the terminal write was lost. *)
Definition release_shard (now : Z) (b : option bound_lease) (s : shard_row) : shard_row :=
  if negb (sh_terminal s) && shard_fence b s
  then Shard ShQueued (sh_started s) now (sh_completed s) (sh_files s) (sh_bytes s) (sh_failure s) (sh_worker s) (Cols None None (lc_token (sh_lease s)))
  else s.

(** ** The finalize *)
Definition count (p : shard_row → bool) (l : list shard_row) : Z := Z.of_nat (length (filter (λ s, p s = true) l)).
Definition sh_lossy (s : shard_row) : bool := match sf_files_failed (sh_failure s) with Some z => 0 <? z | None => false end.
Definition sh_is (st : shard_status) (s : shard_row) : bool := bool_decide (sh_status s = st).
Definition lost_files (l : list shard_row) : Z := foldr (λ s acc, default 0 (sf_files_failed (sh_failure s)) + acc) 0 l.

(** [extra_data ->> k = t]. *)
Definition json_text_is (t : string) (v : value) : bool :=
  match v with VStr s => bool_decide (s = t) | VBool b => bool_decide ((if b then "true" else "false") = t) | VNum z => bool_decide (pretty.pretty z = t) | _ => false end.
Definition ed_is (k t : string) (ed : extra) : bool := json_text_is t (get k ed).
(** [NULLIF(extra_data ->> k, '') IS NOT NULL] *)
Definition ed_nonempty (k : string) (ed : extra) : bool := negb (empty_value (get k ed)).

(** The status of the first statement; [has_items] is the effective inventory. *)
Definition cte_status (l : list shard_row) (ed : extra) (has_items : bool) (current : snapshot_status) : snapshot_status :=
  let copy_failed := ed_is "copy_required_failed" "true" ed in
  let catalogue := ed_is "chat_inventory_format" "1" ed in
  if count sh_terminal l <? Z.of_nat (length l) then current
  else if (count (sh_is ShCompleted) l =? 0) && (catalogue || copy_failed) && has_items then SPartial
  else if count (sh_is ShCompleted) l =? 0 then SFailed
  else if (0 <? count (sh_is ShFailed) l) || (0 <? count sh_lossy l) || copy_failed || (catalogue && ed_nonempty SNAPSHOT_DEGRADED_REASON_KEY ed)
  then if copy_failed && negb has_items then SFailed else SPartial
  else SCompleted.
(** The statement: [None] when its [WHERE] refuses the row. *)
Definition cte_update (now : Z) (copy_pending : bool) (l : list shard_row) (has_items : bool) (r : snap_state) : option snap_state :=
  if (0 <? Z.of_nat (length l)) && bool_decide (sn_status r = SInProgress)
     && negb (ed_is "mail_carry_forward_pending" "true" (sn_extra r)) && negb copy_pending
  then let r' := with_status (cte_status l (sn_extra r) has_items (sn_status r)) r in
       Some (if count sh_terminal l =? Z.of_nat (length l) then with_times (Some now) (sn_duration r) r' else r')
  else None.

Definition terminal_name (st : snapshot_status) : bool := bool_decide (st ∈ [SCompleted; SPartial; SFailed]).

(** The answer of the statement, or of the read that follows when it refused: the row, whether it
    was pre-empted, and the status the rest of the finalize goes on with. *)
Definition first_status (now : Z) (copy_pending : bool) (l : list shard_row) (has_items : bool) (r : snap_state)
  : snap_state * option (bool * snapshot_status) :=
  let full := count sh_terminal l =? Z.of_nat (length l) in
  match cte_update now copy_pending l has_items r with
  | Some r' => (r', if full && terminal_name (sn_status r') then Some (false, sn_status r') else None)
  | None =>
    if negb full || negb (terminal_name (sn_status r)) || ed_is "partition_reconciled" "true" (sn_extra r) then (r, None)
    else
      let st := if bool_decide (sn_status r = SPartial) && (count (sh_is ShFailed) l =? 0) && (count (sh_is ShCompleted) l =? Z.of_nat (length l))
                then SCompleted else sn_status r in
      (r, Some (true, st))
  end.

(** The status the shards justify when the counters are written. *)
Definition shards_status (l : list shard_row) (catalogue : bool) (persisted : Z) (ed : extra) : option snapshot_status :=
  let n := Z.of_nat (length l) in
  let failed := count (sh_is ShFailed) l in
  if (0 <? n) && (count (λ s, negb (sh_terminal s)) l =? 0) then
    Some (if has_flag "copy_required_failed" ed then (if persisted =? 0 then SFailed else SPartial)
          else if (failed =? n) && catalogue && negb (persisted =? 0) then SPartial
          else if failed =? n then SFailed
          else if (0 <? failed) || (0 <? count sh_lossy l) then SPartial else SCompleted)
  else None.

(** The reconcile transaction on the locked row: the row it commits and [new_status] after it. *)
Definition reconcile_snapshot (now : Z) (cancelled preempted catalogue : bool) (st0 : snapshot_status) (l : list shard_row)
    (persisted bytes_ delta_items delta_bytes : Z) (r : snap_state) : snap_state * snapshot_status :=
  let r := with_counts persisted delta_items bytes_ delta_bytes r in
  let r := if preempted && bool_decide (st0 = SCompleted) && bool_decide (sn_status r = SPartial) then with_status SCompleted r else r in
  let derived := shards_status l catalogue persisted (sn_extra r) in
  let '(r, st) := match derived with
                  | Some d => if bool_decide (sn_status r = d) then (r, st0) else (with_status d r, d)
                  | None => (r, st0) end in
  let degraded := get SNAPSHOT_DEGRADED_REASON_KEY (sn_extra r) in
  let loss := partition_loss_degraded_reason (lost_files l) (count sh_lossy l) (count (sh_is ShFailed) l) (Z.of_nat (length l))
                (existsb (λ s, sf_enum_incomplete (sh_failure s)) l)
                (match filter (λ s, sh_is ShFailed s = true) l with s :: _ => sf_message (sh_failure s) | [] => None end) in
  let '(r, degraded) :=
    if negb (truth degraded) && match derived with Some SPartial | Some SFailed => true | _ => false end
    then match loss with
         | Some reason => if bool_decide (reason = "") then (r, VStr reason)
                          else (with_extra (<[SNAPSHOT_DEGRADED_REASON_KEY := VStr reason]> (sn_extra r)) r, VStr reason)
         | None => (r, VNull) end
    else (r, degraded) in
  let '(r, st) := if truth degraded && bool_decide (sn_status r = SCompleted) then (with_status SPartial r, SPartial) else (r, st) in
  let ed := <["partition_reconciled" := VBool true]> (sn_extra r) in
  let r := with_extra (if truth degraded then <["failure_reason" := as_text degraded]> ed else ed) r in
  let r := if bool_decide (sn_status r ∈ [SCompleted; SPartial])
           then let '(r', s') := _coerce_snapshot_terminal_on_cancel cancelled now r (sn_status r) in with_status s' r'
           else r in
  let completed := default now (sn_completed r) in
  (with_times (Some completed) (match sn_started r with Some s => Some (run_seconds completed s) | None => sn_duration r end) r, st).

(** What [_finalize_partitioned_snapshot] finds on its way. *)
Record finalize_view := FView {
  fv_stolen : bool;             (** this task's shard was taken away *)
  fv_held : bool;               (** a pending copy, a publishing plan, a copy handoff or a missing receipt *)
  fv_copy_pending : bool;       (** the copy guard of the statement *)
  fv_cancelled : bool;
  fv_has_items : bool;
  fv_persisted : Z; fv_bytes : Z; fv_delta_items : Z; fv_delta_bytes : Z;
}.

(** The promotion, in a session of its own: a failure is printed. *)
Definition promote_after (sid ty : string) (st : snapshot_status) (catalogue : bool) (res : option extra) : option extra :=
  match res with
  | Some ed => if bool_decide (st = SCompleted) && negb catalogue
               then match promote_pending_cursors_for_type ed ty (Some sid) with Some (ed', true) => Some ed' | _ => res end
               else res
  | None => None
  end.

(** [_finalize_partitioned_snapshot]: [l] and [r] as the first statement finds them, [l2] and
    [between] the shards and the row as the reconcile transaction does ([None]: the row is gone). *)
Definition _finalize_partitioned_snapshot (fv : finalize_view) (mail : bool → snapshot_status → snap_state → snap_state) (now : Z) (sid ty : string)
    (l : list shard_row) (r : snap_state) (l2 : list shard_row) (between : snap_state → option snap_state) (res : option extra)
  : option snap_state * option extra * option snapshot_status :=
  if fv_stolen fv || fv_held fv then (Some r, res, None)
  else
    match first_status now (fv_copy_pending fv) l (fv_has_items fv) r with
    | (r1, None) => (Some r1, res, None)
    | (r1, Some (preempted, st0)) =>
      let catalogue := is_one (get "chat_inventory_format" (sn_extra r1)) in
      match between (mail preempted st0 r1) with
      | None => (None, promote_after sid ty st0 catalogue res, Some st0)
      | Some r2 =>
        if bool_decide (sn_status r2 = SPendingDeletion) then (Some r2, promote_after sid ty st0 catalogue res, Some st0)
        else
          let '(r3, st) := reconcile_snapshot now (fv_cancelled fv) preempted catalogue st0 l2 (fv_persisted fv) (fv_bytes fv)
                             (fv_delta_items fv) (fv_delta_bytes fv) r2 in
          (Some r3, promote_after sid ty st catalogue res, Some st)
      end
    end.

(** ** The writers of a shard's row *)

(** Every statement that changes the status or the lease of a shard: a claim, the terminal write and the release
    of a worker, the requeues, the replay, the poison pill and the expiry of the reconciler, the reset and the failure of the
    scheduler's stale sweep, the failure of a cancelled job's shards (which has no guard), and the rescue of a
    shard that failed on file content. *)
Inductive shard_step (s : shard_row) : shard_row → Prop :=
  | ss_claim now stale cp owner wid s' b : _claim_partition now stale cp owner wid s = (s', Some b) → shard_step s s'
  | ss_mark now cp b c f y fs s' ok : _mark_partition_terminal now cp b c f y fs (Some s) = (Some s', ok) → shard_step s s'
  | ss_release now b : shard_step s (release_shard now b s)
  | ss_requeue now fs : sh_terminal s = false →
      shard_step s (Shard ShQueued (sh_started s) now (sh_completed s) (sh_files s) (sh_bytes s) fs (sh_worker s) (fence_off (sh_lease s)))
  | ss_poison fs : sh_terminal s = false →
      shard_step s (Shard ShFailed (sh_started s) (sh_enqueued s) (sh_completed s) (sh_files s) (sh_bytes s) fs (sh_worker s) (fence_off (sh_lease s)))
  | ss_reset fs : sh_status s = ShInProgress →
      shard_step s (Shard ShQueued None (sh_enqueued s) (sh_completed s) (sh_files s) (sh_bytes s) fs None (sh_lease s))
  | ss_cancelled now fs :
      shard_step s (Shard ShFailed (sh_started s) (sh_enqueued s) (Some now) (sh_files s) (sh_bytes s) fs (sh_worker s) (sh_lease s))
  | ss_rescue fs : sh_status s = ShFailed →
      shard_step s (Shard ShCompleted (sh_started s) (sh_enqueued s) (sh_completed s) (sh_files s) (sh_bytes s) fs (sh_worker s) (sh_lease s)).

Lemma shard_step_token s s' : shard_step s s' → lc_token (sh_lease s) <= lc_token (sh_lease s').
Proof.
  intros [now stale cp owner wid s'' b H|now cp b c f y fs s'' ok H|now b| | | | |]; cbn; try lia.
  - unfold _claim_partition in H. destruct (_ && _); [|done]. injection H as <- _. cbn. lia.
  - unfold _mark_partition_terminal in H. destruct (_ && _ && _); injection H as <- _; cbn; lia.
  - unfold release_shard. destruct (_ && _); cbn; lia.
Qed.

(** No writer reopens a terminal shard. *)
Lemma shard_step_terminal s s' : shard_step s s' → sh_terminal s = true → sh_terminal s' = true.
Proof.
  intros [now stale cp owner wid s'' b H|now cp b c f y fs s'' ok H|now b|now fs H|fs H|fs H| |] Ht; try done.
  - unfold _claim_partition in H. unfold sh_terminal in Ht. destruct (sh_status s); [done| |by rewrite andb_false_r in H..]. done.
  - unfold _mark_partition_terminal in H. rewrite Ht in H. cbn [negb andb] in H. by injection H as <- _.
  - unfold release_shard. by rewrite Ht.
  - congruence.
  - unfold sh_terminal in Ht. by rewrite H in Ht.
Qed.

Lemma shards_stay_terminal l l2 : Forall2 (rtc shard_step) l l2 → (∀ s, s ∈ l → sh_terminal s = true) → ∀ s, s ∈ l2 → sh_terminal s = true.
Proof.
  intros H Ht s (i&Hi)%list_elem_of_lookup. destruct (Forall2_lookup_r _ _ _ _ _ H Hi) as (s0&H0&Hr).
  assert (sh_terminal s0 = true) as Hs by (apply Ht, list_elem_of_lookup; eauto).
  clear -Hr Hs. induction Hr; eauto using shard_step_terminal.
Qed.

(** ** What a COMPLETED finalize found *)
Definition clean_shard (s : shard_row) : Prop := sh_status s = ShCompleted ∧ sh_lossy s = false.

Lemma count_zero p l : count p l = 0 ↔ ∀ s, s ∈ l → p s = false.
Proof.
  unfold count. split.
  - intros H s Hs. apply not_true_iff_false. intros Hp. assert (s ∈ filter (λ s, p s = true) l) as Hin by (by rewrite list_elem_of_filter).
    destruct (filter _ _); [by apply not_elem_of_nil in Hin|cbn in H; lia].
  - intros H. destruct (filter _ _) as [|s k] eqn:E; [done|].
    assert (s ∈ s :: k) as Hin by left. rewrite <- E, list_elem_of_filter in Hin. destruct Hin as [Hp Hs]. by rewrite H in Hp.
Qed.
Lemma count_nonneg p l : 0 <= count p l.
Proof. unfold count. lia. Qed.

Lemma derived_completed l c n ed : shards_status l c n ed = Some SCompleted → l ≠ [] ∧ Forall clean_shard l ∧ has_flag "copy_required_failed" ed = false.
Proof.
  unfold shards_status. destruct (_ && _) eqn:E; [|done]. bools. destruct (has_flag _ _); [by destruct (_ =? 0)|].
  destruct (_ && _ && _); [done|]. destruct (count _ l =? _) eqn:E1; [done|]. destruct (_ || _) eqn:E2; [done|]. intros _. bools.
  pose proof (count_nonneg (sh_is ShFailed) l). pose proof (count_nonneg sh_lossy l).
  split_and!; [by intros ->| |done]. apply Forall_forall. intros s Hs.
  pose proof (proj1 (count_zero (sh_is ShFailed) l) ltac:(lia) s Hs) as Hf. pose proof (proj1 (count_zero sh_lossy l) ltac:(lia) s Hs) as Hl.
  match goal with H : count (λ s, negb (sh_terminal s)) l = 0 |- _ => pose proof (proj1 (count_zero _ _) H s Hs) as Ht end. cbn in Ht. apply negb_false_iff in Ht.
  split; [|done]. unfold sh_is, sh_terminal in *. apply orb_true_iff in Ht as [Ht|Ht]; bools; [done|by destruct Hf].
Qed.

Lemma derived_some l c n ed : l ≠ [] → (∀ s, s ∈ l → sh_terminal s = true) → is_Some (shards_status l c n ed).
Proof.
  intros Hl Ht. unfold shards_status. rewrite (proj2 (Z.ltb_lt _ _)) by (destruct l; [done|cbn [length]; lia]).
  rewrite (proj2 (Z.eqb_eq _ _)); [by eexists|]. apply count_zero. intros s Hs. by rewrite Ht.
Qed.

(** Without a cancel the status the finalize goes on with is the one it committed, and a
    COMPLETED one has clean shards and no recorded loss. *)
Lemma reconcile_agrees now preempted catalogue st0 l p b di db r r' st :
  (sn_status r = st0 ∨ (preempted = true ∧ st0 = SCompleted ∧ sn_status r = SPartial)) →
  reconcile_snapshot now false preempted catalogue st0 l p b di db r = (r', st) →
  sn_status r' = st ∧ get "partition_reconciled" (sn_extra r') = VBool true ∧
  (st = SCompleted → has_flag SNAPSHOT_DEGRADED_REASON_KEY (sn_extra r') = false ∧
     has_flag "copy_required_failed" (sn_extra r') = has_flag "copy_required_failed" (sn_extra r) ∧
     (is_Some (shards_status l catalogue p (sn_extra r)) → shards_status l catalogue p (sn_extra r) = Some SCompleted)).
Proof.
  intros Hst. unfold reconcile_snapshot.
  set (r0 := with_counts p di b db r).
  set (r1 := if preempted && _ && _ then with_status SCompleted r0 else r0).
  assert (sn_status r1 = st0 ∧ sn_extra r1 = sn_extra r) as [H1 E1].
  { subst r1 r0. destruct Hst as [H|(->&->&H)]; cbn [sn_status with_counts]; rewrite H.
    - destruct (_ && _) eqn:E; [|done]. bools. by subst.
    - done. }
  clearbody r1. clear r0. rewrite E1. set (d := shards_status l catalogue p (sn_extra r)).
  set (pair1 := match d with Some d => _ | None => _ end).
  assert (∃ r2, pair1 = (r2, sn_status r2) ∧ sn_extra r2 = sn_extra r ∧ (is_Some d → d = Some (sn_status r2))) as (r2&Hp&E2&Hd).
  { subst pair1. destruct d as [x|]; [|exists r1; split_and!; [by rewrite H1|done|by intros []]].
    case_bool_decide as Hb; [exists r1; split_and!; [by rewrite H1|done|by rewrite Hb]|]. by exists (with_status x r1). }
  rewrite Hp. clear pair1 Hp. rewrite E2. set (loss := partition_loss_degraded_reason _ _ _ _ _ _). clearbody loss.
  set (pair2 := if negb _ && _ then _ else _).
  assert (∃ r3 dg, pair2 = (r3, dg) ∧ sn_status r3 = sn_status r2 ∧ (∀ k, k ≠ SNAPSHOT_DEGRADED_REASON_KEY → get k (sn_extra r3) = get k (sn_extra r)) ∧
            (sn_status r2 = SCompleted → truth dg = has_flag SNAPSHOT_DEGRADED_REASON_KEY (sn_extra r3))) as (r3&dg&Hp&H3&E3&D3).
  { subst pair2. destruct (negb _ && _) eqn:Eb.
    - assert (sn_status r2 ≠ SCompleted) as Hn.
      { intros Hc. bools. destruct d as [x|]; [|done]. specialize (Hd ltac:(eauto)). injection Hd as Hd. by rewrite Hc in Hd; subst x. }
      destruct loss as [reason|]; [case_bool_decide|]; (do 2 eexists; split; [done|]); split_and!; try done; intros; cbn [sn_extra with_extra]; by rewrite ?get_insert_ne, ?E2.
    - exists r2, (get SNAPSHOT_DEGRADED_REASON_KEY (sn_extra r)). split_and!; [done..|by rewrite E2|]. intros _. unfold has_flag. by rewrite E2. }
  rewrite Hp. clear pair2 Hp.
  set (pair3 := if truth dg && _ then _ else _).
  assert (∃ r4, pair3 = (r4, sn_status r4) ∧ sn_extra r4 = sn_extra r3 ∧ (sn_status r4 = SCompleted → sn_status r2 = SCompleted ∧ truth dg = false)) as (r4&Hp&E4&H4).
  { subst pair3. destruct (_ && _) eqn:Eb; [by exists (with_status SPartial r3)|]. exists r3. rewrite H3. split_and!; [done..|]. intros Hc. split; [done|].
    rewrite H3, Hc in Eb. rewrite bool_decide_eq_true_2, andb_true_r in Eb by done. done. }
  rewrite Hp. clear pair3 Hp. set (r5 := with_extra _ r4).
  assert (sn_status r5 = sn_status r4 ∧ get "partition_reconciled" (sn_extra r5) = VBool true ∧
          ∀ k, k ≠ "partition_reconciled" → k ≠ "failure_reason" → get k (sn_extra r5) = get k (sn_extra r3)) as (H5&P5&E5).
  { subst r5. cbn [sn_status sn_extra with_extra]. rewrite <- E4. split_and!; [done| |].
    - destruct (truth dg); [rewrite get_insert_ne by done|]; by rewrite get_insert.
    - intros k ? ?. destruct (truth dg); [rewrite get_insert_ne by done|]; by rewrite get_insert_ne. }
  clearbody r5. cbn [_coerce_snapshot_terminal_on_cancel]. intros H.
  assert (sn_status r' = sn_status r4 ∧ sn_extra r' = sn_extra r5 ∧ st = sn_status r4) as (->&->&->).
  { destruct (bool_decide _) in H; injection H as <- <-; cbn [sn_status sn_extra with_times with_status]; by rewrite ?H5. }
  split_and!; [done..|]. intros Hc. destruct (H4 Hc) as [H2c Hdg]. unfold has_flag. rewrite !E5 by done. split_and!.
  - rewrite <- Hdg. by rewrite (D3 H2c).
  - by rewrite E3.
  - intros Hd'. by rewrite (Hd Hd'), H2c.
Qed.

Lemma first_status_agrees now cp l hi r r1 preempted st0 :
  first_status now cp l hi r = (r1, Some (preempted, st0)) →
  sn_status r1 = st0 ∨ (preempted = true ∧ st0 = SCompleted ∧ sn_status r1 = SPartial).
Proof.
  unfold first_status. destruct (cte_update _ _ _ _ _) as [r'|].
  - destruct (_ && _); [|done]. intros [= <- <- <-]. by left.
  - destruct (_ || _ || _); [done|]. intros [= <- <- <-]. destruct (_ && _ && _) eqn:E; [right|by left]. bools. done.
Qed.

Lemma terminal_name_spec st : terminal_name st = true → st ≠ SInProgress ∧ st ≠ SPendingDeletion.
Proof. by destruct st. Qed.

Lemma first_status_terminal now cp l hi r r1 preempted st0 :
  first_status now cp l hi r = (r1, Some (preempted, st0)) → sn_status r1 ≠ SInProgress ∧ sn_status r1 ≠ SPendingDeletion.
Proof.
  unfold first_status. destruct (cte_update _ _ _ _ _) as [r'|].
  - destruct (_ && _) eqn:E; [|done]. intros [= <- _ _]. bools. by apply terminal_name_spec.
  - destruct (_ || _ || _) eqn:E; [done|]. intros [= <- _ _]. bools. by apply terminal_name_spec.
Qed.

Lemma promote_changed sid ty st catalogue res : promote_after sid ty st catalogue res ≠ res → st = SCompleted ∧ catalogue = false.
Proof.
  unfold promote_after. destruct res; [|done]. destruct (_ && _) eqn:E; [|done]. bools. by intros _.
Qed.

Lemma first_status_full now cp l hi r r1 out : first_status now cp l hi r = (r1, Some out) → ∀ s, s ∈ l → sh_terminal s = true.
Proof.
  unfold first_status. set (full := count sh_terminal l =? _). intros H. assert (full = true) as Hf.
  { destruct (cte_update _ _ _ _ _); [|]; destruct full; [done|done|done|done]. }
  unfold full, count in Hf. bools. apply Nat2Z.inj in Hf. clear -Hf. intros s Hs. destruct (sh_terminal s) eqn:E; [done|]. exfalso.
  enough (length (filter (λ s, sh_terminal s = true) l) < length l)%nat by lia. clear Hf.
  induction l as [|x l IH]; [by apply not_elem_of_nil in Hs|]. pose proof (length_filter (λ s, sh_terminal s = true) l).
  rewrite filter_cons. apply elem_of_cons in Hs as [->|Hs]; [rewrite decide_False by (by rewrite E); cbn; lia|].
  specialize (IH Hs). case_decide; cbn; lia.
Qed.

(** A promotion of the sharded finalize, when the job is not cancelled and nobody else settles the snapshot meanwhile. *)
Lemma sharded_promotion fv mail now sid ty l r l2 between res row' res' st :
  fv_cancelled fv = false → l ≠ [] → Forall2 (rtc shard_step) l l2 →
  (∀ p s0 r0, ∃ r2, between (mail p s0 r0) = Some r2 ∧ sn_status r2 = sn_status r0) →
  _finalize_partitioned_snapshot fv mail now sid ty l r l2 between res = (row', res', st) → res' ≠ res →
  ∃ r', row' = Some r' ∧ st = Some SCompleted ∧ sn_status r' = SCompleted ∧ Forall clean_shard l2 ∧ whole r' ∧
    res' = promote_after sid ty SCompleted false res.
Proof.
  intros Hc Hl Hl2 Hbt. unfold _finalize_partitioned_snapshot. destruct (_ || _); [by intros [= <- <- <-]|].
  destruct (first_status _ _ _ _ _) as [r1 [[preempted st0]|]] eqn:E1; [|by intros [= <- <- <-]].
  pose proof (first_status_agrees _ _ _ _ _ _ _ _ E1) as Ha. destruct (first_status_terminal _ _ _ _ _ _ _ _ E1) as [_ Hpd].
  pose proof (shards_stay_terminal _ _ Hl2 (first_status_full _ _ _ _ _ _ _ E1)) as Ht.
  assert (l2 ≠ []) as Hne by (intros ->; by apply Forall2_nil_inv_r in Hl2).
  destruct (Hbt preempted st0 r1) as (r2&->&Hr2). rewrite bool_decide_eq_false_2 by congruence. rewrite Hc. set (cat := is_one _).
  destruct (reconcile_snapshot _ _ _ _ _ _ _ _ _ _ r2) as [r3 st3] eqn:E3. intros [= <- <- <-] Hch.
  pose proof (promote_changed _ _ _ _ _ Hch) as [-> Hcat]. rewrite Hcat.
  apply reconcile_agrees in E3 as (H1&_&H2); [|by rewrite Hr2]. destruct (H2 eq_refl) as (Hd&Hcf&Hder).
  specialize (Hder (derived_some _ _ _ _ Hne Ht)). apply derived_completed in Hder as (_&Hcl&Hcf'). exists r3. split_and!; try done.
  split; [done|]. by rewrite Hcf.
Qed.

(** C2: when the job is not cancelled and nobody else settles the snapshot while it runs, the finalize
    of a sharded snapshot moves the resource's cursor only together with a snapshot it commits as COMPLETED, with every shard completed,
    none of them having lost a file, no recorded gap and no failed copy. The shards may change between its two transactions as
    their writers change them; that all of them are terminal by then follows from the guards. *)
Theorem sharded_cursor_is_earned fv mail now sid ty l r l2 between res row' res' st :
  fv_cancelled fv = false → l ≠ [] → Forall2 (rtc shard_step) l l2 →
  (∀ p s0 r0, ∃ r2, between (mail p s0 r0) = Some r2 ∧ sn_status r2 = sn_status r0) →
  _finalize_partitioned_snapshot fv mail now sid ty l r l2 between res = (row', res', st) → res' ≠ res →
  ∃ r', row' = Some r' ∧ st = Some SCompleted ∧ sn_status r' = SCompleted ∧ Forall clean_shard l2 ∧ whole r'.
Proof.
  intros Hc Hl Hl2 Hbt E Hn. destruct (sharded_promotion _ _ _ _ _ _ _ _ _ _ _ _ _ Hc Hl Hl2 Hbt E Hn) as (r'&?&?&?&?&?&_). by exists r'.
Qed.

Lemma reconciled_mark now cancelled preempted catalogue st0 l p b di db r r' st :
  reconcile_snapshot now cancelled preempted catalogue st0 l p b di db r = (r', st) → get "partition_reconciled" (sn_extra r') = VBool true.
Proof.
  unfold reconcile_snapshot. repeat match goal with |- (let '(_, _) := ?x in _) = _ → _ => destruct x end.
  set (r5 := with_extra _ _). assert (get "partition_reconciled" (sn_extra r5) = VBool true) as H5.
  { subst r5. cbn [sn_extra with_extra]. destruct (truth _); [rewrite get_insert_ne by done|]; apply get_insert. }
  clearbody r5. intros [= <- _]. cbn [sn_extra with_times]. destruct (bool_decide _); [|done].
  unfold _coerce_snapshot_terminal_on_cancel. destruct cancelled; [|done]. cbn [sn_extra with_status with_extra].
  unfold cancel_marks. by do 3 rewrite get_insert_ne by done.
Qed.

(** The finalize acts once. Whatever shards, views and writes the later callers see, a snapshot that a
    finalize reconciled and left terminal is not changed by another, and the cursor does not move again. *)
Theorem sharded_finalize_acts_once fv mail now sid ty l r l2 between res r' res' st :
  (∀ r0 r2, between r0 = Some r2 → sn_status r2 ≠ SPendingDeletion) →
  _finalize_partitioned_snapshot fv mail now sid ty l r l2 between res = (Some r', res', Some st) → sn_status r' ≠ SInProgress →
  ∀ fv' mail' now' l' l2' between' res'', _finalize_partitioned_snapshot fv' mail' now' sid ty l' r' l2' between' res'' = (Some r', res'', None).
Proof.
  intros Hb H Hs fv' mail' now' l' l2' between' res''. assert (get "partition_reconciled" (sn_extra r') = VBool true) as Hm.
  { revert H. unfold _finalize_partitioned_snapshot. destruct (_ || _); [done|].
    destruct (first_status _ _ _ _ _) as [r1 [[preempted st0]|]]; [|done].
    destruct (between _) as [r2|] eqn:E2; [|done]. rewrite bool_decide_eq_false_2 by (by eapply Hb).
    destruct (reconcile_snapshot _ _ _ _ _ _ _ _ _ _ _) as [r3 st3] eqn:E3. intros [= <- _ _]. by eapply reconciled_mark. }
  unfold _finalize_partitioned_snapshot. destruct (_ || _); [done|]. unfold first_status, cte_update.
  rewrite (bool_decide_eq_false_2 (sn_status r' = SInProgress)) by done. rewrite andb_false_r. cbn [andb].
  assert (ed_is "partition_reconciled" "true" (sn_extra r') = true) as -> by (unfold ed_is; by rewrite Hm). by rewrite orb_true_r.
Qed.

(** ** A shard that was taken over *)
Lemma fence_stale b s : bl_token b < lc_token (sh_lease s) → shard_fence (Some b) s = false.
Proof. intros H. unfold shard_fence. rewrite (proj2 (Z.eqb_neq _ _)) by lia. apply andb_false_r. Qed.

(** Once another worker has claimed the shard, the first one can neither settle nor release it,
    and is told so: its finalize stands down. *)
Lemma taken_shard_is_fenced now stale cp owner wid s s1 b0 b1 s2 :
  bl_token b0 <= lc_token (sh_lease s) → _claim_partition now stale cp owner wid s = (s1, Some b1) → rtc shard_step s1 s2 →
  ∀ t cp' c f y fs, _mark_partition_terminal t cp' (Some b0) c f y fs (Some s2) = (Some s2, false) ∧ release_shard t (Some b0) s2 = s2.
Proof.
  intros Hb Hcl Hr t cp' c f y fs. assert (bl_token b0 < lc_token (sh_lease s2)) as Hlt.
  { assert (bl_token b0 < lc_token (sh_lease s1)) as H1.
    { unfold _claim_partition in Hcl. destruct (_ && _); [|done]. injection Hcl as <- _. cbn. lia. }
    clear Hcl. induction Hr as [|x y' z Hxy _ IH]; [done|]. apply IH. apply shard_step_token in Hxy. lia. }
  unfold _mark_partition_terminal, release_shard, _partition_lease_moved. rewrite (fence_stale b0 s2 Hlt), !andb_false_r.
  rewrite (proj2 (Z.eqb_neq _ _)) by lia. done.
Qed.

Module ShardExample.
Definition lossless : shard_failure := ShFailure None false None.
Definition done_shard : shard_row := Shard ShCompleted (Some 0) 0 (Some 9) 4 100 lossless (Some "w1") (Cols (Some "w1") None 1).
Definition parent (ed : extra) : snap_state :=
  SnapRow "j1" "r1" 0 SInProgress false (<["partitioned" := VBool true]> ed) (Tracking None None None false []) None (Some 0) None None 0 0 0 0 (Cols (Some "w1") None 1).
Definition drive : extra := stash_pending_delta_link ∅ "link-5" (Some "s1").
Definition view (cancelled : bool) : finalize_view := FView false false false cancelled true 4 100 4 100.
Definition run (cancelled : bool) (between : snap_state → option snap_state) :=
  _finalize_partitioned_snapshot (view cancelled) (λ _ _ r, r) 10000000 "s1" "USER_ONEDRIVE" [done_shard] (parent ∅) [done_shard] between (Some drive).
Definition status_of (x : option snap_state * option extra * option snapshot_status) := sn_status <$> x.1.1.
Definition link_of (x : option snap_state * option extra * option snapshot_status) := get ONEDRIVE_DELTA_LINK_KEY (default ∅ x.1.2).

Example clean_run : status_of (run false Some) = Some SCompleted ∧ link_of (run false Some) = VStr "link-5".
Proof. by vm_compute. Qed.
(** A job cancelled while its shards drained: the snapshot is settled FAILED and its content is
    reverted, but the cursor moves past that content. *)
Example cancelled_run_promotes : status_of (run true Some) = Some SFailed ∧ link_of (run true Some) = VStr "link-5".
Proof. by vm_compute. Qed.
(** So it does when a sweeper claims the snapshot for deletion after the first statement. *)
Example claimed_run_promotes :
  let x := run false (λ r, Some (with_status SPendingDeletion r)) in status_of x = Some SPendingDeletion ∧ link_of x = VStr "link-5".
Proof. by vm_compute. Qed.
(** The first committed status of a run whose handler recorded missing content. *)
Example first_commit_is_completed :
  cte_status [done_shard] (<[SNAPSHOT_DEGRADED_REASON_KEY := VStr "3 of 9 folder drain(s) failed"]> ∅) true SInProgress = SCompleted.
Proof. by vm_compute. Qed.
(** The finalize counts lost files only: it rests on the shards' writers that a container which was
    never listed counts as a lost file. *)
Example unlisted_shard_is_completed :
  shards_status [Shard ShCompleted None 0 None 4 100 (ShFailure None true None) None (Cols None None 1)] false 4 ∅ = Some SCompleted.
Proof. by vm_compute. Qed.
(** A shard suspended for a copy: nothing is written, and the caller is told it is terminal. *)
Example suspended_shard_reads_settled :
  let s := Shard ShInProgress (Some 0) 0 None 0 0 lossless (Some "w1") (Cols (Some "w1") None 1) in
  _mark_partition_terminal 5 true (Some (Bound (Some "w1") 1)) true 4 100 None (Some s) = (Some s, true).
Proof. by vm_compute. Qed.

(** The row as the reconcile transaction finds it, unless a sweeper claimed and removed it. *)
Definition alive (r : snap_state) : option snap_state := if bool_decide (sn_status r = SPendingDeletion) then None else Some r.
Lemma alive_not_claimed r0 r2 : alive r0 = Some r2 → sn_status r2 ≠ SPendingDeletion.
Proof. unfold alive. case_bool_decide; [done|]. by intros [= <-]. Qed.
Example cancelled_run_settles : status_of (run true alive) = Some SFailed ∧ (run true alive).2 = Some SCompleted.
Proof. by vm_compute. Qed.
End ShardExample.

Lemma sharded_cursor_is_earned_witness :
  ∃ r', (ShardExample.run false Some).1.1 = Some r' ∧ sn_status r' = SCompleted ∧ whole r'.
Proof.
  pose proof (proj2 ShardExample.clean_run) as Hl. unfold ShardExample.run in *.
  destruct (_finalize_partitioned_snapshot _ _ _ _ _ _ _ _ _ _) as [[row' res'] st] eqn:E.
  assert (res' ≠ Some ShardExample.drive) as Hn by (intros ->; vm_compute in Hl; discriminate Hl).
  pose proof (λ Hc Hne Hst Hb, sharded_cursor_is_earned _ _ _ _ _ _ _ _ _ _ _ _ _ Hc Hne Hst Hb E Hn) as H.
  destruct H as (r'&Hr&_&Hs&_&Hw).
  { reflexivity. }
  { discriminate. }
  { constructor; [apply rtc_refl|constructor]. }
  { intros p s0 r0. exists r0. split; reflexivity. }
  exists r'. exact (conj Hr (conj Hs Hw)).
Defined.

Lemma sharded_finalize_acts_once_witness :
  ∃ r', (ShardExample.run true ShardExample.alive).1.1 = Some r' ∧
    ∀ fv' l', _finalize_partitioned_snapshot fv' (λ _ _ r, r) 20000000 "s1" "USER_ONEDRIVE" l' r' l' Some (Some ShardExample.drive) = (Some r', Some ShardExample.drive, None).
Proof.
  pose proof ShardExample.cancelled_run_settles as [Hs Ht]. unfold ShardExample.run in *.
  destruct (_finalize_partitioned_snapshot _ _ _ _ _ _ _ _ _ _) as [[[r'|] res'] st] eqn:E; [|discriminate Hs].
  cbn [ShardExample.status_of fst snd fmap option_fmap option_map] in Hs, Ht. subst st. exists r'. split; [reflexivity|]. intros fv' l'.
  apply (sharded_finalize_acts_once _ _ _ _ _ _ _ _ _ _ _ _ _ ShardExample.alive_not_claimed E). injection Hs as Hs. rewrite Hs. discriminate.
Defined.
