(* ===== verification/BackupRescue.v ===== *)
(** * Rescued files of a sharded drive

    Model of [src/shared/onedrive_rescue_settle.py]: a drive snapshot that lost files settles FAILED
    or PARTIAL; the retry queue may still fetch those files into the same snapshot, and once it
    has fetched every one of them this transaction settles the snapshot COMPLETED, its failed
    shards and provider leaves with it, and promotes the drive's pending delta link.

    The rows of the snapshot are a record: its job's status, the retry queue, its shards with their type,
    its drive items, the states of its provider leaves. The roll-ups of the job and of
    the batches and the resource's stamp are left out. *)

From S2P Require Import Prelude Lease Reconciler BackupHonesty BackupCursor BackupSettle BackupShards.
Local Open Scope string_scope.
Local Open Scope list_scope.
Local Open Scope Z_scope.

(** A row of [snapshot_items]: [raw_size] is [metadata->'raw'->>'size']. *)
Record drive_item := DriveItem {
  di_type : string; di_blob : option string; di_deleted : option bool; di_raw_size : option Z; di_size : option Z;
}.
(** The tables of one snapshot. *)
Record rescue_db := RescueDb {
  rz_job : option string;                        (** the status of its job, if the job exists *)
  rz_snap : snap_state;
  rz_retries : list string;                      (** statuses in [onedrive_file_retries] *)
  rz_shards : list (string * shard_row);         (** partition type and shard *)
  rz_items : list drive_item;
  rz_leaves : list string;                       (** states of its [provider_work] *)
}.

(** [_PARENT]: the job is there and not cancelled. *)
Definition parent_live (job : option string) : bool :=
  match job with Some st => bool_decide (st ∉ ["CANCELLED"; "CANCELLING"]) | None => false end.

Definition file_loss_prefix : string := "OneDrive required file content failed for ".
(** A shard the rescue cannot vouch for. *)
Definition shard_blocks (p : string * shard_row) : bool :=
  let '(ty, s) := p in
  negb (bool_decide (ty = "ONEDRIVE_FILES"))
  || negb (sh_terminal s)
  || (bool_decide (sh_status s = ShFailed) && negb (String.prefix file_loss_prefix (default "" (sf_message (sh_failure s)))))
  || sf_enum_incomplete (sh_failure s)
  || match sf_files_failed (sh_failure s) with Some n => 0 <? n | None => false end.
(** A file that should have a blob and has none. *)
Definition item_missing (it : drive_item) : bool :=
  bool_decide (di_type it = "ONEDRIVE_FILE") && bool_decide (default "" (di_blob it) = "")
  && negb (default false (di_deleted it))
  && (0 <? match di_raw_size it, di_size it with Some n, _ => n | None, Some n => n | None, None => 1 end).

(** [_ELIGIBLE]. *)
Definition eligible (db : rescue_db) : bool :=
  bool_decide (sn_status (rz_snap db) ∈ [SFailed; SPartial])
  && negb (ed_nonempty "cancelled_at" (sn_extra (rz_snap db)))
  && existsb (λ q, bool_decide (q = "RESCUED")) (rz_retries db)
  && forallb (λ q, bool_decide (q = "RESCUED")) (rz_retries db)
  && negb (bool_decide (rz_shards db = []))
  && forallb (λ p, negb (shard_blocks p)) (rz_shards db)
  && forallb (λ it, negb (item_missing it)) (rz_items db).

(** [_SNAPSHOT]; [now] is [now()::text]. *)
Definition rescue_snapshot (now : string) (r : snap_state) : snap_state :=
  with_status SCompleted
    (with_extra (<["rescued_after_finalize" := VStr now]> (delete "failure_reason" (delete SNAPSHOT_DEGRADED_REASON_KEY (sn_extra r)))) r).
(** [_SHARDS]: the new [failure_state] has none of the keys the model reads. *)
Definition rescue_shard (p : string * shard_row) : string * shard_row :=
  let '(ty, s) := p in
  if bool_decide (sh_status s = ShFailed)
  then (ty, Shard ShCompleted (sh_started s) (sh_enqueued s) (sh_completed s) (sh_files s) (sh_bytes s) (ShFailure None false None) (sh_worker s) (sh_lease s))
  else p.
(** [_PROVIDER]. *)
Definition rescue_leaf (st : string) : string := if bool_decide (st ∈ ["FAILED"; "PARTIAL"]) then "COMPLETED" else st.
(** [_CURSOR] on the resource's [extra_data]. *)
Definition rescue_cursor (sid : string) (ed : extra) : extra :=
  let owner := pending_cursor_owner_key ONEDRIVE_DELTA_LINK_PENDING_KEY in
  if json_text_is sid (get owner ed) && negb (empty_value (get ONEDRIVE_DELTA_LINK_PENDING_KEY ed))
  then <[ONEDRIVE_DELTA_LINK_KEY := get ONEDRIVE_DELTA_LINK_PENDING_KEY ed]> (delete owner (delete ONEDRIVE_DELTA_LINK_PENDING_KEY ed))
  else ed.

(** [settle_rescued_onedrive_snapshot]. *)
Definition settle_rescued_onedrive_snapshot (now sid : string) (db : rescue_db) (ed : extra) : rescue_db * extra * bool :=
  if negb (parent_live (rz_job db)) then (db, ed, false)
  else if negb (eligible db) then (db, ed, false)
  else (RescueDb (rz_job db) (rescue_snapshot now (rz_snap db)) (rz_retries db) (rescue_shard <$> rz_shards db) (rz_items db) (rescue_leaf <$> rz_leaves db),
        rescue_cursor sid ed, true).

(** ** What a rescue proves *)

(** A shard whose content is complete: it finished without a loss, or lost files only. *)
Definition file_loss_only (s : shard_row) : Prop :=
  sh_lossy s = false ∧ sf_enum_incomplete (sh_failure s) = false ∧
  (sh_status s = ShCompleted ∨ (sh_status s = ShFailed ∧ String.prefix file_loss_prefix (default "" (sf_message (sh_failure s))) = true)).

Lemma shard_vouched p : shard_blocks p = false → p.1 = "ONEDRIVE_FILES" ∧ file_loss_only p.2.
Proof.
  destruct p as [ty s]. unfold shard_blocks, file_loss_only, sh_lossy. intros H. bools. cbn [fst snd]. split_and!; [done..|].
  unfold sh_terminal in *. match goal with H : _ || _ = true |- _ => apply orb_true_iff in H as [Hs|Hs] end; bools; [by left|right].
  match goal with H : _ && _ = false |- _ => apply andb_false_iff in H as [H|H] end; bools; done.
Qed.

Record rescuable (db : rescue_db) : Prop := {
  rs_open : sn_status (rz_snap db) ∈ [SFailed; SPartial];
  rs_uncancelled : parent_live (rz_job db) = true ∧ ed_nonempty "cancelled_at" (sn_extra (rz_snap db)) = false;
  rs_fetched : rz_retries db ≠ [] ∧ Forall (eq "RESCUED") (rz_retries db);
  rs_sharded : rz_shards db ≠ [] ∧ Forall (λ p, p.1 = "ONEDRIVE_FILES" ∧ file_loss_only p.2) (rz_shards db);
  rs_stored : Forall (λ it, item_missing it = false) (rz_items db);
}.

Lemma eligible_rescuable db : parent_live (rz_job db) = true → eligible db = true → rescuable db.
Proof.
  unfold eligible. intros Hp H. bools. repeat match goal with H : forallb _ _ = true |- _ => rewrite forallb_forall in H end.
  match goal with H : existsb _ _ = true |- _ => apply existsb_exists in H as (q&Hq&_) end.
  split; try done.
  - split; [by intros E; rewrite E in Hq|]. apply Forall_forall. intros x Hx%list_elem_of_In. symmetry. eapply bool_decide_eq_true_1. eauto.
  - split; [done|]. apply Forall_forall. intros p Hx%list_elem_of_In. apply shard_vouched. apply negb_true_iff. eauto.
  - apply Forall_forall. intros p Hx%list_elem_of_In. apply negb_true_iff. eauto.
Qed.

Lemma rescue_clean p : file_loss_only p.2 → clean_shard (rescue_shard p).2.
Proof.
  destruct p as [ty s]. unfold rescue_shard, clean_shard. cbn. intros (Hl&_&Hs). case_bool_decide; [done|]. cbn. split; [|done].
  destruct Hs as [?|[? _]]; done.
Qed.

Lemma clean_shards_status l catalogue n ed :
  l ≠ [] → Forall clean_shard l → has_flag "copy_required_failed" ed = false → shards_status l catalogue n ed = Some SCompleted.
Proof.
  intros Hl Hc Hf. rewrite Forall_forall in Hc. unfold shards_status.
  assert (∀ p, (∀ s, s ∈ l → p s = false) → count p l = 0) as Hz by (intros p; apply count_zero).
  rewrite (Hz (λ s, negb (sh_terminal s))), (Hz (sh_is ShFailed)), (Hz sh_lossy); cycle 1.
  { by intros s [_ ?]%Hc. }
  { intros s [E _]%Hc. unfold sh_is. by rewrite E. }
  { intros s [E _]%Hc. unfold sh_terminal. by rewrite E. }
  assert (0 < Z.of_nat (length l)) as Hn by (destruct l; [done|cbn; lia]).
  rewrite (proj2 (Z.ltb_lt _ _) Hn), Hf. rewrite (proj2 (Z.eqb_neq 0 (Z.of_nat (length l)))) by lia. done.
Qed.

(** C3: the rescue settles a snapshot only on proof: its job is live, every file the retry queue holds
    for it was fetched, every shard finished without loss or failed on file content alone, and every non-empty file of the drive has a
    blob. What it leaves is consistent: the snapshot and all its shards are COMPLETED, a re-derivation of the snapshot from
    its shards gives COMPLETED again (unless a required copy failed), a second rescue changes nothing, and a refused one changes nothing either. *)
Theorem rescue_is_proven now sid db ed db' ed' settled :
  settle_rescued_onedrive_snapshot now sid db ed = (db', ed', settled) →
  if settled then
    rescuable db ∧ sn_status (rz_snap db') = SCompleted ∧ Forall (λ p, clean_shard p.2) (rz_shards db') ∧
    (∀ l, l ∈ rz_leaves db' → l ≠ "FAILED" ∧ l ≠ "PARTIAL") ∧
    (has_flag "copy_required_failed" (sn_extra (rz_snap db')) = false → ∀ catalogue n,
       shards_status (rz_shards db').*2 catalogue n (sn_extra (rz_snap db')) = Some SCompleted) ∧
    (∀ now', settle_rescued_onedrive_snapshot now' sid db' ed' = (db', ed', false))
  else db' = db ∧ ed' = ed.
Proof.
  unfold settle_rescued_onedrive_snapshot. destruct (parent_live (rz_job db)) eqn:Ep; [|by intros [= <- <- <-]]. cbn [negb].
  destruct (eligible db) eqn:Ee; [|by intros [= <- <- <-]]. intros [= <- <- <-]. cbn [negb rz_job rz_snap rz_retries rz_shards rz_items rz_leaves].
  pose proof (eligible_rescuable db Ep Ee) as Hr. destruct (rs_sharded db Hr) as [Hne Hsh].
  assert (Forall (λ p, clean_shard p.2) (rescue_shard <$> rz_shards db)) as Hcl.
  { apply Forall_fmap. eapply Forall_impl; [exact Hsh|]. intros p [_ Hp]. by apply rescue_clean. }
  split_and!; [done|done|done| | |].
  - intros l (l0&->&_)%list_elem_of_fmap. unfold rescue_leaf. case_bool_decide as Hl; [done|]. split; intros ->; apply Hl; [left|right; left].
  - intros Hf catalogue n. apply clean_shards_status; [|by apply Forall_fmap|done]. by destruct (rz_shards db).
  - intros now'. rewrite Ep. unfold eligible. cbn [rz_snap]. rewrite bool_decide_eq_false_2; [done|]. cbn. by intros [?|[?|[]%not_elem_of_nil]%elem_of_cons]%elem_of_cons.
Qed.

(** The statement moves the link as [promote_pending_delta_link] does for the run that stashed it. *)
Theorem rescue_cursor_promotes sid ed o link :
  get (pending_cursor_owner_key ONEDRIVE_DELTA_LINK_PENDING_KEY) ed = VStr o → o ≠ "" →
  get ONEDRIVE_DELTA_LINK_PENDING_KEY ed = VStr link → link ≠ "" →
  rescue_cursor sid ed = (promote_pending_delta_link ed (Some sid)).1.
Proof.
  intros Ho Hne Hl Hln. unfold rescue_cursor, promote_pending_delta_link, _claim_pending_cursor.
  set (ok := pending_cursor_owner_key _) in *. set (pk := ONEDRIVE_DELTA_LINK_PENDING_KEY) in *.
  assert (pk ≠ ok) as Hk by by vm_compute.
  rewrite (get_delete_ne pk ok), Ho, Hl by done. cbn [json_text_is truth owner_is from_option]. change (id sid) with sid.
  rewrite (bool_decide_eq_false_2 (link = "")), (bool_decide_eq_false_2 (o = "")) by done.
  assert (empty_value (VStr link) = false) as -> by (unfold empty_value; rewrite !bool_decide_eq_false_2; [done|by intros [=]|by intros [=]]). cbn [negb orb andb].
  rewrite andb_true_r. destruct (bool_decide (o = sid)); cbn [negb fst]; [done|].
  apply map_eq. intros k. destruct (decide (k = ok)) as [->|]; [rewrite lookup_insert_eq|rewrite lookup_insert_ne by done].
  - revert Ho. unfold get. destruct (ed !! ok); cbn; congruence.
  - destruct (decide (k = pk)) as [->|]; [rewrite lookup_insert_eq|rewrite lookup_insert_ne, !lookup_delete_ne by done; done].
    revert Hl. unfold get. destruct (ed !! pk); cbn; congruence.
Qed.

Lemma rescue_cursor_effect sid ed : 
  let ak := ONEDRIVE_DELTA_LINK_KEY in let pk := ONEDRIVE_DELTA_LINK_PENDING_KEY in
  (∀ k c, cursor_at ak (rescue_cursor sid ed) k = Some c → cursor_at ak ed k = Some c ∨ (json_text_is sid (pending_owner pk ed) = true ∧ cursor_at pk ed k = Some c)) ∧
  (∀ k c, cursor_at pk (rescue_cursor sid ed) k = Some c → cursor_at pk ed k = Some c ∧ pending_owner pk (rescue_cursor sid ed) = pending_owner pk ed).
Proof.
  cbv zeta. unfold rescue_cursor, pending_owner. set (ok := pending_cursor_owner_key _). destruct (_ && _) eqn:E; [|by split; auto].
  bools. unfold cursor_at. rewrite get_insert. split; [by right|]. intros k c.
  rewrite get_insert_ne by by vm_compute. rewrite get_delete_ne by by vm_compute. by rewrite get_delete.
Qed.

Module RescueExample.
Definition failed_shard : shard_row :=
  Shard ShFailed (Some 0) 0 (Some 9) 786 100 (ShFailure None false (Some "OneDrive required file content failed for 2 file(s)")) (Some "w1") (Cols None None 2).
Definition snap : snap_state := with_status SFailed (ShardExample.parent ∅).
Definition items (blob : option string) : list drive_item :=
  [DriveItem "ONEDRIVE_FILE" (Some "b1") None (Some 10) (Some 10); DriveItem "ONEDRIVE_FILE" blob None (Some 10) None;
   DriveItem "ONEDRIVE_FILE" None None (Some 0) None; DriveItem "ONEDRIVE_FOLDER" None None None None].
Definition db (retries : list string) (blob : option string) : rescue_db :=
  RescueDb (Some "PARTIAL") snap retries [("ONEDRIVE_FILES", ShardExample.done_shard); ("ONEDRIVE_FILES", failed_shard)] (items blob) ["PARTIAL"; "COMPLETED"].
Definition run (retries : list string) (blob : option string) := settle_rescued_onedrive_snapshot "now" "s1" (db retries blob) ShardExample.drive.
Example rescued : (run ["RESCUED"; "RESCUED"] (Some "b2")).2 = true ∧
  get ONEDRIVE_DELTA_LINK_KEY (run ["RESCUED"; "RESCUED"] (Some "b2")).1.2 = VStr "link-5".
Proof. by vm_compute. Qed.
Example one_file_left : run ["RESCUED"; "PENDING"] (Some "b2") = (db ["RESCUED"; "PENDING"] (Some "b2"), ShardExample.drive, false).
Proof. reflexivity. Qed.
Example no_blob : (run ["RESCUED"] None).2 = false.
Proof. by vm_compute. Qed.
End RescueExample.

Lemma rescue_is_proven_witness : ∃ db' ed', RescueExample.run ["RESCUED"; "RESCUED"] (Some "b2") = (db', ed', true) ∧ sn_status (rz_snap db') = SCompleted.
Proof.
  destruct (RescueExample.run ["RESCUED"; "RESCUED"] (Some "b2")) as [[db' ed'] b] eqn:E.
  assert (b = true) as -> by (pose proof (proj1 RescueExample.rescued) as H; rewrite E in H; exact H).
  exists db', ed'. split; [reflexivity|]. exact (proj1 (proj2 (rescue_is_proven _ _ _ _ _ _ _ E))).
Defined.
