(* ===== verification/BackupReach.v ===== *)
(** * A cursor never passes content that was not kept

    Runs of one resource interleave: they enumerate the provider's changes from the active
    cursor, stash the position they reached, capture what they listed, and settle. Every writer
    of the resource's [extra_data] reads the whole value, changes its slots and writes the whole
    value back without a lock, so a write may start from any value the row has held.

    All four writers that promote a cursor are steps: the inline finalize ([BackupSettle]), the sharded one
    ([BackupShards]), the resumption of a run that waited for a copy, and the rescue of a drive
    ([BackupRescue]). Anyone may change the rows of the snapshots meanwhile in any way, demote a COMPLETED
    one or delete it included; that a run was settled COMPLETED is a fact of the history ([b_done]).

    The provider keeps a log of changes per id (one for a drive, one per calendar or contact
    folder). A cursor is an opaque text; [pos] is the position in the log it stands for, and a walk from a cursor ends with one
    for the end of the log. *)

From S2P Require Import Prelude Reconciler BackupHonesty BackupCursor BackupSettle BackupShards BackupRescue.
Local Open Scope string_scope.
Local Open Scope list_scope.
Local Open Scope nat_scope.

(** What an enumeration of a resource of type [ty] writes back. *)
Definition stash_for (ty : string) (ed : extra) (values : gmap string string) (s : string) (dead : list string) : option extra :=
  match cursor_slots ty with
  | None => Some ed
  | Some (pk, ak) =>
    if bool_decide (ty = "USER_ONEDRIVE")
    then Some (match values !! "" with Some link => stash_pending_delta_link ed link (Some s) | None => ed end)
    else stash_and_evict ed pk ak values (Some s) dead
  end.

Section runs.
  Context (pos : string → nat) (ty pk ak : string) (Hslots : cursor_slots ty = Some (pk, ak)).





























End runs.

(** A run that stashed the cursors of what it listed and settles COMPLETED moves each of
    them into the active slot, provided that no other run stashed after it; the cursors of ids it did not list stay. *)
Theorem completed_run_advances ty pk ak ed values s ed1 vw now r r' res' :
  cursor_slots ty = Some (pk, ak) → s ≠ "" → values ≠ ∅ → (ty = "USER_ONEDRIVE" → ∃ link, values = {[ "" := link ]} ∧ link ≠ "") →
  stash_for ty ed values s [] = Some ed1 →
  whole r → vw_cancelled vw = false → is_one (get "chat_inventory_format" (sn_extra r)) = false →
  _settle_inline_snapshot_finalize vw now s ty r (Some ed1) = Some (r', Some res', Settled SCompleted) →
  (∀ k t, values !! k = Some t → cursor_at ak res' k = Some t) ∧
  (∀ k t, values !! k = None → cursor_at ak res' k = Some t → cursor_at ak ed k = Some t).
Proof.
  intros Hsl Hs Hv Hdrive Hst Hw Hc Hf Hset.
  apply settle_inline_settled in Hset as (_&_&_&_&_&Hk&_&Hp).
  destruct (Hp eq_refl) as (ed'&p&[= <-]&Hpr); [by rewrite Hk|].
  assert (pending_owner pk ed1 = VStr s ∧ (∀ k, cursor_at pk ed1 k = values !! k) ∧ ∀ k t, cursor_at ak ed1 k = Some t → cursor_at ak ed k = Some t) as (Ho&Hpend&Hact).
  { unfold stash_for in Hst. rewrite Hsl in Hst. destruct (bool_decide (ty = "USER_ONEDRIVE")) eqn:Et.
    - bools. subst ty. destruct Hdrive as (link&->&Hl); [done|]. rewrite lookup_singleton_eq in Hst. apply (inj Some) in Hst. rewrite <- Hst.
      unfold cursor_slots in Hsl. rewrite bool_decide_eq_true_2 in Hsl by done. injection Hsl as <- <-.
      destruct (stash_link_effect ed link s) as (H1&H2&H3). split_and!; [done| |intros k t; by rewrite H1]. intros k. rewrite H3. cbn.
      rewrite (bool_decide_eq_false_2 (link = "")), andb_true_r by done. case_bool_decide as Hk0; [by subst k|].
      by rewrite lookup_singleton_ne.
    - apply (stash_effect _ _ _ _ _ _ _ _ Hsl) in Hst as [H1 H2]. rewrite bool_decide_eq_false_2 in H2 by done. destruct H2. done. }
  destruct (promote_effect _ _ _ _ _ _ _ Hsl Hpr) as (He&Ha&Hm&_&_).
  assert (p = true) as ->.
  { rewrite He. unfold entitled. rewrite Ho. cbn [truth owner_is]. rewrite (bool_decide_eq_true_2 (s = default "" (Some s))), orb_true_r, andb_true_r by done.
    apply map_choose in Hv as (k&t&Hkt). eapply cursor_truth. unfold cursor_at in Hpend. by rewrite Hpend. }
  split; intros k t Hkt; [apply Hm; [done|by rewrite Hpend]|]. intros [Hk'|[_ Hk']]%Ha; [by apply Hact|]. rewrite Hpend in Hk'. congruence.
Qed.

Module ReachExample.
Definition ty : string := "USER_ONEDRIVE".
Definition pk : string := ONEDRIVE_DELTA_LINK_PENDING_KEY.
Definition ak : string := ONEDRIVE_DELTA_LINK_KEY.
Definition row : snap_state := fresh_snapshot 0 None "j1" "r1" false ∅.
Definition values : gmap string string := {[ "" := "L2" ]}.
Definition vw : settle_view := View true false true false.
Definition stashed : extra := default ∅ (stash_for ty ∅ values "s1" []).
Definition settled := _settle_inline_snapshot_finalize vw 5000000 "s1" ty row (Some stashed).
Definition settled_row : snap_state := match settled with Some (r, _, _) => r | None => row end.
Definition promoted : extra := match settled with Some (_, Some ed, _) => ed | _ => ∅ end.

Lemma settled_is : settled = Some (settled_row, Some promoted, Settled SCompleted).
Proof. by vm_compute. Qed.

End ReachExample.


Lemma completed_run_advances_witness : cursor_at ReachExample.ak ReachExample.promoted "" = Some "L2".
Proof.
  refine (proj1 (completed_run_advances ReachExample.ty ReachExample.pk ReachExample.ak ∅ ReachExample.values "s1" ReachExample.stashed ReachExample.vw 5000000
                   ReachExample.row ReachExample.settled_row ReachExample.promoted _ _ _ _ _ _ _ _ ReachExample.settled_is) "" "L2" _);
    [reflexivity|discriminate|apply map_non_empty_singleton| |reflexivity|split; reflexivity|reflexivity|reflexivity|reflexivity].
  intros _. exists "L2". split; [reflexivity|discriminate].
Defined.

Module StaleExample.
(** Two attempts of one run: the first stashed a contact folder's cursor and died before it stored
    anything; the redelivered attempt lists no new cursor at all. The empty stash keeps the first one's, and the run promotes it. *)
Definition slots := (CONTACTS_DELTAS_PENDING_KEY, CONTACTS_DELTAS_KEY).
Definition after (values : list (gmap string string)) : option (gmap string string) :=
  let ed := foldl (λ ed v, stash_pending_cursor_map ed slots.1 v (Some "s1")) (∅ : extra) values in
  match promote_pending_cursor_map ed slots.1 slots.2 (Some "s1") with
  | Some (ed, _) => match get slots.2 ed with VMap m => Some m | _ => None end
  | None => None end.
Example first_attempt_survives : after [{[ "folder" := "t1" ]}; ∅] = Some {[ "folder" := "t1" ]}.
Proof. by vm_compute. Qed.
Example second_attempt_replaces : after [{[ "folder" := "t1" ]}; {[ "other" := "t2" ]}] = Some {[ "other" := "t2" ]}.
Proof. by vm_compute. Qed.
End StaleExample.
